(* ===== verification/_CoqProject ===== *)
-Q . S2P
Prelude.v
Chars.v
Numbers.v
Paths.v
Effect.v
Journal.v
Precondition.v
Accounts.v
World.v
Repository.v
Apply.v
Observe.v
WorldAccounts.v
WorldFiles.v
WorldNames.v
WorldFrame.v
WorldUndo.v
Undone.v
WorldAfter.v
Events.v
Outbox.v
EventTree.v
Validate.v
TreeSim.v
TreeValid.v
Nixlog.v
NixProgress.v
NixProgressSpec.v
Output.v
OutputSpec.v
Diagnose.v
Locks.v
LocksSpec.v
Explain.v
Document.v
DocumentSpec.v
Runner.v
RunnerSafe.v
RunnerSpec.v
RunnerStory.v
Drive.v
Performer.v
Atomic.v
Recovery.v
Predict.v
Pins.v
LockFile.v
Packages.v
Policy.v
Trace.v
Capture.v
JournalFile.v
Crash.v
Declared.v
DeclTree.v
DeclTreeLink.v
DeclTreeWalk.v
DeclTreeSpec.v
Targets.v
TargetsSpec.v
Health.v
HealthHeals.v
HealthRepair.v
HealthTypes.v
Inspection.v
InspectionSpec.v
Nix.v
NixParse.v
NixReads.v
NixText.v
NixOrder.v
NixRound.v
NixReadBack.v
NixTyped.v
NixFiles.v
NixFilesSpec.v
Installable.v
Plans.v
PlanKeys.v
PlansSpec.v
