(* ===== verification/Prelude.v ===== *)
(** * mix: a verification of its request engine

    [mix] is a package manager front end over Nix: a client and a daemon that bring a
    system to a declared state, undo what they did when something fails, and tell the
    client what happens as a stream of events.  This library models the program's core,
    the crates [core], [events], [nixlog] and [nixgen] with the drive loop, the locks and the
    journal files of [shell], and proves what makes it safe to interrupt and what it leaves
    behind right.

    ** The parts and how they meet

    A request is a list of steps.  The runner ([core/src/run/mod.rs]) is a state machine
    that checks and executes them; it performs nothing, it answers with the next query or
    action.  The drive loop ([shell/src/drive.rs]) performs what the runner asks, announces
    each change in the request's journal before making it and settles it after.  When a
    step fails or the request is cancelled the runner undoes what was done, in the order
    [rollback_order] ([core/src/run/journal.rs]) gives.  When the process dies, the next
    one reads the journal and [recover] says what is left to undo.  Throughout, the runner
    and the loop report to an event tree ([events/src/tree.rs]) whose events a queue
    ([events/src/outbox.rs]) hands to the client, thinning out gauges nobody read; a
    validator ([events/src/validate.rs]) says which streams are well formed.

    Which steps a request has comes from a tree of targets it declares
    ([core/src/declared/]): the audit looks at each target and says what is wrong with it,
    and repair answers the actions that mend it ([core/src/ops/health/]); bootstrap, a change
    of packages, an update, a removal and a cleaning put their steps together of these and a
    few of their own ([core/src/ops/]).  The files a user's configuration consists of are Nix
    expressions the program prints ([nixgen/]), and what nix writes while it works is read
    line by line ([nixlog/], [shell/src/effect/exec/output.rs]).  Requests of several
    processes meet at one lock file and at a mutex for each user ([shell/src/request/lock.rs]).

    What an action does is defined twice in the program: by the performer, on a real
    system, and by [World::apply] ([core/src/model/]), on a system in memory.  The second is
    what dry runs and the program's own tests are judged by, and it is modelled here in
    full: the preconditions of each action, its effect and the undo it returns.

    ** The files

    - [Prelude], [Chars], [Numbers]: results, strings as bytes, text, numbers, list
      operations of Rust's library, lemmas.
    - [Paths]: paths as components, their prefixes, parents and ancestors; the names in
      [core/src/declared/paths.rs].
    - [Effect]: actions, facts, failures ([core/src/effect/]).
    - [Journal]: records, rollback order, recovery ([core/src/run/journal.rs]).
    - [Precondition], [Accounts]: what an action on files or accounts requires, and the undo
      of one on accounts ([core/src/effect/precondition/]), against the classes [Ground] and
      [Accounts].
    - [World], [Repository], [Apply], [Observe]: the modelled world, its git repositories,
      [World::apply] with an operation for each arm, and what is observed and seeded
      ([core/src/model/]).  [WorldAccounts], [WorldFiles], [WorldNames], [WorldUndo] and
      [Undone] show that actions are undone and that undoing what was never done changes
      nothing, [WorldFrame] what they never touch, [WorldAfter] what they leave.
    - [Events], [Outbox], [EventTree], [Validate]: the schema, the queue, the tree and the
      validator of [events/].  [TreeSim] and [TreeValid] relate the tree to the validator.
    - [Nixlog], [NixProgress], [Diagnose]: what an error output says, the counters
      of a running nix, how a failure or an error is reported and what its code is called
      ([nixlog/src/lib.rs], [core/src/report/diagnose/mod.rs], [core/src/error.rs],
      [events/src/code.rs]); [NixProgressSpec] says what the counters count.
    - [Output], [OutputSpec]: the output of a child process ([shell/src/effect/exec/]).
    - [Trace], [Capture]: what a trace tells of a run ([core/src/report/trace/mod.rs]), and the
      capture of a stream of events ([events/src/capture/mod.rs]).
    - [Explain], [Document], [DocumentSpec]: what is said of a code, and the document that
      [--json] prints of a request ([explain/src/codes/], [render/src/document/mod.rs]).
    - [Locks], [LocksSpec]: taking and giving back the machine's and a user's lock, as a step
      relation over any requests of any processes ([shell/src/request/lock.rs],
      [core/src/run/locks.rs]).
    - [Runner]: the state machine, one [turn_*] per arm of the loop of [step].
      [RunnerSafe] has its invariant, [RunnerSpec] what follows of it for [step] and for
      rollbacks, [RunnerStory] what a run of dependent steps can answer next.
    - [Drive]: the loop against two interfaces, a [Machine] and a [JournalStore].
    - [Performer], [Atomic]: the performer on a modelled world is a [Machine], and a run of
      the loop on it is all or nothing.
    - [Recovery], [JournalFile], [Crash]: the journal's file, recovery from every file of a
      directory, and what becomes of a file that was cut off
      ([shell/src/effect/journal/mod.rs]).
    - [Predict]: dry runs, which seed a world from the system and act on it.
    - [Pins], [LockFile], [Packages], [Policy]: what a user declares: the pinned inputs and what an
      update makes of them, the lock file written ([core/src/declared/pins.rs], [core/src/ops/update.rs],
      [nixgen/]), the package list with [install] and [remove]
      ([core/src/declared/state.rs], [core/src/ops/change/mod.rs]), the mirror and the
      machine's policy ([events/src/mirror.rs], [core/src/declared/policy.rs]).
    - [Declared], [Targets]: the targets, their modes, categories and labels, and the tree
      of them each intent declares ([core/src/declared/targets.rs]).  [DeclTree] is the
      builder of such trees and the walk that lists their checks
      ([core/src/declared/tree/mod.rs]); [DeclTreeLink] has the invariant of its nodes,
      [DeclTreeWalk] reads the walk as one over a rose tree, [DeclTreeSpec] and
      [TargetsSpec] have what follows for trees and for intents.
    - [Health], [Inspection]: what is found about a target, shown of it and done about it, and
      the audit of a tree ([core/src/ops/health/mod.rs], [core/src/report/inspection.rs]).
      [HealthTypes] shows that no answer is misread, [HealthHeals] and [HealthRepair]
      that repair heals, [InspectionSpec] what an audit reports.
    - [Plans]: the steps of every request and their plans ([core/src/ops/]);
      [PlanKeys] and [PlansSpec] show that they keep to the runner's rules.
    - [Nix], [NixParse]: Nix expressions, the writer and the parser ([nixgen/src/ast.rs],
      [print.rs], [parse.rs]); [NixText], [NixOrder], [NixReads], [NixRound],
      [NixReadBack] and [NixTyped] relate them.  [NixFiles] and [NixFilesSpec]: the home
      module and the flake; [Installable]: how an attribute is named to nix.

    ** Conventions

    A variant [E::V] is the constructor [E_V], a method [T::m] usually [m] or [t_m].  A
    panic (an [expect], an index out of range, an answer of the wrong kind) is [None] or
    [Stepped_Panic]; a [Result] is [result E A]; mutation is state passing.  [u64] and
    [usize] counters are [N] or [nat]: they count events, nodes and records of one request
    and cannot reach their width.  Enumerations of the wire format are numbers, [Z], as in
    the generated code.  Bytes and text are [string].  A [BTreeMap] is a [gmap], its keys
    sorted where their order shows.  A world is well formed ([world_ok]) when its paths are
    absolute and lie in directories, its accounts are consistent and no name is one that
    [sibling] will still make; worlds are equal ([world_eq]) as [World::eq] says.

    ** What is shown

    - All or nothing ([Atomic]): loop, runner and world together, a run of dependent steps
      that does not reach its commit leaves the world as it found it ([run_atomic]).  It
      rests on what holds of the world alone ([Undone]): the undo an action returns takes it
      back ([action_undone]), also many at once in rollback order ([rollback_restores]), and
      what is refused changes nothing ([refused_unchanged], [apply_frame]); and on the loop.
    - Dry runs ([Predict]): seeding a world with what was observed makes the same entries
      ([seed_observed]), and predicting a file action comes out as performing it would
      ([dry_run_verdict]).  What is put aside has a name that is recognised
      ([put_aside_recognised]).
    - Crashes ([Drive]): at every moment of a run the journal says what the run knows.
      Recovering from it undoes exactly what the runner would undo, in the same order, and
      during a rollback at least all that is left ([crash_safe]); the undo of an action is
      on record before the action changes anything ([write_ahead]); every run returns and
      leaves its journal decided ([drive_leaves], [drive_finishes]).
    - The runner ([RunnerSpec]): [step] returns, whatever it is answered, without a panic
      and nearer to its end ([step_returns]); a failure or a stop undoes everything, and
      nothing diverts a rollback ([failure_unwinds], [rollback_goes_on]); the undos are
      those of recovery ([unwind_agrees]).
    - Recovery and order ([Journal]): what is undone and how often
      ([recover_written], [recover_resumes], [recover_resumes_each], [recover_decided]);
      reverse order, unit files before units, syncs last ([rollback_order_spec]).  One
      theorem, [recover_out_of_order], shows two journals on which a resumed recovery
      differs from the rollback it resumes.
    - Journal files: a run going forward that is cut off at any action, in any byte of a
      record, is taken back by the next process to the world it began with
      ([crash_recovers]).  What is appended behind a torn record is lost ([torn_poisons]),
      and a record torn inside a char makes its journal unreadable for good
      ([torn_char_sticks]).
    - Locks: who needs the machine alone has it alone, and a user is one request's at a time
      ([locks_exclude]); nothing panics, every request gets through, whoever is stopped or
      fails, and nothing stays behind ([locks_serve]); who waits is told who holds the
      machine ([holder_named]).
    - Events: any use of the tree, misuse included, gives a stream the validator accepts,
      however it is read ([tree_streams_valid]); the outbox drops only superseded gauges
      ([outbox_thins], [drain_live]); abandoning a node closes its subtree
      ([abandon_closes]).
    - What is declared: listing the checks of a tree ends and lists exactly what was declared
      ([finish_lists]), in an order in which each check waits only for earlier ones
      ([finish_ordered]), what is above a path before it on the way down and after it on
      the way up ([finish_nests]); every intent has such a tree ([tree_for_returns]), and a
      user's own touches nothing but what is theirs ([user_tree_confined]).  A change of the
      package list leaves one that is read back ([change_stays_valid]) and can be taken back
      ([install_remove]); nothing is smuggled into [nix.conf] ([nix_conf_lines]), the
      policy file and the lock file read back ([policy_parse_render], [lock_round_trip]), and modes settle ([settled_stays]).
    - Health and plans: inspection and repair read every answer as what it is
      ([inspection_typed]), a repaired target is found in order ([repair_heals]), an audit
      reports on every check and blames the right one ([audit_reports]), no secret is shown
      ([drift_hides]).  Every plan may be run ([plan_starts]), but for a user called like a
      step ([record_user_panics]).
    - Nix: what is printed is read back ([parse_print]) and what is read could have been
      printed ([parse_typed]); the home module and the flake are the text of the expression
      they were made of ([home_reads], [flake_reads]), and no two attributes are named alike
      ([render_injective]).
    - The result document: of every stream the validator accepts it is complete, and says of
      each step and change what the whole stream says ([document_exact]).
    - Captures: what is written is read back, but for events that went back in time
      ([capture_reads_back]); a trace tells nothing of what is in a file
      ([trace_keeps_contents]).
    - Child processes: the reporter is told the same however output is cut into chunks
      ([chunks_agree]), and nix's progress is what its records add up to ([counters_exact]).
    - Errors: every failure has a code of its own ([diagnostic_errors]); no escape sequence
      survives in an error's text ([without_escapes_spec]).

    ** Interfaces, fuel and bounds

    What performs actions and answers queries is a [Machine]: any function from an action
    to a [Performing], the tree of calls it may make.  Theorems about the journal assume
    that appends land ([reliable]), that no undo is itself a commit ([honest]) and that a
    stop has a cause ([says_why]).  [step] has fuel for [32 * steps + 40] turns and
    [step_returns] shows it is never used up; the drive loop's theorems find their fuel.
    Steps must have keys of their own that are not the runner's ([keys_ok]); the parent of
    a plan must be running and not have one ([plan_free]).

    The walk over a tree of checks has fuel for two visits of each node and the line of a
    node's parents for one more than there are nodes; [finish_lists] shows both are enough
    for whatever the builder builds ([Built]).  The JSON library is a parameter: a class
    for each format with what is read and written ([ManifestJson], [PolicyJson],
    [JsonValue], [CaptureJson]), and one with the law that what was written is read back, which only the
    round trips assume; so are the records of a log and of a journal ([RecordJson],
    [RecordText]), the directory of the journals ([JournalFiles]) and the comparison of two
    texts ([Similar]).

    The parser of Nix text has a unit of fuel for each call it can make, and [NixReads] shows
    that it is enough.  The locks have no fuel: a request takes [14] steps at most.

    The world's theorems are about the actions [undoable] lists: those on files and on
    accounts.  A new place must have a plain name ([plain_path]), a path is discarded once,
    a new user's groups are named once.  Undoing units, profiles, the runtime and
    repositories is modelled but not proved.

    ** What is not modelled

    System calls, subprocesses and sockets; the performer on a real system; command line,
    daemon transport, rendering.  The kernel's [flock], tokio's mutex and the order in which
    tasks run are rules of the step relation of [Locks], which grants a lock whenever it is
    free.  The mutex of the outbox and its wake-ups have no content: interleavings of pushes
    and pops are sequences. *)
From stdpp Require Export base tactics option list strings gmap sorting numbers pretty sets.
From Stdlib Require Export Ascii.


(** ** Results *)

(** Rust's [Result<A, E>]. *)
Inductive result (E A : Type) :=
  | Ok (a : A)
  | Err (e : E).
Arguments Ok {_ _} _.
Arguments Err {_ _} _.

#[export] Instance result_eq_dec `{EqDecision E, EqDecision A} : EqDecision (result E A).
Proof. solve_decision. Defined.

#[export] Instance result_ret E : MRet (result E) := λ A, Ok.
#[export] Instance result_bind E : MBind (result E) :=
  λ A B f r, match r with Ok a => f a | Err e => Err e end.
#[export] Instance result_fmap E : FMap (result E) :=
  λ A B f r, match r with Ok a => Ok (f a) | Err e => Err e end.

(** [Result::ok]. *)
Definition ok {E A} (r : result E A) : option A :=
  match r with Ok a => Some a | Err _ => None end.

Definition is_ok {E A} (r : result E A) : bool :=
  match r with Ok _ => true | Err _ => false end.

Lemma bind_Ok {E A B} (r : result E A) (f : A → result E B) b :
  (r ≫= f) = Ok b ↔ ∃ a, r = Ok a ∧ f a = Ok b.
Proof. destruct r; simpl; naive_solver. Qed.

Lemma bind_Err {E A B} (r : result E A) (f : A → result E B) e :
  (r ≫= f) = Err e ↔ r = Err e ∨ ∃ a, r = Ok a ∧ f a = Err e.
Proof. destruct r; simpl; naive_solver. Qed.

(** ** Bytes and strings

    A Rust [String], [str], [OsStr] and [&[u8]] are all sequences of bytes: here
    [string], whose characters are 8-bit. *)
Abbreviation bytes := string (only parsing).

Declare Scope mix_scope.
Delimit Scope mix_scope with mix.
Notation "a =s b" := (String.eqb a b) (at level 70, no associativity) : mix_scope.
Open Scope mix_scope.

(** Lemmas that solve the common side conditions: what leaves a tree as it was, which
    endings are plain, what a reliable journal holds. *)
Create HintDb mix.

(** [str::starts_with]. *)
Definition starts_with (pre s : string) : bool := String.prefix pre s.
Arguments starts_with : simpl never.

(** The bytes of [s] after the first [n]. *)
Fixpoint skip (n : nat) (s : string) : string :=
  match n, s with
  | S n, String _ s => skip n s
  | _, _ => s
  end.

(** [str::strip_prefix]. *)
Definition strip_prefix (pre s : string) : option string :=
  if starts_with pre s then Some (skip (String.length pre) s) else None.

(** [<[S]>::join]. *)
Fixpoint join (sep : string) (parts : list string) : string :=
  match parts with
  | [] => ""
  | [p] => p
  | p :: rest => p +:+ sep +:+ join sep rest
  end.

(** [str::split_once] with a one byte separator. *)
Fixpoint split_once (c : ascii) (s : string) : option (string * string) :=
  match s with
  | "" => None
  | String a rest =>
      if Ascii.eqb a c then Some ("", rest)
      else '(l, r) ← split_once c rest; Some (String a l, r)
  end.

(** [str::split] with a one byte separator: never empty. *)
Fixpoint split_on (c : ascii) (s : string) : list string :=
  match s with
  | "" => [""]
  | String a rest =>
      if Ascii.eqb a c then "" :: split_on c rest
      else match split_on c rest with
           | [] => [String a ""]
           | seg :: segs => String a seg :: segs
           end
  end.

(** [str::chars().any] over bytes. *)
Fixpoint string_any (f : ascii → bool) (s : string) : bool :=
  match s with "" => false | String a rest => f a || string_any f rest end.

Definition string_all (f : ascii → bool) (s : string) : bool :=
  negb (string_any (λ a, negb (f a)) s).

(** The decimal digits of a number, as [format!("{n}")] prints them. *)
Definition digits (n : N) : string := pretty n.

(** ** Lists *)

(** [Iterator::position]. *)
Definition position {A} (P : A → Prop) `{∀ x, Decision (P x)} (l : list A) : option nat :=
  fst <$> list_find P l.

(** [Iterator::find]. *)
Definition find {A} (P : A → Prop) `{∀ x, Decision (P x)} (l : list A) : option A :=
  snd <$> list_find P l.

(** [Iterator::find_map]. *)
Fixpoint find_map {A B} (f : A → option B) (l : list A) : option B :=
  match l with
  | [] => None
  | x :: l => match f x with Some b => Some b | None => find_map f l end
  end.

(** [Vec::swap_remove]: the last element takes the place of the removed one. *)
Definition swap_remove {A} (i : nat) (l : list A) : list A :=
  match last l with
  | None => l
  | Some x => take (length l - 1) (<[i := x]> l)
  end.

(** [Vec::remove]. *)
Definition remove_at {A} (i : nat) (l : list A) : list A := take i l ++ drop (S i) l.

(** [Vec::dedup]: drops an element equal to the one kept before it. *)
Fixpoint dedup_from {A} `{EqDecision A} (prev : A) (l : list A) : list A :=
  match l with
  | [] => []
  | x :: l => if decide (x = prev) then dedup_from prev l else x :: dedup_from x l
  end.
Definition dedup {A} `{EqDecision A} (l : list A) : list A :=
  match l with [] => [] | x :: l => x :: dedup_from x l end.

(** [Iterator::take_while]. *)
Fixpoint take_while {A} (P : A → Prop) `{∀ x, Decision (P x)} (l : list A) : list A :=
  match l with
  | [] => []
  | x :: l => if decide (P x) then x :: take_while P l else []
  end.

(** [sort] and [sort_unstable] on strings: byte order. *)
Definition sort_strings (l : list string) : list string := merge_sort String.le l.

Lemma filter_none {A} (P : A → Prop) `{∀ x, Decision (P x)} (l : list A) :
  (∀ x, x ∈ l → ¬ P x) → filter P l = [].
Proof.
  induction l as [|x l IH]; intros Hl; [done|].
  rewrite filter_cons_False by (apply Hl; set_solver). apply IH. set_solver.
Qed.

Lemma StronglySorted_filter {A} (R : relation A) (P : A → Prop) `{∀ x, Decision (P x)} l :
  StronglySorted R l → StronglySorted R (filter P l).
Proof.
  induction 1 as [|x l Hl IH Hx]; [constructor|]. rewrite filter_cons.
  destruct (decide (P x)); [|done]. constructor; [done|].
  rewrite Forall_forall in *. intros y [_ Hy]%list_elem_of_filter. auto.
Qed.

Lemma filter_all {A} (P : A → Prop) `{∀ x, Decision (P x)} (l : list A) :
  (∀ x, x ∈ l → P x) → filter P l = l.
Proof.
  induction l as [|x l IH]; intros Hl; [done|].
  rewrite filter_cons_True by (apply Hl; set_solver). f_equal. apply IH. set_solver.
Qed.

Lemma NoDup_below (l : list nat) n : NoDup l → (∀ x, x ∈ l → x < n) → length l ≤ n.
Proof.
  intros Hnd Hlt. rewrite <- (length_seq n 0). apply submseteq_length, NoDup_submseteq; [done|].
  intros x Hx. apply elem_of_seq. specialize (Hlt x Hx). lia.
Qed.

Lemma swap_remove_Permutation {A} (l : list A) i a :
  l !! i = Some a → a :: swap_remove i l ≡ₚ l.
Proof.
  intros Hi. unfold swap_remove. destruct l as [|x l _] using rev_ind; [done|].
  rewrite last_snoc, length_app. simpl. rewrite Nat.add_sub.
  destruct (decide (i < length l)) as [Hlt|Hge].
  - rewrite lookup_app_l in Hi by done. rewrite insert_app_l by done.
    rewrite take_app_length' by (by rewrite length_insert).
    assert (Hl := take_drop_middle l i a Hi).
    assert (l ≡ₚ a :: take i l ++ drop (S i) l) as Hp
      by (rewrite Permutation_middle; by rewrite Hl).
    rewrite insert_take_drop by done.
    trans (x :: a :: take i l ++ drop (S i) l).
    + rewrite <- Permutation_middle. constructor.
    + rewrite <- Permutation_cons_append. by constructor.
  - assert (i = length l) as ->.
    { apply lookup_lt_Some in Hi. rewrite length_app in Hi. simpl in Hi. lia. }
    rewrite list_lookup_middle in Hi by done. simplify_eq.
    rewrite insert_app_r_alt by done. rewrite take_app_length.
    by rewrite Permutation_cons_append.
Qed.

Lemma swap_remove_elem {A} (l : list A) i a b :
  l !! i = Some a → b ≠ a → b ∈ swap_remove i l ↔ b ∈ l.
Proof.
  intros Hi Hb. rewrite <- (swap_remove_Permutation l i a Hi) at 2.
  rewrite elem_of_cons. naive_solver.
Qed.

Lemma position_Some {A} (P : A → Prop) `{∀ x, Decision (P x)} (l : list A) i :
  position P l = Some i → ∃ x, l !! i = Some x ∧ P x.
Proof.
  unfold position. intros ([j y] & (?&?&?)%list_find_Some & ->)%fmap_Some. naive_solver.
Qed.

Lemma position_None {A} (P : A → Prop) `{∀ x, Decision (P x)} (l : list A) :
  position P l = None → ∀ x, x ∈ l → ¬ P x.
Proof.
  unfold position. rewrite fmap_None, list_find_None, Forall_forall. done.
Qed.

Lemma filter_ext_in {A} (P Q : A → Prop) `{∀ x, Decision (P x), ∀ x, Decision (Q x)}
    (l : list A) :
  (∀ x, x ∈ l → P x ↔ Q x) → filter P l = filter Q l.
Proof.
  induction l as [|x l IH]; intros Hl; [done|].
  assert (P x ↔ Q x) by (apply Hl; set_solver).
  rewrite !filter_cons. destruct (decide (P x)), (decide (Q x)); try tauto;
    [f_equal|]; apply IH; set_solver.
Qed.

Lemma filter_drop_seen {A} `{EqDecision A} (l k : list A) :
  NoDup (l ++ k) → filter (λ x, x ∉ l) (l ++ k) = k.
Proof.
  intros (_ & Hd & _)%NoDup_app. rewrite filter_app.
  rewrite (filter_none _ l) by (intros x Hx Hn; by apply Hn).
  apply filter_all. intros x Hx Hl. by apply (Hd x).
Qed.

Lemma elem_of_concat {A} (ls : list (list A)) x :
  x ∈ concat ls ↔ ∃ l, x ∈ l ∧ l ∈ ls.
Proof.
  induction ls as [|l ls IH]; simpl.
  - rewrite elem_of_nil. split; [done|]. by intros (? & _ & ?%elem_of_nil).
  - rewrite elem_of_app, IH. setoid_rewrite elem_of_cons. naive_solver.
Qed.

(** Decidable facts about concrete data, by evaluation. *)
Ltac evaluate := apply (bool_decide_unpack _); vm_compute; exact I.

(** [str::find] of a string: the byte where its first occurrence starts. *)
Fixpoint str_find (needle s : string) : option nat :=
  if starts_with needle s then Some O
  else match s with
       | "" => None
       | String _ rest => S <$> str_find needle rest
       end.

(** [str::contains] of a string. *)
Definition contains (needle s : string) : bool :=
  match str_find needle s with Some _ => true | None => false end.

(** The first [n] bytes of [s]. *)
Fixpoint prefix_of_len (n : nat) (s : string) : string :=
  match n, s with
  | S n, String a rest => String a (prefix_of_len n rest)
  | _, _ => ""
  end.

(** [str::strip_suffix]. *)
Definition strip_suffix (suf s : string) : option string :=
  let n := String.length s - String.length suf in
  if decide (String.length suf ≤ String.length s)%nat
  then if String.eqb (skip n s) suf then Some (prefix_of_len n s) else None
  else None.

Lemma prefix_skip n s : prefix_of_len n s +:+ skip n s = s.
Proof.
  revert s. induction n as [|n IH]; intros [|a s]; simpl; [done..|].
  change (String a (prefix_of_len n s +:+ skip n s) = String a s). by rewrite IH.
Qed.

Lemma str_find_Some needle s n :
  str_find needle s = Some n → starts_with needle (skip n s) = true.
Proof.
  revert n. induction s as [|a s IH]; intros n; simpl.
  - destruct (starts_with needle "") eqn:H; [|done]. intros [= <-]. exact H.
  - destruct (starts_with needle (String a s)) eqn:H; [intros [= <-]; exact H|].
    intros (k & Hk & ->)%fmap_Some. by apply IH.
Qed.

(** *** Appending *)

Lemma app_cons_string a s t : String a s +:+ t = String a (s +:+ t).
Proof. done. Qed.

Lemma app_empty_string t : "" +:+ t = t.
Proof. done. Qed.

Lemma app_nil_string s : s +:+ "" = s.
Proof. induction s as [|a s IH]; [done|]. by rewrite app_cons_string, IH. Qed.

Lemma app_assoc_string s t u : (s +:+ t) +:+ u = s +:+ (t +:+ u).
Proof. induction s as [|a s IH]; [done|]. by rewrite !app_cons_string, IH. Qed.

Lemma length_app_string s t : String.length (s +:+ t) = (String.length s + String.length t)%nat.
Proof. induction s as [|a s IH]; [done|]. rewrite app_cons_string. simpl. by rewrite IH. Qed.

Lemma prefix_app s t : String.prefix s (s +:+ t) = true.
Proof.
  induction s as [|a s IH]; [by destruct t|]. rewrite app_cons_string. simpl.
  by destruct (Ascii.ascii_dec a a).
Qed.

Lemma skip_app s t : skip (String.length s) (s +:+ t) = t.
Proof. induction s as [|a s IH]; [by destruct t|]. by rewrite app_cons_string. Qed.

Lemma strip_prefix_app s t : strip_prefix s (s +:+ t) = Some t.
Proof. unfold strip_prefix, starts_with. by rewrite prefix_app, skip_app. Qed.

Lemma list_app_string s t :
  String.list_ascii_of_string (s +:+ t) =
  String.list_ascii_of_string s ++ String.list_ascii_of_string t.
Proof. induction s as [|a s IH]; [done|]. rewrite app_cons_string. simpl. by rewrite IH. Qed.

(** *** Sorting, [dedup] and [find] *)

Lemma elem_of_dedup_from {A} `{EqDecision A} (l : list A) prev x :
  x ∈ dedup_from prev l ∨ x = prev ↔ x ∈ l ∨ x = prev.
Proof.
  revert prev. induction l as [|y l IH]; intros prev; simpl; [done|].
  case_decide as Hy; rewrite !elem_of_cons; [subst; rewrite IH; tauto|].
  specialize (IH y). tauto.
Qed.

Lemma elem_of_dedup {A} `{EqDecision A} (l : list A) x : x ∈ dedup l ↔ x ∈ l.
Proof.
  destruct l as [|y l]; simpl; [done|]. rewrite !elem_of_cons.
  pose proof (elem_of_dedup_from l y x). tauto.
Qed.

Lemma sorted_dedup_from (l : list string) prev :
  StronglySorted String.le (prev :: l) →
  StronglySorted (strict String.le) (prev :: dedup_from prev l).
Proof.
  revert prev. induction l as [|y l IH]; intros prev; simpl; [repeat constructor|].
  intros [Hl Hp]%StronglySorted_inv. inversion_clear Hp as [|?? Hy Hp'].
  destruct (decide (y = prev)) as [->|Hne]; [by apply IH; inversion_clear Hl; constructor|].
  specialize (IH y Hl). constructor; [done|].
  assert (strict String.le prev y) as Hlt.
  { split; [done|]. intros Hle. apply Hne. by apply (anti_symm String.le). }
  constructor; [done|]. apply StronglySorted_inv in IH as [_ IH].
  eapply Forall_impl; [exact IH|]. intros z Hz. by trans y.
Qed.

Lemma sorted_strings_strict (l : list string) :
  StronglySorted (strict String.le) (dedup (sort_strings l)).
Proof.
  assert (StronglySorted String.le (sort_strings l)) as Hl
    by (apply StronglySorted_merge_sort; apply _).
  destruct (sort_strings l) as [|x k]; [constructor|]. by apply sorted_dedup_from.
Qed.

Lemma elem_of_sorted (l : list string) x : x ∈ dedup (sort_strings l) ↔ x ∈ l.
Proof. rewrite elem_of_dedup. unfold sort_strings. by rewrite merge_sort_Permutation. Qed.

Lemma find_None {A} (P : A → Prop) `{∀ x, Decision (P x)} l :
  find P l = None ↔ ∀ x, x ∈ l → ¬ P x.
Proof. unfold find. by rewrite fmap_None, list_find_None, Forall_forall. Qed.

Lemma find_Some {A} (P : A → Prop) `{∀ x, Decision (P x)} l x :
  find P l = Some x → x ∈ l ∧ P x.
Proof.
  unfold find. intros ([i y] & (Hi & HP & _)%list_find_Some & Hx)%fmap_Some.
  simpl in Hx. subst. split; [by eapply list_elem_of_lookup_2|done].
Qed.

Lemma strict_sorted_NoDup (l : list string) : StronglySorted (strict String.le) l → NoDup l.
Proof.
  induction 1 as [|x l _ IH Hx]; constructor; [|done].
  intros Hin. rewrite Forall_forall in Hx. by destruct (Hx x Hin).
Qed.

Lemma strict_sorted_unique (l k : list string) :
  StronglySorted (strict String.le) l → StronglySorted (strict String.le) k →
  (∀ x, x ∈ l ↔ x ∈ k) → l = k.
Proof.
  intros Hl Hk Hin.
  assert (∀ l, StronglySorted (strict String.le) l → StronglySorted String.le l) as Hweak.
  { induction 1 as [|x j _ IH Hx]; constructor; [done|].
    eapply Forall_impl; [exact Hx|]. by intros y []. }
  apply (StronglySorted_unique String.le); [by apply Hweak..|].
  apply NoDup_Permutation; eauto using strict_sorted_NoDup.
Qed.

(** *** The bits of a number

    A text for the values of any countable type, which witnesses read back. *)

Definition newline : string := String "010" "".

Fixpoint pos_bits (p : positive) : string :=
  match p with
  | xH => ""
  | xO p => String "0" (pos_bits p)
  | xI p => String "1" (pos_bits p)
  end.

Fixpoint bits_pos (s : string) : positive :=
  match s with
  | String "0" s => xO (bits_pos s)
  | String "1" s => xI (bits_pos s)
  | _ => xH
  end.

Lemma bits_pos_bits p : bits_pos (pos_bits p +:+ newline) = p.
Proof.
  induction p as [p IH|p IH|]; [..|done]; cbn [pos_bits];
    rewrite app_cons_string; cbn [bits_pos]; by rewrite IH.
Qed.
