(* ===== verification/Chars.v ===== *)
(** * Text made of chars

    What the code does with [str] and [char] where bytes are not enough: a string is its
    UTF-8 bytes and a [char] the run of bytes that encodes it.  [strip_whitespace] and
    [strip_leading] know the encodings of [char::is_whitespace]. *)
From S2P Require Import Prelude.

Local Open Scope N_scope.

Definition byte (a : ascii) : N := N_of_ascii a.

Definition is_continuation (a : ascii) : bool := bool_decide (128 <= byte a < 192).

(** ** The end of a string *)

(** The bytes before a last char that is whitespace; the bytes are latest first. *)
Definition strip_whitespace (reversed : list N) : option (list N) :=
  match reversed with
  | b :: rest =>
      if decide (b = 32 ∨ 9 <= b <= 13) then Some rest else
      match rest with
      | c :: rest =>
          if decide (c = 194 ∧ (b = 133 ∨ b = 160)) then Some rest else
          match rest with
          | d :: rest =>
              if decide ((d, c, b) = (225, 154, 128) ∨ (d, c, b) = (226, 129, 159) ∨
                         (d, c, b) = (227, 128, 128) ∨
                         (d, c) = (226, 128) ∧
                         (128 <= b <= 138 ∨ b = 168 ∨ b = 169 ∨ b = 175))
              then Some rest else None
          | [] => None
          end
      | [] => None
      end
  | [] => None
  end.

Definition reversed_bytes (s : string) : list N :=
  reverse (byte <$> String.list_ascii_of_string s).

(** [ends_with(char::is_whitespace)]. *)
Definition ends_with_whitespace (s : string) : bool :=
  match strip_whitespace (reversed_bytes s) with Some _ => true | None => false end.

(** [str::trim_end]: no more turns than bytes. *)
Fixpoint trim_reversed (fuel : nat) (reversed : list N) : list N :=
  match fuel, strip_whitespace reversed with
  | S fuel, Some rest => trim_reversed fuel rest
  | _, _ => reversed
  end.

Definition trim_end (s : string) : string :=
  prefix_of_len (length (trim_reversed (String.length s) (reversed_bytes s))) s.

(** ** The start of a string *)

(** The string after a first char that is whitespace. *)
Definition strip_leading (s : string) : option string :=
  match s with
  | String a s1 =>
      if decide (byte a = 32 ∨ 9 <= byte a <= 13) then Some s1 else
      match s1 with
      | String b s2 =>
          if decide (byte a = 194 ∧ (byte b = 133 ∨ byte b = 160)) then Some s2 else
          match s2 with
          | String c s3 =>
              if decide ((byte a, byte b, byte c) = (225, 154, 128) ∨
                         (byte a, byte b, byte c) = (226, 129, 159) ∨
                         (byte a, byte b, byte c) = (227, 128, 128) ∨
                         (byte a, byte b) = (226, 128) ∧
                         (128 <= byte c <= 138 ∨ byte c = 168 ∨ byte c = 169 ∨ byte c = 175))
              then Some s3 else None
          | "" => None
          end
      | "" => None
      end
  | "" => None
  end.

(** [str::trim_start]: no more turns than bytes. *)
Fixpoint trim_leading (fuel : nat) (s : string) : string :=
  match fuel, strip_leading s with
  | S fuel, Some rest => trim_leading fuel rest
  | _, _ => s
  end.

(** [str::trim]. *)
Definition trim (s : string) : string :=
  let s := trim_end s in trim_leading (String.length s) s.

(** [str::split_whitespace]: each turn takes a byte or more. *)
Fixpoint words_from (fuel : nat) (word s : string) : list string :=
  let closed := if decide (word = "") then [] else [word] in
  match fuel, strip_leading s, s with
  | O, _, _ | _, _, "" => closed
  | S fuel, Some rest, _ => closed ++ words_from fuel "" rest
  | S fuel, None, String c rest => words_from fuel (word +:+ String c "") rest
  end.
Definition split_whitespace (s : string) : list string := words_from (S (String.length s)) "" s.

(** ** Lines *)

(** [str::lines]: a line ends at a line feed, or at a carriage return and a line feed. *)
Fixpoint lines_of (parts : list string) : list string :=
  match parts with
  | [] | [""] => []
  | [line] => [line]
  | line :: parts => default line (strip_suffix (String "013" "") line) :: lines_of parts
  end.
Definition lines (s : string) : list string := lines_of (split_on "010" s).

(** ** UTF-8 *)

(** The bytes a leading byte asks for: how many, and the range of the first of them. *)
Definition utf8_lead (b : N) : option (nat * N * N) :=
  if decide (b < 128) then Some (0%nat, 0, 0)
  else if decide (194 <= b <= 223) then Some (1%nat, 128, 191)
  else if decide (b = 224) then Some (2%nat, 160, 191)
  else if decide (b = 237) then Some (2%nat, 128, 159)
  else if decide (225 <= b <= 239) then Some (2%nat, 128, 191)
  else if decide (b = 240) then Some (3%nat, 144, 191)
  else if decide (241 <= b <= 243) then Some (3%nat, 128, 191)
  else if decide (b = 244) then Some (3%nat, 128, 143)
  else None.

Fixpoint utf8_from (want : nat) (lo hi : N) (s : string) : bool :=
  match s, want with
  | "", O => true
  | "", S _ => false
  | String a s, O =>
      match utf8_lead (byte a) with
      | Some (want, lo, hi) => utf8_from want lo hi s
      | None => false
      end
  | String a s, S want => bool_decide (lo <= byte a <= hi) && utf8_from want 128 191 s
  end.

(** [str::from_utf8]. *)
Definition from_utf8 (s : bytes) : option string := if utf8_from 0 0 0 s then Some s else None.

(** U+FFFD. *)
Definition REPLACEMENT : string := String "239" (String "191" (String "189" "")).

(** [String::from_utf8_lossy]: [held] are the bytes of a char begun, [want] those it lacks.
    What cannot be continued becomes one U+FFFD, and the byte in its way starts anew. *)
Fixpoint lossy (want : nat) (lo hi : N) (held s : string) : string :=
  match s with
  | "" => match want with O => "" | S _ => REPLACEMENT end
  | String a s =>
      let start :=
        match utf8_lead (byte a) with
        | None => REPLACEMENT +:+ lossy 0 0 0 "" s
        | Some (O, _, _) => String a (lossy 0 0 0 "" s)
        | Some (want, lo, hi) => lossy want lo hi (String a "") s
        end in
      match want with
      | O => start
      | S want =>
          if decide (lo <= byte a <= hi) then
            match want with
            | O => held +:+ String a (lossy 0 0 0 "" s)
            | _ => lossy want 128 191 (held +:+ String a "") s
            end
          else REPLACEMENT +:+ start
      end
  end.
Definition from_utf8_lossy (s : bytes) : string := lossy 0 0 0 "" s.

Example lossy_examples :
  (from_utf8_lossy ("a" +:+ String "255" "b"), from_utf8_lossy (String "195" (String "169" "")),
   from_utf8_lossy (String "226" (String "130" "x")), from_utf8_lossy (String "240" "")) =
  ("a" +:+ REPLACEMENT +:+ "b", String "195" (String "169" ""), REPLACEMENT +:+ "x",
   REPLACEMENT).
Proof. vm_compute. reflexivity. Qed.

Definition crlf : string := String "013" (String "010" "").

Example chars_examples :
  (trim (" a b " +:+ crlf), split_whitespace ("  multi-user.target	x "),
   lines ("a" +:+ crlf +:+ String "010" "" +:+ "b" +:+ String "010" ""),
   from_utf8 (String "195" ""), from_utf8 (String "195" (String "169" ""))) =
  ("a b", ["multi-user.target"; "x"], ["a"; ""; "b"], None,
   Some (String "195" (String "169" ""))).
Proof. vm_compute. reflexivity. Qed.
