(* ===== verification/Numbers.v ===== *)
(** * Numbers of Rust's standard library

    What [str::parse] makes of the text of an unsigned integer and of an [f64], and the
    casts between the two.

    A finite [f64] is [m * 2 ^ e]; reading a decimal rounds to the nearest one, a tie to the
    even mantissa, within the exponents that an [f64] has. *)
From S2P Require Import Prelude.
From S2P Require Import Chars.

Local Open Scope Z_scope.

(** ** Unsigned integers *)

Definition U32_MAX : N := 4294967295.
Definition U64_MAX : N := 18446744073709551615.

Definition is_digit (c : ascii) : bool := ((48 <=? byte c) && (byte c <=? 57))%N.
Definition digit_of (c : ascii) : N := (byte c - 48)%N.

(** Digits that fit, from a value on. *)
Fixpoint decimal (max value : N) (s : string) : option N :=
  match s with
  | "" => Some value
  | String c s =>
      if is_digit c then
        let value := (10 * value + digit_of c)%N in
        if (max <? value)%N then None else decimal max value s
      else None
  end.

(** [str::parse] for an unsigned integer: a plus sign is allowed. *)
Definition parse_uint (max : N) (s : string) : option N :=
  let s := match s with String "+" rest => rest | s => s end in
  if decide (s = "") then None else decimal max 0 s.

(** An addition that overflows panics where overflow is checked. *)
Definition add_u64 (a b : N) : option N :=
  if (U64_MAX <? a + b)%N then None else Some (a + b)%N.

Definition saturating_sub (a b : N) : N := (a - b)%N.

(** ** [f64] *)

Inductive F64 :=
  | F64_Finite (m e : Z)
  | F64_Infinite (negative : bool)
  | F64_NaN.

(** The cast [as u64]: towards zero, within the bounds, [NaN] is zero. *)
Definition f64_as_u64 (x : F64) : N :=
  match x with
  | F64_Finite m e =>
      if m <=? 0 then 0%N else N.min (Z.to_N (Z.shiftl m e)) U64_MAX
  | F64_Infinite negative => if negative then 0%N else U64_MAX
  | F64_NaN => 0%N
  end.

(** [f64::max] with zero. *)
Definition f64_max_zero (x : F64) : F64 :=
  match x with
  | F64_Finite m _ => if m <=? 0 then F64_Finite 0 0 else x
  | F64_Infinite true | F64_NaN => F64_Finite 0 0
  | F64_Infinite false => x
  end.

(** A magnitude that has become too great. *)
Definition f64_bounded (negative : bool) (m e : Z) : F64 :=
  if (0 <=? e) && (2 ^ 1024 <=? Z.shiftl m e) then F64_Infinite negative
  else if (e <? 0) && (2 ^ 1024 <=? Z.shiftr m (- e)) then F64_Infinite negative
  else F64_Finite (if negative then - m else m) e.

(** Multiplication by a power of two. *)
Definition f64_scale (x : F64) (k : Z) : F64 :=
  match x with
  | F64_Finite m e => f64_bounded (m <? 0) (Z.abs m) (e + k)
  | x => x
  end.

(** The nearest [f64] to a fraction of positive integers. *)
Definition f64_nearest (negative : bool) (num den : Z) : F64 :=
  let guess := Z.log2 num - Z.log2 den - 52 in
  let below e := Z.shiftl num (Z.max 0 (- e)) <? Z.shiftl den (52 + Z.max 0 e) in
  let e := Z.max (if below guess then guess - 1 else guess) (-1074) in
  let n := Z.shiftl num (Z.max 0 (- e)) in
  let d := Z.shiftl den (Z.max 0 e) in
  let q := n / d in
  let twice := 2 * (n mod d) in
  let up := (d <? twice) || ((d =? twice) && Z.odd q) in
  f64_bounded negative (if up then q + 1 else q) e.

(** [digits * 10 ^ exponent]. *)
Definition f64_of_decimal (negative : bool) (digits exponent : Z) : F64 :=
  if digits =? 0 then F64_Finite 0 0
  else if 0 <=? exponent then f64_nearest negative (digits * 10 ^ exponent) 1
  else f64_nearest negative digits (10 ^ (- exponent)).

(** The digits at the start, with their number and what follows. *)
Fixpoint take_digits (value : Z) (s : string) : Z * Z * string :=
  match s with
  | String c rest =>
      if is_digit c then
        let '(value, n, rest) := take_digits (10 * value + Z.of_N (digit_of c)) rest in
        (value, n + 1, rest)
      else (value, 0, s)
  | "" => (value, 0, "")
  end.

Definition take_sign (s : string) : bool * string :=
  match s with
  | String "-" rest => (true, rest)
  | String "+" rest => (false, rest)
  | _ => (false, s)
  end.

Definition lowercase (c : ascii) : ascii :=
  if ((65 <=? byte c) && (byte c <=? 90))%N then ascii_of_N (byte c + 32) else c.
Fixpoint to_lowercase (s : string) : string :=
  match s with "" => "" | String c s => String (lowercase c) (to_lowercase s) end.

(** An exponent to the end of the text. *)
Definition parse_exponent (s : string) : option Z :=
  match s with
  | "" => Some 0
  | String c rest =>
      if Ascii.eqb (lowercase c) "e" then
        let '(negative, rest) := take_sign rest in
        match take_digits 0 rest with
        | (value, n, "") => if n =? 0 then None else Some (if negative : bool then - value else value)
        | _ => None
        end
      else None
  end.

(** [str::parse] for an [f64]. *)
Definition parse_f64 (s : string) : option F64 :=
  let '(negative, s) := take_sign s in
  let word := to_lowercase s in
  if (word =s "inf") || (word =s "infinity") then Some (F64_Infinite negative)
  else if word =s "nan" then Some F64_NaN
  else
    let '(whole, n, rest) := take_digits 0 s in
    let '(value, k, rest) :=
      match rest with
      | String "." rest => take_digits whole rest
      | _ => (whole, 0, rest)
      end in
    if n + k =? 0 then None
    else (λ exponent, f64_of_decimal negative value (exponent - k)) <$> parse_exponent rest.

Example parse_f64_tenth : parse_f64 "0.1" = Some (F64_Finite 7205759403792794 (-56)).
Proof. reflexivity. Qed.

Example parse_f64_forms :
  parse_f64 "1." = parse_f64 "+1e0" ∧ parse_f64 "-.5E1" = parse_f64 "-5" ∧ parse_f64 "." = None ∧
  parse_f64 "1e" = None ∧ parse_f64 "1e400" = Some (F64_Infinite false) ∧
  parse_f64 "9007199254740993" = Some (F64_Finite 4503599627370496 1).
Proof. vm_compute. repeat split; reflexivity. Qed.
