(* ===== verification/Paths.v ===== *)
(** * Paths

    [std::path] as the code uses it, and the paths and names of
    [crates/core/src/declared/paths.rs].

    A path is its list of components, which is what Rust's [Eq], [Ord] and
    [Hash] on [Path] compare.  [of_string] splits a literal as
    [Path::components] does and [display] prints the canonical spelling (one
    [/] between components, none at the end); a path whose bytes are not UTF-8
    prints lossily in Rust and as its bytes here. *)
From S2P Require Import Prelude.

Inductive component :=
  | RootDir
  | CurDir
  | ParentDir
  | Normal (name : string).

#[export] Instance component_eq_dec : EqDecision component.
Proof. solve_decision. Defined.

#[export] Instance component_countable : Countable component.
Proof.
  refine (inj_countable'
    (λ c, match c with
          | RootDir => inl 0 | CurDir => inl 1 | ParentDir => inl 2
          | Normal s => inr s
          end)
    (λ x, match x with
          | inl 0 => RootDir | inl 1 => CurDir | inl _ => ParentDir
          | inr s => Normal s
          end) _).
  by intros [].
Defined.

Abbreviation path := (list component) (only parsing).

(** ** [std::path] *)

Definition segment (s : string) : list component :=
  if decide (s = "") then []
  else if decide (s = ".") then []
  else if decide (s = "..") then [ParentDir]
  else [Normal s].

(** [Path::components]. *)
Definition of_string (s : string) : path :=
  match split_on "/" s with
  | "" :: rest => if decide (s = "") then [] else RootDir :: (rest ≫= segment)
  | "." :: rest => CurDir :: (rest ≫= segment)
  | segs => segs ≫= segment
  end.

Definition component_str (c : component) : string :=
  match c with
  | RootDir => "/" | CurDir => "." | ParentDir => ".." | Normal s => s
  end.

(** [Path::display] on a canonical path. *)
Definition display (p : path) : string :=
  match p with
  | RootDir :: rest => "/" +:+ join "/" (component_str <$> rest)
  | _ => join "/" (component_str <$> p)
  end.

(** [Path::parent]. *)
Definition parent (p : path) : option path :=
  match last p with
  | None | Some RootDir => None
  | Some _ => Some (take (length p - 1) p)
  end.

(** [Path::file_name]. *)
Definition file_name (p : path) : option string :=
  match last p with
  | Some (Normal s) => Some s
  | _ => None
  end.

(** [Path::join] and [PathBuf::push]. *)
Definition push (p q : path) : path :=
  match q with
  | RootDir :: _ => q
  | CurDir :: q' => match p with [] => q | _ => p ++ q' end
  | _ => p ++ q
  end.

(** [Path::with_file_name] for a name that is one component. *)
Definition with_file_name (p : path) (name : string) : path :=
  match file_name p with
  | Some _ => take (length p - 1) p ++ segment name
  | None => p ++ segment name
  end.

(** [Path::starts_with]. *)
Definition under (p pre : path) : bool := bool_decide (pre `prefix_of` p).

(** [Path::strip_prefix]. *)
Definition strip_path (p pre : path) : option path :=
  if under p pre then Some (drop (length pre) p) else None.

(** [Path::ends_with]. *)
Definition path_ends_with (p suf : path) : bool := bool_decide (suf `suffix_of` p).

(** [Path::ancestors], the path itself first. *)
Fixpoint ancestors_fuel (n : nat) (p : path) : list path :=
  match n with
  | 0 => []
  | S n => p :: match parent p with None => [] | Some q => ancestors_fuel n q end
  end.
Definition ancestors (p : path) : list path := ancestors_fuel (S (length p)) p.

(** The extension of a file name: what follows its last dot, unless that dot is
    its first byte.  ([Path::extension].) *)
Fixpoint last_dot (s : string) : option string :=
  match s with
  | "" => None
  | String a rest =>
      match last_dot rest with
      | Some e => Some e
      | None => if Ascii.eqb a "." then Some rest else None
      end
  end.
Definition extension (p : path) : option string :=
  name ← file_name p;
  match name with String _ rest => last_dot rest | "" => None end.

(** *** [Ord] on [Path], which is the order of a [BTreeMap]'s keys *)

Definition component_rank (c : component) : nat :=
  match c with RootDir => 0 | CurDir => 1 | ParentDir => 2 | Normal _ => 3 end.

Definition component_le (c d : component) : Prop :=
  match c, d with
  | Normal s, Normal t => String.le s t
  | _, _ => component_rank c ≤ component_rank d
  end.

Fixpoint path_le (p q : path) : Prop :=
  match p, q with
  | [], _ => True
  | _ :: _, [] => False
  | c :: p, d :: q => if decide (c = d) then path_le p q else component_le c d
  end.

#[export] Instance component_le_dec : RelDecision component_le.
Proof. intros [] []; simpl; apply _. Defined.

#[export] Instance path_le_dec : RelDecision path_le.
Proof.
  intros p. induction p as [|c p IH]; intros [|d q]; simpl; [apply _..|].
  destruct (decide (c = d)); [apply IH|apply _].
Defined.

Lemma component_le_total c d : component_le c d ∨ component_le d c.
Proof. destruct c, d; simpl; try lia. apply (total String.le). Qed.

Lemma component_le_trans c d e : component_le c d → component_le d e → component_le c e.
Proof. destruct c, d, e; simpl; try lia. apply transitivity. Qed.

Lemma component_le_antisymm c d : component_le c d → component_le d c → c = d.
Proof. destruct c, d; simpl; try done; try lia. intros. f_equal. by apply (anti_symm String.le). Qed.

#[export] Instance path_le_total : Total path_le.
Proof.
  intros p. induction p as [|c p IH]; intros [|d q]; simpl; try tauto.
  destruct (decide (c = d)), (decide (d = c)); try congruence; [apply IH|apply component_le_total].
Qed.

#[export] Instance path_le_trans : Transitive path_le.
Proof.
  intros p. induction p as [|c p IH]; intros [|d q] [|e r]; simpl; try tauto.
  repeat destruct (decide _); subst; try done; eauto using component_le_trans.
  intros ? ?. destruct n. by apply component_le_antisymm.
Qed.

#[export] Instance path_le_antisymm : AntiSymm (=) path_le.
Proof.
  intros p. induction p as [|c p IH]; intros [|d q]; simpl; try done.
  repeat destruct (decide _); subst; try done; [intros; f_equal; auto|].
  intros ? ?. destruct n. by apply component_le_antisymm.
Qed.

#[export] Instance path_le_refl : Reflexive path_le.
Proof. intros p. destruct (total path_le p p); done. Qed.

(** ** [crates/core/src/declared/paths.rs] *)

Definition SYSTEMD_UNIT_DIR : string := "/etc/systemd/system".
Definition NIX_STORE : string := "/nix/store".
Definition DEFAULT_PROFILE_NIX_ENV : string := "/nix/var/nix/profiles/default/bin/nix-env".
Definition NIX_DAEMON_SERVICE_SRC : string :=
  "/nix/var/nix/profiles/default/lib/systemd/system/nix-daemon.service".
Definition NIX_DAEMON_SOCKET_SRC : string :=
  "/nix/var/nix/profiles/default/lib/systemd/system/nix-daemon.socket".

Definition MIX_STATE_DIR : string := ".local/state/mix".
Definition NIX_PROFILE_LINK : string := ".nix-profile".
Definition HOME_TRACES : list string :=
  [MIX_STATE_DIR; ".local/state/nix"; ".local/state/home-manager"; NIX_PROFILE_LINK;
   ".nix-defexpr"; ".nix-channels"; ".cache/nix"].
Definition FLAKE_NIX : string := "flake.nix".
Definition HOME_NIX : string := "home.nix".
Definition FLAKE_LOCK : string := "flake.lock".
Definition STATE_FILE : string := "state".
Definition GIT_DIR : string := ".git".
Definition INDEX_LOCK : string := "index.lock".
Definition REPOSITORY_HEAD : string := "HEAD".
Definition REPOSITORY_BRANCH : string := "refs/heads/main".
Definition REPOSITORY_CONFIG : string := "config".
Definition REPOSITORY_INDEX : string := "index".
Definition GITIGNORE : string := ".gitignore".
Definition MANAGED_FILES : list string :=
  [GITIGNORE; FLAKE_LOCK; FLAKE_NIX; HOME_NIX; STATE_FILE].

Definition GENERATION_STATE_FILE : string := "mix-state".
Definition GENERATION_LOCK_FILE : string := "mix-flake.lock".
Definition GENERATION_INPUTS : list (string * string) :=
  [(STATE_FILE, GENERATION_STATE_FILE); (FLAKE_NIX, "mix-flake.nix");
   (FLAKE_LOCK, GENERATION_LOCK_FILE); (HOME_NIX, "mix-home.nix")].

Definition NIX_PROFILES_DIR : string := ".local/state/nix/profiles".
Definition HOME_MANAGER_PROFILE_NAME : string := "home-manager".
Definition LEFTOVER_PURPOSES : list string := ["backup"; "aside"; "new"; "remove"; "reclaim"].

(** The tails of [s] that follow an occurrence of [marker] which does not start at
    the first byte: [match_indices] with the guard [at > 0].  Occurrences of
    [.mix-] cannot overlap, so scanning every position finds the same ones. *)
Fixpoint tails_after (marker : string) (first : bool) (s : string) : list string :=
  (if negb first && starts_with marker s then [skip (String.length marker) s] else []) ++
  match s with
  | "" => []
  | String _ rest => tails_after marker false rest
  end.

(** The test on what follows the marker. *)
Definition purposeful (tail : string) : bool :=
  existsb (λ purpose,
    match strip_prefix purpose tail with
    | Some t => starts_with "-" t && (1 <? String.length t)%nat
    | None => false
    end) LEFTOVER_PURPOSES.

Definition is_leftover (name : string) : bool :=
  match strip_prefix "." name with
  | None => false
  | Some rest => existsb purposeful (tails_after ".mix-" true rest)
  end.

Definition join_path (base : path) (rel : string) : path := push base (of_string rel).

Definition mix_state_dir (home : path) : path := join_path home MIX_STATE_DIR.
Definition repository_dir (home : path) : path := join_path (mix_state_dir home) GIT_DIR.
Definition nix_profiles_dir (home : path) : path := join_path home NIX_PROFILES_DIR.
Definition profile_path (home : path) : path :=
  join_path (nix_profiles_dir home) HOME_MANAGER_PROFILE_NAME.
Definition generation_link (home : path) (generation : N) : path :=
  join_path (nix_profiles_dir home)
    (HOME_MANAGER_PROFILE_NAME +:+ "-" +:+ digits generation +:+ "-link").
Definition active_list_path (home : path) : path :=
  join_path (join_path (nix_profiles_dir home) HOME_MANAGER_PROFILE_NAME) GENERATION_STATE_FILE.
Definition active_lock_path (home : path) : path :=
  join_path (join_path (nix_profiles_dir home) HOME_MANAGER_PROFILE_NAME) GENERATION_LOCK_FILE.

Example display_generation_link :
  display (generation_link (of_string "/home/alice") 3)
  = "/home/alice/.local/state/nix/profiles/home-manager-3-link".
Proof. vm_compute. reflexivity. Qed.

Example leftover_examples :
  (is_leftover ".state.mix-backup-r-7", is_leftover ".mix-backup-r", is_leftover ".a.mix-x-1",
   is_leftover "a.mix-new-1", is_leftover ".a.mix-new-") = (true, false, false, false, false).
Proof. vm_compute. reflexivity. Qed.

(** ** Facts about paths *)

(** ** Paths *)

Definition is_normal (c : component) : Prop := match c with Normal s => s ≠ "" | _ => False end.
#[export] Instance is_normal_dec c : Decision (is_normal c).
Proof. destruct c; apply _. Defined.

(** An absolute path of names. *)
Definition rooted (p : path) : Prop :=
  match p with RootDir :: names => Forall is_normal names | _ => False end.
#[export] Instance rooted_dec p : Decision (rooted p).
Proof. destruct p as [|[] ?]; simpl; apply _. Defined.

Lemma rooted_snoc p s : rooted (p ++ [Normal s]) ↔ rooted p ∧ s ≠ "".
Proof.
  destruct p as [|[] p]; simpl; try naive_solver. rewrite Forall_app, Forall_singleton. naive_solver.
Qed.

Lemma rooted_app p q : rooted p → Forall is_normal q → rooted (p ++ q).
Proof. destruct p as [|[] p]; simpl; try done. intros. by apply Forall_app. Qed.

Lemma rooted_rest p q : rooted (p ++ q) → p ≠ [] → Forall is_normal q.
Proof. destruct p as [|[] p]; simpl; try done. by intros [_ ?]%Forall_app. Qed.

Lemma rooted_cases p : rooted p → p = [RootDir] ∨ ∃ q s, p = q ++ [Normal s] ∧ rooted q ∧ s ≠ "".
Proof.
  destruct p as [|[] p]; simpl; try done. intros Hp.
  destruct p as [|c p _] using rev_ind; [by left|]. right.
  apply Forall_app in Hp as [Hp [Hc _]%Forall_cons]. destruct c as [| | |s]; try done.
  by exists (RootDir :: p), s.
Qed.

Lemma rooted_prefix p q : rooted q → p `prefix_of` q → p ≠ [] → rooted p.
Proof.
  intros Hq [r ->] Hne. destruct p as [|[] p]; simpl in *; try done. by apply Forall_app in Hq as [? _].
Qed.

(** A path is not below what it holds. *)
Lemma parent_out (q : path) c r : q ≠ (q ++ [c]) ++ r.
Proof. intros Heq. apply (f_equal length) in Heq. rewrite !length_app in Heq. simpl in Heq. lia. Qed.

Lemma parent_ne (q : path) c : q ++ [c] ≠ q.
Proof. intros Heq. apply (parent_out q c []). by rewrite app_nil_r. Qed.

(** What is not below a path is not that path. *)
Lemma out_ne (x p : path) : (∀ r, x ≠ p ++ r) → p ≠ x.
Proof. intros Hx <-. apply (Hx []). by rewrite app_nil_r. Qed.

Lemma parent_snoc p s : parent (p ++ [Normal s]) = Some p.
Proof.
  unfold parent. rewrite last_snoc, length_app. simpl. f_equal.
  by rewrite take_app_le, take_ge by lia.
Qed.

Lemma file_name_snoc p s : file_name (p ++ [Normal s]) = Some s.
Proof. unfold file_name. by rewrite last_snoc. Qed.

Lemma ancestors_snoc p s : ancestors (p ++ [Normal s]) = (p ++ [Normal s]) :: ancestors p.
Proof. unfold ancestors. rewrite length_app, Nat.add_comm. cbn -[parent]. by rewrite parent_snoc. Qed.

Lemma elem_of_ancestors p d : rooted p → d ∈ ancestors p ↔ d `prefix_of` p ∧ d ≠ [].
Proof.
  intros Hp. induction p as [|c p IH] using rev_ind; [done|].
  destruct (rooted_cases _ Hp) as [Heq|(q & s & [-> [= ->]]%app_inj_tail & Hq & _)].
  - rewrite Heq. change (ancestors [RootDir]) with [[RootDir]]. rewrite list_elem_of_singleton. split.
    + intros ->. by split.
    + intros [[k Hk] Hne]. destruct d as [|x d]; [done|]. destruct d; [|done]. by destruct k; injection Hk as <-.
  - rewrite ancestors_snoc, elem_of_cons, IH by done. split.
    + intros [->|[Hd ?]].
      * split; [done|]. by destruct q.
      * split; [|done]. by apply prefix_app_r.
    + intros [[k Hk] Hne]. destruct k as [|x k _] using rev_ind.
      * left. by rewrite app_nil_r in Hk.
      * right. split; [|done]. rewrite app_assoc in Hk. apply app_inj_tail in Hk as [-> _]. by exists k.
Qed.

(** ** The order of the keys *)

Lemma prefix_le p q : p `prefix_of` q → path_le p q.
Proof.
  intros [k ->]. induction p as [|c p IH]; simpl; [done|]. by rewrite decide_True.
Qed.

Lemma prefix_between p x y : path_le p x → path_le x y → p `prefix_of` y → p `prefix_of` x.
Proof.
  revert x y. induction p as [|c p IH]; intros x y; [intros; apply prefix_nil|].
  destruct x as [|d x], y as [|e y]; simpl; try done; [by intros _ _ ?%prefix_nil_inv..|].
  intros H1 H2 Hp. assert (c = e) as <- by by eapply prefix_cons_inv_1.
  apply prefix_cons_inv_2 in Hp.
  destruct (decide (c = d)) as [<-|Hne].
  - rewrite decide_True in H2 by done. apply prefix_cons. eauto.
  - destruct (decide (d = c)); [congruence|]. destruct Hne. by apply component_le_antisymm.
Qed.

(** ** Below and apart *)

Lemma under_prefix p q : under p q = true ↔ q `prefix_of` p.
Proof. unfold under. apply bool_decide_eq_true. Qed.

Lemma under_is p q : under p q ↔ q `prefix_of` p.
Proof. unfold under. apply bool_decide_spec. Qed.

(** Neither path is below the other. *)
Definition apart (p q : path) : Prop := ∀ r r', p ++ r ≠ q ++ r'.

Lemma apart_sym p q : apart p q → apart q p.
Proof. intros Ha r r' Heq. by apply (Ha r' r). Qed.

Lemma apart_siblings p s t : s ≠ t → apart (p ++ [Normal s]) (p ++ [Normal t]).
Proof. intros Hne r r'. rewrite <- !(assoc_L (++)). intros [= ?]%app_inv_head. done. Qed.
