(* ===== verification/Effect.v ===== *)
(** * Effects

    The vocabulary the parts of mix speak to each other in
    ([crates/core/src/effect] and [crates/core/src/declared/identity.rs]): actions
    on the machine, the queries that look at it and the facts that answer them,
    failures, and how each action is described in the event stream.

    An enum variant [E::V] is the constructor [E_V].  [u8], [u32], [u64] and
    [usize] values are [N], [i32] and [i64] are [Z]; a byte buffer is [bytes]. *)
From S2P Require Import Prelude.
From S2P Require Import Paths.

Local Open Scope N_scope.

(** [std::io::ErrorKind], the kinds of [mix_events::io_kind::KINDS] in its order. *)
Inductive ErrorKind :=
  | NotFound | PermissionDenied | ConnectionRefused | ConnectionReset | HostUnreachable
  | NetworkUnreachable | ConnectionAborted | NotConnected | AddrInUse | AddrNotAvailable
  | NetworkDown | BrokenPipe | AlreadyExists | WouldBlock | NotADirectory | IsADirectory
  | DirectoryNotEmpty | ReadOnlyFilesystem | StaleNetworkFileHandle | InvalidInput
  | InvalidData | TimedOut | WriteZero | StorageFull | NotSeekable | QuotaExceeded
  | FileTooLarge | ResourceBusy | ExecutableFileBusy | Deadlock | CrossesDevices
  | TooManyLinks | InvalidFilename | ArgumentListTooLong | Interrupted | Unsupported
  | UnexpectedEof | OutOfMemory | Other.

#[export] Instance ErrorKind_eq_dec : EqDecision ErrorKind.
Proof. solve_decision. Defined.

(** ** [effect/mod.rs] *)

Definition Owner : Type := N * N.

Record FileId := mkFileId { dev : N; ino : N; born : option (Z * N) }.
#[export] Instance FileId_eq_dec : EqDecision FileId.
Proof. solve_decision. Defined.

(** A SHA-256 digest: 32 bytes. *)
Definition Digest : Type := bytes.

Inductive Expect := Expect_Absent | Expect_Present (id : FileId).
#[export] Instance Expect_eq_dec : EqDecision Expect.
Proof. solve_decision. Defined.

Definition FileId_fmt (id : FileId) : string :=
  "inode " +:+ digits (ino id) +:+ " on device " +:+ digits (dev id).

Definition Expect_fmt (e : Expect) : string :=
  match e with Expect_Absent => "nothing" | Expect_Present id => FileId_fmt id end.

Definition ids (o : Owner) : string := digits o.1 +:+ ":" +:+ digits o.2.

Definition generation_fmt (g : option N) : string :=
  match g with
  | Some n => "generation " +:+ digits n
  | None => "no generation"
  end.

(** ** [declared/identity.rs] *)

Record InvokingUser := mkInvokingUser { uid : N; gid : N; user_name : string; home : path }.
#[export] Instance InvokingUser_eq_dec : EqDecision InvokingUser.
Proof. solve_decision. Defined.

(** ** [effect/action.rs] *)

Record UserSpec := mkUserSpec {
  spec_name : string; spec_uid : N; spec_gid : N; spec_home : path; spec_shell : path;
  spec_comment : string; spec_groups : list string }.
#[export] Instance UserSpec_eq_dec : EqDecision UserSpec.
Proof. solve_decision. Defined.

Inductive FlakeSource := FlakeSource_Path | FlakeSource_Git.
#[export] Instance FlakeSource_eq_dec : EqDecision FlakeSource.
Proof. solve_decision. Defined.

Inductive Action :=
  | Action_CreateDir (at_ : path) (mode : N) (owner : option Owner)
  | Action_CreateDirs (at_ : path) (mode : N) (owner : option Owner)
  | Action_PutFile (at_ : path) (contents : bytes) (mode : N) (owner : option Owner)
      (expect : Expect)
  | Action_SetMode (at_ : path) (mode : N) (expect : N)
  | Action_SetOwner (at_ : path) (owner : Owner) (expect : Owner)
  | Action_SetAside (at_ : path) (expect : FileId)
  | Action_Discard (at_ : path) (expect : FileId)
  | Action_Keep (at_ : path)
  | Action_RemoveCreated (at_ : path) (expect : FileId)
  | Action_RemoveCreatedTree (at_ : path) (expect : FileId)
  | Action_Restore (at_ : path) (from : path) (expect : Expect)
  | Action_ReclaimTree (at_ : path) (expect : FileId) (owner : Owner) (mode : N)
  | Action_CopyTree (from : path) (to : path) (owner : Owner) (mode : N)
  | Action_AddGroup (name : string) (gid : N)
  | Action_SetGroupGid (name : string) (gid : N) (expect : N)
  | Action_DeleteGroup (name : string) (expect : N)
  | Action_AddUser (spec : UserSpec)
  | Action_SetUserIds (name : string) (ids : Owner) (expect : Owner)
  | Action_DeleteUser (name : string) (expect : Owner) (comment : string)
  | Action_AddMember (group : string) (user : string)
  | Action_RemoveMember (group : string) (user : string)
  | Action_InstallUnit (unit : string) (contents : bytes) (expect : Expect)
  | Action_EnableUnit (unit : string)
  | Action_DisableUnit (unit : string)
  | Action_StartUnit (unit : string)
  | Action_StopUnit (unit : string)
  | Action_RestartUnit (unit : string)
  | Action_DrainService (unit : string)
  | Action_DaemonReload
  | Action_InstallRuntime (url : string) (sha256 : Digest) (size : N)
  | Action_RemoveRuntime (created : list path) (kept : list path)
  | Action_ActivateProfile (user : InvokingUser) (source : FlakeSource)
  | Action_SwitchGeneration (user : InvokingUser) (generation : option N) (expect : option N)
  | Action_DeleteGeneration (user : InvokingUser) (generation : N)
  | Action_ApplyGeneration (user : InvokingUser)
  | Action_RecordState (user : InvokingUser)
  | Action_CollectGarbage (user : InvokingUser)
  | Action_CreateRepository (user : InvokingUser)
  | Action_Commit.
#[export] Instance Action_eq_dec : EqDecision Action.
Proof. solve_decision. Defined.

Inductive Subject :=
  | Subject_Path (at_ : path)
  | Subject_Group (name : string)
  | Subject_User (name : string)
  | Subject_Unit (name : string)
  | Subject_Profile (user : InvokingUser).
#[export] Instance Subject_eq_dec : EqDecision Subject.
Proof. solve_decision. Defined.

(** [Action::is_sync]. *)
Definition is_sync (a : Action) : bool :=
  match a with
  | Action_DaemonReload | Action_RestartUnit _ | Action_ApplyGeneration _ => true
  | _ => false
  end.

(** [Action::needs_loaded_units]. *)
Definition needs_loaded_units (a : Action) : bool :=
  match a with
  | Action_EnableUnit _ | Action_DisableUnit _ | Action_StartUnit _ | Action_StopUnit _ => true
  | _ => false
  end.

(** [Action::subjects]. *)
Definition unit_subjects (unit : string) : list Subject :=
  [Subject_Unit unit; Subject_Path (join_path (of_string SYSTEMD_UNIT_DIR) unit)].

Definition subjects (a : Action) : list Subject :=
  match a with
  | Action_CreateDir at_ _ _ | Action_CreateDirs at_ _ _ | Action_PutFile at_ _ _ _ _
  | Action_SetMode at_ _ _ | Action_SetOwner at_ _ _ | Action_SetAside at_ _
  | Action_Discard at_ _ | Action_Keep at_ | Action_RemoveCreated at_ _
  | Action_RemoveCreatedTree at_ _ | Action_ReclaimTree at_ _ _ _ => [Subject_Path at_]
  | Action_Restore at_ from _ => [Subject_Path at_; Subject_Path from]
  | Action_CopyTree from to _ _ => [Subject_Path from; Subject_Path to]
  | Action_AddGroup name _ | Action_SetGroupGid name _ _ | Action_DeleteGroup name _ =>
      [Subject_Group name]
  | Action_AddUser spec => Subject_User (spec_name spec) :: (Subject_Group <$> spec_groups spec)
  | Action_SetUserIds name _ _ | Action_DeleteUser name _ _ => [Subject_User name]
  | Action_AddMember group user | Action_RemoveMember group user =>
      [Subject_Group group; Subject_User user]
  | Action_InstallUnit unit _ _ | Action_EnableUnit unit | Action_DisableUnit unit
  | Action_StartUnit unit | Action_StopUnit unit | Action_RestartUnit unit
  | Action_DrainService unit => unit_subjects unit
  | Action_DaemonReload | Action_Commit => []
  | Action_InstallRuntime _ _ _ =>
      (λ at_, Subject_Path (of_string at_)) <$>
        [NIX_STORE; DEFAULT_PROFILE_NIX_ENV; NIX_DAEMON_SERVICE_SRC; NIX_DAEMON_SOCKET_SRC]
  | Action_RemoveRuntime created kept => Subject_Path <$> (created ++ kept)
  | Action_ActivateProfile user _ =>
      let state := mix_state_dir (home user) in
      [Subject_Profile user; Subject_Path (of_string DEFAULT_PROFILE_NIX_ENV)] ++
      ((λ file, Subject_Path (join_path state file)) <$>
        [FLAKE_NIX; HOME_NIX; FLAKE_LOCK; STATE_FILE])
  | Action_SwitchGeneration user _ _ | Action_DeleteGeneration user _
  | Action_ApplyGeneration user | Action_CollectGarbage user => [Subject_Profile user]
  | Action_RecordState user | Action_CreateRepository user =>
      let repository := repository_dir (home user) in
      [Subject_Path (join_path repository REPOSITORY_HEAD); Subject_Path repository]
  end.

(** The [Operation] of the event schema ([mix/events/v1/events.proto]). *)
Inductive Operation :=
  | Operation_Unspecified | Operation_CreateDir | Operation_PutFile | Operation_SetMode
  | Operation_SetOwner | Operation_SetAside | Operation_RemoveCreated
  | Operation_RemoveCreatedTree | Operation_Restore | Operation_ReclaimTree
  | Operation_CopyTree | Operation_AddGroup | Operation_SetGroupGid | Operation_DeleteGroup
  | Operation_AddUser | Operation_SetUserIds | Operation_DeleteUser | Operation_AddMember
  | Operation_RemoveMember | Operation_InstallUnit | Operation_EnableUnit
  | Operation_DisableUnit | Operation_StartUnit | Operation_StopUnit | Operation_RestartUnit
  | Operation_DaemonReload | Operation_InstallRuntime | Operation_RemoveRuntime
  | Operation_ActivateProfile | Operation_SwitchGeneration | Operation_DeleteGeneration
  | Operation_RecordState | Operation_Commit | Operation_ApplyGeneration
  | Operation_CreateDirs | Operation_CollectGarbage | Operation_DrainService
  | Operation_CreateRepository | Operation_Discard | Operation_Keep.
#[export] Instance Operation_eq_dec : EqDecision Operation.
Proof. solve_decision. Defined.

(** [Action::describe]. *)
Definition describe (a : Action) : Operation * string :=
  match a with
  | Action_CreateDir at_ _ _ => (Operation_CreateDir, display at_)
  | Action_CreateDirs at_ _ _ => (Operation_CreateDirs, display at_)
  | Action_PutFile at_ _ _ _ _ => (Operation_PutFile, display at_)
  | Action_SetMode at_ _ _ => (Operation_SetMode, display at_)
  | Action_SetOwner at_ _ _ => (Operation_SetOwner, display at_)
  | Action_SetAside at_ _ => (Operation_SetAside, display at_)
  | Action_Discard at_ _ => (Operation_Discard, display at_)
  | Action_Keep at_ => (Operation_Keep, display at_)
  | Action_RemoveCreated at_ _ => (Operation_RemoveCreated, display at_)
  | Action_RemoveCreatedTree at_ _ => (Operation_RemoveCreatedTree, display at_)
  | Action_Restore at_ _ _ => (Operation_Restore, display at_)
  | Action_ReclaimTree at_ _ _ _ => (Operation_ReclaimTree, display at_)
  | Action_CopyTree _ to _ _ => (Operation_CopyTree, display to)
  | Action_AddGroup name _ => (Operation_AddGroup, name)
  | Action_SetGroupGid name _ _ => (Operation_SetGroupGid, name)
  | Action_DeleteGroup name _ => (Operation_DeleteGroup, name)
  | Action_AddUser spec => (Operation_AddUser, spec_name spec)
  | Action_SetUserIds name _ _ => (Operation_SetUserIds, name)
  | Action_DeleteUser name _ _ => (Operation_DeleteUser, name)
  | Action_AddMember group user => (Operation_AddMember, user +:+ " in " +:+ group)
  | Action_RemoveMember group user => (Operation_RemoveMember, user +:+ " in " +:+ group)
  | Action_InstallUnit unit _ _ => (Operation_InstallUnit, unit)
  | Action_EnableUnit unit => (Operation_EnableUnit, unit)
  | Action_DisableUnit unit => (Operation_DisableUnit, unit)
  | Action_StartUnit unit => (Operation_StartUnit, unit)
  | Action_StopUnit unit => (Operation_StopUnit, unit)
  | Action_RestartUnit unit => (Operation_RestartUnit, unit)
  | Action_DrainService unit => (Operation_DrainService, unit)
  | Action_DaemonReload => (Operation_DaemonReload, "systemd")
  | Action_InstallRuntime url _ _ => (Operation_InstallRuntime, url)
  | Action_RemoveRuntime created kept =>
      (Operation_RemoveRuntime, join ", " (display <$> (created ++ kept)))
  | Action_ActivateProfile user _ =>
      (Operation_ActivateProfile, display (profile_path (home user)))
  | Action_SwitchGeneration user (Some generation) _ =>
      (Operation_SwitchGeneration, display (generation_link (home user) generation))
  | Action_SwitchGeneration user None _ =>
      (Operation_SwitchGeneration, display (profile_path (home user)))
  | Action_DeleteGeneration user generation =>
      (Operation_DeleteGeneration, display (generation_link (home user) generation))
  | Action_RecordState user => (Operation_RecordState, display (mix_state_dir (home user)))
  | Action_CreateRepository user =>
      (Operation_CreateRepository, display (repository_dir (home user)))
  | Action_ApplyGeneration user =>
      (Operation_ApplyGeneration, display (profile_path (home user)))
  | Action_CollectGarbage _ => (Operation_CollectGarbage, NIX_STORE)
  | Action_Commit => (Operation_Commit, "changes")
  end.

(** ** [effect/failure.rs] and the reasons of [ops/health/mod.rs] *)

Inductive Unfixable :=
  | Unfixable_NotADirectory | Unfixable_MissingUser | Unfixable_MissingRuntime
  | Unfixable_Unrecovered | Unfixable_InTheWay | Unfixable_Outside | Unfixable_Masked
  | Unfixable_Newer.
#[export] Instance Unfixable_eq_dec : EqDecision Unfixable.
Proof. solve_decision. Defined.

Inductive UnitOperation :=
  | UnitOperation_Inspect | UnitOperation_Reload | UnitOperation_Enable
  | UnitOperation_Disable | UnitOperation_Start | UnitOperation_Stop
  | UnitOperation_Restart.
#[export] Instance UnitOperation_eq_dec : EqDecision UnitOperation.
Proof. solve_decision. Defined.

(** [UnitOperation::verb]. *)
Definition unit_verb (o : UnitOperation) : string :=
  match o with
  | UnitOperation_Inspect => "inspect" | UnitOperation_Reload => "reload"
  | UnitOperation_Enable => "enable" | UnitOperation_Disable => "disable"
  | UnitOperation_Start => "start" | UnitOperation_Stop => "stop"
  | UnitOperation_Restart => "restart"
  end.

Record CollisionFailure := mkCollisionFailure {
  collision_program : string; collision_status : option Z; collision_tail : string;
  collision_file : string; collision_packages : string * string }.
#[export] Instance CollisionFailure_eq_dec : EqDecision CollisionFailure.
Proof. solve_decision. Defined.

Record UnitFailure := mkUnitFailure {
  unit_operation : UnitOperation; unit_unit : string; unit_job_result : string;
  unit_active_state : string; unit_sub_state : string; unit_result : string;
  unit_invocation : option string }.
#[export] Instance UnitFailure_eq_dec : EqDecision UnitFailure.
Proof. solve_decision. Defined.

Inductive Failure :=
  | Failure_Conflict (subject expected found : string)
  | Failure_Io (at_ : path) (kind : ErrorKind)
  | Failure_CommandFailed (program : string) (status : option Z) (output_tail : string)
  | Failure_NoInodes (program : string) (status : option Z) (output_tail : string)
  | Failure_OutOfMemory (program : string) (status : option Z) (output_tail : string)
  | Failure_Collision (collided : CollisionFailure)
  | Failure_SpawnFailed (program : string) (kind : ErrorKind)
  | Failure_Unit (failure : UnitFailure)
  | Failure_SystemdUnreachable
  | Failure_Network (url : string)
  | Failure_Integrity (artifact expected found : string)
  | Failure_Cancelled
  | Failure_Unrepairable (artifact : string) (reason : Unfixable).
#[export] Instance Failure_eq_dec : EqDecision Failure.
Proof. solve_decision. Defined.

Record Performed := mkPerformed { undo : list Action }.
#[export] Instance Performed_eq_dec : EqDecision Performed.
Proof. solve_decision. Defined.

Definition Outcome : Type := result Failure Performed.

(** ** [effect/observe.rs] *)

Inductive Query :=
  | Query_Path (at_ : path)
  | Query_Contents (at_ : path)
  | Query_Group (name : string)
  | Query_User (name : string)
  | Query_Unit (name : string)
  | Query_UnitLinks (name : string)
  | Query_Profile (user : InvokingUser)
  | Query_TreeOwner (at_ : path)
  | Query_Repository (user : InvokingUser)
  | Query_ActiveList (user : InvokingUser)
  | Query_ActiveLock (user : InvokingUser)
  | Query_Journals (at_ : path)
  | Query_Leftovers (at_ : path)
  | Query_Strangers (at_ : path) (owner : Owner)
  | Query_Clobbered (user : InvokingUser)
  | Query_Program (at_ : path) (source : path)
  | Query_Linked (user : InvokingUser)
  | Query_Accounts.
#[export] Instance Query_eq_dec : EqDecision Query.
Proof. solve_decision. Defined.

Record ProfileFacts := mkProfileFacts {
  generations : list N; active : option N; dangling : list N }.
#[export] Instance ProfileFacts_eq_dec : EqDecision ProfileFacts.
Proof. solve_decision. Defined.

Inductive Kind :=
  | Kind_Missing | Kind_Unreadable (kind : ErrorKind) | Kind_Directory | Kind_File
  | Kind_Symlink | Kind_Other.
#[export] Instance Kind_eq_dec : EqDecision Kind.
Proof. solve_decision. Defined.

Record PathFacts := mkPathFacts {
  pf_kind : Kind; pf_mode : N; pf_owner : Owner; pf_id : option FileId;
  pf_digest : option Digest; pf_changed : option (Z * N) }.
#[export] Instance PathFacts_eq_dec : EqDecision PathFacts.
Proof. solve_decision. Defined.

Record GroupFacts := mkGroupFacts { group_gid : N; members : list string }.
#[export] Instance GroupFacts_eq_dec : EqDecision GroupFacts.
Proof. solve_decision. Defined.

Record UserFacts := mkUserFacts {
  uf_uid : N; uf_gid : N; uf_home : path; uf_shell : path; uf_comment : string }.
#[export] Instance UserFacts_eq_dec : EqDecision UserFacts.
Proof. solve_decision. Defined.

Record UnitFacts := mkUnitFacts {
  load_state : string; active_state : string; file_state : string; needs_reload : bool;
  active_since : option (Z * N) }.
#[export] Instance UnitFacts_eq_dec : EqDecision UnitFacts.
Proof. solve_decision. Defined.

(** [UnitFacts::enabled]. *)
Definition unit_enabled (u : UnitFacts) : bool := String.eqb (file_state u) "enabled".

Record Abandoned := mkAbandoned { ab_request : string; ab_pending : list string }.
#[export] Instance Abandoned_eq_dec : EqDecision Abandoned.
Proof. solve_decision. Defined.

Record ProgramFacts := mkProgramFacts { pg_same : bool; pg_source : option bytes }.
#[export] Instance ProgramFacts_eq_dec : EqDecision ProgramFacts.
Proof. solve_decision. Defined.

Inductive Fact :=
  | Fact_Path (facts : PathFacts)
  | Fact_Contents (contents : option bytes)
  | Fact_Group (group : option GroupFacts)
  | Fact_User (user : option UserFacts)
  | Fact_Unit (unit : UnitFacts)
  | Fact_UnitLinks (links : list (path * FileId))
  | Fact_Profile (profile : ProfileFacts)
  | Fact_TreeOwner (owner : option N)
  | Fact_Repository (intact recorded : bool)
  | Fact_Journals (abandoned : list Abandoned)
  | Fact_Leftovers (found : list (path * FileId))
  | Fact_Stranger (found : option (path * Owner))
  | Fact_Clobbered (paths : list path)
  | Fact_Program (program : ProgramFacts)
  | Fact_Linked (linked : list (path * FileId))
  | Fact_Accounts (users : list (string * UserFacts)).
#[export] Instance Fact_eq_dec : EqDecision Fact.
Proof. solve_decision. Defined.
