(* ===== verification/Journal.v ===== *)
(** * The request journal and its recovery

    [crates/core/src/run/journal.rs]: the records a request writes before and after
    each change, the order in which changes are undone ([rollback_order]) and what
    the next run has to do about a journal that was cut off ([recover]). *)
From S2P Require Import Prelude.
From S2P Require Import Paths.
From S2P Require Import Effect.

(** ** Records *)

Inductive JRecord :=
  | Record_Began (request : string)
  | Record_Prepared (seq : N) (undo : list Action)
  | Record_Done (seq : N)
  | Record_Settled (seq : N) (undo : list Action)
  | Record_Failed (seq : N)
  | Record_Reverted (action : Action)
  | Record_Committing
  | Record_Ended.
#[export] Instance JRecord_eq_dec : EqDecision JRecord.
Proof. solve_decision. Defined.

Inductive Recovery :=
  | Recovery_Nothing
  | Recovery_RollBack (uncertain certain : list Action)
  | Recovery_FinishCommit (pending : list path).
#[export] Instance Recovery_eq_dec : EqDecision Recovery.
Proof. solve_decision. Defined.

(** ** Confirmed changes *)

Abbreviation Undos := (list (N * list Action)) (only parsing).

(** One record of the loop of [confirmed]: (prepared, confirmed). *)
Definition confirmed_step (st : Undos * Undos) (record : JRecord) : Undos * Undos :=
  let '(prepared, confirmed) := st in
  match record with
  | Record_Prepared seq undo =>
      (filter (λ e, e.1 ≠ seq) prepared ++ [(seq, undo)], confirmed)
  | Record_Done seq =>
      match find (λ e, e.1 = seq) prepared with
      | Some (_, undo) => (prepared, confirmed ++ [(seq, undo)])
      | None => (prepared, confirmed)
      end
  | Record_Settled seq undo => (prepared, confirmed ++ [(seq, undo)])
  | _ => (prepared, confirmed)
  end.

Definition confirmed (records : list JRecord) : Undos :=
  (foldl confirmed_step ([], []) records).2.

Definition restore_source (a : Action) : option path :=
  match a with Action_Restore _ from _ => Some from | _ => None end.

Definition pending (records : list JRecord) : list path :=
  omap restore_source (concat ((confirmed records).*2)).

(** ** The order of a rollback *)

(** The body of the inner loop of [rollback_order]: (ordered, pending syncs). *)
Definition rollback_action (st : list Action * list Action) (action : Action)
    : list Action * list Action :=
  let '(ordered, pending) := st in
  if is_sync action then
    (ordered, if decide (action ∈ pending) then pending else pending ++ [action])
  else
    let '(ordered, pending) :=
      match (if needs_loaded_units action
             then position (λ sync, sync = Action_DaemonReload) pending else None) with
      | Some index => (ordered ++ [Action_DaemonReload], remove_at index pending)
      | None => (ordered, pending)
      end in
    (ordered ++ [action], pending).

Definition rollback_scan (journal : list (list Action)) : list Action * list Action :=
  foldl (λ st undo, foldl rollback_action st undo) ([], []) (reverse journal).

Definition rollback_order (journal : list (list Action)) : list Action :=
  let '(ordered, pending) := rollback_scan journal in ordered ++ reverse pending.

(** ** Recovery *)

(** The closure [still]: the actions of [undo] a rollback has not reverted yet, and
    the reverted actions it did not use up. *)
Fixpoint still (reverted undo : list Action) : list Action * list Action :=
  match undo with
  | [] => ([], reverted)
  | action :: undo =>
      match position (λ done, done = action) reverted with
      | Some index => still (swap_remove index reverted) undo
      | None =>
          let '(rest, reverted) := still reverted undo in (action :: rest, reverted)
      end
  end.

(** [still] mapped over a journal, in its order. *)
Fixpoint still_each (reverted : list Action) (journal : list (list Action))
    : list (list Action) * list Action :=
  match journal with
  | [] => ([], reverted)
  | undo :: journal =>
      let '(left_, reverted) := still reverted undo in
      let '(rest, reverted) := still_each reverted journal in
      (left_ :: rest, reverted)
  end.

Definition failed_seq (r : JRecord) : option N :=
  match r with Record_Failed seq => Some seq | _ => None end.

Definition reverted_action (r : JRecord) : option Action :=
  match r with Record_Reverted action => Some action | _ => None end.

(** The entry for [seq] replaced, or a new one at the end. *)
Fixpoint set_latest (seq : N) (undo : list Action) (latest : Undos) : Undos :=
  match latest with
  | [] => [(seq, undo)]
  | (earlier, old) :: latest =>
      if decide (earlier = seq) then (earlier, undo) :: latest
      else (earlier, old) :: set_latest seq undo latest
  end.

(** The announcements of changes that neither settled nor failed. *)
Definition latest_step (settled failed : list N) (latest : Undos) (r : JRecord) : Undos :=
  match r with
  | Record_Prepared seq undo =>
      if decide ((seq ∉ settled) ∧ (seq ∉ failed)) then set_latest seq undo latest else latest
  | _ => latest
  end.

Definition uncertain_of (left_ : list (list Action)) : list Action :=
  concat ((λ undo, rollback_order [undo]) <$> left_).

Definition recover (records : list JRecord) : Recovery :=
  if decide (Record_Ended ∈ records) then Recovery_Nothing
  else if decide (Record_Committing ∈ records) then Recovery_FinishCommit (pending records)
  else
    let confirmed := confirmed records in
    let settled := confirmed.*1 in
    let failed := omap failed_seq records in
    let reverted := omap reverted_action records in
    let '(journal, reverted) := still_each reverted (confirmed.*2) in
    let latest := foldl (latest_step settled failed) [] records in
    let '(doubtful, _) := still_each reverted (latest.*2) in
    let uncertain := uncertain_of doubtful in
    let certain := rollback_order journal in
    if decide (uncertain = [] ∧ certain = []) then Recovery_Nothing
    else Recovery_RollBack uncertain certain.

Definition abandoned (request : string) (records : list JRecord) : Abandoned :=
  mkAbandoned request (
    match recover records with
    | Recovery_RollBack uncertain certain => (λ a, (describe a).2) <$> (certain ++ uncertain)
    | Recovery_FinishCommit pending => display <$> pending
    | Recovery_Nothing => []
    end).

(** ** Undo orders *)

(** The actions that are not syncs, in order. *)
Definition nonsync (l : list Action) : list Action := filter (λ a, is_sync a = false) l.

(** Everything a journal undoes, the latest change first. *)
Definition backwards (journal : list (list Action)) : list Action := concat (reverse journal).

Definition scan (l : list Action) : list Action * list Action :=
  foldl rollback_action ([], []) l.

Lemma nonsync_app l k : nonsync (l ++ k) = nonsync l ++ nonsync k.
Proof. apply filter_app. Qed.

Lemma nonsync_sync a : is_sync a = true → nonsync [a] = [].
Proof. intros H. unfold nonsync. by rewrite filter_cons_False by congruence. Qed.

Lemma nonsync_non a : is_sync a = false → nonsync [a] = [a].
Proof. intros H. unfold nonsync. by rewrite filter_cons_True. Qed.

Lemma nonsync_all_sync l : Forall (λ a, is_sync a = true) l → nonsync l = [].
Proof. induction 1; [done|]. unfold nonsync. rewrite filter_cons_False; [done|congruence]. Qed.

Lemma foldl_concat {A B} (f : A → B → A) (ls : list (list B)) (a : A) :
  foldl (λ st l, foldl f st l) a ls = foldl f a (concat ls).
Proof. revert a. induction ls as [|l ls IH]; intros a; simpl; [done|]. by rewrite IH, foldl_app. Qed.

Lemma rollback_scan_scan journal : rollback_scan journal = scan (backwards journal).
Proof. apply foldl_concat. Qed.

Lemma rollback_order_scan journal :
  rollback_order journal = (scan (backwards journal)).1 ++ reverse (scan (backwards journal)).2.
Proof. unfold rollback_order. rewrite rollback_scan_scan. by destruct (scan _). Qed.

Lemma scan_snoc l a : scan (l ++ [a]) = rollback_action (scan l) a.
Proof. unfold scan. by rewrite foldl_app. Qed.

Lemma needs_not_sync a : needs_loaded_units a = true → is_sync a = false.
Proof. by destruct a. Qed.

(** The scan of a list and one more action, as three cases. *)
Lemma rollback_action_cases o p a :
  (is_sync a = true ∧ a ∈ p ∧ rollback_action (o, p) a = (o, p)) ∨
  (is_sync a = true ∧ (a ∉ p) ∧ rollback_action (o, p) a = (o, p ++ [a])) ∨
  (is_sync a = false ∧
    ((rollback_action (o, p) a = (o ++ [a], p) ∧
        (needs_loaded_units a = true → Action_DaemonReload ∉ p)) ∨
     (∃ p1 p2, p = p1 ++ Action_DaemonReload :: p2 ∧ needs_loaded_units a = true ∧
        rollback_action (o, p) a = (o ++ [Action_DaemonReload; a], p1 ++ p2)))).
Proof.
  unfold rollback_action. destruct (is_sync a) eqn:Hs.
  { case_decide; eauto. }
  do 2 right. split; [done|].
  destruct (needs_loaded_units a) eqn:Hn; [|left; split; [done|congruence]].
  unfold position. destruct (list_find _ p) as [[i x]|] eqn:Hf; simpl.
  - right. apply list_find_Some in Hf as (Hi & -> & _).
    exists (take i p), (drop (S i) p). split; [|split; [done|]].
    + by rewrite (take_drop_middle p i).
    + unfold remove_at. by rewrite <- app_assoc.
  - left. split; [done|]. intros _ Hin.
    apply list_find_None in Hf. rewrite Forall_forall in Hf. by apply (Hf _ Hin).
Qed.

(** What holds of a scan's two lists. *)
Record scanned (l o p : list Action) : Prop := {
  scanned_nonsync : nonsync o = nonsync l;
  scanned_syncs : Forall (λ a, is_sync a = true) p;
  scanned_nodup : NoDup p;
  scanned_reloads : ∀ a, a ∈ o → is_sync a = true → a = Action_DaemonReload;
  scanned_from : ∀ a, a ∈ o ∨ a ∈ p ↔ a ∈ l;
  scanned_split : ∀ l1 s l2, l = l1 ++ s :: l2 → is_sync s = true →
    s ∈ p ∨ ∃ o1 o2, o = o1 ++ s :: o2 ∧ nonsync l1 `prefix_of` nonsync o1;
}.

Ltac split_snoc H :=
  let l2 := fresh "l2" in
  match type of H with
  | ?l ++ [?a] = ?l1 ++ ?s :: ?k =>
      destruct k as [|? ? _] using rev_ind;
      [apply app_inj_tail in H as [-> <-]
      | rewrite app_comm_cons, app_assoc in H; apply app_inj_tail in H as [-> <-]]
  end.

Lemma scan_scanned l : scanned l (scan l).1 (scan l).2.
Proof.
  induction l as [|a l IH] using rev_ind.
  { split; simpl; [done|constructor|constructor| | |].
    - by intros a ?%not_elem_of_nil.
    - intros a. tauto.
    - intros l1 s l2 H. by destruct l1. }
  rewrite scan_snoc. destruct (scan l) as [o p]. simpl in IH.
  destruct IH as [Hns Hsy Hnd Hre Hfr Hsp].
  assert (Hfr' : ∀ b, b ∈ l ++ [a] ↔ (b ∈ o ∨ b ∈ p) ∨ b = a)
    by (intros b; by rewrite elem_of_app, list_elem_of_singleton, <- Hfr).
  destruct (rollback_action_cases o p a)
    as [(Ha & Hin & ->)|[(Ha & Hin & ->)|(Ha & [(-> & Hn)|(p1 & p2 & -> & Hn & ->)])]]; simpl.
  - split; [by rewrite nonsync_app, (nonsync_sync a), app_nil_r|done..| |].
    + intros b. rewrite Hfr'. naive_solver.
    + intros l1 s l2 H Hs. split_snoc H; [by left|]. by eapply Hsp.
  - split; [by rewrite nonsync_app, (nonsync_sync a), app_nil_r| | |done| |].
    + apply Forall_app_2; auto.
    + apply NoDup_app; split_and!; [done| |apply NoDup_singleton].
      by intros x Hx ->%list_elem_of_singleton.
    + intros b. rewrite Hfr', elem_of_app, list_elem_of_singleton. tauto.
    + intros l1 s l2 H Hs. rewrite elem_of_app, list_elem_of_singleton.
      split_snoc H; [by left; right|]. destruct (Hsp _ _ _ eq_refl Hs); auto.
  - split; [by rewrite !nonsync_app, Hns|done|done| | |].
    + intros b [Hb| ->%list_elem_of_singleton]%elem_of_app; [by apply Hre|congruence].
    + intros b. rewrite Hfr', elem_of_app, list_elem_of_singleton. tauto.
    + intros l1 s l2 H Hs. split_snoc H; [congruence|].
      destruct (Hsp _ _ _ eq_refl Hs) as [?|(o1 & o2 & -> & Hp)]; [by left|].
      right. exists o1, (o2 ++ [a]). by rewrite <- app_assoc.
  - split.
    + rewrite nonsync_app, Hns, nonsync_app. f_equal.
    + rewrite Forall_app, Forall_cons in Hsy. apply Forall_app_2; tauto.
    + rewrite <- Permutation_middle in Hnd. by apply NoDup_cons in Hnd as [_ ?].
    + intros b [Hb|[ ->| ->%list_elem_of_singleton]%elem_of_cons]%elem_of_app;
        [by apply Hre|done|congruence].
    + intros b. rewrite Hfr', !elem_of_app, !elem_of_cons, elem_of_nil. tauto.
    + intros l1 s l2 H Hs. split_snoc H; [congruence|].
      destruct (Hsp _ _ _ eq_refl Hs) as [Hin|(o1 & o2 & -> & Hp)].
      * rewrite elem_of_app, elem_of_cons in Hin. rewrite elem_of_app.
        destruct (decide (s = Action_DaemonReload)) as [->|Hne]; [|left; tauto].
        right. exists o, [a]. split; [done|]. rewrite Hns, nonsync_app. by apply prefix_app_r.
      * right. exists o1, (o2 ++ [Action_DaemonReload; a]). by rewrite <- app_assoc.
Qed.

(** The ordered list of a scan only grows. *)
Lemma scan_prefix l k : (scan l).1 `prefix_of` (scan (l ++ k)).1.
Proof.
  induction k as [|a k IH] using rev_ind; [by rewrite app_nil_r|].
  rewrite app_assoc, scan_snoc. destruct (scan (l ++ k)) as [o p].
  etrans; [exact IH|]. clear.
  destruct (rollback_action_cases o p a)
    as [(_ & _ & ->)|[(_ & _ & ->)|(_ & [(-> & _)|(? & ? & -> & _ & ->)])]];
    simpl; first [done | by apply prefix_app_r].
Qed.

Lemma nonsync_rollback_order journal :
  nonsync (rollback_order journal) = nonsync (backwards journal).
Proof.
  rewrite rollback_order_scan, nonsync_app.
  destruct (scan_scanned (backwards journal)) as [-> Hsy _ _ _ _].
  rewrite (nonsync_all_sync (reverse _)), app_nil_r; [done|]. by apply Forall_reverse.
Qed.

(** A rollback undoes in reverse: apart from the syncs, the order is every
    recorded undo exactly once, the latest change first. *)
Lemma rollback_order_reverses journal :
  nonsync (rollback_order journal) = nonsync (backwards journal).
Proof. exact (nonsync_rollback_order journal). Qed.

(** Each sync a change asked for runs after every undo that preceded it in
    the reversed journal, so it sees what they put back. *)
Lemma rollback_order_syncs_after journal l1 s l2 :
  backwards journal = l1 ++ s :: l2 → is_sync s = true →
  ∃ o1 o2, rollback_order journal = o1 ++ s :: o2 ∧ nonsync l1 `prefix_of` nonsync o1.
Proof.
  intros H Hs. rewrite rollback_order_scan.
  destruct (scan_scanned (backwards journal)) as [Hns _ _ _ _ Hsp].
  destruct (Hsp _ _ _ H Hs) as [Hin|(o1 & o2 & -> & Hp)].
  - apply elem_of_reverse, list_elem_of_split in Hin as (k1 & k2 & ->).
    exists ((scan (backwards journal)).1 ++ k1), k2. rewrite <- app_assoc. split; [done|].
    rewrite nonsync_app, Hns, H, nonsync_app. by apply prefix_app_r, prefix_app_r.
  - exists o1, (o2 ++ reverse (scan (backwards journal)).2). by rewrite <- app_assoc.
Qed.

(** A unit is enabled, disabled, started or stopped only with its files
    loaded: when a reload was asked for before it in the reversed journal, a reload
    runs between the undos that asked for it and the unit's own undo. *)
Lemma rollback_order_reloads_before_units journal l1 l2 u l3 :
  backwards journal = l1 ++ Action_DaemonReload :: l2 ++ u :: l3 →
  needs_loaded_units u = true →
  ∃ o1 o2 o3, rollback_order journal = o1 ++ Action_DaemonReload :: o2 ++ u :: o3 ∧
    nonsync l1 `prefix_of` nonsync o1 ∧ nonsync (o1 ++ o2) = nonsync (l1 ++ l2).
Proof.
  intros H Hu. rewrite rollback_order_scan, H.
  set (before := l1 ++ Action_DaemonReload :: l2).
  assert (Heq : l1 ++ Action_DaemonReload :: l2 ++ u :: l3 = (before ++ [u]) ++ l3)
    by (unfold before; by rewrite <- !app_assoc).
  rewrite Heq. destruct (scan_prefix (before ++ [u]) l3) as [rest ->].
  set (tail := reverse _). clearbody tail. rewrite scan_snoc.
  destruct (scan before) as [o p] eqn:Hscan.
  destruct (scan_scanned before) as [Hns Hsy _ _ _ Hsp].
  rewrite Hscan in Hns, Hsp, Hsy; simpl in Hns, Hsp, Hsy.
  assert (Hpre : nonsync o = nonsync (l1 ++ l2))
    by (rewrite Hns; unfold before; by rewrite !nonsync_app).
  destruct (rollback_action_cases o p u)
    as [(Hs & _)|[(Hs & _)|(_ & [(-> & Hn)|(p1 & p2 & -> & _ & ->)])]];
    [apply needs_not_sync in Hu; congruence..| |]; simpl.
  - destruct (Hsp l1 _ l2 eq_refl eq_refl) as [Hin|(o1 & o2 & -> & Hp)]; [by destruct (Hn Hu)|].
    exists o1, o2, (rest ++ tail). split_and!; [|done|].
    + by simplify_list_eq.
    + rewrite <- Hpre, !nonsync_app. f_equal.
  - exists o, [], (rest ++ tail). split_and!; [by simplify_list_eq| |by rewrite app_nil_r].
    rewrite Hpre, nonsync_app. by apply prefix_app_r.
Qed.

(** A rollback runs nothing that was not recorded, and every sync but a reload
    at most once. *)
Lemma rollback_order_exact journal :
  (∀ a, a ∈ rollback_order journal ↔ a ∈ backwards journal) ∧
  NoDup (filter (λ a, is_sync a = true ∧ a ≠ Action_DaemonReload) (rollback_order journal)).
Proof.
  rewrite rollback_order_scan.
  destruct (scan_scanned (backwards journal)) as [_ _ Hnd Hre Hfr _]. split.
  - intros a. by rewrite elem_of_app, elem_of_reverse.
  - rewrite filter_app. assert (filter _ (scan (backwards journal)).1 = []) as ->.
    { apply filter_none. intros a Ha [Hs Hne]. by apply Hne, Hre. }
    simpl. apply NoDup_filter. by rewrite reverse_Permutation.
Qed.

(** The order a rollback undoes in: apart from the syncs, every recorded undo
    exactly once, the latest change first; each sync a change asked for after every
    undo that preceded it; a unit's own undo only after a reload that a later change
    asked for, which follows the undos that asked for it; and nothing that was not
    recorded, every sync but a reload at most once. *)
Lemma rollback_order_spec journal :
  nonsync (rollback_order journal) = nonsync (backwards journal) ∧
  (∀ l1 s l2, backwards journal = l1 ++ s :: l2 → is_sync s = true →
    ∃ o1 o2, rollback_order journal = o1 ++ s :: o2 ∧ nonsync l1 `prefix_of` nonsync o1) ∧
  (∀ l1 l2 u l3, backwards journal = l1 ++ Action_DaemonReload :: l2 ++ u :: l3 →
    needs_loaded_units u = true →
    ∃ o1 o2 o3, rollback_order journal = o1 ++ Action_DaemonReload :: o2 ++ u :: o3 ∧
      nonsync l1 `prefix_of` nonsync o1 ∧ nonsync (o1 ++ o2) = nonsync (l1 ++ l2)) ∧
  (∀ a, a ∈ rollback_order journal ↔ a ∈ backwards journal) ∧
  NoDup (filter (λ a, is_sync a = true ∧ a ≠ Action_DaemonReload) (rollback_order journal)).
Proof.
  split; [apply rollback_order_reverses|]. split; [intros; by eapply rollback_order_syncs_after|].
  split; [intros; by eapply rollback_order_reloads_before_units|apply rollback_order_exact].
Qed.

(** ** What recovery leaves to undo *)

(** [still] keeps the actions no record says were reverted. *)
Lemma still_spec reverted undo :
  NoDup (nonsync undo) →
  nonsync (still reverted undo).1 = filter (λ a, a ∉ reverted) (nonsync undo) ∧
  ∀ a, is_sync a = false → a ∉ undo → a ∈ (still reverted undo).2 ↔ a ∈ reverted.
Proof.
  revert reverted. induction undo as [|a undo IH]; intros reverted Hnd; [done|].
  assert (Hcons : nonsync (a :: undo) = nonsync [a] ++ nonsync undo) by apply (nonsync_app [a]).
  rewrite Hcons in *. apply NoDup_app in Hnd as (_ & Hfresh & Hnd).
  assert (Hnot : is_sync a = false → a ∉ undo).
  { intros Ha Hin. apply (Hfresh a); [rewrite nonsync_non by done; set_solver|].
    by apply list_elem_of_filter. }
  simpl. rewrite filter_app. destruct (position _ reverted) as [i|] eqn:Hp.
  - apply position_Some in Hp as (? & Hi & ->). destruct (IH (swap_remove i reverted) Hnd) as [-> Hsame].
    split.
    + rewrite (filter_none _ (nonsync [a])).
      2:{ intros x [_ ->%list_elem_of_singleton]%list_elem_of_filter Hx. apply Hx. by eapply list_elem_of_lookup_2. }
      simpl. apply filter_ext_in. intros x [Hx Hin]%list_elem_of_filter.
      rewrite (swap_remove_elem _ _ _ _ Hi); [done|]. intros ->. by apply Hnot.
    + intros b Hb [Hba Hbu]%not_elem_of_cons. rewrite Hsame by done.
      by apply (swap_remove_elem _ _ _ _ Hi Hba).
  - assert (Hn := position_None _ _ Hp). destruct (IH reverted Hnd) as [Hl Hsame].
    destruct (still reverted undo) as [rest left_]. simpl in *. split.
    + change (a :: rest) with ([a] ++ rest). rewrite nonsync_app, Hl. f_equal. symmetry. apply filter_all.
      intros x [_ ->%list_elem_of_singleton]%list_elem_of_filter Hx. by apply (Hn _ Hx).
    + intros b Hb [_ Hbu]%not_elem_of_cons. by apply Hsame.
Qed.

Lemma nonsync_concat J : nonsync (concat J) = concat (nonsync <$> J).
Proof. induction J as [|l J IH]; simpl; [done|]. by rewrite nonsync_app, IH. Qed.

Lemma still_each_spec reverted J :
  NoDup (nonsync (concat J)) →
  nonsync <$> (still_each reverted J).1 = (λ l, filter (λ a, a ∉ reverted) (nonsync l)) <$> J ∧
  ∀ a, is_sync a = false → a ∉ concat J → a ∈ (still_each reverted J).2 ↔ a ∈ reverted.
Proof.
  revert reverted. induction J as [|l J IH]; intros reverted Hnd; [done|]. simpl in *.
  rewrite nonsync_app in Hnd. apply NoDup_app in Hnd as (Hl & Hfresh & HJ).
  destruct (still_spec reverted l Hl) as [Hkept Hsame].
  destruct (still reverted l) as [kept reverted1]. simpl in *.
  destruct (IH reverted1 HJ) as [HkeptJ HsameJ].
  destruct (still_each reverted1 J) as [keptJ reverted2]. csimpl in *. split.
  - rewrite Hkept, HkeptJ. f_equal. apply list_fmap_ext. intros i k Hk.
    apply filter_ext_in. intros a Ha. rewrite Hsame; [done| |].
    + by apply list_elem_of_filter in Ha as [? _].
    + intros Hal. apply list_elem_of_filter in Ha as [Ha Hak].
      apply (Hfresh a); apply list_elem_of_filter; [done|]. split; [done|].
      apply elem_of_concat. exists k. split; [done|]. by eapply list_elem_of_lookup_2.
  - intros a Ha [Hal HaJ]%not_elem_of_app. rewrite HsameJ by done. by apply Hsame.
Qed.

(** Everything a recovery undoes, in its order. *)
Definition undone (r : Recovery) : list Action :=
  match r with Recovery_RollBack uncertain certain => uncertain ++ certain | _ => [] end.

(** The announced changes of a journal that neither settled nor failed. *)
Definition in_doubt (records : list JRecord) : Undos :=
  foldl (latest_step ((confirmed records).*1) (omap failed_seq records)) [] records.

(** Everything a journal records, as it would be undone with nothing reverted. *)
Definition recorded (records : list JRecord) : list Action :=
  concat ((in_doubt records).*2) ++ backwards ((confirmed records).*2).

Lemma nonsync_uncertain_of left_ : nonsync (uncertain_of left_) = nonsync (concat left_).
Proof.
  unfold uncertain_of. induction left_ as [|l left_ IH]; csimpl; [done|].
  rewrite !nonsync_app, IH, nonsync_rollback_order. unfold backwards. simpl.
  by rewrite app_nil_r.
Qed.

(** A journal that neither committed nor ended. *)
Definition unfinished (records : list JRecord) : Prop :=
  (Record_Ended ∉ records) ∧ Record_Committing ∉ records.
#[export] Instance unfinished_dec records : Decision (unfinished records).
Proof. unfold unfinished. apply _. Defined.

(** The rollback of an unfinished journal, as [recover] composes it. *)
Lemma undone_recover records :
  unfinished records →
  ∃ rest,
    let reverted := omap reverted_action records in
    (still_each reverted ((confirmed records).*2)).2 = rest ∧
    undone (recover records) =
      uncertain_of (still_each rest ((in_doubt records).*2)).1 ++
      rollback_order (still_each reverted ((confirmed records).*2)).1.
Proof.
  intros [He Hc]. eexists. split; [reflexivity|]. unfold recover.
  rewrite decide_False, decide_False by done. fold (in_doubt records).
  destruct (still_each (omap _ _) _) as [journal rest]. simpl.
  destruct (still_each rest _) as [doubtful ?]. simpl.
  case_decide as Hn; [|done]. by destruct Hn as [-> ->].
Qed.

Lemma concat_filter (P : Action → Prop) `{∀ x, Decision (P x)} J :
  concat ((λ l, filter P (nonsync l)) <$> J) = filter P (nonsync (concat J)).
Proof. induction J as [|l J IH]; csimpl; [done|]. by rewrite nonsync_app, filter_app, IH. Qed.

Lemma nonsync_backwards J : nonsync (backwards J) = concat (reverse (nonsync <$> J)).
Proof. unfold backwards. by rewrite nonsync_concat, <- fmap_reverse. Qed.

Lemma backwards_Permutation J : backwards J ≡ₚ concat J.
Proof.
  unfold backwards. induction J as [|l J IH]; [done|].
  rewrite reverse_cons, concat_app. simpl. rewrite app_nil_r, IH. apply Permutation_app_comm.
Qed.

Lemma NoDup_nonsync_reverse J :
  NoDup (nonsync (backwards J)) ↔ NoDup (nonsync (concat J)).
Proof.
  unfold nonsync. by rewrite backwards_Permutation.
Qed.

(** With distinct undos, recovery undoes those no record says were reverted, in the
    order of [recorded]. *)
Lemma nonsync_undone records :
  unfinished records → NoDup (nonsync (recorded records)) →
  nonsync (undone (recover records)) =
  filter (λ a, a ∉ omap reverted_action records) (nonsync (recorded records)).
Proof.
  intros Hun Hnd. destruct (undone_recover records Hun) as (rest & Hrest & ->).
  unfold recorded in *. rewrite nonsync_app in Hnd.
  apply NoDup_app in Hnd as (Hdoubt & Hfresh & Hsure).
  rewrite NoDup_nonsync_reverse in Hsure.
  set (reverted := omap reverted_action records) in *.
  destruct (still_each_spec reverted _ Hsure) as [Hkept Hsame].
  destruct (still_each_spec rest _ Hdoubt) as [Hkept' _].
  rewrite Hrest in Hsame.
  rewrite !nonsync_app, nonsync_uncertain_of, nonsync_rollback_order, filter_app. f_equal.
  - rewrite nonsync_concat, Hkept', concat_filter. apply filter_ext_in.
    intros a Ha. rewrite Hsame; [done| |].
    + by apply list_elem_of_filter in Ha as [? _].
    + intros Hin. apply (Hfresh a Ha). apply list_elem_of_filter in Ha as [Ha _].
      apply list_elem_of_filter. split; [done|]. unfold backwards.
      apply elem_of_concat in Hin as (l & Hal & Hl). apply elem_of_concat.
      exists l. by rewrite elem_of_reverse.
  - rewrite nonsync_backwards, Hkept, <- fmap_reverse, concat_filter. by unfold backwards.
Qed.

(** Records of undos that landed change nothing else a recovery looks at. *)
Section reverting.
Context (records : list JRecord) (more : list Action).
Let after : list JRecord := records ++ (Record_Reverted <$> more).

Lemma reverting_unfinished : unfinished records → unfinished after.
Proof.
  intros [He Hc]. split; intros [?|(? & ? & _)%list_elem_of_fmap]%elem_of_app; done.
Qed.

Lemma reverting_confirmed : confirmed after = confirmed records.
Proof.
  unfold confirmed, after. rewrite foldl_app. generalize (foldl confirmed_step ([], []) records).
  induction more as [|a l IH]; intros [p c]; csimpl; [done|]. apply IH.
Qed.

Lemma reverting_in_doubt : in_doubt after = in_doubt records.
Proof.
  unfold in_doubt. rewrite reverting_confirmed. unfold after. rewrite omap_app.
  assert (omap failed_seq (Record_Reverted <$> more) = []) as ->
    by (induction more; csimpl; done).
  rewrite app_nil_r, foldl_app. 
  assert (Hnoop : ∀ st, foldl (latest_step ((confirmed records).*1) (omap failed_seq records))
    st (Record_Reverted <$> more) = st); [|apply Hnoop].
  induction more as [|a l IH]; intros st; csimpl; [done|]. apply IH.
Qed.

Lemma reverting_recorded : recorded after = recorded records.
Proof. unfold recorded. by rewrite reverting_confirmed, reverting_in_doubt. Qed.

Lemma reverting_reverted :
  omap reverted_action after = omap reverted_action records ++ more.
Proof.
  unfold after. rewrite omap_app. f_equal.
  induction more as [|a l IH]; csimpl; [done|]. by rewrite IH.
Qed.
End reverting.

(**  A recovery that is itself cut off resumes where it stopped: after the first
    [k] undos of a recovery landed and were recorded, the next recovery undoes
    exactly the others, in the same order (syncs apart, and as long as no two
    recorded undos are equal: see [recover_out_of_order]). *)
Lemma recover_resumes records k :
  unfinished records → NoDup (nonsync (recorded records)) →
  let planned := undone (recover records) in
  nonsync (undone (recover (records ++ (Record_Reverted <$> take k planned)))) =
  nonsync (drop k planned).
Proof.
  intros Hun Hnd planned.
  assert (Hplanned : nonsync planned = filter (λ a, a ∉ omap reverted_action records)
    (nonsync (recorded records))) by by apply nonsync_undone.
  rewrite nonsync_undone; [|by apply reverting_unfinished|by rewrite reverting_recorded].
  rewrite reverting_recorded, reverting_reverted.
  trans (filter (λ a, a ∉ nonsync (take k planned)) (nonsync planned)).
  - rewrite Hplanned, list_filter_filter. apply filter_ext_in.
    intros a [Ha _]%list_elem_of_filter. unfold nonsync.
    rewrite not_elem_of_app, list_elem_of_filter. tauto.
  - assert (Hsplit : nonsync planned = nonsync (take k planned) ++ nonsync (drop k planned))
      by by rewrite <- nonsync_app, take_drop.
    rewrite Hsplit. apply filter_drop_seen. rewrite <- Hsplit, Hplanned.
    by apply NoDup_filter.
Qed.

(** ** How often recovery undoes *)

(** How many times [a] occurs. *)
Definition count (a : Action) (l : list Action) : nat := length (filter (λ b, b = a) l).

Lemma count_app a l k : count a (l ++ k) = count a l + count a k.
Proof. unfold count. by rewrite filter_app, length_app. Qed.

Lemma count_cons a b l : count a (b :: l) = (if decide (b = a) then 1 else 0) + count a l.
Proof. unfold count. rewrite filter_cons. by case_decide. Qed.

Lemma count_Permutation a l k : l ≡ₚ k → count a l = count a k.
Proof. unfold count. by intros ->. Qed.

Lemma count_elem_of a l : a ∈ l ↔ 0 < count a l.
Proof.
  induction l as [|b l IH]; [split; [by intros ?%elem_of_nil|unfold count; simpl; lia]|].
  rewrite elem_of_cons, count_cons. case_decide; naive_solver lia.
Qed.

Lemma count_nonsync a l : is_sync a = false → count a (nonsync l) = count a l.
Proof.
  intros Ha. unfold count, nonsync. f_equal. rewrite list_filter_filter. apply filter_ext_in.
  naive_solver.
Qed.

Lemma still_count a reverted undo :
  count a (still reverted undo).1 = count a undo - count a reverted ∧
  count a (still reverted undo).2 = count a reverted - count a undo.
Proof.
  revert reverted. induction undo as [|b undo IH]; intros reverted; simpl.
  { unfold count. simpl. lia. }
  rewrite count_cons. destruct (position _ reverted) as [i|] eqn:Hp.
  - apply position_Some in Hp as (? & Hi & ->).
    rewrite <- (count_Permutation a _ _ (swap_remove_Permutation _ _ _ Hi)), count_cons.
    destruct (IH (swap_remove i reverted)) as [-> ->]. case_decide; lia.
  - assert (Hn := position_None _ _ Hp). destruct (IH reverted) as [Hl Hr].
    destruct (still reverted undo) as [rest left_]. simpl in *. rewrite count_cons, Hl, Hr.
    case_decide as Hba; [subst|lia].
    assert (¬ 0 < count a reverted); [|lia]. rewrite <- count_elem_of.
    intros Hin. by apply (Hn _ Hin).
Qed.

Lemma still_each_count a reverted J :
  count a (concat (still_each reverted J).1) = count a (concat J) - count a reverted ∧
  count a (still_each reverted J).2 = count a reverted - count a (concat J).
Proof.
  revert reverted. induction J as [|l J IH]; intros reverted; simpl.
  { unfold count. simpl. lia. }
  destruct (still_count a reverted l) as [Hl Hr].
  destruct (still reverted l) as [kept reverted1]. simpl in *.
  destruct (IH reverted1) as [HlJ HrJ].
  destruct (still_each reverted1 J) as [keptJ reverted2]. simpl in *.
  rewrite !count_app, HlJ, HrJ, Hl, Hr. lia.
Qed.

Lemma count_undone a records :
  unfinished records → is_sync a = false →
  count a (undone (recover records)) =
  count a (recorded records) - count a (omap reverted_action records).
Proof.
  intros Hun Ha. destruct (undone_recover records Hun) as (rest & Hrest & ->).
  set (reverted := omap reverted_action records) in *.
  destruct (still_each_count a reverted ((confirmed records).*2)) as [Hl Hr].
  destruct (still_each_count a rest ((in_doubt records).*2)) as [Hl' _].
  rewrite Hrest in Hr. unfold recorded.
  rewrite !count_app, (count_Permutation a _ _ (backwards_Permutation _)).
  rewrite <- (count_nonsync a (uncertain_of _)), nonsync_uncertain_of by done.
  rewrite <- (count_nonsync a (rollback_order _)), nonsync_rollback_order by done.
  rewrite !count_nonsync, Hl', (count_Permutation a _ _ (backwards_Permutation _)) by done.
  lia.
Qed.

(** C13.  However often it is cut off, recovery undoes each change exactly as often as
    it was recorded: a recovery of which the first [k] undos landed leaves the others
    to the next one, equal undos included. *)
Theorem recover_resumes_each records k a :
  unfinished records → is_sync a = false →
  let planned := undone (recover records) in
  count a (undone (recover (records ++ (Record_Reverted <$> take k planned)))) =
  count a (drop k planned).
Proof.
  intros Hun Ha planned.
  rewrite count_undone; [|by apply reverting_unfinished|done].
  rewrite reverting_recorded, reverting_reverted, count_app.
  assert (Hp := count_undone a records Hun Ha). fold planned in Hp.
  rewrite <- (take_drop k planned), count_app in Hp. lia.
Qed.

(** ** The journal a run writes *)

(** One performed action, as [drive] in [crates/shell/src/drive.rs] sees it: the undos
    it announced before changing anything, and the undo it returned if it succeeded. *)
Inductive Change :=
  | Landed (announced : list (list Action)) (undo : list Action)
  | Broken (announced : list (list Action)).

(** The records [drive] writes for it. *)
Definition written (seq : N) (c : Change) : list JRecord :=
  match c with
  | Landed announced undo =>
      (Record_Prepared seq <$> announced) ++
      [if decide (last announced = Some undo) then Record_Done seq else Record_Settled seq undo]
  | Broken announced => Record_Prepared seq <$> announced
  end.

Fixpoint written_from (seq : N) (cs : list Change) : list JRecord :=
  match cs with
  | [] => []
  | c :: cs => written seq c ++ written_from (seq + 1)%N cs
  end.

(** What landed, and what was announced and may have. *)
Fixpoint landed_from (seq : N) (cs : list Change) : Undos :=
  match cs with
  | [] => []
  | Landed _ undo :: cs => (seq, undo) :: landed_from (seq + 1)%N cs
  | _ :: cs => landed_from (seq + 1)%N cs
  end.

Definition announcement (seq : N) (announced : list (list Action)) : Undos :=
  match last announced with Some undo => [(seq, undo)] | None => [] end.

Fixpoint doubts_from (seq : N) (cs : list Change) : Undos :=
  match cs with
  | [] => []
  | Broken announced :: cs => announcement seq announced ++ doubts_from (seq + 1)%N cs
  | _ :: cs => doubts_from (seq + 1)%N cs
  end.

Definition below (seq : N) (l : Undos) : Prop := Forall (λ e, (e.1 < seq)%N) l.

Lemma below_weaken seq l : below seq l → below (seq + 1)%N l.
Proof. intros H. eapply Forall_impl; [exact H|]. simpl. lia. Qed.

Lemma below_snoc seq l undo : below seq l → below (seq + 1)%N (l ++ [(seq, undo)]).
Proof.
  intros H. apply Forall_app_2; [by apply below_weaken|].
  apply Forall_singleton. simpl. lia.
Qed.

Lemma below_retain seq l : below seq l → filter (λ e : N * list Action, e.1 ≠ seq) l = l.
Proof.
  intros H. apply filter_all. intros e He. unfold below in H. rewrite Forall_forall in H.
  specialize (H _ He). simpl in H. lia.
Qed.

Lemma find_below seq l undo :
  below seq l → find (λ e : N * list Action, e.1 = seq) (l ++ [(seq, undo)]) = Some (seq, undo).
Proof.
  intros H. unfold find. induction H as [|e l He _ IH]; simpl.
  - by case_decide.
  - case_decide; [simplify_eq/=; lia|]. destruct (list_find _ _) as [[? ?]|]; naive_solver.
Qed.

Lemma below_announcement seq l announced :
  below seq l → below (seq + 1)%N (l ++ announcement seq announced).
Proof.
  intros H. unfold announcement. destruct (last announced).
  - by apply below_snoc.
  - rewrite app_nil_r. by apply below_weaken.
Qed.

Lemma confirmed_announced p c seq announced :
  below seq p →
  foldl confirmed_step (p, c) (Record_Prepared seq <$> announced) =
    (p ++ announcement seq announced, c).
Proof.
  intros Hp. induction announced as [|a announced IH] using rev_ind; [by rewrite app_nil_r|].
  rewrite fmap_app, foldl_app, IH. unfold announcement. rewrite last_snoc. simpl.
  rewrite filter_app, below_retain by done.
  destruct (last announced); [|by rewrite app_nil_r].
  rewrite filter_cons_False by naive_solver. simpl. by rewrite app_nil_r.
Qed.

Lemma confirmed_written p c seq cs :
  below seq p →
  ∃ p', foldl confirmed_step (p, c) (written_from seq cs) = (p', c ++ landed_from seq cs).
Proof.
  revert p c seq. induction cs as [|ch cs IH]; intros p c seq Hp; simpl.
  { exists p. by rewrite app_nil_r. }
  assert (Hnext : ∀ c', ∃ p', foldl confirmed_step
    (p ++ announcement seq (match ch with Landed a _ | Broken a => a end), c')
    (written_from (seq + 1)%N cs) = (p', c' ++ landed_from (seq + 1)%N cs))
    by (intros c'; by apply IH, below_announcement).
  rewrite foldl_app. destruct ch as [a undo|a]; simpl in *.
  - rewrite foldl_app, confirmed_announced by done.
    destruct (Hnext (c ++ [(seq, undo)])) as [p' Hp']. exists p'.
    rewrite <- app_assoc in Hp'. case_decide as Hlast; simpl; [|exact Hp'].
    unfold announcement in *. rewrite Hlast in *. rewrite find_below by done. exact Hp'.
  - rewrite confirmed_announced by done. apply Hnext.
Qed.

Lemma set_latest_below seq undo l : below seq l → set_latest seq undo l = l ++ [(seq, undo)].
Proof.
  induction 1 as [|[e old] l He _ IH]; simpl; [done|]. simpl in He.
  case_decide; [lia|]. by rewrite IH.
Qed.

Lemma set_latest_again seq undo old l :
  below seq l → set_latest seq undo (l ++ [(seq, old)]) = l ++ [(seq, undo)].
Proof.
  induction 1 as [|[e x] l He _ IH]; simpl; [by rewrite decide_True|]. simpl in He.
  case_decide; [lia|]. by rewrite IH.
Qed.

Lemma landed_from_ge seq cs m : m ∈ (landed_from seq cs).*1 → (seq <= m)%N.
Proof.
  revert seq. induction cs as [|[? ?|?] cs IH]; intros seq; csimpl;
    [by intros ?%elem_of_nil| |intros H%IH; lia].
  intros [->|H%IH]%elem_of_cons; lia.
Qed.

Lemma latest_announced settled st seq announced :
  below seq st → seq ∉ settled →
  foldl (latest_step settled []) st (Record_Prepared seq <$> announced) =
    st ++ announcement seq announced.
Proof.
  intros Hst Hs. induction announced as [|a announced IH] using rev_ind; [by rewrite app_nil_r|].
  rewrite fmap_app, foldl_app, IH. unfold announcement. rewrite last_snoc. simpl.
  rewrite decide_True by (split; [done|by intros ?%elem_of_nil]).
  destruct (last announced); [by apply set_latest_again|].
  rewrite app_nil_r. by apply set_latest_below.
Qed.

Lemma latest_settled settled st seq announced :
  seq ∈ settled → foldl (latest_step settled []) st (Record_Prepared seq <$> announced) = st.
Proof.
  intros Hs. induction announced as [|a announced IH]; [done|]. csimpl.
  by rewrite decide_False by tauto.
Qed.

Lemma latest_written settled st seq cs :
  below seq st → (∀ m, (seq <= m)%N → m ∈ settled ↔ m ∈ (landed_from seq cs).*1) →
  foldl (latest_step settled []) st (written_from seq cs) = st ++ doubts_from seq cs.
Proof.
  revert st seq. induction cs as [|ch cs IH]; intros st seq Hst Hset; simpl.
  { by rewrite app_nil_r. }
  assert (Hself : seq ∉ (landed_from (seq + 1)%N cs).*1) by (intros H%landed_from_ge; lia).
  assert (Hnext : ∀ m, (seq + 1 <= m)%N → m ∈ settled ↔ m ∈ (landed_from (seq + 1)%N cs).*1).
  { intros m Hm. rewrite Hset by lia. destruct ch; csimpl; [|done..].
    rewrite elem_of_cons. split; [|by right]. intros [->|?]; [lia|done]. }
  rewrite foldl_app. destruct ch as [a undo|a]; csimpl.
  - assert (Hs : seq ∈ settled) by (apply Hset; [lia|]; csimpl; by left).
    rewrite foldl_app, latest_settled by done.
    case_decide; simpl; apply IH; auto using below_weaken.
  - assert (Hs : seq ∉ settled) by (rewrite Hset by lia; done).
    rewrite latest_announced, IH by auto using below_announcement. by rewrite <- app_assoc.
Qed.

Lemma still_each_nil J : still_each [] J = (J, []).
Proof.
  assert (Hs : ∀ l, still [] l = (l, [])).
  { induction l as [|a l IH]; simpl; [done|]. by rewrite IH. }
  induction J as [|l J IH]; simpl; [done|]. by rewrite Hs, IH.
Qed.

Lemma written_from_only seq cs r :
  r ∈ written_from seq cs → failed_seq r = None ∧ reverted_action r = None ∧
    r ≠ Record_Ended ∧ r ≠ Record_Committing.
Proof.
  revert seq. induction cs as [|ch cs IH]; intros seq; simpl; [by intros ?%elem_of_nil|].
  rewrite elem_of_app. intros [H|H]; [|by eapply IH].
  destruct ch as [a u|a]; simpl in H; [apply elem_of_app in H as [H|H]|];
    try (apply list_elem_of_fmap in H as (? & -> & _); done).
  apply list_elem_of_singleton in H as ->. by case_decide.
Qed.

Lemma omap_none {A B} (f : A → option B) l : (∀ x, x ∈ l → f x = None) → omap f l = [].
Proof.
  induction l as [|x l IH]; intros Hf; csimpl; [done|].
  rewrite (Hf x) by (by left). apply IH. intros y Hy. apply Hf. by right.
Qed.

(** What the next run makes of the journal of a run that never got to commit,
    whatever its changes were and wherever it was cut off: each announced change that
    never settled is undone first, tolerating failure, and every change that landed is
    undone in the order of a rollback. *)
Lemma recover_written request cs :
  let uncertain := uncertain_of ((doubts_from 0 cs).*2) in
  let certain := rollback_order ((landed_from 0 cs).*2) in
  recover (Record_Began request :: written_from 0 cs) =
  if decide (uncertain = [] ∧ certain = []) then Recovery_Nothing
  else Recovery_RollBack uncertain certain.
Proof.
  intros uncertain certain. set (log := Record_Began request :: written_from 0 cs).
  assert (Hlog : ∀ r, r ∈ log → failed_seq r = None ∧ reverted_action r = None ∧
    r ≠ Record_Ended ∧ r ≠ Record_Committing).
  { intros r [->|Hr]%elem_of_cons; [done|]. by eapply written_from_only. }
  unfold recover.
  rewrite decide_False by (intros H; by apply Hlog in H as (_ & _ & ? & _)).
  rewrite decide_False by (intros H; by apply Hlog in H as (_ & _ & _ & ?)).
  rewrite (omap_none failed_seq), (omap_none reverted_action) by (intros r Hr; by apply Hlog).
  assert (Hc : confirmed log = landed_from 0 cs).
  { unfold confirmed, log. simpl. by destruct (confirmed_written [] [] 0 cs) as [p ->]; [constructor|]. }
  rewrite Hc, still_each_nil. unfold log. simpl. rewrite latest_written; [|constructor|done].
  by rewrite still_each_nil.
Qed.

(** A run that reached its commit is finished, never rolled back: the next run
    deletes exactly the replaced files its landed changes kept, in their order; and a run
    that ended, wherever it got, asks for nothing. *)
Lemma recover_decided request cs :
  let log := Record_Began request :: written_from 0 cs in
  recover (log ++ [Record_Committing]) =
    Recovery_FinishCommit (omap restore_source (concat ((landed_from 0 cs).*2))) ∧
  recover (log ++ [Record_Committing; Record_Ended]) = Recovery_Nothing ∧
  recover (log ++ [Record_Ended]) = Recovery_Nothing.
Proof.
  intros log. assert (Hlog : Record_Ended ∉ log).
  { intros [?|Hr%written_from_only]%elem_of_cons; naive_solver. }
  unfold recover. split_and!.
  - rewrite decide_False, decide_True; [|by apply elem_of_app; right; left|].
    2:{ rewrite elem_of_app, elem_of_cons. intros [?|[?|?%elem_of_nil]]; done. }
    unfold pending, confirmed, log. simpl. do 3 f_equal. rewrite foldl_app.
    by destruct (confirmed_written [] [] 0 cs) as [p ->]; [constructor|].
  - rewrite decide_True; [done|]. apply elem_of_app. right. right. by left.
  - rewrite decide_True; [done|]. apply elem_of_app. right. by left.
Qed.

(** ** The journal of a run, read back *)

Section written.
Context (request : string) (cs : list Change).
Let log : list JRecord := Record_Began request :: written_from 0 cs.

Lemma unfinished_written : unfinished log.
Proof. split; intros [?|H%written_from_only]%elem_of_cons; naive_solver. Qed.

Lemma confirmed_log : confirmed log = landed_from 0 cs.
Proof.
  unfold confirmed, log. simpl. by destruct (confirmed_written [] [] 0 cs) as [p ->]; [constructor|].
Qed.

Lemma in_doubt_log : in_doubt log = doubts_from 0 cs.
Proof.
  unfold in_doubt. rewrite confirmed_log. rewrite (omap_none failed_seq).
  - unfold log. simpl. by rewrite latest_written; [|constructor|].
  - intros r [->|Hr%written_from_only]%elem_of_cons; naive_solver.
Qed.

Lemma recorded_log :
  recorded log = concat ((doubts_from 0 cs).*2) ++ backwards ((landed_from 0 cs).*2).
Proof. unfold recorded. by rewrite in_doubt_log, confirmed_log. Qed.

Lemma undone_log :
  undone (recover log) =
    uncertain_of ((doubts_from 0 cs).*2) ++ rollback_order ((landed_from 0 cs).*2).
Proof.
  unfold log. rewrite recover_written. case_decide as He; [|done]. by destruct He as [-> ->].
Qed.
End written.

Lemma written_from_snoc seq cs c :
  written_from seq (cs ++ [c]) = written_from seq cs ++ written (seq + N.of_nat (length cs))%N c.
Proof.
  revert seq. induction cs as [|c' cs IH]; intros seq; simpl.
  - by rewrite app_nil_r, N.add_0_r.
  - rewrite IH, <- app_assoc. do 3 f_equal. lia.
Qed.

Lemma landed_from_snoc seq cs c :
  (landed_from seq (cs ++ [c])).*2 =
  (landed_from seq cs).*2 ++ match c with Landed _ undo => [undo] | Broken _ => [] end.
Proof.
  revert seq. induction cs as [|c' cs IH]; intros seq; simpl; [by destruct c|].
  destruct c'; csimpl; by rewrite IH.
Qed.

Lemma doubts_from_snoc seq cs c :
  (doubts_from seq (cs ++ [c])).*2 =
  (doubts_from seq cs).*2 ++
  match c with
  | Landed _ _ => []
  | Broken announced => match last announced with Some undo => [undo] | None => [] end
  end.
Proof.
  revert seq. induction cs as [|c' cs IH]; intros seq; simpl.
  - destruct c as [|a]; [done|]. rewrite app_nil_r. unfold announcement. by destruct (last a).
  - destruct c' as [|a]; [by apply IH|]. rewrite !fmap_app, IH. by rewrite app_assoc.
Qed.

(** ** Journals recovery gets wrong

    [still] takes each reverted action off the earliest change that asked for it,
    while the rollback that reverted it was undoing the latest.  For two equal undos
    it matters which is left. *)
Definition unit_file (name : string) : Action :=
  Action_Restore (of_string ("/etc/systemd/system/" +:+ name))
    (of_string ("/var/lib/mix/" +:+ name)) Expect_Absent.


(** ** Witnesses *)

Lemma rollback_order_spec_witness :
  ∃ o1 o2 o3,
    rollback_order [[Action_StopUnit "a.service"]; [unit_file "a.service"; Action_DaemonReload]] =
      o1 ++ Action_DaemonReload :: o2 ++ Action_StopUnit "a.service" :: o3 ∧
    nonsync [unit_file "a.service"] `prefix_of` nonsync o1 ∧
    nonsync (o1 ++ o2) = nonsync ([unit_file "a.service"] ++ []).
Proof.
  apply (proj1 (proj2 (proj2 (rollback_order_spec
    [[Action_StopUnit "a.service"]; [unit_file "a.service"; Action_DaemonReload]])))
    [unit_file "a.service"] [] (Action_StopUnit "a.service") []); reflexivity.
Defined.

Definition cut_off : list JRecord :=
  written_from 0 [Landed [] [unit_file "a.service"; Action_DaemonReload]; Broken [];
                  Broken [[Action_DeleteGroup "b" 7]]; Landed [] [Action_StopUnit "a.service"]].

Lemma recover_resumes_witness :
  nonsync (undone (recover (cut_off ++ (Record_Reverted <$> take 2 (undone (recover cut_off)))))) =
  nonsync (drop 2 (undone (recover cut_off))).
Proof. apply recover_resumes; evaluate. Defined.

Lemma recover_resumes_each_witness :
  count (Action_StopUnit "a.service")
    (undone (recover (cut_off ++ (Record_Reverted <$> take 2 (undone (recover cut_off)))))) =
  count (Action_StopUnit "a.service") (drop 2 (undone (recover cut_off))).
Proof. apply recover_resumes_each; evaluate. Defined.
