(* ===== verification/Precondition.v ===== *)
(** * Preconditions: what an action on files requires

    [crates/core/src/effect/precondition/mod.rs].  The trait [Ground] is the class of that
    name: what is found at a path, with a handle that pins it, and who a change there runs
    as.  [check] collects the handles it looks through in the order it meets them, so the
    functions that look are in the monad [Look]. *)
From S2P Require Import Prelude.
From S2P Require Import Paths.
From S2P Require Import Effect.

Local Open Scope N_scope.

Record Node := mkNode { nd_kind : Kind; nd_id : FileId; nd_mode : N; nd_owner : Owner }.
#[export] Instance Node_eq_dec : EqDecision Node.
Proof. solve_decision. Defined.

Inductive Spot :=
  | Spot_Blocked (failure : Failure)
  | Spot_Missing
  | Spot_Present (found : Node).
#[export] Instance Spot_eq_dec : EqDecision Spot.
Proof. solve_decision. Defined.

Class Ground (G : Type) := {
  Handle : Type;
  spot : G → path → Spot * option Handle;
  ground_running : G → path → Owner;
}.

Inductive Verdict :=
  | Verdict_Go
  | Verdict_Done
  | Verdict_Below (top : path).
#[export] Instance Verdict_eq_dec : EqDecision Verdict.
Proof. solve_decision. Defined.

(** ** Looking, with the handles collected so far *)

Definition Look (H X : Type) : Type := list H → result Failure X * list H.

#[export] Instance look_ret H : MRet (Look H) := λ X x hs, (Ok x, hs).
#[export] Instance look_bind H : MBind (Look H) := λ X Y f m hs,
  match m hs with
  | (Ok x, hs) => f x hs
  | (Err e, hs) => (Err e, hs)
  end.

(** A value of [Result] under [?]. *)
Definition try {H X} (r : result Failure X) : Look H X := λ hs, (r, hs).

(** ** The pieces of a precondition *)

Definition conflict (at_ : path) (expected found : string) : Failure :=
  Failure_Conflict (display at_) expected found.

Definition not_found (at_ : path) : Failure := Failure_Io at_ NotFound.

Definition gone (failure : Failure) : bool :=
  match failure with Failure_Io _ NotFound => true | _ => false end.

Definition unreached (s : Spot) : bool :=
  match s with
  | Spot_Missing => true
  | Spot_Blocked failure => gone failure
  | Spot_Present _ => false
  end.

Definition absent (at_ : path) (s : Spot) : result Failure unit :=
  match s with
  | Spot_Blocked failure => Err failure
  | Spot_Missing => Ok tt
  | Spot_Present _ => Err (conflict at_ "nothing" "something already there")
  end.

Definition holding (at_ : path) (expect : FileId) (s : Spot) : result Failure Node :=
  match s with
  | Spot_Present found =>
      if decide (nd_id found = expect) then Ok found
      else Err (conflict at_ (FileId_fmt expect) (FileId_fmt (nd_id found)))
  | Spot_Blocked failure =>
      if negb (gone failure) then Err failure
      else Err (conflict at_ (FileId_fmt expect) "nothing")
  | Spot_Missing => Err (conflict at_ (FileId_fmt expect) "nothing")
  end.

Definition node (at_ : path) (s : Spot) : result Failure Node :=
  match s with
  | Spot_Blocked failure => Err failure
  | Spot_Missing => Err (not_found at_)
  | Spot_Present found =>
      if decide (nd_kind found = Kind_Symlink)
      then Err (conflict at_ "no symbolic link" "a symbolic link")
      else Ok found
  end.

Definition source (at_ : path) (s : Spot) : result Failure unit :=
  match s with
  | Spot_Blocked failure => Err failure
  | Spot_Missing => Err (not_found at_)
  | Spot_Present _ => Ok tt
  end.

Definition removable (at_ : path) (expect : FileId) (s : Spot) : result Failure Verdict :=
  if unreached s then Ok Verdict_Done
  else (λ _, Verdict_Go) <$> holding at_ expect s.

(** [{:o}]: a number in octal. *)
Fixpoint octal_fuel (n : nat) (x : N) (acc : string) : string :=
  match n with
  | O => acc
  | S n =>
      let acc := String (Ascii.ascii_of_N (48 + x mod 8)) acc in
      if decide (x / 8 = 0) then acc else octal_fuel n (x / 8) acc
  end.
Definition octal (x : N) : string := octal_fuel (S (N.to_nat (N.size x))) x "".

Example octal_mode : (octal 493, octal 0) = ("755", "0").
Proof. vm_compute. reflexivity. Qed.

Section check.
Context {G : Type} `{Ground G}.
Variable ground : G.

(** [Looking::spot]. *)
Definition look_spot (at_ : path) : Look Handle Spot := λ hs,
  let '(s, handle) := spot ground at_ in
  (Ok s, match handle with Some handle => hs ++ [handle] | None => hs end).

Definition running_as (at_ : path) (owner : Owner) : result Failure unit :=
  let found := ground_running ground at_ in
  if decide (found = owner) then Ok tt
  else Err (conflict at_ ("a copy made as " +:+ ids owner)
              ("a process running as " +:+ ids found)).

(** The loop of [created_below]: [top] climbs while its parent is not the root and is not
    reached. *)
Fixpoint climb (n : nat) (top : path) : Look Handle path :=
  match n with
  | O => mret top
  | S n =>
      match parent top with
      | None => mret top
      | Some above =>
          match parent above with
          | None => mret top
          | Some _ => s ← look_spot above; if unreached s then climb n above else mret top
          end
      end
  end.

Definition created_below (at_ : path) : Look Handle Verdict :=
  s ← look_spot at_;
  match s with
  | Spot_Present found =>
      if decide (nd_kind found = Kind_Directory) then mret Verdict_Done
      else try (Err (conflict at_ "a directory" "something else"))
  | Spot_Blocked failure =>
      if gone failure then
        top ← climb (length at_) at_;
        s ← look_spot top; _ ← try (absent top s); mret (Verdict_Below top)
      else try (Err failure)
  | Spot_Missing =>
      top ← climb (length at_) at_;
      s ← look_spot top; _ ← try (absent top s); mret (Verdict_Below top)
  end.

(** What [expect] says of what is found. *)
Definition expected (at_ : path) (expect : Expect) (s : Spot) : result Failure unit :=
  match expect with
  | Expect_Absent => absent at_ s
  | Expect_Present old => (λ _, tt) <$> holding at_ old s
  end.

Definition check (action : Action) : Look Handle Verdict :=
  match action with
  | Action_CreateDir at_ _ _ =>
      s ← look_spot at_; _ ← try (absent at_ s); mret Verdict_Go
  | Action_CreateDirs at_ _ _ => created_below at_
  | Action_PutFile at_ _ _ _ expect =>
      s ← look_spot at_; _ ← try (expected at_ expect s); mret Verdict_Go
  | Action_SetMode at_ _ expect =>
      s ← look_spot at_; found ← try (node at_ s);
      if decide (nd_mode found = expect) then mret Verdict_Go
      else try (Err (conflict at_ ("mode " +:+ octal expect) ("mode " +:+ octal (nd_mode found))))
  | Action_SetOwner at_ _ expect =>
      s ← look_spot at_; found ← try (node at_ s);
      if decide (nd_owner found = expect) then mret Verdict_Go
      else try (Err (conflict at_ ("owner " +:+ ids expect) ("owner " +:+ ids (nd_owner found))))
  | Action_SetAside at_ expect | Action_Discard at_ expect =>
      s ← look_spot at_; _ ← try (holding at_ expect s); mret Verdict_Go
  | Action_RemoveCreated at_ expect | Action_RemoveCreatedTree at_ expect =>
      s ← look_spot at_; try (removable at_ expect s)
  | Action_Restore at_ from expect =>
      s ← look_spot at_;
      match s with
      | Spot_Blocked failure => try (Err failure)
      | _ =>
          if decide (parent from = parent at_) then
            if decide (file_name from = None) then try (Err (conflict from "a file name" "none"))
            else
              s' ← look_spot from; _ ← try (source from s');
              _ ← try (expected at_ expect s); mret Verdict_Go
          else try (Err (conflict from "a sibling of the restored path" "another directory"))
      end
  | Action_ReclaimTree at_ expect owner _ =>
      _ ← try (running_as at_ owner);
      s ← look_spot at_; _ ← try (holding at_ expect s); mret Verdict_Go
  | Action_CopyTree from to owner _ =>
      _ ← try (running_as to owner);
      s ← look_spot from; _ ← try (source from s);
      s ← look_spot to; _ ← try (absent to s); mret Verdict_Go
  | _ => mret Verdict_Go
  end.

Definition precondition (action : Action) (handles : list Handle)
    : result Failure Verdict * list Handle :=
  check action handles.

End check.
