(* ===== verification/Accounts.v ===== *)
(** * Accounts: what an action on users and groups requires, and its undo

    [crates/core/src/effect/precondition/accounts.rs].  The trait [Accounts] is the class
    of that name; [AccountsLaws] says what its lookups promise each other, which the
    [/etc/passwd] and [/etc/group] of a system and the maps of the modelled world both
    keep. *)
From S2P Require Import Prelude.
From S2P Require Import Paths.
From S2P Require Import Effect.

Local Open Scope N_scope.

Class Accounts (A : Type) := {
  group_of : A → string → option GroupFacts;
  user_of : A → string → option UserFacts;
  group_with_gid : A → N → option string;
  user_with_uid : A → N → option string;
  primary_of : A → N → option string;
  groups_of : A → string → list string;
}.

(** The searches agree with the lookups. *)
Class AccountsLaws (A : Type) `{Accounts A} : Prop := {
  group_with_gid_Some a gid name :
    group_with_gid a gid = Some name → ∃ g, group_of a name = Some g ∧ group_gid g = gid;
  group_with_gid_None a gid name g :
    group_with_gid a gid = None → group_of a name = Some g → group_gid g ≠ gid;
  user_with_uid_Some a uid name :
    user_with_uid a uid = Some name → ∃ u, user_of a name = Some u ∧ uf_uid u = uid;
  user_with_uid_None a uid name u :
    user_with_uid a uid = None → user_of a name = Some u → uf_uid u ≠ uid;
  primary_of_Some a gid name :
    primary_of a gid = Some name → ∃ u, user_of a name = Some u ∧ uf_gid u = gid;
  primary_of_None a gid name u :
    primary_of a gid = None → user_of a name = Some u → uf_gid u ≠ gid;
  elem_of_groups_of a user name :
    name ∈ groups_of a user ↔ ∃ g, group_of a name = Some g ∧ user ∈ members g;
  NoDup_groups_of a user : NoDup (groups_of a user);
}.

Inductive Accounted :=
  | Accounted_Done
  | Accounted_Go (undo : list Action).

(** [conflict]. *)
Definition account_conflict (subject expected found : string) : Failure :=
  Failure_Conflict subject expected found.

Section accounts.
Context {A : Type} `{Accounts A}.
Implicit Types a : A.

(** [expect_group]. *)
Definition expect_group a (name : string) (gid : N) : result Failure GroupFacts :=
  match group_of a name with
  | Some found =>
      if decide (group_gid found = gid) then Ok found
      else Err (account_conflict name ("gid " +:+ digits gid) ("gid " +:+ digits (group_gid found)))
  | None => Err (account_conflict name ("gid " +:+ digits gid) "no group")
  end.

(** [expect_user]. *)
Definition expect_user a (name : string) (o : Owner) : result Failure UserFacts :=
  match user_of a name with
  | Some found =>
      if decide ((uf_uid found, uf_gid found) = o) then Ok found
      else Err (account_conflict name ("ids " +:+ ids o)
                  ("ids " +:+ ids (uf_uid found, uf_gid found)))
  | None => Err (account_conflict name ("ids " +:+ ids o) "no user")
  end.

(** [gid_free]. *)
Definition gid_free a (name : string) (gid : N) : result Failure unit :=
  match group_with_gid a gid with
  | Some holder =>
      if decide (holder = name) then Ok tt
      else Err (account_conflict name ("gid " +:+ digits gid +:+ " free")
                  ("gid " +:+ digits gid +:+ " held by " +:+ holder))
  | None => Ok tt
  end.

(** [uid_free]. *)
Definition uid_free a (name : string) (uid : N) : result Failure unit :=
  match user_with_uid a uid with
  | Some holder =>
      if decide (holder = name) then Ok tt
      else Err (account_conflict name ("uid " +:+ digits uid +:+ " free")
                  ("uid " +:+ digits uid +:+ " held by " +:+ holder))
  | None => Ok tt
  end.

(** [members]. *)
Definition members_of a (group : string) : list string :=
  from_option members [] (group_of a group).

(** [done_already]. *)
Definition done_already a (action : Action) : bool :=
  match action with
  | Action_AddGroup name gid | Action_SetGroupGid name gid _ =>
      from_option (λ found, bool_decide (group_gid found = gid)) false (group_of a name)
  | Action_DeleteGroup name _ => bool_decide (group_of a name = None)
  | Action_AddUser spec =>
      from_option (λ found, bool_decide ((uf_uid found, uf_gid found) = (spec_uid spec, spec_gid spec)))
        false (user_of a (spec_name spec))
  | Action_SetUserIds name ids _ =>
      from_option (λ found, bool_decide ((uf_uid found, uf_gid found) = ids)) false (user_of a name)
  | Action_DeleteUser name _ _ => bool_decide (user_of a name = None)
  | Action_AddMember group user => bool_decide (user ∈ members_of a group)
  | Action_RemoveMember group user => bool_decide (user ∉ members_of a group)
  | _ => false
  end.

(** The group a new user lacks: its primary group's number, or one of its groups. *)
Definition missing_group a (spec : UserSpec) : option string :=
  match group_with_gid a (spec_gid spec) with
  | None => Some (digits (spec_gid spec))
  | Some _ => find (λ name, group_of a name = None) (spec_groups spec)
  end.

(** What undoes the action, or why it may not be done. *)
Definition account_undo a (action : Action) : result Failure (list Action) :=
  match action with
  | Action_AddGroup name gid =>
      match group_of a name with
      | Some found => Err (account_conflict name "no group" ("gid " +:+ digits (group_gid found)))
      | None => _ ← gid_free a name gid; Ok [Action_DeleteGroup name gid]
      end
  | Action_SetGroupGid name gid expect =>
      _ ← expect_group a name expect;
      _ ← gid_free a name gid;
      Ok [Action_SetGroupGid name expect gid]
  | Action_DeleteGroup name expect =>
      found ← expect_group a name expect;
      match primary_of a expect with
      | Some user =>
          Err (account_conflict name "no user in it as their primary group"
                 ("the primary group of " +:+ user))
      | None => Ok (Action_AddGroup name expect :: (Action_AddMember name <$> members found))
      end
  | Action_AddUser spec =>
      match user_of a (spec_name spec) with
      | Some found =>
          Err (account_conflict (spec_name spec) "no user" ("uid " +:+ digits (uf_uid found)))
      | None =>
          _ ← uid_free a (spec_name spec) (spec_uid spec);
          match missing_group a spec with
          | Some missing => Err (account_conflict (spec_name spec) ("group " +:+ missing) "no group")
          | None =>
              Ok [Action_DeleteUser (spec_name spec) (spec_uid spec, spec_gid spec)
                    (spec_comment spec)]
          end
      end
  | Action_SetUserIds name ids expect =>
      _ ← expect_user a name expect;
      _ ← uid_free a name ids.1;
      match group_with_gid a ids.2 with
      | None =>
          Err (account_conflict name ("a group with gid " +:+ digits ids.2) "no such group")
      | Some _ => Ok [Action_SetUserIds name expect ids]
      end
  | Action_DeleteUser name expect comment =>
      found ← expect_user a name expect;
      if decide (uf_comment found = comment) then
        Ok [Action_AddUser (mkUserSpec name (uf_uid found) (uf_gid found) (uf_home found)
              (uf_shell found) (uf_comment found) (groups_of a name))]
      else Err (account_conflict name ("comment `" +:+ comment +:+ "`")
                  ("comment `" +:+ uf_comment found +:+ "`"))
  | Action_AddMember group user =>
      match group_of a group, user_of a user with
      | None, _ => Err (account_conflict group "a group" "no group")
      | _, None => Err (account_conflict group ("user " +:+ user) "no user")
      | Some _, Some _ => Ok [Action_RemoveMember group user]
      end
  | Action_RemoveMember group user =>
      match group_of a group with
      | None => Err (account_conflict group "a group" "no group")
      | Some _ => Ok [Action_AddMember group user]
      end
  | _ => Ok []
  end.

(** [account_precondition]. *)
Definition account_precondition a (action : Action) : result Failure Accounted :=
  if done_already a action then Ok Accounted_Done else Accounted_Go <$> account_undo a action.

End accounts.
