(* ===== verification/World.v ===== *)
(** * The modelled world

    [World] of [crates/core/src/model/mod.rs]: a system in memory, against which requests
    are predicted and tested.  A [BTreeMap] is a [gmap]; where the order of its keys
    matters the keys are sorted ([keys], [in_order]).

    A method with [&mut self] is in the monad [St]: a [?] or an early [Err] keeps the
    world as it is by then.  Inode numbers and times of change are the counter [next_ino],
    whose 64 bits are never used up. *)
From S2P Require Import Prelude.
From S2P Require Import Paths.
From S2P Require Import Effect.
From S2P Require Import Chars.
From S2P Require Import Journal.
From S2P Require Import Precondition.
From S2P Require Import Accounts.

Local Open Scope N_scope.

(** ** The state *)

Inductive Content := Content_Directory | Content_File (contents : bytes).
#[export] Instance Content_eq_dec : EqDecision Content.
Proof. solve_decision. Defined.

Record FileEntry := mkFileEntry {
  fe_content : Content; fe_mode : N; fe_owner : Owner; fe_id : FileId; fe_changed : N }.
#[export] Instance FileEntry_eq_dec : EqDecision FileEntry.
Proof. solve_decision. Defined.

Record Unit := mkUnit {
  loaded : option bytes; running : option bytes; since : option N; stamp : option N }.
#[export] Instance Unit_eq_dec : EqDecision Unit.
Proof. solve_decision. Defined.

Record Profile := mkProfile {
  pr_generations : list N; pr_active : option N; built : gmap N (list (option bytes));
  pr_dangling : list N }.
#[export] Instance Profile_eq_dec : EqDecision Profile.
Proof. solve_decision. Defined.

Record World := mkWorld {
  files : gmap path FileEntry;
  groups : gmap string GroupFacts;
  users : gmap string UserFacts;
  units : gmap string Unit;
  profiles : gmap N Profile;
  aside_profiles : gmap path (N * Profile);
  journals : list Abandoned;
  logs : gmap string (list JRecord);
  held : gset string;
  acting_for : string;
  runs_as : option Owner;
  clobbered : gmap N (list path);
  linked : gmap N (list path);
  pending_of : gmap string (list path);
  next_ino : N }.

Definition set_files (x : gmap path FileEntry) (w : World) : World :=
  mkWorld x (groups w) (users w) (units w) (profiles w) (aside_profiles w) (journals w) (logs w)
    (held w) (acting_for w) (runs_as w) (clobbered w) (linked w) (pending_of w) (next_ino w).
Definition set_groups (x : gmap string GroupFacts) (w : World) : World :=
  mkWorld (files w) x (users w) (units w) (profiles w) (aside_profiles w) (journals w) (logs w)
    (held w) (acting_for w) (runs_as w) (clobbered w) (linked w) (pending_of w) (next_ino w).
Definition set_users (x : gmap string UserFacts) (w : World) : World :=
  mkWorld (files w) (groups w) x (units w) (profiles w) (aside_profiles w) (journals w) (logs w)
    (held w) (acting_for w) (runs_as w) (clobbered w) (linked w) (pending_of w) (next_ino w).
Definition set_units (x : gmap string Unit) (w : World) : World :=
  mkWorld (files w) (groups w) (users w) x (profiles w) (aside_profiles w) (journals w) (logs w)
    (held w) (acting_for w) (runs_as w) (clobbered w) (linked w) (pending_of w) (next_ino w).
Definition set_profiles (x : gmap N Profile) (w : World) : World :=
  mkWorld (files w) (groups w) (users w) (units w) x (aside_profiles w) (journals w) (logs w)
    (held w) (acting_for w) (runs_as w) (clobbered w) (linked w) (pending_of w) (next_ino w).
Definition set_aside_profiles (x : gmap path (N * Profile)) (w : World) : World :=
  mkWorld (files w) (groups w) (users w) (units w) (profiles w) x (journals w) (logs w)
    (held w) (acting_for w) (runs_as w) (clobbered w) (linked w) (pending_of w) (next_ino w).
Definition set_pending_of (x : gmap string (list path)) (w : World) : World :=
  mkWorld (files w) (groups w) (users w) (units w) (profiles w) (aside_profiles w) (journals w) (logs w)
    (held w) (acting_for w) (runs_as w) (clobbered w) (linked w) x (next_ino w).
Definition set_next_ino (x : N) (w : World) : World :=
  mkWorld (files w) (groups w) (users w) (units w) (profiles w) (aside_profiles w) (journals w) (logs w)
    (held w) (acting_for w) (runs_as w) (clobbered w) (linked w) (pending_of w) x.

(** ** Steps on a world *)

Definition St (X : Type) : Type := World → result Failure X * World.

#[export] Instance st_ret : MRet St := λ X x w, (Ok x, w).
#[export] Instance st_bind : MBind St := λ X Y f m w,
  match m w with
  | (Ok x, w) => f x w
  | (Err e, w) => (Err e, w)
  end.

Definition gets {X} (f : World → X) : St X := λ w, (Ok (f w), w).
Definition modify (f : World → World) : St unit := λ w, (Ok tt, f w).
Definition fails {X} (failure : Failure) : St X := λ w, (Err failure, w).
(** A value of [Result] under [?]. *)
Definition attempt {X} (r : result Failure X) : St X := λ w, (r, w).

(** ** Files *)

(** The entries of a map in the order of their keys. *)
Definition in_order {V} (m : gmap string V) : list (string * V) :=
  omap (λ k, (λ v, (k, v)) <$> m !! k) (sort_strings ((map_to_list m).*1)).

Definition ROOT : Owner := (0, 0).
Definition UNIT_DIR : path := of_string SYSTEMD_UNIT_DIR.

Definition content_kind (e : FileEntry) : string :=
  match fe_content e with Content_Directory => "directory" | Content_File _ => "file" end.

(** The keys of [files] in order, and [range(at..)]. *)
Definition keys (w : World) : list path := merge_sort path_le ((map_to_list (files w)).*1).
Definition range (w : World) (at_ : path) : list path := filter (path_le at_) (keys w).

Definition fresh : St FileId := λ w,
  let ino := next_ino w in
  (Ok (mkFileId 1 ino (Some (Z.of_N ino, 0))), set_next_ino (ino + 1) w).

(** [files.insert] of an entry whose time of change is its inode's. *)
Definition insert_entry (at_ : path) (content : Content) (mode : N) (owner : Owner) (id : FileId)
    (w : World) : World :=
  set_files (<[at_ := mkFileEntry content mode owner id (ino id)]> (files w)) w.

Definition with_dir (at_ : path) (mode : N) (owner : Owner) : St unit :=
  id ← fresh; modify (insert_entry at_ Content_Directory mode owner id).

Definition with_file (at_ : path) (contents : bytes) (mode : N) (owner : Owner) : St unit :=
  id ← fresh; modify (insert_entry at_ (Content_File contents) mode owner id).

Definition contents_of (w : World) (at_ : path) : option bytes :=
  e ← files w !! at_;
  match fe_content e with Content_File contents => Some contents | Content_Directory => None end.

Definition stamp_of (w : World) (at_ : path) : option N := fe_changed <$> files w !! at_.

(** [parent_is_dir], for the ancestors from the root down. *)
Fixpoint dirs_down (w : World) (at_ : path) (above : list path) : result Failure unit :=
  match above with
  | [] => Ok tt
  | dir :: above =>
      match fe_content <$> files w !! dir with
      | Some Content_Directory => dirs_down w at_ above
      | Some (Content_File _) => Err (Failure_Io at_ NotADirectory)
      | None => Err (not_found at_)
      end
  end.
Definition above (at_ : path) : list path := reverse (drop 1 (ancestors at_)).
Definition parent_is_dir (w : World) (at_ : path) : result Failure unit :=
  dirs_down w at_ (above at_).

Definition kind_of (e : FileEntry) : Kind :=
  match fe_content e with Content_Directory => Kind_Directory | Content_File _ => Kind_File end.

Definition spot_of (w : World) (at_ : path) : Spot :=
  match parent at_ with
  | None => Spot_Blocked (conflict at_ "a path below the root" "the root itself")
  | Some _ =>
      match parent_is_dir w at_ with
      | Err failure => Spot_Blocked failure
      | Ok _ =>
          match files w !! at_ with
          | None => Spot_Missing
          | Some e => Spot_Present (mkNode (kind_of e) (fe_id e) (fe_mode e) (fe_owner e))
          end
      end
  end.

(** The owner of the highest directory above that is not root's. *)
Definition tree_owner (w : World) (at_ : path) : option Owner :=
  find (λ owner, owner.1 ≠ 0) (omap (λ dir, fe_owner <$> files w !! dir) (above at_)).

Definition running_for (w : World) (at_ : path) : Owner :=
  default (default ROOT (tree_owner w at_)) (runs_as w).

#[export] Instance world_ground : Ground World := {|
  Handle := unit;
  spot w at_ := (spot_of w at_, None);
  ground_running w at_ := running_for w at_;
|}.

Definition has_children (w : World) (at_ : path) : bool :=
  match range w at_ !! 1%nat with Some next => under next at_ | None => false end.

Definition subtree (w : World) (at_ : path) : list path :=
  take_while (λ next, under next at_) (range w at_).

(** Where [old], inside [from], goes when [from] becomes [to]. *)
Definition moved (from to old : path) : path :=
  match drop (length from) old with [] => to | rest => push to rest end.

Definition move_tree (from to : path) (w : World) : World :=
  set_files
    (foldl (λ fs old,
       match fs !! old with
       | Some e => <[moved from to old := e]> (delete old fs)
       | None => fs
       end) (files w) (subtree w from)) w.

Definition remove_files (at_ : list path) (w : World) : World :=
  set_files (foldl (λ fs p, delete p fs) (files w) at_) w.

Definition sibling_name (base purpose acting : string) (n : N) : string :=
  "." +:+ base +:+ ".mix-" +:+ purpose +:+ "-" +:+ acting +:+ "-" +:+ digits n.

Definition sibling_of (at_ : path) (purpose acting : string) (n : N) : path :=
  with_file_name at_ (sibling_name (default "" (file_name at_)) purpose acting n).

Definition sibling (at_ : path) (purpose : string) : St path :=
  id ← fresh; acting ← gets acting_for; mret (sibling_of at_ purpose acting (ino id)).

(** ** Paths kept for a commit *)

(** [pending().contains(..)] by request. *)
Definition pending_in (w : World) (request : string) : list path :=
  default [] (pending_of w !! request).

Definition pend (at_ : path) (w : World) : World :=
  set_pending_of (<[acting_for w := pending_in w (acting_for w) ++ [at_]]> (pending_of w)) w.

(** [for pending in values_mut() { pending.retain(..) }]. *)
Definition unpend (at_ : path) (w : World) : World :=
  set_pending_of (filter (λ p, p ≠ at_) <$> pending_of w) w.

(** ** Preconditions on a world *)

Definition require (action : Action) : St Verdict := λ w, ((precondition w action []).1, w).

Definition put (at_ : path) (contents : bytes) (mode : N) (owner : Owner) (expect : Expect)
    : St (list Action) :=
  _ ← require (Action_PutFile at_ contents mode (Some owner) expect);
  id ← fresh;
  match expect with
  | Expect_Absent =>
      _ ← modify (insert_entry at_ (Content_File contents) mode owner id);
      mret [Action_RemoveCreated at_ id]
  | Expect_Present _ =>
      backup ← sibling at_ "backup";
      _ ← modify (move_tree at_ backup);
      _ ← modify (pend backup);
      _ ← modify (insert_entry at_ (Content_File contents) mode owner id);
      mret [Action_Restore at_ backup (Expect_Present id)]
  end.

(** ** Units *)

Definition unit_path (unit : string) : path := join_path UNIT_DIR unit.

(** A directory of links that enable units: [<target>.wants] or [<target>.requires]. *)
Definition link_dir (dir : path) : bool :=
  bool_decide (parent dir = Some UNIT_DIR) &&
  match extension dir with Some kind => (kind =s "wants") || (kind =s "requires") | None => false end.

Definition in_link_dir (at_ : path) : bool :=
  match parent at_ with Some dir => link_dir dir | None => false end.

Definition systemd_owned (at_ : path) : bool := link_dir at_ || in_link_dir at_.

Definition unit_links (w : World) (unit : string) : list path :=
  filter (λ at_, file_name at_ = Some unit ∧ in_link_dir at_ = true) (keys w).

Definition enabled (w : World) (unit : string) : bool := negb (bool_decide (unit_links w unit = [])).

Definition install_links (unit : string) (file : bytes) : list path :=
  lines file ≫= λ line,
    match split_once "=" (trim line) with
    | Some (key, targets) =>
        if (key =s "WantedBy") || (key =s "RequiredBy") then
          let suffix := if key =s "WantedBy" then "wants" else "requires" in
          (λ target, join_path (join_path UNIT_DIR (target +:+ "." +:+ suffix)) unit)
            <$> split_whitespace targets
        else []
    | None => []
    end.

Definition with_wants_dir (link : path) : St unit :=
  match parent link with
  | None => mret tt
  | Some dir =>
      w ← gets id;
      if decide (files w !! dir = None) then with_dir dir 493 ROOT else mret tt
  end.

Definition no_unit : Unit := mkUnit None None None None.

Definition is_held (u : Unit) (enabled : bool) : bool :=
  match running u with Some _ => true | None => enabled end.

Definition forget_unless_held (enabled : bool) (u : Unit) : Unit :=
  if is_held u enabled then u else mkUnit None (running u) (since u) (stamp u).

Definition seen (u : Unit) (enabled : bool) (file : option bytes) : option bytes :=
  if is_held u enabled then loaded u else file.

Definition unit_of (w : World) (unit : string) : Unit := default no_unit (units w !! unit).

Definition set_unit (unit : string) (u : Unit) (w : World) : World :=
  set_units (<[unit := u]> (units w)) w.

Definition unit_files (w : World) : list string :=
  omap file_name (filter (λ at_, parent at_ = Some UNIT_DIR) (keys w)).

(** The body of the loop of [reload]. *)
Definition reload_unit (w : World) (name : string) : World :=
  let u := unit_of w name in
  let u := if is_held u (enabled w name)
           then mkUnit (contents_of w (unit_path name)) (running u) (since u)
                  (stamp_of w (unit_path name))
           else u in
  set_unit name u w.

Definition reload (w : World) : World :=
  foldl reload_unit w ((in_order (units w)).*1 ++ unit_files w).

Definition unit_failure (operation : UnitOperation) (unit : string) : Failure :=
  Failure_Unit (mkUnitFailure operation unit "failed" "inactive" "dead" "not-found" None).

(** The unit as it is after its file is read, if nothing holds it to what was loaded. *)
Definition loaded_unit (unit : string) (operation : UnitOperation) : St Unit :=
  u ← gets (λ w,
    let u := unit_of w unit in
    if is_held u (enabled w unit) then u
    else mkUnit (contents_of w (unit_path unit)) (running u) (since u)
           (stamp_of w (unit_path unit)));
  _ ← modify (set_unit unit u);
  match loaded u with
  | None => fails (unit_failure operation unit)
  | Some _ => mret u
  end.

(** ** What makes two worlds equal *)

(** [comparable_files]: a link of systemd's is compared without its identity. *)
Definition comparable (at_ : path) (e : FileEntry) : Content * N * Owner * option (FileId * N) :=
  (fe_content e, fe_mode e, fe_owner e,
   if systemd_owned at_ then None else Some (fe_id e, fe_changed e)).

Definition comparable_files (w : World) : gmap path (Content * N * Owner * option (FileId * N)) :=
  map_imap (λ at_ e, Some (comparable at_ e)) (files w).

(** [meaningful_units], each unit as its [PartialEq] sees it. *)
Definition meaningful_units (w : World) : gmap string (option bytes * option bytes) :=
  omap (λ u, if decide ((loaded u, running u) = (None, None)) then None
             else Some (loaded u, running u)) (units w).

(** [pending()]. *)
Definition pending_paths (w : World) : list path := concat ((in_order (pending_of w)).*2).

(** [World::eq]. *)
Definition world_eq (w w' : World) : Prop :=
  comparable_files w = comparable_files w' ∧ groups w = groups w' ∧ users w = users w' ∧
  meaningful_units w = meaningful_units w' ∧ profiles w = profiles w' ∧
  aside_profiles w = aside_profiles w' ∧ journals w = journals w' ∧ logs w = logs w' ∧
  clobbered w = clobbered w' ∧ linked w = linked w' ∧ pending_paths w = pending_paths w'.

(** [World::default]. *)
Definition empty_world : World :=
  mkWorld ∅ ∅ ∅ ∅ ∅ ∅ [] ∅ ∅ "model" None ∅ ∅ ∅ 1.

Definition default_world : World :=
  (mapM (λ dir, with_dir (of_string dir) 493 ROOT)
     ["/"; "/etc"; "/etc/systemd"; SYSTEMD_UNIT_DIR; "/home"; "/var"; "/var/lib"; "/var/empty"]
     empty_world).2.

(** ** Its accounts *)

(** [iter().find(..).map(..)]: the first key whose value passes. *)
Definition first_key {V} (P : V → Prop) `{∀ v, Decision (P v)} (m : gmap string V) : option string :=
  fst <$> find (λ e, P e.2) (in_order m).

#[export] Instance world_accounts : Accounts World := {|
  group_of w name := groups w !! name;
  user_of w name := users w !! name;
  group_with_gid w gid := first_key (λ g, group_gid g = gid) (groups w);
  user_with_uid w uid := first_key (λ u, uf_uid u = uid) (users w);
  primary_of w gid := first_key (λ u, uf_gid u = gid) (users w);
  groups_of w user := (filter (λ e, user ∈ members e.2) (in_order (groups w))).*1;
|}.

Definition with_member (user : string) (g : GroupFacts) : GroupFacts :=
  mkGroupFacts (group_gid g) (sort_strings (members g ++ [user])).

Definition without_member (user : string) (g : GroupFacts) : GroupFacts :=
  mkGroupFacts (group_gid g) (filter (λ member, member ≠ user) (members g)).

(** The arms of [World::apply] for users and groups. *)
Definition change_accounts (w : World) (action : Action) : World :=
  match action with
  | Action_AddGroup name gid => set_groups (<[name := mkGroupFacts gid []]> (groups w)) w
  | Action_SetGroupGid name gid expect =>
      let w := set_groups (alter (λ g, mkGroupFacts gid (members g)) name (groups w)) w in
      set_users
        ((λ u, if decide (uf_gid u = expect)
               then mkUserFacts (uf_uid u) gid (uf_home u) (uf_shell u) (uf_comment u)
               else u) <$> users w) w
  | Action_DeleteGroup name _ => set_groups (delete name (groups w)) w
  | Action_AddUser spec =>
      let w := set_users (<[spec_name spec := mkUserFacts (spec_uid spec) (spec_gid spec)
                 (spec_home spec) (spec_shell spec) (spec_comment spec)]> (users w)) w in
      set_groups (foldl (λ gs group, alter (with_member (spec_name spec)) group gs) (groups w)
                    (spec_groups spec)) w
  | Action_SetUserIds name ids _ =>
      set_users (alter (λ u, mkUserFacts ids.1 ids.2 (uf_home u) (uf_shell u) (uf_comment u))
                   name (users w)) w
  | Action_DeleteUser name _ _ =>
      set_groups (without_member name <$> groups w) (set_users (delete name (users w)) w)
  | Action_AddMember group user => set_groups (alter (with_member user) group (groups w)) w
  | Action_RemoveMember group user => set_groups (alter (without_member user) group (groups w)) w
  | _ => w
  end.
