(* ===== verification/Repository.v ===== *)
(** * The modelled repository

    [crates/core/src/model/repository.rs]: the git repository of a user's packages as the
    modelled world keeps it, a directory with [HEAD], [config], [index], [objects] and
    [refs/heads/main], whose objects are named by their digest. *)
From S2P Require Import Prelude.
From S2P Require Import Paths.
From S2P Require Import Effect.
From S2P Require Import Chars.
From S2P Require Import Precondition.
From S2P Require Import World.

Local Open Scope N_scope.

Definition newline : string := String "010" "".
Definition HEAD_CONTENTS : bytes := "ref: refs/heads/main" +:+ newline.
Definition OBJECTS : string := "objects".
Definition REPOSITORY_CONFIG_CONTENTS : string :=
  "[core]" +:+ newline +:+ String "009" "repositoryformatversion = 0" +:+ newline +:+
  String "009" "filemode = true" +:+ newline +:+ String "009" "bare = false" +:+ newline.

Definition Snapshot : Type := gmap string bytes.

(** ** Digests: FNV-1a on 64 bits, in sixteen hexadecimal digits *)

Definition fnv (bs : bytes) : N :=
  foldl (λ hash a, (N.lxor hash (byte a) * 1099511628211) mod 2 ^ 64) 14695981039346656037
    (String.list_ascii_of_string bs).

Definition hex_digit (n : N) : ascii :=
  Ascii.ascii_of_N (if decide (n < 10) then 48 + n else 87 + n).

Fixpoint hex_fuel (n : nat) (x : N) (acc : string) : string :=
  match n with
  | O => acc
  | S n => hex_fuel n (x / 16) (String (hex_digit (x mod 16)) acc)
  end.

Definition digest (bs : bytes) : string := hex_fuel 16 (fnv bs) "".

Example digest_a : digest "a" = "af63dc4c8601ec8c".
Proof. vm_compute. reflexivity. Qed.

Definition listing (staged : Snapshot) : string :=
  join "" ((λ e, e.1 +:+ " " +:+ digest e.2 +:+ newline) <$> in_order staged).

(** ** Reading *)

Definition allowed (e : FileEntry) (who bit : N) : bool :=
  let bits := if decide ((fe_owner e).1 = who) then N.shiftr (fe_mode e) 6 else fe_mode e in
  bool_decide (who = 0) || negb (bool_decide (N.land bits bit = 0)).

Definition searchable (w : World) (at_ : path) (who : N) : bool :=
  forallb (λ dir, allowed dir who 1) (omap (λ dir, files w !! dir) (drop 1 (ancestors at_))).

Definition readable (w : World) (at_ : path) (who : N) : option bytes :=
  e ← files w !! at_;
  match fe_content e with
  | Content_Directory => None
  | Content_File bs => if searchable w at_ who && allowed e who 4 then Some bs else None
  end.

Definition is_dir (w : World) (at_ : path) : bool :=
  match fe_content <$> files w !! at_ with Some Content_Directory => true | _ => false end.

Definition is_file (w : World) (at_ : path) : bool :=
  match fe_content <$> files w !! at_ with Some (Content_File _) => true | _ => false end.

Definition intact_object (w : World) (repository : path) (object : string) (who : N) : bool :=
  match readable w (join_path (join_path repository OBJECTS) object) who with
  | Some bs => digest bs =s object
  | None => false
  end.

Definition head_commit (w : World) (repository : path) (who : N) : option string :=
  head ← readable w (join_path repository REPOSITORY_HEAD) who;
  if decide (head = HEAD_CONTENTS) then
    named ← readable w (join_path repository REPOSITORY_BRANCH) who;
    commit ← trim <$> from_utf8 named;
    if intact_object w repository commit who then Some commit else None
  else None.

Definition listed (w : World) (repository : path) (commit : string) (who : N)
    : option (list (string * string)) :=
  bs ← readable w (join_path (join_path repository OBJECTS) commit) who;
  text ← from_utf8 bs;
  mapM (λ line,
      '(name, object) ← split_once " " line;
      if decide (name ∈ MANAGED_FILES) then Some (name, object) else None)
    (filter (λ line, (starts_with "parent " line || starts_with "lost " line ||
                      starts_with "time " line) = false) (lines text)).

Definition unborn (w : World) (repository : path) (who : N) : bool :=
  let heads := join_path repository "refs/heads" in
  is_dir w (join_path repository OBJECTS)
  && is_dir w (join_path repository "refs")
  && (is_dir w heads || bool_decide (files w !! heads = None))
  && bool_decide (files w !! join_path repository REPOSITORY_BRANCH = None)
  && searchable w (join_path repository REPOSITORY_BRANCH) who
  && bool_decide (readable w (join_path repository REPOSITORY_HEAD) who = Some HEAD_CONTENTS).

Definition snapshot_of (w : World) (repository : path) (commit : string) (who : N)
    : option Snapshot :=
  found ← listed w repository commit who;
  entries ← mapM (λ e : string * string,
      bs ← readable w (join_path (join_path repository OBJECTS) e.2) who;
      if decide (digest bs = e.2) then Some (e.1, bs) else None) found;
  Some (foldl (λ m e, <[e.1 := e.2]> m) ∅ entries).

Definition snapshot_at (w : World) (repository : path) (who : N) : option Snapshot :=
  if unborn w repository who then Some ∅
  else commit ← head_commit w repository who; snapshot_of w repository commit who.

Definition verifies_at (w : World) (repository : path) (who : N) : bool :=
  is_dir w repository && bool_decide (snapshot_at w repository who ≠ None).

Definition verifies (w : World) (user : InvokingUser) : bool :=
  verifies_at w (repository_dir (home user)) (uid user).

Definition committed (w : World) (user : InvokingUser) : option Snapshot :=
  if verifies w user then snapshot_at w (repository_dir (home user)) (uid user) else None.

Definition staged (w : World) (user : InvokingUser) : Snapshot :=
  foldl (λ m name,
      match readable w (join_path (mix_state_dir (home user)) name) (uid user) with
      | Some bs => <[name := bs]> m
      | None => m
      end) ∅ MANAGED_FILES.

Definition reusable_at (w : World) (repository : path) (user : InvokingUser) : bool :=
  let found := snapshot_at w repository (uid user) in
  forallb (λ e : string * bytes,
      let object := digest e.2 in
      bool_decide (files w !! join_path (join_path repository OBJECTS) object = None)
      || intact_object w repository object (uid user))
    (filter (λ e, (found ≫= lookup e.1) ≠ Some e.2) (in_order (staged w user))).

Definition reusable (w : World) (user : InvokingUser) : bool :=
  reusable_at w (repository_dir (home user)) user.

Definition indexed (w : World) (user : InvokingUser) : bool :=
  let index := join_path (repository_dir (home user)) REPOSITORY_INDEX in
  let wanted := listing (staged w user) in
  if decide (files w !! index = None) then bool_decide (wanted = "")
  else bool_decide (readable w index (uid user) = Some wanted).

Definition usable (w : World) (user : InvokingUser) : bool :=
  let repository := repository_dir (home user) in
  let index := join_path repository REPOSITORY_INDEX in
  bool_decide (readable w (join_path repository REPOSITORY_CONFIG) (uid user)
               = Some REPOSITORY_CONFIG_CONTENTS)
  && (bool_decide (files w !! index = None) || is_file w index).

Definition repository_at (w : World) (repository : path) : bool * option Snapshot :=
  let who := default 0 ((λ e, (fe_owner e).1) <$> files w !! repository) in
  let verifies := verifies_at w repository who in
  (verifies, if verifies then snapshot_at w repository who else None).

(** ** Writing *)

(** [{:?}] of a [FileId], and [describe]. *)
Definition born_debug (born : option (Z * N)) : string :=
  match born with
  | Some (seconds, nanos) => "Some((" +:+ pretty seconds +:+ ", " +:+ digits nanos +:+ "))"
  | None => "None"
  end.
Definition id_debug (id : FileId) : string :=
  "FileId { dev: " +:+ digits (dev id) +:+ ", ino: " +:+ digits (ino id) +:+ ", born: " +:+
  born_debug (born id) +:+ " }".
Definition describe_entry (e : option FileEntry) : string :=
  match e with
  | None => "nothing"
  | Some e =>
      id_debug (fe_id e) +:+ " " +:+ digits (dev (fe_id e)) +:+ ":" +:+ digits (ino (fe_id e))
  end.

(** A new entry, where the parent is a directory. *)
Definition insert_new (at_ : path) (content : Content) (mode : N) (owner : Owner) : St unit :=
  w ← gets id; _ ← attempt (parent_is_dir w at_);
  id ← fresh; modify (insert_entry at_ content mode owner id).

Definition write_object (at_ : path) (bs : bytes) (owner : Owner) : St unit :=
  found ← gets (λ w, files w !! at_);
  match found with
  | Some e =>
      if decide (fe_content e = Content_File bs) then
        modify (λ w, set_files (<[at_ := mkFileEntry (fe_content e) 292 owner (fe_id e)
                                           (fe_changed e)]> (files w)) w)
      else mret tt
  | None => insert_new at_ (Content_File bs) 292 owner
  end.

Definition write_ref (at_ : path) (bs : bytes) (owner : Owner) : St unit :=
  w ← gets id;
  if is_dir w at_ then fails (conflict at_ "a file" "a directory")
  else insert_new at_ (Content_File bs) 420 owner.

Definition make_dir (at_ : path) (owner : Owner) : St unit :=
  w ← gets id;
  if is_dir w at_ then mret tt
  else match files w !! at_ with
       | Some found => fails (conflict at_ "a directory" (describe_entry (Some found)))
       | None => insert_new at_ Content_Directory 493 owner
       end.

Fixpoint each {X} (f : X → St unit) (l : list X) : St unit :=
  match l with [] => mret tt | x :: l => _ ← f x; each f l end.

Definition init_repository (user : InvokingUser) : St unit :=
  let repository := repository_dir (home user) in
  let owner := (uid user, gid user) in
  _ ← make_dir repository owner;
  _ ← write_ref (join_path repository REPOSITORY_HEAD) HEAD_CONTENTS owner;
  _ ← write_ref (join_path repository REPOSITORY_CONFIG) REPOSITORY_CONFIG_CONTENTS owner;
  each (λ dir, make_dir (join_path repository dir) owner) [OBJECTS; "refs"; "refs/heads"].

(** What [sync_repository] requires before it writes. *)
Definition syncable (w : World) (user : InvokingUser) : result Failure unit :=
  let repository := repository_dir (home user) in
  let index := join_path repository REPOSITORY_INDEX in
  let lock := join_path repository INDEX_LOCK in
  if negb (is_dir w repository) ||
     negb (bool_decide (readable w (join_path repository REPOSITORY_HEAD) (uid user)
                        = Some HEAD_CONTENTS))
  then Err (conflict repository "a git repository" "something else")
  else if negb (bool_decide (files w !! index = None)) && negb (is_file w index)
  then Err (conflict index "an index" (describe_entry (files w !! index)))
  else if negb (bool_decide (files w !! lock = None))
  then Err (conflict lock "nothing" "a lock another git left")
  else Ok tt.

(** What comes before the listing in a new commit. *)
Definition commit_head (head named : option string) : string :=
  match head, named with
  | Some parent, _ => "parent " +:+ parent +:+ newline
  | None, Some lost => "lost " +:+ lost +:+ newline
  | None, None => ""
  end.

(** Whether the commit at [head] already lists what is staged, or nothing is to be said. *)
Definition recorded_already (w : World) (repository : path) (who : N) (head : option string)
    (staged : Snapshot) : bool :=
  match head with
  | Some head =>
      bool_decide (listed w repository head who = Some ((λ e, (e.1, digest e.2)) <$> in_order staged))
  | None => bool_decide (staged = ∅)
  end.

(** The part of [sync_repository] that makes the commit. *)
Definition record_commit (user : InvokingUser) (staged : Snapshot) (head : option string)
    : St bool :=
  let repository := repository_dir (home user) in
  let objects := join_path repository OBJECTS in
  let owner := (uid user, gid user) in
  named ← gets (λ w, named ← readable w (join_path repository REPOSITORY_BRANCH) (uid user);
                     trim <$> from_utf8 named);
  time ← fresh;
  let contents :=
    commit_head head named +:+ "time " +:+ digits (ino time) +:+ newline +:+ listing staged in
  let commit := digest contents in
  _ ← write_object (join_path objects commit) contents owner;
  w ← gets id;
  if negb (intact_object w repository commit (uid user)) ||
     negb (bool_decide (snapshot_of w repository commit (uid user) = Some staged))
  then fails (conflict objects "intact objects" "a damaged object")
  else
    _ ← make_dir (join_path repository "refs/heads") owner;
    _ ← write_ref (join_path repository REPOSITORY_BRANCH) (commit +:+ newline) owner;
    mret true.

Definition sync_repository (user : InvokingUser) : St bool :=
  let repository := repository_dir (home user) in
  let owner := (uid user, gid user) in
  w ← gets id;
  if decide (files w !! repository = None) then mret false
  else
    _ ← attempt (syncable w user);
    let staged := staged w user in
    _ ← each (λ e : string * bytes,
          write_object (join_path (join_path repository OBJECTS) (digest e.2)) e.2 owner)
        (in_order staged);
    _ ← write_ref (join_path repository REPOSITORY_INDEX) (listing staged) owner;
    w ← gets id;
    let head := head_commit w repository (uid user) in
    if recorded_already w repository (uid user) head staged then mret false
    else record_commit user staged head.

(** [own_config]; [put_file] is [apply] on a [PutFile]. *)
Definition own_config (put_file : path → bytes → N → option Owner → Expect → St (list Action))
    (user : InvokingUser) : St (list Action) :=
  let repository := repository_dir (home user) in
  let config := join_path repository REPOSITORY_CONFIG in
  w ← gets id;
  if is_dir w repository then
    let found := files w !! config in
    if decide (fe_content <$> found = Some (Content_File REPOSITORY_CONFIG_CONTENTS)) then mret []
    else
      let expect := match found with
                    | Some e => Expect_Present (fe_id e) | None => Expect_Absent end in
      put_file config REPOSITORY_CONFIG_CONTENTS 420 (Some (uid user, gid user)) expect
  else mret [].

(** A step whose failure is passed over: [let _ = ..]. *)
Definition passing {X} (m : St X) : St (option X) := λ w,
  let '(r, w) := m w in (Ok (ok r), w).

Definition record_state (put_file : path → bytes → N → option Owner → Expect → St (list Action))
    (user : InvokingUser) : St (list Action) :=
  let repository := repository_dir (home user) in
  before ← gets id;
  let existed := negb (bool_decide (files before !! repository = None)) in
  recorded ← (if existed then passing (own_config put_file user)
              else passing (λ w, prod_map (fmap (λ _, [])) id (init_repository user w)));
  _ ← (match recorded with
       | Some _ => modify (λ w, (sync_repository user w).2)
       | None => mret tt
       end);
  after ← gets id;
  mret (default [] recorded ++
        match files after !! repository with
        | Some e => if existed then [] else [Action_RemoveCreatedTree repository (fe_id e)]
        | None => []
        end).

Definition create_repository (user : InvokingUser) : St (list Action) :=
  let repository := repository_dir (home user) in
  w ← gets id;
  match files w !! repository with
  | Some found => fails (conflict repository "nothing" (content_kind found))
  | None => λ w,
      match init_repository user w with
      | (Err failure, w) => (Err failure, remove_files (subtree w repository) w)
      | (Ok _, w) =>
          (* the directory is there: [init_repository] made it *)
          (Ok (match files w !! repository with
               | Some e => [Action_RemoveCreatedTree repository (fe_id e)] | None => [] end), w)
      end
  end.

(** The directories named [.git]. *)
Definition repositories (w : World) : list path :=
  filter (λ at_, file_name at_ = Some GIT_DIR ∧ is_dir w at_ = true) (keys w).
