(* ===== verification/Apply.v ===== *)
(** * What an action does to the modelled world

    [World::apply] and [World::observe] of [crates/core/src/model/mod.rs], an operation for
    each arm of the first.  The undo an action returns is the list of its [Performed]. *)
From S2P Require Import Prelude.
From S2P Require Import Paths.
From S2P Require Import Effect.
From S2P Require Import Chars.
From S2P Require Import Journal.
From S2P Require Import Precondition.
From S2P Require Import Accounts.
From S2P Require Import World.
From S2P Require Import Repository.

Local Open Scope N_scope.

(** ** Files *)

Definition create_dir (at_ : path) (mode : N) (owner : option Owner) : St (list Action) :=
  id ← fresh;
  _ ← modify (insert_entry at_ Content_Directory mode (default ROOT owner) id);
  mret [Action_RemoveCreated at_ id].

(** The loop of [CreateDirs]: the first directory's identity. *)
Fixpoint make_dirs (at_ : path) (mode : N) (owner : Owner) (dirs : list path) (top_id : option FileId)
    : St (option FileId) :=
  match dirs with
  | [] => mret top_id
  | dir :: dirs =>
      id ← fresh;
      _ ← modify (insert_entry dir Content_Directory (if decide (dir = at_) then mode else 493)
                    owner id);
      make_dirs at_ mode owner dirs (Some (default id top_id))
  end.

(** An identity no file has, where the code would panic. *)
Definition no_id : FileId := mkFileId 0 0 None.

Definition create_dirs (at_ : path) (mode : N) (owner : option Owner) (verdict : Verdict)
    : St (list Action) :=
  match verdict with
  | Verdict_Below top =>
      let missing := reverse (take_while (λ dir, under dir top) (ancestors at_)) in
      top_id ← make_dirs at_ mode (default ROOT owner) missing None;
      mret [Action_RemoveCreatedTree top (default no_id top_id)]
  | _ => fails (conflict at_ "a top to create" "none")
  end.

Definition with_mode (mode : N) (e : FileEntry) : FileEntry :=
  mkFileEntry (fe_content e) mode (fe_owner e) (fe_id e) (fe_changed e).
Definition with_owner (owner : Owner) (e : FileEntry) : FileEntry :=
  mkFileEntry (fe_content e) (fe_mode e) owner (fe_id e) (fe_changed e).

(** [get_mut(at).ok_or_else(not_found)], and the assignment. *)
Definition change_entry (f : FileEntry → FileEntry) (at_ : path) : St unit := λ w,
  match files w !! at_ with
  | Some e => (Ok tt, set_files (<[at_ := f e]> (files w)) w)
  | None => (Err (not_found at_), w)
  end.

Definition set_mode (at_ : path) (mode expect : N) : St (list Action) :=
  _ ← change_entry (with_mode mode) at_; mret [Action_SetMode at_ expect mode].

Definition set_owner (at_ : path) (owner expect : Owner) : St (list Action) :=
  _ ← change_entry (with_owner owner) at_; mret [Action_SetOwner at_ expect owner].

(** A user's profile goes aside with the directory of their profiles. *)
Definition aside_profile (at_ aside : path) (w : World) : World :=
  if path_ends_with at_ (of_string NIX_PROFILES_DIR) then
    match files w !! at_ with
    | Some e =>
        let uid := (fe_owner e).1 in
        match profiles w !! uid with
        | Some profile =>
            set_aside_profiles (<[aside := (uid, profile)]> (aside_profiles w))
              (set_profiles (delete uid (profiles w)) w)
        | None => w
        end
    | None => w
    end
  else w.

Definition set_aside (at_ : path) : St (list Action) :=
  aside ← sibling at_ "aside";
  _ ← modify (aside_profile at_ aside);
  _ ← modify (move_tree at_ aside);
  _ ← modify (pend aside);
  mret [Action_Restore at_ aside Expect_Absent].

Definition discard (at_ : path) : St (list Action) :=
  _ ← modify (pend at_); mret [Action_Keep at_].

Definition keep_path (at_ : path) : St (list Action) :=
  _ ← modify (unpend at_); mret [].

(** An entry as it is copied: [mode & !0o6000] below the top. *)
Definition copied (mode : N) (owner : Owner) (top : bool) (e : FileEntry) : FileEntry :=
  mkFileEntry (fe_content e) (if top then mode else N.ldiff (fe_mode e) 3072) owner no_id
    (fe_changed e).

(** The loop that inserts a copy with fresh identities: the identity of the one at [at_]. *)
Fixpoint insert_copy (at_ : path) (copy : list (path * FileEntry)) (top : option FileId)
    : St (option FileId) :=
  match copy with
  | [] => mret top
  | (p, e) :: copy =>
      id ← fresh;
      _ ← modify (insert_entry p (fe_content e) (fe_mode e) (fe_owner e) id);
      insert_copy at_ copy (if decide (p = at_) then Some id else top)
  end.

(** The tree at [from] as a copy at [to]. *)
Definition copy_of (w : World) (from to : path) (owner : Owner) (mode : N)
    : list (path * FileEntry) :=
  omap (λ old, (λ e, (moved from to old, copied mode owner (bool_decide (old = from)) e))
                 <$> files w !! old) (subtree w from).

Definition reclaim_tree (at_ : path) (owner : Owner) (mode : N) : St (list Action) :=
  aside ← sibling at_ "aside";
  copy ← gets (λ w, copy_of w at_ at_ owner mode);
  _ ← modify (move_tree at_ aside);
  top ← insert_copy at_ copy None;
  _ ← modify (pend aside);
  mret [Action_RemoveCreatedTree at_ (default no_id top); Action_Restore at_ aside Expect_Absent].

Definition copy_tree (from to : path) (owner : Owner) (mode : N) : St (list Action) :=
  if decide (to ≠ from ∧ under to from = true) then
    fails (conflict to "a place outside the tree being copied" "a place inside it")
  else
    copy ← gets (λ w, copy_of w from to owner mode);
    top ← insert_copy to copy None;
    mret [Action_RemoveCreatedTree to (default no_id top)].

Definition remove_created (at_ : path) : St (list Action) :=
  w ← gets id;
  if has_children w at_ then fails (conflict at_ "an empty directory" "a directory with contents")
  else _ ← modify (λ w, set_files (delete at_ (files w)) w); mret [].

Definition remove_tree (at_ : path) (w : World) : World := remove_files (subtree w at_) w.

Definition remove_created_tree (at_ : path) : St (list Action) :=
  _ ← modify (remove_tree at_); mret [].

(** The profile that went aside comes back. *)
Definition restore_profile (from : path) (w : World) : World :=
  match aside_profiles w !! from with
  | Some (uid, profile) =>
      set_profiles (<[uid := profile]> (profiles w))
        (set_aside_profiles (delete from (aside_profiles w)) w)
  | None => w
  end.

Definition restore (at_ from : path) : St (list Action) :=
  _ ← modify (remove_tree at_);
  _ ← modify (move_tree from at_);
  _ ← modify (restore_profile from);
  _ ← modify (unpend from);
  mret [].

(** ** Units *)

Definition install_unit (unit : string) (contents : bytes) (expect : Expect) : St (list Action) :=
  undo ← put (unit_path unit) contents 420 ROOT expect; mret (undo ++ [Action_DaemonReload]).

Definition enable_unit (unit : string) : St (list Action) :=
  w ← gets id;
  if enabled w unit then fails (account_conflict unit "disabled" "enabled")
  else
    u ← loaded_unit unit UnitOperation_Enable;
    _ ← each (λ link, _ ← with_wants_dir link; with_file link unit 511 ROOT)
          (default [] (install_links unit <$> loaded u));
    _ ← modify reload;
    mret [Action_DisableUnit unit].

(** The body of the loop of [DisableUnit]: a link goes, and its directory if it was the last. *)
Definition unlink (w : World) (link : path) : World :=
  let w := set_files (delete link (files w)) w in
  match parent link with
  | Some dir =>
      if decide (length (subtree w dir) = 1%nat) then set_files (delete dir (files w)) w else w
  | None => w
  end.

Definition disable_unit (unit : string) : St (list Action) :=
  w ← gets id;
  if enabled w unit then
    _ ← modify (λ w, foldl unlink w (unit_links w unit));
    _ ← modify (λ w, set_unit unit (forget_unless_held false (unit_of w unit)) w);
    _ ← modify reload;
    mret [Action_EnableUnit unit]
  else fails (account_conflict unit "enabled" "disabled").

Definition start_unit (unit : string) : St (list Action) :=
  u ← loaded_unit unit UnitOperation_Start;
  match running u with
  | Some _ => fails (account_conflict unit "inactive" "active")
  | None =>
      id ← fresh;
      _ ← modify (set_unit unit (mkUnit (loaded u) (loaded u) (Some (ino id)) (stamp u)));
      mret [Action_StopUnit unit]
  end.

Definition stop_unit (unit : string) : St (list Action) :=
  w ← gets id;
  let u := unit_of w unit in
  _ ← modify (set_unit unit u);
  match running u with
  | None => fails (account_conflict unit "active" "inactive")
  | Some _ =>
      _ ← modify (set_unit unit (forget_unless_held (enabled w unit)
                                   (mkUnit (loaded u) None None (stamp u))));
      mret [Action_StartUnit unit]
  end.

(** The unit as it is once it runs what was loaded, if it ran. *)
Definition rerun (since : N) (u : Unit) : Unit :=
  match running u with
  | Some _ => mkUnit (loaded u) (loaded u) (Some since) (stamp u)
  | None => u
  end.

Definition restart_unit (unit : string) : St (list Action) :=
  id ← fresh;
  u ← gets (λ w, unit_of w unit);
  _ ← modify (set_unit unit (rerun (ino id) u));
  mret (match running u with Some _ => [Action_RestartUnit unit] | None => [] end).

Definition drain_service (unit : string) : St (list Action) :=
  id ← fresh;
  _ ← modify (λ w, set_unit unit (rerun (ino id) (unit_of w unit)) w);
  mret [].

(** ** The runtime *)

Definition RUNTIME_FILES : list (path * bytes) :=
  [(of_string DEFAULT_PROFILE_NIX_ENV, "nix-env");
   (of_string NIX_DAEMON_SERVICE_SRC,
    "[Service]" +:+ newline +:+ "ExecStart=nix-daemon" +:+ newline +:+ newline +:+
    "[Install]" +:+ newline +:+ "WantedBy=multi-user.target" +:+ newline);
   (of_string NIX_DAEMON_SOCKET_SRC,
    "[Socket]" +:+ newline +:+ "ListenStream=/nix/var/nix/daemon-socket/socket" +:+ newline +:+
    newline +:+ "[Install]" +:+ newline +:+ "WantedBy=sockets.target" +:+ newline)].

(** One of its files, with the directories it lacks: what was created, with the topmost of
    them. *)
Definition install_file (created : list path) (file : path * bytes) : St (list path) :=
  w ← gets id;
  let missing := reverse (take_while (λ dir, files w !! dir = None) (drop 1 (ancestors file.1))) in
  _ ← each (λ dir, insert_new dir Content_Directory 493 ROOT) missing;
  _ ← put file.1 file.2 292 ROOT Expect_Absent;
  mret (created ++ match missing with top :: _ => [top] | [] => [] end).

Fixpoint install_files (created : list path) (l : list (path * bytes)) : St (list path) :=
  match l with
  | [] => mret created
  | file :: l => created ← install_file created file; install_files created l
  end.

Definition install_runtime : St (list Action) :=
  let store := of_string NIX_STORE in
  w ← gets id;
  created ← (if decide (files w !! store = None)
             then _ ← insert_new store Content_Directory 1021 ROOT; mret [store]
             else mret []);
  created ← install_files created RUNTIME_FILES;
  mret [Action_RemoveRuntime created []].

Definition remove_runtime (created : list path) : St (list Action) :=
  _ ← modify (λ w, foldl (λ w at_, remove_tree at_ w) w created); mret [].

(** ** Profiles *)

Definition no_profile : Profile := mkProfile [] None ∅ [].

Definition profile_of (w : World) (uid : N) : Profile := default no_profile (profiles w !! uid).

Definition set_profile (uid : N) (p : Profile) (w : World) : World :=
  set_profiles (<[uid := p]> (profiles w)) w.

(** [Iterator::max]. *)
Definition maximum (l : list N) : option N :=
  match l with [] => None | x :: l => Some (foldl N.max x l) end.

Definition generation_config (w : World) (user : InvokingUser) : list (option bytes) :=
  (λ input : string * string, contents_of w (join_path (mix_state_dir (home user)) input.1))
    <$> GENERATION_INPUTS.

(** The latest generation built from the same inputs that is not dangling. *)
Definition built_from (p : Profile) (config : list (option bytes)) : option N :=
  maximum (filter (λ g, built p !! g = Some config) (filter (λ g, g ∉ pr_dangling p) (pr_generations p))).

Definition activate_profile (user : InvokingUser) : St (list Action) :=
  w ← gets id;
  if decide (contents_of w (of_string DEFAULT_PROFILE_NIX_ENV) = None) then
    fails (Failure_SpawnFailed DEFAULT_PROFILE_NIX_ENV NotFound)
  else
    let config := generation_config w user in
    let p := profile_of w (uid user) in
    match built_from p config with
    | Some g =>
        _ ← modify (set_profile (uid user)
              (mkProfile (pr_generations p) (Some g) (built p) (pr_dangling p)));
        mret (if decide (pr_active p = Some g) then []
              else [Action_SwitchGeneration user (pr_active p) (Some g);
                    Action_ApplyGeneration user])
    | None =>
        let g := match maximum (pr_generations p) with Some last => last + 1 | None => 1 end in
        _ ← modify (set_profile (uid user)
              (mkProfile (pr_generations p ++ [g]) (Some g) (<[g := config]> (built p))
                 (pr_dangling p)));
        mret [Action_SwitchGeneration user (pr_active p) (Some g);
              Action_DeleteGeneration user g; Action_ApplyGeneration user]
    end.

Definition delete_generation (user : InvokingUser) (g : N) : St (list Action) :=
  w ← gets id;
  let p := profile_of w (uid user) in
  _ ← modify (set_profile (uid user) p);
  if decide (pr_active p = Some g) then
    fails (account_conflict (user_name user) ("generation " +:+ digits g +:+ " inactive")
             "the active generation")
  else if decide (g ∉ pr_generations p) then
    fails (account_conflict (user_name user) ("generation " +:+ digits g) "no such generation")
  else
    let p := mkProfile (filter (λ kept, kept ≠ g) (pr_generations p)) (pr_active p)
               (delete g (built p)) (filter (λ kept, kept ≠ g) (pr_dangling p)) in
    _ ← modify (λ w, if decide (pr_generations p = [] ∧ pr_active p = None)
                     then set_profiles (delete (uid user) (profiles w)) w
                     else set_profile (uid user) p w);
    mret [].

(** [{:?}] of an [Option<u64>]. *)
Definition option_debug (o : option N) : string :=
  match o with Some n => "Some(" +:+ digits n +:+ ")" | None => "None" end.

Definition switch_generation (user : InvokingUser) (generation expect : option N)
    : St (list Action) :=
  w ← gets id;
  let p := profile_of w (uid user) in
  _ ← modify (set_profile (uid user) p);
  if decide (pr_active p = expect) then
    _ ← modify (set_profile (uid user)
          (mkProfile (pr_generations p) generation (built p) (pr_dangling p)));
    mret [Action_SwitchGeneration user expect generation]
  else fails (account_conflict (user_name user) ("generation " +:+ option_debug expect)
                ("generation " +:+ option_debug (pr_active p))).

(** ** Committing *)

(** A path that was kept for the commit goes, with the profile that is aside there. *)
Definition drop_pending (w : World) (at_ : path) : World :=
  remove_tree at_ (set_aside_profiles (delete at_ (aside_profiles w)) w).

Definition commit_world : St (list Action) :=
  _ ← modify (λ w,
    let committed := pending_in w (acting_for w) in
    foldl drop_pending (set_pending_of (delete (acting_for w) (pending_of w)) w) committed);
  mret [].

(** ** Applying an action *)

(** [already]. *)
Definition already (w : World) (action : Action) : bool :=
  match action with
  | Action_EnableUnit unit => enabled w unit
  | Action_DisableUnit unit => negb (enabled w unit)
  | Action_StartUnit unit => bool_decide ((units w !! unit ≫= running) ≠ None)
  | Action_StopUnit unit => bool_decide ((units w !! unit ≫= running) = None)
  | _ => false
  end.

(** What precedes the arm: nothing is left to do, or the verdict on the files and the undo
    for the accounts. *)
Definition settled_or (action : Action) (arm : Verdict → list Action → St (list Action))
    : St (list Action) :=
  w ← gets id;
  if already w action then mret []
  else
    verdict ← (match action with
               | Action_PutFile _ _ _ _ _ => mret Verdict_Go
               | _ => require action
               end);
    match verdict with
    | Verdict_Done => mret []
    | _ =>
        accounted ← attempt (account_precondition w action);
        match accounted with
        | Accounted_Done => mret []
        | Accounted_Go undo => arm verdict undo
        end
    end.

(** The arm of [PutFile]. *)
Definition put_file (at_ : path) (contents : bytes) (mode : N) (owner : option Owner)
    (expect : Expect) : St (list Action) :=
  settled_or (Action_PutFile at_ contents mode owner expect)
    (λ _ _, put at_ contents mode (default ROOT owner) expect).

Definition arm (action : Action) (verdict : Verdict) (undo : list Action) : St (list Action) :=
  match action with
  | Action_CreateDir at_ mode owner => create_dir at_ mode owner
  | Action_CreateDirs at_ mode owner => create_dirs at_ mode owner verdict
  | Action_PutFile at_ contents mode owner expect => put at_ contents mode (default ROOT owner) expect
  | Action_SetMode at_ mode expect => set_mode at_ mode expect
  | Action_SetOwner at_ owner expect => set_owner at_ owner expect
  | Action_SetAside at_ _ => set_aside at_
  | Action_Discard at_ _ => discard at_
  | Action_Keep at_ => keep_path at_
  | Action_ReclaimTree at_ _ owner mode => reclaim_tree at_ owner mode
  | Action_CopyTree from to owner mode => copy_tree from to owner mode
  | Action_RemoveCreated at_ _ => remove_created at_
  | Action_RemoveCreatedTree at_ _ => remove_created_tree at_
  | Action_Restore at_ from _ => restore at_ from
  | Action_AddGroup _ _ | Action_SetGroupGid _ _ _ | Action_DeleteGroup _ _ | Action_AddUser _
  | Action_SetUserIds _ _ _ | Action_DeleteUser _ _ _ | Action_AddMember _ _
  | Action_RemoveMember _ _ => _ ← modify (λ w, change_accounts w action); mret undo
  | Action_InstallUnit unit contents expect => install_unit unit contents expect
  | Action_DaemonReload => _ ← modify reload; mret [Action_DaemonReload]
  | Action_EnableUnit unit => enable_unit unit
  | Action_DisableUnit unit => disable_unit unit
  | Action_StartUnit unit => start_unit unit
  | Action_StopUnit unit => stop_unit unit
  | Action_RestartUnit unit => restart_unit unit
  | Action_DrainService unit => drain_service unit
  | Action_InstallRuntime _ _ _ => install_runtime
  | Action_RemoveRuntime created _ => remove_runtime created
  | Action_ActivateProfile user _ => activate_profile user
  | Action_DeleteGeneration user g => delete_generation user g
  | Action_SwitchGeneration user generation expect => switch_generation user generation expect
  | Action_ApplyGeneration user => mret [Action_ApplyGeneration user]
  | Action_CollectGarbage _ => mret []
  | Action_RecordState user => record_state put_file user
  | Action_CreateRepository user => create_repository user
  | Action_Commit => commit_world
  end.

(** [World::apply]. *)
Definition apply (action : Action) : St (list Action) := settled_or action (arm action).

Definition outcome_of (r : result Failure (list Action)) : Outcome := mkPerformed <$> r.
