(* ===== verification/Observe.v ===== *)
(** * Looking at the modelled world, and making one of what was seen

    [World::observe] and the [seed] methods of [crates/core/src/model/mod.rs]: a prediction
    copies what queries found on a system into a world and answers later queries from it. *)
From S2P Require Import Prelude.
From S2P Require Import Paths.
From S2P Require Import Effect.
From S2P Require Import Journal.
From S2P Require Import World.
From S2P Require Import Repository.

Local Open Scope N_scope.

(** ** Seeding *)

Definition seed_path (at_ : path) (facts : PathFacts) (contents : option bytes) : St unit :=
  match pf_kind facts with
  | Kind_Missing => modify (λ w, set_files (delete at_ (files w)) w)
  | kind =>
      let content := match kind with
                     | Kind_Directory => Content_Directory
                     | _ => Content_File (default "" contents) end in
      id ← (match pf_id facts with Some id => mret id | None => fresh end);
      let changed := match pf_changed facts with
                     | Some (seconds, _) => Z.to_N seconds
                     | None => ino id end in
      modify (λ w, set_files
        (<[at_ := mkFileEntry content (pf_mode facts) (pf_owner facts) id changed]> (files w)) w)
  end.

Definition seed_group (name : string) (found : option GroupFacts) (w : World) : World :=
  set_groups (partial_alter (λ _, found) name (groups w)) w.

Definition seed_user (name : string) (found : option UserFacts) (w : World) : World :=
  set_users (partial_alter (λ _, found) name (users w)) w.

Definition seed_link (name : string) (link : path * FileId) : St unit :=
  _ ← with_wants_dir link.1;
  modify (insert_entry link.1 (Content_File name) 511 ROOT link.2).

Definition seed_unit (name : string) (found : UnitFacts) (file : option bytes)
    (links : list (path * FileId)) : St unit :=
  _ ← each (seed_link name) (filter (λ link, parent link.1 ≠ Some UNIT_DIR) links);
  let loaded := if load_state found =s "loaded" then file else None in
  let running := if (active_state found =s "active") || (active_state found =s "reloading")
                 then loaded else None in
  since ← (match running with Some _ => id ← fresh; mret (Some (ino id)) | None => mret None end);
  w ← gets id;
  let stamp := if needs_reload found then None else stamp_of w (unit_path name) in
  modify (set_unit name (mkUnit loaded running since stamp)).

Definition seed_profile (uid : N) (found : ProfileFacts) (w : World) : World :=
  set_profiles (<[uid := mkProfile (generations found) (active found) ∅ (dangling found)]>
                  (profiles w)) w.

(** ** Observing *)

Definition path_facts (e : option FileEntry) : PathFacts :=
  match e with
  | None => mkPathFacts Kind_Missing 0 ROOT None None None
  | Some e => mkPathFacts (kind_of e) (fe_mode e) (fe_owner e) (Some (fe_id e)) None
                (Some (Z.of_N (fe_changed e), 0))
  end.

(** [sort_unstable] on numbers. *)
Definition sort_numbers (l : list N) : list N := merge_sort N.le l.

Definition profile_facts (p : option Profile) : ProfileFacts :=
  match p with
  | Some p => mkProfileFacts (sort_numbers (pr_generations p)) (pr_active p)
                (sort_numbers (pr_dangling p))
  | None => mkProfileFacts [] None []
  end.

Definition active_input (w : World) (user : InvokingUser) (file : string) : option bytes :=
  index ← position (λ input : string * string, input.1 = file) GENERATION_INPUTS;
  p ← profiles w !! uid user;
  g ← pr_active p;
  config ← built p !! g;
  input ← config !! index;
  input.

Definition active_list (w : World) (user : InvokingUser) : option bytes :=
  active_input w user STATE_FILE.
Definition active_lock (w : World) (user : InvokingUser) : option bytes :=
  active_input w user FLAKE_LOCK.

(** Whether the unit's file changed after systemd read it. *)
Definition stale (file loaded : option N) : bool :=
  match file, loaded with
  | Some stamp, Some loaded => bool_decide (loaded < stamp)
  | Some _, None | None, Some _ => true
  | None, None => false
  end.

Definition unit_facts (w : World) (name : string) : UnitFacts :=
  let u := unit_of w name in
  let enabled := enabled w name in
  let file := contents_of w (unit_path name) in
  mkUnitFacts
    (match seen u enabled file with Some _ => "loaded" | None => "not-found" end)
    (match running u with Some _ => "active" | None => "inactive" end)
    (match enabled, file with true, _ => "enabled" | false, Some _ => "disabled"
                            | false, None => "" end)
    (is_held u enabled && stale (stamp_of w (unit_path name)) (stamp u))
    ((λ since, (Z.of_N since, 0)) <$> since u).

Definition intact (w : World) (user : InvokingUser) : bool :=
  usable w user && verifies w user && reusable w user.

(** The leftovers of other requests in a directory. *)
Definition leftovers (w : World) (dir : path) : list (path * FileId) :=
  omap (λ at_,
    match file_name at_ with
    | Some name =>
        if decide (parent at_ = Some dir ∧ is_leftover name = true ∧
                   at_ ∉ pending_in w (acting_for w))
        then (λ e, (at_, fe_id e)) <$> files w !! at_ else None
    | None => None
    end) (keys w).

Definition observe (w : World) (query : Query) : Fact :=
  match query with
  | Query_Path at_ => Fact_Path (path_facts (files w !! at_))
  | Query_Contents at_ => Fact_Contents (contents_of w at_)
  | Query_Group name => Fact_Group (groups w !! name)
  | Query_User name => Fact_User (users w !! name)
  | Query_Accounts => Fact_Accounts (in_order (users w))
  | Query_TreeOwner at_ => Fact_TreeOwner (fst <$> tree_owner w at_)
  | Query_Repository user =>
      Fact_Repository (intact w user)
        (intact w user && indexed w user &&
         bool_decide (committed w user = Some (staged w user)))
  | Query_Profile user => Fact_Profile (profile_facts (profiles w !! uid user))
  | Query_ActiveList user => Fact_Contents (active_list w user)
  | Query_ActiveLock user => Fact_Contents (active_lock w user)
  | Query_Journals _ =>
      Fact_Journals (journals w ++
        ((λ e, Journal.abandoned e.1 e.2) <$> filter (λ e, e.1 ∉ held w) (in_order (logs w))))
  | Query_Leftovers dir => Fact_Leftovers (leftovers w dir)
  | Query_Strangers at_ owner =>
      Fact_Stranger (find (λ found, found.2 ≠ owner)
        (omap (λ p, (λ e, (p, fe_owner e)) <$> files w !! p) (subtree w at_)))
  | Query_Program at_ source =>
      let installed := contents_of w at_ in
      let running := contents_of w source in
      let same := bool_decide (installed ≠ None ∧ installed = running) in
      Fact_Program (mkProgramFacts same (if same then None else running))
  | Query_Clobbered user => Fact_Clobbered (default [] (clobbered w !! uid user))
  | Query_Linked user =>
      Fact_Linked (omap (λ p, (λ e, (p, fe_id e)) <$> files w !! p)
                     (default [] (linked w !! uid user)))
  | Query_UnitLinks name =>
      Fact_UnitLinks (omap (λ link, (λ e, (link, fe_id e)) <$> files w !! link)
                        (unit_links w name))
  | Query_Unit name => Fact_Unit (unit_facts w name)
  end.
