(* ===== verification/WorldAccounts.v ===== *)
(** * Undoing changes to accounts

    An action on users and groups and its undo, one after the other, leave a well-formed
    world as it was; so do any number of actions and the rollback of their journal. *)
From S2P Require Import Prelude.
From S2P Require Import Paths.
From S2P Require Import Effect.
From S2P Require Import Journal.
From S2P Require Import Accounts.
From S2P Require Import World.

Local Open Scope N_scope.

(** ** The world keeps the laws of its accounts *)

Lemma elem_of_in_order {V} (m : gmap string V) k v : (k, v) ∈ in_order m ↔ m !! k = Some v.
Proof.
  unfold in_order. rewrite list_elem_of_omap. split.
  - intros (k' & _ & (v' & Hv & [= -> ->])%fmap_Some). done.
  - intros Hk. exists k. split; [|by rewrite Hk].
    unfold sort_strings. rewrite merge_sort_Permutation. apply list_elem_of_fmap.
    exists (k, v). split; [done|]. by apply elem_of_map_to_list.
Qed.

Lemma NoDup_in_order {V} (m : gmap string V) : NoDup ((in_order m).*1).
Proof.
  unfold in_order.
  assert (Hnd : NoDup (sort_strings ((map_to_list m).*1))).
  { unfold sort_strings. rewrite merge_sort_Permutation. apply NoDup_fst_map_to_list. }
  induction Hnd as [|k l Hk Hnd IH]; csimpl; [constructor|].
  destruct (m !! k) as [v|]; csimpl; [|done]. constructor; [|done].
  intros ([k' v'] & -> & (k'' & Hin & (v'' & Hv & [= -> ->])%fmap_Some)%list_elem_of_omap)%list_elem_of_fmap.
  done.
Qed.

Lemma first_key_Some {V} (P : V → Prop) `{∀ v, Decision (P v)} (m : gmap string V) k :
  first_key P m = Some k → ∃ v, m !! k = Some v ∧ P v.
Proof.
  unfold first_key, find. intros ([k' v] & ([i [k'' v']] & Hf & [= -> ->])%fmap_Some & ->)%fmap_Some.
  apply list_find_Some in Hf as (Hin%list_elem_of_lookup_2 & HP & _). simpl in *.
  eexists. split; [by apply elem_of_in_order|done].
Qed.

Lemma first_key_None {V} (P : V → Prop) `{∀ v, Decision (P v)} (m : gmap string V) :
  first_key P m = None ↔ ∀ k v, m !! k = Some v → ¬ P v.
Proof.
  unfold first_key, find. rewrite !fmap_None, list_find_None, Forall_forall. split.
  - intros Hall k v Hk. apply (Hall (k, v)). by apply elem_of_in_order.
  - intros Hall [k v] Hin%elem_of_in_order. by eapply Hall.
Qed.

#[export] Instance world_accounts_laws : AccountsLaws World.
Proof.
  split; simpl.
  - intros w gid name Hf. by apply first_key_Some in Hf.
  - intros w gid name g Hf Hg. exact (proj1 (first_key_None _ _) Hf _ _ Hg).
  - intros w uid name Hf. by apply first_key_Some in Hf.
  - intros w uid name u Hf Hu. exact (proj1 (first_key_None _ _) Hf _ _ Hu).
  - intros w gid name Hf. by apply first_key_Some in Hf.
  - intros w gid name u Hf Hu. exact (proj1 (first_key_None _ _) Hf _ _ Hu).
  - intros w user name. rewrite list_elem_of_fmap. split.
    + intros ([k g] & -> & [Hm Hin]%list_elem_of_filter). exists g. by rewrite <- elem_of_in_order.
    + intros (g & Hg & Hm). exists (name, g). split; [done|]. apply list_elem_of_filter.
      by rewrite elem_of_in_order.
  - intros w user. assert (Hnd := NoDup_in_order (groups w)).
    generalize dependent (in_order (groups w)). intros l Hnd.
    induction l as [|[k g] l IH]; csimpl; [constructor|]. inversion_clear Hnd.
    rewrite filter_cons. case_decide; csimpl; [constructor|]; auto.
    intros (e & -> & [_ Hin]%list_elem_of_filter)%list_elem_of_fmap. apply H. by apply list_elem_of_fmap_2.
Qed.

(** ** Sorted lists of members *)

Definition sorted (l : list string) : Prop := StronglySorted String.le l.

Lemma sort_strings_sorted l : sorted (sort_strings l).
Proof. apply (StronglySorted_merge_sort String.le). Qed.

Lemma sort_strings_unique l k : sorted l → l ≡ₚ k → sort_strings k = l.
Proof.
  intros Hs Hp. apply (StronglySorted_unique String.le); [apply sort_strings_sorted|done|].
  by rewrite Hp; apply merge_sort_Permutation.
Qed.

Lemma sorted_filter (P : string → Prop) `{∀ x, Decision (P x)} l : sorted l → sorted (filter P l).
Proof.
  unfold sorted. induction 1 as [|x l Hl IH Hx]; [constructor|].
  rewrite filter_cons. case_decide; [|done]. constructor; [done|].
  rewrite Forall_forall in *. intros y [_ Hy]%list_elem_of_filter. auto.
Qed.

Lemma without_with user g :
  sorted (members g) → user ∉ members g → without_member user (with_member user g) = g.
Proof.
  intros Hs Hn. unfold without_member, with_member. destruct g as [gid l]. simpl in *. f_equal.
  assert (Hp : filter (λ member, member ≠ user) (sort_strings (l ++ [user])) ≡ₚ l).
  { unfold sort_strings. rewrite merge_sort_Permutation, filter_app.
    rewrite filter_all by (intros x Hx ->; done). rewrite filter_none, app_nil_r; [done|].
    intros x ->%list_elem_of_singleton Hx. done. }
  apply (StronglySorted_unique String.le); [|done|done]. apply sorted_filter, sort_strings_sorted.
Qed.

Lemma with_without user g :
  sorted (members g) → NoDup (members g) → user ∈ members g →
  with_member user (without_member user g) = g.
Proof.
  intros Hs Hnd Hin. unfold without_member, with_member. destruct g as [gid l]. simpl in *. f_equal.
  apply sort_strings_unique; [done|].
  apply elem_of_Permutation in Hin as [k Hk]. rewrite Hk in Hnd.
  apply NoDup_cons in Hnd as [Hn _]. rewrite Hk, filter_cons_False by naive_solver.
  rewrite filter_all by (intros x Hx ->; done). by rewrite Permutation_cons_append.
Qed.

(** ** Well-formed accounts *)

(** Numbers are held once, users have a primary group, members are users, listed once and
    in order. *)
Record accounts_ok (w : World) : Prop := {
  ok_gids : ∀ n1 n2 g1 g2, groups w !! n1 = Some g1 → groups w !! n2 = Some g2 →
    group_gid g1 = group_gid g2 → n1 = n2;
  ok_uids : ∀ n1 n2 u1 u2, users w !! n1 = Some u1 → users w !! n2 = Some u2 →
    uf_uid u1 = uf_uid u2 → n1 = n2;
  ok_primary : ∀ n u, users w !! n = Some u →
    ∃ n' g, groups w !! n' = Some g ∧ group_gid g = uf_gid u;
  ok_members : ∀ n g, groups w !! n = Some g →
    sorted (members g) ∧ NoDup (members g) ∧ ∀ m, m ∈ members g → is_Some (users w !! m);
}.

(** Whether an action is about users and groups. *)
Definition on_accounts (action : Action) : bool :=
  match action with
  | Action_AddGroup _ _ | Action_SetGroupGid _ _ _ | Action_DeleteGroup _ _ | Action_AddUser _
  | Action_SetUserIds _ _ _ | Action_DeleteUser _ _ _ | Action_AddMember _ _
  | Action_RemoveMember _ _ => true
  | _ => false
  end.

(** [World::apply] on such an action: its undo, and the world after it ([apply_accounts] of
    [Undo]). *)
Definition apply_account (w : World) (action : Action) : result Failure (list Action * World) :=
  accounted ← account_precondition w action;
  match accounted with
  | Accounted_Done => Ok ([], w)
  | Accounted_Go undo => Ok (undo, change_accounts w action)
  end.

(** A new user's groups are named once. *)
Definition named_once (action : Action) : Prop :=
  match action with Action_AddUser spec => NoDup (spec_groups spec) | _ => True end.

(** Actions one after the other, their own undos dropped. *)
Fixpoint apply_all (w : World) (actions : list Action) : result Failure World :=
  match actions with
  | [] => Ok w
  | action :: actions => '(_, w) ← apply_account w action; apply_all w actions
  end.

Lemma apply_all_app w l k :
  apply_all w (l ++ k) = (w ← apply_all w l; apply_all w k).
Proof.
  revert w. induction l as [|action l IH]; intros w; simpl; [done|].
  destruct (apply_account w action) as [[u w']|]; simpl; [apply IH|done].
Qed.

Lemma applied w action u :
  done_already w action = false → account_undo w action = Ok u →
  apply_account w action = Ok (u, change_accounts w action).
Proof. intros Hd Hu. unfold apply_account, account_precondition. by rewrite Hd, Hu. Qed.

Lemma undone_by w action u w' :
  done_already w action = false → account_undo w action = Ok u → change_accounts w action = w' →
  apply_all w [action] = Ok w'.
Proof. intros Hd Hu <-. simpl. by rewrite (applied _ _ _ Hd Hu). Qed.

Lemma set_same w gs us :
  gs = groups w → us = users w → set_groups gs (set_users us w) = w.
Proof. intros -> ->. by destruct w. Qed.

Lemma gid_free_Ok w name gid :
  gid_free w name gid = Ok tt → ∀ n g, groups w !! n = Some g → group_gid g = gid →
  accounts_ok w → n = name.
Proof.
  unfold gid_free. intros Hf n g Hg Hgid Hok. destruct (group_with_gid w gid) as [holder|] eqn:Hh.
  - apply group_with_gid_Some in Hh as (g' & Hg' & Hgid'). destruct (decide (holder = name)); [subst|done].
    eapply (ok_gids _ Hok); [exact Hg|exact Hg'|congruence].
  - by destruct (group_with_gid_None _ _ _ _ Hh Hg).
Qed.

Lemma uid_free_Ok w name uid :
  uid_free w name uid = Ok tt → ∀ n u, users w !! n = Some u → uf_uid u = uid →
  accounts_ok w → n = name.
Proof.
  unfold uid_free. intros Hf n u Hu Huid Hok. destruct (user_with_uid w uid) as [holder|] eqn:Hh.
  - apply user_with_uid_Some in Hh as (u' & Hu' & Huid'). destruct (decide (holder = name)); [subst|done].
    eapply (ok_uids _ Hok); [exact Hu|exact Hu'|congruence].
  - by destruct (user_with_uid_None _ _ _ _ Hh Hu).
Qed.

Lemma gid_free_intro w name gid :
  (∀ n g, groups w !! n = Some g → group_gid g = gid → n = name) → gid_free w name gid = Ok tt.
Proof.
  intros Hall. unfold gid_free. destruct (group_with_gid w gid) as [holder|] eqn:Hh; [|done].
  apply group_with_gid_Some in Hh as (g & Hg & Hgid). by rewrite decide_True by by eapply Hall.
Qed.

Lemma uid_free_intro w name uid :
  (∀ n u, users w !! n = Some u → uf_uid u = uid → n = name) → uid_free w name uid = Ok tt.
Proof.
  intros Hall. unfold uid_free. destruct (user_with_uid w uid) as [holder|] eqn:Hh; [|done].
  apply user_with_uid_Some in Hh as (u & Hu & Huid). by rewrite decide_True by by eapply Hall.
Qed.

Lemma primary_of_intro w gid :
  (∀ n u, users w !! n = Some u → uf_gid u ≠ gid) → primary_of w gid = None.
Proof. intros Hall. destruct (primary_of w gid) as [n|] eqn:Hp; [|done].
  apply primary_of_Some in Hp as (u & Hu & Hg). by destruct (Hall n u). Qed.

Lemma has_gid w n g gid :
  groups w !! n = Some g → group_gid g = gid → ∃ holder, group_with_gid w gid = Some holder.
Proof.
  intros Hg Hgid. destruct (group_with_gid w gid) as [holder|] eqn:Hh; [by exists holder|].
  by destruct (group_with_gid_None _ _ _ _ Hh Hg).
Qed.

Lemma expect_group_Ok w name gid g :
  expect_group w name gid = Ok g → groups w !! name = Some g ∧ group_gid g = gid.
Proof. unfold expect_group. simpl. destruct (groups w !! name); [case_decide|]; naive_solver. Qed.

Lemma expect_user_Ok w name o u :
  expect_user w name o = Ok u → users w !! name = Some u ∧ (uf_uid u, uf_gid u) = o.
Proof. unfold expect_user. simpl. destruct (users w !! name); [case_decide|]; naive_solver. Qed.

Lemma alter_back `{Countable K} {V} (f g : V → V) (m : gmap K V) k :
  (∀ x, m !! k = Some x → g (f x) = x) → alter g k (alter f k m) = m.
Proof.
  intros Hgf. apply map_eq. intros i. destruct (decide (i = k)) as [->|].
  - rewrite !lookup_alter_eq. destruct (m !! k); simpl; [by rewrite Hgf|done].
  - by rewrite !lookup_alter_ne.
Qed.

Lemma fmap_back {V} (f : V → V) (m : gmap string V) :
  (∀ k x, m !! k = Some x → f x = x) → f <$> m = m.
Proof.
  intros Hf. apply map_eq. intros i. rewrite lookup_fmap.
  destruct (m !! i) eqn:Hi; simpl; [by erewrite Hf|done].
Qed.

Lemma foldl_alter_lookup {V} (f : V → V) (l : list string) (m : gmap string V) k :
  NoDup l → foldl (λ m g, alter f g m) m l !! k = if decide (k ∈ l) then f <$> m !! k else m !! k.
Proof.
  intros Hnd. revert m. induction Hnd as [|x l Hx Hnd IH]; intros m; simpl; [done|].
  rewrite IH. destruct (decide (k = x)) as [->|Hne].
  - rewrite decide_False, decide_True by (done || by left). by rewrite lookup_alter_eq.
  - rewrite lookup_alter_ne by done. destruct (decide (k ∈ l)).
    + by rewrite decide_True by by right.
    + rewrite decide_False; [done|]. by intros [?|?]%elem_of_cons.
Qed.

Lemma sort_strings_app l k : sort_strings (sort_strings l ++ k) = sort_strings (l ++ k).
Proof.
  symmetry. apply sort_strings_unique; [apply sort_strings_sorted|].
  unfold sort_strings. by rewrite !merge_sort_Permutation.
Qed.

(** What deletes a group adds its members back one at a time. *)
Lemma add_members w name g k :
  groups w !! name = Some g → sorted (members g) → (∀ m, m ∈ k → is_Some (users w !! m)) →
  NoDup (members g ++ k) →
  apply_all w (Action_AddMember name <$> k) =
  Ok (set_groups (<[name := mkGroupFacts (group_gid g) (sort_strings (members g ++ k))]> (groups w)) w).
Proof.
  revert w g. induction k as [|m k IH]; intros w g Hg Hs Hall Hnd; csimpl.
  - rewrite app_nil_r, (sort_strings_unique (members g)) by done.
    rewrite insert_id by (by destruct g). by destruct w.
  - destruct (Hall m) as [u Hu]; [left|]. rewrite (applied _ _ [Action_RemoveMember name m]).
    + simpl. erewrite (IH _ (with_member m g)); simpl.
      * rewrite sort_strings_app, <- (assoc_L (++)). simpl. unfold set_groups. simpl.
        f_equal. f_equal. apply map_eq. intros i.
        destruct (decide (i = name)) as [->|]; [by rewrite !lookup_insert_eq|].
        by rewrite !lookup_insert_ne, lookup_alter_ne.
      * by rewrite lookup_alter_eq, Hg.
      * apply sort_strings_sorted.
      * intros m' Hm'. apply Hall. by right.
      * unfold sort_strings. rewrite merge_sort_Permutation, <- (assoc_L (++)). done.
    + simpl. unfold members_of. simpl. rewrite Hg. simpl. apply bool_decide_eq_false.
      apply NoDup_app in Hnd as (_ & Hnd & _). intros Hin. apply (Hnd _ Hin). left.
    + simpl. by rewrite Hg, Hu.
Qed.

(** ** What each action does to well-formed accounts *)

Section arms.
Variable w : World.
Hypothesis Hok : accounts_ok w.

Lemma gid_unheld name gid :
  gid_free w name gid = Ok tt → (∀ g, groups w !! name = Some g → group_gid g ≠ gid) →
  ∀ n g, groups w !! n = Some g → group_gid g ≠ gid.
Proof.
  intros Hf Hne n g Hg Hgid. assert (n = name) as -> by by eapply gid_free_Ok. by eapply Hne.
Qed.

Lemma uid_unheld name uid :
  uid_free w name uid = Ok tt → (∀ u, users w !! name = Some u → uf_uid u ≠ uid) →
  ∀ n u, users w !! n = Some u → uf_uid u ≠ uid.
Proof.
  intros Hf Hne n u Hu Huid. assert (n = name) as -> by by eapply uid_free_Ok. by eapply Hne.
Qed.

Lemma no_primary gid :
  (∀ n g, groups w !! n = Some g → group_gid g ≠ gid) →
  ∀ n u, users w !! n = Some u → uf_gid u ≠ gid.
Proof.
  intros Hfree n u Hu Heq. destruct (ok_primary _ Hok _ _ Hu) as (n' & g & Hg & Hgid).
  apply (Hfree _ _ Hg). congruence.
Qed.

Lemma add_group name gid u :
  done_already w (Action_AddGroup name gid) = false →
  account_undo w (Action_AddGroup name gid) = Ok u →
  accounts_ok (change_accounts w (Action_AddGroup name gid)) ∧
  apply_all (change_accounts w (Action_AddGroup name gid)) u = Ok w.
Proof.
  simpl. intros _. destruct (groups w !! name) eqn:Hn; [done|].
  intros ([] & Hf & [= <-])%bind_Ok.
  assert (Hfree := gid_unheld _ _ Hf ltac:(naive_solver)).
  assert (Hprim := no_primary _ Hfree). split.
  - split; simpl.
    + intros n1 n2 g1 g2. rewrite !lookup_insert_Some. intros [[<- <-]|[? Hg1]] [[<- <-]|[? Hg2]]; simpl.
      * done.
      * intros Heq. by destruct (Hfree _ _ Hg2).
      * intros Heq. by destruct (Hfree _ _ Hg1).
      * by eapply (ok_gids _ Hok).
    + apply (ok_uids _ Hok).
    + intros n u Hu. destruct (ok_primary _ Hok _ _ Hu) as (n' & g & Hg & Hgid).
      exists n', g. split; [|done]. rewrite lookup_insert_ne by congruence. done.
    + intros n g. rewrite lookup_insert_Some. intros [[<- <-]|[? Hg]].
      * simpl. split; [constructor|]. split; [constructor|]. by intros m ?%elem_of_nil.
      * by apply (ok_members _ Hok n).
  - eapply undone_by; simpl.
    + rewrite lookup_insert_eq. by apply bool_decide_eq_false.
    + unfold expect_group. simpl. rewrite lookup_insert_eq. simpl. rewrite decide_True by done. simpl.
      rewrite (proj2 (first_key_None _ _)) by done. done.
    + rewrite delete_insert_id by done. by destruct w.
Qed.

Lemma set_group_gid_ok name gid expect g :
  groups w !! name = Some g → group_gid g = expect → (∀ n g, groups w !! n = Some g → group_gid g ≠ gid) →
  accounts_ok (change_accounts w (Action_SetGroupGid name gid expect)).
Proof.
  intros Hg Hexp Hfree. split; simpl.
  - intros n1 n2 g1 g2. rewrite !lookup_alter_Some.
    intros [(<- & x1 & Hx1 & ->)|[? Hg1]] [(<- & x2 & Hx2 & ->)|[? Hg2]]; simpl; intros Heq.
    + done.
    + by destruct (Hfree _ _ Hg2).
    + by destruct (Hfree _ _ Hg1).
    + by eapply (ok_gids _ Hok).
  - intros n1 n2 u1 u2. rewrite !lookup_fmap_Some. intros (x1 & <- & H1) (x2 & <- & H2) Heq.
    eapply (ok_uids _ Hok); [exact H1|exact H2|]. by repeat destruct (decide _).
  - intros n u. rewrite lookup_fmap_Some. intros (x & <- & Hx).
    destruct (ok_primary _ Hok _ _ Hx) as (n' & g' & Hg' & Hgid'). destruct (decide _) as [Hm|Hm]; simpl.
    + exists name, (mkGroupFacts gid (members g)). by rewrite lookup_alter_eq, Hg.
    + exists n', g'. by rewrite lookup_alter_ne by congruence.
  - intros n g'. rewrite lookup_alter_Some. intros Hg'.
    assert (∃ g0, groups w !! n = Some g0 ∧ members g' = members g0) as (g0 & Hg0 & ->).
    { destruct Hg' as [(<- & x & Hx & ->)|[? Hx]]; eauto. }
    destruct (ok_members _ Hok _ _ Hg0) as (? & ? & Hall). split; [done|]. split; [done|].
    intros m Hm. rewrite lookup_fmap. apply fmap_is_Some. auto.
Qed.

Lemma set_group_gid_undone name gid expect g :
  groups w !! name = Some g → group_gid g = expect → (∀ n g, groups w !! n = Some g → group_gid g ≠ gid) →
  apply_all (change_accounts w (Action_SetGroupGid name gid expect))
    [Action_SetGroupGid name expect gid] = Ok w.
Proof.
  intros Hg Hexp Hfree. assert (Hprim := no_primary _ Hfree). eapply undone_by; simpl.
  - rewrite lookup_alter_eq, Hg. apply bool_decide_eq_false. subst expect. simpl. intros Heq. by apply (Hfree _ _ Hg).
  - unfold expect_group. simpl. rewrite lookup_alter_eq, Hg. simpl. rewrite decide_True by done. simpl.
    rewrite gid_free_intro; [done|]. intros n g'. simpl. rewrite lookup_alter_Some.
    intros [(<- & _)|[? Hg']] Hgid; [done|]. eapply (ok_gids _ Hok); [exact Hg'|exact Hg|congruence].
  - simpl. rewrite alter_back.
    2:{ intros x Hx. assert (x = g) as -> by congruence. destruct g; simpl in *. by subst. }
    rewrite <- map_fmap_compose, fmap_back; [by destruct w|].
    intros n x Hx. apply Hprim in Hx. unfold compose. destruct x; simpl in *.
    destruct (decide (_ = expect)) as [->|]; simpl; [by rewrite decide_True|by rewrite decide_False].
Qed.

Lemma set_group_gid name gid expect u :
  done_already w (Action_SetGroupGid name gid expect) = false →
  account_undo w (Action_SetGroupGid name gid expect) = Ok u →
  accounts_ok (change_accounts w (Action_SetGroupGid name gid expect)) ∧
  apply_all (change_accounts w (Action_SetGroupGid name gid expect)) u = Ok w.
Proof.
  unfold done_already, account_undo.
  intros Hd (g & [Hg Hexp]%expect_group_Ok & ([] & Hf & [= <-])%bind_Ok)%bind_Ok.
  simpl in Hd. rewrite Hg in Hd. apply bool_decide_eq_false in Hd.
  assert (Hfree := gid_unheld _ _ Hf ltac:(naive_solver)).
  split; [by eapply set_group_gid_ok|by eapply set_group_gid_undone].
Qed.

Lemma delete_group name expect u :
  done_already w (Action_DeleteGroup name expect) = false →
  account_undo w (Action_DeleteGroup name expect) = Ok u →
  accounts_ok (change_accounts w (Action_DeleteGroup name expect)) ∧
  apply_all (change_accounts w (Action_DeleteGroup name expect)) u = Ok w.
Proof.
  unfold account_undo. intros _ (g & [Hg Hexp]%expect_group_Ok & Hu)%bind_Ok.
  destruct (primary_of w expect) eqn:Hp; [done|]. injection Hu as <-.
  assert (Hprim : ∀ n u, users w !! n = Some u → uf_gid u ≠ expect).
  { intros n u Hu. exact (primary_of_None _ _ _ _ Hp Hu). }
  destruct (ok_members _ Hok _ _ Hg) as (Hs & Hnd & Hall). split.
  - split; simpl.
    + intros n1 n2 g1 g2 [_ H1]%lookup_delete_Some [_ H2]%lookup_delete_Some. by eapply (ok_gids _ Hok).
    + apply (ok_uids _ Hok).
    + intros n u Hu. destruct (ok_primary _ Hok _ _ Hu) as (n' & g' & Hg' & Hgid). exists n', g'.
      rewrite lookup_delete_ne; [done|]. intros <-. apply (Hprim _ _ Hu). congruence.
    + intros n g' [_ Hg']%lookup_delete_Some. by apply (ok_members _ Hok n).
  - simpl. rewrite (applied _ _ [Action_DeleteGroup name expect]).
    + simpl. erewrite (add_members _ _ (mkGroupFacts expect [])); simpl.
      * rewrite sort_strings_unique with (l := members g) by done. unfold set_groups. simpl.
        rewrite !insert_insert_eq, insert_delete_id by (rewrite Hg; by destruct g; simpl in *; subst).
        by destruct w.
      * by rewrite lookup_insert_eq.
      * constructor.
      * done.
      * done.
    + simpl. by rewrite lookup_delete_eq.
    + simpl. rewrite lookup_delete_eq, gid_free_intro; [done|].
      intros n g'. simpl. intros [Hne Hg']%lookup_delete_Some Hgid. destruct Hne.
      eapply (ok_gids _ Hok); [exact Hg|exact Hg'|congruence].
Qed.

(** What keeps the names and numbers of the groups keeps what depends on them only. *)
Lemma accounts_ok_members w' :
  (∀ n, group_gid <$> groups w' !! n = group_gid <$> groups w !! n) →
  (∀ n1 n2 u1 u2, users w' !! n1 = Some u1 → users w' !! n2 = Some u2 →
    uf_uid u1 = uf_uid u2 → n1 = n2) →
  (∀ n u, users w' !! n = Some u →
    (∃ n' u', users w !! n' = Some u' ∧ uf_gid u = uf_gid u') ∨
    ∃ n' g, groups w !! n' = Some g ∧ group_gid g = uf_gid u) →
  (∀ n g, groups w' !! n = Some g →
    sorted (members g) ∧ NoDup (members g) ∧ ∀ m, m ∈ members g → is_Some (users w' !! m)) →
  accounts_ok w'.
Proof.
  intros Hgid Huid Hprim Hmem.
  assert (Hback : ∀ n g, groups w' !! n = Some g → ∃ g', groups w !! n = Some g' ∧ group_gid g' = group_gid g).
  { intros n g Hg. specialize (Hgid n). rewrite Hg in Hgid.
    destruct (groups w !! n) as [g'|]; [|done]. exists g'. injection Hgid as ->. done. }
  split; [|done| |done].
  - intros n1 n2 g1 g2 (g1' & H1 & E1)%Hback (g2' & H2 & E2)%Hback Heq.
    eapply (ok_gids _ Hok); [exact H1|exact H2|congruence].
  - intros n u Hu.
    assert (∃ n' g, groups w !! n' = Some g ∧ group_gid g = uf_gid u) as (n' & g & Hg & E).
    { destruct (Hprim _ _ Hu) as [(n' & u' & Hu' & ->)|]; [by eapply (ok_primary _ Hok)|done]. }
    specialize (Hgid n'). rewrite Hg in Hgid. destruct (groups w' !! n') as [g'|] eqn:Hg'; [|done].
    exists n', g'. split; [done|]. injection Hgid as ->. done.
Qed.
Lemma member_sorted user g :
  sorted (members g) → NoDup (members g) → user ∉ members g →
  sorted (members (with_member user g)) ∧ NoDup (members (with_member user g)).
Proof.
  intros Hs Hnd Hn. split; [apply sort_strings_sorted|]. simpl. unfold sort_strings.
  rewrite merge_sort_Permutation. apply NoDup_app. split; [done|]. split; [|by apply NoDup_singleton].
  by intros x Hx ->%list_elem_of_singleton.
Qed.

Lemma elem_of_with_member user g m : m ∈ members (with_member user g) ↔ m ∈ members g ∨ m = user.
Proof.
  simpl. unfold sort_strings. rewrite merge_sort_Permutation, elem_of_app, list_elem_of_singleton. done.
Qed.

Lemma add_member group user u :
  done_already w (Action_AddMember group user) = false →
  account_undo w (Action_AddMember group user) = Ok u →
  accounts_ok (change_accounts w (Action_AddMember group user)) ∧
  apply_all (change_accounts w (Action_AddMember group user)) u = Ok w.
Proof.
  simpl. unfold members_of. simpl. intros Hd%bool_decide_eq_false.
  destruct (groups w !! group) as [g|] eqn:Hg; [|done]. destruct (users w !! user) eqn:Hu; [|done].
  intros [= <-]. simpl in Hd. destruct (ok_members _ Hok _ _ Hg) as (Hs & Hnd & Hall). split.
  - apply accounts_ok_members; simpl; [|apply (ok_uids _ Hok)|eauto|].
    + intros n. destruct (decide (n = group)) as [->|]; [by rewrite lookup_alter_eq, Hg|by rewrite lookup_alter_ne].
    + intros n g'. rewrite lookup_alter_Some. intros [(<- & x & Hx & ->)|[? Hg']].
      * assert (x = g) as -> by congruence. destruct (member_sorted user g) as [? ?]; [done..|].
        split; [done|]. split; [done|]. intros m [?| ->]%elem_of_with_member; eauto.
      * by apply (ok_members _ Hok n).
  - eapply undone_by; simpl.
    + unfold members_of. simpl. rewrite lookup_alter_eq, Hg. simpl. apply bool_decide_eq_false. intros Hn.
      apply Hn. apply elem_of_with_member. by right.
    + by rewrite lookup_alter_eq, Hg.
    + simpl. rewrite alter_back; [by destruct w|]. intros x Hx. assert (x = g) as -> by congruence.
      by apply without_with.
Qed.

Lemma remove_member group user u :
  done_already w (Action_RemoveMember group user) = false →
  account_undo w (Action_RemoveMember group user) = Ok u →
  accounts_ok (change_accounts w (Action_RemoveMember group user)) ∧
  apply_all (change_accounts w (Action_RemoveMember group user)) u = Ok w.
Proof.
  simpl. unfold members_of. simpl. intros Hd%bool_decide_eq_false.
  destruct (groups w !! group) as [g|] eqn:Hg; [|done].
  intros [= <-]. simpl in Hd. apply dec_stable in Hd.
  destruct (ok_members _ Hok _ _ Hg) as (Hs & Hnd & Hall). destruct (Hall _ Hd) as [facts Hu]. split.
  - apply accounts_ok_members; simpl; [|apply (ok_uids _ Hok)|eauto|].
    + intros n. destruct (decide (n = group)) as [->|]; [by rewrite lookup_alter_eq, Hg|by rewrite lookup_alter_ne].
    + intros n g'. rewrite lookup_alter_Some. intros [(<- & x & Hx & ->)|[? Hg']].
      * assert (x = g) as -> by congruence. simpl. split; [by apply sorted_filter|].
        split; [by apply NoDup_filter|]. intros m [_ ?]%list_elem_of_filter. auto.
      * by apply (ok_members _ Hok n).
  - eapply undone_by; simpl.
    + unfold members_of. simpl. rewrite lookup_alter_eq, Hg. simpl. apply bool_decide_eq_false.
      by intros [? _]%list_elem_of_filter.
    + by rewrite lookup_alter_eq, Hg, Hu.
    + simpl. rewrite alter_back; [by destruct w|]. intros x Hx. assert (x = g) as -> by congruence.
      by apply with_without.
Qed.

Lemma set_user_ids name o expect u :
  done_already w (Action_SetUserIds name o expect) = false →
  account_undo w (Action_SetUserIds name o expect) = Ok u →
  accounts_ok (change_accounts w (Action_SetUserIds name o expect)) ∧
  apply_all (change_accounts w (Action_SetUserIds name o expect)) u = Ok w.
Proof.
  unfold done_already, account_undo.
  intros Hd (x & [Hx Hexp]%expect_user_Ok & ([] & Hf & Hu)%bind_Ok)%bind_Ok.
  destruct (group_with_gid w o.2) as [holder|] eqn:Hh; [|done]. injection Hu as <-.
  apply group_with_gid_Some in Hh as (g & Hg & Hgid). simpl in Hd, Hg. rewrite Hx in Hd.
  simpl in Hd. apply bool_decide_eq_false in Hd. destruct (ok_primary _ Hok _ _ Hx) as (n0 & g0 & Hg0 & Hgid0).
  assert (Huid := λ n u Hu Heq, uid_free_Ok _ _ _ Hf n u Hu Heq Hok). split.
  - apply accounts_ok_members; simpl; [done| | |].
    + intros n1 n2 u1 u2. rewrite !lookup_alter_Some.
      intros [(<- & x1 & Hx1 & ->)|[? H1]] [(<- & x2 & Hx2 & ->)|[? H2]]; simpl; intros Heq; eauto.
      * symmetry. eauto.
      * by eapply (ok_uids _ Hok).
    + intros n u. rewrite lookup_alter_Some. intros [(<- & y & Hy & ->)|[? H1]]; simpl; eauto.
    + intros n g' Hg'. destruct (ok_members _ Hok _ _ Hg') as (? & ? & Hall). split; [done|]. split; [done|].
      intros m Hm. destruct (decide (m = name)) as [->|]; [rewrite lookup_alter_eq|rewrite lookup_alter_ne by done; auto].
      by rewrite Hx.
  - eapply undone_by; simpl.
    + rewrite lookup_alter_eq, Hx. simpl. apply bool_decide_eq_false. destruct o. simpl. congruence.
    + unfold expect_user. simpl. rewrite lookup_alter_eq, Hx. simpl.
      rewrite decide_True by (by destruct o). simpl. rewrite uid_free_intro; simpl.
      * destruct (first_key _ _) eqn:Hfk; [done|]. destruct (proj1 (first_key_None _ _) Hfk _ _ Hg0).
        rewrite Hgid0. by subst expect.
      * intros n u. rewrite lookup_alter_Some. intros [(<- & _)|[? H1]] Heq; [done|].
        eapply (ok_uids _ Hok); [exact H1|exact Hx|]. by subst expect.
    + simpl. rewrite alter_back; [by destruct w|]. intros y Hy. assert (y = x) as -> by congruence.
      subst expect. by destruct x.
Qed.
Lemma without_absent user g : user ∉ members g → without_member user g = g.
Proof.
  intros Hn. unfold without_member. destruct g as [gid l]. simpl in *. f_equal.
  apply filter_all. by intros x Hx ->.
Qed.

Lemma stranger_absent name n g :
  users w !! name = None → groups w !! n = Some g → name ∉ members g.
Proof.
  intros Hn Hg Hin. destruct (ok_members _ Hok _ _ Hg) as (_ & _ & Hall).
  destruct (Hall _ Hin) as [? Hs]. congruence.
Qed.

Lemma delete_user_ok name expect comment :
  accounts_ok (change_accounts w (Action_DeleteUser name expect comment)).
Proof.
  apply accounts_ok_members; simpl.
  - intros n. rewrite lookup_fmap. by destruct (groups w !! n).
  - intros n1 n2 u1 u2 [_ H1]%lookup_delete_Some [_ H2]%lookup_delete_Some. by eapply (ok_uids _ Hok).
  - intros n u [_ Hu]%lookup_delete_Some. eauto.
  - intros n g' (g & <- & Hg)%lookup_fmap_Some. destruct (ok_members _ Hok _ _ Hg) as (Hs & Hnd & Hall).
    simpl. split; [by apply sorted_filter|]. split; [by apply NoDup_filter|].
    intros m [Hne Hm]%list_elem_of_filter. rewrite lookup_delete_ne by done. auto.
Qed.

Lemma members_back name :
  foldl (λ gs group, alter (with_member name) group gs) (without_member name <$> groups w)
    (groups_of w name) = groups w.
Proof.
  apply map_eq. intros n. rewrite foldl_alter_lookup by apply NoDup_groups_of.
  rewrite lookup_fmap. destruct (decide (n ∈ groups_of w name)) as [Hin|Hin].
  - apply elem_of_groups_of in Hin as (g & Hg & Hm). simpl in Hg. rewrite Hg. simpl.
    destruct (ok_members _ Hok _ _ Hg) as (? & ? & _). by rewrite with_without.
  - destruct (groups w !! n) as [g|] eqn:Hg; [|done]. simpl. rewrite without_absent; [done|].
    intros Hm. apply Hin, elem_of_groups_of. eauto.
Qed.

Lemma members_out name l :
  NoDup l → users w !! name = None →
  without_member name <$> foldl (λ gs group, alter (with_member name) group gs) (groups w) l = groups w.
Proof.
  intros Hnd Hn. apply map_eq. intros n. rewrite lookup_fmap, foldl_alter_lookup by done.
  destruct (groups w !! n) as [g|] eqn:Hg; [|by destruct (decide _)].
  assert (Hout := stranger_absent _ _ _ Hn Hg). destruct (ok_members _ Hok _ _ Hg) as (? & ? & _).
  destruct (decide _); simpl; [by rewrite without_with|by rewrite without_absent].
Qed.

Lemma missing_group_None w' spec :
  missing_group w' spec = None ↔
  group_with_gid w' (spec_gid spec) ≠ None ∧ ∀ n, n ∈ spec_groups spec → group_of w' n ≠ None.
Proof.
  unfold missing_group, find. destruct (group_with_gid w' (spec_gid spec)).
  - rewrite fmap_None, list_find_None, Forall_forall. naive_solver.
  - naive_solver.
Qed.

Lemma delete_user name expect comment u :
  account_undo w (Action_DeleteUser name expect comment) = Ok u →
  accounts_ok (change_accounts w (Action_DeleteUser name expect comment)) ∧
  apply_all (change_accounts w (Action_DeleteUser name expect comment)) u = Ok w.
Proof.
  unfold account_undo. intros (x & [Hx Hexp]%expect_user_Ok & Hu)%bind_Ok.
  destruct (decide (uf_comment x = comment)); [|done]. injection Hu as <-.
  split; [apply delete_user_ok|]. eapply undone_by.
  - simpl. by rewrite lookup_delete_eq.
  - unfold account_undo. simpl. rewrite lookup_delete_eq, uid_free_intro; simpl.
    2:{ intros n u [Hne Hu]%lookup_delete_Some Heq. destruct Hne. by eapply (ok_uids _ Hok). }
    rewrite (proj2 (missing_group_None _ _)); [done|]. simpl. split.
    + destruct (ok_primary _ Hok _ _ Hx) as (n0 & g0 & Hg0 & Hgid0). intros Hfk.
      destruct (proj1 (first_key_None _ _) Hfk n0 (without_member name g0)); [|done].
      by rewrite lookup_fmap, Hg0.
    + intros n Hin. rewrite lookup_fmap. change (n ∈ groups_of w name) in Hin.
      apply elem_of_groups_of in Hin as (g & Hg & _).
      simpl in Hg. by rewrite Hg.
  - cbn [change_accounts spec_name spec_uid spec_gid spec_home spec_shell spec_comment spec_groups].
    cbn. rewrite insert_delete_id by (by rewrite Hx; destruct x).
    exact (set_same w _ _ (members_back name) eq_refl).
Qed.

Lemma add_user_ok spec :
  NoDup (spec_groups spec) → users w !! spec_name spec = None →
  (∀ n u, users w !! n = Some u → uf_uid u ≠ spec_uid spec) →
  (∃ n g, groups w !! n = Some g ∧ group_gid g = spec_gid spec) →
  accounts_ok (change_accounts w (Action_AddUser spec)).
Proof.
  intros Hnd Hn Huid Hgid. apply accounts_ok_members; simpl.
  - intros n. rewrite foldl_alter_lookup by done. destruct (decide _); [|done]. by destruct (groups w !! n).
  - intros n1 n2 u1 u2. rewrite !lookup_insert_Some.
    intros [[<- <-]|[? H1]] [[<- <-]|[? H2]]; simpl; intros Heq; [done| | |by eapply (ok_uids _ Hok)].
    + by destruct (Huid _ _ H2).
    + by destruct (Huid _ _ H1).
  - intros n u. rewrite lookup_insert_Some. intros [[<- <-]|[? H1]]; [by right|]. left. eauto.
  - intros n g'. rewrite foldl_alter_lookup by done. intros Hg'.
    assert (Hin : ∀ m, is_Some (users w !! m) → is_Some (<[spec_name spec := mkUserFacts (spec_uid spec)
      (spec_gid spec) (spec_home spec) (spec_shell spec) (spec_comment spec)]> (users w) !! m)).
    { intros m Hm. apply lookup_insert_is_Some'. by right. }
    destruct (groups w !! n) as [g|] eqn:Hg; [|destruct (decide _); discriminate].
    assert (Hout := stranger_absent _ _ _ Hn Hg). destruct (ok_members _ Hok _ _ Hg) as (Hs & Hnd' & Hall).
    destruct (decide (n ∈ spec_groups spec)); injection Hg' as <-; [|by split; [|split; [|auto]]].
    destruct (member_sorted (spec_name spec) g) as [? ?]; [done..|]. split; [done|]. split; [done|].
    intros m [?| ->]%elem_of_with_member; [auto|]. rewrite lookup_insert_eq. by eexists.
Qed.

Lemma add_user spec u :
  NoDup (spec_groups spec) →
  account_undo w (Action_AddUser spec) = Ok u →
  accounts_ok (change_accounts w (Action_AddUser spec)) ∧
  apply_all (change_accounts w (Action_AddUser spec)) u = Ok w.
Proof.
  intros Hnd. unfold account_undo. simpl. destruct (users w !! spec_name spec) eqn:Hn; [done|].
  intros ([] & Hf & Hu)%bind_Ok. destruct (missing_group w spec) eqn:Hm; [done|]. injection Hu as <-.
  apply missing_group_None in Hm as [Hp _]. simpl in Hp.
  destruct (first_key _ _) eqn:Hfk; [clear Hp|done]. apply first_key_Some in Hfk as (g & Hg & Hgid).
  assert (Huid := uid_unheld _ _ Hf ltac:(naive_solver)). split; [by apply add_user_ok; eauto|].
  eapply undone_by.
  - simpl. by rewrite lookup_insert_eq.
  - unfold account_undo, expect_user. simpl. rewrite lookup_insert_eq. simpl.
    rewrite decide_True by done. simpl. by rewrite decide_True.
  - transitivity (set_groups (without_member (spec_name spec) <$> foldl (λ gs group,
        alter (with_member (spec_name spec)) group gs) (groups w) (spec_groups spec))
      (set_users (delete (spec_name spec) (<[spec_name spec := mkUserFacts (spec_uid spec)
        (spec_gid spec) (spec_home spec) (spec_shell spec) (spec_comment spec)]> (users w))) w));
      [reflexivity|].
    rewrite members_out, delete_insert_id by done. by apply set_same.
Qed.
End arms.

(** ** One action and its undo *)

(** Applying an action keeps the accounts well-formed, and applying what it returned as its
    undo takes the world back. *)
Lemma account_change w action u w' :
  accounts_ok w → named_once action → on_accounts action = true →
  apply_account w action = Ok (u, w') → accounts_ok w' ∧ apply_all w' u = Ok w.
Proof.
  intros Hok Hn Ha. unfold apply_account, account_precondition.
  destruct (done_already w action) eqn:Hd; [by intros [= <- <-]|].
  destruct (account_undo w action) as [undo|] eqn:Hu; simpl; [|done]. intros [= <- <-].
  destruct action; try done.
  - by apply add_group.
  - by apply set_group_gid.
  - by apply delete_group.
  - by apply add_user.
  - by apply set_user_ids.
  - by apply delete_user.
  - by apply add_member.
  - by apply remove_member.
Qed.
