(* ===== verification/WorldFiles.v ===== *)
(** * The files of the modelled world

    What the operations on the tree of files do to each path: the paths below one
    ([subtree]), a tree that moves ([move_tree]), what a precondition finds ([spot_of]).  A
    world's tree is well-formed ([tree_ok]) when its paths are absolute and normal and lie
    in directories. *)
From S2P Require Import Prelude.
From S2P Require Import Paths.
From S2P Require Import Effect.
From S2P Require Import Precondition.
From S2P Require Import World.
From S2P Require Import Repository.
From S2P Require Import Apply.

Local Open Scope N_scope.

Lemma above_snoc p s : above (p ++ [Normal s]) = reverse (ancestors p).
Proof. unfold above. by rewrite ancestors_snoc. Qed.

Lemma elem_of_take_while {A} (P : A → Prop) `{∀ x, Decision (P x)} (R : relation A) l x :
  StronglySorted R l → (∀ y z, y ∈ l → R y z → P z → P y) →
  x ∈ take_while P l ↔ x ∈ l ∧ P x.
Proof.
  intros Hs. induction Hs as [|y l Hs IH Hy]; intros Hdown; simpl; [set_solver|].
  rewrite Forall_forall in Hy. destruct (decide (P y)) as [HP|HP].
  - rewrite !elem_of_cons, IH; [naive_solver|]. intros a b Ha. apply Hdown. by right.
  - split; [by intros ?%elem_of_nil|]. intros [[->|Hx]%elem_of_cons Hp]; [done|].
    destruct HP. eapply Hdown; [left| |exact Hp]. auto.
Qed.

Lemma NoDup_take_while {A} (P : A → Prop) `{∀ x, Decision (P x)} l : NoDup l → NoDup (take_while P l).
Proof.
  induction 1 as [|x l Hx Hnd IH]; simpl; [constructor|]. destruct (decide (P x)); constructor; [|done].
  intros Hin. apply Hx. clear -Hin. induction l as [|y l IH]; simpl in *; [by apply elem_of_nil in Hin|].
  destruct (decide (P y)); [|by apply elem_of_nil in Hin]. apply elem_of_cons in Hin as [->|]; [left|right; auto].
Qed.

Lemma elem_of_keys w p : p ∈ keys w ↔ is_Some (files w !! p).
Proof.
  unfold keys. rewrite merge_sort_Permutation, list_elem_of_fmap. split.
  - intros ([q e] & -> & Hin%elem_of_map_to_list). by exists e.
  - intros [e He]. exists (p, e). split; [done|]. by apply elem_of_map_to_list.
Qed.

Lemma NoDup_keys w : NoDup (keys w).
Proof. unfold keys. rewrite merge_sort_Permutation. apply NoDup_fst_map_to_list. Qed.

Lemma range_sorted w p : StronglySorted path_le (range w p).
Proof. apply StronglySorted_filter, (StronglySorted_merge_sort path_le). Qed.

Lemma elem_of_range w p q : q ∈ range w p ↔ is_Some (files w !! q) ∧ path_le p q.
Proof. unfold range. rewrite list_elem_of_filter, elem_of_keys. naive_solver. Qed.

(** A subtree is the paths at or below its top. *)
Lemma elem_of_subtree w p q : q ∈ subtree w p ↔ is_Some (files w !! q) ∧ p `prefix_of` q.
Proof.
  unfold subtree. rewrite (elem_of_take_while _ path_le).
  - rewrite elem_of_range, under_is. naive_solver (eauto using prefix_le).
  - apply range_sorted.
  - intros y z [_ Hy]%elem_of_range Hyz. rewrite !under_is. by apply prefix_between.
Qed.

Lemma NoDup_subtree w p : NoDup (subtree w p).
Proof. apply NoDup_take_while, NoDup_filter, NoDup_keys. Qed.

(** ** Trees that move *)

Definition normal_below (w : World) (p : path) : Prop :=
  ∀ r, is_Some (files w !! (p ++ r)) → Forall is_normal r.

Definition none_below (w : World) (p : path) : Prop := ∀ r, files w !! (p ++ r) = None.

Lemma moved_app from to r : Forall is_normal r → moved from to (from ++ r) = to ++ r.
Proof.
  intros Hr. unfold moved. rewrite drop_app_length. destruct r as [|[] r]; simpl; try done.
  - by rewrite app_nil_r.
  - by apply Forall_cons in Hr as [? _].
  - by apply Forall_cons in Hr as [? _].
Qed.

Lemma subtree_rest w p q : q ∈ subtree w p → ∃ r, q = p ++ r.
Proof. by intros [_ [r ->]]%elem_of_subtree; exists r. Qed.

Definition move_one (from to : path) (fs : gmap path FileEntry) (old : path) : gmap path FileEntry :=
  match fs !! old with
  | Some e => <[moved from to old := e]> (delete old fs)
  | None => fs
  end.

Section move.
Context (from to : path) (Hapart : apart from to).

Lemma move_one_some fs r e :
  Forall is_normal r → fs !! (from ++ r) = Some e →
  move_one from to fs (from ++ r) = <[to ++ r := e]> (delete (from ++ r) fs).
Proof. intros Hr Hf. unfold move_one. by rewrite Hf, moved_app. Qed.

Definition movable (fs : gmap path FileEntry) (l : list path) : Prop :=
  NoDup l ∧ ∀ old, old ∈ l → is_Some (fs !! old) ∧ ∃ r, old = from ++ r ∧ Forall is_normal r.

Lemma movable_cons fs old l :
  movable fs (old :: l) →
  ∃ r e, old = from ++ r ∧ (old ∉ l) ∧
    move_one from to fs old = (<[to ++ r := e]> (delete old fs)) ∧ fs !! old = Some e ∧
    movable (move_one from to fs old) l.
Proof.
  intros [[Hn Hnd]%NoDup_cons Hall].
  destruct (Hall old) as ([e He] & r & -> & Hr); [left|]. exists r, e.
  rewrite (move_one_some _ _ e) by done. do 4 (split; [done|]). split; [done|].
  intros old' Hold. destruct (Hall old') as ([e' He'] & r' & -> & Hr'); [by right|]. split; [|eauto].
  exists e'. rewrite lookup_insert_ne by (intros ?; by eapply Hapart).
  rewrite lookup_delete_ne; [done|]. congruence.
Qed.

Lemma fold_move_out l fs q :
  movable fs l → (∀ r, q ≠ to ++ r) →
  foldl (move_one from to) fs l !! q = if decide (q ∈ l) then None else fs !! q.
Proof.
  revert fs. induction l as [|old l IH]; intros fs Hm Hq; simpl; [done|].
  apply movable_cons in Hm as (r & e & -> & Hn & Heq & He & Hm). rewrite IH by done. rewrite Heq.
  rewrite lookup_insert_ne by congruence. destruct (decide (q = from ++ r)) as [->|Hne].
  - rewrite lookup_delete_eq, (decide_True (P := _ ∈ _ :: _)) by left. by destruct (decide _).
  - rewrite lookup_delete_ne by congruence. destruct (decide (q ∈ l)).
    + by rewrite decide_True by by right.
    + rewrite decide_False; [done|]. by intros [?|?]%elem_of_cons.
Qed.

Lemma fold_move_in l fs r :
  movable fs l →
  foldl (move_one from to) fs l !! (to ++ r) =
  if decide (from ++ r ∈ l) then fs !! (from ++ r) else fs !! (to ++ r).
Proof.
  revert fs. induction l as [|old l IH]; intros fs Hm; simpl; [done|].
  apply movable_cons in Hm as (r' & e & -> & Hn & Heq & He & Hm). rewrite IH by done. rewrite Heq.
  destruct (decide (r = r')) as [->|Hne].
  - rewrite decide_False by done. rewrite lookup_insert_eq, decide_True by left. done.
  - assert (from ++ r ≠ from ++ r') by (by intros ?%app_inv_head).
    assert (to ++ r' ≠ to ++ r) by (by intros ?%app_inv_head).
    rewrite !lookup_insert_ne by (done || intros ?; by eapply Hapart).
    rewrite !lookup_delete_ne by (done || intros ?; by eapply Hapart).
    destruct (decide (from ++ r ∈ l)).
    + by rewrite decide_True by by right.
    + rewrite decide_False; [done|]. by intros [?|?]%elem_of_cons.
Qed.

Lemma movable_subtree w : normal_below w from → movable (files w) (subtree w from).
Proof.
  intros Hn. split; [apply NoDup_subtree|]. intros old [Hs [r ->]]%elem_of_subtree.
  split; [done|]. exists r. auto.
Qed.

Lemma move_tree_elsewhere w q :
  normal_below w from → (∀ r, q ≠ from ++ r) → (∀ r, q ≠ to ++ r) →
  files (move_tree from to w) !! q = files w !! q.
Proof.
  intros Hn Hf Ht. etrans; [apply (fold_move_out _ _ _ (movable_subtree w Hn) Ht)|].
  rewrite decide_False; [done|]. intros [r ?]%subtree_rest. by eapply Hf.
Qed.

Lemma move_tree_from w r : normal_below w from → files (move_tree from to w) !! (from ++ r) = None.
Proof.
  intros Hn. etrans; [apply (fold_move_out _ _ _ (movable_subtree w Hn)); intros ?; apply Hapart|].
  destruct (decide _) as [|Hout]; [done|]. apply eq_None_not_Some. intros Hs. apply Hout.
  apply elem_of_subtree. split; [done|]. by exists r.
Qed.

Lemma move_tree_to w r :
  normal_below w from → none_below w to → files (move_tree from to w) !! (to ++ r) = files w !! (from ++ r).
Proof.
  intros Hn Hnone. etrans; [apply (fold_move_in _ _ _ (movable_subtree w Hn))|].
  destruct (decide _) as [|Hout]; [done|]. rewrite Hnone. symmetry. apply eq_None_not_Some. intros Hs.
  apply Hout. apply elem_of_subtree. split; [done|]. by exists r.
Qed.
End move.

Lemma remove_files_lookup l fs q :
  foldl (λ (fs : gmap path FileEntry) p, delete p fs) fs l !! q = if decide (q ∈ l) then None else fs !! q.
Proof.
  revert fs. induction l as [|p l IH]; intros fs; simpl; [done|]. rewrite IH.
  destruct (decide (p = q)) as [->|Hne].
  - rewrite lookup_delete_eq, (decide_True (P := _ ∈ _ :: _)) by left. by destruct (decide _).
  - rewrite lookup_delete_ne by done. destruct (decide (q ∈ l)).
    + by rewrite decide_True by by right.
    + rewrite decide_False; [done|]. by intros [?|?]%elem_of_cons.
Qed.

Lemma remove_tree_below w p r : files (remove_tree p w) !! (p ++ r) = None.
Proof.
  etrans; [apply remove_files_lookup|]. destruct (decide _) as [|Hout]; [done|].
  apply eq_None_not_Some. intros Hs. apply Hout. apply elem_of_subtree. split; [done|]. by exists r.
Qed.

Lemma remove_tree_elsewhere w p q : (∀ r, q ≠ p ++ r) → files (remove_tree p w) !! q = files w !! q.
Proof.
  intros Hq. etrans; [apply remove_files_lookup|]. rewrite decide_False; [done|].
  intros [r ?]%subtree_rest. by eapply Hq.
Qed.

(** Removing what replaced a tree that went aside and moving it back restores the files. *)
Lemma move_back w w1 p aside :
  apart p aside → normal_below w p → none_below w aside →
  (∀ q, (∀ r, q ≠ p ++ r) → files w1 !! q = files (move_tree p aside w) !! q) →
  files (move_tree aside p (remove_tree p w1)) = files w.
Proof.
  intros Ha Hn Hnone Hw1. assert (Ha' := apart_sym _ _ Ha).
  assert (Haside : ∀ r, files (remove_tree p w1) !! (aside ++ r) = files w !! (p ++ r)).
  { intros r. rewrite remove_tree_elsewhere by (intros ?; apply Ha').
    rewrite Hw1 by (intros ?; apply Ha'). by apply move_tree_to. }
  assert (Hna : normal_below (remove_tree p w1) aside).
  { intros r. rewrite Haside. apply Hn. }
  apply map_eq. intros q.
  destruct (decide (p `prefix_of` q)) as [[r ->]|Hp].
  { rewrite move_tree_to; [apply Haside|done|done|]. intros ?. apply remove_tree_below. }
  assert (∀ r, q ≠ p ++ r) by (intros r ->; apply Hp; by exists r).
  destruct (decide (aside `prefix_of` q)) as [[r ->]|Has].
  { rewrite move_tree_from by done. by rewrite Hnone. }
  assert (∀ r, q ≠ aside ++ r) by (intros r ->; apply Has; by exists r).
  rewrite move_tree_elsewhere, remove_tree_elsewhere, Hw1, move_tree_elsewhere by done. done.
Qed.

(** ** Well-formed trees, and what a precondition finds in them *)

Definition dir_at (w : World) (p : path) : Prop :=
  fe_content <$> files w !! p = Some Content_Directory.

Record tree_ok (w : World) : Prop := {
  tk_rooted p : is_Some (files w !! p) → rooted p;
  tk_parent p s : is_Some (files w !! (p ++ [Normal s])) → dir_at w p;
}.

Lemma dir_at_Some w p : dir_at w p → is_Some (files w !! p).
Proof. unfold dir_at. by destruct (files w !! p). Qed.

Lemma dirs_down_Ok w p l : dirs_down w p l = Ok tt ↔ ∀ d, d ∈ l → dir_at w d.
Proof.
  unfold dir_at. induction l as [|d l IH]; simpl; [split; [by intros _ d ?%elem_of_nil|done]|].
  destruct (fe_content <$> files w !! d) as [[|]|] eqn:Hd.
  - rewrite IH. setoid_rewrite elem_of_cons. naive_solver.
  - split; [done|]. intros Hall. specialize (Hall d ltac:(left)). congruence.
  - split; [done|]. intros Hall. specialize (Hall d ltac:(left)). congruence.
Qed.

Lemma dirs_down_Err w p l e :
  dirs_down w p l = Err e → e = Failure_Io p NotADirectory ∨ e = not_found p.
Proof.
  induction l as [|d l IH]; simpl; [done|]. destruct (fe_content <$> files w !! d) as [[|]|]; naive_solver.
Qed.

Definition spot_entry (o : option FileEntry) : Spot :=
  match o with
  | None => Spot_Missing
  | Some e => Spot_Present (mkNode (kind_of e) (fe_id e) (fe_mode e) (fe_owner e))
  end.

(** What is found in a place below directories. *)
Lemma spot_below w p s :
  (∀ d, d ∈ ancestors p → dir_at w d) →
  spot_of w (p ++ [Normal s]) = spot_entry (files w !! (p ++ [Normal s])).
Proof.
  intros Hp. unfold spot_of, parent_is_dir. rewrite parent_snoc.
  assert (dirs_down w (p ++ [Normal s]) (above (p ++ [Normal s])) = Ok tt) as ->; [|done].
  apply dirs_down_Ok. intros d. rewrite above_snoc, elem_of_reverse. apply Hp.
Qed.

Section tree.
Context (w : World) (Hok : tree_ok w).

Lemma tree_normal_below p : p ≠ [] → normal_below w p.
Proof. intros Hp r Hr. apply (rooted_rest p); [by apply (tk_rooted _ Hok)|done]. Qed.

Lemma dir_ancestors p d : dir_at w p → d ∈ ancestors p → dir_at w d.
Proof.
  intros Hp Hd. assert (Hr := tk_rooted _ Hok _ (dir_at_Some _ _ Hp)).
  apply elem_of_ancestors in Hd as [[k ->] Hne]; [|done].
  induction k as [|c k IH] using rev_ind; [by rewrite app_nil_r in Hp|].
  rewrite app_assoc in Hr, Hp. destruct (rooted_cases _ Hr) as [Heq|(q & s & Heq & Hq & _)].
  - destruct d as [|x [|y d]], k; try done; simpl in Heq; injection Heq as ->; by destruct d.
  - apply app_inj_tail in Heq as [<- ->]. apply IH; [|done].
    apply (tk_parent _ Hok _ s). by apply dir_at_Some.
Qed.

(** What is below something is below a directory. *)
Lemma below_dir p r c :
  p ≠ [] → is_Some (files w !! (p ++ r ++ [c])) → dir_at w p.
Proof.
  intros Hp Hs. assert (Hr := tk_rooted _ Hok _ Hs). rewrite app_assoc in Hs, Hr.
  destruct (rooted_cases _ Hr) as [Heq|(q & s & [<- ->]%app_inj_tail & Hq & _)].
  - destruct p as [|x p]; [done|]. destruct p, r; done.
  - apply (dir_ancestors (p ++ r)); [by apply (tk_parent _ Hok _ s)|].
    apply elem_of_ancestors; [done|]. split; [by exists r|done].
Qed.

Lemma none_below_iff p : p ≠ [] → files w !! p = None → none_below w p.
Proof.
  intros Hp Hn r. apply eq_None_not_Some. intros Hs.
  destruct r as [|c r _] using rev_ind; [rewrite app_nil_r in Hs; rewrite Hn in Hs; by destruct Hs|].
  apply below_dir, dir_at_Some in Hs; [|done]. rewrite Hn in Hs. by destruct Hs.
Qed.

Lemma spot_at p s : dir_at w p → spot_of w (p ++ [Normal s]) = spot_entry (files w !! (p ++ [Normal s])).
Proof. intros Hp. apply spot_below. intros d. by apply dir_ancestors. Qed.

Lemma spot_reached p :
  rooted p → (∀ f, spot_of w p ≠ Spot_Blocked f) →
  ∃ q s, p = q ++ [Normal s] ∧ s ≠ "" ∧ dir_at w q ∧ spot_of w p = spot_entry (files w !! p).
Proof.
  intros Hr Hnb. destruct (rooted_cases _ Hr) as [->|(q & s & -> & Hq & Hs)].
  { by destruct (Hnb _ eq_refl). }
  exists q, s. assert (Hd : dir_at w q).
  { unfold spot_of in Hnb. rewrite parent_snoc in Hnb.
    destruct (parent_is_dir w (q ++ [Normal s])) as [[]|e] eqn:He; [|by destruct (Hnb e)].
    unfold parent_is_dir in He. rewrite dirs_down_Ok in He. apply He.
    rewrite above_snoc, elem_of_reverse. apply elem_of_ancestors; [done|]. split; [done|].
    by destruct q. }
  split; [done|]. split; [done|]. split; [done|]. by apply spot_at.
Qed.

(** A path that is not absolute and normal is never found. *)
Lemma spot_present p n :
  spot_of w p = Spot_Present n →
  ∃ q s e, p = q ++ [Normal s] ∧ s ≠ "" ∧ dir_at w q ∧ files w !! p = Some e ∧
    spot_entry (Some e) = Spot_Present n.
Proof.
  intros Hs. assert (Hr : rooted p).
  { apply (tk_rooted _ Hok). unfold spot_of in Hs. destruct (parent p); [|done].
    destruct (parent_is_dir w p); [|done]. by destruct (files w !! p). }
  destruct (spot_reached _ Hr) as (q & s & -> & Hne & Hd & Heq); [by rewrite Hs|].
  exists q, s. rewrite Heq in Hs. destruct (files w !! _) as [e|] eqn:He; [|done]. by exists e.
Qed.

Lemma spot_missing p :
  rooted p → spot_of w p = Spot_Missing →
  ∃ q s, p = q ++ [Normal s] ∧ s ≠ "" ∧ dir_at w q ∧ files w !! p = None.
Proof.
  intros Hr Hs. destruct (spot_reached _ Hr) as (q & s & -> & Hne & Hd & Heq); [by rewrite Hs|].
  exists q, s. rewrite Heq in Hs. by destruct (files w !! _).
Qed.
End tree.

Lemma has_children_below w p :
  has_children w p = true → ∃ r, r ≠ [] ∧ is_Some (files w !! (p ++ r)).
Proof.
  unfold has_children. destruct (range w p !! 1%nat) as [q|] eqn:Hq; [|done].
  intros [r ->]%under_prefix. exists r. assert (Hin := list_elem_of_lookup_2 _ _ _ Hq).
  apply elem_of_range in Hin as [Hs _]. split; [|done]. intros ->. rewrite app_nil_r in *.
  assert (Hsort := range_sorted w p). assert (Hnd : NoDup (range w p)) by apply NoDup_filter, NoDup_keys.
  assert (Hle : ∀ x, x ∈ range w p → path_le p x) by by intros x [_ ?]%elem_of_range.
  destruct (range w p) as [|x [|y l]]; try done. injection Hq as ->.
  apply StronglySorted_inv in Hsort as [_ [Hxp _]%Forall_cons].
  apply NoDup_cons in Hnd as [Hn _]. apply Hn.
  assert (x = p) as ->; [|left]. apply (anti_symm path_le); [done|]. apply Hle. left.
Qed.

(** ** Changes that keep a tree well-formed *)

Definition content_at (w : World) (p : path) : option Content := fe_content <$> files w !! p.

Lemma content_at_Some w p : is_Some (content_at w p) ↔ is_Some (files w !! p).
Proof. apply fmap_is_Some. Qed.

Lemma tree_ok_content w :
  tree_ok w ↔ (∀ p, is_Some (content_at w p) → rooted p) ∧
    ∀ p s, is_Some (content_at w (p ++ [Normal s])) → content_at w p = Some Content_Directory.
Proof.
  setoid_rewrite content_at_Some. split; [by intros []|by intros []].
Qed.

(** A new entry in a directory. *)
Lemma tree_ok_insert w w' q s c :
  tree_ok w → dir_at w q → s ≠ "" → content_at w (q ++ [Normal s]) = None →
  content_at w' (q ++ [Normal s]) = Some c →
  (∀ p, p ≠ q ++ [Normal s] → content_at w' p = content_at w p) → tree_ok w'.
Proof.
  intros [Hr Hp]%tree_ok_content Hq Hs Hnone Hc Hsame. apply tree_ok_content. split.
  - intros p Hin. destruct (decide (p = q ++ [Normal s])) as [->|Hne].
    + apply rooted_snoc. split; [|done]. by apply Hr; eexists.
    + rewrite Hsame in Hin by done. by apply Hr.
  - intros p t Hin. assert (Hq' : content_at w p = Some Content_Directory).
    { destruct (decide (p ++ [Normal t] = q ++ [Normal s])) as [[-> _]%app_inj_tail|Hne]; [done|].
      rewrite Hsame in Hin by done. by eapply Hp. }
    rewrite Hsame; [done|]. intros ->. congruence.
Qed.

(** A tree copied to a new place in a directory. *)
Lemma tree_ok_copy w w' p q s :
  tree_ok w → dir_at w q → s ≠ "" → p ≠ [] →
  (∀ r, content_at w' (q ++ [Normal s] ++ r) = content_at w (p ++ r)) →
  (∀ x, (∀ r, x ≠ q ++ [Normal s] ++ r) → content_at w' x = content_at w x) → tree_ok w'.
Proof.
  intros [Hr Hp]%tree_ok_content Hq Hs Hpne Hto Hsame.
  assert (Hqr : rooted q) by by apply Hr; eexists.
  apply tree_ok_content. split.
  - intros x Hin. destruct (decide (q ++ [Normal s] `prefix_of` x)) as [[r ->]|Hx].
    + rewrite <- (assoc_L (++)), Hto in Hin. apply rooted_app; [by apply rooted_snoc|].
      apply (rooted_rest p); [by apply Hr|done].
    + rewrite Hsame in Hin; [by apply Hr|]. intros r ->. apply Hx. exists r. by rewrite <- (assoc_L (++)).
  - intros x t Hin. destruct (decide (q ++ [Normal s] `prefix_of` x)) as [[r ->]|Hx].
    + rewrite <- !(assoc_L (++)), Hto in *. rewrite assoc_L in Hin by apply _. eauto.
    + assert (Hx' : ∀ r, x ≠ q ++ [Normal s] ++ r).
      { intros r ->. apply Hx. exists r. by rewrite <- (assoc_L (++)). }
      rewrite Hsame by done.
      destruct (decide (q ++ [Normal s] `prefix_of` x ++ [Normal t])) as [[r Heq]|Hxt].
      * destruct r as [|c r _] using rev_ind.
        { rewrite app_nil_r in Heq. by apply app_inj_tail in Heq as [-> _]. }
        rewrite app_assoc in Heq. apply app_inj_tail in Heq as [-> _]. destruct Hx. by exists r.
      * rewrite Hsame in Hin; [by eapply Hp|]. intros r Heq. apply Hxt. exists r.
        by rewrite <- (assoc_L (++)).
Qed.

(** A tree that is gone. *)
Lemma tree_ok_remove w w' p :
  tree_ok w → p ≠ [] → (∀ r, content_at w' (p ++ r) = None) →
  (∀ x, (∀ r, x ≠ p ++ r) → content_at w' x = content_at w x) → tree_ok w'.
Proof.
  intros [Hr Hp]%tree_ok_content Hpne Hgone Hsame.
  assert (Hin : ∀ x, is_Some (content_at w' x) → ∀ r, x ≠ p ++ r).
  { intros x [c Hx] r ->. rewrite Hgone in Hx. done. }
  apply tree_ok_content. split.
  - intros x Hx. assert (Hout := Hin _ Hx). rewrite Hsame in Hx by done. by apply Hr.
  - intros x t Hx. assert (Hout := Hin _ Hx). rewrite Hsame in Hx by done. apply Hp in Hx.
    rewrite Hsame; [done|]. intros r ->. apply (Hout (r ++ [Normal t])). by rewrite <- (assoc_L (++)).
Qed.

Lemma tree_ok_same w w' : files w' = files w → tree_ok w → tree_ok w'.
Proof. intros Hf [Hr Hp]. split; unfold dir_at in *; rewrite Hf; done. Qed.

(** A tree that moved to a new place in a directory. *)
Lemma tree_ok_move w w' p q s :
  tree_ok w → dir_at w q → s ≠ "" → p ≠ [] → apart p (q ++ [Normal s]) →
  none_below w (q ++ [Normal s]) →
  (∀ r, content_at w' (p ++ r) = None) →
  (∀ r, content_at w' (q ++ [Normal s] ++ r) = content_at w (p ++ r)) →
  (∀ x, (∀ r, x ≠ p ++ r) → (∀ r, x ≠ q ++ [Normal s] ++ r) → content_at w' x = content_at w x) →
  tree_ok w'.
Proof.
  intros Ht Hq Hs Hp Ha Hnone Hgone Hto Hsame.
  set (mid := set_files (files w' ∪ files w) w).
  assert (Hmid : ∀ x, content_at mid x = content_at w' x ∪ content_at w x).
  { intros x. unfold content_at. simpl. rewrite lookup_union.
    by destruct (files w' !! x), (files w !! x). }
  assert (Hw : ∀ r, content_at w (q ++ [Normal s] ++ r) = None).
  { intros r. unfold content_at. rewrite (assoc_L (++)). by rewrite Hnone. }
  assert (Hok : tree_ok mid).
  { apply (tree_ok_copy w mid p q s); [done..| |].
    - intros r. rewrite Hmid, Hto, Hw. by destruct (content_at w (p ++ r)).
    - intros x Hx. rewrite Hmid. destruct (decide (p `prefix_of` x)) as [[r ->]|Hpx].
      + rewrite Hgone. by destruct (content_at w (p ++ r)).
      + rewrite Hsame; [by destruct (content_at w x)|intros r ->; apply Hpx; by exists r|done]. }
  apply (tree_ok_remove mid w' p); [done|done|done|].
  intros x Hx. rewrite Hmid. destruct (decide (q ++ [Normal s] `prefix_of` x)) as [[r ->]|Hqx].
  - rewrite <- (assoc_L (++)), Hto, Hw. by destruct (content_at w (p ++ r)).
  - rewrite Hsame; [by destruct (content_at w x)|done|]. intros r ->. apply Hqx. exists r.
    by rewrite <- (assoc_L (++)).
Qed.
