(* ===== verification/WorldNames.v ===== *)
(** * The names of what goes aside

    [sibling] of [crates/core/src/model/mod.rs] names what an action puts aside; later runs
    find it by its name ([is_leftover] of [crates/core/src/declared/paths.rs]).  The names of
    one request are all different. *)
From S2P Require Import Prelude.
From S2P Require Import Paths.
From S2P Require Import Effect.
From S2P Require Import Precondition.
From S2P Require Import World.
From S2P Require Import WorldFiles.

Local Open Scope N_scope.

(** ** Strings *)

Definition no_char (c : ascii) (s : string) : Prop := c ∉ String.list_ascii_of_string s.

Lemma char_in c s t : ¬ no_char c (s +:+ String c t).
Proof. unfold no_char. rewrite list_app_string. simpl. intros Hn. apply Hn, elem_of_app. right. left. Qed.

(** What follows the last [c]. *)
Lemma after_last (c : ascii) s1 s2 t1 t2 :
  no_char c t1 → no_char c t2 → s1 +:+ String c t1 = s2 +:+ String c t2 → t1 = t2.
Proof.
  revert s2. induction s1 as [|a s1 IH]; intros [|b s2] H1 H2;
    rewrite ?app_cons_string, ?app_empty_string; intros Heq.
  - by injection Heq.
  - injection Heq as -> Heq. subst t1. by apply char_in in H1.
  - injection Heq as -> Heq. subst t2. by apply char_in in H2.
  - injection Heq as -> Heq. by eapply IH.
Qed.

Lemma no_dash_go x s : no_char "-" s → no_char "-" (pretty_N_go x s).
Proof.
  revert s. induction (N.lt_wf_0 x) as [x _ IH]; intros s Hs.
  assert (x = 0 ∨ 0 < x) as [->|Hx] by lia; [by rewrite pretty_N_go_0|].
  rewrite pretty_N_go_step by done. apply IH; [by apply N.div_lt|].
  unfold no_char in *. simpl. intros [Heq|?]%elem_of_cons; [|done].
  unfold pretty_N_char in Heq. by repeat case_match.
Qed.

Lemma no_dash_digits n : no_char "-" (digits n).
Proof.
  unfold digits, pretty, pretty_N. destruct (decide (n = 0)).
  - unfold no_char. simpl. intros Hin. by apply list_elem_of_singleton in Hin.
  - apply no_dash_go. unfold no_char. simpl. apply not_elem_of_nil.
Qed.

Lemma sibling_name_inj base1 purpose1 acting1 n1 base2 purpose2 acting2 n2 :
  sibling_name base1 purpose1 acting1 n1 = sibling_name base2 purpose2 acting2 n2 → n1 = n2.
Proof.
  assert (Hs : ∀ base purpose acting n, sibling_name base purpose acting n =
    ("." +:+ base +:+ ".mix-" +:+ purpose +:+ "-" +:+ acting) +:+ String "-" (digits n)).
  { intros. unfold sibling_name. by rewrite !app_assoc_string. }
  rewrite !Hs. intros Heq%after_last; [|apply no_dash_digits..]. by apply (inj pretty) in Heq.
Qed.

(** *** What is put aside is recognised *)

Lemma tails_after_here marker s tail :
  strip_prefix marker s = Some tail → tail ∈ tails_after marker false s.
Proof.
  unfold strip_prefix. destruct (starts_with marker s) eqn:Hs; [|done]. intros [= <-].
  destruct s; simpl; rewrite Hs; left.
Qed.

Lemma tails_after_in marker first base tail :
  base ≠ "" ∨ first = false → tail ∈ tails_after marker first (base +:+ marker +:+ tail).
Proof.
  intros Hb. revert first Hb. induction base as [|a base IH]; intros first Hb.
  - destruct Hb as [Hb| ->]; [done|]. rewrite app_empty_string.
    by apply tails_after_here, strip_prefix_app.
  - rewrite app_cons_string. simpl. apply elem_of_app. right. apply IH. by right.
Qed.

Lemma sibling_is_leftover base purpose acting n :
  base ≠ "" → purpose ∈ LEFTOVER_PURPOSES → is_leftover (sibling_name base purpose acting n) = true.
Proof.
  intros Hb Hp. unfold is_leftover, sibling_name. rewrite strip_prefix_app.
  apply existsb_exists. exists (purpose +:+ "-" +:+ acting +:+ "-" +:+ digits n). split.
  { apply list_elem_of_In, tails_after_in. by left. }
  apply existsb_exists. exists purpose. split; [by apply list_elem_of_In|].
  rewrite strip_prefix_app, !app_cons_string, !app_empty_string.
  apply andb_true_intro. split; [exact (prefix_app "-" _)|]. apply Nat.ltb_lt. simpl.
  rewrite length_app_string. simpl. lia.
Qed.

(** ** Names that are still free *)

(** A name no later [sibling] of this request makes. *)
Definition unused (w : World) (s : string) : Prop :=
  ∀ base purpose n, base ≠ "" → purpose ∈ LEFTOVER_PURPOSES → next_ino w ≤ n →
    s ≠ sibling_name base purpose (acting_for w) n.

Definition known (w : World) (s : string) : Prop :=
  ∃ p, is_Some (files w !! p) ∧ file_name p = Some s.

Record names_ok (w : World) : Prop := {
  nm_files s : known w s → unused w s;
  nm_pending r p s : p ∈ pending_in w r → file_name p = Some s → unused w s;
  nm_aside p s : is_Some (aside_profiles w !! p) → file_name p = Some s → unused w s;
}.

Lemma unused_plain w s : is_leftover s = false → unused w s.
Proof. intros Hs base purpose n Hb Hp _ ->. by rewrite sibling_is_leftover in Hs. Qed.

Lemma unused_sibling w base purpose acting n :
  n < next_ino w → unused w (sibling_name base purpose acting n).
Proof. intros Hn base' purpose' n' _ _ Hle ->%sibling_name_inj. lia. Qed.

Lemma unused_later w w' s :
  acting_for w' = acting_for w → next_ino w <= next_ino w' → unused w s → unused w' s.
Proof. intros Ha Hn Hu base purpose n Hb Hp Hle. rewrite Ha. apply Hu; [done|done|lia]. Qed.

Lemma known_app w p q s :
  is_Some (files w !! (p ++ q ++ [Normal s])) → known w s.
Proof. intros Hs. eexists. split; [exact Hs|]. rewrite app_assoc. apply file_name_snoc. Qed.

(** What keeps the names ok: those a step adds are free of later siblings. *)
Lemma names_ok_grow w w' :
  names_ok w → acting_for w' = acting_for w → next_ino w <= next_ino w' →
  (∀ s, known w' s → known w s ∨ unused w' s) →
  (∀ r p s, p ∈ pending_in w' r → file_name p = Some s →
     (∃ r', p ∈ pending_in w r') ∨ known w s ∨ unused w' s) →
  (∀ p s, is_Some (aside_profiles w' !! p) → file_name p = Some s →
     is_Some (aside_profiles w !! p) ∨ unused w' s) →
  names_ok w'.
Proof.
  intros [Hf Hp Ha] Hact Hle Hf' Hp' Ha'. split.
  - intros s [Hs|?]%Hf'; [|done]. by apply (unused_later w), Hf.
  - intros r p s Hin Hs. destruct (Hp' _ _ _ Hin Hs) as [[r' Hr]|[Hk|?]]; [| |done].
    + by eapply (unused_later w), Hp.
    + by apply (unused_later w), Hf.
  - intros p s Hin Hs. destruct (Ha' _ _ Hin Hs) as [?|?]; [|done]. by eapply (unused_later w), Ha.
Qed.

Lemma segment_sibling base purpose acting n :
  segment (sibling_name base purpose acting n) = [Normal (sibling_name base purpose acting n)].
Proof.
  assert (Hlen : (5 < String.length (sibling_name base purpose acting n))%nat).
  { unfold sibling_name. rewrite !length_app_string. simpl. lia. }
  unfold segment. rewrite !decide_False; [done|..];
    intros Heq; rewrite Heq in Hlen; simpl in Hlen; lia.
Qed.

Lemma sibling_of_snoc q b purpose acting n :
  sibling_of (q ++ [Normal b]) purpose acting n = q ++ [Normal (sibling_name b purpose acting n)].
Proof.
  unfold sibling_of, with_file_name. rewrite !file_name_snoc. simpl. rewrite segment_sibling.
  rewrite length_app. simpl. by rewrite take_app_le, take_ge by lia.
Qed.

(** A sibling of something that is there is a new place. *)
Lemma sibling_free w q b purpose n :
  tree_ok w → names_ok w → is_Some (files w !! (q ++ [Normal b])) → purpose ∈ LEFTOVER_PURPOSES →
  next_ino w <= n →
  let aside := sibling_of (q ++ [Normal b]) purpose (acting_for w) n in
  apart (q ++ [Normal b]) aside ∧ none_below w aside ∧ (∀ r, aside ∉ pending_in w r) ∧
  aside_profiles w !! aside = None.
Proof.
  intros Ht Hn Hs Hp Hle. simpl. rewrite sibling_of_snoc.
  assert (Hb : b ≠ "") by apply (proj1 (rooted_snoc q b)), (tk_rooted _ Ht), Hs.
  set (name := sibling_name b purpose (acting_for w) n).
  assert (Hno : ¬ unused w name) by (intros Hu; by apply (Hu b purpose n)).
  split; [|split; [|split]].
  - apply apart_siblings. intros Heq. apply Hno. rewrite <- Heq. apply (nm_files _ Hn).
    exists (q ++ [Normal b]). split; [done|apply file_name_snoc].
  - apply none_below_iff; [done|by destruct q|]. apply eq_None_not_Some. intros Hk.
    apply Hno, (nm_files _ Hn). eexists. split; [exact Hk|apply file_name_snoc].
  - intros r Hin. apply Hno. eapply (nm_pending _ Hn); [exact Hin|apply file_name_snoc].
  - apply eq_None_not_Some. intros Hk. apply Hno.
    eapply (nm_aside _ Hn); [exact Hk|apply file_name_snoc].
Qed.

(**  What is put aside is recognised.  The path [sibling] makes for a backup, for what
    is set aside and for what is staged stays in its directory, and [is_leftover] knows
    its name. *)
Theorem put_aside_recognised q b purpose w p w' :
  b ≠ "" → purpose ∈ LEFTOVER_PURPOSES → sibling (q ++ [Normal b]) purpose w = (Ok p, w') →
  parent p = Some q ∧ ∃ s, file_name p = Some s ∧ is_leftover s = true.
Proof.
  intros Hb Hp. unfold sibling, mbind, st_bind, fresh, gets. intros [= <- _].
  rewrite sibling_of_snoc, parent_snoc, file_name_snoc. split; [done|]. eexists. split; [done|].
  by apply sibling_is_leftover.
Qed.

Lemma put_aside_recognised_witness :
  let p := of_string "/etc/nix/.nix.conf.mix-backup-model-9" in
  ∃ w', sibling (of_string "/etc/nix/nix.conf") "backup" default_world = (Ok p, w') ∧
    parent p = Some (of_string "/etc/nix") ∧ ∃ s, file_name p = Some s ∧ is_leftover s = true.
Proof.
  intros p. exists (set_next_ino 10 default_world).
  assert (Hs : sibling (of_string "/etc/nix/nix.conf") "backup" default_world =
    (Ok p, set_next_ino 10 default_world)) by (vm_compute; reflexivity).
  split; [exact Hs|].
  apply (put_aside_recognised (of_string "/etc/nix") "nix.conf" "backup" default_world p
    (set_next_ino 10 default_world)); [discriminate|left|exact Hs].
Defined.
