(* ===== verification/WorldFrame.v ===== *)
(** * What an action never touches

    Whatever [World::apply] is asked to do, and whether or not it succeeds, the journals
    and logs of the modelled world, the locks that are held, who it acts for and runs as,
    and what is noted of a profile's clobbered and linked files stay as they are
    ([framed]), and its counter never goes back.  Nor does an undo ever ask to commit. *)
From S2P Require Import Prelude.
From S2P Require Import Paths.
From S2P Require Import Effect.
From S2P Require Import Journal.
From S2P Require Import Precondition.
From S2P Require Import Accounts.
From S2P Require Import World.
From S2P Require Import Repository.
From S2P Require Import Apply.
From S2P Require Import WorldAccounts.

Local Open Scope N_scope.

Record framed (w w' : World) : Prop := {
  fr_journals : journals w' = journals w;
  fr_logs : logs w' = logs w;
  fr_held : held w' = held w;
  fr_acting : acting_for w' = acting_for w;
  fr_runs : runs_as w' = runs_as w;
  fr_clobbered : clobbered w' = clobbered w;
  fr_linked : linked w' = linked w;
  fr_next : next_ino w <= next_ino w';
}.

#[export] Instance framed_preorder : PreOrder framed.
Proof.
  split.
  - intros w. split; done.
  - intros w1 w2 w3 [] []. split; solve [by etrans|lia].
Qed.

(** A step that stays within the frame. *)
Definition keeps {X} (m : St X) : Prop := ∀ w, framed w (m w).2.

Create HintDb frame.

Ltac same_frame := intros; split; simpl; (reflexivity || lia).

Lemma keeps_ret {X} (x : X) : keeps (mret x).
Proof. by intros w. Qed.

Lemma keeps_bind {X Y} (m : St X) (f : X → St Y) : keeps m → (∀ x, keeps (f x)) → keeps (x ← m; f x).
Proof.
  intros Hm Hf w. unfold mbind, st_bind. specialize (Hm w). destruct (m w) as [[x|e] w']; [|done].
  transitivity w'; [exact Hm|apply Hf].
Qed.

Lemma keeps_gets {X} (f : World → X) : keeps (gets f).
Proof. by intros w. Qed.

Lemma keeps_fails {X} e : keeps (@fails X e).
Proof. by intros w. Qed.

Lemma keeps_attempt {X} r : keeps (@attempt X r).
Proof. by intros w. Qed.

Lemma keeps_modify f : (∀ w, framed w (f w)) → keeps (modify f).
Proof. intros Hf w. apply Hf. Qed.

Lemma keeps_passing {X} (m : St X) : keeps m → keeps (passing m).
Proof. intros Hm w. unfold passing. specialize (Hm w). by destruct (m w). Qed.

Lemma keeps_each {X} (f : X → St unit) l : (∀ x, keeps (f x)) → keeps (each f l).
Proof.
  intros Hf. induction l as [|x l IH]; [apply keeps_ret|]. by apply keeps_bind.
Qed.

Lemma framed_foldl {X} (f : World → X → World) l w :
  (∀ w x, framed w (f w x)) → framed w (foldl f w l).
Proof.
  intros Hf. revert w. induction l as [|x l IH]; intros w; simpl; [reflexivity|]. transitivity (f w x); [apply Hf|apply IH].
Qed.

#[export] Hint Resolve keeps_ret keeps_gets keeps_fails keeps_attempt keeps_passing : frame.

(** A step of several: binds, choices, and what the hints know. *)
Ltac frame :=
  repeat first
    [ solve [auto with frame]
    | apply keeps_bind; intros
    | apply keeps_each; intros
    | apply keeps_modify; solve [auto with frame | same_frame]
    | case_match ].

(** ** Its parts *)

Lemma keeps_fresh_id : keeps fresh.
Proof. intros w. split; simpl; (reflexivity || lia). Qed.
#[export] Hint Resolve keeps_fresh_id : frame.

Lemma framed_insert p c m o i w : framed w (insert_entry p c m o i w).
Proof. same_frame. Qed.
Lemma framed_move_tree p q w : framed w (move_tree p q w).
Proof. same_frame. Qed.
Lemma framed_remove_tree p w : framed w (remove_tree p w).
Proof. same_frame. Qed.
Lemma framed_pend p w : framed w (pend p w).
Proof. same_frame. Qed.
Lemma framed_unpend p w : framed w (unpend p w).
Proof. same_frame. Qed.
Lemma framed_set_unit n u w : framed w (set_unit n u w).
Proof. same_frame. Qed.
Lemma framed_set_profile n p w : framed w (set_profile n p w).
Proof. same_frame. Qed.
#[export] Hint Resolve framed_insert framed_move_tree framed_remove_tree framed_pend framed_unpend
  framed_set_unit framed_set_profile : frame.

Lemma framed_reload w : framed w (reload w).
Proof. apply framed_foldl. intros w' n. apply framed_set_unit. Qed.

Lemma framed_aside_profile p q w : framed w (aside_profile p q w).
Proof. unfold aside_profile. repeat case_match; by (reflexivity || same_frame). Qed.

Lemma framed_restore_profile p w : framed w (restore_profile p w).
Proof. unfold restore_profile. repeat case_match; by (reflexivity || same_frame). Qed.

Lemma framed_unlink w l : framed w (unlink w l).
Proof. unfold unlink. repeat case_match; by (reflexivity || same_frame). Qed.

Lemma framed_accounts w a : framed w (change_accounts w a).
Proof. destruct a; by (reflexivity || same_frame). Qed.

Lemma framed_drop_pending w p : framed w (drop_pending w p).
Proof. same_frame. Qed.
#[export] Hint Resolve framed_reload framed_aside_profile framed_restore_profile framed_unlink
  framed_accounts framed_drop_pending : frame.

Lemma keeps_sibling p purpose : keeps (sibling p purpose).
Proof. unfold sibling. frame. Qed.

Lemma keeps_require a : keeps (require a).
Proof. by intros w. Qed.

Lemma keeps_change_entry f p : keeps (change_entry f p).
Proof. intros w. unfold change_entry. destruct (files w !! p); [same_frame|done]. Qed.

Lemma keeps_with_dir p m o : keeps (with_dir p m o).
Proof. unfold with_dir. frame. Qed.

Lemma keeps_with_file p c m o : keeps (with_file p c m o).
Proof. unfold with_file. frame. Qed.

Lemma keeps_loaded_unit n op : keeps (loaded_unit n op).
Proof. unfold loaded_unit. frame. Qed.

Lemma keeps_insert_new p c m o : keeps (insert_new p c m o).
Proof. unfold insert_new. frame. Qed.
#[export] Hint Resolve keeps_sibling keeps_require keeps_change_entry keeps_with_dir keeps_with_file
  keeps_loaded_unit keeps_insert_new : frame.

Lemma keeps_put p c m o x : keeps (put p c m o x).
Proof. unfold put. frame. Qed.

Lemma keeps_make_dirs p m o l t : keeps (make_dirs p m o l t).
Proof. revert t. induction l as [|d l IH]; intros t; simpl; frame. Qed.

Lemma keeps_insert_copy p l t : keeps (insert_copy p l t).
Proof. revert t. induction l as [|[q e] l IH]; intros t; simpl; frame. Qed.

Lemma keeps_with_wants_dir l : keeps (with_wants_dir l).
Proof. unfold with_wants_dir. frame. Qed.

Lemma keeps_write_object p b o : keeps (write_object p b o).
Proof. unfold write_object. frame. Qed.

Lemma keeps_write_ref p b o : keeps (write_ref p b o).
Proof. unfold write_ref. frame. Qed.

Lemma keeps_make_dir p o : keeps (make_dir p o).
Proof. unfold make_dir. frame. Qed.
#[export] Hint Resolve keeps_put keeps_make_dirs keeps_insert_copy keeps_with_wants_dir
  keeps_write_object keeps_write_ref keeps_make_dir : frame.

Lemma keeps_init_repository user : keeps (init_repository user).
Proof. unfold init_repository. frame. Qed.

Lemma keeps_record_commit user s h : keeps (record_commit user s h).
Proof. unfold record_commit. frame. Qed.
#[export] Hint Resolve keeps_init_repository keeps_record_commit : frame.

Lemma keeps_sync_repository user : keeps (sync_repository user).
Proof. unfold sync_repository. frame. Qed.

Lemma keeps_install_file c f : keeps (install_file c f).
Proof. unfold install_file. frame. Qed.
#[export] Hint Resolve keeps_sync_repository keeps_install_file : frame.

Lemma keeps_install_files c l : keeps (install_files c l).
Proof. revert c. induction l as [|f l IH]; intros c; simpl; frame. Qed.
#[export] Hint Resolve keeps_install_files : frame.

Lemma keeps_settled_or a f : (∀ v u, keeps (f v u)) → keeps (settled_or a f).
Proof. intros Hf. unfold settled_or. frame; apply Hf. Qed.

Lemma keeps_put_file p c m o x : keeps (put_file p c m o x).
Proof. unfold put_file. apply keeps_settled_or. frame. Qed.
#[export] Hint Resolve keeps_put_file : frame.

Lemma keeps_record_state user : keeps (record_state put_file user).
Proof.
  unfold record_state, own_config. frame. apply keeps_passing. frame.
Qed.

Lemma keeps_create_repository user : keeps (create_repository user).
Proof.
  unfold create_repository. frame. intros w. assert (H' := keeps_init_repository user w).
  destruct (init_repository user w) as [[|e] w']; [done|]. etrans; [exact H'|]. same_frame.
Qed.
#[export] Hint Resolve keeps_record_state keeps_create_repository : frame.

(** ** The arms *)

Lemma keeps_arm a v u : keeps (arm a v u).
Proof.
  destruct a; cbn [arm];
    unfold create_dir, create_dirs, set_mode, set_owner, set_aside, discard, keep_path, remove_created,
      remove_created_tree, restore, reclaim_tree, copy_tree, install_unit, enable_unit, disable_unit,
      start_unit, stop_unit, restart_unit, drain_service, install_runtime, remove_runtime,
      activate_profile, delete_generation, switch_generation, commit_world; frame.
  - apply keeps_modify. intros w. apply framed_foldl. auto with frame.
  - apply keeps_modify. intros w. apply framed_foldl. auto with frame.
  - apply keeps_modify. intros w. transitivity (set_pending_of (delete (acting_for w) (pending_of w)) w);
      [same_frame|]. apply framed_foldl. auto with frame.
Qed.

Lemma apply_framed w a : framed w (apply a w).2.
Proof. unfold apply. apply keeps_settled_or. intros. apply keeps_arm. Qed.

(**  Whatever an action does or fails to do, it leaves alone what belongs to the
    requests themselves: their journals and logs, the locks that are held, who acts and
    who runs. *)
Theorem apply_frame w a :
  let w' := (apply a w).2 in
  journals w' = journals w ∧ logs w' = logs w ∧ held w' = held w ∧ acting_for w' = acting_for w ∧
  runs_as w' = runs_as w ∧ clobbered w' = clobbered w ∧ linked w' = linked w ∧ next_ino w <= next_ino w'.
Proof. by destruct (apply_framed w a). Qed.

(** ** What a step returns *)

Definition ensures {X} (P : X → Prop) (m : St X) : Prop :=
  ∀ w, match (m w).1 with Ok x => P x | Err _ => True end.

Lemma ensures_ret {X} (P : X → Prop) x : P x → ensures P (mret x).
Proof. by intros Hx w. Qed.

Lemma ensures_bind {X Y} (P : X → Prop) (Q : Y → Prop) (m : St X) f :
  ensures P m → (∀ x, P x → ensures Q (f x)) → ensures Q (x ← m; f x).
Proof.
  intros Hm Hf w. unfold mbind, st_bind. specialize (Hm w). destruct (m w) as [[x|e] w']; [|done].
  by apply Hf.
Qed.

(** A bind whose first part may return anything. *)
Lemma ensures_then {X Y} (Q : Y → Prop) (m : St X) f :
  (∀ x, ensures Q (f x)) → ensures Q (x ← m; f x).
Proof.
  intros Hf. apply (ensures_bind (λ _, True)); [|auto]. intros w. by destruct (m w) as [[]].
Qed.

Lemma ensures_fails {X} (P : X → Prop) e : ensures P (fails e).
Proof. by intros w. Qed.

Lemma ensures_attempt {X} (P : X → Prop) r : (∀ x, r = Ok x → P x) → ensures P (attempt r).
Proof. intros Hr w. simpl. destruct r; auto. Qed.

Ltac returned :=
  repeat first
    [ apply ensures_fails
    | apply ensures_then; intros
    | apply ensures_ret; solve [repeat constructor; done]
    | case_match ].

Lemma account_undo_on w a u b : account_undo w a = Ok u → b ∈ u → on_accounts b = true.
Proof.
  intros Hu Hb. destruct a; simpl in Hu;
    repeat match type of Hu with
    | (match ?x with _ => _ end) = _ => destruct x; try done
    | (?x ≫= _) = _ => destruct x; simpl in Hu; try done
    end;
    try (injection Hu as <-); try (by apply elem_of_nil in Hb);
    try (by apply list_elem_of_singleton in Hb as ->).
  apply elem_of_cons in Hb as [->|Hb]; [done|].
  by apply list_elem_of_fmap in Hb as (m & -> & _).
Qed.

Lemma accounted_undo w a u :
  account_precondition w a = Ok (Accounted_Go u) → Forall (λ b, on_accounts b = true) u.
Proof.
  unfold account_precondition. destruct (done_already w a); [done|].
  destruct (account_undo w a) as [u'|] eqn:Hu; simpl; [|done]. intros [= <-].
  apply Forall_forall. intros b. by eapply account_undo_on.
Qed.

(** An action's undo, from what its arm returns. *)
Lemma ensures_settled_or (Q : Action → Prop) a f :
  (∀ v u, Forall (λ b, on_accounts b = true) u → ensures (Forall Q) (f v u)) →
  ensures (Forall Q) (settled_or a f).
Proof.
  intros Hf. unfold settled_or. apply ensures_then. intros w. destruct (already w a); [by apply ensures_ret|].
  apply ensures_then. intros v. destruct v; [|by apply ensures_ret|];
    (apply (ensures_bind (λ r, match r with Accounted_Go u => Forall (λ b, on_accounts b = true) u | _ => True end));
      [apply ensures_attempt; intros [|u] Hu; [done|by eapply accounted_undo]|];
     intros [|u] Hu; [by apply ensures_ret|by apply Hf]).
Qed.

Lemma ensures_put (Q : Action → Prop) p c m o x :
  (∀ p i, Q (Action_RemoveCreated p i)) → (∀ p q x, Q (Action_Restore p q x)) →
  ensures (Forall Q) (put p c m o x).
Proof. intros H1 H2. unfold put. returned; apply ensures_ret; by repeat constructor. Qed.

(** *** No undo commits *)

#[local] Abbreviation uncommitted := (Forall (λ b, b ≠ Action_Commit)).

Lemma uncommitted_put p c m o x : ensures uncommitted (put p c m o x).
Proof. by apply ensures_put. Qed.

Lemma uncommitted_accounts u : Forall (λ b, on_accounts b = true) u → uncommitted u.
Proof. intros Hu. eapply Forall_impl; [exact Hu|]. by intros b Hb ->. Qed.

Lemma uncommitted_record_state user : ensures uncommitted (record_state put_file user).
Proof.
  unfold record_state. apply ensures_then. intros before.
  apply (ensures_bind (λ r, uncommitted (default [] r))).
  - assert (Hpass : ∀ m : St (list Action), ensures uncommitted m → ensures (λ r, uncommitted (default [] r)) (passing m)).
    { intros m Hm w. unfold passing. specialize (Hm w). destruct (m w) as [[]]; simpl in *; [done|constructor]. }
    case_match; apply Hpass.
    + unfold own_config. returned.
    + intros w. destruct (init_repository user w) as [[]]; simpl; [constructor|done].
  - intros r Hr. returned; apply ensures_ret; apply Forall_app_2; try done; by repeat constructor.
Qed.

Lemma uncommitted_create_repository user : ensures uncommitted (create_repository user).
Proof.
  unfold create_repository. apply ensures_then. intros w. case_match; [apply ensures_fails|].
  intros w'. destruct (init_repository user w') as [[|e] w1]; simpl; [|done]. case_match; by repeat constructor.
Qed.

Lemma uncommitted_install_unit n c x : ensures uncommitted (install_unit n c x).
Proof.
  unfold install_unit. apply (ensures_bind uncommitted); [apply uncommitted_put|]. intros u Hu.
  apply ensures_ret, Forall_app_2; [done|by repeat constructor].
Qed.

Lemma uncommitted_arm a v u : uncommitted u → ensures uncommitted (arm a v u).
Proof.
  intros Hu. destruct a; cbn [arm];
    try apply uncommitted_put; try apply uncommitted_record_state; try apply uncommitted_create_repository;
    try apply uncommitted_install_unit;
    unfold create_dir, create_dirs, set_mode, set_owner, set_aside, discard, keep_path, remove_created,
      remove_created_tree, restore, reclaim_tree, copy_tree, enable_unit, disable_unit,
      start_unit, stop_unit, restart_unit, drain_service, install_runtime, remove_runtime,
      activate_profile, delete_generation, switch_generation, commit_world; returned;
    by apply ensures_ret.
Qed.

Lemma undo_uncommitted w a u w' : apply a w = (Ok u, w') → Action_Commit ∉ u.
Proof.
  intros Ha. assert (H : ensures uncommitted (apply a)).
  { apply ensures_settled_or. intros v u' Hu. by apply uncommitted_arm, uncommitted_accounts. }
  specialize (H w). rewrite Ha in H. simpl in H. intros Hin. by eapply Forall_forall in H.
Qed.
