(* ===== verification/WorldUndo.v ===== *)
(** * Undoing what was done to the modelled world

    An action of [World::apply] and the undo it returns, one after the other, leave the
    world as it was, up to the counter that numbers inodes ([like]). *)
From S2P Require Import Prelude.
From S2P Require Import Paths.
From S2P Require Import Effect.
From S2P Require Import Journal.
From S2P Require Import Precondition.
From S2P Require Import Accounts.
From S2P Require Import World.
From S2P Require Import Repository.
From S2P Require Import Apply.
From S2P Require Import WorldAccounts.
From S2P Require Import WorldFrame.
From S2P Require Import WorldFiles.
From S2P Require Import WorldNames.

Local Open Scope N_scope.

(** ** Worlds that differ in their counter only *)

Record like (w w' : World) : Prop := {
  lk_files : files w = files w';
  lk_groups : groups w = groups w';
  lk_users : users w = users w';
  lk_units : units w = units w';
  lk_profiles : profiles w = profiles w';
  lk_aside : aside_profiles w = aside_profiles w';
  lk_journals : journals w = journals w';
  lk_logs : logs w = logs w';
  lk_held : held w = held w';
  lk_acting : acting_for w = acting_for w';
  lk_runs : runs_as w = runs_as w';
  lk_clobbered : clobbered w = clobbered w';
  lk_linked : linked w = linked w';
  lk_pending r : pending_in w r = pending_in w' r;
}.

#[export] Instance like_equivalence : Equivalence like.
Proof.
  split.
  - intros w. by split.
  - intros w w' []. by split.
  - intros w1 w2 w3 [] []. split; intros; etrans; eauto.
Qed.

Definition passes {V} (P : V → Prop) `{∀ v, Decision (P v)} (o : option V) : bool :=
  match o with Some v => bool_decide (P v) | None => false end.

Lemma passes_true {V} (P : V → Prop) `{∀ v, Decision (P v)} o :
  passes P o = true ↔ ∃ v, o = Some v ∧ P v.
Proof.
  destruct o as [v|]; simpl; [|by split; [|intros (v & ? & _)]].
  rewrite bool_decide_eq_true. split; [by exists v|]. by intros (? & [= <-] & ?).
Qed.

(** The order of the keys that are left when some are taken out. *)
Lemma sort_keys_filter {V} (P : V → Prop) `{∀ v, Decision (P v)} (m : gmap string V) :
  sort_strings ((map_to_list (filter (λ e, P e.2) m)).*1) =
  filter (λ k, passes P (m !! k) = true) (sort_strings ((map_to_list m).*1)).
Proof.
  apply sort_strings_unique; [apply sorted_filter, sort_strings_sorted|].
  apply NoDup_Permutation.
  - apply NoDup_filter. unfold sort_strings. rewrite merge_sort_Permutation. apply NoDup_fst_map_to_list.
  - apply NoDup_fst_map_to_list.
  - intros k. rewrite list_elem_of_filter, passes_true. unfold sort_strings. rewrite merge_sort_Permutation, !list_elem_of_fmap. split.
    + intros ((v & Hv & HP) & _). exists (k, v). split; [done|].
      by apply elem_of_map_to_list, map_lookup_filter_Some.
    + intros ([k' v] & -> & [Hv HP]%elem_of_map_to_list%map_lookup_filter_Some). split; [by exists v|].
      exists (k', v). by split; [|apply elem_of_map_to_list].
Qed.

(** Keys with no values do not show in the values in order. *)
Lemma in_order_concat {V} (m : gmap string (list V)) :
  concat ((in_order m).*2) = concat ((in_order (filter (λ e, e.2 ≠ []) m)).*2).
Proof.
  unfold in_order at 2. assert (Hs := sort_keys_filter (λ v : list V, v ≠ []) m). cbn beta in Hs.
  rewrite Hs. clear Hs. unfold in_order.
  induction (sort_strings _) as [|k l IH]; [done|].
  destruct (m !! k) as [v|] eqn:Hk; csimpl; rewrite Hk; csimpl.
  - rewrite IH. destruct v as [|x v].
    + rewrite filter_cons_False; [done|]. by rewrite Hk.
    + rewrite filter_cons_True by by rewrite Hk. simpl.
      assert (Hf : filter (λ e : string * list V, e.2 ≠ []) m !! k = Some (x :: v))
        by by apply map_lookup_filter_Some.
      by rewrite Hf.
  - rewrite filter_cons_False; [done|]. by rewrite Hk.
Qed.

Lemma pending_paths_like w w' : (∀ r, pending_in w r = pending_in w' r) → pending_paths w = pending_paths w'.
Proof.
  intros Hp. unfold pending_paths. rewrite (in_order_concat (pending_of w)), (in_order_concat (pending_of w')).
  do 3 f_equal. apply map_eq. intros r. assert (H := Hp r). unfold pending_in in H.
  rewrite !map_lookup_filter.
  destruct (pending_of w !! r) as [[|x l]|], (pending_of w' !! r) as [[|y k]|]; simpl in *; try done; by injection H as -> ->.
Qed.

Lemma like_world_eq w w' : like w w' → world_eq w w'.
Proof.
  intros []. unfold world_eq, comparable_files, meaningful_units.
  rewrite lk_files0, lk_units0. repeat split; try done. by apply pending_paths_like.
Qed.

(** ** Running actions *)

Fixpoint run_all (actions : list Action) : St unit :=
  match actions with [] => mret tt | action :: actions => _ ← apply action; run_all actions end.

Lemma run_all_app l k w w1 w2 :
  run_all l w = (Ok tt, w1) → run_all k w1 = (Ok tt, w2) → run_all (l ++ k) w = (Ok tt, w2).
Proof.
  revert w. induction l as [|a l IH]; intros w; simpl.
  - by intros [= ->].
  - unfold mbind, st_bind. destruct (apply a w) as [[u|e] w']; [apply IH|done].
Qed.

(** Running [u] on [w'] leads back to [w]. *)
Definition restores (w : World) (u : list Action) (w' : World) : Prop :=
  ∀ w2, like w2 w' → ∃ w3, run_all u w2 = (Ok tt, w3) ∧ like w3 w.

Lemma restores_nil w : restores w [] w.
Proof. intros w2 Hw2. by exists w2. Qed.

Lemma restores_app w u w1 u1 w2 : restores w u w1 → restores w1 u1 w2 → restores w (u1 ++ u) w2.
Proof.
  intros H1 H2 w3 (w4 & Hr & (w5 & Hr' & Hl)%H1)%H2. exists w5. split; [|done]. by eapply run_all_app.
Qed.

Lemma restores_one w a w' :
  (∀ w2, like w2 w' → ∃ u w3, apply a w2 = (Ok u, w3) ∧ like w3 w) → restores w [a] w'.
Proof.
  intros Ha w2 (u & w3 & Hap & Hl)%Ha. exists w3. split; [|done]. simpl. unfold mbind, st_bind.
  by rewrite Hap.
Qed.

(** ** What comes before the arm of an action *)

(** The actions on files with a precondition. *)
Definition on_files (a : Action) : bool :=
  match a with
  | Action_CreateDir _ _ _ | Action_CreateDirs _ _ _ | Action_SetMode _ _ _
  | Action_SetOwner _ _ _ | Action_SetAside _ _ | Action_Discard _ _ | Action_Keep _
  | Action_RemoveCreated _ _ | Action_RemoveCreatedTree _ _ | Action_Restore _ _ _
  | Action_ReclaimTree _ _ _ _ | Action_CopyTree _ _ _ _ => true
  | _ => false
  end.

Lemma apply_on_files a w :
  on_files a = true →
  apply a w = match (precondition w a []).1 with
              | Err e => (Err e, w)
              | Ok Verdict_Done => (Ok [], w)
              | Ok verdict => arm a verdict [] w
              end.
Proof.
  intros Ha. destruct a; try discriminate;
    cbv [apply settled_or require gets mbind st_bind id already];
    match goal with |- context [(precondition ?w ?a ?hs).1] => destruct (precondition w a hs).1 as [[]|] end;
    reflexivity.
Qed.

Lemma applied_on_files a w u w' :
  on_files a = true → apply a w = (Ok u, w') →
  (u = [] ∧ w' = w) ∨ ∃ v, (precondition w a []).1 = Ok v ∧ arm a v [] w = (Ok u, w').
Proof.
  intros Ha. rewrite apply_on_files by done.
  destruct (precondition w a []).1 as [v|]; [|done]. destruct v; [eauto| |eauto].
  intros [= <- <-]. by left.
Qed.

Lemma apply_put at_ contents mode owner expect w :
  apply (Action_PutFile at_ contents mode owner expect) w =
  put at_ contents mode (default ROOT owner) expect w.
Proof. reflexivity. Qed.

Lemma apply_on_accounts a w :
  on_accounts a = true →
  apply a w = match apply_account w a with
              | Ok (undo, w') => (Ok undo, w')
              | Err e => (Err e, w)
              end.
Proof.
  intros Ha. unfold apply_account.
  destruct a; try discriminate; cbv [apply settled_or gets mbind st_bind attempt id already];
    match goal with |- context [account_precondition ?w ?a] => change (require a w) with (@Ok Failure _ Verdict_Go, w) end;
    cbv [result_bind];
    match goal with |- context [account_precondition ?w ?a] => by destruct (account_precondition w a) as [[]|] end.
Qed.

(** ** Accounts *)

(** The groups and users of a world, alone. *)
Definition accounts_only (w : World) : World :=
  set_users (users w) (set_groups (groups w) empty_world).

Lemma account_precondition_only w a :
  account_precondition w a = account_precondition (accounts_only w) a.
Proof. destruct a; reflexivity. Qed.

Lemma change_accounts_only w a :
  change_accounts w a =
  set_users (users (change_accounts (accounts_only w) a))
    (set_groups (groups (change_accounts (accounts_only w) a)) w).
Proof. destruct a; destruct w; reflexivity. Qed.

Lemma accounts_only_like w w' : like w w' → accounts_only w = accounts_only w'.
Proof. intros Hl. unfold accounts_only. by rewrite (lk_groups _ _ Hl), (lk_users _ _ Hl). Qed.

Lemma apply_account_like w w' w2 a u :
  like w2 w → apply_account w a = Ok (u, w') →
  ∃ w3, apply_account w2 a = Ok (u, w3) ∧ like w3 w'.
Proof.
  intros Hl. unfold apply_account. rewrite (account_precondition_only w2), (account_precondition_only w).
  rewrite (accounts_only_like _ _ Hl).
  destruct (account_precondition (accounts_only w) a) as [[|undo]|]; simpl; [|  |done]; intros [= <- <-];
    eexists; (split; [reflexivity|done || idtac]).
  rewrite (change_accounts_only w2), (change_accounts_only w), (accounts_only_like _ _ Hl).
  destruct Hl. split; simpl; try done.
Qed.

Lemma run_all_accounts u w w' w2 :
  (∀ b, b ∈ u → on_accounts b = true) → apply_all w u = Ok w' → like w2 w →
  ∃ w3, run_all u w2 = (Ok tt, w3) ∧ like w3 w'.
Proof.
  revert w w2. induction u as [|a u IH]; intros w w2 Hon; simpl; [by intros [= ->]; exists w2|].
  intros ([u' w1] & Ha & Hr)%bind_Ok Hl. destruct (apply_account_like _ _ _ _ _ Hl Ha) as (w3 & Ha3 & Hl3).
  unfold mbind, st_bind. rewrite apply_on_accounts by (apply Hon; left). rewrite Ha3.
  eapply IH; [|exact Hr|exact Hl3]. intros b Hb. apply Hon. by right.
Qed.

(** Applying an action on accounts and its undo. *)
Lemma account_restores w a u w' :
  accounts_ok w → named_once a → on_accounts a = true → apply a w = (Ok u, w') →
  accounts_ok w' ∧ restores w u w'.
Proof.
  intros Hok Hn Hon. rewrite apply_on_accounts by done.
  destruct (apply_account w a) as [[u1 w1]|e] eqn:Ha; [|done]. intros [= <- <-].
  assert (H := account_change _ _ _ _ Hok Hn Hon Ha). destruct H as [Hok' Hback]. split; [done|].
  intros w2 Hl. apply (run_all_accounts u1 w1); [|done|done].
  intros b Hb. unfold apply_account, account_precondition in Ha.
  destruct (done_already w a); simpl in Ha; [injection Ha as <- <-; by apply elem_of_nil in Hb|].
  destruct (account_undo w a) as [u2|] eqn:Hu; simpl in Ha; [|done]. injection Ha as <- <-.
  by eapply account_undo_on.
Qed.

(** An action on accounts leaves the rest of the world as it was. *)
Lemma account_files w a u w' :
  on_accounts a = true → apply a w = (Ok u, w') →
  files w' = files w ∧ pending_of w' = pending_of w ∧ aside_profiles w' = aside_profiles w ∧
  acting_for w' = acting_for w ∧ next_ino w' = next_ino w.
Proof.
  intros Hon. rewrite apply_on_accounts by done. unfold apply_account.
  destruct (account_precondition w a) as [[|undo]|]; simpl; [| |done]; intros [= <- <-]; [done|].
  rewrite change_accounts_only. done.
Qed.

(** ** What the preconditions amount to *)

Section verdicts.
Variable w : World.

Lemma verdict_create_dir p mode owner :
  (precondition w (Action_CreateDir p mode owner) []).1 =
  ((λ _, Verdict_Go) <$> absent p (spot_of w p)).
Proof. cbv -[absent spot_of]. by destruct (absent p (spot_of w p)). Qed.

Lemma verdict_put p contents mode owner expect :
  (precondition w (Action_PutFile p contents mode owner expect) []).1 =
  ((λ _, Verdict_Go) <$> expected p expect (spot_of w p)).
Proof. cbv -[expected spot_of]. by destruct (expected p expect (spot_of w p)). Qed.

Lemma verdict_mode p mode expect :
  (precondition w (Action_SetMode p mode expect) []).1 =
  match node p (spot_of w p) with
  | Ok n =>
      if decide (nd_mode n = expect) then Ok Verdict_Go
      else Err (conflict p ("mode " +:+ octal expect) ("mode " +:+ octal (nd_mode n)))
  | Err e => Err e
  end.
Proof.
  unfold precondition, check, look_spot, try, mbind, look_bind, mret, look_ret. simpl.
  destruct (node p (spot_of w p)) as [n|]; [|done]. by destruct (decide _).
Qed.

Lemma verdict_owner p owner expect :
  (precondition w (Action_SetOwner p owner expect) []).1 =
  match node p (spot_of w p) with
  | Ok n =>
      if decide (nd_owner n = expect) then Ok Verdict_Go
      else Err (conflict p ("owner " +:+ ids expect) ("owner " +:+ ids (nd_owner n)))
  | Err e => Err e
  end.
Proof.
  unfold precondition, check, look_spot, try, mbind, look_bind, mret, look_ret. simpl.
  destruct (node p (spot_of w p)) as [n|]; [|done]. by destruct (decide _).
Qed.

Lemma verdict_aside p expect :
  (precondition w (Action_SetAside p expect) []).1 =
  ((λ _, Verdict_Go) <$> holding p expect (spot_of w p)).
Proof. cbv -[holding spot_of]. by destruct (holding p expect (spot_of w p)). Qed.

Lemma verdict_discard p expect :
  (precondition w (Action_Discard p expect) []).1 =
  ((λ _, Verdict_Go) <$> holding p expect (spot_of w p)).
Proof. cbv -[holding spot_of]. by destruct (holding p expect (spot_of w p)). Qed.

Lemma verdict_removed p expect :
  (precondition w (Action_RemoveCreated p expect) []).1 = removable p expect (spot_of w p).
Proof. reflexivity. Qed.

Lemma verdict_removed_tree p expect :
  (precondition w (Action_RemoveCreatedTree p expect) []).1 = removable p expect (spot_of w p).
Proof. reflexivity. Qed.

Lemma verdict_reclaim p expect owner mode v :
  (precondition w (Action_ReclaimTree p expect owner mode) []).1 = Ok v →
  v = Verdict_Go ∧ ∃ n, holding p expect (spot_of w p) = Ok n.
Proof.
  cbv -[holding spot_of running_as]. destruct (running_as _ _ _); [|done].
  destruct (holding p expect (spot_of w p)) as [n|]; [intros [= <-]; eauto|done].
Qed.

Lemma verdict_copy from to owner mode v :
  (precondition w (Action_CopyTree from to owner mode) []).1 = Ok v →
  v = Verdict_Go ∧ source from (spot_of w from) = Ok tt ∧ absent to (spot_of w to) = Ok tt.
Proof.
  cbv -[source absent spot_of running_as]. destruct (running_as _ _ _); [|done].
  destruct (source from (spot_of w from)) as [[]|]; [|done].
  destruct (absent to (spot_of w to)) as [[]|]; [by intros [= <-]|done].
Qed.

Lemma verdict_keep p : (precondition w (Action_Keep p) []).1 = Ok Verdict_Go.
Proof. reflexivity. Qed.

Lemma verdict_restore p from expect n :
  spot_of w p = spot_entry (files w !! p) → parent from = parent p → file_name from ≠ None →
  spot_of w from = Spot_Present n → expected p expect (spot_of w p) = Ok tt →
  (precondition w (Action_Restore p from expect) []).1 = Ok Verdict_Go.
Proof.
  intros Hp Hpar Hname Hfrom Hexp.
  unfold precondition, check, look_spot, try, mbind, look_bind, mret, look_ret. simpl.
  assert (Hs : ∀ f, spot_of w p ≠ Spot_Blocked f) by (rewrite Hp; by destruct (files w !! p)).
  destruct (spot_of w p) as [f| |m] eqn:Hsp; [by destruct (Hs f)| |];
    rewrite decide_True by done; rewrite decide_False by done; rewrite Hfrom; simpl; by rewrite Hexp.
Qed.

Lemma holding_Ok p expect s n : holding p expect s = Ok n → s = Spot_Present n ∧ nd_id n = expect.
Proof.
  destruct s as [f| |m]; simpl; [by destruct (gone f)|done|].
  destruct (decide _); [|done]. by intros [= <-].
Qed.

Lemma absent_Ok p s : absent p s = Ok tt → s = Spot_Missing.
Proof. by destruct s. Qed.

Lemma source_Ok p s : source p s = Ok tt → ∃ n, s = Spot_Present n.
Proof. destruct s; try done. eauto. Qed.

Lemma node_Ok p s n : node p s = Ok n → s = Spot_Present n.
Proof. destruct s as [f| |m]; simpl; try done. by destruct (decide _); [|intros [= <-]]. Qed.
End verdicts.

(** ** What each undo takes back *)

(** All but the files is as it was. *)
Definition but_files (w w' : World) : Prop := like (set_files (files w) w') w.

Lemma but_files_set w w' w2 fs : but_files w w' → like w2 w' → fs = files w → like (set_files fs w2) w.
Proof. intros [] [] ->. split; simpl in *; intros; etrans; eauto. Qed.

Lemma like_dir w w' p : like w w' → dir_at w' p → dir_at w p.
Proof. intros Hl. unfold dir_at. by rewrite (lk_files _ _ Hl). Qed.

Lemma spot_of_like w2 w' q s :
  tree_ok w' → like w2 w' → dir_at w' q →
  spot_of w2 (q ++ [Normal s]) = spot_entry (files w' !! (q ++ [Normal s])).
Proof.
  intros Ht Hl Hd. rewrite <- (lk_files _ _ Hl). apply spot_at; [|by eapply like_dir].
  by apply (tree_ok_same w'), Ht; rewrite (lk_files _ _ Hl).
Qed.

Lemma removable_go p e : removable p (fe_id e) (spot_entry (Some e)) = Ok Verdict_Go.
Proof. unfold removable, holding. simpl. by rewrite decide_True. Qed.

(** A tree that was not there. *)
Lemma remove_tree_back w w' q s e :
  tree_ok w' → but_files w w' → dir_at w' q → files w' !! (q ++ [Normal s]) = Some e →
  none_below w (q ++ [Normal s]) →
  (∀ x, (∀ r, x ≠ (q ++ [Normal s]) ++ r) → files w' !! x = files w !! x) →
  restores w [Action_RemoveCreatedTree (q ++ [Normal s]) (fe_id e)] w'.
Proof.
  intros Ht Hb Hd He Hnone Hsame. apply restores_one. intros w2 Hl.
  eexists _, _. split.
  - rewrite apply_on_files by done. rewrite verdict_removed_tree, (spot_of_like _ w') by done.
    rewrite He, removable_go. reflexivity.
  - apply (but_files_set w w'); [done|done|]. apply map_eq. intros x.
    change (files (remove_tree (q ++ [Normal s]) w2) !! x = files w !! x).
    destruct (decide (q ++ [Normal s] `prefix_of` x)) as [[r ->]|Hx].
    + by rewrite remove_tree_below, Hnone.
    + assert (∀ r, x ≠ (q ++ [Normal s]) ++ r) by (intros r ->; apply Hx; by exists r).
      rewrite remove_tree_elsewhere, (lk_files _ _ Hl) by done. auto.
Qed.

(** An entry that was not there, and holds nothing. *)
Lemma remove_created_back w w' q s e :
  tree_ok w' → but_files w w' → dir_at w' q → files w !! (q ++ [Normal s]) = None →
  none_below w (q ++ [Normal s]) → files w' = <[q ++ [Normal s] := e]> (files w) →
  restores w [Action_RemoveCreated (q ++ [Normal s]) (fe_id e)] w'.
Proof.
  intros Ht Hb Hd Hn Hnone Hf. apply restores_one. intros w2 Hl.
  assert (Hc : has_children w2 (q ++ [Normal s]) = false).
  { apply not_true_iff_false. intros (r & Hr & Hs)%has_children_below.
    rewrite (lk_files _ _ Hl), Hf, lookup_insert_ne, Hnone in Hs; [by destruct Hs|].
    rewrite <- (app_nil_r (q ++ [Normal s])) at 1. intros Heq%app_inv_head. done. }
  eexists _, _. split.
  - rewrite apply_on_files by done. rewrite verdict_removed, (spot_of_like _ w') by done.
    rewrite Hf, lookup_insert_eq, removable_go. cbn. unfold remove_created, mbind, st_bind, gets, id.
    rewrite Hc. reflexivity.
  - apply (but_files_set w w'); [done|done|]. by rewrite (lk_files _ _ Hl), Hf, delete_insert_id.
Qed.

(** What is pending and what is aside, with [aside] added. *)
Record put_by (w w1 : World) (aside : path) : Prop := {
  pb_groups : groups w1 = groups w;
  pb_users : users w1 = users w;
  pb_units : units w1 = units w;
  pb_journals : journals w1 = journals w;
  pb_logs : logs w1 = logs w;
  pb_held : held w1 = held w;
  pb_acting : acting_for w1 = acting_for w;
  pb_runs : runs_as w1 = runs_as w;
  pb_clobbered : clobbered w1 = clobbered w;
  pb_linked : linked w1 = linked w;
  pb_pending r : filter (λ p, p ≠ aside) (pending_in w1 r) = pending_in w r;
  pb_profiles :
    aside_profiles w !! aside = None ∧
    (profiles w1 = profiles w ∧ aside_profiles w1 = aside_profiles w ∨
     ∃ uid p, profiles w !! uid = Some p ∧ profiles w1 = delete uid (profiles w) ∧
       aside_profiles w1 = <[aside := (uid, p)]> (aside_profiles w));
}.

Lemma put_by_like w w1 w2 aside : put_by w w1 aside → like w2 w1 → put_by w w2 aside.
Proof.
  intros [] []. split; try (by etrans); [intros r; by rewrite lk_pending0|].
  rewrite lk_profiles0, lk_aside0. done.
Qed.

Lemma put_by_but w w1 w2 aside : put_by w w1 aside → but_files w1 w2 → put_by w w2 aside.
Proof.
  intros [] []. simpl in *. split; try (by etrans).
  - intros r. etrans; [|apply pb_pending0]. f_equal. exact (lk_pending0 r).
  - rewrite lk_profiles0, lk_aside0. done.
Qed.

Lemma pending_unpend w aside r :
  pending_in (unpend aside w) r = filter (λ p, p ≠ aside) (pending_in w r).
Proof. unfold pending_in, unpend. simpl. rewrite lookup_fmap. by destruct (pending_of w !! r). Qed.

Lemma restore_profile_back w w1 aside :
  put_by w w1 aside →
  profiles (restore_profile aside w1) = profiles w ∧
  aside_profiles (restore_profile aside w1) = aside_profiles w.
Proof.
  intros [_ _ _ _ _ _ _ _ _ _ _ [Hn [[Hp Ha]|(uid & p & Hu & Hp & Ha)]]]; unfold restore_profile; rewrite Ha.
  - by rewrite Hn.
  - rewrite lookup_insert_eq. simpl. rewrite Hp. split.
    + by apply insert_delete_id.
    + by apply delete_insert_id.
Qed.

Lemma put_by_files w w1 fs aside : put_by w w1 aside → put_by w (set_files fs w1) aside.
Proof. by intros []. Qed.

Lemma restored_like w w1 aside :
  put_by w w1 aside → files w1 = files w → like (unpend aside (restore_profile aside w1)) w.
Proof.
  intros Hput Hf. destruct (restore_profile_back _ _ _ Hput) as [Hp Ha].
  assert (Hpend : ∀ r, pending_in (unpend aside (restore_profile aside w1)) r = pending_in w r).
  { intros r. rewrite pending_unpend, <- (pb_pending _ _ _ Hput). f_equal.
    unfold restore_profile. by destruct (aside_profiles w1 !! aside) as [[]|]. }
  destruct Hput. unfold restore_profile in *.
  destruct (aside_profiles w1 !! aside) as [[uid pr]|]; split; simpl in *; done.
Qed.

(** The tree that went aside comes back over what took its place. *)
Lemma restore_back w w1 q b name expect :
  let p := q ++ [Normal b] in let aside := q ++ [Normal name] in
  tree_ok w → is_Some (files w !! p) → apart p aside → none_below w aside →
  put_by w w1 aside →
  (∀ x, (∀ r, x ≠ p ++ r) → files w1 !! x = files (move_tree p aside w) !! x) →
  expected p expect (spot_entry (files w1 !! p)) = Ok tt →
  restores w [Action_Restore p aside expect] w1.
Proof.
  intros p aside Ht Hs Ha Hnone Hput Hmove Hexp. apply restores_one. intros w2 Hl.
  assert (Hn : normal_below w p) by (apply tree_normal_below; [done|by destruct q]).
  rewrite <- (lk_files _ _ Hl) in Hmove, Hexp. apply (put_by_like _ _ w2) in Hput; [|done]. clear w1 Hl.
  assert (Hq : dir_at w q) by by apply (tk_parent _ Ht _ b).
  assert (Hdirs : ∀ d, d ∈ ancestors q → dir_at w2 d).
  { intros d Hd. assert (Hw : dir_at w d) by by eapply dir_ancestors.
    apply elem_of_ancestors in Hd as [[k Hk] _]; [|by apply (tk_rooted _ Ht), dir_at_Some].
    assert (Hout : ∀ s r, d ≠ (q ++ [Normal s]) ++ r).
    { intros s r ->. rewrite Hk, <- !(assoc_L (++)) in Hk.
      apply (f_equal length) in Hk. rewrite !length_app in Hk. simpl in Hk. lia. }
    unfold dir_at. rewrite Hmove by apply Hout. rewrite move_tree_elsewhere; [done|done|done|apply Hout|apply Hout]. }
  destruct Hs as [e He].
  assert (Haside : files w2 !! aside = Some e).
  { rewrite Hmove by (rewrite <- (app_nil_r aside); intros r; apply not_eq_sym, Ha).
    assert (Hm := move_tree_to p aside Ha w [] Hn Hnone). rewrite !app_nil_r in Hm. by rewrite Hm. }
  eexists _, _. split.
  - rewrite apply_on_files by done. erewrite verdict_restore; [reflexivity| | | | |].
    + by apply spot_below.
    + unfold p, aside. by rewrite !parent_snoc.
    + unfold aside. by rewrite file_name_snoc.
    + etrans; [by apply spot_below|]. by fold aside; rewrite Haside.
    + etrans; [|exact Hexp]. f_equal. by apply spot_below.
  - apply restored_like; [|by apply move_back].
    exact (put_by_files _ _ _ _ Hput).
Qed.

(** ** Well-formed worlds *)

Record world_ok (w : World) : Prop := {
  wk_tree : tree_ok w;
  wk_names : names_ok w;
  wk_accounts : accounts_ok w;
}.

(** A path of names that are not the name of something set aside. *)
Definition plain_path (p : path) : Prop :=
  rooted p ∧ ∀ s, Normal s ∈ p → is_leftover s = false.

Lemma plain_prefix p q : plain_path (p ++ q) → p ≠ [] → plain_path p.
Proof.
  intros [Hr Hs] Hne. split; [by eapply rooted_prefix; [exact Hr|by exists q|]|].
  intros s Hin. apply Hs, elem_of_app. by left.
Qed.

Lemma plain_last p s : plain_path (p ++ [Normal s]) → is_leftover s = false.
Proof. intros [_ Hs]. apply Hs, elem_of_app. right. left. Qed.

Lemma accounts_ok_same w w' : groups w' = groups w → users w' = users w → accounts_ok w → accounts_ok w'.
Proof. intros Hg Hu []. by split; rewrite ?Hg, ?Hu. Qed.

(** What an action must be for its undo to take it back: a new place has a plain name, a
    discarded path was not discarded before, a new user's groups are named once.  An action
    that is itself an undo, or a commit, returns none. *)
Definition undoable (w : World) (a : Action) : Prop :=
  match a with
  | Action_CreateDir p _ _ | Action_CreateDirs p _ _ | Action_PutFile p _ _ _ Expect_Absent
  | Action_CopyTree _ p _ _ => plain_path p
  | Action_PutFile _ _ _ _ (Expect_Present _) | Action_SetMode _ _ _ | Action_SetOwner _ _ _
  | Action_SetAside _ _ | Action_ReclaimTree _ _ _ _ => True
  | Action_Discard p _ => ∀ r, p ∉ pending_in w r
  | _ => on_accounts a = true ∧ named_once a
  end.

(** Worlds that differ in their files, and in the counter. *)
Record refiled (w w' : World) : Prop := {
  rf_but : but_files w w';
  rf_next : next_ino w <= next_ino w';
}.

Lemma refiled_names w w' :
  names_ok w → refiled w w' → (∀ s, known w' s → known w s ∨ unused w' s) → names_ok w'.
Proof.
  intros Hn [Hb Hle] Hk. apply (names_ok_grow w); [done|apply (lk_acting _ _ Hb)|done|done| |].
  - intros r p s Hin Hs. left. exists r. by rewrite <- (lk_pending _ _ Hb r).
  - intros p s Hin Hs. left. by rewrite <- (lk_aside _ _ Hb).
Qed.

Lemma refiled_accounts w w' : refiled w w' → accounts_ok w → accounts_ok w'.
Proof. intros [Hb _]. apply accounts_ok_same; [apply (lk_groups _ _ Hb)|apply (lk_users _ _ Hb)]. Qed.

(** A new entry with a plain name in a directory. *)
Lemma insert_ok w w' q s e :
  world_ok w → refiled w w' → dir_at w q → s ≠ "" → is_leftover s = false →
  files w !! (q ++ [Normal s]) = None → files w' = <[q ++ [Normal s] := e]> (files w) → world_ok w'.
Proof.
  intros [Ht Hn Ha] Hr Hq Hs Hl Hnone Hf. split.
  - eapply (tree_ok_insert w w' q s); [done|done|done| | |].
    + unfold content_at. by rewrite Hnone.
    + unfold content_at. by rewrite Hf, lookup_insert_eq.
    + intros p Hne. unfold content_at. by rewrite Hf, lookup_insert_ne.
  - apply (refiled_names w); [done|done|]. intros t (p & Hp & Hname). rewrite Hf in Hp.
    destruct (decide (p = q ++ [Normal s])) as [->|Hne].
    + rewrite file_name_snoc in Hname. injection Hname as <-. right. by apply unused_plain.
    + rewrite lookup_insert_ne in Hp by done. left. by exists p.
  - by eapply refiled_accounts.
Qed.

(** The world after a fresh identity. *)
Definition numbered (n : N) (w : World) : World := set_next_ino (next_ino w + n) w.

Definition id_at (w : World) : FileId := mkFileId 1 (next_ino w) (Some (Z.of_N (next_ino w), 0%N)).

Lemma refiled_insert w p content mode owner id fs n :
  refiled w (insert_entry p content mode owner id (set_files fs (numbered n w))).
Proof. split; [by split|]. simpl. lia. Qed.

(** ** Making directories and files *)

Lemma missing_place w p :
  tree_ok w → plain_path p → absent p (spot_of w p) = Ok tt →
  ∃ q s, p = q ++ [Normal s] ∧ s ≠ "" ∧ is_leftover s = false ∧ dir_at w q ∧ files w !! p = None ∧
    none_below w p.
Proof.
  intros Ht Hp Ha%absent_Ok.
  destruct (spot_missing _ Ht _ (proj1 Hp) Ha) as (q & s & -> & Hs & Hq & Hn).
  exists q, s. repeat split; try done; [by apply plain_last in Hp|].
  apply none_below_iff; [done|by destruct q|done].
Qed.

Lemma insert_undone w q s content mode owner n id :
  world_ok w → dir_at w q → s ≠ "" → is_leftover s = false → files w !! (q ++ [Normal s]) = None →
  none_below w (q ++ [Normal s]) →
  let w' := insert_entry (q ++ [Normal s]) content mode owner id (numbered n w) in
  world_ok w' ∧ restores w [Action_RemoveCreated (q ++ [Normal s]) id] w'.
Proof.
  intros Hok Hq Hs Hl Hn Hnb w'.
  assert (Hr : refiled w w') by apply (refiled_insert w _ _ _ _ _ (files w)).
  assert (Hok' : world_ok w') by by eapply (insert_ok w w' q s).
  split; [done|].
  apply (remove_created_back w w' q s (mkFileEntry content mode owner id (ino id)));
    [apply Hok'|apply Hr| |done|done|done].
  unfold dir_at. simpl. rewrite lookup_insert_ne; [done|]. apply parent_ne.
Qed.

Lemma create_dir_undone w p mode owner u w' :
  world_ok w → plain_path p → apply (Action_CreateDir p mode owner) w = (Ok u, w') →
  world_ok w' ∧ restores w u w'.
Proof.
  intros Hok Hp. rewrite apply_on_files, verdict_create_dir by done.
  destruct (absent p (spot_of w p)) as [[]|] eqn:Ha; simpl; [|done].
  destruct (missing_place _ _ (wk_tree _ Hok) Hp Ha) as (q & s & -> & Hs & Hl & Hq & Hn & Hnb).
  intros [= <- <-]. by apply (insert_undone w q s Content_Directory mode (default ROOT owner) 1).
Qed.

Lemma put_absent_undone w p contents mode owner u w' :
  world_ok w → plain_path p → apply (Action_PutFile p contents mode owner Expect_Absent) w = (Ok u, w') →
  world_ok w' ∧ restores w u w'.
Proof.
  intros Hok Hp. rewrite apply_put. unfold put, mbind, st_bind, require. rewrite verdict_put.
  unfold expected. destruct (absent p (spot_of w p)) as [[]|] eqn:Ha; simpl; [|done].
  destruct (missing_place _ _ (wk_tree _ Hok) Hp Ha) as (q & s & -> & Hs & Hl & Hq & Hn & Hnb).
  intros [= <- <-]. by apply (insert_undone w q s (Content_File contents) mode (default ROOT owner) 1).
Qed.

(** ** Modes and owners *)

(** An entry whose content stays. *)
Lemma entry_ok w p f :
  world_ok w → (∀ e, fe_content (f e) = fe_content e) →
  world_ok (set_files (alter f p (files w)) w).
Proof.
  intros [Ht Hn Ha] Hf.
  assert (Hc : ∀ x, content_at (set_files (alter f p (files w)) w) x = content_at w x).
  { intros x. unfold content_at. simpl. destruct (decide (x = p)) as [->|];
      [rewrite lookup_alter_eq|by rewrite lookup_alter_ne]. destruct (files w !! p); [|done].
    simpl. by rewrite Hf. }
  split; [| |by apply (accounts_ok_same w)].
  - apply tree_ok_content. apply tree_ok_content in Ht. setoid_rewrite Hc. exact Ht.
  - apply (refiled_names w); [done|split; [by split|simpl; lia]|].
    intros s (x & Hx%content_at_Some & Hs). rewrite Hc in Hx. left. exists x.
    split; [by apply content_at_Some|done].
Qed.

Lemma alter_insert {V} (f : V → V) (m : gmap path V) p e :
  m !! p = Some e → <[p := f e]> m = alter f p m.
Proof.
  intros He. apply map_eq. intros x. destruct (decide (x = p)) as [->|].
  - by rewrite lookup_insert_eq, lookup_alter_eq, He.
  - by rewrite lookup_insert_ne, lookup_alter_ne.
Qed.

Lemma change_entry_at w p f e :
  files w !! p = Some e → change_entry f p w = (Ok tt, set_files (alter f p (files w)) w).
Proof. intros He. unfold change_entry. by rewrite He, (alter_insert f _ _ _ He). Qed.

Lemma entry_back w q s e f g b :
  world_ok w → (∀ e, fe_content (f e) = fe_content e) → dir_at w q →
  files w !! (q ++ [Normal s]) = Some e → g (f e) = e →
  (∀ w2, files w2 !! (q ++ [Normal s]) = Some (f e) →
     spot_of w2 (q ++ [Normal s]) = spot_entry (Some (f e)) →
     ∃ u, apply b w2 = (Ok u, set_files (alter g (q ++ [Normal s]) (files w2)) w2)) →
  restores w [b] (set_files (alter f (q ++ [Normal s]) (files w)) w).
Proof.
  intros Hok Hf Hq He Hg Hb. assert (Hok' := entry_ok w (q ++ [Normal s]) f Hok Hf).
  apply restores_one. intros w2 Hl.
  assert (He2 : files w2 !! (q ++ [Normal s]) = Some (f e)).
  { rewrite (lk_files _ _ Hl). simpl. by rewrite lookup_alter_eq, He. }
  destruct (Hb w2) as [u Hu]; [done| |].
  - erewrite spot_of_like; [|apply Hok'|exact Hl|].
    + by rewrite <- (lk_files _ _ Hl), He2.
    + unfold dir_at. simpl. rewrite lookup_alter_ne; [done|]. apply parent_ne.
  - eexists _, _. split; [exact Hu|]. eapply (but_files_set w); [|exact Hl|]; [by split|].
    rewrite (lk_files _ _ Hl). simpl. apply alter_back. intros x Hx. congruence.
Qed.

(** An entry there, for the actions on its mode and its owner. *)
Lemma node_at w p n :
  tree_ok w → node p (spot_of w p) = Ok n →
  ∃ q s e, p = q ++ [Normal s] ∧ dir_at w q ∧ files w !! p = Some e ∧ nd_mode n = fe_mode e ∧
    nd_owner n = fe_owner e.
Proof.
  intros Ht Hn%node_Ok. destruct (spot_present _ Ht _ _ Hn) as (q & s & e & -> & _ & Hq & He & [= <-]).
  exists q, s, e. done.
Qed.

Lemma node_entry p e : ∃ n, node p (spot_entry (Some e)) = Ok n ∧ nd_mode n = fe_mode e ∧ nd_owner n = fe_owner e.
Proof.
  unfold node. simpl. rewrite decide_False; [by eexists|].
  unfold kind_of. by destruct (fe_content e).
Qed.

Lemma apply_mode w p mode expect n :
  node p (spot_of w p) = Ok n → nd_mode n = expect →
  apply (Action_SetMode p mode expect) w = set_mode p mode expect w.
Proof.
  intros Hn He. rewrite apply_on_files by done.
  by rewrite verdict_mode, Hn, decide_True.
Qed.

Lemma apply_owner w p owner expect n :
  node p (spot_of w p) = Ok n → nd_owner n = expect →
  apply (Action_SetOwner p owner expect) w = set_owner p owner expect w.
Proof.
  intros Hn He. rewrite apply_on_files by done.
  by rewrite verdict_owner, Hn, decide_True.
Qed.

Lemma set_mode_at w p mode expect e :
  files w !! p = Some e →
  set_mode p mode expect w =
  (Ok [Action_SetMode p expect mode], set_files (alter (with_mode mode) p (files w)) w).
Proof. intros He. unfold set_mode, mbind, st_bind. by rewrite (change_entry_at _ _ _ _ He). Qed.

Lemma set_owner_at w p owner expect e :
  files w !! p = Some e →
  set_owner p owner expect w =
  (Ok [Action_SetOwner p expect owner], set_files (alter (with_owner owner) p (files w)) w).
Proof. intros He. unfold set_owner, mbind, st_bind. by rewrite (change_entry_at _ _ _ _ He). Qed.

Lemma set_mode_undone w p mode expect u w' :
  world_ok w → apply (Action_SetMode p mode expect) w = (Ok u, w') → world_ok w' ∧ restores w u w'.
Proof.
  intros Hok. destruct (node p (spot_of w p)) as [n|] eqn:Hn;
    [|rewrite apply_on_files, verdict_mode, Hn by done; done].
  destruct (decide (nd_mode n = expect)) as [Hm|Hm];
    [|rewrite apply_on_files, verdict_mode, Hn, decide_False by done; done].
  rewrite (apply_mode _ _ _ _ n) by done.
  destruct (node_at _ _ _ (wk_tree _ Hok) Hn) as (q & s & e & -> & Hq & He & Hmode & _).
  rewrite (set_mode_at _ _ _ _ e) by done. intros [= <- <-].
  split; [by apply entry_ok|].
  apply (entry_back w q s e _ (with_mode expect)); [done..| |].
  - subst expect. rewrite Hmode. by destruct e.
  - intros w2 He2 Hs2. destruct (node_entry (q ++ [Normal s]) (with_mode mode e)) as (n2 & Hn2 & Hm2 & _).
    rewrite <- Hs2 in Hn2. eexists. rewrite (apply_mode _ _ _ _ n2) by done.
    by apply (set_mode_at _ _ _ _ (with_mode mode e)).
Qed.

Lemma set_owner_undone w p owner expect u w' :
  world_ok w → apply (Action_SetOwner p owner expect) w = (Ok u, w') → world_ok w' ∧ restores w u w'.
Proof.
  intros Hok. destruct (node p (spot_of w p)) as [n|] eqn:Hn;
    [|rewrite apply_on_files, verdict_owner, Hn by done; done].
  destruct (decide (nd_owner n = expect)) as [Hm|Hm];
    [|rewrite apply_on_files, verdict_owner, Hn, decide_False by done; done].
  rewrite (apply_owner _ _ _ _ n) by done.
  destruct (node_at _ _ _ (wk_tree _ Hok) Hn) as (q & s & e & -> & Hq & He & _ & Hown).
  rewrite (set_owner_at _ _ _ _ e) by done. intros [= <- <-].
  split; [by apply entry_ok|].
  apply (entry_back w q s e _ (with_owner expect)); [done..| |].
  - subst expect. rewrite Hown. by destruct e.
  - intros w2 He2 Hs2. destruct (node_entry (q ++ [Normal s]) (with_owner owner e)) as (n2 & Hn2 & _ & Hm2).
    rewrite <- Hs2 in Hn2. eexists. rewrite (apply_owner _ _ _ _ n2) by done.
    by apply (set_owner_at _ _ _ _ (with_owner owner e)).
Qed.

(** ** Setting aside *)

Lemma pending_pend w p r :
  pending_in (pend p w) r =
  if decide (r = acting_for w) then pending_in w r ++ [p] else pending_in w r.
Proof.
  unfold pend, pending_in. simpl. destruct (decide (r = acting_for w)) as [->|].
  - by rewrite lookup_insert_eq.
  - by rewrite lookup_insert_ne.
Qed.

Lemma put_by_start w w1 aside :
  but_files w w1 → aside_profiles w !! aside = None → (∀ r, aside ∉ pending_in w r) →
  put_by w w1 aside.
Proof.
  intros [] Ha Hp. split; simpl in *; try done; [|by split; [|left]].
  intros r. etrans; [|exact (lk_pending0 r)]. apply filter_all.
  intros x Hx ->. apply (Hp r). by rewrite <- lk_pending0.
Qed.

Lemma put_by_pend w w1 aside : put_by w w1 aside → put_by w (pend aside w1) aside.
Proof.
  intros []. split; try done. intros r. rewrite pending_pend. destruct (decide _); [|done].
  rewrite filter_app, (filter_none _ [aside]), app_nil_r; [done|].
  by intros x ->%list_elem_of_singleton ?.
Qed.

Lemma put_by_aside_profile w w1 p aside :
  put_by w w1 aside → profiles w1 = profiles w → aside_profiles w1 = aside_profiles w →
  put_by w (aside_profile p aside w1) aside.
Proof.
  intros Hput Hp Ha. unfold aside_profile.
  destruct (path_ends_with p _); [|done]. destruct (files w1 !! p) as [e|]; [|done].
  destruct (profiles w1 !! (fe_owner e).1) as [pr|] eqn:Hpr; [|done].
  destruct Hput as [? ? ? ? ? ? ? ? ? ? ? [Hn _]]. split; try done. split; [done|]. right.
  exists (fe_owner e).1, pr. simpl. by rewrite Ha, <- Hp.
Qed.

(** A world in which the tree at [q/b] went aside, and something may have taken its place. *)
Record went_aside (w w1 : World) (q : path) (b purpose : string) (n : N) : Prop := {
  wa_put : put_by w w1 (sibling_of (q ++ [Normal b]) purpose (acting_for w) n);
  wa_move x : (∀ r, x ≠ (q ++ [Normal b]) ++ r) →
    files w1 !! x =
    files (move_tree (q ++ [Normal b]) (sibling_of (q ++ [Normal b]) purpose (acting_for w) n) w) !! x;
  wa_there r : is_Some (files w1 !! ((q ++ [Normal b]) ++ r)) →
    is_Some (files w !! ((q ++ [Normal b]) ++ r));
  wa_next : next_ino w <= n < next_ino w1;
}.

Section aside.
Context (w w1 : World) (q : path) (b purpose : string) (n : N).
Hypothesis Hok : world_ok w.
Hypothesis Hwent : went_aside w w1 q b purpose n.
Hypothesis Hthere : is_Some (files w !! (q ++ [Normal b])).
Hypothesis Hpurpose : purpose ∈ LEFTOVER_PURPOSES.

#[local] Abbreviation p := (q ++ [Normal b]).
#[local] Abbreviation name := (sibling_name b purpose (acting_for w) n).
#[local] Abbreviation aside := (sibling_of (q ++ [Normal b]) purpose (acting_for w) n).

Lemma aside_free :
  apart p aside ∧ none_below w aside ∧ (∀ r, aside ∉ pending_in w r) ∧ aside_profiles w !! aside = None.
Proof. apply sibling_free; [apply Hok|apply Hok|done|done|apply Hwent]. Qed.

Lemma aside_from r : files w1 !! (aside ++ r) = files w !! (p ++ r).
Proof.
  destruct aside_free as (Ha & Hnone & _). rewrite (wa_move _ _ _ _ _ _ Hwent).
  - apply move_tree_to; [done| |done]. apply tree_normal_below; [apply Hok|by destruct q].
  - intros r'. apply not_eq_sym, Ha.
Qed.

Lemma aside_else x :
  (∀ r, x ≠ p ++ r) → (∀ r, x ≠ aside ++ r) → files w1 !! x = files w !! x.
Proof.
  intros Hp Ha. rewrite (wa_move _ _ _ _ _ _ Hwent) by done.
  apply move_tree_elsewhere; [apply aside_free|apply tree_normal_below; [apply Hok|by destruct q]|done|done].
Qed.

Lemma aside_names : names_ok w1.
Proof.
  destruct Hwent as [Hput _ Hin Hn]. assert (Hsib : unused w1 name).
  { rewrite <- (pb_acting _ _ _ Hput). apply unused_sibling. lia. }
  assert (Hname : file_name aside = Some name) by (by rewrite sibling_of_snoc, file_name_snoc).
  apply (names_ok_grow w); [apply Hok|apply Hput|lia|..].
  - intros s (x & Hx & Hs).
    destruct (decide (p `prefix_of` x)) as [[r ->]|Hpx].
    { left. eexists. split; [by apply Hin|done]. }
    assert (∀ r, x ≠ p ++ r) by (intros r ->; apply Hpx; by exists r).
    destruct (decide (aside `prefix_of` x)) as [[r ->]|Hax].
    + rewrite aside_from in Hx. destruct r as [|c r _] using rev_ind.
      * rewrite app_nil_r, Hname in Hs. injection Hs as <-. by right.
      * left. exists (p ++ r ++ [c]). split; [done|]. unfold file_name in *.
        by rewrite app_assoc, last_snoc in *.
    + assert (∀ r, x ≠ aside ++ r) by (intros r ->; apply Hax; by exists r).
      rewrite aside_else in Hx by done. left. by exists x.
  - intros r x s Hx Hs. destruct (decide (x = aside)) as [->|Hne].
    + rewrite Hname in Hs. injection Hs as <-. by right; right.
    + left. exists r. rewrite <- (pb_pending _ _ _ Hput). by apply list_elem_of_filter.
  - intros x s Hx Hs. destruct (pb_profiles _ _ _ Hput) as [_ [[_ Ha]|(uid & pr & _ & _ & Ha)]];
      rewrite Ha in Hx; [by left|].
    destruct (decide (x = aside)) as [->|Hne]; [|rewrite lookup_insert_ne in Hx by done; by left].
    rewrite Hname in Hs. injection Hs as <-. by right.
Qed.

Lemma aside_accounts : accounts_ok w1.
Proof.
  apply (accounts_ok_same w); [apply (pb_groups _ _ _ (wa_put _ _ _ _ _ _ Hwent))|
    apply (pb_users _ _ _ (wa_put _ _ _ _ _ _ Hwent))|apply Hok].
Qed.

Lemma aside_dir : dir_at w q.
Proof. by apply (tk_parent _ (wk_tree _ Hok) _ b). Qed.

Lemma aside_gone_ok : (∀ r, files w1 !! (p ++ r) = None) → tree_ok w1.
Proof.
  intros Hgone. destruct aside_free as (Ha & Hnone & _).
  assert (Heq : aside = q ++ [Normal name]) by apply sibling_of_snoc.
  rewrite Heq in Ha, Hnone. eapply (tree_ok_move w w1 p q name); [apply Hok|apply aside_dir| |by destruct q|done|done|..].
  - intros Hs. apply (f_equal String.length) in Hs. done.
  - intros r. unfold content_at. by rewrite Hgone.
  - intros r. rewrite (assoc_L (++)), <- Heq. unfold content_at. by rewrite aside_from.
  - intros x Hp Hx. unfold content_at. rewrite aside_else; [done|done|]. rewrite Heq.
    intros r. rewrite <- (assoc_L (++)). apply Hx.
Qed.

Lemma aside_undone expect :
  expected p expect (spot_entry (files w1 !! p)) = Ok tt →
  restores w [Action_Restore p aside expect] w1.
Proof.
  intros Hexp. destruct aside_free as (Ha & Hnone & _). destruct Hwent as [Hput Hmove _ _].
  rewrite sibling_of_snoc in *. apply restore_back; try done. apply Hok.
Qed.
End aside.

(** The world in which the tree has gone aside and nothing has taken its place. *)
Lemma gone_aside w w1 q b purpose n m :
  world_ok w → is_Some (files w !! (q ++ [Normal b])) → purpose ∈ LEFTOVER_PURPOSES →
  next_ino w <= n < m →
  let aside := sibling_of (q ++ [Normal b]) purpose (acting_for w) n in
  put_by w w1 aside →
  files w1 = files (move_tree (q ++ [Normal b]) aside w) → next_ino w1 = m →
  went_aside w w1 q b purpose n ∧ (∀ r, files w1 !! ((q ++ [Normal b]) ++ r) = None).
Proof.
  intros Hok Hs Hp Hn aside Hput Hf Hm.
  destruct (sibling_free w q b purpose n) as (Ha & _); [apply Hok|apply Hok|done|done|lia|].
  assert (Hgone : ∀ r, files w1 !! ((q ++ [Normal b]) ++ r) = None).
  { intros r. rewrite Hf. apply move_tree_from; [done|].
    apply tree_normal_below; [apply Hok|by destruct q]. }
  split; [|done]. split; [done|intros x _; by rewrite Hf| |lia].
  intros r. rewrite Hgone. by intros [].
Qed.

Lemma spot_holding w p expect n :
  tree_ok w → holding p expect (spot_of w p) = Ok n →
  ∃ q s e, p = q ++ [Normal s] ∧ s ≠ "" ∧ dir_at w q ∧ files w !! p = Some e ∧ fe_id e = expect.
Proof.
  intros Ht [Hs Hid]%holding_Ok. destruct (spot_present _ Ht _ _ Hs) as (q & s & e & -> & Hne & Hq & He & [= <-]).
  by exists q, s, e.
Qed.

Lemma move_tree_files w w1 from to :
  files w1 = files w → files (move_tree from to w1) = files (move_tree from to w).
Proof. intros Hf. unfold move_tree, subtree, range, keys. simpl. by rewrite Hf. Qed.

Lemma aside_profile_rest p aside w :
  files (aside_profile p aside w) = files w ∧ next_ino (aside_profile p aside w) = next_ino w.
Proof.
  unfold aside_profile. destruct (path_ends_with _ _); [|done]. destruct (files w !! p); [|done].
  by destruct (profiles w !! _).
Qed.

Lemma set_aside_undone w p expect u w' :
  world_ok w → apply (Action_SetAside p expect) w = (Ok u, w') → world_ok w' ∧ restores w u w'.
Proof.
  intros Hok. rewrite apply_on_files, verdict_aside by done.
  destruct (holding p expect (spot_of w p)) as [n|] eqn:Hh; simpl; [|done].
  destruct (spot_holding _ _ _ _ (wk_tree _ Hok) Hh) as (q & b & e & -> & Hb & Hq & He & _).
  assert (Hs : is_Some (files w !! (q ++ [Normal b]))) by by eexists.
  assert (Hpur : "aside" ∈ LEFTOVER_PURPOSES) by (right; left).
  destruct (sibling_free w q b "aside" (next_ino w)) as (_ & _ & Hpend & Hprof);
    [apply Hok|apply Hok|done|done|lia|].
  set (aside := sibling_of (q ++ [Normal b]) "aside" (acting_for w) (next_ino w)) in *.
  unfold set_aside, sibling, mbind, st_bind, fresh, gets, modify, mret, st_ret. simpl. fold aside.
  intros [= <- <-]. set (w1 := aside_profile _ _ _).
  destruct (aside_profile_rest (q ++ [Normal b]) aside (set_next_ino (next_ino w + 1) w)) as [Hf1 Hn1].
  fold w1 in Hf1, Hn1. set (w' := pend aside (move_tree (q ++ [Normal b]) aside w1)).
  assert (Hput : put_by w w' aside).
  { apply put_by_pend, (put_by_files w w1), put_by_aside_profile; [|done|done].
    apply put_by_start; [by split|done|done]. }
  destruct (gone_aside w w' q b "aside" (next_ino w) (next_ino w')) as [Hwent Hgone]; try done.
  { simpl. rewrite Hn1. simpl. lia. }
  { by apply move_tree_files. }
  split.
  - split; [by eapply aside_gone_ok|by eapply aside_names|by eapply aside_accounts].
  - apply (aside_undone w w' q b "aside" (next_ino w)); [done..|].
    assert (Hg := Hgone []). rewrite app_nil_r in Hg. by rewrite Hg.
Qed.

Lemma put_present_undone w p contents mode owner old u w' :
  world_ok w → apply (Action_PutFile p contents mode owner (Expect_Present old)) w = (Ok u, w') →
  world_ok w' ∧ restores w u w'.
Proof.
  intros Hok. rewrite apply_put. unfold put, mbind, st_bind, require. rewrite verdict_put.
  unfold expected. destruct (holding p old (spot_of w p)) as [n|] eqn:Hh; simpl; [|done].
  destruct (spot_holding _ _ _ _ (wk_tree _ Hok) Hh) as (q & b & e & -> & Hb & Hq & He & _).
  assert (Hs : is_Some (files w !! (q ++ [Normal b]))) by by eexists.
  assert (Hpur : "backup" ∈ LEFTOVER_PURPOSES) by left.
  destruct (sibling_free w q b "backup" (next_ino w + 1)) as (Ha & Hnone & Hpend & Hprof);
    [apply Hok|apply Hok|done|done|lia|].
  set (aside := sibling_of (q ++ [Normal b]) "backup" (acting_for w) (next_ino w + 1)) in *.
  unfold sibling, mbind, st_bind, fresh, gets, modify, mret, st_ret. simpl. fold aside.
  intros [= <- <-]. set (w1 := pend aside _). set (w' := insert_entry _ _ _ _ _ w1).
  assert (Hput : put_by w w1 aside).
  { apply put_by_pend, (put_by_files w (set_next_ino (next_ino w + 1 + 1) w)).
    apply put_by_start; [by split|done|done]. }
  destruct (gone_aside w w1 q b "backup" (next_ino w + 1) (next_ino w1)) as [Hwent Hgone]; try done.
  { simpl. lia. }
  assert (Hgone' : files w1 !! (q ++ [Normal b]) = None).
  { assert (Hg := Hgone []). by rewrite app_nil_r in Hg. }
  assert (Hwent' : went_aside w w' q b "backup" (next_ino w + 1)).
  { destruct Hwent as [_ Hmove Hin Hnext]. split; [by apply put_by_files| | |done].
    - intros x Hx. simpl. rewrite lookup_insert_ne; [by apply Hmove|by apply out_ne].
    - intros [|c r]; [by rewrite app_nil_r|]. simpl. rewrite lookup_insert_ne; [apply Hin|].
      rewrite <- (app_nil_r (q ++ [Normal b])) at 1. intros Heq%app_inv_head. done. }
  split.
  - split; [|by eapply aside_names|by eapply aside_accounts].
    assert (Ht1 : tree_ok w1) by by eapply aside_gone_ok.
    assert (Hin : files w' !! (q ++ [Normal b]) = Some (mkFileEntry (Content_File contents) mode (default ROOT owner)
      (id_at w) (ino (id_at w)))) by apply lookup_insert_eq.
    apply (tree_ok_insert w1 w' q b (Content_File contents)); [done| |done|by unfold content_at; rewrite Hgone'| |].
    + assert (dir_at w q) as Hd by done. unfold dir_at in *.
      rewrite (aside_else w w1 q b "backup" (next_ino w + 1)); [done..| |].
      * apply parent_out.
      * rewrite sibling_of_snoc. apply parent_out.
    + unfold content_at. by rewrite Hin.
    + intros x Hx. unfold content_at. simpl. by rewrite lookup_insert_ne.
  - apply (aside_undone w w' q b "backup" (next_ino w + 1)); [done..|].
    simpl. rewrite lookup_insert_eq. simpl. by rewrite decide_True.
Qed.

Lemma discard_undone w p expect u w' :
  world_ok w → (∀ r, p ∉ pending_in w r) → apply (Action_Discard p expect) w = (Ok u, w') →
  world_ok w' ∧ restores w u w'.
Proof.
  intros Hok Hp. rewrite apply_on_files, verdict_discard by done.
  destruct (holding p expect (spot_of w p)) as [n|] eqn:Hh; simpl; [|done].
  destruct (spot_holding _ _ _ _ (wk_tree _ Hok) Hh) as (q & b & e & -> & Hb & Hq & He & _).
  intros [= <- <-]. split.
  - destruct Hok as [Ht Hn Ha]. split; [by apply (tree_ok_same w)| |by apply (accounts_ok_same w)].
    apply (names_ok_grow w); try done; [by left| |by left].
    intros r x s. rewrite pending_pend. destruct (decide _); [|by left; exists r].
    intros [Hx| ->%list_elem_of_singleton]%elem_of_app Hs; [by left; exists r|]. right; left.
    exists (q ++ [Normal b]). by rewrite He.
  - apply restores_one. intros w2 Hl. eexists _, _. split; [by rewrite apply_on_files|].
    destruct Hl. split; try done. intros r. rewrite pending_unpend, lk_pending0, pending_pend.
    assert (Hf : filter (λ x, x ≠ q ++ [Normal b]) (pending_in w r) = pending_in w r).
    { apply filter_all. intros x Hx ->. by apply (Hp r). }
    destruct (decide _); [|done]. rewrite filter_app, Hf, filter_none, app_nil_r; [done|].
    by intros x ->%list_elem_of_singleton ?.
Qed.

(** ** Copies *)

Lemma insert_copy_spec p copy top w :
  NoDup copy.*1 →
  ∃ top' w', insert_copy p copy top w = (Ok top', w') ∧ refiled w w' ∧
    (∀ x, x ∉ copy.*1 → files w' !! x = files w !! x) ∧
    (∀ x e, (x, e) ∈ copy → ∃ e', files w' !! x = Some e' ∧ fe_content e' = fe_content e) ∧
    (if decide (p ∈ copy.*1) then ∃ e', files w' !! p = Some e' ∧ top' = Some (fe_id e')
     else top' = top).
Proof.
  revert top w. induction copy as [|[y e] copy IH]; intros top w Hnd; csimpl in *.
  { exists top, w. split; [done|]. split; [split; [by destruct w; split|lia]|].
    split; [done|]. split; [by intros x e ?%elem_of_nil|]. done. }
  apply NoDup_cons in Hnd as [Hy Hnd].
  set (w1 := insert_entry y (fe_content e) (fe_mode e) (fe_owner e) (id_at w) (set_next_ino (next_ino w + 1) w)).
  destruct (IH (if decide (y = p) then Some (id_at w) else top) w1 Hnd) as (top' & w' & Hr & Href & Hout & Hin & Htop).
  assert (Hy1 : files w1 !! y = Some (mkFileEntry (fe_content e) (fe_mode e) (fe_owner e) (id_at w) (ino (id_at w))))
    by apply lookup_insert_eq.
  exists top', w'. split; [exact Hr|]. split; [|split; [|split]].
  - destruct Href as [Hb Hle]. split.
    + destruct Hb. by split.
    + simpl in Hle. lia.
  - intros x [Hne Hx]%not_elem_of_cons. rewrite Hout by done. simpl. by rewrite lookup_insert_ne.
  - intros x e' [[= -> ->]|Hx]%elem_of_cons; [|by apply Hin].
    rewrite Hout, Hy1 by done. eexists. by split.
  - destruct (decide (p ∈ copy.*1)) as [Hp|Hp].
    + by rewrite decide_True by by right.
    + destruct (decide (y = p)) as [->|Hne].
      * rewrite decide_True by left. rewrite Hout, Hy1 by done. eexists. by split.
      * rewrite decide_False; [done|]. by intros [?|?]%elem_of_cons.
Qed.

Lemma elem_of_copy_of w from to owner mode x e :
  normal_below w from →
  (x, e) ∈ copy_of w from to owner mode ↔
  ∃ r e0, x = to ++ r ∧ files w !! (from ++ r) = Some e0 ∧
    e = copied mode owner (bool_decide (from ++ r = from)) e0.
Proof.
  intros Hn. unfold copy_of. rewrite list_elem_of_omap. split.
  - intros (old & [Hs [r ->]]%elem_of_subtree & (e0 & He & [= -> ->])%fmap_Some).
    exists r, e0. rewrite moved_app by by apply Hn. done.
  - intros (r & e0 & -> & He & ->). exists (from ++ r). split.
    + apply elem_of_subtree. split; [by eexists|by exists r].
    + rewrite He. simpl. rewrite moved_app; [done|]. apply Hn. by eexists.
Qed.

Lemma NoDup_copy_of w from to owner mode :
  normal_below w from → NoDup (copy_of w from to owner mode).*1.
Proof.
  intros Hn. unfold copy_of. assert (Hsub := NoDup_subtree w from).
  assert (Hall : ∀ old, old ∈ subtree w from → ∃ r, old = from ++ r ∧ Forall is_normal r).
  { intros old [Hs [r ->]]%elem_of_subtree. exists r. split; [done|]. by apply Hn. }
  induction Hsub as [|old l Hold Hnd IH]; csimpl; [constructor|].
  assert (IH' := IH (λ o Ho, Hall o (list_elem_of_further _ _ _ Ho))).
  destruct (files w !! old); csimpl; [|done]. constructor; [|done].
  intros ([x e] & Hx & (old' & Ho & (e' & He & [= -> ->])%fmap_Some)%list_elem_of_omap)%list_elem_of_fmap.
  simpl in Hx. apply Hold. destruct (Hall old) as (r & -> & Hr); [left|].
  destruct (Hall old') as (r' & -> & Hr'); [by right|].
  rewrite !moved_app in Hx by done. by apply app_inv_head in Hx as ->.
Qed.

(** The content of a copied tree is that of its source. *)
Lemma copied_content w w' from to owner mode :
  normal_below w from → none_below w to →
  (∀ x, x ∉ (copy_of w from to owner mode).*1 → files w' !! x = files w !! x) →
  (∀ x e, (x, e) ∈ copy_of w from to owner mode →
     ∃ e', files w' !! x = Some e' ∧ fe_content e' = fe_content e) →
  ∀ r, content_at w' (to ++ r) = content_at w (from ++ r).
Proof.
  intros Hn Hnone Hout Hin r. unfold content_at. destruct (files w !! (from ++ r)) as [e|] eqn:He.
  - destruct (Hin (to ++ r) (copied mode owner (bool_decide (from ++ r = from)) e)) as (e' & -> & Hc).
    + apply elem_of_copy_of; [done|]. by exists r, e.
    + simpl. by rewrite Hc.
  - rewrite Hout, Hnone; [done|]. intros ([x e] & Hx & Hc)%list_elem_of_fmap. simpl in Hx. subst x.
    apply elem_of_copy_of in Hc as (r' & e0 & Heq%app_inv_head & He' & _); [|done]. congruence.
Qed.

Lemma copy_keys w from to owner mode x :
  normal_below w from → x ∈ (copy_of w from to owner mode).*1 → ∃ r, x = to ++ r ∧ is_Some (files w !! (from ++ r)).
Proof.
  intros Hn ([y e] & -> & Hc)%list_elem_of_fmap.
  apply elem_of_copy_of in Hc as (r & e0 & -> & He & _); [|done]. exists r. by rewrite He.
Qed.

Lemma copy_top w from to owner mode e :
  normal_below w from → files w !! from = Some e → to ∈ (copy_of w from to owner mode).*1.
Proof.
  intros Hn He. apply list_elem_of_fmap. exists (to, copied mode owner true e). split; [done|].
  apply elem_of_copy_of; [done|]. exists [], e. rewrite !app_nil_r. by rewrite bool_decide_true.
Qed.

Lemma copy_tree_undone w from to owner mode u w' :
  world_ok w → plain_path to → apply (Action_CopyTree from to owner mode) w = (Ok u, w') →
  world_ok w' ∧ restores w u w'.
Proof.
  intros Hok Hplain Happ. apply applied_on_files in Happ as [[-> ->]|(v & Hv & Harm)]; [| |done].
  { split; [done|apply restores_nil]. }
  apply verdict_copy in Hv as (_ & [n Hn]%source_Ok & Habs).
  destruct (spot_present _ (wk_tree _ Hok) _ _ Hn) as (qf & sf & ef & -> & _ & _ & Hef & _).
  destruct (missing_place _ _ (wk_tree _ Hok) Hplain Habs) as (q & s & -> & Hs & Hl & Hq & Hnt & Hnb).
  simpl in Harm. unfold copy_tree in Harm. destruct (decide _) as [|_]; [done|].
  unfold mbind, st_bind, gets, mret, st_ret in Harm.
  set (from := qf ++ [Normal sf]) in *. set (to := q ++ [Normal s]) in *.
  assert (Hnf : normal_below w from) by (apply tree_normal_below; [apply Hok|by destruct qf]).
  destruct (insert_copy_spec to (copy_of w from to owner mode) None w) as (top & w1 & Hrun & Href & Hout & Hin & Htop);
    [by apply NoDup_copy_of|].
  rewrite Hrun in Harm. injection Harm as <- <-.
  rewrite decide_True in Htop by by eapply copy_top. destruct Htop as (e' & He' & ->). simpl.
  assert (Hc := copied_content w w1 from to owner mode Hnf Hnb Hout Hin).
  assert (Helse : ∀ x, (∀ r, x ≠ to ++ r) → files w1 !! x = files w !! x).
  { intros x Hx. apply Hout. intros (r & -> & _)%copy_keys; [|done]. by apply (Hx r). }
  assert (Ht1 : tree_ok w1).
  { eapply (tree_ok_copy w w1 from q s); [apply Hok|done|done|by destruct qf| |].
    - intros r. rewrite assoc_L by apply _. apply Hc.
    - intros x Hx. unfold content_at. rewrite Helse; [done|]. intros r. unfold to. rewrite <- (assoc_L (++)). apply Hx. }
  split.
  - split; [done| |by eapply refiled_accounts, Hok].
    apply (refiled_names w); [apply Hok|done|]. intros t (x & Hx & Hname).
    destruct (decide (x ∈ (copy_of w from to owner mode).*1)) as [Hk|Hk].
    + apply copy_keys in Hk as (r & -> & Hr); [|done]. destruct r as [|c r _] using rev_ind.
      * rewrite app_nil_r in Hname. unfold to in Hname. rewrite file_name_snoc in Hname. injection Hname as <-.
        right. by apply unused_plain.
      * left. exists (from ++ r ++ [c]). split; [done|]. unfold file_name in *. by rewrite app_assoc, last_snoc in *.
    + left. exists x. by rewrite <- Hout.
  - apply (remove_tree_back w w1 q s e'); [done|apply Href| |done|done|done].
    unfold dir_at. rewrite Helse; [done|]. apply parent_out.
Qed.

Lemma copy_of_files w w1 from to owner mode :
  files w1 = files w → copy_of w1 from to owner mode = copy_of w from to owner mode.
Proof. intros Hf. unfold copy_of, subtree, range, keys. by rewrite Hf. Qed.

Lemma pend_but_files w w1 p : but_files w w1 → but_files (pend p w) (pend p w1).
Proof.
  intros []. split; simpl in *; try done. intros r.
  change (pending_in (pend p w1) r = pending_in (pend p w) r). rewrite !pending_pend.
  rewrite lk_acting0. assert (H := lk_pending0 r). unfold pending_in in *. simpl in H. by rewrite H.
Qed.

(** The tree copied over its place, which is what [ReclaimTree] and [RemoveCreatedTree] do and
    undo, once the original is aside. *)
Lemma reclaim_copy w q b w1 copy owner mode :
  world_ok w → is_Some (files w !! (q ++ [Normal b])) → next_ino w1 = next_ino w + 1 →
  let p := q ++ [Normal b] in
  let aside := sibling_of p "aside" (acting_for w) (next_ino w) in
  put_by w w1 aside → files w1 = files (move_tree p aside w) → copy = copy_of w p p owner mode →
  ∃ e w2, insert_copy p copy None w1 = (Ok (Some (fe_id e)), w2) ∧
    let w' := pend aside w2 in
    world_ok w' ∧
    restores w [Action_RemoveCreatedTree p (fe_id e); Action_Restore p aside Expect_Absent] w'.
Proof.
  intros Hok Hs Hnext p aside Hput Hf ->.
  assert (Hpur : "aside" ∈ LEFTOVER_PURPOSES) by (right; left).
  assert (Hnf : normal_below w p) by (apply tree_normal_below; [apply Hok|by destruct q]).
  destruct (gone_aside w w1 q b "aside" (next_ino w) (next_ino w1)) as [Hwent Hgone]; try done; [lia|].
  destruct (insert_copy_spec p (copy_of w p p owner mode) None w1) as (top & w2 & Hrun & Href & Hout & Hin & Htop);
    [by apply NoDup_copy_of|].
  destruct Hs as [e0 He0]. rewrite decide_True in Htop by by eapply copy_top.
  destruct Htop as (e & He & ->). exists e, w2. split; [done|]. simpl.
  assert (Hkeys : ∀ r, is_Some (files w2 !! (p ++ r)) → is_Some (files w !! (p ++ r))).
  { intros r Hr. destruct (decide (p ++ r ∈ (copy_of w p p owner mode).*1)) as [Hk|Hk].
    - by apply copy_keys in Hk as (r' & ->%app_inv_head & ?).
    - rewrite Hout, Hgone in Hr by done. by destruct Hr. }
  assert (Helse : ∀ x, (∀ r, x ≠ p ++ r) → files w2 !! x = files w1 !! x).
  { intros x Hx. apply Hout. intros (r & -> & _)%copy_keys; [|done]. by apply (Hx r). }
  assert (Hwent' : went_aside w (pend aside w2) q b "aside" (next_ino w)).
  { destruct Hwent as [_ Hmove _ Hn]. split.
    - by apply put_by_pend, (put_by_but w w1); [|apply Href].
    - intros x Hx. simpl. rewrite Helse by done. by apply Hmove.
    - apply Hkeys.
    - destruct Href as [_ Hle]. simpl. lia. }
  assert (Hs : is_Some (files w !! (q ++ [Normal b]))) by by eexists.
  assert (Hm : world_ok w1).
  { split; [by eapply aside_gone_ok|by eapply aside_names|by eapply aside_accounts]. }
  assert (Hq1 : dir_at w1 q).
  { assert (Hd := aside_dir w q b Hok Hs). unfold dir_at in *.
    rewrite (aside_else w w1 q b "aside" (next_ino w)); [done..|apply parent_out|].
    rewrite sibling_of_snoc. apply parent_out. }
  assert (Hq2 : dir_at w2 q) by (unfold dir_at; rewrite Helse; [done|apply parent_out]).
  assert (Ht2 : tree_ok w2).
  { destruct (aside_free w w1 q b "aside" (next_ino w)) as (_ & Hnone & _); [done..|].
    apply (tree_ok_copy w1 w2 aside q b); [apply Hm|done| | | |].
    - by apply (proj1 (rooted_snoc q b)), (tk_rooted _ (wk_tree _ Hok)).
    - unfold aside, p. rewrite sibling_of_snoc. by destruct q.
    - intros r. rewrite assoc_L by apply _. fold p. unfold content_at.
      rewrite (aside_from w w1 q b "aside" (next_ino w)) by done. fold p.
      destruct (files w !! (p ++ r)) as [e1|] eqn:He1.
      + destruct (Hin (p ++ r) (copied mode owner (bool_decide (p ++ r = p)) e1)) as (e2 & -> & Hc);
          [apply elem_of_copy_of; [done|]; by exists r, e1|]. simpl. by rewrite Hc.
      + assert (Hn2 : files w2 !! (p ++ r) = None) by (apply eq_None_not_Some; intros Hr%Hkeys; rewrite He1 in Hr; by destruct Hr).
        by rewrite Hn2.
    - intros x Hx. unfold content_at. rewrite Helse; [done|]. intros r. unfold p. rewrite <- (assoc_L (++)). apply Hx. }
  split.
  - split; [by apply (tree_ok_same w2)|by apply (aside_names w _ q b "aside" (next_ino w))|by apply (aside_accounts w _ q b "aside" (next_ino w))].
  - apply (restores_app w [_] (pend aside w1) [_]).
    + apply (aside_undone w (pend aside w1) q b "aside" (next_ino w)); [done| |done|done|].
      * destruct Hwent as [Hput1 Hmove Hin1 Hn1]. split; [by apply put_by_pend|done..].
      * assert (Hg := Hgone []). rewrite app_nil_r in Hg. simpl. by rewrite Hg.
    + apply (remove_tree_back (pend aside w1) (pend aside w2) q b e); [by apply (tree_ok_same w2)| |done|done|exact Hgone|exact Helse].
      apply pend_but_files, Href.
Qed.

Lemma reclaim_tree_undone w p expect owner mode u w' :
  world_ok w → apply (Action_ReclaimTree p expect owner mode) w = (Ok u, w') →
  world_ok w' ∧ restores w u w'.
Proof.
  intros Hok Happ. apply applied_on_files in Happ as [[-> ->]|(v & Hv & Harm)]; [| |done].
  { split; [done|apply restores_nil]. }
  apply verdict_reclaim in Hv as (_ & n & Hn).
  destruct (spot_holding _ _ _ _ (wk_tree _ Hok) Hn) as (q & b & e0 & -> & _ & _ & He0 & _).
  assert (Hs : is_Some (files w !! (q ++ [Normal b]))) by by eexists.
  simpl in Harm. unfold reclaim_tree, sibling, mbind, st_bind, fresh, gets, modify, mret, st_ret in Harm. simpl in Harm.
  set (aside := sibling_of (q ++ [Normal b]) "aside" (acting_for w) (next_ino w)) in *.
  destruct (sibling_free w q b "aside" (next_ino w)) as (_ & _ & Hpend & Hprof);
    [apply Hok|apply Hok|done|by right; left|lia|].
  set (w0 := set_next_ino (next_ino w + 1) w) in *.
  destruct (reclaim_copy w q b (move_tree (q ++ [Normal b]) aside w0) (copy_of w0 (q ++ [Normal b]) (q ++ [Normal b]) owner mode)
    owner mode) as (e & w2 & Hrun & Hok' & Hrest); [done|done|done| |by apply move_tree_files|by apply copy_of_files|].
  - apply (put_by_files w w0), put_by_start; [by split|done|done].
  - rewrite Hrun in Harm. injection Harm as <- <-. by split.
Qed.

(** ** Directories that are missing *)

Lemma climb_up w n top hs :
  rooted top → ∃ t, climb w n top hs = (Ok t, hs) ∧ t `prefix_of` top ∧ t ≠ [].
Proof.
  assert (Hself : ∀ top, rooted top → ∃ t, @mret (Look unit) _ _ top hs = (Ok t, hs) ∧ t `prefix_of` top ∧ t ≠ []).
  { intros t Ht. exists t. split; [done|]. split; [done|]. by destruct t. }
  revert top. induction n as [|n IH]; intros top Ht; [by apply Hself|]. cbn -[parent spot_of].
  destruct (rooted_cases _ Ht) as [->|(q & s & -> & Hq & _)]; [by apply Hself|].
  rewrite parent_snoc. destruct (parent q); [|by apply Hself].
  unfold mbind, look_bind, look_spot. cbn -[spot_of].
  destruct (unreached (spot_of w q)); [|by apply Hself].
  destruct (IH q Hq) as (t & -> & [k ->] & Hne). exists t. split; [done|]. split; [|done].
  exists (k ++ [Normal s]). by rewrite (assoc_L (++)).
Qed.

Lemma verdict_dirs w p mode owner v :
  rooted p → (precondition w (Action_CreateDirs p mode owner) []).1 = Ok v →
  v = Verdict_Done ∨ ∃ top, v = Verdict_Below top ∧ top `prefix_of` p ∧ top ≠ [] ∧ absent top (spot_of w top) = Ok tt.
Proof.
  intros Hp. unfold precondition, check, created_below, mbind, look_bind, look_spot. cbn -[spot_of climb].
  destruct (climb_up w (length p) p [] Hp) as (t & Hc & Hpre & Hne).
  assert (Hrest : (let (r, hs) := climb w (length p) p [] in
     match r with
     | Ok top => match try (absent top (spot_of w top)) hs with
                 | (Ok _, hs) => (Ok (Verdict_Below top), hs)
                 | (Err e, hs) => (Err e, hs) end
     | Err e => (Err e, hs)
     end).1 = Ok v → v = Verdict_Done ∨ ∃ top, v = Verdict_Below top ∧ top `prefix_of` p ∧ top ≠ [] ∧ absent top (spot_of w top) = Ok tt).
  { rewrite Hc. unfold try. destruct (absent t (spot_of w t)) as [[]|] eqn:Ha; simpl; [|done].
    intros [= <-]. right. by exists t. }
  destruct (spot_of w p) as [f| |n]; [destruct (gone f); [exact Hrest|done]|exact Hrest|].
  destruct (decide _); [|done]. intros [= <-]. by left.
Qed.

(** The directories from [top] down to [top ++ names]. *)
Fixpoint dirs_from (top : path) (names : list component) : list path :=
  top :: match names with [] => [] | n :: names => dirs_from (top ++ [n]) names end.

Lemma dirs_from_snoc top names n :
  dirs_from top (names ++ [n]) = dirs_from top names ++ [top ++ names ++ [n]].
Proof.
  revert top. induction names as [|m names IH]; intros top; simpl; [done|].
  rewrite IH, <- (assoc_L (++)). done.
Qed.

Lemma take_while_stop {A} (P : A → Prop) `{∀ x, Decision (P x)} l :
  (∀ x, head l = Some x → ¬ P x) → take_while P l = [].
Proof.
  destruct l as [|x l]; [done|]. intros Hx. simpl. rewrite decide_False; [done|]. by apply Hx.
Qed.

Lemma missing_dirs q s names :
  rooted (q ++ [Normal s]) → Forall is_normal names →
  let top := q ++ [Normal s] in
  reverse (take_while (λ dir, under dir top) (ancestors (top ++ names))) = dirs_from top names.
Proof.
  intros Hr Hn top. assert (Hunder : ∀ k, under (top ++ k) top).
  { intros k. apply under_is. by exists k. }
  induction names as [|c names IH] using rev_ind.
  - rewrite app_nil_r. change (ancestors top) with (ancestors (q ++ [Normal s])). rewrite ancestors_snoc. fold top.
    cbn [take_while].
    rewrite decide_True by (rewrite <- (app_nil_r top) at 1; apply Hunder).
    rewrite take_while_stop; [done|]. intros x. unfold ancestors. simpl. intros [= <-] [r Heq]%under_is.
    unfold top in Heq. by apply parent_out in Heq.
  - apply Forall_app in Hn as [Hn [Hc _]%Forall_cons]. destruct c as [| | |t]; simpl in Hc; try done.
    rewrite (assoc_L (++) top). rewrite ancestors_snoc. cbn [take_while]. rewrite decide_True by (rewrite <- (assoc_L (++)); apply Hunder).
    rewrite reverse_cons, (IH Hn), dirs_from_snoc, (assoc_L (++)). done.
Qed.

Lemma make_dirs_ok p mode owner names q s tid w :
  world_ok w → plain_path ((q ++ [Normal s]) ++ names) → dir_at w q → none_below w (q ++ [Normal s]) →
  ∃ e w', make_dirs p mode owner (dirs_from (q ++ [Normal s]) names) tid w = (Ok (Some (default (fe_id e) tid)), w') ∧
    world_ok w' ∧ refiled w w' ∧ files w' !! (q ++ [Normal s]) = Some e ∧
    (∀ x, (∀ r, x ≠ (q ++ [Normal s]) ++ r) → files w' !! x = files w !! x).
Proof.
  revert q s tid w. induction names as [|c names IH]; intros q s tid w Hok Hp Hq Hnone;
    cbn [dirs_from make_dirs]; unfold mbind, st_bind, fresh, modify; cbn [make_dirs];
    set (w1 := insert_entry (q ++ [Normal s]) Content_Directory _ owner _ _).
  all: assert (Hpt : plain_path (q ++ [Normal s])) by (eapply plain_prefix; [exact Hp|by destruct q]).
  all: assert (Hs : s ≠ "") by apply (proj1 (rooted_snoc q s) (proj1 Hpt)).
  all: assert (Hf1 : ∃ e, files w1 = <[q ++ [Normal s] := e]> (files w) ∧ fe_content e = Content_Directory ∧ fe_id e = id_at w)
         by (eexists; split; [reflexivity|done]).
  all: destruct Hf1 as (e & Hf1 & Hce & Hide).
  all: assert (Href : refiled w w1) by (split; [by split|simpl; lia]).
  all: assert (Hn0 : files w !! (q ++ [Normal s]) = None) by (rewrite <- (app_nil_r (q ++ [Normal s])); apply Hnone).
  all: assert (Hok1 : world_ok w1) by (eapply (insert_ok w w1 q s e); try done; by apply plain_last in Hpt).
  all: assert (He1 : files w1 !! (q ++ [Normal s]) = Some e) by (rewrite Hf1; apply lookup_insert_eq).
  all: assert (Helse1 : ∀ x, (∀ r, x ≠ (q ++ [Normal s]) ++ r) → files w1 !! x = files w !! x)
         by (intros x Hx; rewrite Hf1, lookup_insert_ne; [done|by apply out_ne]).
  - exists e, w1. rewrite Hide. done.
  - assert (Hc : is_normal c).
    { destruct Hp as [Hp _]. apply rooted_rest in Hp; [|by destruct q]. by apply Forall_cons in Hp as [? _]. }
    destruct c as [| | |t]; simpl in Hc; try done.
    destruct (IH (q ++ [Normal s]) t (Some (default (id_at w) tid)) w1) as (e' & w' & Hrun & Hok' & Href' & He' & Helse');
      [done|by rewrite <- (assoc_L (++))|by unfold dir_at; rewrite He1; simpl; rewrite Hce| |].
    { intros r. rewrite Hf1, lookup_insert_ne, <- (assoc_L (++)); [apply Hnone|].
      apply not_eq_sym. intros Heq. symmetry in Heq. by apply parent_out in Heq. }
    exists e, w'. simpl in Hrun. rewrite Hide. split; [exact Hrun|]. split; [done|]. split; [|split].
    + destruct Href as [Hb1 Hl1], Href' as [Hb2 Hl2]. split; [|lia].
      apply (but_files_set w w1 (set_files (files w1) w')) with (fs := files w) in Hb1; [|exact Hb2|done]. exact Hb1.
    + rewrite Helse'; [done|]. apply parent_out.
    + intros x Hx. rewrite Helse'; [by apply Helse1|]. intros r. rewrite <- (assoc_L (++)). apply Hx.
Qed.

Lemma create_dirs_undone w p mode owner u w' :
  world_ok w → plain_path p → apply (Action_CreateDirs p mode owner) w = (Ok u, w') →
  world_ok w' ∧ restores w u w'.
Proof.
  intros Hok Hp Happ. apply applied_on_files in Happ as [[-> ->]|(v & Hv & Harm)]; [| |done].
  { split; [done|apply restores_nil]. }
  apply verdict_dirs in Hv as [->|(top & -> & [names ->] & Hne & Ha)]; [done| |apply Hp].
  destruct (missing_place _ _ (wk_tree _ Hok) (plain_prefix _ _ Hp Hne) Ha) as (q & s & -> & Hs & Hl & Hq & Hn & Hnone).
  cbn [arm] in Harm. unfold create_dirs, mbind, st_bind in Harm. cbv zeta in Harm. rewrite missing_dirs in Harm.
  2:{ by eapply plain_prefix. }
  2:{ eapply rooted_rest; [apply Hp|done]. }
  destruct (make_dirs_ok ((q ++ [Normal s]) ++ names) mode (default ROOT owner) names q s None w) as (e & w1 & Hrun & Hok1 & Href & He & Helse);
    [done..|].
  rewrite Hrun in Harm. injection Harm as <- <-. split; [done|].
  apply (remove_tree_back w w1 q s e); [apply Hok1|apply Href| |done|done|done].
  unfold dir_at. rewrite Helse; [done|apply parent_out].
Qed.
