(* ===== verification/Undone.v ===== *)
(** * Rolling a modelled world back

    What [World::apply] returns as an action's undo takes the world back to where it was,
    and a rollback of several actions, in the order of [rollback_order], takes it back to
    where the first began.  An action that is refused changes nothing.

    The undo of an action that is announced before the action changes anything is what a
    recovery performs when it cannot know whether the action was performed.  On a world
    where it was not, each part of it is refused or finds nothing to do ([undo_idle]). *)
From S2P Require Import Prelude.
From S2P Require Import Paths.
From S2P Require Import Effect.
From S2P Require Import Journal.
From S2P Require Import Precondition.
From S2P Require Import Accounts.
From S2P Require Import World.
From S2P Require Import Repository.
From S2P Require Import Apply.
From S2P Require Import WorldAccounts.
From S2P Require Import WorldFiles.
From S2P Require Import WorldNames.
From S2P Require Import WorldFrame.
From S2P Require Import WorldUndo.

Local Open Scope N_scope.

(** ** One action *)

Lemma account_undone w a u w' :
  world_ok w → on_accounts a = true → named_once a → apply a w = (Ok u, w') →
  world_ok w' ∧ restores w u w'.
Proof.
  intros [Ht Hn Ha] Hon Hna Happ.
  destruct (account_restores _ _ _ _ Ha Hna Hon Happ) as [Ha' Hr].
  destruct (account_files _ _ _ _ Hon Happ) as (Hf & Hp & Has & Hact & Hi). split; [|done].
  split; [by apply (tree_ok_same w)| |done].
  apply (names_ok_grow w); [done|done|by rewrite Hi| | |].
  - intros s (p & Hs & Hname). left. exists p. by rewrite <- Hf.
  - intros r p s Hin _. left. exists r. unfold pending_in in *. by rewrite <- Hp.
  - intros p s Hin _. left. by rewrite <- Has.
Qed.

Lemma undo_restores w a u w' :
  world_ok w → undoable w a → apply a w = (Ok u, w') → world_ok w' ∧ restores w u w'.
Proof.
  intros Hok Hu Happ. destruct a; cbn [undoable] in Hu;
    try (eapply account_undone; [done|apply Hu|apply Hu|done]).
  - by eapply create_dir_undone.
  - by eapply create_dirs_undone.
  - destruct expect; [by eapply put_absent_undone|by eapply put_present_undone].
  - by eapply set_mode_undone.
  - by eapply set_owner_undone.
  - by eapply set_aside_undone.
  - by eapply discard_undone.
  - by eapply reclaim_tree_undone.
  - by eapply copy_tree_undone.
Qed.

(** ** No undo of such an action is a sync *)

#[local] Abbreviation no_syncs := (Forall (λ b, is_sync b = false)).

Lemma no_sync_arm a v : on_files a = true → ensures no_syncs (arm a v []).
Proof.
  intros Ha. destruct a; try discriminate; cbn [arm];
    unfold create_dir, create_dirs, set_mode, set_owner, set_aside, discard, keep_path, remove_created,
      remove_created_tree, restore, reclaim_tree, copy_tree; returned.
Qed.

Lemma undo_no_sync w a u w' :
  undoable w a → apply a w = (Ok u, w') → no_syncs u.
Proof.
  intros Hu Happ. assert (H : ensures no_syncs (apply a)).
  { apply ensures_settled_or. intros v u' Hu'.
    assert (Hacc : no_syncs u') by (eapply Forall_impl; [exact Hu'|]; by intros []).
    destruct (on_files a) eqn:Hf; [|destruct (on_accounts a) eqn:Hon].
    - assert (Hno := no_sync_arm a v Hf). by destruct a.
    - destruct a; try discriminate; cbn [arm]; apply ensures_then; intros; by apply ensures_ret.
    - destruct a; try discriminate; try (by destruct Hu as [Hx _]). by apply ensures_put. }
  specialize (H w). by rewrite Happ in H.
Qed.

(** ** Several actions *)

(** Performing one action after the other: the journal of their undos. *)
Fixpoint perform_all (actions : list Action) : St (list (list Action)) :=
  match actions with
  | [] => mret []
  | action :: actions => undo ← apply action; journal ← perform_all actions; mret (undo :: journal)
  end.

Fixpoint all_undoable (w : World) (actions : list Action) : Prop :=
  match actions with
  | [] => True
  | action :: actions => undoable w action ∧ all_undoable (apply action w).2 actions
  end.

Lemma perform_restores actions w journal w' :
  world_ok w → all_undoable w actions → perform_all actions w = (Ok journal, w') →
  world_ok w' ∧ restores w (concat (reverse journal)) w' ∧
  Forall no_syncs journal.
Proof.
  revert w journal w'. induction actions as [|a actions IH]; intros w journal w' Hok; simpl.
  { intros _ [= <- <-]. split; [done|]. split; [apply restores_nil|done]. }
  intros [Hu Hall]. unfold mbind, st_bind. destruct (apply a w) as [[u|e] w1] eqn:Ha; [|done].
  destruct (perform_all actions w1) as [[j|e] w2] eqn:Hp; [|done]. intros [= <- <-].
  destruct (undo_restores _ _ _ _ Hok Hu Ha) as [Hok1 Hr1].
  destruct (IH _ _ _ Hok1 Hall Hp) as (Hok2 & Hr2 & Hs). split; [done|].
  rewrite reverse_cons, concat_app. simpl. rewrite app_nil_r.
  split; [by eapply restores_app|]. constructor; [by eapply undo_no_sync|done].
Qed.

Lemma nonsync_no_sync l : no_syncs l → nonsync l = l.
Proof. intros Hl. apply filter_all. intros x Hx. by eapply Forall_forall in Hl. Qed.

Lemma rollback_order_no_sync journal :
  Forall no_syncs journal →
  rollback_order journal = concat (reverse journal).
Proof.
  intros Hs. assert (Hall : no_syncs (backwards journal)).
  { apply Forall_concat. by apply Forall_reverse. }
  rewrite <- (nonsync_no_sync (rollback_order journal)).
  - rewrite nonsync_rollback_order. by apply nonsync_no_sync.
  - rewrite rollback_order_scan. destruct (scan_scanned (backwards journal)) as [_ _ _ _ Hfrom _].
    apply Forall_forall. intros b. rewrite elem_of_app, elem_of_reverse, Hfrom.
    intros Hb. by eapply Forall_forall in Hall.
Qed.

(** ** What is refused changes nothing *)

Lemma make_dirs_goes p mode owner dirs tid w : ∃ t w', make_dirs p mode owner dirs tid w = (Ok t, w').
Proof.
  revert tid w. induction dirs as [|d dirs IH]; intros tid w; simpl; [by eexists _, _|].
  unfold mbind, st_bind, fresh, modify. apply IH.
Qed.

Lemma insert_copy_goes p copy top w : ∃ t w', insert_copy p copy top w = (Ok t, w').
Proof.
  revert top w. induction copy as [|[q e] copy IH]; intros top w; simpl; [by eexists _, _|].
  unfold mbind, st_bind, fresh, modify. apply IH.
Qed.

Lemma arm_refused a v w e w' : on_files a = true → arm a v [] w = (Err e, w') → w' = w.
Proof.
  intros Ha. destruct a; try discriminate; cbn [arm];
    unfold create_dir, create_dirs, set_mode, set_owner, set_aside, discard, keep_path, remove_created,
      remove_created_tree, restore, reclaim_tree, copy_tree, change_entry, sibling,
      mbind, st_bind, fresh, gets, modify, fails, mret, st_ret, id; cbv beta iota zeta;
    repeat first [done|by intros [= _ <-]|by simplify_eq; intros [= _ <-]|
      match goal with
      | |- context [make_dirs ?p ?m ?o ?d ?t ?w] =>
          let H := fresh in destruct (make_dirs_goes p m o d t w) as (? & ? & H); rewrite H
      | |- context [insert_copy ?p ?c ?t ?w] =>
          let H := fresh in destruct (insert_copy_goes p c t w) as (? & ? & H); rewrite H
      end|case_match].
Qed.

(**  What an action does can be taken back: applying the undo it returned, on a
    well-formed world, leads to a world equal to the one before. *)
Lemma action_undone w a u w' :
  world_ok w → undoable w a → apply a w = (Ok u, w') →
  world_ok w' ∧ ∃ w3, run_all u w' = (Ok tt, w3) ∧ world_eq w3 w.
Proof.
  intros Hok Hu Happ. destruct (undo_restores _ _ _ _ Hok Hu Happ) as [Hok' Hr]. split; [done|].
  destruct (Hr w') as (w3 & Hrun & Hl); [reflexivity|]. exists w3. split; [done|]. by apply like_world_eq.
Qed.


(**  An action on files or accounts that is refused leaves the world as it was. *)
Theorem refused_unchanged w a e w' :
  on_files a = true ∨ on_accounts a = true ∨ (∃ p c m o x, a = Action_PutFile p c m o x) →
  apply a w = (Err e, w') → w' = w.
Proof.
  intros [Ha|[Ha|(p & c & m & o & x & ->)]] Happ.
  - rewrite apply_on_files in Happ by done. destruct (precondition w a []).1 as [v|]; [|by simplify_eq].
    destruct v; [|by simplify_eq|]; by eapply arm_refused.
  - rewrite apply_on_accounts in Happ by done. destruct (apply_account w a) as [[]|]; by simplify_eq.
  - rewrite apply_put in Happ. unfold put, require, mbind, st_bind in Happ.
    destruct (precondition w _ []).1 as [v|]; [|by simplify_eq]. by destruct x.
Qed.

(** ** Witnesses *)

(** An entry at an absolute path with a plain name, in a directory. *)
Definition placed (w : World) (e : path * FileEntry) : Prop :=
  rooted e.1 ∧ match parent e.1 with Some q => dir_at w q | None => True end ∧
  match file_name e.1 with Some s => is_leftover s = false | None => True end.
#[local] Instance placed_dec w e : Decision (placed w e).
Proof. unfold placed, dir_at. destruct (parent e.1), (file_name e.1); apply _. Defined.

Lemma world_ok_placed w :
  Forall (placed w) (map_to_list (files w)) → pending_of w = ∅ → aside_profiles w = ∅ →
  accounts_ok w → world_ok w.
Proof.
  intros Hall Hp Ha Hacc. assert (Hat : ∀ p, is_Some (files w !! p) → ∃ e, placed w (p, e)).
  { intros p [e He]. exists e. eapply Forall_forall in Hall; [exact Hall|]. by apply elem_of_map_to_list. }
  split; [split|split|done].
  - intros p (e & H & _)%Hat. exact H.
  - intros p s (e & _ & H & _)%Hat. simpl in H. by rewrite parent_snoc in H.
  - intros s (p & (e & _ & _ & H)%Hat & Hs). simpl in H. rewrite Hs in H. by apply unused_plain.
  - intros r p s. unfold pending_in. rewrite Hp, lookup_empty. by intros ?%not_elem_of_nil.
  - intros p s [x Hx]. by rewrite Ha, lookup_empty in Hx.
Qed.

Lemma accounts_ok_none w : groups w = ∅ → users w = ∅ → accounts_ok w.
Proof.
  intros Hg Hu. split; rewrite ?Hg, ?Hu; try (intros ????; by rewrite lookup_empty);
    try (intros ??; by rewrite lookup_empty).
Qed.

Lemma default_ok : world_ok default_world.
Proof.
  apply world_ok_placed; [|reflexivity|reflexivity|by apply accounts_ok_none].
  apply (bool_decide_unpack _). vm_compute. reflexivity.
Qed.

Lemma plain_check p :
  bool_decide (rooted p ∧
    Forall (λ c, match c with Normal s => is_leftover s | _ => false end = false) p) = true →
  plain_path p.
Proof.
  intros [Hr Hs]%bool_decide_eq_true. split; [done|]. intros s Hin. by eapply Forall_forall in Hs; [|exact Hin].
Qed.

(** Whether an action is done, and with an undo. *)
Definition went {X} (r : result Failure (list X) * World) : bool :=
  match r.1 with Ok (_ :: _) => true | _ => false end.

Lemma went_Ok {X} (r : result Failure (list X) * World) :
  went r = true → ∃ u w', r = (Ok u, w') ∧ u ≠ [].
Proof. destruct r as [[[|x u]|e] w']; try done. intros _. by eexists _, _. Qed.

Lemma action_undone_witness :
  let a := Action_CreateDirs (of_string "/etc/nix/conf.d") 493 None in
  ∃ u w', apply a default_world = (Ok u, w') ∧ u ≠ [] ∧
    world_ok w' ∧ ∃ w3, run_all u w' = (Ok tt, w3) ∧ world_eq w3 default_world.
Proof.
  intros a. destruct (went_Ok (apply a default_world)) as (u & w' & Ha & Hu); [vm_compute; reflexivity|].
  exists u, w'. split; [exact Ha|]. split; [exact Hu|].
  apply (action_undone default_world a u w' default_ok); [|exact Ha].
  apply plain_check. vm_compute. reflexivity.
Defined.

Lemma refused_unchanged_witness :
  let a := Action_Discard (of_string "/srv") (mkFileId 1 9 None) in
  ∃ e, apply a default_world = (Err e, default_world).
Proof.
  intros a. destruct (apply a default_world) as [r w'] eqn:Ha.
  assert (Hr : match (apply a default_world).1 with Ok _ => False | Err _ => True end) by (vm_compute; exact I).
  rewrite Ha in Hr. destruct r as [u|e]; [destruct Hr|].
  exists e. f_equal. apply (refused_unchanged default_world a e w'); [left; reflexivity|exact Ha].
Defined.

(** A run that makes a group and a user, a directory of its own and a file in it, changes the
    file, and sets the directory aside. *)
Definition some_actions : list Action :=
  [Action_AddGroup "nixbld" 30000;
   Action_AddUser (mkUserSpec "nixbld1" 30001 30000 (of_string "/var/empty") (of_string "/bin/nologin")
     "Nix build user 1" ["nixbld"]);
   Action_CreateDir (of_string "/etc/nix") 493 None;
   Action_PutFile (of_string "/etc/nix/nix.conf") "sandbox = true" 420 None Expect_Absent;
   Action_PutFile (of_string "/etc/nix/nix.conf") "" 420 None (Expect_Present (mkFileId 1 10 (Some (10%Z, 0))));
   Action_SetMode (of_string "/etc/nix") 448 493;
   Action_SetAside (of_string "/etc/nix") (mkFileId 1 9 (Some (9%Z, 0)))].


(** ** Undoing what was not done *)


(** Performing [b] on a world like [w] changes nothing but its counter, refused or not. *)
Definition idles (w : World) (b : Action) : Prop := ∀ w2, like w2 w → like (apply b w2).2 w.

(** The number of the next file is not a file's yet. *)
Definition next_unused (w : World) : Prop :=
  ∀ p e, files w !! p = Some e → ino (fe_id e) < next_ino w.

(** ** Accounts *)

Section accounts.
Context {A : Type} `{Accounts A}.

(** What undoes an action on accounts is done already before it. *)
Lemma account_undo_done (a : A) action undo :
  done_already a action = false → account_undo a action = Ok undo →
  Forall (λ b, done_already a b = true) undo.
Proof.
  intros Hd Hu.
  destruct action; cbn [account_undo] in Hu; try (injection Hu as <-; constructor);
    unfold expect_group, expect_user in *;
    repeat first [progress (apply bind_Ok in Hu as (? & ? & Hu))|progress case_match; simplify_eq];
    rewrite ?Forall_singleton; simpl.
  all: repeat match goal with Hq : group_of _ _ = _ |- _ => rewrite Hq | Hq : user_of _ _ = _ |- _ => rewrite Hq end.
  all: simpl; rewrite ?bool_decide_true by done; try done.
  - injection Hu as <-. apply Forall_singleton. simpl. by rewrite bool_decide_true.
  - (* a group that goes, and its members *)
    constructor; [simpl; rewrite H2; simpl; by rewrite bool_decide_true|].
    apply Forall_fmap, Forall_forall. intros m Hm. simpl. unfold members_of. rewrite H2. simpl.
    by rewrite bool_decide_true.
  - simpl in Hd. by rewrite bool_decide_true by by apply bool_decide_eq_false in Hd.
  - simpl in Hd. apply bool_decide_eq_false, dec_stable in Hd. by rewrite bool_decide_true.
Qed.

End accounts.

Lemma done_idles w b : on_accounts b = true → done_already w b = true → idles w b.
Proof.
  intros Hon Hd w2 Hl. rewrite apply_on_accounts by done. unfold apply_account, account_precondition.
  assert (Hd2 : done_already w2 b = true).
  { rewrite <- Hd. destruct b; try discriminate; simpl; unfold members_of; simpl;
      by rewrite ?(lk_groups _ _ Hl), ?(lk_users _ _ Hl). }
  by rewrite Hd2.
Qed.

Lemma account_undo_idles w a u w' :
  on_accounts a = true → apply a w = (Ok u, w') → Forall (idles w) u.
Proof.
  intros Hon. rewrite apply_on_accounts by done. unfold apply_account, account_precondition.
  destruct (done_already w a) eqn:Hd; simpl; [by intros [= <- <-]|].
  destruct (account_undo w a) as [undo|] eqn:Hu; simpl; [|done]. intros [= <- _].
  apply Forall_forall. intros b Hb. apply done_idles; [by eapply account_undo_on|].
  by eapply (Forall_forall _ undo) in Hb; [|by eapply account_undo_done].
Qed.

(** ** Files *)

Lemma spot_of_same w w2 p : files w2 = files w → spot_of w2 p = spot_of w p.
Proof.
  intros Hf. unfold spot_of, parent_is_dir. assert (Hd : ∀ l, dirs_down w2 p l = dirs_down w p l).
  { intros l. induction l as [|d l IH]; [done|]. simpl. by rewrite Hf, IH. }
  by rewrite Hd, Hf.
Qed.

Lemma refused_idles w b :
  on_files b = true → (∀ w2, like w2 w → ∀ v, (precondition w2 b []).1 = Ok v → v = Verdict_Done) → idles w b.
Proof.
  intros Hon Hp w2 Hl. rewrite apply_on_files by done.
  destruct (precondition w2 b []).1 as [v|] eqn:Hv; [|done]. by rewrite (Hp w2 Hl v Hv).
Qed.

Lemma removed_idles w p id :
  spot_of w p = Spot_Missing ∨ (∃ n, spot_of w p = Spot_Present n ∧ nd_id n ≠ id) →
  idles w (Action_RemoveCreated p id) ∧ idles w (Action_RemoveCreatedTree p id).
Proof.
  intros Hs. split; apply refused_idles; try done; intros w2 Hl v;
    rewrite ?verdict_removed, ?verdict_removed_tree, (spot_of_same w) by apply Hl;
    unfold removable; destruct Hs as [->|(n & -> & Hn)]; simpl; try (by intros [= <-]);
    by rewrite decide_False by done.
Qed.

Lemma restore_idles w p from expect :
  (∀ n, spot_of w from ≠ Spot_Present n) → idles w (Action_Restore p from expect).
Proof.
  intros Hs. apply refused_idles; [done|]. intros w2 Hl v.
  assert (Hs2 : ∀ n, spot_of w2 from ≠ Spot_Present n) by (intros n; rewrite (spot_of_same w) by apply Hl; apply Hs).
  unfold precondition, check, look_spot, try, mbind, look_bind, mret, look_ret. simpl.
  destruct (spot_of w2 p); [done|..];
    (case_decide; [|done]); (case_decide; [done|]); simpl;
    destruct (spot_of w2 from) as [f| |n]; simpl; try done; by destruct (Hs2 n).
Qed.

Lemma none_spot w p n : tree_ok w → files w !! p = None → spot_of w p ≠ Spot_Present n.
Proof. intros Ht Hn Hs. destruct (spot_present _ Ht _ _ Hs) as (q & s & e & -> & _ & _ & He & _). congruence. Qed.

(** An aside or a backup does not exist before the action that makes it. *)
Lemma sibling_idles w q b purpose n expect :
  world_ok w → is_Some (files w !! (q ++ [Normal b])) → purpose ∈ LEFTOVER_PURPOSES → next_ino w <= n →
  idles w (Action_Restore (q ++ [Normal b]) (sibling_of (q ++ [Normal b]) purpose (acting_for w) n) expect).
Proof.
  intros Hok Hs Hp Hn. apply restore_idles. intros m. apply none_spot; [apply Hok|].
  destruct (sibling_free w q b purpose n) as (_ & Hnone & _); [apply Hok..|done|done|done|].
  assert (H := Hnone []). by rewrite app_nil_r in H.
Qed.

Lemma like_files_alter w w2 p e f :
  like w2 w → files w !! p = Some e → f e = e → like (set_files (alter f p (files w2)) w2) w.
Proof.
  intros Hl He Hf. assert (Hfs := lk_files _ _ Hl). destruct Hl. split; try done. simpl.
  rewrite Hfs. apply map_eq. intros x.
  destruct (decide (x = p)) as [->|]; [|by rewrite lookup_alter_ne].
  by rewrite lookup_alter_eq, He; simpl; rewrite Hf.
Qed.

Lemma set_mode_idles w p mode expect u w' :
  world_ok w → apply (Action_SetMode p mode expect) w = (Ok u, w') → Forall (idles w) u.
Proof.
  intros Hok. rewrite apply_on_files, verdict_mode by done.
  destruct (node p (spot_of w p)) as [n|] eqn:Hn; [|done]. case_decide as Hm; [|done].
  destruct (node_at _ _ _ (wk_tree _ Hok) Hn) as (q & s & e & _ & _ & He & Hme & _). cbn [arm].
  rewrite (set_mode_at _ _ _ _ e) by done. intros [= <- _]. apply Forall_singleton.
  intros w2 Hl. rewrite apply_on_files, verdict_mode, (spot_of_same w), Hn by (done || apply Hl).
  case_decide; [|done]. cbn [arm]. rewrite (set_mode_at _ _ _ _ e) by by rewrite (lk_files _ _ Hl).
  apply (like_files_alter w w2 p e); [done..|]. rewrite <- Hm, Hme. by destruct e.
Qed.

Lemma set_owner_idles w p owner expect u w' :
  world_ok w → apply (Action_SetOwner p owner expect) w = (Ok u, w') → Forall (idles w) u.
Proof.
  intros Hok. rewrite apply_on_files, verdict_owner by done.
  destruct (node p (spot_of w p)) as [n|] eqn:Hn; [|done]. case_decide as Hm; [|done].
  destruct (node_at _ _ _ (wk_tree _ Hok) Hn) as (q & s & e & _ & _ & He & _ & Hoe). cbn [arm].
  rewrite (set_owner_at _ _ _ _ e) by done. intros [= <- _]. apply Forall_singleton.
  intros w2 Hl. rewrite apply_on_files, verdict_owner, (spot_of_same w), Hn by (done || apply Hl).
  case_decide; [|done]. cbn [arm]. rewrite (set_owner_at _ _ _ _ e) by by rewrite (lk_files _ _ Hl).
  apply (like_files_alter w w2 p e); [done..|]. rewrite <- Hm, Hoe. by destruct e.
Qed.

Lemma create_dir_idles w p mode owner u w' :
  apply (Action_CreateDir p mode owner) w = (Ok u, w') → Forall (idles w) u.
Proof.
  rewrite apply_on_files, verdict_create_dir by done.
  destruct (absent p (spot_of w p)) as [[]|] eqn:Ha; simpl; [|done]. apply absent_Ok in Ha.
  intros [= <- _]. apply Forall_singleton, removed_idles. by left.
Qed.

Lemma create_dirs_idles w p mode owner u w' :
  plain_path p → apply (Action_CreateDirs p mode owner) w = (Ok u, w') → Forall (idles w) u.
Proof.
  intros Hp Happ. apply applied_on_files in Happ as [[-> _]|(v & Hv & Harm)]; [constructor| |done].
  apply verdict_dirs in Hv as [->|(top & -> & _ & _ & Ha%absent_Ok)]; [done| |apply Hp].
  cbn [arm] in Harm. unfold create_dirs, mbind, st_bind in Harm.
  destruct (make_dirs _ _ _ _ _ _) as [[t|] w1]; [|done]. injection Harm as <- _.
  apply Forall_singleton, removed_idles. by left.
Qed.

Lemma put_idles w p contents mode owner expect u w' :
  world_ok w → apply (Action_PutFile p contents mode owner expect) w = (Ok u, w') → Forall (idles w) u.
Proof.
  intros Hok. rewrite apply_put. unfold put, mbind, st_bind, require. rewrite verdict_put.
  destruct (expected p expect (spot_of w p)) as [[]|] eqn:Hx; simpl; [|done]. destruct expect as [|old].
  - intros [= <- _]. apply absent_Ok in Hx. apply Forall_singleton, removed_idles. by left.
  - unfold expected in Hx. destruct (holding p old (spot_of w p)) as [n|] eqn:Hh; [|done].
    destruct (spot_holding _ _ _ _ (wk_tree _ Hok) Hh) as (q & b & e & -> & _ & _ & He & _).
    unfold sibling. intros [= <- _]. apply Forall_singleton.
    apply sibling_idles; [done|by rewrite He|by left|simpl; lia].
Qed.

Lemma set_aside_idles w p expect u w' :
  world_ok w → apply (Action_SetAside p expect) w = (Ok u, w') → Forall (idles w) u.
Proof.
  intros Hok. rewrite apply_on_files, verdict_aside by done.
  destruct (holding p expect (spot_of w p)) as [n|] eqn:Hh; simpl; [|done].
  destruct (spot_holding _ _ _ _ (wk_tree _ Hok) Hh) as (q & b & e & -> & _ & _ & He & _).
  intros [= <- _]. apply Forall_singleton.
  apply sibling_idles; [done|by rewrite He|by right; left|simpl; lia].
Qed.

Lemma discard_idles w p expect u w' :
  (∀ r, p ∉ pending_in w r) → apply (Action_Discard p expect) w = (Ok u, w') → Forall (idles w) u.
Proof.
  intros Hp. rewrite apply_on_files, verdict_discard by done.
  destruct (holding p expect (spot_of w p)) as [n|]; simpl; [|done]. intros [= <- _].
  apply Forall_singleton. intros w2 Hl. rewrite apply_on_files, verdict_keep by done. simpl.
  assert (Hpend := lk_pending _ _ Hl). destruct Hl. split; try done. intros r.
  rewrite pending_unpend, Hpend.
  apply filter_all. intros x Hx ->. by apply (Hp r).
Qed.

Lemma copy_tree_idles w from to owner mode u w' :
  apply (Action_CopyTree from to owner mode) w = (Ok u, w') → Forall (idles w) u.
Proof.
  intros Happ. apply applied_on_files in Happ as [[-> _]|(v & Hv & Harm)]; [constructor| |done].
  apply verdict_copy in Hv as (_ & _ & Ha%absent_Ok). cbn [arm] in Harm. unfold copy_tree in Harm.
  case_decide; [done|]. unfold mbind, st_bind, gets in Harm.
  destruct (insert_copy _ _ _ _) as [[t|] w1]; [|done]. injection Harm as <- _.
  apply Forall_singleton, removed_idles. by left.
Qed.

(** The identities of a copy are new. *)
Lemma insert_copy_new p copy n top w t w' :
  insert_copy p copy top w = (Ok t, w') → n <= next_ino w →
  p ∈ copy.*1 ∨ (∃ id, top = Some id ∧ n <= ino id) → ∃ id, t = Some id ∧ n <= ino id.
Proof.
  revert top w. induction copy as [|[y e] copy IH]; intros top w; csimpl.
  { intros [= <- _] _ [?%elem_of_nil|?]; done. }
  unfold mbind, st_bind, fresh, modify. intros Hr Hle Hp. apply IH in Hr; [done|simpl; lia|].
  destruct (decide (y = p)) as [->|Hne]; [right; by eexists|].
  destruct Hp as [[?|?]%elem_of_cons|?]; [done|by left|by right].
Qed.

Lemma reclaim_tree_idles w p expect owner mode u w' :
  world_ok w → next_unused w → apply (Action_ReclaimTree p expect owner mode) w = (Ok u, w') →
  Forall (idles w) u.
Proof.
  intros Hok Hnew Happ. apply applied_on_files in Happ as [[-> _]|(v & Hv & Harm)]; [constructor| |done].
  apply verdict_reclaim in Hv as (_ & n & Hh).
  destruct (spot_holding _ _ _ _ (wk_tree _ Hok) Hh) as (q & b & e & -> & _ & _ & He & Hid).
  apply holding_Ok in Hh as [Hs Hn]. cbn [arm] in Harm.
  unfold reclaim_tree, sibling, fresh, gets, modify, mbind, st_bind in Harm. simpl in Harm.
  destruct (insert_copy _ _ _ _) as [[t|] w1] eqn:Hcopy; [|done]. injection Harm as <- _.
  assert (Hnormal : normal_below w (q ++ [Normal b])) by (apply tree_normal_below; [apply Hok|by destruct q]).
  apply (insert_copy_new _ _ (next_ino w)) in Hcopy as (id & -> & Hle); [|simpl; lia|].
  2:{ left. erewrite copy_of_files; [by eapply copy_top|done]. }
  constructor; [|apply Forall_singleton, sibling_idles; [done|by rewrite He|by right; left|simpl; lia]].
  apply removed_idles. right. exists n. split; [done|]. simpl. intros Hsame.
  apply Hnew in He. rewrite Hid, <- Hn, Hsame in He. lia.
Qed.

(** ** Each action *)

Lemma undo_idle w a u w' :
  world_ok w → undoable w a → next_unused w → apply a w = (Ok u, w') → Forall (idles w) u.
Proof.
  intros Hok Hu Hnew Happ. destruct a; cbn [undoable] in Hu;
    try (by eapply account_undo_idles; [apply Hu|]).
  - by eapply create_dir_idles.
  - by eapply create_dirs_idles.
  - by eapply put_idles.
  - by eapply set_mode_idles.
  - by eapply set_owner_idles.
  - by eapply set_aside_idles.
  - by eapply discard_idles.
  - by eapply reclaim_tree_idles.
  - by eapply copy_tree_idles.
Qed.
