(* ===== verification/WorldAfter.v ===== *)
(** * What is at a path after an action

    What [apply] leaves at the path, the account, the unit or the profile an action was
    about, when it succeeds. *)
From S2P Require Import Prelude.
From S2P Require Import Paths.
From S2P Require Import Effect.
From S2P Require Import Precondition.
From S2P Require Import Accounts.
From S2P Require Import World.
From S2P Require Import Repository.
From S2P Require Import Apply.
From S2P Require Import WorldAccounts.
From S2P Require Import WorldFiles.
From S2P Require Import WorldNames.
From S2P Require Import WorldFrame.
From S2P Require Import WorldUndo.

Local Open Scope N_scope.

(** ** Running several *)

Lemma run_all_cons a l w w2 :
  run_all (a :: l) w = (Ok tt, w2) ↔ ∃ u w1, apply a w = (Ok u, w1) ∧ run_all l w1 = (Ok tt, w2).
Proof.
  simpl. unfold mbind, st_bind. destruct (apply a w) as [[u|e] w1]; naive_solver.
Qed.

Lemma run_all_one a w w2 : run_all [a] w = (Ok tt, w2) ↔ ∃ u, apply a w = (Ok u, w2).
Proof.
  rewrite run_all_cons. simpl. unfold mret, st_ret. naive_solver.
Qed.

Lemma run_all_nil w w2 : run_all [] w = (Ok tt, w2) ↔ w2 = w.
Proof. simpl. unfold mret, st_ret. naive_solver. Qed.

Lemma run_all_two l k w w2 :
  run_all (l ++ k) w = (Ok tt, w2) ↔ ∃ w1, run_all l w = (Ok tt, w1) ∧ run_all k w1 = (Ok tt, w2).
Proof.
  revert w. induction l as [|a l IH]; intros w.
  - simpl. split; [intros Hk; by exists w|]. intros (w1 & [= <-] & Hk). done.
  - simpl app. rewrite run_all_cons. setoid_rewrite IH. setoid_rewrite run_all_cons. naive_solver.
Qed.

(** What every action keeps, many keep. *)
Lemma run_all_keeps (P : World → Prop) l w w2 :
  (∀ a w u w1, a ∈ l → P w → apply a w = (Ok u, w1) → P w1) →
  P w → run_all l w = (Ok tt, w2) → P w2.
Proof.
  revert w. induction l as [|a l IH]; intros w Ha Hw; [by intros ->%run_all_nil|].
  intros (u & w1 & Hap & Hr)%run_all_cons. apply (IH w1); [|by eapply Ha; [left|..]|done].
  intros b v u' v' Hb. apply Ha. by right.
Qed.

(** ** Modes and owners *)

Lemma set_mode_after w p mode expect u w' :
  tree_ok w → apply (Action_SetMode p mode expect) w = (Ok u, w') →
  ∃ e, files w !! p = Some e ∧ fe_mode e = expect ∧
    w' = set_files (alter (with_mode mode) p (files w)) w.
Proof.
  intros Ht. rewrite apply_on_files, verdict_mode by done.
  destruct (node p (spot_of w p)) as [n|] eqn:Hn; [|done].
  destruct (decide (nd_mode n = expect)) as [Hm|]; [|done].
  destruct (node_at _ _ _ Ht Hn) as (q & s & e & -> & Hq & He & Hmode & _).
  simpl. rewrite (set_mode_at _ _ _ _ e) by done. intros [= <- <-]. exists e. by rewrite <- Hmode.
Qed.

Lemma set_owner_after w p owner expect u w' :
  tree_ok w → apply (Action_SetOwner p owner expect) w = (Ok u, w') →
  ∃ e, files w !! p = Some e ∧ fe_owner e = expect ∧
    w' = set_files (alter (with_owner owner) p (files w)) w.
Proof.
  intros Ht. rewrite apply_on_files, verdict_owner by done.
  destruct (node p (spot_of w p)) as [n|] eqn:Hn; [|done].
  destruct (decide (nd_owner n = expect)) as [Hm|]; [|done].
  destruct (node_at _ _ _ Ht Hn) as (q & s & e & -> & Hq & He & _ & Hown).
  simpl. rewrite (set_owner_at _ _ _ _ e) by done. intros [= <- <-]. exists e. by rewrite <- Hown.
Qed.

(** ** Directories *)

Lemma make_dirs_last p mode owner dirs tid w t w' :
  make_dirs p mode owner (dirs ++ [p]) tid w = (Ok t, w') →
  ∃ id, files w' !! p = Some (mkFileEntry Content_Directory mode owner id (ino id)).
Proof.
  revert tid w. induction dirs as [|d dirs IH]; intros tid w; simpl; unfold mbind, st_bind, fresh, modify.
  { rewrite decide_True by done. intros [= <- <-]. simpl. rewrite lookup_insert_eq. by exists (id_at w). }
  apply IH.
Qed.

Lemma create_dirs_after w p mode owner u w' :
  rooted p → files w !! p = None → apply (Action_CreateDirs p mode owner) w = (Ok u, w') →
  ∃ id, files w' !! p = Some (mkFileEntry Content_Directory mode (default ROOT owner) id (ino id)).
Proof.
  intros Hp Hn. rewrite apply_on_files by done.
  destruct (precondition w (Action_CreateDirs p mode owner) []).1 as [v|] eqn:Hv; [|done].
  assert (Hd : v ≠ Verdict_Done).
  { intros ->. revert Hv. unfold precondition, check, created_below, mbind, look_bind, look_spot.
    cbn -[spot_of climb]. assert (Hnp : ∀ n, spot_of w p ≠ Spot_Present n).
    { intros n. unfold spot_of. destruct (parent p); [|done]. destruct (parent_is_dir w p); [|done].
      by rewrite Hn. }
    destruct (climb_up w (length p) p [] Hp) as (t & Hc & _ & _). unfold try.
    destruct (spot_of w p) as [f| |n]; [destruct (gone f); [|done]| |by destruct (Hnp n)];
      cbv beta; cbn -[climb] in Hc; rewrite Hc; by destruct (absent t (spot_of w t)). }
  apply verdict_dirs in Hv as [->|(top & -> & [r ->] & Hne & Ha)]; [done| |done].
  cbn [arm]. unfold create_dirs. cbv zeta. unfold mbind, st_bind.
  assert (∃ dirs, reverse (take_while (λ dir, under dir top) (ancestors (top ++ r))) = dirs ++ [top ++ r])
    as [dirs ->].
  { destruct (rooted_cases _ Hp) as [Heq|(q & s & Heq & _ & _)]; rewrite Heq.
    - exists []. unfold ancestors. cbn. rewrite decide_True; [done|].
      apply under_is. rewrite <- Heq. by exists r.
    - rewrite ancestors_snoc. cbn [take_while]. rewrite decide_True, reverse_cons; [by eexists|].
      apply under_is. rewrite <- Heq. by exists r. }
  destruct (make_dirs _ _ _ _ _ w) as [[t|] w1] eqn:Hm; [|done].
  apply make_dirs_last in Hm as [id Hid]. intros [= <- <-]. by exists id.
Qed.

(** ** Files *)

Lemma put_after w p contents mode owner expect u w' :
  put p contents mode owner expect w = (Ok u, w') →
  ∃ id, files w' !! p = Some (mkFileEntry (Content_File contents) mode owner id (ino id)).
Proof.
  unfold put, mbind, st_bind. destruct (require _ w) as [[v|] w1]; [|done].
  destruct expect as [|old]; simpl; intros [= <- <-]; simpl;
    rewrite lookup_insert_eq; by exists (id_at w1).
Qed.

(** What is neither below the path nor goes aside stays. *)
Lemma put_elsewhere w p contents mode owner expect u w' x :
  world_ok w → put p contents mode owner expect w = (Ok u, w') →
  is_Some (files w !! x) → (∀ r, x ≠ p ++ r) → files w' !! x = files w !! x.
Proof.
  intros Hok. unfold put, mbind, st_bind, require. rewrite verdict_put. unfold expected.
  destruct expect as [|old].
  { destruct (absent p (spot_of w p)); [|done]. simpl. intros [= <- <-] _ Hx. simpl.
    by rewrite lookup_insert_ne by by apply out_ne. }
  destruct (holding p old (spot_of w p)) as [n|] eqn:Hh; [|done].
  destruct (spot_holding _ _ _ _ (wk_tree _ Hok) Hh) as (q & b & e & -> & Hb & Hq & He & _).
  simpl. intros [= <- <-] Hs Hx. simpl. rewrite lookup_insert_ne by by apply out_ne.
  set (aside := sibling_of (q ++ [Normal b]) "backup" (acting_for w) (next_ino w + 1)).
  destruct (sibling_free w q b "backup" (next_ino w + 1)) as (Ha & Hnone & _);
    [apply Hok|apply Hok|by eexists|by left|lia|].
  apply (move_tree_elsewhere (q ++ [Normal b]) aside Ha w x); [|done|].
  - apply tree_normal_below; [apply Hok|by destruct q].
  - intros r ->. rewrite Hnone in Hs. by destruct Hs.
Qed.

(** ** Trees taken back *)

Lemma insert_copy_entries p copy top w top' w' :
  NoDup copy.*1 → insert_copy p copy top w = (Ok top', w') →
  (∀ x, x ∉ copy.*1 → files w' !! x = files w !! x) ∧
  (∀ x e, (x, e) ∈ copy → ∃ id,
     files w' !! x = Some (mkFileEntry (fe_content e) (fe_mode e) (fe_owner e) id (ino id))).
Proof.
  revert top w. induction copy as [|[y e] copy IH]; intros top w Hnd; csimpl in *.
  { intros [= <- <-]. split; [done|]. by intros x e ?%elem_of_nil. }
  apply NoDup_cons in Hnd as [Hy Hnd]. unfold mbind, st_bind, fresh, modify.
  set (w1 := insert_entry y (fe_content e) (fe_mode e) (fe_owner e) (id_at w) (set_next_ino (next_ino w + 1) w)).
  intros Hrun. destruct (IH _ w1 Hnd Hrun) as [Hout Hin]. split.
  - intros x [Hne Hx]%not_elem_of_cons. rewrite Hout by done. simpl. by rewrite lookup_insert_ne.
  - intros x e' [[= -> ->]|Hx]%elem_of_cons; [|by apply Hin].
    rewrite Hout by done. simpl. rewrite lookup_insert_eq. by exists (id_at w).
Qed.

Lemma reclaim_after w p expect owner mode u w' :
  world_ok w → apply (Action_ReclaimTree p expect owner mode) w = (Ok u, w') →
  ∃ e id, files w !! p = Some e ∧
    files w' !! p = Some (mkFileEntry (fe_content e) mode owner id (ino id)) ∧
    ∀ r e', files w' !! (p ++ r) = Some e' → fe_owner e' = owner.
Proof.
  intros Hok Happ. rewrite apply_on_files in Happ by done.
  destruct (precondition w (Action_ReclaimTree p expect owner mode) []).1 as [v|] eqn:Hv; [|done].
  apply verdict_reclaim in Hv as (-> & n & Hn). rename Happ into Harm.
  destruct (spot_holding _ _ _ _ (wk_tree _ Hok) Hn) as (q & b & e0 & -> & _ & _ & He0 & _).
  set (p := q ++ [Normal b]) in *.
  assert (Hnb : normal_below w p) by (apply tree_normal_below; [apply Hok|by destruct q]).
  destruct (sibling_free w q b "aside" (next_ino w)) as (Ha & _);
    [apply Hok|apply Hok|by eexists|by right; left|lia|]. fold p in Ha.
  cbn [arm] in Harm. unfold reclaim_tree, sibling, mbind, st_bind, fresh, gets, modify, mret, st_ret in Harm.
  simpl in Harm. fold p in Harm.
  set (aside := sibling_of p "aside" (acting_for w) (next_ino w)) in *.
  set (w0 := set_next_ino (next_ino w + 1) w) in *.
  destruct (insert_copy p _ None _) as [[top|] w2] eqn:Hrun; [|done].
  injection Harm as <- <-. simpl.
  assert (Hnd : NoDup (copy_of w0 p p owner mode).*1) by by apply NoDup_copy_of.
  destruct (insert_copy_entries _ _ _ _ _ _ Hnd Hrun) as [Hout Hin].
  destruct (Hin p (copied mode owner true e0)) as [id Hid].
  { apply elem_of_copy_of; [done|]. exists [], e0. rewrite !app_nil_r. by rewrite bool_decide_true. }
  exists e0, id. split; [done|]. split; [exact Hid|]. intros r e' He'.
  destruct (decide (p ++ r ∈ (copy_of w0 p p owner mode).*1)) as [Hk|Hk].
  - apply list_elem_of_fmap in Hk as ([x ex] & Hx & Hin'). simpl in Hx. subst x.
    destruct (Hin _ _ Hin') as [id' Hid']. rewrite Hid' in He'. injection He' as <-.
    apply elem_of_copy_of in Hin' as (r' & e1 & _ & _ & ->); [done|done].
  - rewrite Hout in He' by done. by rewrite (move_tree_from p aside Ha w0) in He'.
Qed.

(** ** Trees removed *)

Lemma remove_created_tree_after w p expect u w' :
  apply (Action_RemoveCreatedTree p expect) w = (Ok u, w') →
  w' = w ∨ w' = remove_tree p w.
Proof.
  intros Happ. apply applied_on_files in Happ as [[-> ->]|(v & Hv & Harm)]; [by left| |done].
  right. by injection Harm as <- <-.
Qed.

(** ** Accounts *)

Lemma account_after w a u w' :
  on_accounts a = true → apply a w = (Ok u, w') →
  (done_already w a = true ∧ w' = w) ∨
  (done_already w a = false ∧ w' = change_accounts w a ∧ ∃ undo, account_undo w a = Ok undo).
Proof.
  intros Hon. rewrite apply_on_accounts by done. unfold apply_account, account_precondition.
  destruct (done_already w a); simpl; [intros [= _ <-]; by left|].
  destruct (account_undo w a) as [undo|]; simpl; [|done]. intros [= _ <-]. right. eauto.
Qed.

(** ** Actions without a precondition *)

Definition unconditional (a : Action) : bool :=
  match a with
  | Action_InstallUnit _ _ _ | Action_DaemonReload | Action_EnableUnit _ | Action_DisableUnit _
  | Action_StartUnit _ | Action_StopUnit _ | Action_RestartUnit _ | Action_DrainService _
  | Action_InstallRuntime _ _ _ | Action_RemoveRuntime _ _ | Action_ActivateProfile _ _
  | Action_SwitchGeneration _ _ _ | Action_DeleteGeneration _ _ | Action_ApplyGeneration _ => true
  | _ => false
  end.

Lemma apply_unconditional a w :
  unconditional a = true →
  apply a w = if already w a then (Ok [], w) else arm a Verdict_Go [] w.
Proof.
  intros Ha. unfold apply, settled_or, mbind, st_bind, gets, id.
  destruct (already w a); [done|].
  destruct a; try discriminate; reflexivity.
Qed.

(** ** Units *)

Lemma reload_files w : files (reload w) = files w.
Proof.
  unfold reload. generalize ((in_order (units w)).*1 ++ unit_files w) as l. intros l.
  revert w. induction l as [|n l IH]; intros w; simpl; [done|]. by rewrite IH.
Qed.

Lemma reload_after w u w' :
  apply Action_DaemonReload w = (Ok u, w') → files w' = files w.
Proof.
  rewrite apply_unconditional by done. simpl. intros [= _ <-]. apply reload_files.
Qed.

Lemma install_unit_after w n contents expect u w' :
  apply (Action_InstallUnit n contents expect) w = (Ok u, w') →
  ∃ u', put (unit_path n) contents 420 ROOT expect w = (Ok u', w').
Proof.
  rewrite apply_unconditional by done. simpl. unfold install_unit, mbind, st_bind.
  destruct (put _ _ _ _ _ w) as [[u'|] w1]; [|done]. intros [= _ <-]. by exists u'.
Qed.

Lemma start_unit_after w n u w' :
  apply (Action_StartUnit n) w = (Ok u, w') → is_Some (running (unit_of w' n)).
Proof.
  rewrite apply_unconditional by done. simpl. unfold unit_of.
  destruct (bool_decide _) eqn:Hb.
  { intros [= _ <-]. apply bool_decide_eq_true in Hb.
    destruct (units w !! n) as [x|]; simpl in *; [|done]. by apply not_eq_None_Some. }
  unfold start_unit, loaded_unit, mbind, st_bind, gets, modify.
  set (x := if is_held _ _ then _ else _). destruct (loaded x) as [c|] eqn:Hl; [|done].
  unfold mret, st_ret, fails. cbv beta iota. destruct (running x); [done|].
  simpl. intros [= _ <-]. simpl. rewrite lookup_insert_eq. simpl. rewrite Hl. by eexists.
Qed.

(** ** The runtime *)

(** A step that takes no path away. *)
Definition adds {X} (m : St X) : Prop :=
  ∀ w p, is_Some (files w !! p) → is_Some (files (m w).2 !! p).

Lemma adds_bind {X Y} (m : St X) (f : X → St Y) : adds m → (∀ x, adds (f x)) → adds (x ← m; f x).
Proof.
  intros Hm Hf w p Hp. unfold mbind, st_bind. specialize (Hm w p Hp).
  destruct (m w) as [[x|e] w1]; [|done]. by apply Hf.
Qed.

Lemma adds_same {X} (m : St X) : (∀ w, files (m w).2 = files w) → adds m.
Proof. intros Hm w p. by rewrite Hm. Qed.

Lemma adds_insert p c m o id : adds (modify (insert_entry p c m o id)).
Proof.
  intros w x Hx. simpl. destruct (decide (x = p)) as [->|].
  - rewrite lookup_insert_eq. by eexists.
  - by rewrite lookup_insert_ne.
Qed.

Lemma adds_put_absent p c m o : adds (put p c m o Expect_Absent).
Proof.
  apply adds_bind; [by apply adds_same|]. intros _. apply adds_bind; [by apply adds_same|].
  intros id. apply adds_bind; [apply adds_insert|]. intros []. by apply adds_same.
Qed.

Lemma adds_each {X} (f : X → St unit) l : (∀ x, adds (f x)) → adds (Repository.each f l).
Proof.
  intros Hf. induction l as [|x l IH]; simpl; [by apply adds_same|]. by apply adds_bind.
Qed.

Lemma adds_insert_new p c m o : adds (insert_new p c m o).
Proof.
  apply adds_bind; [by apply adds_same|]. intros w. apply adds_bind; [by apply adds_same|].
  intros []. apply adds_bind; [by apply adds_same|]. intros id. apply adds_insert.
Qed.

Lemma adds_install_file created file : adds (install_file created file).
Proof.
  apply adds_bind; [by apply adds_same|]. intros w. cbv zeta.
  apply adds_bind; [apply adds_each; intros; apply adds_insert_new|]. intros [].
  apply adds_bind; [apply adds_put_absent|]. intros u. by apply adds_same.
Qed.

Lemma adds_install_files created l : adds (install_files created l).
Proof.
  revert created. induction l as [|file l IH]; intros created; simpl; [by apply adds_same|].
  apply adds_bind; [apply adds_install_file|]. intros c. apply IH.
Qed.

Lemma install_file_after w created at_ contents r w' :
  install_file created (at_, contents) w = (Ok r, w') → is_Some (files w' !! at_).
Proof.
  unfold install_file, mbind, st_bind, gets. cbv zeta.
  destruct (Repository.each _ _ w) as [[[]|] w1]; [|done].
  destruct (put _ _ _ _ _ w1) as [[u|] w2] eqn:Hp; [|done]. simpl in Hp.
  apply put_after in Hp as [id Hid]. intros [= _ <-]. by eexists.
Qed.

Lemma install_runtime_after w url sha256 size u w' :
  apply (Action_InstallRuntime url sha256 size) w = (Ok u, w') →
  is_Some (files w' !! of_string DEFAULT_PROFILE_NIX_ENV).
Proof.
  rewrite apply_unconditional by done. cbn [arm already]. unfold install_runtime.
  unfold mbind, st_bind, gets, id. cbv beta iota zeta.
  match goal with |- context [match ?m with (_, _) => _ end] =>
    destruct m as [[created|] w0]; [|done] end.
  destruct (install_files created RUNTIME_FILES w0) as [[all|] w2] eqn:Hi; [|done].
  intros [= _ <-]. revert Hi. unfold RUNTIME_FILES.
  match goal with |- install_files _ (?f :: ?l) _ = _ → _ => generalize l; intros rest end.
  cbn [install_files]. unfold mbind, st_bind.
  destruct (install_file created _ w0) as [[c1|] w1] eqn:H1; [|done].
  apply install_file_after in H1. intros Hi.
  pose proof (adds_install_files c1 rest w1 _ H1) as Hadd. by rewrite Hi in Hadd.
Qed.

(** ** Profiles *)

Lemma maximum_elem l n : maximum l = Some n → n ∈ l.
Proof.
  unfold maximum. destruct l as [|x l]; [done|]. intros [= <-].
  revert x. induction l as [|y l IH]; intros x; simpl; [left|].
  destruct (N.max_spec x y) as [[_ ->]|[_ ->]].
  - right. apply IH.
  - specialize (IH x). apply elem_of_cons in IH as [IH|IH]; [rewrite IH; left|right; by right].
Qed.

Lemma activate_after w user source u w' :
  apply (Action_ActivateProfile user source) w = (Ok u, w') →
  files w' = files w ∧
  ∃ p g, profiles w' !! uid user = Some p ∧ pr_active p = Some g ∧
    built p !! g = Some (generation_config w user) ∧ pr_dangling p = pr_dangling (profile_of w (uid user)).
Proof.
  rewrite apply_unconditional by done. simpl. unfold activate_profile, mbind, st_bind, gets, modify, id.
  destruct (decide _); [done|].
  destruct (built_from _ _) as [g|] eqn:Hb; intros [= _ <-]; simpl; split; try done.
  - eexists _, g. rewrite lookup_insert_eq. split; [done|]. split; [done|]. split; [|done].
    unfold built_from in Hb. apply maximum_elem, list_elem_of_filter in Hb as [Hg _]. exact Hg.
  - eexists _, _. rewrite lookup_insert_eq. split; [done|]. split; [done|]. split; [|done].
    simpl. apply lookup_insert_eq.
Qed.

Lemma delete_generation_after w user g u w' :
  apply (Action_DeleteGeneration user g) w = (Ok u, w') →
  let p := profile_of w (uid user) in
  let p' := profile_of w' (uid user) in
  pr_active p' = pr_active p ∧
  (∀ x, x ∈ pr_generations p' → x ∈ pr_generations p ∧ x ≠ g) ∧
  (∀ x, x ∈ pr_dangling p' → x ∈ pr_dangling p ∧ x ≠ g).
Proof.
  rewrite apply_unconditional by done. simpl.
  unfold delete_generation, mbind, st_bind, gets, modify, id.
  set (p := profile_of w (uid user)).
  destruct (decide (pr_active p = Some g)); [done|].
  destruct (decide (g ∉ pr_generations p)); [done|]. cbn [pr_generations pr_active].
  destruct (decide _) as [[_ Ha]|_]; intros [= _ <-]; unfold profile_of; simpl.
  - rewrite lookup_delete_eq. simpl. rewrite Ha. split; [done|].
    split; by intros x ?%elem_of_nil.
  - rewrite lookup_insert_eq. simpl. split; [done|]. split; intros x [? ?]%list_elem_of_filter; done.
Qed.
