(* ===== verification/Events.v ===== *)
(** * The event stream

    The schema of the events a request emits
    ([crates/events/proto/mix/events/v1/events.proto]), the level of detail each event
    belongs to ([detail.rs]), faults ([fault.rs]) and the outbox that hands the events
    to the client ([outbox.rs]).

    An enum field of a message is the [i32] of the generated code, a [Z]; [E_i32] is
    the number of a variant, [E_field] the accessor that reads a field back.  The
    message [M] is a record or, as a member of a oneof, a constructor with the fields
    of [M].  A message neither the tree, the outbox nor the validator looks into (the
    request a command node carries, the result a finished node carries, what a trace
    event observed) is its encoding, [bytes]. *)
From S2P Require Import Prelude.
From S2P Require Import Paths.
From S2P Require Import Effect.

Local Open Scope N_scope.

(** ** Enumerations *)

Inductive Status :=
  | Status_Unspecified | Status_Succeeded | Status_AlreadySatisfied | Status_Failed
  | Status_Cancelled.
#[export] Instance Status_eq_dec : EqDecision Status.
Proof. solve_decision. Defined.

Definition Status_i32 (s : Status) : Z :=
  match s with
  | Status_Unspecified => 0 | Status_Succeeded => 1 | Status_AlreadySatisfied => 2
  | Status_Failed => 3 | Status_Cancelled => 4
  end%Z.

Definition Status_field (n : Z) : Status :=
  match n with
  | 1 => Status_Succeeded | 2 => Status_AlreadySatisfied | 3 => Status_Failed
  | 4 => Status_Cancelled | _ => Status_Unspecified
  end%Z.

Inductive Cancellation :=
  | Cancellation_Unspecified | Cancellation_Interrupted | Cancellation_Terminated
  | Cancellation_ClientGone.
#[export] Instance Cancellation_eq_dec : EqDecision Cancellation.
Proof. solve_decision. Defined.

Definition Cancellation_i32 (c : Cancellation) : Z :=
  match c with
  | Cancellation_Unspecified => 0 | Cancellation_Interrupted => 1
  | Cancellation_Terminated => 2 | Cancellation_ClientGone => 3
  end%Z.

Inductive NotRunReason :=
  | NotRunReason_Unspecified | NotRunReason_NotReached | NotRunReason_Skipped
  | NotRunReason_Blocked.
#[export] Instance NotRunReason_eq_dec : EqDecision NotRunReason.
Proof. solve_decision. Defined.

Definition NotRunReason_i32 (r : NotRunReason) : Z :=
  match r with
  | NotRunReason_Unspecified => 0 | NotRunReason_NotReached => 1
  | NotRunReason_Skipped => 2 | NotRunReason_Blocked => 3
  end%Z.

Definition NotRunReason_field (n : Z) : NotRunReason :=
  match n with
  | 1 => NotRunReason_NotReached | 2 => NotRunReason_Skipped | 3 => NotRunReason_Blocked
  | _ => NotRunReason_Unspecified
  end%Z.

Inductive Severity := Severity_Unspecified | Severity_Error | Severity_Warning.

Definition Severity_i32 (s : Severity) : Z :=
  match s with
  | Severity_Unspecified => 0 | Severity_Error => 1 | Severity_Warning => 2
  end%Z.

Inductive Stream := Stream_Unspecified | Stream_Stdout | Stream_Stderr.

Inductive Verb :=
  | Verb_Unspecified | Verb_Creating | Verb_Removing | Verb_Installing | Verb_Writing
  | Verb_Configuring | Verb_Activating | Verb_Recording | Verb_Restarting | Verb_Repairing
  | Verb_Recovering | Verb_Updating | Verb_Reclaiming.
#[export] Instance Verb_eq_dec : EqDecision Verb.
Proof. solve_decision. Defined.

Inductive Code :=
  | Code_Unspecified | Code_Internal | Code_Io | Code_PermissionDenied | Code_CommandFailed
  | Code_SpawnFailed | Code_LockMissing | Code_Conflict | Code_UnitFailed
  | Code_SystemdUnreachable | Code_JournalUnwritable | Code_CleanupIncomplete
  | Code_InterruptedRequest | Code_Network | Code_Integrity | Code_UnsupportedTarget
  | Code_Decompression | Code_MalformedArchive | Code_NotRoot | Code_UnsupportedHost
  | Code_UnsupportedKernel | Code_SystemdNotReady | Code_AlreadyManaged
  | Code_CrossDeviceStore | Code_RollbackIncomplete | Code_InvalidMirror
  | Code_NotBootstrapped | Code_RootNotAllowed | Code_InvalidPackage | Code_InvalidState
  | Code_NewerState | Code_ProtectedPackage | Code_GitRecordFailed | Code_UnknownPackage
  | Code_BuildFailed | Code_UpdateUnavailable | Code_Unrepairable
  | Code_PrivilegesUnavailable | Code_WorkerEnded | Code_VersionMismatch | Code_Usage
  | Code_DaemonOutdated | Code_ConfirmationRequired | Code_DaemonUnavailable
  | Code_DaemonVersionMismatch | Code_DiskFull | Code_NoInodes | Code_PackageCollision
  | Code_OutOfMemory.
#[export] Instance Code_eq_dec : EqDecision Code.
Proof. solve_decision. Defined.

Definition Code_i32 (c : Code) : Z :=
  match c with
  | Code_Unspecified => 0 | Code_Internal => 1 | Code_Io => 2 | Code_PermissionDenied => 3
  | Code_CommandFailed => 4 | Code_SpawnFailed => 5 | Code_LockMissing => 7
  | Code_Conflict => 8 | Code_UnitFailed => 9 | Code_SystemdUnreachable => 10
  | Code_JournalUnwritable => 11 | Code_CleanupIncomplete => 12
  | Code_InterruptedRequest => 13 | Code_Network => 20 | Code_Integrity => 21
  | Code_UnsupportedTarget => 22 | Code_Decompression => 23 | Code_MalformedArchive => 24
  | Code_NotRoot => 25 | Code_UnsupportedHost => 26 | Code_UnsupportedKernel => 27
  | Code_SystemdNotReady => 28 | Code_AlreadyManaged => 29 | Code_CrossDeviceStore => 30
  | Code_RollbackIncomplete => 31 | Code_InvalidMirror => 32 | Code_NotBootstrapped => 41
  | Code_RootNotAllowed => 42 | Code_InvalidPackage => 43 | Code_InvalidState => 44
  | Code_NewerState => 45 | Code_ProtectedPackage => 46 | Code_GitRecordFailed => 47
  | Code_UnknownPackage => 48 | Code_BuildFailed => 49 | Code_UpdateUnavailable => 50
  | Code_Unrepairable => 60 | Code_PrivilegesUnavailable => 70 | Code_WorkerEnded => 71
  | Code_VersionMismatch => 72 | Code_Usage => 73 | Code_DaemonOutdated => 74
  | Code_ConfirmationRequired => 75 | Code_DaemonUnavailable => 76
  | Code_DaemonVersionMismatch => 77 | Code_DiskFull => 78 | Code_NoInodes => 79
  | Code_PackageCollision => 80 | Code_OutOfMemory => 81
  end%Z.

(** ** Diagnostics *)

(** The [detail] oneof; a [*Detail] message is its fields. *)
Inductive DiagnosticDetail :=
  | Detail_Io (at_ kind : string)
  | Detail_Command (command : string) (exit_status : option Z) (output_tail : string)
  | Detail_Network (url : string)
  | Detail_Integrity (artifact expected actual : string)
  | Detail_Target (arch os : string)
  | Detail_Host (host : Z) (state : string)
  | Detail_Path (at_ : string)
  | Detail_Packages (packages : list string)
  | Detail_Format (format : N)
  | Detail_Unrepairable (artifact : string) (reason : Z)
  | Detail_Lock (at_ : string) (holder : option string)
  | Detail_Steps (steps : list string)
  | Detail_Conflict (subject expected found : string)
  | Detail_Unit (operation unit : string) (invocation : option string).

Inductive Diagnostic := mkDiagnostic {
  dg_code : Z; dg_severity : Z; dg_node : N; dg_message : string;
  dg_causes : list Diagnostic; dg_detail : option DiagnosticDetail }.

(** ** Nodes *)

Inductive Request :=
  | Request_Bootstrap (encoded : bytes) | Request_Install (encoded : bytes)
  | Request_Remove (encoded : bytes) | Request_Repair (encoded : bytes)
  | Request_Doctor (encoded : bytes) | Request_Clean (encoded : bytes)
  | Request_Explain (encoded : bytes) | Request_List (encoded : bytes)
  | Request_Update (encoded : bytes) | Request_UserRemove (encoded : bytes)
  | Request_Purge (encoded : bytes).

Record Command := mkCommand {
  mix_version : string; schema_minor : N; dry_run : bool; request_of : option Request }.

Inductive NodeKind :=
  | Kind_Command (command : Command)
  | Kind_Plan (title : string)
  | Kind_Step (verb : Verb) (subject : string)
  | Kind_Rollback (undoes : N)
  | Kind_Process (program : string) (args : list string)
  | Kind_Download (artifact url : string)
  | Kind_Inspection (target : string) (category : Z)
  | Kind_LockWait (lock : string) (holder command : option string)
  | Kind_NixActivity (activity_type text : string)
  | Kind_Action (operation : Operation) (subject : string).

Record NodeStarted := mkNodeStarted {
  ns_id : N; ns_parent : N; ns_key : string; ns_planned : list string;
  ns_shielded : bool; ns_kind : option NodeKind }.

Record Bytes := mkBytes { bytes_done : N; bytes_total : option N }.
#[export] Instance Bytes_eq_dec : EqDecision Bytes.
Proof. solve_decision. Defined.

Record Builds := mkBuilds {
  bl_builds_done : N; bl_builds_expected : N; bl_builds_running : N;
  bl_downloads_done : N; bl_downloads_expected : N; bl_downloads_running : N;
  bl_bytes_done : N; bl_bytes_expected : N }.
#[export] Instance Builds_eq_dec : EqDecision Builds.
Proof. solve_decision. Defined.

Inductive Progress :=
  | Progress_Bytes (bytes : Bytes)
  | Progress_Builds (builds : Builds)
  | Progress_Line (text : string) (stream : Stream)
  | Progress_Command (line : string)
  | Progress_CommandFinished (line : string) (exit_code signal : option Z)
  | Progress_Fetch (url : string)
  | Progress_Build (derivation name : string)
  | Progress_Substitution (store_path name : string)
  | Progress_Stopping (cause : Cancellation)
  | Progress_Waiting (lock : string) (holder command : option string)
  | Progress_Observed (encoded : bytes)
  | Progress_Journaled (encoded : bytes).

Record NodeProgress := mkNodeProgress { np_id : N; np_progress : option Progress }.

Inductive NodeResult :=
  | Result_Process (encoded : bytes) | Result_Inspection (encoded : bytes)
  | Result_Bootstrap (encoded : bytes) | Result_Install (encoded : bytes)
  | Result_Remove (encoded : bytes) | Result_Repair (encoded : bytes)
  | Result_Doctor (encoded : bytes) | Result_Clean (encoded : bytes)
  | Result_Explain (encoded : bytes) | Result_List (encoded : bytes)
  | Result_Update (encoded : bytes) | Result_UserRemove (encoded : bytes)
  | Result_Purge (encoded : bytes).

Record NodeFinished := mkNodeFinished {
  nf_id : N; nf_status : Z; nf_diagnostic : option Diagnostic; nf_exit_code : N;
  nf_cancellation : Z; nf_result : option NodeResult }.

Record NotRun := mkNotRun {
  nr_parent : N; nr_key : string; nr_reason : Z; nr_blocked_by : string }.

Inductive Event :=
  | Event_NodeStarted (node : NodeStarted)
  | Event_NodeProgress (progress : NodeProgress)
  | Event_NodeFinished (node : NodeFinished)
  | Event_NotRun (not_run : NotRun)
  | Event_Diagnostic (diagnostic : Diagnostic).

Record Envelope := mkEnvelope { ev_seq : N; ev_request : string; ev_event : option Event }.

(** [ROOT] of [tree.rs]. *)
Definition ROOT : N := 1.

(** ** [root.rs]: [key_of] *)
Definition key_of (r : option Request) : string :=
  match r with
  | Some (Request_Bootstrap _) => "bootstrap"
  | Some (Request_Install _) => "install"
  | Some (Request_Remove _) => "remove"
  | Some (Request_Repair _) => "repair"
  | Some (Request_Doctor _) => "doctor"
  | Some (Request_Clean _) => "clean"
  | Some (Request_Explain _) => "explain"
  | Some (Request_List _) => "list"
  | Some (Request_Update _) => "update"
  | Some (Request_UserRemove _) => "user remove"
  | Some (Request_Purge _) => "purge"
  | None => "command"
  end.

(** ** [detail.rs]: [Detail] and [detail] *)

Inductive EventDetail := Detail_Outcome | Detail_Step | Detail_Action | Detail_Trace.
#[export] Instance EventDetail_eq_dec : EqDecision EventDetail.
Proof. solve_decision. Defined.

Definition detail (event : Event) : EventDetail :=
  match event with
  | Event_NodeStarted started =>
      match ns_kind started with
      | Some (Kind_Step _ _ | Kind_Rollback _ | Kind_LockWait _ _ _) => Detail_Step
      | Some (Kind_Command _ | Kind_Plan _ | Kind_Process _ _ | Kind_Download _ _
             | Kind_Inspection _ _ | Kind_NixActivity _ _ | Kind_Action _ _) => Detail_Action
      | None => Detail_Trace
      end
  | Event_NodeFinished finished =>
      if decide (nf_id finished = ROOT) then Detail_Outcome
      else if decide (Status_field (nf_status finished) = Status_Failed) then Detail_Step
      else Detail_Action
  | Event_NotRun _ => Detail_Action
  | Event_NodeProgress progress =>
      match np_progress progress with
      | Some (Progress_Bytes _ | Progress_Builds _ | Progress_Stopping _
             | Progress_Waiting _ _ _) => Detail_Step
      | Some (Progress_Command _ | Progress_Fetch _ | Progress_Build _ _
             | Progress_Substitution _ _) => Detail_Action
      | Some (Progress_Line _ _ | Progress_CommandFinished _ _ _ | Progress_Observed _
             | Progress_Journaled _) | None => Detail_Trace
      end
  | Event_Diagnostic _ => Detail_Step
  end.

(** ** [io_kind.rs] *)

Definition KINDS : list ErrorKind :=
  [NotFound; PermissionDenied; ConnectionRefused; ConnectionReset; HostUnreachable;
   NetworkUnreachable; ConnectionAborted; NotConnected; AddrInUse; AddrNotAvailable;
   NetworkDown; BrokenPipe; AlreadyExists; WouldBlock; NotADirectory; IsADirectory;
   DirectoryNotEmpty; ReadOnlyFilesystem; StaleNetworkFileHandle; InvalidInput;
   InvalidData; TimedOut; WriteZero; StorageFull; NotSeekable; QuotaExceeded;
   FileTooLarge; ResourceBusy; ExecutableFileBusy; Deadlock; CrossesDevices;
   TooManyLinks; InvalidFilename; ArgumentListTooLong; Interrupted; Unsupported;
   UnexpectedEof; OutOfMemory; Other].

(** [name]: the derived [Debug] of [std::io::ErrorKind]. *)
Definition kind_name (k : ErrorKind) : string :=
  match k with
  | NotFound => "NotFound" | PermissionDenied => "PermissionDenied"
  | ConnectionRefused => "ConnectionRefused" | ConnectionReset => "ConnectionReset"
  | HostUnreachable => "HostUnreachable" | NetworkUnreachable => "NetworkUnreachable"
  | ConnectionAborted => "ConnectionAborted" | NotConnected => "NotConnected"
  | AddrInUse => "AddrInUse" | AddrNotAvailable => "AddrNotAvailable"
  | NetworkDown => "NetworkDown" | BrokenPipe => "BrokenPipe"
  | AlreadyExists => "AlreadyExists" | WouldBlock => "WouldBlock"
  | NotADirectory => "NotADirectory" | IsADirectory => "IsADirectory"
  | DirectoryNotEmpty => "DirectoryNotEmpty" | ReadOnlyFilesystem => "ReadOnlyFilesystem"
  | StaleNetworkFileHandle => "StaleNetworkFileHandle" | InvalidInput => "InvalidInput"
  | InvalidData => "InvalidData" | TimedOut => "TimedOut" | WriteZero => "WriteZero"
  | StorageFull => "StorageFull" | NotSeekable => "NotSeekable"
  | QuotaExceeded => "QuotaExceeded" | FileTooLarge => "FileTooLarge"
  | ResourceBusy => "ResourceBusy" | ExecutableFileBusy => "ExecutableFileBusy"
  | Deadlock => "Deadlock" | CrossesDevices => "CrossesDevices"
  | TooManyLinks => "TooManyLinks" | InvalidFilename => "InvalidFilename"
  | ArgumentListTooLong => "ArgumentListTooLong" | Interrupted => "Interrupted"
  | Unsupported => "Unsupported" | UnexpectedEof => "UnexpectedEof"
  | OutOfMemory => "OutOfMemory" | Other => "Other"
  end.

(** [named]. *)
Definition kind_named (name : string) : ErrorKind :=
  default Other (find (λ kind, kind_name kind = name) KINDS).

(** ** [fault.rs] *)

Inductive Fault :=
  | Fault_Failed (diagnostic : Diagnostic)
  | Fault_Cancelled (cause : Cancellation) (rolled_back : bool).

(** [Fault::failed]. *)
Definition fault_failed (code : Code) (message : string) (detail : option DiagnosticDetail)
    : Fault :=
  Fault_Failed (mkDiagnostic (Code_i32 code) (Severity_i32 Severity_Error) 0 message [] detail).
