(* ===== verification/Outbox.v ===== *)
(** * The outbox

    [crates/events/src/outbox.rs]: the queue between the tree that emits events and
    the client that reads them.  A counter's update ([Bytes], [Builds]) supersedes the
    node's earlier update of the same counter while that one is still queued.

    The mutex makes every operation atomic: each is a function on [Queue].  [wake] only
    tells the reader that something is queued. *)
From S2P Require Import Prelude.
From S2P Require Import Events.

Local Open Scope N_scope.

Inductive Gauge := Gauge_Bytes | Gauge_Builds.
#[export] Instance Gauge_eq_dec : EqDecision Gauge.
Proof. solve_decision. Defined.
#[export] Instance Gauge_countable : Countable Gauge.
Proof.
  refine (inj_countable' (λ g, match g with Gauge_Bytes => true | Gauge_Builds => false end)
    (λ b : bool, if b then Gauge_Bytes else Gauge_Builds) _). by intros [].
Defined.

Definition Slot : Type := N * Gauge.

Definition slot (event : Event) : option Slot :=
  match event with
  | Event_NodeProgress (mkNodeProgress id progress) =>
      match progress with
      | Some (Progress_Bytes _) => Some (id, Gauge_Bytes)
      | Some (Progress_Builds _) => Some (id, Gauge_Builds)
      | _ => None
      end
  | _ => None
  end.

Record Queue := mkQueue {
  head : N; q_seq : N; items : list Event; q_pending : gmap Slot N; superseded : gset N }.

Definition empty_queue : Queue := mkQueue 0 0 [] ∅ ∅.

(** [Outbox::push]. *)
Definition push (q : Queue) (event : Event) : Queue :=
  let position := head q + N.of_nat (length (items q)) in
  let '(pending, superseded) :=
    match slot event with
    | Some slot =>
        (<[slot := position]> (q_pending q),
         match q_pending q !! slot with
         | Some earlier => {[earlier]} ∪ superseded q
         | None => superseded q
         end)
    | None => (q_pending q, superseded q)
    end in
  mkQueue (head q) (q_seq q) (items q ++ [event]) pending superseded.

(** [Outbox::next]: the loop takes one item per turn. *)
Fixpoint next_in (request : string) (items : list Event) (position seq : N)
    (pending : gmap Slot N) (superseded : gset N) : option Envelope * Queue :=
  match items with
  | [] => (None, mkQueue position seq [] pending superseded)
  | event :: items =>
      if decide (position ∈ superseded) then
        next_in request items (position + 1) seq pending (superseded ∖ {[position]})
      else
        let pending :=
          match slot event with
          | Some slot =>
              if decide (pending !! slot = Some position) then delete slot pending else pending
          | None => pending
          end in
        (Some (mkEnvelope (seq + 1) request (Some event)),
         mkQueue (position + 1) (seq + 1) items pending superseded)
  end.

(** [Outbox::next], and [Outbox::pop], which locks the queue around it. *)
Definition pop (request : string) (q : Queue) : option Envelope * Queue :=
  next_in request (items q) (head q) (q_seq q) (q_pending q) (superseded q).

(** [Outbox::drain]; every turn of its loop takes an item, so the number of queued
    items is fuel enough. *)
Fixpoint drain_n (fuel : nat) (request : string) (q : Queue) : list Envelope * Queue :=
  match fuel with
  | O => ([], q)
  | S fuel =>
      match pop request q with
      | (Some envelope, q) =>
          let '(drained, q) := drain_n fuel request q in (envelope :: drained, q)
      | (None, q) => ([], q)
      end
  end.

Definition drain (request : string) (q : Queue) : list Envelope * Queue :=
  drain_n (S (length (items q))) request q.

(** ** What the indexes hold *)

(** The gauges updated in [l]. *)
Definition slots (l : list Event) : list Slot := omap slot l.

(** The position of the latest queued update of each gauge. *)
Fixpoint latest (position : N) (l : list Event) : gmap Slot N :=
  match l with
  | [] => ∅
  | e :: l =>
      match slot e with
      | Some s =>
          match latest (position + 1) l !! s with
          | Some p => latest (position + 1) l
          | None => <[s := position]> (latest (position + 1) l)
          end
      | None => latest (position + 1) l
      end
  end.

(** The positions of the updates a later one supersedes. *)
Fixpoint stale (position : N) (l : list Event) : gset N :=
  match l with
  | [] => ∅
  | e :: l =>
      match slot e with
      | Some s =>
          match latest (position + 1) l !! s with
          | Some p => {[position]} ∪ stale (position + 1) l
          | None => stale (position + 1) l
          end
      | None => stale (position + 1) l
      end
  end.

Definition queue_ok (q : Queue) : Prop :=
  q_pending q = latest (head q) (items q) ∧ superseded q = stale (head q) (items q).

(** What a reader gets to see of the queued events. *)
Fixpoint live (l : list Event) : list Event :=
  match l with
  | [] => []
  | e :: l =>
      match slot e with
      | Some s => if decide (s ∈ slots l) then live l else e :: live l
      | None => e :: live l
      end
  end.

(** Envelopes of [l] numbered from [seq + 1]. *)
Fixpoint numbered (request : string) (seq : N) (l : list Event) : list Envelope :=
  match l with
  | [] => []
  | e :: l => mkEnvelope (seq + 1) request (Some e) :: numbered request (seq + 1) l
  end.

(** [k] is [l] less updates of gauges that [k] updates later. *)
Inductive thinned : list Event → list Event → Prop :=
  | thinned_nil : thinned [] []
  | thinned_keep e l k : thinned l k → thinned (e :: l) (e :: k)
  | thinned_drop e s l k : thinned l k → slot e = Some s → s ∈ slots k → thinned (e :: l) k.

(** A client's use of the outbox. *)
Inductive Use := Push (event : Event) | Pop.

Fixpoint uses (request : string) (q : Queue) (us : list Use) : list Envelope * Queue :=
  match us with
  | [] => ([], q)
  | Push event :: us => uses request (push q event) us
  | Pop :: us =>
      let '(popped, q) := pop request q in
      let '(rest, q) := uses request q us in
      (match popped with Some envelope => [envelope] | None => [] end ++ rest, q)
  end.

Definition pushed (us : list Use) : list Event :=
  omap (λ u, match u with Push event => Some event | Pop => None end) us.

(** ** The invariant *)

Lemma latest_slots position l s : (∃ p, latest position l !! s = Some p) ↔ s ∈ slots l.
Proof.
  unfold slots. revert position. induction l as [|e l IH]; intros position; csimpl.
  - rewrite lookup_empty. split; [by intros [? ?]|by intros ?%elem_of_nil].
  - destruct (slot e) as [t|] eqn:He; csimpl; [|apply IH].
    rewrite elem_of_cons, <- (IH (position + 1)).
    destruct (latest (position + 1) l !! t) as [p|] eqn:Hp.
    + naive_solver.
    + destruct (decide (s = t)) as [->|Hne].
      * rewrite lookup_insert_eq. naive_solver.
      * rewrite lookup_insert_ne by done. naive_solver.
Qed.

Lemma stale_ge position l p : p ∈ stale position l → position <= p.
Proof.
  revert position. induction l as [|e l IH]; intros position; csimpl; [set_solver|].
  destruct (slot e) as [t|]; [|intros ?%IH; lia].
  destruct (latest _ _ !! t); [|intros ?%IH; lia].
  rewrite elem_of_union, elem_of_singleton. intros [->|?%IH]; lia.
Qed.

Lemma latest_ge position l s p : latest position l !! s = Some p → position <= p.
Proof.
  revert position. induction l as [|e l IH]; intros position; csimpl; [by rewrite lookup_empty|].
  destruct (slot e) as [t|]; [|intros ?%IH; lia].
  destruct (latest (position + 1) l !! t) eqn:Ht; [intros ?%IH; lia|].
  rewrite lookup_insert_Some. intros [[_ <-]|[_ ?%IH]]; lia.
Qed.

Lemma latest_snoc position l e :
  latest position (l ++ [e]) =
  match slot e with
  | Some s => <[s := position + N.of_nat (length l)]> (latest position l)
  | None => latest position l
  end.
Proof.
  revert position. induction l as [|f l IH]; intros position; csimpl.
  { destruct (slot e); [|done]. rewrite lookup_empty. by rewrite N.add_0_r. }
  rewrite IH. replace (position + N.of_nat (S (length l)))
    with (position + 1 + N.of_nat (length l)) by lia.
  destruct (slot f) as [t|] eqn:Hf, (slot e) as [s|] eqn:He; [|done..].
  destruct (decide (t = s)) as [->|Hne].
  - rewrite lookup_insert_eq. destruct (latest (position + 1) l !! s); [done|].
    by rewrite insert_insert_eq.
  - rewrite lookup_insert_ne by done.
    destruct (latest (position + 1) l !! t); [done|]. by apply insert_insert_ne.
Qed.

Lemma stale_snoc position l e :
  stale position (l ++ [e]) =
  match slot e with
  | Some s =>
      match latest position l !! s with
      | Some p => {[p]} ∪ stale position l
      | None => stale position l
      end
  | None => stale position l
  end.
Proof.
  revert position. induction l as [|f l IH]; intros position; csimpl.
  { destruct (slot e); by rewrite ?lookup_empty. }
  rewrite IH, latest_snoc. destruct (slot f) as [t|] eqn:Hf, (slot e) as [s|] eqn:He; try done.
  destruct (decide (t = s)) as [->|Hne].
  - rewrite lookup_insert_eq. destruct (latest (position + 1) l !! s) eqn:Hs.
    + rewrite Hs. set_solver.
    + by rewrite lookup_insert_eq.
  - rewrite lookup_insert_ne by done. destruct (latest (position + 1) l !! t) eqn:Ht.
    + destruct (latest (position + 1) l !! s); set_solver.
    + by rewrite lookup_insert_ne by done.
Qed.

Lemma queue_ok_empty : queue_ok empty_queue.
Proof. done. Qed.

Lemma queue_ok_push q e : queue_ok q → queue_ok (push q e).
Proof.
  intros [Hp Hs]. unfold queue_ok, push. destruct (slot e) as [s|] eqn:He; simpl.
  - rewrite latest_snoc, stale_snoc, He, Hp, Hs. done.
  - by rewrite latest_snoc, stale_snoc, He, Hp, Hs.
Qed.

Lemma slots_app l k : slots (l ++ k) = slots l ++ slots k.
Proof. apply omap_app. Qed.

Lemma thinned_slots l k s : thinned l k → s ∈ slots l → s ∈ slots k.
Proof.
  unfold slots. induction 1 as [|e l k _ IH|e t l k _ IH He Ht]; csimpl; [done| |].
  - destruct (slot e); [|done]. rewrite !elem_of_cons. tauto.
  - rewrite He. intros [->|?]%elem_of_cons; auto.
Qed.

Lemma thinned_stale e s l k :
  slot e = Some s → s ∈ slots l → thinned l k → thinned (e :: l) k.
Proof. intros He Hs Hk. by eapply thinned_drop, thinned_slots. Qed.

Lemma thinned_live l : thinned l (live l).
Proof.
  induction l as [|e l IH]; simpl; [constructor|].
  destruct (slot e) as [s|] eqn:He; [|by constructor].
  case_decide; [by eapply thinned_stale|by constructor].
Qed.

(** What [next] does with a well-indexed queue: it skips to the first event that is
    still live. *)
Inductive popped request (seq : N) (l : list Event) : option Envelope → Queue → Prop :=
  | popped_none position : l = [] → popped request seq l None (mkQueue position seq [] ∅ ∅)
  | popped_some position e rest :
      live l = e :: live rest → (length rest < length l)%nat →
      (∀ more k, thinned (rest ++ more) k → thinned (l ++ more) (e :: k)) →
      popped request seq l (Some (mkEnvelope (seq + 1) request (Some e)))
        (mkQueue position (seq + 1) rest (latest position rest) (stale position rest)).

Lemma next_in_popped request l position seq :
  let r := next_in request l position seq (latest position l) (stale position l) in
  popped request seq l r.1 r.2.
Proof.
  revert position. induction l as [|e l IH]; intros position; csimpl; [by constructor|].
  assert (Hfresh : position ∉ stale (position + 1) l) by (intros ?%stale_ge; lia).
  destruct (slot e) as [s|] eqn:He.
  - assert (Hs := latest_slots (position + 1) l s).
    destruct (latest (position + 1) l !! s) as [p|] eqn:Hp.
    + rewrite decide_True by set_solver.
      replace (({[position]} ∪ stale (position + 1) l) ∖ {[position]})
        with (stale (position + 1) l) by set_solver.
      assert (Hin : s ∈ slots l) by (apply Hs; eauto).
      destruct (IH (position + 1)) as [? ->|? e' rest Hlive Hlen Hthin].
      { by apply elem_of_nil in Hin. }
      constructor; [simpl; by rewrite He, decide_True|simpl; lia|].
      intros more k Hk. eapply thinned_stale; [done| |by apply Hthin].
      rewrite slots_app, elem_of_app. by left.
    + rewrite decide_False by done. rewrite lookup_insert_eq, decide_True by done.
      rewrite delete_insert_id by done.
      constructor; [|simpl; lia|by constructor].
      simpl. rewrite He, decide_False; [done|]. rewrite <- Hs. naive_solver.
  - rewrite decide_False by done. constructor; [simpl; by rewrite He|simpl; lia|by constructor].
Qed.

Lemma pop_popped request q :
  queue_ok q → popped request (q_seq q) (items q) (pop request q).1 (pop request q).2.
Proof. intros [Hp Hs]. unfold pop. rewrite Hp, Hs. apply next_in_popped. Qed.

Lemma popped_ok request seq l r q : popped request seq l r q → queue_ok q.
Proof. by intros []. Qed.

Lemma drain_spec request q :
  queue_ok q →
  (drain request q).1 = numbered request (q_seq q) (live (items q)) ∧
  items (drain request q).2 = [] ∧ queue_ok (drain request q).2.
Proof.
  unfold drain. generalize (Nat.lt_succ_diag_r (length (items q))).
  generalize (S (length (items q))) as fuel. intros fuel. revert q.
  induction fuel as [|fuel IH]; intros q Hfuel Hok; [lia|]. simpl.
  assert (Hpop := pop_popped request q Hok). destruct (pop request q) as [r q'].
  simpl in Hpop. assert (Hok' := popped_ok _ _ _ _ _ Hpop).
  destruct Hpop as [? ->|? e rest Hlive Hlen _]; [done|].
  assert (Hshort : (length rest < fuel)%nat) by lia.
  match type of Hok' with
  | queue_ok ?q' => destruct (IH q' Hshort Hok') as (Hd & Hi & Ho);
      destruct (drain_n fuel request q') as [drained last]
  end.
  simpl in *. by rewrite Hd, Hlive.
Qed.

(**  Draining hands out every queued event that is still live, in order and
    numbered on from the last, and leaves the queue empty. *)
Theorem drain_live request q :
  queue_ok q →
  (drain request q).1 = numbered request (q_seq q) (live (items q)) ∧
  items (drain request q).2 = [] ∧ queue_ok (drain request q).2.
Proof. apply drain_spec. Qed.

Lemma numbered_app request seq l k :
  numbered request seq (l ++ k) =
  numbered request seq l ++ numbered request (seq + N.of_nat (length l)) k.
Proof.
  revert seq. induction l as [|e l IH]; intros seq; simpl; [by rewrite N.add_0_r|].
  rewrite IH. do 3 f_equal. lia.
Qed.

Lemma uses_thinned request us q :
  queue_ok q →
  let '(envelopes, q') := uses request q us in
  ∃ out, envelopes = numbered request (q_seq q) out ∧
    q_seq q' = q_seq q + N.of_nat (length out) ∧ queue_ok q' ∧
    thinned (items q ++ pushed us) (out ++ live (items q')).
Proof.
  revert q. induction us as [|[e|] us IH]; intros q Hok; simpl.
  - exists []. rewrite app_nil_r. split_and!; [done|simpl; lia|done|apply thinned_live].
  - specialize (IH _ (queue_ok_push q e Hok)).
    destruct (uses request (push q e) us) as [envelopes q'].
    destruct IH as (out & -> & Hseq & Hok' & Hthin). exists out. unfold push in *.
    destruct (slot e); simpl in *; rewrite <- app_assoc in Hthin; done.
  - assert (Hpop := pop_popped request q Hok). destruct (pop request q) as [r q'].
    simpl in Hpop. specialize (IH _ (popped_ok _ _ _ _ _ Hpop)).
    destruct (uses request q' us) as [envelopes q'']. destruct IH as (out & -> & Hseq & Hok' & Hthin).
    destruct Hpop as [? Hl|? e rest Hlive Hlen Hl]; simpl in *.
    + rewrite Hl. by exists out.
    + exists (e :: out). split_and!; [done|simpl; lia|done|]. by apply Hl.
Qed.

(** C39.  However pushes and pops interleave, what the reader gets and what is left for
    it are the pushed events in order, less counter updates a later one replaced; the
    envelopes it got are numbered from 1 without a gap. *)
Theorem outbox_thins request us :
  let '(envelopes, q) := uses request empty_queue us in
  ∃ out, envelopes = numbered request 0 out ∧ thinned (pushed us) (out ++ live (items q)).
Proof.
  assert (H := uses_thinned request us empty_queue queue_ok_empty).
  destruct (uses request empty_queue us) as [envelopes q].
  destruct H as (out & Henv & _ & _ & Hthin). by exists out.
Qed.

(** ** Witness *)

Definition counted (done : N) : Event :=
  Event_NodeProgress (mkNodeProgress 2 (Some (Progress_Bytes (mkBytes done None)))).

Lemma drain_live_witness :
  (drain "r" (push (push empty_queue (counted 1)) (counted 2))).1 =
    [mkEnvelope 1 "r" (Some (counted 2))].
Proof.
  destruct (drain_live "r" (push (push empty_queue (counted 1)) (counted 2))) as (H & _ & _).
  - by do 2 apply queue_ok_push.
  - exact H.
Defined.
