(* ===== verification/EventTree.v ===== *)
(** * The tree of running nodes

    [crates/events/src/tree.rs]: the nodes a request starts and finishes, each under a
    running parent, and the events that report them.

    [emitted] is every event pushed to the tree's outbox, in order; what the client
    reads of them is in [Outbox].  The callback [stopped] is an argument of the one
    operation that calls it.  A node id never reaches [2^64], so it is an [N] without
    wrap-around.  [None] is a panic. *)
From S2P Require Import Prelude.
From S2P Require Import Effect.
From S2P Require Import Events.

Local Open Scope N_scope.

Inductive Misuse :=
  | Misuse_NotOpen (id : N)
  | Misuse_ChildrenOpen (id child : N)
  | Misuse_DuplicateKey (parent : N) (key : string).
#[export] Instance Misuse_eq_dec : EqDecision Misuse.
Proof. solve_decision. Defined.

(** ** [Start] and [Ending] *)

Record Start := mkStart {
  st_key : string; st_kind : NodeKind; st_planned : list string; st_shielded : bool }.

(** [Start::new], [Start::command], [Start::planned] and [Start::shielded]. *)
Definition start_new (key : string) (kind : NodeKind) : Start := mkStart key kind [] false.
Definition start_command (key : string) (command : Command) : Start :=
  start_new key (Kind_Command command).
Definition start_planned (s : Start) (keys : list string) : Start :=
  mkStart (st_key s) (st_kind s) keys (st_shielded s).
Definition start_shielded (s : Start) : Start :=
  mkStart (st_key s) (st_kind s) (st_planned s) true.

Record Ending := mkEnding {
  en_status : Status; en_cancellation : Cancellation; en_diagnostic : option Diagnostic;
  en_result : option NodeResult; en_exit_code : N }.

(** The constructors of [Ending] and its [with_*] methods. *)
Definition ending_new (status : Status) : Ending :=
  mkEnding status Cancellation_Unspecified None None 0.
Definition ending_with_diagnostic (e : Ending) (diagnostic : Diagnostic) : Ending :=
  mkEnding (en_status e) (en_cancellation e) (Some diagnostic) (en_result e) (en_exit_code e).
Definition ending_with_result (e : Ending) (result : NodeResult) : Ending :=
  mkEnding (en_status e) (en_cancellation e) (en_diagnostic e) (Some result) (en_exit_code e).
Definition ending_with_exit_code (e : Ending) (exit_code : N) : Ending :=
  mkEnding (en_status e) (en_cancellation e) (en_diagnostic e) (en_result e) exit_code.
Definition ending_succeeded : Ending := ending_new Status_Succeeded.
Definition ending_already_satisfied : Ending := ending_new Status_AlreadySatisfied.
Definition ending_failed (diagnostic : Diagnostic) : Ending :=
  ending_with_diagnostic (ending_new Status_Failed) diagnostic.
Definition ending_cancelled (cause : Cancellation) : Ending :=
  mkEnding Status_Cancelled cause None None 0.

(** Module [exit]. *)
Definition exit_SUCCEEDED : N := 0.
Definition exit_FAILED : N := 1.
Definition exit_USAGE : N := 2.
Definition exit_PROBLEMS_REMAIN : N := 3.
Definition exit_INTERRUPTED : N := 130.

(** [Ending::for_root]. *)
Definition for_root (e : Ending) (problems_remain : bool) : Ending :=
  let misused :=
    match en_diagnostic e with
    | Some diagnostic =>
        bool_decide (dg_code diagnostic = Code_i32 Code_Usage ∨
                     dg_code diagnostic = Code_i32 Code_ConfirmationRequired)
    | None => false
    end in
  ending_with_exit_code e
    match en_status e with
    | Status_Failed => if misused then exit_USAGE else exit_FAILED
    | Status_Cancelled => exit_INTERRUPTED
    | Status_Unspecified | Status_Succeeded | Status_AlreadySatisfied =>
        if problems_remain then exit_PROBLEMS_REMAIN else exit_SUCCEEDED
    end.

(** [impl From<Fault> for Ending]. *)
Definition fault_ending (fault : Fault) : Ending :=
  match fault with
  | Fault_Failed diagnostic => ending_failed diagnostic
  | Fault_Cancelled cause _ => ending_cancelled cause
  end.

(** ** [Open] *)

Record Open := mkOpen {
  op_parent : N; op_planned : list string; op_used : gset string; op_children : N;
  op_bytes : option Bytes; op_builds : option Builds }.

(** [Open::changed]: whether the progress is news, and the node that remembers it. *)
Definition changed (o : Open) (progress : Progress) : bool * Open :=
  match progress with
  | Progress_Builds builds =>
      (bool_decide (op_builds o ≠ Some builds),
       mkOpen (op_parent o) (op_planned o) (op_used o) (op_children o) (op_bytes o) (Some builds))
  | Progress_Bytes bytes =>
      (bool_decide (op_bytes o ≠ Some bytes),
       mkOpen (op_parent o) (op_planned o) (op_used o) (op_children o) (Some bytes) (op_builds o))
  | _ => (true, o)
  end.

Definition with_children (o : Open) (children : N) : Open :=
  mkOpen (op_parent o) (op_planned o) (op_used o) children (op_bytes o) (op_builds o).

Definition with_used (o : Open) (used : gset string) : Open :=
  mkOpen (op_parent o) (op_planned o) used (op_children o) (op_bytes o) (op_builds o).

(** ** [Tree] *)

Record Tree := mkTree { emitted : list Event; next : N; open : list (option Open) }.

Definition emit (t : Tree) (event : Event) : Tree :=
  mkTree (emitted t ++ [event]) (next t) (open t).

Definition get (t : Tree) (id : N) : option Open := mjoin (open t !! N.to_nat id).

Definition is_open (t : Tree) (id : N) : bool := bool_decide (is_Some (get t id)).

(** What a write through [get_mut] leaves: [id] is in the table. *)
Definition set_open (t : Tree) (id : N) (o : option Open) : Tree :=
  mkTree (emitted t) (next t) (<[N.to_nat id := o]> (open t)).

Definition emit_not_run (t : Tree) (parent : N) (key : string) (reason : NotRunReason)
    (blocked_by : string) : Tree :=
  emit t (Event_NotRun (mkNotRun parent key (NotRunReason_i32 reason) blocked_by)).

(** [Tree::claim]. *)
Definition claim (t : Tree) (parent : N) (key : string) : result Misuse string * Tree :=
  match get t parent with
  | None => (Err (Misuse_NotOpen parent), t)
  | Some open =>
      if decide (key ∈ op_used open) then (Err (Misuse_DuplicateKey parent key), t)
      else (Ok key, set_open t parent (Some (with_used open ({[key]} ∪ op_used open))))
  end.

(** [Vec::resize_with] to hold [index], then the assignment at [index]. *)
Definition put_at (l : list (option Open)) (index : nat) (o : Open) : list (option Open) :=
  <[index := Some o]> (l ++ replicate (S index - length l) None).

(** [Tree::open_node]. *)
Definition open_node (t : Tree) (parent : N) (start : Start) : N * Tree :=
  let id := next t in
  let t := mkTree (emitted t) (next t + 1) (open t) in
  let t :=
    match get t parent with
    | Some open => set_open t parent (Some (with_children open (op_children open + 1)))
    | None => t
    end in
  let t := emit t (Event_NodeStarted
    (mkNodeStarted id parent (st_key start) (st_planned start) (st_shielded start)
      (Some (st_kind start)))) in
  (id, mkTree (emitted t) (next t)
         (put_at (open t) (N.to_nat id) (mkOpen parent (st_planned start) ∅ 0 None None))).

(** [Tree::new]. *)
Definition tree_new (start : Start) : Tree := (open_node (mkTree [] ROOT []) 0 start).2.

(** [Tree::start]. *)
Definition start (t : Tree) (parent : N) (s : Start) : result Misuse N * Tree :=
  match claim t parent (st_key s) with
  | (Err misuse, t) => (Err misuse, t)
  | (Ok _, t) => let '(id, t) := open_node t parent s in (Ok id, t)
  end.

(** [Tree::not_run]. *)
Definition not_run (t : Tree) (parent : N) (key : string) (reason : NotRunReason)
    : result Misuse unit * Tree :=
  match claim t parent key with
  | (Err misuse, t) => (Err misuse, t)
  | (Ok key, t) => (Ok tt, emit_not_run t parent key reason "")
  end.

(** [Tree::blocked]. *)
Definition blocked (t : Tree) (parent : N) (key by_ : string) : result Misuse unit * Tree :=
  match claim t parent key with
  | (Err misuse, t) => (Err misuse, t)
  | (Ok key, t) => (Ok tt, emit_not_run t parent key NotRunReason_Blocked by_)
  end.

(** [Tree::progress]. *)
Definition progress (t : Tree) (id : N) (progress : Progress) : result Misuse unit * Tree :=
  match get t id with
  | None => (Err (Misuse_NotOpen id), t)
  | Some open =>
      let '(news, open) := changed open progress in
      let t := set_open t id (Some open) in
      (Ok tt, if news then emit t (Event_NodeProgress (mkNodeProgress id (Some progress))) else t)
  end.

(** [Tree::warn]. *)
Definition warn (t : Tree) (id : N) (d : Diagnostic) : result Misuse unit * Tree :=
  if is_open t id then
    (Ok tt, emit t (Event_Diagnostic
      (mkDiagnostic (dg_code d) (Severity_i32 Severity_Warning) id (dg_message d)
        (dg_causes d) (dg_detail d))))
  else (Err (Misuse_NotOpen id), t).

(** The lowest node open under [id]. *)
Definition first_child (t : Tree) (id : N) : option N :=
  fst <$> find (λ e : N * option Open,
                  from_option (λ o, bool_decide (op_parent o = id)) false e.2 = true)
            (imap (λ i o, (N.of_nat i, o)) (open t)).

(** [Tree::finish]. *)
Definition finish (t : Tree) (id : N) (ending : Ending) : option (result Misuse unit * Tree) :=
  match get t id with
  | None => Some (Err (Misuse_NotOpen id), t)
  | Some o =>
      if decide (0 < op_children o) then
        match first_child t id with
        | Some child => Some (Err (Misuse_ChildrenOpen id child), t)
        | None => None
        end
      else
        let t := set_open t id None in
        let t :=
          match get t (op_parent o) with
          | Some parent =>
              set_open t (op_parent o) (Some (with_children parent (op_children parent - 1)))
          | None => t
          end in
        let t := foldl (λ t key, emit_not_run t id key NotRunReason_NotReached "") t
                   (filter (λ key, key ∉ op_used o) (op_planned o)) in
        Some (Ok tt, emit t (Event_NodeFinished
          (mkNodeFinished id (Status_i32 (en_status ending)) (en_diagnostic ending)
            (en_exit_code ending) (Cancellation_i32 (en_cancellation ending))
            (en_result ending))))
  end.

(** [Tree::abandoned], given what [stopped] answers. *)
Definition abandoned (stopped : option Cancellation) : Ending :=
  match stopped with
  | Some cause => ending_cancelled cause
  | None => ending_new Status_Failed
  end.

(** [Tree::descends_from]: each turn goes up to a parent, whose id is lower, so the
    number of nodes is fuel enough ([descends_from_fuel]). *)
Fixpoint descends_n (fuel : nat) (t : Tree) (node ancestor : N) : bool :=
  match fuel with
  | O => false
  | S fuel =>
      if decide (node = ancestor) then true
      else match get t node with
           | Some open => descends_n fuel t (op_parent open) ancestor
           | None => false
           end
  end.

Definition descends_from (t : Tree) (node ancestor : N) : bool :=
  descends_n (S (N.to_nat node)) t node ancestor.

(** The loop of [abandon]: its [expect] panics on a misuse. *)
Fixpoint finish_all (t : Tree) (nodes : list N) (ending : Ending) : option Tree :=
  match nodes with
  | [] => Some t
  | node :: nodes =>
      match finish t node ending with
      | Some (Ok _, t) => finish_all t nodes ending
      | _ => None
      end
  end.

(** The open nodes that descend from [id], in the order of their ids. *)
Definition descendants (t : Tree) (id : N) : list N :=
  filter (λ node, is_open t node = true ∧ descends_from t node id = true)
    (N.of_nat <$> seq 0 (length (open t))).

(** [Tree::abandon]: the descending order is the reverse of the table's. *)
Definition abandon (t : Tree) (id : N) (stopped : option Cancellation)
    : option (result Misuse unit * Tree) :=
  let ending := abandoned stopped in
  let open := descendants t id in
  match open with
  | [] => Some (Err (Misuse_NotOpen id), t)
  | _ => t ← finish_all t (reverse open) ending; Some (Ok tt, t)
  end.

(** [impl Drop for Tree]. *)
Definition drop_tree (t : Tree) (stopped : option Cancellation) : option Tree :=
  if is_open t ROOT then snd <$> abandon t ROOT stopped else Some t.

(** [failure] of [root.rs]: the events of a request refused before it began. *)
Definition failure_events (command : Command) (fault : Fault) : option (list Event) :=
  let t := tree_new (start_command (key_of (request_of command)) command) in
  '(_, t) ← finish t ROOT (for_root (fault_ending fault) false);
  t ← drop_tree t None;
  Some (emitted t).
