(* ===== verification/Validate.v ===== *)
(** * The stream validator

    [crates/events/src/validate.rs]: what a client checks of the stream it reads,
    one envelope at a time. *)
From S2P Require Import Prelude.
From S2P Require Import Events.
From S2P Require Import Outbox.

Local Open Scope N_scope.

Inductive Violation :=
  | Violation_SeqGap (expected found : N)
  | Violation_RequestChanged (seq : N)
  | Violation_FirstNotRoot (seq : N)
  | Violation_AfterRoot (seq : N)
  | Violation_ZeroId
  | Violation_DuplicateId (id : N)
  | Violation_UnknownParent (id parent : N)
  | Violation_ParentFinished (id parent : N)
  | Violation_UnknownNode (id : N)
  | Violation_FinishedTwice (id : N)
  | Violation_ChildrenOpen (id child : N)
  | Violation_DuplicateKey (parent : N) (key : string)
  | Violation_PlannedMissing (id : N) (key : string)
  | Violation_NotOpen (id : N)
  | Violation_RollbackTarget (id undoes : N)
  | Violation_UnspecifiedStatus (id : N)
  | Violation_UnspecifiedReason (parent : N) (key : string)
  | Violation_BlockerMismatch (parent : N) (key : string)
  | Violation_CancellationMismatch (id : N)
  | Violation_ResultMismatch (id : N)
  | Violation_ExitCodeOnChild (id : N)
  | Violation_Truncated (open : list N).
#[export] Instance Violation_eq_dec : EqDecision Violation.
Proof. solve_decision. Defined.

(** [Outcome] of a node. *)
Inductive NodeOutcome :=
  | Outcome_Running
  | Outcome_Finished (status : Status)
  | Outcome_NotRun (reason : NotRunReason).
#[export] Instance NodeOutcome_eq_dec : EqDecision NodeOutcome.
Proof. solve_decision. Defined.

Record Entry := mkEntry { entry_id : option N; entry_path : string; entry_outcome : NodeOutcome }.
#[export] Instance Entry_eq_dec : EqDecision Entry.
Proof. solve_decision. Defined.

(** [Validated] is its entries; [Validated::outcome]. *)
Definition validated_outcome (entries : list Entry) (at_ : string) : option NodeOutcome :=
  entry_outcome <$> find (λ entry, entry_path entry = at_) entries.

Inductive Shape := Shape_Command | Shape_Step | Shape_Process | Shape_Inspection | Shape_Other.
#[export] Instance Shape_eq_dec : EqDecision Shape.
Proof. solve_decision. Defined.

(** [Shape::of]. *)
Definition shape_of (kind : option NodeKind) : Shape :=
  match kind with
  | Some (Kind_Command _) => Shape_Command
  | Some (Kind_Step _ _) => Shape_Step
  | Some (Kind_Process _ _) => Shape_Process
  | Some (Kind_Inspection _ _) => Shape_Inspection
  | _ => Shape_Other
  end.

(** [Shape::accepts]. *)
Definition accepts (shape : Shape) (result : NodeResult) : bool :=
  match result with
  | Result_Process _ => bool_decide (shape = Shape_Process)
  | Result_Inspection _ => bool_decide (shape = Shape_Inspection)
  | _ => bool_decide (shape = Shape_Command)
  end.

(** [Record], a node the validator has seen start. *)
Record Seen := mkSeen {
  sn_parent : N; sn_entry : nat; sn_shape : Shape; sn_planned : list string;
  sn_keys : gset string; sn_open_children : gset N; sn_finished : bool }.

Record Validator := mkValidator {
  next_seq : N; v_request : option string; nodes : gmap N Seen; entries : list Entry;
  root_finished : bool }.

(** [Validator::new]. *)
Definition validator_new : Validator := mkValidator 1 None ∅ [] false.

Definition is_root_start (event : Event) : bool :=
  match event with
  | Event_NodeStarted node =>
      bool_decide (ns_id node = ROOT ∧ ns_parent node = 0) &&
      match ns_kind node with Some (Kind_Command _) => true | _ => false end
  | _ => false
  end.

(** The path of an entry; an index the validator made is in range. *)
Definition path_at (v : Validator) (entry : nat) : string :=
  from_option entry_path "" (entries v !! entry).

Definition with_nodes (v : Validator) (nodes : gmap N Seen) : Validator :=
  mkValidator (next_seq v) (v_request v) nodes (entries v) (root_finished v).

(** The start of a node under its parent: its path, and the parent that knows it. *)
Definition started_under (v : Validator) (node : NodeStarted) : result Violation (string * Validator) :=
  let id := ns_id node in
  let parent_id := ns_parent node in
  if decide (id = ROOT ∧ parent_id = 0) then Ok (ns_key node, v)
  else
    match nodes v !! parent_id with
    | None => Err (Violation_UnknownParent id parent_id)
    | Some parent =>
        if sn_finished parent then Err (Violation_ParentFinished id parent_id)
        else if decide (ns_key node ∈ sn_keys parent)
        then Err (Violation_DuplicateKey parent_id (ns_key node))
        else
          let parent' := mkSeen (sn_parent parent) (sn_entry parent) (sn_shape parent)
            (sn_planned parent) ({[ns_key node]} ∪ sn_keys parent)
            ({[id]} ∪ sn_open_children parent) (sn_finished parent) in
          Ok (path_at v (sn_entry parent) +:+ "/" +:+ ns_key node,
              with_nodes v (<[parent_id := parent']> (nodes v)))
    end.

(** Whether a rollback may name [undoes]. *)
Definition rollback_target (v : Validator) (parent undoes : N) : bool :=
  match nodes v !! undoes with
  | Some target =>
      bool_decide (sn_shape target = Shape_Step ∧ sn_finished target = true ∧
                   sn_parent target = parent)
  | None => false
  end.

(** [Validator::started]. *)
Definition v_started (v : Validator) (node : NodeStarted) : result Violation Validator :=
  let id := ns_id node in
  if decide (id = 0) then Err Violation_ZeroId
  else if decide (is_Some (nodes v !! id)) then Err (Violation_DuplicateId id)
  else
    '(path_, v) ← started_under v node;
    match ns_kind node with
    | Some (Kind_Rollback undoes) =>
        if rollback_target v (ns_parent node) undoes then Ok tt
        else Err (Violation_RollbackTarget id undoes)
    | _ => Ok tt
    end ≫= λ _,
    let entries := entries v ++ [mkEntry (Some id) path_ Outcome_Running] in
    Ok (mkValidator (next_seq v) (v_request v)
          (<[id := mkSeen (ns_parent node) (length entries - 1) (shape_of (ns_kind node))
                     (ns_planned node) ∅ ∅ false]> (nodes v))
          entries (root_finished v)).

(** [iter().min()] of a set of ids. *)
Definition set_min (s : gset N) : option N :=
  foldr (λ x m, Some (match m with Some y => N.min x y | None => x end)) None (elements s).

(** The checks of [Validator::finished], in its order. *)
Definition finished_checks (record : Seen) (node : NodeFinished) : result Violation Status :=
  let id := nf_id node in
  if sn_finished record then Err (Violation_FinishedTwice id)
  else match set_min (sn_open_children record) with
  | Some child => Err (Violation_ChildrenOpen id child)
  | None =>
  match find (λ key, key ∉ sn_keys record) (sn_planned record) with
  | Some key => Err (Violation_PlannedMissing id key)
  | None =>
    let status := Status_field (nf_status node) in
    if decide (status = Status_Unspecified) then Err (Violation_UnspecifiedStatus id)
    else
      let cancelled := bool_decide (status = Status_Cancelled) in
      let has_cause := bool_decide (nf_cancellation node ≠ Cancellation_i32 Cancellation_Unspecified) in
      if decide (cancelled ≠ has_cause) then Err (Violation_CancellationMismatch id)
      else if from_option (λ result, negb (accepts (sn_shape record) result)) false (nf_result node)
      then Err (Violation_ResultMismatch id)
      else if decide (id ≠ ROOT ∧ nf_exit_code node ≠ 0) then Err (Violation_ExitCodeOnChild id)
      else Ok status
  end end.

(** [Validator::finished]. *)
Definition v_finished (v : Validator) (node : NodeFinished) : result Violation Validator :=
  let id := nf_id node in
  match nodes v !! id with
  | None => Err (Violation_UnknownNode id)
  | Some record =>
      status ← finished_checks record node;
      let nodes := <[id := mkSeen (sn_parent record) (sn_entry record) (sn_shape record)
        (sn_planned record) (sn_keys record) (sn_open_children record) true]> (nodes v) in
      let nodes :=
        match nodes !! sn_parent record with
        | Some parent =>
            <[sn_parent record := mkSeen (sn_parent parent) (sn_entry parent) (sn_shape parent)
                (sn_planned parent) (sn_keys parent) (sn_open_children parent ∖ {[id]})
                (sn_finished parent)]> nodes
        | None => nodes
        end in
      Ok (mkValidator (next_seq v) (v_request v) nodes
            (alter (λ e, mkEntry (entry_id e) (entry_path e) (Outcome_Finished status))
               (sn_entry record) (entries v))
            (if decide (id = ROOT) then true else root_finished v))
  end.

(** [Validator::not_run]. *)
Definition v_not_run (v : Validator) (n : NotRun) : result Violation Validator :=
  let parent_id := nr_parent n in
  match nodes v !! parent_id with
  | None => Err (Violation_NotOpen parent_id)
  | Some parent =>
      if sn_finished parent then Err (Violation_NotOpen parent_id)
      else if decide (nr_key n ∈ sn_keys parent)
      then Err (Violation_DuplicateKey parent_id (nr_key n))
      else
        let reason := NotRunReason_field (nr_reason n) in
        if decide (reason = NotRunReason_Unspecified)
        then Err (Violation_UnspecifiedReason parent_id (nr_key n))
        else if decide (bool_decide (reason = NotRunReason_Blocked) = (nr_blocked_by n =s ""))
        then Err (Violation_BlockerMismatch parent_id (nr_key n))
        else
          let parent' := mkSeen (sn_parent parent) (sn_entry parent) (sn_shape parent)
            (sn_planned parent) ({[nr_key n]} ∪ sn_keys parent) (sn_open_children parent)
            (sn_finished parent) in
          Ok (mkValidator (next_seq v) (v_request v) (<[parent_id := parent']> (nodes v))
                (entries v ++ [mkEntry None (path_at v (sn_entry parent) +:+ "/" +:+ nr_key n)
                                 (Outcome_NotRun reason)])
                (root_finished v))
  end.

(** [Validator::open]. *)
Definition v_open (v : Validator) (id : N) : result Violation Validator :=
  match nodes v !! id with
  | Some record => if sn_finished record then Err (Violation_NotOpen id) else Ok v
  | None => Err (Violation_NotOpen id)
  end.

(** The [match] on the event in [Validator::push]. *)
Definition v_event (v : Validator) (event : Event) : result Violation Validator :=
  match event with
  | Event_NodeStarted node => v_started v node
  | Event_NodeFinished node => v_finished v node
  | Event_NotRun n => v_not_run v n
  | Event_NodeProgress progress => v_open v (np_id progress)
  | Event_Diagnostic diagnostic => v_open v (dg_node diagnostic)
  end.

(** [Validator::push]; on a violation the source has already counted the envelope,
    but [validate] stops there. *)
Definition v_push (v : Validator) (e : Envelope) : result Violation Validator :=
  let seq := ev_seq e in
  if decide (seq ≠ next_seq v) then Err (Violation_SeqGap (next_seq v) seq)
  else
    let v := mkValidator (next_seq v + 1)
      (match v_request v with None => Some (ev_request e) | r => r end)
      (nodes v) (entries v) (root_finished v) in
    if decide (v_request v ≠ Some (ev_request e)) then Err (Violation_RequestChanged seq)
    else if root_finished v then Err (Violation_AfterRoot seq)
    else
      match ev_event e with
      | None => Ok v
      | Some event =>
          if decide (nodes v = ∅ ∧ is_root_start event = false)
          then Err (Violation_FirstNotRoot seq)
          else v_event v event
      end.

(** [Validator::finish]. *)
Definition v_finish (v : Validator) : result Violation (list Entry) :=
  if root_finished v then Ok (entries v)
  else Err (Violation_Truncated (merge_sort N.le
    ((map_to_list (filter (λ e, sn_finished e.2 = false) (nodes v))).*1))).

(** [validate]. *)
Fixpoint v_pushes (v : Validator) (envelopes : list Envelope) : result Violation Validator :=
  match envelopes with
  | [] => Ok v
  | e :: envelopes => v ← v_push v e; v_pushes v envelopes
  end.

Definition validate (envelopes : list Envelope) : result Violation (list Entry) :=
  v ← v_pushes validator_new envelopes; v_finish v.
