(* ===== verification/TreeSim.v ===== *)
(** * The tree and the validator, state by state

    A simulation between the states of [EventTree] and [Validate]: what holds of the
    open nodes of a tree, how the validator sees them, and that the events each
    operation emits take one related pair of states to another.  [TreeValid] draws
    the consequences for whole streams. *)
From S2P Require Import Prelude.
From S2P Require Import Effect.
From S2P Require Import Events.
From S2P Require Import Outbox.
From S2P Require Import EventTree.
From S2P Require Import Validate.

Local Open Scope N_scope.

(** ** The validator on events *)

(** [Validator::push] past its checks of the envelope. *)
Definition v_take (v : Validator) (e : Event) : result Violation Validator :=
  if root_finished v then Err (Violation_AfterRoot (next_seq v - 1))
  else if decide (nodes v = ∅ ∧ is_root_start e = false)
  then Err (Violation_FirstNotRoot (next_seq v - 1))
  else v_event v e.

Fixpoint v_run (v : Validator) (l : list Event) : result Violation Validator :=
  match l with
  | [] => Ok v
  | e :: l => v ← v_take v e; v_run v l
  end.

Lemma v_run_app v l k : v_run v (l ++ k) = v_run v l ≫= λ v, v_run v k.
Proof.
  revert v. induction l as [|e l IH]; intros v; simpl; [done|].
  destruct (v_take v e); simpl; [apply IH|done].
Qed.

Lemma v_run_snoc v l k v' : v_run v l = Ok v' → v_run v (l ++ k) = v_run v' k.
Proof. intros H. by rewrite v_run_app, H. Qed.

(** ** The open nodes as a finite map *)

Definition kids (m : gmap N Open) (id : N) : gset N :=
  dom (filter (λ e : N * Open, op_parent e.2 = id) m).

Lemma elem_of_kids m id c : c ∈ kids m id ↔ ∃ o, m !! c = Some o ∧ op_parent o = id.
Proof.
  unfold kids. rewrite elem_of_dom. unfold is_Some.
  setoid_rewrite map_lookup_filter_Some. done.
Qed.

Lemma kids_update m p o o' id :
  m !! p = Some o → op_parent o' = op_parent o → kids (<[p := o']> m) id = kids m id.
Proof.
  intros Hp Ho. apply set_eq. intros c. rewrite !elem_of_kids.
  destruct (decide (c = p)) as [->|Hne].
  - rewrite lookup_insert_eq. naive_solver.
  - by rewrite lookup_insert_ne.
Qed.

Lemma kids_insert m n o id :
  m !! n = None → kids (<[n := o]> m) id = (if decide (op_parent o = id) then {[n]} else ∅) ∪ kids m id.
Proof.
  intros Hn. apply set_eq. intros c. rewrite elem_of_union, !elem_of_kids.
  destruct (decide (c = n)) as [->|Hne].
  - rewrite lookup_insert_eq, Hn. case_decide; rewrite ?elem_of_singleton, ?elem_of_empty; naive_solver.
  - rewrite lookup_insert_ne by done.
    case_decide; rewrite ?elem_of_singleton, ?elem_of_empty; naive_solver.
Qed.

Lemma kids_delete m n id : kids (delete n m) id = kids m id ∖ {[n]}.
Proof.
  apply set_eq. intros c. rewrite elem_of_difference, elem_of_singleton, !elem_of_kids.
  destruct (decide (c = n)) as [->|Hne].
  - rewrite lookup_delete_eq. naive_solver.
  - rewrite lookup_delete_ne by done. naive_solver.
Qed.

(** ** A well-formed tree *)

Record node_ok (m : gmap N Open) (bound : N) (id : N) (o : Open) : Prop := {
  node_range : 1 <= id < bound;
  node_below : op_parent o < id;
  node_top : op_parent o = 0 ↔ id = ROOT;
  node_parent : id ≠ ROOT → is_Some (m !! op_parent o);
  node_children : op_children o = N.of_nat (size (kids m id));
}.

Record tree_ok (t : Tree) (m : gmap N Open) : Prop := {
  tree_length : length (open t) = N.to_nat (next t);
  tree_get : ∀ id, get t id = m !! id;
  tree_nodes : ∀ id o, m !! id = Some o → node_ok m (next t) id o;
  tree_next : 1 < next t;
}.

Lemma get_set t id o i :
  (N.to_nat id < length (open t))%nat → get (set_open t id o) i = if decide (i = id) then o else get t i.
Proof.
  intros Hid. unfold get, set_open. simpl. case_decide as Hi; [subst|].
  - by rewrite list_lookup_insert_eq.
  - rewrite list_lookup_insert_ne; [done|]. intros ?. by apply Hi, N2Nat.inj.
Qed.

Lemma get_length t id o : get t id = Some o → (N.to_nat id < length (open t))%nat.
Proof.
  unfold get. destruct (open t !! N.to_nat id) eqn:H; [|done]. intros _.
  by eapply lookup_lt_Some.
Qed.

Lemma put_at_end l n o : length l = n → put_at l n o = l ++ [Some o].
Proof.
  intros <-. unfold put_at. rewrite Nat.sub_succ_l, Nat.sub_diag by done. simpl.
  rewrite insert_app_r_alt by done. by rewrite Nat.sub_diag.
Qed.

Lemma get_emit t e id : get (emit t e) id = get t id.
Proof. done. Qed.

(** A change of one node that keeps its parent and its count of children. *)
Lemma tree_ok_update t m id o o' :
  tree_ok t m → m !! id = Some o → op_parent o' = op_parent o → op_children o' = op_children o →
  tree_ok (set_open t id (Some o')) (<[id := o']> m).
Proof.
  intros Hok Hid Hp Hc. assert (Hlen := Hid). rewrite <- (tree_get _ _ Hok) in Hlen.
  apply get_length in Hlen. destruct Hok as [Hl Hg Hn H1]. split; simpl; [|  |  |done].
  - by rewrite length_insert.
  - intros i. rewrite get_set by done. case_decide as Hi; [subst; by rewrite lookup_insert_eq|].
    by rewrite lookup_insert_ne.
  - intros i oi. rewrite lookup_insert_Some. intros [[<- <-]|[Hne Hi]].
    + destruct (Hn _ _ Hid) as [Hr Hb Ht Hpar Hch]. split; rewrite ?Hp; try done.
      * intros Hroot. destruct (Hpar Hroot) as [op Hop].
        destruct (decide (op_parent o = id)) as [->|]; [by rewrite lookup_insert_eq|].
        rewrite lookup_insert_ne by done. by eexists.
      * by rewrite Hc, (kids_update _ _ o).
    + destruct (Hn _ _ Hi) as [Hr Hb Ht Hpar Hch]. split; try done.
      * intros Hroot. destruct (Hpar Hroot) as [op Hop].
        destruct (decide (op_parent oi = id)) as [->|]; [by rewrite lookup_insert_eq|].
        rewrite lookup_insert_ne by done. by eexists.
      * by rewrite (kids_update _ _ o).
Qed.

Lemma tree_ok_emit t m e : tree_ok t m → tree_ok (emit t e) m.
Proof. intros []. by split. Qed.

Lemma size_kids_insert m n o id :
  m !! n = None →
  size (kids (<[n := o]> m) id) = ((if decide (op_parent o = id) then 1 else 0) + size (kids m id))%nat.
Proof.
  intros Hn. rewrite kids_insert by done.
  assert (n ∉ kids m id) by (rewrite elem_of_kids; naive_solver).
  case_decide; [|by rewrite union_empty_l_L].
  rewrite size_union by set_solver. by rewrite size_singleton.
Qed.

Lemma size_kids_delete m n o id :
  m !! n = Some o →
  size (kids m id) = ((if decide (op_parent o = id) then 1 else 0) + size (kids (delete n m) id))%nat.
Proof.
  intros Hn. rewrite <- (insert_delete_id m n o Hn) at 1.
  by rewrite size_kids_insert by apply lookup_delete_eq.
Qed.

(** [open_node] adds a child to a running parent. *)
Definition opened (m : gmap N Open) (id parent : N) (o : Open) (s : Start) : gmap N Open :=
  <[id := mkOpen parent (st_planned s) ∅ 0 None None]>
    (<[parent := with_children o (op_children o + 1)]> m).

Definition started_event (id parent : N) (s : Start) : Event :=
  Event_NodeStarted (mkNodeStarted id parent (st_key s) (st_planned s) (st_shielded s)
    (Some (st_kind s))).

Lemma tree_ok_open t m parent o s :
  tree_ok t m → m !! parent = Some o →
  ∃ t', open_node t parent s = (next t, t') ∧ tree_ok t' (opened m (next t) parent o s) ∧
    emitted t' = emitted t ++ [started_event (next t) parent s] ∧ next t' = next t + 1.
Proof.
  intros Hok Hp. assert (Hgp := Hp). rewrite <- (tree_get _ _ Hok) in Hgp.
  assert (Hlen := get_length _ _ _ Hgp). eexists. split; [reflexivity|].
  assert (Hget : get (mkTree (emitted t) (next t + 1) (open t)) parent = Some o) by exact Hgp.
  rewrite Hget. destruct Hok as [Hl Hg Hn H1].
  assert (Hfresh : m !! next t = None).
  { destruct (m !! next t) eqn:H; [|done]. destruct (node_range _ _ _ _ (Hn _ _ H)); lia. }
  assert (Hne : parent ≠ next t) by congruence.
  split_and!; [|done..]. split; simpl.
  - rewrite put_at_end by (by rewrite length_insert). rewrite length_app, length_insert, Hl. simpl. lia.
  - intros i. unfold get. simpl. rewrite put_at_end by (by rewrite length_insert).
    unfold opened. destruct (decide (i = next t)) as [->|Hi].
    + rewrite lookup_insert_eq, lookup_app_r by (rewrite length_insert; lia).
      by rewrite length_insert, Hl, Nat.sub_diag.
    + rewrite lookup_insert_ne by done. rewrite <- Hg in Hfresh.
      assert (Hi' : mjoin ((<[N.to_nat parent:=Some (with_children o (op_children o + 1))]> (open t) ++
        [Some (mkOpen parent (st_planned s) ∅ 0 None None)]) !! N.to_nat i) =
        get (set_open t parent (Some (with_children o (op_children o + 1)))) i).
      { unfold get, set_open. simpl. destruct (decide (N.to_nat i < length (open t))%nat).
        - by rewrite lookup_app_l by (by rewrite length_insert).
        - rewrite (lookup_ge_None_2 (<[_ := _]> _)) by (rewrite length_insert; lia).
          rewrite lookup_ge_None_2; [done|]. rewrite length_app, length_insert. simpl. lia. }
      rewrite Hi', get_set by done. case_decide; [subst; by rewrite lookup_insert_eq|].
      by rewrite lookup_insert_ne.
  - unfold opened. intros i oi.
    assert (Hkids : ∀ j, size (kids (<[next t:=mkOpen parent (st_planned s) ∅ 0 None None]>
      (<[parent:=with_children o (op_children o + 1)]> m)) j) =
      ((if decide (parent = j) then 1 else 0) + size (kids m j))%nat).
    { intros j. rewrite size_kids_insert by (by rewrite lookup_insert_ne). simpl.
      by rewrite (kids_update _ _ o). }
    assert (Hsome : ∀ j, is_Some (m !! j) → is_Some ((<[next t:=mkOpen parent (st_planned s) ∅ 0 None None]>
      (<[parent:=with_children o (op_children o + 1)]> m)) !! j)).
    { intros j. rewrite !lookup_insert_is_Some. destruct (decide (next t = j)), (decide (parent = j)); tauto. }
    rewrite !lookup_insert_Some. intros [[<- <-]|[Hi [[<- <-]|[Hi' Hoi]]]].
    + destruct (Hn _ _ Hp) as [Hr Hb Ht Hpar Hch].
      split; simpl; [lia|lia|unfold ROOT in *; lia|by eauto|].
      rewrite Hkids. rewrite decide_False by done.
      assert (kids m (next t) = ∅) as ->; [|by rewrite size_empty].
      apply set_eq. intros c. rewrite elem_of_kids, elem_of_empty. split; [|done].
      intros (oc & Hc & Hpc). destruct (Hn _ _ Hc) as [? ? _ _ _]. lia.
    + destruct (Hn _ _ Hp) as [Hr Hb Ht Hpar Hch]. split; simpl; [lia|done|done|by eauto|].
      rewrite Hkids, Hch, decide_True by done. lia.
    + destruct (Hn _ _ Hoi) as [Hr Hb Ht Hpar Hch]. split; simpl; [lia|done|done|by eauto|].
      by rewrite Hkids, Hch, decide_False.
  - lia.
Qed.

Definition root_node (s : Start) : Open := mkOpen 0 (st_planned s) ∅ 0 None None.

Lemma tree_ok_new s :
  tree_ok (tree_new s) {[ROOT := root_node s]} ∧ emitted (tree_new s) = [started_event ROOT 0 s].
Proof.
  split; [|done]. split; simpl; [done| | |unfold ROOT; lia].
  - intros i. destruct (decide (i = ROOT)) as [->|Hi]; [by rewrite lookup_singleton_eq|].
    rewrite lookup_singleton_ne by done. unfold get. simpl.
    destruct (N.to_nat i) as [|[|?]] eqn:H; [done| |done]. unfold ROOT in Hi. lia.
  - intros i o. rewrite lookup_singleton_Some. intros [<- <-].
    split; simpl; [unfold ROOT; lia|unfold ROOT; lia|done|done|].
    assert (kids {[ROOT:=root_node s]} ROOT = ∅) as ->; [|by rewrite size_empty].
    apply set_eq. intros c. rewrite elem_of_kids, elem_of_empty. split; [|done].
    intros (o & [<- <-]%lookup_singleton_Some & Ho). done.
Qed.

(** [claim] takes a fresh key of a running parent. *)
Lemma claim_open t m parent key o :
  tree_ok t m → m !! parent = Some o →
  claim t parent key =
    if decide (key ∈ op_used o) then (Err (Misuse_DuplicateKey parent key), t)
    else (Ok key, set_open t parent (Some (with_used o ({[key]} ∪ op_used o)))).
Proof. intros Hok Hp. unfold claim. by rewrite (tree_get _ _ Hok), Hp. Qed.

Lemma claim_closed t m parent key :
  tree_ok t m → m !! parent = None → claim t parent key = (Err (Misuse_NotOpen parent), t).
Proof. intros Hok Hp. unfold claim. by rewrite (tree_get _ _ Hok), Hp. Qed.

(** [finish] closes a node without running children. *)
Definition closed (m : gmap N Open) (id : N) (o : Open) : gmap N Open :=
  match delete id m !! op_parent o with
  | Some parent => <[op_parent o := with_children parent (op_children parent - 1)]> (delete id m)
  | None => delete id m
  end.

Definition not_reached (id : N) (o : Open) : list Event :=
  (λ key, Event_NotRun (mkNotRun id key (NotRunReason_i32 NotRunReason_NotReached) "")) <$>
    filter (λ key, key ∉ op_used o) (op_planned o).

Definition finished_event (id : N) (e : Ending) : Event :=
  Event_NodeFinished (mkNodeFinished id (Status_i32 (en_status e)) (en_diagnostic e)
    (en_exit_code e) (Cancellation_i32 (en_cancellation e)) (en_result e)).

Lemma foldl_not_run t id keys :
  foldl (λ t key, emit_not_run t id key NotRunReason_NotReached "") t keys =
  mkTree (emitted t ++ ((λ key, Event_NotRun
    (mkNotRun id key (NotRunReason_i32 NotRunReason_NotReached) "")) <$> keys)) (next t) (open t).
Proof.
  revert t. induction keys as [|key keys IH]; intros t; csimpl.
  - rewrite app_nil_r. by destruct t.
  - rewrite IH. simpl. by rewrite <- app_assoc.
Qed.

Lemma tree_ok_close t m id o e :
  tree_ok t m → m !! id = Some o → op_children o = 0 →
  ∃ t', finish t id e = Some (Ok tt, t') ∧ tree_ok t' (closed m id o) ∧
    emitted t' = emitted t ++ not_reached id o ++ [finished_event id e] ∧ next t' = next t.
Proof.
  intros Hok Hid Hc. unfold finish. rewrite (tree_get _ _ Hok), Hid, decide_False by lia.
  rewrite foldl_not_run. eexists. split; [reflexivity|].
  assert (Hgid := Hid). rewrite <- (tree_get _ _ Hok) in Hgid.
  assert (Hlen := get_length _ _ _ Hgid).
  destruct Hok as [Hl Hg Hn H1]. destruct (Hn _ _ Hid) as [Hr Hb Ht Hpar Hch].
  assert (Hnokids : kids m id = ∅) by (apply leibniz_equiv, size_empty_inv; lia).
  assert (Hdel : ∀ i, get (set_open t id None) i = delete id m !! i).
  { intros i. rewrite get_set by done. case_decide; [subst; by rewrite lookup_delete_eq|].
    by rewrite lookup_delete_ne, Hg. }
  assert (Hstill : ∀ i oi, m !! i = Some oi → op_parent oi ≠ id).
  { intros i oi Hi Hp. assert (i ∈ kids m id) by (apply elem_of_kids; eauto). set_solver. }
  rewrite Hdel. unfold closed. destruct (delete id m !! op_parent o) as [p|] eqn:Hp.
  - apply lookup_delete_Some in Hp as [Hne Hp].
    assert (Hlenp : (N.to_nat (op_parent o) < length (open (set_open t id None)))%nat).
    { simpl. rewrite length_insert. apply (get_length _ _ p). by rewrite Hg. }
    split_and!; [|simpl; by rewrite <- app_assoc|done].
    split; simpl; [by rewrite !length_insert| | |done].
    + intros i. trans (get (set_open (set_open t id None) (op_parent o)
        (Some (with_children p (op_children p - 1)))) i); [done|].
      rewrite get_set by done. case_decide; [subst; by rewrite lookup_insert_eq|].
      by rewrite lookup_insert_ne, Hdel.
    + assert (Hkids : ∀ j, size (kids m j) = ((if decide (op_parent o = j) then 1 else 0) +
        size (kids (<[op_parent o:=with_children p (op_children p - 1)]> (delete id m)) j))%nat).
      { intros j. rewrite (size_kids_delete m id o j Hid).
        rewrite (kids_update (delete id m) _ p); [done| |done]. by rewrite lookup_delete_ne. }
      intros i oi. rewrite lookup_insert_Some, lookup_delete_Some.
      intros [[<- <-]|[Hi [Hi' Hoi]]].
      * destruct (Hn _ _ Hp) as [Hr' Hb' Ht' Hpar' Hch']. split; simpl; try done.
        -- intros Hroot. destruct (Hpar' Hroot) as [q Hq].
           rewrite lookup_insert_ne by lia.
           rewrite lookup_delete_ne by (intros Heq; by apply (Hstill _ _ Hp)). by eexists.
        -- rewrite Hkids, decide_True in Hch' by done. lia.
      * destruct (Hn _ _ Hoi) as [Hr' Hb' Ht' Hpar' Hch']. split; simpl; try done.
        -- intros Hroot. rewrite lookup_insert_is_Some, lookup_delete_is_Some.
           destruct (decide (op_parent o = op_parent oi)); [by left|right].
           split; [done|]. split; [|by apply Hpar']. intros Heq. by apply (Hstill _ _ Hoi).
        -- by rewrite Hkids, decide_False in Hch'.
  - split_and!; [|simpl; by rewrite <- app_assoc|done].
    split; simpl; [by rewrite length_insert|by intros i; rewrite <- Hdel| |done].
    intros i oi [Hi Hoi]%lookup_delete_Some.
    destruct (Hn _ _ Hoi) as [Hr' Hb' Ht' Hpar' Hch']. split; simpl; try done.
    + intros Hroot. rewrite lookup_delete_is_Some. split; [|by apply Hpar'].
      intros Heq. by apply (Hstill _ _ Hoi).
    + rewrite Hch', (size_kids_delete m id o i Hid), decide_False; [done|].
      intros <-. apply lookup_delete_None in Hp as [Heq|Hp]; [|congruence].
      by eapply (Hstill id o).
Qed.

(** An open node has an open root. *)
Lemma open_root t m id o : tree_ok t m → m !! id = Some o → is_Some (m !! ROOT).
Proof.
  intros Hok. revert o. induction (N.lt_wf_0 id) as [id _ IH]. intros o Hid.
  destruct (tree_nodes _ _ Hok _ _ Hid) as [_ Hb _ Hpar _].
  destruct (decide (id = ROOT)) as [->|Hne]; [by eexists|].
  destruct (Hpar Hne) as [p Hp]. by eapply IH.
Qed.

(** A node whose count of children is positive has a running child: [finish] finds it. *)
Lemma first_child_found t m id o :
  tree_ok t m → m !! id = Some o → 0 < op_children o → ∃ child, first_child t id = Some child.
Proof.
  intros Hok Hid Hc. rewrite (node_children _ _ _ _ (tree_nodes _ _ Hok _ _ Hid)) in Hc.
  assert (Hne : kids m id ≠ ∅) by (intros Hk; rewrite Hk, size_empty in Hc; lia).
  apply set_choose_L in Hne as [c Hk]. apply elem_of_kids in Hk as (oc & Hoc & Hpc).
  assert (Hget := Hoc). rewrite <- (tree_get _ _ Hok) in Hget. unfold get in Hget.
  destruct (open t !! N.to_nat c) as [x|] eqn:Hx; [|done]. simpl in Hget. subst x.
  unfold first_child, find.
  destruct (list_find _ (imap _ (open t))) as [[i e]|] eqn:Hf; [by eexists|].
  apply list_find_None in Hf. rewrite Forall_forall in Hf.
  exfalso. apply (Hf (N.of_nat (N.to_nat c), Some oc)).
  - apply (list_elem_of_lookup_2 _ (N.to_nat c)). by rewrite list_lookup_imap, Hx.
  - simpl. by rewrite bool_decide_true.
Qed.

(** ** The simulation *)

Record seen_as (m : gmap N Open) (id : N) (o : Open) (r : Seen) : Prop := {
  seen_finished : sn_finished r = false;
  seen_parent : sn_parent r = op_parent o;
  seen_planned : sn_planned r = op_planned o;
  seen_keys : sn_keys r = op_used o;
  seen_children : sn_open_children r = kids m id;
}.

Record agrees (v : Validator) (m : gmap N Open) (bound : N) : Prop := {
  ag_range : ∀ id r, nodes v !! id = Some r → 1 <= id < bound ∧ (sn_entry r < length (entries v))%nat;
  ag_open : ∀ id o, m !! id = Some o → ∃ r, nodes v !! id = Some r ∧ seen_as m id o r;
  ag_closed : ∀ id r, nodes v !! id = Some r → sn_finished r = false → is_Some (m !! id);
  ag_root : root_finished v = false ↔ is_Some (m !! ROOT);
}.

(** A tree whose events the validator has accepted so far, and whose open nodes it
    knows as the tree does. *)
Record valid_with (t : Tree) (m : gmap N Open) (v : Validator) : Prop := {
  valid_tree : tree_ok t m;
  valid_planned : ∀ id o, m !! id = Some o → NoDup (op_planned o);
  valid_run : v_run validator_new (emitted t) = Ok v;
  valid_agrees : agrees v m (next t);
}.

Definition valid (t : Tree) : Prop := ∃ m v, valid_with t m v.

Lemma v_take_open v m bound id e :
  agrees v m bound → is_Some (m !! ROOT) → is_Some (m !! id) → v_take v e = v_event v e.
Proof.
  intros Hag Hroot [o Hid]. unfold v_take.
  destruct (ag_root _ _ _ Hag) as [_ Hr]. rewrite (Hr Hroot), decide_False; [done|].
  intros [He _]. destruct (ag_open _ _ _ Hag _ _ Hid) as (r & Hn & _).
  by rewrite He, lookup_empty in Hn.
Qed.

(** A change of a node that only adds to its keys. *)
Definition keyed (r : Seen) (key : string) (children : gset N) : Seen :=
  mkSeen (sn_parent r) (sn_entry r) (sn_shape r) (sn_planned r) ({[key]} ∪ sn_keys r)
    children (sn_finished r).

Lemma NotRunReason_roundtrip r : NotRunReason_field (NotRunReason_i32 r) = r.
Proof. by destruct r. Qed.

Lemma Status_roundtrip s : Status_field (Status_i32 s) = s.
Proof. by destruct s. Qed.

Lemma not_run_sim v m bound parent o key reason by_ :
  agrees v m bound → is_Some (m !! ROOT) → m !! parent = Some o → key ∉ op_used o →
  reason ≠ NotRunReason_Unspecified → (reason = NotRunReason_Blocked ↔ by_ ≠ "") →
  ∃ v', v_take v (Event_NotRun (mkNotRun parent key (NotRunReason_i32 reason) by_)) = Ok v' ∧
    agrees v' (<[parent := with_used o ({[key]} ∪ op_used o)]> m) bound.
Proof.
  intros Hag Hroot Hp Hkey Hreason Hby.
  destruct (ag_open _ _ _ Hag _ _ Hp) as (r & Hr & [Hf Hpar Hpl Hk Hc]).
  rewrite (v_take_open v m bound parent) by (try done; by eexists). simpl. unfold v_not_run. simpl.
  rewrite Hr, Hf, decide_False by (by rewrite Hk).
  rewrite NotRunReason_roundtrip, decide_False by done.
  rewrite decide_False.
  2:{ intros Heq. destruct (String.eqb_spec by_ ""); simpl in Heq.
      - apply bool_decide_eq_true in Heq. naive_solver.
      - apply bool_decide_eq_false in Heq. naive_solver. }
  eexists. split; [reflexivity|]. split; simpl.
  - intros id r'. rewrite length_app. simpl. rewrite lookup_insert_Some.
    intros [[<- <-]|[_ Hr']]; simpl.
    + destruct (ag_range _ _ _ Hag _ _ Hr). lia.
    + destruct (ag_range _ _ _ Hag _ _ Hr'). lia.
  - intros id o'. rewrite lookup_insert_Some. intros [[<- <-]|[Hne Ho']].
    + rewrite lookup_insert_eq. eexists. split; [done|].
      split; simpl; [done|done|done|by rewrite Hk|by rewrite (kids_update _ _ o)].
    + rewrite lookup_insert_ne by done.
      destruct (ag_open _ _ _ Hag _ _ Ho') as (r' & Hr' & [? ? ? ? Hch]).
      exists r'. split; [done|]. split; try done. by rewrite (kids_update _ _ o).
  - intros id r'. rewrite lookup_insert_Some, lookup_insert_is_Some.
    intros [[<- _]|[Hne Hr']] Hf'; [by left|]. right. split; [done|].
    by eapply ag_closed.
  - rewrite (ag_root _ _ _ Hag), lookup_insert_is_Some.
    split; [|by intros [<-|[? ?]]; [by eexists|]].
    intros ?. destruct (decide (parent = ROOT)); auto.
Qed.

(** ** What the validator remembers of the events it took *)

Definition keeps (v v' : Validator) : Prop :=
  ∀ id r, nodes v !! id = Some r → ∃ r', nodes v' !! id = Some r' ∧
    sn_shape r' = sn_shape r ∧ sn_parent r' = sn_parent r ∧
    (sn_finished r = true → sn_finished r' = true).

#[export] Instance keeps_preorder : PreOrder keeps.
Proof.
  split.
  - intros v id r Hr. by exists r.
  - intros v1 v2 v3 H12 H23 id r Hr.
    destruct (H12 _ _ Hr) as (r2 & Hr2 & ? & ? & ?).
    destruct (H23 _ _ Hr2) as (r3 & Hr3 & ? & ? & ?).
    exists r3. split_and!; [done|congruence|congruence|auto].
Qed.

(** One node replaced by another of the same shape. *)
Lemma keeps_insert v v' id r r' :
  nodes v !! id = Some r → nodes v' = <[id := r']> (nodes v) →
  sn_shape r' = sn_shape r → sn_parent r' = sn_parent r →
  (sn_finished r = true → sn_finished r' = true) → keeps v v'.
Proof.
  intros Hid Hv' ? ? ? i ri Hi. rewrite Hv'. destruct (decide (i = id)) as [->|Hne].
  - exists r'. rewrite lookup_insert_eq. simplify_eq. done.
  - exists ri. by rewrite lookup_insert_ne.
Qed.

Lemma keeps_fresh v v' id r' :
  nodes v !! id = None → nodes v' = <[id := r']> (nodes v) → keeps v v'.
Proof.
  intros Hid Hv' i ri Hi. exists ri. rewrite Hv', lookup_insert_ne; [done|congruence].
Qed.

Lemma started_under_keeps v node p v' :
  started_under v node = Ok (p, v') →
  keeps v v' ∧ (is_Some (nodes v' !! ns_id node) → is_Some (nodes v !! ns_id node)).
Proof.
  unfold started_under. intros H. repeat case_match; simplify_eq; [done|].
  split.
  - eapply keeps_insert; [eassumption|reflexivity|simpl; congruence..].
  - simpl. rewrite lookup_insert_is_Some. intros [<-|[_ ?]]; [by eexists|done].
Qed.

Lemma v_take_keeps v e v' : v_take v e = Ok v' → keeps v v'.
Proof.
  unfold v_take. intros H. case_match; [done|]. case_decide as Hroot; [done|].
  destruct e as [node|progress|node|n|d]; simpl in H.
  - unfold v_started in H. case_decide; [done|]. case_decide; [done|].
    apply bind_Ok in H as ([p v1] & Hu & H). apply bind_Ok in H as (? & _ & H). simplify_eq.
    destruct (started_under_keeps _ _ _ _ Hu) as [Hk Hn]. etrans; [exact Hk|].
    eapply keeps_fresh; [|done]. destruct (nodes v1 !! ns_id node); [|done].
    exfalso. eauto.
  - unfold v_open in H. repeat case_match; by simplify_eq.
  - unfold v_finished in H. case_match eqn:Hr; [|done].
    apply bind_Ok in H as (status & _ & H). simplify_eq.
    set (r' := mkSeen (sn_parent s) (sn_entry s) (sn_shape s)
        (sn_planned s) (sn_keys s) (sn_open_children s) true).
    trans (with_nodes v (<[nf_id node := r']> (nodes v))).
    { eapply keeps_insert; [exact Hr|done..]. }
    destruct (<[nf_id node:=r']> (nodes v) !! sn_parent s) as [q|] eqn:Hq.
    + eapply keeps_insert; [exact Hq|done..].
    + intros i ri Hi. by exists ri.
  - unfold v_not_run in H. repeat case_match; try done. simplify_eq.
    eapply keeps_insert; [eassumption|reflexivity|simpl; congruence..].
  - unfold v_open in H. repeat case_match; by simplify_eq.
Qed.

Lemma v_run_keeps v l v' : v_run v l = Ok v' → keeps v v'.
Proof.
  revert v. induction l as [|e l IH]; intros v H; simpl in H; [by simplify_eq|].
  apply bind_Ok in H as (v1 & H1 & H). etrans; [by eapply v_take_keeps|by apply IH].
Qed.

(** The start and the end of a node in a list of events. *)
Definition started_in (l : list Event) (id : N) : option NodeStarted :=
  find_map (λ e, match e with
                 | Event_NodeStarted n => if decide (ns_id n = id) then Some n else None
                 | _ => None
                 end) l.

Definition finished_in (l : list Event) (id : N) : bool :=
  existsb (λ e, match e with Event_NodeFinished n => bool_decide (nf_id n = id) | _ => false end) l.

Lemma v_run_started v l v' id n :
  v_run v l = Ok v' → started_in l id = Some n →
  ∃ r, nodes v' !! id = Some r ∧ sn_shape r = shape_of (ns_kind n) ∧ sn_parent r = ns_parent n.
Proof.
  revert v. induction l as [|e l IH]; intros v H Hs; [done|].
  unfold started_in in *. cbn [find_map] in Hs. simpl in H.
  apply bind_Ok in H as (v1 & H1 & H).
  assert (Hother : find_map (λ e, match e with
                 | Event_NodeStarted n => if decide (ns_id n = id) then Some n else None
                 | _ => None
                 end) l = Some n → ∃ r, nodes v' !! id = Some r ∧
          sn_shape r = shape_of (ns_kind n) ∧ sn_parent r = ns_parent n) by (by apply IH with v1).
  destruct e as [node| | | |]; auto. case_decide as Hid; [|auto]. simplify_eq.
  unfold v_take in H1. case_match; [done|]. case_decide; [done|]. simpl in H1. unfold v_started in H1.
  case_decide; [done|]. case_decide; [done|].
  apply bind_Ok in H1 as ([p v2] & _ & H1). apply bind_Ok in H1 as (? & _ & H1). simplify_eq.
  eapply v_run_keeps in H.
  edestruct (H (ns_id n)) as (r & Hr & Hsh & Hpa & _); [simpl; apply lookup_insert_eq|].
  by exists r.
Qed.

Lemma v_run_finished v l v' id :
  v_run v l = Ok v' → finished_in l id = true →
  ∃ r, nodes v' !! id = Some r ∧ sn_finished r = true.
Proof.
  revert v. induction l as [|e l IH]; intros v H Hs; simpl in *; [done|].
  apply bind_Ok in H as (v1 & H1 & H).
  apply orb_true_iff in Hs as [Hs|Hs]; [|by eapply IH].
  destruct e as [| |node| |]; try done. apply bool_decide_eq_true in Hs. subst id.
  unfold v_take in H1. case_match; [done|]. case_decide; [done|]. simpl in H1. unfold v_finished in H1.
  case_match eqn:Hr; [|done]. apply bind_Ok in H1 as (status & _ & H1). simplify_eq.
  apply v_run_keeps in H. set (id := nf_id node) in *.
  set (r' := mkSeen (sn_parent s) (sn_entry s) (sn_shape s)
        (sn_planned s) (sn_keys s) (sn_open_children s) true) in *.
  assert (Hnow : ∃ r1, match <[id:=r']> (nodes v) !! sn_parent s with
     | Some parent => <[sn_parent s:=mkSeen (sn_parent parent) (sn_entry parent) (sn_shape parent)
          (sn_planned parent) (sn_keys parent) (sn_open_children parent ∖ {[id]})
          (sn_finished parent)]> (<[id:=r']> (nodes v))
     | None => <[id:=r']> (nodes v) end !! id = Some r1 ∧ sn_finished r1 = true).
  { destruct (decide (sn_parent s = id)) as [->|Hne].
    - rewrite lookup_insert_eq. eexists. by rewrite lookup_insert_eq.
    - exists r'. destruct (_ !! sn_parent s); rewrite ?lookup_insert_ne, ?lookup_insert_eq by done; done. }
  destruct Hnow as (r1 & Hr1 & Hf).
  destruct (H _ _ Hr1) as (r2 & Hr2 & _ & _ & Hf2). exists r2. auto.
Qed.

(** ** The simulation, operation by operation *)

(** A rollback node undoes a finished step beside it. *)
Definition start_ok (t : Tree) (parent : N) (s : Start) : Prop :=
  NoDup (st_planned s) ∧
  match st_kind s with
  | Kind_Rollback undoes =>
      finished_in (emitted t) undoes = true ∧
      ∃ n, started_in (emitted t) undoes = Some n ∧ ns_parent n = parent ∧
        shape_of (ns_kind n) = Shape_Step
  | _ => True
  end.

(** An ending that says what it must and no more. *)
Definition ending_ok (t : Tree) (id : N) (e : Ending) : Prop :=
  en_status e ≠ Status_Unspecified ∧
  (en_status e = Status_Cancelled ↔ en_cancellation e ≠ Cancellation_Unspecified) ∧
  (id ≠ ROOT → en_exit_code e = 0) ∧
  ∀ r, en_result e = Some r →
    ∃ n, started_in (emitted t) id = Some n ∧ accepts (shape_of (ns_kind n)) r = true.

Lemma kids_opened m id parent o s j :
  m !! parent = Some o → m !! id = None →
  kids (opened m id parent o s) j = (if decide (parent = j) then {[id]} else ∅) ∪ kids m j.
Proof.
  intros Hp Hid. unfold opened. assert (Hne : parent ≠ id) by congruence.
  rewrite kids_insert by (by rewrite lookup_insert_ne). simpl.
  by rewrite (kids_update _ _ o).
Qed.

Lemma start_sim v m bound parent o s :
  agrees v m bound → (∀ id o, m !! id = Some o → node_ok m bound id o) →
  is_Some (m !! ROOT) → m !! parent = Some o → st_key s ∉ op_used o →
  (∀ undoes, st_kind s = Kind_Rollback undoes → rollback_target v parent undoes = true) →
  ∃ v', v_take v (started_event bound parent s) = Ok v' ∧
    agrees v' (opened (<[parent := with_used o ({[st_key s]} ∪ op_used o)]> m) bound parent
      (with_used o ({[st_key s]} ∪ op_used o)) s) (bound + 1).
Proof.
  intros Hag Hn Hroot Hp Hkey Hroll.
  destruct (Hn _ _ Hp) as [Hrange Hb Htop Hpar _].
  assert (Hfresh : nodes v !! bound = None).
  { destruct (nodes v !! bound) eqn:H; [|done]. destruct (ag_range _ _ _ Hag _ _ H). lia. }
  assert (Hfreshm : m !! bound = None).
  { destruct (m !! bound) eqn:H; [|done]. destruct (node_range _ _ _ _ (Hn _ _ H)). lia. }
  destruct (ag_open _ _ _ Hag _ _ Hp) as (r & Hr & [Hf Hpr Hpl Hk Hc]).
  rewrite (v_take_open v m bound parent) by (try done; by eexists).
  simpl. unfold v_started. simpl. rewrite decide_False by lia.
  rewrite decide_False by (rewrite Hfresh; by intros [? ?]).
  unfold started_under. simpl. rewrite decide_False by lia.
  rewrite Hr, Hf, decide_False by (by rewrite Hk). simpl.
  set (r' := mkSeen (sn_parent r) (sn_entry r) (sn_shape r) (sn_planned r)
    ({[st_key s]} ∪ sn_keys r) ({[bound]} ∪ sn_open_children r) false).
  assert (Hcheck : match st_kind s with
    | Kind_Rollback undoes =>
        if rollback_target (with_nodes v (<[parent:=r']> (nodes v))) parent undoes
        then Ok tt else Err (Violation_RollbackTarget bound undoes)
    | _ => Ok tt end = Ok tt).
  { destruct (st_kind s) as [| | |undoes| | | | | |] eqn:Hkind; try done.
    specialize (Hroll undoes eq_refl). unfold rollback_target in *. simpl.
    destruct (decide (undoes = parent)) as [->|Hne].
    - rewrite Hr, Hf in Hroll. apply bool_decide_eq_true in Hroll. naive_solver.
    - by rewrite lookup_insert_ne, Hroll. }
  rewrite Hcheck. simpl. eexists. split; [reflexivity|].
  assert (Hne : parent ≠ bound) by lia.
  split; simpl.
  - intros id ri. rewrite length_app. simpl. rewrite !lookup_insert_Some.
    intros [[<- <-]|[_ [[<- <-]|[_ Hri]]]]; simpl; [lia| |].
    + destruct (ag_range _ _ _ Hag _ _ Hr). lia.
    + destruct (ag_range _ _ _ Hag _ _ Hri). lia.
  - set (o1 := with_used o ({[st_key s]} ∪ op_used o)).
    assert (Hkids : ∀ j, kids (opened (<[parent:=o1]> m) bound parent o1 s) j =
      (if decide (parent = j) then {[bound]} else ∅) ∪ kids m j).
    { intros j. rewrite kids_opened; [by rewrite (kids_update _ _ o)|by rewrite lookup_insert_eq|].
      by rewrite lookup_insert_ne. }
    intros id oi Hoi. unfold opened in Hoi. rewrite insert_insert_eq in Hoi.
    apply lookup_insert_Some in Hoi as [[<- <-]|[Hi Hoi]].
    + rewrite lookup_insert_eq. eexists. split; [done|]. split; simpl; try done.
      rewrite Hkids, decide_False by done. rewrite (left_id_L ∅ (∪)).
      symmetry. apply set_eq. intros c. rewrite elem_of_kids, elem_of_empty.
      split; [|done]. intros (oc & Hoc & Hpc).
      destruct (Hn _ _ Hoc) as [? ? _ _ _]. lia.
    + rewrite lookup_insert_ne by done.
      apply lookup_insert_Some in Hoi as [[<- <-]|[Hi' Hoi]].
      * rewrite lookup_insert_eq. eexists. split; [done|].
        split; simpl; [done|done|done|by rewrite Hk|].
        by rewrite Hkids, decide_True, Hc.
      * rewrite lookup_insert_ne by done.
        destruct (ag_open _ _ _ Hag _ _ Hoi) as (ri & Hri & [? ? ? ? Hch]).
        exists ri. split; [done|]. split; try done.
        rewrite Hkids, decide_False by done. by rewrite (left_id_L ∅ (∪)).
  - intros id ri. unfold opened. rewrite !lookup_insert_Some, !lookup_insert_is_Some'.
    intros [[<- _]|[? [[<- _]|[? Hri]]]] Hfi; [by left|by right; left|].
    do 3 right. by eapply ag_closed.
  - rewrite (ag_root _ _ _ Hag). unfold opened. rewrite !lookup_insert_is_Some'. tauto.
Qed.

Lemma with_used_used o u w : with_used (with_used o u) w = with_used o w.
Proof. done. Qed.

Lemma not_reached_sim v m bound id o keys :
  agrees v m bound → is_Some (m !! ROOT) → m !! id = Some o → NoDup keys →
  (∀ key, key ∈ keys → key ∉ op_used o) →
  ∃ v', v_run v ((λ key, Event_NotRun
      (mkNotRun id key (NotRunReason_i32 NotRunReason_NotReached) "")) <$> keys) = Ok v' ∧
    agrees v' (<[id := with_used o (list_to_set keys ∪ op_used o)]> m) bound.
Proof.
  intros Hag Hroot Hid Hnd. revert v m o Hag Hroot Hid.
  induction Hnd as [|key keys Hkey _ IH]; intros v m o Hag Hroot Hid Hfresh; csimpl.
  { exists v. split; [done|]. rewrite (left_id_L ∅ (∪)).
    rewrite insert_id; [done|]. by destruct o. }
  destruct (not_run_sim v m bound id o key NotRunReason_NotReached "") as (v1 & Hv1 & Hag1);
    try done; [by apply Hfresh; left|].
  change (NotRunReason_i32 NotRunReason_NotReached) with 1%Z in *. rewrite Hv1. simpl.
  destruct (IH v1 _ (with_used o ({[key]} ∪ op_used o)) Hag1) as (v2 & Hv2 & Hag2).
  - rewrite lookup_insert_is_Some'. by right.
  - apply lookup_insert_eq.
  - simpl. intros k Hk. rewrite elem_of_union, elem_of_singleton.
    intros [->|Hu]; [done|]. eapply Hfresh; [by right|done].
  - exists v2. split; [done|]. rewrite insert_insert_eq, with_used_used in Hag2. simpl in Hag2.
    replace ({[key]} ∪ list_to_set keys ∪ op_used o)
      with (list_to_set keys ∪ ({[key]} ∪ op_used o)) by set_solver. done.
Qed.

Lemma set_min_empty : set_min ∅ = None.
Proof. unfold set_min. by rewrite elements_empty. Qed.

(** The open nodes once [id] is closed. *)
Section closing.
Context (m : gmap N Open) (bound id : N) (o : Open).
Hypothesis Hn : ∀ id o, m !! id = Some o → node_ok m bound id o.
Hypothesis Hid : m !! id = Some o.

Lemma kids_closed j : kids (closed m id o) j = kids m j ∖ {[id]}.
Proof.
  unfold closed. destruct (delete id m !! op_parent o) as [p|] eqn:Hp;
    [rewrite (kids_update _ _ p) by done|]; apply kids_delete.
Qed.

Lemma closed_self : closed m id o !! id = None.
Proof.
  destruct (Hn _ _ Hid) as [_ Hb _ _ _]. unfold closed.
  destruct (delete id m !! op_parent o); [rewrite lookup_insert_ne by lia|];
    apply lookup_delete_eq.
Qed.

Lemma closed_open j oj :
  closed m id o !! j = Some oj → j ≠ id ∧ ∃ oj', m !! j = Some oj' ∧
    op_parent oj = op_parent oj' ∧ op_planned oj = op_planned oj' ∧ op_used oj = op_used oj'.
Proof.
  unfold closed. destruct (delete id m !! op_parent o) as [p|] eqn:Hp.
  - rewrite lookup_insert_Some, lookup_delete_Some.
    apply lookup_delete_Some in Hp as [Hne Hp].
    intros [[<- <-]|(? & ? & ?)]; naive_solver.
  - intros [? ?]%lookup_delete_Some. naive_solver.
Qed.

Lemma closed_still j : j ≠ id → is_Some (m !! j) → is_Some (closed m id o !! j).
Proof.
  intros Hj Hm. unfold closed. destruct (delete id m !! op_parent o).
  - rewrite lookup_insert_is_Some', lookup_delete_is_Some. auto.
  - by rewrite lookup_delete_is_Some.
Qed.
End closing.

(** The validator's record of a node once its child [id] finished. *)
Definition without_child (id : N) (r : Seen) : Seen :=
  mkSeen (sn_parent r) (sn_entry r) (sn_shape r) (sn_planned r) (sn_keys r)
    (sn_open_children r ∖ {[id]}) (sn_finished r).

Lemma agrees_closed v v' m bound id o r :
  agrees v m bound → (∀ id o, m !! id = Some o → node_ok m bound id o) →
  m !! id = Some o → nodes v !! id = Some r →
  length (entries v') = length (entries v) →
  root_finished v' = (if decide (id = ROOT) then true else root_finished v) →
  (∀ j, nodes v' !! j =
     if decide (j = id) then Some (mkSeen (sn_parent r) (sn_entry r) (sn_shape r) (sn_planned r)
       (sn_keys r) (sn_open_children r) true)
     else if decide (j = op_parent o) then without_child id <$> nodes v !! j else nodes v !! j) →
  agrees v' (closed m id o) bound.
Proof.
  intros Hag Hn Hid Hr Hlen Hrf Hnodes. split.
  - intros i ri. rewrite Hnodes, Hlen.
    destruct (decide (i = id)), (decide (i = op_parent o)).
    1-2: intros [= <-]; subst; by apply (ag_range _ _ _ Hag _ _ Hr).
    + intros (rp & Hrp & ->)%fmap_Some. by apply (ag_range _ _ _ Hag _ _ Hrp).
    + intros Hri. by apply (ag_range _ _ _ Hag _ _ Hri).
  - intros j oj Hj. destruct (closed_open _ _ _ _ _ Hj) as (Hji & oj' & Hoj & Hp & Hpn & Hu).
    destruct (ag_open _ _ _ Hag _ _ Hoj) as (rj & Hrj & [? ? ? ? Hcj]).
    rewrite Hnodes, decide_False, Hrj by done. destruct (decide (j = op_parent o)) as [Hjp|Hjp].
    + exists (without_child id rj). split; [done|]. split; simpl; try congruence.
      by rewrite kids_closed, Hcj.
    + exists rj. split; [done|]. split; try congruence.
      rewrite kids_closed, Hcj. apply set_eq. intros c.
      rewrite elem_of_difference, elem_of_singleton. split; [|tauto].
      intros Hcin. split; [done|]. intros ->. apply elem_of_kids in Hcin as (? & ? & ?).
      by simplify_eq.
  - intros i ri. rewrite Hnodes.
    destruct (decide (i = id)), (decide (i = op_parent o)).
    1-2: by intros [= <-].
    + intros (rp & Hrp & ->)%fmap_Some. simpl. intros Hf. apply closed_still; [done|].
      by eapply ag_closed.
    + intros Hri Hf. apply closed_still; [done|]. by eapply ag_closed.
  - rewrite Hrf. destruct (decide (id = ROOT)) as [Hir|Hir].
    + subst. split; [done|]. rewrite (closed_self _ bound) by done. by intros [].
    + rewrite (ag_root _ _ _ Hag). split; [by apply closed_still|].
      intros [? (_ & o' & ? & _)%closed_open]. by eexists.
Qed.

Lemma finished_sim v m bound id o e :
  agrees v m bound → (∀ id o, m !! id = Some o → node_ok m bound id o) →
  is_Some (m !! ROOT) → m !! id = Some o → op_children o = 0 →
  (∀ key, key ∈ op_planned o → key ∈ op_used o) →
  en_status e ≠ Status_Unspecified →
  (en_status e = Status_Cancelled ↔ en_cancellation e ≠ Cancellation_Unspecified) →
  (id ≠ ROOT → en_exit_code e = 0) →
  (∀ r result, nodes v !! id = Some r → en_result e = Some result → accepts (sn_shape r) result = true) →
  ∃ v', v_take v (finished_event id e) = Ok v' ∧ agrees v' (closed m id o) bound.
Proof.
  intros Hag Hn Hroot Hid Hc Hpl Hst Hca Hex Hres.
  destruct (Hn _ _ Hid) as [Hrange Hb Htop Hpar Hch].
  destruct (ag_open _ _ _ Hag _ _ Hid) as (r & Hr & [Hf Hpr Hpln Hk Hck]).
  rewrite (v_take_open v m bound id) by (try done; by eexists).
  assert (Hnokids : kids m id = ∅) by (apply leibniz_equiv, size_empty_inv; lia).
  simpl. unfold v_finished. simpl. rewrite Hr.
  assert (Hchecks : finished_checks r (mkNodeFinished id (Status_i32 (en_status e)) (en_diagnostic e)
    (en_exit_code e) (Cancellation_i32 (en_cancellation e)) (en_result e)) = Ok (en_status e)).
  { unfold finished_checks. simpl. rewrite Hf, Hck, Hnokids, set_min_empty.
    assert (find (λ key, key ∉ sn_keys r) (sn_planned r) = None) as ->.
    { unfold find. rewrite fmap_None, list_find_None, Forall_forall.
      intros key Hkey Hn'. apply Hn'. rewrite Hk. apply Hpl. by rewrite <- Hpln. }
    rewrite Status_roundtrip, decide_False by done.
    rewrite decide_False.
    2:{ destruct (en_cancellation e) eqn:Hcan; simpl; repeat case_bool_decide; naive_solver. }
    destruct (en_result e) as [result|]; simpl.
    - rewrite (Hres r result) by done. simpl. rewrite decide_False; [done|]. naive_solver.
    - rewrite decide_False; [done|]. naive_solver. }
  rewrite Hchecks. simpl. eexists. split; [reflexivity|].
  eapply (agrees_closed v); [done..|apply length_alter|done|]. simpl. intros j.
  assert (Hne : op_parent o ≠ id) by lia.
  rewrite Hpr, lookup_insert_ne by done.
  destruct (nodes v !! op_parent o) as [rp|] eqn:Hrp.
  - destruct (decide (j = op_parent o)) as [->|Hjp].
    + rewrite lookup_insert_eq, decide_False by done. by rewrite Hrp.
    + rewrite lookup_insert_ne by done. case_decide; [subst; by rewrite lookup_insert_eq|].
      by rewrite lookup_insert_ne.
  - case_decide; [subst; by rewrite lookup_insert_eq|]. rewrite lookup_insert_ne by done.
    case_decide; [subst; by rewrite Hrp|done].
Qed.
