(* ===== verification/TreeValid.v ===== *)
(** * The tree emits streams the validator accepts

    The refinement between the two ends of the event stream: every operation of
    [EventTree] whose arguments make sense keeps the tree valid, that is, in the
    simulation of [TreeSim] with the validator that read its events, and what follows
    for the whole stream a client reads. *)
From S2P Require Import Prelude.
From S2P Require Import Effect.
From S2P Require Import Events.
From S2P Require Import Outbox.
From S2P Require Import EventTree.
From S2P Require Import Validate.
From S2P Require Import TreeSim.

Local Open Scope N_scope.

(** ** The operations keep the tree valid *)

Lemma valid_new s command :
  st_kind s = Kind_Command command → NoDup (st_planned s) → valid (tree_new s).
Proof.
  intros Hkind Hnd. destruct (tree_ok_new s) as [Hok Hem].
  exists {[ROOT := root_node s]}.
  eexists (mkValidator 1 None
    {[ROOT := mkSeen 0 0 Shape_Command (st_planned s) ∅ ∅ false]}
    [mkEntry (Some ROOT) (st_key s) Outcome_Running] false).
  split; [done| |by rewrite Hem; unfold started_event; rewrite Hkind|].
  - intros id o [<- <-]%lookup_singleton_Some. done.
  - split; simpl.
    + intros id r [<- <-]%lookup_singleton_Some. simpl. unfold ROOT. lia.
    + intros id o Ho. assert (Ho' := Ho). apply lookup_singleton_Some in Ho' as [<- <-].
      eexists. split; [apply lookup_singleton_eq|]. split; simpl; [done..|].
      symmetry. apply set_eq. intros c. rewrite elem_of_kids, elem_of_empty. split; [|done].
      intros (oc & [<- <-]%lookup_singleton_Some & Hp). done.
    + intros id r [<- <-]%lookup_singleton_Some _. rewrite lookup_singleton_eq. by eexists.
    + rewrite lookup_singleton_eq. split; [by eexists|done].
Qed.

Lemma valid_root t m v id o : valid_with t m v → m !! id = Some o → is_Some (m !! ROOT).
Proof. intros [Hok _ _ _] ?. by eapply open_root. Qed.

(** A step of the tree that emits one event the validator takes. *)
Lemma valid_emitted t m v t' m' v' e :
  valid_with t m v → tree_ok t' m' → (∀ id o, m' !! id = Some o → NoDup (op_planned o)) →
  emitted t' = emitted t ++ e → v_run v e = Ok v' → agrees v' m' (next t') →
  valid_with t' m' v'.
Proof.
  intros [_ _ Hrun _] Hok Hpl Hem He Hag. split; [done..| |done].
  by rewrite Hem, (v_run_snoc _ _ _ _ Hrun).
Qed.

Lemma claim_open_valid t m v parent o key reason by_ :
  valid_with t m v → m !! parent = Some o → key ∉ op_used o →
  reason ≠ NotRunReason_Unspecified → (reason = NotRunReason_Blocked ↔ by_ ≠ "") →
  ∃ t' v', claim t parent key = (Ok key, t') ∧
    valid_with (emit_not_run t' parent key reason by_)
      (<[parent := with_used o ({[key]} ∪ op_used o)]> m) v' ∧
    emitted t' = emitted t ∧ next t' = next t.
Proof.
  intros Hv Hp Hkey Hreason Hby.
  rewrite (claim_open t m _ _ o), decide_False by (try done; apply Hv).
  destruct (not_run_sim v m (next t) parent o key reason by_) as (v' & Hv' & Hag'); try done;
    [apply Hv|by eapply valid_root|].
  eexists _, v'. split_and!; [done| |done..].
  eapply valid_emitted; [done| | |reflexivity|simpl; by rewrite Hv'|done].
  - apply tree_ok_emit, tree_ok_update with o; [apply Hv|done..].
  - intros id oi. rewrite lookup_insert_Some.
    intros [[<- <-]|[_ Hoi]]; simpl; eauto using valid_planned.
Qed.

Lemma claim_valid t parent key reason by_ :
  valid t → reason ≠ NotRunReason_Unspecified → (reason = NotRunReason_Blocked ↔ by_ ≠ "") →
  match claim t parent key with
  | (Ok key, t') => valid (emit_not_run t' parent key reason by_)
  | (Err _, t') => t' = t
  end.
Proof.
  intros (m & v & Hv) Hreason Hby. destruct (m !! parent) as [o|] eqn:Hp.
  2:{ by rewrite (claim_closed t m) by (try done; apply Hv). }
  destruct (decide (key ∈ op_used o)) as [Hkey|Hkey].
  { rewrite (claim_open t m _ _ o), decide_True by (try done; apply Hv). done. }
  destruct (claim_open_valid t m v parent o key reason by_) as (t' & v' & -> & Hv' & _); try done.
  by eexists _, v'.
Qed.

Lemma not_run_valid t parent key reason :
  valid t → reason ≠ NotRunReason_Unspecified → reason ≠ NotRunReason_Blocked →
  valid (not_run t parent key reason).2.
Proof.
  intros Hv Hr Hb. assert (H := claim_valid t parent key reason "" Hv Hr). unfold not_run.
  destruct (claim t parent key) as [[k|] t']; simpl; [apply H; naive_solver|].
  by rewrite H.
Qed.

Lemma blocked_valid t parent key by_ : valid t → by_ ≠ "" → valid (blocked t parent key by_).2.
Proof.
  intros Hv Hb. assert (H := claim_valid t parent key NotRunReason_Blocked by_ Hv). unfold blocked.
  destruct (claim t parent key) as [[k|] t']; simpl; [by apply H|].
  by rewrite H.
Qed.

(** An event about a running node that changes nothing the validator sees. *)
Lemma noted_valid t m v id o o' e :
  valid_with t m v → m !! id = Some o → op_parent o' = op_parent o →
  op_planned o' = op_planned o → op_used o' = op_used o → op_children o' = op_children o →
  (e = [] ∨ ∃ x, e = [x] ∧ v_event v x = v_open v id) →
  valid_with (mkTree (emitted t ++ e) (next t) (open (set_open t id (Some o')))) (<[id := o']> m) v.
Proof.
  intros Hv Hid Hp Hpl Hu Hc He.
  assert (Hok' := tree_ok_update t m id o o' (valid_tree _ _ _ Hv) Hid Hp Hc).
  destruct (ag_open _ _ _ (valid_agrees _ _ _ Hv) _ _ Hid) as (r & Hr & [Hf ? ? ? ?]).
  assert (Hrun : v_run v e = Ok v).
  { destruct He as [->|(x & -> & Hx)]; [done|]. simpl.
    rewrite (v_take_open v m (next t) id), Hx; [| apply Hv|by eapply valid_root|by eexists].
    unfold v_open. by rewrite Hr, Hf. }
  eapply (valid_emitted t m v _ (<[id := o']> m)); [done| | |done|exact Hrun|].
  - by destruct Hok' as [? ? ? ?]; split.
  - intros i oi. rewrite lookup_insert_Some. intros [[<- <-]|[_ Hoi]]; rewrite ?Hpl; eauto using valid_planned.
  - destruct (valid_agrees _ _ _ Hv) as [Ha Hb Hcl Hro]. split; simpl; [done| | |].
    + intros i oi Hi. assert (Hk : kids (<[id:=o']> m) i = kids m i) by (by apply (kids_update _ _ o)).
      apply lookup_insert_Some in Hi as [[<- <-]|[_ Hoi]].
      * exists r. split; [done|]. by split; rewrite ?Hk; congruence.
      * destruct (Hb _ _ Hoi) as (ri & Hri & [? ? ? ? ?]). exists ri. split; [done|].
        by split; rewrite ?Hk.
    + intros i ri Hri Hfi. rewrite lookup_insert_is_Some'. right. by eapply Hcl.
    + rewrite Hro, lookup_insert_is_Some'. split; [by right|]. intros [<-|?]; [by eexists|done].
Qed.

(** ** Changes no start or finish notices *)

(** Nothing a later start or finish depends on. *)
Definition alike (o o' : Open) : Prop :=
  op_parent o' = op_parent o ∧ op_used o' = op_used o ∧ op_children o' = op_children o.

(** The tree only reported something: it is as valid, and its nodes are where they were. *)
Definition quiet (t t' : Tree) : Prop :=
  (∃ k, emitted t' = emitted t ++ k) ∧
  ∀ m v, valid_with t m v →
    ∃ m', valid_with t' m' v ∧ ∀ id, option_Forall2 alike (m !! id) (m' !! id).

#[export] Instance alike_refl : Reflexive alike.
Proof. done. Qed.

#[export] Instance quiet_preorder : PreOrder quiet.
Proof.
  split.
  - intros t. split; [exists []; by rewrite app_nil_r|]. intros m v Hv. exists m. split; [done|].
    intros id. destruct (m !! id); by constructor.
  - intros t1 t2 t3 [[k1 H1] Hv1] [[k2 H2] Hv2]. split.
    { exists (k1 ++ k2). by rewrite H2, H1, app_assoc. }
    intros m v (m1 & Hm1 & Ha1)%Hv1. destruct (Hv2 _ _ Hm1) as (m2 & Hm2 & Ha2).
    exists m2. split; [done|]. intros id. specialize (Ha1 id). specialize (Ha2 id).
    destruct Ha1 as [o o1 (? & ? & ?)|].
    + inversion Ha2 as [? o2 (? & ? & ?)|]; subst. constructor. split_and!; congruence.
    + done.
Qed.

Lemma quiet_valid t t' : quiet t t' → valid t → valid t'.
Proof. intros [_ Hq] (m & v & Hv). destruct (Hq _ _ Hv) as (m' & Hv' & _). by exists m', v. Qed.

Lemma alike_update (m : gmap N Open) id o o' :
  m !! id = Some o → alike o o' → ∀ i, option_Forall2 alike (m !! i) (<[id := o']> m !! i).
Proof.
  intros Hid Ha i. destruct (decide (i = id)) as [->|Hne].
  - rewrite lookup_insert_eq, Hid. by constructor.
  - rewrite lookup_insert_ne by done. destruct (m !! i); by constructor.
Qed.

Lemma progress_quiet t id p : quiet t (progress t id p).2.
Proof.
  unfold progress. destruct (get t id) as [o|] eqn:Hg; [|reflexivity].
  assert (Hch : let o' := (changed o p).2 in op_parent o' = op_parent o ∧
    op_planned o' = op_planned o ∧ op_used o' = op_used o ∧ op_children o' = op_children o)
    by (by destruct p).
  destruct (changed o p) as [news o']. simpl in Hch. destruct Hch as (? & ? & ? & ?). split.
  { destruct news; simpl; [by eexists|]. exists []. by rewrite app_nil_r. }
  intros m v Hv. rewrite (tree_get _ _ (valid_tree _ _ _ Hv)) in Hg. exists (<[id := o']> m).
  split; [|by eapply alike_update].
  destruct news; simpl.
  - eapply (noted_valid t m v id o o' [_]); eauto.
  - assert (H' := noted_valid t m v id o o' [] Hv Hg). rewrite app_nil_r in H'. apply H'; auto.
Qed.

Lemma warn_quiet t id d : quiet t (warn t id d).2.
Proof.
  unfold warn, is_open. case_bool_decide as Ho; simpl; [|reflexivity]. destruct Ho as [o Hg].
  split; [by eexists|]. intros m v Hv. exists (<[id := o]> m).
  assert (Hid := Hg). rewrite (tree_get _ _ (valid_tree _ _ _ Hv)) in Hid.
  split; [|by eapply alike_update].
  assert (H' := noted_valid t m v id o o [Event_Diagnostic (mkDiagnostic (dg_code d)
    (Severity_i32 Severity_Warning) id (dg_message d) (dg_causes d) (dg_detail d))] Hv Hid).
  assert (Hsame : open (set_open t id (Some o)) = open t).
  { simpl. apply list_insert_id. unfold get in Hg.
    destruct (open t !! N.to_nat id) eqn:Hx; [|done]. simpl in Hg. by subst. }
  rewrite Hsame in H'. apply H'; eauto.
Qed.

#[export] Hint Resolve progress_quiet warn_quiet : mix.

Lemma progress_valid t id p : valid t → valid (progress t id p).2.
Proof. apply quiet_valid, progress_quiet. Qed.

Lemma warn_valid t id d : valid t → valid (warn t id d).2.
Proof. apply quiet_valid, warn_quiet. Qed.

Lemma rollback_target_history t m v parent s undoes :
  valid_with t m v → start_ok t parent s → st_kind s = Kind_Rollback undoes →
  rollback_target v parent undoes = true.
Proof.
  intros Hv [_ Hk] Hkind. rewrite Hkind in Hk. destruct Hk as (Hf & n & Hs & Hp & Hshape).
  destruct (v_run_finished _ _ _ _ (valid_run _ _ _ Hv) Hf) as (r & Hr & Hfin).
  destruct (v_run_started _ _ _ _ _ (valid_run _ _ _ Hv) Hs) as (r' & Hr' & Hsh & Hpa).
  simplify_eq. unfold rollback_target. rewrite Hr. apply bool_decide_eq_true. by rewrite Hsh, Hpa.
Qed.

Lemma start_open_valid t m v parent o s :
  valid_with t m v → start_ok t parent s → m !! parent = Some o → st_key s ∉ op_used o →
  ∃ t' v', start t parent s = (Ok (next t), t') ∧
    valid_with t' (opened (<[parent := with_used o ({[st_key s]} ∪ op_used o)]> m) (next t) parent
      (with_used o ({[st_key s]} ∪ op_used o)) s) v' ∧
    emitted t' = emitted t ++ [started_event (next t) parent s] ∧ next t' = next t + 1.
Proof.
  intros Hv Hok Hp Hkey. unfold start.
  rewrite (claim_open t m _ _ o), decide_False by (try done; apply Hv).
  set (o1 := with_used o ({[st_key s]} ∪ op_used o)).
  assert (Hok1 := tree_ok_update t m parent o o1 (valid_tree _ _ _ Hv) Hp eq_refl eq_refl).
  destruct (tree_ok_open _ _ parent o1 s Hok1 (lookup_insert_eq _ _ _)) as (t' & Ho & Hok' & Hem & Hnext).
  rewrite Ho. simpl in *. destruct (start_sim v m (next t) parent o s) as (v' & Hv' & Hag');
    try done; [apply Hv|apply (tree_nodes _ _ (valid_tree _ _ _ Hv))|by eapply valid_root| |].
  { intros undoes Hkind. by eapply rollback_target_history. }
  exists t', v'. split_and!; [done| |done..].
  eapply valid_emitted; [exact Hv|exact Hok'| |exact Hem|simpl; by rewrite Hv'|].
  - intros id oi. unfold opened. rewrite !lookup_insert_Some.
    intros [[<- <-]|[_ [[<- <-]|[_ [[<- <-]|[_ Hoi]]]]]]; simpl; [apply Hok|..];
      eauto using valid_planned.
  - by rewrite Hnext.
Qed.

Lemma start_valid t parent s : valid t → start_ok t parent s → valid (start t parent s).2.
Proof.
  intros (m & v & Hv) Hok. destruct (m !! parent) as [o|] eqn:Hp.
  2:{ unfold start. rewrite (claim_closed t m) by (try done; apply Hv). by exists m, v. }
  destruct (decide (st_key s ∈ op_used o)) as [Hkey|Hkey].
  { unfold start. rewrite (claim_open t m _ _ o), decide_True by (try done; apply Hv).
    by exists m, v. }
  destruct (start_open_valid t m v parent o s) as (t' & v' & -> & Hv' & _); try done.
  by eexists _, v'.
Qed.

Lemma finish_open_valid t m v id o e :
  valid_with t m v → ending_ok t id e → m !! id = Some o → op_children o = 0 →
  ∃ t' v', finish t id e = Some (Ok tt, t') ∧ valid_with t' (closed m id o) v' ∧
    emitted t' = emitted t ++ not_reached id o ++ [finished_event id e] ∧ next t' = next t.
Proof.
  intros Hv (Hst & Hca & Hex & Hres) Hid Hc. assert (Hok := valid_tree _ _ _ Hv).
  destruct (tree_ok_close t m id o e) as (t' & Hf & Hok' & Hem & Hnext); [done..|].
  set (keys := filter (λ key, key ∉ op_used o) (op_planned o)).
  destruct (not_reached_sim v m (next t) id o keys) as (v1 & Hv1 & Hag1).
  { apply Hv. } { by eapply valid_root. } { done. }
  { apply NoDup_filter. eauto using valid_planned. }
  { intros key [Hkey _]%list_elem_of_filter. done. }
  set (o1 := with_used o (list_to_set keys ∪ op_used o)) in *.
  assert (Hok1 := tree_ok_update t m id o o1 Hok Hid eq_refl eq_refl).
  destruct (finished_sim v1 (<[id := o1]> m) (next t) id o1 e) as (v2 & Hv2 & Hag2); try done.
  { apply Hok1. } { rewrite lookup_insert_is_Some'. right. by eapply (valid_root t m v). }
  { apply lookup_insert_eq. }
  { simpl. intros key Hkey. rewrite elem_of_union, elem_of_list_to_set.
    destruct (decide (key ∈ op_used o)); [by right|left]. by apply list_elem_of_filter. }
  { intros r1 result Hr1 Hresult. destruct (Hres _ Hresult) as (n & Hn & Hacc).
    destruct (v_run_started _ _ _ _ _ (valid_run _ _ _ Hv) Hn) as (r & Hr & Hsh & _).
    destruct (v_run_keeps _ _ _ Hv1 _ _ Hr) as (r1' & Hr1' & Hsh' & _). simplify_eq.
    by rewrite Hsh', Hsh. }
  exists t', v2. split_and!; [done| |done..].
  assert (Hsame : closed (<[id := o1]> m) id o1 = closed m id o)
    by (unfold closed; by rewrite delete_insert_eq).
  rewrite Hsame in Hag2.
  eapply (valid_emitted t m v); [done|done| |exact Hem| |by rewrite Hnext].
  - intros j oj Hj. destruct (closed_open _ _ _ _ _ Hj) as (_ & oj' & Hoj & _ & Hpl & _).
    rewrite Hpl. eauto using valid_planned.
  - rewrite v_run_app. unfold not_reached. fold keys. rewrite Hv1. simpl. by rewrite Hv2.
Qed.

Lemma finish_valid t id e :
  valid t → ending_ok t id e → ∃ r t', finish t id e = Some (r, t') ∧ valid t'.
Proof.
  intros (m & v & Hv) He. assert (Hok := valid_tree _ _ _ Hv).
  destruct (m !! id) as [o|] eqn:Hid.
  2:{ unfold finish. rewrite (tree_get _ _ Hok), Hid. do 2 eexists. split; [done|]. by exists m, v. }
  destruct (decide (0 < op_children o)) as [Hc|Hc].
  { unfold finish. rewrite (tree_get _ _ Hok), Hid, decide_True by done.
    destruct (first_child_found t m id o) as [c ->]; [done..|]. do 2 eexists. split; [done|].
    by exists m, v. }
  destruct (finish_open_valid t m v id o e) as (t' & v' & Hf & Hv' & _); try done; [lia|].
  exists (Ok tt), t'. split; [done|]. by eexists _, v'.
Qed.

(** ** [abandon] *)

(** An ending every node may have. *)
Definition plain (e : Ending) : Prop :=
  en_status e ≠ Status_Unspecified ∧
  (en_status e = Status_Cancelled ↔ en_cancellation e ≠ Cancellation_Unspecified) ∧
  en_exit_code e = 0 ∧ en_result e = None.

Lemma plain_ok t id e : plain e → ending_ok t id e.
Proof. intros (? & ? & ? & Hr). split_and!; [done..|]. by rewrite Hr. Qed.

Lemma abandoned_plain stopped :
  stopped ≠ Some Cancellation_Unspecified → plain (abandoned stopped).
Proof. unfold plain. destruct stopped as [[]|]; intros H; simpl; naive_solver. Qed.

(** Nodes from the latest down, with all their children, close without a misuse. *)
Lemma finish_all_valid l t m v e :
  valid_with t m v → plain e → StronglySorted (λ a b, b < a) l →
  (∀ n, n ∈ l → is_Some (m !! n)) →
  (∀ c o, m !! c = Some o → op_parent o ∈ l → c ∈ l) →
  ∃ t' m' v', finish_all t l e = Some t' ∧ valid_with t' m' v' ∧
    ∀ j, is_Some (m' !! j) ↔ is_Some (m !! j) ∧ j ∉ l.
Proof.
  intros Hv He Hs. revert t m v Hv. induction Hs as [|n l Hs IH Hlt]; intros t m v Hv Hin Hkid; simpl.
  { exists t, m, v. split_and!; [done..|]. intros j. rewrite elem_of_nil. tauto. }
  rewrite Forall_forall in Hlt.
  destruct (Hin n) as [o Hn]; [by left|].
  assert (Hno := tree_nodes _ _ (valid_tree _ _ _ Hv)).
  assert (Hc : op_children o = 0).
  { rewrite (node_children _ _ _ _ (Hno _ _ Hn)). assert (kids m n = ∅) as ->; [|by rewrite size_empty].
    apply set_eq. intros c. rewrite elem_of_kids, elem_of_empty. split; [|done].
    intros (oc & Hoc & Hp). assert (Hb := node_below _ _ _ _ (Hno _ _ Hoc)).
    assert (Hcl : c ∈ n :: l) by (apply (Hkid _ _ Hoc); rewrite Hp; by left).
    apply elem_of_cons in Hcl as [->|Hcl]; [lia|]. apply Hlt in Hcl. lia. }
  destruct (finish_open_valid t m v n o e) as (t1 & v1 & -> & Hv1 & _); [done|by apply plain_ok|done..|].
  assert (Hnl : n ∉ l) by (intros H; apply Hlt in H; lia).
  destruct (IH t1 _ v1 Hv1) as (t' & m' & v' & Hf & Hv' & Hdom).
  - intros j Hj. apply closed_still; [congruence|]. apply Hin. by right.
  - intros c oc Hoc Hp. destruct (closed_open _ _ _ _ _ Hoc) as (Hcn & oc' & Hoc' & Hpc & _).
    assert (Hcl : c ∈ n :: l) by (apply (Hkid _ _ Hoc'); rewrite <- Hpc; by right).
    by apply elem_of_cons in Hcl as [->|?].
  - exists t', m', v'. split_and!; [done..|]. intros j. rewrite Hdom, not_elem_of_cons.
    split.
    + intros [[oj Hj] Hjl]. destruct (closed_open _ _ _ _ _ Hj) as (? & ? & ? & _).
      split; [by eexists|done].
    + intros (Hj & Hjn & Hjl). split; [by apply closed_still|done].
Qed.

Inductive descends (m : gmap N Open) (ancestor : N) : N → Prop :=
  | descends_self : descends m ancestor ancestor
  | descends_up node o :
      m !! node = Some o → descends m ancestor (op_parent o) → descends m ancestor node.

(** The fuel of [descends_from] is enough: parents have lower ids. *)
Lemma descends_from_fuel t m node ancestor :
  tree_ok t m → descends_from t node ancestor = true ↔ descends m ancestor node.
Proof.
  intros Hok. unfold descends_from.
  assert (Hlt : (N.to_nat node < S (N.to_nat node))%nat) by lia. revert Hlt.
  generalize (S (N.to_nat node)) as fuel. intros fuel. revert node.
  induction fuel as [|fuel IH]; intros node Hlt; [lia|]. simpl.
  case_decide as Heq; [subst; split; intros; [constructor|done]|].
  rewrite (tree_get _ _ Hok). destruct (m !! node) as [o|] eqn:Ho.
  - destruct (tree_nodes _ _ Hok _ _ Ho) as [_ Hb _ _ _]. rewrite IH by lia. split.
    + intros Hd. by econstructor.
    + intros Hd. inversion Hd; by simplify_eq.
  - split; [done|]. intros Hd. inversion Hd; by simplify_eq.
Qed.

Lemma elem_of_descendants t m id j :
  tree_ok t m → j ∈ descendants t id ↔ is_Some (m !! j) ∧ descends m id j.
Proof.
  intros Hok. unfold descendants. rewrite list_elem_of_filter, (descends_from_fuel t m) by done.
  unfold is_open. rewrite bool_decide_eq_true, (tree_get _ _ Hok). split; [tauto|].
  intros [Ho Hd]. split; [done|]. apply list_elem_of_fmap. exists (N.to_nat j).
  split; [by rewrite N2Nat.id|]. apply elem_of_seq. split; [lia|].
  destruct Ho as [o Ho]. rewrite <- (tree_get _ _ Hok) in Ho. by apply get_length in Ho.
Qed.

Lemma StronglySorted_reverse {A} (R : relation A) l :
  StronglySorted R l → StronglySorted (flip R) (reverse l).
Proof.
  induction 1 as [|x l Hl IH Hx]; [constructor|]. rewrite reverse_cons.
  apply StronglySorted_app_2; [|done|by repeat constructor].
  intros y z Hy ->%list_elem_of_singleton. rewrite elem_of_reverse in Hy. rewrite Forall_forall in Hx. unfold flip. auto.
Qed.

Lemma descendants_sorted t id : StronglySorted (λ a b, a < b) (descendants t id).
Proof.
  unfold descendants. apply StronglySorted_filter. generalize 0%nat.
  induction (length (open t)) as [|n IH]; intros k; csimpl; [constructor|].
  constructor; [apply IH|]. rewrite Forall_forall. intros x (i & -> & Hi)%list_elem_of_fmap.
  apply elem_of_seq in Hi. lia.
Qed.

Lemma abandon_subtree t m v id stopped :
  valid_with t m v → stopped ≠ Some Cancellation_Unspecified → id ≠ 0 →
  (m !! id = None → abandon t id stopped = Some (Err (Misuse_NotOpen id), t)) ∧
  (is_Some (m !! id) → ∃ t' m' v', abandon t id stopped = Some (Ok tt, t') ∧
     valid_with t' m' v' ∧ ∀ j, is_Some (m' !! j) ↔ is_Some (m !! j) ∧ ¬ descends m id j).
Proof.
  intros Hv Hst Hid. assert (Hok := valid_tree _ _ _ Hv).
  assert (Hopen : ∀ j, is_Some (m !! j) → descends m id j → is_Some (m !! id)).
  { intros j Hj Hd. induction Hd as [|node o Ho Hd IH]; [done|].
    destruct (tree_nodes _ _ Hok _ _ Ho) as [_ _ Htop Hpar _].
    destruct (decide (node = ROOT)) as [->|Hne]; [|by apply IH, Hpar].
    destruct Htop as [_ Htop]. rewrite (Htop eq_refl) in Hd.
    inversion Hd as [|? o' Ho']; simplify_eq.
    destruct (node_range _ _ _ _ (tree_nodes _ _ Hok _ _ Ho')). lia. }
  unfold abandon. split.
  - intros Hnone. destruct (descendants t id) as [|j l] eqn:Hl; [done|].
    assert (Hj : j ∈ descendants t id) by (rewrite Hl; by left).
    apply (elem_of_descendants t m) in Hj as [Hj Hd]; [|done].
    specialize (Hopen _ Hj Hd). rewrite Hnone in Hopen. by destruct Hopen.
  - intros Hsome. assert (Hin : id ∈ descendants t id)
      by (apply (elem_of_descendants t m); [done|]; split; [done|constructor]).
    destruct (finish_all_valid (reverse (descendants t id)) t m v (abandoned stopped))
      as (t' & m' & v' & Hf & Hv' & Hdom); try done.
    + by apply abandoned_plain.
    + apply StronglySorted_reverse, descendants_sorted.
    + intros n. rewrite elem_of_reverse, (elem_of_descendants t m) by done. tauto.
    + intros c o Hc. rewrite !elem_of_reverse, !(elem_of_descendants t m) by done.
      intros [_ Hd]. split; [by eexists|by econstructor].
    + exists t', m', v'. rewrite Hf.
      destruct (descendants t id) eqn:Hl; [by apply elem_of_nil in Hin|]. rewrite <- Hl in *.
      split_and!; [done..|]. intros j. rewrite Hdom, elem_of_reverse, (elem_of_descendants t m) by done.
      tauto.
Qed.

(**  Abandoning a running node closes it and everything under it, children first,
    without a panic, and nothing else; a node that is not running is left alone. *)
Theorem abandon_closes t id stopped :
  valid t → stopped ≠ Some Cancellation_Unspecified → id ≠ 0 →
  (is_open t id = false → abandon t id stopped = Some (Err (Misuse_NotOpen id), t)) ∧
  (is_open t id = true → ∃ t', abandon t id stopped = Some (Ok tt, t') ∧ valid t' ∧
     ∀ j, is_open t' j = is_open t j && negb (descends_from t j id)).
Proof.
  intros (m & v & Hv) Hst Hid. assert (Hok := valid_tree _ _ _ Hv).
  destruct (abandon_subtree t m v id stopped Hv Hst Hid) as [Hno Hyes].
  unfold is_open. rewrite (tree_get _ _ Hok), bool_decide_eq_true, bool_decide_eq_false. split.
  - intros Hn. by apply Hno, eq_None_not_Some.
  - intros Hn. destruct (Hyes Hn) as (t' & m' & v' & Hab & Hv' & Hdom).
    exists t'. split_and!; [done|by exists m', v'|]. intros j. specialize (Hdom j).
    rewrite (tree_get _ _ Hok), (tree_get _ _ (valid_tree _ _ _ Hv')).
    rewrite <- (descends_from_fuel t m) in Hdom by done.
    destruct (descends_from t j id); simpl; repeat case_bool_decide; naive_solver.
Qed.

(** ** Whole streams *)

(** The same state, its count of envelopes and its request aside. *)
Definition reseq (n : N) (r : option string) (v : Validator) : Validator :=
  mkValidator n r (nodes v) (entries v) (root_finished v).

Lemma started_under_reseq n r v node :
  started_under (reseq n r v) node = (λ e, (e.1, reseq n r e.2)) <$> started_under v node.
Proof. unfold started_under. simpl. by repeat case_match. Qed.

Lemma v_event_reseq n r v e : v_event (reseq n r v) e = reseq n r <$> v_event v e.
Proof.
  destruct e as [node|progress|node|nr|d]; simpl.
  - unfold v_started. simpl. case_decide; [done|]. case_decide; [done|].
    rewrite started_under_reseq. destruct (started_under v node) as [[p v1]|]; [|done]. simpl.
    destruct (ns_kind node) as [[]|]; try done.
    change (rollback_target (reseq n r v1)) with (rollback_target v1). by case_match.
  - unfold v_open. simpl. by repeat case_match.
  - unfold v_finished. simpl. case_match; [|done]. by destruct (finished_checks _ _).
  - unfold v_not_run. simpl. by repeat case_match.
  - unfold v_open. simpl. by repeat case_match.
Qed.

Lemma v_take_seq v e v' : v_take v e = Ok v' → next_seq v' = next_seq v ∧ v_request v' = v_request v.
Proof.
  intros H. assert (Hv : reseq (next_seq v) (v_request v) v = v) by by destruct v.
  unfold v_take in H. case_match; [done|]. case_decide; [done|].
  assert (Heq := v_event_reseq (next_seq v) (v_request v) v e). rewrite Hv, H in Heq.
  injection Heq as Heq. rewrite Heq. done.
Qed.

Lemma v_push_take v request e v' :
  v_request v = None ∨ v_request v = Some request → v_take v e = Ok v' →
  v_push v (mkEnvelope (next_seq v) request (Some e)) =
    Ok (reseq (next_seq v + 1) (Some request) v').
Proof.
  intros Hreq H. unfold v_push. simpl. rewrite decide_False by (intros Hn; by apply Hn).
  assert (Hr : match v_request v with None => Some request | r => r end = Some request)
    by (by destruct Hreq as [-> | ->]).
  rewrite Hr, decide_False by (intros Hn; by apply Hn).
  assert (Heq := v_event_reseq (next_seq v + 1) (Some request) v e). unfold reseq in Heq at 1.
  unfold v_take in H. destruct (root_finished v) eqn:Hrf; [done|].
  destruct (decide (nodes v = ∅ ∧ is_root_start e = false)); [done|].
  by rewrite Heq, H.
Qed.

(** Numbered from where the validator stands, accepted events make accepted envelopes. *)
Lemma v_pushes_numbered v request seq l v' :
  v_request v = None ∨ v_request v = Some request → next_seq v = seq + 1 → v_run v l = Ok v' →
  ∃ n r, v_pushes v (numbered request seq l) = Ok (reseq n r v').
Proof.
  revert v seq v'. induction l as [|e l IH]; intros v seq v' Hreq Hseq H; simpl in H.
  { simplify_eq. exists (next_seq v'), (v_request v'). simpl. by destruct v'. }
  apply bind_Ok in H as (v1 & H1 & H). simpl. rewrite <- Hseq.
  rewrite (v_push_take _ _ _ v1) by done. simpl.
  assert (Hrun : ∀ n r k w w', v_run w k = Ok w' → v_run (reseq n r w) k = Ok (reseq n r w')).
  { clear. intros n r k. induction k as [|x k IHk]; intros w w' Hw; simpl in *; [by simplify_eq|].
    apply bind_Ok in Hw as (w1 & Hw1 & Hw). assert (v_take (reseq n r w) x = Ok (reseq n r w1)) as ->.
    { unfold v_take in *. simpl. case_match; [done|]. case_decide; [done|].
      by rewrite v_event_reseq, Hw1. }
    by apply IHk. }
  destruct (IH (reseq (next_seq v + 1) (Some request) v1) (next_seq v)
    (reseq (next_seq v + 1) (Some request) v')) as (n & r & ->);
    [by right|done|by apply Hrun|]. by exists n, r.
Qed.

(** Events the outbox drops change nothing for the validator. *)
Lemma v_run_thinned l k : thinned l k → ∀ v v', v_run v l = Ok v' → v_run v k = Ok v'.
Proof.
  induction 1 as [|e l k _ IH|e s l k _ IH He _]; intros v v' H; [done| |]; simpl in H;
    apply bind_Ok in H as (v1 & H1 & H).
  - simpl. rewrite H1. simpl. by apply IH.
  - apply IH. assert (v1 = v) as <-; [|done].
    destruct e as [|[id p]| | |]; try done.
    unfold v_take in H1. case_match; [done|]. case_decide; [done|]. simpl in H1.
    unfold v_open in H1. repeat case_match; by simplify_eq.
Qed.

Lemma thinned_app_live out l : thinned l (out ++ []) → thinned l out.
Proof. by rewrite app_nil_r. Qed.

(** Whatever the reader and the outbox do meanwhile, the envelopes read of a valid
    stream are accepted. *)
Lemma read_accepted t v request us :
  v_run validator_new (emitted t) = Ok v → pushed us = emitted t →
  let '(envelopes, q) := uses request empty_queue us in
  ∃ n r, v_pushes validator_new (envelopes ++ (drain request q).1) = Ok (reseq n r v).
Proof.
  intros Hrun Hus.
  assert (Hthin := uses_thinned request us empty_queue queue_ok_empty).
  destruct (uses request empty_queue us) as [envelopes q].
  destruct Hthin as (out & -> & Hseq & Hq & Hthin). simpl in Hthin.
  destruct (drain_spec request q Hq) as (-> & _ & _). rewrite Hseq, <- numbered_app.
  eapply v_pushes_numbered; [by left|done|]. eapply v_run_thinned; [exact Hthin|]. by rewrite Hus.
Qed.

(** The calls a client of the tree makes. *)
Inductive Call :=
  | Call_start (parent : N) (s : Start)
  | Call_not_run (parent : N) (key : string) (reason : NotRunReason)
  | Call_blocked (parent : N) (key by_ : string)
  | Call_progress (id : N) (p : Progress)
  | Call_warn (id : N) (d : Diagnostic)
  | Call_finish (id : N) (e : Ending)
  | Call_abandon (id : N) (stopped : option Cancellation).

Definition call (t : Tree) (c : Call) : option Tree :=
  match c with
  | Call_start parent s => Some (start t parent s).2
  | Call_not_run parent key reason => Some (not_run t parent key reason).2
  | Call_blocked parent key by_ => Some (blocked t parent key by_).2
  | Call_progress id p => Some (progress t id p).2
  | Call_warn id d => Some (warn t id d).2
  | Call_finish id e => snd <$> finish t id e
  | Call_abandon id stopped => snd <$> abandon t id stopped
  end.

Fixpoint calls (t : Tree) (cs : list Call) : option Tree :=
  match cs with
  | [] => Some t
  | c :: cs => t ← call t c; calls t cs
  end.

(** What a client owes: arguments that make sense, not the order of its calls. *)
Definition call_ok (t : Tree) (c : Call) : Prop :=
  match c with
  | Call_start parent s => start_ok t parent s
  | Call_not_run _ _ reason =>
      reason ≠ NotRunReason_Unspecified ∧ reason ≠ NotRunReason_Blocked
  | Call_blocked _ _ by_ => by_ ≠ ""
  | Call_progress _ _ | Call_warn _ _ => True
  | Call_finish id e => ending_ok t id e
  | Call_abandon id stopped => id ≠ 0 ∧ stopped ≠ Some Cancellation_Unspecified
  end.

Fixpoint calls_ok (t : Tree) (cs : list Call) : Prop :=
  match cs with
  | [] => True
  | c :: cs => call_ok t c ∧ ∀ t', call t c = Some t' → calls_ok t' cs
  end.

Lemma abandon_valid t id stopped :
  valid t → id ≠ 0 → stopped ≠ Some Cancellation_Unspecified →
  ∃ r t', abandon t id stopped = Some (r, t') ∧ valid t' ∧ get t' id = None.
Proof.
  intros (m & v & Hv) Hid Hst. destruct (abandon_subtree t m v id stopped Hv Hst Hid) as [Hno Hyes].
  destruct (m !! id) as [o|] eqn:Ho.
  - destruct Hyes as (t' & m' & v' & -> & Hv' & Hdom); [by eexists|].
    do 2 eexists. split_and!; [done|by exists m', v'|].
    rewrite (tree_get _ _ (valid_tree _ _ _ Hv')). apply eq_None_not_Some. rewrite Hdom.
    intros [_ Hd]. apply Hd. constructor.
  - rewrite Hno by done. do 2 eexists. split_and!; [done|by exists m, v|].
    by rewrite (tree_get _ _ (valid_tree _ _ _ Hv)).
Qed.

Lemma call_valid t c : valid t → call_ok t c → ∃ t', call t c = Some t' ∧ valid t'.
Proof.
  intros Hv Hok. destruct c as [parent s|parent key reason|parent key by_|id p|id d|id e|id stopped];
    simpl in *.
  - eexists. split; [done|]. by apply start_valid.
  - eexists. split; [done|]. destruct Hok. by apply not_run_valid.
  - eexists. split; [done|]. by apply blocked_valid.
  - eexists. split; [done|]. by apply progress_valid.
  - eexists. split; [done|]. by apply warn_valid.
  - destruct (finish_valid t id e Hv Hok) as (r & t' & -> & Hv'). by exists t'.
  - destruct Hok. destruct (abandon_valid t id stopped) as (r & t' & -> & Hv' & _); try done.
    by exists t'.
Qed.

Lemma calls_valid t cs : valid t → calls_ok t cs → ∃ t', calls t cs = Some t' ∧ valid t'.
Proof.
  revert t. induction cs as [|c cs IH]; intros t Hv Hok; simpl in *; [by exists t|].
  destruct Hok as [Hc Hcs]. destruct (call_valid t c Hv Hc) as (t1 & Hc1 & Hv1).
  rewrite Hc1. simpl. by apply IH; [|apply Hcs].
Qed.

Lemma drop_valid t stopped :
  valid t → stopped ≠ Some Cancellation_Unspecified →
  ∃ t', drop_tree t stopped = Some t' ∧ valid t' ∧ get t' ROOT = None.
Proof.
  intros Hv Hst. unfold drop_tree, is_open. case_bool_decide as Ho.
  - destruct (abandon_valid t ROOT stopped Hv) as (r & t' & -> & Hv' & Hg); [done..|].
    by exists t'.
  - exists t. split_and!; [done..|]. by apply eq_None_not_Some in Ho.
Qed.


(** ** Witnesses *)

Definition root_start : Start :=
  start_command "repair" (mkCommand "0.1.0" 22 false (Some (Request_Repair ""))).

Lemma root_start_valid : valid (tree_new root_start).
Proof. eapply valid_new; [done|constructor]. Qed.

Lemma abandon_closes_witness :
  ∃ t', abandon (tree_new root_start) ROOT (Some Cancellation_Interrupted) = Some (Ok tt, t') ∧
    is_open t' ROOT = false.
Proof.
  destruct (abandon_closes (tree_new root_start) ROOT (Some Cancellation_Interrupted))
    as [_ Hyes]; [apply root_start_valid|done|done|].
  destruct (Hyes eq_refl) as (t' & Hab & _ & Hdom). exists t'. split; [exact Hab|].
  rewrite Hdom. reflexivity.
Defined.

(** A plan whose step is finished, undone beside it and never reported; the request is
    dropped while the plan runs. *)
Definition some_calls : list Call :=
  [Call_start ROOT (start_planned (start_new "plan" (Kind_Plan "")) ["a"; "b"; "c"]);
   Call_start 2 (start_new "a" (Kind_Step Verb_Creating "x"));
   Call_progress 3 (Progress_Bytes (mkBytes 1 None));
   Call_progress 3 (Progress_Bytes (mkBytes 2 None));
   Call_finish 2 ending_succeeded;
   Call_finish 3 ending_succeeded;
   Call_blocked 2 "b" "a";
   Call_start 2 (start_new "rollback:a" (Kind_Rollback 3));
   Call_start 2 (start_new "a" (Kind_Plan ""))].

Ltac next_call := let t := fresh "t" in let H := fresh "H" in
  intros t H; vm_compute in H; injection H as <-.

