(* ===== verification/Nixlog.v ===== *)
(** * Reading nix's errors

    [crates/nixlog/src/lib.rs], [nix_error]: the failure that the last of nix's errors
    names, in what a failed command printed.

    A Rust [char] is the run of bytes that encodes it: where the source works on
    chars, so does [without_escapes]: a char after an escape is skipped whole. *)
From S2P Require Import Prelude.
From S2P Require Import Chars.

Inductive NixFailure :=
  | NixFailure_Build (package : string)
  | NixFailure_UnknownPackage (name : string)
  | NixFailure_DiskFull
  | NixFailure_Download (url : string)
  | NixFailure_Collision (file : string) (paths : string * string).
#[export] Instance NixFailure_eq_dec : EqDecision NixFailure.
Proof. solve_decision. Defined.

Definition COLLISION : string := "two given paths contain a conflicting subpath:".
Definition STORE : string := "/nix/store/".
Definition DISK_FULL : list string :=
  ["No space left on device";
   "build failure may have been caused by lack of free disk space";
   "database or disk is full"].

Record NixError := mkNixError { nix_message : string; nix_failure : option NixFailure }.
#[export] Instance NixError_eq_dec : EqDecision NixError.
Proof. solve_decision. Defined.

(** ** Text *)

(** Where [without_escapes] stands: in text, just past an escape, in the rest of a
    char that followed one, or in a control sequence. *)
Inductive Escape := Text | Escaped | Skipped | Control.

Definition escape : ascii := "027".

Fixpoint without_escapes_in (state : Escape) (s : string) : string :=
  match s with
  | "" => ""
  | String c s =>
      let text :=
        if Ascii.eqb c escape then without_escapes_in Escaped s
        else String c (without_escapes_in Text s) in
      match state with
      | Text => text
      | Escaped =>
          if Ascii.eqb c "[" then without_escapes_in Control s
          else if decide (192 <= byte c)%N then without_escapes_in Skipped s
          else without_escapes_in Text s
      | Skipped => if is_continuation c then without_escapes_in Skipped s else text
      | Control =>
          if decide (64 <= byte c <= 126)%N then without_escapes_in Text s
          else without_escapes_in Control s
      end
  end.

Definition without_escapes (text : string) : string := without_escapes_in Text text.

(** [quoted_after]. *)
Definition quoted_after (text opening : string) : option string :=
  start ← str_find opening text;
  let rest := skip (start + String.length opening) text in
  fst <$> split_once "'" rest.

(** [package_name]. *)
Definition package_name (at_ : string) : string :=
  let name := default at_ (last (split_on "/" at_)) in
  let name := default name (strip_suffix ".drv" name) in
  match split_once "-" name with
  | Some (hash, rest) => if decide (String.length hash = 32%nat) then rest else name
  | None => name
  end.

(** [package_of]. *)
Definition package_of (derivation : string) : string := package_name derivation.

(** [in_store]: a store path and the file under it. *)
Definition in_store (at_ : string) : option (string * string) :=
  rest ← strip_prefix STORE at_;
  '(name, file) ← split_once "/" rest;
  Some (prefix_of_len (String.length STORE + String.length name) at_, file).

(** [collision]. *)
Definition collision (error : string) : option NixFailure :=
  at_ ← str_find COLLISION error;
  let listed := skip (at_ + String.length COLLISION) error in
  let quoted := omap (λ part, fst <$> split_once "'" part) (drop 1 (split_on "`" listed)) in
  '(first, file) ← quoted !! 0%nat ≫= in_store;
  '(second, _) ← quoted !! 1%nat ≫= in_store;
  Some (NixFailure_Collision file (first, second)).

(** [match_indices("error:")]: two matches cannot overlap. *)
Fixpoint indices_from (at_ : nat) (needle s : string) : list nat :=
  (if starts_with needle s then [at_] else []) ++
  match s with "" => [] | String _ s => indices_from (S at_) needle s end.

Definition slice (s : string) (start stop : nat) : string :=
  prefix_of_len (stop - start) (skip start s).

(** The errors of a cleaned output, each up to the next. *)
Definition errors_in (clean : string) : list string :=
  let starts :=
    filter (λ at_, at_ = O ∨ ends_with_whitespace (prefix_of_len at_ clean) = true)
      (indices_from 0 "error:" clean) in
  let ends := drop 1 starts ++ [String.length clean] in
  zip_with (λ start stop, trim_end (slice clean start stop)) starts ends.

(** The failure an error that is neither a full disk nor a collision names. *)
Definition named_failure (message : string) : option NixFailure :=
  match quoted_after message "Cannot build '" with
  | Some derivation => Some (NixFailure_Build (package_of derivation))
  | None =>
      match (if contains "' missing" message then quoted_after message "attribute '" else None) with
      | Some name => Some (NixFailure_UnknownPackage name)
      | None => NixFailure_Download <$> quoted_after message "unable to download '"
      end
  end.

(** [nix_error]. *)
Definition nix_error (tail : string) : option NixError :=
  let errors := errors_in (without_escapes tail) in
  match find (λ error, existsb (λ sign, contains sign error) DISK_FULL = true) errors with
  | Some error => Some (mkNixError error (Some NixFailure_DiskFull))
  | None =>
      match find_map (λ error, (λ failure, (error, failure)) <$> collision error) errors with
      | Some (error, failure) => Some (mkNixError error (Some failure))
      | None =>
          message ← last errors;
          Some (mkNixError message (named_failure message))
      end
  end.

(** ** The text without escapes *)

Lemma without_escapes_clean state s : string_any (λ c, Ascii.eqb c escape) (without_escapes_in state s) = false.
Proof.
  revert state. induction s as [|c s IH]; intros state; [done|]. cbn [without_escapes_in].
  assert (Htext : string_any (λ c, Ascii.eqb c escape)
    (if Ascii.eqb c escape then without_escapes_in Escaped s
     else String c (without_escapes_in Text s)) = false).
  { destruct (Ascii.eqb c escape) eqn:Hc; [apply IH|]. simpl. by rewrite Hc, IH. }
  destruct state; [done| | |].
  - destruct (Ascii.eqb c "["); [apply IH|]. destruct (decide _); apply IH.
  - destruct (is_continuation c); [apply IH|done].
  - destruct (decide _); apply IH.
Qed.

Lemma without_escapes_plain s :
  string_any (λ c, Ascii.eqb c escape) s = false → without_escapes s = s.
Proof.
  unfold without_escapes. induction s as [|c s IH]; [done|]. cbn [string_any without_escapes_in].
  intros [-> H]%orb_false_iff. by rewrite IH.
Qed.

(**  The text an error is read from has no terminal escapes left, and text without
    any is read as it is. *)
Theorem without_escapes_spec s :
  string_any (λ c, Ascii.eqb c escape) (without_escapes s) = false ∧
  without_escapes (without_escapes s) = without_escapes s ∧
  (string_any (λ c, Ascii.eqb c escape) s = false → without_escapes s = s).
Proof.
  split_and!; [apply without_escapes_clean| |apply without_escapes_plain].
  apply without_escapes_plain, without_escapes_clean.
Qed.

Example nix_error_build :
  nix_error ("warning: x" +:+ String "010" "error: Cannot build '/nix/store/abcdefghijklmnopqrstuvwxyz012345-ripgrep-14.drv'.") =
  Some (mkNixError "error: Cannot build '/nix/store/abcdefghijklmnopqrstuvwxyz012345-ripgrep-14.drv'."
    (Some (NixFailure_Build "ripgrep-14"))).
Proof. by vm_compute. Qed.

Example nix_error_collision :
  nix_error "error: two given paths contain a conflicting subpath: `/nix/store/aa-a/bin/x' and `/nix/store/bb-b/bin/x' " =
  Some (mkNixError "error: two given paths contain a conflicting subpath: `/nix/store/aa-a/bin/x' and `/nix/store/bb-b/bin/x'"
    (Some (NixFailure_Collision "bin/x" ("/nix/store/aa-a", "/nix/store/bb-b")))).
Proof. by vm_compute. Qed.
