(* ===== verification/NixProgress.v ===== *)
(** * The counters of a running nix

    The other half of [crates/nixlog/src/lib.rs]: what [NixLog] makes of the records that
    [nix --log-format internal-json] writes, and the progress it counts.

    The JSON library is a class: it hands over a record with its fields, each of a kind the
    visitor of [Field] distinguishes.  [None] is an addition past 64 bits. *)
From S2P Require Import Prelude.
From S2P Require Import Chars.
From S2P Require Import Numbers.

Local Open Scope N_scope.

Definition RECORD_PREFIX : string := "@nix ".

Definition ACT_COPY_PATH : N := 100.
Definition ACT_FILE_TRANSFER : N := 101.
Definition ACT_COPY_PATHS : N := 103.
Definition ACT_BUILDS : N := 104.
Definition ACT_BUILD : N := 105.
Definition RES_PROGRESS : N := 105.
Definition LVL_INFO : N := 3.

Definition TRANSFER : nat := 0.
Definition DOWNLOADS : nat := 1.
Definition BUILDS : nat := 2.
Definition TRACKED_TYPES : nat := 3.

Definition tracked (activity_type : N) : option nat :=
  if activity_type =? ACT_FILE_TRANSFER then Some TRANSFER
  else if activity_type =? ACT_COPY_PATHS then Some DOWNLOADS
  else if activity_type =? ACT_BUILDS then Some BUILDS
  else None.

Record BuildProgress := mkBuildProgress {
  builds_done : N; builds_expected : N; builds_running : N;
  downloads_done : N; downloads_expected : N; downloads_running : N;
  bytes_done : N; bytes_expected : N }.
#[export] Instance BuildProgress_eq_dec : EqDecision BuildProgress.
Proof. solve_decision. Defined.

Inductive LogEvent :=
  | Event_Plain (line : string)
  | Event_Message (message : string)
  | Event_Transient (text : string)
  | Event_Building (derivation : string)
  | Event_Fetching (at_ : string)
  | Event_Progress
  | Event_Ignored.
#[export] Instance LogEvent_eq_dec : EqDecision LogEvent.
Proof. solve_decision. Defined.

Record Totals := mkTotals { finished_done : N; live_done : N; live_running : N }.
Definition totals_done (t : Totals) : option N := add_u64 (finished_done t) (live_done t).

Record Activity := mkActivity { ac_slot : nat; ac_done : N; ac_running : N }.

(** ** The plan nix prints *)

Record Plan := mkPlan {
  plan_builds : option N; plan_fetches : option N; plan_download_bytes : option N }.

Definition set_builds (x : option N) (p : Plan) : Plan :=
  mkPlan x (plan_fetches p) (plan_download_bytes p).
Definition set_fetches (x : option N) (p : Plan) : Plan :=
  mkPlan (plan_builds p) x (plan_download_bytes p).
Definition set_download_bytes (x : option N) (p : Plan) : Plan :=
  mkPlan (plan_builds p) (plan_fetches p) x.

(** [str::split_once] at a text. *)
Definition split_once_at (needle s : string) : option (string * string) :=
  (λ at_, (prefix_of_len at_ s, skip (at_ + String.length needle) s)) <$> str_find needle s.

Definition UNITS : list string := ["KiB"; "MiB"; "GiB"; "TiB"; "PiB"; "EiB"].

Definition size (rendered : string) : option N :=
  '(number, unit) ← split_once " " rendered;
  power ← position (λ known, known = unit) UNITS;
  value ← parse_f64 number;
  Some (f64_as_u64 (f64_scale value (10 * Z.of_nat (S power)))).

Definition read_sizes (sizes : string) (p : Plan) : Plan :=
  match split_once_at " download, " sizes with
  | Some (download, _) => set_download_bytes (size download) p
  | None => p
  end.

Definition parse_u64 (s : string) : option N := parse_uint U64_MAX s.

Definition read_plan (message : string) (p : Plan) : Plan :=
  if message =s "this derivation will be built:" then set_builds (Some 1) p
  else match strip_prefix "these " message ≫= strip_suffix " derivations will be built:" with
  | Some count => set_builds (parse_u64 count) p
  | None =>
  match strip_prefix "this path will be fetched (" message with
  | Some sizes => read_sizes sizes (set_fetches (Some 1) p)
  | None =>
  match strip_prefix "these " message ≫= split_once_at " paths will be fetched (" with
  | Some (count, sizes) => read_sizes sizes (set_fetches (parse_u64 count) p)
  | None => p
  end end end.

(** ** Records *)

(** What the visitor of [Field] is called with. *)
Inductive JsonField :=
  | JF_U64 (value : N)
  | JF_I64 (value : Z)
  | JF_F64 (value : F64)
  | JF_Bool (value : bool)
  | JF_Borrowed (text : string)
  | JF_Str (text : string)
  | JF_Unit
  | JF_Seq
  | JF_Map.

Inductive Field := Field_Int (value : N) | Field_Text (text : string) | Field_Escaped | Field_Other.

Definition field_of (f : JsonField) : Field :=
  match f with
  | JF_U64 value => Field_Int value
  | JF_I64 value => Field_Int (Z.to_N (Z.max value 0))
  | JF_F64 value => Field_Int (f64_as_u64 (f64_max_zero value))
  | JF_Borrowed text => Field_Text text
  | JF_Str _ => Field_Escaped
  | JF_Bool _ | JF_Unit | JF_Seq | JF_Map => Field_Other
  end.

Definition MAX_FIELDS : nat := 4.

Record Fields := mkFields { ints : list N; fields_text : option string }.
Definition fields_default : Fields := mkFields (replicate MAX_FIELDS 0) None.

(** The loop of [visit_seq]. *)
Fixpoint visit_seq (index : nat) (seq : list JsonField) (fields : Fields) : Fields :=
  match seq with
  | [] => fields
  | f :: seq =>
      visit_seq (S index) seq
        (match field_of f with
         | Field_Int value =>
             if decide (index < MAX_FIELDS)%nat
             then mkFields (<[index := value]> (ints fields)) (fields_text fields) else fields
         | Field_Text text =>
             if decide (index = 0%nat) then mkFields (ints fields) (Some text) else fields
         | Field_Escaped =>
             if decide (index = 0%nat) then mkFields (ints fields) (Some "") else fields
         | Field_Other => fields
         end)
  end.
Definition fields_of (seq : list JsonField) : Fields := visit_seq 0 seq fields_default.

Definition fields_int (f : Fields) (index : nat) : N := default 0 (ints f !! index).

Record LogRecord := mkLogRecord {
  lr_action : string; lr_id : N; lr_level : N; lr_type : N; lr_text : string; lr_msg : string;
  lr_fields : list JsonField }.

(** What the JSON library reads of a record, absent fields at their default. *)
Class RecordJson := record_from_str : string → option LogRecord.

(** ** [NixLog] *)

Record NixLog := mkNixLog {
  nl_live : gmap N Activity; nl_totals : list Totals; structured : bool; nl_plan : Plan }.

Definition nixlog_new : NixLog :=
  mkNixLog ∅ (replicate TRACKED_TYPES (mkTotals 0 0 0)) false (mkPlan None None None).

Definition set_live (x : gmap N Activity) (l : NixLog) : NixLog :=
  mkNixLog x (nl_totals l) (structured l) (nl_plan l).
Definition set_totals (x : list Totals) (l : NixLog) : NixLog :=
  mkNixLog (nl_live l) x (structured l) (nl_plan l).

Definition expected_of (planned : option N) (t : Totals) : option N :=
  match planned with
  | None => Some 0
  | Some planned => N.max planned <$> totals_done t
  end.

Definition snapshot (l : NixLog) : option BuildProgress :=
  builds ← nl_totals l !! BUILDS;
  downloads ← nl_totals l !! DOWNLOADS;
  bytes ← nl_totals l !! TRANSFER;
  builds_done ← totals_done builds;
  builds_expected ← expected_of (plan_builds (nl_plan l)) builds;
  downloads_done ← totals_done downloads;
  downloads_expected ← expected_of (plan_fetches (nl_plan l)) downloads;
  bytes_done ← totals_done bytes;
  bytes_expected ← expected_of (plan_download_bytes (nl_plan l)) bytes;
  Some (mkBuildProgress builds_done builds_expected (live_running builds)
          downloads_done downloads_expected (live_running downloads) bytes_done bytes_expected).

Definition log_start (r : LogRecord) (l : NixLog) : LogEvent * NixLog :=
  let text := fields_text (fields_of (lr_fields r)) in
  let rest :=
    if lr_type r =? ACT_COPY_PATH then
      (match text with Some at_ => Event_Fetching at_ | None => Event_Ignored end, l)
    else match tracked (lr_type r) with
    | None =>
        (if (lr_level r <=? LVL_INFO) && negb (lr_text r =s "")
         then Event_Transient (lr_text r) else Event_Ignored, l)
    | Some slot =>
        (Event_Progress, set_live (<[lr_id r := mkActivity slot 0 0]> (nl_live l)) l)
    end in
  match text with
  | Some derivation => if lr_type r =? ACT_BUILD then (Event_Building derivation, l) else rest
  | None => rest
  end.

Definition log_stop (id : N) (l : NixLog) : option (LogEvent * NixLog) :=
  match nl_live l !! id with
  | None => Some (Event_Ignored, l)
  | Some activity =>
      let l := set_live (delete id (nl_live l)) l in
      t ← nl_totals l !! ac_slot activity;
      finished ← add_u64 (finished_done t) (ac_done activity);
      let t := mkTotals finished (saturating_sub (live_done t) (ac_done activity))
                 (saturating_sub (live_running t) (ac_running activity)) in
      Some (Event_Progress, set_totals (<[ac_slot activity := t]> (nl_totals l)) l)
  end.

Definition report_progress (id : N) (fields : Fields) (l : NixLog) : option (LogEvent * NixLog) :=
  match nl_live l !! id with
  | None => Some (Event_Ignored, l)
  | Some activity =>
      let done := fields_int fields 0 in
      let running := fields_int fields 2 in
      t ← nl_totals l !! ac_slot activity;
      now_done ← add_u64 (saturating_sub (live_done t) (ac_done activity)) done;
      now_running ← add_u64 (saturating_sub (live_running t) (ac_running activity)) running;
      let l := set_totals (<[ac_slot activity := mkTotals (finished_done t) now_done now_running]>
                             (nl_totals l)) l in
      Some (Event_Progress,
            set_live (<[id := mkActivity (ac_slot activity) done running]> (nl_live l)) l)
  end.

Definition log_result (r : LogRecord) (l : NixLog) : option (LogEvent * NixLog) :=
  if lr_type r =? RES_PROGRESS then report_progress (lr_id r) (fields_of (lr_fields r)) l
  else Some (Event_Ignored, l).

(** What [observe_record] does with a record. *)
Definition observe_action (r : LogRecord) (l : NixLog) : option (LogEvent * NixLog) :=
  if lr_action r =s "start" then Some (log_start r l)
  else if lr_action r =s "stop" then log_stop (lr_id r) l
  else if lr_action r =s "result" then log_result r l
  else if (lr_action r =s "msg") && ((lr_level r <=? LVL_INFO) && negb (lr_msg r =s "")) then
    Some (Event_Message (lr_msg r),
          mkNixLog (nl_live l) (nl_totals l) (structured l) (read_plan (lr_msg r) (nl_plan l)))
  else Some (Event_Ignored, l).

Section Observe.
Context `{RecordJson}.

Definition observe_record (line payload : string) (l : NixLog) : option (LogEvent * NixLog) :=
  match record_from_str payload with
  | None => Some (Event_Plain line, l)
  | Some r => observe_action r (mkNixLog (nl_live l) (nl_totals l) true (nl_plan l))
  end.

Definition log_observe (line : string) (l : NixLog) : option (LogEvent * NixLog) :=
  match strip_prefix RECORD_PREFIX line with
  | Some payload => observe_record line payload l
  | None => Some (Event_Plain line, l)
  end.

End Observe.

Example read_plan_paths :
  read_plan "these 12 paths will be fetched (1.50 MiB download, 20.00 MiB unpacked):" (mkPlan None None None) =
  mkPlan None (Some 12) (Some 1572864).
Proof. vm_compute. reflexivity. Qed.
