(* ===== verification/NixProgressSpec.v ===== *)
(** * What the counters of a nix log count

    A ledger of every activity that was started says what there is to count; the totals
    that [NixLog] keeps in constant time are its sums ([counters_exact]). *)
From S2P Require Import Prelude.
From S2P Require Import Chars.
From S2P Require Import Numbers.
From S2P Require Import NixProgress.

Local Open Scope N_scope.

(** ** The ledger *)

(** An activity is lost when its id is used again while it runs. *)
Inductive Status := Status_Open | Status_Lost | Status_Stopped.
#[export] Instance Status_eq_dec : EqDecision Status.
Proof. solve_decision. Defined.

Record Entry := mkEntry {
  en_id : N; en_slot : nat; en_done : N; en_running : N; en_status : Status }.

Definition is_open (id : N) (e : Entry) : Prop := en_id e = id ∧ en_status e = Status_Open.
#[export] Instance is_open_dec id e : Decision (is_open id e).
Proof. unfold is_open. apply _. Defined.

(** A change to the open activity of an id. *)
Definition amend (id : N) (f : Entry → Entry) (ledger : list Entry) : list Entry :=
  (λ e, if decide (is_open id e) then f e else e) <$> ledger.

Definition with_status (s : Status) (e : Entry) : Entry :=
  mkEntry (en_id e) (en_slot e) (en_done e) (en_running e) s.
Definition with_counts (done running : N) (e : Entry) : Entry :=
  mkEntry (en_id e) (en_slot e) done running (en_status e).

Definition enter (r : LogRecord) (ledger : list Entry) : list Entry :=
  if lr_action r =s "start" then
    match tracked (lr_type r) with
    | Some slot =>
        amend (lr_id r) (with_status Status_Lost) ledger ++ [mkEntry (lr_id r) slot 0 0 Status_Open]
    | None => ledger
    end
  else if lr_action r =s "stop" then amend (lr_id r) (with_status Status_Stopped) ledger
  else if (lr_action r =s "result") && (lr_type r =? RES_PROGRESS) then
    let fields := fields_of (lr_fields r) in
    amend (lr_id r) (with_counts (fields_int fields 0) (fields_int fields 2)) ledger
  else ledger.

Definition sum (l : list N) : N := foldr N.add 0 l.

Definition stopped (e : Entry) : bool := bool_decide (en_status e = Status_Stopped).

(** What is counted of the activities of a kind. *)
Definition done_in (slot : nat) (ledger : list Entry) : N :=
  sum ((λ e, if decide (en_slot e = slot) then en_done e else 0) <$> ledger).
Definition running_in (slot : nat) (ledger : list Entry) : N :=
  sum ((λ e, if decide (en_slot e = slot ∧ en_status e ≠ Status_Stopped) then en_running e else 0)
         <$> ledger).

(** ** Sums *)

Lemma sum_app l k : sum (l ++ k) = sum l + sum k.
Proof. induction l as [|x l IH]; simpl; [done|]. unfold sum in *. simpl. lia. Qed.

Lemma sum_cons x l : sum (x :: l) = x + sum l.
Proof. done. Qed.

Lemma filter_one {A} (P : A → Prop) `{∀ x, Decision (P x)} (l : list A) e :
  filter P l = [e] →
  ∃ pre post, l = pre ++ e :: post ∧ Forall (λ x, ¬ P x) pre ∧ Forall (λ x, ¬ P x) post.
Proof.
  induction l as [|x l IH]; [done|]. rewrite filter_cons. case_decide as Hx.
  - intros [= -> Hl]. exists [], l. split_and!; [done|constructor|].
    apply Forall_forall. intros y Hy HP. assert (y ∈ filter P l) as Hin by by apply list_elem_of_filter.
    rewrite Hl in Hin. by apply elem_of_nil in Hin.
  - intros (pre & post & -> & Hpre & Hpost)%IH. exists (x :: pre), post.
    split_and!; [done|by constructor|done].
Qed.

Lemma amend_untouched id f ledger :
  Forall (λ e, ¬ is_open id e) ledger → amend id f ledger = ledger.
Proof.
  induction 1 as [|e l He _ IH]; [done|]. unfold amend in *. rewrite fmap_cons, IH, decide_False; done.
Qed.

Lemma amend_app id f l k : amend id f (l ++ k) = amend id f l ++ amend id f k.
Proof. apply fmap_app. Qed.

Lemma amend_one id f ledger e :
  filter (is_open id) ledger = [e] →
  ∃ pre post, ledger = pre ++ e :: post ∧ amend id f ledger = pre ++ f e :: post.
Proof.
  intros Hf. assert (is_open id e) as He.
  { assert (e ∈ filter (is_open id) ledger) as Hin by (rewrite Hf; by left).
    by apply list_elem_of_filter in Hin as [? _]. }
  apply filter_one in Hf as (pre & post & -> & Hpre & Hpost). exists pre, post. split; [done|].
  rewrite amend_app. unfold amend at 2. rewrite fmap_cons, decide_True by done.
  fold (amend id f post). by rewrite !amend_untouched.
Qed.

Lemma amend_none id f ledger : filter (is_open id) ledger = [] → amend id f ledger = ledger.
Proof.
  intros Hf. apply amend_untouched, Forall_forall. intros e He Ho.
  assert (e ∈ filter (is_open id) ledger) as Hin by by apply list_elem_of_filter.
  rewrite Hf in Hin. by apply elem_of_nil in Hin.
Qed.

Lemma amend_open id id' f ledger :
  (∀ e, en_id (f e) = en_id e) →
  filter (is_open id') (amend id f ledger) =
    if decide (id = id') then filter (is_open id') (f <$> filter (is_open id) ledger)
    else filter (is_open id') ledger.
Proof.
  intros Hf. induction ledger as [|e l IH]; [by case_decide|]. unfold amend in *.
  rewrite fmap_cons, !filter_cons, IH. destruct (decide (id = id')) as [->|Hne].
  - destruct (decide (is_open id' e)) as [He|He]; [by rewrite fmap_cons, filter_cons|].
    by rewrite decide_False.
  - destruct (decide (is_open id e)) as [He|He]; [|done].
    rewrite (decide_False (P := is_open id' e)) by (unfold is_open in *; intuition congruence).
    by rewrite decide_False by (unfold is_open in *; rewrite Hf; intuition congruence).
Qed.

(** ** Weights *)

Definition weigh (w : Entry → N) (ledger : list Entry) : N := sum (w <$> ledger).

Lemma weigh_app w l k : weigh w (l ++ k) = weigh w l + weigh w k.
Proof. unfold weigh. by rewrite fmap_app, sum_app. Qed.

Lemma weigh_cons w e l : weigh w (e :: l) = w e + weigh w l.
Proof. done. Qed.

Lemma weigh_add w v x l : (∀ e, x e = w e + v e) → weigh x l = weigh w l + weigh v l.
Proof.
  intros Hx. induction l as [|e l IH]; [done|]. rewrite !weigh_cons, IH, Hx. lia.
Qed.

Lemma weigh_amend w id f ledger e :
  filter (is_open id) ledger = [e] → weigh w (amend id f ledger) + w e = weigh w ledger + w (f e).
Proof.
  intros (pre & post & -> & ->)%(amend_one id f). rewrite !weigh_app, !weigh_cons. lia.
Qed.

Lemma weigh_open w id ledger e : filter (is_open id) ledger = [e] → w e <= weigh w ledger.
Proof.
  intros (pre & post & -> & _)%(amend_one id (λ e, e)). rewrite weigh_app, weigh_cons. lia.
Qed.

Lemma weigh_same w id f ledger : (∀ e, is_open id e → w (f e) = w e) → weigh w (amend id f ledger) = weigh w ledger.
Proof.
  intros Hw. induction ledger as [|e l IH]; [done|]. unfold amend in *.
  rewrite fmap_cons, !weigh_cons, IH. case_decide; [|done]. by rewrite Hw.
Qed.

Definition w_finished (slot : nat) (e : Entry) : N :=
  if decide (en_slot e = slot ∧ en_status e = Status_Stopped) then en_done e else 0.
Definition w_live (slot : nat) (e : Entry) : N :=
  if decide (en_slot e = slot ∧ en_status e ≠ Status_Stopped) then en_done e else 0.
Definition w_running (slot : nat) (e : Entry) : N :=
  if decide (en_slot e = slot ∧ en_status e ≠ Status_Stopped) then en_running e else 0.

Lemma done_split slot ledger :
  done_in slot ledger = weigh (w_finished slot) ledger + weigh (w_live slot) ledger.
Proof.
  apply weigh_add. intros e. unfold w_finished, w_live. repeat case_decide; naive_solver lia.
Qed.

Lemma running_weigh slot ledger : running_in slot ledger = weigh (w_running slot) ledger.
Proof. done. Qed.

(** ** The totals are the sums *)

Definition as_entry (id : N) (a : Activity) : Entry :=
  mkEntry id (ac_slot a) (ac_done a) (ac_running a) Status_Open.

Record counts (l : NixLog) (ledger : list Entry) : Prop := {
  ct_live : ∀ id, filter (is_open id) ledger = as_entry id <$> option_list (nl_live l !! id);
  ct_slots : ∀ id a, nl_live l !! id = Some a → (ac_slot a < TRACKED_TYPES)%nat;
  ct_length : length (nl_totals l) = TRACKED_TYPES;
  ct_totals : ∀ slot t, nl_totals l !! slot = Some t →
    t = mkTotals (weigh (w_finished slot) ledger) (weigh (w_live slot) ledger)
          (weigh (w_running slot) ledger);
}.

Definition fits (ledger : list Entry) : Prop :=
  ∀ slot, done_in slot ledger <= U64_MAX ∧ running_in slot ledger <= U64_MAX.

Lemma add_fits a b : a + b <= U64_MAX → add_u64 a b = Some (a + b).
Proof. intros Hab. unfold add_u64. by rewrite (proj2 (N.ltb_ge _ _)). Qed.

Lemma counts_new : counts nixlog_new [].
Proof.
  split; simpl; try done. intros slot t Ht.
  destruct slot as [|[|[|slot]]]; simplify_eq/=; done.
Qed.

Lemma tracked_bound ty slot : tracked ty = Some slot → (slot < TRACKED_TYPES)%nat.
Proof. unfold tracked. repeat case_match; intros [= <-]; unfold TRANSFER, DOWNLOADS, BUILDS, TRACKED_TYPES; lia. Qed.

Lemma counts_start l ledger id slot :
  (slot < TRACKED_TYPES)%nat → counts l ledger →
  counts (set_live (<[id := mkActivity slot 0 0]> (nl_live l)) l)
    (amend id (with_status Status_Lost) ledger ++ [mkEntry id slot 0 0 Status_Open]).
Proof.
  intros Hslot [Hlive Hslots Hlen Htot]. split; simpl; [| |done|].
  - intros id'. rewrite filter_app, amend_open by done. rewrite Hlive.
    destruct (decide (id = id')) as [->|Hne].
    + rewrite lookup_insert_eq. simpl. rewrite (filter_cons_True (is_open id')) by done.
      destruct (nl_live l !! id'); simpl; [|done].
      by rewrite (filter_cons_False (is_open id')) by (by intros [_ ?]).
    + rewrite lookup_insert_ne by done. rewrite Hlive.
      rewrite (filter_cons_False (is_open id')) by (intros [? _]; by simplify_eq/=).
      by rewrite app_nil_r.
  - intros id' a [[<- <-]|[_ Ha]]%lookup_insert_Some; [done|by eapply Hslots].
  - intros slot' t Ht. rewrite (Htot _ _ Ht), !weigh_app, !weigh_same.
    + unfold weigh, w_finished, w_live, w_running. simpl. f_equal; repeat case_decide; lia.
    + intros e [_ Ho]. unfold w_running. simpl. rewrite Ho. repeat case_decide; naive_solver.
    + intros e [_ Ho]. unfold w_live. simpl. rewrite Ho. repeat case_decide; naive_solver.
    + intros e [_ Ho]. unfold w_finished. simpl. rewrite Ho. repeat case_decide; naive_solver.
Qed.

Lemma counts_at l ledger slot :
  counts l ledger → (slot < TRACKED_TYPES)%nat →
  nl_totals l !! slot =
    Some (mkTotals (weigh (w_finished slot) ledger) (weigh (w_live slot) ledger)
            (weigh (w_running slot) ledger)).
Proof.
  intros Hc Hs. destruct (lookup_lt_is_Some_2 (nl_totals l) slot) as [t Ht];
    [by rewrite (ct_length _ _ Hc)|]. by rewrite Ht, (ct_totals _ _ Hc _ _ Ht) at 1.
Qed.

(** Totals that do not mention the activity's kind stay. *)
Lemma weigh_other id f ledger a slot w :
  w = w_finished ∨ w = w_live ∨ w = w_running →
  filter (is_open id) ledger = [as_entry id a] → ac_slot a ≠ slot →
  (∀ e, en_slot (f e) = en_slot e) →
  weigh (w slot) (amend id f ledger) = weigh (w slot) ledger.
Proof.
  intros Hw Ha Hne Hf. pose proof (weigh_amend (w slot) id f ledger _ Ha) as Hsum.
  assert (Hz : ∀ e, en_slot e ≠ slot → w slot e = 0).
  { intros e He. destruct Hw as [->|[->| ->]]; unfold w_finished, w_live, w_running;
      rewrite decide_False; naive_solver. }
  rewrite (Hz (as_entry id a)), (Hz (f (as_entry id a))) in Hsum by (rewrite ?Hf; done). lia.
Qed.

(** Changing the open activity of an id and the totals of its kind. *)
Lemma counts_amend l ledger id a f t live' :
  counts l ledger → nl_live l !! id = Some a →
  (∀ e, en_id (f e) = en_id e) → (∀ e, en_slot (f e) = en_slot e) →
  t = mkTotals (weigh (w_finished (ac_slot a)) (amend id f ledger))
        (weigh (w_live (ac_slot a)) (amend id f ledger))
        (weigh (w_running (ac_slot a)) (amend id f ledger)) →
  filter (is_open id) [f (as_entry id a)] = as_entry id <$> option_list (live' !! id) →
  (∀ id', id' ≠ id → live' !! id' = nl_live l !! id') →
  (∀ b, live' !! id = Some b → ac_slot b = ac_slot a) →
  counts (set_totals (<[ac_slot a := t]> (nl_totals l)) (set_live live' l)) (amend id f ledger).
Proof.
  intros Hc Ha Hid Hslot Ht Hopen Hother Hsame.
  assert (Hfa : filter (is_open id) ledger = [as_entry id a]) by by rewrite (ct_live _ _ Hc), Ha.
  assert (Hbound : (ac_slot a < TRACKED_TYPES)%nat) by by eapply ct_slots.
  split; simpl.
  - intros id'. rewrite amend_open by done. destruct (decide (id = id')) as [<-|Hne].
    + by rewrite Hfa.
    + by rewrite (ct_live _ _ Hc), Hother.
  - intros id' b Hb. destruct (decide (id' = id)) as [->|Hne]; [by rewrite (Hsame b)|].
    rewrite Hother in Hb by done. by eapply ct_slots.
  - rewrite length_insert. apply Hc.
  - intros slot t' Ht'. destruct (decide (ac_slot a = slot)) as [<-|Hne].
    + rewrite list_lookup_insert_eq in Ht' by by rewrite (ct_length _ _ Hc). by simplify_eq.
    + rewrite list_lookup_insert_ne in Ht' by done. rewrite (ct_totals _ _ Hc _ _ Ht').
      f_equal; symmetry; eapply weigh_other; eauto.
Qed.

Lemma fits_parts ledger slot :
  fits ledger →
  weigh (w_finished slot) ledger + weigh (w_live slot) ledger <= U64_MAX ∧
  weigh (w_running slot) ledger <= U64_MAX.
Proof. intros Hf. rewrite <- done_split. apply Hf. Qed.

Section Weights.
Variables (slot : nat) (id : N) (a : Activity).
Hypothesis Hslot : ac_slot a = slot.

Lemma w_finished_open : w_finished slot (as_entry id a) = 0.
Proof. unfold w_finished. by rewrite decide_False by naive_solver. Qed.
Lemma w_live_open : w_live slot (as_entry id a) = ac_done a.
Proof. unfold w_live. by rewrite decide_True. Qed.
Lemma w_running_open : w_running slot (as_entry id a) = ac_running a.
Proof. unfold w_running. by rewrite decide_True. Qed.

Lemma w_finished_stopped :
  w_finished slot (with_status Status_Stopped (as_entry id a)) = ac_done a.
Proof. unfold w_finished. by rewrite decide_True. Qed.
Lemma w_live_stopped : w_live slot (with_status Status_Stopped (as_entry id a)) = 0.
Proof. unfold w_live. by rewrite decide_False by naive_solver. Qed.
Lemma w_running_stopped : w_running slot (with_status Status_Stopped (as_entry id a)) = 0.
Proof. unfold w_running. by rewrite decide_False by naive_solver. Qed.

End Weights.

(** Nothing was said about the plan. *)
Definition quiet (ev : LogEvent) (l l' : NixLog) : Prop :=
  (ev = Event_Progress ∨ ev = Event_Ignored) ∧ nl_plan l' = nl_plan l.

Lemma counts_stop l ledger id :
  counts l ledger → fits (amend id (with_status Status_Stopped) ledger) →
  ∃ ev l', log_stop id l = Some (ev, l') ∧
    counts l' (amend id (with_status Status_Stopped) ledger) ∧ quiet ev l l'.
Proof.
  intros Hc Hfit. unfold log_stop. destruct (nl_live l !! id) as [a|] eqn:Ha.
  - assert (Hfa : filter (is_open id) ledger = [as_entry id a]) by by rewrite (ct_live _ _ Hc), Ha.
    assert (Hbound : (ac_slot a < TRACKED_TYPES)%nat) by by eapply ct_slots.
    cbn [nl_totals set_live]. rewrite (counts_at l ledger) by done. cbn [mbind option_bind].
    destruct (fits_parts _ (ac_slot a) Hfit) as [Hdone Hrun].
    pose proof (weigh_amend (w_finished (ac_slot a)) id (with_status Status_Stopped) ledger _ Hfa) as Hw1.
    pose proof (weigh_amend (w_live (ac_slot a)) id (with_status Status_Stopped) ledger _ Hfa) as Hw2.
    pose proof (weigh_amend (w_running (ac_slot a)) id (with_status Status_Stopped) ledger _ Hfa) as Hw3.
    rewrite w_finished_open, w_finished_stopped in Hw1 by done.
    rewrite w_live_open, w_live_stopped in Hw2 by done.
    rewrite w_running_open, w_running_stopped in Hw3 by done.
    cbn [finished_done live_done live_running]. rewrite add_fits by lia. cbn [mbind option_bind].
    eexists _, _. split; [done|]. split; [|split; [by left|done]].
    apply counts_amend; try done.
    + f_equal; unfold saturating_sub; lia.
    + rewrite lookup_delete_eq. rewrite (filter_cons_False (is_open id)); [done|by intros [_ ?]].
    + intros id' Hne. by rewrite lookup_delete_ne.
    + intros b. by rewrite lookup_delete_eq.
  - eexists _, _. split; [done|]. split; [|split; [by right|done]].
    rewrite amend_none; [done|]. by rewrite (ct_live _ _ Hc), Ha.
Qed.

Lemma counts_progress l ledger id fields :
  let f := with_counts (fields_int fields 0) (fields_int fields 2) in
  counts l ledger → fits (amend id f ledger) →
  ∃ ev l', report_progress id fields l = Some (ev, l') ∧
    counts l' (amend id f ledger) ∧ quiet ev l l'.
Proof.
  intros f Hc Hfit. unfold report_progress. destruct (nl_live l !! id) as [a|] eqn:Ha.
  - assert (Hfa : filter (is_open id) ledger = [as_entry id a]) by by rewrite (ct_live _ _ Hc), Ha.
    assert (Hbound : (ac_slot a < TRACKED_TYPES)%nat) by by eapply ct_slots.
    rewrite (counts_at l ledger) by done. cbn [mbind option_bind].
    destruct (fits_parts _ (ac_slot a) Hfit) as [Hdone Hrun].
    pose proof (weigh_amend (w_finished (ac_slot a)) id f ledger _ Hfa) as Hw1.
    pose proof (weigh_amend (w_live (ac_slot a)) id f ledger _ Hfa) as Hw2.
    pose proof (weigh_amend (w_running (ac_slot a)) id f ledger _ Hfa) as Hw3.
    change (f (as_entry id a)) with
      (as_entry id (mkActivity (ac_slot a) (fields_int fields 0) (fields_int fields 2))) in *.
    pose proof (weigh_open (w_live (ac_slot a)) id ledger _ Hfa) as Hle.
    pose proof (weigh_open (w_running (ac_slot a)) id ledger _ Hfa) as Hle'.
    rewrite w_live_open in Hle by done. rewrite w_running_open in Hle' by done.
    do 2 rewrite w_finished_open in Hw1 by done. do 2 rewrite w_live_open in Hw2 by done.
    do 2 rewrite w_running_open in Hw3 by done. cbn [ac_done ac_running] in Hw2, Hw3.
    cbn [finished_done live_done live_running]. unfold saturating_sub.
    rewrite add_fits by lia. cbn [mbind option_bind]. rewrite add_fits by lia. cbn [mbind option_bind].
    eexists _, _. split; [done|]. split; [|split; [by left|done]].
    change (set_live ?live (set_totals ?t l)) with (set_totals t (set_live live l)).
    apply counts_amend; try done.
    + f_equal; lia.
    + by rewrite lookup_insert_eq, (filter_cons_True (is_open id)).
    + intros id' Hne. by rewrite lookup_insert_ne.
    + intros b. rewrite lookup_insert_eq. by intros [= <-].
  - eexists _, _. split; [done|]. split; [|split; [by right|done]].
    rewrite amend_none; [done|]. by rewrite (ct_live _ _ Hc), Ha.
Qed.

(** ** Whole logs *)

(** What a record says of the plan. *)
Definition announce (r : LogRecord) (p : Plan) : Plan :=
  if (lr_action r =s "msg") && ((lr_level r <=? LVL_INFO) && negb (lr_msg r =s ""))
  then read_plan (lr_msg r) p else p.

Lemma counts_observe r l ledger :
  counts l ledger → fits (enter r ledger) →
  ∃ ev l', observe_action r l = Some (ev, l') ∧ counts l' (enter r ledger) ∧
    nl_plan l' = announce r (nl_plan l).
Proof.
  intros Hc Hfit. unfold observe_action, enter, announce in *.
  destruct (lr_action r =s "start") eqn:Hstart.
  { apply String.eqb_eq in Hstart. rewrite Hstart.
    replace ("start" =s "msg") with false by done. cbn [andb]. unfold log_start. set (text := fields_text _).
    destruct (tracked (lr_type r)) as [slot|] eqn:Htr.
    - assert (lr_type r ≠ ACT_BUILD ∧ lr_type r ≠ ACT_COPY_PATH) as [Hb%N.eqb_neq Hcp%N.eqb_neq].
      { unfold tracked, ACT_FILE_TRANSFER, ACT_COPY_PATHS, ACT_BUILDS in Htr.
        unfold ACT_BUILD, ACT_COPY_PATH. destruct (N.eqb_spec (lr_type r) 101) as [->|_]; [done|].
        destruct (N.eqb_spec (lr_type r) 103) as [->|_]; [done|].
        by destruct (N.eqb_spec (lr_type r) 104) as [->|_]. }
      rewrite Hb, Hcp.
      exists Event_Progress, (set_live (<[lr_id r := mkActivity slot 0 0]> (nl_live l)) l).
      split; [by destruct text|]. split; [|done].
      apply counts_start; [by eapply tracked_bound|done].
    - repeat case_match; exact (ex_intro _ _ (ex_intro _ _ (conj eq_refl (conj Hc eq_refl)))). }
  destruct (lr_action r =s "stop") eqn:Hstop.
  { apply String.eqb_eq in Hstop. rewrite Hstop.
    destruct (counts_stop l ledger (lr_id r) Hc Hfit) as (ev & l' & Hs & Hc' & _ & Hp).
    by exists ev, l'. }
  destruct (lr_action r =s "result") eqn:Hres.
  { apply String.eqb_eq in Hres. rewrite Hres. unfold log_result. simpl in *.
    destruct (lr_type r =? RES_PROGRESS); [|exact (ex_intro _ _ (ex_intro _ _ (conj eq_refl (conj Hc eq_refl))))].
    destruct (counts_progress l ledger (lr_id r) _ Hc Hfit) as (ev & l' & Hs & Hc' & _ & Hp).
    by exists ev, l'. }
  simpl in *. destruct ((lr_action r =s "msg") && _); [|exact (ex_intro _ _ (ex_intro _ _ (conj eq_refl (conj Hc eq_refl))))].
  refine (ex_intro _ _ (ex_intro _ _ (conj eq_refl (conj _ eq_refl)))). by destruct Hc.
Qed.

(** What a record reports as done and as running. *)
Definition reported (index : nat) (r : LogRecord) : N :=
  if (lr_action r =s "result") && (lr_type r =? RES_PROGRESS)
  then fields_int (fields_of (lr_fields r)) index else 0.

Lemma amend_at_most w id f ledger d :
  (∀ e, is_open id e → w (f e) <= w e + d) →
  ∀ e', filter (is_open id) ledger = e' → (length e' <= 1)%nat →
  weigh w (amend id f ledger) <= weigh w ledger + d.
Proof.
  intros Hf e' He' Hlen. destruct e' as [|e [|]]; [| |simpl in Hlen; lia].
  - rewrite amend_none by done. lia.
  - pose proof (weigh_amend w id f ledger _ He') as Hw.
    assert (is_open id e) as Ho.
    { assert (e ∈ filter (is_open id) ledger) as Hin by (rewrite He'; by left).
      by apply list_elem_of_filter in Hin as [? _]. }
    specialize (Hf _ Ho). lia.
Qed.

(** Each record adds to the sums at most what it reports. *)
Lemma enter_at_most r l ledger :
  counts l ledger →
  weigh en_done (enter r ledger) <= weigh en_done ledger + reported 0 r ∧
  weigh en_running (enter r ledger) <= weigh en_running ledger + reported 2 r.
Proof.
  intros Hc. assert (Hlen : ∀ id, (length (filter (is_open id) ledger) <= 1)%nat).
  { intros id. rewrite (ct_live _ _ Hc). destruct (nl_live l !! id); simpl; lia. }
  unfold enter, reported.
  destruct (lr_action r =s "start") eqn:Hstart.
  { destruct (tracked (lr_type r)) as [slot|]; [|lia]. rewrite !weigh_app, !weigh_same by done.
    unfold weigh. simpl. lia. }
  destruct (lr_action r =s "stop") eqn:Hstop; [rewrite !weigh_same by done; lia|].
  destruct ((lr_action r =s "result") && _); [|lia].
  split; (eapply amend_at_most; [|done|apply Hlen]); intros e _; simpl; lia.
Qed.

Lemma weigh_le w v ledger : (∀ e, w e <= v e) → weigh w ledger <= weigh v ledger.
Proof.
  intros Hw. induction ledger as [|e l IH]; [done|]. rewrite !weigh_cons. specialize (Hw e). lia.
Qed.

Lemma bounded_fits ledger :
  weigh en_done ledger <= U64_MAX → weigh en_running ledger <= U64_MAX → fits ledger.
Proof.
  intros Hd Hr slot. split; [etrans; [|exact Hd]|etrans; [|exact Hr]]; apply weigh_le;
    intros e; case_decide; lia.
Qed.

#[local] Arguments sum : simpl never.

Section Logs.
Context `{RecordJson}.

Definition record_in (line : string) : option LogRecord :=
  strip_prefix RECORD_PREFIX line ≫= record_from_str.

Fixpoint observe_all (lines : list string) (l : NixLog) : option (list LogEvent * NixLog) :=
  match lines with
  | [] => Some ([], l)
  | line :: lines =>
      '(ev, l) ← log_observe line l;
      '(evs, l) ← observe_all lines l;
      Some (ev :: evs, l)
  end.

Definition ledger_of (records : list LogRecord) (ledger : list Entry) : list Entry :=
  fold_left (λ ledger r, enter r ledger) records ledger.
Definition announced (records : list LogRecord) (p : Plan) : Plan :=
  fold_left (λ p r, announce r p) records p.

Lemma set_structured l ledger :
  counts l ledger → counts (mkNixLog (nl_live l) (nl_totals l) true (nl_plan l)) ledger.
Proof. by intros []. Qed.

Lemma observe_all_counts lines l ledger :
  let records := omap record_in lines in
  counts l ledger →
  weigh en_done ledger + sum (reported 0 <$> records) <= U64_MAX →
  weigh en_running ledger + sum (reported 2 <$> records) <= U64_MAX →
  ∃ evs l', observe_all lines l = Some (evs, l') ∧ counts l' (ledger_of records ledger) ∧
    nl_plan l' = announced records (nl_plan l) ∧ fits (ledger_of records ledger).
Proof.
  revert l ledger. induction lines as [|line lines IH]; intros l ledger records Hc Hd Hr.
  { exists [], l. split_and!; [done..|]. apply bounded_fits; simpl in *; lia. }
  assert (Hsplit : record_in line = None ∨ ∃ r, record_in line = Some r)
    by (destruct (record_in line); eauto).
  assert (Homap : records = match record_in line with
    Some r => r :: omap record_in lines | None => omap record_in lines end) by done.
  clearbody records. subst records. cbn [observe_all]. destruct Hsplit as [Hnone|[r Hrec]].
  - rewrite Hnone in *. assert (log_observe line l = Some (Event_Plain line, l)) as ->.
    { unfold log_observe, observe_record, record_in in *.
      destruct (strip_prefix RECORD_PREFIX line); [|done]. simpl in Hnone. by rewrite Hnone. }
    destruct (IH l ledger Hc Hd Hr) as (evs & l' & Hs & ?). cbn [mbind option_bind]. rewrite Hs.
    by eexists _, _.
  - rewrite Hrec in *. rewrite fmap_cons, sum_cons in Hd, Hr.
    destruct (enter_at_most r l ledger Hc) as [Hed Her].
    assert (log_observe line l =
      observe_action r (mkNixLog (nl_live l) (nl_totals l) true (nl_plan l))) as ->.
    { unfold log_observe, observe_record, record_in in *.
      destruct (strip_prefix RECORD_PREFIX line); [|done]. simpl in Hrec. by rewrite Hrec. }
    destruct (counts_observe r _ ledger (set_structured _ _ Hc)) as (ev & l1 & -> & Hc1 & Hp1).
    { apply bounded_fits; lia. }
    destruct (IH l1 _ Hc1) as (evs & l' & Hs & Hc' & Hp' & Hf'); [lia..|].
    cbn [mbind option_bind]. rewrite Hs. eexists _, _. split_and!; [done|done| |done].
    by rewrite Hp', Hp1.
Qed.

(** What there is to show: of each kind what is done, what the plan expects unless more is
    done already, and what runs. *)
Definition expected (planned : option N) (done : N) : N :=
  match planned with Some planned => N.max planned done | None => 0 end.
Definition progress_of (p : Plan) (ledger : list Entry) : BuildProgress :=
  let done slot := done_in slot ledger in
  mkBuildProgress
    (done BUILDS) (expected (plan_builds p) (done BUILDS)) (running_in BUILDS ledger)
    (done DOWNLOADS) (expected (plan_fetches p) (done DOWNLOADS)) (running_in DOWNLOADS ledger)
    (done TRANSFER) (expected (plan_download_bytes p) (done TRANSFER)).

Lemma counts_snapshot l ledger :
  counts l ledger → fits ledger → snapshot l = Some (progress_of (nl_plan l) ledger).
Proof.
  intros Hc Hfit. unfold snapshot.
  assert (Hb : ∀ slot, (slot < TRACKED_TYPES)%nat → ∃ t, nl_totals l !! slot = Some t ∧
    totals_done t = Some (done_in slot ledger) ∧ live_running t = running_in slot ledger).
  { intros slot Hs. eexists. split; [by apply counts_at|]. split; [|done]. unfold totals_done. simpl.
    rewrite done_split. apply add_fits. rewrite <- done_split. apply Hfit. }
  destruct (Hb BUILDS) as (t1 & -> & Hd1 & Hr1); [unfold BUILDS, TRACKED_TYPES; lia|].
  destruct (Hb DOWNLOADS) as (t2 & -> & Hd2 & Hr2); [unfold DOWNLOADS, TRACKED_TYPES; lia|].
  destruct (Hb TRANSFER) as (t3 & -> & Hd3 & Hr3); [unfold TRANSFER, TRACKED_TYPES; lia|].
  cbn [mbind option_bind]. unfold expected_of. rewrite Hd1, Hd2, Hd3, Hr1, Hr2.
  unfold progress_of, expected. destruct (plan_builds _), (plan_fetches _), (plan_download_bytes _); done.
Qed.

(** C14. The counters are exact: whatever nix writes, in constant time for each record, they
    show at any time the sums over every activity it started: of what each last reported as done,
    whether it still runs or not, and of what those that run reported as running, against what the
    plan nix printed expects.  No addition overflows as long as what was reported fits 64 bits. *)
Theorem counters_exact lines :
  let records := omap record_in lines in
  sum (reported 0 <$> records) <= U64_MAX → sum (reported 2 <$> records) <= U64_MAX →
  ∃ evs l, observe_all lines nixlog_new = Some (evs, l) ∧
    snapshot l =
      Some (progress_of (announced records (mkPlan None None None)) (ledger_of records [])).
Proof.
  intros records Hd Hr.
  destruct (observe_all_counts lines nixlog_new [] counts_new) as (evs & l & Hs & Hc & Hp & Hf);
    [done..|].
  exists evs, l. split; [done|]. by rewrite (counts_snapshot _ _ Hc Hf), Hp.
Qed.

End Logs.

(** A log of two builds, one of which ended, and a line that is no record. *)
Definition told : RecordJson := λ payload,
  if payload =s "plan" then Some (mkLogRecord "msg" 0 3 0 "" "these 4 derivations will be built:" [])
  else if payload =s "start 1" then Some (mkLogRecord "start" 1 0 ACT_BUILDS "" "" [])
  else if payload =s "start 2" then Some (mkLogRecord "start" 2 0 ACT_BUILDS "" "" [])
  else if payload =s "progress 1" then
    Some (mkLogRecord "result" 1 0 RES_PROGRESS "" "" [JF_U64 1; JF_U64 2; JF_U64 1; JF_U64 0])
  else if payload =s "progress 2" then
    Some (mkLogRecord "result" 2 0 RES_PROGRESS "" "" [JF_U64 2; JF_I64 (-1); JF_Bool true])
  else if payload =s "stop 1" then Some (mkLogRecord "stop" 1 0 0 "" "" [])
  else None.

Definition told_lines : list string :=
  ["@nix plan"; "@nix start 1"; "@nix start 2"; "@nix progress 1"; "warning: dirty"; "@nix progress 2";
   "@nix stop 1"].

Lemma counters_exact_witness :
  ∃ evs l, @observe_all told told_lines nixlog_new = Some (evs, l) ∧
    snapshot l = Some (mkBuildProgress 3 4 0 0 0 0 0 0).
Proof.
  destruct (@counters_exact told told_lines) as (evs & l & Hs & Hsnap).
  - vm_compute. discriminate.
  - vm_compute. discriminate.
  - exists evs, l. split; [exact Hs|]. rewrite Hsnap. vm_compute. reflexivity.
Defined.
