(* ===== verification/Output.v ===== *)
(** * The output of a child process

    [crates/shell/src/effect/exec/output.rs]: a stream of bytes is split into lines, nix's
    records in it are counted, everything is reported as it arrives, and the end of it is
    kept for whoever has to explain a failure.

    A callback on lines is the list of the lines it is called with; the calls made on an
    [ActivityReporter] are a list of [Call]. *)
From S2P Require Import Prelude.
From S2P Require Import Chars.
From S2P Require Import Numbers.
From S2P Require Import NixProgress.

Local Open Scope nat_scope.

(** ** [LineSplitter] *)

Record LineSplitter := mkLineSplitter { partial : bytes; limit : nat }.
Definition splitter_new (limit : nat) : LineSplitter := mkLineSplitter "" limit.

Definition is_line_end (b : ascii) : bool := Ascii.eqb b "010" || Ascii.eqb b "013".

(** The loop over [line_end]: the complete lines of a chunk and what is left of it. *)
Fixpoint cut_lines (chunk : bytes) : list bytes * bytes :=
  match chunk with
  | "" => ([], "")
  | String b chunk =>
      let '(lines, rest) := cut_lines chunk in
      if is_line_end b then ("" :: lines, rest)
      else match lines with
           | [] => ([], String b rest)
           | line :: lines => (String b line :: lines, rest)
           end
  end.

Definition emit (line : bytes) : list string :=
  let trimmed := trim (from_utf8_lossy line) in
  if trimmed =s "" then [] else [trimmed].

Definition splitter_push (chunk : bytes) (s : LineSplitter) : list string * LineSplitter :=
  let '(lines, rest) := cut_lines chunk in
  let '(emitted, held) :=
    match lines with
    | [] => ([], partial s)
    | line :: lines => (emit (partial s +:+ line) ++ (lines ≫= emit), "")
    end in
  if decide (limit s < String.length held + String.length rest)
  then (emitted ++ emit (held +:+ rest), mkLineSplitter "" (limit s))
  else (emitted, mkLineSplitter (held +:+ rest) (limit s)).

Definition splitter_finish (s : LineSplitter) : list string * LineSplitter :=
  if decide (partial s = "") then ([], s) else (emit (partial s), mkLineSplitter "" (limit s)).

(** ** [TailBuffer] *)

Record TailBuffer := mkTailBuffer { buf : bytes; cap : nat; truncated : bool }.
Definition TRUNCATION_NOTE : bytes := "[earlier output omitted]" +:+ newline.
Definition tail_new (cap : nat) : TailBuffer := mkTailBuffer "" cap false.

Definition compact (t : TailBuffer) : TailBuffer :=
  if decide (cap t * 2 < String.length (buf t))
  then mkTailBuffer (skip (String.length (buf t) - cap t) (buf t)) (cap t) true else t.

Definition extend (chunk : bytes) (t : TailBuffer) : TailBuffer :=
  compact (mkTailBuffer (buf t +:+ chunk) (cap t) (truncated t)).
Definition push_line (line : string) (t : TailBuffer) : TailBuffer :=
  compact (mkTailBuffer (buf t +:+ line +:+ newline) (cap t) (truncated t)).
Definition discard (t : TailBuffer) : TailBuffer := mkTailBuffer "" (cap t) false.
Definition into_bytes (t : TailBuffer) : bytes :=
  if truncated t then TRUNCATION_NOTE +:+ buf t else buf t.

(** ** [StreamDrain] *)

(** The methods of an [ActivityReporter]. *)
Inductive Call :=
  | Call_line (line : string)
  | Call_progress (progress : BuildProgress)
  | Call_clear
  | Call_build_started (derivation : string)
  | Call_fetch_started (at_ : string).
#[export] Instance Call_eq_dec : EqDecision Call.
Proof. solve_decision. Defined.

Record StreamDrain := mkStreamDrain {
  sd_splitter : LineSplitter; sd_tail : TailBuffer; decoded : TailBuffer; sd_log : NixLog }.

Definition drain_new (cap : nat) : StreamDrain :=
  mkStreamDrain (splitter_new cap) (tail_new cap) (tail_new cap) nixlog_new.

Section Drain.
Context `{RecordJson}.

Definition report (line : string) (log : NixLog) (decoded : TailBuffer) :
    option (list Call * NixLog * TailBuffer) :=
  '(event, log) ← log_observe line log;
  match event with
  | Event_Plain line =>
      Some ([Call_line line], log, if structured log then push_line line decoded else decoded)
  | Event_Message message => Some ([Call_line message], log, push_line message decoded)
  | Event_Transient text => Some ([Call_line text], log, decoded)
  | Event_Building derivation => Some ([Call_build_started derivation], log, decoded)
  | Event_Fetching at_ => Some ([Call_fetch_started at_], log, decoded)
  | Event_Progress =>
      now ← snapshot log; Some ([Call_progress now], log, decoded)
  | Event_Ignored => Some ([], log, decoded)
  end.

Fixpoint report_each (lines : list string) (log : NixLog) (decoded : TailBuffer) :
    option (list Call * NixLog * TailBuffer) :=
  match lines with
  | [] => Some ([], log, decoded)
  | line :: lines =>
      '(calls, log, decoded) ← report line log decoded;
      '(more, log, decoded) ← report_each lines log decoded;
      Some (calls ++ more, log, decoded)
  end.

Definition drain_push (chunk : bytes) (d : StreamDrain) : option (list Call * StreamDrain) :=
  let tail := if structured (sd_log d) then sd_tail d else extend chunk (sd_tail d) in
  let '(lines, splitter) := splitter_push chunk (sd_splitter d) in
  '(calls, log, decoded) ← report_each lines (sd_log d) (decoded d);
  Some (calls, mkStreamDrain splitter (if structured log then discard tail else tail) decoded log).

Definition drain_finish (d : StreamDrain) : option (list Call * bytes) :=
  let '(lines, splitter) := splitter_finish (sd_splitter d) in
  '(calls, log, decoded) ← report_each lines (sd_log d) (decoded d);
  Some (calls ++ [Call_clear],
        if structured log then into_bytes decoded else into_bytes (sd_tail d)).

(** A stream that arrives in these chunks. *)
Fixpoint drain_chunks (chunks : list bytes) (d : StreamDrain) : option (list Call * bytes) :=
  match chunks with
  | [] => drain_finish d
  | chunk :: chunks =>
      '(calls, d) ← drain_push chunk d;
      '(more, explained) ← drain_chunks chunks d;
      Some (calls ++ more, explained)
  end.

End Drain.

Example splits : (splitter_push ("one" +:+ newline +:+ " two") (mkLineSplitter "half " 16)) =
  (["half one"], mkLineSplitter " two" 16).
Proof. vm_compute. reflexivity. Qed.
