(* ===== verification/OutputSpec.v ===== *)
(** * However the output arrives

    What a child process's stream makes the reporter say does not depend on the chunks it
    arrives in, and of the bytes the last are kept ([chunks_agree]). *)
From S2P Require Import Prelude.
From S2P Require Import Chars.
From S2P Require Import Numbers.
From S2P Require Import NixProgress.
From S2P Require Import NixProgressSpec.
From S2P Require Import Output.

Local Open Scope nat_scope.

(** ** Lines of a stream *)

(** What is between line ends. *)
Definition parts (stream : bytes) : list bytes :=
  let '(lines, rest) := cut_lines stream in lines ++ [rest].

Definition stream_lines (stream : bytes) : list string := parts stream ≫= emit.

(** No line ends in these bytes. *)
Definition unbroken (s : bytes) : Prop := cut_lines s = ([], s).

Lemma cut_rest a lines rest : cut_lines a = (lines, rest) → unbroken rest.
Proof.
  unfold unbroken. revert lines rest. induction a as [|b a IH]; intros lines rest; [by intros [= <- <-]|].
  cbn [cut_lines]. destruct (cut_lines a) as [ls r] eqn:Ha. specialize (IH _ _ eq_refl).
  destruct (is_line_end b) eqn:Hb; [by intros [= <- <-]|].
  destruct ls as [|l ls]; intros [= <- <-]; [|done]. cbn [cut_lines]. by rewrite IH, Hb.
Qed.

Lemma cut_app_unbroken p c :
  unbroken p →
  cut_lines (p +:+ c) =
    match cut_lines c with
    | ([], rest) => ([], p +:+ rest)
    | (line :: lines, rest) => ((p +:+ line) :: lines, rest)
    end.
Proof.
  unfold unbroken. induction p as [|b p IH].
  { intros _. rewrite app_empty_string. destruct (cut_lines c) as [[|l ls] r]; by rewrite ?app_empty_string. }
  cbn [cut_lines]. destruct (cut_lines p) as [ls r] eqn:Hp. destruct (is_line_end b) eqn:Hb; [done|].
  destruct ls as [|l ls]; [|done]. intros [= ->]. rewrite app_cons_string. cbn [cut_lines].
  rewrite IH by done. destruct (cut_lines c) as [[|l ls] rest]; rewrite Hb; by rewrite ?app_cons_string.
Qed.

Lemma cut_app a b lines rest :
  cut_lines a = (lines, rest) →
  cut_lines (a +:+ b) = (lines ++ (cut_lines (rest +:+ b)).1, (cut_lines (rest +:+ b)).2).
Proof.
  revert lines rest. induction a as [|x a IH]; intros lines rest.
  { intros [= <- <-]. rewrite app_empty_string. by destruct (cut_lines b). }
  cbn [cut_lines]. destruct (cut_lines a) as [ls r] eqn:Ha. specialize (IH _ _ eq_refl).
  rewrite app_cons_string. cbn [cut_lines]. rewrite IH.
  destruct (is_line_end x) eqn:Hx; [by intros [= <- <-]|].
  destruct ls as [|l ls]; intros [= <- <-]; [|done].
  rewrite app_cons_string. cbn [cut_lines app]. destruct (cut_lines (r +:+ b)) as [[|k ks] s]; by rewrite Hx.
Qed.

Lemma parts_app a b lines rest :
  cut_lines a = (lines, rest) → parts (a +:+ b) = lines ++ parts (rest +:+ b).
Proof.
  intros Ha. unfold parts. rewrite (cut_app _ _ _ _ Ha). destruct (cut_lines (rest +:+ b)). simpl.
  by rewrite (assoc_L (++)).
Qed.

(** Bytes without a line end begin the first of the parts. *)
Lemma parts_first p c : unbroken p → ∃ s ps, parts (p +:+ c) = (p +:+ s) :: ps.
Proof.
  intros Hp. unfold parts. rewrite (cut_app_unbroken _ _ Hp).
  destruct (cut_lines c) as [[|l ls] r]; by eexists _, _.
Qed.

Lemma emit_empty : emit "" = [].
Proof. reflexivity. Qed.

(** ** The splitter *)

Lemma push_spec p lim c lines rest :
  unbroken p → cut_lines (p +:+ c) = (lines, rest) → String.length rest <= lim →
  splitter_push c (mkLineSplitter p lim) = (lines ≫= emit, mkLineSplitter rest lim).
Proof.
  intros Hp Hc Hlim. rewrite (cut_app_unbroken _ _ Hp) in Hc. unfold splitter_push. cbn [partial limit].
  destruct (cut_lines c) as [[|l ls] r]; injection Hc as <- <-.
  - rewrite decide_False; [done|]. rewrite length_app_string in Hlim. lia.
  - rewrite decide_False; [done|]. simpl. lia.
Qed.

Lemma splitter_finish_spec p lim :
  splitter_finish (mkLineSplitter p lim) = (emit p, mkLineSplitter "" lim).
Proof. unfold splitter_finish. cbn [partial limit]. destruct (decide (p = "")) as [->|]; reflexivity. Qed.

(** ** The kept end *)

Record holds (s : bytes) (t : TailBuffer) : Prop := {
  ho_end : ∃ pre, s = pre +:+ buf t ∧ (truncated t = false → pre = "");
  ho_most : String.length (buf t) <= cap t * 2;
  ho_least : truncated t = true → cap t <= String.length (buf t) ∧ cap t * 2 < String.length s;
}.

Lemma tail_holds_new cap : holds "" (tail_new cap).
Proof. split; simpl; [by exists ""|lia|done]. Qed.

Lemma length_skip n s : String.length (skip n s) = String.length s - n.
Proof. revert s. induction n as [|n IH]; intros [|c s]; simpl; done. Qed.

Lemma holds_append s t b :
  holds s t → holds (s +:+ b) (compact (mkTailBuffer (buf t +:+ b) (cap t) (truncated t))).
Proof.
  intros [(pre & -> & Hpre) Hmost Hleast]. unfold compact. cbn [cap buf truncated].
  case_decide as Hlong; split; cbn [cap buf truncated].
  - set (n := String.length (buf t +:+ b) - cap t).
    exists (pre +:+ prefix_of_len n (buf t +:+ b)). split; [|done].
    by rewrite !app_assoc_string, prefix_skip.
  - rewrite length_skip. lia.
  - intros _. rewrite length_skip, !length_app_string in *. lia.
  - exists pre. by rewrite app_assoc_string.
  - lia.
  - intros Ht. specialize (Hleast Ht). rewrite !length_app_string in *. lia.
Qed.

(** All the chunks. *)
Definition whole (chunks : list bytes) : bytes := foldr String.append "" chunks.

Lemma cap_compact t : cap (compact t) = cap t.
Proof. unfold compact. by case_decide. Qed.

Lemma draining_rest chunks seen size :
  (∃ t, cap t = size ∧ holds seen t) → ∃ t, cap t = size ∧ holds (seen +:+ whole chunks) t.
Proof.
  intros (t & Hcap & Hh). exists (extend (whole chunks) t). split; [by unfold extend; rewrite cap_compact|].
  by apply holds_append.
Qed.

(** ** The drain *)

Section Drain.
Context `{RecordJson}.

Lemma report_each_app a b log dec :
  report_each (a ++ b) log dec =
    '(calls, log, dec) ← report_each a log dec;
    '(more, log, dec) ← report_each b log dec;
    Some (calls ++ more, log, dec).
Proof.
  revert log dec. induction a as [|line a IH]; intros log dec; simpl.
  { by destruct (report_each b log dec) as [[[? ?] ?]|]. }
  destruct (report line log dec) as [[[c1 l1] d1]|]; [|done]. simpl. rewrite IH.
  destruct (report_each a l1 d1) as [[[c2 l2] d2]|]; [|done]. simpl.
  destruct (report_each b l2 d2) as [[[c3 l3] d3]|]; [|done]. simpl. by rewrite (assoc_L (++)).
Qed.

(** Once records were seen the log is structured. *)
Lemma observe_action_structured r log ev log' :
  observe_action r log = Some (ev, log') → structured log' = structured log.
Proof.
  unfold observe_action, log_start, log_stop, log_result, report_progress.
  intros Ho. repeat (case_match || case_decide || simplify_option_eq); done.
Qed.

Lemma log_observe_structured line log ev log' :
  log_observe line log = Some (ev, log') → structured log' = true ∨ structured log' = structured log.
Proof.
  unfold log_observe, observe_record. destruct (strip_prefix _ _) as [payload|]; [|intros [= _ <-]; by right].
  destruct (record_from_str payload) as [r|]; [|intros [= _ <-]; by right].
  intros ->%observe_action_structured. by left.
Qed.

Lemma report_structured line log dec calls log' dec' :
  report line log dec = Some (calls, log', dec') →
  structured log' = true ∨ structured log' = structured log.
Proof.
  unfold report. destruct (log_observe line log) as [[ev l]|] eqn:Ho; [|done].
  apply log_observe_structured in Ho. cbn [mbind option_bind].
  destruct ev; try (intros [= _ <- _]; exact Ho).
  destruct (snapshot l); [|done]. intros [= _ <- _]. exact Ho.
Qed.

Lemma report_each_structured lines log dec calls log' dec' :
  report_each lines log dec = Some (calls, log', dec') →
  structured log = true → structured log' = true.
Proof.
  revert log dec calls. induction lines as [|line lines IH]; intros log dec calls; simpl; [naive_solver|].
  destruct (report line log dec) as [[[c1 l1] d1]|] eqn:Hr; [|done]. simpl.
  destruct (report_each lines l1 d1) as [[[c2 l2] d2]|] eqn:He; [|done]. intros [= _ <- <-] Hs.
  eapply IH; [exact He|]. apply report_structured in Hr as [|Hr]; congruence.
Qed.

(** The drain between chunks: [seen] is what has arrived, of which [p] is not yet a line, and
    [t] the end of it as long as it is kept. *)
Record draining (seen p : bytes) (size : nat) (t : TailBuffer) (d : StreamDrain) : Prop := {
  dr_splitter : sd_splitter d = mkLineSplitter p size;
  dr_unbroken : unbroken p;
  dr_holds : holds seen t;
  dr_cap : cap t = size;
  dr_tail : structured (sd_log d) = false → sd_tail d = t;
}.

(** What is said of the lines, and what is left to explain a failure with. *)
Definition explained (t : TailBuffer) (said : list Call * NixLog * TailBuffer) : list Call * bytes :=
  let '(calls, log, dec) := said in
  (calls ++ [Call_clear], if structured log then into_bytes dec else into_bytes t).

Lemma draining_finish seen p size t d :
  draining seen p size t d →
  drain_finish d = explained t <$> report_each (emit p) (sd_log d) (decoded d).
Proof.
  intros [Hs Hp _ _ Ht]. unfold drain_finish. rewrite Hs, splitter_finish_spec.
  destruct (report_each (emit p) (sd_log d) (decoded d)) as [[[c l] dec]|] eqn:He; [|done].
  simpl. destruct (structured l) eqn:Hl; [done|]. rewrite Ht; [done|].
  destruct (structured (sd_log d)) eqn:Hd; [|done].
  eapply report_each_structured in He; [|done]. congruence.
Qed.

Lemma draining_push seen p size t d chunk lines rest :
  draining seen p size t d → cut_lines (p +:+ chunk) = (lines, rest) → String.length rest <= size →
  match report_each (lines ≫= emit) (sd_log d) (decoded d) with
  | None => drain_push chunk d = None
  | Some (calls, log, dec) =>
      ∃ d', drain_push chunk d = Some (calls, d') ∧ sd_log d' = log ∧ decoded d' = dec ∧
        draining (seen +:+ chunk) rest size (extend chunk t) d'
  end.
Proof.
  intros [Hs Hp Hh Hcap Ht] Hcut Hlen. unfold drain_push. rewrite Hs, (push_spec _ _ _ _ _ Hp Hcut Hlen).
  destruct (report_each (lines ≫= emit) (sd_log d) (decoded d)) as [[[c l] dec]|] eqn:He; [|done].
  simpl. eexists. split_and!; [done..|]. split; simpl; [done|by eapply cut_rest| | |].
  - by apply holds_append.
  - unfold extend. by rewrite cap_compact.
  - intros Hl. rewrite Hl. destruct (structured (sd_log d)) eqn:Hd; [|by rewrite Ht].
    eapply report_each_structured in He; [|done]. congruence.
Qed.

Lemma draining_chunks chunks seen p size t d :
  draining seen p size t d →
  Forall (λ part, String.length part <= size) (parts (p +:+ whole chunks)) →
  ∃ t', cap t' = size ∧ holds (seen +:+ whole chunks) t' ∧
    drain_chunks chunks d =
      explained t' <$> report_each (stream_lines (p +:+ whole chunks)) (sd_log d) (decoded d).
Proof.
  revert seen p t d. induction chunks as [|chunk chunks IH]; intros seen p t d Hd Hlen; cbn [whole foldr].
  { exists t. rewrite !app_nil_string. split; [by eapply dr_cap|]. split; [by eapply dr_holds|].
    cbn [drain_chunks]. rewrite (draining_finish _ _ _ _ _ Hd). unfold stream_lines, parts.
    rewrite (dr_unbroken _ _ _ _ _ Hd). simpl. by rewrite app_nil_r. }
  fold (whole chunks). destruct (cut_lines (p +:+ chunk)) as [lines rest] eqn:Hcut.
  pose proof (cut_rest _ _ _ Hcut) as Hrest.
  assert (Hparts : parts (p +:+ chunk +:+ whole chunks) = lines ++ parts (rest +:+ whole chunks)).
  { rewrite <- app_assoc_string. by apply parts_app. }
  unfold whole in Hlen. cbn [foldr] in Hlen. fold (whole chunks) in Hlen. rewrite Hparts in Hlen.
  apply Forall_app in Hlen as [_ Hlen]. assert (Hshort : String.length rest <= size).
  { destruct (parts_first _ (whole chunks) Hrest) as (s & ps & Heq). rewrite Heq in Hlen.
    apply Forall_cons in Hlen as [Hlen _]. rewrite length_app_string in Hlen. lia. }
  pose proof (draining_push _ _ _ _ _ _ _ _ Hd Hcut Hshort) as Hpush.
  unfold stream_lines. rewrite Hparts, bind_app, report_each_app. cbn [drain_chunks].
  destruct (report_each (lines ≫= emit) (sd_log d) (decoded d)) as [[[c1 l1] d1]|] eqn:He.
  - destruct Hpush as (d' & -> & <- & <- & Hd'). destruct (IH _ _ _ _ Hd' Hlen) as (t' & Hcap & Hh & Hrun).
    exists t'. rewrite <- app_assoc_string. split_and!; [done..|]. cbn [mbind option_bind]. rewrite Hrun.
    unfold stream_lines.
    destruct (report_each (parts (rest +:+ whole chunks) ≫= emit) (sd_log d') (decoded d'))
      as [[[c2 l2] d2]|]; [|done]. simpl. by rewrite (assoc_L (++)).
  - rewrite Hpush. destruct (draining_rest (chunk :: chunks) seen size) as (t' & Hcap & Hh); [|by exists t'].
    exists t. split; [by eapply dr_cap|by eapply dr_holds].
Qed.


End Drain.

