(* ===== verification/Diagnose.v ===== *)
(** * Diagnostics of failures

    [crates/core/src/report/diagnose/mod.rs]: what a failed action, or a failed command,
    is reported as, and what is made of an error of [crates/core/src/error.rs];
    [crates/events/src/code.rs], the names a code is shown and asked for by, with the names the
    schema gives the codes. *)
From S2P Require Import Prelude.
From S2P Require Import Chars.
From S2P Require Import Numbers.
From S2P Require Import Paths.
From S2P Require Import Effect.
From S2P Require Import Events.
From S2P Require Import Nixlog.

Local Open Scope N_scope.

(** [Display] of [std::io::ErrorKind]. *)
Definition kind_display (k : ErrorKind) : string :=
  match k with
  | AddrInUse => "address in use" | AddrNotAvailable => "address not available"
  | AlreadyExists => "entity already exists" | ArgumentListTooLong => "argument list too long"
  | BrokenPipe => "broken pipe" | ConnectionAborted => "connection aborted"
  | ConnectionRefused => "connection refused" | ConnectionReset => "connection reset"
  | CrossesDevices => "cross-device link or rename" | Deadlock => "deadlock"
  | DirectoryNotEmpty => "directory not empty" | ExecutableFileBusy => "executable file busy"
  | FileTooLarge => "file too large" | HostUnreachable => "host unreachable"
  | Interrupted => "operation interrupted" | InvalidData => "invalid data"
  | InvalidFilename => "invalid filename" | InvalidInput => "invalid input parameter"
  | IsADirectory => "is a directory" | NetworkDown => "network down"
  | NetworkUnreachable => "network unreachable" | NotADirectory => "not a directory"
  | NotConnected => "not connected" | NotFound => "entity not found"
  | NotSeekable => "seek on unseekable file" | Other => "other error"
  | OutOfMemory => "out of memory" | PermissionDenied => "permission denied"
  | QuotaExceeded => "quota exceeded"
  | ReadOnlyFilesystem => "read-only filesystem or storage medium"
  | ResourceBusy => "resource busy" | StaleNetworkFileHandle => "stale network file handle"
  | StorageFull => "no storage space" | TimedOut => "timed out"
  | TooManyLinks => "too many links" | UnexpectedEof => "unexpected end of file"
  | Unsupported => "unsupported" | WouldBlock => "operation would block"
  | WriteZero => "write zero"
  end.

(** [Display] of [Unfixable], in [ops/health/mod.rs]. *)
Definition Unfixable_fmt (u : Unfixable) : string :=
  match u with
  | Unfixable_NotADirectory => "exists but is not a directory"
  | Unfixable_MissingUser => "the user no longer exists"
  | Unfixable_MissingRuntime => "missing, and `mix repair` can't restore it"
  | Unfixable_Unrecovered => "an interrupted request couldn't be finished or undone"
  | Unfixable_InTheWay => "in the way of a file `mix` manages"
  | Unfixable_Outside => "missing, and not `mix`'s to create"
  | Unfixable_Masked => "masked, and `mix` won't unmask it"
  | Unfixable_Newer => "set up by a newer `mix`, which this one won't change"
  end.

(** [unfixable] of [report/inspection.rs], as the number of the schema's variant. *)
Definition unfixable_i32 (reason : Unfixable) : Z :=
  match reason with
  | Unfixable_NotADirectory => 1 | Unfixable_MissingUser => 2 | Unfixable_MissingRuntime => 3
  | Unfixable_Unrecovered => 4 | Unfixable_InTheWay => 5 | Unfixable_Outside => 6
  | Unfixable_Masked => 7 | Unfixable_Newer => 8
  end%Z.

(** An error of a code, with [..Diagnostic::default()]. *)
Definition error_diagnostic (code : Code) (message : string) (causes : list Diagnostic)
    (detail : option DiagnosticDetail) : Diagnostic :=
  mkDiagnostic (Code_i32 code) (Severity_i32 Severity_Error) 0 message causes detail.

(** [Diagnostic::default()]. *)
Definition default_diagnostic : Diagnostic := mkDiagnostic 0 0 0 "" [] None.

(** [collision]. *)
Definition collision_diagnostic (packages : string * string) (file : string) (cause : Diagnostic)
    : Diagnostic :=
  error_diagnostic Code_PackageCollision
    ("`" +:+ packages.1 +:+ "` and `" +:+ packages.2 +:+ "` both provide " +:+ file)
    [cause] (Some (Detail_Packages [packages.1; packages.2])).

(** [command_failure]. *)
Definition command_failure (command : string) (exit_status : option Z) (tail message : string)
    : Diagnostic :=
  let invocation output_tail := Detail_Command command exit_status output_tail in
  match nix_error tail with
  | None => error_diagnostic Code_CommandFailed message [] (Some (invocation tail))
  | Some error =>
      let cause :=
        error_diagnostic Code_CommandFailed ("`" +:+ command +:+ "` failed") []
          (Some (invocation (nix_message error))) in
      match nix_failure error with
      | Some NixFailure_DiskFull =>
          error_diagnostic Code_DiskFull "the disk that holds the Nix store is full" [cause] None
      | Some (NixFailure_Download url) =>
          error_diagnostic Code_Network ("couldn't download " +:+ url) [cause]
            (Some (Detail_Network url))
      | Some (NixFailure_Collision file (one, two)) =>
          collision_diagnostic (package_name one, package_name two) file cause
      | Some (NixFailure_Build package) =>
          error_diagnostic Code_BuildFailed ("couldn't build " +:+ package) [cause]
            (Some (Detail_Packages [package]))
      | Some (NixFailure_UnknownPackage name) =>
          error_diagnostic Code_UnknownPackage
            ("`" +:+ name +:+ "` isn't a package `mix` can find") [cause]
            (Some (Detail_Packages [name]))
      | None =>
          error_diagnostic Code_CommandFailed message [] (Some (invocation (nix_message error)))
      end
  end.

(** A diagnostic with another code and message. *)
Definition recoded (code : Code) (message : string) (full : Diagnostic) : Diagnostic :=
  mkDiagnostic (Code_i32 code) (dg_severity full) (dg_node full) message (dg_causes full)
    (dg_detail full).

(** [diagnostic]. *)
Definition diagnostic (failure : Failure) : Diagnostic :=
  let plain code message detail := error_diagnostic code message [] detail in
  match failure with
  | Failure_Conflict subject expected found =>
      plain Code_Conflict (subject +:+ ": expected " +:+ expected +:+ ", found " +:+ found)
        (Some (Detail_Conflict subject expected found))
  | Failure_Io at_ kind =>
      plain (if decide (kind = PermissionDenied) then Code_PermissionDenied else Code_Io)
        (display at_ +:+ ": " +:+ kind_display kind)
        (Some (Detail_Io (display at_) (kind_name kind)))
  | Failure_CommandFailed program status output_tail =>
      command_failure program status output_tail (program +:+ " failed")
  | Failure_NoInodes program status output_tail =>
      recoded Code_NoInodes "the disk that holds the Nix store has no free inodes"
        (command_failure program status output_tail (program +:+ " failed"))
  | Failure_OutOfMemory program status output_tail =>
      recoded Code_OutOfMemory "the build ran out of memory"
        (command_failure program status output_tail (program +:+ " failed"))
  | Failure_Collision collided =>
      let program := collision_program collided in
      let full := command_failure program (collision_status collided) (collision_tail collided)
        (program +:+ " failed") in
      collision_diagnostic (collision_packages collided) (collision_file collided)
        (default default_diagnostic (head (dg_causes full)))
  | Failure_SpawnFailed program kind =>
      plain Code_SpawnFailed (program +:+ ": " +:+ kind_display kind) None
  | Failure_Unit unit =>
      plain Code_UnitFailed
        ("could not " +:+ unit_verb (unit_operation unit) +:+ " " +:+ unit_unit unit +:+ ": job " +:+
         unit_job_result unit +:+ ", " +:+ unit_active_state unit +:+ " (" +:+
         unit_sub_state unit +:+ "), result " +:+ unit_result unit)
        (Some (Detail_Unit (unit_verb (unit_operation unit)) (unit_unit unit)
                 (unit_invocation unit)))
  | Failure_SystemdUnreachable => plain Code_SystemdUnreachable "systemd could not be reached" None
  | Failure_Network url => plain Code_Network url (Some (Detail_Network url))
  | Failure_Integrity artifact expected found =>
      plain Code_Integrity (artifact +:+ ": expected " +:+ expected +:+ ", found " +:+ found)
        (Some (Detail_Integrity artifact expected found))
  | Failure_Cancelled => plain Code_Internal "cancelled" None
  | Failure_Unrepairable artifact reason =>
      plain Code_Unrepairable (artifact +:+ ": " +:+ Unfixable_fmt reason)
        (Some (Detail_Unrepairable artifact (unfixable_i32 reason)))
  end.

(** [Diagnose::fault] for [Failure]. *)
Definition failure_fault (failure : Failure) : Fault :=
  match failure with
  | Failure_Cancelled => Fault_Cancelled Cancellation_Interrupted false
  | failure => Fault_Failed (diagnostic failure)
  end.

(** [warning], given the cause's fault. *)
Definition warning (code : Code) (message : string) (fault : Fault) : Diagnostic :=
  let cause :=
    match fault with
    | Fault_Failed diagnostic => diagnostic
    | Fault_Cancelled _ _ => error_diagnostic Code_Unspecified "interrupted" [] None
    end in
  mkDiagnostic (Code_i32 code) (Severity_i32 Severity_Warning) 0 message [cause] None.

(**  Every failure is reported as an error under a code of its own: never as the
    root of an interruption, always unattached to a node, and as a mere internal error
    only when it is a cancellation. *)
Theorem diagnostic_errors failure :
  dg_severity (diagnostic failure) = Severity_i32 Severity_Error ∧
  dg_node (diagnostic failure) = 0 ∧
  dg_code (diagnostic failure) ≠ Code_i32 Code_Unspecified ∧
  (dg_code (diagnostic failure) = Code_i32 Code_Internal ↔ failure = Failure_Cancelled).
Proof.
  assert (Hcmd : ∀ c s t m, dg_severity (command_failure c s t m) = Severity_i32 Severity_Error ∧
    dg_node (command_failure c s t m) = 0 ∧
    dg_code (command_failure c s t m) ≠ Code_i32 Code_Unspecified ∧
    dg_code (command_failure c s t m) ≠ Code_i32 Code_Internal).
  { intros c s t m. unfold command_failure.
    destruct (nix_error t) as [[msg [[]|]]|]; simpl; try done. by destruct paths. }
  destruct failure as [|? kind|prog st tl|prog st tl|prog st tl| | | | | | | |]; simpl; try done.
  - by destruct (decide (kind = PermissionDenied)).
  - destruct (Hcmd prog st tl (prog +:+ " failed")) as (? & ? & ? & ?). split_and!; done.
  - destruct (Hcmd prog st tl (prog +:+ " failed")) as (? & ? & ? & ?). split_and!; done.
  - destruct (Hcmd prog st tl (prog +:+ " failed")) as (? & ? & ? & ?). split_and!; done.
Qed.

(** ** Errors and the names of codes *)


(** ** Codes *)

(** [Code::DEFINED]. *)
Definition CODES : list Code :=
  [Code_Unspecified; Code_Internal; Code_Io; Code_PermissionDenied; Code_CommandFailed;
   Code_SpawnFailed; Code_LockMissing; Code_Conflict; Code_UnitFailed; Code_SystemdUnreachable;
   Code_JournalUnwritable; Code_CleanupIncomplete; Code_InterruptedRequest; Code_Network;
   Code_Integrity; Code_UnsupportedTarget; Code_Decompression; Code_MalformedArchive;
   Code_NotRoot; Code_UnsupportedHost; Code_UnsupportedKernel; Code_SystemdNotReady;
   Code_AlreadyManaged; Code_CrossDeviceStore; Code_RollbackIncomplete; Code_InvalidMirror;
   Code_NotBootstrapped; Code_RootNotAllowed; Code_InvalidPackage; Code_InvalidState;
   Code_NewerState; Code_ProtectedPackage; Code_GitRecordFailed; Code_UnknownPackage;
   Code_BuildFailed; Code_UpdateUnavailable; Code_Unrepairable; Code_PrivilegesUnavailable;
   Code_WorkerEnded; Code_VersionMismatch; Code_Usage; Code_DaemonOutdated;
   Code_ConfirmationRequired; Code_DaemonUnavailable; Code_DaemonVersionMismatch; Code_DiskFull;
   Code_NoInodes; Code_PackageCollision; Code_OutOfMemory].

(** [Code::try_from] of a field of a message, the default when it is no code. *)
Definition Code_field (n : Z) : Code :=
  default Code_Unspecified (List.find (λ c, bool_decide (Code_i32 c = n)) CODES).

(** [as_str_name], without what all of them begin with. *)
Definition code_word (c : Code) : string :=
  match c with
  | Code_Unspecified => "UNSPECIFIED" | Code_Internal => "INTERNAL" | Code_Io => "IO"
  | Code_PermissionDenied => "PERMISSION_DENIED" | Code_CommandFailed => "COMMAND_FAILED"
  | Code_SpawnFailed => "SPAWN_FAILED" | Code_LockMissing => "LOCK_MISSING"
  | Code_Conflict => "CONFLICT" | Code_UnitFailed => "UNIT_FAILED"
  | Code_SystemdUnreachable => "SYSTEMD_UNREACHABLE"
  | Code_JournalUnwritable => "JOURNAL_UNWRITABLE"
  | Code_CleanupIncomplete => "CLEANUP_INCOMPLETE"
  | Code_InterruptedRequest => "INTERRUPTED_REQUEST" | Code_Network => "NETWORK"
  | Code_Integrity => "INTEGRITY" | Code_UnsupportedTarget => "UNSUPPORTED_TARGET"
  | Code_Decompression => "DECOMPRESSION" | Code_MalformedArchive => "MALFORMED_ARCHIVE"
  | Code_NotRoot => "NOT_ROOT" | Code_UnsupportedHost => "UNSUPPORTED_HOST"
  | Code_UnsupportedKernel => "UNSUPPORTED_KERNEL" | Code_SystemdNotReady => "SYSTEMD_NOT_READY"
  | Code_AlreadyManaged => "ALREADY_MANAGED" | Code_CrossDeviceStore => "CROSS_DEVICE_STORE"
  | Code_RollbackIncomplete => "ROLLBACK_INCOMPLETE" | Code_InvalidMirror => "INVALID_MIRROR"
  | Code_NotBootstrapped => "NOT_BOOTSTRAPPED" | Code_RootNotAllowed => "ROOT_NOT_ALLOWED"
  | Code_InvalidPackage => "INVALID_PACKAGE" | Code_InvalidState => "INVALID_STATE"
  | Code_NewerState => "NEWER_STATE" | Code_ProtectedPackage => "PROTECTED_PACKAGE"
  | Code_GitRecordFailed => "GIT_RECORD_FAILED" | Code_UnknownPackage => "UNKNOWN_PACKAGE"
  | Code_BuildFailed => "BUILD_FAILED" | Code_UpdateUnavailable => "UPDATE_UNAVAILABLE"
  | Code_Unrepairable => "UNREPAIRABLE" | Code_PrivilegesUnavailable => "PRIVILEGES_UNAVAILABLE"
  | Code_WorkerEnded => "WORKER_ENDED" | Code_VersionMismatch => "VERSION_MISMATCH"
  | Code_Usage => "USAGE" | Code_DaemonOutdated => "DAEMON_OUTDATED"
  | Code_ConfirmationRequired => "CONFIRMATION_REQUIRED"
  | Code_DaemonUnavailable => "DAEMON_UNAVAILABLE"
  | Code_DaemonVersionMismatch => "DAEMON_VERSION_MISMATCH" | Code_DiskFull => "DISK_FULL"
  | Code_NoInodes => "NO_INODES" | Code_PackageCollision => "PACKAGE_COLLISION"
  | Code_OutOfMemory => "OUT_OF_MEMORY"
  end.

Definition uppercase (c : ascii) : ascii :=
  if (97 <=? byte c) && (byte c <=? 122) then ascii_of_N (byte c - 32) else c.

(** [to_ascii_uppercase], [to_ascii_lowercase] and [replace] of one byte, byte by byte. *)
Fixpoint map_string (f : ascii → ascii) (s : string) : string :=
  match s with "" => "" | String c s => String (f c) (map_string f s) end.
Definition to_ascii_uppercase : string → string := map_string uppercase.
Definition to_ascii_lowercase : string → string := map_string lowercase.
Definition replace_byte (from to : ascii) : string → string :=
  map_string (λ c, if Ascii.eqb c from then to else c).

Definition CODE_PREFIX : string := "CODE_".
Definition as_str_name (c : Code) : string := CODE_PREFIX +:+ code_word c.
Definition from_str_name (s : string) : option Code :=
  List.find (λ c, bool_decide (as_str_name c = s)) CODES.

(** [parse]. *)
Definition parse_code (name : string) : option Code :=
  let upper := replace_byte "-" "_" (to_ascii_uppercase (trim name)) in
  let full := if String.prefix CODE_PREFIX upper then upper else CODE_PREFIX +:+ upper in
  code ← from_str_name full;
  if decide (code = Code_Unspecified) then None else Some code.

(** [name]; [trim_start_matches] takes the prefix off as often as it is there. *)
Fixpoint strip_prefixes (fuel : nat) (pre s : string) : string :=
  match fuel with
  | O => s
  | S fuel => match strip_prefix pre s with Some rest => strip_prefixes fuel pre rest | None => s end
  end.
Definition code_name (c : Code) : string :=
  let s := as_str_name c in strip_prefixes (String.length s) CODE_PREFIX s.

(** [kebab]. *)
Definition code_kebab (c : Code) : string := replace_byte "_" "-" (to_ascii_lowercase (code_name c)).

(** ** Errors *)

(** [std::io::Error]: its kind and its text. *)
Record IoError := mkIoError { io_kind : ErrorKind; io_text : string }.

Inductive Error :=
  | Error_Io (at_ : path) (source : IoError)
  | Error_Command (command detail : string)
  | Error_Exec (command : string) (source : IoError)
  | Error_Cancelled (command : string)
  | Error_LockMissing (at_ : path)
  | Error_Effect (failure : Failure).

(** The derived [Display]. *)
Definition error_display (e : Error) : string :=
  match e with
  | Error_Io at_ source => "I/O error at " +:+ display at_ +:+ ": " +:+ io_text source
  | Error_Command command detail => "command `" +:+ command +:+ "` failed: " +:+ detail
  | Error_Exec command source => "running `" +:+ command +:+ "`: " +:+ io_text source
  | Error_Cancelled command => "command `" +:+ command +:+ "` was interrupted"
  | Error_LockMissing at_ => "the lock at " +:+ display at_ +:+ " does not exist and cannot be created"
  | Error_Effect failure => dg_message (diagnostic failure)
  end.

(** [command_code]. *)
Definition command_code (tail : string) : Code :=
  match nix_error tail ≫= nix_failure with
  | Some (NixFailure_Build _) => Code_BuildFailed
  | Some (NixFailure_UnknownPackage _) => Code_UnknownPackage
  | Some NixFailure_DiskFull => Code_DiskFull
  | Some (NixFailure_Download _) => Code_Network
  | Some (NixFailure_Collision _ _) => Code_PackageCollision
  | None => Code_CommandFailed
  end.

(** [lock]. *)
Definition lock_fault (code : Code) (at_ : path) (message : string → string) : Fault :=
  fault_failed code (message (display at_)) (Some (Detail_Lock (display at_) None)).

(** [Diagnose::fault] for [Error]. *)
Definition error_fault (e : Error) : Fault :=
  match e with
  | Error_Io at_ source =>
      fault_failed (if decide (io_kind source = PermissionDenied) then Code_PermissionDenied else Code_Io)
        (error_display e) (Some (Detail_Io (display at_) (kind_name (io_kind source))))
  | Error_Command command detail => Fault_Failed (command_failure command None detail (error_display e))
  | Error_Exec command _ =>
      fault_failed Code_SpawnFailed (error_display e) (Some (Detail_Command command None ""))
  | Error_Cancelled _ => Fault_Cancelled Cancellation_Interrupted false
  | Error_Effect failure => failure_fault failure
  | Error_LockMissing at_ =>
      lock_fault Code_LockMissing at_ (λ at_,
        "the lock at " +:+ at_ +:+ " does not exist and cannot be created")
  end.

(** [Fault::code]. *)
Definition fault_code (f : Fault) : option Code :=
  match f with
  | Fault_Failed diagnostic => Some (Code_field (dg_code diagnostic))
  | Fault_Cancelled _ _ => None
  end.

(** [Diagnose::code] for [Error]; for [Failure] it is the trait's own. *)
Definition error_code (e : Error) : option Code :=
  match e with
  | Error_Io _ source =>
      Some (if decide (io_kind source = PermissionDenied) then Code_PermissionDenied else Code_Io)
  | Error_Command _ detail => Some (command_code detail)
  | Error_Exec _ _ => Some Code_SpawnFailed
  | Error_Cancelled _ => None
  | Error_LockMissing _ => Some Code_LockMissing
  | Error_Effect failure => fault_code (failure_fault failure)
  end.

(** ** What they are called *)

(** What a code is read back from. *)
Definition reads_back (c : Code) : bool :=
  bool_decide (Code_field (Code_i32 c) = c) &&
  (bool_decide (c = Code_Unspecified) ||
   forallb (λ s, bool_decide (parse_code s = Some c))
     [code_name c; to_ascii_lowercase (code_name c); as_str_name c; code_kebab c]).

Lemma codes_all c : c ∈ CODES.
Proof. unfold CODES. rewrite <- (bool_decide_spec (c ∈ _)). by destruct c. Qed.

Lemma codes_read_back c : reads_back c = true.
Proof.
  assert (Hall : forallb reads_back CODES = true) by (vm_compute; reflexivity).
  rewrite forallb_forall in Hall. apply Hall, list_elem_of_In, codes_all.
Qed.

Lemma Code_field_i32 c : Code_field (Code_i32 c) = c.
Proof.
  assert (H := codes_read_back c). unfold reads_back in H.
  by apply andb_true_iff in H as [H%bool_decide_eq_true _].
Qed.

(** A code is read back from each name it is shown by, and the default from none. *)
Lemma code_parses c :
  c ≠ Code_Unspecified →
  ∀ s, s ∈ [code_name c; to_ascii_lowercase (code_name c); as_str_name c; code_kebab c] →
  parse_code s = Some c.
Proof.
  intros Hc s Hs. assert (H := codes_read_back c). unfold reads_back in H.
  apply andb_true_iff in H as [_ [H%bool_decide_eq_true|H]%orb_true_iff]; [done|].
  rewrite forallb_forall in H. by apply list_elem_of_In, H, bool_decide_eq_true in Hs.
Qed.

Lemma parse_code_specified name : parse_code name ≠ Some Code_Unspecified.
Proof. unfold parse_code. destruct (from_str_name _); [|done]. simpl. by case_decide; [|intros [= ->]]. Qed.

Lemma command_failure_code command status tail message :
  dg_code (command_failure command status tail message) = Code_i32 (command_code tail).
Proof.
  unfold command_failure, command_code.
  destruct (nix_error tail) as [[text [[]|]]|]; try done. by destruct paths.
Qed.

(** An error's code, which is found without writing its message, is its diagnostic's. *)
Lemma error_code_agrees e : error_code e = fault_code (error_fault e).
Proof.
  destruct e; simpl; rewrite ?Code_field_i32; try done.
  by rewrite command_failure_code, Code_field_i32.
Qed.
