(* ===== verification/Locks.v ===== *)
(** * Locks

    [crates/core/src/run/locks.rs], which lock a request takes, and
    [crates/shell/src/request/lock.rs], taking and giving back the machine's and a user's.

    Requests of several processes run at once, each process with its own [Locks] and all with
    one lock file.  A [Task] is a request in [Locks::acquire] or behind it, and one step of a
    task is what it does between two points where another task may run: it opens the file, asks
    for the [flock], looks in the registry, waits, and so on, and drops a [Held] in the order
    of its [Drop].  What the operating system answers and when a request is stopped is the
    step's [Choice].  A [flock] is held by whoever owns the file, so it is read off the tasks
    and the threads that still wait for a stopped one, as is a user's mutex off its guards.
    The text in the lock file is always written, where the code ignores a failure to. *)
From S2P Require Import Prelude.
From S2P Require Import Chars.
From S2P Require Import Numbers.
From S2P Require Import Paths.
From S2P Require Import Effect.
From S2P Require Import Events.
From S2P Require Import EventTree.
From S2P Require Import Diagnose.

Local Open Scope N_scope.

(** ** What a request needs *)

Inductive Need := Need_Nothing | Need_Exclusive | Need_SharedForUser | Need_Observe.
#[export] Instance Need_eq_dec : EqDecision Need.
Proof. solve_decision. Defined.

Section needs.
(** The field [all] of a [CleanRequest]. *)
Context (clean_all : bytes → bool).

Definition locks_for (request : Request) (dry_run : bool) : Need :=
  if dry_run then
    match request with
    | Request_Explain _ | Request_List _ => Need_Nothing
    | _ => Need_Observe
    end
  else
    match request with
    | Request_Bootstrap _ | Request_Purge _ | Request_Repair _ => Need_Exclusive
    | Request_Clean clean => if clean_all clean then Need_Exclusive else Need_SharedForUser
    | Request_Install _ | Request_Remove _ | Request_Update _ | Request_Doctor _
    | Request_UserRemove _ => Need_SharedForUser
    | Request_Explain _ | Request_List _ => Need_Nothing
    end.

End needs.

(** ** State *)

Record Holder := mkHolder { ho_user : string; ho_command : string }.
#[export] Instance Holder_eq_dec : EqDecision Holder.
Proof. solve_decision. Defined.

Inductive Blocked :=
  | Blocked_Stopped (cause : Cancellation)
  | Blocked_Failed (error : Error).

Record Registry := mkRegistry {
  rg_next : N; rg_machine : list (N * Holder); rg_users : gmap N Holder }.

(** [Locks], but for the path, and the mutexes of the users. *)
Record Locks := mkLocks { lk_registry : Registry; lk_waiting : N }.
Definition locks_new : Locks := mkLocks (mkRegistry 0 [] ∅) 0.

(** [Held]; [hd_user] is whose mutex it guards. *)
Record Held := mkHeld {
  hd_flock : bool; hd_exclusive : bool; hd_user : option N; hd_ticket : N; hd_uid : option N }.

(** The arguments of [acquire], and the process's id. *)
Record Ask := mkAsk { as_pid : N; as_holder : Holder; as_need : Need; as_uid : option N }.

(** Where a task is. *)
Inductive Phase :=
  | At_Open
  | At_TryMachine
  | At_MachineBusy
  | At_MachineWait (node : N)
  | At_MachineSent (node : N)
  | At_MachineFailed (node : N)
  | At_Write
  | At_TryUser
  | At_UserBusy (uid : N)
  | At_UserWait (node uid : N)
  | At_Register (guard : option N)
  | At_Held (held : Held)
  | At_Unregistered (held : Held)
  | At_Emptied (held : Held)
  | At_Unlocked (held : Held)
  | At_Over (blocked : option Blocked).

Record Task := mkTask { tk_ask : Ask; tk_tree : Tree; tk_phase : Phase }.

(** A thread that waits for a task that was stopped: what it wants, and whether it has it. *)
Record Orphan := mkOrphan { or_exclusive : bool; or_locked : bool }.

Record Sys := mkSys {
  sy_tasks : list Task; sy_orphans : list Orphan; sy_locks : gmap N Locks; sy_file : bytes }.

Definition exclusive (a : Ask) : bool := bool_decide (as_need a = Need_Exclusive).

Definition at_phase (p : Phase) (t : Task) : Task := mkTask (tk_ask t) (tk_tree t) p.
Definition set_task (i : nat) (t : Task) (s : Sys) : Sys :=
  mkSys (<[i := t]> (sy_tasks s)) (sy_orphans s) (sy_locks s) (sy_file s).
Definition set_orphans (x : list Orphan) (s : Sys) : Sys :=
  mkSys (sy_tasks s) x (sy_locks s) (sy_file s).
Definition set_file (x : bytes) (s : Sys) : Sys := mkSys (sy_tasks s) (sy_orphans s) (sy_locks s) x.
Definition locks_of (s : Sys) (pid : N) : Locks := default locks_new (sy_locks s !! pid).
Definition set_locks (pid : N) (l : Locks) (s : Sys) : Sys :=
  mkSys (sy_tasks s) (sy_orphans s) (<[pid := l]> (sy_locks s)) (sy_file s).
Definition set_registry (pid : N) (r : Registry) (s : Sys) : Sys :=
  set_locks pid (mkLocks r (lk_waiting (locks_of s pid))) s.

(** ** Who holds what *)

(** The [flock] a task owns: whether it is exclusive. *)
Definition task_flock (t : Task) : option bool :=
  match tk_phase t with
  | At_MachineSent _ | At_Write | At_TryUser | At_UserBusy _ | At_UserWait _ _ | At_Register _ =>
      Some (exclusive (tk_ask t))
  | At_Held h | At_Unregistered h | At_Emptied h =>
      if hd_flock h then Some (hd_exclusive h) else None
  | _ => None
  end.
Definition orphan_flock (o : Orphan) : option bool :=
  if or_locked o then Some (or_exclusive o) else None.

Definition flocks (s : Sys) : list bool :=
  omap task_flock (sy_tasks s) ++ omap orphan_flock (sy_orphans s).

(** Whether [flock] grants another one. *)
Definition flock_free (exclusive : bool) (s : Sys) : bool :=
  if exclusive then bool_decide (flocks s = []) else forallb negb (flocks s).

(** The mutex whose guard a task owns. *)
Definition task_mutex (t : Task) : option (N * N) :=
  pair (as_pid (tk_ask t)) <$>
    match tk_phase t with
    | At_Register guard => guard
    | At_Held h | At_Unregistered h | At_Emptied h | At_Unlocked h => hd_user h
    | _ => None
    end.

Definition mutex_free (key : N * N) (s : Sys) : bool :=
  bool_decide (key ∉ omap task_mutex (sy_tasks s)).

(** ** The lock file *)

(** [write_holder]. *)
Definition holder_text (pid : N) (h : Holder) : bytes :=
  digits pid +:+ " " +:+ ho_user h +:+ " " +:+ ho_command h +:+ newline.

(** [str::parse] for an [i32]. *)
Definition I32_MAX : N := 2147483647.
Definition parse_i32 (s : string) : option Z :=
  match s with
  | String "-" rest =>
      if String.prefix "+" rest then None
      else (λ n, - Z.of_N n)%Z <$> parse_uint (I32_MAX + 1) rest
  | s => Z.of_N <$> parse_uint I32_MAX s
  end.

(** What an open of the lock file meets: whether its directory is there, and what became of each
    call. *)
Record OpenCalls := mkOpenCalls {
  oc_parent : bool; oc_made : result IoError unit; oc_dir_mode : result IoError unit;
  oc_open : result IoError unit; oc_mode : result IoError unit }.

Definition refused (path at_ : path) (e : IoError) : Error :=
  match io_kind e with
  | PermissionDenied | ReadOnlyFilesystem => Error_LockMissing path
  | _ => Error_Io at_ e
  end.

Definition map_err {A E F} (f : E → F) (r : result E A) : result F A :=
  match r with Ok x => Ok x | Err e => Err (f e) end.

(** [open]. *)
Definition open_lock (path : path) (c : OpenCalls) : result Error unit :=
  _ ← match parent path with
      | Some dir =>
          if bool_decide (dir ≠ []) && negb (oc_parent c)
          then _ ← map_err (refused path dir) (oc_made c); map_err (refused path dir) (oc_dir_mode c)
          else Ok tt
      | None => Ok tt
      end;
  _ ← map_err (refused path path) (oc_open c);
  map_err (refused path path) (oc_mode c).

(** [open_existing]: whether there is a file. *)
Definition open_existing (path : path) (c : OpenCalls) : result Error bool :=
  match oc_open c with
  | Ok _ => Ok true
  | Err e => if decide (io_kind e = NotFound) then Ok false else Err (Error_Io path e)
  end.

(** ** Steps *)

Inductive Choice :=
  | Choice_Go
  | Choice_Opens (calls : OpenCalls)
  (** [flock] fails, not because another holds it *)
  | Choice_Fails (source : IoError)
  (** the request's scope is cancelled; what [stopped] then says *)
  | Choice_Stops (cause : option Cancellation).

Inductive Step := Steps (s : Sys) | Stays | Panics.

Definition or_panics (o : option Sys) : Step := match o with Some s => Steps s | None => Panics end.

(** [start_wait], with its [expect]. *)
Definition start_wait (t : Tree) (key lock : string) (holder : option Holder) : option (N * Tree) :=
  match EventTree.start t ROOT
          (start_new key (Kind_LockWait lock (ho_user <$> holder) (ho_command <$> holder))) with
  | (Ok node, t) => Some (node, t)
  | (Err _, _) => None
  end.

(** [let _ = tree.finish(..)]. *)
Definition finish_wait (t : Tree) (node : N) (ending : Ending) : option Tree :=
  snd <$> EventTree.finish t node ending.

(** [Waiting::begin] and its [Drop]. *)
Definition begin_waiting (pid : N) (s : Sys) : Sys :=
  let l := locks_of s pid in set_locks pid (mkLocks (lk_registry l) (lk_waiting l + 1)) s.
Definition end_waiting (pid : N) (s : Sys) : option Sys :=
  let l := locks_of s pid in
  if decide (lk_waiting l = 0) then None
  else Some (set_locks pid (mkLocks (lk_registry l) (lk_waiting l - 1)) s).

Section steps.
(** The lock file, and the processes that a signal may be sent to. *)
Context (lock_path : path) (alive : Z → bool).

(** [written]. *)
Definition written (file : bytes) : option Holder :=
  text ← from_utf8 file;
  match split_whitespace text with
  | pid :: user :: command :: _ =>
      pid ← parse_i32 pid;
      if alive pid then Some (mkHolder user command) else None
  | _ => None
  end.

(** [named_machine_holder]. *)
Definition named_machine_holder (pid : N) (s : Sys) : option Holder :=
  match rg_machine (lk_registry (locks_of s pid)) with
  | (_, holder) :: _ => Some holder
  | [] => written (sy_file s)
  end.

(** The user whose mutex is taken. *)
Definition user_uid (a : Ask) : option N :=
  match as_need a with Need_SharedForUser | Need_Observe => as_uid a | _ => None end.

(** What is held when there is no lock file to observe. *)
Definition held_nothing : Held := mkHeld false false None 0 None.

Definition moves (i : nat) (t : Task) (p : Phase) (s : Sys) : Step := Steps (set_task i (at_phase p t) s).
Definition blocks (i : nat) (t : Task) (b : Blocked) (s : Sys) : Step := moves i t (At_Over (Some b)) s.

Definition step_open (i : nat) (t : Task) (calls : OpenCalls) (s : Sys) : Step :=
  if decide (as_need (tk_ask t) = Need_Observe) then
    match open_existing lock_path calls with
    | Err e => blocks i t (Blocked_Failed e) s
    | Ok true => moves i t At_TryMachine s
    | Ok false => moves i t (At_Held held_nothing) s
    end
  else
    match open_lock lock_path calls with
    | Err e => blocks i t (Blocked_Failed e) s
    | Ok _ => moves i t At_TryMachine s
    end.

(** A wait begins at a node of its own. *)
Definition step_begin (i : nat) (t : Task) (key lock : string) (named : option Holder) (p : N → Phase)
    (s : Sys) : Step :=
  or_panics (
    '(node, tree) ← start_wait (tk_tree t) key lock named;
    Some (begin_waiting (as_pid (tk_ask t)) (set_task i (mkTask (tk_ask t) tree (p node)) s))).

(** A wait ends. *)
Definition step_end (i : nat) (t : Task) (node : N) (ending : Ending) (p : Phase) (s : Sys) : Step :=
  or_panics (
    tree ← finish_wait (tk_tree t) node ending;
    end_waiting (as_pid (tk_ask t)) (set_task i (mkTask (tk_ask t) tree p) s)).

(** [cancelled]. *)
Definition step_cancelled (i : nat) (t : Task) (node : N) (cause : option Cancellation) (s : Sys) : Step :=
  let cause := default Cancellation_Interrupted cause in
  step_end i t node (ending_cancelled cause) (At_Over (Some (Blocked_Stopped cause))) s.

Definition waiting_failed : Error := Error_Io lock_path (mkIoError Other "waiting for the lock failed").

(** The end of [acquire]. *)
Definition step_register (i : nat) (t : Task) (guard : option N) (s : Sys) : Step :=
  let a := tk_ask t in
  let r := lk_registry (locks_of s (as_pid a)) in
  let ticket := rg_next r + 1 in
  let users := match guard with Some uid => <[uid := as_holder a]> (rg_users r) | None => rg_users r end in
  moves i t (At_Held (mkHeld true (exclusive a) guard ticket guard))
    (set_registry (as_pid a) (mkRegistry ticket (rg_machine r ++ [(ticket, as_holder a)]) users) s).

(** What [Drop] does to the registry. *)
Definition unregister (h : Held) (r : Registry) : Registry :=
  mkRegistry (rg_next r) (filter (λ e : N * Holder, e.1 ≠ hd_ticket h) (rg_machine r))
    match hd_uid h with Some uid => delete uid (rg_users r) | None => rg_users r end.

Definition task_step (i : nat) (t : Task) (c : Choice) (s : Sys) : Step :=
  let a := tk_ask t in
  let pid := as_pid a in
  match tk_phase t, c with
  | At_Open, Choice_Opens calls => step_open i t calls s
  | At_TryMachine, Choice_Go =>
      moves i t (if flock_free (exclusive a) s then At_Write else At_MachineBusy) s
  | At_TryMachine, Choice_Fails source => blocks i t (Blocked_Failed (Error_Io lock_path source)) s
  | At_MachineBusy, Choice_Go =>
      step_begin i t "machine-lock" (display lock_path) (named_machine_holder pid s) At_MachineWait s
  | At_MachineWait node, Choice_Go =>
      if flock_free (exclusive a) s then moves i t (At_MachineSent node) s else Stays
  | At_MachineWait node, Choice_Fails _ => moves i t (At_MachineFailed node) s
  | At_MachineWait node, Choice_Stops cause =>
      step_cancelled i t node cause (set_orphans (sy_orphans s ++ [mkOrphan (exclusive a) false]) s)
  | At_MachineSent node, Choice_Go => step_end i t node ending_succeeded At_Write s
  | At_MachineFailed node, Choice_Go =>
      step_end i t node (fault_ending (error_fault waiting_failed))
        (At_Over (Some (Blocked_Failed waiting_failed))) s
  | At_MachineSent node, Choice_Stops cause | At_MachineFailed node, Choice_Stops cause =>
      step_cancelled i t node cause s
  | At_Write, Choice_Go =>
      moves i t At_TryUser (if exclusive a then set_file (holder_text pid (as_holder a)) s else s)
  | At_TryUser, Choice_Go =>
      moves i t
        match user_uid a with
        | Some uid => if mutex_free (pid, uid) s then At_Register (Some uid) else At_UserBusy uid
        | None => At_Register None
        end s
  | At_UserBusy uid, Choice_Go =>
      step_begin i t "user-lock" ("user " +:+ ho_user (as_holder a))
        (rg_users (lk_registry (locks_of s pid)) !! uid) (λ node, At_UserWait node uid) s
  | At_UserWait node uid, Choice_Go =>
      if mutex_free (pid, uid) s then step_end i t node ending_succeeded (At_Register (Some uid)) s
      else Stays
  | At_UserWait node uid, Choice_Stops cause => step_cancelled i t node cause s
  | At_Register guard, Choice_Go => step_register i t guard s
  | At_Held h, Choice_Go =>
      moves i t (At_Unregistered h) (set_registry pid (unregister h (lk_registry (locks_of s pid))) s)
  | At_Unregistered h, Choice_Go =>
      moves i t (At_Emptied h) (if hd_exclusive h && hd_flock h then set_file "" s else s)
  | At_Emptied h, Choice_Go => moves i t (At_Unlocked h) s
  | At_Unlocked h, Choice_Go => moves i t (At_Over None) s
  | _, _ => Stays
  end.

(** A thread whose task was stopped takes the lock all the same, finds that nobody wants it and
    gives it back. *)
Definition orphan_step (j : nat) (o : Orphan) (s : Sys) : Step :=
  if or_locked o then Steps (set_orphans (delete j (sy_orphans s)) s)
  else if flock_free (or_exclusive o) s
  then Steps (set_orphans (<[j := mkOrphan (or_exclusive o) true]> (sy_orphans s)) s)
  else Stays.

Inductive Move := Move_Task (i : nat) (c : Choice) | Move_Orphan (j : nat).

Definition sys_step (m : Move) (s : Sys) : Step :=
  match m with
  | Move_Task i c => match sy_tasks s !! i with Some t => task_step i t c s | None => Stays end
  | Move_Orphan j => match sy_orphans s !! j with Some o => orphan_step j o s | None => Stays end
  end.

(** Requests that come to [acquire] with a tree that only has its root, and a lock file that
    says whatever an earlier process left in it. *)
Definition arriving (a : Ask) (root : Start) : Task := mkTask a (tree_new root) At_Open.
Definition sys_new (tasks : list Task) (file : bytes) : Sys := mkSys tasks [] ∅ file.

Inductive reached (s0 : Sys) : Sys → Prop :=
  | reached_start : reached s0 s0
  | reached_step s m s' : reached s0 s → sys_step m s = Steps s' → reached s0 s'.

End steps.
