(* ===== verification/LocksSpec.v ===== *)
(** * What the locks promise

    Over every interleaving of any requests of any processes: a request that needs the machine
    alone has it alone ([locks_exclude]), all of them get through, whoever is stopped on the way
    ([locks_serve]), and a request that waits is told who holds what it waits for
    ([holder_named]). *)
From S2P Require Import Prelude.
From S2P Require Import Chars.
From S2P Require Import Numbers.
From S2P Require Import Paths.
From S2P Require Import Effect.
From S2P Require Import Events.
From S2P Require Import EventTree.
From S2P Require Import Validate.
From S2P Require Import TreeSim.
From S2P Require Import Diagnose.
From S2P Require Import Locks.

Local Open Scope nat_scope.

(** ** One element of a list *)

Lemma omap_insert_Permutation {A B} (f : A → option B) (l : list A) (i : nat) x y :
  l !! i = Some x →
  omap f l ≡ₚ option_list (f x) ++ omap f (delete i l) ∧
  omap f (<[i:=y]> l) ≡ₚ option_list (f y) ++ omap f (delete i l).
Proof.
  intros Hx. assert (Hi := lookup_lt_Some _ _ _ Hx).
  rewrite (insert_take_drop l i y) by done. rewrite <- (take_drop_middle l i x Hx) at 1.
  rewrite (delete_take_drop l i), !omap_app. csimpl.
  split; [destruct (f x)|destruct (f y)]; simpl; by rewrite ?Permutation_middle.
Qed.

Lemma omap_insert_same {A B} (f : A → option B) (l : list A) (i : nat) x y :
  l !! i = Some x → f y = f x → omap f (<[i:=y]> l) = omap f l.
Proof.
  intros Hx Hf. assert (Hi := lookup_lt_Some _ _ _ Hx).
  rewrite (insert_take_drop l i y) by done. rewrite <- (take_drop_middle l i x Hx) at 3.
  rewrite !omap_app. csimpl. by rewrite Hf.
Qed.

Lemma elem_of_deleted {A} (l : list A) i j x : i ≠ j → l !! j = Some x → x ∈ delete i l.
Proof.
  intros Hne Hx. apply list_elem_of_lookup. destruct (decide (j < i)).
  - exists j. by rewrite list_lookup_delete_lt.
  - exists (j - 1). rewrite list_lookup_delete_ge by lia. by replace (S (j - 1)) with j by lia.
Qed.

Lemma sum_insert {A} (f : A → nat) (l : list A) i x y :
  l !! i = Some x → sum_list_with f (<[i:=y]> l) + f x = sum_list_with f l + f y.
Proof.
  revert i. induction l as [|z l IH]; intros [|i] Hx; simplify_eq/=; [lia|]. specialize (IH _ Hx). lia.
Qed.

Lemma sum_delete {A} (f : A → nat) (l : list A) i x :
  l !! i = Some x → sum_list_with f (delete i l) + f x = sum_list_with f l.
Proof.
  revert i. induction l as [|z l IH]; intros [|i] Hx; simplify_eq/=; [lia|]. specialize (IH _ Hx). lia.
Qed.

(** ** Who may hold the lock at once *)

(** An exclusive lock is the only one. *)
Definition coexist (l : list bool) : Prop := true ∈ l → length l = 1.

#[global] Instance coexist_proper : Proper ((≡ₚ) ==> iff) coexist.
Proof. intros l k Hp. unfold coexist. by rewrite Hp. Qed.

Lemma coexist_less o l : coexist (option_list o ++ l) → coexist l.
Proof.
  intros H Ht. destruct o as [b|]; [|by apply H].
  specialize (H (list_elem_of_further _ _ _ Ht)). simpl in H. destruct l; [by apply not_elem_of_nil in Ht|done].
Qed.

Definition grants (b : bool) (l : list bool) : bool :=
  if b then bool_decide (l = []) else forallb negb l.

Lemma coexist_more b l : grants b l = true → coexist (b :: l).
Proof.
  destruct b; simpl; [by intros ->%bool_decide_eq_true|].
  intros Hall [?|Ht]%elem_of_cons; [done|]. rewrite forallb_forall in Hall.
  apply list_elem_of_In, Hall in Ht. done.
Qed.

(** ** Trees *)

Definition MACHINE_LOCK : string := "machine-lock".
Definition USER_LOCK : string := "user-lock".

(** The root is open and those keys are not used below it. *)
Definition root_free (t : Tree) (keys : list string) : Prop :=
  ∃ m o, TreeSim.tree_ok t m ∧ m !! ROOT = Some o ∧ ∀ k, k ∈ keys → k ∉ op_used o.

(** And so is a node below it that holds nothing. *)
Definition leaf_open (t : Tree) (keys : list string) (node : N) : Prop :=
  ∃ m o c, TreeSim.tree_ok t m ∧ m !! ROOT = Some o ∧ (∀ k, k ∈ keys → k ∉ op_used o) ∧
    node ≠ ROOT ∧ m !! node = Some c ∧ op_parent c = ROOT ∧ op_children c = 0%N.

Lemma root_free_new s keys : root_free (tree_new s) keys.
Proof.
  destruct (tree_ok_new s) as [Hok _]. eexists _, _. split; [exact Hok|].
  split; [apply lookup_singleton_eq|]. intros k _. apply not_elem_of_empty.
Qed.

Lemma start_waits t key keys lock h :
  root_free t (key :: keys) → key ∉ keys →
  ∃ node t', start_wait t key lock h = Some (node, t') ∧ leaf_open t' keys node.
Proof.
  intros (m & o & Hok & Hr & Hfree) Hkey. unfold start_wait, EventTree.start.
  assert (Hused : key ∉ op_used o) by (apply Hfree; left).
  rewrite (claim_open _ _ _ _ _ Hok Hr). simpl st_key. rewrite decide_False by done.
  set (o1 := with_used o ({[key]} ∪ op_used o)).
  assert (Hok1 : TreeSim.tree_ok (set_open t ROOT (Some o1)) (<[ROOT:=o1]> m)) by by eapply tree_ok_update.
  destruct (tree_ok_open _ _ ROOT o1 (start_new key (Kind_LockWait lock (ho_user <$> h) (ho_command <$> h))) Hok1)
    as (t' & Hopen & Hok' & _); [apply lookup_insert_eq|].
  rewrite Hopen. eexists _, _. split; [done|].
  assert (Hne : ROOT ≠ next (set_open t ROOT (Some o1))).
  { intros Heq. assert (Hnode := tree_nodes _ _ Hok1 ROOT o1 (lookup_insert_eq _ _ _)).
    destruct (node_range _ _ _ _ Hnode). lia. }
  eexists _, _, _. split; [exact Hok'|]. unfold opened. split; [by rewrite lookup_insert_ne, lookup_insert_eq|].
  split; [|split; [done|by rewrite lookup_insert_eq]].
  intros k Hk. simpl. rewrite not_elem_of_union, not_elem_of_singleton. split; [by intros ->|].
  apply Hfree. by right.
Qed.

Lemma wait_finishes t keys node e :
  leaf_open t keys node → ∃ t', finish_wait t node e = Some t' ∧ root_free t' keys.
Proof.
  intros (m & o & c & Hok & Hr & Hfree & Hne & Hc & Hp & Hch). unfold finish_wait.
  destruct (tree_ok_close _ _ _ _ e Hok Hc Hch) as (t' & -> & Hok' & _). eexists. split; [done|].
  eexists _, _. split; [exact Hok'|]. unfold closed. rewrite Hp, lookup_delete_ne, Hr by done.
  split; [apply lookup_insert_eq|]. exact Hfree.
Qed.

(** ** What is true of the tasks *)

Definition tree_at (p : Phase) (t : Tree) : Prop :=
  match p with
  | At_Open | At_TryMachine | At_MachineBusy => root_free t [MACHINE_LOCK; USER_LOCK]
  | At_MachineWait node | At_MachineSent node | At_MachineFailed node => leaf_open t [USER_LOCK] node
  | At_Write | At_TryUser | At_UserBusy _ => root_free t [USER_LOCK]
  | At_UserWait node _ => leaf_open t [] node
  | _ => True
  end.

(** What a guard and a [Held] are for. *)
Definition held_at (a : Ask) (p : Phase) : Prop :=
  match p with
  | At_UserBusy uid | At_UserWait _ uid => user_uid a = Some uid
  | At_Register guard => guard = user_uid a
  | At_Held h | At_Unregistered h | At_Emptied h | At_Unlocked h =>
      (h = held_nothing ∧ as_need a = Need_Observe) ∨
      (hd_flock h = true ∧ hd_exclusive h = exclusive a ∧ hd_user h = user_uid a ∧
       hd_uid h = user_uid a ∧ (1 <= hd_ticket h)%N)
  | _ => True
  end.

Definition waits (p : Phase) : bool :=
  match p with
  | At_MachineWait _ | At_MachineSent _ | At_MachineFailed _ | At_UserWait _ _ => true
  | _ => false
  end.

Definition waiting_in (pid : N) (t : Task) : nat :=
  if bool_decide (as_pid (tk_ask t) = pid) && waits (tk_phase t) then 1 else 0.

(** The request's line in the registry of a process. *)
Definition entry_in (pid : N) (t : Task) : option (N * Holder) :=
  match tk_phase t with
  | At_Held h =>
      if bool_decide (as_pid (tk_ask t) = pid) && hd_flock h
      then Some (hd_ticket h, as_holder (tk_ask t)) else None
  | _ => None
  end.
Definition user_entry_in (pid : N) (t : Task) : option (N * Holder) :=
  match tk_phase t with
  | At_Held h =>
      if bool_decide (as_pid (tk_ask t) = pid)
      then (λ uid, (uid, as_holder (tk_ask t))) <$> hd_uid h else None
  | _ => None
  end.

(** Whether the lock file says who a task is. *)
Definition names_it (t : Task) : bool :=
  match tk_phase t with
  | At_TryUser | At_UserBusy _ | At_UserWait _ _ | At_Register _ => exclusive (tk_ask t)
  | At_Held h | At_Unregistered h => hd_exclusive h && hd_flock h
  | _ => false
  end.

Record registry_ok (tasks : list Task) (pid : N) (l : Locks) : Prop := {
  ro_machine : rg_machine (lk_registry l) ≡ₚ omap (entry_in pid) tasks;
  ro_tickets : NoDup (rg_machine (lk_registry l)).*1;
  ro_issued : Forall (λ e, 1 <= e.1 <= rg_next (lk_registry l))%N (rg_machine (lk_registry l));
  ro_users uid h : rg_users (lk_registry l) !! uid = Some h ↔ (uid, h) ∈ omap (user_entry_in pid) tasks;
  ro_waiting : lk_waiting l = N.of_nat (sum_list_with (waiting_in pid) tasks);
}.

Record sys_ok (s : Sys) : Prop := {
  so_trees : Forall (λ t, tree_at (tk_phase t) (tk_tree t)) (sy_tasks s);
  so_held : Forall (λ t, held_at (tk_ask t) (tk_phase t)) (sy_tasks s);
  so_flocks : coexist (flocks s);
  so_mutexes : NoDup (omap task_mutex (sy_tasks s));
  so_registries pid : registry_ok (sy_tasks s) pid (locks_of s pid);
  so_file : Forall (λ t, names_it t = true →
    sy_file s = holder_text (as_pid (tk_ask t)) (as_holder (tk_ask t))) (sy_tasks s);
}.

(** Whoever holds the lock alone holds it with nobody. *)
Lemma alone s i j t x b :
  sys_ok s → sy_tasks s !! i = Some t → sy_tasks s !! j = Some x →
  task_flock t = Some true → task_flock x = Some b → j = i.
Proof.
  intros Hok Ht Hx Htrue Hb. destruct (decide (j = i)) as [|Hne]; [done|].
  assert (Hc := so_flocks _ Hok). unfold flocks in Hc.
  destruct (omap_insert_Permutation task_flock (sy_tasks s) i t t Ht) as [Hold _].
  rewrite Hold, Htrue in Hc. simpl in Hc.
  assert (Hin : b ∈ omap task_flock (delete i (sy_tasks s))).
  { apply list_elem_of_omap. exists x. split; [|done]. by apply (elem_of_deleted _ i j). }
  assert (Hl : length (true :: omap task_flock (delete i (sy_tasks s)) ++ omap orphan_flock (sy_orphans s)) = 1)
    by (apply Hc; left).
  simpl in Hl. rewrite length_app in Hl. destruct (omap task_flock (delete i (sy_tasks s))); [by apply elem_of_nil in Hin|].
  simpl in Hl. lia.
Qed.

(** ** One task goes on *)

Section step.
Context (s : Sys) (i : nat) (t t' : Task) (s' : Sys).
Hypothesis Hok : sys_ok s.
Hypothesis Ht : sy_tasks s !! i = Some t.
Hypothesis Htasks : sy_tasks s' = <[i:=t']> (sy_tasks s).
Hypothesis Hask : tk_ask t' = tk_ask t.

Lemma others j x : sy_tasks s' !! j = Some x → (j = i ∧ x = t') ∨ (j ≠ i ∧ sy_tasks s !! j = Some x).
Proof.
  rewrite Htasks. intros Hx. destruct (decide (j = i)) as [->|Hne]; [left|right].
  - rewrite list_lookup_insert_eq in Hx by by eapply lookup_lt_Some. by simplify_eq.
  - by rewrite list_lookup_insert_ne in Hx.
Qed.

Lemma all_others (P : Task → Prop) : P t' → Forall P (sy_tasks s) → Forall P (sy_tasks s').
Proof. intros HP Hall. rewrite Htasks. by apply Forall_insert. Qed.

(** The lock is kept, given back or granted. *)
Definition flock_moves : Prop :=
  task_flock t' = task_flock t ∨ task_flock t' = None ∨
  (task_flock t = None ∧ ∃ b, task_flock t' = Some b ∧ flock_free b s = true).

Lemma flocks_step :
  flock_moves → omap orphan_flock (sy_orphans s') = omap orphan_flock (sy_orphans s) → coexist (flocks s').
Proof.
  intros Hm Ho. destruct (omap_insert_Permutation task_flock (sy_tasks s) i t t' Ht) as [Hold Hnew].
  assert (Hc := so_flocks _ Hok). unfold flocks in *. rewrite Htasks, Ho, Hnew, <- app_assoc.
  destruct Hm as [->|[->|(Hnone & b & -> & Hfree)]]; rewrite ?Hold, <- ?app_assoc in Hc.
  - exact Hc.
  - by apply coexist_less in Hc.
  - simpl. apply coexist_more. unfold flock_free, flocks in Hfree.
    assert (Hp : omap task_flock (sy_tasks s) ++ omap orphan_flock (sy_orphans s) ≡ₚ
      omap task_flock (delete i (sy_tasks s)) ++ omap orphan_flock (sy_orphans s)) by by rewrite Hold, Hnone.
    destruct b; simpl in *.
    + apply bool_decide_eq_true in Hfree. rewrite Hfree in Hp. apply Permutation_nil_l in Hp.
      by apply bool_decide_eq_true.
    + rewrite forallb_forall in *. intros x Hx. apply Hfree. by rewrite Hp.
Qed.

Definition mutex_moves : Prop :=
  task_mutex t' = task_mutex t ∨ task_mutex t' = None ∨
  (task_mutex t = None ∧ ∃ key, task_mutex t' = Some key ∧ mutex_free key s = true).

Lemma mutexes_step : mutex_moves → NoDup (omap task_mutex (sy_tasks s')).
Proof.
  intros Hm. destruct (omap_insert_Permutation task_mutex (sy_tasks s) i t t' Ht) as [Hold Hnew].
  assert (Hc := so_mutexes _ Hok). rewrite Htasks, Hnew.
  destruct Hm as [->|[->|(Hnone & key & -> & Hfree)]]; rewrite ?Hold in Hc.
  - exact Hc.
  - destruct (task_mutex t); [by apply NoDup_cons in Hc as [_ Hc]|done].
  - unfold mutex_free in Hfree. apply bool_decide_eq_true in Hfree. rewrite Hold, Hnone in Hfree.
    rewrite Hnone in Hc. simpl in *. by constructor.
Qed.

(** What the registries say of the task is the same. *)
Definition entered_alike : Prop :=
  ∀ pid, entry_in pid t' = entry_in pid t ∧ user_entry_in pid t' = user_entry_in pid t.

Lemma registry_alike pid l :
  entry_in pid t' = entry_in pid t ∧ user_entry_in pid t' = user_entry_in pid t →
  registry_ok (sy_tasks s) pid l →
  lk_waiting l = N.of_nat (sum_list_with (waiting_in pid) (sy_tasks s)) ∧
  ∀ n, (n + N.of_nat (waiting_in pid t) = lk_waiting l + N.of_nat (waiting_in pid t'))%N →
    registry_ok (sy_tasks s') pid (mkLocks (lk_registry l) n).
Proof.
  intros [He Hue] [Hm Hn Hi Hu Hw]. split; [done|]. intros n Hn'.
  split; simpl; try done.
  - by rewrite Htasks, (omap_insert_same _ _ i t t').
  - by rewrite Htasks, (omap_insert_same _ _ i t t').
  - assert (Hs := sum_insert (waiting_in pid) _ i t t' Ht). rewrite <- Htasks in Hs. lia.
Qed.

Lemma registries_same :
  entered_alike → waits (tk_phase t') = waits (tk_phase t) → sy_locks s' = sy_locks s →
  ∀ pid, registry_ok (sy_tasks s') pid (locks_of s' pid).
Proof.
  intros Ha Hw Hl pid. unfold locks_of. rewrite Hl.
  destruct (registry_alike pid _ (Ha pid) (so_registries _ Hok pid)) as [_ Hr].
  specialize (Hr (lk_waiting (locks_of s pid))). unfold locks_of in *. destruct (default _ _). apply Hr.
  unfold waiting_in. by rewrite Hask, Hw.
Qed.

(** A task that holds the lock alone is the only one the lock file may name. *)
Lemma names_flock x : names_it x = true → task_flock x = Some true.
Proof.
  unfold names_it, task_flock. destruct (tk_phase x); try done; try (by intros ->).
  all: intros [He Hf]%andb_true_iff; by rewrite Hf, He.
Qed.

Lemma named_alone j x :
  task_flock t = Some true → j ≠ i → sy_tasks s !! j = Some x → names_it x = false.
Proof.
  intros Htrue Hne Hx. apply not_true_iff_false. intros Hnx%names_flock. destruct Hne.
  by apply (alone s i j t x true Hok).
Qed.

Definition file_names (file : bytes) : Prop :=
  file = sy_file s ∧ (names_it t' = true → names_it t = true) ∨
  task_flock t = Some true ∧ (names_it t' = true → file = holder_text (as_pid (tk_ask t)) (as_holder (tk_ask t))).

Lemma file_step :
  file_names (sy_file s') →
  Forall (λ t, names_it t = true → sy_file s' = holder_text (as_pid (tk_ask t)) (as_holder (tk_ask t)))
    (sy_tasks s').
Proof.
  assert (Hall := so_file _ Hok). intros Hf. apply Forall_lookup. intros j x Hx Hn.
  destruct (others j x Hx) as [[-> ->]|[Hne Hx']], Hf as [[-> Hsame]|[Htrue Hnew]].
  - rewrite Hask. by apply (Forall_lookup_1 _ _ _ _ Hall Ht), Hsame.
  - rewrite Hask. by apply Hnew.
  - by apply (Forall_lookup_1 _ _ _ _ Hall Hx').
  - by rewrite (named_alone j x) in Hn.
Qed.

Lemma step_ok :
  tree_at (tk_phase t') (tk_tree t') → held_at (tk_ask t') (tk_phase t') →
  flock_moves → omap orphan_flock (sy_orphans s') = omap orphan_flock (sy_orphans s) → mutex_moves →
  (∀ pid, registry_ok (sy_tasks s') pid (locks_of s' pid)) → file_names (sy_file s') → sys_ok s'.
Proof.
  intros Htr Hh Hf Ho Hm Hr Hn. split.
  - apply all_others; [done|apply Hok].
  - apply all_others; [done|apply Hok].
  - by apply flocks_step.
  - by apply mutexes_step.
  - exact Hr.
  - by apply file_step.
Qed.
End step.

(** ** Each step *)

(** How many steps a task, or a thread, is from its end at most. *)
Definition rank (p : Phase) : nat :=
  match p with
  | At_Open => 14 | At_TryMachine => 13 | At_MachineBusy => 12 | At_MachineWait _ => 11
  | At_MachineSent _ | At_MachineFailed _ => 10 | At_Write => 9 | At_TryUser => 8 | At_UserBusy _ => 7
  | At_UserWait _ _ => 6 | At_Register _ => 5 | At_Held _ => 4 | At_Unregistered _ => 3
  | At_Emptied _ => 2 | At_Unlocked _ => 1 | At_Over _ => 0
  end.
Definition orphan_rank (o : Orphan) : nat := if or_locked o then 1 else 2.
Definition effort (s : Sys) : nat :=
  sum_list_with (λ t, rank (tk_phase t)) (sy_tasks s) + sum_list_with orphan_rank (sy_orphans s).

(** A step does not panic; if it changes anything all is well after it, and less is left. *)
Definition fine (effort0 : nat) (step : Step) : Prop :=
  match step with Steps s' => sys_ok s' ∧ effort s' < effort0 | Stays => True | Panics => False end.

Lemma effort_task s i t t' s' :
  sy_tasks s !! i = Some t → sy_tasks s' = <[i:=t']> (sy_tasks s) → sy_orphans s' = sy_orphans s →
  effort s' + rank (tk_phase t) = effort s + rank (tk_phase t').
Proof.
  intros Ht Htasks Ho. unfold effort. rewrite Htasks, Ho.
  assert (H := sum_insert (λ t, rank (tk_phase t)) _ i t t' Ht). simpl in H. lia.
Qed.

Lemma locks_set s pid l pid' : locks_of (set_locks pid l s) pid' = if decide (pid' = pid) then l else locks_of s pid'.
Proof.
  unfold locks_of, set_locks. simpl. case_decide as Hp; [subst; by rewrite lookup_insert_eq|].
  by rewrite lookup_insert_ne.
Qed.

Section steps_fine.
Context (lock_path : path) (alive : Z → bool).
Context (s : Sys) (i : nat) (t : Task).
Hypothesis Hok : sys_ok s.
Hypothesis Ht : sy_tasks s !! i = Some t.

Lemma tree_here : tree_at (tk_phase t) (tk_tree t).
Proof. exact (Forall_lookup_1 _ _ _ _ (so_trees _ Hok) Ht). Qed.
Lemma held_here : held_at (tk_ask t) (tk_phase t).
Proof. exact (Forall_lookup_1 _ _ _ _ (so_held _ Hok) Ht). Qed.

(** A task that only changes its phase. *)
Lemma quiet_fine p file :
  tree_at p (tk_tree t) → held_at (tk_ask t) p →
  flock_moves s t (at_phase p t) → mutex_moves s t (at_phase p t) → entered_alike t (at_phase p t) →
  waits p = waits (tk_phase t) → file_names s t (at_phase p t) file → rank p < rank (tk_phase t) →
  fine (effort s) (moves i t p (set_file file s)).
Proof.
  intros Htr Hh Hf Hm He Hw Hn Hr. simpl. split.
  - apply (step_ok s i t (at_phase p t)); try done. by apply (registries_same s i t (at_phase p t)).
  - assert (H := effort_task s i t (at_phase p t) (set_task i (at_phase p t) (set_file file s)) Ht eq_refl eq_refl).
    simpl in *. lia.
Qed.

Lemma same_fine p :
  tree_at p (tk_tree t) → held_at (tk_ask t) p →
  flock_moves s t (at_phase p t) → mutex_moves s t (at_phase p t) → entered_alike t (at_phase p t) →
  waits p = waits (tk_phase t) → (names_it (at_phase p t) = true → names_it t = true) →
  rank p < rank (tk_phase t) → fine (effort s) (moves i t p s).
Proof.
  intros. assert (Hq := quiet_fine p (sy_file s)). unfold set_file in Hq. destruct s. apply Hq; try done.
  by left.
Qed.

(** A wait that begins. *)
Lemma begin_fine key keys lock named (p : N → Phase) :
  root_free (tk_tree t) (key :: keys) → key ∉ keys →
  (∀ node tree, leaf_open tree keys node → tree_at (p node) tree) →
  (∀ node tree, let t' := mkTask (tk_ask t) tree (p node) in
     held_at (tk_ask t) (p node) ∧ flock_moves s t t' ∧ mutex_moves s t t' ∧ entered_alike t t' ∧
     waits (p node) = true ∧ (names_it t' = true → names_it t = true) ∧ rank (p node) < rank (tk_phase t)) →
  waits (tk_phase t) = false → fine (effort s) (step_begin i t key lock named p s).
Proof.
  intros Hfree Hkey Htree Hp Hw. destruct (start_waits _ key keys lock named Hfree Hkey) as (node & tree & Hs & Hl).
  unfold step_begin. rewrite Hs. simpl. destruct (Hp node tree) as (Hh & Hf & Hm & He & Hwt & Hn & Hr).
  set (t' := mkTask (tk_ask t) tree (p node)) in *. unfold begin_waiting.
  change (locks_of (set_task i t' s)) with (locks_of s).
  set (s' := set_locks _ _ _). split.
  - apply (step_ok s i t t' s'); try done; [by apply Htree| |by left]. intros pid.
    destruct (registry_alike s i t t' s' Ht eq_refl pid (locks_of s pid) (He pid) (so_registries _ Hok pid)) as [Hw0 Hreg].
    assert (Hl' := locks_set (set_task i t' s) (as_pid (tk_ask t)) _ pid : locks_of s' pid = _).
    change (locks_of (set_task i t' s) pid) with (locks_of s pid) in Hl'.
    rewrite Hl'. unfold waiting_in in Hreg. simpl in Hreg. rewrite Hw, Hwt in Hreg. case_decide as Hpid.
    + subst pid. apply Hreg. rewrite bool_decide_true by done. simpl. lia.
    + destruct (locks_of s pid) as [reg n]. apply (Hreg n). by rewrite bool_decide_false by done.
  - assert (H := effort_task s i t t' s' Ht eq_refl eq_refl). simpl in H. lia.
Qed.

(** A wait that ends. *)
Lemma end_fine keys node ending p :
  leaf_open (tk_tree t) keys node → (∀ tree, root_free tree keys → tree_at p tree) →
  (∀ tree, let t' := mkTask (tk_ask t) tree p in
     held_at (tk_ask t) p ∧ flock_moves s t t' ∧ mutex_moves s t t' ∧ entered_alike t t' ∧
     waits p = false ∧ (names_it t' = true → names_it t = true) ∧ rank p < rank (tk_phase t)) →
  waits (tk_phase t) = true → fine (effort s) (step_end i t node ending p s).
Proof.
  intros Hleaf Htree Hp Hw. destruct (wait_finishes _ keys node ending Hleaf) as (tree & Hfin & Hroot).
  unfold step_end. rewrite Hfin. simpl. destruct (Hp tree) as (Hh & Hf & Hm & He & Hwt & Hn & Hr).
  set (t' := mkTask (tk_ask t) tree p) in *. unfold end_waiting.
  change (locks_of (set_task i t' s)) with (locks_of s).
  assert (Hpos : (1 <= lk_waiting (locks_of s (as_pid (tk_ask t))))%N).
  { rewrite (ro_waiting _ _ _ (so_registries _ Hok _)).
    assert (H := sum_delete (waiting_in (as_pid (tk_ask t))) _ i t Ht). unfold waiting_in at 2 in H.
    rewrite bool_decide_true, Hw in H by done. simpl in H. lia. }
  rewrite decide_False by lia. simpl. set (s' := set_locks _ _ _). split.
  - apply (step_ok s i t t' s'); try done; [by apply Htree| |by left]. intros pid.
    destruct (registry_alike s i t t' s' Ht eq_refl pid (locks_of s pid) (He pid) (so_registries _ Hok pid)) as [Hw0 Hreg].
    assert (Hl' := locks_set (set_task i t' s) (as_pid (tk_ask t)) _ pid : locks_of s' pid = _).
    change (locks_of (set_task i t' s) pid) with (locks_of s pid) in Hl'.
    rewrite Hl'. unfold waiting_in in Hreg. simpl in Hreg. rewrite Hw, Hwt in Hreg. case_decide as Hpid.
    + subst pid. apply Hreg. rewrite bool_decide_true by done. simpl. lia.
    + destruct (locks_of s pid) as [reg n]. apply (Hreg n). by rewrite bool_decide_false by done.
  - assert (H := effort_task s i t t' s' Ht eq_refl eq_refl). simpl in H. lia.
Qed.
End steps_fine.

(** *** Taking and giving back a place in the registry *)

Lemma mutex_unique s i j x y key :
  sys_ok s → sy_tasks s !! i = Some x → sy_tasks s !! j = Some y →
  task_mutex x = Some key → task_mutex y = Some key → i = j.
Proof.
  intros Hok Hx Hy Hmx Hmy. destruct (decide (i = j)) as [|Hne]; [done|exfalso].
  destruct (omap_insert_Permutation task_mutex (sy_tasks s) i x x Hx) as [Hold _].
  assert (Hc := so_mutexes _ Hok). rewrite Hold, Hmx in Hc. simpl in Hc.
  apply NoDup_cons in Hc as [Hc _]. apply Hc, list_elem_of_omap. exists y. split; [|done].
  by apply (elem_of_deleted _ i j y).
Qed.

Lemma elem_of_entries {A B} (f : A → option B) (l : list A) y :
  y ∈ omap f l ↔ ∃ j x, l !! j = Some x ∧ f x = Some y.
Proof.
  rewrite list_elem_of_omap. split.
  - intros (x & Hx & Hf). apply list_elem_of_lookup in Hx as [j Hj]. by exists j, x.
  - intros (j & x & Hj & Hf). exists x. split; [|done]. by eapply list_elem_of_lookup_2.
Qed.

Lemma user_entry_mutex s j x pid uid h :
  sys_ok s → sy_tasks s !! j = Some x → user_entry_in pid x = Some (uid, h) → task_mutex x = Some (pid, uid).
Proof.
  intros Hok Hx. assert (Hh := Forall_lookup_1 _ _ _ _ (so_held _ Hok) Hx). revert Hh. simpl.
  unfold user_entry_in, task_mutex. destruct (tk_phase x) as [| | | | | | | | | | |h'| | | |]; try done. simpl.
  case_bool_decide as Hp; [|done]. intros [[-> _]|(_ & _ & Hu & Hd & _)] He; [done|].
  rewrite Hu. rewrite Hd in He. destruct (user_uid (tk_ask x)); by simplify_eq/=.
Qed.

Section registry.
Context (s : Sys) (i : nat) (t : Task).
Hypothesis Hok : sys_ok s.
Hypothesis Ht : sy_tasks s !! i = Some t.
Let a := tk_ask t.
Let pid := as_pid a.
Let l := locks_of s pid.
Let r := lk_registry l.

(** What the registry of another process says, and who waits there, is as it was. *)
Lemma registry_elsewhere t' pid' :
  tk_ask t' = a → waits (tk_phase t') = waits (tk_phase t) → pid' ≠ as_pid a →
  registry_ok (<[i:=t']> (sy_tasks s)) pid' (locks_of s pid').
Proof.
  intros Ha Hw Hne. destruct (registry_alike s i t t' (set_task i t' s) Ht eq_refl pid' (locks_of s pid')) as [_ Hr].
  - unfold entry_in, user_entry_in. rewrite Ha. fold a. rewrite !bool_decide_false by done. simpl.
    by destruct (tk_phase t'), (tk_phase t).
  - apply Hok.
  - destruct (locks_of s pid') as [reg n]. apply (Hr n). unfold waiting_in. rewrite Ha. fold a.
    by rewrite bool_decide_false by done.
Qed.

Lemma waiting_insert t' pid' :
  tk_ask t' = a → waits (tk_phase t') = waits (tk_phase t) →
  sum_list_with (waiting_in pid') (<[i:=t']> (sy_tasks s)) = sum_list_with (waiting_in pid') (sy_tasks s).
Proof.
  intros Ha Hw. assert (H := sum_insert (waiting_in pid') _ i t t' Ht).
  assert (Hsame : waiting_in pid' t' = waiting_in pid' t) by (unfold waiting_in; by rewrite Ha, Hw). lia.
Qed.

Lemma entry_insert {B} (f : Task → option B) t' x :
  x ∈ omap f (<[i:=t']> (sy_tasks s)) → f t' = Some x ∨ ∃ j y, j ≠ i ∧ sy_tasks s !! j = Some y ∧ f y = Some x.
Proof.
  intros (j & y & Hj & Hy)%elem_of_entries. destruct (decide (j = i)) as [->|Hne].
  - rewrite list_lookup_insert_eq in Hj by by eapply lookup_lt_Some. left. by simplify_eq.
  - rewrite list_lookup_insert_ne in Hj by done. right. by exists j, y.
Qed.

Lemma entry_insert_here {B} (f : Task → option B) t' x : f t' = Some x → x ∈ omap f (<[i:=t']> (sy_tasks s)).
Proof.
  intros Hf. apply elem_of_entries. exists i, t'. split; [|done].
  by rewrite list_lookup_insert_eq by by eapply lookup_lt_Some.
Qed.

Lemma entry_insert_there {B} (f : Task → option B) t' j y x :
  j ≠ i → sy_tasks s !! j = Some y → f y = Some x → x ∈ omap f (<[i:=t']> (sy_tasks s)).
Proof. intros Hne Hy Hf. apply elem_of_entries. exists j, y. by rewrite list_lookup_insert_ne. Qed.

Lemma registered guard :
  tk_phase t = At_Register guard → guard = user_uid a →
  let h := mkHeld true (exclusive a) guard (rg_next r + 1) guard in
  registry_ok (<[i:=at_phase (At_Held h) t]> (sy_tasks s)) pid
    (mkLocks (mkRegistry (rg_next r + 1) (rg_machine r ++ [((rg_next r + 1)%N, as_holder a)])
       match guard with Some uid => <[uid := as_holder a]> (rg_users r) | None => rg_users r end)
       (lk_waiting l)).
Proof.
  intros Hphase Hg h. set (t' := at_phase (At_Held h) t).
  destruct (so_registries _ Hok pid) as [Hm Hn Hi Hu Hw]. fold l r in Hm, Hn, Hi, Hu, Hw.
  destruct (omap_insert_Permutation (entry_in pid) (sy_tasks s) i t t' Ht) as [Hold Hnew].
  assert (Het : entry_in pid t = None) by (unfold entry_in; by rewrite Hphase).
  assert (Het' : entry_in pid t' = Some ((rg_next r + 1)%N, as_holder a))
    by (unfold entry_in; simpl; by rewrite bool_decide_true).
  fold t'. split; cbn [lk_registry rg_machine rg_next rg_users lk_waiting].
  - rewrite Hnew, Het'. fold l r. rewrite Hm, Hold, Het. simpl. symmetry. apply Permutation_cons_append.
  - rewrite fmap_app. apply NoDup_app. split_and!; [done| |apply NoDup_singleton].
    intros x (e & -> & He)%list_elem_of_fmap Hx%list_elem_of_singleton.
    rewrite Forall_forall in Hi. apply Hi in He. simpl in Hx. rewrite Hx in He. lia.
  - apply Forall_app_2; [|apply Forall_singleton; simpl; lia]. eapply Forall_impl; [exact Hi|]. simpl. lia.
  - intros uid hh. assert (Hut' : user_entry_in pid t' = (λ uid, (uid, as_holder a)) <$> guard)
      by (unfold user_entry_in; simpl; by rewrite bool_decide_true).
    assert (Hout : ∀ u j y x, guard = Some u → sy_tasks s !! j = Some y → user_entry_in pid y = Some (u, x) → False).
    { intros u j y x -> Hy He. assert (Hmy := user_entry_mutex s j y pid u x Hok Hy He).
      assert (Hmt : task_mutex t = Some (pid, u)) by (unfold task_mutex; by rewrite Hphase).
      assert (i = j) as <- by by eapply mutex_unique. simplify_eq. unfold user_entry_in in He. by rewrite Hphase in He. }
    assert (Hall : (uid, hh) ∈ omap (user_entry_in pid) (<[i:=t']> (sy_tasks s)) ↔
      (guard = Some uid ∧ hh = as_holder a) ∨ (guard ≠ Some uid ∧ rg_users r !! uid = Some hh)).
    { rewrite Hu. split.
      - intros [He|(j & y & Hne & Hy & He)]%entry_insert.
        + rewrite Hut' in He. destruct guard; simplify_eq/=. by left.
        + right. split; [intros Hgu; by eapply Hout|]. apply elem_of_entries. by exists j, y.
      - intros [[Hgu ->]|[Hgu (j & y & Hy & He)%elem_of_entries]].
        + apply entry_insert_here. by rewrite Hut', Hgu.
        + apply (entry_insert_there _ _ j y); [|done|done]. intros ->. simplify_eq.
          unfold user_entry_in in He. by rewrite Hphase in He. }
    rewrite Hall. destruct guard as [u|].
    + rewrite lookup_insert_Some. naive_solver.
    + naive_solver.
  - rewrite waiting_insert; [done|done|by rewrite Hphase].
Qed.

Lemma register_fine guard :
  tk_phase t = At_Register guard → fine (effort s) (step_register i t guard s).
Proof.
  intros Hphase. assert (Hg := held_here s i t Hok Ht). rewrite Hphase in Hg. simpl in Hg.
  unfold step_register. fold a l r. simpl.
  set (t' := at_phase _ t). set (s' := set_task _ _ _).
  split.
  - apply (step_ok s i t t' s'); try done.
    + right. simpl. split_and!; try done; lia.
    + left. unfold task_flock. by rewrite Hphase.
    + left. unfold task_mutex. by rewrite Hphase.
    + intros pid'. assert (Hl' := locks_set s (as_pid a) _ pid' : locks_of s' pid' = _). rewrite Hl'.
      case_decide as Hpid; [subst pid'; by apply registered|].
      apply registry_elsewhere; [done|by rewrite Hphase|done].
    + left. split; [done|]. unfold names_it. rewrite Hphase. simpl. by rewrite andb_true_r.
  - assert (H := effort_task s i t t' s' Ht eq_refl eq_refl). rewrite Hphase in H. simpl in H. lia.
Qed.
Lemma unregistered h :
  tk_phase t = At_Held h →
  registry_ok (<[i:=at_phase (At_Unregistered h) t]> (sy_tasks s)) pid (mkLocks (unregister h r) (lk_waiting l)).
Proof.
  intros Hphase. set (t' := at_phase (At_Unregistered h) t).
  destruct (so_registries _ Hok pid) as [Hm Hn Hi Hu Hw]. fold l r in Hm, Hn, Hi, Hu, Hw.
  destruct (omap_insert_Permutation (entry_in pid) (sy_tasks s) i t t' Ht) as [Hold Hnew].
  assert (Hh := held_here s i t Hok Ht). rewrite Hphase in Hh. simpl in Hh. fold a in Hh.
  assert (Het : entry_in pid t = if hd_flock h then Some (hd_ticket h, as_holder a) else None)
    by (unfold entry_in; by rewrite Hphase, bool_decide_true).
  assert (Het' : entry_in pid t' = None) by done.
  assert (Hkeep : ∀ k : list (N * Holder), Forall (λ e, e.1 ≠ hd_ticket h) k →
    filter (λ e : N * Holder, e.1 ≠ hd_ticket h) k = k).
  { intros k Hk. apply filter_all. by apply Forall_forall. }
  assert (Hrest : filter (λ e : N * Holder, e.1 ≠ hd_ticket h) (rg_machine r) ≡ₚ
      omap (entry_in pid) (delete i (sy_tasks s))).
  { destruct Hh as [[-> _]|(Hf & _ & _ & _ & Hpos)].
    - rewrite Hkeep; [by rewrite Hm, Hold, Het|]. eapply Forall_impl; [exact Hi|]. simpl. lia.
    - rewrite Hm, Hold, Het, Hf. simpl. rewrite filter_cons_False by (intros Hx; by apply Hx).
      rewrite Hkeep; [done|]. rewrite Hm, Hold, Het, Hf in Hn. simpl in Hn. apply NoDup_cons in Hn as [Hn _].
      apply Forall_forall. intros e He Heq. apply Hn, list_elem_of_fmap. by exists e. }
  split; cbn [lk_registry rg_machine rg_next rg_users lk_waiting unregister].
  - by rewrite Hnew, Het', Hrest.
  - rewrite Hrest. rewrite Hm, Hold, fmap_app in Hn. by apply NoDup_app in Hn as (_ & _ & Hn).
  - apply Forall_forall. intros e [_ He]%list_elem_of_filter. by eapply Forall_forall in Hi.
  - intros uid hh. trans (hd_uid h ≠ Some uid ∧ (uid, hh) ∈ omap (user_entry_in pid) (sy_tasks s)).
    { rewrite <- Hu. destruct (hd_uid h) as [u|]; [rewrite lookup_delete_Some|]; naive_solver. }
    assert (Huet : user_entry_in pid t = (λ u, (u, as_holder a)) <$> hd_uid h)
      by (unfold user_entry_in; by rewrite Hphase, bool_decide_true).
    split.
    + intros [Hne (j & y & Hy & He)%elem_of_entries]. apply (entry_insert_there _ _ j y); [|done|done].
      intros ->. simplify_eq. rewrite Huet in He. destruct (hd_uid h); simplify_eq/=.
    + intros [He|(j & y & Hne & Hy & He)]%entry_insert; [done|]. split.
      * intros Hd. assert (Hmt : task_mutex t = Some (pid, uid)).
        { apply (user_entry_mutex s i t pid uid (as_holder a) Hok Ht). by rewrite Huet, Hd. }
        apply Hne. symmetry. apply (mutex_unique s i j t y (pid, uid) Hok Ht Hy Hmt).
        by apply (user_entry_mutex s j y pid uid hh Hok Hy).
      * apply elem_of_entries. by exists j, y.
  - rewrite waiting_insert; [done|done|by rewrite Hphase].
Qed.

Lemma unregister_fine h :
  tk_phase t = At_Held h →
  fine (effort s) (moves i t (At_Unregistered h) (set_registry pid (unregister h r) s)).
Proof.
  intros Hphase. assert (Hh := held_here s i t Hok Ht). rewrite Hphase in Hh. simpl in Hh.
  simpl. set (t' := at_phase (At_Unregistered h) t). set (s' := set_task _ _ _). split.
  - apply (step_ok s i t t' s'); try done.
    + left. unfold task_flock. by rewrite Hphase.
    + left. unfold task_mutex. by rewrite Hphase.
    + intros pid'. assert (Hl' := locks_set s (as_pid a) _ pid' : locks_of s' pid' = _). rewrite Hl'.
      case_decide as Hpid; [subst pid'; by apply unregistered|].
      apply registry_elsewhere; [done|by rewrite Hphase|done].
    + left. split; [done|]. unfold names_it. by rewrite Hphase.
  - assert (H := effort_task s i t t' s' Ht eq_refl eq_refl). rewrite Hphase in H. simpl in H. lia.
Qed.
End registry.

(** *** All of them *)

Lemma orphan_left s b : sys_ok s → sys_ok (set_orphans (sy_orphans s ++ [mkOrphan b false]) s).
Proof.
  intros []. split; try done. unfold flocks in *. simpl. by rewrite omap_app, app_nil_r.
Qed.

(** What the task holds, and what is written of it, is as it was. *)
Ltac alike Hphase :=
  first [done | by left; unfold task_flock, task_mutex; simpl; rewrite Hphase |
         by right; left | by intros ?; unfold entry_in, user_entry_in; simpl; rewrite Hphase |
         by unfold names_it; simpl; rewrite Hphase |
         by intros ?; unfold names_it; simpl; rewrite Hphase |
         by rewrite Hphase | rewrite Hphase; simpl; lia].

Section task.
Context (lock_path : path) (alive : Z → bool) (s : Sys) (i : nat) (t : Task).
Hypothesis Hok : sys_ok s.
Hypothesis Ht : sy_tasks s !! i = Some t.

Lemma tree_weaken tree key keys : root_free tree (key :: keys) → root_free tree keys.
Proof. intros (m & o & Hm & Hr & Hf). exists m, o. split_and!; [done..|]. intros k Hk. apply Hf. by right. Qed.

Lemma open_fine calls : tk_phase t = At_Open → fine (effort s) (step_open lock_path i t calls s).
Proof.
  intros Hp. assert (Htr := tree_here s i t Hok Ht). rewrite Hp in Htr.
  assert (Hover : ∀ b, fine (effort s) (blocks i t b s)) by (intros b; apply same_fine; alike Hp).
  assert (Htry : fine (effort s) (moves i t At_TryMachine s)) by (apply same_fine; alike Hp).
  unfold step_open. destruct (decide _) as [Hneed|_].
  - destruct (open_existing _ _) as [[]|]; [done| |by apply Hover].
    apply same_fine; try alike Hp; [by left|].
    intros pid. unfold entry_in, user_entry_in. simpl. rewrite Hp. by case_bool_decide.
  - by destruct (open_lock _ _).
Qed.

(** A wait is given up; the [flock] goes with it. *)
Lemma cancelled_fine node keys cause :
  leaf_open (tk_tree t) keys node → waits (tk_phase t) = true →
  fine (effort s) (step_cancelled i t node cause s).
Proof.
  intros Hleaf Hw. apply (end_fine s i t Hok Ht keys); try done. intros tree t'.
  split_and!; try done; try (by right; left).
  - intros pid. unfold entry_in, user_entry_in. simpl. by destruct (tk_phase t).
  - destruct (tk_phase t); simpl in *; try done; lia.
Qed.

Lemma step_end_effort s0 node ending p s' :
  sy_tasks s0 !! i = Some t → step_end i t node ending p s0 = Steps s' →
  effort s' + rank (tk_phase t) = effort s0 + rank p.
Proof.
  intros Ht0. unfold step_end. destruct (finish_wait _ _ _) as [tree|]; [|done]. simpl. unfold end_waiting.
  case_decide; [done|]. intros [= <-]. by apply (effort_task s0 i t (mkTask (tk_ask t) tree p)).
Qed.

Lemma given_up_fine node cause :
  tk_phase t = At_MachineWait node →
  fine (effort s)
    (step_cancelled i t node cause (set_orphans (sy_orphans s ++ [mkOrphan (exclusive (tk_ask t)) false]) s)).
Proof.
  intros Hp. assert (Htr := tree_here s i t Hok Ht). rewrite Hp in Htr.
  set (s0 := set_orphans _ s). assert (Hok0 : sys_ok s0) by by apply orphan_left.
  assert (Heff : effort s0 = effort s + 2) by (unfold effort, s0; simpl; rewrite sum_list_with_app; simpl; lia).
  assert (Hfine : fine (effort s0) (step_cancelled i t node cause s0)).
  { apply (end_fine s0 i t Hok0 Ht [USER_LOCK]); try done; [|by rewrite Hp]. intros tree t'.
    split_and!; try done; try (by right; left); [|by rewrite Hp; simpl; lia].
    intros pid. unfold entry_in, user_entry_in. simpl. by rewrite Hp. }
  destruct (step_cancelled i t node cause s0) as [s'| |] eqn:Hs; [|done|done].
  destruct Hfine as [Hok' _]. split; [done|]. unfold step_cancelled in Hs.
  apply step_end_effort in Hs; [|done]. rewrite Hp in Hs. simpl in Hs. lia.
Qed.

Lemma task_fine c : fine (effort s) (task_step lock_path alive i t c s).
Proof.
  assert (Htr := tree_here s i t Hok Ht). assert (Hh := held_here s i t Hok Ht).
  assert (Hflock : ∀ p, task_flock t = None → task_flock (at_phase p t) = Some (exclusive (tk_ask t)) →
    flock_free (exclusive (tk_ask t)) s = true → flock_moves s t (at_phase p t)).
  { intros p H1 H2 H3. right; right. split; [done|]. by eexists. }
  assert (Hmutex : ∀ tree p uid, task_mutex t = None →
    task_mutex (mkTask (tk_ask t) tree p) = Some (as_pid (tk_ask t), uid) →
    mutex_free (as_pid (tk_ask t), uid) s = true → mutex_moves s t (mkTask (tk_ask t) tree p)).
  { intros tree p uid H1 H2 H3. right; right. split; [done|]. by eexists. }
  unfold task_step. destruct (tk_phase t) as [| | |node|node|node| | |uid|node uid|guard|h|h|h|h|b] eqn:Hp, c; try done;
    try (by eapply cancelled_fine; [rewrite ?Hp; exact Htr|by rewrite Hp]).
  - by apply open_fine.
  - destruct (flock_free _ _) eqn:Hfree; apply same_fine; try alike Hp.
    + by eapply tree_weaken.
    + apply Hflock; [by unfold task_flock; rewrite Hp|done|done].
  - apply same_fine; alike Hp.
  - eapply (begin_fine s i t Hok Ht "machine-lock" [USER_LOCK]); try done; [by intros [? | []%elem_of_nil]%elem_of_cons| |by rewrite Hp].
    intros node tree t'. split_and!; alike Hp.
  - destruct (flock_free _ _) eqn:Hfree; [|done]. apply same_fine; try alike Hp.
    apply Hflock; [by unfold task_flock; rewrite Hp|done|done].
  - apply same_fine; alike Hp.
  - by apply given_up_fine.
  - eapply (end_fine s i t Hok Ht [USER_LOCK]); try done; [|by rewrite Hp].
    intros tree t'. split_and!; alike Hp.
  - eapply (end_fine s i t Hok Ht [USER_LOCK]); try done; [|by rewrite Hp].
    intros tree t'. split_and!; alike Hp.
  - (* the file is told who holds the lock alone *)
    destruct (exclusive (tk_ask t)) eqn:Hx.
    + apply quiet_fine; try alike Hp. right. split; [|done]. unfold task_flock. by rewrite Hp, Hx.
    + apply same_fine; try alike Hp. unfold names_it. simpl. by rewrite Hx.
  - (* the user's mutex *)
    destruct (user_uid (tk_ask t)) as [uid|] eqn:Hu; [destruct (mutex_free _ _) eqn:Hfree|];
      apply same_fine; try alike Hp; unfold names_it; simpl; rewrite ?Hp; try done.
    + by apply (Hmutex (tk_tree t) _ uid); [unfold task_mutex; rewrite Hp|..].
  - eapply (begin_fine s i t Hok Ht "user-lock" []); try done; [by intros ?%elem_of_nil| |by rewrite Hp].
    intros node tree t'. split_and!; alike Hp.
  - destruct (mutex_free _ _) eqn:Hfree; [|done].
    eapply (end_fine s i t Hok Ht []); try done; [|by rewrite Hp].
    intros tree t'. split_and!; try alike Hp. apply (Hmutex tree _ uid); [by unfold task_mutex; rewrite Hp|done..].
  - by apply register_fine.
  - by apply unregister_fine.
  - (* the file is emptied *)
    destruct (hd_exclusive h && hd_flock h) eqn:Hx.
    + apply quiet_fine; try alike Hp. right. split; [|done]. unfold task_flock. rewrite Hp.
      apply andb_true_iff in Hx as [-> ->]. done.
    + apply same_fine; alike Hp.
  - apply same_fine; alike Hp.
  - apply same_fine; alike Hp.
Qed.
End task.

(** ** Every moment *)

Section reached.
Context (lock_path : path) (alive : Z → bool).

Lemma orphan_fine s j o : sys_ok s → sy_orphans s !! j = Some o → fine (effort s) (orphan_step j o s).
Proof.
  intros Hok Hj. destruct (omap_insert_Permutation orphan_flock (sy_orphans s) j o (mkOrphan (or_exclusive o) true) Hj)
    as [Hold Hnew]. assert (Hc := so_flocks _ Hok). unfold flocks in Hc.
  unfold orphan_step. destruct (or_locked o) eqn:Hl.
  - split.
    + destruct Hok. split; try done. unfold flocks. simpl.
      rewrite Hold, Permutation_app_swap_app in Hc. by apply coexist_less in Hc.
    + assert (H := sum_delete orphan_rank _ j o Hj). unfold orphan_rank at 2 in H. rewrite Hl in H.
      unfold effort. simpl. lia.
  - destruct (flock_free _ s) eqn:Hfree; [|done]. split.
    + destruct Hok. split; try done. unfold flocks. simpl. rewrite Hnew, Permutation_app_swap_app. simpl.
      apply coexist_more. unfold flock_free, flocks in Hfree.
      assert (Hnone : orphan_flock o = None) by (unfold orphan_flock; by rewrite Hl).
      assert (Hp : omap task_flock (sy_tasks s) ++ omap orphan_flock (sy_orphans s) ≡ₚ
        omap task_flock (sy_tasks s) ++ omap orphan_flock (delete j (sy_orphans s))) by by rewrite Hold, Hnone.
      destruct (or_exclusive o); simpl in *.
      * apply bool_decide_eq_true in Hfree. rewrite Hfree in Hp. apply Permutation_nil_l in Hp.
        by apply bool_decide_eq_true.
      * rewrite forallb_forall in *. intros x Hx. apply Hfree. by rewrite Hp.
    + assert (H := sum_insert orphan_rank _ j o (mkOrphan (or_exclusive o) true) Hj).
      unfold orphan_rank at 2 4 in H. rewrite Hl in H. unfold effort. simpl in *. lia.
Qed.

Lemma step_fine m s : sys_ok s → fine (effort s) (sys_step lock_path alive m s).
Proof.
  intros Hok. destruct m as [i c|j]; simpl.
  - destruct (sy_tasks s !! i) as [t|] eqn:Ht; [|done]. by apply task_fine.
  - destruct (sy_orphans s !! j) as [o|] eqn:Hj; [|done]. by apply orphan_fine.
Qed.

(** Requests as they come in. *)
Definition incoming (l : list (Ask * Start)) : list Task := (λ e, arriving e.1 e.2) <$> l.

Lemma incoming_none {B} (f : Task → option B) l :
  (∀ a root, f (arriving a root) = None) → omap f (incoming l) = [].
Proof. intros Hf. induction l as [|[a root] l IH]; [done|]. csimpl. by rewrite Hf. Qed.

Lemma new_ok l file : sys_ok (sys_new (incoming l) file).
Proof.
  assert (Hall : ∀ P : Task → Prop, (∀ a root, P (arriving a root)) → Forall P (incoming l)).
  { intros P HP. apply Forall_fmap, Forall_forall. intros [a root] _. apply HP. }
  split; simpl.
  - apply Hall. intros a root. apply root_free_new.
  - by apply Hall.
  - unfold flocks. simpl. rewrite incoming_none by done. by intros ?%elem_of_nil.
  - rewrite incoming_none by done. constructor.
  - intros pid. unfold locks_of. simpl. rewrite lookup_empty. split; simpl.
    + by rewrite incoming_none.
    + constructor.
    + constructor.
    + intros uid h. by rewrite incoming_none, lookup_empty, elem_of_nil.
    + induction l as [|e l IH]; [done|]. simpl. unfold waiting_in at 1. simpl. rewrite andb_false_r. apply IH.
      intros P HP. apply Forall_fmap, Forall_forall. intros [a root] _. apply HP.
  - by apply Hall.
Qed.

Lemma reached_ok l file s : reached lock_path alive (sys_new (incoming l) file) s → sys_ok s.
Proof.
  induction 1 as [|s m s' _ IH Hs]; [apply new_ok|]. assert (H := step_fine m s IH). rewrite Hs in H. apply H.
Qed.

(** *** Going on *)

Definition all_open : OpenCalls := mkOpenCalls true (Ok tt) (Ok tt) (Ok tt) (Ok tt).

(** A move that is neither a stop nor a failure of the system's. *)
Definition willing (m : Move) : Prop :=
  match m with
  | Move_Task _ (Choice_Stops _ | Choice_Fails _) => False
  | Move_Task _ (Choice_Opens calls) => calls = all_open
  | _ => True
  end.

Definition ready (p : Phase) : bool :=
  match p with At_Over _ | At_MachineWait _ | At_UserWait _ _ => false | _ => true end.
Definition onward (p : Phase) : Choice := match p with At_Open => Choice_Opens all_open | _ => Choice_Go end.

Lemma or_panics_stays o : or_panics o ≠ Stays.
Proof. by destruct o. Qed.

Lemma ready_moves i t s : ready (tk_phase t) = true → task_step lock_path alive i t (onward (tk_phase t)) s ≠ Stays.
Proof.
  unfold task_step. destruct (tk_phase t); try done; intros _; simpl; try apply or_panics_stays.
  unfold step_open. simpl. destruct (decide _); [done|]. unfold open_lock. simpl.
  destruct (parent lock_path); [|done]. by rewrite andb_false_r.
Qed.

Lemma moved m s : sys_ok s → willing m → sys_step lock_path alive m s ≠ Stays →
  ∃ m s', willing m ∧ sys_step lock_path alive m s = Steps s'.
Proof.
  intros Hok Hm Hs. assert (H := step_fine m s Hok). destruct (sys_step _ _ m s) as [s'| |] eqn:He; try done.
  by exists m, s'.
Qed.

Definition over (t : Task) : Prop := match tk_phase t with At_Over _ => True | _ => False end.

Lemma find_phase (f : Phase → bool) (l : list Task) :
  (∃ i t, l !! i = Some t ∧ f (tk_phase t) = true) ∨ (∀ t, t ∈ l → f (tk_phase t) = false).
Proof.
  destruct (decide (Exists (λ t, f (tk_phase t) = true) l)) as [(t & Ht & Hf)%Exists_exists|Hn].
  - left. apply list_elem_of_lookup in Ht as [i Hi]. by exists i, t.
  - right. intros t Ht. apply not_true_is_false. intros Hf. apply Hn, Exists_exists. by exists t.
Qed.

Definition at_user_wait (p : Phase) : bool := match p with At_UserWait _ _ => true | _ => false end.
Definition at_machine_wait (p : Phase) : bool := match p with At_MachineWait _ => true | _ => false end.

(** Without a request at work, whoever waits for a user's mutex gets it. *)
Lemma user_moves i t s :
  (∀ x, x ∈ sy_tasks s → ready (tk_phase x) = false) → at_user_wait (tk_phase t) = true →
  task_step lock_path alive i t Choice_Go s ≠ Stays.
Proof.
  intros Hnr Hu. unfold task_step. destruct (tk_phase t) as [| | | | | | | | |node uid| | | | | |]; try done.
  assert (Hfree : mutex_free (as_pid (tk_ask t), uid) s = true).
  { apply bool_decide_eq_true. intros (x & Hx & Hmx)%list_elem_of_omap. specialize (Hnr x Hx).
    unfold task_mutex in Hmx. by destruct (tk_phase x). }
  rewrite Hfree. apply or_panics_stays.
Qed.

(** Without a request at work or in wait for a user, the lock is held by threads alone. *)
Lemma nobody_flocks s :
  (∀ x, x ∈ sy_tasks s → ready (tk_phase x) = false) →
  (∀ x, x ∈ sy_tasks s → at_user_wait (tk_phase x) = false) →
  omap task_flock (sy_tasks s) = [].
Proof.
  intros Hnr Hnu. apply elem_of_nil_inv. intros b (x & Hx & Hb)%list_elem_of_omap.
  specialize (Hnr x Hx). specialize (Hnu x Hx). unfold task_flock in Hb. by destruct (tk_phase x).
Qed.

Lemma orphans_move s :
  omap task_flock (sy_tasks s) = [] →
  (∃ j, sys_step lock_path alive (Move_Orphan j) s ≠ Stays) ∨ sy_orphans s = [].
Proof.
  intros Hnone. destruct (decide (Exists (λ o, or_locked o = true) (sy_orphans s))) as [(o & Ho & Hl)%Exists_exists|Hno].
  { left. apply list_elem_of_lookup in Ho as [j Hj]. exists j. simpl. rewrite Hj. unfold orphan_step. by rewrite Hl. }
  assert (Hf : flocks s = []).
  { unfold flocks. rewrite Hnone. apply elem_of_nil_inv. intros b (o & Ho & Hb)%list_elem_of_omap.
    apply Hno, Exists_exists. exists o. split; [done|]. unfold orphan_flock in Hb. by destruct (or_locked o). }
  destruct (sy_orphans s) as [|o l] eqn:Hos; [by right|]. left. exists 0%nat. simpl. rewrite Hos. simpl.
  unfold orphan_step. assert (H : flock_free (or_exclusive o) s = true) by (unfold flock_free; rewrite Hf; by destruct (or_exclusive o)).
  rewrite H. by destruct (or_locked o).
Qed.

Lemma goes_on s :
  sys_ok s →
  (∃ m s', willing m ∧ sys_step lock_path alive m s = Steps s') ∨ (Forall over (sy_tasks s) ∧ sy_orphans s = []).
Proof.
  intros Hok. destruct (find_phase ready (sy_tasks s)) as [(i & t & Hi & Hr)|Hnr].
  { left. apply (moved (Move_Task i (onward (tk_phase t)))); [done| |].
    - simpl. by destruct (tk_phase t).
    - simpl. rewrite Hi. by apply ready_moves. }
  destruct (find_phase at_user_wait (sy_tasks s)) as [(i & t & Hi & Hu)|Hnu].
  { left. apply (moved (Move_Task i Choice_Go)); [done..|]. simpl. rewrite Hi. by apply user_moves. }
  assert (Hnone := nobody_flocks s Hnr Hnu).
  destruct (orphans_move s Hnone) as [[j Hj]|Hos]; [left; by apply (moved (Move_Orphan j))|].
  destruct (find_phase at_machine_wait (sy_tasks s)) as [(i & t & Hi & Hm)|Hnm].
  { left. apply (moved (Move_Task i Choice_Go)); [done..|]. simpl. rewrite Hi. unfold task_step.
    assert (Hfree : flock_free (exclusive (tk_ask t)) s = true).
    { unfold flock_free, flocks. rewrite Hnone, Hos. by destruct (exclusive (tk_ask t)). }
    destruct (tk_phase t); try done. by rewrite Hfree. }
  right. split; [|done]. apply Forall_forall. intros t Ht.
  specialize (Hnr t Ht). specialize (Hnu t Ht). specialize (Hnm t Ht). unfold over. by destruct (tk_phase t).
Qed.

(** A task that no one stopped and nothing failed. *)
Definition unrefused (t : Task) : Prop :=
  match tk_phase t with At_MachineFailed _ | At_Over (Some _) => False | _ => True end.

Lemma begin_tasks i t key lock named p s s' :
  step_begin i t key lock named p s = Steps s' →
  ∃ node tree, sy_tasks s' = <[i:=mkTask (tk_ask t) tree (p node)]> (sy_tasks s).
Proof. unfold step_begin. destruct (start_wait _ _ _ _) as [[node tree]|]; simpl; [|done]. intros [= <-]. by exists node, tree. Qed.

Lemma end_tasks i t node ending p s s' :
  step_end i t node ending p s = Steps s' →
  ∃ tree, sy_tasks s' = <[i:=mkTask (tk_ask t) tree p]> (sy_tasks s).
Proof.
  unfold step_end. destruct (finish_wait _ _ _) as [tree|]; simpl; [|done]. unfold end_waiting.
  case_decide; [done|]. intros [= <-]. by exists tree.
Qed.

Lemma step_tasks i t c s s' :
  task_step lock_path alive i t c s = Steps s' →
  ∃ t', sy_tasks s' = <[i:=t']> (sy_tasks s) ∧ (willing (Move_Task i c) → unrefused t → unrefused t').
Proof.
  unfold task_step, unrefused, step_cancelled.
  destruct (tk_phase t) as [| | |node|node|node| | |uid|node uid|guard|h|h|h|h|b], c; simpl; try done; intros Hs;
    try (apply begin_tasks in Hs as (node' & tree & ->); by eexists);
    try (apply end_tasks in Hs as [tree ->]; by eexists).
  - unfold step_open, blocks, moves in Hs. destruct (decide _).
    + destruct (open_existing _ _) as [[]|] eqn:Ho; simplify_eq; eexists; split; try done.
      intros -> _. done.
    + destruct (open_lock _ _) eqn:Ho; simplify_eq; eexists; split; try done.
      intros -> _. unfold open_lock in Ho. simpl in Ho.
      destruct (parent lock_path); rewrite ?andb_false_r in Ho; done.
  - unfold moves in Hs. simplify_eq. destruct (flock_free _ _); by eexists.
  - unfold blocks, moves in Hs. simplify_eq. by eexists.
  - case_match; [|done]. unfold moves in Hs. simplify_eq. by eexists.
  - unfold moves in Hs. simplify_eq. by eexists.
  - unfold moves in Hs. simplify_eq. destruct (exclusive (tk_ask t)); by eexists.
  - unfold moves in Hs. simplify_eq. destruct (user_uid (tk_ask t)); [destruct (mutex_free _ _)|]; by eexists.
  - case_match; [|done]. apply end_tasks in Hs as [tree ->]. by eexists.
  - unfold step_register, moves in Hs. simplify_eq. by eexists.
  - unfold moves in Hs. simplify_eq. by eexists.
  - unfold moves in Hs. simplify_eq. destruct (_ && _); by eexists.
  - unfold moves in Hs. simplify_eq. by eexists.
  - unfold moves in Hs. simplify_eq. by eexists.
Qed.

Lemma willing_keeps m s s' i t :
  sys_step lock_path alive m s = Steps s' → willing m → sy_tasks s !! i = Some t → unrefused t →
  ∃ t', sy_tasks s' !! i = Some t' ∧ unrefused t'.
Proof.
  intros Hs Hw Ht Hu. destruct m as [j c|j]; simpl in Hs.
  - destruct (decide (j = i)) as [->|Hne].
    + rewrite Ht in Hs. destruct (step_tasks i t c s s' Hs) as (t' & -> & Hu'). exists t'.
      split; [|by apply Hu']. by rewrite list_lookup_insert_eq by by eapply lookup_lt_Some.
    + destruct (sy_tasks s !! j) as [x|] eqn:Hx; [|done].
      destruct (step_tasks j x c s s' Hs) as (x' & -> & _). exists t. by rewrite list_lookup_insert_ne.
  - destruct (sy_orphans s !! j) as [o|]; [|done]. unfold orphan_step in Hs. repeat case_match; simplify_eq; by exists t.
Qed.

(** Nothing is held, named or counted any more, and every request is over. *)
Definition at_rest (s : Sys) : Prop :=
  Forall over (sy_tasks s) ∧ flocks s = [] ∧ omap task_mutex (sy_tasks s) = [] ∧
  ∀ pid, rg_machine (lk_registry (locks_of s pid)) = [] ∧ rg_users (lk_registry (locks_of s pid)) = ∅ ∧
    lk_waiting (locks_of s pid) = 0%N.

Lemma over_none {B} (f : Task → option B) l :
  (∀ t, over t → f t = None) → Forall over l → omap f l = [].
Proof. intros Hf. induction 1 as [|t l Ht _ IH]; [done|]. csimpl. by rewrite Hf. Qed.

Lemma rests s : sys_ok s → Forall over (sy_tasks s) → sy_orphans s = [] → at_rest s.
Proof.
  intros Hok Hall Hos.
  assert (Hnone : ∀ {B} (f : Task → option B), (∀ a tree b, f (mkTask a tree (At_Over b)) = None) →
    omap f (sy_tasks s) = []).
  { intros B f Hf. apply over_none; [|done]. intros [a tree p]. unfold over. simpl. by destruct p. }
  split_and!; [done|..].
  - unfold flocks. by rewrite Hos, (Hnone _ task_flock).
  - by apply Hnone.
  - intros pid. destruct (so_registries _ Hok pid) as [Hm _ _ Hu Hw].
    rewrite (Hnone _ (entry_in pid)) in Hm by done. rewrite (Hnone _ (user_entry_in pid)) in Hu by done.
    split_and!.
    + by apply Permutation_nil_r.
    + apply map_eq. intros uid. rewrite lookup_empty. apply eq_None_not_Some. intros [h Hh%Hu].
      by apply elem_of_nil in Hh.
    + rewrite Hw. clear - Hall. induction Hall as [|[a tree p] l Ht _ IH]; [done|]. simpl.
      unfold over in Ht. simpl in Ht. unfold waiting_in at 1. simpl. destruct p; try done. by rewrite andb_false_r.
Qed.

Definition onwards (s s' : Sys) : Prop := ∃ m, willing m ∧ sys_step lock_path alive m s = Steps s'.

(** Requests that go on come to rest, and whoever was not refused has been served. *)
Lemma serves n s :
  effort s <= n → sys_ok s →
  ∃ s', rtc onwards s s' ∧ at_rest s' ∧
    ∀ i t, sy_tasks s !! i = Some t → unrefused t → ∃ t', sy_tasks s' !! i = Some t' ∧ tk_phase t' = At_Over None.
Proof.
  revert s. induction n as [n IH] using lt_wf_ind. intros s Hn Hok.
  destruct (goes_on s Hok) as [(m & s1 & Hm & Hs)|[Hall Hos]].
  - assert (Hf := step_fine m s Hok). rewrite Hs in Hf. destruct Hf as [Hok1 Hlt].
    destruct (IH (effort s1)) with (s := s1) as (s' & Hr & Hrest & Hserved); [lia..|done|].
    exists s'. split_and!; [eapply rtc_l; [by exists m|done]|done|]. intros i t Ht Hu.
    destruct (willing_keeps m s s1 i t Hs Hm Ht Hu) as (t1 & Ht1 & Hu1). by apply (Hserved i t1).
  - exists s. split_and!; [constructor|by apply rests|]. intros i t Ht Hu. exists t. split; [done|].
    assert (Ho : over t) by exact (Forall_lookup_1 _ _ _ _ Hall Ht).
    unfold over, unrefused in *. by destruct (tk_phase t) as [| | | | | | | | | | | | | | |[]].
Qed.

Lemma new_effort l file : effort (sys_new (incoming l) file) = 14 * length l.
Proof. unfold effort. simpl. induction l as [|e l IH]; [done|]. simpl in *. lia. Qed.

Lemma reached_effort l file s :
  reached lock_path alive (sys_new (incoming l) file) s → effort s <= 14 * length l.
Proof.
  induction 1 as [|s m s' Hr IH Hs]; [by rewrite new_effort|].
  assert (H := step_fine m s (reached_ok _ _ _ Hr)). rewrite Hs in H. destruct H. lia.
Qed.

(** C11. However the requests of all processes interleave, whoever is stopped and whatever call
    fails on the way: no step panics (a wait always opens and closes its node in the tree, the
    count of those who wait does not underflow); every step leaves less to do, with 14 steps a
    request at most; and from every moment, if no one else is stopped and no call fails, all come
    to rest, with no lock, mutex, registry line or count left behind, and every request not
    already refused has had its locks and given them back. *)
Theorem locks_serve l file s :
  reached lock_path alive (sys_new (incoming l) file) s →
  (∀ m, match sys_step lock_path alive m s with
        | Steps s' => effort s' < effort s | Stays => True | Panics => False end) ∧
  effort s <= 14 * length l ∧
  ∃ s', rtc onwards s s' ∧ at_rest s' ∧
    ∀ i t, sy_tasks s !! i = Some t → unrefused t → ∃ t', sy_tasks s' !! i = Some t' ∧ tk_phase t' = At_Over None.
Proof.
  intros Hr. assert (Hok := reached_ok _ _ _ Hr). split_and!.
  - intros m. assert (H := step_fine m s Hok). destruct (sys_step _ _ m s); [|done..]. apply H.
  - by apply (reached_effort l file).
  - by apply (serves (effort s)).
Qed.

(** A request that has what it asked for; a dry run may find no lock file and hold nothing. *)
Definition holding (s : Sys) (i : nat) (t : Task) (h : Held) : Prop :=
  sy_tasks s !! i = Some t ∧ tk_phase t = At_Held h.

Lemma holding_flock s i t h :
  sys_ok s → holding s i t h →
  (h = held_nothing ∧ as_need (tk_ask t) = Need_Observe) ∨
  (task_flock t = Some (exclusive (tk_ask t)) ∧ hd_flock h = true ∧
   task_mutex t = pair (as_pid (tk_ask t)) <$> user_uid (tk_ask t)).
Proof.
  intros Hok [Ht Hp]. assert (Hh := held_here s i t Hok Ht). rewrite Hp in Hh. simpl in Hh.
  destruct Hh as [?|(Hf & He & Hu & _)]; [by left|right]. unfold task_flock, task_mutex.
  by rewrite Hp, Hf, He, Hu.
Qed.

(** C10. Two requests that hold their locks at the same moment: neither needs the machine
    alone, and if both are of one process they are not for the same user, unless one of them is
    a dry run that found no lock file to observe. *)
Theorem locks_exclude l file s i j ti tj hi hj :
  reached lock_path alive (sys_new (incoming l) file) s →
  holding s i ti hi → holding s j tj hj → i ≠ j →
  (hi = held_nothing ∧ as_need (tk_ask ti) = Need_Observe) ∨
  (hj = held_nothing ∧ as_need (tk_ask tj) = Need_Observe) ∨
  (as_need (tk_ask ti) ≠ Need_Exclusive ∧ as_need (tk_ask tj) ≠ Need_Exclusive ∧
   (as_pid (tk_ask ti) = as_pid (tk_ask tj) → user_uid (tk_ask ti) = user_uid (tk_ask tj) →
    user_uid (tk_ask ti) = None)).
Proof.
  intros Hr Hi Hj Hne. assert (Hok := reached_ok _ _ _ Hr).
  destruct (holding_flock s i ti hi Hok Hi) as [?|(Hfi & _ & Hmi)]; [by left|].
  destruct (holding_flock s j tj hj Hok Hj) as [?|(Hfj & _ & Hmj)]; [by right; left|]. right; right.
  destruct Hi as [Hi _], Hj as [Hj _]. split_and!.
  - intros He. apply Hne. symmetry. apply (alone s i j ti tj (exclusive (tk_ask tj)) Hok Hi Hj); [|done].
    rewrite Hfi. unfold exclusive. by rewrite He.
  - intros He. apply Hne. apply (alone s j i tj ti (exclusive (tk_ask ti)) Hok Hj Hi); [|done].
    rewrite Hfj. unfold exclusive. by rewrite He.
  - intros Hpid Huid. destruct (user_uid (tk_ask ti)) as [uid|] eqn:Hu; [|done]. destruct Hne.
    assert (Hnd := so_mutexes _ Hok). rewrite <- Huid, <- Hpid in Hmj.
    destruct (omap_insert_Permutation task_mutex (sy_tasks s) i ti ti Hi) as [Hold _].
    rewrite Hold, Hmi in Hnd. simpl in Hnd. apply NoDup_cons in Hnd as [Hin _].
    destruct (decide (i = j)) as [|Hne]; [done|]. destruct Hin. apply list_elem_of_omap. exists tj.
    split; [by apply (elem_of_deleted _ i j)|done].
Qed.
End reached.

(** ** What the lock file says *)

Local Open Scope N_scope.

Lemma all_cons f c s : string_all f (String c s) = f c && string_all f s.
Proof. unfold string_all. simpl. by rewrite negb_orb, negb_involutive. Qed.

Lemma digit_char d : d < 10 → is_digit (pretty_N_char d) = true ∧ digit_of (pretty_N_char d) = d.
Proof.
  intros Hd. assert (d = 0 ∨ d = 1 ∨ d = 2 ∨ d = 3 ∨ d = 4 ∨ d = 5 ∨ d = 6 ∨ d = 7 ∨ d = 8 ∨ d = 9) as Hc by lia.
  by repeat destruct Hc as [->|Hc]; subst.
Qed.

Lemma decimal_go max x s : x <= max → decimal max 0 (pretty_N_go x s) = decimal max x s.
Proof.
  revert s. induction (N.lt_wf_0 x) as [x _ IH]. intros s Hx.
  assert (x = 0 ∨ 0 < x) as [->|Hpos] by lia; [by rewrite pretty_N_go_0|].
  rewrite pretty_N_go_step by done. assert (Hd := N.div_mod x 10 ltac:(done)).
  assert (Hm := N.mod_lt x 10 ltac:(done)). assert (Hlt : x `div` 10 < x) by by apply N.div_lt.
  rewrite IH by lia. cbn [decimal].
  destruct (digit_char (x `mod` 10) Hm) as [-> ->]. replace (10 * (x `div` 10) + x `mod` 10) with x by lia.
  destruct (N.ltb_spec max x); [lia|done].
Qed.

Lemma go_digits x s : string_all is_digit s = true → string_all is_digit (pretty_N_go x s) = true.
Proof.
  revert s. induction (N.lt_wf_0 x) as [x _ IH]. intros s Hs.
  assert (x = 0 ∨ 0 < x) as [->|Hpos] by lia; [by rewrite pretty_N_go_0|].
  rewrite pretty_N_go_step by done. apply IH; [by apply N.div_lt|].
  rewrite all_cons, Hs. destruct (digit_char (x `mod` 10)) as [-> _]; [by apply N.mod_lt|done].
Qed.

Lemma digits_all n : string_all is_digit (digits n) = true ∧ digits n ≠ "".
Proof.
  unfold digits, pretty, pretty_N. case_decide as Hn; [done|]. split; [by apply go_digits|].
  intros He. apply (f_equal (decimal n 0)) in He. rewrite decimal_go in He by lia. simpl in He. by simplify_eq.
Qed.

(** A process reads the id that another wrote. *)
Lemma pid_read n : n <= I32_MAX → parse_i32 (digits n) = Some (Z.of_N n).
Proof.
  intros Hn. assert (Hu : parse_uint I32_MAX (digits n) = Some n).
  { assert (Hd : decimal I32_MAX 0 (digits n) = Some n).
    { unfold digits, pretty, pretty_N. case_decide as Hz; [by subst|]. by rewrite decimal_go. }
    destruct (digits_all n) as [Hall Hne]. unfold parse_uint. destruct (digits n) as [|c s] eqn:Hs; [done|].
    rewrite all_cons in Hall. apply andb_true_iff in Hall as [Hc _].
    rewrite <- Hd. by destruct c as [[] [] [] [] [] [] [] []]. }
  destruct (digits_all n) as [Hall Hne]. unfold parse_i32. destruct (digits n) as [|c s] eqn:Hs; [done|].
  rewrite all_cons in Hall. apply andb_true_iff in Hall as [Hc _].
  rewrite Hu. by destruct c as [[] [] [] [] [] [] [] []].
Qed.

(** *** Words *)

(** A char of a word: ASCII, and to be seen. *)
Definition seen_char (c : ascii) : bool := (33 <=? byte c) && (byte c <=? 126).

(** A user or a command, as [Holder] has them. *)
Definition seen (s : string) : Prop := s ≠ "" ∧ string_all seen_char s = true.
#[export] Instance seen_dec s : Decision (seen s).
Proof. unfold seen. apply _. Defined.

Lemma digits_seen n : seen (digits n).
Proof.
  destruct (digits_all n) as [Hall Hne]. split; [done|]. revert Hall. generalize (digits n). intros s.
  induction s as [|c s IH]; [done|]. rewrite !all_cons. intros [Hc Hs]%andb_true_iff. rewrite IH by done.
  rewrite andb_true_r. unfold is_digit, seen_char in *. apply andb_true_iff in Hc as [H1%N.leb_le H2%N.leb_le].
  apply andb_true_iff; split; apply N.leb_le; lia.
Qed.

Lemma seen_range c : seen_char c = true → 33 <= byte c <= 126.
Proof. unfold seen_char. by intros [?%N.leb_le ?%N.leb_le]%andb_true_iff. Qed.

Lemma seen_not_blank c s : seen_char c = true → strip_leading (String c s) = None.
Proof.
  intros Hc%seen_range. unfold strip_leading. rewrite decide_False by lia.
  destruct s as [|b s]; [done|]. rewrite decide_False by lia. destruct s as [|d s]; [done|].
  rewrite decide_False; [done|]. intros [|[|[|]]]; simplify_eq; destruct_and?; simplify_eq; lia.
Qed.

Lemma words_seen a fuel w s :
  string_all seen_char a = true → words_from (String.length a + fuel) w (a +:+ s) = words_from fuel (w +:+ a) s.
Proof.
  revert w. induction a as [|c a IH]; intros w; [by rewrite app_empty_string, app_nil_string|].
  rewrite all_cons. intros [Hc Ha]%andb_true_iff. rewrite app_cons_string. simpl String.length.
  cbn [Nat.add words_from]. rewrite seen_not_blank by done. rewrite IH by done.
  by rewrite app_assoc_string, app_cons_string, app_empty_string.
Qed.

Lemma words_blank w fuel c s :
  w ≠ "" → c = " "%char ∨ c = "010"%char → words_from (S fuel) w (String c s) = w :: words_from fuel "" s.
Proof. intros Hw [->| ->]; cbn [words_from]; by rewrite decide_False. Qed.

Lemma text_words a b c :
  seen a → seen b → seen c → split_whitespace (a +:+ " " +:+ b +:+ " " +:+ c +:+ newline) = [a; b; c].
Proof.
  intros [Hna Ha] [Hnb Hb] [Hnc Hc]. unfold split_whitespace.
  replace (S _) with (String.length a + S (String.length b + S (String.length c + 2)))%nat
    by (rewrite !length_app_string; simpl; rewrite ?length_app_string; simpl; lia).
  rewrite words_seen, app_empty_string, app_cons_string, app_empty_string, words_blank by (done || by left).
  rewrite words_seen, app_empty_string, app_cons_string, app_empty_string, words_blank by (done || by left).
  rewrite words_seen, app_empty_string by done. unfold newline.
  by rewrite words_blank by (done || by right).
Qed.

Lemma seen_utf8 a s : string_all seen_char a = true → utf8_from 0 0 0 (a +:+ s) = utf8_from 0 0 0 s.
Proof.
  induction a as [|c a IH]; [by rewrite app_empty_string|].
  rewrite all_cons, app_cons_string. intros [Hc Ha]%andb_true_iff. cbn [utf8_from]. unfold utf8_lead.
  apply seen_range in Hc. rewrite decide_True by lia. by apply IH.
Qed.

(** A process that holds the lock alone is known to every other, by its registry or the file. *)
Lemma holder_text_read pid h alive :
  pid <= I32_MAX → alive (Z.of_N pid) = true → seen (ho_user h) → seen (ho_command h) →
  written alive (holder_text pid h) = Some h.
Proof.
  intros Hpid Halive Hu Hc. unfold written, from_utf8, holder_text.
  rewrite seen_utf8 by apply digits_seen. rewrite app_cons_string, app_empty_string.
  change (utf8_from 0 0 0 (String " " ?s)) with (utf8_from 0 0 0 s).
  rewrite seen_utf8 by apply Hu. rewrite app_cons_string, app_empty_string.
  change (utf8_from 0 0 0 (String " " ?s)) with (utf8_from 0 0 0 s).
  rewrite seen_utf8 by apply Hc. simpl.
  assert (Hw := text_words (digits pid) (ho_user h) (ho_command h) (digits_seen pid) Hu Hc).
  rewrite !app_cons_string, !app_empty_string in Hw. rewrite Hw. simpl. rewrite pid_read by done. simpl.
  rewrite Halive. by destruct h.
Qed.

Lemma machine_named s i t alive pid :
  sys_ok s → sy_tasks s !! i = Some t → names_it t = true →
  as_pid (tk_ask t) <= I32_MAX → alive (Z.of_N (as_pid (tk_ask t))) = true →
  seen (ho_user (as_holder (tk_ask t))) → seen (ho_command (as_holder (tk_ask t))) →
  named_machine_holder alive pid s = Some (as_holder (tk_ask t)).
Proof.
  intros Hok Ht Hn Hpid Halive Hu Hc. unfold named_machine_holder.
  assert (Hm := ro_machine _ _ _ (so_registries _ Hok pid)).
  destruct (rg_machine _) as [|[ticket h] l].
  - assert (Hf : sy_file s = holder_text (as_pid (tk_ask t)) (as_holder (tk_ask t)))
      by exact (Forall_lookup_1 _ _ _ _ (so_file _ Hok) Ht Hn).
    rewrite Hf. by apply holder_text_read.
  - assert (Hin : (ticket, h) ∈ omap (entry_in pid) (sy_tasks s)) by (rewrite <- Hm; left).
    apply list_elem_of_omap in Hin as (x & [j Hx]%list_elem_of_lookup & He).
    assert (Hfx : ∃ b, task_flock x = Some b).
    { unfold entry_in, task_flock in *. destruct (tk_phase x); try done. case_match eqn:Hb; [|done].
      apply andb_true_iff in Hb as [_ ->]. by eexists. }
    destruct Hfx as [b Hfx]. assert (j = i) by by apply (alone s i j t x b Hok Ht Hx (names_flock _ Hn)).
    simplify_eq. unfold entry_in in He. destruct (tk_phase t); try done. case_match; [|done]. by simplify_eq.
Qed.

(** C12. While a request holds the machine alone, and from when it has written the lock file,
    every process that asks who has the machine is told that request's user and command: its
    own process by its registry, another by what the file says. *)
Theorem holder_named lock_path alive l file s i t pid :
  reached lock_path alive (sys_new (incoming l) file) s →
  sy_tasks s !! i = Some t → names_it t = true →
  as_pid (tk_ask t) <= I32_MAX → alive (Z.of_N (as_pid (tk_ask t))) = true →
  seen (ho_user (as_holder (tk_ask t))) → seen (ho_command (as_holder (tk_ask t))) →
  named_machine_holder alive pid s = Some (as_holder (tk_ask t)).
Proof. intros Hr. apply machine_named. by apply (reached_ok _ _ _ _ _ Hr). Qed.

(** *** Three requests *)

Section example.
Context (lock_path : path) (alive : Z → bool).

Fixpoint run (ms : list Move) (s : Sys) : option Sys :=
  match ms with
  | [] => Some s
  | m :: ms => match sys_step lock_path alive m s with Steps s => run ms s | _ => None end
  end.

Lemma run_reached ms s0 s s' : run ms s = Some s' → reached lock_path alive s0 s → reached lock_path alive s0 s'.
Proof.
  revert s. induction ms as [|m ms IH]; intros s; simpl; [by intros [= ->]|].
  destruct (sys_step _ _ m s) as [s1| |] eqn:Hs; [|done..]. intros Hr H. apply (IH s1); [done|].
  by apply (reached_step _ _ _ s m).
Qed.
End example.

Definition a_lock : path := [RootDir; Normal "run"; Normal "mix"; Normal "lock"].
Definition a_start : Start := start_new "command" (Kind_Plan "plan").
Definition ask_repair : Ask := mkAsk 7 (mkHolder "alice" "repair") Need_Exclusive (Some 1000).
Definition ask_install : Ask := mkAsk 8 (mkHolder "bob" "install") Need_SharedForUser (Some 1001).
Definition ask_update : Ask := mkAsk 8 (mkHolder "carol" "update") Need_SharedForUser (Some 1002).
Definition three : list (Ask * Start) := [(ask_repair, a_start); (ask_install, a_start); (ask_update, a_start)].
Definition everyone (pid : Z) : bool := true.

Definition goes (i k : nat) : list Move := repeat (Move_Task i Choice_Go) k.
Definition opens (i : nat) : Move := Move_Task i (Choice_Opens all_open).

(** The repair has the machine, an installation waits for it and is stopped, an update waits. *)
Definition repair_first : list Move :=
  opens 0 :: goes 0 4 ++ opens 1 :: goes 1 2 ++ opens 2 :: goes 2 2 ++ [Move_Task 1 (Choice_Stops None)].
(** The two that share it have it. *)
Definition two_share : list Move := opens 1 :: goes 1 4 ++ opens 2 :: goes 2 4.

Definition after (ms : list Move) : Sys :=
  default (sys_new [] "") (run a_lock everyone ms (sys_new (incoming three) "")).

Lemma after_reached ms :
  run a_lock everyone ms (sys_new (incoming three) "") = Some (after ms) →
  reached a_lock everyone (sys_new (incoming three) "") (after ms).
Proof. intros Hr. eapply run_reached; [exact Hr|constructor]. Qed.

Definition task_of (ms : list Move) (i : nat) : Task := default (arriving ask_repair a_start) (sy_tasks (after ms) !! i).
Definition held_of (ms : list Move) (i : nat) : Held :=
  match tk_phase (task_of ms i) with At_Held h => h | _ => held_nothing end.

Lemma locks_serve_witness :
  flocks (after repair_first) = [true] ∧ length (sy_orphans (after repair_first)) = 1%nat ∧
  ∃ s', rtc (onwards a_lock everyone) (after repair_first) s' ∧ at_rest s' ∧
    ∃ t', sy_tasks s' !! 2%nat = Some t' ∧ tk_phase t' = At_Over None.
Proof.
  split; [by vm_compute|]. split; [by vm_compute|].
  destruct (locks_serve a_lock everyone three "" (after repair_first)) as (_ & _ & s' & Hr & Hrest & Hs).
  { apply after_reached. by vm_compute. }
  exists s'. split_and!; [done|done|]. apply (Hs 2%nat (task_of repair_first 2)); by vm_compute.
Defined.

Lemma locks_exclude_witness :
  holding (after two_share) 1 (task_of two_share 1) (held_of two_share 1) ∧
  holding (after two_share) 2 (task_of two_share 2) (held_of two_share 2) ∧
  (as_need ask_install ≠ Need_Exclusive ∧ as_need ask_update ≠ Need_Exclusive).
Proof.
  assert (H1 : holding (after two_share) 1 (task_of two_share 1) (held_of two_share 1)) by (split; vm_compute; reflexivity).
  assert (H2 : holding (after two_share) 2 (task_of two_share 2) (held_of two_share 2)) by (split; vm_compute; reflexivity).
  split_and!; [exact H1|exact H2|..];
    destruct (locks_exclude a_lock everyone three "" (after two_share) 1 2 (task_of two_share 1)
      (task_of two_share 2) (held_of two_share 1) (held_of two_share 2)) as [[_ H]|[[_ H]|(Hi & Hj & _)]];
    first [by apply after_reached; vm_compute|exact H1|exact H2|done|by vm_compute in H|exact Hi|exact Hj].
Defined.

Lemma holder_named_witness :
  named_machine_holder everyone 8 (after repair_first) = Some (mkHolder "alice" "repair").
Proof.
  apply (holder_named a_lock everyone three "" (after repair_first) 0 (task_of repair_first 0) 8);
    first [by apply after_reached; vm_compute|by vm_compute|by apply (bool_decide_unpack _); vm_compute].
Defined.
