(* ===== verification/Explain.v ===== *)
(** * What a code means

    What [mix explain] says of a failure's code ([crates/explain/src/codes/mod.rs]): the texts,
    and the page made of them.  The list of all codes, which is cut to the width of a terminal,
    is not modelled. *)
From S2P Require Import Prelude.
From S2P Require Import Events.
From S2P Require Import Diagnose.

Record Explanation := mkExplanation { ex_description : string; ex_why : string; ex_fix : list string }.

Definition explanation (code : Code) : Explanation :=
  match code with
  | Code_Unspecified =>
      mkExplanation
        "A failure arrived without a code."
        "Every failure `mix` reports carries a code, so one without a code is a bug in `mix`."
        ["report it at https://github.com/recregt/mix/issues with the output of the command run with `-v`"]
  | Code_Internal =>
      mkExplanation
        "Something went wrong inside `mix` itself."
        "A task panicked, or two parts of `mix` disagreed about the protocol between them. Nothing on your system caused it."
        ["report it at https://github.com/recregt/mix/issues with the output of the command run with `-v`"]
  | Code_Io =>
      mkExplanation
        "Reading or writing a file failed for a reason other than permissions."
        "Common causes are a missing directory, a full disk, or a read-only filesystem."
        ["run the command again with `-v` to see what failed"]
  | Code_PermissionDenied =>
      mkExplanation
        "`mix` was not allowed to use a file or directory."
        "Usually something under your home directory is owned by another user, often root after a command was run with sudo."
        ["check who owns the path named in the message";
         "make it yours again with `chown`";
         "run the command again"]
  | Code_CommandFailed =>
      mkExplanation
        "A program `mix` ran, such as `nix` or `git`, exited with an error."
        "The program's own output says why, and `mix` keeps it under `Caused by`."
        ["run the command again with `-v` to see the program's own output"]
  | Code_SpawnFailed =>
      mkExplanation
        "`mix` could not start a program it needs, such as `nix`."
        "The program is missing, or it is not executable."
        ["run `mix doctor` to see whether the runtime is installed"]
  | Code_LockMissing =>
      mkExplanation
        "`mix` has not been set up on this machine."
        "The lock file `mix` uses to keep commands apart does not exist yet."
        ["run `mix bootstrap`"]
  | Code_Conflict =>
      mkExplanation
        "A file or account changed while `mix` was working on it."
        "`mix` left it as it found it instead of overwriting someone else's change."
        ["run the command again to start from what is there now"]
  | Code_UnitFailed =>
      mkExplanation
        "A unit `mix` manages could not be started, stopped, enabled or reloaded."
        "The unit is usually `nix-daemon`, and the message names it. Its own log says why it failed."
        ["see why with `journalctl -u <unit>`";
         "run the command again"]
  | Code_SystemdUnreachable =>
      mkExplanation
        "`mix` could not reach systemd."
        "`mix` talks to systemd over the system bus, and nothing answered there."
        ["check that D-Bus is running with `systemctl status dbus`";
         "run the command again"]
  | Code_JournalUnwritable =>
      mkExplanation
        "`mix` could not record its progress."
        "`mix` writes down each change before making it, so an interrupted command can be finished or undone later. Writing that record failed, usually because `/var/lib/mix` is full or read-only. The command itself went on, but if it is interrupted before it ends, `mix repair` may not be able to finish it."
        ["make room in `/var/lib/mix`, or make it writable"]
  | Code_CleanupIncomplete =>
      mkExplanation
        "`mix` could not clean up after a step that did not finish."
        "Something `mix` set up for the step could not be removed afterwards."
        ["run `mix doctor` to see what is left";
         "run `mix repair` to put back what it can"]
  | Code_InterruptedRequest =>
      mkExplanation
        "An earlier request was interrupted and has not been finished or undone yet."
        "`mix` finishes or undoes an interrupted request before it changes anything else, so the packages shown now may change once that happens."
        ["run `mix repair` to finish or undo it now"]
  | Code_Network =>
      mkExplanation
        "A download failed."
        "The Nix runtime, a package, or the newest versions of your packages could not be fetched."
        ["check your internet connection, or the mirror given with `--mirror`";
         "run the command again"]
  | Code_Integrity =>
      mkExplanation
        "A downloaded file did not match the checksum `mix` has pinned for it."
        "It was damaged in transit, or the mirror serves the wrong file. It was thrown away unused."
        ["run the command again to download it again"]
  | Code_UnsupportedTarget =>
      mkExplanation
        "`mix` does not support this system's architecture or operating system."
        "`mix` runs on 64-bit Intel, AMD and ARM Linux."
        []
  | Code_Decompression =>
      mkExplanation
        "A downloaded archive could not be unpacked."
        "It was probably damaged in transit."
        ["run the command again to download it again"]
  | Code_MalformedArchive =>
      mkExplanation
        "A downloaded archive is not laid out the way the Nix runtime is."
        "The archive unpacked, but its contents are not what `mix` installs. This usually means the mirror serves a different file."
        ["check that the mirror given with `--mirror` serves the official Nix release"]
  | Code_NotRoot =>
      mkExplanation
        "Setting up `mix` needs administrator rights."
        "Setting up changes the whole system: it creates `/nix`, build users and a system service."
        ["run `mix bootstrap` with sudo"]
  | Code_UnsupportedHost =>
      mkExplanation
        "This system is NixOS."
        "NixOS manages packages with Nix natively. `mix` exists to bring that to other distributions, so it has nothing to do here."
        []
  | Code_UnsupportedKernel =>
      mkExplanation
        "This system is WSL 1, and `mix` needs WSL 2."
        "Nix builds packages in a sandbox that needs a real Linux kernel. WSL 1 translates system calls instead of running one, so it cannot host Nix."
        ["upgrade the distro from Windows PowerShell with `wsl --set-version <distro> 2`"]
  | Code_SystemdNotReady =>
      mkExplanation
        "This system does not run systemd as its init system."
        "`mix` runs the Nix daemon as a systemd service."
        ["turn systemd on: on WSL, add `systemd=true` under `[boot]` in `/etc/wsl.conf` and restart the distro";
         "run the command again"]
  | Code_AlreadyManaged =>
      mkExplanation
        "Nix is already installed here by something other than `mix`."
        "`mix` needs to own its installation. Replacing or uninstalling the existing one removes everything installed with it. `mix bootstrap --force` replaces it, and puts it back if setting up fails."
        ["uninstall the existing Nix, then run the command again";
         "run `mix bootstrap --force` to replace it instead"]
  | Code_CrossDeviceStore =>
      mkExplanation
        "`/nix/store` is a separate mount from `/nix`."
        "`mix` moves the runtime into the store by renaming, which cannot cross filesystems."
        ["remove the separate mount for `/nix/store`";
         "run the command again"]
  | Code_RollbackIncomplete =>
      mkExplanation
        "The command failed, and undoing its changes failed too."
        "Some of the changes the command had already made are still in place."
        ["run `mix doctor` to see what is left";
         "run `mix repair` to put back what it can"]
  | Code_InvalidMirror =>
      mkExplanation
        "The mirror settings are not usable."
        "`--mirror` must be an http or https URL, and `--mirror-key` a single `<name>:<key>` entry."
        ["pass the settings in that form";
         "run the command again"]
  | Code_GitRecordFailed =>
      mkExplanation
        "The change was made, but recording it in git failed."
        "`mix` keeps your package list in a git repository so every change can be seen and undone. Committing fails most often because `git` is missing or the repository belongs to another user."
        ["run `mix repair` to record it"]
  | Code_UnknownPackage =>
      mkExplanation
        "The package list names a package that does not exist."
        "The package collection `mix` installs from has nothing by that name. Usually the name is misspelt, or the package goes by another name."
        ["check the name";
         "run the command again"]
  | Code_PackageCollision =>
      mkExplanation
        "Two packages contain a file at the same path, and nothing was changed."
        "Your profile links the files of every package you install into one place, so two packages cannot both provide the same file. This often happens with two versions of the same program. Nix's own words, with both files, are under `Caused by`."
        ["install only one of the two packages";
         "remove the one already installed with `mix remove`, then run the command again"]
  | Code_BuildFailed =>
      mkExplanation
        "A package could not be built from source, and nothing was changed."
        "The build's own output is under `Caused by`. A package that fails to build here usually fails for everyone."
        ["run the command again with `-vv` to see the whole build";
         "use a different version or package"]
  | Code_DiskFull =>
      mkExplanation
        "The disk that holds the Nix store ran out of space."
        "Nix needs room to download, unpack and build packages. It stopped when the disk filled up, and `mix` put back what it had changed. Nix's own words are under `Caused by`."
        ["make room on the disk, for example with `mix clean --all`";
         "run the command again"]
  | Code_NoInodes =>
      mkExplanation
        "The disk that holds the Nix store has no free inodes left."
        "Every file needs an inode, and the file system has a fixed number of them. Nix stopped when they ran out, even though there may still be free space, and `mix` put back what it had changed. `df -i` shows how many are in use. Nix's own words are under `Caused by`."
        ["remove files from the disk, for example with `mix clean --all`";
         "run the command again"]
  | Code_OutOfMemory =>
      mkExplanation
        "The build ran out of memory, and the kernel stopped it."
        "Reading the package set and building packages can take a lot of memory. When it ran out, the kernel stopped Nix and `mix` put back what it had changed. `journalctl -k` shows the kernel's record of it."
        ["make more memory available, for example by closing other programs or adding swap";
         "run the command again"]
  | Code_UpdateUnavailable =>
      mkExplanation
        "`mix` cannot update from here."
        "This machine fetches from a mirror, which holds exactly the versions that your copy of `mix` was released with. Newer versions are not on it."
        ["update `mix` to get newer packages"]
  | Code_NotBootstrapped =>
      mkExplanation
        "`mix` has not been set up for your user on this machine."
        "Each user needs their own setup before `mix` can manage their packages."
        ["run `mix bootstrap`"]
  | Code_RootNotAllowed =>
      mkExplanation
        "Commands that work on your packages cannot run as root."
        "These commands use your own profile, so they run as you."
        ["run the command again without sudo"]
  | Code_InvalidPackage =>
      mkExplanation
        "A package name is not a plain Nix identifier."
        "A name such as `ripgrep` or `python3` cannot change the configuration it is written into, and anything else could."
        ["use the package's plain name"]
  | Code_InvalidState =>
      mkExplanation
        "The package list `mix` would write is not valid."
        "`mix` checks what it writes, and this list failed the check. This is a bug in `mix`."
        ["report it at https://github.com/recregt/mix/issues with the output of the command run with `-v`"]
  | Code_NewerState =>
      mkExplanation
        "Your package list was written by a newer version of `mix`."
        "This version leaves it alone instead of misreading it."
        ["update `mix`"]
  | Code_ProtectedPackage =>
      mkExplanation
        "`mix` needs this package to work."
        "Some packages, such as `git`, which records every change to your configuration, cannot be removed."
        []
  | Code_Unrepairable =>
      mkExplanation
        "`mix repair` found something it will not change on its own."
        "It is something in the way that it would have to delete, a user that no longer exists, or a missing Nix runtime. The message says which."
        ["use the help under the message"]
  | Code_PrivilegesUnavailable =>
      mkExplanation
        "`mix` could not get administrator rights."
        "The command needs them, and `mix` asks for them through sudo. sudo could not be started, or it refused."
        ["make sure your account can use sudo";
         "run the command again"]
  | Code_WorkerEnded =>
      mkExplanation
        "The privileged helper stopped before it answered."
        "`mix` starts a helper with administrator rights for this command. The next command finishes or undoes whatever it had started."
        ["run the command again to finish"]
  | Code_Usage =>
      mkExplanation
        "The command line was not one `mix` understands."
        "A subcommand, flag or value was misspelled, missing, or given where it does not belong."
        ["run `mix help` to see the commands and their flags"]
  | Code_DaemonUnavailable =>
      mkExplanation
        "The `mix` daemon did not answer."
        "After `mix bootstrap`, every command is carried out by `mix-daemon`, which systemd starts when a command connects. It was not listening, or it stopped before it answered: its units were stopped, it failed to start too often in a row, or its program is damaged. Nothing was changed."
        ["run `mix bootstrap` to start it again, which needs sudo";
         "make sure an administrator runs it if you cannot use sudo"]
  | Code_DaemonOutdated =>
      mkExplanation
        "The running `mix` daemon is older than the `mix` that sent the request."
        "The daemon does the work for every command after `mix bootstrap`, and it was installed by an earlier `mix`. A request can carry settings an older daemon does not know, such as `--dry-run`, and an older daemon would carry the request out without them. So `mix` refused to send it, and nothing was changed."
        ["run `mix bootstrap` to install the daemon that matches this `mix`"]
  | Code_ConfirmationRequired =>
      mkExplanation
        "The command needs a confirmation."
        "`mix user remove` deletes your mix state, and `mix purge` deletes mix, Nix and every user's mix state, so both ask before they start. There was no terminal to ask on and `--yes` was not given, so nothing was changed."
        ["run it with `--dry-run` to see what it would delete";
         "run it again with `--yes` to confirm"]
  | Code_DaemonVersionMismatch =>
      mkExplanation
        "The `mix` daemon is a different version than the `mix` that sent the request."
        "`mix bootstrap` copies the daemon into `/var/lib/mix/bin`, and replacing `mix` with a newer or older release, as the install script does, leaves that copy as it was. The two must be the same version, so the request was refused and nothing was changed."
        ["run `mix bootstrap` to install the daemon that matches this `mix`"]
  | Code_VersionMismatch =>
      mkExplanation
        "The privileged helper is a different version of `mix` than the command that started it."
        "`mix` starts its helper with administrator rights from its own program file. That file was replaced, usually by an update, between the command starting and the helper starting. The two must be the same version, so the helper refused the request before changing anything."
        ["run the command again"]
  end.

(** [str::strip_suffix] of one byte, and of the full stop of a sentence. *)
Fixpoint without_last (c : ascii) (s : string) : option string :=
  match s with
  | "" => None
  | String a "" => if Ascii.eqb a c then Some "" else None
  | String a s => String a <$> without_last c s
  end.
Definition without_stop (sentence : string) : string := default sentence (without_last "." sentence).

(** What a code's problem is called. *)
Definition code_title (code : Code) : string := without_stop (ex_description (explanation code)).

Definition explanation_text (code : Code) : string :=
  let e := explanation code in
  let out := code_name code +:+ newline +:+ newline +:+ ex_description e +:+ newline +:+ newline +:+ ex_why e in
  match ex_fix e with
  | [] => out
  | fixes =>
      foldl (λ out step, out +:+ newline +:+ "  - " +:+ step)
        (out +:+ newline +:+ newline +:+ "To fix it:") fixes
  end.

(** Every description is a sentence, and no two codes share one. *)
Definition described (code : Code) : bool :=
  bool_decide (ex_description (explanation code) = code_title code +:+ ".") &&
  bool_decide (code_title code ≠ "") && bool_decide (ex_why (explanation code) ≠ "").

Lemma explained code :
  ex_description (explanation code) = code_title code +:+ "." ∧ code_title code ≠ "" ∧
  ex_why (explanation code) ≠ "".
Proof.
  assert (Hall : forallb described CODES = true) by (vm_compute; reflexivity).
  rewrite forallb_forall in Hall. specialize (Hall code). unfold described in Hall.
  rewrite !andb_true_iff, !bool_decide_eq_true in Hall.
  destruct Hall as [[? ?] ?]; [apply list_elem_of_In, codes_all|done].
Qed.

Lemma titles_differ c d : code_title c = code_title d → c = d.
Proof.
  intros Heq. assert (Hd : NoDup (code_title <$> CODES)).
  { apply (bool_decide_unpack _). vm_compute. exact I. }
  assert (Hc := codes_all c). assert (Hc' := codes_all d).
  apply list_elem_of_lookup in Hc as [i Hi], Hc' as [j Hj].
  assert (i = j); [|by simplify_eq].
  apply (NoDup_lookup _ i j (code_title c) Hd); rewrite list_lookup_fmap; [by rewrite Hi|by rewrite Hj, Heq].
Qed.
