(* ===== verification/Document.v ===== *)
(** * The document a request ends in

    [crates/render/src/document/mod.rs]: what [--json] prints of a request is put together of
    the events of its stream, one at a time, and is complete when the root finishes.

    [None] is a panic, or a walk up the nodes that never ends.  A oneof of details is the one
    of a diagnostic, whose messages it has.  [repair_reports] is the decoding of a result. *)
From S2P Require Import Prelude.
From S2P Require Import Effect.
From S2P Require Import Events.
From S2P Require Import Diagnose.
From S2P Require Import Explain.

Local Open Scope N_scope.

(** ** Fields of messages *)

Definition Cancellation_field (n : Z) : Cancellation :=
  match n with
  | 1 => Cancellation_Interrupted | 2 => Cancellation_Terminated | 3 => Cancellation_ClientGone
  | _ => Cancellation_Unspecified
  end%Z.

Definition Severity_field (n : Z) : Severity :=
  match n with 1 => Severity_Error | 2 => Severity_Warning | _ => Severity_Unspecified end%Z.
#[export] Instance Severity_eq_dec : EqDecision Severity.
Proof. solve_decision. Defined.

(** ** The document ([result.proto]) *)

Inductive ChangeAction := Change_Create | Change_Update | Change_Delete.

Record StepResult := mkStepResult {
  st_key : string; st_verb : Verb; st_subject : string; st_status : Z; st_undone : bool }.

Record Change := mkChange {
  cg_step : string; cg_action : ChangeAction; cg_operation : Operation; cg_subject : string;
  cg_status : Z; cg_undone : bool; cg_unknown : list string }.

Inductive Problem := mkProblem {
  pb_type : string; pb_code : Z; pb_title : string; pb_detail : string; pb_subject : string;
  pb_help : list string; pb_causes : list Problem; pb_metadata : option DiagnosticDetail }.

Record LockWait := mkLockWait { lw_lock : string; lw_holder : option string; lw_command : option string }.

(** The [result] oneof. *)
Inductive Outcome :=
  | Outcome_Bootstrap (encoded : bytes) | Outcome_Install (encoded : bytes)
  | Outcome_Remove (encoded : bytes) | Outcome_Repair (encoded : bytes)
  | Outcome_Doctor (encoded : bytes) | Outcome_Clean (encoded : bytes)
  | Outcome_Explain (encoded : bytes) | Outcome_List (encoded : bytes)
  | Outcome_Update (encoded : bytes) | Outcome_UserRemove (encoded : bytes)
  | Outcome_Purge (encoded : bytes).

Record Document := mkDocument {
  dc_format_version : string; dc_request : string; dc_command : string; dc_dry_run : bool;
  dc_status : Z; dc_exit : N; dc_cancellation : option Z; dc_result : option Outcome;
  dc_changes : list Change; dc_problems : list Problem; dc_warnings : list Problem;
  dc_steps : list StepResult; dc_waits : list LockWait }.

Definition document_default : Document := mkDocument "" "" "" false 0 0 None None [] [] [] [] [].

Definition set_request (x : string) (d : Document) : Document :=
  mkDocument (dc_format_version d) x (dc_command d) (dc_dry_run d) (dc_status d) (dc_exit d)
    (dc_cancellation d) (dc_result d) (dc_changes d) (dc_problems d) (dc_warnings d) (dc_steps d) (dc_waits d).
Definition set_command (x : string) (dry : bool) (d : Document) : Document :=
  mkDocument (dc_format_version d) (dc_request d) x dry (dc_status d) (dc_exit d)
    (dc_cancellation d) (dc_result d) (dc_changes d) (dc_problems d) (dc_warnings d) (dc_steps d) (dc_waits d).
Definition set_changes (x : list Change) (d : Document) : Document :=
  mkDocument (dc_format_version d) (dc_request d) (dc_command d) (dc_dry_run d) (dc_status d) (dc_exit d)
    (dc_cancellation d) (dc_result d) x (dc_problems d) (dc_warnings d) (dc_steps d) (dc_waits d).
Definition set_warnings (x : list Problem) (d : Document) : Document :=
  mkDocument (dc_format_version d) (dc_request d) (dc_command d) (dc_dry_run d) (dc_status d) (dc_exit d)
    (dc_cancellation d) (dc_result d) (dc_changes d) (dc_problems d) x (dc_steps d) (dc_waits d).
Definition set_steps (x : list StepResult) (d : Document) : Document :=
  mkDocument (dc_format_version d) (dc_request d) (dc_command d) (dc_dry_run d) (dc_status d) (dc_exit d)
    (dc_cancellation d) (dc_result d) (dc_changes d) (dc_problems d) (dc_warnings d) x (dc_waits d).
Definition set_waits (x : list LockWait) (d : Document) : Document :=
  mkDocument (dc_format_version d) (dc_request d) (dc_command d) (dc_dry_run d) (dc_status d) (dc_exit d)
    (dc_cancellation d) (dc_result d) (dc_changes d) (dc_problems d) (dc_warnings d) (dc_steps d) x.

(** ** What is made of one message *)

Definition result_of (found : NodeResult) : option Outcome :=
  match found with
  | Result_Bootstrap found => Some (Outcome_Bootstrap found)
  | Result_Install found => Some (Outcome_Install found)
  | Result_Remove found => Some (Outcome_Remove found)
  | Result_Repair found => Some (Outcome_Repair found)
  | Result_Doctor found => Some (Outcome_Doctor found)
  | Result_Clean found => Some (Outcome_Clean found)
  | Result_Explain found => Some (Outcome_Explain found)
  | Result_List found => Some (Outcome_List found)
  | Result_Update found => Some (Outcome_Update found)
  | Result_UserRemove found => Some (Outcome_UserRemove found)
  | Result_Purge found => Some (Outcome_Purge found)
  | Result_Inspection _ | Result_Process _ => None
  end.

Definition known_after (operation : Operation) : list string :=
  match operation with
  | Operation_ActivateProfile => ["generation"; "build"]
  | Operation_InstallRuntime => ["contents"]
  | Operation_CollectGarbage => ["freed"]
  | Operation_CreateRepository | Operation_RecordState => ["commit"]
  | _ => []
  end.

Definition change_action (operation : Operation) : option ChangeAction :=
  match operation with
  | Operation_CreateDir | Operation_CreateDirs | Operation_CopyTree | Operation_AddGroup
  | Operation_AddUser | Operation_AddMember | Operation_InstallRuntime
  | Operation_CreateRepository => Some Change_Create
  | Operation_RemoveCreated | Operation_RemoveCreatedTree | Operation_SetAside
  | Operation_Discard | Operation_DeleteGroup | Operation_DeleteUser | Operation_RemoveMember
  | Operation_RemoveRuntime | Operation_DeleteGeneration | Operation_CollectGarbage =>
      Some Change_Delete
  | Operation_PutFile | Operation_SetMode | Operation_SetOwner | Operation_Restore
  | Operation_Keep | Operation_ReclaimTree | Operation_SetGroupGid | Operation_SetUserIds
  | Operation_InstallUnit | Operation_EnableUnit | Operation_DisableUnit | Operation_StartUnit
  | Operation_StopUnit | Operation_RestartUnit | Operation_DrainService
  | Operation_DaemonReload | Operation_ActivateProfile | Operation_SwitchGeneration
  | Operation_ApplyGeneration | Operation_RecordState => Some Change_Update
  | Operation_Commit | Operation_Unspecified => None
  end.

(** What a problem is about. *)
Definition subject_of (detail : option DiagnosticDetail) : string :=
  match detail with
  | Some (Detail_Io at_ _) => at_
  | Some (Detail_Command command _ _) => command
  | Some (Detail_Network url) => url
  | Some (Detail_Integrity artifact _ _) => artifact
  | Some (Detail_Path at_) => at_
  | Some (Detail_Packages packages) => join ", " packages
  | Some (Detail_Unrepairable artifact _) => artifact
  | Some (Detail_Lock at_ _) => at_
  | Some (Detail_Conflict subject _ _) => subject
  | Some (Detail_Unit _ unit _) => unit
  | Some (Detail_Target _ _ | Detail_Host _ _ | Detail_Format _ | Detail_Steps _) | None => ""
  end.

Fixpoint problem_of (found : Diagnostic) : Problem :=
  let code := Code_field (dg_code found) in
  mkProblem ("urn:mix:problem:" +:+ code_kebab code) (Code_i32 code) (code_title code)
    (dg_message found) (subject_of (dg_detail found)) (ex_fix (explanation code))
    (map problem_of (dg_causes found)) (dg_detail found).

Definition with_subject (subject : string) (p : Problem) : Problem :=
  mkProblem (pb_type p) (pb_code p) (pb_title p) (pb_detail p) subject (pb_help p) (pb_causes p) (pb_metadata p).

(** ** The builder *)

Inductive Node := Node_Step (key : string) | Node_Rollback (undoes : N) | Node_Other.

Record Builder := mkBuilder {
  bd_document : Document; bd_nodes : gmap N (N * Node); bd_changes : gmap N nat;
  bd_steps : gmap N nat; bd_rolled_back : list N }.
Definition builder_default : Builder := mkBuilder document_default ∅ ∅ ∅ [].

Definition set_document (x : Document) (b : Builder) : Builder :=
  mkBuilder x (bd_nodes b) (bd_changes b) (bd_steps b) (bd_rolled_back b).
Definition add_node (id : N) (x : N * Node) (b : Builder) : Builder :=
  mkBuilder (bd_document b) (<[id := x]> (bd_nodes b)) (bd_changes b) (bd_steps b) (bd_rolled_back b).

(** The loop of [Builder::action]: the key of the step a node is under, if it is under one.  A
    walk of more turns than there are nodes never ends. *)
Fixpoint find_step (fuel : nat) (nodes : gmap N (N * Node)) (at_ : N) : option (option string) :=
  match fuel with
  | O => None
  | S fuel =>
      match nodes !! at_ with
      | Some (_, Node_Rollback _) => Some None
      | Some (_, Node_Step key) => Some (Some key)
      | Some (up, Node_Other) => if decide (up = at_) then Some None else find_step fuel nodes up
      | None => Some None
      end
  end.

(** [Builder::action]. *)
Definition builder_action (id parent : N) (operation : Operation) (subject : string) (b : Builder)
    : option Builder :=
  step ← find_step (S (size (bd_nodes b))) (bd_nodes b) parent;
  match step, change_action operation with
  | Some key, Some kind =>
      let d := bd_document b in
      let unknown := if dc_dry_run d then known_after operation else [] in
      Some (mkBuilder
        (set_changes (dc_changes d ++
           [mkChange key kind operation subject (Status_i32 Status_Unspecified) false unknown]) d)
        (bd_nodes b) (<[id := length (dc_changes d)]> (bd_changes b)) (bd_steps b) (bd_rolled_back b))
  | _, _ => Some b
  end.

(** The arm of a node that starts. *)
Definition builder_started (started : NodeStarted) (b : Builder) : option Builder :=
  let id := ns_id started in
  let d := bd_document b in
  '(node, b) ←
    match ns_kind started with
    | Some (Kind_Command command) =>
        Some (Node_Other, set_document (set_command (key_of (request_of command)) (dry_run command) d) b)
    | Some (Kind_Step verb subject) =>
        let step := mkStepResult (ns_key started) verb subject (Status_i32 Status_Unspecified) false in
        Some (Node_Step (ns_key started),
              mkBuilder (set_steps (dc_steps d ++ [step]) d) (bd_nodes b) (bd_changes b)
                (<[id := length (dc_steps d)]> (bd_steps b)) (bd_rolled_back b))
    | Some (Kind_LockWait lock holder command) =>
        Some (Node_Other, set_document (set_waits (dc_waits d ++ [mkLockWait lock holder command]) d) b)
    | Some (Kind_Rollback undoes) => Some (Node_Rollback undoes, b)
    | Some (Kind_Action operation subject) =>
        b ← builder_action id (ns_parent started) operation subject b;
        Some (Node_Other, b)
    | _ => Some (Node_Other, b)
    end;
  Some (add_node id (ns_parent started, node) b).

(** [list[index].status = status]. *)
Definition update_at {A} (f : A → A) (index : option nat) (l : list A) : option (list A) :=
  match index with
  | Some i => if decide (i < length l)%nat then Some (alter f i l) else None
  | None => Some l
  end.

Definition change_status (status : Z) (c : Change) : Change :=
  mkChange (cg_step c) (cg_action c) (cg_operation c) (cg_subject c) status (cg_undone c) (cg_unknown c).
Definition step_status (status : Z) (s : StepResult) : StepResult :=
  mkStepResult (st_key s) (st_verb s) (st_subject s) status (st_undone s).
Definition step_undone (s : StepResult) : StepResult :=
  mkStepResult (st_key s) (st_verb s) (st_subject s) (st_status s) true.

(** The arm of a node other than the root that finishes. *)
Definition builder_finished (finished : NodeFinished) (b : Builder) : option Builder :=
  let id := nf_id finished in
  let d := bd_document b in
  changes ← update_at (change_status (nf_status finished)) (bd_changes b !! id) (dc_changes d);
  steps ← update_at (step_status (nf_status finished)) (bd_steps b !! id) (dc_steps d);
  let rolled_back :=
    match bd_nodes b !! id with
    | Some (_, Node_Rollback step) =>
        if decide (Status_field (nf_status finished) = Status_Succeeded)
        then bd_rolled_back b ++ [step] else bd_rolled_back b
    | _ => bd_rolled_back b
    end in
  Some (mkBuilder (set_steps steps (set_changes changes d)) (bd_nodes b) (bd_changes b) (bd_steps b) rolled_back).

(** The loop over the steps that were rolled back: the steps, and the keys of those undone. *)
Fixpoint undo_steps (indices : gmap N nat) (rolled_back : list N) (steps : list StepResult)
    : option (list StepResult * list string) :=
  match rolled_back with
  | [] => Some (steps, [])
  | step :: rolled_back =>
      match indices !! step with
      | Some index =>
          steps ← update_at step_undone (Some index) steps;
          key ← st_key <$> steps !! index;
          '(steps, undone) ← undo_steps indices rolled_back steps;
          Some (steps, key :: undone)
      | None => undo_steps indices rolled_back steps
      end
  end.

Definition mark_undone (undone : list string) (c : Change) : Change :=
  mkChange (cg_step c) (cg_action c) (cg_operation c) (cg_subject c) (cg_status c)
    (bool_decide (Status_field (cg_status c) = Status_Succeeded) && bool_decide (cg_step c ∈ undone))
    (cg_unknown c).

Definition FORMAT_VERSION : string := "1.0".

Section builder.
(** The reports of an encoded [RepairResult]: a target, and its failure. *)
Context (repair_reports : bytes → list (string * option Diagnostic)).

(** A target that repair could not fix. *)
Definition repair_problem (report : string * option Diagnostic) : option Problem :=
  failure ← report.2;
  let problem := problem_of failure in
  Some (if decide (pb_subject problem = "") then with_subject report.1 problem else problem).

(** [Builder::finish]. *)
Definition builder_finish (root : NodeFinished) (b : Builder) : option (Document * Builder) :=
  let d := bd_document b in
  let b := set_document document_default b in
  let repairs :=
    match nf_result root with
    | Some (Result_Repair repair) => omap repair_problem (repair_reports repair)
    | _ => []
    end in
  let problems := dc_problems d ++ option_list (problem_of <$> nf_diagnostic root) ++ repairs in
  '(steps, undone) ← undo_steps (bd_steps b) (bd_rolled_back b) (dc_steps d);
  Some (mkDocument FORMAT_VERSION (dc_request d) (dc_command d) (dc_dry_run d) (nf_status root)
          (nf_exit_code root)
          (if decide (Cancellation_field (nf_cancellation root) = Cancellation_Unspecified)
           then None else Some (nf_cancellation root))
          (nf_result root ≫= result_of) (mark_undone undone <$> dc_changes d) problems
          (dc_warnings d) steps (dc_waits d), b).

(** [Builder::envelope]. *)
Definition builder_envelope (e : Envelope) (b : Builder) : option (option Document * Builder) :=
  let b :=
    if decide (dc_request (bd_document b) = "")
    then set_document (set_request (ev_request e) (bd_document b)) b else b in
  let d := bd_document b in
  match ev_event e with
  | None => Some (None, b)
  | Some (Event_NodeStarted started) => pair None <$> builder_started started b
  | Some (Event_NodeFinished finished) =>
      if decide (nf_id finished = ROOT)
      then '(document, b) ← builder_finish finished b; Some (Some document, b)
      else pair None <$> builder_finished finished b
  | Some (Event_Diagnostic found) =>
      if decide (Severity_field (dg_severity found) = Severity_Warning)
      then Some (None, set_document (set_warnings (dc_warnings d ++ [problem_of found]) d) b)
      else Some (None, b)
  | Some (Event_NodeProgress progress) =>
      match np_progress progress with
      | Some (Progress_Waiting lock holder command) =>
          Some (None, set_document (set_waits (dc_waits d ++ [mkLockWait lock holder command]) d) b)
      | _ => Some (None, b)
      end
  | Some (Event_NotRun _) => Some (None, b)
  end.

(** [of]: what the builder has when it has a document. *)
Fixpoint document_from (b : Builder) (es : list Envelope) : option (option Document) :=
  match es with
  | [] => Some None
  | e :: es =>
      '(found, b) ← builder_envelope e b;
      match found with Some document => Some (Some document) | None => document_from b es end
  end.
Definition document_of (es : list Envelope) : option (option Document) := document_from builder_default es.
End builder.

(** [usage]. *)
Definition document_usage (request detail : string) : Document :=
  mkDocument FORMAT_VERSION request "" false (Status_i32 Status_Failed) 2 None None []
    [problem_of (mkDiagnostic (Code_i32 Code_Usage) (Severity_i32 Severity_Error) 0 detail [] None)] [] [] [].

(** Two nodes, each the parent of the other: an action under them is never placed. *)
Lemma find_step_circles fuel nodes a b :
  a ≠ b → nodes !! a = Some (b, Node_Other) → nodes !! b = Some (a, Node_Other) → find_step fuel nodes a = None.
Proof.
  intros Hne Ha Hb. revert a b Hne Ha Hb. induction fuel as [|fuel IH]; intros a b Hne Ha Hb; [done|].
  simpl. rewrite Ha, decide_False by done. by apply (IH b a).
Qed.
