(* ===== verification/DocumentSpec.v ===== *)
(** * What a document says of its stream

    Of a stream that the validator accepts, the builder of [Document] makes exactly one
    document, at the end, and what it gathered event by event is what the whole stream says of
    every step, change, wait and warning ([document_exact]). *)
From S2P Require Import Prelude.
From S2P Require Import Effect.
From S2P Require Import Events.
From S2P Require Import Validate.
From S2P Require Import Diagnose.
From S2P Require Import Explain.
From S2P Require Import Document.

Local Open Scope nat_scope.

(** ** What a stream says *)

Definition started_of (e : Envelope) : option NodeStarted :=
  match ev_event e with Some (Event_NodeStarted n) => Some n | _ => None end.
Definition finished_of (e : Envelope) : option NodeFinished :=
  match ev_event e with Some (Event_NodeFinished f) => Some f | _ => None end.
Definition started_in (es : list Envelope) : list NodeStarted := omap started_of es.
Definition finished_in (es : list Envelope) : list NodeFinished := omap finished_of es.

(** How a node ended, and whether a step was undone: a rollback of it succeeded. *)
Definition status_in (fs : list NodeFinished) (id : N) : Z :=
  from_option nf_status 0%Z (find (λ f, nf_id f = id) fs).
Definition undoes (n : NodeStarted) : option N :=
  match ns_kind n with Some (Kind_Rollback step) => Some step | _ => None end.
Definition succeeded (fs : list NodeFinished) (id : N) : bool :=
  bool_decide (Status_field (status_in fs id) = Status_Succeeded).
Definition undone_in (es : list Envelope) (id : N) : bool :=
  existsb (λ n, bool_decide (undoes n = Some id) && succeeded (finished_in es) (ns_id n)) (started_in es).

(** The steps, in the order they started. *)
Definition step_node (n : NodeStarted) : option (N * StepResult) :=
  match ns_kind n with
  | Some (Kind_Step verb subject) => Some (ns_id n, mkStepResult (ns_key n) verb subject 0%Z false)
  | _ => None
  end.
Definition step_nodes (es : list Envelope) : list (N * StepResult) := omap step_node (started_in es).
Definition steps_in (es : list Envelope) : list StepResult :=
  (λ s : N * StepResult,
    mkStepResult (st_key s.2) (st_verb s.2) (st_subject s.2) (status_in (finished_in es) s.1) (undone_in es s.1))
  <$> step_nodes es.

(** The step that a node is under, if no rollback is nearer; [before] is what started before,
    the latest first. *)
Fixpoint above (before : list NodeStarted) (id : N) : option string :=
  match before with
  | [] => None
  | n :: before =>
      if decide (ns_id n = id) then
        match ns_kind n with
        | Some (Kind_Step _ _) => Some (ns_key n)
        | Some (Kind_Rollback _) => None
        | _ => above before (ns_parent n)
        end
      else above before id
  end.

(** The actions that changed something for a step. *)
Definition dry_after (dry : bool) (n : NodeStarted) : bool :=
  match ns_kind n with Some (Kind_Command c) => dry_run c | _ => dry end.
Definition key_after (key : string) (n : NodeStarted) : string :=
  match ns_kind n with Some (Kind_Command c) => key_of (request_of c) | _ => key end.
Definition action_node (dry : bool) (before : list NodeStarted) (n : NodeStarted) : list (N * Change) :=
  match ns_kind n with
  | Some (Kind_Action operation subject) =>
      match above before (ns_parent n), change_action operation with
      | Some key, Some kind =>
          [(ns_id n, mkChange key kind operation subject 0%Z false (if dry then known_after operation else []))]
      | _, _ => []
      end
  | _ => []
  end.
Fixpoint action_nodes (dry : bool) (before l : list NodeStarted) : list (N * Change) :=
  match l with
  | [] => []
  | n :: l => action_node dry before n ++ action_nodes (dry_after dry n) (n :: before) l
  end.
Definition changes_in (es : list Envelope) : list Change :=
  (λ c : N * Change,
    mkChange (cg_step c.2) (cg_action c.2) (cg_operation c.2) (cg_subject c.2) (status_in (finished_in es) c.1)
      (succeeded (finished_in es) c.1 &&
       existsb (λ s, st_undone s && bool_decide (st_key s = cg_step c.2)) (steps_in es))
      (cg_unknown c.2))
  <$> action_nodes false [] (started_in es).

Definition wait_of (e : Envelope) : option LockWait :=
  match ev_event e with
  | Some (Event_NodeStarted n) =>
      match ns_kind n with
      | Some (Kind_LockWait lock holder command) => Some (mkLockWait lock holder command)
      | _ => None
      end
  | Some (Event_NodeProgress p) =>
      match np_progress p with
      | Some (Progress_Waiting lock holder command) => Some (mkLockWait lock holder command)
      | _ => None
      end
  | _ => None
  end.
Definition warning_of (e : Envelope) : option Problem :=
  match ev_event e with
  | Some (Event_Diagnostic d) =>
      if decide (Severity_field (dg_severity d) = Severity_Warning) then Some (problem_of d) else None
  | _ => None
  end.

Section spec.
Context (repair_reports : bytes → list (string * option Diagnostic)).

(** What the end of the root adds. *)
Definition problems_at (root : NodeFinished) : list Problem :=
  option_list (problem_of <$> nf_diagnostic root) ++
  match nf_result root with
  | Some (Result_Repair repair) => omap repair_problem (repair_reports repair)
  | _ => []
  end.

(** The document of a whole stream. *)
Definition document_in (es : list Envelope) : option Document :=
  root ← find (λ f, nf_id f = ROOT) (finished_in es);
  Some (mkDocument FORMAT_VERSION (from_option ev_request "" (head es))
    (foldl key_after "" (started_in es)) (foldl dry_after false (started_in es))
    (nf_status root) (nf_exit_code root)
    (if decide (Cancellation_field (nf_cancellation root) = Cancellation_Unspecified)
     then None else Some (nf_cancellation root))
    (nf_result root ≫= result_of) (changes_in es) (problems_at root)
    (omap warning_of es) (steps_in es) (omap wait_of es)).
End spec.

(** ** What the validator makes sure of *)

(** Which nodes it knows, and whether they finished. *)
Definition flags (v : Validator) : gmap N bool := sn_finished <$> nodes v.

Lemma flags_lookup v id : flags v !! id = sn_finished <$> nodes v !! id.
Proof. apply lookup_fmap. Qed.

Lemma flags_same (m : gmap N Seen) id s s' :
  m !! id = Some s → sn_finished s' = sn_finished s → sn_finished <$> <[id := s']> m = sn_finished <$> m.
Proof.
  intros Hm Hs. apply map_eq. intros j. rewrite !lookup_fmap. destruct (decide (id = j)) as [<-|Hne].
  - by rewrite lookup_insert_eq, Hm; simpl; rewrite Hs.
  - by rewrite lookup_insert_ne.
Qed.

Lemma v_started_flags v n v' :
  v_started v n = Ok v' →
  flags v !! ns_id n = None ∧ ns_id n ≠ 0%N ∧ (ns_parent n = 0%N ∨ is_Some (flags v !! ns_parent n)) ∧
  flags v' = <[ns_id n := false]> (flags v) ∧ root_finished v' = root_finished v ∧
  v_request v' = v_request v ∧ next_seq v' = next_seq v.
Proof.
  unfold v_started. case_decide as Hz; [done|]. case_decide as Hd; [done|].
  intros (p & Hp & H)%bind_Ok. destruct p as [path v1]. apply bind_Ok in H as (? & _ & [= <-]).
  rewrite flags_lookup. apply eq_None_not_Some in Hd. rewrite Hd.
  assert (Hv1 : flags v1 = flags v ∧ (ns_parent n = 0%N ∨ is_Some (flags v !! ns_parent n)) ∧
    root_finished v1 = root_finished v ∧ v_request v1 = v_request v ∧ next_seq v1 = next_seq v).
  { unfold started_under in Hp. case_decide as Hr; [simplify_eq; destruct Hr; split_and!; auto|].
    destruct (nodes v !! ns_parent n) as [parent|] eqn:Hpar; [|done].
    destruct (sn_finished parent) eqn:Hf; [done|]. case_decide; [done|]. simplify_eq. unfold flags. simpl.
    split_and!; [eapply flags_same; [done|by rewrite Hf]|right; rewrite lookup_fmap, Hpar; by eexists|done..]. }
  destruct Hv1 as (Hf & Hpar & Hroot & Hreq & Hseq). split_and!; [done..| |done|done|done].
  unfold flags in *. simpl. by rewrite fmap_insert, Hf.
Qed.

Lemma v_finished_flags v f v' :
  v_finished v f = Ok v' →
  flags v !! nf_id f = Some false ∧ flags v' = <[nf_id f := true]> (flags v) ∧
  root_finished v' = (if decide (nf_id f = ROOT) then true else root_finished v) ∧
  v_request v' = v_request v ∧ next_seq v' = next_seq v.
Proof.
  unfold v_finished. destruct (nodes v !! nf_id f) as [s|] eqn:Hs; [|done].
  intros (status & Hc & [= <-])%bind_Ok. rewrite flags_lookup, Hs. simpl.
  assert (Hfin : sn_finished s = false) by (unfold finished_checks in Hc; by destruct (sn_finished s)).
  split_and!; [by rewrite Hfin| |done..]. unfold flags. simpl.
  set (s' := mkSeen _ _ _ _ _ _ true).
  assert (Hm : sn_finished <$> <[nf_id f := s']> (nodes v) = <[nf_id f := true]> (sn_finished <$> nodes v)) by apply fmap_insert.
  destruct (<[nf_id f:=s']> (nodes v) !! sn_parent s) as [p|] eqn:Hp; [|done].
  rewrite <- Hm. by eapply flags_same.
Qed.

Lemma v_other_flags v event v' :
  match event with Event_NodeStarted _ | Event_NodeFinished _ => False | _ => True end →
  v_event v event = Ok v' →
  flags v' = flags v ∧ root_finished v' = root_finished v ∧ v_request v' = v_request v ∧ next_seq v' = next_seq v.
Proof.
  destruct event as [| p| | n| d]; try done; intros _; simpl.
  - unfold v_open. destruct (nodes v !! _); [|done]. destruct (sn_finished _); [done|]. by intros [= <-].
  - unfold v_not_run. destruct (nodes v !! nr_parent n) as [s|] eqn:Hs; [|done].
    destruct (sn_finished s) eqn:Hf; [done|]. repeat (case_decide; [done|]). intros [= <-].
    split_and!; [|done..]. unfold flags. simpl. eapply flags_same; [done|]. by rewrite Hf.
  - unfold v_open. destruct (nodes v !! _); [|done]. destruct (sn_finished _); [done|]. by intros [= <-].
Qed.

(** A node's parent is not itself and does not start later. *)
Definition parents_first (l : list NodeStarted) : Prop :=
  ∀ l1 n l2, l = l1 ++ n :: l2 → ns_parent n ∉ ns_id <$> n :: l2.

Lemma parents_first_snoc l n :
  parents_first l → (∀ m, m ∈ l ++ [n] → ns_parent m ≠ ns_id n) → parents_first (l ++ [n]).
Proof.
  intros Hl Hn l1 m l2 Heq. assert (Hm : ns_parent m ≠ ns_id n).
  { apply Hn. rewrite Heq. apply elem_of_app. right. left. }
  destruct l2 as [|x l2 _] using rev_ind.
  - apply app_inj_tail in Heq as [-> ->]. simpl. by rewrite list_elem_of_singleton.
  - rewrite app_comm_cons, app_assoc in Heq. apply app_inj_tail in Heq as [-> ->].
    rewrite app_comm_cons, fmap_app, elem_of_app. simpl (ns_id <$> [x]). rewrite list_elem_of_singleton.
    intros [H|H]; [|done]. by apply (Hl l1 m l2).
Qed.

(** The stream begins with the root, which runs a command. *)
Definition rooted (l : list NodeStarted) : Prop :=
  match l with [] => True | n :: _ => ns_id n = ROOT ∧ ∃ c, ns_kind n = Some (Kind_Command c) end.

Record valid_pre (pre : list Envelope) (v : Validator) : Prop := {
  vp_ids id : is_Some (flags v !! id) ↔ id ∈ ns_id <$> started_in pre;
  vp_zero : flags v !! 0%N = None;
  vp_nodup : NoDup (ns_id <$> started_in pre);
  vp_known n : n ∈ started_in pre → ns_parent n = 0%N ∨ is_Some (flags v !! ns_parent n);
  vp_parents : parents_first (started_in pre);
  vp_finished id : id ∈ nf_id <$> finished_in pre → flags v !! id = Some true;
  vp_once : NoDup (nf_id <$> finished_in pre);
  vp_root : root_finished v = true ↔ ROOT ∈ nf_id <$> finished_in pre;
  vp_request : v_request v = ev_request <$> head pre;
  vp_rooted : rooted (started_in pre);
}.

Lemma valid_pre_new : valid_pre [] validator_new.
Proof.
  split; simpl; try done.
  - intros id. unfold flags. simpl. rewrite fmap_empty, lookup_empty, elem_of_nil. split; [by intros []|done].
  - constructor.
  - intros n. by rewrite elem_of_nil.
  - intros l1 n l2 H. by destruct l1.
  - intros id. by rewrite elem_of_nil.
  - constructor.
  - by rewrite elem_of_nil.
Qed.

Lemma started_snoc pre e : started_in (pre ++ [e]) = started_in pre ++ option_list (started_of e).
Proof. unfold started_in. rewrite omap_app. simpl. by destruct (started_of e). Qed.
Lemma finished_snoc pre e : finished_in (pre ++ [e]) = finished_in pre ++ option_list (finished_of e).
Proof. unfold finished_in. rewrite omap_app. simpl. by destruct (finished_of e). Qed.

(** The validator after an envelope's number and request were checked. *)
Lemma push_checked v e v' :
  v_push v e = Ok v' →
  root_finished v = false ∧
  ∃ v1, flags v1 = flags v ∧ root_finished v1 = root_finished v ∧
    v_request v1 = Some (ev_request e) ∧ (∀ r, v_request v = Some r → r = ev_request e) ∧
    match ev_event e with
    | Some event => (flags v = ∅ → is_root_start event = true) ∧ v_event v1 event = Ok v'
    | None => v' = v1
    end.
Proof.
  unfold v_push. case_decide; [done|]. case_decide as Hr; [done|]. simpl in *.
  destruct (root_finished v) eqn:Hroot; [done|]. intros Hp. split; [done|].
  exists (mkValidator (next_seq v + 1) (match v_request v with None => Some (ev_request e) | r => r end)
    (nodes v) (entries v) false).
  split_and!; [done|done|exact Hr| |].
  - intros r Hv. rewrite Hv in Hr. by injection Hr.
  - destruct (ev_event e) as [event|]; [|by injection Hp as <-]. case_decide as Hn; [done|]. split; [|exact Hp].
    intros He%fmap_empty_inv. destruct (is_root_start event) eqn:Hs; [done|by destruct Hn].
Qed.

Lemma head_request pre e v :
  v_request v = ev_request <$> head pre → (∀ r, v_request v = Some r → r = ev_request e) →
  Some (ev_request e) = ev_request <$> head (pre ++ [e]).
Proof. intros Hh Hr. destruct pre as [|x pre]; [done|]. simpl in *. f_equal. symmetry. by apply Hr. Qed.

Lemma valid_push pre v e v' :
  valid_pre pre v → v_push v e = Ok v' → valid_pre (pre ++ [e]) v'.
Proof.
  intros Hv Hp. apply push_checked in Hp as (Hroot & v1 & Hf & Hr & Hq & Hreq & Hev).
  assert (Hh := head_request pre e v (vp_request _ _ Hv) Hreq). destruct Hv.
  assert (Hquiet : started_of e = None → finished_of e = None → flags v' = flags v1 ∧
    root_finished v' = root_finished v1 ∧ v_request v' = v_request v1 → valid_pre (pre ++ [e]) v').
  { intros Hs Hfin (H1 & H2 & H3). split; rewrite ?started_snoc, ?finished_snoc, ?Hs, ?Hfin, ?app_nil_r, ?H1, ?H2, ?H3, ?Hf, ?Hr; try done.
    by rewrite Hq. }
  destruct (ev_event e) as [[n|p|f|n|d]|] eqn:He.
  2,4,5: apply Hquiet; [unfold started_of; by rewrite He|unfold finished_of; by rewrite He|];
    destruct Hev as [_ (? & ? & ? & ?)%v_other_flags]; done.
  3: apply Hquiet; [unfold started_of; by rewrite He|unfold finished_of; by rewrite He|by rewrite Hev].
  - destruct Hev as [Hfirst Hev]. apply v_started_flags in Hev as (Hnew & Hz & Hpar & Hf' & Hr' & Hq' & _). rewrite Hf in *.
    assert (Hs : started_of e = Some n) by (unfold started_of; by rewrite He).
    assert (Hfin : finished_of e = None) by (unfold finished_of; by rewrite He).
    assert (Hid : ns_id n ∉ ns_id <$> started_in pre) by (rewrite <- vp_ids0, Hnew; by intros []).
    split; rewrite ?started_snoc, ?finished_snoc, ?Hs, ?Hfin, ?app_nil_r, ?fmap_app, ?Hf', ?Hr', ?Hr, ?Hq', ?Hq; simpl; try done.
    + intros id. rewrite elem_of_app, list_elem_of_singleton, <- vp_ids0.
      destruct (decide (ns_id n = id)) as [<-|Hne]; [rewrite lookup_insert_eq|rewrite lookup_insert_ne by done];
        naive_solver.
    + by rewrite lookup_insert_ne.
    + apply NoDup_app. split_and!; [done| |apply NoDup_singleton].
      intros x Hx. rewrite list_elem_of_singleton. by intros ->.
    + intros m Hm. rewrite lookup_insert_is_Some'. apply elem_of_app in Hm as [Hm| ->%list_elem_of_singleton].
      * destruct (vp_known0 m Hm); [by left|by right; right].
      * destruct Hpar; [by left|by right; right].
    + apply parents_first_snoc; [done|]. intros m Hm.
      assert (Hk : ns_parent m = 0%N ∨ is_Some (flags v !! ns_parent m)).
      { apply elem_of_app in Hm as [Hm| ->%list_elem_of_singleton]; [by apply vp_known0|done]. }
      intros Heq. destruct Hk as [Hk|Hk]; [congruence|]. rewrite Heq, Hnew in Hk. by destruct Hk.
    + intros id Hid'. rewrite lookup_insert_ne; [by apply vp_finished0|]. intros <-.
      apply vp_finished0 in Hid'. congruence.
    + destruct (started_in pre) as [|x l] eqn:Hl; [|done]. simpl.
      assert (Hempty : flags v = ∅).
      { apply map_eq. intros j. rewrite lookup_empty. apply eq_None_not_Some. rewrite vp_ids0. apply not_elem_of_nil. }
      specialize (Hfirst Hempty). simpl in Hfirst. apply andb_true_iff in Hfirst as [[Hr1 _]%bool_decide_eq_true Hk].
      split; [done|]. destruct (ns_kind n) as [[]|]; try done. by eexists.
  - destruct Hev as [_ Hev]. apply v_finished_flags in Hev as (Hopen & Hf' & Hr' & Hq' & _). rewrite Hf in *.
    assert (Hs : started_of e = None) by (unfold started_of; by rewrite He).
    assert (Hfin : finished_of e = Some f) by (unfold finished_of; by rewrite He).
    split; rewrite ?started_snoc, ?finished_snoc, ?Hs, ?Hfin, ?app_nil_r, ?fmap_app, ?Hf', ?Hr', ?Hr, ?Hq', ?Hq; simpl; try done.
    + intros id. rewrite <- vp_ids0, lookup_insert_is_Some'. split; [intros [<-|?]; [by rewrite Hopen|done]|by right].
    + rewrite lookup_insert_ne; [done|]. intros Heq. rewrite Heq, vp_zero0 in Hopen. done.
    + intros m Hm. rewrite lookup_insert_is_Some'. destruct (vp_known0 m Hm); [by left|by right; right].
    + intros id. rewrite elem_of_app, list_elem_of_singleton.
      destruct (decide (nf_id f = id)) as [<-|Hne]; [by rewrite lookup_insert_eq|rewrite lookup_insert_ne by done].
      intros [H|H]; [by apply vp_finished0|congruence].
    + apply NoDup_app. split_and!; [done| |apply NoDup_singleton].
      intros x Hx. rewrite list_elem_of_singleton. intros ->. apply vp_finished0 in Hx. congruence.
    + rewrite elem_of_app, list_elem_of_singleton, <- vp_root0. case_decide; naive_solver.
Qed.

(** ** What the builder has gathered *)

(** *** Lists whose elements are found by an id *)

Definition index_of {A} (id : N) (l : list (N * A)) : option nat := fst <$> list_find (λ x, x.1 = id) l.

Lemma index_of_cons {A} id (x : N * A) l :
  index_of id (x :: l) = if decide (x.1 = id) then Some 0 else S <$> index_of id l.
Proof. unfold index_of. simpl. case_decide; [done|]. by destruct (list_find _ l) as [[]|]. Qed.

Lemma index_of_fresh {A} id (l : list (N * A)) : id ∉ l.*1 → index_of id l = None.
Proof.
  induction l as [|x l IH]; [done|]. rewrite index_of_cons, fmap_cons, not_elem_of_cons. intros [Hx Hl].
  by rewrite decide_False, IH.
Qed.

Lemma index_of_snoc {A} id id' (x : A) (l : list (N * A)) :
  id ∉ l.*1 → index_of id' (l ++ [(id, x)]) = if decide (id = id') then Some (length l) else index_of id' l.
Proof.
  induction l as [|y l IH]; [intros _; unfold index_of; simpl; by case_decide|].
  rewrite fmap_cons, not_elem_of_cons. intros [Hy Hl]. rewrite <- app_comm_cons, !index_of_cons, IH by done.
  destruct (decide (y.1 = id')), (decide (id = id')); simpl; congruence.
Qed.

Lemma update_keyed {A B} (f : B → B) (g : N * A → B) id (l : list (N * A)) :
  NoDup l.*1 → update_at f (index_of id l) (g <$> l) = Some ((λ x, if decide (x.1 = id) then f (g x) else g x) <$> l).
Proof.
  induction l as [|x l IH]; [done|]. rewrite fmap_cons. intros [Hx Hl]%NoDup_cons. specialize (IH Hl).
  rewrite index_of_cons, !fmap_cons. case_decide as Hid.
  - simpl. f_equal. f_equal. apply list_fmap_ext. intros i y Hy. rewrite decide_False; [done|].
    intros Hy'. apply Hx. rewrite Hid, <- Hy'. apply list_elem_of_fmap_2. by eapply list_elem_of_lookup_2.
  - destruct (index_of id l) as [i|]; simpl in *; [|by injection IH as <-].
    destruct (decide (i < length (g <$> l))); [|done]. rewrite decide_True by lia. by injection IH as <-.
Qed.

Lemma find_by_id {A} (key : A → N) (l : list A) x : NoDup (key <$> l) → x ∈ l → find (λ y, key y = key x) l = Some x.
Proof.
  unfold find. intros Hd [i Hi]%list_elem_of_lookup. 
  destruct (list_find (λ y, key y = key x) l) as [[j y]|] eqn:Hf.
  - apply list_find_Some in Hf as (Hj & Hk & _). simpl. f_equal.
    assert (i = j); [|by simplify_eq]. apply (NoDup_lookup _ i j (key x) Hd); rewrite list_lookup_fmap; [by rewrite Hi|by rewrite Hj, <- Hk].
  - apply list_find_None in Hf. rewrite Forall_forall in Hf. destruct (Hf x); [by eapply list_elem_of_lookup_2|done].
Qed.

Lemma find_fresh {A} (key : A → N) (l : list A) id : id ∉ key <$> l → find (λ y, key y = id) l = None.
Proof.
  unfold find. intros Hid. destruct (list_find _ l) as [[j y]|] eqn:Hf; [|done].
  apply list_find_Some in Hf as (Hj & Hk & _). destruct Hid. rewrite <- Hk. apply list_elem_of_fmap_2. by eapply list_elem_of_lookup_2.
Qed.

Lemma find_snoc {A} (key : A → N) (l : list A) x id :
  key x ∉ key <$> l → find (λ y, key y = id) (l ++ [x]) = if decide (key x = id) then Some x else find (λ y, key y = id) l.
Proof.
  intros Hx. unfold find. induction l as [|y l IH]; [simpl; by case_decide|].
  rewrite fmap_cons, not_elem_of_cons in Hx. destruct Hx as [Hy Hx]. specialize (IH Hx). simpl.
  destruct (decide (key y = id)) as [<-|]; [by rewrite decide_False|].
  destruct (list_find _ (l ++ [x])) as [[]|], (list_find _ l) as [[]|], (decide (key x = id)); simpl in *; congruence.
Qed.

(** *** Statuses *)

Lemma status_snoc fs f id :
  nf_id f ∉ nf_id <$> fs →
  status_in (fs ++ [f]) id = if decide (nf_id f = id) then nf_status f else status_in fs id.
Proof. intros Hf. unfold status_in. rewrite find_snoc by done. by case_decide. Qed.

Lemma status_fresh fs id : id ∉ nf_id <$> fs → status_in fs id = 0%Z.
Proof. intros Hf. unfold status_in. by rewrite find_fresh. Qed.

(** *** Nodes *)

Definition node_of (n : NodeStarted) : N * Node :=
  (ns_parent n,
   match ns_kind n with
   | Some (Kind_Step _ _) => Node_Step (ns_key n)
   | Some (Kind_Rollback undoes) => Node_Rollback undoes
   | _ => Node_Other
   end).

(** The walk up the nodes ends, and is the one over what started before. *)
Lemma find_step_above nodes l1 l2 id fuel :
  NoDup (ns_id <$> l1 ++ l2) → parents_first (l1 ++ l2) →
  (∀ j, nodes !! j = node_of <$> find (λ n, ns_id n = j) (l1 ++ l2)) →
  id ∉ ns_id <$> l2 → length l1 < fuel → find_step fuel nodes id = Some (above (reverse l1) id).
Proof.
  revert l2 id fuel. induction l1 as [|n l1 IH] using rev_ind; intros l2 id fuel Hd Hp Hn Hid Hfuel.
  - destruct fuel as [|fuel]; [simpl in Hfuel; lia|]. simpl. rewrite Hn. simpl. by rewrite find_fresh.
  - rewrite reverse_snoc. rewrite length_app in Hfuel. simpl in Hfuel. rewrite <- app_assoc in Hd, Hp. simpl in Hd, Hp.
    assert (Hn' : ∀ j, nodes !! j = node_of <$> find (λ n, ns_id n = j) (l1 ++ n :: l2))
      by (intros j; by rewrite Hn, <- app_assoc). clear Hn.
    simpl. case_decide as Hni.
    + destruct fuel as [|fuel]; [lia|]. assert (Hfind : nodes !! id = Some (node_of n)).
      { rewrite Hn', <- Hni, find_by_id; [done|done|]. apply elem_of_app. right. left. }
      assert (Hpar : ns_parent n ∉ ns_id <$> n :: l2) by by apply (Hp l1 n l2).
      assert (Hup : find_step fuel nodes (ns_parent n) = Some (above (reverse l1) (ns_parent n)))
        by (apply (IH (n :: l2)); [done..|lia]).
      assert (Hne : ns_parent n ≠ id) by (intros Heq; apply Hpar; rewrite Heq, <- Hni; left).
      simpl. rewrite Hfind. unfold node_of. destruct (ns_kind n) as [[]|]; try done; by rewrite decide_False.
    + apply (IH (n :: l2)); try done; [|lia]. rewrite fmap_cons, not_elem_of_cons. done.
Qed.

Lemma action_nodes_snoc dry before l n :
  action_nodes dry before (l ++ [n]) =
  action_nodes dry before l ++ action_node (foldl dry_after dry l) (reverse l ++ before) n.
Proof.
  revert dry before. induction l as [|m l IH]; intros dry before; simpl; [by rewrite app_nil_r|].
  by rewrite IH, reverse_cons, <- !app_assoc.
Qed.

Lemma action_node_id dry before n : action_node dry before n = [] ∨ ∃ c, action_node dry before n = [(ns_id n, c)].
Proof.
  unfold action_node. destruct (ns_kind n) as [[]|]; auto. destruct (above _ _); auto. destruct (change_action _); eauto.
Qed.

Lemma action_ids dry before l : (action_nodes dry before l).*1 `sublist_of` (ns_id <$> l).
Proof.
  revert dry before. induction l as [|n l IH]; intros dry before; simpl; [constructor|].
  destruct (action_node_id dry before n) as [->|[c ->]]; simpl; [by apply sublist_cons|by apply sublist_skip].
Qed.

Lemma step_ids l : (omap step_node l).*1 `sublist_of` (ns_id <$> l).
Proof.
  induction l as [|n l IH]; simpl; [constructor|]. unfold step_node at 1.
  destruct (ns_kind n) as [[]|]; try (by apply sublist_cons). by apply sublist_skip.
Qed.

(** *** The builder between two events *)

Definition actions_in (es : list Envelope) : list (N * Change) := action_nodes false [] (started_in es).

Definition changes_so_far (es : list Envelope) : list Change :=
  (λ c : N * Change, change_status (status_in (finished_in es) c.1) c.2) <$> actions_in es.
Definition steps_so_far (es : list Envelope) : list StepResult :=
  (λ s : N * StepResult, step_status (status_in (finished_in es) s.1) s.2) <$> step_nodes es.

(** The document so far, of a request. *)
Definition document_so_far (request : string) (es : list Envelope) : Document :=
  mkDocument "" request (foldl key_after "" (started_in es)) (foldl dry_after false (started_in es)) 0 0 None None
    (changes_so_far es) [] (omap warning_of es) (steps_so_far es) (omap wait_of es).

Record built (request : string) (pre : list Envelope) (b : Builder) : Prop := {
  bt_nodes id : bd_nodes b !! id = node_of <$> find (λ n, ns_id n = id) (started_in pre);
  bt_size : size (bd_nodes b) = length (started_in pre);
  bt_steps id : bd_steps b !! id = index_of id (step_nodes pre);
  bt_changes id : bd_changes b !! id = index_of id (actions_in pre);
  bt_rolled x : x ∈ bd_rolled_back b ↔
    ∃ n, n ∈ started_in pre ∧ undoes n = Some x ∧ succeeded (finished_in pre) (ns_id n) = true;
  bt_document : bd_document b = document_so_far request pre;
}.

Lemma built_new : built "" [] builder_default.
Proof.
  split; try done. intros x. simpl. rewrite elem_of_nil. split; [done|].
  intros (n & Hn & _). by apply elem_of_nil in Hn.
Qed.

Lemma step_nodes_snoc pre e :
  step_nodes (pre ++ [e]) = step_nodes pre ++ omap step_node (option_list (started_of e)).
Proof. unfold step_nodes. by rewrite started_snoc, omap_app. Qed.

Lemma actions_snoc pre e :
  actions_in (pre ++ [e]) = actions_in pre ++
    match started_of e with
    | Some n => action_node (foldl dry_after false (started_in pre)) (reverse (started_in pre)) n
    | None => []
    end.
Proof.
  unfold actions_in. rewrite started_snoc. destruct (started_of e) as [n|]; simpl; [|by rewrite !app_nil_r].
  by rewrite action_nodes_snoc, app_nil_r.
Qed.

Lemma omap_snoc {A B} (f : A → option B) l x : omap f (l ++ [x]) = omap f l ++ option_list (f x).
Proof. rewrite omap_app. simpl. by destruct (f x). Qed.

(** An event that is neither the start nor the end of a node. *)
Lemma built_quiet request pre b e d :
  built request pre b → started_of e = None → finished_of e = None →
  d = document_so_far request (pre ++ [e]) → built request (pre ++ [e]) (set_document d b).
Proof.
  intros Hb Hs Hf ->. destruct Hb.
  assert (Hs' : started_in (pre ++ [e]) = started_in pre) by (by rewrite started_snoc, Hs, app_nil_r).
  assert (Hf' : finished_in (pre ++ [e]) = finished_in pre) by (by rewrite finished_snoc, Hf, app_nil_r).
  split; simpl; unfold step_nodes, actions_in; rewrite ?Hs', ?Hf'; done.
Qed.

Lemma so_far_quiet request pre e :
  started_of e = None → finished_of e = None →
  document_so_far request (pre ++ [e]) =
  set_waits (omap wait_of pre ++ option_list (wait_of e))
    (set_warnings (omap warning_of pre ++ option_list (warning_of e)) (document_so_far request pre)).
Proof.
  intros Hs Hf. unfold document_so_far, changes_so_far, steps_so_far, step_nodes, actions_in.
  by rewrite started_snoc, finished_snoc, Hs, Hf, !app_nil_r, !omap_snoc.
Qed.

(** What an event is to do to the builder. *)
Definition onward (repair_reports : bytes → list (string * option Diagnostic)) (request : string)
    (pre : list Envelope) (e : Envelope) (r : option (option Document * Builder)) : Prop :=
  ∃ b, r = Some (None, b) ∧ built request (pre ++ [e]) b.

Section builder_steps.
Context (repair_reports : bytes → list (string * option Diagnostic)).
Context (request : string) (pre : list Envelope) (v : Validator) (b : Builder).
Hypothesis Hv : valid_pre pre v.
Hypothesis Hb : built request pre b.

Lemma finished_started id : id ∈ nf_id <$> finished_in pre → id ∈ ns_id <$> started_in pre.
Proof. intros Hid. rewrite <- (vp_ids _ _ Hv), (vp_finished _ _ Hv id Hid). by eexists. Qed.

Section starts.
Context (n : NodeStarted) (e : Envelope).
Hypothesis He : started_of e = Some n.
Hypothesis Hnew : flags v !! ns_id n = None.

Let before := reverse (started_in pre).
Let dry := foldl dry_after false (started_in pre).

Lemma start_fresh : ns_id n ∉ ns_id <$> started_in pre.
Proof. rewrite <- (vp_ids _ _ Hv), Hnew. by intros []. Qed.

Lemma start_finished : finished_in (pre ++ [e]) = finished_in pre.
Proof.
  assert (Hfe : finished_of e = None) by (unfold started_of, finished_of in *; by destruct (ev_event e) as [[]|]).
  by rewrite finished_snoc, Hfe, app_nil_r.
Qed.

Lemma start_status : status_in (finished_in pre) (ns_id n) = 0%Z.
Proof. apply status_fresh. by intros ?%finished_started%start_fresh. Qed.

Lemma start_finds :
  find_step (S (size (bd_nodes b))) (bd_nodes b) (ns_parent n) = Some (above before (ns_parent n)).
Proof.
  apply (find_step_above _ _ []); rewrite ?app_nil_r; [apply Hv|apply Hv|apply Hb|apply not_elem_of_nil|].
  rewrite (bt_size _ _ _ Hb). lia.
Qed.

(** The document after it. *)
Lemma so_far_started :
  document_so_far request (pre ++ [e]) =
  set_command (key_after (foldl key_after "" (started_in pre)) n) (dry_after dry n)
    (set_changes (changes_so_far pre ++ (action_node dry before n).*2)
      (set_steps (steps_so_far pre ++ option_list (snd <$> step_node n))
        (set_waits (omap wait_of pre ++ option_list (wait_of e)) (document_so_far request pre)))).
Proof.
  unfold document_so_far. rewrite started_snoc, He, !omap_snoc, !foldl_app. simpl.
  assert (Hw : warning_of e = None) by (unfold started_of, warning_of in *; by destruct (ev_event e) as [[]|]).
  rewrite Hw. unfold set_command, set_changes, set_steps, set_waits. simpl. rewrite app_nil_r. f_equal.
  - unfold changes_so_far. rewrite actions_snoc, He, start_finished, fmap_app. f_equal. fold dry. fold before.
    unfold action_node. destruct (ns_kind n) as [[| | | | | | | | |operation subject]|]; try done.
    destruct (above _ _); [|done]. destruct (change_action operation); [|done]. simpl. by rewrite start_status.
  - unfold steps_so_far. rewrite step_nodes_snoc, He, start_finished, fmap_app. f_equal.
    unfold step_node. simpl. destruct (ns_kind n) as [[]|]; try done. simpl. by rewrite start_status.
Qed.

Lemma built_started b' :
  bd_nodes b' = <[ns_id n := node_of n]> (bd_nodes b) →
  bd_steps b' = match step_node n with Some _ => <[ns_id n := length (dc_steps (bd_document b))]> (bd_steps b) | None => bd_steps b end →
  bd_changes b' = match action_node dry before n with _ :: _ => <[ns_id n := length (dc_changes (bd_document b))]> (bd_changes b) | [] => bd_changes b end →
  bd_rolled_back b' = bd_rolled_back b → bd_document b' = document_so_far request (pre ++ [e]) →
  built request (pre ++ [e]) b'.
Proof.
  intros Hn Hs Hc Hr Hd. assert (Hfresh := start_fresh).
  assert (Hdoc := bt_document _ _ _ Hb). split; [..|done].
  - intros id. rewrite Hn, started_snoc, He. simpl. rewrite find_snoc by done.
    case_decide as Hid; [by rewrite Hid, lookup_insert_eq|rewrite lookup_insert_ne by done; apply Hb].
  - rewrite Hn, started_snoc, He, length_app. simpl. rewrite map_size_insert_None.
    + rewrite (bt_size _ _ _ Hb). lia.
    + rewrite (bt_nodes _ _ _ Hb). by rewrite find_fresh.
  - intros id. rewrite Hs, step_nodes_snoc, He. simpl.
    assert (Hids : ns_id n ∉ (step_nodes pre).*1).
    { intros Hin. apply Hfresh. by apply (elem_of_sublist _ _ _ Hin (step_ids _)). }
    destruct (step_node n) as [[id' st]|] eqn:Hsn; [|rewrite app_nil_r; apply Hb].
    assert (id' = ns_id n) as -> by (unfold step_node in Hsn; destruct (ns_kind n) as [[]|]; by simplify_eq).
    rewrite index_of_snoc, Hdoc by done. simpl. unfold steps_so_far. rewrite length_fmap.
    case_decide as Hid; [by rewrite Hid, lookup_insert_eq|rewrite lookup_insert_ne by done; apply Hb].
  - intros id. rewrite Hc, actions_snoc, He. fold dry. fold before.
    assert (Hids : ns_id n ∉ (actions_in pre).*1).
    { intros Hin. apply Hfresh. by apply (elem_of_sublist _ _ _ Hin (action_ids _ _ _)). }
    destruct (action_node_id dry before n) as [-> |[c ->]]; [rewrite app_nil_r; apply Hb|].
    rewrite index_of_snoc, Hdoc by done. simpl. unfold changes_so_far. rewrite length_fmap.
    case_decide as Hid; [by rewrite Hid, lookup_insert_eq|rewrite lookup_insert_ne by done; apply Hb].
  - intros x. rewrite Hr, (bt_rolled _ _ _ Hb), start_finished, started_snoc, He. simpl. split.
    + intros (m & Hm & Hx). exists m. split; [apply elem_of_app; by left|done].
    + intros (m & [Hm| ->%list_elem_of_singleton]%elem_of_app & Hx & Hsu); [by exists m|].
      unfold succeeded in Hsu. by rewrite start_status in Hsu.
Qed.

(** A node that starts. *)
Lemma started_built : ∃ b', builder_started n b = Some b' ∧ built request (pre ++ [e]) b'.
Proof.
  assert (Hfind := start_finds). assert (Hso := so_far_started). assert (Hdoc := bt_document _ _ _ Hb).
  assert (Hw : wait_of e = match ns_kind n with
    | Some (Kind_LockWait lock holder command) => Some (mkLockWait lock holder command) | _ => None end).
  { unfold started_of in He. unfold wait_of. destruct (ev_event e) as [[]|]; try done. by injection He as ->. }
  unfold builder_started, builder_action.
  destruct (ns_kind n) as [[c|title|verb subject|step|program args|artifact url|target category|lock holder command|type text|operation subject]|] eqn:Hk;
    try (eexists; split; [reflexivity|]; apply built_started; unfold step_node, action_node, node_of; rewrite ?Hk; try done;
      simpl; rewrite Hso, Hdoc, ?Hw; unfold key_after, dry_after, step_node, action_node; rewrite ?Hk;
      unfold document_so_far, set_command, set_changes, set_steps, set_waits; simpl; rewrite ?app_nil_r; done).
  rewrite Hfind. simpl.
  destruct (above before (ns_parent n)) as [key|] eqn:Hab; [destruct (change_action operation) as [kind|] eqn:Hca|];
    (eexists; split; [reflexivity|]; apply built_started; unfold step_node, action_node, node_of; rewrite ?Hk, ?Hab, ?Hca; try done;
      simpl; rewrite Hso, Hdoc, ?Hw; unfold key_after, dry_after, step_node, action_node; rewrite ?Hk, ?Hab, ?Hca;
      unfold document_so_far, set_command, set_changes, set_steps, set_waits; simpl; rewrite ?app_nil_r; done).
Qed.
End starts.

(** *** A node that finishes *)

Lemma ids_steps : NoDup (step_nodes pre).*1.
Proof. eapply sublist_NoDup; [apply Hv|apply step_ids]. Qed.
Lemma ids_actions : NoDup (actions_in pre).*1.
Proof. eapply sublist_NoDup; [apply Hv|apply action_ids]. Qed.

Section ends.
Context (f : NodeFinished) (e : Envelope).
Hypothesis He : finished_of e = Some f.
Hypothesis Hopen : flags v !! nf_id f = Some false.

Lemma end_fresh : nf_id f ∉ nf_id <$> finished_in pre.
Proof. intros Hin%(vp_finished _ _ Hv). congruence. Qed.

Lemma end_started : started_in (pre ++ [e]) = started_in pre.
Proof.
  assert (Hs : started_of e = None) by (unfold started_of, finished_of in *; by destruct (ev_event e) as [[]|]).
  by rewrite started_snoc, Hs, app_nil_r.
Qed.

Lemma end_status id :
  status_in (finished_in (pre ++ [e])) id = if decide (nf_id f = id) then nf_status f else status_in (finished_in pre) id.
Proof. rewrite finished_snoc, He. apply status_snoc, end_fresh. Qed.

Lemma end_quiet : wait_of e = None ∧ warning_of e = None.
Proof. unfold wait_of, warning_of, finished_of in *. by destruct (ev_event e) as [[]|]. Qed.

Lemma changes_end :
  update_at (change_status (nf_status f)) (bd_changes b !! nf_id f) (changes_so_far pre) =
  Some (changes_so_far (pre ++ [e])).
Proof.
  rewrite (bt_changes _ _ _ Hb). unfold changes_so_far. rewrite update_keyed by apply ids_actions.
  unfold actions_in. rewrite end_started. f_equal. apply list_fmap_ext. intros i x _. rewrite end_status.
  destruct (decide (x.1 = nf_id f)) as [Hx|Hx]; [by rewrite decide_True|by rewrite decide_False by congruence].
Qed.

Lemma steps_end :
  update_at (step_status (nf_status f)) (bd_steps b !! nf_id f) (steps_so_far pre) =
  Some (steps_so_far (pre ++ [e])).
Proof.
  rewrite (bt_steps _ _ _ Hb). unfold steps_so_far. rewrite update_keyed by apply ids_steps.
  unfold step_nodes. rewrite end_started. f_equal. apply list_fmap_ext. intros i x _. rewrite end_status.
  destruct (decide (x.1 = nf_id f)) as [Hx|Hx]; [by rewrite decide_True|by rewrite decide_False by congruence].
Qed.

(** Which rollbacks succeeded. *)
Lemma succeeded_end id :
  succeeded (finished_in (pre ++ [e])) id =
  if decide (nf_id f = id) then bool_decide (Status_field (nf_status f) = Status_Succeeded)
  else succeeded (finished_in pre) id.
Proof. unfold succeeded. rewrite end_status. by case_decide. Qed.

Lemma succeeded_open : succeeded (finished_in pre) (nf_id f) = false.
Proof. unfold succeeded. by rewrite status_fresh by apply end_fresh. Qed.

Lemma rolled_end x :
  x ∈ (match bd_nodes b !! nf_id f with
       | Some (_, Node_Rollback step) =>
           if decide (Status_field (nf_status f) = Status_Succeeded)
           then bd_rolled_back b ++ [step] else bd_rolled_back b
       | _ => bd_rolled_back b
       end) ↔
  ∃ n, n ∈ started_in pre ∧ undoes n = Some x ∧ succeeded (finished_in (pre ++ [e])) (ns_id n) = true.
Proof.
  set (r := match _ with Some _ => _ | None => _ end).
  assert (Hr : x ∈ r ↔ x ∈ bd_rolled_back b ∨
    ∃ n, n ∈ started_in pre ∧ undoes n = Some x ∧ ns_id n = nf_id f ∧ Status_field (nf_status f) = Status_Succeeded).
  { unfold r. rewrite (bt_nodes _ _ _ Hb).
    destruct (find _ _) as [m|] eqn:Hm; simpl.
    - unfold find in Hm. apply fmap_Some in Hm as ([j m'] & Hm & ->).
      apply list_find_Some in Hm as (Hj & Hid & _). simpl in *.
      assert (Hin : m' ∈ started_in pre) by by eapply list_elem_of_lookup_2.
      assert (Honly : ∀ n, n ∈ started_in pre → ns_id n = nf_id f → n = m').
      { intros n Hn Hnid. assert (H1 := find_by_id ns_id _ n (vp_nodup _ _ Hv) Hn).
        assert (H2 := find_by_id ns_id _ m' (vp_nodup _ _ Hv) Hin). rewrite Hid in H2. rewrite Hnid in H1. congruence. }
      unfold undoes. destruct (ns_kind m') as [[]|] eqn:Hk; simpl;
        try (split; [by left|intros [?|(n & Hn & Hu & Hnid & _)]; [done|]; rewrite (Honly n Hn Hnid), Hk in Hu; done]).
      case_decide as Hs; [rewrite elem_of_app, list_elem_of_singleton|]; split.
      + intros [?| ->]; [by left|right]. exists m'. by rewrite Hk.
      + intros [?|(n & Hn & Hu & Hnid & _)]; [by left|right]. rewrite (Honly n Hn Hnid), Hk in Hu. congruence.
      + by left.
      + intros [?|(n & _ & _ & _ & ?)]; done.
    - split; [by left|]. intros [?|(n & Hn & _ & Hnid & _)]; [done|].
      assert (H1 := find_by_id ns_id _ n (vp_nodup _ _ Hv) Hn). rewrite Hnid in H1. unfold find in *. congruence. }
  rewrite Hr, (bt_rolled _ _ _ Hb). assert (Ho := succeeded_open). split.
  - intros [(n & Hn & Hu & Hs)|(n & Hn & Hu & Hnid & Hs)]; exists n; (split_and!; [done..|]); rewrite succeeded_end.
    + rewrite decide_False; [done|]. intros Heq. rewrite <- Heq in Hs. congruence.
    + rewrite decide_True by done. by apply bool_decide_eq_true.
  - intros (n & Hn & Hu & Hs). rewrite succeeded_end in Hs. case_decide as Hid; [right|left]; exists n; [|done].
    apply bool_decide_eq_true in Hs. by split_and!.
Qed.

Lemma so_far_end :
  document_so_far request (pre ++ [e]) =
  set_steps (steps_so_far (pre ++ [e])) (set_changes (changes_so_far (pre ++ [e])) (document_so_far request pre)).
Proof.
  unfold document_so_far, set_steps, set_changes. simpl. destruct end_quiet as [Hw Hwa].
  by rewrite end_started, !omap_snoc, Hw, Hwa, !app_nil_r.
Qed.

Lemma finished_built : ∃ b', builder_finished f b = Some b' ∧ built request (pre ++ [e]) b'.
Proof.
  unfold builder_finished. rewrite (bt_document _ _ _ Hb). simpl.
  rewrite changes_end, steps_end. simpl. eexists. split; [reflexivity|]. split; simpl.
  - rewrite end_started. apply Hb.
  - rewrite end_started. apply Hb.
  - unfold step_nodes. rewrite end_started. apply Hb.
  - unfold actions_in. rewrite end_started. apply Hb.
  - intros x. rewrite end_started. apply rolled_end.
  - by rewrite so_far_end.
Qed.
End ends.
End builder_steps.

(** *** The root finishes *)

Lemma index_of_Some {A} id (l : list (N * A)) i : index_of id l = Some i → ∃ x, l !! i = Some x ∧ x.1 = id.
Proof.
  unfold index_of. intros ([j x] & Hf & ->)%fmap_Some. apply list_find_Some in Hf as (Hj & Hx & _). by exists x.
Qed.

Lemma index_of_None {A} id (l : list (N * A)) : index_of id l = None → id ∉ l.*1.
Proof.
  unfold index_of. intros Hf%fmap_None. apply list_find_None in Hf. rewrite Forall_forall in Hf.
  intros (x & -> & Hx)%list_elem_of_fmap. by apply (Hf x).
Qed.

Lemma undo_keyed {A} indices (l : list (N * A)) (g : N * A → StepResult) rolled :
  NoDup l.*1 → (∀ id, indices !! id = index_of id l) →
  ∃ keys,
    undo_steps indices rolled (g <$> l) =
      Some ((λ s, if decide (s.1 ∈ rolled) then step_undone (g s) else g s) <$> l, keys) ∧
    ∀ key, key ∈ keys ↔ ∃ s, s ∈ l ∧ s.1 ∈ rolled ∧ st_key (g s) = key.
Proof.
  intros Hd Hi. revert g. induction rolled as [|step rolled IH]; intros g.
  { exists []. split.
    - simpl. do 2 f_equal.
    - intros key. rewrite elem_of_nil. split; [done|]. intros (s & _ & Hs & _). by apply elem_of_nil in Hs. }
  simpl. rewrite Hi. destruct (index_of step l) as [index|] eqn:Hix.
  - destruct (index_of_Some _ _ _ Hix) as (s0 & Hs0 & Hid).
    set (g' := λ x : N * A, if decide (x.1 = step) then step_undone (g x) else g x).
    assert (Hu : update_at step_undone (Some index) (g <$> l) = Some (g' <$> l)).
    { rewrite <- Hix. by apply update_keyed. }
    assert (Hk : ∀ x, st_key (g' x) = st_key (g x)) by (intros x; unfold g'; by case_decide).
    unfold update_at in Hu. destruct (decide (index < length (g <$> l))); [|done]. injection Hu as ->. simpl.
    rewrite list_lookup_fmap, Hs0. simpl. destruct (IH g') as (keys & -> & Hkeys). simpl.
    eexists. split; [do 2 f_equal; apply list_fmap_ext; intros i x _|].
    + unfold g'. destruct (decide (x.1 = step)) as [Hx|Hx], (decide (x.1 ∈ rolled)) as [Hr|Hr].
      all: destruct (decide (x.1 ∈ step :: rolled)) as [Hr'|Hr']; rewrite elem_of_cons in Hr'; done || (exfalso; naive_solver).
    + intros key. rewrite elem_of_cons, Hkeys, Hk. split.
      * intros [->|(s & Hs & Hr & Hks)].
        -- exists s0. split_and!; [by eapply list_elem_of_lookup_2|rewrite Hid; left|done].
        -- exists s. rewrite Hk in Hks. split_and!; [done|by right|done].
      * intros (s & Hs & Hr & Hks). rewrite elem_of_cons in Hr. destruct Hr as [Hr|Hr].
        -- left. assert (s = s0) as ->; [|done]. apply list_elem_of_lookup in Hs as [j Hj].
           assert (j = index); [|by simplify_eq]. apply (NoDup_lookup _ j index step Hd); rewrite list_lookup_fmap; [by rewrite Hj, <- Hr|by rewrite Hs0, <- Hid].
        -- right. exists s. by rewrite Hk.
  - destruct (IH g) as (keys & -> & Hkeys). apply index_of_None in Hix.
    assert (Hne : ∀ x, x ∈ l → x.1 ≠ step) by (intros x Hx <-; by apply Hix, list_elem_of_fmap_2).
    exists keys. split; [do 2 f_equal; apply list_fmap_ext; intros i x Hx%list_elem_of_lookup_2|].
    + specialize (Hne x Hx). destruct (decide (x.1 ∈ rolled)), (decide (x.1 ∈ step :: rolled)) as [Hr|Hr]; try done;
        rewrite elem_of_cons in Hr; exfalso; naive_solver.
    + intros key. rewrite Hkeys. split; intros (s & Hs & Hr & Hks); exists s; (split_and!; [done| |done]); [by right|].
      rewrite elem_of_cons in Hr. destruct Hr as [Hr|]; [by destruct (Hne s Hs)|done].
Qed.

Section root.
Context (repair_reports : bytes → list (string * option Diagnostic)).
Context (request : string) (pre : list Envelope) (v : Validator) (b : Builder).
Hypothesis Hv : valid_pre pre v.
Hypothesis Hb : built request pre b.
Context (root : NodeFinished) (e : Envelope).
Hypothesis He : finished_of e = Some root.
Hypothesis Hroot : nf_id root = ROOT.
Hypothesis Hopen : flags v !! nf_id root = Some false.
Hypothesis Hrequest : request = from_option ev_request "" (head (pre ++ [e])).

(** The root is neither a step, nor an action, nor a rollback. *)
Lemma root_node n : n ∈ started_in pre → ns_id n = ROOT → ∃ c, ns_kind n = Some (Kind_Command c).
Proof.
  intros Hn Hid. assert (Hr := vp_rooted _ _ Hv). assert (Hd := vp_nodup _ _ Hv).
  destruct (started_in pre) as [|m l]; [by apply elem_of_nil in Hn|]. destruct Hr as [Hm Hk].
  rewrite elem_of_cons in Hn. destruct Hn as [->|Hn]; [done|]. rewrite fmap_cons in Hd. apply NoDup_cons in Hd as [Hd _].
  destruct Hd. rewrite Hm, <- Hid. by apply list_elem_of_fmap_2.
Qed.

Lemma root_status n :
  n ∈ started_in pre → (∀ c, ns_kind n ≠ Some (Kind_Command c)) →
  status_in (finished_in (pre ++ [e])) (ns_id n) = status_in (finished_in pre) (ns_id n).
Proof.
  intros Hn Hk. rewrite (end_status pre v Hv root e He Hopen), decide_False; [done|].
  intros Hid. rewrite Hroot in Hid. destruct (root_node n Hn) as [c Hc]; [done|]. by destruct (Hk c).
Qed.

Lemma step_node_in x : x ∈ step_nodes pre → ∃ n, n ∈ started_in pre ∧ ns_id n = x.1 ∧ (∀ c, ns_kind n ≠ Some (Kind_Command c)) ∧
  st_undone x.2 = false.
Proof.
  intros (n & Hn & Hs)%list_elem_of_omap. exists n. unfold step_node in Hs. destruct (ns_kind n) as [[]|]; by simplify_eq.
Qed.

Lemma action_node_in dry before l x : x ∈ action_nodes dry before l →
  ∃ n, n ∈ l ∧ ns_id n = x.1 ∧ (∀ c, ns_kind n ≠ Some (Kind_Command c)).
Proof.
  revert dry before. induction l as [|m l IH]; intros dry before; simpl; [by intros ?%elem_of_nil|].
  intros [Hx|Hx]%elem_of_app.
  - exists m. split; [left|]. unfold action_node in Hx. destruct (ns_kind m) as [[| | | | | | | | |operation subject]|]; try by apply elem_of_nil in Hx.
    destruct (above _ _); [|by apply elem_of_nil in Hx]. destruct (change_action operation); [|by apply elem_of_nil in Hx].
    apply list_elem_of_singleton in Hx as ->. done.
  - destruct (IH _ _ Hx) as (n & Hn & H). exists n. split; [by right|done].
Qed.

(** A step was undone when a rollback of it is among those that succeeded. *)
Lemma undone_rolled id : undone_in (pre ++ [e]) id = bool_decide (id ∈ bd_rolled_back b).
Proof.
  assert (Hst : started_in (pre ++ [e]) = started_in pre) by apply (end_started pre root e He).
  apply eq_bool_prop_intro. unfold undone_in. rewrite Hst, bool_decide_spec, (bt_rolled _ _ _ Hb).
  rewrite Is_true_true, existsb_exists. split.
  - intros (n & Hn & [Hu%bool_decide_eq_true Hs]%andb_true_iff). apply list_elem_of_In in Hn. exists n. split_and!; [done..|].
    unfold succeeded in *. rewrite root_status in Hs; [done|done|]. intros c Hc. unfold undoes in Hu. by rewrite Hc in Hu.
  - intros (n & Hn & Hu & Hs). exists n. split; [by apply list_elem_of_In|]. apply andb_true_iff. split; [by apply bool_decide_eq_true|].
    unfold succeeded in *. rewrite root_status; [done|done|]. intros c Hc. unfold undoes in Hu. by rewrite Hc in Hu.
Qed.

Lemma steps_root :
  (λ s : N * StepResult, if decide (s.1 ∈ bd_rolled_back b)
     then step_undone (step_status (status_in (finished_in pre) s.1) s.2)
     else step_status (status_in (finished_in pre) s.1) s.2) <$> step_nodes pre = steps_in (pre ++ [e]).
Proof.
  unfold steps_in. assert (Hst : started_in (pre ++ [e]) = started_in pre) by apply (end_started pre root e He).
  unfold step_nodes at 2. rewrite Hst. fold (step_nodes pre). apply list_fmap_ext. intros i s Hs%list_elem_of_lookup_2.
  destruct (step_node_in s Hs) as (n & Hn & Hid & Hk & Hu).
  rewrite undone_rolled, <- Hid, root_status, Hid by done.
  case_decide; [rewrite bool_decide_true by done|rewrite bool_decide_false by done]; [done|].
  unfold step_status. by rewrite Hu.
Qed.

Lemma changes_root undone :
  (∀ key, key ∈ undone ↔ ∃ s, s ∈ step_nodes pre ∧ s.1 ∈ bd_rolled_back b ∧ st_key s.2 = key) →
  mark_undone undone <$> changes_so_far pre = changes_in (pre ++ [e]).
Proof.
  intros Hundone. unfold changes_in, changes_so_far. rewrite <- list_fmap_compose.
  assert (Hst : started_in (pre ++ [e]) = started_in pre) by apply (end_started pre root e He).
  rewrite Hst. fold (actions_in pre). apply list_fmap_ext. intros i c Hc%list_elem_of_lookup_2.
  destruct (action_node_in _ _ _ _ Hc) as (n & Hn & Hid & Hk). unfold mark_undone, change_status. simpl.
  rewrite <- Hid. unfold succeeded. rewrite root_status by done. f_equal. f_equal.
  apply eq_bool_prop_intro. rewrite bool_decide_spec, Hundone, Is_true_true, existsb_exists, <- steps_root. split.
  - intros (s & Hs & Hr & Hks). eexists. split; [apply list_elem_of_In, list_elem_of_fmap_2, Hs|]. cbn beta.
    rewrite decide_True by done. simpl. by apply bool_decide_eq_true.
  - intros (x & (s & -> & Hs)%list_elem_of_In%list_elem_of_fmap & [Hu Hks%bool_decide_eq_true]%andb_true_iff).
    exists s. split; [done|]. destruct (step_node_in s Hs) as (m & _ & _ & _ & Hfalse).
    destruct (decide (s.1 ∈ bd_rolled_back b)); simpl in *; [done|congruence].
Qed.

Lemma root_built : ∃ d b', builder_finish repair_reports root b = Some (d, b') ∧ document_in repair_reports (pre ++ [e]) = Some d.
Proof.
  unfold builder_finish. rewrite (bt_document _ _ _ Hb). simpl.
  destruct (undo_keyed (bd_steps b) (step_nodes pre) (λ s, step_status (status_in (finished_in pre) s.1) s.2)
    (bd_rolled_back b) (ids_steps pre v Hv) (bt_steps _ _ _ Hb)) as (undone & Hu & Hundone).
  unfold steps_so_far. rewrite Hu. simpl. eexists _, _. split; [reflexivity|].
  unfold document_in. assert (Hfresh := end_fresh pre v Hv root Hopen).
  rewrite finished_snoc, He. simpl. rewrite find_snoc, decide_True by done. simpl.
  destruct (end_quiet root e He) as [Hw Hwa]. assert (Hst := end_started pre root e He).
  rewrite Hst, !omap_snoc, Hw, Hwa, !app_nil_r, steps_root, changes_root by done. by rewrite Hrequest.
Qed.
End root.

(** ** The whole stream *)

Definition request_at (pre : list Envelope) : string := from_option ev_request "" (head pre).

Section stream.
Context (repair_reports : bytes → list (string * option Diagnostic)).

(** The request's name is taken from the first envelope. *)
Lemma request_taken pre v e b :
  built (request_at pre) pre b → v_request v = ev_request <$> head pre →
  (∀ r, v_request v = Some r → r = ev_request e) →
  built (request_at (pre ++ [e])) pre
    (if decide (dc_request (bd_document b) = "") then set_document (set_request (ev_request e) (bd_document b)) b else b).
Proof.
  intros Hb Hq Hr. assert (Hreq : request_at (pre ++ [e]) = if decide (request_at pre = "") then ev_request e else request_at pre).
  { unfold request_at in *. destruct pre as [|x pre]; [done|]. simpl in *. case_decide; [|done]. by apply Hr. }
  rewrite Hreq, (bt_document _ _ _ Hb). simpl. destruct Hb. by case_decide; split.
Qed.

(** The builder that knows the request's name. *)
Definition taken (e : Envelope) (b : Builder) : Builder :=
  if decide (dc_request (bd_document b) = "") then set_document (set_request (ev_request e) (bd_document b)) b else b.

Lemma set_nothing b : set_document (set_waits (dc_waits (bd_document b) ++ [])
  (set_warnings (dc_warnings (bd_document b) ++ []) (bd_document b))) b = b.
Proof. rewrite !app_nil_r. by destruct b as [[]]. Qed.

Lemma envelope_quiet e b :
  started_of e = None → finished_of e = None →
  builder_envelope repair_reports e b =
    let b := taken e b in
    let d := bd_document b in
    Some (None, set_document (set_waits (dc_waits d ++ option_list (wait_of e))
                  (set_warnings (dc_warnings d ++ option_list (warning_of e)) d)) b).
Proof.
  unfold builder_envelope, started_of, finished_of, wait_of, warning_of. fold (taken e b). generalize (taken e b). clear b.
  intros b Hs Hf. cbv zeta. destruct (ev_event e) as [[n|p|f|n|g]|]; try done; try by rewrite set_nothing.
  - destruct (np_progress p) as [[]|]; rewrite ?set_nothing; try done. simpl. rewrite app_nil_r. by destruct b as [[]].
  - case_decide; [|by rewrite set_nothing]. simpl. rewrite app_nil_r. by destruct b as [[]].
Qed.

(** One envelope that does not finish the root, and the one that does. *)
Lemma envelope_built pre v e v' b :
  valid_pre pre v → built (request_at pre) pre b → v_push v e = Ok v' →
  if root_finished v'
  then ∃ d b', builder_envelope repair_reports e b = Some (Some d, b') ∧ document_in repair_reports (pre ++ [e]) = Some d
  else ∃ b', builder_envelope repair_reports e b = Some (None, b') ∧ built (request_at (pre ++ [e])) (pre ++ [e]) b'.
Proof.
  intros Hv Hb Hp. apply push_checked in Hp as (Hroot & v1 & Hf & Hr & Hq & Hreq & Hev).
  assert (Hb1 := request_taken pre v e b Hb (vp_request _ _ Hv) Hreq). fold (taken e b) in Hb1.
  assert (Hquiet : started_of e = None → finished_of e = None → root_finished v' = root_finished v1 →
    if root_finished v'
    then ∃ d b', builder_envelope repair_reports e b = Some (Some d, b') ∧ document_in repair_reports (pre ++ [e]) = Some d
    else ∃ b', builder_envelope repair_reports e b = Some (None, b') ∧ built (request_at (pre ++ [e])) (pre ++ [e]) b').
  { intros Hs Hfi ->. rewrite Hr, Hroot, envelope_quiet by done. cbv zeta. eexists. split; [done|].
    apply built_quiet; [done..|]. rewrite so_far_quiet by done. by rewrite (bt_document _ _ _ Hb1). }
  destruct (ev_event e) as [event|] eqn:He; [destruct Hev as [_ Hev]|].
  2: apply Hquiet; [by unfold started_of; rewrite He|by unfold finished_of; rewrite He|by rewrite Hev].
  destruct (started_of e) as [n|] eqn:Hs; [|destruct (finished_of e) as [f|] eqn:Hfi].
  - unfold started_of in Hs. rewrite He in Hs. destruct event; try done. injection Hs as ->. simpl in Hev.
    destruct (v_started_flags _ _ _ Hev) as (Hnew & _ & _ & _ & Hroot' & _). rewrite Hf in Hnew.
    assert (Hs : started_of e = Some n) by (unfold started_of; by rewrite He).
    destruct (started_built _ _ _ _ Hv Hb1 n e Hs Hnew) as (b' & Hb' & Hbuilt).
    rewrite Hroot', Hr, Hroot. unfold builder_envelope. fold (taken e b). rewrite He, Hb'. by exists b'.
  - unfold finished_of in Hfi. rewrite He in Hfi. destruct event; try done. injection Hfi as ->. simpl in Hev.
    destruct (v_finished_flags _ _ _ Hev) as (Hopen & _ & Hroot' & _). rewrite Hf in Hopen.
    assert (Hfi : finished_of e = Some f) by (unfold finished_of; by rewrite He).
    rewrite Hroot', Hr, Hroot. unfold builder_envelope. fold (taken e b). rewrite He. case_decide as Hid.
    + destruct (root_built repair_reports _ _ _ _ Hv Hb1 f e Hfi Hid Hopen eq_refl) as (d & b' & -> & Hd).
      simpl. by exists d, b'.
    + destruct (finished_built _ _ _ _ Hv Hb1 f e Hfi Hopen) as (b' & -> & Hbuilt). by exists b'.
  - apply Hquiet; [done..|]. apply v_other_flags in Hev as (_ & Ho & _); [done|].
    unfold started_of, finished_of in *. rewrite He in Hs, Hfi. by destruct event.
Qed.

Lemma stream_built es pre v b v' :
  valid_pre pre v → built (request_at pre) pre b → root_finished v = false →
  v_pushes v es = Ok v' → root_finished v' = true →
  ∃ d, document_from repair_reports b es = Some (Some d) ∧ document_in repair_reports (pre ++ es) = Some d.
Proof.
  revert pre v b. induction es as [|e es IH]; intros pre v b Hv Hb Hroot Hp Hend; simpl in Hp.
  { injection Hp as <-. congruence. }
  apply bind_Ok in Hp as (v1 & Hp & Hes). assert (He := envelope_built pre v e v1 b Hv Hb Hp).
  assert (Hv1 := valid_push pre v e v1 Hv Hp). simpl. destruct (root_finished v1) eqn:Hr1.
  - destruct He as (d & b' & -> & Hd). simpl. exists d. split; [done|].
    destruct es as [|e2 es]; [done|]. simpl in Hes. apply bind_Ok in Hes as (v2 & Hp2 & _).
    apply push_checked in Hp2 as [Hr2 _]. congruence.
  - destruct He as (b' & -> & Hb'). simpl. rewrite cons_middle, app_assoc. by apply (IH _ v1).
Qed.

(** C18. Of every stream the validator accepts, as any use of the event tree leaves one, [--json]
    prints exactly one document: no index is out of range, the walk from an action up to its step
    ends, and what was gathered event by event is what the whole stream says.  Its steps are the
    steps that started, in order, each with the status it ended with, and marked undone when a
    rollback of it succeeded; its changes are the actions under a step, those of rollbacks left
    out, with the step's key, and marked undone when the action had succeeded and a step of that
    key was undone; its waits, warnings, problems, result and exit are those of the stream. *)
Theorem document_exact es entries :
  validate es = Ok entries →
  ∃ d, document_of repair_reports es = Some (Some d) ∧ document_in repair_reports es = Some d.
Proof.
  unfold validate, v_finish. intros (v & Hp & Hf)%bind_Ok.
  destruct (root_finished v) eqn:Hr; [|done].
  by apply (stream_built es [] validator_new builder_default v valid_pre_new built_new).
Qed.
End stream.

(** *** A request that was rolled back *)

Definition finished (id : N) (status : Status) : Event :=
  Event_NodeFinished (mkNodeFinished id (Status_i32 status) None 0 0 None).
Definition started (id parent : N) (key : string) (kind : NodeKind) : Event :=
  Event_NodeStarted (mkNodeStarted id parent key [] false (Some kind)).

Definition rolled_back_stream : list Envelope :=
  imap (λ i event, mkEnvelope (N.of_nat i + 1) "r1" (Some event))
    [started 1 0 "install" (Kind_Command (mkCommand "0.1.0" 1 false (Some (Request_Install ""))));
     started 2 1 "lock" (Kind_LockWait "/run/mix/lock" (Some "alice") None); finished 2 Status_Succeeded;
     started 3 1 "write-config" (Kind_Step Verb_Writing "package list");
     started 4 3 "put" (Kind_Action Operation_PutFile "/state"); finished 4 Status_Succeeded;
     finished 3 Status_Succeeded;
     started 5 1 "undo" (Kind_Rollback 3);
     started 6 5 "restore" (Kind_Action Operation_Restore "/state"); finished 6 Status_Succeeded;
     finished 5 Status_Succeeded;
     finished 1 Status_Failed]%N.

Lemma document_exact_witness :
  ∃ d, document_of (λ _, []) rolled_back_stream = Some (Some d) ∧
    dc_steps d = [mkStepResult "write-config" Verb_Writing "package list" 1 true] ∧
    dc_changes d = [mkChange "write-config" Change_Update Operation_PutFile "/state" 1 true []].
Proof.
  destruct (document_exact (λ _, []) rolled_back_stream
    (match validate rolled_back_stream with Ok entries => entries | Err _ => [] end)) as (d & Hd & Hin).
  { vm_compute. reflexivity. }
  exists d. split; [exact Hd|]. vm_compute in Hin. injection Hin as <-. split; reflexivity.
Defined.
