(* ===== verification/Runner.v ===== *)
(** * The step runner

    [crates/core/src/run/mod.rs]: the state machine that checks and executes a list of
    steps, rolls them back when one fails or the request is cancelled, and commits.  It
    performs nothing itself: [step] runs to the next thing its driver has to do for it
    and the driver's answer is the next call's input.

    [None] is a panic: an index out of range, an [expect] on the tree, an answer of the
    wrong kind.  One turn of the loop of [step] is [turn]; [step] has fuel for the loop
    and [Stepped_Unfinished] says it ran out.  The branding of a session ([Id<'id>]) has
    no run-time content. *)
From S2P Require Import Prelude.
From S2P Require Import Paths.
From S2P Require Import Effect.
From S2P Require Import Events.
From S2P Require Import EventTree.
From S2P Require Import Diagnose.
From S2P Require Import Journal.

Local Open Scope nat_scope.

(** ** Steps, inputs and answers *)

Record StepSpec := mkStepSpec {
  sp_key : string;
  sp_title : Verb * string;
  sp_queries : list Query;
  sp_actions : list Fact → result Failure (list Action);
  sp_shielded : bool;
  sp_after : list nat;
  sp_within : nat * nat }.

Inductive Input :=
  | Input_Facts (facts : result Failure (list Fact))
  | Input_Done (outcome : Outcome).

Inductive Next :=
  | Next_Observe (queries : list Query)
  | Next_Perform (action : Action)
  | Next_Finished.
#[export] Instance Next_eq_dec : EqDecision Next.
Proof. solve_decision. Defined.

Inductive Verdict :=
  | Verdict_Succeeded
  | Verdict_Failed (step : string) (failure : Failure)
  | Verdict_Cancelled (cause : Cancellation).
#[export] Instance Verdict_eq_dec : EqDecision Verdict.
Proof. solve_decision. Defined.

Inductive StepOutcome :=
  | StepOutcome_Satisfied
  | StepOutcome_Changed
  | StepOutcome_Failed (failure : Failure)
  | StepOutcome_Cancelled (cause : Cancellation)
  | StepOutcome_Blocked (by_ : string).
#[export] Instance StepOutcome_eq_dec : EqDecision StepOutcome.
Proof. solve_decision. Defined.

Record Report := mkReport {
  rp_verdict : Verdict; rollback_failures : list (string * Failure);
  rp_steps : list (string * StepOutcome) }.

Inductive After := After_Close | After_Continue (next : nat) | After_Commit.

Record Doubt := mkDoubt { db_step : nat; db_undo : list Action }.

Record Undoing := mkUndoing {
  ud_step : nat; ud_node : N; doubtful : list Action; ud_queue : list Action;
  doubting : bool; ud_failed : bool }.

Inductive Phase :=
  | Phase_Opening
  | Phase_Checking (step : nat) (asked : bool)
  | Phase_Executing (step : nat) (node : N) (queue : list Action) (awaiting : bool)
  | Phase_RollingBack (remaining : list nat) (current : option Undoing) (awaiting : bool)
  | Phase_Committing (awaiting : bool) (reclaim : option N)
  | Phase_Closing
  | Phase_Closed.

Record Runner := mkRunner {
  steps : list StepSpec;
  r_parent : N;
  plan : N;
  journal : list (list (list Action));
  doubts : list Doubt;
  r_nodes : list (option N);
  phase : Phase;
  stop : option Cancellation;
  verdict : option Verdict;
  report : Report;
  acting : option N;
  performed : N;
  independent : bool;
  after : After;
  causes : list (option nat) }.

(** ** Assignments to the fields *)

Definition set_plan (x : N) (r : Runner) : Runner :=
  mkRunner (steps r) (r_parent r) x (journal r) (doubts r) (r_nodes r) (phase r) (stop r)
    (verdict r) (report r) (acting r) (performed r) (independent r) (after r) (causes r).
Definition set_journal (x : list (list (list Action))) (r : Runner) : Runner :=
  mkRunner (steps r) (r_parent r) (plan r) x (doubts r) (r_nodes r) (phase r) (stop r)
    (verdict r) (report r) (acting r) (performed r) (independent r) (after r) (causes r).
Definition set_doubts (x : list Doubt) (r : Runner) : Runner :=
  mkRunner (steps r) (r_parent r) (plan r) (journal r) x (r_nodes r) (phase r) (stop r)
    (verdict r) (report r) (acting r) (performed r) (independent r) (after r) (causes r).
Definition set_nodes (x : list (option N)) (r : Runner) : Runner :=
  mkRunner (steps r) (r_parent r) (plan r) (journal r) (doubts r) x (phase r) (stop r)
    (verdict r) (report r) (acting r) (performed r) (independent r) (after r) (causes r).
Definition set_phase (x : Phase) (r : Runner) : Runner :=
  mkRunner (steps r) (r_parent r) (plan r) (journal r) (doubts r) (r_nodes r) x (stop r)
    (verdict r) (report r) (acting r) (performed r) (independent r) (after r) (causes r).
Definition set_stop (x : option Cancellation) (r : Runner) : Runner :=
  mkRunner (steps r) (r_parent r) (plan r) (journal r) (doubts r) (r_nodes r) (phase r) x
    (verdict r) (report r) (acting r) (performed r) (independent r) (after r) (causes r).
Definition set_verdict (x : option Verdict) (r : Runner) : Runner :=
  mkRunner (steps r) (r_parent r) (plan r) (journal r) (doubts r) (r_nodes r) (phase r) (stop r)
    x (report r) (acting r) (performed r) (independent r) (after r) (causes r).
Definition set_report (x : Report) (r : Runner) : Runner :=
  mkRunner (steps r) (r_parent r) (plan r) (journal r) (doubts r) (r_nodes r) (phase r) (stop r)
    (verdict r) x (acting r) (performed r) (independent r) (after r) (causes r).
Definition set_acting (x : option N) (r : Runner) : Runner :=
  mkRunner (steps r) (r_parent r) (plan r) (journal r) (doubts r) (r_nodes r) (phase r) (stop r)
    (verdict r) (report r) x (performed r) (independent r) (after r) (causes r).
Definition set_performed (x : N) (r : Runner) : Runner :=
  mkRunner (steps r) (r_parent r) (plan r) (journal r) (doubts r) (r_nodes r) (phase r) (stop r)
    (verdict r) (report r) (acting r) x (independent r) (after r) (causes r).
Definition set_independent (x : bool) (r : Runner) : Runner :=
  mkRunner (steps r) (r_parent r) (plan r) (journal r) (doubts r) (r_nodes r) (phase r) (stop r)
    (verdict r) (report r) (acting r) (performed r) x (after r) (causes r).
Definition set_after (x : After) (r : Runner) : Runner :=
  mkRunner (steps r) (r_parent r) (plan r) (journal r) (doubts r) (r_nodes r) (phase r) (stop r)
    (verdict r) (report r) (acting r) (performed r) (independent r) x (causes r).
Definition set_causes (x : list (option nat)) (r : Runner) : Runner :=
  mkRunner (steps r) (r_parent r) (plan r) (journal r) (doubts r) (r_nodes r) (phase r) (stop r)
    (verdict r) (report r) (acting r) (performed r) (independent r) (after r) x.

(** [Option::get_or_insert]. *)
Definition get_or_insert {A} (x : A) (o : option A) : option A :=
  match o with None => Some x | o => o end.

(** ** Construction *)

(** [Runner::new]. *)
Definition runner_new (parent : N) (steps : list StepSpec) : Runner :=
  mkRunner steps parent 0 (replicate (length steps) []) [] (replicate (length steps) None)
    Phase_Opening None None (mkReport Verdict_Succeeded [] []) None 0 false After_Close [].

(** [Runner::independent]. *)
Definition runner_independent (r : Runner) : Runner := set_independent true r.

(** ** Queries of the state *)

(** [Runner::blocker]. *)
Definition blocker (r : Runner) (step : nat) : option (option nat) :=
  if decide (causes r = []) then Some None
  else
    spec ← steps r !! step;
    Some (find_map (λ dependency, mjoin (causes r !! dependency))
            (sp_after spec ++ seq (sp_within spec).1 ((sp_within spec).2 - (sp_within spec).1))).

(** [Runner::current_node]. *)
Definition current_node (r : Runner) : option N :=
  match acting r with
  | Some node => Some node
  | None =>
      match phase r with
      | Phase_Executing _ node _ _ => Some node
      | Phase_RollingBack _ (Some undoing) _ => Some (ud_node undoing)
      | _ => None
      end
  end.

(** [Runner::rolling_back]. *)
Definition rolling_back (r : Runner) : bool :=
  match phase r with Phase_RollingBack _ _ _ => true | _ => false end.

(** [self.steps[step].shielded()] at a step in range. *)
Definition shielded_step (r : Runner) (step : nat) : bool :=
  from_option sp_shielded false (steps r !! step).

(** [Runner::cancellable]. *)
Definition cancellable (r : Runner) : bool :=
  let last := length (steps r) in
  match phase r with
  | Phase_Opening | Phase_RollingBack _ _ _ => true
  | Phase_Checking step _ => bool_decide (step < last)
  | Phase_Executing step _ _ _ => negb (shielded_step r step) || bool_decide (step + 1 < last)
  | Phase_Committing _ _ | Phase_Closing | Phase_Closed => false
  end.

(** [Runner::shielded]. *)
Definition runner_shielded (r : Runner) : bool :=
  match phase r with
  | Phase_RollingBack _ _ _ | Phase_Committing _ None => true
  | Phase_Executing step _ _ _ => shielded_step r step
  | _ => false
  end.

(** [Runner::reclaims]. *)
Definition reclaims (r : Runner) : bool :=
  existsb (λ undo, match undo with Action_Keep _ => true | _ => false end)
    (concat (concat (journal r))).

(** Whether a step left something to undo. *)
Definition owned (r : Runner) (step : nat) : bool :=
  negb (bool_decide (journal r !! step = Some [])) ||
  existsb (λ doubt, bool_decide (db_step doubt = step)) (doubts r).

(** ** Calls from the driver *)

(** [Runner::in_doubt]. *)
Definition in_doubt (undo : list Action) (r : Runner) : Runner :=
  match phase r with
  | Phase_Executing step _ _ _ =>
      if decide (undo = []) then r else set_doubts (doubts r ++ [mkDoubt step undo]) r
  | _ => r
  end.

(** [Runner::stop]. *)
Definition runner_stop (cause : Cancellation) (r : Runner) : Runner :=
  set_stop (get_or_insert cause (stop r)) r.

(** ** Parts of a turn *)

(** The function [finish]. *)
Definition finish_node (t : Tree) (node : N) (ending : Ending) : option Tree :=
  match finish t node ending with
  | Some (Ok _, t) => Some t
  | _ => None
  end.

(** [tree.start(..).expect(..)]. *)
Definition start_node (t : Tree) (parent : N) (s : Start) : option (N * Tree) :=
  match start t parent s with
  | (Ok id, t) => Some (id, t)
  | (Err _, _) => None
  end.

(** [tree.warn(..).expect(..)]. *)
Definition warn_node (t : Tree) (id : N) (d : Diagnostic) : option Tree :=
  match warn t id d with
  | (Ok _, t) => Some t
  | (Err _, _) => None
  end.

(** [Runner::record]. *)
Definition record (step : nat) (outcome : StepOutcome) (r : Runner) : option Runner :=
  if independent r then
    spec ← steps r !! step;
    let old := report r in
    Some (set_report (mkReport (rp_verdict old) (rollback_failures old)
                        (rp_steps old ++ [(sp_key spec, outcome)])) r)
  else Some r.

(** [Runner::caused]. *)
Definition caused (step cause : nat) (r : Runner) : Runner :=
  let before := if decide (causes r = []) then replicate (length (steps r)) None else causes r in
  set_causes (<[step := Some cause]> before) r.

(** [Runner::act]. *)
Definition act (t : Tree) (parent : N) (action : Action) (r : Runner)
    : option (Next * Runner * Tree) :=
  let r := set_performed (performed r + 1)%N r in
  let '(operation, subject) := describe action in
  '(node, t) ← start_node t parent
    (start_new ("action-" +:+ digits (performed r)) (Kind_Action operation subject));
  Some (Next_Perform action, set_acting (Some node) r, t).

(** What an outcome ends its node with, in [acted] and at the end of a commit. *)
Definition outcome_ending (outcome : Outcome) (cause : option Cancellation) : Ending :=
  match outcome with
  | Ok _ => ending_succeeded
  | Err Failure_Cancelled => ending_cancelled (default Cancellation_Interrupted cause)
  | Err failure => ending_failed (diagnostic failure)
  end.

(** [Runner::acted]. *)
Definition acted (t : Tree) (outcome : Outcome) (cause : option Cancellation) (r : Runner)
    : option (Runner * Tree) :=
  match acting r with
  | None => Some (r, t)
  | Some node =>
      t ← finish_node t node (outcome_ending outcome cause);
      Some (set_acting None r, t)
  end.

(** [Runner::finish_or_commit]. *)
Definition finish_or_commit (r : Runner) : Runner :=
  set_phase
    (if decide (Forall (λ undos, undos = []) (journal r)) then Phase_Closing
     else Phase_Committing false None) r.

(** [Runner::roll_back_only]. *)
Definition roll_back_only (step : nat) (after : After) (r : Runner) : Runner :=
  set_phase (Phase_RollingBack (if owned r step then [step] else []) None false)
    (set_after after r).

(** [Runner::roll_back]. *)
Definition roll_back (r : Runner) : Runner :=
  set_phase (Phase_RollingBack
    (filter (λ step, owned r step = true) (seq 0 (length (steps r)))) None false) r.

(** [Runner::fail]. *)
Definition fail (step : nat) (failure : Failure) (r : Runner) : option Runner :=
  let r := caused step step r in
  r ← record step (StepOutcome_Failed failure) r;
  spec ← steps r !! step;
  let failed := Verdict_Failed (sp_key spec) failure in
  Some (if independent r
        then roll_back_only step (After_Continue (step + 1))
               (set_verdict (get_or_insert failed (verdict r)) r)
        else roll_back (set_verdict (Some failed) r)).

(** [Runner::cancel]. *)
Definition cancel (cause : Cancellation) (current : option nat) (r : Runner) : Runner :=
  let r := set_verdict (Some (Verdict_Cancelled cause)) r in
  if negb (independent r) then roll_back r
  else match current with
       | Some step =>
           if owned r step then roll_back_only step After_Commit r else finish_or_commit r
       | None => finish_or_commit r
       end.

(** The function [incomplete]. *)
Definition incomplete (failures : list (string * Failure)) : Diagnostic :=
  mkDiagnostic (Code_i32 Code_RollbackIncomplete) (Severity_i32 Severity_Warning) 0
    (digits (N.of_nat (length failures)) +:+ " undo action(s) failed")
    ((λ e, diagnostic e.2) <$> failures)
    (Some (Detail_Steps (dedup failures.*1))).

(** The function [rollback_diagnostic]. *)
Definition rollback_diagnostic (failures : list (string * Failure)) (step : string) : Diagnostic :=
  incomplete (filter (λ e, e.1 = step) failures).

(** ** One turn of the loop of [step] *)

Inductive Turn :=
  | Again (r : Runner) (t : Tree) (input : option Input)
  | Yield (next : Next) (r : Runner) (t : Tree).

Definition yielded (n : Next * Runner * Tree) : Turn := Yield n.1.1 n.1.2 n.2.

(** [Phase::Opening]. *)
Definition turn_opening (r : Runner) (t : Tree) (input : option Input) : option Turn :=
  '(plan, t) ← start_node t (r_parent r)
    (start_planned (start_new "plan" (Kind_Plan "")) (sp_key <$> steps r));
  Some (Again (set_phase (Phase_Checking 0 false) (set_plan plan r)) t input).

(** [Phase::Checking] before its queries are asked. *)
Definition turn_ask (step : nat) (r : Runner) (t : Tree) (input : option Input) : option Turn :=
  if decide (step = length (steps r)) then
    Some (Again (finish_or_commit (set_verdict (get_or_insert Verdict_Succeeded (verdict r)) r))
            t input)
  else match stop r with
  | Some cause => Some (Again (cancel cause None r) t input)
  | None =>
      blocked_on ← blocker r step;
      spec ← steps r !! step;
      match blocked_on with
      | Some cause =>
          by_ ← sp_key <$> steps r !! cause;
          match blocked t (plan r) (sp_key spec) by_ with
          | (Ok _, t) =>
              r ← record step (StepOutcome_Blocked by_) (caused step cause r);
              Some (Again (set_phase (Phase_Checking (step + 1) false) r) t input)
          | (Err _, _) => None
          end
      | None =>
          Some (Yield (Next_Observe (sp_queries spec)) (set_phase (Phase_Checking step true) r) t)
      end
  end.

(** [Phase::Checking] once its queries are answered. *)
Definition turn_check (step : nat) (r : Runner) (t : Tree) (input : option Input) : option Turn :=
  match input with
  | Some (Input_Facts facts) =>
      spec ← steps r !! step;
      let '(actions, unobservable) :=
        match facts ≫= sp_actions spec with
        | Ok actions => (actions, None)
        | Err failure => ([], Some failure)
        end in
      let '(verb, subject) := sp_title spec in
      let s := start_new (sp_key spec) (Kind_Step verb subject) in
      '(node, t) ← start_node t (plan r) (if sp_shielded spec then start_shielded s else s);
      let r := set_nodes (<[step := Some node]> (r_nodes r)) r in
      match unobservable with
      | Some failure =>
          t ← finish_node t node (ending_failed (diagnostic failure));
          r ← fail step failure r;
          Some (Again r t None)
      | None =>
          if decide (actions = []) then
            t ← finish_node t node ending_already_satisfied;
            r ← record step StepOutcome_Satisfied r;
            Some (Again (set_phase (Phase_Checking (step + 1) false) r) t None)
          else Some (Again (set_phase (Phase_Executing step node actions false) r) t None)
      end
  | _ => None
  end.

(** [Phase::Executing] between two actions. *)
Definition turn_execute (step : nat) (node : N) (queue : list Action) (r : Runner) (t : Tree)
    (input : option Input) : option Turn :=
  spec ← steps r !! step;
  match (if sp_shielded spec then None else stop r) with
  | Some cause =>
      t ← finish_node t node (ending_cancelled cause);
      r ← record step (StepOutcome_Cancelled cause) r;
      Some (Again (cancel cause (Some step) r) t input)
  | None =>
      match queue with
      | [] =>
          t ← finish_node t node ending_succeeded;
          r ← record step StepOutcome_Changed r;
          Some (Again (set_phase (Phase_Checking (step + 1) false) r) t input)
      | action :: queue =>
          yielded <$> act t node action (set_phase (Phase_Executing step node queue true) r)
      end
  end.

(** [Phase::Executing] once its action is done. *)
Definition turn_executed (step : nat) (node : N) (queue : list Action) (r : Runner) (t : Tree)
    (input : option Input) : option Turn :=
  match input with
  | Some (Input_Done outcome) =>
      '(r, t) ← acted t outcome (stop r) r;
      match outcome with
      | Ok done =>
          undos ← journal r !! step;
          Some (Again (set_phase (Phase_Executing step node queue false)
            (set_journal (<[step := undos ++ [undo done]]> (journal r)) r)) t None)
      | Err Failure_Cancelled =>
          let cause := default Cancellation_Interrupted (stop r) in
          let r := set_stop (Some cause) r in
          t ← finish_node t node (ending_cancelled cause);
          r ← record step (StepOutcome_Cancelled cause) r;
          Some (Again (cancel cause (Some step) r) t None)
      | Err failure =>
          t ← finish_node t node (ending_failed (diagnostic failure));
          r ← fail step failure r;
          Some (Again r t None)
      end
  | _ => None
  end.

(** [Phase::RollingBack] between two steps. *)
Definition turn_roll_next (remaining : list nat) (r : Runner) (t : Tree) (input : option Input)
    : option Turn :=
  match last remaining with
  | None =>
      let after_ := after r in
      let r := set_after After_Close r in
      Some (Again
        match after_ with
        | After_Close => set_phase Phase_Closing r
        | After_Continue next => set_phase (Phase_Checking next false) r
        | After_Commit => finish_or_commit r
        end t input)
  | Some step =>
      let remaining := take (length remaining - 1) remaining in
      key ← sp_key <$> steps r !! step;
      undoes ← mjoin (r_nodes r !! step);
      '(node, t) ← start_node t (plan r)
        (start_shielded (start_new ("rollback:" +:+ key) (Kind_Rollback undoes)));
      undos ← journal r !! step;
      let own := filter (λ doubt, db_step doubt = step) (doubts r) in
      let undoing := mkUndoing step node
        (concat ((λ doubt, rollback_order [db_undo doubt]) <$> own)) (rollback_order undos)
        false false in
      Some (Again
        (set_phase (Phase_RollingBack remaining (Some undoing) false)
          (set_doubts (filter (λ doubt, db_step doubt ≠ step) (doubts r))
            (set_journal (<[step := []]> (journal r)) r))) t input)
  end.

(** [Phase::RollingBack] between two undos of a step. *)
Definition turn_roll_undo (remaining : list nat) (undoing : Undoing) (r : Runner) (t : Tree)
    (input : option Input) : option Turn :=
  let pick doubtful queue doubting :=
    mkUndoing (ud_step undoing) (ud_node undoing) doubtful queue doubting (ud_failed undoing) in
  let perform undoing action :=
    yielded <$> act t (ud_node undoing) action
      (set_phase (Phase_RollingBack remaining (Some undoing) true) r) in
  match doubtful undoing, ud_queue undoing with
  | action :: doubtful, queue => perform (pick doubtful queue true) action
  | [], action :: queue => perform (pick [] queue false) action
  | [], [] =>
      key ← sp_key <$> steps r !! ud_step undoing;
      t ← finish_node t (ud_node undoing)
        (if ud_failed undoing
         then ending_failed (rollback_diagnostic (rollback_failures (report r)) key)
         else ending_succeeded);
      Some (Again (set_phase (Phase_RollingBack remaining None false) r) t input)
  end.

(** [Phase::RollingBack] once an undo is done. *)
Definition turn_rolled (remaining : list nat) (undoing : Undoing) (r : Runner) (t : Tree)
    (input : option Input) : option Turn :=
  match input with
  | Some (Input_Done outcome) =>
      '(r, t) ← acted t outcome (stop r) r;
      let back undoing r := Some (Again (set_phase (Phase_RollingBack remaining (Some undoing) false) r) t None) in
      match outcome, doubting undoing with
      | Err failure, false =>
          key ← sp_key <$> steps r !! ud_step undoing;
          let old := report r in
          back (mkUndoing (ud_step undoing) (ud_node undoing) (doubtful undoing)
                  (ud_queue undoing) (doubting undoing) true)
            (set_report (mkReport (rp_verdict old) (rollback_failures old ++ [(key, failure)])
                           (rp_steps old)) r)
      | _, _ => back undoing r
      end
  | _ => None
  end.

(** [Phase::Committing] before the commit. *)
Definition turn_commit (r : Runner) (t : Tree) : option Turn :=
  if reclaims r then
    '(node, t) ← start_node t (plan r)
      (start_new "reclaim" (Kind_Step Verb_Reclaiming "disk space"));
    yielded <$> act t node Action_Commit (set_phase (Phase_Committing true (Some node)) r)
  else
    yielded <$> act t (plan r) Action_Commit (set_phase (Phase_Committing true None) r).

(** [Phase::Committing] once the commit is done. *)
Definition turn_committed (reclaim : option N) (r : Runner) (t : Tree) (input : option Input)
    : option Turn :=
  match input with
  | Some (Input_Done outcome) =>
      '(r, t) ← acted t outcome (stop r) r;
      t ← match reclaim with
          | Some node => finish_node t node (outcome_ending outcome (stop r))
          | None => Some t
          end;
      '(r, t) ← match outcome with
        | Err Failure_Cancelled =>
            let cause := default Cancellation_Interrupted (stop r) in
            let r := set_stop (Some cause) r in
            Some (match verdict r with
                  | None | Some Verdict_Succeeded =>
                      set_verdict (Some (Verdict_Cancelled cause)) r
                  | _ => r
                  end, t)
        | Err failure =>
            t ← warn_node t (plan r) (diagnostic failure);
            Some (set_verdict (get_or_insert Verdict_Succeeded (verdict r)) r, t)
        | Ok _ => Some (set_verdict (get_or_insert Verdict_Succeeded (verdict r)) r, t)
        end;
      Some (Again (set_phase Phase_Closing r) t None)
  | _ => None
  end.

(** The ending of the plan under a verdict. *)
Definition verdict_ending (v : Verdict) : Ending :=
  match v with
  | Verdict_Succeeded => ending_succeeded
  | Verdict_Failed _ failure => ending_failed (diagnostic failure)
  | Verdict_Cancelled cause => ending_cancelled cause
  end.

(** [Phase::Closing]. *)
Definition turn_closing (r : Runner) (t : Tree) : option Turn :=
  let v := default Verdict_Succeeded (verdict r) in
  let r := set_verdict None r in
  t ← if decide (rollback_failures (report r) = []) then Some t
      else warn_node t (plan r) (incomplete (rollback_failures (report r)));
  t ← finish_node t (plan r) (verdict_ending v);
  let old := report r in
  Some (Yield Next_Finished
    (set_phase Phase_Closed
      (set_report (mkReport v (rollback_failures old) (rp_steps old)) r)) t).

Definition turn (r : Runner) (t : Tree) (input : option Input) : option Turn :=
  let now := phase r in
  let r := set_phase Phase_Closing r in
  match now with
  | Phase_Opening => turn_opening r t input
  | Phase_Checking step false => turn_ask step r t input
  | Phase_Checking step true => turn_check step r t input
  | Phase_Executing step node queue false => turn_execute step node queue r t input
  | Phase_Executing step node queue true => turn_executed step node queue r t input
  | Phase_RollingBack remaining None _ => turn_roll_next remaining r t input
  | Phase_RollingBack remaining (Some undoing) false => turn_roll_undo remaining undoing r t input
  | Phase_RollingBack remaining (Some undoing) true => turn_rolled remaining undoing r t input
  | Phase_Committing false _ => turn_commit r t
  | Phase_Committing true reclaim => turn_committed reclaim r t input
  | Phase_Closing => turn_closing r t
  | Phase_Closed => Some (Yield Next_Finished (set_phase Phase_Closed r) t)
  end.

(** ** [Runner::step] *)

Inductive Stepped :=
  | Stepped_Next (next : Next) (r : Runner) (t : Tree)
  | Stepped_Panic
  | Stepped_Unfinished.

Fixpoint step_n (fuel : nat) (r : Runner) (t : Tree) (input : option Input) : Stepped :=
  match fuel with
  | O => Stepped_Unfinished
  | S fuel =>
      match turn r t input with
      | None => Stepped_Panic
      | Some (Again r t input) => step_n fuel r t input
      | Some (Yield next r t) => Stepped_Next next r t
      end
  end.

(** More turns than [step] takes between two inputs ([step_returns]). *)
Definition fuel_of (r : Runner) : nat := 32 * length (steps r) + 40.

Definition step (r : Runner) (t : Tree) (input : option Input) : Stepped :=
  step_n (fuel_of r) r t input.
