(* ===== verification/RunnerSafe.v ===== *)
(** * The runner's invariant

    What holds of a runner and its tree between two turns of [Runner.step], and that
    every turn keeps it: no [expect], [panic] or index of the source fails, the tree
    stays one whose events the validator accepts, and the loop of [step] ends.  *)
From S2P Require Import Prelude.
From S2P Require Import Paths.
From S2P Require Import Effect.
From S2P Require Import Events.
From S2P Require Import Outbox.
From S2P Require Import EventTree.
From S2P Require Import Validate.
From S2P Require Import TreeSim.
From S2P Require Import TreeValid.
From S2P Require Import Diagnose.
From S2P Require Import Journal.
From S2P Require Import Runner.

Local Open Scope nat_scope.

(** ** A path of open nodes *)

(** The open nodes from the innermost up, each the only running child of the next, and
    the keys each has used; [n] children run under the innermost. *)
Fixpoint stack (m : gmap N Open) (n : N) (l : list (N * gset string)) : Prop :=
  match l with
  | [] => True
  | (id, used) :: rest =>
      (∃ o, m !! id = Some o ∧ op_used o = used ∧ op_children o = n ∧
        match rest with (parent, _) :: _ => op_parent o = parent | [] => True end) ∧
      stack m 1 rest
  end.

Section stacks.
Context (t : Tree) (m : gmap N Open) (v : Validator).
Hypothesis Hv : valid_with t m v.

Lemma stack_below n l id used :
  stack m n ((id, used) :: l) → ∀ e, e ∈ l → (e.1 < id)%N.
Proof.
  revert n id used. induction l as [|[p u] l IH]; intros n id used; [by intros _ e ?%elem_of_nil|].
  intros [(o & Ho & _ & _ & Hp) Hrest].
  assert (Hb := node_below _ _ _ _ (tree_nodes _ _ (valid_tree _ _ _ Hv) _ _ Ho)).
  intros e [->|He]%elem_of_cons; [simpl; lia|]. assert (Hlt := IH _ _ _ Hrest e He). lia.
Qed.

Lemma stack_range n l e : stack m n l → e ∈ l → (e.1 < next t)%N.
Proof.
  revert n. induction l as [|[p u] l IH]; intros n Hl He; [by apply elem_of_nil in He|].
  destruct Hl as [(o & Ho & _) Hrest]. apply elem_of_cons in He as [->|He]; [|by eapply IH].
  apply (node_range _ _ _ _ (tree_nodes _ _ (valid_tree _ _ _ Hv) _ _ Ho)).
Qed.
End stacks.

(** The path through other nodes does not notice a change of one. *)
Lemma stack_ext m m' n l :
  (∀ e, e ∈ l → m' !! e.1 = m !! e.1) → stack m n l → stack m' n l.
Proof.
  revert n. induction l as [|[id u] l IH]; intros n Hext Hl; [done|].
  destruct Hl as [(o & Ho & Hu & Hc & Hp) Hrest]. split.
  - exists o. assert (Hsame := Hext (id, u) (list_elem_of_here _ _)). simpl in Hsame.
    by rewrite Hsame.
  - apply IH; [|done]. intros e He. apply Hext. by right.
Qed.

Lemma started_in_app l k id n : started_in l id = Some n → started_in (l ++ k) id = Some n.
Proof.
  unfold started_in. induction l as [|e l IH]; [done|]. cbn [find_map app].
  destruct e as [node| | | |]; try done. by destruct (decide (ns_id node = id)).
Qed.

Lemma finished_in_app l k id : finished_in l id = true → finished_in (l ++ k) id = true.
Proof. unfold finished_in. rewrite existsb_app. by intros ->. Qed.

Lemma started_in_none l k id : started_in l id = None → started_in (l ++ k) id = started_in k id.
Proof.
  unfold started_in. induction l as [|e l IH]; [done|]. cbn [find_map app].
  destruct e as [node| | | |]; try done. by destruct (decide (ns_id node = id)).
Qed.

Lemma started_fresh t m v : valid_with t m v → started_in (emitted t) (next t) = None.
Proof.
  intros Hv. destruct (started_in (emitted t) (next t)) as [n|] eqn:Hs; [|done].
  destruct (v_run_started _ _ _ _ _ (valid_run _ _ _ Hv) Hs) as (r & Hr & _).
  destruct (ag_range _ _ _ (valid_agrees _ _ _ Hv) _ _ Hr). lia.
Qed.

(** ** The tree's operations on the innermost node *)

Lemma stack_start t m v p used l s :
  valid_with t m v → stack m 0 ((p, used) :: l) → start_ok t p s → st_key s ∉ used →
  ∃ t' m' v', start_node t p s = Some (next t, t') ∧ valid_with t' m' v' ∧
    stack m' 0 ((next t, ∅) :: (p, {[st_key s]} ∪ used) :: l) ∧
    emitted t' = emitted t ++ [started_event (next t) p s].
Proof.
  intros Hv Hl Hok Hkey. assert (Hlow := stack_below t m v Hv _ _ _ _ Hl).
  assert (Hrange := stack_range t m v Hv _ _ (p, used) Hl (list_elem_of_here _ _)). simpl in Hrange.
  destruct Hl as [(o & Ho & <- & Hc & Hp) Hrest].
  destruct (start_open_valid t m v p o s) as (t' & v' & Hs & Hv' & Hem & _); try done.
  exists t'. eexists _, v'. unfold start_node. rewrite Hs. split_and!; [done|exact Hv'| |done].
  unfold opened. rewrite insert_insert_eq. simpl. split_and!.
  - eexists. split; [apply lookup_insert_eq|done].
  - eexists. split; [rewrite lookup_insert_ne by lia; apply lookup_insert_eq|]. simpl.
    split_and!; [done|lia|done].
  - eapply stack_ext; [|exact Hrest]. intros e He. assert (H := Hlow _ He).
    assert (e.1 ≠ next t) by lia. assert (e.1 ≠ p) by lia. by rewrite !lookup_insert_ne.
Qed.

Lemma finished_in_event l id e : finished_in (l ++ [finished_event id e]) id = true.
Proof.
  unfold finished_in. rewrite existsb_app. simpl. rewrite bool_decide_true by done.
  by rewrite orb_true_r.
Qed.

Lemma stack_finish t m v id w l e :
  valid_with t m v → stack m 0 ((id, w) :: l) → ending_ok t id e →
  ∃ t' m' v' k, finish_node t id e = Some t' ∧ valid_with t' m' v' ∧ stack m' 0 l ∧
    emitted t' = emitted t ++ k ∧ finished_in (emitted t') id = true.
Proof.
  intros Hv Hl Hok. assert (Hlow := stack_below t m v Hv _ _ _ _ Hl).
  destruct Hl as [(o & Ho & _ & Hc & Hp) Hrest].
  destruct (finish_open_valid t m v id o e) as (t' & v' & Hf & Hv' & Hem & _); try done.
  exists t'. eexists _, v', _. unfold finish_node. rewrite Hf. split_and!; [done|exact Hv'| |exact Hem|].
  2:{ rewrite Hem, app_assoc. apply finished_in_event. }
  unfold closed. destruct l as [|[p u] l]; [done|]. destruct Hrest as [(op & Hop & Hu & Hcp & Hpp) Hrest].
  subst p. assert (Hne : (op_parent o < id)%N)
    by (apply (node_below _ _ _ _ (tree_nodes _ _ (valid_tree _ _ _ Hv) _ _ Ho))).
  rewrite lookup_delete_ne, Hop by lia. simpl. split.
  - eexists. split; [apply lookup_insert_eq|]. simpl. split_and!; [done|lia|done].
  - eapply stack_ext; [|exact Hrest]. intros x Hx. assert (x.1 < id)%N by (apply Hlow; by right).
    assert (Hx' : (x.1 < op_parent o)%N).
    { apply (stack_below t m v Hv 1 l (op_parent o) u); [|done]. split; [|done]. by exists op. }
    by rewrite lookup_insert_ne, lookup_delete_ne by lia.
Qed.

Lemma stack_blocked t m v p used key by_ :
  valid_with t m v → stack m 0 [(p, used)] → key ∉ used → by_ ≠ "" →
  ∃ t' m' v' k, blocked t p key by_ = (Ok tt, t') ∧ valid_with t' m' v' ∧
    stack m' 0 [(p, {[key]} ∪ used)] ∧ emitted t' = emitted t ++ k.
Proof.
  intros Hv [(o & Ho & <- & Hc & _) _] Hkey Hby.
  destruct (claim_open_valid t m v p o key NotRunReason_Blocked by_)
    as (t' & v' & Hcl & Hv' & Hem & _); try done.
  unfold blocked. rewrite Hcl. do 2 eexists. exists v'. eexists. split_and!; [done|exact Hv'| |].
  - split; [|done]. eexists. split; [apply lookup_insert_eq|done].
  - unfold emit_not_run. simpl. by rewrite Hem.
Qed.

Lemma stack_warn t m v p used d :
  valid_with t m v → stack m 0 [(p, used)] →
  ∃ t' v' k, warn_node t p d = Some t' ∧ valid_with t' m v' ∧ emitted t' = emitted t ++ k.
Proof.
  intros Hv [(o & Ho & _) _]. assert (Hok := valid_tree _ _ _ Hv).
  destruct (ag_open _ _ _ (valid_agrees _ _ _ Hv) _ _ Ho) as (r & Hr & Hseen).
  unfold warn_node, warn, is_open. rewrite (tree_get _ _ Hok), Ho, bool_decide_true by (by eexists).
  do 3 eexists. split_and!; [done| |done].
  eapply valid_emitted; [exact Hv|by apply tree_ok_emit|by eapply valid_planned|done| |by apply Hv].
  simpl. rewrite (v_take_open v m (next t) p); [|by apply Hv|by eapply valid_root|by eexists].
  simpl. unfold v_open. simpl. by rewrite Hr, (seen_finished _ _ _ _ Hseen).
Qed.

(** ** Where the runner stands in the tree *)

(** The tree is valid and the open nodes [path], the innermost first, have used only
    keys in [T]. *)
Definition placed (t : Tree) (T : string → Prop) (path : list N) : Prop :=
  ∃ m v l, valid_with t m v ∧ stack m 0 l ∧ l.*1 = path ∧ ∀ e key, e ∈ l → key ∈ e.2 → T key.

Lemma placed_mono t (T T' : string → Prop) path :
  (∀ key, T key → T' key) → placed t T path → placed t T' path.
Proof. intros Hmono (m & v & l & ? & ? & ? & ?). exists m, v, l. split_and!; eauto. Qed.

Lemma placed_valid t T path : placed t T path → valid t.
Proof. intros (m & v & l & Hv & _). by exists m, v. Qed.

Lemma placed_start t (T T' : string → Prop) p path s :
  placed t T (p :: path) → start_ok t p s → ¬ T (st_key s) →
  (∀ key, T key → T' key) → T' (st_key s) →
  ∃ t', start_node t p s = Some (next t, t') ∧ placed t' T' (next t :: p :: path) ∧
    emitted t' = emitted t ++ [started_event (next t) p s] ∧
    started_in (emitted t) (next t) = None.
Proof.
  intros (m & v & [|[p' used] l] & Hv & Hl & Hpath & HT) Hok Hkey Hmono Hkey'; [done|].
  simpl in Hpath. injection Hpath as -> Hpath.
  destruct (stack_start t m v p used l s) as (t' & m' & v' & Hs & Hv' & Hl' & Hem); try done.
  { intros Hin. apply Hkey, (HT (p, used) _ (list_elem_of_here _ _) Hin). }
  exists t'. split_and!; [done| |done|by eapply started_fresh].
  exists m', v', ((next t, ∅) :: (p, {[st_key s]} ∪ used) :: l). split_and!; [done..| |].
  - simpl. by rewrite Hpath.
  - intros e key [->|[->|He]%elem_of_cons]%elem_of_cons; simpl.
    + by rewrite elem_of_empty.
    + rewrite elem_of_union, elem_of_singleton. intros [->|Hin]; [done|].
      apply Hmono, (HT (p, used) _ (list_elem_of_here _ _) Hin).
    + intros Hin. apply Hmono, (HT e); [by right|done].
Qed.

Lemma placed_finish t T id path e :
  placed t T (id :: path) → ending_ok t id e →
  ∃ t' k, finish_node t id e = Some t' ∧ placed t' T path ∧
    emitted t' = emitted t ++ k ∧ finished_in (emitted t') id = true.
Proof.
  intros (m & v & [|[id' used] l] & Hv & Hl & Hpath & HT) Hok; [done|].
  simpl in Hpath. injection Hpath as -> Hpath.
  destruct (stack_finish t m v id used l e) as (t' & m' & v' & k & Hf & Hv' & Hl' & Hem & Hfin); try done.
  exists t', k. split_and!; [done| |done..]. exists m', v', l. split_and!; [done..|].
  intros x key Hx. apply HT. by right.
Qed.

Lemma placed_blocked t (T T' : string → Prop) p key by_ :
  placed t T [p] → ¬ T key → by_ ≠ "" → (∀ key, T key → T' key) → T' key →
  ∃ t' k, blocked t p key by_ = (Ok tt, t') ∧ placed t' T' [p] ∧ emitted t' = emitted t ++ k.
Proof.
  intros (m & v & l & Hv & Hl & Hpath & HT) Hkey Hby Hmono Hkey'.
  destruct l as [|[p' used] [|]]; try done. simpl in Hpath. injection Hpath as ->.
  destruct (stack_blocked t m v p used key by_) as (t' & m' & v' & k & Hb & Hv' & Hl' & Hem); try done.
  { intros Hin. apply Hkey, (HT (p, used) _ (list_elem_of_here _ _) Hin). }
  exists t', k. split_and!; [done| |done]. exists m', v', [(p, {[key]} ∪ used)].
  split_and!; [done..|]. intros e x ->%list_elem_of_singleton. simpl.
  rewrite elem_of_union, elem_of_singleton. intros [->|Hin]; [done|].
  apply Hmono, (HT (p, used) _ (list_elem_of_here _ _) Hin).
Qed.

Lemma placed_warn t T p d :
  placed t T [p] →
  ∃ t' k, warn_node t p d = Some t' ∧ placed t' T [p] ∧ emitted t' = emitted t ++ k.
Proof.
  intros (m & v & l & Hv & Hl & Hpath & HT).
  destruct l as [|[p' used] [|]]; try done. simpl in Hpath. injection Hpath as ->.
  destruct (stack_warn t m v p used d) as (t' & v' & k & Hw & Hv' & Hem); try done.
  exists t', k. split_and!; [done| |done]. by exists m, v', [(p, used)].
Qed.

(** ** The runner's books *)

(** Steps have keys of their own, apart from those the runner makes up. *)
Definition keys_ok (specs : list StepSpec) : Prop :=
  NoDup (sp_key <$> specs) ∧
  Forall (λ key, key ≠ "" ∧ key ≠ "reclaim" ∧ starts_with "rollback:" key = false ∧
                 starts_with "action-" key = false) (sp_key <$> specs).
#[export] Instance keys_ok_dec specs : Decision (keys_ok specs).
Proof. unfold keys_ok. apply _. Defined.

(** The keys used in the tree once [k] steps were reached and [rolled] rolled back. *)
Inductive taken (r : Runner) (k : nat) (rolled : list nat) (reclaimed : bool) : string → Prop :=
  | taken_step i spec : i < k → steps r !! i = Some spec → taken r k rolled reclaimed (sp_key spec)
  | taken_rollback i spec :
      i ∈ rolled → steps r !! i = Some spec →
      taken r k rolled reclaimed ("rollback:" +:+ sp_key spec)
  | taken_action i : (i <= performed r)%N → taken r k rolled reclaimed ("action-" +:+ digits i)
  | taken_reclaim : reclaimed = true → taken r k rolled reclaimed "reclaim".

(** A started step beside the plan's other steps; and one that is over. *)
Definition node_known (t : Tree) (plan n : N) : Prop :=
  ∃ ns, started_in (emitted t) n = Some ns ∧ ns_parent ns = plan ∧
    shape_of (ns_kind ns) = Shape_Step.

Definition node_done (t : Tree) (plan n : N) : Prop :=
  node_known t plan n ∧ finished_in (emitted t) n = true.

(** Every step with something to undo, but [except], is over. *)
Definition done_nodes (r : Runner) (t : Tree) (except : option nat) : Prop :=
  ∀ s, s < length (steps r) → owned r s = true → except ≠ Some s →
    ∃ n, r_nodes r !! s = Some (Some n) ∧ node_done t (plan r) n.

Record books (r : Runner) (k : nat) (rolled : list nat) : Prop := {
  bk_keys : keys_ok (steps r);
  bk_reached : k ≤ length (steps r);
  bk_journal : length (journal r) = length (steps r);
  bk_nodes : length (r_nodes r) = length (steps r);
  bk_causes : ∀ i c, causes r !! i = Some (Some c) → c < length (steps r);
  bk_stop : stop r ≠ Some Cancellation_Unspecified;
  bk_verdict : verdict r ≠ Some (Verdict_Cancelled Cancellation_Unspecified);
  bk_owned : ∀ s, s < length (steps r) → owned r s = true → s < k;
  bk_rolled : ∀ s, s ∈ rolled → s < k;
}.

(** The runner between two actions: [path] is open in the tree, and no action is. *)
Record at_work (r : Runner) (t : Tree) (k : nat) (rolled : list nat) (reclaimed : bool)
    (except : option nat) (path : list N) : Prop := {
  aw_books : books r k rolled;
  aw_done : done_nodes r t except;
  aw_placed : placed t (taken r k rolled reclaimed) path;
}.

(** ** The invariant *)

(** The steps left to roll back. *)
Definition remaining_ok (rolled remaining : list nat) : Prop :=
  NoDup remaining ∧ ∀ s, s ∈ remaining → s ∉ rolled.

Definition after_ok (r : Runner) (k : nat) : Prop :=
  ∀ next, after r = After_Continue next → next = k ∧ independent r = true.

Definition owned_all (r : Runner) (remaining : list nat) : Prop :=
  ∀ s, s ∈ remaining → s < length (steps r) ∧ owned r s = true.

(** What holds at each phase.  While an action is out, its node is on top. *)
Definition invariant (r : Runner) (t : Tree) : Prop :=
  match phase r with
  | Phase_Opening =>
      acting r = None ∧ after r = After_Close ∧ books r 0 [] ∧
      (∀ s, s < length (steps r) → owned r s = false) ∧
      ∃ m v o, valid_with t m v ∧ m !! r_parent r = Some o ∧ "plan" ∉ op_used o
  | Phase_Checking step asked =>
      acting r = None ∧ after r = After_Close ∧ (asked = true → step < length (steps r)) ∧
      ∃ rolled, at_work r t step rolled false None [plan r] ∧
        (∀ s, s ∈ rolled → s < step) ∧ (independent r = false → rolled = [])
  | Phase_Executing step node queue awaiting =>
      after r = After_Close ∧ step < length (steps r) ∧
      r_nodes r !! step = Some (Some node) ∧ node_known t (plan r) node ∧
      ∃ rolled, (∀ s, s ∈ rolled → s < step) ∧ (independent r = false → rolled = []) ∧
        if awaiting then
          ∃ a, acting r = Some a ∧
            at_work r t (step + 1) rolled false (Some step) [a; node; plan r]
        else acting r = None ∧ at_work r t (step + 1) rolled false (Some step) [node; plan r]
  | Phase_RollingBack remaining None awaiting =>
      acting r = None ∧
      ∃ k rolled, at_work r t k rolled false None [plan r] ∧ after_ok r k ∧
        remaining_ok rolled remaining ∧ owned_all r remaining
  | Phase_RollingBack remaining (Some undoing) awaiting =>
      ud_step undoing < length (steps r) ∧
      ∃ k rolled, after_ok r k ∧ remaining_ok rolled remaining ∧ owned_all r remaining ∧
        if awaiting then
          ∃ a, acting r = Some a ∧
            at_work r t k rolled false None [a; ud_node undoing; plan r]
        else acting r = None ∧ at_work r t k rolled false None [ud_node undoing; plan r]
  | Phase_Committing false reclaim =>
      acting r = None ∧ ∃ k rolled, at_work r t k rolled false None [plan r]
  | Phase_Committing true reclaim =>
      ∃ a k rolled, acting r = Some a ∧
        at_work r t k rolled true None
          (a :: match reclaim with Some node => [node] | None => [] end ++ [plan r])
  | Phase_Closing => ∃ k rolled reclaimed, at_work r t k rolled reclaimed None [plan r]
  | Phase_Closed => valid t
  end.

(** What the driver has to answer at each phase. *)
Definition answers (r : Runner) (input : option Input) : Prop :=
  match phase r with
  | Phase_Checking _ true => ∃ facts, input = Some (Input_Facts facts)
  | Phase_Executing _ _ _ true | Phase_RollingBack _ (Some _) true | Phase_Committing true _ =>
      ∃ outcome, input = Some (Input_Done outcome)
  | _ => True
  end.

(** ** Fresh keys *)

Lemma starts_with_app pre s : starts_with pre (pre +:+ s) = true.
Proof. unfold starts_with. induction pre as [|a pre IH]; simpl; [by destruct s|].
  by destruct (ascii_dec a a). Qed.

Lemma keys_ok_apart specs i spec :
  keys_ok specs → specs !! i = Some spec →
  sp_key spec ≠ "" ∧ sp_key spec ≠ "reclaim" ∧ starts_with "rollback:" (sp_key spec) = false ∧
  starts_with "action-" (sp_key spec) = false.
Proof.
  intros [_ Hall] Hi. rewrite Forall_forall in Hall. apply Hall.
  apply list_elem_of_fmap. exists spec. split; [done|]. by eapply list_elem_of_lookup_2.
Qed.

Lemma keys_ok_inj specs i j spec spec' :
  keys_ok specs → specs !! i = Some spec → specs !! j = Some spec' → sp_key spec = sp_key spec' → i = j.
Proof.
  intros [Hnd _] Hi Hj Heq. eapply NoDup_lookup; [exact Hnd| |]; rewrite list_lookup_fmap;
    [by rewrite Hi|by rewrite Hj, Heq].
Qed.

Lemma fresh_step r k rolled c s spec :
  books r k rolled → k ≤ s → steps r !! s = Some spec → ¬ taken r k rolled c (sp_key spec).
Proof.
  intros Hb Hs Hspec Ht. assert (Hok := bk_keys _ _ _ Hb).
  destruct (keys_ok_apart _ _ _ Hok Hspec) as (_ & Hre & Hro & Hac).
  inversion Ht as [i spec' Hi Hspec' Heq|i spec' Hi Hspec' Heq|i Hi Heq|Hc Heq].
  - assert (i = s) by (by eapply keys_ok_inj). lia.
  - by rewrite <- Heq, starts_with_app in Hro.
  - by rewrite <- Heq, starts_with_app in Hac.
  - by apply Hre.
Qed.

Lemma fresh_rollback r k rolled c s spec :
  books r k rolled → s ∉ rolled → steps r !! s = Some spec →
  ¬ taken r k rolled c ("rollback:" +:+ sp_key spec).
Proof.
  intros Hb Hs Hspec Ht. assert (Hok := bk_keys _ _ _ Hb).
  inversion Ht as [i spec' Hi Hspec' Heq|i spec' Hi Hspec' Heq|i Hi Heq|Hc Heq].
  - destruct (keys_ok_apart _ _ _ Hok Hspec') as (_ & _ & Hro & _).
    by rewrite Heq, starts_with_app in Hro.
  - assert (Hsame : sp_key spec' = sp_key spec) by (by simplify_eq/=).
    apply Hs. by rewrite <- (keys_ok_inj _ _ _ _ _ Hok Hspec' Hspec Hsame).
Qed.

Lemma fresh_action r k rolled c i :
  books r k rolled → (performed r < i)%N → ¬ taken r k rolled c ("action-" +:+ digits i).
Proof.
  intros Hb Hi Ht. assert (Hok := bk_keys _ _ _ Hb).
  inversion Ht as [j spec' Hj Hspec' Heq|j spec' Hj Hspec' Heq|j Hj Heq|Hc Heq]; try done.
  - destruct (keys_ok_apart _ _ _ Hok Hspec') as (_ & _ & _ & Hac).
    by rewrite Heq, starts_with_app in Hac.
  - assert (Hd : digits j = digits i) by (by simplify_eq/=). apply (inj pretty) in Hd. lia.
Qed.

Lemma fresh_reclaim r k rolled : books r k rolled → ¬ taken r k rolled false "reclaim".
Proof.
  intros Hb Ht. assert (Hok := bk_keys _ _ _ Hb).
  inversion Ht as [j spec' Hj Hspec' Heq|j spec' Hj Hspec' Heq|j Hj Heq|Hc Heq]; try done.
  destruct (keys_ok_apart _ _ _ Hok Hspec') as (_ & Hre & _). by apply Hre.
Qed.

Lemma taken_mono r r' k k' rolled rolled' (c c' : bool) key :
  steps r' = steps r → (performed r <= performed r')%N → k ≤ k' → (∀ s, s ∈ rolled → s ∈ rolled') →
  (c = true → c' = true) → taken r k rolled c key → taken r' k' rolled' c' key.
Proof.
  intros Hsteps Hperf Hk Hro Hc [i spec Hi Hs|i spec Hi Hs|i Hi|Hr].
  - apply taken_step with i; [lia|by rewrite Hsteps].
  - apply taken_rollback with i; [auto|by rewrite Hsteps].
  - apply taken_action. lia.
  - apply taken_reclaim. auto.
Qed.

(** ** What the books do not notice *)

Lemma node_done_more t t' k pl n : emitted t' = emitted t ++ k → node_done t pl n → node_done t' pl n.
Proof.
  intros Hem [(ns & Hs & ? & ?) Hf]. split.
  - exists ns. rewrite Hem. split_and!; [by apply started_in_app|done..].
  - rewrite Hem. by apply finished_in_app.
Qed.

Lemma node_known_more t t' k pl n : emitted t' = emitted t ++ k → node_known t pl n → node_known t' pl n.
Proof.
  intros Hem (ns & Hs & ? & ?). exists ns. rewrite Hem. split_and!; [by apply started_in_app|done..].
Qed.

Lemma done_nodes_more r t t' k except :
  emitted t' = emitted t ++ k → done_nodes r t except → done_nodes r t' except.
Proof.
  intros Hem Hd s Hs Ho Hne. destruct (Hd s Hs Ho Hne) as (n & Hn & Hdone).
  exists n. split; [done|]. by eapply node_done_more.
Qed.

(** [r'] owns no more than [r] does, and is otherwise the same to the books. *)
Record follows (r r' : Runner) : Prop := {
  fo_steps : steps r' = steps r;
  fo_plan : plan r' = plan r;
  fo_journal : length (journal r') = length (journal r);
  fo_nodes : r_nodes r' = r_nodes r;
  fo_performed : (performed r <= performed r')%N;
  fo_owned : ∀ s, s < length (steps r) → owned r' s = true → owned r s = true;
  fo_causes : causes r' = causes r;
  fo_stop : stop r' = stop r ∨ stop r' ≠ Some Cancellation_Unspecified;
  fo_verdict : verdict r' = verdict r ∨ verdict r' ≠ Some (Verdict_Cancelled Cancellation_Unspecified);
}.

Lemma books_follows r r' k rolled : follows r r' → books r k rolled → books r' k rolled.
Proof.
  intros [Hs Hp Hj Hn Hpe Ho Hc Hst Hve] [? ? ? ? ? ? ? ? ?].
  split; rewrite ?Hs, ?Hj, ?Hn, ?Hc; try done.
  - by destruct Hst as [->|?].
  - by destruct Hve as [->|?].
  - intros s Hlt Hown. auto.
Qed.

Lemma at_work_follows r r' t k rolled c except path :
  follows r r' → at_work r t k rolled c except path → at_work r' t k rolled c except path.
Proof.
  intros Hf [Hb Hd Hpl]. split; [by eapply books_follows| |].
  - intros s. rewrite (fo_steps _ _ Hf), (fo_nodes _ _ Hf), (fo_plan _ _ Hf). intros Hs Ho Hne.
    apply Hd; [done| |done]. by apply (fo_owned _ _ Hf).
  - eapply placed_mono; [|done]. intros key. apply taken_mono; try done; by apply Hf.
Qed.

Ltac follow := split; simpl; first [done | lia | by left | by right | auto].

(** ** The parts of a turn *)

Lemma work_act r t k rolled c except p path action :
  at_work r t k rolled c except (p :: path) →
  ∃ t', act t p action r =
      Some (Next_Perform action, set_acting (Some (next t)) (set_performed (performed r + 1)%N r), t') ∧
    at_work (set_acting (Some (next t)) (set_performed (performed r + 1)%N r)) t' k rolled c except
      (next t :: p :: path) ∧ ∃ e, emitted t' = emitted t ++ e.
Proof.
  intros [Hb Hd Hpl]. unfold act. destruct (describe action) as [operation subject]. simpl.
  set (r' := set_acting (Some (next t)) (set_performed (performed r + 1)%N r)).
  destruct (placed_start t _ (taken r' k rolled c) p path
    (start_new ("action-" +:+ digits (performed r + 1)) (Kind_Action operation subject)) Hpl)
    as (t' & Hs & Hpl' & Hem & _).
  - split; [constructor|exact I].
  - eapply fresh_action; [done|lia].
  - intros key. apply taken_mono; simpl; try done. lia.
  - simpl. apply taken_action. simpl. lia.
  - rewrite Hs. simpl. exists t'. split_and!; [done| |by eexists].
    split; [|by eapply done_nodes_more|done].
    eapply books_follows; [|exact Hb]. follow.
Qed.

Lemma plain_outcome outcome cause :
  cause ≠ Some Cancellation_Unspecified → plain (outcome_ending outcome cause).
Proof.
  intros Hc. unfold plain, outcome_ending. destruct outcome as [?|[]]; simpl; try naive_solver.
  destruct cause as [[]|]; simpl; naive_solver.
Qed.

Lemma plain_failed d : plain (ending_failed d).
Proof. unfold plain. simpl. naive_solver. Qed.
Lemma plain_succeeded : plain ending_succeeded.
Proof. unfold plain. simpl. naive_solver. Qed.
Lemma plain_satisfied : plain ending_already_satisfied.
Proof. unfold plain. simpl. naive_solver. Qed.
Lemma plain_cancelled cause : cause ≠ Cancellation_Unspecified → plain (ending_cancelled cause).
Proof. unfold plain. simpl. naive_solver. Qed.
#[export] Hint Resolve plain_failed plain_succeeded plain_satisfied plain_cancelled : core mix.

(** Closing the innermost node. *)
Lemma work_finish r t k rolled c except id path e :
  at_work r t k rolled c except (id :: path) → plain e →
  ∃ t', finish_node t id e = Some t' ∧ at_work r t' k rolled c except path ∧
    finished_in (emitted t') id = true ∧ ∃ k', emitted t' = emitted t ++ k'.
Proof.
  intros [Hb Hd Hpl] He. destruct (placed_finish t _ id path e Hpl) as (t' & k' & Hf & Hpl' & Hem & Hfin);
    [by apply plain_ok|].
  exists t'. split_and!; [done| |done|by eexists]. split; [done|by eapply done_nodes_more|done].
Qed.

Lemma work_acted r t k rolled c except a path outcome :
  at_work r t k rolled c except (a :: path) → acting r = Some a →
  ∃ t', acted t outcome (stop r) r = Some (set_acting None r, t') ∧
    at_work (set_acting None r) t' k rolled c except path ∧ ∃ k', emitted t' = emitted t ++ k'.
Proof.
  intros Hw Ha. unfold acted. rewrite Ha.
  destruct (work_finish _ _ _ _ _ _ _ _ (outcome_ending outcome (stop r)) Hw) as (t' & -> & Hw' & _ & Hem).
  { apply plain_outcome, (bk_stop _ _ _ (aw_books _ _ _ _ _ _ _ Hw)). }
  exists t'. split_and!; [done| |done]. eapply at_work_follows; [|done]. follow.
Qed.

(** Once its node is over, a step is as settled as the others. *)
Lemma done_except r t k rolled c step node path :
  at_work r t k rolled c (Some step) path →
  r_nodes r !! step = Some (Some node) → node_done t (plan r) node →
  at_work r t k rolled c None path.
Proof.
  intros [Hb Hd Hpl] Hn Hdone. split; [done| |done]. intros s Hs Ho _.
  destruct (decide (s = step)) as [->|Hne]; [by exists node|].
  apply Hd; [done..|]. congruence.
Qed.

Lemma step_spec r step : step < length (steps r) → ∃ spec, steps r !! step = Some spec.
Proof. intros H. destruct (lookup_lt_is_Some_2 _ _ H) as [spec Hs]. by exists spec. Qed.

(** [record] only adds to the report. *)
Lemma record_works r step outcome :
  step < length (steps r) →
  ∃ rp, record step outcome r = Some (set_report rp r) ∧
    rollback_failures rp = rollback_failures (report r).
Proof.
  intros Hs. unfold record. destruct (step_spec r step Hs) as [spec ->].
  destruct (independent r); simpl; [by eexists|]. exists (report r). by destruct r.
Qed.

(** ** Rolling back, committing, closing *)

Lemma finish_or_commit_invariant r t k rolled :
  at_work r t k rolled false None [plan r] → acting r = None → invariant (finish_or_commit r) t.
Proof.
  intros Hw Ha. unfold finish_or_commit. case_decide; unfold invariant; simpl.
  - exists k, rolled, false. eapply at_work_follows; [|exact Hw]. follow.
  - split; [done|]. exists k, rolled. eapply at_work_follows; [|exact Hw]. follow.
Qed.

Lemma roll_back_invariant r t k rolled :
  at_work r t k rolled false None [plan r] → acting r = None → after r = After_Close →
  rolled = [] → invariant (roll_back r) t.
Proof.
  intros Hw Ha Haf ->. unfold invariant, roll_back. simpl. split; [done|]. exists k, [].
  split_and!.
  - eapply at_work_follows; [|exact Hw]. follow.
  - intros next Hn. simpl in Hn. congruence.
  - split; [apply NoDup_filter, NoDup_seq|]. intros s _ Hn. by apply elem_of_nil in Hn.
  - intros s [Ho Hs]%list_elem_of_filter. apply elem_of_seq in Hs. simpl. split; [lia|done].
Qed.

Lemma roll_back_only_invariant r t step rolled after :
  at_work r t (step + 1) rolled false None [plan r] → acting r = None → step < length (steps r) →
  (∀ s, s ∈ rolled → s < step) →
  (∀ next, after = After_Continue next → next = step + 1 ∧ independent r = true) →
  invariant (roll_back_only step after r) t.
Proof.
  intros Hw Ha Hlt Hro Haf. unfold invariant, roll_back_only. simpl. split; [done|].
  exists (step + 1), rolled. split_and!.
  - eapply at_work_follows; [|exact Hw]. follow.
  - intros next Hn. by apply Haf.
  - destruct (owned r step); split; try constructor; try by intros s ?%elem_of_nil.
    + apply not_elem_of_nil.
    + constructor.
    + intros s ->%list_elem_of_singleton Hs. apply Hro in Hs. lia.
  - destruct (owned r step) eqn:Ho; intros s Hs; [|by apply elem_of_nil in Hs].
    apply list_elem_of_singleton in Hs as ->. simpl. done.
Qed.

(** ** How far a runner is from the end *)

(** Checking the steps from [step] on, with a whole rollback to spare. *)
Definition ahead (n step : nat) : nat := 3 * n + 8 + 10 * (n - step).

Definition tail (r : Runner) : nat :=
  match after r with
  | After_Close => 2
  | After_Commit => 4
  | After_Continue next => ahead (length (steps r)) next + 1
  end.

Definition major (r : Runner) : nat :=
  let n := length (steps r) in
  match phase r with
  | Phase_Opening => ahead n 0 + 1
  | Phase_Checking step false => ahead n step
  | Phase_Checking step true => ahead n (step + 1) + 9
  | Phase_Executing step _ _ _ => ahead n (step + 1) + 8
  | Phase_RollingBack remaining None _ => tail r + 3 * length remaining + 1
  | Phase_RollingBack remaining (Some _) _ => tail r + 3 * length remaining + 2
  | Phase_Committing false _ => 3
  | Phase_Committing true _ => 2
  | Phase_Closing => 1
  | Phase_Closed => 0
  end.

Definition awaits (r : Runner) : bool :=
  match phase r with
  | Phase_Checking _ true | Phase_Executing _ _ _ true | Phase_RollingBack _ (Some _) true
  | Phase_Committing true _ => true
  | _ => false
  end.

(** Actions still to perform at this place. *)
Definition minor (r : Runner) : nat :=
  let out := if awaits r then 1 else 0 in
  match phase r with
  | Phase_Executing _ _ queue _ => 2 * length queue + out
  | Phase_RollingBack _ (Some u) _ => 2 * (length (doubtful u) + length (ud_queue u)) + out
  | _ => 0
  end.

Definition closer (r' r : Runner) : Prop :=
  major r' < major r ∨ (major r' = major r ∧ minor r' < minor r).

(** What a yielded answer says of the phase. *)
Definition asks (next : Next) (r : Runner) : Prop :=
  match next, phase r with
  | Next_Observe _, Phase_Checking _ true => True
  | Next_Perform _, (Phase_Executing _ _ _ true | Phase_RollingBack _ (Some _) true
                    | Phase_Committing true _) => True
  | Next_Finished, Phase_Closed => True
  | _, _ => False
  end.

(** A turn that went well. *)
Definition goes (r : Runner) (tn : Turn) : Prop :=
  match tn with
  | Again r' t' _ =>
      invariant r' t' ∧ awaits r' = false ∧ closer r' r ∧
      (major r' < major r ∨ (major r' = major r ∧ awaits r = true)) ∧ steps r' = steps r
  | Yield next r' t' => invariant r' t' ∧ asks next r' ∧ (phase r = Phase_Closed ∨ closer r' r) ∧
      steps r' = steps r
  end.

Lemma goes_down r r' t' input :
  invariant r' t' → awaits r' = false → major r' < major r → steps r' = steps r →
  goes r (Again r' t' input).
Proof. intros Hi Ha Hm Hs. split_and!; [done|done|by left|by left|done]. Qed.

Lemma finish_or_commit_major r :
  major (finish_or_commit r) ≤ 3 ∧ awaits (finish_or_commit r) = false.
Proof. unfold finish_or_commit. case_decide; unfold major, awaits; simpl; lia. Qed.

Lemma roll_back_major r :
  after r = After_Close → major (roll_back r) ≤ 3 * length (steps r) + 3.
Proof.
  intros Ha. unfold major, roll_back. simpl. unfold tail. simpl. rewrite Ha.
  assert (H := length_filter (λ step, owned r step = true) (seq 0 (length (steps r)))).
  rewrite length_seq in H. lia.
Qed.

Lemma roll_back_only_major r step a :
  major (roll_back_only step a r) ≤ tail (set_after a r) + 4.
Proof. unfold major, roll_back_only. simpl. unfold tail. simpl. destruct (owned r step); simpl; lia. Qed.

Lemma cancel_goes r t k rolled current cause :
  at_work r t k rolled false None [plan r] → acting r = None → after r = After_Close →
  (independent r = false → rolled = []) → cause ≠ Cancellation_Unspecified →
  (∀ s, current = Some s → k = s + 1 ∧ s < length (steps r) ∧ ∀ x, x ∈ rolled → x < s) →
  let r' := cancel cause current r in
  invariant r' t ∧ awaits r' = false ∧ major r' ≤ 3 * length (steps r) + 8 ∧ steps r' = steps r.
Proof.
  intros Hw Ha Haf Hro Hc Hcur. unfold cancel.
  set (r1 := set_verdict (Some (Verdict_Cancelled cause)) r).
  assert (Hw1 : at_work r1 t k rolled false None [plan r1]).
  { eapply at_work_follows; [|exact Hw]. follow. right. simpl. congruence. }
  change (independent r1) with (independent r).
  destruct (independent r) eqn:Hi; simpl.
  2:{ split_and!; [by eapply roll_back_invariant; eauto|done| |done].
      assert (H := roll_back_major r1 Haf). simpl in H. simpl. lia. }
  assert (Hfc : let r' := finish_or_commit r1 in
    invariant r' t ∧ awaits r' = false ∧ major r' ≤ 3 * length (steps r) + 8 ∧ steps r' = steps r).
  { destruct (finish_or_commit_major r1) as [H ?]. simpl.
    split_and!; [by eapply finish_or_commit_invariant|done|lia|done]. }
  destruct current as [s|]; [|done]. destruct (owned r1 s); [|done].
  destruct (Hcur s eq_refl) as (-> & Hs & Hx).
  split_and!; [by eapply roll_back_only_invariant|done| |done].
  assert (H := roll_back_only_major r1 s After_Commit). simpl in H. unfold tail in H. simpl in *. lia.
Qed.

Lemma caused_follows r step cause t k rolled c except path :
  step < length (steps r) → cause < length (steps r) →
  at_work r t k rolled c except path → at_work (caused step cause r) t k rolled c except path.
Proof.
  intros Hs Hc [Hb Hd Hpl]. split; [|done|].
  - destruct Hb as [? ? ? ? Hcs ? ? ? ?]. split; try done. simpl. intros i x.
    rewrite list_lookup_insert_Some. intros [(-> & [= ->] & _)|[_ Hi]]; [done|].
    case_decide; [|by eapply Hcs]. apply lookup_replicate in Hi as [? _]. congruence.
  - eapply placed_mono; [|done]. intros key. by apply taken_mono.
Qed.

Lemma fail_goes r t step rolled failure :
  at_work r t (step + 1) rolled false None [plan r] → acting r = None → after r = After_Close →
  step < length (steps r) → (∀ s, s ∈ rolled → s < step) → (independent r = false → rolled = []) →
  ∃ r', fail step failure r = Some r' ∧ invariant r' t ∧ awaits r' = false ∧
    major r' < ahead (length (steps r)) (step + 1) + 8 ∧ steps r' = steps r.
Proof.
  intros Hw Ha Haf Hs Hro Hin. unfold fail.
  assert (Hw1 := caused_follows r step step t _ _ _ _ _ Hs Hs Hw).
  set (r1 := caused step step r) in *.
  destruct (record_works r1 step (StepOutcome_Failed failure) Hs) as (rp & -> & _). simpl.
  destruct (step_spec r step Hs) as [spec Hspec].
  assert (Hspec' : steps (set_report rp r1) !! step = Some spec) by exact Hspec.
  change (list_lookup step (steps r)) with (steps r !! step). rewrite Hspec. simpl.
  eexists. split; [reflexivity|].
  destruct (independent r) eqn:Hi.
  - set (r2 := set_verdict _ _).
    assert (Hw2 : at_work r2 t (step + 1) rolled false None [plan r2]).
    { eapply at_work_follows; [|exact Hw1]. follow.
      destruct (verdict r) as [w|]; [by left|right]. done. }
    split_and!; [|done| |done].
    + eapply roll_back_only_invariant; try done. intros next [= <-]. split; [done|exact Hi].
    + assert (H := roll_back_only_major r2 step (After_Continue (step + 1))).
      unfold tail in H. simpl in H. lia.
  - set (r2 := set_verdict _ _).
    assert (Hw2 : at_work r2 t (step + 1) rolled false None [plan r2]).
    { eapply at_work_follows; [|exact Hw1]. follow. }
    split_and!; [|done| |done].
    + by eapply roll_back_invariant; eauto.
    + assert (H := roll_back_major r2 Haf). simpl in *. unfold ahead. lia.
Qed.

(** ** Turn by turn *)

Lemma node_known_start t t' plan id s verb subject :
  emitted t' = emitted t ++ [started_event id plan s] → started_in (emitted t) id = None →
  st_kind s = Kind_Step verb subject → node_known t' plan id.
Proof.
  intros Hem Hfresh Hk. eexists. split; [|split].
  - rewrite Hem, started_in_none by done. unfold started_in. cbn. by rewrite decide_True.
  - done.
  - simpl. by rewrite Hk.
Qed.

Lemma turn_opening_goes r t input :
  phase r = Phase_Opening → invariant r t → ∃ tn, turn r t input = Some tn ∧ goes r tn.
Proof.
  intros Hph Hi. unfold turn, invariant in *. rewrite Hph in *.
  destruct Hi as (Ha & Haf & Hb & Hno & m & v & o & Hv & Hp & Hplan). unfold turn_opening.
  assert (Hk := bk_keys _ _ _ Hb).
  set (s := start_planned (start_new "plan" (Kind_Plan "")) (sp_key <$> steps r)).
  destruct (start_open_valid t m v (r_parent r) o s) as (t' & v' & Hs & Hv' & Hem & _); try done.
  { split; [|exact I]. apply Hk. }
  assert (Hs' : start_node t (r_parent r) s = Some (next t, t'))
    by (unfold start_node; by rewrite Hs).
  change (∃ tn, ('(plan, t0) ← start_node t (r_parent r) s; Some (Again (set_phase (Phase_Checking 0 false)
    (set_plan plan (set_phase Phase_Closing r))) t0 input)) = Some tn ∧ goes r tn).
  rewrite Hs'. simpl. eexists. split; [reflexivity|].
  apply goes_down; [|done| |done].
  - unfold invariant. simpl. split_and!; [done|done|done|]. exists []. split_and!.
    + split; [|intros i Hi Ho|].
      * destruct Hb as [? ? ? ? ? ? ? ? ?]. by split.
      * exfalso. specialize (Hno i Hi). unfold owned in *. simpl in Ho. congruence.
      * eexists _, v', [(next t, ∅)]. split_and!; [exact Hv'| |done|].
        -- split; [|done]. unfold opened. rewrite insert_insert_eq. eexists.
           split; [apply lookup_insert_eq|done].
        -- by intros e key ->%list_elem_of_singleton ?%elem_of_empty.
    + by intros i ?%elem_of_nil.
    + done.
  - unfold major. simpl. rewrite Hph. lia.
Qed.

Lemma blocker_spec r k rolled step :
  books r k rolled → step < length (steps r) →
  ∃ b, blocker r step = Some b ∧ ∀ cause, b = Some cause → cause < length (steps r).
Proof.
  intros Hb Hs. unfold blocker. case_decide; [by eexists|].
  destruct (step_spec r step Hs) as [spec ->]. simpl. eexists. split; [done|].
  intros cause. generalize (sp_after spec ++ seq (sp_within spec).1 ((sp_within spec).2 - (sp_within spec).1)).
  intros l. induction l as [|d l IH]; simpl; [done|].
  destruct (causes r !! d) as [[c|]|] eqn:Hd; simpl; [|done..].
  intros [= <-]. by eapply bk_causes.
Qed.

Lemma turn_ask_goes r t input step :
  phase r = Phase_Checking step false → invariant r t → ∃ tn, turn r t input = Some tn ∧ goes r tn.
Proof.
  intros Hph Hi. unfold turn, invariant in *. rewrite Hph in *.
  destruct Hi as (Ha & Haf & _ & rolled & Hw & Hro & Hin). unfold turn_ask. simpl.
  assert (Hb := aw_books _ _ _ _ _ _ _ Hw).
  assert (Hmajor : major r = ahead (length (steps r)) step) by (unfold major; by rewrite Hph).
  destruct (decide (step = length (steps r))) as [->|Hne].
  { set (r1 := set_verdict _ _). eexists. split; [reflexivity|].
    assert (Hw1 : at_work r1 t (length (steps r)) rolled false None [plan r1]).
    { eapply at_work_follows; [|exact Hw]. follow. destruct (verdict r); [by left|by right]. }
    destruct (finish_or_commit_major r1) as [Hm Haw].
    apply goes_down; [by eapply finish_or_commit_invariant|done|rewrite Hmajor; unfold ahead; lia|done]. }
  assert (Hlt : step < length (steps r)) by (assert (H := bk_reached _ _ _ Hb); lia).
  destruct (stop r) as [cause|] eqn:Hst.
  { eexists. split; [reflexivity|].
    destruct (cancel_goes (set_phase Phase_Closing r) t step rolled None cause) as (Hi & Haw & Hm & Hsteps);
      try done.
    { eapply at_work_follows; [|exact Hw]. follow. }
    { intros ->. by apply (bk_stop _ _ _ Hb). }
    apply goes_down; [done..| |done]. rewrite Hmajor. unfold ahead. simpl in Hm. lia. }
  destruct (blocker_spec _ _ _ step Hb Hlt) as (b & Hbl & Hcause).
  assert (Hbl' : blocker (set_phase Phase_Closing r) step = Some b) by exact Hbl.
  rewrite Hbl'. destruct (step_spec r step Hlt) as [spec Hspec]. simpl.
  change (list_lookup step (steps r)) with (steps r !! step). rewrite Hspec. simpl.
  destruct b as [cause|].
  - assert (Hc := Hcause cause eq_refl). destruct (step_spec r cause Hc) as [spec' Hspec'].
    change (list_lookup cause (steps r)) with (steps r !! cause). rewrite Hspec'. simpl.
    destruct (keys_ok_apart _ _ _ (bk_keys _ _ _ Hb) Hspec') as (Hne' & _).
    destruct (placed_blocked t _ (taken r (step + 1) rolled false) (plan r) (sp_key spec) (sp_key spec')
      (aw_placed _ _ _ _ _ _ _ Hw)) as (t' & k' & Hbk & Hpl' & Hem).
    { by eapply fresh_step. } { done. } { intros key. apply taken_mono; try done. lia. }
    { apply taken_step with step; [lia|done]. }
    rewrite Hbk. destruct (record_works (caused step cause (set_phase Phase_Closing r)) step
      (StepOutcome_Blocked (sp_key spec')) Hlt) as (rp & -> & _). simpl.
    eexists. split; [reflexivity|].
    apply goes_down; [|done|rewrite Hmajor; unfold major, ahead; simpl; lia|done].
    unfold invariant. simpl. split_and!; [done..|]. exists rolled.
    assert (Hw1 : at_work r t' (step + 1) rolled false None [plan r]).
    { split; [|eapply done_nodes_more; [done|by apply Hw]|done].
      destruct Hb as [? ? ? ? ? ? ? Hown Hrol]. split; try done; [lia| |].
      - intros s Hs Ho. specialize (Hown s Hs Ho). lia.
      - intros s Hs. specialize (Hrol s Hs). lia. }
    split_and!; [|intros s Hs; specialize (Hro s Hs); lia|done].
    apply (caused_follows r step cause) in Hw1; [|done..].
    eapply at_work_follows; [|exact Hw1]. follow.
  - eexists. split; [reflexivity|]. split_and!; [|exact I| |done].
    + unfold invariant. simpl. split_and!; [done..|]. exists rolled.
      split_and!; [|done|done]. eapply at_work_follows; [|exact Hw]. follow.
    + right. left. rewrite Hmajor. unfold major, ahead. simpl. lia.
Qed.

(** Reaching the next step changes the books alone. *)
Lemma books_reach r step rolled :
  books r step rolled → step < length (steps r) → books r (step + 1) rolled.
Proof.
  intros [? ? ? ? ? ? ? Hown Hrol] Hlt. split; try done; [lia| |].
  - intros s Hs Ho. specialize (Hown s Hs Ho). lia.
  - intros s Hs. specialize (Hrol s Hs). lia.
Qed.

(** The node of a checked step. *)
Lemma work_step r t step rolled spec verb subject shield :
  at_work r t step rolled false None [plan r] → steps r !! step = Some spec →
  let s := start_new (sp_key spec) (Kind_Step verb subject) in
  ∃ t', start_node t (plan r) (if shield : bool then start_shielded s else s) = Some (next t, t') ∧
    node_known t' (plan r) (next t) ∧
    at_work (set_nodes (<[step := Some (next t)]> (r_nodes r)) r) t' (step + 1) rolled false
      (Some step) [next t; plan r] ∧
    r_nodes (set_nodes (<[step := Some (next t)]> (r_nodes r)) r) !! step = Some (Some (next t)).
Proof.
  intros [Hb Hd Hpl] Hspec s. assert (Hlt : step < length (steps r)) by by eapply lookup_lt_Some.
  set (s' := if shield then start_shielded s else s).
  assert (Hkey : st_key s' = sp_key spec) by (by destruct shield).
  assert (Hkind : st_kind s' = Kind_Step verb subject) by (by destruct shield).
  destruct (placed_start t _ (taken r (step + 1) rolled false) (plan r) [] s' Hpl)
    as (t' & Hs & Hpl' & Hem & Hfresh).
  - split; [by destruct shield; constructor|]. by rewrite Hkind.
  - rewrite Hkey. by eapply fresh_step.
  - intros key. apply taken_mono; try done. lia.
  - rewrite Hkey. apply taken_step with step; [lia|done].
  - exists t'. assert (Hn : length (r_nodes r) = length (steps r)) by apply Hb.
    split_and!; [done|by eapply node_known_start| |simpl; by rewrite list_lookup_insert_eq by lia].
    split; [|intros i Hi Ho Hne|].
    + destruct (books_reach _ _ _ Hb Hlt). split; try done. simpl. by rewrite length_insert.
    + simpl in Hne. destruct (Hd i Hi Ho) as (n & Hn' & Hdone); [done|].
      exists n. simpl. rewrite list_lookup_insert_ne by congruence.
      split; [done|]. by eapply node_done_more.
    + eapply placed_mono; [|exact Hpl']. intros key. by apply taken_mono.
Qed.

Lemma turn_check_goes r t input step :
  phase r = Phase_Checking step true → invariant r t → answers r input →
  ∃ tn, turn r t input = Some tn ∧ goes r tn.
Proof.
  intros Hph Hi Hin. unfold turn, invariant, answers in *. rewrite Hph in *.
  destruct Hi as (Ha & Haf & Hlt & rolled & Hw & Hro & Hind). specialize (Hlt eq_refl).
  destruct Hin as [facts ->]. unfold turn_check.
  assert (Hmajor : major r = ahead (length (steps r)) (step + 1) + 9) by (unfold major; by rewrite Hph).
  destruct (step_spec r step Hlt) as [spec Hspec]. simpl.
  change (list_lookup step (steps r)) with (steps r !! step). rewrite Hspec. simpl.
  destruct (match facts ≫= sp_actions spec with Ok a => (a, None) | Err f => ([], Some f) end)
    as [actions unobservable]. destruct (sp_title spec) as [verb subject].
  destruct (work_step r t step rolled spec verb subject (sp_shielded spec) Hw Hspec)
    as (t' & Hs & Hk & Hw' & Hn). simpl in Hs. rewrite Hs. simpl. clear Hs.
  set (r1 := set_nodes _ (set_phase Phase_Closing r)).
  assert (Hw1 : at_work r1 t' (step + 1) rolled false (Some step) [next t; plan r])
    by (eapply at_work_follows; [|exact Hw']; follow).
  assert (Hfin : ∀ e, plain e → ∃ t'', finish_node t' (next t) e = Some t'' ∧
    at_work r1 t'' (step + 1) rolled false None [plan r1]).
  { intros e He. destruct (work_finish _ _ _ _ _ _ _ _ e Hw1 He) as (t'' & Hf & Hw2 & Hfin & k' & Hem).
    exists t''. split; [done|]. eapply done_except; [exact Hw2|exact Hn|].
    split; [by eapply node_known_more|done]. }
  destruct unobservable as [failure|].
  - destruct (Hfin (ending_failed (diagnostic failure)) (plain_failed _)) as (t'' & -> & Hw2). simpl.
    destruct (fail_goes r1 t'' step rolled failure Hw2 Ha Haf Hlt Hro Hind)
      as (r2 & -> & Hi2 & Haw & Hm & Hst). simpl.
    eexists. split; [reflexivity|]. apply goes_down; [done..| |by rewrite Hst].
    rewrite Hmajor. simpl in Hm. lia.
  - destruct (decide (actions = [])) as [Hnil|Hnil].
    + destruct (Hfin ending_already_satisfied plain_satisfied) as (t'' & -> & Hw2). simpl.
      destruct (record_works r1 step StepOutcome_Satisfied Hlt) as (rp & -> & _). simpl.
      eexists. split; [reflexivity|].
      apply goes_down; [|done|rewrite Hmajor; unfold major; simpl; lia|done].
      unfold invariant. simpl. split_and!; [done..|]. exists rolled.
      split_and!; [|intros s Hs; specialize (Hro s Hs); lia|done].
      eapply at_work_follows; [|exact Hw2]. follow.
    + eexists. split; [reflexivity|].
      apply goes_down; [|done|rewrite Hmajor; unfold major; simpl; lia|done].
      unfold invariant. simpl. split_and!; [done|done|exact Hn|exact Hk|].
      exists rolled. split_and!; [done|done|done|].
      eapply at_work_follows; [|exact Hw1]. follow.
Qed.

Lemma turn_execute_goes r t input step node queue :
  phase r = Phase_Executing step node queue false → invariant r t →
  ∃ tn, turn r t input = Some tn ∧ goes r tn.
Proof.
  intros Hph Hi. unfold turn, invariant in *. rewrite Hph in *.
  destruct Hi as (Haf & Hlt & Hn & Hk & rolled & Hro & Hind & Ha & Hw). unfold turn_execute.
  assert (Hb := aw_books _ _ _ _ _ _ _ Hw).
  assert (Hmajor : major r = ahead (length (steps r)) (step + 1) + 8) by (unfold major; by rewrite Hph).
  destruct (step_spec r step Hlt) as [spec Hspec]. simpl.
  change (list_lookup step (steps r)) with (steps r !! step). rewrite Hspec. simpl.
  set (r0 := set_phase Phase_Closing r).
  assert (Hw0 : at_work r0 t (step + 1) rolled false (Some step) [node; plan r0])
    by (eapply at_work_follows; [|exact Hw]; follow).
  assert (Hfin : ∀ e, plain e → ∃ t', finish_node t node e = Some t' ∧
    at_work r0 t' (step + 1) rolled false None [plan r0]).
  { intros e He. destruct (work_finish _ _ _ _ _ _ _ _ e Hw0 He) as (t' & Hf & Hw2 & Hfin & k' & Hem).
    exists t'. split; [done|]. eapply done_except; [exact Hw2|exact Hn|].
    split; [by eapply node_known_more|done]. }
  destruct (if sp_shielded spec then None else stop r) as [cause|] eqn:Hst.
  - assert (Hc : cause ≠ Cancellation_Unspecified).
    { destruct (sp_shielded spec); [done|]. intros ->. by apply (bk_stop _ _ _ Hb). }
    destruct (Hfin (ending_cancelled cause) (plain_cancelled _ Hc)) as (t' & -> & Hw1). simpl.
    destruct (record_works r0 step (StepOutcome_Cancelled cause) Hlt) as (rp & -> & _). simpl.
    destruct (cancel_goes (set_report rp r0) t' (step + 1) rolled (Some step) cause) as (Hi2 & Haw & Hm & Hs);
      try done.
    { eapply at_work_follows; [|exact Hw1]. follow. }
    { intros s [= <-]. done. }
    eexists. split; [reflexivity|]. apply goes_down; [done..| |done].
    rewrite Hmajor. unfold ahead. simpl in Hm. lia.
  - destruct queue as [|action queue].
    + destruct (Hfin ending_succeeded plain_succeeded) as (t' & -> & Hw1). simpl.
      destruct (record_works r0 step StepOutcome_Changed Hlt) as (rp & -> & _). simpl.
      eexists. split; [reflexivity|].
      apply goes_down; [|done|rewrite Hmajor; unfold major; simpl; lia|done].
      unfold invariant. simpl. split_and!; [done..|]. exists rolled.
      split_and!; [|intros s Hs; specialize (Hro s Hs); lia|done].
      eapply at_work_follows; [|exact Hw1]. follow.
    + set (r1 := set_phase (Phase_Executing step node queue true) r0).
      assert (Hw1 : at_work r1 t (step + 1) rolled false (Some step) [node; plan r1])
        by (eapply at_work_follows; [|exact Hw]; follow).
      destruct (work_act r1 t _ _ _ _ _ _ action Hw1) as (t' & -> & Hw2 & k' & Hem). simpl.
      eexists. split; [reflexivity|]. split_and!; [|exact I| |done].
      * unfold invariant. simpl. split_and!; [done|done|exact Hn| |].
        { by eapply node_known_more. }
        exists rolled. split_and!; [done|done|]. exists (next t). split; [done|exact Hw2].
      * right. right. split; [rewrite Hmajor; done|].
        unfold minor. rewrite Hph. unfold awaits. rewrite Hph. simpl. lia.
Qed.

(** A change that landed is the running step's to undo. *)
Lemma work_journaled r t k rolled c step path undos :
  at_work r t k rolled c (Some step) path → step < k →
  at_work (set_journal (<[step := undos]> (journal r)) r) t k rolled c (Some step) path.
Proof.
  intros [Hb Hd Hpl] Hk.
  assert (Hother : ∀ s, s ≠ step → owned (set_journal (<[step := undos]> (journal r)) r) s = owned r s).
  { intros s Hne. unfold owned. simpl. by rewrite list_lookup_insert_ne. }
  split.
  - destruct Hb as [? ? ? ? ? ? ? Hown ?]. split; try done; [by simpl; rewrite length_insert|].
    intros s Hs Ho. destruct (decide (s = step)) as [->|Hne]; [done|].
    rewrite Hother in Ho by done. auto.
  - intros s Hs Ho Hne. rewrite Hother in Ho by congruence. by apply Hd.
  - eapply placed_mono; [|done]. intros key. by apply taken_mono.
Qed.

Lemma turn_executed_goes r t input step node queue :
  phase r = Phase_Executing step node queue true → invariant r t → answers r input →
  ∃ tn, turn r t input = Some tn ∧ goes r tn.
Proof.
  intros Hph Hi Hans. unfold turn, invariant, answers in *. rewrite Hph in *.
  destruct Hi as (Haf & Hlt & Hn & Hk & rolled & Hro & Hind & a & Ha & Hw).
  destruct Hans as [outcome ->]. unfold turn_executed.
  assert (Hb := aw_books _ _ _ _ _ _ _ Hw).
  assert (Hmajor : major r = ahead (length (steps r)) (step + 1) + 8) by (unfold major; by rewrite Hph).
  set (r0 := set_phase Phase_Closing r).
  assert (Hw0 : at_work r0 t (step + 1) rolled false (Some step) [a; node; plan r0])
    by (eapply at_work_follows; [|exact Hw]; follow).
  destruct (work_acted r0 t _ _ _ _ _ _ outcome Hw0 Ha) as (t1 & Hact & Hw1 & k1 & Hem1).
  change (stop (set_phase Phase_Closing r)) with (stop r0). rewrite Hact. simpl. clear Hact.
  set (r1 := set_acting None r0) in *.
  assert (Hk1 : node_known t1 (plan r) node) by by eapply node_known_more.
  assert (Hfin : ∀ r' e, r_nodes r' = r_nodes r → plan r' = plan r →
    at_work r' t1 (step + 1) rolled false (Some step) [node; plan r'] → plain e →
    ∃ t', finish_node t1 node e = Some t' ∧ at_work r' t' (step + 1) rolled false None [plan r']).
  { intros r' e Hnodes Hplan Hwr He.
    destruct (work_finish _ _ _ _ _ _ _ _ e Hwr He) as (t' & Hf & Hw2 & Hfin & k' & Hem).
    exists t'. split; [done|]. eapply done_except; [exact Hw2|by rewrite Hnodes|].
    split; [rewrite Hplan; by eapply node_known_more|done]. }
  assert (Hfailed : ∀ failure, ∃ tn, (t ← finish_node t1 node (ending_failed (diagnostic failure));
    r ← fail step failure r1; Some (Again r t None)) = Some tn ∧ goes r tn).
  { intros failure. destruct (Hfin r1 _ eq_refl eq_refl Hw1 (plain_failed (diagnostic failure)))
      as (t' & -> & Hw2). simpl.
    destruct (fail_goes r1 t' step rolled failure Hw2 eq_refl Haf Hlt Hro Hind)
      as (r2 & -> & Hi2 & Haw & Hm & Hst). simpl.
    eexists. split; [reflexivity|]. apply goes_down; [done..| |by rewrite Hst].
    rewrite Hmajor. simpl in Hm. lia. }
  destruct outcome as [done_|failure].
  - assert (Hj : step < length (journal r)) by (rewrite (bk_journal _ _ _ Hb); lia).
    destruct (lookup_lt_is_Some_2 _ _ Hj) as [undos Hundos]. rewrite Hundos. simpl.
    eexists. split; [reflexivity|]. split_and!; [|done| | |done].
    + unfold invariant. simpl. split_and!; [done|done|exact Hn|exact Hk1|].
      exists rolled. split_and!; [done|done|done|].
      eapply at_work_follows; [|apply (work_journaled r1 t1 (step + 1) rolled false step
        [node; plan r1] (undos ++ [undo done_]) Hw1); lia]. follow.
    + right. split; [rewrite Hmajor; done|]. unfold minor, awaits. rewrite Hph. simpl. lia.
    + right. split; [rewrite Hmajor; done|]. unfold awaits. by rewrite Hph.
  - destruct failure as [| | | | | | | | | | | |]; try apply Hfailed.
    set (cause := default Cancellation_Interrupted (stop r)). set (r2 := set_stop (Some cause) r1).
    assert (Hc : cause ≠ Cancellation_Unspecified).
    { assert (H := bk_stop _ _ _ Hb). unfold cause. destruct (stop r) as [[]|]; simpl; congruence. }
    assert (Hw2 : at_work r2 t1 (step + 1) rolled false (Some step) [node; plan r2])
      by (eapply at_work_follows; [|exact Hw1]; follow; right; simpl; congruence).
    destruct (Hfin r2 _ eq_refl eq_refl Hw2 (plain_cancelled _ Hc)) as (t' & -> & Hw3). simpl.
    destruct (record_works r2 step (StepOutcome_Cancelled cause) Hlt) as (rp & -> & _). simpl.
    destruct (cancel_goes (set_report rp r2) t' (step + 1) rolled (Some step) cause)
      as (Hi2 & Haw & Hm & Hs); try done.
    { eapply at_work_follows; [|exact Hw3]. follow. }
    { intros s [= <-]. done. }
    eexists. split; [reflexivity|]. apply goes_down; [done..| |done].
    rewrite Hmajor. unfold ahead. simpl in Hm. lia.
Qed.

(** ** Rolling back *)

(** A step taken up for rollback leaves the books, its key is used. *)
Definition take_up (step : nat) (r : Runner) : Runner :=
  set_doubts (filter (λ doubt, db_step doubt ≠ step) (doubts r))
    (set_journal (<[step := []]> (journal r)) r).

Lemma owned_take_up r step s :
  owned (take_up step r) s = true → owned r s = true ∧ (s = step → step ≥ length (journal r)).
Proof.
  unfold owned, take_up. simpl. rewrite !orb_true_iff, !negb_true_iff, !bool_decide_eq_false.
  rewrite !existsb_exists. intros [Hj|(d & Hd & Heq)].
  - split; [|intros ->; destruct (decide (step < length (journal r))); [|lia];
      by rewrite list_lookup_insert_eq in Hj].
    left. intros Hs. apply Hj. destruct (decide (s = step)) as [->|Hne].
    + rewrite list_lookup_insert_eq; [done|]. by eapply lookup_lt_Some.
    + by rewrite list_lookup_insert_ne.
  - apply bool_decide_eq_true in Heq. apply list_elem_of_In, list_elem_of_filter in Hd as [Hne Hd].
    split; [right; exists d; rewrite bool_decide_true by done; split; [by apply list_elem_of_In|done]|].
    congruence.
Qed.

Lemma owned_take_up_other r step s : s ≠ step → owned (take_up step r) s = owned r s.
Proof.
  intros Hne. unfold owned, take_up. simpl. rewrite list_lookup_insert_ne by done. f_equal.
  induction (doubts r) as [|d l IH]; [done|]. rewrite filter_cons. simpl.
  case_decide as Hd; simpl; rewrite IH; [done|].
  by rewrite bool_decide_false by congruence.
Qed.

Lemma split_last (l : list nat) x : last l = Some x → l = take (length l - 1) l ++ [x].
Proof.
  destruct l as [|y l _] using rev_ind; [done|]. rewrite last_snoc. intros [= ->].
  rewrite length_app. simpl. by rewrite Nat.add_sub, take_app_length.
Qed.

Lemma take_up_works r t k rolled step path :
  books r k rolled → done_nodes r t None → step < k →
  placed t (taken r k (step :: rolled) false) path →
  at_work (take_up step r) t k (step :: rolled) false None path.
Proof.
  intros Hb Hd Hk Hpl. split.
  - destruct Hb as [? ? ? ? ? ? ? Hown Hrol]. split; try done.
    + simpl. by rewrite length_insert.
    + intros s Hs [Ho _]%owned_take_up. auto.
    + intros s [->|Hs]%elem_of_cons; auto.
  - intros s Hs [Ho _]%owned_take_up Hne. by apply Hd.
  - eapply placed_mono; [|exact Hpl]. intros key. by apply taken_mono.
Qed.

Lemma turn_roll_next_goes r t input remaining awaiting :
  phase r = Phase_RollingBack remaining None awaiting → invariant r t →
  ∃ tn, turn r t input = Some tn ∧ goes r tn.
Proof.
  intros Hph Hi. unfold turn, invariant in *. rewrite Hph in *.
  destruct Hi as (Ha & k & rolled & Hw & Haf & [Hnd Hfresh] & Hall). unfold turn_roll_next.
  assert (Hb := aw_books _ _ _ _ _ _ _ Hw).
  assert (Hmajor : major r = tail r + 3 * length remaining + 1) by (unfold major; by rewrite Hph).
  destruct (last remaining) as [step|] eqn:Hlast.
  2:{ simpl. set (r1 := set_after After_Close (set_phase Phase_Closing r)).
      assert (Hw1 : at_work r1 t k rolled false None [plan r1])
        by (eapply at_work_follows; [|exact Hw]; follow).
      eexists. split; [reflexivity|]. unfold tail in Hmajor.
      destruct (after r) as [|next|] eqn:Hafter.
      - apply goes_down; [|done|rewrite Hmajor; unfold major; simpl; lia|done].
        unfold invariant. simpl. exists k, rolled, false. eapply at_work_follows; [|exact Hw1]. follow.
      - destruct (Haf next Hafter) as [-> Hind].
        apply goes_down; [|done|rewrite Hmajor; unfold major; simpl; lia|done].
        unfold invariant. simpl. split_and!; [done..|]. exists rolled.
        split_and!; [|apply Hb|by rewrite Hind]. eapply at_work_follows; [|exact Hw1]. follow.
      - destruct (finish_or_commit_major r1) as [Hm Haw].
        apply goes_down; [by eapply finish_or_commit_invariant|done|lia|done]. }
  assert (Hsplit := split_last _ _ Hlast). set (rest := take (length remaining - 1) remaining) in *.
  assert (Hin : step ∈ remaining) by (rewrite Hsplit; apply elem_of_app; right; by left).
  destruct (Hall _ Hin) as [Hlt Hown]. assert (Hnr := Hfresh _ Hin).
  destruct (step_spec r step Hlt) as [spec Hspec]. simpl.
  change (list_lookup step (steps r)) with (steps r !! step). rewrite Hspec. simpl.
  destruct (aw_done _ _ _ _ _ _ _ Hw step Hlt Hown) as (n & Hn & (ns & Hns & Hnp & Hsh) & Hfin); [done|].
  change (list_lookup step (r_nodes r)) with (r_nodes r !! step). rewrite Hn. simpl.
  set (s := start_shielded (start_new ("rollback:" +:+ sp_key spec) (Kind_Rollback n))).
  destruct (placed_start t _ (taken r k (step :: rolled) false) (plan r) [] s (aw_placed _ _ _ _ _ _ _ Hw))
    as (t' & Hs & Hpl' & Hem & _).
  { split; [constructor|]. split; [done|]. by exists ns. }
  { by eapply fresh_rollback. }
  { intros key. apply taken_mono; try done. intros x. by right. }
  { apply taken_rollback with step; [by left|done]. }
  match goal with |- context [start_node ?a ?b ?c] =>
    change (start_node a b c) with (start_node t (plan r) s) end.
  rewrite Hs. simpl. clear Hs.
  assert (Hj : step < length (journal r)) by (rewrite (bk_journal _ _ _ Hb); lia).
  destruct (lookup_lt_is_Some_2 _ _ Hj) as [undos Hundos].
  change (list_lookup step (journal r)) with (journal r !! step). rewrite Hundos. simpl.
  eexists. split; [reflexivity|].
  assert (Hsk : step < k) by by eapply bk_owned.
  assert (Hlen : length remaining = S (length rest)) by (rewrite Hsplit, length_app; simpl; lia).
  apply goes_down; [|done| |done].
  - unfold invariant. simpl. split; [done|]. exists k, (step :: rolled). split_and!.
    + exact Haf.
    + rewrite Hsplit in Hnd. apply NoDup_app in Hnd as (Hnd & Hdis & _). split; [done|].
      intros x Hx [->|Hxr]%elem_of_cons; [by apply (Hdis _ Hx); left|].
      apply (Hfresh x); [|done]. rewrite Hsplit. apply elem_of_app. by left.
    + intros x Hx. assert (Hx' : x ∈ remaining) by (rewrite Hsplit; apply elem_of_app; by left).
      destruct (Hall _ Hx') as [? Hox]. split; [done|].
      rewrite <- Hox. apply (owned_take_up_other r). intros ->.
      rewrite Hsplit in Hnd. apply NoDup_app in Hnd as (_ & Hdis & _). apply (Hdis _ Hx). by left.
    + done.
    + eapply (at_work_follows (take_up step r)); [follow|].
      apply take_up_works; [done|by eapply done_nodes_more; [|apply Hw]|done|done].
  - rewrite Hmajor, Hlen. unfold major, tail. simpl. lia.
Qed.

(** An undo handed to the driver. *)
Lemma perform_undo_goes r t remaining undoing undoing' action :
  phase r = Phase_RollingBack remaining (Some undoing) false → invariant r t →
  ud_step undoing' = ud_step undoing → ud_node undoing' = ud_node undoing →
  length (doubtful undoing') + length (ud_queue undoing') <
    length (doubtful undoing) + length (ud_queue undoing) →
  ∃ tn, yielded <$> act t (ud_node undoing) action
      (set_phase (Phase_RollingBack remaining (Some undoing') true) (set_phase Phase_Closing r))
    = Some tn ∧ goes r tn.
Proof.
  intros Hph Hi Hst Hnd Hlen. unfold invariant in Hi. rewrite Hph in Hi.
  destruct Hi as (Hlt & k & rolled & Haf & Hrem & Hall & Ha & Hw).
  set (r1 := set_phase (Phase_RollingBack remaining (Some undoing') true) (set_phase Phase_Closing r)).
  assert (Hw1 : at_work r1 t k rolled false None [ud_node undoing; plan r1])
    by (eapply at_work_follows; [|exact Hw]; follow).
  destruct (work_act r1 t _ _ _ _ _ _ action Hw1) as (t' & -> & Hw2 & _). simpl.
  eexists. split; [reflexivity|]. split_and!; [|exact I| |done].
  - unfold invariant. simpl. split; [by rewrite Hst|]. exists k, rolled. split_and!; [done..|].
    exists (next t). split; [done|]. rewrite Hnd. exact Hw2.
  - right. right. unfold major, minor, awaits. rewrite Hph. simpl. split; [done|]. lia.
Qed.

Lemma turn_roll_undo_goes r t input remaining undoing :
  phase r = Phase_RollingBack remaining (Some undoing) false → invariant r t →
  ∃ tn, turn r t input = Some tn ∧ goes r tn.
Proof.
  intros Hph Hi. unfold turn. rewrite Hph. unfold turn_roll_undo.
  destruct (doubtful undoing) as [|action ds] eqn:Hds;
    [destruct (ud_queue undoing) as [|action qs] eqn:Hqs|].
  2:{ apply (perform_undo_goes r t remaining undoing); [done..|]. rewrite Hds, Hqs. simpl. lia. }
  2:{ apply (perform_undo_goes r t remaining undoing); [done..|]. rewrite Hds. simpl. lia. }
  unfold invariant in Hi. rewrite Hph in Hi.
  destruct Hi as (Hlt & k & rolled & Haf & Hrem & Hall & Ha & Hw).
  destruct (step_spec r _ Hlt) as [spec Hspec]. simpl.
  change (list_lookup (ud_step undoing) (steps r)) with (steps r !! ud_step undoing).
  rewrite Hspec. simpl.
  set (r0 := set_phase Phase_Closing r).
  assert (Hw0 : at_work r0 t k rolled false None [ud_node undoing; plan r0])
    by (eapply at_work_follows; [|exact Hw]; follow).
  match goal with |- context [finish_node t _ ?e] =>
    destruct (work_finish _ _ _ _ _ _ _ _ e Hw0) as (t' & -> & Hw1 & _) end.
  { destruct (ud_failed undoing); auto. }
  simpl. eexists. split; [reflexivity|]. apply goes_down; [|done| |done].
  - unfold invariant. simpl. split; [done|]. exists k, rolled. split_and!; try done.
    eapply at_work_follows; [|exact Hw1]. follow.
  - unfold major, tail. rewrite Hph. simpl. lia.
Qed.

Lemma turn_rolled_goes r t input remaining undoing :
  phase r = Phase_RollingBack remaining (Some undoing) true → invariant r t → answers r input →
  ∃ tn, turn r t input = Some tn ∧ goes r tn.
Proof.
  intros Hph Hi Hans. unfold turn, invariant, answers in *. rewrite Hph in *.
  destruct Hi as (Hlt & k & rolled & Haf & Hrem & Hall & a & Ha & Hw).
  destruct Hans as [outcome ->]. unfold turn_rolled.
  set (r0 := set_phase Phase_Closing r).
  assert (Hw0 : at_work r0 t k rolled false None [a; ud_node undoing; plan r0])
    by (eapply at_work_follows; [|exact Hw]; follow).
  destruct (work_acted r0 t _ _ _ _ _ _ outcome Hw0 Ha) as (t1 & Hact & Hw1 & _).
  change (stop (set_phase Phase_Closing r)) with (stop r0). rewrite Hact. simpl. clear Hact.
  destruct (step_spec r _ Hlt) as [spec Hspec].
  change (list_lookup (ud_step undoing) (steps r)) with (steps r !! ud_step undoing).
  rewrite Hspec. simpl.
  assert (Hback : ∀ u rp, ud_step u = ud_step undoing → ud_node u = ud_node undoing →
    doubtful u = doubtful undoing → ud_queue u = ud_queue undoing →
    goes r (Again (set_phase (Phase_RollingBack remaining (Some u) false)
      (set_report rp (set_acting None r0))) t1 None)).
  { intros u rp Hs Hn Hd Hq. split_and!; [|done| | |done].
    - unfold invariant. simpl. split; [by rewrite Hs|]. exists k, rolled. rewrite Hn.
      split_and!; try done. eapply at_work_follows; [|exact Hw1]. follow.
    - right. unfold major, minor, awaits, tail. rewrite Hph. simpl. rewrite Hd, Hq. lia.
    - right. unfold major, awaits, tail. rewrite Hph. done. }
  assert (Hsame : set_report (report r) (set_acting None r0) = set_acting None r0) by done.
  destruct outcome as [done_|failure]; [|destruct (doubting undoing) eqn:Hdb];
    simpl; (eexists; split; [reflexivity|]).
  - assert (H := Hback undoing (report r) eq_refl eq_refl eq_refl eq_refl). exact H.
  - assert (H := Hback undoing (report r) eq_refl eq_refl eq_refl eq_refl). exact H.
  - by apply Hback.
Qed.

(** ** Committing and closing *)

Lemma turn_commit_goes r t input reclaim :
  phase r = Phase_Committing false reclaim → invariant r t →
  ∃ tn, turn r t input = Some tn ∧ goes r tn.
Proof.
  intros Hph Hi. unfold turn, invariant in *. rewrite Hph in *.
  destruct Hi as (Ha & k & rolled & Hw). unfold turn_commit.
  set (r0 := set_phase Phase_Closing r). change (plan r0) with (plan r).
  assert (Hmajor : major r = 3) by (unfold major; by rewrite Hph).
  assert (Hrec : ∀ r' (c c' : bool) path, follows r r' → (c = true → c' = true) →
    at_work r t k rolled c None path → at_work r' t k rolled c' None path).
  { intros r' c c' path Hf Hc Hw'. apply (at_work_follows r r') in Hw' as [Hb Hd Hpl]; [|done].
    split; [done..|]. eapply placed_mono; [|exact Hpl]. intros key. by apply taken_mono. }
  destruct (reclaims r0).
  - destruct (placed_start t _ (taken r k rolled true) (plan r) []
      (start_new "reclaim" (Kind_Step Verb_Reclaiming "disk space")) (aw_placed _ _ _ _ _ _ _ Hw))
      as (t1 & Hs & Hpl1 & Hem & _).
    { split; [constructor|exact I]. }
    { apply fresh_reclaim, Hw. }
    { intros key. by apply taken_mono. }
    { by apply taken_reclaim. }
    rewrite Hs. simpl. set (r1 := set_phase (Phase_Committing true (Some (next t))) r0).
    assert (Hw1 : at_work r1 t1 k rolled true None [next t; plan r1]).
    { split; [eapply books_follows; [|apply Hw]; follow|by eapply done_nodes_more; [|apply Hw]|].
      eapply placed_mono; [|exact Hpl1]. intros key. by apply taken_mono. }
    destruct (work_act r1 t1 _ _ _ _ _ _ Action_Commit Hw1) as (t' & -> & Hw2 & _). simpl.
    eexists. split; [reflexivity|]. split_and!; [|exact I| |done].
    + unfold invariant. simpl. exists (next t1), k, rolled. split; [done|exact Hw2].
    + right. left. rewrite Hmajor. unfold major. simpl. lia.
  - set (r1 := set_phase (Phase_Committing true None) r0).
    assert (Hw1 : at_work r1 t k rolled true None [plan r1]) by (apply (Hrec r1 false true [plan r]); [follow|done|exact Hw]).
    destruct (work_act r1 t _ _ _ _ _ _ Action_Commit Hw1) as (t' & Hact & Hw2 & _).
    change (plan r1) with (plan r) in Hact. rewrite Hact. simpl.
    eexists. split; [reflexivity|]. split_and!; [|exact I| |done].
    + unfold invariant. simpl. exists (next t), k, rolled. split; [done|exact Hw2].
    + right. left. rewrite Hmajor. unfold major. simpl. lia.
Qed.

Lemma turn_committed_goes r t input reclaim :
  phase r = Phase_Committing true reclaim → invariant r t → answers r input →
  ∃ tn, turn r t input = Some tn ∧ goes r tn.
Proof.
  intros Hph Hi Hans. unfold turn, invariant, answers in *. rewrite Hph in *.
  destruct Hi as (a & k & rolled & Ha & Hw). destruct Hans as [outcome ->]. unfold turn_committed.
  assert (Hb := aw_books _ _ _ _ _ _ _ Hw).
  assert (Hmajor : major r = 2) by (unfold major; by rewrite Hph).
  set (r0 := set_phase Phase_Closing r).
  assert (Hw0 : at_work r0 t k rolled true None
    (a :: match reclaim with Some node => [node] | None => [] end ++ [plan r0]))
    by (eapply at_work_follows; [|exact Hw]; follow).
  destruct (work_acted r0 t _ _ _ _ _ _ outcome Hw0 Ha) as (t1 & Hact & Hw1 & _).
  change (stop (set_phase Phase_Closing r)) with (stop r0). rewrite Hact. simpl. clear Hact.
  set (r1 := set_acting None r0) in *.
  assert (Hrec : ∃ t2, match reclaim with
      | Some node => finish_node t1 node (outcome_ending outcome (stop r))
      | None => Some t1 end = Some t2 ∧ at_work r1 t2 k rolled true None [plan r1]).
  { destruct reclaim as [node|]; [|by exists t1].
    destruct (work_finish _ _ _ _ _ _ _ _ (outcome_ending outcome (stop r)) Hw1) as (t2 & -> & Hw2 & _).
    - apply plain_outcome, (bk_stop _ _ _ Hb).
    - by exists t2. }
  destruct Hrec as (t2 & -> & Hw2). simpl.
  assert (Hend : ∀ r2 t3, steps r2 = steps r → at_work r2 t3 k rolled true None [plan r2] →
    goes r (Again (set_phase Phase_Closing r2) t3 None)).
  { intros r2 t3 Hs Hw3. apply goes_down; [|done|rewrite Hmajor; unfold major; simpl; lia|done].
    unfold invariant. simpl. exists k, rolled, true. eapply at_work_follows; [|exact Hw3]. follow. }
  assert (Hv : get_or_insert Verdict_Succeeded (verdict r) = verdict r ∨
    get_or_insert Verdict_Succeeded (verdict r) ≠ Some (Verdict_Cancelled Cancellation_Unspecified))
    by (destruct (verdict r); [by left|by right]).
  assert (Hsame : ∀ t3, at_work r1 t3 k rolled true None [plan r1] →
    goes r (Again (set_phase Phase_Closing
      (set_verdict (get_or_insert Verdict_Succeeded (verdict r)) r1)) t3 None)).
  { intros t3 Hw3. apply Hend; [done|]. eapply at_work_follows; [|exact Hw3]. follow. }
  destruct outcome as [done_|failure]; simpl.
  { eexists. split; [reflexivity|]. by apply Hsame. }
  assert (Hother : ∃ t3, warn_node t2 (plan r) (diagnostic failure) = Some t3 ∧
    at_work r1 t3 k rolled true None [plan r1]).
  { destruct (placed_warn t2 _ (plan r) (diagnostic failure) (aw_placed _ _ _ _ _ _ _ Hw2))
      as (t3 & k3 & Hwarn & Hpl3 & Hem). exists t3. split; [done|].
    split; [apply Hw2|by eapply done_nodes_more; [|apply Hw2]|done]. }
  destruct Hother as (t3 & Hwarn & Hw3).
  assert (Hcancelled : stop r ≠ Some Cancellation_Unspecified) by apply Hb.
  destruct failure; try (
    match goal with |- context [warn_node t2 (plan r) ?d] =>
      replace (warn_node t2 (plan r) d) with (Some t3) by (symmetry; exact Hwarn) end;
    eexists; split; [reflexivity|by apply Hsame]).
  simpl. eexists. split; [reflexivity|]. apply Hend.
  - by destruct (verdict r) as [[]|].
  - assert (Hc : default Cancellation_Interrupted (stop r) ≠ Cancellation_Unspecified)
      by (destruct (stop r) as [[]|]; simpl; congruence).
    destruct (verdict r) as [[]|] eqn:Hver; simpl; (eapply at_work_follows; [|exact Hw2]); follow;
      rewrite ?Hver; right; simpl; congruence.
Qed.

Lemma turn_closing_goes r t input :
  phase r = Phase_Closing → invariant r t → ∃ tn, turn r t input = Some tn ∧ goes r tn.
Proof.
  intros Hph Hi. unfold turn, invariant in *. rewrite Hph in *.
  destruct Hi as (k & rolled & c & Hw). unfold turn_closing. simpl.
  assert (Hb := aw_books _ _ _ _ _ _ _ Hw).
  assert (Hwarn : ∃ t1, (if decide (rollback_failures (report r) = []) then Some t
      else warn_node t (plan r) (incomplete (rollback_failures (report r)))) = Some t1 ∧
    placed t1 (taken r k rolled c) [plan r]).
  { case_decide; [exists t; split; [done|by apply Hw]|].
    destruct (placed_warn t _ (plan r) (incomplete (rollback_failures (report r)))
      (aw_placed _ _ _ _ _ _ _ Hw)) as (t1 & k1 & Ht1 & Hpl & _). by exists t1. }
  destruct Hwarn as (t1 & -> & Hpl). simpl.
  assert (Hplain : plain (verdict_ending (default Verdict_Succeeded (verdict r)))).
  { assert (Hve := bk_verdict _ _ _ Hb). destruct (verdict r) as [[]|]; simpl; auto.
    apply plain_cancelled. congruence. }
  destruct (placed_finish t1 _ (plan r) [] _ Hpl (plain_ok t1 (plan r) _ Hplain))
    as (t2 & k2 & -> & Hpl2 & _). simpl.
  eexists. split; [reflexivity|]. split_and!; [|exact I| |done].
  - unfold invariant. simpl. by eapply placed_valid.
  - right. left. unfold major. rewrite Hph. simpl. lia.
Qed.

(** Every turn goes well. *)
Lemma turn_goes r t input :
  invariant r t → answers r input → ∃ tn, turn r t input = Some tn ∧ goes r tn.
Proof.
  intros Hi Hans. destruct (phase r) as [|step []|step node queue []|rem [u|] aw|[] rc| |] eqn:Hph.
  - by apply turn_opening_goes.
  - by eapply turn_check_goes.
  - by eapply turn_ask_goes.
  - by eapply turn_executed_goes.
  - by eapply turn_execute_goes.
  - destruct aw; [by eapply turn_rolled_goes|by eapply turn_roll_undo_goes].
  - by eapply turn_roll_next_goes.
  - by eapply turn_committed_goes.
  - by eapply turn_commit_goes.
  - by apply turn_closing_goes.
  - unfold turn, invariant in *. rewrite Hph in *. eexists. split; [reflexivity|].
    split_and!; [done|exact I|by left|done].
Qed.

(** ** Reports from outside *)

Lemma stack_alike m m' n l :
  (∀ id, option_Forall2 alike (m !! id) (m' !! id)) → stack m n l → stack m' n l.
Proof.
  intros Ha. revert n. induction l as [|[id u] l IH]; intros n; [done|].
  intros [(o & Ho & Hu & Hc & Hp) Hrest]. split; [|by apply IH].
  assert (Hid := Ha id). rewrite Ho in Hid. inversion Hid as [? o' (Hp' & Hu' & Hc') H1 H2|]; subst.
  exists o'. split_and!; [done..|congruence|]. destruct l as [|[]]; [done|]. congruence.
Qed.

Lemma placed_quiet t t' T path : quiet t t' → placed t T path → placed t' T path.
Proof.
  intros [_ Hq] (m & v & l & Hv & Hl & Hpath & HT). destruct (Hq _ _ Hv) as (m' & Hv' & Ha).
  exists m', v, l. split_and!; try done. by eapply stack_alike.
Qed.

Lemma node_known_quiet t t' p n : quiet t t' → node_known t p n → node_known t' p n.
Proof.
  intros [[k Hk] _] (ns & Hs & ? & ?). exists ns. split_and!; try done. rewrite Hk.
  by apply started_in_app.
Qed.

Lemma at_work_quiet r t t' k rolled c except path :
  quiet t t' → at_work r t k rolled c except path → at_work r t' k rolled c except path.
Proof.
  intros Hq [Hb Hd Hpl]. split; [done| |by eapply placed_quiet].
  intros s Hs Ho Hne. destruct (Hd s Hs Ho Hne) as (n & Hn & Hkn & Hf). exists n.
  split; [done|]. split; [by eapply node_known_quiet|]. destruct Hq as [[k' ->] _].
  by apply finished_in_app.
Qed.

(** Progress and warnings, on whatever node, do not disturb the runner. *)
Lemma invariant_quiet r t t' : quiet t t' → invariant r t → invariant r t'.
Proof.
  intros Hq. unfold invariant. destruct (phase r) as [|step asked|step node queue []|rem [u|] []|[] rc| |].
  - intros (? & ? & ? & ? & m & v & o & Hv & Ho & ?). split_and!; try done.
    destruct Hq as [_ Hq]. destruct (Hq _ _ Hv) as (m' & Hv' & Ha). specialize (Ha (r_parent r)).
    rewrite Ho in Ha. inversion Ha as [? o' (? & Hu & ?) Hx Hy|]; subst. exists m', v, o'.
    split_and!; try done. by rewrite Hu.
  - naive_solver eauto using at_work_quiet.
  - naive_solver eauto using at_work_quiet, node_known_quiet.
  - naive_solver eauto using at_work_quiet, node_known_quiet.
  - naive_solver eauto 10 using at_work_quiet.
  - naive_solver eauto 10 using at_work_quiet.
  - naive_solver eauto 10 using at_work_quiet.
  - naive_solver eauto 10 using at_work_quiet.
  - naive_solver eauto using at_work_quiet.
  - naive_solver eauto using at_work_quiet.
  - naive_solver eauto using at_work_quiet.
  - by apply quiet_valid.
Qed.
