(* ===== verification/RunnerSpec.v ===== *)
(** * What the runner guarantees

    Consequences of the invariant of [RunnerSafe]: [step] always returns, whatever a
    driver answers; every conversation ends; and a rollback performs exactly what was
    recorded, in the order [rollback_order] gives it. *)
From S2P Require Import Prelude.
From S2P Require Import Paths.
From S2P Require Import Effect.
From S2P Require Import Events.
From S2P Require Import EventTree.
From S2P Require Import Validate.
From S2P Require Import TreeSim.
From S2P Require Import TreeValid.
From S2P Require Import Journal.
From S2P Require Import Runner.
From S2P Require Import RunnerSafe.

Local Open Scope nat_scope.

(** ** Getting started *)

Lemma owned_new parent specs s : s < length specs → owned (runner_new parent specs) s = false.
Proof.
  intros Hs. unfold owned, runner_new. simpl. rewrite lookup_replicate_2 by done.
  by rewrite bool_decide_true.
Qed.

(** A parent that runs and has not used the key of a plan. *)
Definition plan_free (t : Tree) (parent : N) : Prop :=
  valid t ∧ match get t parent with Some o => "plan" ∉ op_used o | None => False end.

Lemma invariant_new t parent specs independently :
  keys_ok specs → plan_free t parent →
  let r := runner_new parent specs in
  invariant (if independently : bool then runner_independent r else r) t.
Proof.
  intros Hk [(m & v & Hv) Hp]. rewrite (tree_get _ _ (valid_tree _ _ _ Hv)) in Hp.
  destruct (m !! parent) as [o|] eqn:Ho; [|done].
  set (r := runner_new parent specs).
  assert (Hb : books r 0 []).
  { split; simpl; try done; rewrite ?length_replicate; try lia.
    - intros s Hs Hown. assert (H : owned r s = false) by by apply owned_new. congruence.
    - by intros s ?%elem_of_nil. }
  destruct independently; unfold invariant; simpl; (split_and!; [done|done| | |by exists m, v, o]);
    try (intros s Hs; by apply owned_new); try done.
  destruct Hb. by split.
Qed.

(** ** The driver's calls *)

Lemma stop_invariant r t cause :
  cause ≠ Cancellation_Unspecified → invariant r t → invariant (runner_stop cause r) t.
Proof.
  intros Hc Hi. assert (Hf : follows r (runner_stop cause r)).
  { follow. destruct (stop r); [by left|right]. simpl. congruence. }
  unfold invariant in *. unfold runner_stop in *. simpl in *.
  destruct (phase r) as [|step asked|step node queue []|rem [u|] aw|[] rc| |]; try done.
  - destruct Hi as (? & ? & Hb & ? & ?). split_and!; try done. by eapply books_follows.
  - destruct Hi as (? & ? & ? & rolled & Hw & ?). split_and!; try done. exists rolled.
    split; [|done]. by eapply at_work_follows.
  - destruct Hi as (? & ? & ? & ? & rolled & ? & ? & a & ? & Hw). split_and!; try done.
    exists rolled. split_and!; try done. exists a. split; [done|]. by eapply at_work_follows.
  - destruct Hi as (? & ? & ? & ? & rolled & ? & ? & ? & Hw). split_and!; try done.
    exists rolled. split_and!; try done. by eapply at_work_follows.
  - destruct Hi as (? & k & rolled & ? & ? & ? & Hw). split; [done|]. exists k, rolled.
    split_and!; try done. destruct aw.
    + destruct Hw as (a & ? & Hw). exists a. split; [done|]. by eapply at_work_follows.
    + destruct Hw as [? Hw]. split; [done|]. by eapply at_work_follows.
  - destruct Hi as (? & k & rolled & Hw & ?). split; [done|]. exists k, rolled.
    split; [|done]. by eapply at_work_follows.
  - destruct Hi as (a & k & rolled & ? & Hw). exists a, k, rolled. split; [done|].
    by eapply at_work_follows.
  - destruct Hi as (? & k & rolled & Hw). split; [done|]. exists k, rolled.
    by eapply at_work_follows.
  - destruct Hi as (k & rolled & c & Hw). exists k, rolled, c. by eapply at_work_follows.
Qed.

Lemma owned_doubt r step undo s :
  owned (set_doubts (doubts r ++ [mkDoubt step undo]) r) s = true → owned r s = true ∨ s = step.
Proof.
  unfold owned. simpl. rewrite existsb_app, !orb_true_iff. simpl. rewrite orb_false_r.
  rewrite bool_decide_eq_true. naive_solver.
Qed.

(** The driver reports a doubt while the action that raised it is still out. *)
Lemma in_doubt_invariant r t undo : invariant r t → invariant (in_doubt undo r) t.
Proof.
  intros Hi. unfold in_doubt. destruct (phase r) as [| |step node queue aw| | | |] eqn:Hph; try done.
  case_decide; [done|]. unfold invariant in *. simpl. rewrite Hph in *.
  destruct Hi as (Haf & Hlt & Hn & Hk & rolled & Hro & Hin & Hw). split_and!; try done.
  exists rolled. split_and!; try done.
  set (r' := set_doubts (doubts r ++ [mkDoubt step undo]) r).
  assert (Hwork : ∀ path, at_work r t (step + 1) rolled false (Some step) path →
    at_work r' t (step + 1) rolled false (Some step) path).
  { intros path [Hb Hd Hpl]. split.
    - destruct Hb as [? ? ? ? ? ? ? Hown ?]. split; try done.
      intros s Hs [Ho| ->]%owned_doubt; [auto|lia].
    - intros s Hs Ho Hne. apply Hd; [done| |done]. apply owned_doubt in Ho as [?| ->]; done.
    - eapply placed_mono; [|exact Hpl]. intros key. by apply taken_mono. }
  destruct aw; [destruct Hw as (a & Ha & Hw); exists a|destruct Hw as [Ha Hw]]; split; auto.
Qed.

(** ** [step] returns *)

Lemma fuel_enough r t : invariant r t → 2 * major r + 1 < fuel_of r.
Proof.
  intros Hi. unfold fuel_of, major, invariant, tail, ahead in *.
  destruct (phase r) as [|step []|step node queue aw|rem [u|] aw|[] rc| |]; try lia.
  - destruct Hi as (Hlt & k & rolled & Haf & [Hnd _] & Hall & _).
    assert (length rem ≤ length (steps r)) by (apply NoDup_below; [done|]; intros; by apply Hall).
    destruct (after r) as [|next|] eqn:Ha; try lia.
  - destruct Hi as (_ & k & rolled & _ & Haf & [Hnd _] & Hall).
    assert (length rem ≤ length (steps r)) by (apply NoDup_below; [done|]; intros; by apply Hall).
    destruct (after r) as [|next|] eqn:Ha; try lia.
Qed.

Lemma closer_trans r1 r2 r3 : closer r1 r2 → closer r2 r3 → closer r1 r3.
Proof. unfold closer. lia. Qed.

Lemma step_n_returns fuel r t input :
  invariant r t → answers r input → 2 * major r + (if awaits r then 1 else 0) < fuel →
  ∃ next r' t', step_n fuel r t input = Stepped_Next next r' t' ∧ invariant r' t' ∧ asks next r' ∧
    (phase r = Phase_Closed ∨ closer r' r) ∧ steps r' = steps r.
Proof.
  revert r t input. induction fuel as [|fuel IH]; intros r t input Hi Hans Hfuel; [lia|]. simpl.
  destruct (turn_goes r t input Hi Hans) as ([r1 t1 input1|next r1 t1] & -> & Hgo).
  - destruct Hgo as (Hi1 & Haw & Hcl & Hm & Hs).
    assert (Hans1 : answers r1 input1).
    { unfold answers, awaits in *. destruct (phase r1) as [|? []|? ? ? []|? [] []|[]| |]; try done. }
    assert (Hless : 2 * major r1 + (if awaits r1 then 1 else 0) < fuel).
    { rewrite Haw. destruct Hm as [Hm|[Hm Ha]]; [|rewrite Ha in Hfuel]; lia. }
    destruct (IH r1 t1 input1 Hi1 Hans1 Hless) as (next & r' & t' & Hst & Hi' & Hask & Hc & Hs').
    exists next, r', t'. split_and!; [done..| |by rewrite Hs'].
    right. destruct Hc as [Hph|Hc]; [|by eapply closer_trans].
    (* the last turn found the runner closed *)
    assert (Hr' : r' = set_phase Phase_Closed (set_phase Phase_Closing r1) ∧ t' = t1).
    { destruct fuel; [simpl in Hst; done|]. simpl in Hst. unfold turn in Hst. rewrite Hph in Hst.
      by injection Hst as <- <- <-. }
    destruct Hr' as [-> _]. unfold closer, major, minor, awaits in *. simpl in *.
    rewrite Hph in Hcl. lia.
  - destruct Hgo as (Hi1 & Hask & Hc & Hs). by exists next, r1, t1.
Qed.

Lemma step_returns_all r t input :
  invariant r t → answers r input →
  ∃ next r' t', step r t input = Stepped_Next next r' t' ∧ invariant r' t' ∧ asks next r' ∧
    (phase r = Phase_Closed ∨ closer r' r).
Proof.
  intros Hi Hans. assert (H := fuel_enough r t Hi).
  destruct (step_n_returns (fuel_of r) r t input Hi Hans) as (next & r' & t' & Hst & ? & ? & ? & _).
  - destruct (awaits r); lia.
  - by exists next, r', t'.
Qed.

(** C8.  [Runner::step] always returns: for steps with proper keys and an answer of the
    kind the runner asked for, whatever the answer says, no [expect] fails, no index is
    out of range, the loop ends, the tree's events stay acceptable to the validator, and
    the runner is closer to its end. *)
Theorem step_returns r t input :
  invariant r t → answers r input →
  ∃ next r' t', Runner.step r t input = Stepped_Next next r' t' ∧ invariant r' t' ∧ asks next r' ∧
    (phase r = Phase_Closed ∨ closer r' r).
Proof. apply step_returns_all. Qed.

(** ** Conversations end *)

Lemma closer_wf (P : Runner → Prop) :
  (∀ r, (∀ r', closer r' r → P r') → P r) → ∀ r, P r.
Proof.
  intros Hstep r. remember (major r) as a eqn:Ha. remember (minor r) as b eqn:Hb.
  revert b r Ha Hb. induction (lt_wf a) as [a _ IHa]. intros b.
  induction (lt_wf b) as [b _ IHb]. intros r -> ->. apply Hstep. intros r' [Hm|[Hm Hn]].
  - by eapply IHa.
  - by eapply IHb.
Qed.

(** ** What a rollback owes *)

Definition step_owes (r : Runner) (s : nat) : list Action :=
  concat ((λ doubt, rollback_order [db_undo doubt]) <$>
    filter (λ doubt, db_step doubt = s) (doubts r)) ++
  rollback_order (default [] (journal r !! s)).

Definition steps_owe (r : Runner) (l : list nat) : list Action :=
  concat (step_owes r <$> reverse l).

(** What is left of a rollback: the rest of the step being undone, its doubts first,
    then the other steps, the latest first. *)
Definition undo_plan (r : Runner) : list Action :=
  match phase r with
  | Phase_RollingBack remaining current _ =>
      match current with Some u => doubtful u ++ ud_queue u | None => [] end ++
      steps_owe r remaining
  | _ => []
  end.

Lemma step_owes_take_up r step s : s ≠ step → step_owes (take_up step r) s = step_owes r s.
Proof.
  intros Hne. unfold step_owes, take_up. simpl. rewrite list_lookup_insert_ne by done.
  f_equal. do 2 f_equal. rewrite list_filter_filter. apply filter_ext_in.
  intros d _. split; [tauto|]. intros <-. done.
Qed.

Lemma steps_owe_snoc r l s : steps_owe r (l ++ [s]) = step_owes r s ++ steps_owe r l.
Proof. unfold steps_owe. by rewrite reverse_app. Qed.

Lemma steps_owe_ext r r' l :
  (∀ s, s ∈ l → step_owes r' s = step_owes r s) → steps_owe r' l = steps_owe r l.
Proof.
  intros Hext. unfold steps_owe. f_equal. apply list_fmap_ext. intros i s Hs.
  apply Hext, elem_of_reverse. by eapply list_elem_of_lookup_2.
Qed.

(** One turn of a rollback that still owes [a]. *)
Lemma turn_rolls r t input tn a rest :
  invariant r t → rolling_back r = true → awaits r = false → undo_plan r = a :: rest →
  turn r t input = Some tn →
  match tn with
  | Again r' _ _ => rolling_back r' = true ∧ awaits r' = false ∧ undo_plan r' = a :: rest
  | Yield next r' _ => next = Next_Perform a ∧ rolling_back r' = true ∧ undo_plan r' = rest
  end.
Proof.
  intros Hi Hrb Haw Hplan Hturn.
  unfold rolling_back, awaits, undo_plan, turn, invariant in *.
  destruct (phase r) as [| | |rem [u|] aw| | |] eqn:Hph; try done.
  - destruct aw; [done|]. unfold turn_roll_undo in Hturn.
    assert (Hact : ∀ u' b, yielded <$> act t (ud_node u) b (set_phase (Phase_RollingBack rem (Some u') true)
        (set_phase Phase_Closing r)) = Some tn →
      a = b → (doubtful u' ++ ud_queue u') ++ steps_owe r rem = rest →
      match tn with
      | Again r' _ _ => False
      | Yield next r' _ => next = Next_Perform a ∧ rolling_back r' = true ∧ undo_plan r' = rest
      end).
    { intros u' b Ha <- Hrest. apply fmap_Some in Ha as ([[next r'] t'] & Hact & ->). simpl.
      unfold act in Hact. destruct (describe a). apply bind_Some in Hact as ([node t1] & _ & Hact).
      simplify_eq/=. split_and!; [done..|]. done. }
    destruct (doubtful u) as [|d ds] eqn:Hd; [destruct (ud_queue u) as [|q qs] eqn:Hq|].
    + simpl in Hplan. apply bind_Some in Hturn as (key & _ & Hturn).
      apply bind_Some in Hturn as (t1 & _ & Hturn). simplify_eq/=. split_and!; done.
    + simpl in Hplan. simplify_eq.
      specialize (Hact _ _ Hturn eq_refl). simpl in Hact. destruct tn; [by destruct Hact|].
      unfold rolling_back, undo_plan in Hact. by apply Hact.
    + simpl in Hplan. simplify_eq.
      specialize (Hact _ _ Hturn eq_refl). simpl in Hact.
      destruct tn; [by destruct Hact|]. unfold rolling_back, undo_plan in Hact. by apply Hact.
  - simpl in Hplan. unfold turn_roll_next in Hturn.
    destruct (last rem) as [step|] eqn:Hlast.
    2:{ destruct rem as [|x rem _] using rev_ind; [done|]. by rewrite last_snoc in Hlast. }
    assert (Hsplit := split_last _ _ Hlast). set (prev := take (length rem - 1) rem) in *.
    destruct Hi as (_ & k & rolled & _ & _ & [Hnd _] & _).
    apply bind_Some in Hturn as (key & _ & Hturn). apply bind_Some in Hturn as (n & _ & Hturn).
    apply bind_Some in Hturn as ([node t1] & _ & Hturn).
    apply bind_Some in Hturn as (undos & Hundos & Hturn). simplify_eq/=. split_and!; [done..|].
    rewrite <- Hplan, Hsplit, steps_owe_snoc. f_equal.
    + unfold step_owes. simpl in Hundos. by rewrite Hundos.
    + apply steps_owe_ext. intros s Hs. apply (step_owes_take_up r). intros ->.
      rewrite Hsplit in Hnd. apply NoDup_app in Hnd as (_ & Hdis & _). apply (Hdis _ Hs). by left.
Qed.

Lemma step_n_rolls fuel r t input next r' t' a rest :
  invariant r t → rolling_back r = true → awaits r = false → undo_plan r = a :: rest →
  step_n fuel r t input = Stepped_Next next r' t' →
  next = Next_Perform a ∧ rolling_back r' = true ∧ undo_plan r' = rest.
Proof.
  revert r t input. induction fuel as [|fuel IH]; intros r t input Hi Hrb Haw Hplan Hst; [done|].
  simpl in Hst. assert (Hans : answers r input).
  { unfold answers, awaits in *. destruct (phase r) as [|? []|? ? ? []|? [] []|[]| |]; try done. }
  destruct (turn_goes r t input Hi Hans) as (tn & Htn & Hgo). rewrite Htn in Hst.
  assert (Hr := turn_rolls r t input tn a rest Hi Hrb Haw Hplan Htn).
  destruct tn as [r1 t1 input1|n r1 t1].
  - destruct Hr as (Hrb1 & Haw1 & Hplan1). eapply IH; [apply Hgo|done..].
  - by simplify_eq.
Qed.

(** Once a rollback is under way nothing diverts it: whatever became of the last
    undo, failed or not, and whoever asks to stop, the runner's next answer is the next
    undo it owes. *)
Lemma rollback_goes_on r t outcome a rest :
  invariant r t → rolling_back r = true → awaits r = true → undo_plan r = a :: rest →
  ∃ r' t', step r t (Some (Input_Done outcome)) = Stepped_Next (Next_Perform a) r' t' ∧
    rolling_back r' = true ∧ undo_plan r' = rest.
Proof.
  intros Hi Hrb Haw Hplan.
  assert (Hans : answers r (Some (Input_Done outcome))).
  { unfold answers, rolling_back, awaits in *.
    destruct (phase r) as [| | |? [] []| | |]; try done. by exists outcome. }
  destruct (step_returns_all r t (Some (Input_Done outcome)) Hi Hans)
    as (next & r' & t' & Hst & _). exists r', t'.
  unfold step in Hst |- *. destruct (fuel_of r) as [|fuel]; [done|]. simpl in Hst |- *.
  destruct (turn_goes r t _ Hi Hans) as (tn & Htn & Hgo). rewrite Htn in Hst |- *.
  unfold turn, rolling_back, awaits, undo_plan in *.
  destruct (phase r) as [| | |rem [u|] []| | |] eqn:Hph; try done.
  unfold turn_rolled in Htn. apply bind_Some in Htn as ([r1 t1] & Hact & Htn).
  assert (Hr1 : doubts r1 = doubts r ∧ journal r1 = journal r).
  { unfold acted in Hact. destruct (acting _); [|by simplify_eq].
    apply bind_Some in Hact as (t2 & _ & Hact). by simplify_eq. }
  assert (Hback : ∃ u' r2, doubtful u' = doubtful u ∧ ud_queue u' = ud_queue u ∧
    doubts r2 = doubts r ∧ journal r2 = journal r ∧
    tn = Again (set_phase (Phase_RollingBack rem (Some u') false) r2) t1 None).
  { destruct outcome as [|f]; [|destruct (doubting u)].
    - simplify_eq. exists u, r1. naive_solver.
    - simplify_eq. exists u, r1. naive_solver.
    - apply bind_Some in Htn as (key & _ & Htn). simplify_eq. eexists _, _.
      split_and!; [| | | |reflexivity]; simpl; try done; apply Hr1. }
  destruct Hback as (u' & r2 & Hd & Hq & Hdo & Hj & ->). destruct Hgo as (Hi2 & _).
  destruct (step_n_rolls fuel _ t1 None next r' t' a rest Hi2 eq_refl eq_refl) as (-> & Hrb' & Hplan');
    [|exact Hst|by split_and!].
  unfold undo_plan. simpl. rewrite Hd, Hq, <- Hplan. f_equal. apply steps_owe_ext.
  intros s _. unfold step_owes. simpl. by rewrite Hdo, Hj.
Qed.

(** A step that owns nothing owes nothing. *)
Lemma owes_nothing r s : owned r s = false → step_owes r s = [].
Proof.
  unfold owned, step_owes. rewrite orb_false_iff, negb_false_iff, bool_decide_eq_true.
  intros [-> Hd]. simpl. rewrite app_nil_r.
  assert (filter (λ doubt, db_step doubt = s) (doubts r) = []) as ->; [|done].
  apply filter_none. intros d Hin Heq. apply not_true_iff_false in Hd. apply Hd.
  apply existsb_exists. exists d. split; [by apply list_elem_of_In|]. by apply bool_decide_eq_true.
Qed.

Lemma steps_owe_owned r l : steps_owe r (filter (λ s, owned r s = true) l) = steps_owe r l.
Proof.
  unfold steps_owe. induction l as [|s l IH] using rev_ind; [done|].
  rewrite filter_app, !reverse_app, !fmap_app, !concat_app, IH. f_equal.
  destruct (owned r s) eqn:Ho.
  - by rewrite filter_cons_True.
  - rewrite filter_cons_False by congruence. cbn. by rewrite owes_nothing.
Qed.

(** Everything the runner would undo: the latest step first, each step's doubts before
    what it recorded. *)
Definition all_owed (r : Runner) : list Action := steps_owe r (seq 0 (length (steps r))).

Lemma undo_plan_roll_back r : undo_plan (roll_back r) = all_owed r.
Proof. unfold undo_plan, roll_back. simpl. apply (steps_owe_owned r). Qed.

Lemma fail_unwinds step f r r' :
  independent r = false → fail step f r = Some r' → rolling_back r' = true ∧ undo_plan r' = all_owed r.
Proof.
  intros Hi Hf. unfold fail, record in Hf. simpl in Hf. rewrite Hi in Hf. simpl in Hf.
  apply bind_Some in Hf as (spec & _ & Hf). rewrite Hi in Hf. simplify_eq/=.
  split; [done|]. by rewrite undo_plan_roll_back.
Qed.

Lemma cancel_unwinds cause current r :
  independent r = false →
  rolling_back (cancel cause current r) = true ∧ undo_plan (cancel cause current r) = all_owed r.
Proof.
  intros Hi. unfold cancel. simpl. rewrite Hi. simpl. split; [done|]. by rewrite undo_plan_roll_back.
Qed.

(** C9.  When an action fails or is cancelled, a runner whose steps depend on each other
    undoes everything it did: it goes on to the first of all it owes and keeps the rest
    in order. *)
Theorem failure_unwinds r t step_ node queue failure a rest :
  invariant r t → phase r = Phase_Executing step_ node queue true → independent r = false →
  all_owed r = a :: rest →
  ∃ r' t', step r t (Some (Input_Done (Err failure))) = Stepped_Next (Next_Perform a) r' t' ∧
    rolling_back r' = true ∧ undo_plan r' = rest.
Proof.
  intros Hi Hph Hind Howed.
  assert (Hans : answers r (Some (Input_Done (Err failure))))
    by (unfold answers; rewrite Hph; by eexists).
  destruct (step_returns_all r t _ Hi Hans) as (next & r' & t' & Hst & _). exists r', t'.
  unfold step in Hst |- *. destruct (fuel_of r) as [|fuel]; [done|]. simpl in Hst |- *.
  destruct (turn_goes r t _ Hi Hans) as (tn & Htn & Hgo). rewrite Htn in Hst |- *.
  assert (Hr : ∃ r1 t1, tn = Again r1 t1 None ∧ rolling_back r1 = true ∧ undo_plan r1 = all_owed r).
  { unfold turn in Htn. rewrite Hph in Htn. unfold turn_executed in Htn.
    apply bind_Some in Htn as ([r1 t1] & Hact & Htn).
    assert (Hr1 : ∃ o, r1 = set_acting o (set_phase Phase_Closing r)).
    { unfold acted in Hact. simpl in Hact. destruct (acting r) as [n|] eqn:Ha.
      - apply bind_Some in Hact as (t2 & _ & Hact). simplify_eq. by eexists.
      - simplify_eq. exists None. rewrite <- Ha. done. }
    destruct Hr1 as [o ->].
    assert (Hfail : ∀ f, (t ← finish_node t1 node (ending_failed (Diagnose.diagnostic f));
        r ← fail step_ f (set_acting o (set_phase Phase_Closing r)); Some (Again r t None)) = Some tn →
      ∃ r1 t1, tn = Again r1 t1 None ∧ rolling_back r1 = true ∧ undo_plan r1 = all_owed r).
    { intros f Hf. apply bind_Some in Hf as (t2 & _ & Hf). apply bind_Some in Hf as (r2 & Hf2 & Hf).
      simplify_eq. exists r2, t2. split; [done|]. by apply fail_unwinds in Hf2. }
    destruct failure; try (by eapply Hfail).
    apply bind_Some in Htn as (t2 & _ & Htn). apply bind_Some in Htn as (r2 & Hrec & Htn).
    unfold record in Hrec. simpl in Hrec. rewrite Hind in Hrec. simplify_eq/=.
    eexists _, _. split; [reflexivity|].
    match goal with |- context [cancel ?c ?s ?r0] => destruct (cancel_unwinds c s r0) as [? Hp]; [done|] end.
    split; [done|]. rewrite Hp. done. }
  destruct Hr as (r1 & t1 & -> & Hrb & Hplan). destruct Hgo as (Hi1 & Haw & _).
  destruct (step_n_rolls fuel r1 t1 None next r' t' a rest) as (-> & ? & ?); try done.
  by rewrite Hplan.
Qed.

(** ** The runner and recovery agree *)

Lemma lookup_seq_list {A} (J : list (list A)) :
  (λ s, default [] (J !! s)) <$> seq 0 (length J) = J.
Proof.
  apply list_eq. intros i. rewrite list_lookup_fmap. destruct (J !! i) as [x|] eqn:Hx.
  - rewrite lookup_seq_lt by (by eapply lookup_lt_Some). simpl. by rewrite Hx.
  - rewrite lookup_seq_ge; [done|]. by apply lookup_ge_None.
Qed.

Lemma nonsync_steps (J : list (list (list Action))) :
  nonsync (concat (rollback_order <$> reverse J)) = nonsync (backwards (concat J)).
Proof.
  induction J as [|j J IH]; [done|].
  rewrite reverse_cons, fmap_app, concat_app, nonsync_app, IH. simpl. rewrite app_nil_r.
  rewrite nonsync_rollback_order, <- nonsync_app. f_equal.
  unfold backwards. by rewrite reverse_app, concat_app.
Qed.

Lemma all_owed_recorded r :
  length (journal r) = length (steps r) → doubts r = [] →
  nonsync (all_owed r) = nonsync (rollback_order (concat (journal r))).
Proof.
  intros Hlen Hd. rewrite nonsync_rollback_order, <- nonsync_steps. f_equal.
  unfold all_owed, steps_owe. f_equal. rewrite <- Hlen.
  rewrite <- (lookup_seq_list (journal r)) at 2. rewrite <- fmap_reverse, <- list_fmap_compose.
  apply list_fmap_ext. intros i s _. unfold step_owes. by rewrite Hd.
Qed.

(**  A run that fails undoes what the next run would undo from its journal had it
    been cut off there: step by step or all at once, the same undos in the same order,
    syncs apart. *)
Lemma unwind_agrees r :
  length (journal r) = length (steps r) → doubts r = [] →
  nonsync (all_owed r) = nonsync (rollback_order (concat (journal r))).
Proof. apply all_owed_recorded. Qed.

(** ** Witnesses *)

(** A conversation: the answers of a driver, in turn. *)
Fixpoint play (r : Runner) (t : Tree) (inputs : list (option Input)) : option (Runner * Tree) :=
  match inputs with
  | [] => Some (r, t)
  | input :: inputs =>
      match step r t input with
      | Stepped_Next _ r t => play r t inputs
      | _ => None
      end
  end.

(** Every answer is of the kind asked for. *)
Definition answered (r : Runner) (input : option Input) : bool :=
  match phase r, input with
  | Phase_Checking _ true, Some (Input_Facts _) => true
  | (Phase_Executing _ _ _ true | Phase_RollingBack _ (Some _) true | Phase_Committing true _),
      Some (Input_Done _) => true
  | _, _ => negb (awaits r)
  end.

Fixpoint all_answered (r : Runner) (t : Tree) (inputs : list (option Input)) : bool :=
  match inputs with
  | [] => true
  | input :: inputs =>
      answered r input &&
      match step r t input with
      | Stepped_Next _ r t => all_answered r t inputs
      | _ => false
      end
  end.

Lemma play_invariant r t inputs r' t' :
  invariant r t → all_answered r t inputs = true → play r t inputs = Some (r', t') →
  invariant r' t'.
Proof.
  revert r t. induction inputs as [|input inputs IH]; intros r t Hi Hans Hp; simpl in *.
  { by simplify_eq. }
  apply andb_true_iff in Hans as [Ha Hans].
  destruct (step_returns_all r t input Hi) as (next & r1 & t1 & Hst & Hi1 & _).
  - unfold answered, answers, awaits in *.
    destruct (phase r) as [|? []|? ? ? []|? [] []|[]| |]; try done;
      destruct input as [[]|]; naive_solver.
  - rewrite Hst in *. by eapply IH.
Qed.

(** Three groups to add. *)
Definition group_step (name : string) (gid : N) : StepSpec :=
  mkStepSpec ("group:" +:+ name) (Verb_Creating, name) [] (λ _, Ok [Action_AddGroup name gid])
    false [] (0, 0).

Definition some_runner : Runner := runner_new ROOT [group_step "a" 7; group_step "b" 8; group_step "c" 9].
Definition some_tree : Tree := tree_new root_start.
Definition facts_in : option Input := Some (Input_Facts (Ok [])).
Definition done_with (undo : list Action) : option Input := Some (Input_Done (Ok (mkPerformed undo))).
Definition failed_with (failure : Failure) : option Input := Some (Input_Done (Err failure)).

Lemma some_invariant : invariant some_runner some_tree.
Proof.
  apply (invariant_new some_tree ROOT _ false); [by evaluate|].
  split; [apply root_start_valid|]. vm_compute. set_solver.
Qed.

(** The conversation up to some answer. *)
Definition played (inputs : list (option Input)) : Runner * Tree :=
  default (some_runner, some_tree) (play some_runner some_tree inputs).

Lemma played_invariant inputs :
  all_answered some_runner some_tree inputs = true →
  bool_decide (is_Some (play some_runner some_tree inputs)) = true →
  invariant (played inputs).1 (played inputs).2.
Proof.
  intros Hans [[r t] Hp]%bool_decide_eq_true. unfold played. rewrite Hp. simpl.
  eapply play_invariant; [apply some_invariant|done..].
Qed.

Ltac reached := apply played_invariant; vm_compute; reflexivity.

(** Two groups are there, the third is being added. *)
Definition adding : list (option Input) :=
  [None; facts_in; done_with [Action_DeleteGroup "a" 7]; facts_in;
   done_with [Action_DeleteGroup "b" 8; Action_DaemonReload]; facts_in].

Lemma step_returns_witness :
  let input := failed_with Failure_Cancelled in
  ∃ next r' t', step (played adding).1 (played adding).2 input = Stepped_Next next r' t' ∧
    invariant r' t' ∧ asks next r' ∧
    (phase (played adding).1 = Phase_Closed ∨ closer r' (played adding).1).
Proof. apply step_returns; [reached|vm_compute; eexists; reflexivity]. Defined.

Lemma failure_unwinds_witness :
  ∃ r' t', step (played adding).1 (played adding).2 (failed_with Failure_SystemdUnreachable) =
      Stepped_Next (Next_Perform (Action_DeleteGroup "b" 8)) r' t' ∧
    rolling_back r' = true ∧ undo_plan r' = [Action_DaemonReload; Action_DeleteGroup "a" 7].
Proof.
  eapply failure_unwinds; [reached|vm_compute; reflexivity..].
Defined.

(** Adding the third group was cancelled, and the second removed again. *)
Definition unwinding : list (option Input) :=
  adding ++ [failed_with Failure_Cancelled; done_with []].

Lemma rollback_goes_on_witness :
  ∃ r' t', step (played unwinding).1 (played unwinding).2 (failed_with Failure_SystemdUnreachable) =
      Stepped_Next (Next_Perform (Action_DeleteGroup "a" 7)) r' t' ∧
    rolling_back r' = true ∧ undo_plan r' = [].
Proof. apply rollback_goes_on; [reached|vm_compute; reflexivity..]. Defined.

Lemma unwind_agrees_witness :
  nonsync (all_owed (played adding).1) =
  nonsync (rollback_order (concat (journal (played adding).1))).
Proof. apply unwind_agrees; vm_compute; reflexivity. Defined.
