(* ===== verification/RunnerStory.v ===== *)
(** * The story of a run

    What a runner whose steps depend on each other can answer next, given what it has
    done so far: it goes on, undoes everything it owes, commits, or is over.  The drive
    loop's journal is judged against this. *)
From S2P Require Import Prelude.
From S2P Require Import Paths.
From S2P Require Import Effect.
From S2P Require Import Events.
From S2P Require Import EventTree.
From S2P Require Import Validate.
From S2P Require Import TreeSim.
From S2P Require Import TreeValid.
From S2P Require Import Journal.
From S2P Require Import Runner.
From S2P Require Import RunnerSafe.
From S2P Require Import RunnerSpec.

Local Open Scope nat_scope.

(** ** Stages *)

Inductive Stage := Going | Unwinding | Deciding | Over.
#[export] Instance Stage_eq_dec : EqDecision Stage.
Proof. solve_decision. Defined.

Definition stage (r : Runner) : Stage :=
  match phase r with
  | Phase_Opening | Phase_Checking _ _ | Phase_Executing _ _ _ _ => Going
  | Phase_RollingBack _ _ _ => Unwinding
  | Phase_Committing false _ => Deciding
  | Phase_Committing true _ | Phase_Closing | Phase_Closed => Over
  end.

(** What the runner would undo, or is undoing. *)
Definition owed (r : Runner) : list Action :=
  match stage r with
  | Going => all_owed r
  | Unwinding => undo_plan r
  | Deciding | Over => []
  end.

(** A run of dependent steps, none of which commits by itself. *)
Record dependent (r : Runner) : Prop := {
  dp_steps : independent r = false;
  dp_after : after r = After_Close;
  dp_specs : ∀ spec facts actions, spec ∈ steps r → sp_actions spec facts = Ok actions →
    Action_Commit ∉ actions;
  dp_queue : match phase r with
             | Phase_Executing _ _ queue _ => Action_Commit ∉ queue
             | _ => True
             end;
}.

Definition same_books (r r' : Runner) : Prop := journal r' = journal r ∧ doubts r' = doubts r.

(** A run that ends owes nothing, unless the driver reported doubts it never acted on. *)
Definition nothing_owed (r : Runner) : Prop :=
  owed r = [] ∨ (stage r = Going ∧ doubts r ≠ []).

(** What the runner answers once it has taken its input in. *)
Inductive told (r : Runner) : Next → Runner → Prop :=
  | told_observe queries r' :
      stage r = Going → stage r' = Going → same_books r r' → told r (Next_Observe queries) r'
  | told_perform action r' :
      stage r = Going → stage r' = Going → same_books r r' → action ≠ Action_Commit →
      told r (Next_Perform action) r'
  | told_undo action r' :
      stage r = Going ∨ stage r = Unwinding → stage r' = Unwinding →
      owed r = action :: undo_plan r' → told r (Next_Perform action) r'
  | told_commit r' :
      stage r = Going ∨ stage r = Deciding → stage r' = Over → same_books r r' →
      told r (Next_Perform Action_Commit) r'
  | told_closed r' :
      stage r ≠ Deciding → nothing_owed r → stage r' = Over → told r Next_Finished r'.

(** Where a turn leads, as far as the next answer is concerned. *)
Inductive leads (r r' : Runner) : Prop :=
  | leads_on : stage r = Going → stage r' = Going → same_books r r' → leads r r'
  | leads_back : stage r = Going ∨ stage r = Unwinding → stage r' = Unwinding → owed r' = owed r →
      leads r r'
  | leads_decide : stage r = Going → stage r' = Deciding → same_books r r' → leads r r'
  | leads_out : stage r ≠ Deciding → stage r' = Over → nothing_owed r → leads r r'.

Lemma all_owed_books r r' : steps r' = steps r → same_books r r' → all_owed r' = all_owed r.
Proof.
  intros Hs [Hj Hd]. unfold all_owed. rewrite Hs. apply steps_owe_ext. intros s _.
  unfold step_owes. by rewrite Hj, Hd.
Qed.

Lemma leads_told r r1 next r' :
  steps r1 = steps r → leads r r1 → told r1 next r' → told r next r'.
Proof.
  intros Hsteps Hl Ht. destruct Hl as [Hg Hg1 Hb|Hg Hg1 Ho|Hg Hg1 Hb|Hnd Hg1 Ho].
  - assert (Howed : owed r1 = owed r) by (unfold owed; rewrite Hg, Hg1; by apply all_owed_books).
    destruct Hb as [Hj Hd]. destruct Ht as [q r' _ Hx [Hj' Hd']|a r' _ Hx [Hj' Hd'] ?|a r' _ Hx Hp|
      r' _ Hx [Hj' Hd']|r' Hx Hp Hy].
    + apply told_observe; try done. split; congruence.
    + apply told_perform; try done. split; congruence.
    + apply told_undo; [by left|done|congruence].
    + apply told_commit; [by left|done|split; congruence].
    + apply told_closed; [congruence| |done]. unfold nothing_owed in *.
      rewrite Howed, Hd, Hg1 in Hp. by rewrite Hg.
  - destruct Ht as [q r' Hx|a r' Hx|a r' _ ? Hp|r' Hx|r' Hx Hp ?]; try (destruct Hx; congruence);
      try congruence.
    + apply told_undo; [done..|congruence].
    + apply told_closed; [naive_solver congruence| |done]. left. destruct Hp as [Hp|[Hp _]]; congruence.
  - destruct Ht as [q r' Hx|a r' Hx|a r' Hx|r' _ Hx Hb'|r' Hx Hp ?]; try (destruct Hx; congruence);
      try congruence.
    apply told_commit; [by left|done|]. destruct Hb, Hb'. split; congruence.
  - destruct Ht as [q r' Hx|a r' Hx|a r' Hx|r' Hx|r' Hx Hp ?]; try (destruct Hx; congruence);
      try congruence.
    by apply told_closed.
Qed.

(** ** The turns *)

Lemma dependent_ext r r' :
  dependent r → steps r' = steps r → independent r' = false → after r' = After_Close →
  match phase r' with Phase_Executing _ _ queue _ => Action_Commit ∉ queue | _ => True end →
  dependent r'.
Proof. intros [? ? Hs ?] Hst Hi Ha Hq. split; try done. by rewrite Hst. Qed.

(** An answer that performs an action. *)
Lemma act_yields t n action r tn :
  yielded <$> act t n action r = Some tn →
  ∃ r' t', tn = Yield (Next_Perform action) r' t' ∧ phase r' = phase r ∧ same_books r r' ∧
    steps r' = steps r ∧ independent r' = independent r ∧ after r' = after r.
Proof.
  intros (([next r'] & t') & Hact & ->)%fmap_Some. unfold act in Hact.
  destruct (describe action). apply bind_Some in Hact as ([node t1] & _ & Hact). simplify_eq/=.
  by eexists _, _.
Qed.

Lemma cancel_story cause current r :
  independent r = false →
  stage (cancel cause current r) = Unwinding ∧ owed (cancel cause current r) = all_owed r.
Proof.
  intros Hi. destruct (cancel_unwinds cause current r Hi) as [Hr Hp].
  unfold rolling_back, owed, stage in *. by destruct (phase (cancel cause current r)).
Qed.

Lemma fail_story step f r r' :
  independent r = false → fail step f r = Some r' →
  stage r' = Unwinding ∧ owed r' = all_owed r ∧ steps r' = steps r ∧ independent r' = false ∧
  after r' = after r.
Proof.
  intros Hi Hf. destruct (fail_unwinds _ _ _ _ Hi Hf) as [Hr Hp].
  unfold rolling_back, owed, stage in *. destruct (phase r') eqn:Hph; try done.
  unfold fail, record in Hf. simpl in Hf. rewrite Hi in Hf. simpl in Hf.
  apply bind_Some in Hf as (spec & _ & Hf). rewrite Hi in Hf. simplify_eq/=. by split_and!.
Qed.

Lemma record_story s o r r' : independent r = false → record s o r = Some r' → r' = r.
Proof. unfold record. intros ->. by intros [= ->]. Qed.

Lemma empty_books_owe_nothing r :
  Forall (λ undos, undos = []) (journal r) → doubts r = [] → all_owed r = [].
Proof.
  intros Hj Hd. unfold all_owed, steps_owe. apply concat_nil_Forall, Forall_forall.
  intros l (s & -> & _)%list_elem_of_fmap. unfold step_owes. rewrite Hd. simpl.
  destruct (journal r !! s) as [undos|] eqn:Hs; [|done]. simpl.
  rewrite Forall_forall in Hj. by rewrite (Hj undos) by (by eapply list_elem_of_lookup_2).
Qed.

Lemma finish_or_commit_leads r r0 :
  stage r = Going → steps r0 = steps r → same_books r r0 → leads r (finish_or_commit r0).
Proof.
  intros Hg Hs [Hj Hd]. unfold finish_or_commit. destruct (decide _) as [He|He].
  - apply leads_out; [congruence|done|]. unfold nothing_owed, owed. rewrite Hg.
    destruct (decide (doubts r = [])); [left|by right]. apply empty_books_owe_nothing; congruence.
  - by apply leads_decide.
Qed.

Lemma turn_story_going r t input tn :
  dependent r → stage r = Going → awaits r = false → turn r t input = Some tn →
  match tn with
  | Again r' _ _ => leads r r' ∧ dependent r'
  | Yield next r' _ => told r next r' ∧ dependent r'
  end.
Proof.
  intros Hdep Hg Haw Hturn. assert (Hi := dp_steps _ Hdep). assert (Ha := dp_after _ Hdep).
  assert (Hq := dp_queue _ Hdep).
  unfold turn, awaits in *. destruct (phase r) as [|step []|step node queue []|?|[] ?| |] eqn:Hph;
    try done; try (unfold stage in Hg; rewrite Hph in Hg; done).
  - unfold turn_opening in Hturn. apply bind_Some in Hturn as ([p t1] & _ & Hturn). simplify_eq.
    split; [by apply leads_on|]. by eapply dependent_ext.
  - unfold turn_ask in Hturn. simpl in Hturn. destruct (decide _) as [_|_].
    { simplify_eq. split; [by apply finish_or_commit_leads|].
      eapply dependent_ext; [done|..]; unfold finish_or_commit; destruct (decide _); done. }
    destruct (stop r) as [cause|].
    { simplify_eq. match goal with |- context [cancel ?c ?s ?r0] =>
        destruct (cancel_story c s r0 Hi) as [Hu Ho] end.
      split; [apply leads_back; [by left|done|]; rewrite Ho; unfold owed; by rewrite Hg|].
      unfold cancel in *. simpl in *. rewrite Hi in *. simpl. by eapply dependent_ext. }
    apply bind_Some in Hturn as (on & _ & Hturn). apply bind_Some in Hturn as (spec & _ & Hturn).
    destruct on as [cause|].
    + apply bind_Some in Hturn as (by_ & _ & Hturn). destruct (blocked _ _ _ _) as [[] t1]; [|done].
      apply bind_Some in Hturn as (r1 & Hr1 & Hturn).
      apply record_story in Hr1; [|done]. simplify_eq.
      split; [by apply leads_on|by eapply dependent_ext].
    + simplify_eq. split; [by apply told_observe|by eapply dependent_ext].
  - unfold turn_execute in Hturn. simpl in Hturn. apply bind_Some in Hturn as (spec & _ & Hturn).
    destruct (if sp_shielded spec then None else stop r) as [cause|].
    { apply bind_Some in Hturn as (t1 & _ & Hturn). apply bind_Some in Hturn as (r1 & Hr1 & Hturn).
      apply record_story in Hr1; [|done]. simplify_eq.
      match goal with |- context [cancel ?c ?s ?r0] => destruct (cancel_story c s r0 Hi) as [Hu Ho] end.
      split; [apply leads_back; [by left|done|]; rewrite Ho; unfold owed; by rewrite Hg|].
      unfold cancel in *. simpl in *. rewrite Hi in *. simpl. by eapply dependent_ext. }
    destruct queue as [|action queue].
    + apply bind_Some in Hturn as (t1 & _ & Hturn). apply bind_Some in Hturn as (r1 & Hr1 & Hturn).
      apply record_story in Hr1; [|done]. simplify_eq.
      split; [by apply leads_on|by eapply dependent_ext].
    + apply act_yields in Hturn as (r' & t' & -> & Hp & Hb & Hs & Hi' & Ha'). simpl in *.
      split.
      * apply told_perform; [done| |done|set_solver]. unfold stage. by rewrite Hp.
      * eapply dependent_ext; [done..|congruence|congruence|]. rewrite Hp. set_solver.
Qed.

Lemma turn_story_unwinding r t input tn :
  dependent r → stage r = Unwinding → awaits r = false → invariant r t → turn r t input = Some tn →
  match tn with
  | Again r' _ _ => leads r r' ∧ dependent r'
  | Yield next r' _ => told r next r' ∧ dependent r'
  end.
Proof.
  intros Hdep Hg Haw Hinv Hturn. assert (Hi := dp_steps _ Hdep). assert (Ha := dp_after _ Hdep).
  assert (Hback : ∀ r', stage r' = Unwinding → owed r' = owed r → leads r r')
    by (intros; apply leads_back; auto).
  assert (Howed : owed r = undo_plan r) by (unfold owed; by rewrite Hg).
  unfold awaits, undo_plan in *. unfold turn in Hturn.
  destruct (phase r) as [| | |rem [u|] aw|[] rc| |] eqn:Hph; try (unfold stage in Hg; rewrite Hph in Hg; done).
  - destruct aw; [done|]. unfold turn_roll_undo in Hturn.
    assert (Hundo : ∀ u' a tn, yielded <$> act t (ud_node u) a (set_phase (Phase_RollingBack rem (Some u') true)
        (set_phase Phase_Closing r)) = Some tn →
      (doubtful u ++ ud_queue u) ++ steps_owe r rem = a :: (doubtful u' ++ ud_queue u') ++ steps_owe r rem →
      match tn with
      | Again r' _ _ => leads r r' ∧ dependent r'
      | Yield next r' _ => told r next r' ∧ dependent r'
      end).
    { intros u' a tn' (r' & t' & -> & Hp & [Hj Hdo] & Hs & Hi' & Ha')%act_yields Heq. simpl in *.
      split; [|eapply dependent_ext; [done..|congruence|congruence|by rewrite Hp]].
      apply told_undo; [by right|by unfold stage; rewrite Hp|]. rewrite Howed, Heq. unfold undo_plan.
      rewrite Hp. do 2 f_equal. symmetry. apply steps_owe_ext. intros s _.
      unfold step_owes. simpl in *. by rewrite Hj, Hdo. }
    destruct (doubtful u) as [|d ds] eqn:Hd; [destruct (ud_queue u) as [|q qs] eqn:Hq|].
    + apply bind_Some in Hturn as (key & _ & Hturn). apply bind_Some in Hturn as (t1 & _ & Hturn).
      simplify_eq. split; [apply Hback; [done|]; by rewrite Howed|by eapply dependent_ext].
    + by eapply Hundo.
    + by eapply Hundo.
  - unfold turn_roll_next in Hturn. destruct (last rem) as [step|] eqn:Hlast.
    + assert (Hsplit := split_last _ _ Hlast). set (prev := take (length rem - 1) rem) in *.
      unfold invariant in Hinv. rewrite Hph in Hinv.
      destruct Hinv as (_ & k & rolled & _ & _ & [Hnd _] & _).
      apply bind_Some in Hturn as (key & _ & Hturn). apply bind_Some in Hturn as (n & _ & Hturn).
      apply bind_Some in Hturn as ([node t1] & _ & Hturn).
      apply bind_Some in Hturn as (undos & Hundos & Hturn). simplify_eq.
      split; [|by eapply dependent_ext]. apply Hback; [done|]. rewrite Howed. simpl.
      rewrite Hsplit, steps_owe_snoc. unfold owed, undo_plan. simpl. f_equal.
      * unfold step_owes. simpl in Hundos. by rewrite Hundos.
      * apply steps_owe_ext. intros s Hs. apply (step_owes_take_up r). intros ->.
        rewrite Hsplit in Hnd. apply NoDup_app in Hnd as (_ & Hdis & _). apply (Hdis _ Hs). by left.
    + rewrite last_None in Hlast. subst. simpl in Hturn. rewrite Ha in Hturn. simplify_eq.
      split; [|by eapply dependent_ext]. apply leads_out; [congruence|done|]. left. by rewrite Howed.
Qed.

Lemma turn_story r t input tn :
  invariant r t → dependent r → awaits r = false → turn r t input = Some tn →
  match tn with
  | Again r' _ _ => leads r r' ∧ dependent r'
  | Yield next r' _ => told r next r' ∧ dependent r'
  end.
Proof.
  intros Hinv Hdep Haw Hturn. assert (Hi := dp_steps _ Hdep). assert (Ha := dp_after _ Hdep).
  destruct (stage r) eqn:Hg.
  - by eapply turn_story_going.
  - by eapply turn_story_unwinding.
  - unfold stage, turn, awaits in *. destruct (phase r) as [| | | |[] rc| |] eqn:Hph; try done.
    unfold turn_commit in Hturn.
    assert (Hstage : stage r = Deciding) by (unfold stage; by rewrite Hph).
    destruct (reclaims _).
    + apply bind_Some in Hturn as ([n t1] & _ & Hturn).
      apply act_yields in Hturn as (r' & t' & -> & Hp & Hb & Hs & Hi' & Ha'). simpl in *.
      split; [|eapply dependent_ext; [done..|congruence|congruence|by rewrite Hp]].
      apply told_commit; [by right|unfold stage; by rewrite Hp|done].
    + apply act_yields in Hturn as (r' & t' & -> & Hp & Hb & Hs & Hi' & Ha'). simpl in *.
      split; [|eapply dependent_ext; [done..|congruence|congruence|by rewrite Hp]].
      apply told_commit; [by right|unfold stage; by rewrite Hp|done].
  - assert (Hover : owed r = []) by (unfold owed; by rewrite Hg).
    unfold stage, turn, awaits in *. destruct (phase r) as [| | | |[] rc| |] eqn:Hph; try done.
    + unfold turn_closing in Hturn. apply bind_Some in Hturn as (t1 & _ & Hturn).
      apply bind_Some in Hturn as (t2 & _ & Hturn). simplify_eq.
      split; [|by eapply dependent_ext]. apply told_closed; [|by left|done].
      unfold stage. by rewrite Hph.
    + simplify_eq. split; [|by eapply dependent_ext]. apply told_closed; [|by left|done].
      unfold stage. by rewrite Hph.
Qed.

Lemma step_n_story fuel r t input next r' t' :
  invariant r t → dependent r → awaits r = false → step_n fuel r t input = Stepped_Next next r' t' →
  told r next r' ∧ dependent r'.
Proof.
  revert r t input. induction fuel as [|fuel IH]; intros r t input Hinv Hdep Haw Hst; [done|].
  simpl in Hst. assert (Hans : answers r input).
  { unfold answers, awaits in *. destruct (phase r) as [|? []|? ? ? []|? [] []|[]| |]; try done. }
  destruct (turn_goes r t input Hinv Hans) as (tn & Htn & Hgo). rewrite Htn in Hst.
  assert (Hs := turn_story r t input tn Hinv Hdep Haw Htn). destruct tn as [r1 t1 input1|n r1 t1].
  - destruct Hs as [Hl Hdep1]. destruct Hgo as (Hinv1 & Haw1 & _ & _ & Hsteps).
    destruct (IH _ _ _ Hinv1 Hdep1 Haw1 Hst). split; [by eapply leads_told|done].
  - by simplify_eq.
Qed.

(** ** Taking an answer in *)

(** What the runner makes of the answer it waited for. *)
Definition absorbs (r : Runner) (input : option Input) (r0 : Runner) : Prop :=
  match stage r with
  | Going =>
      match input with
      | Some (Input_Done (Ok done)) =>
          ∃ step undos, journal r !! step = Some undos ∧ (∀ s, step < s → journal r !! s = Some [] ∨ journal r !! s = None) ∧
            stage r0 = Going ∧ journal r0 = <[step := undos ++ [undo done]]> (journal r) ∧
            doubts r0 = doubts r
      | Some (Input_Done (Err _)) => stage r0 = Unwinding ∧ owed r0 = all_owed r
      | _ => (stage r0 = Going ∧ same_books r r0) ∨ (stage r0 = Unwinding ∧ owed r0 = all_owed r)
      end
  | Unwinding => stage r0 = Unwinding ∧ owed r0 = owed r
  | Deciding | Over => stage r0 = Over
  end.

Lemma acted_books t outcome cause r r' t' :
  acted t outcome cause r = Some (r', t') →
  ∃ o, r' = set_acting o r.
Proof.
  unfold acted. destruct (acting r) eqn:Ha.
  - intros (t1 & _ & H)%bind_Some. simplify_eq. by eexists.
  - intros [= <- <-]. exists None. rewrite <- Ha. by destruct r.
Qed.

Lemma owned_later r t step node queue :
  invariant r t → phase r = Phase_Executing step node queue true →
  ∀ s, step < s → journal r !! s = Some [] ∨ journal r !! s = None.
Proof.
  intros Hinv Hph s Hs. unfold invariant in Hinv. rewrite Hph in Hinv.
  destruct Hinv as (_ & _ & _ & _ & rolled & _ & _ & a & _ & [Hb _ _]).
  destruct (journal r !! s) as [undos|] eqn:Hj; [|by right]. left.
  destruct (owned r s) eqn:Ho.
  - assert (s < step + 1); [|lia]. eapply bk_owned; [exact Hb| |done].
    rewrite <- (bk_journal _ _ _ Hb). by eapply lookup_lt_Some.
  - unfold owned in Ho. rewrite orb_false_iff, negb_false_iff, bool_decide_eq_true in Ho.
    destruct Ho as [Ho _]. congruence.
Qed.

Lemma turn_absorbs r t input tn :
  invariant r t → dependent r → awaits r = true → answers r input → turn r t input = Some tn →
  ∃ r0 t0, tn = Again r0 t0 None ∧ dependent r0 ∧ absorbs r input r0.
Proof.
  intros Hinv Hdep Haw Hans Hturn. assert (Hi := dp_steps _ Hdep). assert (Ha := dp_after _ Hdep).
  assert (Hq := dp_queue _ Hdep). assert (Hlater := owned_later r t).
  unfold awaits, answers, absorbs, stage, turn in *.
  destruct (phase r) as [|step []|step node queue []|rem [u|] []|[] rc| |] eqn:Hph; try done.
  - destruct Hans as [facts ->]. unfold turn_check in Hturn. simpl in Hturn.
    apply bind_Some in Hturn as (spec & Hspec & Hturn).
    destruct (match facts ≫= sp_actions spec with Ok a => (a, None) | Err f => ([], Some f) end)
      as [actions unobservable] eqn:Hacts.
    assert (Hnc : Action_Commit ∉ actions).
    { destruct (facts ≫= sp_actions spec) as [acts|f] eqn:Hf; simplify_eq; [|set_solver].
      apply bind_Ok in Hf as (found & _ & Hf). eapply dp_specs; [done| |done].
      by eapply list_elem_of_lookup_2. }
    destruct (sp_title spec) as [verb subject]. apply bind_Some in Hturn as ([node t1] & _ & Hturn).
    destruct unobservable as [failure|].
    + apply bind_Some in Hturn as (t2 & _ & Hturn). apply bind_Some in Hturn as (r1 & Hr1 & Hturn).
      apply fail_story in Hr1 as (Hu & Ho & Hs & Hi1 & Ha1); [|done]. simplify_eq.
      eexists _, _. split; [reflexivity|]. split.
      * eapply dependent_ext; [done..|by rewrite Ha1|]. unfold stage in Hu. by destruct (phase r1).
      * right. unfold stage in Hu. split; [done|]. by rewrite Ho.
    + destruct (decide (actions = [])).
      * apply bind_Some in Hturn as (t2 & _ & Hturn). apply bind_Some in Hturn as (r1 & Hr1 & Hturn).
        apply record_story in Hr1; [|done]. simplify_eq. eexists _, _. split; [reflexivity|].
        split; [by eapply dependent_ext|]. by left.
      * simplify_eq. eexists _, _. split; [reflexivity|]. split; [by eapply dependent_ext|]. by left.
  - destruct Hans as [outcome ->]. unfold turn_executed in Hturn.
    apply bind_Some in Hturn as ([r1 t1] & Hact & Hturn). apply acted_books in Hact as [o ->].
    assert (Hfail : ∀ f, (t ← finish_node t1 node (ending_failed (Diagnose.diagnostic f));
        r ← fail step f (set_acting o (set_phase Phase_Closing r)); Some (Again r t None)) = Some tn →
      ∃ r0 t0, tn = Again r0 t0 None ∧ dependent r0 ∧ stage r0 = Unwinding ∧ owed r0 = all_owed r).
    { intros f Hf. apply bind_Some in Hf as (t2 & _ & Hf). apply bind_Some in Hf as (r1 & Hr1 & Hf).
      apply fail_story in Hr1 as (Hu & Ho & Hs & Hi1 & Ha1); [|done]. simplify_eq.
      eexists _, _. split; [reflexivity|]. split; [|by rewrite Ho].
      eapply dependent_ext; [done..|by rewrite Ha1|]. unfold stage in Hu. by destruct (phase r1). }
    destruct outcome as [p|f].
    + apply bind_Some in Hturn as (undos & Hundos & Hturn). simplify_eq. eexists _, _.
      split; [reflexivity|]. split; [by eapply dependent_ext|]. exists step, undos.
      split_and!; try done. intros s. by eapply Hlater.
    + destruct f; try by apply Hfail in Hturn.
      apply bind_Some in Hturn as (t2 & _ & Hturn). apply bind_Some in Hturn as (r1 & Hr1 & Hturn).
      apply record_story in Hr1; [|done]. simplify_eq.
      match goal with |- context [cancel ?c ?s ?r0] =>
        destruct (cancel_story c s r0 Hi) as [Hu Ho] end.
      eexists _, _. split; [reflexivity|]. split; [|by rewrite Ho].
      unfold cancel in *. simpl in *. rewrite Hi in *. simpl. by eapply dependent_ext.
  - destruct Hans as [outcome ->]. unfold turn_rolled in Hturn.
    apply bind_Some in Hturn as ([r1 t1] & Hact & Hturn). apply acted_books in Hact as [o ->].
    assert (Hsame : ∀ s, step_owes r s = step_owes (set_acting o (set_phase Phase_Closing r)) s) by done.
    destruct outcome as [p|f]; [|destruct (doubting u); [|apply bind_Some in Hturn as (key & _ & Hturn)]];
      simplify_eq; eexists _, _; (split; [reflexivity|]); (split; [by eapply dependent_ext|]);
      (split; [done|]); unfold owed, stage, undo_plan; by rewrite Hph.
  - destruct Hans as [outcome ->]. unfold turn_committed in Hturn.
    apply bind_Some in Hturn as ([r1 t1] & Hact & Hturn). apply acted_books in Hact as [o ->].
    apply bind_Some in Hturn as (t2 & _ & Hturn). apply bind_Some in Hturn as ([r2 t3] & Hr2 & Hturn).
    simplify_eq. eexists _, _. split; [reflexivity|]. split; [|done].
    assert (Hr : steps r2 = steps r ∧ independent r2 = false ∧ after r2 = After_Close).
    { destruct outcome as [p|f]; [by simplify_eq|]. 
      destruct f; try (apply bind_Some in Hr2 as (t4 & _ & Hr2)); simplify_eq; try done.
      simpl. by destruct (verdict r) as [[]|]. }
    destruct Hr as (? & ? & ?). by eapply dependent_ext.
Qed.

(** What [step] comes back with. *)
Lemma step_story r t input next r' t' :
  invariant r t → dependent r → answers r input → step r t input = Stepped_Next next r' t' →
  ∃ r0, (if awaits r then absorbs r input r0 else r0 = r) ∧ steps r0 = steps r ∧
    told r0 next r' ∧ dependent r' ∧ steps r' = steps r.
Proof.
  intros Hinv Hdep Hans Hst. assert (Hsteps : steps r' = steps r).
  { assert (H := fuel_enough r t Hinv).
    destruct (step_n_returns (fuel_of r) r t input Hinv Hans) as (n & r1 & t1 & Hst1 & _ & _ & _ & Hs).
    - destruct (awaits r); lia.
    - unfold step in Hst. congruence. }
  unfold step in Hst. destruct (awaits r) eqn:Haw.
  - destruct (fuel_of r) as [|fuel]; [done|]. simpl in Hst.
    destruct (turn_goes r t input Hinv Hans) as (tn & Htn & Hgo). rewrite Htn in Hst.
    destruct (turn_absorbs r t input tn Hinv Hdep Haw Hans Htn) as (r0 & t0 & -> & Hdep0 & Habs).
    destruct Hgo as (Hinv0 & Haw0 & _ & _ & Hs0). exists r0.
    destruct (step_n_story _ _ _ _ _ _ _ Hinv0 Hdep0 Haw0 Hst). done.
  - exists r. destruct (step_n_story _ _ _ _ _ _ _ Hinv Hdep Haw Hst). done.
Qed.

(** ** How much is owed *)

Lemma concat_push {A} (l : list (list A)) i x y :
  l !! i = Some x → (∀ k, i < k → l !! k = Some [] ∨ l !! k = None) →
  concat (<[i := x ++ [y]]> l) = concat l ++ [y].
Proof.
  revert i. induction l as [|z l IH]; intros i Hi Hlater; [done|]. destruct i as [|i]; simpl in *.
  - simplify_eq. assert (Hnil : concat l = []).
    { apply concat_nil_Forall, Forall_forall. intros k (j & Hj)%list_elem_of_lookup.
      destruct (Hlater (S j)) as [H'|H']; [lia|..]; simpl in H'; congruence. }
    by rewrite Hnil, !app_nil_r.
  - rewrite IH; [by rewrite app_assoc|done|]. intros k Hk. apply (Hlater (S k)). lia.
Qed.

Lemma step_owes_doubt r k undo s x :
  doubts r = [mkDoubt k undo] → is_sync x = false →
  count x (step_owes r s) =
  (if decide (k = s) then count x undo else 0) + count x (step_owes (set_doubts [] r) s).
Proof.
  intros Hd Hx. unfold step_owes. rewrite Hd, !count_app.

  change (journal (set_doubts [] r)) with (journal r).
  destruct (decide (k = s)) as [->|Hne].
  - rewrite filter_cons_True by done. rewrite filter_nil, fmap_cons, fmap_nil. cbn [concat db_undo].
    rewrite app_nil_r, <- (count_nonsync x (rollback_order [undo]) Hx), nonsync_rollback_order.
    unfold backwards. rewrite reverse_singleton. cbn [concat]. rewrite app_nil_r, count_nonsync by done.
    change (doubts (set_doubts [] r)) with (@nil Doubt).
    rewrite filter_nil, fmap_nil. cbn [concat]. change (count x []) with 0. lia.
  - rewrite filter_cons_False by done. rewrite filter_nil. reflexivity.
Qed.

(** Nothing more is owed than was recorded and than is in doubt. *)
Lemma steps_owe_doubt r k undo l x :
  NoDup l → doubts r = [mkDoubt k undo] → is_sync x = false →
  count x (steps_owe r l) <= count x undo + count x (steps_owe (set_doubts [] r) l).
Proof.
  intros Hnd Hd Hx. unfold steps_owe.
  assert (Hcount : count x (concat (step_owes r <$> reverse l)) =
    (if decide (k ∈ l) then count x undo else 0) +
    count x (concat (step_owes (set_doubts [] r) <$> reverse l))).
  { induction Hnd as [|s l Hs Hnd IH]; [done|].
    rewrite reverse_cons, !fmap_app, !concat_app, !count_app, IH, !fmap_cons, !fmap_nil.
    cbn [concat]. rewrite !app_nil_r, (step_owes_doubt r k undo s x Hd Hx).
    destruct (decide (k = s)) as [->|Hne].
    - rewrite decide_False by done. rewrite (decide_True (P := s ∈ s :: l)) by by left. lia.
    - destruct (decide (k ∈ l)) as [Hin|Hin].
      + rewrite (decide_True (P := k ∈ s :: l)) by by right. lia.
      + rewrite (decide_False (P := k ∈ s :: l)); [lia|]. intros [?|?]%elem_of_cons; done. }
  rewrite Hcount. destruct (decide (k ∈ l)); lia.
Qed.
