(* ===== verification/Drive.v ===== *)
(** * The drive loop

    [drive] of [crates/shell/src/drive.rs]: it asks the runner what comes next, performs
    it, and keeps the request's journal: what will be undone is announced before a
    change, what was done is settled after it, an undo that landed is crossed off.

    What the loop drives is behind two interfaces.  A [Machine] is the performer and the
    scope: it answers queries, performs actions and says whether to stop.  Performing an
    action is a [Performing]: the calls it makes and the choices of [select!] while it is
    pending, in the order they happen; the answer to [prepared] may change what follows.
    A [JournalStore] is a [dyn Journal] and what a later run reads back from it.

    A panic is [None].  Announcing a stop is the [Stopping] report; a trace event's
    payload ([report/trace]) is opaque. *)
From S2P Require Import Prelude.
From S2P Require Import Paths.
From S2P Require Import Effect.
From S2P Require Import Events.
From S2P Require Import EventTree.
From S2P Require Import Diagnose.
From S2P Require Import Journal.
From S2P Require Import Runner.
From S2P Require Import Validate.
From S2P Require Import TreeSim.
From S2P Require Import TreeValid.
From S2P Require Import RunnerSafe.
From S2P Require Import RunnerSpec.
From S2P Require Import RunnerStory.

(** ** What the loop drives *)

Inductive Signal :=
  | Signal_Progress (progress : Progress)
  | Signal_Warning (diagnostic : Diagnostic).

Inductive Performing (W : Type) :=
  | Performing_Signal (signal : Signal) (rest : Performing W)
  | Performing_Received (rest : Performing W)
  | Performing_Stopped (cause : option Cancellation) (rest : Performing W)
  | Performing_Prepared (undo : list Action) (rest : result Failure unit → Performing W)
  | Performing_Done (outcome : Outcome) (world : W).
Arguments Performing_Signal {_} _ _.
Arguments Performing_Received {_} _.
Arguments Performing_Stopped {_} _ _.
Arguments Performing_Prepared {_} _ _.
Arguments Performing_Done {_} _ _.

Class Machine (W : Type) := {
  (** [stopped()] *)
  polled : W → option Cancellation * W;
  (** [performer.observe]: the facts, and the signals it left in the channel *)
  observed : W → list Query → result Failure (list Fact) * list Signal * W;
  (** [performer.perform]; the flag: under a shielded scope *)
  perform : W → Action → bool → Performing W;
}.

Class JournalStore (J : Type) := {
  append : J → JRecord → result Failure unit * J;
  (** what [recover] is given *)
  contents : J → list JRecord;
}.

(** [impl Journal for Vec<Record>]. *)
#[export] Instance vec_journal : JournalStore (list JRecord) := {|
  append records record := (Ok tt, records ++ [record]);
  contents records := records;
|}.

(** ** Parts of the loop *)

(** [announce]: whether a stop was announced by now, and the tree. *)
Definition announce (announced : bool) (t : Tree) (cause : option Cancellation) : bool * Tree :=
  if announced then (true, t)
  else (true, match cause with
              | Some cause => (progress t ROOT (Progress_Stopping cause)).2
              | None => t
              end).

(** [apply]. *)
Definition apply (t : Tree) (node : N) (signal : Signal) : Tree :=
  match signal with
  | Signal_Progress p => (progress t node p).2
  | Signal_Warning diagnostic => (warn t node diagnostic).2
  end.

Section drive.
  Context {W J : Type} `{Machine W} `{JournalStore J}.
  (** [report::trace::observed] and [report::trace::journaled], encoded. *)
  Context (trace_observed : list Query → list Fact → bytes) (trace_journaled : JRecord → bytes).
  (** [observer.wants(Detail::Trace)]. *)
  Context (traced : bool).

Definition journaled (record : JRecord) : Progress := Progress_Journaled (trace_journaled record).

(** [keep]. *)
Definition keep (j : J) (record : JRecord) (t : Tree) (node : N) : J * Tree :=
  match append j record with
  | (Ok _, j) => (j, if traced then (progress t node (journaled record)).2 else t)
  | (Err failure, j) =>
      (j, (warn t node
             (warning Code_JournalUnwritable "could not record progress in the journal"
                (failure_fault failure))).2)
  end.

(** ** While an action is performed *)

Record Acting := mkActing {
  ac_tree : Tree; ac_stopping : bool; ac_journal : J; ac_queue : list Signal;
  ac_announced : option (list Action) }.

(** The closure [prepared]. *)
Definition prepared (seq : N) (silent : bool) (undo : list Action) (a : Acting)
    : result Failure unit * Acting :=
  if silent then (Ok tt, a)
  else
    let record := Record_Prepared seq undo in
    match append (ac_journal a) record with
    | (Ok _, j) =>
        (Ok tt, mkActing (ac_tree a) (ac_stopping a) j
          (if traced then ac_queue a ++ [Signal_Progress (journaled record)] else ac_queue a)
          (Some undo))
    | (Err failure, j) =>
        (Err failure, mkActing (ac_tree a) (ac_stopping a) j (ac_queue a) (Some undo))
    end.

(** The inner loop: [node] is where signals belong, [silent] whether this is an undo or
    the commit. *)
Fixpoint performing (p : Performing W) (node : N) (cancellable silent : bool) (seq : N) (a : Acting)
    : Outcome * W * Acting :=
  match p with
  | Performing_Signal signal p =>
      performing p node cancellable silent seq
        (mkActing (ac_tree a) (ac_stopping a) (ac_journal a) (ac_queue a ++ [signal])
          (ac_announced a))
  | Performing_Received p =>
      performing p node cancellable silent seq
        match ac_queue a with
        | [] => a
        | signal :: queue =>
            mkActing (apply (ac_tree a) node signal) (ac_stopping a) (ac_journal a) queue
              (ac_announced a)
        end
  | Performing_Stopped cause p =>
      performing p node cancellable silent seq
        (if negb (ac_stopping a) && cancellable then
           let '(stopping, t) := announce (ac_stopping a) (ac_tree a) cause in
           mkActing t stopping (ac_journal a) (ac_queue a) (ac_announced a)
         else a)
  | Performing_Prepared undo p =>
      let '(answer, a) := prepared seq silent undo a in
      performing (p answer) node cancellable silent seq a
  | Performing_Done outcome w => (outcome, w, a)
  end.

(** ** The loop *)

Record Drive := mkDrive {
  dr_runner : Runner; dr_tree : Tree; dr_world : W; dr_journal : J; dr_queue : list Signal;
  dr_stopping : bool; dr_input : option Input; dr_seq : N; dr_ended : bool;
  dr_unfinished : bool }.

(** What becomes of the journal once an action that was no undo and no commit is done. *)
Definition settled (seq : N) (announced : option (list Action)) (undo : list Action) : JRecord :=
  if decide (announced = Some undo) then Record_Done seq else Record_Settled seq undo.

(** [Next::Perform] once nothing keeps it from being performed. *)
Definition drive_action (d : Drive) (action : Action) : Drive :=
  let r := dr_runner d in
  let node := default ROOT (current_node r) in
  let reverting := rolling_back r in
  let committing := bool_decide (action = Action_Commit) in
  let '(outcome, w, a) :=
    performing (perform (dr_world d) action (runner_shielded r)) node (cancellable r)
      (reverting || committing) (dr_seq d)
      (mkActing (dr_tree d) (dr_stopping d) (dr_journal d) (dr_queue d) None) in
  let t := foldl (λ t signal, apply t node signal) (ac_tree a) (ac_queue a) in
  let next j t r seq ended unfinished :=
    mkDrive r t w j [] (ac_stopping a) (Some (Input_Done outcome)) seq ended unfinished in
  match outcome, reverting, committing with
  | Ok _, true, _ =>
      let '(j, t) := keep (ac_journal a) (Record_Reverted action) t node in
      next j t r (dr_seq d) (dr_ended d) (dr_unfinished d)
  | Ok _, false, true =>
      let '(j, t) := keep (ac_journal a) Record_Ended t node in
      next j t r (dr_seq d) true (dr_unfinished d)
  | Ok performed, false, false =>
      let '(j, t) :=
        keep (ac_journal a) (settled (dr_seq d) (ac_announced a) (undo performed)) t node in
      next j t r (dr_seq d + 1)%N (dr_ended d) (dr_unfinished d)
  | Err _, false, false =>
      let r := match ac_announced a with Some undo => in_doubt undo r | None => r end in
      next (ac_journal a) t r (dr_seq d + 1)%N (dr_ended d) (dr_unfinished d)
  | Err Failure_Cancelled, false, true =>
      next (ac_journal a) t r (dr_seq d) (dr_ended d) true
  | Err _, _, _ => next (ac_journal a) t r (dr_seq d) (dr_ended d) (dr_unfinished d)
  end.

(** [Next::Perform]. *)
Definition drive_perform (d : Drive) (action : Action) : Drive :=
  if decide (action = Action_Commit) then
    match append (dr_journal d) Record_Committing with
    | (Err failure, j) =>
        mkDrive (dr_runner d) (dr_tree d) (dr_world d) j (dr_queue d) (dr_stopping d)
          (Some (Input_Done (Err failure))) (dr_seq d) (dr_ended d) (dr_unfinished d)
    | (Ok _, j) =>
        let node := default ROOT (current_node (dr_runner d)) in
        let t := if traced then (progress (dr_tree d) node (journaled Record_Committing)).2
                 else dr_tree d in
        drive_action (mkDrive (dr_runner d) t (dr_world d) j (dr_queue d) (dr_stopping d) None
          (dr_seq d) (dr_ended d) (dr_unfinished d)) action
    end
  else drive_action d action.

(** [Next::Observe]. *)
Definition drive_observe (d : Drive) (queries : list Query) : Drive :=
  let '(facts, signals, w) := observed (dr_world d) queries in
  let t := match traced, facts with
           | true, Ok found =>
               (progress (dr_tree d) (default ROOT (current_node (dr_runner d)))
                  (Progress_Observed (trace_observed queries found))).2
           | _, _ => dr_tree d
           end in
  mkDrive (dr_runner d) t w (dr_journal d) (dr_queue d ++ signals) (dr_stopping d)
    (Some (Input_Facts facts)) (dr_seq d) (dr_ended d) (dr_unfinished d).

(** The part of a turn before the runner's step. *)
Definition drive_poll (d : Drive) : Drive :=
  let '(cause, w) := polled (dr_world d) in
  match cause with
  | None =>
      mkDrive (dr_runner d) (dr_tree d) w (dr_journal d) (dr_queue d) (dr_stopping d)
        (dr_input d) (dr_seq d) (dr_ended d) (dr_unfinished d)
  | Some cause =>
      let '(stopping, t) :=
        if cancellable (dr_runner d) then announce (dr_stopping d) (dr_tree d) (Some cause)
        else (dr_stopping d, dr_tree d) in
      mkDrive (runner_stop cause (dr_runner d)) t w (dr_journal d) (dr_queue d) stopping
        (dr_input d) (dr_seq d) (dr_ended d) (dr_unfinished d)
  end.

(** A turn up to the runner's answer. *)
Definition drive_ask (d : Drive) : option (Next * Drive) :=
  let d := drive_poll d in
  match step (dr_runner d) (dr_tree d) (dr_input d) with
  | Stepped_Next next r t =>
      Some (next, mkDrive r t (dr_world d) (dr_journal d) (dr_queue d) (dr_stopping d) None
        (dr_seq d) (dr_ended d) (dr_unfinished d))
  | Stepped_Panic | Stepped_Unfinished => None
  end.

(** [Next::Finished]. *)
Definition drive_finished (d : Drive) : Drive :=
  if dr_ended d || dr_unfinished d then d
  else
    let '(j, t) := keep (dr_journal d) Record_Ended (dr_tree d) ROOT in
    mkDrive (dr_runner d) t (dr_world d) j (dr_queue d) (dr_stopping d) (dr_input d) (dr_seq d)
      (dr_ended d) (dr_unfinished d).

Inductive Driven :=
  | Driven_Next (d : Drive)
  | Driven_Returned (d : Drive).

(** The rest of the turn. *)
Definition drive_answer (next : Next) (d : Drive) : Driven :=
  match next with
  | Next_Observe queries => Driven_Next (drive_observe d queries)
  | Next_Perform action => Driven_Next (drive_perform d action)
  | Next_Finished => Driven_Returned (drive_finished d)
  end.

Definition drive_turn (d : Drive) : option Driven :=
  '(next, d) ← drive_ask d; Some (drive_answer next d).

(** The loop, for at most [fuel] turns. *)
Fixpoint drive_n (fuel : nat) (d : Drive) : option Driven :=
  match fuel with
  | O => Some (Driven_Next d)
  | S fuel =>
      match drive_turn d with
      | Some (Driven_Next d) => drive_n fuel d
      | returned => returned
      end
  end.

(** Before the first turn: the channel may hold signals from before. *)
Definition drive_start (r : Runner) (t : Tree) (w : W) (j : J) (queue : list Signal) : Drive :=
  mkDrive r t w j queue false None 0 false false.

(** ** What the tree and the runner notice *)

Lemma announce_quiet b t c : quiet t (announce b t c).2.
Proof. destruct b; [reflexivity|]. destruct c; [apply progress_quiet|reflexivity]. Qed.

Lemma apply_quiet t n s : quiet t (apply t n s).
Proof. destruct s; [apply progress_quiet|apply warn_quiet]. Qed.

Lemma applies_quiet n l t : quiet t (foldl (λ t s, apply t n s) t l).
Proof.
  revert t. induction l as [|s l IH]; intros t; simpl; [reflexivity|].
  etrans; [apply apply_quiet|apply IH].
Qed.

Lemma keep_quiet j record t n : quiet t (keep j record t n).2.
Proof.
  unfold keep. destruct (append j record) as [[|f] j']; simpl; [|apply warn_quiet].
  destruct traced; [apply progress_quiet|reflexivity].
Qed.

Lemma performing_quiet p n c s q a : quiet (ac_tree a) (ac_tree (performing p n c s q a).2).
Proof.
  revert a. induction p as [sig p IH|p IH|cause p IH|u p IH|o w]; intros a; simpl; try reflexivity.
  - etrans; [|apply IH]. reflexivity.
  - etrans; [|apply IH]. destruct (ac_queue a); [reflexivity|apply apply_quiet].
  - etrans; [|apply IH]. destruct (negb _ && c); [|reflexivity].
    assert (Hq := announce_quiet (ac_stopping a) (ac_tree a) cause).
    by destruct (announce _ _ _).
  - destruct (prepared q s u a) as [answer a'] eqn:Hp. etrans; [|apply IH].
    unfold prepared in Hp. destruct s; [by simplify_eq|].
    destruct (append _ _) as [[]]; by simplify_eq.
Qed.

(** ** Every turn goes well *)

Definition driving (d : Drive) : Prop :=
  invariant (dr_runner d) (dr_tree d) ∧ answers (dr_runner d) (dr_input d).

(** The runner is where it was, but for what the driver reported to it. *)
Definition same_place (r r' : Runner) : Prop :=
  phase r' = phase r ∧ steps r' = steps r ∧ after r' = after r ∧ independent r' = independent r.

Lemma same_place_closer r1 r2 r : same_place r1 r2 → closer r1 r → closer r2 r.
Proof.
  intros (Hp & Hs & Ha & _). unfold closer, major, minor, awaits, tail. by rewrite Hp, Hs, Ha.
Qed.

Lemma same_place_refl r : same_place r r.
Proof. done. Qed.

Lemma in_doubt_same_place undo r : same_place r (in_doubt undo r).
Proof. unfold in_doubt. destruct (phase r) eqn:Hp; try done. by case_decide. Qed.

Lemma drive_action_keeps d action :
  invariant (dr_runner d) (dr_tree d) →
  let d' := drive_action d action in
  invariant (dr_runner d') (dr_tree d') ∧ same_place (dr_runner d) (dr_runner d') ∧
  ∃ outcome, dr_input d' = Some (Input_Done outcome).
Proof.
  intros Hi. unfold drive_action.
  destruct (performing _ _ _ _ _ _) as [[outcome w] a] eqn:Hp.
  match type of Hp with performing ?p ?n ?c ?s ?q ?a0 = _ =>
    assert (Hq := performing_quiet p n c s q a0) end.
  rewrite Hp in Hq. simpl in Hq.
  assert (Hq' := applies_quiet (default ROOT (current_node (dr_runner d))) (ac_queue a) (ac_tree a)).
  set (t1 := foldl _ _ _) in *. assert (Hi1 : invariant (dr_runner d) t1).
  { eapply invariant_quiet; [|exact Hi]. by etrans. }
  assert (Hkeep : ∀ record n, invariant (dr_runner d) (keep (ac_journal a) record t1 n).2)
    by (intros; eapply invariant_quiet; [apply keep_quiet|done]).
  clearbody t1. clear Hp Hq Hq' Hi.
  destruct outcome as [p|f], (rolling_back (dr_runner d)), (bool_decide (action = Action_Commit)); try destruct f; simpl;
    try (match goal with |- context [keep ?j ?rec ?t ?n] =>
      specialize (Hkeep rec n); destruct (keep j rec t n) end; simpl in * );
    split_and!; try done; try (by eexists); destruct (ac_announced a); try done;
    try (by apply in_doubt_invariant); by apply in_doubt_same_place.
Qed.

Lemma drive_perform_keeps d action :
  invariant (dr_runner d) (dr_tree d) →
  let d' := drive_perform d action in
  invariant (dr_runner d') (dr_tree d') ∧ same_place (dr_runner d) (dr_runner d') ∧
  ∃ outcome, dr_input d' = Some (Input_Done outcome).
Proof.
  intros Hi. unfold drive_perform. case_decide; [|by apply drive_action_keeps].
  destruct (append _ _) as [[|f] j].
  - match goal with |- context [drive_action ?d0 _] => apply (drive_action_keeps d0) end. simpl.
    destruct traced; [|done]. eapply invariant_quiet; [apply progress_quiet|done].
  - simpl. split_and!; [done..|by eexists].
Qed.

Lemma drive_observe_keeps d queries :
  invariant (dr_runner d) (dr_tree d) →
  let d' := drive_observe d queries in
  invariant (dr_runner d') (dr_tree d') ∧ dr_runner d' = dr_runner d ∧
  ∃ facts, dr_input d' = Some (Input_Facts facts).
Proof.
  intros Hi. unfold drive_observe. destruct (observed _ _) as [[facts signals] w]. simpl.
  split_and!; [|done|by eexists]. destruct traced, facts; simpl; try done.
  eapply invariant_quiet; [apply progress_quiet|done].
Qed.

(** [Stopped] never answers with the schema's placeholder. *)
Definition says_why : Prop := ∀ w : W, (polled w).1 ≠ Some Cancellation_Unspecified.

Lemma drive_poll_keeps d :
  says_why → driving d → driving (drive_poll d) ∧ same_place (dr_runner d) (dr_runner (drive_poll d)) ∧
    dr_input (drive_poll d) = dr_input d.
Proof.
  intros Hwhy [Hi Ha]. unfold drive_poll. specialize (Hwhy (dr_world d)).
  destruct (polled _) as [[c|] w]; simpl in *; [|done].
  assert (Hi1 : invariant (runner_stop c (dr_runner d)) (dr_tree d))
    by (apply stop_invariant; [congruence|done]).
  assert (Hq := announce_quiet (dr_stopping d) (dr_tree d) (Some c)).
  destruct (cancellable _); [destruct (announce _ _ _) as [b t]|]; simpl in *; split_and!; try done;
    split; try done; by eapply invariant_quiet.
Qed.

Lemma closed_step r t input next r' t' :
  phase r = Phase_Closed → step r t input = Stepped_Next next r' t' → next = Next_Finished.
Proof.
  intros Hph. unfold step, fuel_of. rewrite Nat.add_comm. simpl. unfold turn. rewrite Hph.
  by intros [= <- _ _].
Qed.

Lemma drive_turn_goes d :
  says_why → driving d →
  ∃ o, drive_turn d = Some o ∧
    match o with
    | Driven_Next d' => driving d' ∧ closer (dr_runner d') (dr_runner d)
    | Driven_Returned d' => phase (dr_runner d') = Phase_Closed ∧ valid (dr_tree d')
    end.
Proof.
  intros Hwhy Hd. destruct (drive_poll_keeps d Hwhy Hd) as ([Hi Ha] & Hsame & _).
  unfold drive_turn, drive_ask. set (d0 := drive_poll d) in *.
  destruct (step_returns_all _ _ _ Hi Ha) as (next & r & t & Hst & Hi' & Hasks & Hcl).
  rewrite Hst. simpl.
  eexists. split; [reflexivity|].
  assert (Hcl' : next ≠ Next_Finished → closer r (dr_runner d)).
  { intros Hne. destruct Hcl as [Hph|Hcl].
    - by apply (closed_step _ _ _ _ _ _ Hph) in Hst.
    - unfold closer, major, minor, awaits, tail in *. destruct Hsame as (Hp & Hs & Haf & _).
      by rewrite Hp, Hs, Haf in Hcl. }
  destruct next as [queries|action|]; simpl.
  - match goal with |- context [drive_observe ?d1 _] =>
      destruct (drive_observe_keeps d1 queries Hi') as (Hi2 & Hr & facts & Hin) end.
    simpl in Hr. split; [split; [exact Hi2|]|].
    + rewrite Hin, Hr. unfold answers, asks in *. destruct (phase r) as [|? []| | | | |]; try done. eauto.
    + rewrite Hr. by apply Hcl'.
  - match goal with |- context [drive_perform ?d1 _] =>
      destruct (drive_perform_keeps d1 action Hi') as (Hi2 & Hr & outcome & Hin) end.
    simpl in Hr. split; [split; [exact Hi2|]|].
    + rewrite Hin. unfold answers, asks in *. destruct Hr as [-> _].
      destruct (phase r) as [|? []|? ? ? []|? [] []|[]| |]; try done; eauto.
    + eapply same_place_closer; [exact Hr|]. by apply Hcl'.
  - unfold asks in Hasks. destruct (phase r) eqn:Hph; try done.
    unfold drive_finished. simpl. unfold invariant in Hi'. rewrite Hph in Hi'.
    destruct (_ || _); [done|].
    match goal with |- context [keep ?j ?rec ?t ?n] =>
      assert (Hq := keep_quiet j rec t n); destruct (keep j rec t n) end. simpl in *.
    split; [done|]. by eapply quiet_valid.
Qed.

Lemma drive_returns d :
  says_why → driving d →
  ∃ fuel d', drive_n fuel d = Some (Driven_Returned d') ∧
    phase (dr_runner d') = Phase_Closed ∧ valid (dr_tree d').
Proof.
  intros Hwhy. remember (dr_runner d) as r eqn:Hr. revert d Hr.
  induction r as [r IH] using closer_wf. intros d -> Hd.
  destruct (drive_turn_goes d Hwhy Hd) as ([d'|d'] & Ht & Hgo).
  - destruct Hgo as [Hd' Hcl]. destruct (IH _ Hcl d' eq_refl Hd') as (fuel & d'' & Hn & ?).
    exists (S fuel), d''. simpl. by rewrite Ht.
  - exists 1, d'. simpl. by rewrite Ht.
Qed.

(** C7.  The loop always returns: whatever the machine and the journal answer and
    whenever a stop comes, no [expect] fails, every action is followed by the next or by
    the end, the runner ends closed and the tree's events stay acceptable to the
    validator. *)
Theorem drive_finishes d :
  says_why → driving d →
  ∃ fuel d', drive_n fuel d = Some (Driven_Returned d') ∧
    phase (dr_runner d') = Phase_Closed ∧ valid (dr_tree d').
Proof. apply drive_returns. Qed.

(** ** What the loop writes *)

(** The journal of a machine whose disk is well: every append lands. *)
Definition reliable : Prop :=
  ∀ (j : J) record, ∃ j', append j record = (Ok tt, j') ∧ contents j' = contents j ++ [record].

Section reliable.
Context (Hrel : reliable).

Lemma keep_contents j record t n : contents (keep j record t n).1 = contents j ++ [record].
Proof. unfold keep. destruct (Hrel j record) as (j' & -> & Hc). exact Hc. Qed.

(** What an action announced while it was performed is in the journal, in order. *)
Lemma performing_contents p n c s q a outcome w a' :
  performing p n c s q a = (outcome, w, a') →
  ∃ announced,
    contents (ac_journal a') = contents (ac_journal a) ++ (Record_Prepared q <$> announced) ∧
    (s = true → announced = []) ∧
    ac_announced a' = match last announced with Some u => Some u | None => ac_announced a end.
Proof.
  revert a. induction p as [sig p IH|p IH|cause p IH|u p IH|o w']; intros a Hp; simpl in Hp.
  - by apply IH in Hp.
  - apply IH in Hp as (l & Hl & Hs & Ha). exists l. by destruct (ac_queue a).
  - apply IH in Hp as (l & Hl & Hs & Ha). exists l.
    destruct (negb (ac_stopping a) && c); [|done]. by destruct (announce _ _ _).
  - unfold prepared in Hp. destruct s.
    + by apply IH in Hp.
    + destruct (Hrel (ac_journal a) (Record_Prepared q u)) as (j' & Happ & Hc).
      rewrite Happ in Hp. apply IH in Hp as (l & Hl & _ & Ha). simpl in Hl, Ha.
      exists (u :: l). split_and!; [|done|].
      * by rewrite Hl, Hc, <- app_assoc.
      * rewrite Ha. by destruct l as [|x l _] using rev_ind; [|rewrite app_comm_cons, !last_snoc].
  - simplify_eq. exists []. split_and!; [by rewrite app_nil_r|done..].
Qed.

(** A performer that never asks for an undo to commit. *)
Fixpoint honest (p : Performing W) : Prop :=
  match p with
  | Performing_Signal _ p | Performing_Received p | Performing_Stopped _ p => honest p
  | Performing_Prepared undo p => Action_Commit ∉ undo ∧ ∀ answer, honest (p answer)
  | Performing_Done (Ok done) _ => Action_Commit ∉ undo done
  | Performing_Done (Err _) _ => True
  end.

Lemma performing_honest p n c s q a outcome w a' :
  honest p → performing p n c s q a = (outcome, w, a') →
  match ac_announced a with Some u => Action_Commit ∉ u | None => True end →
  match outcome with Ok done => Action_Commit ∉ undo done | Err _ => True end ∧
  match ac_announced a' with Some u => Action_Commit ∉ u | None => True end.
Proof.
  revert a. induction p as [sig p IH|p IH|cause p IH|u p IH|o w']; intros a Hh Hp Ha; simpl in Hp.
  - by apply IH in Hp.
  - apply IH in Hp; [done..|]. by destruct (ac_queue a).
  - apply IH in Hp; [done..|]. destruct (negb (ac_stopping a) && c); [|done].
    by destruct (announce _ _ _).
  - destruct Hh as [Hu Hh]. destruct (prepared q s u a) as [answer a1] eqn:Hpr.
    apply IH in Hp; [done|done|]. unfold prepared in Hpr. destruct s; [by simplify_eq|].
    destruct (append _ _) as [[]]; by simplify_eq.
  - simplify_eq. by destruct outcome.
Qed.

Section story.
Context (Hwhy : says_why).
Context (Hhonest : ∀ w action shielded, honest (perform w action shielded)).
Context (request : string).

(** The journal of a run that went forward through [cs]. *)
Definition log (cs : list Change) : list JRecord := Record_Began request :: written_from 0 cs.

(** What the journal says, against what the runner knows, when it has answered [next]. *)
Inductive kept (next : Next) (d : Drive) : Prop :=
  | kept_going cs :
      stage (dr_runner d) = Going → contents (dr_journal d) = log cs →
      dr_seq d = N.of_nat (length cs) → doubts_from 0 cs = [] → doubts (dr_runner d) = [] →
      (landed_from 0 cs).*2 = concat (journal (dr_runner d)) →
      Action_Commit ∉ concat (concat (journal (dr_runner d))) →
      dr_ended d = false → dr_unfinished d = false → next ≠ Next_Finished →
      next ≠ Next_Perform Action_Commit → kept next d
  | kept_unwinding cs reverted action :
      stage (dr_runner d) = Unwinding →
      contents (dr_journal d) = log cs ++ (Record_Reverted <$> reverted) →
      next = Next_Perform action →
      Action_Commit ∉ action :: undo_plan (dr_runner d) →
      (∀ x, is_sync x = false →
         count x (action :: undo_plan (dr_runner d)) + count x reverted <= count x (recorded (log cs))) →
      dr_ended d = false → dr_unfinished d = false → kept next d
  | kept_committing cs :
      stage (dr_runner d) = Over → contents (dr_journal d) = log cs →
      next = Next_Perform Action_Commit →
      dr_ended d = false → dr_unfinished d = false → kept next d
  | kept_over :
      stage (dr_runner d) = Over → next = Next_Finished →
      (dr_ended d = true → Record_Ended ∈ contents (dr_journal d)) →
      (dr_unfinished d = true → dr_ended d = false ∧
         ∃ cs, contents (dr_journal d) = log cs ++ [Record_Committing]) →
      kept next d.

(** What holds when the runner has answered. *)
Record asked (next : Next) (d : Drive) : Prop := {
  ak_invariant : invariant (dr_runner d) (dr_tree d);
  ak_asks : asks next (dr_runner d);
  ak_dependent : dependent (dr_runner d);
  ak_kept : kept next d;
}.

(** *** From an answer to the next *)

Lemma going_owes r x :
  doubts r = [] → length (journal r) = length (steps r) → is_sync x = false →
  count x (all_owed r) = count x (concat (concat (journal r))).
Proof.
  intros Hd Hlen Hx. rewrite <- (count_nonsync x (all_owed r) Hx), all_owed_recorded by done.
  rewrite nonsync_rollback_order, count_nonsync by done.
  apply count_Permutation, backwards_Permutation.
Qed.

Lemma log_records cs x :
  count x (recorded (log cs)) =
  count x (concat ((doubts_from 0 cs).*2)) + count x (concat ((landed_from 0 cs).*2)).
Proof.
  unfold log. rewrite recorded_log, count_app. f_equal.
  apply count_Permutation, backwards_Permutation.
Qed.

Lemma not_in_count a l : a ∉ l ↔ count a l = 0.
Proof. rewrite count_elem_of. lia. Qed.

Lemma told_going r0 next cs d :
  told r0 next (dr_runner d) → stage r0 = Going → length (journal r0) = length (steps r0) →
  contents (dr_journal d) = log cs → dr_seq d = N.of_nat (length cs) → doubts_from 0 cs = [] →
  doubts r0 = [] → (landed_from 0 cs).*2 = concat (journal r0) →
  Action_Commit ∉ concat (concat (journal r0)) → dr_ended d = false → dr_unfinished d = false →
  kept next d.
Proof.
  intros Ht Hg Hlen Hc Hseq Hdf Hd Hl Hnc He Hu. remember (dr_runner d) as r1 eqn:Hr1.
  destruct Ht as [q r' _ Hg' [Hj Hd']|a r' _ Hg' [Hj Hd'] Ha|a r' _ Hg' Ho|r' _ Hg' _|r' _ Ho Hg'];
    subst r'.
  - by eapply kept_going; rewrite ?Hj, ?Hd'; try done.
  - eapply kept_going; rewrite ?Hj, ?Hd'; try done. congruence.
  - unfold owed in Ho. rewrite Hg in Ho.
    assert (Hcount : ∀ x, is_sync x = false →
      count x (a :: undo_plan (dr_runner d)) = count x (concat (concat (journal r0))))
      by (intros x Hx; rewrite <- Ho; by apply going_owes).
    eapply (kept_unwinding _ _ cs [] a); try done.
    + by rewrite app_nil_r.
    + rewrite not_in_count, Hcount by done. by apply not_in_count.
    + intros x Hx. rewrite Hcount, log_records, Hl by done. unfold count at 2. simpl. lia.
  - by eapply kept_committing.
  - apply kept_over; try done; congruence.
Qed.

Lemma told_unwinding r0 next cs reverted d :
  told r0 next (dr_runner d) → stage r0 = Unwinding →
  contents (dr_journal d) = log cs ++ (Record_Reverted <$> reverted) →
  Action_Commit ∉ owed r0 →
  (∀ x, is_sync x = false → count x (owed r0) + count x reverted <= count x (recorded (log cs))) →
  dr_ended d = false → dr_unfinished d = false → kept next d.
Proof.
  intros Ht Hg Hc Hnc Hx He Hu. remember (dr_runner d) as r1 eqn:Hr1.
  destruct Ht as [q r' Hg' |a r' Hg'|a r' _ Hg' Ho|r' Hg'|r' _ Ho Hg']; subst r'; try (destruct Hg'; congruence); try congruence.
  - rewrite Ho in *. by eapply kept_unwinding.
  - apply kept_over; try done; congruence.
Qed.

Lemma invariant_length r t :
  invariant r t → phase r ≠ Phase_Closed → phase r ≠ Phase_Closing →
  length (journal r) = length (steps r).
Proof.
  unfold invariant. intros Hi Hcd Hcg.
  destruct (phase r) as [| |step node queue []|rem [u|] []|[] rc| |]; try done;
    repeat match goal with
    | H : _ ∧ _ |- _ => destruct H
    | H : ∃ _, _ |- _ => destruct H
    end; eauto using bk_journal, aw_books.
Qed.

(** The driver's answer, not yet taken in. *)
Inductive pending_answer (d : Drive) : Prop :=
  | pending_going cs :
      stage (dr_runner d) = Going → contents (dr_journal d) = log cs →
      dr_seq d = N.of_nat (length cs) → doubts_from 0 cs = [] → doubts (dr_runner d) = [] →
      (landed_from 0 cs).*2 = concat (journal (dr_runner d)) →
      Action_Commit ∉ concat (concat (journal (dr_runner d))) →
      dr_ended d = false → dr_unfinished d = false →
      (∀ outcome, dr_input d ≠ Some (Input_Done outcome)) → pending_answer d
  | pending_landed cs done :
      stage (dr_runner d) = Going → awaits (dr_runner d) = true →
      dr_input d = Some (Input_Done (Ok done)) → contents (dr_journal d) = log cs →
      dr_seq d = N.of_nat (length cs) → doubts_from 0 cs = [] → doubts (dr_runner d) = [] →
      (landed_from 0 cs).*2 = concat (journal (dr_runner d)) ++ [undo done] →
      Action_Commit ∉ concat (concat (journal (dr_runner d))) → Action_Commit ∉ undo done →
      dr_ended d = false → dr_unfinished d = false → pending_answer d
  | pending_broken cs failure :
      stage (dr_runner d) = Going → awaits (dr_runner d) = true →
      dr_input d = Some (Input_Done (Err failure)) → contents (dr_journal d) = log cs →
      Action_Commit ∉ all_owed (dr_runner d) →
      (∀ x, is_sync x = false → count x (all_owed (dr_runner d)) <= count x (recorded (log cs))) →
      dr_ended d = false → dr_unfinished d = false → pending_answer d
  | pending_unwinding cs reverted :
      stage (dr_runner d) = Unwinding → awaits (dr_runner d) = true →
      contents (dr_journal d) = log cs ++ (Record_Reverted <$> reverted) →
      Action_Commit ∉ undo_plan (dr_runner d) →
      (∀ x, is_sync x = false →
         count x (undo_plan (dr_runner d)) + count x reverted <= count x (recorded (log cs))) →
      dr_ended d = false → dr_unfinished d = false → pending_answer d
  | pending_over :
      stage (dr_runner d) = Over → awaits (dr_runner d) = true →
      (dr_ended d = true → Record_Ended ∈ contents (dr_journal d)) →
      (dr_unfinished d = true → dr_ended d = false ∧
         ∃ cs, contents (dr_journal d) = log cs ++ [Record_Committing]) →
      pending_answer d.

Record answered_ok (d : Drive) : Prop := {
  ao_driving : driving d;
  ao_dependent : dependent (dr_runner d);
  ao_pending : pending_answer d;
}.

Lemma poll_answered d : answered_ok d → answered_ok (drive_poll d).
Proof.
  intros [Hd Hdep Hp]. destruct (drive_poll_keeps d Hwhy Hd) as (Hd' & _ & _).
  assert (Hpoll : ∃ c t w b, drive_poll d =
    mkDrive (match c with Some c => runner_stop c (dr_runner d) | None => dr_runner d end) t w
      (dr_journal d) (dr_queue d) b (dr_input d) (dr_seq d) (dr_ended d) (dr_unfinished d)).
  { unfold drive_poll. destruct (polled _) as [c w]. exists c.
    destruct c as [c|]; [|by eexists _, _, _].
    destruct (if cancellable (dr_runner d) then announce (dr_stopping d) (dr_tree d) (Some c)
              else (dr_stopping d, dr_tree d)) as [b t]. by eexists _, _, _. }
  destruct Hpoll as (c & t & w & b & Heq). rewrite Heq in *. split; [done|..]; simpl.
  - destruct c; [|done]. destruct Hdep; by split.
  - destruct Hp; [eapply pending_going|eapply pending_landed|eapply pending_broken
                 |eapply pending_unwinding|eapply pending_over]; by destruct c.
Qed.

Lemma ask_asked d next d' : answered_ok d → drive_ask d = Some (next, d') → asked next d'.
Proof.
  intros Hok%poll_answered. unfold drive_ask. set (d0 := drive_poll d) in *. clearbody d0.
  destruct Hok as [[Hi Ha] Hdep Hp].
  destruct (step_returns_all _ _ _ Hi Ha) as (n & r' & t' & Hst & Hi' & Hasks & _).
  rewrite Hst. intros [= -> <-].
  destruct (step_story _ _ _ _ _ _ Hi Hdep Ha Hst) as (r0 & Habs & Hs0 & Htold & Hdep' & Hsteps).
  split; simpl; [done..|].
  set (d1 := mkDrive _ _ _ _ _ _ _ _ _ _).
  assert (Hlen : stage (dr_runner d0) = Going → length (journal (dr_runner d0)) = length (steps (dr_runner d0))).
  { intros Hg. apply (invariant_length _ (dr_tree d0)); [done|..];
    unfold stage in Hg; by destruct (phase (dr_runner d0)). }
  destruct Hp as [cs Hg Hc Hseq Hdf Hd Hl Hnc He Hu Hin|cs done Hg Haw Hin Hc Hseq Hdf Hd Hl Hnc Hnu He Hu
      |cs failure Hg Haw Hin Hc Hnc Hx He Hu|cs reverted Hg Haw Hc Hnc Hx He Hu|Hg Haw He Hu].
    + destruct (awaits (dr_runner d0)).
      * unfold absorbs in Habs. rewrite Hg in Habs.
        assert (Hor : (stage r0 = Going ∧ same_books (dr_runner d0) r0) ∨
            (stage r0 = Unwinding ∧ owed r0 = all_owed (dr_runner d0))).
        { destruct (dr_input d0) as [[|o]|]; try done. by destruct (Hin o). }
        destruct Hor as [[Hg0 [Hj0 Hd0]]|[Hg0 Ho]].
        -- eapply (told_going _ _ cs d1 Htold); try done; rewrite ?Hj0, ?Hd0, ?Hs0; auto.
        -- eapply (told_unwinding _ _ cs [] d1 Htold); try done.
           ++ simpl. by rewrite app_nil_r.
           ++ rewrite Ho, not_in_count, going_owes by auto. by apply not_in_count.
           ++ intros x Hx. rewrite Ho, going_owes, log_records, Hl by auto.
              change (count x []) with 0. lia.
      * subst r0. eapply (told_going _ _ cs d1 Htold); auto.
    + rewrite Haw in Habs. unfold absorbs in Habs. rewrite Hg, Hin in Habs.
      destruct Habs as (step & undos & Hj & Hlater & Hg0 & Hj0 & Hd0).
      assert (Hcc : concat (journal r0) = concat (journal (dr_runner d0)) ++ [undo done])
        by (rewrite Hj0; by apply concat_push).
      eapply (told_going _ _ cs d1 Htold); try done; try congruence.
      * rewrite Hj0, length_insert, Hs0. auto.
      * rewrite Hcc, concat_app. simpl. rewrite app_nil_r. set_solver.
    + rewrite Haw in Habs. unfold absorbs in Habs. rewrite Hg, Hin in Habs.
      destruct Habs as [Hg0 Ho]. eapply (told_unwinding _ _ cs [] d1 Htold); try done.
      * simpl. by rewrite app_nil_r.
      * by rewrite Ho.
      * intros x Hs. rewrite Ho. specialize (Hx x Hs). change (count x []) with 0. lia.
    + rewrite Haw in Habs. unfold absorbs in Habs. rewrite Hg in Habs. destruct Habs as [Hg0 Ho].
      assert (Ho' : owed r0 = undo_plan (dr_runner d0)) by (rewrite Ho; unfold owed; by rewrite Hg).
      eapply (told_unwinding _ _ cs reverted d1 Htold); try done; by rewrite Ho'.
    + rewrite Haw in Habs. unfold absorbs in Habs. rewrite Hg in Habs.
      destruct Htold as [q r' Hg'|a r' Hg'|a r' Hg'|r' Hg'|r' _ Ho Hg'];
        try (destruct Hg'; congruence); try congruence.
      by apply kept_over.
Qed.

(** *** From the runner's answer to the driver's *)

Lemma rolling_back_stage r : rolling_back r = bool_decide (stage r = Unwinding).
Proof. unfold rolling_back, stage. by destruct (phase r) as [| | | |[]| |]. Qed.

Lemma in_doubt_books undo r :
  steps (in_doubt undo r) = steps r ∧ journal (in_doubt undo r) = journal r ∧
  independent (in_doubt undo r) = independent r ∧
  (doubts (in_doubt undo r) = doubts r ∨ ∃ s, doubts (in_doubt undo r) = doubts r ++ [mkDoubt s undo]).
Proof.
  unfold in_doubt. destruct (phase r); try (by split_and!; auto).
  case_decide; split_and!; auto. right. by eexists.
Qed.

(** What the driver reports of an action that did not come off is no more than was
    announced. *)
Lemma doubt_owes r undo x :
  doubts r = [] → length (journal r) = length (steps r) → is_sync x = false →
  count x (all_owed (in_doubt undo r)) <= count x undo + count x (concat (concat (journal r))).
Proof.
  intros Hd Hlen Hx. destruct (in_doubt_books undo r) as (Hs & Hj & _ & Hdo).
  rewrite Hd in Hdo. simpl in Hdo. rewrite <- (going_owes r x) by done.
  destruct Hdo as [Hdo|[s Hdo]].
  - rewrite (all_owed_books r); [lia|done|]. split; congruence.
  - unfold all_owed. rewrite Hs. etrans; [eapply steps_owe_doubt; [apply NoDup_seq|exact Hdo|done]|].
    apply Nat.add_le_mono_l. rewrite (steps_owe_ext r); [done|]. intros k _.
    unfold step_owes. simpl. by rewrite Hj, Hd.
Qed.

Lemma action_going d action cs :
  asked (Next_Perform action) d → action ≠ Action_Commit → stage (dr_runner d) = Going →
  contents (dr_journal d) = log cs → dr_seq d = N.of_nat (length cs) → doubts_from 0 cs = [] →
  doubts (dr_runner d) = [] → (landed_from 0 cs).*2 = concat (journal (dr_runner d)) →
  Action_Commit ∉ concat (concat (journal (dr_runner d))) →
  dr_ended d = false → dr_unfinished d = false → pending_answer (drive_action d action).
Proof.
  intros [Hi Hasks Hdep _] Hac Hg Hc Hseq Hdf Hd Hl Hnc He Hu.
  assert (Haw : awaits (dr_runner d) = true).
  { unfold asks, awaits in *. by destruct (phase (dr_runner d)) as [|? []|? ? ? []|? [] []|[]| |]. }
  assert (Hlen : length (journal (dr_runner d)) = length (steps (dr_runner d))).
  { apply (invariant_length _ (dr_tree d)); [done|..];
      unfold stage in Hg; by destruct (phase (dr_runner d)). }
  unfold drive_action. rewrite rolling_back_stage, Hg, (bool_decide_false _ Hac).
  destruct (performing _ _ _ _ _ _) as [[outcome w] a] eqn:Hp. simpl in Hp.
  assert (Hh := performing_honest _ _ _ _ _ _ _ _ _ (Hhonest _ _ _) Hp I).
  destruct (performing_contents _ _ _ _ _ _ _ _ _ Hp) as (announced & Hca & _ & Han). simpl in *.
  assert (Han' : ac_announced a = last announced) by (rewrite Han; by destruct (last announced)).
  assert (Hsnoc : ∀ c, log (cs ++ [c]) = log cs ++ written (dr_seq d) c)
    by (intros c; unfold log; rewrite written_from_snoc, Hseq; done).
  destruct outcome as [done|f].
  - destruct (keep _ _ _ _) as [j t] eqn:Hk.
    assert (Hj := keep_contents (ac_journal a) (settled (dr_seq d) (ac_announced a) (undo done))
      (foldl (λ t s, apply t (default ROOT (current_node (dr_runner d))) s) (ac_tree a) (ac_queue a))
      (default ROOT (current_node (dr_runner d)))). rewrite Hk in Hj. simpl in Hj.
    apply (pending_landed _ (cs ++ [Landed announced (undo done)]) done); simpl; try done.
    + rewrite Hj, Hca, Hc, Hsnoc, <- app_assoc. simpl. by rewrite Han'.
    + rewrite Hseq, length_app. simpl. lia.
    + apply (fmap_nil_inv snd). rewrite doubts_from_snoc, Hdf. done.
    + by rewrite landed_from_snoc, Hl.
    + apply Hh.
  - assert (Hdoubt : let r := match ac_announced a with Some u => in_doubt u (dr_runner d) | None => dr_runner d end in
      stage r = Going ∧ awaits r = true ∧
      ∀ x, is_sync x = false →
        count x (all_owed r) <= count x (default [] (ac_announced a)) + count x (concat (concat (journal (dr_runner d))))).
    { destruct (ac_announced a) as [u|]; simpl.
      - destruct (in_doubt_same_place u (dr_runner d)) as (Hph & _).
        unfold stage, awaits in *. rewrite Hph. split_and!; [done..|]. intros x Hx. by apply doubt_owes.
      - split_and!; [done..|]. intros x Hx. by rewrite going_owes. }
    destruct Hdoubt as (Hg' & Haw' & Hx').
    assert (Hpend : pending_answer (mkDrive
        (match ac_announced a with Some u => in_doubt u (dr_runner d) | None => dr_runner d end)
        (foldl (λ t s, apply t (default ROOT (current_node (dr_runner d))) s) (ac_tree a) (ac_queue a))
        w (ac_journal a) [] (ac_stopping a) (Some (Input_Done (Err f))) (dr_seq d + 1)
        (dr_ended d) (dr_unfinished d))).
    { apply (pending_broken _ (cs ++ [Broken announced]) f); simpl; try done.
      - by rewrite Hca, Hc, Hsnoc.
      - rewrite not_in_count. assert (Hx := Hx' Action_Commit eq_refl).
        apply not_in_count in Hnc. rewrite Hnc in Hx.
        assert (Hcu : count Action_Commit (default [] (ac_announced a)) = 0)
          by (apply not_in_count; destruct (ac_announced a); [apply Hh|by apply not_elem_of_nil]).
        lia.
      - intros x Hx. etrans; [by apply Hx'|]. rewrite log_records, landed_from_snoc, doubts_from_snoc, Hdf, Hl.
        rewrite app_nil_r. simpl. apply Nat.add_le_mono_r. rewrite Han'.
        destruct (last announced); simpl; [by rewrite app_nil_r|done]. }
    destruct f; exact Hpend.
Qed.

Lemma action_unwinding d action cs reverted :
  asks (Next_Perform action) (dr_runner d) → stage (dr_runner d) = Unwinding →
  contents (dr_journal d) = log cs ++ (Record_Reverted <$> reverted) →
  Action_Commit ∉ action :: undo_plan (dr_runner d) →
  (∀ x, is_sync x = false →
     count x (action :: undo_plan (dr_runner d)) + count x reverted <= count x (recorded (log cs))) →
  dr_ended d = false → dr_unfinished d = false → pending_answer (drive_action d action).
Proof.
  intros Hasks Hg Hc Hnc Hx He Hu.
  assert (Haw : awaits (dr_runner d) = true).
  { unfold asks, awaits in *. by destruct (phase (dr_runner d)) as [|? []|? ? ? []|? [] []|[]| |]. }
  assert (Hac : action ≠ Action_Commit) by set_solver.
  unfold drive_action. rewrite rolling_back_stage, Hg, (bool_decide_false _ Hac). simpl.
  destruct (performing _ _ _ _ _ _) as [[outcome w] a] eqn:Hp.
  destruct (performing_contents _ _ _ _ _ _ _ _ _ Hp) as (announced & Hca & Han & _). simpl in *.
  rewrite (Han eq_refl) in Hca. simpl in Hca. rewrite app_nil_r, Hc in Hca.
  assert (Hnc' : Action_Commit ∉ undo_plan (dr_runner d)) by set_solver.
  destruct outcome as [done|f].
  - destruct (keep _ _ _ _) as [j t] eqn:Hk.
    assert (Hj := keep_contents (ac_journal a) (Record_Reverted action)
      (foldl (λ t s, apply t (default ROOT (current_node (dr_runner d))) s) (ac_tree a) (ac_queue a))
      (default ROOT (current_node (dr_runner d)))). rewrite Hk in Hj. simpl in Hj.
    apply (pending_unwinding _ cs (reverted ++ [action])); simpl; try done.
    + rewrite Hj, Hca, fmap_app. unfold log. simpl. by rewrite <- !app_assoc.
    + intros x Hs. specialize (Hx x Hs). rewrite count_cons in Hx.
      rewrite count_app, count_cons. change (count x []) with 0. lia.
  - assert (Hpend : pending_answer (mkDrive (dr_runner d)
        (foldl (λ t s, apply t (default ROOT (current_node (dr_runner d))) s) (ac_tree a) (ac_queue a))
        w (ac_journal a) [] (ac_stopping a) (Some (Input_Done (Err f))) (dr_seq d)
        (dr_ended d) (dr_unfinished d))).
    { apply (pending_unwinding _ cs reverted); simpl; try done.
      intros x Hs. specialize (Hx x Hs). rewrite count_cons in Hx. lia. }
    destruct f; exact Hpend.
Qed.

Lemma perform_committing d cs :
  asks (Next_Perform Action_Commit) (dr_runner d) → stage (dr_runner d) = Over →
  contents (dr_journal d) = log cs → dr_ended d = false → dr_unfinished d = false →
  pending_answer (drive_perform d Action_Commit).
Proof.
  intros Hasks Hg Hc He Hu.
  assert (Haw : awaits (dr_runner d) = true).
  { unfold asks, awaits in *. by destruct (phase (dr_runner d)) as [|? []|? ? ? []|? [] []|[]| |]. }
  unfold drive_perform. rewrite decide_True by done.
  destruct (Hrel (dr_journal d) Record_Committing) as (j & -> & Hj).
  unfold drive_action. simpl. rewrite rolling_back_stage, Hg. simpl.
  destruct (performing _ _ _ _ _ _) as [[outcome w] a] eqn:Hp.
  destruct (performing_contents _ _ _ _ _ _ _ _ _ Hp) as (announced & Hca & Han & _). simpl in *.
  rewrite (Han eq_refl) in Hca. simpl in Hca. rewrite app_nil_r, Hj, Hc in Hca.
  destruct outcome as [done|f].
  - destruct (keep _ _ _ _) as [j' t'] eqn:Hk.
    match type of Hk with keep ?j ?r ?t ?n = _ => assert (Hj' := keep_contents j r t n) end.
    rewrite Hk in Hj'. simpl in Hj'.
    apply pending_over; simpl; try done; [|congruence]. intros _. rewrite Hj'.
    apply elem_of_app. right. by left.
  - destruct f; apply pending_over; simpl; try done; intros Hx; try congruence; (split; [done|]); by exists cs.
Qed.

Lemma answer_answered next d d' :
  asked next d → drive_answer next d = Driven_Next d' → answered_ok d'.
Proof.
  intros Hak Hans. destruct (Hak) as [Hi Hasks Hdep Hk]. destruct next as [queries|action|]; simplify_eq/=.
  - destruct (drive_observe_keeps d queries Hi) as (Hi' & Hr & facts & Hin).
    assert (Hc : contents (dr_journal (drive_observe d queries)) = contents (dr_journal d) ∧
      dr_seq (drive_observe d queries) = dr_seq d ∧ dr_ended (drive_observe d queries) = dr_ended d ∧
      dr_unfinished (drive_observe d queries) = dr_unfinished d)
      by (unfold drive_observe; by destruct (observed _ _) as [[? ?] ?]).
    destruct Hc as (Hc & Hseq & He & Hu). split.
    + split; [done|]. rewrite Hr, Hin. unfold answers, asks in *.
      destruct (phase (dr_runner d)) as [|? []| | | | |]; try done. by eexists.
    + by rewrite Hr.
    + destruct Hk; try done. eapply pending_going; rewrite ?Hr, ?Hc, ?Hseq, ?He, ?Hu, ?Hin; done.
  - destruct (drive_perform_keeps d action Hi) as (Hi' & Hsame & outcome & Hin).
    split.
    + split; [done|]. rewrite Hin. unfold answers, asks in *. destruct Hsame as [-> _].
      destruct (phase (dr_runner d)) as [|? []|? ? ? []|? [] []|[]| |]; try done; by eexists.
    + destruct Hsame as (Hph & Hs & Ha & Hind). destruct Hdep as [Hin' Haf Hsp Hq].
      split; rewrite ?Hph, ?Hs, ?Ha, ?Hind; done.
    + destruct Hk as [cs Hg Hc Hseq Hdf Hd Hl Hnc He Hu _ Hac|cs reverted a Hg Hc Heq Hnc Hx He Hu
        |cs Hg Hc Heq He Hu|]; simplify_eq.
      * assert (action ≠ Action_Commit) by congruence. unfold drive_perform. rewrite decide_False by done.
        by eapply action_going.
      * unfold drive_perform. rewrite decide_False by set_solver. by eapply action_unwinding.
      * by eapply perform_committing.
Qed.

(** ** What a crash leaves *)

(** The moments at which the runner has answered and nothing was done about it yet. *)
Inductive reaches (d0 : Drive) : Next → Drive → Prop :=
  | reaches_first next d : drive_ask d0 = Some (next, d) → reaches d0 next d
  | reaches_then next d d1 next' d' :
      reaches d0 next d → drive_answer next d = Driven_Next d1 → drive_ask d1 = Some (next', d') →
      reaches d0 next' d'.

(** Steps that leave committing to the runner. *)
Definition commitless (specs : list StepSpec) : Prop :=
  ∀ spec facts actions, spec ∈ specs → sp_actions spec facts = Ok actions → Action_Commit ∉ actions.

(** A run of dependent steps about to begin: its journal holds the request's name. *)
Definition begins (specs : list StepSpec) (d : Drive) : Prop :=
  ∃ parent t w j queue, d = drive_start (runner_new parent specs) t w j queue ∧
    keys_ok specs ∧ commitless specs ∧ plan_free t parent ∧ contents j = [Record_Began request].

Lemma begins_answered specs d : begins specs d → answered_ok d.
Proof.
  intros (parent & t & w & j & queue & -> & Hk & Hcl & Hp & Hc).
  assert (Hnil : ∀ n : nat, concat (replicate n (@nil (list Action))) = [])
    by (induction n; done).
  split; simpl; [split; [|exact I]|by split|].
  - by apply (invariant_new t parent specs false).
  - apply (pending_going _ []); simpl; rewrite ?Hnil; try done. by apply not_elem_of_nil.
Qed.

Lemma reaches_asked specs d0 next d : begins specs d0 → reaches d0 next d → asked next d.
Proof.
  intros Hb Hr. induction Hr as [next d Ha|next d d1 next' d' _ IH Han Has].
  - eapply ask_asked; [by eapply begins_answered|done].
  - eapply ask_asked; [by eapply answer_answered|done].
Qed.

Lemma drive_n_leaves fuel d d' :
  answered_ok d → drive_n fuel d = Some (Driven_Returned d') →
  if dr_unfinished d' then ∃ cs, contents (dr_journal d') = log cs ++ [Record_Committing]
  else Record_Ended ∈ contents (dr_journal d').
Proof.
  revert d. induction fuel as [|fuel IH]; intros d Hok Hn; [done|]. simpl in Hn.
  unfold drive_turn in Hn. destruct (drive_ask d) as [[next d1]|] eqn:Hask; [|done].
  assert (Hak := ask_asked _ _ _ Hok Hask). simpl in Hn.
  destruct (drive_answer next d1) as [d2|d2] eqn:Hans.
  { eapply IH; [by eapply answer_answered|done]. }
  simplify_eq. destruct next; simplify_eq/=. destruct Hak as [_ _ _ Hk].
  inversion Hk as [? ? ? ? ? ? ? ? ? ? Hne|?????|??? Heq|Hg _ He Hu]; try done.
  unfold drive_finished. destruct (dr_ended d1) eqn:Hed, (dr_unfinished d1) eqn:Huf; simpl;
    rewrite ?Huf.
  - destruct (Hu eq_refl); congruence.
  - by apply He.
  - by destruct (Hu eq_refl).
  - destruct (keep _ _ _ _) as [j t] eqn:Hkp. simpl.
    match type of Hkp with keep ?j ?r ?t ?n = _ => assert (Hj := keep_contents j r t n) end.
    rewrite Hkp in Hj. simpl in Hj. rewrite Hj. apply elem_of_app. right. by left.
Qed.

(** C4.  A crash loses nothing.  At every moment a run of dependent steps asks for
    something, what the next run would make of its journal is right: going forward, it
    would undo exactly what the runner itself would undo if it failed now, in the same
    order, syncs apart; during a rollback it would undo at least everything the runner
    still has to undo, as often. *)
Theorem crash_safe specs d0 next d :
  begins specs d0 → reaches d0 next d →
  let after_crash := undone (recover (contents (dr_journal d))) in
  (stage (dr_runner d) = Going → nonsync after_crash = nonsync (all_owed (dr_runner d))) ∧
  (stage (dr_runner d) = Unwinding → ∃ action, next = Next_Perform action ∧
     ∀ x, is_sync x = false →
       count x (action :: undo_plan (dr_runner d)) <= count x after_crash).
Proof.
  intros Hb Hr after_crash. destruct (reaches_asked _ _ _ _ Hb Hr) as [Hi Hasks Hdep Hk].
  unfold after_crash. destruct Hk as [cs Hg Hc Hseq Hdf Hd Hl Hnc|cs reverted a Hg Hc Heq Hnc Hx| |];
    (split; intros Hst; [|]); try congruence.
  - rewrite Hc. unfold log. rewrite undone_log, Hdf, Hl. simpl. symmetry. apply all_owed_recorded; [|done].
    apply (invariant_length _ (dr_tree d)); [done|..]; unfold stage in Hg; by destruct (phase (dr_runner d)).
  - exists a. split; [done|]. intros x Hs. rewrite Hc, count_undone; [|by apply reverting_unfinished, unfinished_written|done].
    rewrite reverting_recorded, reverting_reverted.
    assert (Hnone : omap reverted_action (log cs) = []).
    { apply omap_none. intros r [->|Hin%written_from_only]%elem_of_cons; naive_solver. }
    rewrite Hnone. simpl. specialize (Hx x Hs). lia.
Qed.

(** C5.  What an action will be undone by is in the journal before it changes anything:
    cut off at any moment of performing it (a [Performing] that ends there), the next run
    would first undo what was announced last, then all the runner owes. *)
Theorem write_ahead specs d0 action d p node cancellable stopping queue outcome w a :
  begins specs d0 → reaches d0 (Next_Perform action) d → stage (dr_runner d) = Going →
  performing p node cancellable false (dr_seq d)
    (mkActing (dr_tree d) stopping (dr_journal d) queue None) = (outcome, w, a) →
  nonsync (undone (recover (contents (ac_journal a)))) =
    nonsync (default [] (ac_announced a)) ++ nonsync (all_owed (dr_runner d)).
Proof.
  intros Hb Hr Hst Hp. destruct (reaches_asked _ _ _ _ Hb Hr) as [Hi Hasks Hdep Hk].
  destruct Hk as [cs Hg Hc Hseq Hdf Hd Hl Hnc| | |]; try congruence.
  destruct (performing_contents _ _ _ _ _ _ _ _ _ Hp) as (announced & Hca & _ & Han). simpl in *.
  assert (Hlog : contents (ac_journal a) = log (cs ++ [Broken announced])).
  { rewrite Hca, Hc. unfold log. by rewrite written_from_snoc, Hseq. }
  rewrite Hlog. unfold log. rewrite undone_log, nonsync_app, nonsync_uncertain_of.
  rewrite doubts_from_snoc, landed_from_snoc, Hdf, Hl, app_nil_r. simpl. f_equal.
  - rewrite Han. destruct (last announced); simpl; by rewrite ?app_nil_r.
  - symmetry. apply all_owed_recorded; [|done].
    apply (invariant_length _ (dr_tree d)); [done|..]; unfold stage in Hg; by destruct (phase (dr_runner d)).
Qed.


End story.
End reliable.
End drive.

(** ** Witnesses *)

(** A machine on which everything works but adding the group [c]. *)
Definition undo_of (action : Action) : list Action :=
  match action with Action_AddGroup name gid => [Action_DeleteGroup name gid] | _ => [] end.

#[export] Instance some_machine : Machine unit := {|
  polled w := (None, w);
  observed w _ := (Ok [], [], w);
  perform w action _ :=
    Performing_Prepared (undo_of action) (λ _,
      if decide (action = Action_AddGroup "c" 9)
      then Performing_Done (Err Failure_SystemdUnreachable) w
      else Performing_Done (Ok (mkPerformed (undo_of action))) w);
|}.

Definition some_specs : list StepSpec := [group_step "a" 7; group_step "b" 8; group_step "c" 9].

Definition some_drive : Drive (W := unit) (J := list JRecord) :=
  drive_start (runner_new ROOT some_specs) some_tree tt [Record_Began "r"] [].

Definition no_trace (_ : list Query) (_ : list Fact) : bytes := "".
Definition no_record (_ : JRecord) : bytes := "".

Lemma some_begins : begins "r" some_specs some_drive.
Proof.
  exists ROOT, some_tree, tt, [Record_Began "r"], []. split_and!; [done|by evaluate| | |done].
  - intros spec facts actions Hin Hok.
    repeat (apply elem_of_cons in Hin as [->|Hin]; [simpl in Hok; simplify_eq; set_solver|]).
    by apply elem_of_nil in Hin.
  - split; [apply root_start_valid|]. vm_compute. set_solver.
Qed.

Lemma some_driving : driving some_drive.
Proof. split; [|exact I]. apply (some_invariant). Qed.

Lemma some_says_why : says_why (W := unit).
Proof. by intros w. Qed.

Lemma some_honest w action shielded : honest (perform (W := unit) w action shielded).
Proof.
  simpl. split; [destruct action; simpl; set_solver|]. intros _.
  case_decide; simpl; [done|]. destruct action; simpl; set_solver.
Qed.

Lemma vec_reliable : reliable (J := list JRecord).
Proof. intros j record. by eexists. Qed.

(** The [n]th moment of a run. *)
Fixpoint moment (n : nat) (d0 : Drive (W := unit) (J := list JRecord))
    : option (Next * Drive (W := unit) (J := list JRecord)) :=
  match n with
  | O => drive_ask d0
  | S n =>
      '(next, d) ← moment n d0;
      match drive_answer no_trace no_record true next d with
      | Driven_Next d => drive_ask d
      | Driven_Returned _ => None
      end
  end.

Lemma moment_reaches n d0 next d :
  moment n d0 = Some (next, d) → reaches no_trace no_record true d0 next d.
Proof.
  revert next d. induction n as [|n IH]; intros next d; simpl.
  - apply reaches_first.
  - intros ([next' d'] & Hm & Hd)%bind_Some.
    destruct (drive_answer _ _ _ next' d') as [d1|] eqn:Ha; [|done].
    eapply reaches_then; [by apply IH|done..].
Qed.

Lemma drive_finishes_witness :
  ∃ fuel d', drive_n no_trace no_record true fuel some_drive = Some (Driven_Returned d') ∧
    phase (dr_runner d') = Phase_Closed ∧ valid (dr_tree d').
Proof. apply drive_finishes; [apply some_says_why|apply some_driving]. Defined.

Ltac at_moment n := let E := fresh "E" in
  destruct (moment n some_drive) as [[? ?]|] eqn:E; [|vm_compute in E; discriminate];
  do 2 eexists; split; [reflexivity|]; assert (Hreach := moment_reaches _ _ _ _ E).

Lemma crash_safe_witness :
  ∃ next d, moment 6 some_drive = Some (next, d) ∧
    let after_crash := undone (recover (contents (dr_journal d))) in
    (stage (dr_runner d) = Going → nonsync after_crash = nonsync (all_owed (dr_runner d))) ∧
    (stage (dr_runner d) = Unwinding → ∃ action, next = Next_Perform action ∧
       ∀ x, is_sync x = false →
         count x (action :: undo_plan (dr_runner d)) <= count x after_crash).
Proof.
  at_moment 6. eapply crash_safe; [apply vec_reliable|apply some_says_why|apply some_honest
    |apply some_begins|exact Hreach].
Defined.

(** The third group was announced, and nothing came of it. *)
Lemma write_ahead_witness :
  ∃ action d, moment 5 some_drive = Some (Next_Perform action, d) ∧
    let '(outcome, w, a) :=
      performing no_record true
        (Performing_Prepared [Action_DeleteGroup "c" 9] (λ _, Performing_Done (Err Failure_Cancelled) tt))
        ROOT true false (dr_seq d) (mkActing (dr_tree d) false (dr_journal d) [] None) in
    nonsync (undone (recover (contents (ac_journal a)))) =
      nonsync (default [] (ac_announced a)) ++ nonsync (all_owed (dr_runner d)).
Proof.
  destruct (moment 5 some_drive) as [[next d]|] eqn:E; [|vm_compute in E; discriminate].
  assert (Hn : ∃ action, next = Next_Perform action ∧ stage (dr_runner d) = Going).
  { vm_compute in E. injection E as <- <-. by eexists. }
  destruct Hn as (action & -> & Hst). exists action, d. split; [reflexivity|].
  destruct (performing _ _ _ _ _ _ _ _) as [[outcome w] a] eqn:Hp.
  eapply write_ahead; [apply vec_reliable|apply some_says_why|apply some_honest
    |apply some_begins|exact (moment_reaches _ _ _ _ E)|exact Hst|exact Hp].
Defined.

