(* ===== verification/Performer.v ===== *)
(** * The performer on a modelled world

    [Performer::modelled] of [crates/shell/src/drive.rs]: the drive loop's performer when
    what it changes is a [World].  It is a [Machine], so that what is proved of the loop
    for every machine and what is proved of [World::apply] come together: a run of
    dependent steps either commits, or leaves the world as it found it. *)
From S2P Require Import Prelude.
From S2P Require Import Paths.
From S2P Require Import Effect.
From S2P Require Import Events.
From S2P Require Import EventTree.
From S2P Require Import Journal.
From S2P Require Import Runner.
From S2P Require Import Validate.
From S2P Require Import TreeSim.
From S2P Require Import TreeValid.
From S2P Require Import RunnerSafe.
From S2P Require Import RunnerSpec.
From S2P Require Import RunnerStory.
From S2P Require Import Drive.
From S2P Require Import World.
From S2P Require Import Observe.
From S2P Require Import WorldFrame.
From S2P Require Import WorldUndo.
From S2P Require Import Undone.
From S2P Require Import Apply.

(** ** Faults *)

Inductive Fault :=
  | Fault_Fail (failure : Failure)
  | Fault_CrashBefore
  | Fault_CrashAfter.

(** [Faults]: the fault that is armed and how many actions come before it. *)
Definition Faults : Type := option (nat * Fault).

Definition arm_fault (at_ : nat) (fault : Fault) (f : Faults) : Faults := Some (at_, fault).
Definition disarm (f : Faults) : Faults := None.

(** [Faults::next]. *)
Definition next_fault (f : Faults) : option Fault * Faults :=
  match f with
  | Some (O, fault) => (Some fault, None)
  | Some (S n, fault) => (None, Some (n, fault))
  | None => (None, None)
  end.

(** ** The performer *)

(** [mix_exec::Reason], and what [stopped_by] makes of a scope's reason. *)
Inductive Reason := Reason_Interrupted | Reason_Terminated | Reason_ClientGone.

Definition stopped_by (reason : option Reason) : option Cancellation :=
  (λ reason, match reason with
             | Reason_Interrupted => Cancellation_Interrupted
             | Reason_Terminated => Cancellation_Terminated
             | Reason_ClientGone => Cancellation_ClientGone
             end) <$> reason.

Record Modelled := mkModelled {
  md_world : World; md_faults : Faults; md_acting : option string;
  (** the scope's reason to stop, from turn to turn *)
  md_stops : list (option Reason) }.

Definition set_acting_for (request : string) (w : World) : World :=
  mkWorld (files w) (groups w) (users w) (units w) (profiles w) (aside_profiles w) (journals w)
    (logs w) (held w) request (runs_as w) (clobbered w) (linked w) (pending_of w) (next_ino w).

(** [lock_model]. *)
Definition lock_model (m : Modelled) : World :=
  match md_acting m with Some request => set_acting_for request (md_world m) | None => md_world m end.

Definition with_world (w : World) (m : Modelled) : Modelled :=
  mkModelled w (md_faults m) (md_acting m) (md_stops m).

Section performer.
(** [std::future::pending()] after a crash: it never completes, which a [Performing] does. *)
Context (crash : Modelled → Performing Modelled).

Definition modelled_observe (m : Modelled) (queries : list Query)
    : result Failure (list Fact) * list Signal * Modelled :=
  let w := lock_model m in (Ok (observe w <$> queries), [], with_world w m).

Definition modelled_perform (m : Modelled) (action : Action) : Performing Modelled :=
  let '(fault, faults) := next_fault (md_faults m) in
  let m := mkModelled (md_world m) faults (md_acting m) (md_stops m) in
  match fault with
  | Some (Fault_Fail failure) => Performing_Done (Err failure) m
  | _ =>
      (* a clone of the world is tried first *)
      let m := with_world (lock_model m) m in
      match (Apply.apply action (md_world m)).1 with
      | Err failure => Performing_Done (Err failure) m
      | Ok undo =>
          Performing_Prepared undo (λ answer,
            match answer with
            | Err failure => Performing_Done (Err failure) m
            | Ok _ =>
                match fault with
                | Some Fault_CrashBefore => crash m
                | _ =>
                    let '(performed, w) := Apply.apply action (lock_model m) in
                    let m := with_world w m in
                    match fault with
                    | Some Fault_CrashAfter => crash m
                    | _ => Performing_Done (mkPerformed <$> performed) m
                    end
                end
            end)
      end
  end.

Definition next_stop (m : Modelled) : option Cancellation * Modelled :=
  match md_stops m with
  | [] => (None, m)
  | reason :: stops => (stopped_by reason, mkModelled (md_world m) (md_faults m) (md_acting m) stops)
  end.

#[export] Instance modelled_machine : Machine Modelled := {|
  polled := next_stop;
  observed := modelled_observe;
  perform m action _ := modelled_perform m action;
|}.
End performer.
