(* ===== verification/Atomic.v ===== *)
(** * A run on the modelled world is all or nothing

    The drive loop, the step runner and [World::apply] together: a run of dependent steps
    on a [Performer::modelled] that does not reach its commit leaves the world as it was,
    whatever the steps observe, which action is refused and whenever a stop comes. *)
From S2P Require Import Prelude.
From S2P Require Import Paths.
From S2P Require Import Effect.
From S2P Require Import Events.
From S2P Require Import EventTree.
From S2P Require Import Journal.
From S2P Require Import Runner.
From S2P Require Import Validate.
From S2P Require Import TreeSim.
From S2P Require Import TreeValid.
From S2P Require Import RunnerSafe.
From S2P Require Import RunnerSpec.
From S2P Require Import RunnerStory.
From S2P Require Import World.
From S2P Require Import Apply.
From S2P Require Import WorldFrame.
From S2P Require Import WorldUndo.
From S2P Require Import Undone.
From S2P Require Import Drive.
From S2P Require Import Performer.

#[local] Abbreviation no_syncs := (Forall (λ b, is_sync b = false)).

(** ** What a run without syncs owes *)

Lemma all_owed_back r :
  doubts r = [] → length (journal r) = length (steps r) → Forall (Forall no_syncs) (journal r) →
  all_owed r = concat (reverse (concat (journal r))).
Proof.
  intros Hd Hlen Hs.
  assert (Hns : no_syncs (all_owed r)).
  { unfold all_owed, steps_owe. apply Forall_concat, Forall_fmap, Forall_forall. intros s _.
    unfold compose, step_owes. rewrite Hd. simpl.
    assert (Hj : Forall no_syncs (default [] (journal r !! s))).
    { destruct (journal r !! s) as [J|] eqn:HJ; [|constructor]. simpl.
      by eapply Forall_lookup_1 in HJ; [|exact Hs]. }
    rewrite rollback_order_no_sync by done. by apply Forall_concat, Forall_reverse. }
  assert (Hall : Forall no_syncs (concat (journal r))) by by apply Forall_concat.
  rewrite <- (nonsync_no_sync _ Hns), all_owed_recorded, rollback_order_no_sync by done.
  by apply nonsync_no_sync, Forall_concat, Forall_reverse.
Qed.

Lemma all_owed_landed r r0 step undos u :
  doubts r = [] → length (journal r) = length (steps r) → Forall (Forall no_syncs) (journal r) →
  no_syncs u → journal r !! step = Some undos →
  (∀ s, step < s → journal r !! s = Some [] ∨ journal r !! s = None) →
  journal r0 = <[step := undos ++ [u]]> (journal r) → doubts r0 = doubts r → steps r0 = steps r →
  all_owed r0 = u ++ all_owed r ∧ Forall (Forall no_syncs) (journal r0).
Proof.
  intros Hd Hlen Hs Hu Hj Hlater Hj0 Hd0 Hst.
  assert (Hs0 : Forall (Forall no_syncs) (journal r0)).
  { rewrite Hj0. apply Forall_insert; [done|]. apply Forall_app_2; [|by repeat constructor].
    by eapply Forall_lookup_1 in Hj; [|exact Hs]. }
  split; [|done]. rewrite !all_owed_back; try done; try congruence.
  - rewrite Hj0, (concat_push _ _ _ _ Hj Hlater), reverse_app. done.
  - rewrite Hj0, length_insert. congruence.
Qed.

(** ** What the modelled performer does *)

Lemma lock_again m : lock_model (with_world (lock_model m) m) = lock_model m.
Proof. unfold lock_model, with_world. simpl. by destruct (md_acting m). Qed.

Lemma lock_after w m :
  acting_for w = acting_for (lock_model m) → lock_model (with_world w m) = w.
Proof.
  unfold lock_model, with_world. simpl. destruct (md_acting m) as [request|]; [|done].
  intros Ha. simpl in Ha. destruct w. simpl in *. by subst.
Qed.

Lemma apply_acting a w r w' : Apply.apply a w = (r, w') → acting_for w' = acting_for w.
Proof. intros Ha. assert (H := fr_acting _ _ (apply_framed w a)). by rewrite Ha in H. Qed.

(** No fault is about to strike. *)
Definition unarmed (m : Modelled) : Prop := (next_fault (md_faults m)).1 = None.
(** No fault that is about to strike is a crash. *)
Definition uncrashed (m : Modelled) : Prop :=
  ∀ fault, (next_fault (md_faults m)).1 = Some fault → ∃ failure, fault = Fault_Fail failure.

Section performing.
Context {J : Type} `{JournalStore J}.
Context (trace_journaled : JRecord → bytes) (traced : bool) (crash : Modelled → Performing Modelled).
Context (Hrel : reliable (J := J)).

(** What the loop makes of an action: it is refused, and nothing was announced and the world
    is the same, or it is done, and what it announced is what it returns. *)
Lemma modelled_performing m action node c silent seq a outcome m' a' :
  uncrashed m →
  performing trace_journaled traced (modelled_perform crash m action) node c silent seq a =
    (outcome, m', a') → ac_announced a = None →
  (∃ failure, outcome = Err failure ∧ ac_announced a' = None ∧ lock_model m' = lock_model m ∧
     (unarmed m → (Apply.apply action (lock_model m)).1 = Err failure)) ∨
  (∃ undo, outcome = Ok (mkPerformed undo) ∧ Apply.apply action (lock_model m) = (Ok undo, lock_model m')).
Proof.
  intros Hcr Hp Ha. unfold modelled_perform, uncrashed, unarmed in *.
  destruct (next_fault (md_faults m)) as [fault faults]. simpl in *.
  set (m1 := mkModelled (md_world m) faults (md_acting m) (md_stops m)) in *.
  assert (Hl1 : lock_model m1 = lock_model m) by done.
  destruct fault as [fault|].
  - destruct (Hcr fault eq_refl) as [failure ->]. simpl in Hp. injection Hp as <- <- <-. left.
    exists failure. by split_and!.
  - simpl in Hp. rewrite Hl1 in Hp. destruct (Apply.apply action (lock_model m)) as [[undo|failure] w'] eqn:Happ;
      simpl in Hp.
    + right. exists undo. assert (Hw : lock_model (with_world w' (with_world (lock_model m) m1)) = w').
      { apply lock_after. rewrite (apply_acting _ _ _ _ Happ).
        rewrite <- Hl1. by rewrite lock_again. }
      destruct (prepared trace_journaled traced seq silent undo a) as [answer a1] eqn:Hpr.
      assert (Hok : answer = Ok tt).
      { unfold prepared in Hpr. destruct silent; [by simplify_eq|].
        destruct (Hrel (ac_journal a) (Record_Prepared seq undo)) as (j' & Happ' & _).
        rewrite Happ' in Hpr. by simplify_eq. }
      subst answer. rewrite <- Hl1, lock_again, Hl1, Happ in Hp. simpl in Hp. simplify_eq.
      split; [done|]. f_equal. by symmetry.
    + injection Hp as <- <- <-. left. exists failure. split_and!; [done|done| |done].
      rewrite <- Hl1. apply lock_again.
Qed.
End performing.

(** ** The world at every moment of a run *)

Section atomic.
Context {J : Type} `{JournalStore J}.
Context (trace_observed : list Query → list Fact → bytes) (trace_journaled : JRecord → bytes)
  (traced : bool) (crash : Modelled → Performing Modelled) (request : string).
Context (Hrel : reliable (J := J)) (Hcrash : ∀ m, honest (crash m)).

#[local] Instance machine : Machine Modelled := modelled_machine crash.
#[local] Abbreviation MDrive := (Drive (W := Modelled) (J := J)).
#[local] Abbreviation reached := (reaches trace_observed trace_journaled traced).
#[local] Abbreviation answered_by := (drive_answer trace_observed trace_journaled traced).
#[local] Abbreviation acted_on := (drive_action trace_journaled traced).

(** The world of a run, as the performer locks it. *)
Definition world_of (d : MDrive) : World := lock_model (dr_world d).

Context (w0 : World).

(** A run that is still going forward: what it owes leads back to [w0]. *)
Record on_way (r : Runner) (w : World) : Prop := {
  ow_ok : world_ok w;
  ow_back : restores w0 (all_owed r) w;
  ow_plain : Forall (Forall no_syncs) (journal r);
  ow_doubts : doubts r = [];
}.

(** Performing [plan] leads back to [w0]. *)
Definition comes_back (plan : list Action) (w : World) : Prop :=
  ∃ w3, run_all plan w = (Ok tt, w3) ∧ like w3 w0.

Lemma restores_comes_back u w : restores w0 u w → comes_back u w.
Proof. intros Hr. by apply Hr. Qed.

Inductive placed (next : Next) (d : MDrive) : Prop :=
  | placed_going :
      stage (dr_runner d) = Going → on_way (dr_runner d) (world_of d) → placed next d
  | placed_unwinding action :
      stage (dr_runner d) = Unwinding → next = Next_Perform action →
      comes_back (action :: undo_plan (dr_runner d)) (world_of d) → placed next d
  | placed_committing :
      stage (dr_runner d) = Over → next = Next_Perform Action_Commit → placed next d
  | placed_over :
      stage (dr_runner d) = Over → next = Next_Finished →
      dr_ended d = true ∨ like (world_of d) w0 → placed next d.

Inductive settling (d : MDrive) : Prop :=
  | settling_going :
      stage (dr_runner d) = Going → on_way (dr_runner d) (world_of d) →
      (∀ outcome, dr_input d ≠ Some (Input_Done outcome)) → settling d
  | settling_landed w u :
      stage (dr_runner d) = Going → awaits (dr_runner d) = true →
      dr_input d = Some (Input_Done (Ok (mkPerformed u))) →
      on_way (dr_runner d) w → world_ok (world_of d) → restores w u (world_of d) → no_syncs u → settling d
  | settling_refused failure :
      stage (dr_runner d) = Going → awaits (dr_runner d) = true →
      dr_input d = Some (Input_Done (Err failure)) → on_way (dr_runner d) (world_of d) → settling d
  | settling_unwinding :
      stage (dr_runner d) = Unwinding → awaits (dr_runner d) = true →
      comes_back (undo_plan (dr_runner d)) (world_of d) → settling d
  | settling_over :
      stage (dr_runner d) = Over → awaits (dr_runner d) = true → dr_ended d = true → settling d.

(** *** From the driver's answer to the runner's *)

Lemma told_placed_going r0 next d :
  told r0 next (dr_runner d) → stage r0 = Going → on_way r0 (world_of d) →
  steps (dr_runner d) = steps r0 → placed next d.
Proof.
  intros Ht Hg [Hok Hback Hplain Hd] Hs.
  assert (Hgo : stage (dr_runner d) = Going → same_books r0 (dr_runner d) → placed next d).
  { intros Hg' [Hj Hd']. apply placed_going; [done|]. split; [done| |by rewrite Hj|by rewrite Hd'].
    by rewrite (all_owed_books r0). }
  remember (dr_runner d) as r1 eqn:Hr1.
  destruct Ht as [q r' _ Hg' Hb|a r' _ Hg' Hb Ha|a r' _ Hg' Ho|r' _ Hg' _|r' _ Ho Hg'].
  - subst r'. by apply Hgo.
  - subst r'. by apply Hgo.
  - subst r'. unfold owed in Ho. rewrite Hg in Ho. apply (placed_unwinding _ _ a); [done|done|].
    rewrite <- Ho. by apply restores_comes_back.
  - subst r'. by apply placed_committing.
  - subst r'. apply placed_over; [done|done|]. right. destruct Ho as [Ho|[_ ?]]; [|done].
    unfold owed in Ho. rewrite Hg in Ho. rewrite Ho in Hback.
    destruct (Hback (world_of d)) as (w3 & Hrun & Hl); [reflexivity|]. by injection Hrun as ->.
Qed.

Lemma told_placed_unwinding r0 next d :
  told r0 next (dr_runner d) → stage r0 = Unwinding → comes_back (owed r0) (world_of d) → placed next d.
Proof.
  intros Ht Hg (w3 & Hrun & Hl). remember (dr_runner d) as r1 eqn:Hr1.
  destruct Ht as [q r' Hg'|a r' Hg'|a r' _ Hg' Ho|r' Hg'|r' _ Ho Hg']; subst r';
    try (destruct Hg'; congruence); try congruence.
  - apply (placed_unwinding _ _ a); [done|done|]. exists w3. by rewrite <- Ho.
  - apply placed_over; [done|done|]. right. destruct Ho as [Ho|[? _]]; [|congruence].
    rewrite Ho in Hrun. by injection Hrun as ->.
Qed.

Lemma poll_settling d : settling d → settling (drive_poll d).
Proof.
  intros Hp. assert (Hpoll : ∃ c t b m, drive_poll d =
    mkDrive (match c with Some c => runner_stop c (dr_runner d) | None => dr_runner d end) t m
      (dr_journal d) (dr_queue d) b (dr_input d) (dr_seq d) (dr_ended d) (dr_unfinished d) ∧
    lock_model m = lock_model (dr_world d)).
  { unfold drive_poll. simpl. unfold next_stop.
    destruct (md_stops (dr_world d)) as [|[c|] stops].
    - by eexists None, _, _, _.
    - simpl. set (cause := match c with Reason_Interrupted => _ | _ => _ end). exists (Some cause).
      destruct (if cancellable (dr_runner d) then announce (dr_stopping d) (dr_tree d) (Some cause)
              else (dr_stopping d, dr_tree d)) as [b t]. by eexists _, _, _.
    - by eexists None, _, _, _. }
  destruct Hpoll as (c & t & b & m & -> & Hm).
  assert (Hway : ∀ w, on_way (dr_runner d) w →
    on_way (match c with Some c => runner_stop c (dr_runner d) | None => dr_runner d end) w)
    by (intros w []; destruct c; by split).
  destruct Hp as [? ? ?|w u ? ? ? ? ? ? ?|f ? ? ? ?|? ? ?|? ? ?];
    [apply settling_going|apply (settling_landed _ w u)|apply (settling_refused _ f)
    |apply settling_unwinding|apply settling_over]; unfold world_of in *; simpl; rewrite ?Hm; auto;
    by destruct c.
Qed.

Lemma modelled_says_why : says_why (W := Modelled).
Proof. intros m. simpl. unfold next_stop. by destruct (md_stops m) as [|[[]|] stops]. Qed.

Lemma modelled_honest m action shielded : honest (perform (W := Modelled) m action shielded).
Proof.
  simpl. unfold modelled_perform. destruct (next_fault (md_faults m)) as [fault faults].
  set (m1 := mkModelled _ _ _ _). simpl.
  assert (Hu : ∀ w u w', Apply.apply action w = (Ok u, w') → Action_Commit ∉ u) by (intros; by eapply undo_uncommitted).
  assert (Hdone : ∀ m2 : Modelled, let '(performed, w) := Apply.apply action (lock_model m2) in
    honest (Performing_Done (mkPerformed <$> performed) (with_world w m2))).
  { intros m2. destruct (Apply.apply action (lock_model m2)) as [[u|e] w] eqn:Ha; simpl; [|done].
    by eapply Hu. }
  assert (Htry : ∀ k : result Failure unit → Performing Modelled, (∀ answer, honest (k answer)) →
    honest (match (Apply.apply action (lock_model m1)).1 with
            | Ok undo => Performing_Prepared undo k
            | Err failure => Performing_Done (Err failure) (with_world (lock_model m1) m1) end)).
  { intros k Hk. destruct (Apply.apply action (lock_model m1)) as [[u|e] w] eqn:Ha; simpl; [|done].
    split; [by eapply Hu|done]. }
  specialize (Hdone (with_world (lock_model m1) m1)).
  destruct fault as [[]|]; [done|..]; apply Htry; intros [[]|e]; try done;
    destruct (Apply.apply action _) as [performed w]; done.
Qed.

Let answered := answered_ok request (W := Modelled) (J := J).

Lemma ask_placed d next d' :
  answered d → settling d → drive_ask d = Some (next, d') → placed next d'.
Proof.
  intros Hok%(poll_answered modelled_says_why) Hst%poll_settling. unfold drive_ask.
  set (d0 := drive_poll d) in *. clearbody d0. destruct Hok as [[Hi Ha] Hdep _].
  destruct (step_returns_all _ _ _ Hi Ha) as (n & r' & t' & Hstep & _).
  rewrite Hstep. intros [= -> <-].
  destruct (step_story _ _ _ _ _ _ Hi Hdep Ha Hstep) as (r0 & Habs & Hs0 & Htold & _ & Hsteps).
  set (d1 := mkDrive _ _ _ _ _ _ _ _ _ _).
  assert (Hlen : stage (dr_runner d0) = Going → length (journal (dr_runner d0)) = length (steps (dr_runner d0))).
  { intros Hg. apply (invariant_length _ (dr_tree d0)); [done|..];
    unfold stage in Hg; by destruct (phase (dr_runner d0)). }
  assert (Hback : ∀ w, on_way (dr_runner d0) w → stage r0 = Unwinding → owed r0 = all_owed (dr_runner d0) →
    comes_back (owed r0) w).
  { intros w [_ Hb _ _] _ ->. by apply restores_comes_back. }
  destruct Hst as [Hg Hway Hin|w u Hg Haw Hin Hway Hok Hr Hu|f Hg Haw Hin Hway|Hg Haw Hc|Hg Haw He].
  - assert (Hor : (stage r0 = Going ∧ same_books (dr_runner d0) r0) ∨
        (stage r0 = Unwinding ∧ owed r0 = all_owed (dr_runner d0))).
    { destruct (awaits (dr_runner d0)); [|subst r0; by left].
      unfold absorbs in Habs. rewrite Hg in Habs. destruct (dr_input d0) as [[|o]|]; try done. by destruct (Hin o). }
    destruct Hor as [[Hg0 Hb]|[Hg0 Ho]].
    + apply (told_placed_going r0 _ d1 Htold); [done| |simpl; congruence].
      destruct Hway as [Hok Hback' Hplain Hd], Hb as [Hj Hd']. split; [done| |by rewrite Hj|by rewrite Hd'].
      by rewrite (all_owed_books (dr_runner d0)).
    + apply (told_placed_unwinding r0 _ d1 Htold); [done|]. by eapply Hback.
  - rewrite Haw in Habs. unfold absorbs in Habs. rewrite Hg, Hin in Habs.
    destruct Habs as (step & undos & Hj & Hlater & Hg0 & Hj0 & Hd0).
    destruct Hway as [_ Hback' Hplain Hd].
    destruct (all_owed_landed (dr_runner d0) r0 step undos u) as [Ho Hp0]; try done; [by apply Hlen|].
    apply (told_placed_going r0 _ d1 Htold); [done| |simpl; congruence].
    split; [done| |done|congruence]. rewrite Ho. by eapply restores_app.
  - rewrite Haw in Habs. unfold absorbs in Habs. rewrite Hg, Hin in Habs.
    destruct Habs as [Hg0 Ho]. apply (told_placed_unwinding r0 _ d1 Htold); [done|]. by eapply Hback.
  - rewrite Haw in Habs. unfold absorbs in Habs. rewrite Hg in Habs. destruct Habs as [Hg0 Ho].
    apply (told_placed_unwinding r0 _ d1 Htold); [done|]. rewrite Ho. unfold owed. by rewrite Hg.
  - rewrite Haw in Habs. unfold absorbs in Habs. rewrite Hg in Habs.
    destruct Htold as [q r' Hg'|a r' Hg'|a r' Hg'|r' Hg'|r' _ Ho Hg'];
      try (destruct Hg'; congruence); try congruence.
    apply placed_over; [done|done|by left].
Qed.

Lemma asks_awaits next r : asks next r → next ≠ Next_Finished → awaits r = true.
Proof. unfold asks, awaits. by destruct next, (phase r) as [|? []|? ? ? []|? [] []|[]| |]. Qed.

(** Going forward, an action is undoable where it is performed, and a fault makes it fail. *)
Definition forward (d : MDrive) (action : Action) : Prop :=
  stage (dr_runner d) = Going → undoable (world_of d) action ∧ uncrashed (dr_world d).

(** No fault strikes an undo or the commit. *)
Definition spared (d : MDrive) : Prop := stage (dr_runner d) ≠ Going → unarmed (dr_world d).

Lemma unarmed_uncrashed m : unarmed m → uncrashed m.
Proof. unfold unarmed, uncrashed. intros ->. done. Qed.

Lemma action_going_settles d action :
  asks (Next_Perform action) (dr_runner d) → stage (dr_runner d) = Going → action ≠ Action_Commit →
  on_way (dr_runner d) (world_of d) → forward d action → settling (acted_on d action).
Proof.
  intros Hasks Hg Hac Hway Hfw. destruct (Hfw Hg) as [Hu Hcr].
  assert (Haw := asks_awaits _ _ Hasks ltac:(done)).
  unfold drive_action. rewrite rolling_back_stage, Hg, (bool_decide_false _ Hac).
  destruct (performing _ _ _ _ _ _ _ _) as [[outcome m'] a] eqn:Hp. simpl in Hp.
  destruct (modelled_performing _ _ _ Hrel _ _ _ _ _ _ _ _ _ _ Hcr Hp eq_refl)
    as [(f & -> & Ha & Hw & _)|(u & -> & Happ)].
  - rewrite Ha. assert (Hset : settling (mkDrive (dr_runner d)
      (foldl (λ t s, Drive.apply t (default Events.ROOT (current_node (dr_runner d))) s) (ac_tree a) (ac_queue a))
      m' (ac_journal a) [] (ac_stopping a) (Some (Input_Done (Err f))) (dr_seq d + 1) (dr_ended d) (dr_unfinished d))).
    { apply (settling_refused _ f); [done..|]. unfold world_of. simpl. by rewrite Hw. }
    destruct f; exact Hset.
  - simpl. destruct (keep _ _ _ _ _ _) as [j t]. simpl.
    destruct (undo_restores _ _ _ _ (ow_ok _ _ Hway) Hu Happ) as [Hok Hr].
    apply (settling_landed _ (world_of d) u); try done. by eapply undo_no_sync.
Qed.

Lemma action_unwinding_settles d action :
  asks (Next_Perform action) (dr_runner d) → stage (dr_runner d) = Unwinding → action ≠ Action_Commit →
  comes_back (action :: undo_plan (dr_runner d)) (world_of d) → spared d → settling (acted_on d action).
Proof.
  intros Hasks Hg Hac (w3 & Hrun & Hl) Hsp. assert (Hun : unarmed (dr_world d)) by (apply Hsp; congruence).
  assert (Haw := asks_awaits _ _ Hasks ltac:(done)).
  unfold drive_action. rewrite rolling_back_stage, Hg, (bool_decide_false _ Hac). simpl.
  destruct (performing _ _ _ _ _ _ _ _) as [[outcome m'] a] eqn:Hp. simpl in Hp.
  simpl in Hrun. unfold mbind, st_bind in Hrun.
  destruct (modelled_performing _ _ _ Hrel _ _ _ _ _ _ _ _ _ _ (unarmed_uncrashed _ Hun) Hp eq_refl)
    as [(f & -> & Ha & Hw & Hf)|(u & -> & Happ)].
  - specialize (Hf Hun). unfold world_of in Hrun.
    destruct (Apply.apply action (lock_model (dr_world d))) as [[u|e] w]; simpl in Hf; congruence.
  - unfold world_of in Hrun. rewrite Happ in Hrun. simpl. destruct (keep _ _ _ _ _ _) as [j t]. simpl.
    apply settling_unwinding; [done..|]. by exists w3.
Qed.

Lemma commit_settles d :
  asks (Next_Perform Action_Commit) (dr_runner d) → stage (dr_runner d) = Over → spared d →
  settling (drive_perform trace_journaled traced d Action_Commit).
Proof.
  intros Hasks Hg Hsp. assert (Hun : unarmed (dr_world d)) by (apply Hsp; congruence).
  assert (Haw := asks_awaits _ _ Hasks ltac:(done)).
  unfold drive_perform. rewrite decide_True by done.
  destruct (Hrel (dr_journal d) Record_Committing) as (j & -> & Hj).
  unfold drive_action. simpl. rewrite rolling_back_stage, Hg. simpl.
  destruct (performing _ _ _ _ _ _ _ _) as [[outcome m'] a] eqn:Hp.
  destruct (modelled_performing _ _ _ Hrel _ _ _ _ _ _ _ _ _ _ (unarmed_uncrashed _ Hun) Hp eq_refl)
    as [(f & -> & Ha & Hw & Hf)|(u & -> & Happ)].
  - specialize (Hf Hun). discriminate.
  - simpl. destruct (keep _ _ _ _ _ _) as [j' t]. simpl. by apply settling_over.
Qed.

Lemma observe_settles d queries :
  stage (dr_runner d) = Going → on_way (dr_runner d) (world_of d) →
  settling (drive_observe trace_observed traced d queries).
Proof.
  intros Hg Hway. unfold drive_observe. simpl.
  apply settling_going; [done| |done]. unfold world_of in *. simpl. by rewrite lock_again.
Qed.

Lemma answer_settles next d d1 :
  asked request next d → placed next d → (∀ action, next = Next_Perform action → forward d action) →
  spared d → answered_by next d = Driven_Next d1 → settling d1.
Proof.
  intros [Hi Hasks Hdep Hk] Hp Hfw Hsp Hans. destruct next as [queries|action|]; simplify_eq/=.
  - destruct Hp; try done. by apply observe_settles.
  - specialize (Hfw action eq_refl).
    destruct Hk as [cs Hg Hc Hseq Hdf Hd Hl Hnc He Hu _ Hac|cs reverted a Hg Hc Heq Hnc Hx He Hu
        |cs Hg Hc Heq He Hu|]; simplify_eq.
    + assert (action ≠ Action_Commit) by congruence. unfold drive_perform. rewrite decide_False by done.
      destruct Hp as [_ Hway|a Hg' _ _|Hg' _|Hg' _ _]; try congruence. by apply action_going_settles.
    + assert (a ≠ Action_Commit) by set_solver. unfold drive_perform. rewrite decide_False by done.
      destruct Hp as [Hg' _|a' _ Heq Hcb|Hg' _|Hg' _ _]; try congruence. simplify_eq.
      by apply action_unwinding_settles.
    + by apply commit_settles.
Qed.

Section run.
Context (specs : list StepSpec) (d0 : MDrive).
Hypothesis Hbegins : begins request specs d0.
Hypothesis Hstart : world_of d0 = w0.
Hypothesis Hwell : world_ok w0.
Hypothesis Hforward : ∀ action d, reached d0 (Next_Perform action) d → forward d action.
Hypothesis Hspared : ∀ next d, reached d0 next d → spared d.

Lemma start_settling : settling d0.
Proof.
  destruct Hbegins as (parent & t & m & j & queue & Heq & Hk & Hcl & Hp & Hc).
  rewrite Heq in *. apply settling_going; [done| |done]. rewrite Hstart.
  assert (Hnil : ∀ n : nat, concat (replicate n (@nil (list Action))) = []) by (induction n; done).
  assert (Hplain : Forall (Forall no_syncs) (journal (runner_new parent specs))).
  { apply Forall_replicate. constructor. }
  split; [done| |done|done].
  change (dr_runner (drive_start (runner_new parent specs) t m j queue)) with (runner_new parent specs).
  rewrite all_owed_back; [|done|apply length_replicate|done]. simpl. rewrite Hnil. apply restores_nil.
Qed.

Lemma reaches_placed next d : reached d0 next d → asked request next d ∧ placed next d.
Proof.
  assert (Hask := ask_asked Hrel modelled_says_why modelled_honest request).
  intros Hr. induction Hr as [next d Ha|next d d1 next' d' Hr IH Han Has].
  - assert (Hd0 : answered d0) by by eapply begins_answered.
    split; [by eapply Hask|]. eapply ask_placed; [exact Hd0|apply start_settling|exact Ha].
  - destruct IH as [Hak Hp].
    assert (Hok : answered d1) by by eapply (answer_answered _ _ _ Hrel modelled_says_why modelled_honest).
    assert (Hset : settling d1).
    { eapply answer_settles; [exact Hak|exact Hp| |by eapply Hspared|exact Han].
      intros action ->. by apply Hforward. }
    split; [by eapply Hask|by eapply ask_placed].
Qed.

(** Where a run that returns was last. *)
Lemma drive_n_reaches fuel d d' :
  (∀ next d1, drive_ask d = Some (next, d1) → reached d0 next d1) →
  drive_n trace_observed trace_journaled traced fuel d = Some (Driven_Returned d') →
  ∃ d1, reached d0 Next_Finished d1 ∧ d' = drive_finished trace_journaled traced d1.
Proof.
  revert d. induction fuel as [|fuel IH]; intros d Hd Hn; [done|]. simpl in Hn. unfold drive_turn in Hn.
  destruct (drive_ask d) as [[next d1]|] eqn:Ha; [|done]. specialize (Hd _ _ eq_refl). simpl in Hn.
  destruct (answered_by next d1) as [d2|d2] eqn:Hans.
  - apply (IH d2); [|done]. intros next' d3 Ha'. by eapply reaches_then.
  - simplify_eq. destruct next; simplify_eq/=. by exists d1.
Qed.

Lemma lock_world_eq w m : world_eq w (lock_model m) → world_eq w (md_world m).
Proof. unfold lock_model. by destruct (md_acting m). Qed.

Lemma run_comes_back :
  ∃ fuel d, drive_n trace_observed trace_journaled traced fuel d0 = Some (Driven_Returned d) ∧
    (dr_ended d = true ∨ like (world_of d) w0).
Proof.
  assert (Hd0 : answered d0) by by eapply begins_answered.
  destruct (drive_returns trace_observed trace_journaled traced d0 modelled_says_why (ao_driving _ _ Hd0))
    as (fuel & d & Hn & _).
  exists fuel, d. split; [done|]. destruct (drive_n_reaches fuel d0 d) as (d1 & Hr & ->); [|done|].
  { intros next d1. apply reaches_first. }
  destruct (reaches_placed _ _ Hr) as [[_ Hasks _ _] Hp].
  unfold drive_finished. destruct (dr_ended d1 || dr_unfinished d1).
  - destruct Hp as [Hg _|a ? ? ?|? ?|_ _ Hover]; try done.
    exfalso. unfold asks, stage in *. by destruct (phase (dr_runner d1)) as [| | | |[]| |].
  - destruct (keep _ _ _ _ _ _) as [j t]. unfold world_of in *. simpl.
    destruct Hp as [Hg _|a ? ? ?|? ?|_ _ Hover]; try done.
    exfalso. unfold asks, stage in *. by destruct (phase (dr_runner d1)) as [| | | |[]| |].
Qed.
End run.
End atomic.


(** ** Witness *)

(** A group, then a directory and the same gid again, which is refused. *)
Definition two_specs : list StepSpec :=
  [group_step "a" 7;
   mkStepSpec "dir:b" (Verb_Creating, "b") []
     (λ _, Ok [Action_CreateDir (of_string "/etc/b") 493 None; Action_AddGroup "b" 7]) false [] (0, 0)].

Definition two_drive : Drive (W := Modelled) (J := list JRecord) :=
  drive_start (runner_new Events.ROOT two_specs) some_tree (mkModelled default_world None None [])
    [Record_Began "r"] [].

Definition no_crash (m : Modelled) : Performing Modelled := Performing_Done (Err Failure_Cancelled) m.

#[local] Instance two_machine : Machine Modelled := modelled_machine no_crash.

Fixpoint two_moment (n : nat) : option (Next * Drive (W := Modelled) (J := list JRecord)) :=
  match n with
  | O => drive_ask two_drive
  | S n =>
      '(next, d) ← two_moment n;
      match drive_answer no_trace no_record true next d with
      | Driven_Next d => drive_ask d
      | Driven_Returned _ => None
      end
  end.

(** No fault is armed, and going forward the actions are those above. *)
Definition two_fine (o : option (Next * Drive (W := Modelled) (J := list JRecord))) : bool :=
  match o with
  | None => true
  | Some (next, d) =>
      match md_faults (dr_world d) with Some _ => false | None => true end &&
      match next, stage (dr_runner d) with
      | Next_Perform (Action_AddGroup _ _), Going => true
      | Next_Perform (Action_CreateDir p _ _), Going => bool_decide (p = of_string "/etc/b")
      | Next_Perform _, Going => false
      | _, _ => true
      end
  end.

Definition two_end : nat := 16.

Lemma two_all_fine : forallb (λ n, two_fine (two_moment n)) (seq 0 two_end) = true ∧
  match two_moment two_end with None => true | Some _ => false end = true.
Proof. vm_compute. split; reflexivity. Qed.

Lemma two_moment_fine n : two_fine (two_moment n) = true.
Proof.
  destruct two_all_fine as [Hall Hend]. rewrite forallb_forall in Hall.
  destruct (decide (n < two_end)) as [Hn|Hn].
  - apply Hall, in_seq. lia.
  - assert (Hnone : ∀ k, two_moment (k + two_end) = None).
    { intros k. induction k as [|k IH].
      - change (0 + two_end) with two_end. by destruct (two_moment two_end).
      - change (S k + two_end) with (S (k + two_end)). cbn [two_moment]. by rewrite IH. }
    assert (n = (n - two_end) + two_end) as -> by lia. by rewrite Hnone.
Qed.

Lemma two_reaches next d :
  reaches no_trace no_record true two_drive next d → ∃ n, two_moment n = Some (next, d).
Proof.
  induction 1 as [next d Ha|next d d1 next' d' _ [n IH] Han Has]; [by exists O|].
  exists (S n). simpl. rewrite IH. simpl. by rewrite Han.
Qed.

Lemma two_unfaulted next d :
  reaches no_trace no_record true two_drive next d → md_faults (dr_world d) = None.
Proof.
  intros [n Hn]%two_reaches. assert (H := two_moment_fine n). rewrite Hn in H. simpl in H.
  by destruct (md_faults (dr_world d)).
Qed.

Lemma two_forward action d :
  reaches no_trace no_record true two_drive (Next_Perform action) d → forward d action.
Proof.
  intros Hr Hg. split; [|by apply unarmed_uncrashed; unfold unarmed; rewrite (two_unfaulted _ _ Hr)].
  destruct (two_reaches _ _ Hr) as [n Hn]. assert (H := two_moment_fine n). rewrite Hn in H. simpl in H.
  rewrite Hg, (two_unfaulted _ _ Hr) in H. destruct action; try discriminate.
  - apply bool_decide_eq_true in H as ->. apply plain_check. vm_compute. reflexivity.
  - by split.
Qed.

Lemma two_begins : begins "r" two_specs two_drive.
Proof.
  exists Events.ROOT, some_tree, (mkModelled default_world None None []), [Record_Began "r"], [].
  split_and!; [done|by evaluate| | |done].
  - intros spec facts actions Hin Hok.
    repeat (apply elem_of_cons in Hin as [->|Hin]; [simpl in Hok; simplify_eq; set_solver|]).
    by apply elem_of_nil in Hin.
  - split; [apply root_start_valid|]. vm_compute. set_solver.
Qed.

