(* ===== verification/Recovery.v ===== *)
(** * The journal's file and recovery from it

    [crates/shell/src/effect/journal/mod.rs]: records are appended to a request's file one
    to a line, and what an interrupted request left in its file is undone, or its commit is
    finished, by the next process.

    The JSON library and the file system are classes.  A [flock] is what [is_unheld] says,
    and a lock that is taken lasts as long as its journal is recovered from, which no other
    call can see. *)
From S2P Require Import Prelude.
From S2P Require Import Chars.
From S2P Require Import Paths.
From S2P Require Import Effect.
From S2P Require Import Events.
From S2P Require Import Journal.
From S2P Require Import World.
From S2P Require Import Drive.
From S2P Require Import Performer.

Local Open Scope nat_scope.

(** ** Records as lines *)

Class RecordText := {
  record_to_vec : JRecord → bytes;
  record_from_str : string → option JRecord;
}.

Section Lines.
Context `{RecordText}.

(** What [append] writes. *)
Definition record_line (record : JRecord) : bytes := record_to_vec record +:+ newline.

(** [Iterator::map_while]. *)
Fixpoint map_while {A B} (f : A → option B) (l : list A) : list B :=
  match l with
  | [] => []
  | x :: l => match f x with Some y => y :: map_while f l | None => [] end
  end.

(** [read]; [std::fs::read_to_string] refuses what is not text. *)
Definition read_journal (at_ : path) (raw : result ErrorKind bytes) : result Failure (list JRecord) :=
  match raw with
  | Err kind => Err (Failure_Io at_ kind)
  | Ok raw =>
      match from_utf8 raw with
      | None => Err (Failure_Io at_ InvalidData)
      | Some text => Ok (map_while record_from_str (lines text))
      end
  end.

End Lines.

(** ** Recovering *)

Record Recovered := mkRecovered {
  rv_requests : nat; rv_failures : list (Action * Failure); rv_lost : list (Action * Failure) }.
Definition recovered_none : Recovered := mkRecovered 0 [] [].

Definition add_failure (action : Action) (failure : Failure) (r : Recovered) : Recovered :=
  mkRecovered (rv_requests r) (rv_failures r ++ [(action, failure)]) (rv_lost r).
Definition count_request (r : Recovered) : Recovered :=
  mkRecovered (S (rv_requests r)) (rv_failures r) (rv_lost r).

(** [gone]. *)
Definition is_gone (failure : Failure) : bool :=
  match failure with
  | Failure_Conflict _ _ _ => true
  | Failure_Io _ NotFound | Failure_Io _ NotADirectory => true
  | _ => false
  end.

Definition accept_loss (recovered : Recovered) (failed_before : nat) : bool * Recovered :=
  let failures := drop failed_before (rv_failures recovered) in
  if forallb (λ entry : Action * Failure, is_gone entry.2) failures
  then (true, mkRecovered (rv_requests recovered) (take failed_before (rv_failures recovered))
                (rv_lost recovered ++ failures))
  else (false, recovered).

(** [Performer::perform] whose signals and announcements nobody is told. *)
Fixpoint perform_quietly {W} (p : Performing W) : Outcome * W :=
  match p with
  | Performing_Signal _ p | Performing_Received p | Performing_Stopped _ p => perform_quietly p
  | Performing_Prepared _ p => perform_quietly (p (Ok tt))
  | Performing_Done outcome w => (outcome, w)
  end.

Section Records.
(** What recovery changes, with [Performer::perform], [Performer::adopt] and the journal that
    its progress is appended to. *)
Context {S : Type} (performs : S → Action → Outcome * S)
  (adopt : S → list path → result Failure unit * S)
  (progress : S → JRecord → result Failure unit * S).

(** The loop over the uncertain actions: what goes through is noted, and if that fails the
    rest is left. *)
Fixpoint undo_uncertain (actions : list Action) (s : S) (r : Recovered) : bool * S * Recovered :=
  match actions with
  | [] => (true, s, r)
  | action :: actions =>
      match performs s action with
      | (Err _, s) => undo_uncertain actions s r
      | (Ok _, s) =>
          match progress s (Record_Reverted action) with
          | (Ok _, s) => undo_uncertain actions s r
          | (Err failure, s) => (false, s, add_failure action failure r)
          end
      end
  end.

(** The loop over the certain ones. *)
Fixpoint undo_certain (actions : list Action) (s : S) (r : Recovered) : S * Recovered :=
  match actions with
  | [] => (s, r)
  | action :: actions =>
      match performs s action with
      | (Err failure, s) => undo_certain actions s (add_failure action failure r)
      | (Ok _, s) =>
          match progress s (Record_Reverted action) with
          | (Ok _, s) => undo_certain actions s r
          | (Err failure, s) => undo_certain actions s (add_failure action failure r)
          end
      end
  end.

Definition recover_records (records : list JRecord) (s : S) (r : Recovered) : bool * S * Recovered :=
  let failed_before := length (rv_failures r) in
  let clean r := bool_decide (length (rv_failures r) = failed_before) in
  match recover records with
  | Recovery_Nothing => (clean r, s, r)
  | Recovery_RollBack uncertain certain =>
      let '(went_on, s, r) := undo_uncertain uncertain s r in
      if went_on : bool then
        let '(s, r) := undo_certain certain s r in (clean r, s, r)
      else (false, s, r)
  | Recovery_FinishCommit pending =>
      let '(adopted, s) := adopt s pending in
      let '(committed, s) :=
        match adopted with
        | Ok _ => performs s Action_Commit
        | Err failure => (Err failure, s)
        end in
      let r := match committed with Ok _ => r | Err failure => add_failure Action_Commit failure r end in
      (clean r, s, r)
  end.

End Records.

(** ** A directory of journals *)

(** What is used of [std::fs] and [flock]. *)
Class JournalFiles (D : Type) := {
  entries : D → path → list path;
  is_unheld : D → path → bool;
  read_file : D → path → result ErrorKind bytes;
  open_append : D → path → result ErrorKind unit;
  append_file : D → path → bytes → result ErrorKind unit * D;
  remove_file : D → path → result ErrorKind unit * D;
}.

Section Directory.
Context `{RecordText} {W : Type} `{Machine W} {D : Type} `{JournalFiles D}.
Context (adopt : W → list path → result Failure unit * W).

Definition unfinished (d : D) (dir : path) : list path :=
  merge_sort path_le
    (List.filter (λ at_, bool_decide (extension at_ = Some "ndjson")) (entries d dir)).

(** [abandoned] of a directory. *)
Definition abandoned_in (d : D) (dir : path) : list Abandoned :=
  omap (λ at_,
    if is_unheld d at_ then
      name ← file_name at_;
      let records := match read_journal at_ (read_file d at_) with Ok records => records | Err _ => [] end in
      if decide (records = []) then None
      else Some (abandoned (from_utf8_lossy (default name (strip_suffix ".ndjson" name))) records)
    else None) (unfinished d dir).

(** The performer and the directory together. *)
Definition performs_beside (s : W * D) (action : Action) : Outcome * (W * D) :=
  let '(outcome, w) := perform_quietly (perform s.1 action false) in (outcome, (w, s.2)).
Definition adopts_beside (s : W * D) (paths : list path) : result Failure unit * (W * D) :=
  let '(adopted, w) := adopt s.1 paths in (adopted, (w, s.2)).

(** [Resumed::append]. *)
Definition resumed_append (at_ : path) (s : W * D) (record : JRecord) : result Failure unit * (W * D) :=
  let '(written, d) := append_file s.2 at_ (record_line record) in
  (match written with Ok _ => Ok tt | Err kind => Err (Failure_Io at_ kind) end, (s.1, d)).

(** The [Vec] a prediction's progress goes to. *)
Definition vec_append (s : W * D) (record : JRecord) : result Failure unit * (W * D) := (Ok tt, s).

(** One turn of the loop of [recover_from]. *)
Definition recover_one (remove losing : bool) (at_ : path) (w : W) (d : D) (r : Recovered) :
    W * D * Recovered :=
  if negb (is_unheld d at_) then (w, d, r)
  else
    match read_journal at_ (read_file d at_) with
    | Err failure => (w, d, add_failure Action_Commit failure r)
    | Ok [] => (w, d, r)
    | Ok records =>
        let r := count_request r in
        let failed_before := length (rv_failures r) in
        if remove then
          match open_append d at_ with
          | Err kind => (w, d, add_failure Action_Commit (Failure_Io at_ kind) r)
          | Ok _ =>
              let '(finished, (w, d), r) :=
                recover_records performs_beside adopts_beside (resumed_append at_) records (w, d) r in
              let '(done, r) :=
                if finished : bool then (true, r)
                else if losing then accept_loss r failed_before else (false, r) in
              if done : bool then
                match remove_file d at_ with
                | (Ok _, d) => (w, d, r)
                | (Err kind, d) => (w, d, add_failure Action_Commit (Failure_Io at_ kind) r)
                end
              else (w, d, r)
          end
        else
          let '(_, (w, d), r) :=
            recover_records performs_beside adopts_beside vec_append records (w, d) r in
          (w, d, r)
    end.

Definition recover_from (remove losing : bool) (dir : path) (w : W) (d : D) : W * D * Recovered :=
  fold_left (λ '(w, d, r) at_, recover_one remove losing at_ w d r) (unfinished d dir)
    (w, d, recovered_none).

Definition recover_all := recover_from true false.
Definition recover_accepting_loss := recover_from true true.
Definition predict_recovery := recover_from false false.

End Directory.

(** ** On a modelled world *)

(** [World::adopt]. *)
Definition world_adopt (paths : list path) (w : World) : World :=
  set_pending_of (<[acting_for w := pending_in w (acting_for w) ++ paths]> (pending_of w)) w.

(** [Performer::adopt] of a modelled one. *)
Definition modelled_adopt (m : Modelled) (paths : list path) : result Failure unit * Modelled :=
  (Ok tt, with_world (world_adopt paths (lock_model m)) m).

Definition set_logs (x : gmap string (list JRecord)) (w : World) : World :=
  mkWorld (files w) (groups w) (users w) (units w) (profiles w) (aside_profiles w) (journals w)
    x (held w) (acting_for w) (runs_as w) (clobbered w) (linked w) (pending_of w) (next_ino w).

Section Model.
Context (crash : Modelled → Performing Modelled).

Definition modelled_performs (m : Modelled) (action : Action) : Outcome * Modelled :=
  perform_quietly (modelled_perform crash m action).

(** [ModelProgress::append]. *)
Definition log_record (request : string) (m : Modelled) (record : JRecord) : result Failure unit * Modelled :=
  let w := lock_model m in
  (Ok tt, with_world (set_logs (<[request := default [] (logs w !! request) ++ [record]]> (logs w)) w) m).

(** The logs nobody holds, in order. *)
Definition open_logs (w : World) : list (string * list JRecord) :=
  omap (λ request,
    if decide (request ∈ held w) then None else (λ records, (request, records)) <$> logs w !! request)
    (sort_strings (map_to_list (logs w)).*1).

Definition recover_model (losing : bool) (m : Modelled) : Modelled * Recovered :=
  fold_left (λ '(m, r) '(request, records),
    let r := count_request r in
    let failed_before := length (rv_failures r) in
    let '(finished, m, r) :=
      recover_records modelled_performs modelled_adopt (log_record request) records m r in
    let '(done, r) :=
      if finished : bool then (true, r)
      else if losing then accept_loss r failed_before else (false, r) in
    (if done : bool then with_world (set_logs (delete request (logs (lock_model m))) (lock_model m)) m else m, r))
    (open_logs (lock_model m)) (m, recovered_none).

End Model.
