(* ===== verification/Predict.v ===== *)
(** * Dry runs

    [Prediction] of [crates/shell/src/drive.rs]: a performer that changes nothing.  What an
    action is about is first copied from the system into a world ([seed]), the action is
    applied to that world, and queries about what was touched are answered from it.  The
    system is behind the class [System].

    What was seen of an entry makes the same entry again, and on a system that is itself a
    modelled world a dry run comes to the verdict on a file action the system would. *)
From S2P Require Import Prelude.
From S2P Require Import Paths.
From S2P Require Import Effect.
From S2P Require Import Chars.
From S2P Require Import Journal.
From S2P Require Import Precondition.
From S2P Require Import Accounts.
From S2P Require Import World.
From S2P Require Import Repository.
From S2P Require Import Apply.
From S2P Require Import Observe.
From S2P Require Import WorldAccounts.
From S2P Require Import WorldFrame.
From S2P Require Import WorldFiles.
From S2P Require Import WorldUndo.

Local Open Scope N_scope.

(** What a dry run asks the system: [observe_one], systemd's view of a unit and of its
    links, and [std::fs::read]. *)
Class System := {
  system_fact : Query → result Failure Fact;
  system_unit : string → result Failure UnitFacts;
  system_links : string → result Failure (list (path * FileId));
  system_read : path → option bytes;
}.

(** ** The prediction *)

Record Prediction := mkPrediction {
  pd_world : World; seeded : list Subject; touched : list Subject }.

Definition no_prediction : Prediction := mkPrediction default_world [] [].

(** The closure [near]. *)
Definition near (p : Prediction) (at_ : path) : bool :=
  existsb (λ subject, match subject with
                      | Subject_Path touched => under touched at_ || under at_ touched
                      | _ => false
                      end) (touched p).

Definition was_touched (p : Prediction) (subject : Subject) : bool :=
  bool_decide (subject ∈ touched p).

Definition answers (p : Prediction) (query : Query) : bool :=
  match query with
  | Query_Path at_ | Query_Contents at_ | Query_TreeOwner at_ | Query_Leftovers at_
  | Query_Strangers at_ _ | Query_Program at_ _ => near p at_
  | Query_Repository user => near p (repository_dir (home user))
  | Query_ActiveList user | Query_ActiveLock user => was_touched p (Subject_Profile user)
  | Query_Group name => was_touched p (Subject_Group name)
  | Query_User name => was_touched p (Subject_User name)
  | Query_Unit name => was_touched p (Subject_Unit name)
  | Query_UnitLinks name => was_touched p (Subject_Unit name) || near p UNIT_DIR
  | Query_Profile user | Query_Clobbered user => was_touched p (Subject_Profile user)
  | Query_Linked user => near p (home user)
  | Query_Accounts =>
      existsb (λ subject, match subject with Subject_User _ => true | _ => false end) (touched p)
  | Query_Journals _ => false
  end.

Definition changes_worktree (p : Prediction) (query : Query) : bool :=
  match query with
  | Query_Repository user =>
      let worktree := mix_state_dir (home user) in
      let repository := repository_dir (home user) in
      existsb (λ subject, match subject with
                          | Subject_Path touched => under touched worktree && negb (under touched repository)
                          | _ => false
                          end) (touched p)
  | _ => false
  end.

Definition unrecorded (fact : Fact) : Fact :=
  match fact with
  | Fact_Repository intact _ => Fact_Repository intact false
  | other => other
  end.

(** ** Steps of a prediction *)

Definition Pd (X : Type) : Type := Prediction → result Failure X * Prediction.

#[export] Instance pd_ret : MRet Pd := λ X x p, (Ok x, p).
#[export] Instance pd_bind : MBind Pd := λ X Y f m p,
  match m p with
  | (Ok x, p) => f x p
  | (Err e, p) => (Err e, p)
  end.

Definition ask {X} (r : result Failure X) : Pd X := λ p, (r, p).

(** A step on its world that cannot fail. *)
Definition on_world (m : St unit) : Pd unit := λ p,
  (Ok tt, mkPrediction (m (pd_world p)).2 (seeded p) (touched p)).

Definition mark (subject : Subject) : Pd unit := λ p,
  (Ok tt, mkPrediction (pd_world p) (subject :: seeded p) (touched p)).

Definition is_seeded (subject : Subject) : Pd bool := λ p, (Ok (bool_decide (subject ∈ seeded p)), p).

Section system.
Context `{System}.

(** The fact's contents, if it has any. *)
Definition fact_contents (at_ : path) : Pd (option bytes) :=
  fact ← ask (system_fact (Query_Contents at_));
  mret (match fact with Fact_Contents contents => contents | _ => None end).

(** The body of the loop over the chain of a path. *)
Definition seed_link_of_chain (at_ : path) : Pd unit :=
  already ← is_seeded (Subject_Path at_);
  if already : bool then mret tt
  else
    fact ← ask (system_fact (Query_Path at_));
    match fact with
    | Fact_Path found =>
        contents ← (match pf_kind found with Kind_File => fact_contents at_ | _ => mret None end);
        _ ← on_world (seed_path at_ found contents);
        mark (Subject_Path at_)
    | _ => mret tt
    end.

Fixpoint seed_chain (chain : list path) : Pd unit :=
  match chain with
  | [] => mret tt
  | at_ :: chain => _ ← seed_link_of_chain at_; seed_chain chain
  end.

(** The path and what is above it, below the root, from the top. *)
Definition chain_of (at_ : path) : list path :=
  reverse (filter (λ p, parent p ≠ None) (ancestors at_)).

Definition seed_place (at_ : path) : Pd unit :=
  already ← is_seeded (Subject_Path at_);
  if already : bool then mret tt else seed_chain (chain_of at_).

(** The arms of [seed] for what is no path. *)
Definition seed_other (subject : Subject) : Pd unit :=
  match subject with
  | Subject_Path at_ => mret tt
  | Subject_Group name =>
      fact ← ask (system_fact (Query_Group name));
      match fact with
      | Fact_Group found => on_world (modify (seed_group name found))
      | _ => mret tt
      end
  | Subject_User name =>
      fact ← ask (system_fact (Query_User name));
      match fact with
      | Fact_User found => on_world (modify (seed_user name found))
      | _ => mret tt
      end
  | Subject_Unit name =>
      _ ← seed_place (unit_path name);
      found ← ask (system_unit name);
      contents ← fact_contents (unit_path name);
      links ← ask (system_links name);
      on_world (seed_unit name found contents links)
  | Subject_Profile user =>
      fact ← ask (system_fact (Query_Profile user));
      match fact with
      | Fact_Profile found => on_world (modify (seed_profile (uid user) found))
      | _ => mret tt
      end
  end.

(** [seed]. *)
Definition seed (subject : Subject) : Pd unit :=
  already ← is_seeded subject;
  if already : bool then mret tt
  else match subject with
       | Subject_Path at_ => seed_chain (chain_of at_)
       | _ => _ ← seed_other subject; mark subject
       end.

Fixpoint seed_all (subjects : list Subject) : Pd unit :=
  match subjects with [] => mret tt | subject :: subjects => _ ← seed subject; seed_all subjects end.

(** [World::apply] under [?]. *)
Definition apply_predicted (action : Action) : Pd (list Action) := λ p,
  let '(r, w) := apply action (pd_world p) in (r, mkPrediction w (seeded p) (touched p)).

Definition touch (subjects : list Subject) : Pd unit := λ p,
  (Ok tt, mkPrediction (pd_world p) (seeded p) (touched p ++ subjects)).

(** [predict]; [prepared] is the loop's answer to the announced undo. *)
Definition predict (action : Action) (prepared : list Action → result Failure unit)
    : Pd (list Action) :=
  _ ← seed_all (subjects action);
  undo ← apply_predicted action;
  _ ← ask (prepared undo);
  _ ← touch (subjects action);
  mret undo.

(** [seed_running]. *)
Definition seed_running (source : path) : Pd unit := λ p,
  match contents_of (pd_world p) source with
  | Some _ => (Ok tt, p)
  | None =>
      match system_read source with
      | Some bytes => on_world (seed_path source (mkPathFacts Kind_File 493 ROOT None None None) (Some bytes)) p
      | None => (Ok tt, p)
      end
  end.

(** The fact for a query: from the prediction, or from the system. *)
Definition answer (query : Query) : Pd Fact := λ p,
  if answers p query then (Ok (observe (pd_world p) query), p)
  else if changes_worktree p query then (unrecorded <$> system_fact query, p)
  else (system_fact query, p).

(** The body of the loop of [observe] when predicting. *)
Definition observe_query (query : Query) : Pd Fact :=
  _ ← (match query with Query_Program _ source => seed_running source | _ => mret tt end);
  answer query.

Fixpoint observe_predicted (queries : list Query) : Pd (list Fact) :=
  match queries with
  | [] => mret []
  | query :: queries =>
      fact ← observe_query query; facts ← observe_predicted queries; mret (fact :: facts)
  end.
End system.

(** ** What was seen makes the same again *)

(**  Seeing and making are inverse: a world seeded with what [observe] said of an entry
    of another world has that entry, contents, identity and time of change included, and
    nothing else changed; and so for a missing entry, a group and a user. *)
Theorem seed_observed w w' at_ name :
  (let '(_, made) := seed_path at_ (path_facts (files w !! at_)) (contents_of w at_) w' in
   files made !! at_ = files w !! at_ ∧ ∀ p, p ≠ at_ → files made !! p = files w' !! p) ∧
  groups (seed_group name (groups w !! name) w') !! name = groups w !! name ∧
  users (seed_user name (users w !! name) w') !! name = users w !! name.
Proof.
  split; [|split].
  - unfold seed_path, path_facts, contents_of.
    destruct (files w !! at_) as [e|] eqn:He; simpl.
    + assert (Hentry : ∀ c, c = fe_content e →
        mkFileEntry c (fe_mode e) (fe_owner e) (fe_id e) (Z.to_N (Z.of_N (fe_changed e))) = e).
      { intros c ->. rewrite N2Z.id. by destruct e. }
      unfold kind_of. destruct (fe_content e) as [|contents] eqn:Hc; simpl;
        (split; [rewrite lookup_insert_eq; f_equal; by apply Hentry|]; intros p Hp; by rewrite lookup_insert_ne).
    + split; [apply lookup_delete_eq|]. intros p Hp. by rewrite lookup_delete_ne.
  - simpl. by rewrite lookup_partial_alter_eq.
  - simpl. by rewrite lookup_partial_alter_eq.
Qed.

(** ** A dry run on a system that is a modelled world *)

Definition modelled_system (w : World) : System := {|
  system_fact query := Ok (observe w query);
  system_unit name := Ok (unit_facts w name);
  system_links name := Ok (omap (λ link, (λ e, (link, fe_id e)) <$> files w !! link) (unit_links w name));
  system_read at_ := contents_of w at_;
|}.

(** A path is seeded with what is above it. *)
Definition whole (p : Prediction) : Prop :=
  ∀ x y, Subject_Path x ∈ seeded p → rooted x → y ∈ chain_of x → Subject_Path y ∈ seeded p.

(** What was seeded is as it is on the system. *)
Record agrees (w : World) (p : Prediction) : Prop := {
  ag_paths at_ : Subject_Path at_ ∈ seeded p → files (pd_world p) !! at_ = files w !! at_;
  ag_root : dir_at (pd_world p) [RootDir];
}.

Section dry.
Context (w : World) (Hroot : dir_at w [RootDir]).

#[local] Instance the_system : System := modelled_system w.

Lemma seed_path_entry at_ contents w' :
  (kind_of <$> files w !! at_ = Some Kind_File → contents = contents_of w at_) →
  files (seed_path at_ (path_facts (files w !! at_)) contents w').2 = partial_alter (λ _, files w !! at_) at_ (files w').
Proof.
  intros Hc. unfold seed_path, path_facts. destruct (files w !! at_) as [e|] eqn:He; simpl in *; [|done].
  unfold kind_of in *. destruct e as [[|bytes] mode owner id changed] eqn:Hent; simpl in *; rewrite N2Z.id; [done|].
  rewrite Hc by done. unfold contents_of. by rewrite He.
Qed.

Lemma seed_link_agrees at_ p :
  agrees w p → parent at_ ≠ None →
  ∃ p', seed_link_of_chain at_ p = (Ok tt, p') ∧ agrees w p' ∧
    (∀ s, s ∈ seeded p' ↔ s ∈ seeded p ∨ s = Subject_Path at_).
Proof.
  intros [Hp Hr] Hpar. unfold seed_link_of_chain, mbind, pd_bind, is_seeded.
  destruct (bool_decide (Subject_Path at_ ∈ seeded p)) eqn:Hin.
  { apply bool_decide_eq_true in Hin. exists p. split; [done|]. split; [by split|]. naive_solver. }
  simpl. set (contents := match pf_kind (path_facts (files w !! at_)) with Kind_File => contents_of w at_ | _ => None end).
  assert (Hseed : seed_link_of_chain at_ p = (Ok tt,
    mkPrediction (seed_path at_ (path_facts (files w !! at_)) contents (pd_world p)).2
      (Subject_Path at_ :: seeded p) (touched p))).
  { unfold seed_link_of_chain, mbind, pd_bind, is_seeded. rewrite Hin. simpl. unfold contents, fact_contents.
    by destruct (pf_kind (path_facts (files w !! at_))). }
  unfold seed_link_of_chain, mbind, pd_bind, is_seeded in Hseed. rewrite Hin in Hseed. simpl in Hseed.
  eexists. split; [exact Hseed|]. clear Hseed.
  assert (Hf := seed_path_entry at_ contents (pd_world p)). specialize (Hf ltac:(unfold contents, path_facts;
    destruct (files w !! at_) as [e|]; [|done]; simpl; by intros [= ->])).
  split; [|simpl; set_solver]. split; simpl.
  - intros x Hx. rewrite Hf. destruct (decide (x = at_)) as [->|Hne]; [by rewrite lookup_partial_alter_eq|].
    rewrite lookup_partial_alter_ne by done. apply Hp. apply elem_of_cons in Hx as [[= ->]|Hx]; done.
  - unfold dir_at. simpl. rewrite Hf, lookup_partial_alter_ne; [done|]. intros ->. done.
Qed.

Lemma seed_chain_agrees chain p :
  agrees w p → (∀ x, x ∈ chain → parent x ≠ None) →
  ∃ p', seed_chain chain p = (Ok tt, p') ∧ agrees w p' ∧
    (∀ s, s ∈ seeded p' ↔ s ∈ seeded p ∨ ∃ x, x ∈ chain ∧ s = Subject_Path x).
Proof.
  revert p. induction chain as [|x chain IH]; intros p Hag Hch; simpl.
  { exists p. split; [done|]. split; [done|]. set_solver. }
  destruct (seed_link_agrees x p Hag) as (p1 & Hs1 & Hag1 & Hk1); [apply Hch; left|].
  destruct (IH p1 Hag1) as (p2 & Hs2 & Hag2 & Hk2); [intros y Hy; apply Hch; by right|].
  exists p2. unfold mbind, pd_bind. rewrite Hs1. split; [done|]. split; [done|].
  intros s. rewrite Hk2, Hk1. set_solver.
Qed.

(** After its chain is seeded, a place is found as it is on the system. *)
Lemma spot_agrees p at_ :
  rooted at_ → agrees w p → (∀ x, x ∈ chain_of at_ → Subject_Path x ∈ seeded p) →
  spot_of (pd_world p) at_ = spot_of w at_.
Proof.
  intros Hr [Hp Hd] Hch. destruct (rooted_cases _ Hr) as [->|(q & s & -> & Hq & Hs)]; [done|].
  assert (Hent : ∀ x, x ∈ ancestors (q ++ [Normal s]) → x = [RootDir] ∨ files (pd_world p) !! x = files w !! x).
  { intros x Hx. destruct (decide (parent x = None)) as [Hn|Hn].
    - left. apply elem_of_ancestors in Hx as [Hpre Hne]; [|done].
      destruct (rooted_cases x) as [?|(k & t & -> & _)]; [by apply (rooted_prefix x (q ++ [Normal s]))|done|]. by rewrite parent_snoc in Hn.
    - right. apply Hp, Hch, elem_of_reverse, list_elem_of_filter. done. }
  unfold spot_of. rewrite parent_snoc.
  assert (parent_is_dir (pd_world p) (q ++ [Normal s]) = parent_is_dir w (q ++ [Normal s])) as ->.
  { unfold parent_is_dir. rewrite above_snoc. rewrite ancestors_snoc in Hent.
    assert (Hab : ∀ x, x ∈ reverse (ancestors q) → x = [RootDir] ∨ files (pd_world p) !! x = files w !! x)
      by (intros x Hx; rewrite elem_of_reverse in Hx; apply Hent, elem_of_cons; by right).
    induction (reverse (ancestors q)) as [|x l IH]; [done|]. simpl.
    assert (fe_content <$> files (pd_world p) !! x = fe_content <$> files w !! x) as ->.
    { destruct (Hab x) as [->| ->]; [by apply elem_of_cons; left| |done]. unfold dir_at in *. congruence. }
    rewrite IH; [done|]. intros y Hy. apply Hab, elem_of_cons. by right. }
  destruct (parent_is_dir w (q ++ [Normal s])); [|done].
  destruct (Hent (q ++ [Normal s])) as [Heq|He]; [rewrite ancestors_snoc; apply elem_of_cons; by left| |by rewrite He].
  apply (f_equal parent) in Heq. by rewrite parent_snoc in Heq.
Qed.

Lemma chain_of_chain x y z : rooted x → y ∈ chain_of x → z ∈ chain_of y → z ∈ chain_of x.
Proof.
  intros Hx. unfold chain_of. rewrite !elem_of_reverse, !list_elem_of_filter. intros [_ Hy] [Hz Hzy].
  split; [done|]. apply elem_of_ancestors in Hy as [Hy Hne]; [|done].
  apply elem_of_ancestors in Hzy as [Hzy Hnz]; [|by eapply rooted_prefix].
  apply elem_of_ancestors; [done|]. split; [by etrans|done].
Qed.

(** Seeding a place. *)
Lemma seed_place_agrees at_ p :
  rooted at_ → agrees w p → whole p →
  ∃ p', seed (Subject_Path at_) p = (Ok tt, p') ∧ agrees w p' ∧ whole p' ∧
    spot_of (pd_world p') at_ = spot_of w at_.
Proof.
  intros Hr Hag Hw. unfold seed, mbind, pd_bind, is_seeded.
  destruct (bool_decide (Subject_Path at_ ∈ seeded p)) eqn:Hin.
  - apply bool_decide_eq_true in Hin. exists p. split; [done|]. split; [done|]. split; [done|].
    apply spot_agrees; [done|done|]. intros x. by apply Hw.
  - destruct (seed_chain_agrees (chain_of at_) p Hag) as (p' & Hs & Hag' & Hk).
    { intros x. unfold chain_of. rewrite elem_of_reverse, list_elem_of_filter. by intros [? _]. }
    exists p'. split; [done|]. split; [done|]. split.
    + intros x y. rewrite !Hk. intros [Hx|(x' & Hx & [= <-])] Hrx Hy; [left; by eapply Hw|right].
      exists y. split; [|done]. by eapply chain_of_chain.
    + apply spot_agrees; [done|done|]. intros x Hx. rewrite Hk. right. by exists x.
Qed.
End dry.

(** The actions on one path that what is found there decides. *)
Definition decided_at (a : Action) : option path :=
  match a with
  | Action_CreateDir at_ _ _ | Action_PutFile at_ _ _ _ _ | Action_SetMode at_ _ _
  | Action_SetOwner at_ _ _ | Action_SetAside at_ _ | Action_Discard at_ _ => Some at_
  | _ => None
  end.

Definition same_verdict {A B} (r : result Failure A) (r' : result Failure B) : Prop :=
  match r, r' with Ok _, Ok _ => True | Err e, Err e' => e = e' | _, _ => False end.

Lemma same_verdict_sym {A B} (r : result Failure A) (r' : result Failure B) :
  same_verdict r r' → same_verdict r' r.
Proof. by destruct r, r'. Qed.

Lemma same_verdict_trans {A B C} (r1 : result Failure A) (r2 : result Failure B) (r3 : result Failure C) :
  same_verdict r1 r2 → same_verdict r2 r3 → same_verdict r1 r3.
Proof. destruct r1, r2, r3; simpl; congruence || done. Qed.

Lemma change_there w p f n :
  node p (spot_of w p) = Ok n → ∃ w', change_entry f p w = (Ok tt, w').
Proof.
  intros Hn%node_Ok. unfold spot_of in Hn. destruct (parent p); [|done]. destruct (parent_is_dir w p); [|done].
  unfold change_entry. destruct (files w !! p); [by eexists|done].
Qed.

(** Such an action comes to what its precondition says. *)
Lemma decided a at_ w :
  decided_at a = Some at_ → same_verdict (apply a w).1 (precondition w a []).1.
Proof.
  intros Ha. destruct a; try discriminate.
  - rewrite apply_on_files, verdict_create_dir by done. by destruct (absent _ _).
  - rewrite apply_put. unfold put, mbind, st_bind, require. rewrite !verdict_put.
    destruct (Precondition.expected _ _ _); [|done]. by destruct expect.
  - rewrite apply_on_files, verdict_mode by done.
    destruct (node _ _) as [n|] eqn:Hn; [|done]. destruct (decide _); [|done].
    destruct (change_there w _ (with_mode mode) n Hn) as [w' Hw']. simpl.
    unfold set_mode, mbind, st_bind. by rewrite Hw'.
  - rewrite apply_on_files, verdict_owner by done.
    destruct (node _ _) as [n|] eqn:Hn; [|done]. destruct (decide _); [|done].
    destruct (change_there w _ (with_owner owner) n Hn) as [w' Hw']. simpl.
    unfold set_owner, mbind, st_bind. by rewrite Hw'.
  - rewrite apply_on_files, verdict_aside by done. by destruct (holding _ _ _).
  - rewrite apply_on_files, verdict_discard by done. by destruct (holding _ _ _).
Qed.

Lemma decided_by_spot a at_ w w' :
  decided_at a = Some at_ → spot_of w at_ = spot_of w' at_ →
  (precondition w a []).1 = (precondition w' a []).1.
Proof.
  intros Ha Hs. destruct a; try discriminate; injection Ha as <-;
    rewrite ?verdict_create_dir, ?verdict_put, ?verdict_mode, ?verdict_owner, ?verdict_aside, ?verdict_discard;
    by rewrite Hs.
Qed.

Lemma agrees_fresh w : dir_at w [RootDir] → agrees w no_prediction.
Proof. intros Hr. split; [by intros x ?%not_elem_of_nil|]. vm_compute. reflexivity. Qed.


