(* ===== verification/Pins.v ===== *)
(** * Pinned inputs

    What the managed flake is built from: the pins of [crates/nixgen/src/inputs.rs], the
    lock file of [lock.rs], the names [ident.rs] and [flake.rs] accept, how the pins in
    force are settled ([crates/core/src/declared/pins.rs]) and how an update decides which
    of them move ([crates/core/src/ops/update.rs]).

    A [Rev] or a [NarHash] is the string it wraps; its constructor is the test it makes.
    [serde_json::Value] is the class [JsonValue]: what the code asks of a value. *)
From S2P Require Import Prelude.
From S2P Require Import Chars.

Local Open Scope N_scope.

(** ** [nixgen/src/ident.rs], [flake.rs] and [lock.rs]: what is accepted *)

Definition is_ascii_digit (a : ascii) : bool := bool_decide (48 <= byte a <= 57).
Definition is_ascii_lowercase (a : ascii) : bool := bool_decide (97 <= byte a <= 122).
Definition is_ascii_uppercase (a : ascii) : bool := bool_decide (65 <= byte a <= 90).
Definition is_ascii_alphabetic (a : ascii) : bool :=
  is_ascii_lowercase a || is_ascii_uppercase a.
Definition is_ascii_alphanumeric (a : ascii) : bool :=
  is_ascii_alphabetic a || is_ascii_digit a.

Definition RESERVED_WORDS : list string :=
  ["assert"; "else"; "if"; "in"; "inherit"; "let"; "or"; "rec"; "then"; "with"].

Definition is_reserved (s : string) : bool := bool_decide (s ∈ RESERVED_WORDS).

Definition ident_byte (b : ascii) : bool :=
  is_ascii_alphanumeric b || Ascii.eqb b "_" || Ascii.eqb b "'" || Ascii.eqb b "-".

Definition is_identifier (s : string) : bool :=
  match s with
  | "" => false
  | String first rest =>
      (is_ascii_alphabetic first || Ascii.eqb first "_") && string_all ident_byte rest &&
      negb (is_reserved s)
  end.

Definition rev_byte (b : ascii) : bool :=
  is_ascii_digit b || bool_decide (97 <= byte b <= 102).
Definition is_rev (s : string) : bool :=
  bool_decide (String.length s = 40%nat) && string_all rev_byte s.

Definition NAR_PREFIX : string := "sha256-".
Definition BASE64_LEN : nat := 44.
Definition nar_byte (b : ascii) : bool :=
  is_ascii_alphanumeric b || Ascii.eqb b "+" || Ascii.eqb b "/".
Definition is_nar_hash (s : string) : bool :=
  bool_decide (String.length s = (String.length NAR_PREFIX + BASE64_LEN)%nat) &&
  starts_with NAR_PREFIX s &&
  string_all nar_byte
    (prefix_of_len (BASE64_LEN - 1) (skip (String.length NAR_PREFIX) s)) &&
  String.eqb (skip (String.length s - 1) s) "=".

(** ** [nixgen/src/inputs.rs] and [lock.rs] *)

Inductive Pin := Pin_HomeManager | Pin_Nixpkgs.
#[export] Instance Pin_eq_dec : EqDecision Pin.
Proof. solve_decision. Defined.

Record Pins (T : Type) := mkPins { home_manager : T; nixpkgs : T }.
Arguments mkPins {T}. Arguments home_manager {T}. Arguments nixpkgs {T}.
#[export] Instance Pins_eq_dec {T} `{EqDecision T} : EqDecision (Pins T).
Proof. solve_decision. Defined.

(** [Pins::of]. *)
Definition pin_of {T} (pins : Pins T) (pin : Pin) : T :=
  match pin with Pin_HomeManager => home_manager pins | Pin_Nixpkgs => nixpkgs pins end.

Record Input := mkInput {
  in_pin : Pin; in_name : string; in_owner : string; in_repo : string; in_branch : string;
  in_follows : option string }.

Definition INPUTS : list Input :=
  [mkInput Pin_HomeManager "home-manager" "nix-community" "home-manager" "master"
     (Some "nixpkgs");
   mkInput Pin_Nixpkgs "nixpkgs" "NixOS" "nixpkgs" "nixos-unstable" None].

(** [Pin::input]: the input at the pin's index. *)
Definition pin_index (pin : Pin) : nat :=
  match pin with Pin_HomeManager => 0 | Pin_Nixpkgs => 1 end.
Definition pin_input (pin : Pin) : option Input := INPUTS !! pin_index pin.

Record LockedInput := mkLockedInput {
  rev : string; nar_hash : string; last_modified : N }.
#[export] Instance LockedInput_eq_dec : EqDecision LockedInput.
Proof. solve_decision. Defined.

Definition EMBEDDED : Pins LockedInput :=
  mkPins
    (mkLockedInput "c216bf5a1f173b0481bd5c8c489ebe5595ecc68c"
       "sha256-/0tELNnhdSnP+bHSdWiEe6KpfSwi6WrTnT9cm/jNkjA=" 1792896866)
    (mkLockedInput "3ec636362e1816bc2f0888fa0fa2c69f1bc9e504"
       "sha256-rZLrzrC6i+jnTAlvPZHogKDulY7WWDEv9hJeHieO7Zw=" 1792773339).

(** ** [core/src/declared/pins.rs] *)

(** What the code asks of a [serde_json::Value]. *)
Class JsonValue (V : Type) := {
  json_get : V → string → option V;
  json_str : V → option string;
  json_u64 : V → option N;
  json_parse : string → option V;
}.

Definition I64_MAX : N := 9223372036854775807.

Section Locks.
Context {V : Type} `{JsonValue V}.

Definition locked (input : Input) (value : V) : option LockedInput :=
  let text field := json_get value field ≫= json_str in
  type_ ← text "type";
  if negb (String.eqb type_ "github") then None else
  owner ← text "owner";
  if negb (String.eqb owner (in_owner input)) then None else
  repo ← text "repo";
  if negb (String.eqb repo (in_repo input)) then None else
  rev ← text "rev";
  if negb (is_rev rev) then None else
  hash ← text "narHash";
  if negb (is_nar_hash hash) then None else
  seconds ← json_get value "lastModified" ≫= json_u64;
  if decide (seconds <= I64_MAX) then Some (mkLockedInput rev hash seconds) else None.

Definition from_lock (lock : V) : option (Pins LockedInput) :=
  nodes ← json_get lock "nodes";
  root_name ← json_get lock "root" ≫= json_str;
  root ← json_get nodes root_name ≫= (λ node, json_get node "inputs");
  let pinned pin :=
    input ← pin_input pin;
    name ← json_get root (in_name input) ≫= json_str;
    node ← json_get nodes name;
    json_get node "locked" ≫= locked input in
  hm ← pinned Pin_HomeManager;
  np ← pinned Pin_Nixpkgs;
  Some (mkPins hm np).

Definition read (lock : string) : option (Pins LockedInput) := json_parse lock ≫= from_lock.

Definition forward (pins to : Pins LockedInput) : Pins LockedInput :=
  let newer pin :=
    let from := pin_of pins pin in
    let to := pin_of to pin in
    if decide (last_modified from < last_modified to) then to else from in
  mkPins (newer Pin_HomeManager) (newer Pin_Nixpkgs).

Definition settle_pins (file generation : option string) (mirrored : bool) : Pins LockedInput :=
  if mirrored then EMBEDDED else
  let found :=
    match file ≫= read, generation ≫= read with
    | Some file, Some generation =>
        if decide (file = generation) then Some file else Some generation
    | Some file, None => Some file
    | None, generation => generation
    end in
  match found with
  | Some found => forward found EMBEDDED
  | None => EMBEDDED
  end.

End Locks.

(** ** [core/src/ops/update.rs] *)

Inductive UpdateOutcome := UpdateOutcome_Updated | UpdateOutcome_Current | UpdateOutcome_Kept.
#[export] Instance UpdateOutcome_eq_dec : EqDecision UpdateOutcome.
Proof. solve_decision. Defined.

Record InputUpdate := mkInputUpdate {
  up_pin : Pin; up_outcome : UpdateOutcome; up_from : LockedInput; up_to : LockedInput }.

Record Decided := mkDecided { de_inputs : list InputUpdate; de_pins : Pins LockedInput }.

Definition update_step (from newest : LockedInput) : UpdateOutcome * LockedInput :=
  if String.eqb (rev newest) (rev from) then (UpdateOutcome_Current, from)
  else if decide (last_modified from < last_modified newest)
  then (UpdateOutcome_Updated, newest)
  else (UpdateOutcome_Kept, from).

(** [None] is the [expect] that every pin has an input. *)
Definition decide_update (have newest : Pins LockedInput) : option Decided :=
  let inputs :=
    (λ input,
       let from := pin_of have (in_pin input) in
       let '(outcome, to) := update_step from (pin_of newest (in_pin input)) in
       mkInputUpdate (in_pin input) outcome from to) <$> INPUTS in
  let to pin := up_to <$> find (λ update, up_pin update = pin) inputs in
  hm ← to Pin_HomeManager;
  np ← to Pin_Nixpkgs;
  Some (mkDecided inputs (mkPins hm np)).

(** [Decision::moved], [is_current] and [subject]. *)
Definition moved_inputs (decision : Decided) : list InputUpdate :=
  filter (λ update, up_outcome update = UpdateOutcome_Updated) (de_inputs decision).
Definition is_current (decision : Decided) : bool :=
  match moved_inputs decision with [] => true | _ => false end.
Definition moved_subject (decision : Decided) : option string :=
  names ← mapM (λ update, in_name <$> pin_input (up_pin update)) (moved_inputs decision);
  Some (join ", " names).

Record PackageChange := mkPackageChange {
  pc_name : string; pc_from : option string; pc_to : option string }.

(** A [BTreeMap<String, Option<String>>]. *)
Definition Versions : Type := gmap string (option string).

Definition package_changes (before after : Versions) : list PackageChange :=
  let keys m := sort_strings ((map_to_list m).*1) in
  let names := dedup (sort_strings (keys before ++ keys after)) in
  omap (λ name,
    let from := before !! name ≫= id in
    let to := after !! name ≫= id in
    if decide (from = to) then None else Some (mkPackageChange name from to)) names.

(** ** What is settled never goes back *)

Definition no_older (a b : Pins LockedInput) : Prop :=
  ∀ pin, last_modified (pin_of a pin) <= last_modified (pin_of b pin).

Lemma forward_newest a b pin :
  last_modified (pin_of (forward a b) pin) =
    N.max (last_modified (pin_of a pin)) (last_modified (pin_of b pin)) ∧
  (pin_of (forward a b) pin = pin_of a pin ∨ pin_of (forward a b) pin = pin_of b pin).
Proof. destruct pin; simpl; case_decide; split; (lia || tauto). Qed.

Lemma decide_update_pin have newest d :
  decide_update have newest = Some d →
  ∀ pin, pin_of (de_pins d) pin =
    (update_step (pin_of have pin) (pin_of newest pin)).2.
Proof.
  unfold decide_update. simpl.
  destruct (update_step (home_manager have) _) eqn:Hh, (update_step (nixpkgs have) _) eqn:Hn.
  simpl. intros [= <-] []; simpl; by rewrite ?Hh, ?Hn.
Qed.
