(* ===== verification/LockFile.v ===== *)
(** * The lock file

    The lock of the managed flake: how it is written ([crates/nixgen/src/lock.rs]), what the
    inputs it names are checked for when the program is built ([inputs.rs]), and that the
    pins written are the pins read back ([lock_round_trip]).

    [serde_json] is the class [JsonValue] of [Pins]: of the text of a value in which nothing is
    escaped, written with an indentation of two spaces, it makes a value that [represents] it. *)
From S2P Require Import Prelude.
From S2P Require Import Chars.
From S2P Require Import Pins.

Local Open Scope N_scope.

(** ** Checks on the inputs, made when the program is built *)

Definition LOCK_ROOT : string := "root".

(** [before]: the order of two texts' bytes. *)
Fixpoint before (a b : string) : bool :=
  match a, b with
  | _, "" => false
  | "", _ => true
  | String x a, String y b => if decide (x = y) then before a b else byte x <? byte y
  end.

(** [equal]. *)
Definition same_text (a b : string) : bool := negb (before a b) && negb (before b a).

(** [declared]. *)
Definition declared_input (name : string) : bool :=
  existsb (λ input, same_text (in_name input) name) INPUTS.

(** The assertions, for the input at an index. *)
Definition input_checked (i : nat) (input : Input) : bool :=
  bool_decide (pin_index (in_pin input) = i) && before (in_name input) LOCK_ROOT &&
  match INPUTS !! S i with Some next => before (in_name input) (in_name next) | None => true end &&
  match in_follows input with Some follows => declared_input follows | None => true end.
Definition inputs_checked : bool := forallb id (imap input_checked INPUTS).

Lemma inputs_pass : inputs_checked = true.
Proof. reflexivity. Qed.

Lemma before_irrefl a : before a a = false.
Proof. induction a as [|c a IH]; [done|]. simpl. by rewrite decide_True. Qed.

Lemma same_text_eq a b : same_text a b = true ↔ a = b.
Proof.
  unfold same_text. split.
  - revert b. induction a as [|x a IH]; intros [|y b]; simpl; try done.
    destruct (decide (x = y)) as [->|Hne]; [rewrite decide_True by done; intros H; f_equal; by apply IH|].
    rewrite decide_False by congruence. intros [H1 H2]%andb_true_iff. apply negb_true_iff, N.ltb_ge in H1, H2.
    destruct Hne. assert (Hxy : byte x = byte y) by lia. apply (f_equal ascii_of_N) in Hxy.
    unfold byte in Hxy. by rewrite !ascii_N_embedding in Hxy.
  - intros ->. by rewrite before_irrefl.
Qed.

(** ** [render] *)

Definition quoted (s : string) : string := String "034" "" +:+ s +:+ String "034" "".

(** One input's node. *)
Definition lock_node (input : Input) (pin : LockedInput) : string :=
  "    " +:+ quoted (in_name input) +:+ ": {" +:+ newline +:+
  match in_follows input with
  | Some follows =>
      "      " +:+ quoted "inputs" +:+ ": {" +:+ newline +:+
      "        " +:+ quoted follows +:+ ": [" +:+ newline +:+
      "          " +:+ quoted follows +:+ newline +:+
      "        ]" +:+ newline +:+ "      }," +:+ newline
  | None => ""
  end +:+
  "      " +:+ quoted "locked" +:+ ": {" +:+ newline +:+
  "        " +:+ quoted "lastModified" +:+ ": " +:+ digits (last_modified pin) +:+ "," +:+ newline +:+
  "        " +:+ quoted "narHash" +:+ ": " +:+ quoted (nar_hash pin) +:+ "," +:+ newline +:+
  "        " +:+ quoted "owner" +:+ ": " +:+ quoted (in_owner input) +:+ "," +:+ newline +:+
  "        " +:+ quoted "repo" +:+ ": " +:+ quoted (in_repo input) +:+ "," +:+ newline +:+
  "        " +:+ quoted "rev" +:+ ": " +:+ quoted (rev pin) +:+ "," +:+ newline +:+
  "        " +:+ quoted "type" +:+ ": " +:+ quoted "github" +:+ newline +:+
  "      }," +:+ newline +:+
  "      " +:+ quoted "original" +:+ ": {" +:+ newline +:+
  "        " +:+ quoted "owner" +:+ ": " +:+ quoted (in_owner input) +:+ "," +:+ newline +:+
  "        " +:+ quoted "repo" +:+ ": " +:+ quoted (in_repo input) +:+ "," +:+ newline +:+
  "        " +:+ quoted "rev" +:+ ": " +:+ quoted (rev pin) +:+ "," +:+ newline +:+
  "        " +:+ quoted "type" +:+ ": " +:+ quoted "github" +:+ newline +:+
  "      }" +:+ newline +:+ "    }," +:+ newline.

(** One line of the root's inputs. *)
Definition root_line (index : nat) (input : Input) : string :=
  "        " +:+ quoted (in_name input) +:+ ": " +:+ quoted (in_name input) +:+
  (if decide (index + 1 < length INPUTS)%nat then "," else "") +:+ newline.

Definition lock_render (pins : Pins LockedInput) : string :=
  "{" +:+ newline +:+ "  " +:+ quoted "nodes" +:+ ": {" +:+ newline +:+
  join "" ((λ input, lock_node input (pin_of pins (in_pin input))) <$> INPUTS) +:+
  "    " +:+ quoted "root" +:+ ": {" +:+ newline +:+
  "      " +:+ quoted "inputs" +:+ ": {" +:+ newline +:+
  join "" (imap root_line INPUTS) +:+
  "      }" +:+ newline +:+ "    }" +:+ newline +:+ "  }," +:+ newline +:+
  "  " +:+ quoted "root" +:+ ": " +:+ quoted "root" +:+ "," +:+ newline +:+
  "  " +:+ quoted "version" +:+ ": 7" +:+ newline +:+ "}" +:+ newline.

(** ** The same as a value *)

Inductive Json :=
  | Json_Str (s : string)
  | Json_Num (n : N)
  | Json_Arr (l : list Json)
  | Json_Obj (l : list (string * Json)).

Fixpoint indent (depth : nat) : string := match depth with O => "" | S depth => "  " +:+ indent depth end.

(** [serde_json]'s pretty form. *)
Fixpoint pretty_json (depth : nat) (j : Json) : string :=
  let between (open close : string) (l : list string) :=
    match l with
    | [] => open +:+ close
    | _ => open +:+ newline +:+ join ("," +:+ newline) l +:+ newline +:+ indent depth +:+ close
    end in
  match j with
  | Json_Str s => quoted s
  | Json_Num n => digits n
  | Json_Arr l => between "[" "]" (map (λ x, indent (S depth) +:+ pretty_json (S depth) x) l)
  | Json_Obj l =>
      between "{" "}" (map (λ p, indent (S depth) +:+ quoted p.1 +:+ ": " +:+ pretty_json (S depth) p.2) l)
  end.

Definition repository_json (input : Input) (pin : LockedInput) : list (string * Json) :=
  [("owner", Json_Str (in_owner input)); ("repo", Json_Str (in_repo input));
   ("rev", Json_Str (rev pin)); ("type", Json_Str "github")].

Definition node_json (input : Input) (pin : LockedInput) : Json :=
  Json_Obj (
    match in_follows input with
    | Some follows => [("inputs", Json_Obj [(follows, Json_Arr [Json_Str follows])])]
    | None => []
    end ++
    [("locked", Json_Obj ([("lastModified", Json_Num (last_modified pin)); ("narHash", Json_Str (nar_hash pin))] ++
        repository_json input pin));
     ("original", Json_Obj (repository_json input pin))]).

Definition lock_json (pins : Pins LockedInput) : Json :=
  Json_Obj
    [("nodes", Json_Obj (
        ((λ input, (in_name input, node_json input (pin_of pins (in_pin input)))) <$> INPUTS) ++
        [("root", Json_Obj [("inputs", Json_Obj ((λ input, (in_name input, Json_Str (in_name input))) <$> INPUTS))])]));
     ("root", Json_Str "root"); ("version", Json_Num 7)].

(** What is written is that value, in pretty form, and a line feed. *)
Lemma lock_render_pretty pins : lock_render pins = pretty_json 0 (lock_json pins) +:+ newline.
Proof.
  destruct pins as [[r1 h1 m1] [r2 h2 m2]]. unfold lock_render, lock_json, node_json, repository_json, lock_node, root_line.
  simpl. generalize (digits m1), (digits m2). intros d1 d2. unfold quoted, newline.
  rewrite !app_assoc_string. cbv. reflexivity.
Qed.

(** ** What a JSON library makes of such a text *)

(** Text that is written as it is. *)
Definition plain_char (c : ascii) : bool :=
  (32 <=? byte c) && (byte c <=? 126) && negb (Ascii.eqb c "034") && negb (Ascii.eqb c "\").
Definition plain_text : string → bool := string_all plain_char.

Fixpoint plain_json (j : Json) : bool :=
  match j with
  | Json_Str s => plain_text s
  | Json_Num n => n <=? 18446744073709551615
  | Json_Arr l => forallb plain_json l
  | Json_Obj l => forallb (λ p, plain_text p.1 && plain_json p.2) l && bool_decide (NoDup l.*1)
  end.

Section json.
Context {V : Type} `{JsonValue V}.

(** A value of the library answers for one of the model. *)
Inductive represents : V → Json → Prop :=
  | represents_str v s : json_str v = Some s → represents v (Json_Str s)
  | represents_num v n : json_u64 v = Some n → represents v (Json_Num n)
  | represents_arr v l : represents v (Json_Arr l)
  | represents_obj v l :
      (∀ key j, (key, j) ∈ l → ∃ w, json_get v key = Some w ∧ represents w j) → represents v (Json_Obj l).
End json.

(** ** The pins that are written are read back *)

(** What [Rev::parse] and [NarHash::parse] accept, of a time that Nix can have. *)
Definition pin_ok (pin : LockedInput) : Prop :=
  is_rev (rev pin) = true ∧ is_nar_hash (nar_hash pin) = true ∧ last_modified pin <= I64_MAX.
#[export] Instance pin_ok_dec pin : Decision (pin_ok pin).
Proof. unfold pin_ok. apply _. Defined.

Lemma plain_all_cons f c s : string_all f (String c s) = f c && string_all f s.
Proof. unfold string_all. simpl. by rewrite negb_orb, negb_involutive. Qed.

Lemma all_impl f g s : (∀ c, f c = true → g c = true) → string_all f s = true → string_all g s = true.
Proof.
  intros Hfg. induction s as [|c s IH]; [done|]. rewrite !plain_all_cons, !andb_true_iff. intros [Hc Hs]. auto.
Qed.

Definition for_all_chars (f : ascii → bool) : bool := forallb (λ n, f (ascii_of_nat n)) (seq 0 256).
Lemma for_chars f : for_all_chars f = true → ∀ c, f c = true.
Proof.
  unfold for_all_chars. rewrite forallb_forall. intros Hf c. rewrite <- (ascii_nat_embedding c). apply Hf, in_seq.
  split; [lia|]. apply nat_ascii_bounded.
Qed.

Lemma rev_plain s : is_rev s = true → plain_text s = true.
Proof.
  unfold is_rev. intros [_ Hs]%andb_true_iff. revert Hs. apply all_impl. intros c Hc.
  assert (H := for_chars (λ c, negb (rev_byte c) || plain_char c) ltac:(vm_compute; reflexivity) c).
  simpl in H. by rewrite Hc in H.
Qed.

Lemma all_app f a b : string_all f (a +:+ b) = string_all f a && string_all f b.
Proof.
  induction a as [|c a IH]; [by rewrite app_empty_string|]. by rewrite app_cons_string, !plain_all_cons, IH, andb_assoc.
Qed.

Lemma starts_split pre s : starts_with pre s = true → s = pre +:+ skip (String.length pre) s.
Proof.
  unfold starts_with. revert s. induction pre as [|c pre IH]; intros [|a s]; simpl; rewrite ?app_empty_string; try done.
  destruct (ascii_dec c a) as [->|]; [|done]. intros Hs. rewrite app_cons_string. f_equal. by apply IH.
Qed.

Lemma skip_skip n m s : skip n (skip m s) = skip (m + n) s.
Proof. revert s. induction m as [|m IH]; intros s; [done|]. destruct s as [|c s]; simpl; [by destruct n|apply IH]. Qed.

Lemma hash_plain s : is_nar_hash s = true → plain_text s = true.
Proof.
  unfold is_nar_hash. rewrite !andb_true_iff. intros [[[Hlen Hpre] Hmid] Hend].
  apply bool_decide_eq_true in Hlen. apply String.eqb_eq in Hend. unfold plain_text.
  rewrite (starts_split _ _ Hpre), all_app. apply andb_true_iff. split; [reflexivity|].
  rewrite <- (prefix_skip (BASE64_LEN - 1) (skip _ s)), all_app. apply andb_true_iff. split.
  - revert Hmid. apply all_impl. intros c Hc.
    assert (H := for_chars (λ c, negb (nar_byte c) || plain_char c) ltac:(vm_compute; reflexivity) c).
    simpl in H. by rewrite Hc in H.
  - rewrite skip_skip. replace (String.length NAR_PREFIX + (BASE64_LEN - 1))%nat with (String.length s - 1)%nat
      by (rewrite Hlen; reflexivity). by rewrite Hend.
Qed.

Lemma lock_plain pins : (∀ pin, pin_ok (pin_of pins pin)) → plain_json (lock_json pins) = true.
Proof.
  intros Hok. destruct (Hok Pin_HomeManager) as (Hr1%rev_plain & Hh1%hash_plain & Hm1).
  destruct (Hok Pin_Nixpkgs) as (Hr2%rev_plain & Hh2%hash_plain & Hm2). simpl in *.
  assert (Hmax : ∀ n, n <= I64_MAX → (n <=? 18446744073709551615) = true).
  { intros n Hn. apply N.leb_le. unfold I64_MAX in Hn. lia. }
  unfold lock_json, node_json, repository_json. simpl.
  rewrite Hr1, Hh1, Hr2, Hh2, (Hmax _ Hm1), (Hmax _ Hm2). reflexivity.
Qed.

Section read_back.
Context {V : Type} `{JsonValue V}.

Lemma get_field (v : V) l key j :
  represents v (Json_Obj l) → (key, j) ∈ l → ∃ w, json_get v key = Some w ∧ represents w j.
Proof. inversion 1; auto. Qed.

Lemma get_str (v : V) l key s :
  represents v (Json_Obj l) → (key, Json_Str s) ∈ l → json_get v key ≫= json_str = Some s.
Proof. intros Hv Hin. destruct (get_field v l key _ Hv Hin) as (w & -> & Hw). by inversion Hw. Qed.

Lemma get_num (v : V) l key n :
  represents v (Json_Obj l) → (key, Json_Num n) ∈ l → json_get v key ≫= json_u64 = Some n.
Proof. intros Hv Hin. destruct (get_field v l key _ Hv Hin) as (w & -> & Hw). by inversion Hw. Qed.

Ltac in_fields := apply list_elem_of_In; simpl; auto 12.

Lemma locked_reads (v : V) input pin :
  represents v (Json_Obj ([("lastModified", Json_Num (last_modified pin)); ("narHash", Json_Str (nar_hash pin))] ++
    repository_json input pin)) → pin_ok pin → locked input v = Some pin.
Proof.
  intros Hv (Hr & Hh & Hm). unfold locked.
  rewrite (get_str v _ "type" "github" Hv) by in_fields. simpl.
  rewrite (get_str v _ "owner" (in_owner input) Hv) by in_fields. simpl. rewrite String.eqb_refl. simpl.
  rewrite (get_str v _ "repo" (in_repo input) Hv) by in_fields. simpl. rewrite String.eqb_refl. simpl.
  rewrite (get_str v _ "rev" (rev pin) Hv) by in_fields. simpl. rewrite Hr. simpl.
  rewrite (get_str v _ "narHash" (nar_hash pin) Hv) by in_fields. simpl. rewrite Hh. simpl.
  rewrite (get_num v _ "lastModified" (last_modified pin) Hv) by in_fields. simpl.
  rewrite decide_True by done. by destruct pin.
Qed.

(** An input of the lock, by way of the root. *)
Lemma pinned_reads (nodes root : V) fields roots input pin :
  represents nodes (Json_Obj fields) → represents root (Json_Obj roots) →
  (in_name input, node_json input pin) ∈ fields → (in_name input, Json_Str (in_name input)) ∈ roots → pin_ok pin →
  (name ← json_get root (in_name input) ≫= json_str;
   node ← json_get nodes name;
   json_get node "locked" ≫= locked input) = Some pin.
Proof.
  intros Hn Hr Hin Hrin Hok. rewrite (get_str root _ _ _ Hr Hrin). simpl.
  destruct (get_field nodes _ _ _ Hn Hin) as (node & -> & Hnode). simpl.
  destruct (get_field node _ "locked" (Json_Obj ([("lastModified", Json_Num (last_modified pin));
    ("narHash", Json_Str (nar_hash pin))] ++ repository_json input pin)) Hnode) as (w & -> & Hw).
  { apply elem_of_app. right. left. }
  simpl. by apply locked_reads.
Qed.

(** C31. The lock file written for any pins is the text of a JSON value that needs no escape, and
    whatever a JSON library that knows the format makes of it is read back as those pins: each
    input by the name the root gives it, with its revision, its hash and its time. *)
Theorem lock_round_trip (pins : Pins LockedInput) :
  (∀ pin, pin_ok (pin_of pins pin)) →
  lock_render pins = pretty_json 0 (lock_json pins) +:+ newline ∧ plain_json (lock_json pins) = true ∧
  ∀ v : V, json_parse (lock_render pins) = Some v → represents v (lock_json pins) →
    read (V := V) (lock_render pins) = Some pins.
Proof.
  intros Hok. split; [apply lock_render_pretty|]. split; [by apply lock_plain|]. intros v Hp Hv. unfold read. rewrite Hp. simpl.
  unfold from_lock. destruct (get_field v _ "nodes" _ Hv ltac:(left)) as (nodes & -> & Hnodes). simpl.
  rewrite (get_str v _ "root" "root" Hv) by (right; left). simpl.
  destruct (get_field nodes _ "root" _ Hnodes ltac:(in_fields)) as (node & -> & Hnode). simpl.
  destruct (get_field node _ "inputs" _ Hnode ltac:(left)) as (root & -> & Hroot). simpl.
  assert (Hpin : ∀ pin input, pin_input pin = Some input →
    (name ← json_get root (in_name input) ≫= json_str;
     node ← json_get nodes name;
     json_get node "locked" ≫= locked input) = Some (pin_of pins pin)).
  { intros pin input Hi. eapply pinned_reads; [exact Hnodes|exact Hroot| | |apply Hok].
    - destruct pin; injection Hi as <-; simpl; [left|right; left].
    - destruct pin; injection Hi as <-; simpl; [left|right; left]. }
  assert (H1 := Hpin Pin_HomeManager _ eq_refl). assert (H2 := Hpin Pin_Nixpkgs _ eq_refl). simpl in H1, H2.
  rewrite H1. simpl. rewrite H2. simpl. by destruct pins.
Qed.
End read_back.

(** *** A JSON reader *)

Fixpoint skip_blank (s : string) : string :=
  match s with
  | String c rest => if Ascii.eqb c " " || Ascii.eqb c "010" then skip_blank rest else s
  | "" => ""
  end.

Fixpoint number_of (value : N) (s : string) : N * string :=
  match s with
  | String c rest =>
      if is_ascii_digit c then number_of (10 * value + (byte c - 48)) rest else (value, s)
  | "" => (value, "")
  end.

Fixpoint read_json (fuel : nat) (s : string) : option (Json * string) :=
  match fuel with
  | O => None
  | S fuel =>
      let items :=
        fix items (n : nat) (s : string) : option (list Json * string) :=
          match n with
          | O => None
          | S n =>
              '(x, s) ← read_json fuel s;
              match skip_blank s with
              | String "," s => '(l, s) ← items n s; Some (x :: l, s)
              | String "]" s => Some ([x], s)
              | _ => None
              end
          end in
      let fields :=
        fix fields (n : nat) (s : string) : option (list (string * Json) * string) :=
          match n, skip_blank s with
          | S n, String "034" s =>
              '(key, s) ← split_once "034" s;
              s ← strip_prefix ":" s;
              '(x, s) ← read_json fuel s;
              match skip_blank s with
              | String "," s => '(l, s) ← fields n s; Some ((key, x) :: l, s)
              | String "}" s => Some ([(key, x)], s)
              | _ => None
              end
          | _, _ => None
          end in
      match skip_blank s with
      | String "034" s => '(text, s) ← split_once "034" s; Some (Json_Str text, s)
      | String "[" s => '(l, s) ← items fuel s; Some (Json_Arr l, s)
      | String "{" s => '(l, s) ← fields fuel s; Some (Json_Obj l, s)
      | s => let '(n, s) := number_of 0 s in Some (Json_Num n, s)
      end
  end.

#[local] Instance json_model : JsonValue Json := {
  json_get j key := match j with Json_Obj l => snd <$> find (λ p, p.1 = key) l | _ => None end;
  json_str j := match j with Json_Str s => Some s | _ => None end;
  json_u64 j := match j with Json_Num n => Some n | _ => None end;
  json_parse s := '(j, rest) ← read_json 40 s; if decide (skip_blank rest = "") then Some j else None;
}.

Ltac represented :=
  constructor; first
    [reflexivity
    |intros key j Hin; simpl in Hin; repeat (apply elem_of_cons in Hin as [[= -> ->]|Hin]; [eexists; split; [reflexivity|represented]|]);
     by apply elem_of_nil in Hin
    |idtac].

Lemma lock_round_trip_witness : read (V := Json) (lock_render EMBEDDED) = Some EMBEDDED.
Proof.
  apply (lock_round_trip (V := Json) EMBEDDED) with (v := lock_json EMBEDDED).
  - intros []; apply (bool_decide_unpack _); vm_compute; exact I.
  - vm_compute. reflexivity.
  - unfold lock_json, node_json, repository_json. simpl. represented.
Defined.
