(* ===== verification/Packages.v ===== *)
(** * The package list

    A user's list of packages ([crates/core/src/declared/state.rs]) and the changes to it
    ([crates/core/src/ops/change/mod.rs]): which list is in force, what [install] and
    [remove] make of it and whom they refuse.

    [serde_json] is the class [ManifestJson]; [ManifestJsonOk] states what the code relies
    on: a list printed on lines of its own is read back. *)
From S2P Require Import Prelude.
From S2P Require Import Pins.

Local Open Scope N_scope.

(** ** [declared/state.rs] *)

Definition REQUIRED_PACKAGES : list string := ["git"].

Record StateManifest := mkStateManifest { version : N; packages : list string }.
#[export] Instance StateManifest_eq_dec : EqDecision StateManifest.
Proof. solve_decision. Defined.

Class ManifestJson := {
  to_string_pretty : StateManifest → string;
  from_str : string → result string StateManifest;
}.

Class ManifestJsonOk `{ManifestJson} := {
  from_str_pretty : ∀ m, version m < 2 ^ 32 →
    from_str (to_string_pretty m +:+ newline) = Ok m;
}.

Definition seed : StateManifest := mkStateManifest 1 REQUIRED_PACKAGES.

Definition render_manifest `{ManifestJson} (m : StateManifest) : string :=
  to_string_pretty m +:+ newline.

Definition parse_manifest `{ManifestJson} (raw : string) : result string StateManifest :=
  from_str raw.

Definition sorted (m : StateManifest) : StateManifest :=
  mkStateManifest (version m) (dedup (sort_strings (packages m))).

(** Keeps the first of each name: the filter on [seen.insert]. *)
Fixpoint first_of_each (seen : gset string) (l : list string) : list string :=
  match l with
  | [] => []
  | x :: l =>
      if decide (x ∈ seen) then first_of_each seen l
      else x :: first_of_each ({[x]} ∪ seen) l
  end.

Definition protected (requested : list string) : list string :=
  first_of_each ∅ (filter (λ package, package ∈ REQUIRED_PACKAGES) requested).

Definition without (m : StateManifest) (removed : list string) : StateManifest :=
  mkStateManifest (version m)
    (filter (λ package, package ∉ (list_to_set removed : gset string)) (packages m)).

Record PackagePartition := mkPackagePartition {
  installed : list string; missing : list string }.

Definition partition (m : StateManifest) (requested : list string) : PackagePartition :=
  let installed_set : gset string := list_to_set (packages m) in
  fold_left (λ p package,
    if decide (package ∈ installed_set)
    then mkPackagePartition (installed p ++ [package]) (missing p)
    else mkPackagePartition (installed p) (missing p ++ [package]))
  (first_of_each ∅ requested) (mkPackagePartition [] []).

(** ** [ops/change/mod.rs] *)

Definition STATE_VERSION : N := 1.

Inductive Invalid :=
  | Invalid_Unreadable (error : string)
  | Invalid_Newer (format : N)
  | Invalid_UnknownVersion (format : N)
  | Invalid_Package (name : string)
  | Invalid_Missing (name : string).
#[export] Instance Invalid_eq_dec : EqDecision Invalid.
Proof. solve_decision. Defined.

Inductive Source := Source_File | Source_Generation | Source_Fresh.
#[export] Instance Source_eq_dec : EqDecision Source.
Proof. solve_decision. Defined.

Inductive Settled :=
  | Settled_Current (manifest : StateManifest) (source : Source)
  | Settled_Newer (format : N).

Record Change := mkChange {
  changed : list string; skipped : list string; ch_manifest : StateManifest;
  ch_source : Source }.

Inductive Refusal := Refusal_Protected (names : list string) | Refusal_Newer (format : N).

(** The checks of [validate] on a list that was read. *)
Definition validated (m : StateManifest) : result Invalid StateManifest :=
  if decide (STATE_VERSION < version m) then Err (Invalid_Newer (version m)) else
  if decide (version m ≠ STATE_VERSION) then Err (Invalid_UnknownVersion (version m)) else
  match find (λ package, is_identifier package = false) (packages m) with
  | Some package => Err (Invalid_Package package)
  | None =>
      match find (λ required, required ∉ packages m) REQUIRED_PACKAGES with
      | Some required => Err (Invalid_Missing required)
      | None => Ok m
      end
  end.

Section Change.
Context `{ManifestJson}.

Definition validate (raw : string) : result Invalid StateManifest :=
  match parse_manifest raw with
  | Err error => Err (Invalid_Unreadable error)
  | Ok manifest => validated manifest
  end.

Definition settle (file generation : option string) : Settled :=
  let file := validate <$> file in
  match file with
  | Some (Err (Invalid_Newer version)) => Settled_Newer version
  | _ =>
      let generation := generation ≫= (λ raw, ok (validate raw)) in
      let '(manifest, source) :=
        match file, generation with
        | Some (Ok file), Some generation =>
            if decide (file ≠ generation) then (generation, Source_Generation)
            else (file, Source_File)
        | Some (Ok file), None => (file, Source_File)
        | _, Some generation => (generation, Source_Generation)
        | _, None => (seed, Source_Fresh)
        end in
      Settled_Current manifest source
  end.

End Change.

Definition current (settled : Settled) : result N (StateManifest * Source) :=
  match settled with
  | Settled_Current manifest source => Ok (manifest, source)
  | Settled_Newer version => Err version
  end.

(** The error is [NewerList]. *)
Definition install (requested : list string) (settled : Settled) : result N Change :=
  '(settled, source) ← current settled;
  let partition := partition settled requested in
  Ok (mkChange (missing partition) (installed partition)
        (sorted (mkStateManifest (version settled) (packages settled ++ missing partition)))
        source).

Definition remove (requested : list string) (settled : Settled) : result Refusal Change :=
  match protected requested with
  | [] =>
      match current settled with
      | Err format => Err (Refusal_Newer format)
      | Ok (settled, source) =>
          let partition := partition settled requested in
          Ok (mkChange (installed partition) (missing partition)
                (sorted (without settled (installed partition))) source)
      end
  | protected => Err (Refusal_Protected protected)
  end.

(** [subject]: what an event says changed. *)
Definition subject (packages : list string) : string :=
  if decide (length packages <= 3)%nat then join ", " packages
  else digits (N.of_nat (length packages)) +:+ " packages".

(** ** Lemmas *)

Lemma elem_of_first_of_each seen l x :
  x ∈ first_of_each seen l ↔ x ∈ l ∧ x ∉ seen.
Proof.
  revert seen. induction l as [|y l IH]; intros seen; simpl; [set_solver|].
  case_decide; rewrite ?elem_of_cons, IH; [set_solver|].
  destruct (decide (x = y)); set_solver.
Qed.

Lemma NoDup_first_of_each seen l : NoDup (first_of_each seen l).
Proof.
  revert seen. induction l as [|y l IH]; intros seen; simpl; [constructor|].
  case_decide; [done|]. constructor; [|done].
  rewrite elem_of_first_of_each. set_solver.
Qed.

Lemma partition_spec m requested :
  partition m requested =
  mkPackagePartition (filter (.∈ packages m) (first_of_each ∅ requested))
    (filter (.∉ packages m) (first_of_each ∅ requested)).
Proof.
  unfold partition. generalize (first_of_each ∅ requested) as l.
  assert (∀ l p, fold_left (λ p package,
    if decide (package ∈ (list_to_set (packages m) : gset string))
    then mkPackagePartition (installed p ++ [package]) (missing p)
    else mkPackagePartition (installed p) (missing p ++ [package])) l p =
    mkPackagePartition (installed p ++ filter (.∈ packages m) l)
      (missing p ++ filter (.∉ packages m) l)) as Hfold.
  { induction l as [|x l IH]; intros p; simpl; [by rewrite !app_nil_r; destruct p|].
    rewrite IH, !filter_cons.
    destruct (decide (x ∈ (list_to_set (packages m) : gset string))) as [Hx|Hx];
      rewrite elem_of_list_to_set in Hx;
      destruct (decide (x ∈ packages m)), (decide (x ∉ packages m)); try tauto;
      simpl; by rewrite <- (assoc_L (++)). }
  intros l. apply Hfold.
Qed.

(** What a list must be to be used. *)
Record valid (m : StateManifest) : Prop := {
  valid_version : version m = STATE_VERSION;
  valid_names : ∀ p, p ∈ packages m → is_identifier p = true;
  valid_required : ∀ p, p ∈ REQUIRED_PACKAGES → p ∈ packages m;
}.

Lemma validated_Ok m m' : validated m = Ok m' ↔ m' = m ∧ valid m.
Proof.
  unfold validated. split.
  - case_decide; [done|]. case_decide; [done|].
    destruct (find _ (packages m)) eqn:Hp; [done|]. rewrite find_None in Hp.
    destruct (find _ REQUIRED_PACKAGES) eqn:Hr; [done|]. rewrite find_None in Hr.
    intros [= ->]. split; [done|]. split; [unfold STATE_VERSION in *; lia|..].
    + intros p Hin. specialize (Hp p Hin). by destruct (is_identifier p).
    + intros p Hin. by apply dec_stable, Hr.
  - intros (-> & [Hv Hn Hr]). rewrite Hv, decide_False, decide_False by (unfold STATE_VERSION; lia).
    destruct (find _ (packages m)) eqn:Hp.
    { apply find_Some in Hp as [Hin Hf]. by rewrite Hn in Hf. }
    destruct (find _ REQUIRED_PACKAGES) eqn:Hq; [|done].
    apply find_Some in Hq as [Hin Hf]. destruct Hf. by apply Hr.
Qed.

Lemma seed_valid : valid seed.
Proof.
  split; [done| |done]. intros p ->%list_elem_of_singleton. by vm_compute.
Qed.

Section Changes.
Context `{Hok : ManifestJsonOk}.

Lemma validate_rendered m : valid m → validate (render_manifest m) = Ok m.
Proof.
  intros Hv. unfold validate, parse_manifest, render_manifest.
  rewrite from_str_pretty; [by apply validated_Ok|]. rewrite (valid_version m Hv). by vm_compute.
Qed.

Lemma validate_valid raw m : validate raw = Ok m → valid m.
Proof.
  unfold validate. destruct (parse_manifest raw); [|done]. by intros [-> ?]%validated_Ok.
Qed.

(** The list [settle] picks is one that can be used, whatever was on disk. *)
Lemma settle_valid file generation m source :
  settle file generation = Settled_Current m source → valid m.
Proof.
  assert (∀ raw m, ok (validate raw) = Some m → valid m) as Hok'.
  { intros raw m'. destruct (validate raw) eqn:E; [|done]. intros [= <-].
    by eapply validate_valid. }
  assert (∀ m, generation ≫= (λ raw, ok (validate raw)) = Some m → valid m) as Hgen.
  { intros m'. destruct generation; simpl; [apply Hok'|done]. }
  unfold settle. destruct file as [file|]; simpl.
  2: { destruct (generation ≫= _) eqn:Hg; intros [= <- <-]; [by apply Hgen|apply seed_valid]. }
  destruct (validate file) as [f|[]] eqn:Hf; try done;
    destruct (generation ≫= _) eqn:Hg; try case_decide; intros [= <- <-];
    eauto using validate_valid, seed_valid.
Qed.

End Changes.

(** What [install] and [remove] answer on a usable list: a usable list in order, holding
    exactly what was there and what was asked for. *)
Lemma install_spec requested m source :
  ∃ c, install requested (Settled_Current m source) = Ok c ∧ ch_source c = source ∧
    version (ch_manifest c) = version m ∧
    StronglySorted (strict String.le) (packages (ch_manifest c)) ∧
    (∀ p, p ∈ packages (ch_manifest c) ↔ p ∈ packages m ∨ p ∈ requested) ∧
    (∀ p, p ∈ changed c ↔ p ∈ requested ∧ p ∉ packages m) ∧
    (∀ p, p ∈ skipped c ↔ p ∈ requested ∧ p ∈ packages m) ∧
    NoDup (changed c) ∧ NoDup (skipped c).
Proof.
  unfold install. simpl. rewrite partition_spec. simpl.
  eexists. split; [done|]. simpl. split; [done|]. split; [done|].
  split; [apply sorted_strings_strict|].
  assert (∀ p, p ∈ first_of_each ∅ requested ↔ p ∈ requested) as Hr
    by (intros p; rewrite elem_of_first_of_each; set_solver).
  split_and!; try (apply NoDup_filter, NoDup_first_of_each);
    intros p; rewrite ?elem_of_sorted, ?elem_of_app, !list_elem_of_filter, Hr.
  - destruct (decide (p ∈ packages m)); tauto.
  - tauto.
  - tauto.
Qed.

Lemma protected_nil requested :
  protected requested = [] ↔ ∀ p, p ∈ REQUIRED_PACKAGES → p ∉ requested.
Proof.
  unfold protected. split.
  - intros Hn p Hp Hin.
    assert (p ∈ first_of_each ∅ (filter (λ q, q ∈ REQUIRED_PACKAGES) requested)) as Hc.
    { rewrite elem_of_first_of_each, list_elem_of_filter. set_solver. }
    rewrite Hn in Hc. by apply elem_of_nil in Hc.
  - intros Hn. rewrite filter_none; [done|]. intros p Hp Hr. by apply (Hn p).
Qed.

Lemma remove_spec requested m source :
  protected requested = [] →
  ∃ c, remove requested (Settled_Current m source) = Ok c ∧ ch_source c = source ∧
    version (ch_manifest c) = version m ∧
    StronglySorted (strict String.le) (packages (ch_manifest c)) ∧
    (∀ p, p ∈ packages (ch_manifest c) ↔ p ∈ packages m ∧ p ∉ requested) ∧
    (∀ p, p ∈ changed c ↔ p ∈ requested ∧ p ∈ packages m) ∧
    (∀ p, p ∈ skipped c ↔ p ∈ requested ∧ p ∉ packages m) ∧
    NoDup (changed c) ∧ NoDup (skipped c).
Proof.
  intros Hp. unfold remove. rewrite Hp. simpl. rewrite partition_spec. simpl.
  eexists. split; [done|]. simpl. split; [done|]. split; [done|].
  split; [apply sorted_strings_strict|].
  assert (∀ p, p ∈ first_of_each ∅ requested ↔ p ∈ requested) as Hr
    by (intros p; rewrite elem_of_first_of_each; set_solver).
  split_and!; try (apply NoDup_filter, NoDup_first_of_each);
    intros p; rewrite ?elem_of_sorted, !list_elem_of_filter, ?elem_of_list_to_set,
      ?list_elem_of_filter, Hr; tauto.
Qed.

Lemma install_answer m source requested c :
  valid m → (∀ p, p ∈ requested → is_identifier p = true) →
  install requested (Settled_Current m source) = Ok c →
  valid (ch_manifest c) ∧ StronglySorted (strict String.le) (packages (ch_manifest c)) ∧
  (∀ p, p ∈ changed c ++ skipped c ↔ p ∈ requested) ∧ NoDup (changed c ++ skipped c) ∧
  (changed c = [] → ∀ p, p ∈ packages (ch_manifest c) ↔ p ∈ packages m).
Proof.
  intros [Hv Hn Hr] Hids Hc.
  destruct (install_spec requested m source)
    as (c' & Hc' & _ & Hver & Hs & Hp & Hch & Hsk & Hn1 & Hn2).
  rewrite Hc' in Hc. injection Hc as ->. split_and!; [split| | | |].
  - by rewrite Hver.
  - intros p [?|?]%Hp; auto.
  - intros p Hp'. apply Hp. auto.
  - done.
  - intros p. rewrite elem_of_app, Hch, Hsk. destruct (decide (p ∈ packages m)); tauto.
  - apply NoDup_app. split_and!; [done| |done]. intros p. rewrite Hch, Hsk. tauto.
  - intros Hnil p. specialize (Hch p). rewrite Hnil, elem_of_nil in Hch. rewrite Hp.
    destruct (decide (p ∈ packages m)); tauto.
Qed.

Lemma remove_answer m source requested c :
  valid m → remove requested (Settled_Current m source) = Ok c →
  valid (ch_manifest c) ∧ StronglySorted (strict String.le) (packages (ch_manifest c)) ∧
  (∀ p, p ∈ changed c ++ skipped c ↔ p ∈ requested) ∧ NoDup (changed c ++ skipped c) ∧
  (changed c = [] → ∀ p, p ∈ packages (ch_manifest c) ↔ p ∈ packages m).
Proof.
  intros [Hv Hn Hr] Hc.
  assert (protected requested = []) as Hprot.
  { revert Hc. unfold remove. by destruct (protected requested). }
  destruct (remove_spec requested m source Hprot)
    as (c' & Hc' & _ & Hver & Hs & Hp & Hch & Hsk & Hn1 & Hn2).
  rewrite Hc' in Hc. injection Hc as ->. split_and!; [split| | | |].
  - by rewrite Hver.
  - intros p [? _]%Hp. auto.
  - intros p Hp'. apply Hp. split; [auto|]. by apply protected_nil.
  - done.
  - intros p. rewrite elem_of_app, Hch, Hsk. destruct (decide (p ∈ packages m)); tauto.
  - apply NoDup_app. split_and!; [done| |done]. intros p. rewrite Hch, Hsk. tauto.
  - intros Hnil p. specialize (Hch p). rewrite Hnil, elem_of_nil in Hch. rewrite Hp. tauto.
Qed.

Lemma change_answer m source requested c :
  valid m → (∀ p, p ∈ requested → is_identifier p = true) →
  install requested (Settled_Current m source) = Ok c ∨
  remove requested (Settled_Current m source) = Ok c →
  valid (ch_manifest c) ∧ StronglySorted (strict String.le) (packages (ch_manifest c)) ∧
  (∀ p, p ∈ changed c ++ skipped c ↔ p ∈ requested) ∧ NoDup (changed c ++ skipped c) ∧
  (changed c = [] → ∀ p, p ∈ packages (ch_manifest c) ↔ p ∈ packages m).
Proof. intros Hm Hids [Hc|Hc]; eauto using install_answer, remove_answer. Qed.

(** A printer and a reader that satisfy [ManifestJsonOk]: the bits of a list's number. *)
#[export] Instance StateManifest_countable : Countable StateManifest.
Proof.
  apply (inj_countable' (λ m, (version m, packages m)) (λ p, mkStateManifest p.1 p.2)).
  by intros [].
Defined.

Definition bits_json : ManifestJson := {|
  to_string_pretty m := pos_bits (encode m);
  from_str s := match decode (bits_pos s) with Some m => Ok m | None => Err "" end |}.

Lemma bits_json_ok : @ManifestJsonOk bits_json.
Proof.
  split. intros m _. simpl.
  by rewrite bits_pos_bits, decode_encode.
Qed.

(** ** Properties *)

(** C34. Whatever is on disk, the list a change writes is one mix reads back and can use:
    what [install] or [remove] make of the list in force is printed, parsed and validated
    to the same list, in strict order; every name asked for is either changed or skipped,
    once, and the list holds the same packages when none changed. *)
Theorem change_stays_valid `{Hok : ManifestJsonOk} file generation m source requested c :
  settle file generation = Settled_Current m source →
  (∀ p, p ∈ requested → is_identifier p = true) →
  install requested (Settled_Current m source) = Ok c ∨
  remove requested (Settled_Current m source) = Ok c →
  validate (render_manifest (ch_manifest c)) = Ok (ch_manifest c) ∧
  StronglySorted (strict String.le) (packages (ch_manifest c)) ∧
  changed c ++ skipped c ≡ₚ first_of_each ∅ requested ∧
  (changed c = [] → ∀ p, p ∈ packages (ch_manifest c) ↔ p ∈ packages m).
Proof.
  intros Hm%settle_valid Hids Hc.
  destruct (change_answer m source requested c Hm Hids Hc) as (Hvalid & Hs & Hin & Hnd & Hsame).
  split_and!; [by apply validate_rendered|done| |done].
  apply NoDup_Permutation; [done|apply NoDup_first_of_each|].
  intros p. rewrite Hin, elem_of_first_of_each. set_solver.
Qed.

Lemma change_stays_valid_witness :
  let _ := bits_json in
  let c := mkChange ["ripgrep"] ["git"] (mkStateManifest 1 ["git"; "ripgrep"]) Source_File in
  validate (render_manifest (ch_manifest c)) = Ok (ch_manifest c) ∧
  StronglySorted (strict String.le) (packages (ch_manifest c)) ∧
  changed c ++ skipped c ≡ₚ first_of_each ∅ ["ripgrep"; "git"; "ripgrep"] ∧
  (changed c = [] → ∀ p, p ∈ packages (ch_manifest c) ↔ p ∈ packages seed).
Proof.
  intros J c.
  apply (@change_stays_valid J bits_json_ok (Some (@render_manifest J seed)) None seed
           Source_File ["ripgrep"; "git"; "ripgrep"] c).
  - vm_compute. reflexivity.
  - apply Forall_forall. by repeat constructor.
  - left. vm_compute. reflexivity.
Defined.

(** Removing what an install added gives back the list as it was, in order. *)
Lemma install_remove m source source' requested :
  valid m →
  ∃ c c', install requested (Settled_Current m source) = Ok c ∧
    remove (changed c) (Settled_Current (ch_manifest c) source') = Ok c' ∧
    ch_manifest c' = sorted m ∧ changed c' ≡ₚ changed c.
Proof.
  intros [Hv Hn Hr].
  destruct (install_spec requested m source) as (c & Hc & _ & Hver & Hs & Hp & Hch & Hsk & Hn1 & Hn2).
  assert (protected (changed c) = []) as Hprot.
  { apply protected_nil. intros p Hreq [_ Hm]%Hch. by apply Hm, Hr. }
  destruct (remove_spec (changed c) (ch_manifest c) source' Hprot)
    as (c' & Hc' & _ & Hver' & Hs' & Hp' & Hch' & _ & Hn1' & _).
  exists c, c'. split_and!; [done|done| |].
  - destruct (ch_manifest c') as [v l] eqn:Hm. unfold sorted. simpl in *.
    rewrite Hver', Hver. f_equal.
    apply strict_sorted_unique; [done|apply sorted_strings_strict|].
    intros p. rewrite Hp', Hp, Hch, elem_of_sorted.
    destruct (decide (p ∈ packages m)); tauto.
  - apply NoDup_Permutation; [done..|]. intros p. rewrite Hch', Hp, Hch. tauto.
Qed.

Lemma install_remove_witness :
  valid (mkStateManifest 1 ["git"]) ∧
  ∃ c c', install ["ripgrep"] (Settled_Current (mkStateManifest 1 ["git"]) Source_File) = Ok c ∧
    remove (changed c) (Settled_Current (ch_manifest c) Source_File) = Ok c' ∧
    ch_manifest c' = sorted (mkStateManifest 1 ["git"]) ∧ changed c' ≡ₚ changed c.
Proof.
  split; [apply seed_valid|].
  apply (install_remove (mkStateManifest 1 ["git"])). apply seed_valid.
Defined.
