(* ===== verification/Policy.v ===== *)
(** * The machine's policy

    The mirror a machine fetches through ([crates/events/src/mirror.rs]) and the policy
    file and the [nix.conf] made of it ([crates/core/src/declared/policy.rs]).

    [serde_json] on the stored form is the class [PolicyJson]; [PolicyJsonOk] states what
    the code relies on: a stored policy printed on lines of its own is read back. *)
From S2P Require Import Prelude.
From S2P Require Import Chars.

Local Open Scope N_scope.

(** ** Chars *)

(** A [char] that is control starts the string: U+0000 to U+001F and U+007F to U+009F. *)
Definition starts_control (s : string) : bool :=
  match s with
  | String a rest =>
      bool_decide (byte a < 32 ∨ byte a = 127) ||
      match rest with
      | String b _ => bool_decide (byte a = 194 ∧ 128 <= byte b <= 159)
      | "" => false
      end
  | "" => false
  end.

(** [chars().any(|c| c.is_whitespace() || c.is_control() || f(c))] for an [f] that holds of
    ASCII chars only.  No whitespace or control char starts inside another char's bytes, so
    every byte can be tried. *)
Fixpoint any_blank (f : ascii → bool) (s : string) : bool :=
  match s with
  | "" => false
  | String a rest =>
      match strip_leading s with
      | Some _ => true
      | None => starts_control s || f a || any_blank f rest
      end
  end.

(** [str::trim_end_matches] of one ASCII char. *)
Fixpoint trim_end_matches (c : ascii) (s : string) : string :=
  match s with
  | "" => ""
  | String a rest =>
      match trim_end_matches c rest with
      | "" => if Ascii.eqb a c then "" else String a ""
      | kept => String a kept
      end
  end.

(** ** [events/src/mirror.rs] *)

Inductive MirrorInvalid :=
  | MirrorInvalid_Url (url : string)
  | MirrorInvalid_Key (key : string)
  | MirrorInvalid_KeyWithoutMirror.

Record Mirror := mkMirror { mirror_url : string; mirror_key : option string }.
#[export] Instance Mirror_eq_dec : EqDecision Mirror.
Proof. solve_decision. Defined.

Definition is_mirror_url (url : string) : bool :=
  let rest :=
    match strip_prefix "https://" url with
    | Some rest => Some rest
    | None => strip_prefix "http://" url
    end in
  match rest with
  | Some rest => negb (String.eqb rest "")
  | None => false
  end && negb (any_blank (λ c, Ascii.eqb c "#" || Ascii.eqb c "034") url).

Definition is_binary_cache_key (key : string) : bool :=
  match split_once ":" key with
  | None => false
  | Some (name, material) =>
      negb (String.eqb name "") && negb (String.eqb material "") &&
      negb (string_any (λ c, Ascii.eqb c ":") material) &&
      negb (any_blank (λ c, Ascii.eqb c "#") key)
  end.

(** [map(str::trim).filter(|s| !s.is_empty())]. *)
Definition trimmed (s : option string) : option string :=
  s ← s; let s := trim s in if decide (s = "") then None else Some s.

(** [Mirror::new]. *)
Definition mirror_new (url : string) (key : option string) : result MirrorInvalid Mirror :=
  let url := trim_end_matches "/" (trim url) in
  if negb (is_mirror_url url) then Err (MirrorInvalid_Url url) else
  match trimmed key with
  | Some key =>
      if is_binary_cache_key key then Ok (mkMirror url (Some key))
      else Err (MirrorInvalid_Key key)
  | None => Ok (mkMirror url None)
  end.

(** [Mirror::given]. *)
Definition mirror_given (url key : option string) : result MirrorInvalid (option Mirror) :=
  match trimmed url, trimmed key with
  | Some url, key => Some <$> mirror_new url key
  | None, Some _ => Err MirrorInvalid_KeyWithoutMirror
  | None, None => Ok None
  end.

(** ** [core/src/declared/policy.rs] *)

Definition FORMAT : N := 1.
Definition CACHE_NIXOS_ORG_KEY : string :=
  "cache.nixos.org-1:6NCHdD59X431o0gWypbMrAURkbJ16ZPMQFGspcDShjY=".

Inductive PolicyInvalid :=
  | PolicyInvalid_Mirror (invalid : MirrorInvalid)
  | PolicyInvalid_Newer (format : N)
  | PolicyInvalid_Malformed (error : string).

Record StoredMirror := mkStoredMirror { sm_url : string; sm_key : option string }.
#[export] Instance StoredMirror_eq_dec : EqDecision StoredMirror.
Proof. solve_decision. Defined.
Record Stored := mkStored { st_format : N; st_mirror : option StoredMirror }.
#[export] Instance Stored_eq_dec : EqDecision Stored.
Proof. solve_decision. Defined.

Class PolicyJson := {
  stored_to_string_pretty : Stored → string;
  stored_from_str : string → result string Stored;
}.

Class PolicyJsonOk `{PolicyJson} := {
  stored_from_pretty : ∀ stored, st_format stored < 2 ^ 32 →
    stored_from_str (stored_to_string_pretty stored +:+ newline) = Ok stored;
}.

Record Policy := mkPolicy { policy_mirror : option Mirror; rendered : string; nix_conf : string }.
#[export] Instance Policy_eq_dec : EqDecision Policy.
Proof. solve_decision. Defined.

Definition SETTINGS : list string :=
  ["build-users-group = nixbld"; "experimental-features = nix-command flakes";
   "fsync-store-paths = true"; "trusted-users = root"].

Definition nix_conf_of (mirror : option Mirror) : string :=
  let conf := "build-users-group = nixbld" +:+ newline +:+
    "experimental-features = nix-command flakes" +:+ newline +:+
    "fsync-store-paths = true" +:+ newline +:+ "trusted-users = root" +:+ newline in
  match mirror with
  | None => conf
  | Some mirror =>
      let conf := conf +:+ "substituters = " +:+ mirror_url mirror +:+ "/cache" +:+ newline in
      match mirror_key mirror with
      | None => conf
      | Some key =>
          conf +:+ "trusted-public-keys = " +:+ CACHE_NIXOS_ORG_KEY +:+ " " +:+ key +:+ newline
      end
  end.

Section Policy.
Context `{PolicyJson}.

Definition render_policy (mirror : option Mirror) : string :=
  stored_to_string_pretty
    (mkStored FORMAT ((λ m, mkStoredMirror (mirror_url m) (mirror_key m)) <$> mirror)) +:+
  newline.

(** [Policy::with], [new] and [default]. *)
Definition policy_with (mirror : option Mirror) : Policy :=
  mkPolicy mirror (render_policy mirror) (nix_conf_of mirror).

Definition policy_new (url key : option string) : result PolicyInvalid Policy :=
  match mirror_given url key with
  | Ok mirror => Ok (policy_with mirror)
  | Err invalid => Err (PolicyInvalid_Mirror invalid)
  end.

Definition policy_default : Policy := policy_with None.

Definition policy_parse (contents : string) : result PolicyInvalid Policy :=
  match stored_from_str contents with
  | Err e => Err (PolicyInvalid_Malformed e)
  | Ok stored =>
      if decide (FORMAT < st_format stored) then Err (PolicyInvalid_Newer (st_format stored)) else
      match st_mirror stored with
      | Some mirror => policy_new (Some (sm_url mirror)) (sm_key mirror)
      | None => Ok policy_default
      end
  end.

Definition policy_load (contents : option string) : Policy :=
  default policy_default (contents ≫= (λ contents, ok (policy_parse contents))).

End Policy.

(** ** Text without blanks *)

Lemma any_blank_app f a b : any_blank f (a +:+ b) = false → any_blank f b = false.
Proof.
  induction a as [|c a IH]; [done|].
  change (any_blank f (String c (a +:+ b)) = false → any_blank f b = false).
  cbn [any_blank]. destruct (strip_leading _); [done|]. rewrite !orb_false_iff. tauto.
Qed.

Lemma any_blank_leading f s : any_blank f s = false → strip_leading s = None.
Proof. destruct s; [done|]. cbn [any_blank]. by destruct (strip_leading _). Qed.

Lemma any_blank_none f s : any_blank f s = false → string_any f s = false.
Proof.
  induction s as [|c s IH]; [done|]. cbn [any_blank string_any].
  destruct (strip_leading _); [done|]. rewrite !orb_false_iff. tauto.
Qed.

Lemma any_blank_control f s c :
  any_blank f s = false → byte c < 32 → string_any (Ascii.eqb c) s = false.
Proof.
  intros Hs Hc. induction s as [|d s IH]; [done|]. revert Hs. cbn [any_blank string_any].
  destruct (strip_leading _); [done|]. rewrite !orb_false_iff.
  intros [[Hd _] Hs]. split; [|auto]. apply Ascii.eqb_neq. intros <-.
  simpl in Hd. apply orb_false_iff in Hd as [Hd%bool_decide_eq_false _]. tauto.
Qed.

Lemma any_blank_weaken f g s :
  (∀ c, g c = true → f c = true) → any_blank f s = false → any_blank g s = false.
Proof.
  intros Hfg. induction s as [|c s IH]; [done|]. cbn [any_blank].
  destruct (strip_leading _); [done|]. rewrite !orb_false_iff. intros [[Hc Hf] Hs].
  split_and!; [done| |auto]. destruct (g c) eqn:Hg; [|done]. by rewrite Hfg in Hf.
Qed.

Lemma reversed_bytes_cons s x rest :
  reversed_bytes s = x :: rest →
  ∃ s' a, s = s' +:+ String a "" ∧ byte a = x ∧ reversed_bytes s' = rest.
Proof.
  unfold reversed_bytes. intros H. apply (f_equal reverse) in H.
  rewrite reverse_involutive, reverse_cons in H.
  apply fmap_app_inv in H as (l & k & Hl & Hk & Hs).
  destruct k as [|a [|]]; try done. injection Hk as Ha.
  exists (String.string_of_list_ascii l), a. split_and!; [|done|].
  - rewrite <- (String.string_of_list_ascii_of_string s), Hs.
    clear. induction l as [|b l IH]; [done|]. cbn. by rewrite IH.
  - rewrite String.list_ascii_of_string_of_list_ascii, <- Hl. by rewrite reverse_involutive.
Qed.

Lemma any_blank_trailing f s :
  any_blank f s = false → strip_whitespace (reversed_bytes s) = None.
Proof.
  intros Hs. destruct (reversed_bytes s) as [|x [|y [|z rest]]] eqn:Hr; [done|..];
    apply reversed_bytes_cons in Hr as (s1 & a & -> & <- & Hr).
  all: pose proof (any_blank_leading _ _ (any_blank_app _ _ _ Hs)) as Ha.
  all: cbn in Ha |- *; destruct (decide (byte a = 32 ∨ 9 <= byte a <= 13)); [done|]; try done.
  all: apply reversed_bytes_cons in Hr as (s2 & b & -> & <- & Hr).
  all: rewrite app_assoc_string, app_cons_string, app_empty_string in Hs.
  all: pose proof (any_blank_leading _ _ (any_blank_app _ _ _ Hs)) as Hb.
  all: cbn in Hb; destruct (decide (byte b = 32 ∨ 9 <= byte b <= 13)); [done|].
  all: destruct (decide (byte b = 194 ∧ (byte a = 133 ∨ byte a = 160))); [done|]; try done.
  apply reversed_bytes_cons in Hr as (s3 & c & -> & <- & Hr).
  rewrite app_assoc_string, app_cons_string, app_empty_string in Hs.
  pose proof (any_blank_leading _ _ (any_blank_app _ _ _ Hs)) as Hc.
  cbn in Hc. destruct (decide (byte c = 32 ∨ _)); [done|].
  destruct (decide (byte c = 194 ∧ _)); [done|].
  by case_decide.
Qed.

Lemma trim_id f s : any_blank f s = false → trim s = s.
Proof.
  intros Hs. unfold trim, trim_end.
  assert (trim_reversed (String.length s) (reversed_bytes s) = reversed_bytes s) as ->.
  { destruct (String.length s); [done|]. simpl. by rewrite (any_blank_trailing f s Hs). }
  assert (prefix_of_len (length (reversed_bytes s)) s = s) as ->.
  { unfold reversed_bytes. rewrite length_reverse, length_fmap.
    clear. induction s as [|a s IH]; simpl; [done|]. by rewrite IH. }
  destruct (String.length s); [done|]. simpl. by rewrite (any_blank_leading f s Hs).
Qed.

Lemma trimmed_id f s : any_blank f s = false → s ≠ "" → trimmed (Some s) = Some s.
Proof. intros Hs Hne. unfold trimmed. simpl. rewrite (trim_id f s Hs). by rewrite decide_False. Qed.

Lemma trim_end_matches_twice c s :
  trim_end_matches c (trim_end_matches c s) = trim_end_matches c s.
Proof.
  induction s as [|a s IH]; [done|]. simpl.
  destruct (trim_end_matches c s) as [|b k] eqn:Hk.
  - destruct (Ascii.eqb a c) eqn:Ha; simpl; [done|]. by rewrite Ha.
  - cbn [trim_end_matches] in IH |- *. by rewrite IH.
Qed.

(** ** Mirrors *)

(** What a mirror is once it was accepted. *)
Record mirror_ok (m : Mirror) : Prop := {
  mo_url : is_mirror_url (mirror_url m) = true;
  mo_slash : trim_end_matches "/" (mirror_url m) = mirror_url m;
  mo_key : ∀ key, mirror_key m = Some key → is_binary_cache_key key = true;
}.

Lemma mirror_new_ok url key m : mirror_new url key = Ok m → mirror_ok m.
Proof.
  unfold mirror_new.
  destruct (is_mirror_url (trim_end_matches "/" (trim url))) eqn:Hu; simpl; [|done].
  destruct (trimmed key) as [k|].
  - destruct (is_binary_cache_key k) eqn:Hk; [|done]. intros [= <-].
    split; simpl; [done|apply trim_end_matches_twice|]. by intros ? [= <-].
  - intros [= <-]. split; simpl; [done|apply trim_end_matches_twice|done].
Qed.

Lemma mirror_given_ok url key m : mirror_given url key = Ok (Some m) → mirror_ok m.
Proof.
  unfold mirror_given. destruct (trimmed url) as [u|]; [|by destruct (trimmed key)].
  destruct (mirror_new u (trimmed key)) eqn:Hm; simpl; [|done].
  intros [= <-]. by eapply mirror_new_ok.
Qed.

Lemma is_mirror_url_blank url :
  is_mirror_url url = true →
  any_blank (λ c, Ascii.eqb c "#" || Ascii.eqb c "034") url = false ∧ url ≠ "".
Proof.
  unfold is_mirror_url. rewrite andb_true_iff, negb_true_iff. intros [Hu Hb].
  split; [done|]. by intros ->.
Qed.

Lemma is_binary_cache_key_blank key :
  is_binary_cache_key key = true → any_blank (λ c, Ascii.eqb c "#") key = false ∧ key ≠ "".
Proof.
  unfold is_binary_cache_key. destruct (split_once ":" key) as [[name material]|] eqn:Hs; [|done].
  rewrite !andb_true_iff, !negb_true_iff. intros [_ Hb]. split; [done|]. by intros ->.
Qed.

(** A mirror that was accepted is accepted again as it is. *)
Lemma mirror_given_again m :
  mirror_ok m → mirror_given (Some (mirror_url m)) (mirror_key m) = Ok (Some m).
Proof.
  intros [Hu Hs Hk]. destruct (is_mirror_url_blank _ Hu) as [Hub Hune].
  destruct m as [url key]. simpl in *.
  unfold mirror_given. rewrite (trimmed_id _ _ Hub Hune).
  unfold mirror_new. rewrite (trim_id _ _ Hub), Hs, Hu. simpl.
  destruct key as [key|]; [|done]. specialize (Hk key eq_refl).
  destruct (is_binary_cache_key_blank _ Hk) as [Hkb Hkne].
  rewrite !(trimmed_id _ _ Hkb Hkne). by rewrite Hk.
Qed.

(** ** The lines of [nix.conf] *)

Definition clean (s : string) : Prop :=
  string_any (Ascii.eqb "010") s = false ∧ string_any (Ascii.eqb "013") s = false.

Lemma string_any_app f a b : string_any f (a +:+ b) = string_any f a || string_any f b.
Proof.
  induction a as [|c a IH]; [done|]. rewrite app_cons_string. simpl. by rewrite IH, orb_assoc.
Qed.

Lemma clean_app a b : clean a → clean b → clean (a +:+ b).
Proof. intros [] []. split; rewrite string_any_app; by apply orb_false_iff. Qed.

Lemma any_blank_clean f s : any_blank f s = false → clean s.
Proof. intros Hs. split; by eapply any_blank_control. Qed.

Lemma string_any_skip f n s : string_any f s = false → string_any f (skip n s) = false.
Proof.
  revert s. induction n as [|n IH]; intros [|a s]; try done. simpl.
  intros [_ Hs]%orb_false_iff. auto.
Qed.

Lemma split_on_app c a b :
  string_any (Ascii.eqb c) a = false → split_on c (a +:+ String c b) = a :: split_on c b.
Proof.
  induction a as [|d a IH].
  - intros _. rewrite app_empty_string. cbn [split_on]. by rewrite Ascii.eqb_refl.
  - cbn [string_any]. intros [Hd Ha]%orb_false_iff. rewrite app_cons_string. cbn [split_on].
    rewrite Ascii.eqb_sym in Hd. by rewrite Hd, IH.
Qed.

Lemma lines_cons a b : clean a → lines (a +:+ newline +:+ b) = a :: lines b.
Proof.
  intros [Hn Hr]. unfold lines, newline. rewrite app_cons_string, app_empty_string.
  rewrite split_on_app by done.
  assert (default a (strip_suffix (String "013" "") a) = a) as Ha.
  { unfold strip_suffix. case_decide; [|done].
    destruct (String.eqb_spec (skip (String.length a - String.length (String "013" "")) a)
      (String "013" "")) as [He|]; [|done].
    apply (string_any_skip _ (String.length a - String.length (String "013" ""))) in Hr.
    by rewrite He in Hr. }
  assert (split_on "010" b ≠ []) as Hb.
  { destruct b as [|c b]; simpl; [done|]. destruct (Ascii.eqb c "010"); [done|].
    by destruct (split_on "010" b). }
  destruct (split_on "010" b) as [|l ls]; [done|].
  cbn [lines_of]. rewrite Ha. by destruct a.
Qed.

Definition text_of (ls : list string) : string :=
  foldr (λ l acc, l +:+ newline +:+ acc) "" ls.

Lemma lines_text ls : Forall clean ls → lines (text_of ls) = ls.
Proof.
  induction 1 as [|l ls Hl _ IH]; [done|]. unfold text_of. cbn [foldr].
  rewrite lines_cons by done. by f_equal.
Qed.

(** What a mirror adds to [nix.conf]. *)
Definition mirror_settings (mirror : option Mirror) : list string :=
  match mirror with
  | None => []
  | Some m =>
      ("substituters = " +:+ mirror_url m +:+ "/cache") ::
      match mirror_key m with
      | None => []
      | Some key => ["trusted-public-keys = " +:+ CACHE_NIXOS_ORG_KEY +:+ " " +:+ key]
      end
  end.

Lemma nix_conf_text mirror : nix_conf_of mirror = text_of (SETTINGS ++ mirror_settings mirror).
Proof.
  unfold nix_conf_of, SETTINGS, mirror_settings, text_of.
  destruct mirror as [[url [key|]]|]; simpl;
    by rewrite ?app_assoc_string, ?app_nil_string.
Qed.

Lemma settings_clean mirror :
  (∀ m, mirror = Some m → mirror_ok m) → Forall clean (SETTINGS ++ mirror_settings mirror).
Proof.
  intros Hm. apply Forall_app. split; [repeat constructor|].
  destruct mirror as [[url key]|]; [|constructor].
  destruct (Hm _ eq_refl) as [Hu _ Hk]. simpl in *.
  apply is_mirror_url_blank in Hu as [Hu%any_blank_clean _].
  constructor; [by repeat apply clean_app|].
  destruct key as [key|]; [|constructor]. specialize (Hk key eq_refl).
  apply is_binary_cache_key_blank in Hk as [Hk%any_blank_clean _].
  constructor; [by repeat apply clean_app|constructor].
Qed.

Lemma policy_new_mirror `{PolicyJson} url key p :
  policy_new url key = Ok p →
  p = policy_with (policy_mirror p) ∧ ∀ m, policy_mirror p = Some m → mirror_ok m.
Proof.
  unfold policy_new. destruct (mirror_given url key) as [mirror|] eqn:Hm; [|done].
  intros [= <-]. split; [done|]. simpl. intros m ->. by eapply mirror_given_ok.
Qed.

(** A printer and a reader that satisfy [PolicyJsonOk]. *)
#[export] Instance Stored_countable : Countable Stored.
Proof.
  apply (inj_countable'
    (λ s, (st_format s, (λ m, (sm_url m, sm_key m)) <$> st_mirror s))
    (λ p, mkStored p.1 ((λ q, mkStoredMirror q.1 q.2) <$> p.2))).
  by intros [? [[]|]].
Defined.

Definition bits_policy : PolicyJson := {|
  stored_to_string_pretty s := pos_bits (encode s);
  stored_from_str s := match decode (bits_pos s) with Some s => Ok s | None => Err "" end |}.

Lemma bits_policy_ok : @PolicyJsonOk bits_policy.
Proof. split. intros s _. simpl. by rewrite bits_pos_bits, decode_encode. Qed.

(** ** Properties *)

(** C36. Nothing can be smuggled into [nix.conf] through the mirror: whatever URL and key a
    policy was made of, the lines of the file are the four fixed settings, then one
    [substituters] line and, with a key, one [trusted-public-keys] line; the URL and the
    key hold no whitespace, control char or comment sign. *)
Theorem nix_conf_lines `{PolicyJson} url key p :
  policy_new url key = Ok p →
  lines (nix_conf p) = SETTINGS ++ mirror_settings (policy_mirror p) ∧
  ∀ m, policy_mirror p = Some m →
    any_blank (λ c, Ascii.eqb c "#") (mirror_url m) = false ∧
    ∀ k, mirror_key m = Some k → any_blank (λ c, Ascii.eqb c "#") k = false.
Proof.
  intros [Hp Hm]%policy_new_mirror. split.
  - rewrite Hp. simpl. rewrite nix_conf_text. by apply lines_text, settings_clean.
  - intros m Hpm. destruct (Hm m Hpm) as [[Hu _]%is_mirror_url_blank _ Hk]. split.
    + revert Hu. apply any_blank_weaken. intros c. by rewrite orb_true_iff; left.
    + intros k Hk'. by apply is_binary_cache_key_blank, Hk.
Qed.

Lemma nix_conf_lines_witness :
  let _ := bits_policy in
  let m := mkMirror "https://mirror.internal" (Some "m:AAAA") in
  lines (nix_conf (policy_with (Some m))) = SETTINGS ++ mirror_settings (Some m) ∧
  ∀ m', Some m = Some m' →
    any_blank (λ c, Ascii.eqb c "#") (mirror_url m') = false ∧
    ∀ k, mirror_key m' = Some k → any_blank (λ c, Ascii.eqb c "#") k = false.
Proof.
  intros J m.
  apply (@nix_conf_lines J (Some " https://mirror.internal/ ") (Some "m:AAAA")).
  vm_compute. reflexivity.
Defined.

(** The policy file reads back as the policy that wrote it. *)
Lemma policy_parse_render `{PolicyJsonOk} url key p :
  policy_new url key = Ok p → policy_parse (rendered p) = Ok p.
Proof.
  intros [Hp Hm]%policy_new_mirror. rewrite Hp at 1. simpl.
  unfold policy_parse, render_policy. rewrite stored_from_pretty by by vm_compute.
  simpl. destruct (policy_mirror p) as [m|] eqn:Hpm; simpl; [|by rewrite Hp].
  unfold policy_new. rewrite mirror_given_again by auto. by rewrite Hp.
Qed.

Lemma policy_parse_render_witness :
  let _ := bits_policy in
  let p := policy_with (Some (mkMirror "https://mirror.internal" (Some "m:AAAA"))) in
  policy_parse (rendered p) = Ok p.
Proof.
  intros J p.
  apply (@policy_parse_render J bits_policy_ok (Some "https://mirror.internal//")
           (Some " m:AAAA ")).
  vm_compute. reflexivity.
Defined.
