(* ===== verification/Trace.v ===== *)
(** * What a trace tells

    [crates/core/src/report/trace/mod.rs]: what was observed and what was journaled, as the client
    is told of it when it asks for a trace.  It is told of files, not what is in them
    ([trace_keeps_contents]). *)
From S2P Require Import Prelude.
From S2P Require Import Paths.
From S2P Require Import Effect.
From S2P Require Import Journal.
From S2P Require Import Events.

Local Open Scope N_scope.

(** ** Messages *)

Definition Timestamp : Type := Z * Z.

Inductive WireQuery :=
  | Wire_Path (at_ : string) | Wire_Contents (at_ : string) | Wire_Group (name : string)
  | Wire_User (name : string) | Wire_Unit (name : string) | Wire_UnitLinks (name : string)
  | Wire_Profile (name : string) | Wire_TreeOwner (at_ : string) | Wire_Repository (at_ : string)
  | Wire_Journals (at_ : string) | Wire_Leftovers (at_ : string) | Wire_Strangers (at_ : string)
  | Wire_Clobbered (name : string) | Wire_Program (at_ : string) | Wire_Linked (name : string)
  | Wire_Accounts (all : bool).

Inductive PathKind :=
  | PathKind_Unspecified | PathKind_Missing | PathKind_Unreadable | PathKind_Directory
  | PathKind_File | PathKind_Symlink | PathKind_Other.

Record FileIdentity := mkFileIdentity { fi_dev : N; fi_ino : N; fi_born : option Timestamp }.

Record WirePathFact := mkWirePathFact {
  wp_kind : PathKind; wp_unreadable : string; wp_mode : N; wp_uid : N; wp_gid : N;
  wp_id : option FileIdentity; wp_digest : bytes; wp_changed : option Timestamp }.

Inductive WireFact :=
  | Wire_PathFact (fact : WirePathFact)
  | Wire_ContentsFact (present : bool) (length : N)
  | Wire_GroupFact (exists_ : bool) (gid : N) (members : list string)
  | Wire_UserFact (exists_ : bool) (uid gid : N) (home shell comment : string)
  | Wire_UnitFact (load_state active_state file_state : string) (needs_reload : bool)
      (active_since : option Timestamp)
  | Wire_ProfileFact (generations : list N) (active : option N) (dangling : list N)
  | Wire_TreeOwnerFact (uid : option N)
  | Wire_RepositoryFact (intact recorded : bool)
  | Wire_JournalsFact (paths : list string)
  | Wire_LeftoversFact (paths : list string)
  | Wire_StrangerFact (at_ : option string) (uid gid : N)
  | Wire_ProgramFact (same : bool)
  | Wire_ClobberedFact (paths : list string)
  | Wire_LinkedFact (paths : list string)
  | Wire_UnitLinksFact (paths : list string)
  | Wire_AccountsFact (names : list string).

Record Sequenced := mkSequenced { sq_seq : N; sq_undo : list (Operation * string) }.

Inductive WireRecord :=
  | Wire_Began (request : string) | Wire_Prepared (change : Sequenced) | Wire_Done (change : Sequenced)
  | Wire_Settled (change : Sequenced) | Wire_Failed (change : Sequenced)
  | Wire_Reverted (operation : Operation) (subject : string) | Wire_Committing | Wire_Ended.

(** ** What is said of each *)

(** [moment]. *)
Definition trace_moment (at_ : Z * N) : Timestamp :=
  (at_.1, if decide (at_.2 <= 2147483647) then Z.of_N at_.2 else 2147483647%Z).

Definition query_of (query : Query) : WireQuery :=
  match query with
  | Query_Path at_ => Wire_Path (display at_)
  | Query_Contents at_ => Wire_Contents (display at_)
  | Query_Group name => Wire_Group name
  | Query_User name => Wire_User name
  | Query_Unit name => Wire_Unit name
  | Query_UnitLinks name => Wire_UnitLinks name
  | Query_Profile user => Wire_Profile (user_name user)
  | Query_TreeOwner at_ => Wire_TreeOwner (display at_)
  | Query_Repository user => Wire_Repository (display (repository_dir (home user)))
  | Query_ActiveList user => Wire_Contents (display (active_list_path (home user)))
  | Query_ActiveLock user => Wire_Contents (display (active_lock_path (home user)))
  | Query_Journals at_ => Wire_Journals (display at_)
  | Query_Leftovers at_ => Wire_Leftovers (display at_)
  | Query_Strangers at_ _ => Wire_Strangers (display at_)
  | Query_Clobbered user => Wire_Clobbered (user_name user)
  | Query_Program at_ _ => Wire_Program (display at_)
  | Query_Linked user => Wire_Linked (user_name user)
  | Query_Accounts => Wire_Accounts true
  end.

(** [identity]. *)
Definition trace_identity (id : FileId) : FileIdentity :=
  mkFileIdentity (dev id) (ino id) (trace_moment <$> born id).

(** [path_fact]. *)
Definition trace_path_fact (facts : PathFacts) : WirePathFact :=
  let '(kind, unreadable) :=
    match pf_kind facts with
    | Kind_Missing => (PathKind_Missing, "")
    | Kind_Unreadable kind => (PathKind_Unreadable, kind_name kind)
    | Kind_Directory => (PathKind_Directory, "")
    | Kind_File => (PathKind_File, "")
    | Kind_Symlink => (PathKind_Symlink, "")
    | Kind_Other => (PathKind_Other, "")
    end in
  mkWirePathFact kind unreadable (pf_mode facts) (pf_owner facts).1 (pf_owner facts).2
    (trace_identity <$> pf_id facts) (default "" (pf_digest facts)) (trace_moment <$> pf_changed facts).

Definition fact_of (fact : Fact) : WireFact :=
  match fact with
  | Fact_Path facts => Wire_PathFact (trace_path_fact facts)
  | Fact_Contents contents =>
      Wire_ContentsFact (bool_decide (contents ≠ None))
        (from_option (λ bytes, N.of_nat (String.length bytes)) 0 contents)
  | Fact_Group (Some group) => Wire_GroupFact true (group_gid group) (members group)
  | Fact_Group None => Wire_GroupFact false 0 []
  | Fact_User (Some user) =>
      Wire_UserFact true (uf_uid user) (uf_gid user) (display (uf_home user)) (display (uf_shell user)) (uf_comment user)
  | Fact_User None => Wire_UserFact false 0 0 "" "" ""
  | Fact_Unit unit =>
      Wire_UnitFact (load_state unit) (active_state unit) (file_state unit) (needs_reload unit)
        (trace_moment <$> active_since unit)
  | Fact_Profile profile => Wire_ProfileFact (generations profile) (active profile) (dangling profile)
  | Fact_TreeOwner uid => Wire_TreeOwnerFact uid
  | Fact_Repository intact recorded => Wire_RepositoryFact intact recorded
  | Fact_Journals abandoned => Wire_JournalsFact (ab_request <$> abandoned)
  | Fact_Leftovers found => Wire_LeftoversFact (display <$> found.*1)
  | Fact_Stranger (Some (at_, (uid, gid))) => Wire_StrangerFact (Some (display at_)) uid gid
  | Fact_Stranger None => Wire_StrangerFact None 0 0
  | Fact_Program program => Wire_ProgramFact (pg_same program)
  | Fact_Clobbered found => Wire_ClobberedFact (display <$> found)
  | Fact_Linked found => Wire_LinkedFact (display <$> found.*1)
  | Fact_UnitLinks found => Wire_UnitLinksFact (display <$> found.*1)
  | Fact_Accounts found => Wire_AccountsFact found.*1
  end.

(** [observed]. *)
Definition trace_observed (queries : list Query) (facts : list Fact) : list (WireQuery * WireFact) :=
  zip_with (λ query fact, (query_of query, fact_of fact)) queries facts.

(** [journaled]. *)
Definition trace_journaled (record : JRecord) : WireRecord :=
  let sequenced seq undo := mkSequenced seq (describe <$> undo) in
  match record with
  | Record_Began request => Wire_Began request
  | Record_Prepared seq undo => Wire_Prepared (sequenced seq undo)
  | Record_Done seq => Wire_Done (sequenced seq [])
  | Record_Settled seq undo => Wire_Settled (sequenced seq undo)
  | Record_Failed seq => Wire_Failed (sequenced seq [])
  | Record_Reverted action => let '(operation, subject) := describe action in Wire_Reverted operation subject
  | Record_Committing => Wire_Committing
  | Record_Ended => Wire_Ended
  end.

(** ** What it does not tell *)

(** What is in a file, made nothing of but its length. *)
Fixpoint blank (s : bytes) : bytes := match s with "" => "" | String _ s => String "000" (blank s) end.

Definition blank_fact (fact : Fact) : Fact :=
  match fact with
  | Fact_Contents contents => Fact_Contents (blank <$> contents)
  | Fact_Program program => Fact_Program (mkProgramFacts (pg_same program) None)
  | _ => fact
  end.

Definition blank_action (a : Action) : Action :=
  match a with
  | Action_PutFile at_ _ mode owner expect => Action_PutFile at_ "" mode owner expect
  | Action_InstallUnit unit _ expect => Action_InstallUnit unit "" expect
  | _ => a
  end.

Definition blank_record (r : JRecord) : JRecord :=
  match r with
  | Record_Prepared seq undo => Record_Prepared seq (blank_action <$> undo)
  | Record_Settled seq undo => Record_Settled seq (blank_action <$> undo)
  | Record_Reverted action => Record_Reverted (blank_action action)
  | _ => r
  end.

Lemma blank_length s : String.length (blank s) = String.length s.
Proof. induction s as [|c s IH]; [done|]. simpl. by rewrite IH. Qed.

Lemma fact_blank fact : fact_of (blank_fact fact) = fact_of fact.
Proof. destruct fact as [|[contents|]| | | | | | | | | | | | | |]; try done. simpl. by rewrite blank_length. Qed.

Lemma describe_blank a : describe (blank_action a) = describe a.
Proof. by destruct a. Qed.

(** A trace is the same whatever is in the files it is about: it tells of the contents of a
    file that was read only whether there are any and how long they are, and of an action that
    writes a file only where it does. *)
Lemma trace_keeps_contents queries facts record :
  trace_observed queries (blank_fact <$> facts) = trace_observed queries facts ∧
  trace_journaled (blank_record record) = trace_journaled record.
Proof.
  split.
  - unfold trace_observed. revert facts. induction queries as [|query queries IH]; intros [|fact facts]; try done.
    simpl. by rewrite fact_blank, IH.
  - assert (Hu : ∀ undo : list Action, describe <$> (blank_action <$> undo) = describe <$> undo).
    { intros undo. rewrite <- list_fmap_compose. apply list_fmap_ext. intros. apply describe_blank. }
    destruct record; simpl; rewrite ?Hu, ?describe_blank; done.
Qed.
