(* ===== verification/Capture.v ===== *)
(** * Captures

    [crates/events/src/capture/mod.rs]: a stream of events is captured with the time of each, one
    JSON value to a line, and read back ([capture_reads_back]).

    What is captured is kept in memory, where writing cannot fail.  The JSON library is the class
    [CaptureJson], its errors their texts; [normalize] is generated when the program is built.  A
    [Duration] is its seconds and its nanoseconds, below [NANOS]. *)
From S2P Require Import Prelude.
From S2P Require Import Chars.
From S2P Require Import Paths.
From S2P Require Import Effect.
From S2P Require Import Events.
From S2P Require Import Diagnose.
From S2P Require Import Pins.
From S2P Require Import Policy.

Local Open Scope N_scope.

Definition CAPTURE_FORMAT : string := "mix.capture.v1".
Definition NANOS : N := 1000000000.
Definition i32_max : N := 2147483647.

Definition Duration : Type := N * N.
(** The messages [google.protobuf.Duration] and [Timestamp]. *)
Definition Moment : Type := Z * Z.

Record Header := mkHeader {
  hr_format : string; hr_mix_version : string; hr_request : string; hr_started : option Moment }.
Record CaptureRecord := mkCaptureRecord { cr_offset : option Moment; cr_envelope : option Envelope }.
Inductive CaptureEntry := Entry_Header (header : Header) | Entry_Record (record : CaptureRecord).
(** A [Line]. *)
Definition CaptureLine : Type := option CaptureEntry.

Class CaptureJson := {
  line_to_vec : CaptureLine → result string bytes;
  line_from_str : string → result string CaptureLine;
}.

Inductive Broken :=
  | Broken_Unreadable (line : nat) (reason : string)
  | Broken_NoHeader
  | Broken_Format (found : string)
  | Broken_SecondHeader (line : nat)
  | Broken_Incomplete (line : nat)
  | Broken_Backwards (line : nat).

Record Capture := mkCapture { cp_out : bytes; cp_last : Duration }.
Record Captured := mkCaptured { cd_header : Header; cd_envelopes : list Envelope; cd_offsets : list Duration }.

(** [<] on a [Duration], and on a pair of integers. *)
Definition earlier (a b : Duration) : bool := (a.1 <? b.1) || ((a.1 =? b.1) && (a.2 <? b.2)).
Definition moment_before (a b : Moment) : bool := ((a.1 <? b.1) || ((a.1 =? b.1) && (a.2 <? b.2)))%Z.

(** [duration]. *)
Definition duration (offset : Duration) : Moment :=
  (Z.of_N (if decide (offset.1 <= I64_MAX) then offset.1 else I64_MAX),
   Z.of_N (if decide (offset.2 <= i32_max) then offset.2 else 0)).

(** [Duration::new] of the fields of a message, each zero when it is negative. *)
Definition duration_of (at_ : Moment) : Duration :=
  let seconds := Z.to_N at_.1 in
  let nanos := Z.to_N at_.2 in
  (seconds + nanos / NANOS, nanos mod NANOS).

Section capture.
Context `{CaptureJson} (normalize : Envelope → Envelope).

(** [write]. *)
Definition write_line (out : bytes) (line : CaptureLine) : result IoError bytes :=
  match line_to_vec line with
  | Ok text => Ok (out +:+ text +:+ newline)
  | Err reason => Err (mkIoError Other reason)
  end.

Definition stamped (header : Header) : Header :=
  mkHeader CAPTURE_FORMAT (hr_mix_version header) (hr_request header) (hr_started header).

(** [Capture::start]. *)
Definition capture_start (header : Header) : result IoError Capture :=
  out ← write_line "" (Some (Entry_Header (stamped header)));
  Ok (mkCapture out (0, 0)).

(** [Capture::record]. *)
Definition capture_record (offset : Duration) (envelope : Envelope) (c : Capture)
    : result IoError unit * Capture :=
  if earlier offset (cp_last c)
  then (Err (mkIoError InvalidInput "a capture offset went back in time"), c)
  else
    match write_line (cp_out c) (Some (Entry_Record (mkCaptureRecord (Some (duration offset)) (Some envelope)))) with
    | Ok out => (Ok tt, mkCapture out offset)
    | Err e => (Err e, mkCapture (cp_out c) offset)
    end.

(** What [read] has after some lines. *)
Record Reading := mkReading {
  rd_header : option Header; rd_envelopes : list Envelope; rd_offsets : list Duration; rd_last : Moment }.

Definition read_entry (number : nat) (entry : CaptureLine) (r : Reading) : result Broken Reading :=
  match entry, rd_header r with
  | Some (Entry_Header found), None =>
      if negb (hr_format found =s CAPTURE_FORMAT) then Err (Broken_Format (hr_format found))
      else Ok (mkReading (Some found) (rd_envelopes r) (rd_offsets r) (rd_last r))
  | Some (Entry_Header _), Some _ => Err (Broken_SecondHeader number)
  | _, None => Err Broken_NoHeader
  | Some (Entry_Record record), Some _ =>
      match cr_offset record, cr_envelope record with
      | Some at_, Some envelope =>
          if moment_before at_ (rd_last r) then Err (Broken_Backwards number)
          else Ok (mkReading (rd_header r) (rd_envelopes r ++ [normalize envelope])
                     (rd_offsets r ++ [duration_of at_]) at_)
      | _, _ => Err (Broken_Incomplete number)
      end
  | None, Some _ => Err (Broken_Incomplete number)
  end.

(** The error of [BufRead::lines] for a line that is not UTF-8. *)
Definition NOT_UTF8 : string := "stream did not contain valid UTF-8".

Definition read_line (number : nat) (line : bytes) (r : Reading) : result Broken Reading :=
  match from_utf8 line with
  | None => Err (Broken_Unreadable number NOT_UTF8)
  | Some text =>
      if trim text =s "" then Ok r
      else
        match line_from_str text with
        | Err reason => Err (Broken_Unreadable number reason)
        | Ok entry => read_entry number entry r
        end
  end.

Fixpoint read_lines (index : nat) (input : list bytes) (r : Reading) : result Broken Reading :=
  match input with
  | [] => Ok r
  | line :: input => r ← read_line (index + 1) line r; read_lines (S index) input r
  end.

(** [read]. *)
Definition capture_read (input : bytes) : result Broken Captured :=
  r ← read_lines 0 (lines input) (mkReading None [] [] (0, 0)%Z);
  match rd_header r with
  | Some header => Ok (mkCaptured header (rd_envelopes r) (rd_offsets r))
  | None => Err Broken_NoHeader
  end.

(** ** What is captured is read back *)

(** What the library is asked for of a line: it reads what it writes, which is text of one line
    that is not blank. *)
Definition line_reads (line : CaptureLine) : Prop :=
  ∃ text, line_to_vec line = Ok text ∧ line_from_str text = Ok line ∧ clean text ∧
    from_utf8 text = Some text ∧ trim text ≠ "".

Definition record_line_of (e : Duration * Envelope) : CaptureLine :=
  Some (Entry_Record (mkCaptureRecord (Some (duration e.1)) (Some e.2))).

(** Recording one after the other, whether each was refused or not. *)
Definition record_next (c : Capture) (e : Duration * Envelope) : Capture := (capture_record e.1 e.2 c).2.

(** Those that are not earlier than the last one kept. *)
Fixpoint kept (last : Duration) (l : list (Duration * Envelope)) : list (Duration * Envelope) :=
  match l with
  | [] => []
  | e :: l => if earlier e.1 last then kept last l else e :: kept e.1 l
  end.

(** A time that a message can hold. *)
Definition in_range (d : Duration) : Prop := d.1 <= I64_MAX ∧ d.2 < NANOS.
#[export] Instance in_range_dec d : Decision (in_range d).
Proof. unfold in_range. apply _. Defined.

Lemma duration_back d : in_range d → duration_of (duration d) = d.
Proof.
  destruct d as [s n]. intros [Hs Hn]. unfold duration_of, duration, NANOS, i32_max in *. simpl in *.
  rewrite !decide_True by lia. rewrite !N2Z.id, N.div_small, N.mod_small by done. f_equal. lia.
Qed.

Lemma before_earlier a b : in_range a → in_range b → moment_before (duration a) (duration b) = earlier a b.
Proof.
  destruct a as [s n], b as [s' n']. intros [Hs Hn] [Hs' Hn']. unfold moment_before, earlier, duration, NANOS, i32_max in *.
  simpl in *. rewrite !decide_True by lia. apply eq_bool_prop_intro. rewrite !Is_true_true, !orb_true_iff, !andb_true_iff,
    !Z.ltb_lt, !Z.eqb_eq, !N.ltb_lt, !N.eqb_eq. lia.
Qed.

(** The text of a capture of some lines. *)
Lemma recorded last out l :
  Forall (λ e, line_reads (record_line_of e)) l →
  ∃ texts,
    cp_out (foldl record_next (mkCapture out last) l) = out +:+ text_of texts ∧ Forall clean texts ∧
    Forall2 (λ text e, line_from_str text = Ok (record_line_of e) ∧ from_utf8 text = Some text ∧ trim text ≠ "")
      texts (kept last l).
Proof.
  intros Hl. revert last out. induction Hl as [|e l He Hl IH]; intros last out.
  { exists []. split_and!; [by rewrite app_nil_string|constructor|constructor]. }
  simpl. unfold record_next at 2, capture_record. simpl. destruct (earlier e.1 last); [apply IH|].
  destruct He as (text & Hto & Hfrom & Hclean & Hutf & Htrim). unfold write_line. fold (record_line_of e). rewrite Hto. simpl.
  destruct (IH e.1 (out +:+ text +:+ newline)) as (texts & -> & Hc & Hall). exists (text :: texts). split_and!.
  - by rewrite !app_assoc_string.
  - by constructor.
  - by constructor.
Qed.

Lemma read_kept l : ∀ texts last index header envelopes offsets,
  Forall (λ e : Duration * Envelope, in_range e.1) l → in_range last →
  Forall2 (λ text e, line_from_str text = Ok (record_line_of e) ∧ from_utf8 text = Some text ∧ trim text ≠ "")
    texts (kept last l) →
  ∃ last', read_lines index texts (mkReading (Some header) envelopes offsets (duration last)) =
    Ok (mkReading (Some header) (envelopes ++ (normalize <$> (kept last l).*2)) (offsets ++ (kept last l).*1) last').
Proof.
  induction l as [|e l IH]; intros texts last index header envelopes offsets Hl Hlast Hall; simpl in *.
  { apply Forall2_nil_inv_r in Hall as ->. simpl. rewrite !app_nil_r. by eexists. }
  apply Forall_cons in Hl as [He Hl]. destruct (earlier e.1 last) eqn:Hearly; [by apply IH|].
  apply Forall2_cons_inv_r in Hall as (text & texts' & (Hfrom & Hutf & Htrim) & Hall & ->). simpl.
  unfold read_line. rewrite Hutf, Hfrom. destruct (String.eqb_spec (trim text) ""); [done|].
  unfold read_entry, record_line_of. simpl. rewrite before_earlier, Hearly by done. simpl. rewrite duration_back by done.
  destruct (IH texts' e.1 (S index) header (envelopes ++ [normalize e.2]) (offsets ++ [e.1]) Hl He Hall) as [last' ->].
  exists last'. by rewrite <- !app_assoc.
Qed.

(** C32. A capture is read back as what was captured: the header, stamped with the format, and
    in order every event that was not refused, normalized, with its time.  Those refused are
    the ones earlier than the last that was kept. *)
Theorem capture_reads_back header l :
  line_reads (Some (Entry_Header (stamped header))) → Forall (λ e, line_reads (record_line_of e)) l →
  Forall (λ e : Duration * Envelope, in_range e.1) l →
  ∃ c, capture_start header = Ok c ∧
    capture_read (cp_out (foldl record_next c l)) =
      Ok (mkCaptured (stamped header) (normalize <$> (kept (0, 0) l).*2) (kept (0, 0) l).*1).
Proof.
  intros (text & Hto & Hfrom & Hclean & Hutf & Htrim) Hl Hr. unfold capture_start, write_line. rewrite Hto. simpl.
  eexists. split; [done|]. destruct (recorded (0, 0) ("" +:+ text +:+ newline) l Hl) as (texts & -> & Hc & Hall).
  unfold capture_read. rewrite !app_assoc_string, app_empty_string.
  change (text +:+ newline +:+ text_of texts) with (text_of (text :: texts)). rewrite lines_text by by constructor.
  simpl. unfold read_line at 1. rewrite Hutf, Hfrom. destruct (String.eqb_spec (trim text) ""); [done|].
  unfold read_entry. simpl.
  destruct (read_kept l texts (0, 0) 1 (stamped header) [] [] Hr ltac:(by apply (bool_decide_unpack _); vm_compute) Hall) as [last' Hread].
  change (duration (0, 0)) with (0, 0)%Z in Hread. rewrite Hread. done.
Qed.
End capture.

(** *** Three events, one of them out of order *)

Definition an_event (n : N) : Envelope :=
  mkEnvelope n "r1" (Some (Event_NodeProgress (mkNodeProgress n None))).
Definition a_header : Header := mkHeader "" "0.1.0" "r1" (Some (1790000000, 5)%Z).
Definition attempts : list (Duration * Envelope) :=
  [((0, 5), an_event 1); ((2, 0), an_event 2); ((1, 999999999), an_event 3)].

(** A library that knows these lines. *)
Definition known_lines : list (string * CaptureLine) :=
  ("header", Some (Entry_Header (stamped a_header))) ::
  imap (λ i e, ("record " +:+ digits (N.of_nat i), record_line_of e)) attempts.
Definition line_number (line : CaptureLine) : nat :=
  match line with
  | Some (Entry_Record (mkCaptureRecord _ (Some e))) => N.to_nat (ev_seq e)
  | _ => 0
  end.
#[local] Instance known_json : CaptureJson := {
  line_to_vec line := from_option (λ l : string * CaptureLine, Ok l.1) (Err "unknown") (known_lines !! line_number line);
  line_from_str text := from_option (λ l : string * CaptureLine, Ok l.2) (Err "unknown") (find (λ l, l.1 = text) known_lines);
}.

Lemma known_reads i text line :
  known_lines !! i = Some (text, line) → line_number line = i →
  bool_decide (find (λ l, l.1 = text) known_lines = None) = false →
  snd <$> find (λ l, l.1 = text) known_lines = Some line →
  clean text → from_utf8 text = Some text → trim text ≠ "" → line_reads line.
Proof.
  intros Hi Hn _ Hf Hc Hu Ht. exists text. split_and!; try done.
  - simpl. by rewrite Hn, Hi.
  - simpl. by destruct (find _ known_lines) as [[]|]; simplify_eq/=.
Qed.

Lemma capture_reads_back_witness :
  ∃ c, capture_start a_header = Ok c ∧
    capture_read id (cp_out (foldl record_next c attempts)) =
      Ok (mkCaptured (stamped a_header) [an_event 1; an_event 2] [(0, 5); (2, 0)]).
Proof.
  apply (capture_reads_back id a_header attempts).
  - by apply (known_reads 0 "header").
  - repeat apply Forall_cons_2; [by apply (known_reads 1 "record 0")|by apply (known_reads 2 "record 1")|
      by apply (known_reads 3 "record 2")|constructor].
  - repeat apply Forall_cons_2; [by apply (bool_decide_unpack _); vm_compute..|constructor].
Defined.
