(* ===== verification/JournalFile.v ===== *)
(** * A journal file that was cut off

    What [read] makes of a journal whose last record was cut off at any byte
    ([journal_cut]), and what becomes of the records appended behind such a tail
    ([torn_poisons], [torn_char_sticks]). *)
From S2P Require Import Prelude.
From S2P Require Import Chars.
From S2P Require Import Paths.
From S2P Require Import Effect.
From S2P Require Import Journal.
From S2P Require Import Policy.
From S2P Require Import World.
From S2P Require Import Drive.
From S2P Require Import Performer.
From S2P Require Import Recovery.

Local Open Scope nat_scope.

(** ** Text in pieces *)

Lemma utf8_app want lo hi a b :
  utf8_from want lo hi a = true → utf8_from want lo hi (a +:+ b) = utf8_from 0 0 0 b.
Proof.
  revert want lo hi. induction a as [|c a IH]; intros want lo hi Ha.
  - rewrite app_empty_string. destruct want; [|done]. by destruct b.
  - rewrite app_cons_string. cbn [utf8_from] in *. destruct want as [|want].
    + destruct (utf8_lead (byte c)) as [[[w l] h]|]; [|done]. by apply IH.
    + apply andb_true_iff in Ha as [-> Ha]. by apply IH.
Qed.

Definition is_text (s : bytes) : Prop := utf8_from 0 0 0 s = true.

Lemma text_app a b : is_text a → utf8_from 0 0 0 (a +:+ b) = utf8_from 0 0 0 b.
Proof. apply utf8_app. Qed.

Lemma text_app_2 a b : is_text a → is_text b → is_text (a +:+ b).
Proof. intros Ha Hb. unfold is_text. by rewrite text_app. Qed.

Lemma prefix_split n s : ∃ t, s = prefix_of_len n s +:+ t.
Proof. exists (skip n s). by rewrite prefix_skip. Qed.

Lemma prefix_all n s : String.length s <= n → prefix_of_len n s = s.
Proof. revert s. induction n as [|n IH]; intros [|c s] Hn; simpl in *; try done; [lia|]. by rewrite IH by lia. Qed.

Lemma prefix_app_short n s t : n <= String.length s → prefix_of_len n (s +:+ t) = prefix_of_len n s.
Proof.
  revert s. induction n as [|n IH]; intros s Hn; [by destruct s, t|].
  destruct s as [|c s]; simpl in Hn; [lia|]. rewrite app_cons_string. simpl. by rewrite IH by lia.
Qed.

Lemma skip_some n s : n < String.length s → skip n s ≠ "".
Proof. revert s. induction n as [|n IH]; intros [|c s] Hn; simpl in *; try done; try lia. apply IH. lia. Qed.

Lemma clean_prefix n s : clean s → clean (prefix_of_len n s).
Proof.
  intros [H1 H2]. rewrite <- (prefix_skip n s), string_any_app in H1, H2.
  apply orb_false_iff in H1 as [H1 _], H2 as [H2 _]. by split.
Qed.

Lemma split_on_clean s : string_any (Ascii.eqb "010") s = false → split_on "010" s = [s].
Proof.
  induction s as [|c s IH]; [done|]. cbn [string_any split_on]. intros [Hc Hs]%orb_false_iff.
  rewrite IH by done. rewrite Ascii.eqb_sym in Hc. by rewrite ?Hc.
Qed.

Lemma lines_clean s : clean s → lines s = if decide (s = "") then [] else [s].
Proof. intros [Hs _]. unfold lines. rewrite split_on_clean by done. by destruct s. Qed.

(** ** Files of records *)

Section File.
Context `{RecordText}.

(** What the JSON library promises of the text of a record. *)
Record line_ok (r : JRecord) : Prop := {
  lo_reads : record_from_str (record_to_vec r) = Some r;
  lo_clean : clean (record_to_vec r);
  lo_some : record_to_vec r ≠ "";
  lo_text : is_text (record_to_vec r);
  lo_torn : ∀ s t, record_to_vec r = s +:+ t → t ≠ "" → record_from_str s = None;
}.

Definition journal_bytes (rs : list JRecord) : bytes :=
  foldr (λ r rest, record_line r +:+ rest) "" rs.

Lemma journal_bytes_text rs : Forall line_ok rs → is_text (journal_bytes rs).
Proof.
  induction 1 as [|r rs Hr _ IH]; [done|]. simpl. apply text_app_2; [|done].
  apply text_app_2; [by apply lo_text|done].
Qed.

Lemma lines_journal rs s :
  Forall line_ok rs → lines (journal_bytes rs +:+ s) = (record_to_vec <$> rs) ++ lines s.
Proof.
  induction 1 as [|r rs Hr _ IH]; [by rewrite app_empty_string|]. simpl. unfold record_line.
  rewrite !app_assoc_string, lines_cons by by apply lo_clean. by rewrite IH.
Qed.

Lemma map_while_records rs l :
  Forall line_ok rs → map_while record_from_str ((record_to_vec <$> rs) ++ l) = rs ++ map_while record_from_str l.
Proof. induction 1 as [|r rs Hr _ IH]; [done|]. cbn. rewrite (lo_reads r Hr). f_equal. apply IH. Qed.

Lemma read_after at_ rs s :
  Forall line_ok rs →
  read_journal at_ (Ok (journal_bytes rs +:+ s)) =
    if utf8_from 0 0 0 s then Ok (rs ++ map_while record_from_str (lines s))
    else Err (Failure_Io at_ InvalidData).
Proof.
  intros Hrs. unfold read_journal, from_utf8. rewrite text_app by by apply journal_bytes_text.
  destruct (utf8_from 0 0 0 s); [|done]. rewrite lines_journal by done.
  by rewrite map_while_records.
Qed.

Lemma read_torn at_ rs r n :
  Forall line_ok rs → line_ok r →
  read_journal at_ (Ok (journal_bytes rs +:+ prefix_of_len n (record_line r))) =
    if utf8_from 0 0 0 (prefix_of_len n (record_line r))
    then Ok (if decide (String.length (record_to_vec r) <= n) then rs ++ [r] else rs)
    else Err (Failure_Io at_ InvalidData).
Proof.
  intros Hrs Hr. set (torn := prefix_of_len n (record_line r)). rewrite read_after by done. destruct (utf8_from 0 0 0 torn); [|done].
  f_equal. unfold torn, record_line. case_decide as Hn.
  - f_equal. assert (map_while record_from_str (lines (record_to_vec r)) = [r]) as Hone.
    { rewrite lines_clean by by apply lo_clean. rewrite decide_False by by apply lo_some. simpl.
      by rewrite lo_reads. }
    destruct (decide (n = String.length (record_to_vec r))) as [->|Hne].
    + by rewrite prefix_app_short, prefix_all by lia.
    + rewrite prefix_all by (rewrite length_app_string; simpl; lia).
      rewrite <- (app_nil_string newline), lines_cons by by apply lo_clean. simpl.
      by rewrite lo_reads.
  - rewrite prefix_app_short by lia.
    rewrite lines_clean by (apply clean_prefix; by apply lo_clean).
    case_decide; [by rewrite app_nil_r|]. simpl.
    rewrite (lo_torn r Hr _ (skip n (record_to_vec r))); [by rewrite app_nil_r| |].
    + by rewrite prefix_skip.
    + apply skip_some. lia.
Qed.

(** C1. A journal is read back as it was written, wherever its last append was cut off: as long as
    not all of the last record is there, the records before it, and otherwise that one too.  But if
    the cut is inside a char, nothing is read. *)
Theorem journal_cut at_ rs r n :
  Forall line_ok rs → line_ok r →
  let torn := prefix_of_len n (record_line r) in
  read_journal at_ (Ok (journal_bytes rs +:+ torn)) =
    if utf8_from 0 0 0 torn
    then Ok (if decide (String.length (record_to_vec r) <= n) then rs ++ [r] else rs)
    else Err (Failure_Io at_ InvalidData).
Proof. apply read_torn. Qed.

(** C16. What is appended behind a torn record is lost.  A recovery, or the run itself when an
    append failed part of the way, appends behind the torn tail; the two become one line that is
    no record, and [read] stops there for good, so that the next recovery finds none of what was
    undone and does it all again. *)
Theorem torn_poisons at_ rs r n more :
  Forall line_ok rs → line_ok r → Forall line_ok more →
  0 < n < String.length (record_to_vec r) → is_text (prefix_of_len n (record_to_vec r)) →
  (∀ r', r' ∈ more → record_from_str (prefix_of_len n (record_to_vec r) +:+ record_to_vec r') = None) →
  read_journal at_ (Ok (journal_bytes rs +:+ prefix_of_len n (record_line r) +:+ journal_bytes more)) =
    Ok rs.
Proof.
  intros Hrs Hr Hmore Hn Ht Hglued. set (torn := prefix_of_len n (record_to_vec r)) in *.
  assert (prefix_of_len n (record_line r) = torn) as ->
    by (unfold record_line; rewrite prefix_app_short by lia; done).
  assert (Htorn : record_from_str torn = None).
  { apply (lo_torn r Hr _ (skip n (record_to_vec r))); [unfold torn; by rewrite prefix_skip|]. apply skip_some. lia. }
  assert (Hclean : clean torn) by (apply clean_prefix; by apply lo_clean).
  rewrite read_after by done. rewrite text_app by done. rewrite journal_bytes_text by done.
  f_equal. destruct Hmore as [|r' more Hr' Hmore].
  - rewrite app_nil_string, lines_clean by done. case_decide; simpl; by rewrite ?Htorn, app_nil_r.
  - simpl. unfold record_line. rewrite app_assoc_string, <- (app_assoc_string torn).
    rewrite lines_cons by (apply clean_app; [done|by apply lo_clean]). simpl.
    rewrite Hglued by by left. by rewrite app_nil_r.
Qed.

(** C17. A journal whose last line is cut off inside a char is one that is never recovered from:
    each recovery reports that it is unreadable and changes nothing, accepting its loss does not
    remove it, and it is not among the abandoned ones. *)
Theorem torn_char_sticks {W D} `{Machine W} `{JournalFiles D} adopt losing (w : W) (d : D) dir at_
    rs r n :
  Forall line_ok rs → line_ok r → utf8_from 0 0 0 (prefix_of_len n (record_line r)) = false →
  unfinished d dir = [at_] → is_unheld d at_ = true →
  read_file d at_ = Ok (journal_bytes rs +:+ prefix_of_len n (record_line r)) →
  recover_from adopt true losing dir w d =
    (w, d, mkRecovered 0 [(Action_Commit, Failure_Io at_ InvalidData)] []) ∧
  abandoned_in d dir = [].
Proof.
  intros Hrs Hr Hcut Hdir Hun Hread.
  assert (Hbad : read_journal at_ (read_file d at_) = Err (Failure_Io at_ InvalidData))
    by (rewrite Hread, read_after, Hcut; done).
  unfold recover_from, abandoned_in. rewrite Hdir. cbn. unfold recover_one. rewrite Hun, Hbad.
  split; [done|]. by destruct (file_name at_).
Qed.

End File.

(** ** At concrete files *)

Section Concrete.

Definition toy_dir : path := of_string "/journal".
Definition toy_file : path := join_path toy_dir "r.ndjson".
Definition toy_began : JRecord := Record_Began "é".

(** Three records of a journal, as lines. *)
Definition toy_to_vec (r : JRecord) : bytes :=
  match r with
  | Record_Began request => "{began:" +:+ request +:+ "}"
  | Record_Committing => "{committing}"
  | _ => "{ended}"
  end.

Definition toy_from_str (s : string) : option JRecord :=
  if decide (s = toy_to_vec Record_Committing) then Some Record_Committing
  else if decide (s = toy_to_vec Record_Ended) then Some Record_Ended
  else if decide (s = toy_to_vec toy_began) then Some toy_began
  else None.

Local Instance toy_text : RecordText := {| record_to_vec := toy_to_vec; record_from_str := toy_from_str |}.

Lemma cuts_torn {A} (f : string → option A) v :
  forallb (λ n, if f (prefix_of_len n v) is Some _ then false else true) (seq 0 (String.length v)) = true →
  ∀ s t, v = s +:+ t → t ≠ "" → f s = None.
Proof.
  intros Hall s t -> Ht. rewrite forallb_forall in Hall.
  specialize (Hall (String.length s)). rewrite prefix_app_short, prefix_all in Hall by lia.
  destruct (f s); [|done]. discriminate Hall. apply in_seq.
  rewrite length_app_string. destruct t; [done|]. simpl. lia.
Qed.

Lemma toy_ok r : r = toy_began ∨ r = Record_Committing ∨ r = Record_Ended → line_ok r.
Proof. intros [-> | [-> | ->]]; (split; [done|by split|done|done|by apply cuts_torn]). Qed.

Lemma journal_cut_witness :
  read_journal toy_file (Ok (journal_bytes [toy_began] +:+ prefix_of_len 5 (record_line Record_Ended))) =
    Ok [toy_began] ∧
  read_journal toy_file (Ok (journal_bytes [Record_Committing] +:+ prefix_of_len 8 (record_line toy_began))) =
    Err (Failure_Io toy_file InvalidData).
Proof.
  assert (Hb : Forall line_ok [toy_began]) by (constructor; [apply toy_ok; auto|constructor]).
  assert (Hc : Forall line_ok [Record_Committing]) by (constructor; [apply toy_ok; auto|constructor]).
  split; [exact (journal_cut toy_file [toy_began] Record_Ended 5 Hb (toy_ok Record_Ended ltac:(auto)))|].
  exact (journal_cut toy_file [Record_Committing] toy_began 8 Hc (toy_ok toy_began ltac:(auto))).
Defined.

(** Two appends after a torn one. *)
Lemma torn_poisons_witness :
  read_journal toy_file (Ok (journal_bytes [toy_began] +:+ prefix_of_len 5 (record_line Record_Committing) +:+
    journal_bytes [Record_Committing; Record_Ended])) = Ok [toy_began].
Proof.
  apply torn_poisons.
  - constructor; [apply toy_ok; auto|constructor].
  - apply toy_ok; auto.
  - constructor; [apply toy_ok; auto|]. constructor; [apply toy_ok; auto|constructor].
  - simpl. lia.
  - done.
  - intros r' [-> | [-> | []%elem_of_nil]%elem_of_cons]%elem_of_cons; done.
Defined.

(** A directory of one journal. *)
Local Instance one_journal : JournalFiles bytes := {|
  entries _ _ := [toy_file]; is_unheld _ _ := true;
  read_file raw _ := Ok raw; open_append _ _ := Ok tt;
  append_file raw _ more := (Ok tt, raw +:+ more); remove_file _ _ := (Ok tt, "");
|}.

Lemma torn_char_sticks_witness :
  let raw := journal_bytes [Record_Committing] +:+ prefix_of_len 8 (record_line toy_began) in
  recover_from (λ w _, (Ok tt, w)) true true toy_dir tt raw =
    (tt, raw, mkRecovered 0 [(Action_Commit, Failure_Io toy_file InvalidData)] []) ∧
  abandoned_in raw toy_dir = [].
Proof.
  intros raw.
  apply (torn_char_sticks (λ w _, (Ok tt, w)) true tt raw toy_dir toy_file
    [Record_Committing] toy_began 8);
    [constructor; [apply toy_ok; auto|constructor]|apply toy_ok; auto|done|done|done|done].
Defined.

End Concrete.
