(* ===== verification/Crash.v ===== *)
(** * A crash is recovered from

    The run of [Atomic] and the recovery of [Recovery] together, through the journal's
    file: wherever a run that is going forward is cut off, the next process takes the world
    back to where the run began ([crash_recovers]). *)
From S2P Require Import Prelude.
From S2P Require Import Chars.
From S2P Require Import Paths.
From S2P Require Import Effect.
From S2P Require Import Journal.
From S2P Require Import Runner.
From S2P Require Import RunnerSafe.
From S2P Require Import RunnerSpec.
From S2P Require Import RunnerStory.
From S2P Require Import World.
From S2P Require Import Apply.
From S2P Require Import WorldUndo.
From S2P Require Import Undone.
From S2P Require Import Drive.
From S2P Require Import Performer.
From S2P Require Import Atomic.
From S2P Require Import Recovery.
From S2P Require Import JournalFile.

Local Open Scope nat_scope.

#[local] Abbreviation no_syncs := (Forall (λ b, is_sync b = false)).

(** ** Performing undos without faults *)

Section performs.
Context (crash : Modelled → Performing Modelled).
#[local] Instance performs_machine : Machine Modelled := modelled_machine crash.

(** A performer none of whose actions will fail, with [w] before it. *)
Record steady (w : World) (m : Modelled) : Prop := {
  sd_faults : md_faults m = None;
  sd_world : lock_model m = w;
}.

Lemma steady_performs w m action o m' :
  steady w m → perform_quietly (modelled_perform crash m action) = (o, m') →
  (∃ failure, Apply.apply action w = (Err failure, (Apply.apply action w).2) ∧ o = Err failure ∧ steady w m') ∨
  (∃ undo w', Apply.apply action w = (Ok undo, w') ∧ o = Ok (mkPerformed undo) ∧ steady w' m').
Proof.
  intros [Hf Hw]. unfold modelled_perform. rewrite Hf. simpl.
  set (m1 := mkModelled (md_world m) None (md_acting m) (md_stops m)).
  assert (Hl1 : lock_model m1 = w) by by rewrite <- Hw.
  assert (Hl2 : lock_model (with_world (lock_model m1) m1) = w) by by rewrite lock_again.
  rewrite Hl1 in *. destruct (Apply.apply action w) as [[undo|failure] w'] eqn:Ha; simpl.
  - rewrite Hl2, Ha. simpl. intros [= <- <-]. right. exists undo, w'. split; [done|]. split; [done|].
    split; [done|]. apply lock_after. by rewrite (apply_acting _ _ _ _ Ha), Hl2.
  - intros [= <- <-]. left. exists failure. by split_and!.
Qed.

Context {D : Type} (progress : Modelled * D → JRecord → result Failure unit * (Modelled * D)).
(** Every append succeeds, and touches nothing but the journal. *)
Hypothesis Hprogress : ∀ s r, ∃ d, progress s r = (Ok tt, (s.1, d)).

#[local] Abbreviation performs := (performs_beside (D := D)).

Lemma performs_steady w s action :
  steady w s.1 →
  (∃ failure s', Apply.apply action w = (Err failure, (Apply.apply action w).2) ∧
     performs s action = (Err failure, s') ∧ steady w s'.1) ∨
  (∃ undo w' s', Apply.apply action w = (Ok undo, w') ∧
     performs s action = (Ok (mkPerformed undo), s') ∧ steady w' s'.1).
Proof.
  intros Hs. unfold performs_beside.
  change (perform s.1 action false) with (modelled_perform crash s.1 action).
  destruct (perform_quietly _) as [o m'] eqn:Hp.
  apply (steady_performs w) in Hp as [(f & Ha & -> & Hm)|(u & w' & Ha & -> & Hm)]; [..|done].
  - left. by eexists f, _.
  - right. by eexists u, w', _.
Qed.

(** What idles on [w] leaves it as it is. *)
Lemma uncertain_idle w u s r w1 :
  Forall (idles w) u → like w1 w → steady w1 s.1 →
  ∃ s' w2, undo_uncertain performs progress u s r = (true, s', r) ∧ like w2 w ∧ steady w2 s'.1.
Proof.
  intros Hu. revert s w1. induction Hu as [|a u Ha _ IH]; intros s w1 Hl Hs; simpl; [by eexists _, _|].
  specialize (Ha _ Hl).
  destruct (performs_steady _ _ a Hs) as [(f & s' & _ & -> & Hs')|(un & w' & s' & Happ & -> & Hs')].
  - by apply (IH s' w1).
  - rewrite Happ in Ha. destruct (Hprogress s' (Record_Reverted a)) as [d ->]. by apply (IH _ w').
Qed.

Lemma ran_cons a u w w3 :
  run_all (a :: u) w = (Ok tt, w3) → ∃ un w', Apply.apply a w = (Ok un, w') ∧ run_all u w' = (Ok tt, w3).
Proof.
  simpl. unfold mbind, st_bind. destruct (Apply.apply a w) as [[un|f] w']; [|done].
  intros Hr. by exists un, w'.
Qed.

Lemma uncertain_runs u s r w w3 :
  run_all u w = (Ok tt, w3) → steady w s.1 →
  ∃ s', undo_uncertain performs progress u s r = (true, s', r) ∧ steady w3 s'.1.
Proof.
  revert s w. induction u as [|a u IH]; intros s w Hr Hs; [injection Hr as <-; by exists s|].
  apply ran_cons in Hr as (un & w' & Happ & Hr). simpl.
  destruct (performs_steady _ _ a Hs) as [(f & s' & Ha & _)|(un' & w1 & s' & Ha & -> & Hs')];
    rewrite Happ in Ha; [done|]. injection Ha as <- <-.
  destruct (Hprogress s' (Record_Reverted a)) as [d ->]. by apply (IH _ w').
Qed.

Lemma certain_runs u s r w w3 :
  run_all u w = (Ok tt, w3) → steady w s.1 →
  ∃ s', undo_certain performs progress u s r = (s', r) ∧ steady w3 s'.1.
Proof.
  revert s w. induction u as [|a u IH]; intros s w Hr Hs; [injection Hr as <-; by exists s|].
  apply ran_cons in Hr as (un & w' & Happ & Hr). simpl.
  destruct (performs_steady _ _ a Hs) as [(f & s' & Ha & _)|(un' & w1 & s' & Ha & -> & Hs')];
    rewrite Happ in Ha; [done|]. injection Ha as <- <-.
  destruct (Hprogress s' (Record_Reverted a)) as [d ->]. by apply (IH _ w').
Qed.

End performs.

(** ** Recovering *)

Section recovers.
Context {D : Type} (crash : Modelled → Performing Modelled).
#[local] Instance recovers_machine : Machine Modelled := modelled_machine crash.
Context (progress : Modelled * D → JRecord → result Failure unit * (Modelled * D)).
Hypothesis Hprogress : ∀ s r, ∃ d, progress s r = (Ok tt, (s.1, d)).
Context (adopt : Modelled * D → list path → result Failure unit * (Modelled * D)).

#[local] Abbreviation recovering := (recover_records (performs_beside (D := D)) adopt progress).

(** The two loops, whether there is something for them or not. *)
Lemma recover_loops request cs s r s1 s2 :
  undo_uncertain (performs_beside (D := D)) progress (uncertain_of ((doubts_from 0 cs).*2)) s r = (true, s1, r) →
  undo_certain (performs_beside (D := D)) progress (rollback_order ((landed_from 0 cs).*2)) s1 r = (s2, r) →
  recovering (log request cs) s r = (true, s2, r).
Proof.
  intros Hu Hc. unfold recover_records, log. rewrite recover_written. case_decide as He.
  - destruct He as [Hu0 Hc0]. rewrite Hu0 in Hu. rewrite Hc0 in Hc. simplify_eq/=. by rewrite bool_decide_true.
  - rewrite Hu, Hc. by rewrite bool_decide_true.
Qed.

Lemma certain_restores w0 u w s r w1 :
  restores w0 u w → like w1 w → steady w1 s.1 →
  ∃ s' w3, undo_certain (performs_beside (D := D)) progress u s r = (s', r) ∧ like w3 w0 ∧ steady w3 s'.1.
Proof.
  intros Hr Hl Hs. destruct (Hr _ Hl) as (w3 & Hrun & Hl3).
  destruct (certain_runs crash progress Hprogress u s r w1 w3 Hrun Hs) as (s' & Hc & Hs').
  by exists s', w3.
Qed.

(** What is in doubt was not done, or is what the world's last change is undone by; the rest
    leads back. *)
Lemma recover_restores request cs w0 w1 w s r doubt owed :
  (doubts_from 0 cs).*2 = doubt → Forall no_syncs doubt →
  (landed_from 0 cs).*2 = owed → Forall no_syncs owed →
  restores w0 (concat (reverse owed)) w → steady w1 s.1 →
  (Forall (idles w) (concat (reverse doubt)) ∧ w1 = w) ∨ restores w (concat (reverse doubt)) w1 →
  length doubt <= 1 →
  ∃ s' w3, recovering (log request cs) s r = (true, s', r) ∧ like w3 w0 ∧ steady w3 s'.1.
Proof.
  intros Hd Hds Ho Hos Hback Hs Hdoubt Hone.
  assert (Huncertain : uncertain_of doubt = concat (reverse doubt)).
  { destruct doubt as [|u [|]]; [done| |simpl in Hone; lia]. unfold uncertain_of. simpl.
    rewrite rollback_order_no_sync by done. simpl. by rewrite !app_nil_r. }
  assert (Hmid : ∃ s1 w2, undo_uncertain (performs_beside (D := D)) progress (uncertain_of doubt) s r = (true, s1, r) ∧
    like w2 w ∧ steady w2 s1.1).
  { rewrite Huncertain. destruct Hdoubt as [[Hidle ->]|Hr].
    - by apply (uncertain_idle crash progress Hprogress w _ s r w).
    - destruct (Hr w1) as (w2 & Hrun & Hl2); [reflexivity|].
      destruct (uncertain_runs crash progress Hprogress _ s r w1 w2 Hrun Hs) as (s1 & Hu & Hs1).
      by exists s1, w2. }
  destruct Hmid as (s1 & w2 & Hu & Hl2 & Hs1).
  destruct (certain_restores w0 (concat (reverse owed)) w s1 r w2) as (s2 & w3 & Hc & Hl3 & Hs2); [done..|].
  exists s2, w3. split; [|done]. apply (recover_loops request cs s r s1).
  - by rewrite Hd.
  - rewrite Ho. by rewrite rollback_order_no_sync.
Qed.

End recovers.

(** ** Where a run is cut off *)

Section crash.
Context {J : Type} `{JournalStore J}.
#[local] Abbreviation MDrive := (Drive (W := Modelled) (J := J)).

(** The journal and the world of a run that asked for [next], at each moment until it asks for
    something again: before an action's undo is noted, after that, after the change, and after
    that is noted too. *)
Inductive interrupted (next : Next) (d : MDrive) : list JRecord → World → Prop :=
  | interrupted_asking : interrupted next d (contents (dr_journal d)) (world_of d)
  | interrupted_announced action undo w' :
      next = Next_Perform action → Apply.apply action (world_of d) = (Ok undo, w') →
      interrupted next d (contents (dr_journal d) ++ [Record_Prepared (dr_seq d) undo]) (world_of d)
  | interrupted_changed action undo w' :
      next = Next_Perform action → Apply.apply action (world_of d) = (Ok undo, w') →
      interrupted next d (contents (dr_journal d) ++ [Record_Prepared (dr_seq d) undo]) w'
  | interrupted_done action undo w' :
      next = Next_Perform action → Apply.apply action (world_of d) = (Ok undo, w') →
      interrupted next d
        (contents (dr_journal d) ++ [Record_Prepared (dr_seq d) undo; Record_Done (dr_seq d)]) w'.

(** What the recovery of such a journal has before it. *)
Record recoverable (request : string) (w0 : World) (records : list JRecord) (w1 : World) : Prop := {
  rc_found : ∃ cs doubt owed w,
    records = log request cs ∧
    (doubts_from 0 cs).*2 = doubt ∧ Forall no_syncs doubt ∧ length doubt <= 1 ∧
    (landed_from 0 cs).*2 = owed ∧ Forall no_syncs owed ∧
    restores w0 (concat (reverse owed)) w ∧
    ((Forall (idles w) (concat (reverse doubt)) ∧ w1 = w) ∨ restores w (concat (reverse doubt)) w1);
}.

Lemma interrupted_recoverable request w0 next d records w1 :
  asked request next d → placed w0 next d → stage (dr_runner d) = Going →
  (∀ action, next = Next_Perform action → forward d action) → next_unused (world_of d) →
  interrupted next d records w1 → recoverable request w0 records w1.
Proof.
  intros [Hi _ _ Hk] Hp Hg Hfw Hnew Hcut.
  destruct Hk as [cs _ Hc Hseq Hdf Hd Hl _ _ _ _ _| | |]; try congruence.
  destruct Hp as [_ [Hok Hback Hplain _]|? Hg' _ _|Hg' _|Hg' _ _]; try congruence.
  assert (Hlen : length (journal (dr_runner d)) = length (steps (dr_runner d))).
  { apply (invariant_length _ (dr_tree d)); [done|..]; unfold stage in Hg; by destruct (phase (dr_runner d)). }
  rewrite all_owed_back in Hback by done.
  assert (Hall : Forall no_syncs (concat (journal (dr_runner d)))) by by apply Forall_concat.
  assert (Hact : ∀ action undo w', next = Next_Perform action → Apply.apply action (world_of d) = (Ok undo, w') →
    no_syncs undo ∧ Forall (idles (world_of d)) undo ∧ restores (world_of d) undo w').
  { intros action undo w' -> Happ. destruct (Hfw action eq_refl Hg) as [Hu _].
    split; [by eapply undo_no_sync|]. split; [by eapply undo_idle|].
    by eapply undo_restores. }
  assert (Hmore : ∀ c, contents (dr_journal d) ++ written (dr_seq d) c = log request (cs ++ [c])).
  { intros c. rewrite Hc. unfold log. by rewrite written_from_snoc, Hseq. }
  split. destruct Hcut as [|action u w' Hn Happ|action u w' Hn Happ|action u w' Hn Happ];
    try (destruct (Hact _ _ _ Hn Happ) as (Hs & Hidle & Hr)).
  - exists cs, [], (concat (journal (dr_runner d))), (world_of d). split_and!; try done; try (simpl; lia).
    + by rewrite Hdf.
    + left. by split; [constructor|].
  - exists (cs ++ [Broken [u]]), [u], (concat (journal (dr_runner d))), (world_of d).
    split_and!; try done; try (simpl; lia).
    + by rewrite <- Hmore.
    + by rewrite doubts_from_snoc, Hdf.
    + by apply Forall_singleton.
    + by rewrite landed_from_snoc, Hl, app_nil_r.
    + left. split; [|done]. simpl. by rewrite app_nil_r.
  - exists (cs ++ [Broken [u]]), [u], (concat (journal (dr_runner d))), (world_of d).
    split_and!; try done; try (simpl; lia).
    + by rewrite <- Hmore.
    + by rewrite doubts_from_snoc, Hdf.
    + by apply Forall_singleton.
    + by rewrite landed_from_snoc, Hl, app_nil_r.
    + right. simpl. by rewrite app_nil_r.
  - exists (cs ++ [Landed [u] u]), [], (concat (journal (dr_runner d)) ++ [u]), w'.
    split_and!; try done; try (simpl; lia).
    + rewrite <- Hmore. simpl. by rewrite decide_True.
    + by rewrite doubts_from_snoc, Hdf.
    + by rewrite landed_from_snoc, Hl.
    + apply Forall_app_2; [done|]. by apply Forall_singleton.
    + rewrite reverse_app. simpl. by eapply restores_app.
    + left. by split; [constructor|].
Qed.
End crash.

(** ** From the journal's file *)

(** Nothing is wrong with the file of a journal. *)
Record writable {D} `{JournalFiles D} (at_ : path) : Prop := {
  wr_open (f : D) : open_append f at_ = Ok tt;
  wr_append (f : D) bs : ∃ f', append_file f at_ bs = (Ok tt, f');
  wr_remove (f : D) : ∃ f', remove_file f at_ = (Ok tt, f');
}.
Arguments writable _ {_} _.

Lemma recoverable_recovers {D} `{JournalFiles D} `{RecordText} crash adopt request w0 records w1
    (m : Modelled) (f : D) at_ losing r :
  recoverable request w0 records w1 → steady w1 m → writable D at_ → is_unheld f at_ = true →
  read_journal at_ (read_file f at_) = Ok records →
  ∃ m' f1 f',
    recover_one (H0 := modelled_machine crash) adopt true losing at_ m f r = (m', f', count_request r) ∧
    remove_file f1 at_ = (Ok tt, f') ∧ like (lock_model m') w0.
Proof.
  intros [(cs & doubt & owed & w & -> & Hd & Hds & Hone & Ho & Hos & Hback & Hdoubt)] Hs [Hopen Happend Hremove]
    Hun Hread.
  unfold recover_one. rewrite Hun, Hread. simpl negb. cbv iota beta. rewrite Hopen. unfold log at 1.
  destruct (recover_restores crash (resumed_append at_)
    ltac:(intros s rec; unfold resumed_append; destruct (Happend s.2 (record_line rec)) as [f' ->]; by exists f')
    (adopts_beside adopt) request cs w0 w1 w (m, f) (count_request r) doubt owed)
    as ([m2 f2] & w3 & Hrec & Hl & Hs3); try done.
  change (Record_Began request :: written_from 0 cs) with (log request cs).
  unfold recovers_machine in Hrec. rewrite Hrec. destruct (Hremove f2) as [f3 Hr]. rewrite Hr.
  exists m2, f2, f3. split; [done|]. split; [done|].
  assert (Hw := sd_world _ _ Hs3). simpl in Hw. by rewrite Hw.
Qed.

Lemma locked_world_eq m m0 : like (lock_model m) (lock_model m0) → world_eq (md_world m) (md_world m0).
Proof.
  intros Hl%like_world_eq. unfold world_eq, lock_model in *.
  by destruct (md_acting m), (md_acting m0).
Qed.


(** ** Witness *)

(** The second directory of [two_drive] is there, but that is not noted to the end. *)
Definition cut_action : Action := Action_CreateDir (of_string "/etc/b") 493 None.
Definition cut_undo : list Action :=
  [Action_RemoveCreated (of_string "/etc/b") (mkFileId 1 9 (Some (9%Z, 0%N)))].
Definition cut_before : list JRecord :=
  [Record_Began "r"; Record_Prepared 0 [Action_DeleteGroup "a" 7]; Record_Done 0].
Definition cut_records : list JRecord := cut_before ++ [Record_Prepared 1 cut_undo].
Definition cut_torn : JRecord := Record_Done 1.

(** Each of these records by its number. *)
Definition cut_to_vec (r : JRecord) : bytes :=
  "{" +:+ match list_find (λ x, x = r) (cut_records ++ [cut_torn]) with
          | Some (i, _) => digits (N.of_nat i)
          | None => "?"
          end +:+ "}".
Definition cut_from_str (s : string) : option JRecord :=
  snd <$> list_find (λ x, cut_to_vec x = s) (cut_records ++ [cut_torn]).
#[local] Instance cut_text : RecordText := {| record_to_vec := cut_to_vec; record_from_str := cut_from_str |}.

Lemma cut_ok r : r ∈ cut_records ++ [cut_torn] → line_ok r.
Proof.
  intros Hr. repeat (apply elem_of_cons in Hr as [->|Hr]; [
    split; [by vm_compute|by split; vm_compute|by vm_compute|by vm_compute|by apply cuts_torn; vm_compute]|]).
  by apply elem_of_nil in Hr.
Qed.

Definition next_unused_b (w : World) : bool :=
  forallb (λ e : path * FileEntry, bool_decide (ino (fe_id e.2) < next_ino w)%N) (map_to_list (files w)).

Lemma next_unused_b_ok w : next_unused_b w = true → next_unused w.
Proof.
  intros Hall p e He. unfold next_unused_b in Hall. rewrite forallb_forall in Hall.
  apply elem_of_map_to_list, list_elem_of_In in He. by apply Hall, bool_decide_eq_true in He.
Qed.

Definition cut_check (o : option (Next * Drive (W := Modelled) (J := list JRecord))) : bool :=
  match o with
  | Some (next, d) =>
      bool_decide (next = Next_Perform cut_action) && bool_decide (dr_journal d = cut_before) &&
      bool_decide (dr_seq d = 1%N) && bool_decide (stage (dr_runner d) = Going) &&
      next_unused_b (world_of d) && bool_decide ((Apply.apply cut_action (world_of d)).1 = Ok cut_undo)
  | None => false
  end.

Lemma cut_reached :
  ∃ d w1, two_moment 3 = Some (Next_Perform cut_action, d) ∧ dr_journal d = cut_before ∧ dr_seq d = 1%N ∧
    stage (dr_runner d) = Going ∧ next_unused (world_of d) ∧
    Apply.apply cut_action (world_of d) = (Ok cut_undo, w1).
Proof.
  assert (Hc : cut_check (two_moment 3) = true) by (vm_compute; reflexivity).
  destruct (two_moment 3) as [[next d]|]; [|done]. unfold cut_check in Hc.
  apply andb_true_iff in Hc as [Hc Ha%bool_decide_eq_true]. apply andb_true_iff in Hc as [Hc Hn].
  apply andb_true_iff in Hc as [Hc Hg%bool_decide_eq_true]. apply andb_true_iff in Hc as [Hc Hs%bool_decide_eq_true].
  apply andb_true_iff in Hc as [Hx%bool_decide_eq_true Hj%bool_decide_eq_true].
  exists d, (Apply.apply cut_action (world_of d)).2. rewrite Hx, <- Ha. split_and!; try done.
  - by apply next_unused_b_ok.
  - by destruct (Apply.apply _ _).
Qed.

#[local] Existing Instance two_machine.

Lemma two_moment_reaches n next d :
  two_moment n = Some (next, d) → reaches no_trace no_record true two_drive next d.
Proof.
  revert next d. induction n as [|n IH]; intros next d; simpl; [apply reaches_first|].
  intros ([next' d'] & Hm & Hd)%bind_Some.
  destruct (drive_answer _ _ _ next' d') as [d1|] eqn:Ha; [|done].
  eapply reaches_then; [by apply IH|done..].
Qed.

#[local] Existing Instance one_journal.

Lemma one_writable : writable bytes toy_file.
Proof. split; [done|by eexists|by eexists]. Qed.

