(* ===== verification/Declared.v ===== *)
(** * Declared targets

    What a machine should hold ([crates/core/src/declared/targets.rs]): the kinds of
    target, what each is called, and the modes a path may have; with the rest of the names
    of [identity.rs] and [paths.rs] the declared tree is made of.

    [&'static str] paths are strings, turned into paths where the code turns them.  A
    [u32] is an [N] below 2^32; [!x] is its complement in 32 bits.  [UserRef] is the user it
    refers to. *)
From S2P Require Import Prelude.
From S2P Require Import Chars.
From S2P Require Import Paths.
From S2P Require Import Effect.
From S2P Require Import Events.
From S2P Require Import Pins.
From S2P Require Import Policy.

Local Open Scope N_scope.

(** ** [declared/identity.rs] *)

Definition NIXBLD_GROUP : string := "nixbld".
Definition NIXBLD_GID : N := 30000.
Definition NIXBLD_USER_COUNT : N := 32.
Definition NIXBLD_UID_BASE : N := 30000.
Definition NIXBLD_HOME : string := "/var/empty".
Definition NIXBLD_SHELL : string := "/usr/sbin/nologin".
Definition MIX_USERS_GROUP : string := "mix-users".
Definition MIX_USERS_GID : N := 30100.

(** [user_name]: a name of the table, or the same text made on the spot. *)
Definition build_user_name (n : N) : string := NIXBLD_GROUP +:+ digits n.

(** ** [declared/paths.rs] *)

Definition NIX_TREE_MODE : N := 493.
Definition NIX_TREE_PATHS : list string :=
  ["/nix/var"; "/nix/var/log"; "/nix/var/log/nix"; "/nix/var/log/nix/drvs"; "/nix/var/nix";
   "/nix/var/nix/db"; "/nix/var/nix/gcroots"; "/nix/var/nix/gcroots/per-user";
   "/nix/var/nix/profiles"; "/nix/var/nix/profiles/per-user"; "/nix/var/nix/temproots";
   "/nix/var/nix/userpool"; "/nix/var/nix/daemon-socket"].
Definition NIX_DAEMON_SERVICE_UNIT : string := "nix-daemon.service".
Definition NIX_DAEMON_SOCKET_UNIT : string := "nix-daemon.socket".
Definition NIX_DAEMON_SERVICE_DEST : string := "/etc/systemd/system/nix-daemon.service".
Definition NIX_DAEMON_SOCKET_DEST : string := "/etc/systemd/system/nix-daemon.socket".
Definition NIX_OWNERSHIP_MARKER : string := "/nix/.mix-managed".
Definition NIX_PROVISIONING_MANIFEST : string := "/nix/.mix-provisioning-manifest".
Definition NIX_CONF_DEST : string := "/etc/nix/nix.conf".
Definition PROFILE_SNIPPET_DEST : string := "/etc/profile.d/mix-nix.sh".
Definition POLICY_FILE : string := "/etc/mix/policy.json".
Definition LOCK_FILE : string := "/var/lib/mix/lock".
Definition JOURNAL_DIR : string := "/var/lib/mix/journal".
Definition JOURNAL_DIR_MODE : N := 448.
Definition RUNNING_PROGRAM : string := "/proc/self/exe".
Definition MIX_VAR_DIR : string := "/var/lib/mix".
Definition MIX_BIN_DIR : string := "/var/lib/mix/bin".
Definition MIX_DAEMON_BIN : string := "/var/lib/mix/bin/mix-daemon".
Definition MIX_DAEMON_BIN_MODE : N := 493.
Definition MIX_VAR_DIR_MODE : N := 493.
Definition MIX_DAEMON_SOCKET_UNIT : string := "mix-daemon.socket".
Definition MIX_DAEMON_SERVICE_UNIT : string := "mix-daemon.service".
Definition MIX_DAEMON_SOCKET_DEST : string := "/etc/systemd/system/mix-daemon.socket".
Definition MIX_DAEMON_SERVICE_DEST : string := "/etc/systemd/system/mix-daemon.service".
Definition NIX_ENTRIES : list string :=
  ["/nix/store"; "/nix/var"; NIX_OWNERSHIP_MARKER; NIX_PROVISIONING_MANIFEST].
Definition INSTALLED_PROGRAMS : list string :=
  ["/usr/local/bin/mix"; "/usr/local/bin/mix-daemon"].
Definition MIX_STATE_DIR_MODE : N := 448.
Definition NIX_PROFILES_DIR_MODE : N := 493.
Definition REPOSITORY_CONFIG_CONTENTS : string :=
"[core]
	repositoryformatversion = 0
	filemode = true
	bare = false
".
Definition GITIGNORE_CONTENTS : string :=
"# Managed by mix -- do not edit, changes are overwritten.
/*
!/.gitignore
!/flake.lock
!/flake.nix
!/home.nix
!/state
".

(** ** [declared/targets.rs] *)

Definition MIX_DAEMON_SOCKET : string :=
"[Unit]
Description=mix daemon socket

[Socket]
ListenStream=/run/mix/daemon.sock
SocketMode=0666
DirectoryMode=0755
RemoveOnStop=yes

[Install]
WantedBy=sockets.target
".

Definition MIX_DAEMON_SERVICE : string :=
"[Unit]
Description=mix daemon
Requires=mix-daemon.socket
After=mix-daemon.socket nix-daemon.socket

[Service]
Type=notify
ExecStart=/var/lib/mix/bin/mix-daemon serve
KillMode=mixed
TimeoutStopSec=infinity
Restart=on-failure
RestartForceExitStatus=75
SuccessExitStatus=75
OOMPolicy=continue
ProtectSystem=yes
PrivateTmp=yes
PrivateDevices=yes
ProtectKernelTunables=yes
ProtectKernelModules=yes
ProtectKernelLogs=yes
ProtectControlGroups=yes
ProtectClock=yes
LockPersonality=yes
NoNewPrivileges=yes

[Install]
WantedBy=multi-user.target
".

Definition PROFILE_SNIPPET : string :=
"# Managed by mix -- do not edit, changes are overwritten and will trip `mix doctor`.
if [ -e '/nix/var/nix/profiles/default/etc/profile.d/nix-daemon.sh' ]; then
    . '/nix/var/nix/profiles/default/etc/profile.d/nix-daemon.sh'
fi
".

Record Runtime := mkRuntime { rt_url : string; rt_sha256 : Digest; rt_size : N }.
#[export] Instance Runtime_eq_dec : EqDecision Runtime.
Proof. solve_decision. Defined.

Inductive Reach := Reach_Machine | Reach_User.
#[export] Instance Reach_eq_dec : EqDecision Reach.
Proof. solve_decision. Defined.

Record UserConfig := mkUserConfig {
  uc_user : InvokingUser; uc_pins : Pins LockedInput; uc_flake : string; uc_lock : string;
  uc_home : string; uc_restored_state : option string }.

Record Intent := mkIntent {
  it_policy : Policy; it_user : option UserConfig; it_reach : Reach;
  it_runtime : option Runtime; it_activating : option (Verb * string);
  it_retention : option bool; it_tidy : bool }.

(** [Intent::machine] and [Intent::user]. *)
Definition intent_machine (user : option UserConfig) (policy : Policy) : Intent :=
  mkIntent policy user Reach_Machine None None None true.
Definition intent_user (user : UserConfig) (policy : Policy) : Intent :=
  mkIntent policy (Some user) Reach_User None None None false.

Inductive Category :=
  | Category_Filesystem | Category_Identity | Category_Services | Category_Configuration.
#[export] Instance Category_eq_dec : EqDecision Category.
Proof. solve_decision. Defined.

(** [Category::label]. *)
Definition category_label (c : Category) : string :=
  match c with
  | Category_Filesystem => "Filesystem"
  | Category_Identity => "Identity/Users"
  | Category_Services => "Services"
  | Category_Configuration => "Configuration"
  end.

Definition ROOT : option Owner := Some (0, 0).

Inductive Mode := Mode_Exact (bits : N) | Mode_AtLeast (bits : N).
#[export] Instance Mode_eq_dec : EqDecision Mode.
Proof. solve_decision. Defined.

Definition SYSTEM_FILE : Mode := Mode_AtLeast 420.
Definition USER_FILE : Mode := Mode_AtLeast 384.
Definition WRITABLE_BY_OTHERS : N := 18.

(** [Mode::bits]. *)
Definition mode_bits (m : Mode) : N := match m with Mode_Exact b | Mode_AtLeast b => b end.

(** [!x] on a [u32]. *)
Definition not_u32 (x : N) : N := N.lnot x 32.

Definition owned_by_root (owner : option Owner) : bool :=
  match owner with Some (uid, _) => uid =? 0 | None => false end.

(** [Mode::settled]. *)
Definition settled (m : Mode) (found : N) (owner : option Owner) : N :=
  match m with
  | Mode_Exact mode => mode
  | Mode_AtLeast bits =>
      let foreign :=
        if owned_by_root owner then N.land WRITABLE_BY_OTHERS (not_u32 bits) else 0 in
      N.land (N.lor found bits) (not_u32 foreign)
  end.

Inductive UnitSource := UnitSource_File (at_ : string) | UnitSource_Text (text : string).
#[export] Instance UnitSource_eq_dec : EqDecision UnitSource.
Proof. solve_decision. Defined.

Inductive Target :=
  | Target_Precondition (at_ : path)
  | Target_Link (at_ : path)
  | Target_Parent (at_ : path) (mode : Mode) (owner : option Owner)
  | Target_Directory (at_ : path) (mode : Mode) (owner : option Owner)
  | Target_File (at_ : path) (expected : option string) (mode : Mode) (owner : option Owner)
  | Target_SeededFile (at_ : path) (seed : string) (mode : Mode) (owner : option Owner)
  | Target_Group (name : string) (gid : N)
  | Target_GroupMember (group : string) (user : string)
  | Target_User (n uid gid : N)
  | Target_SystemdUnit (name : string) (src : UnitSource) (dest : string)
  | Target_UnitActive (name : string)
  | Target_PathExists (name at_ : string) (install : option Runtime)
  | Target_Repository (at_ : path) (user : InvokingUser)
  | Target_History (at_ : path) (user : InvokingUser)
  | Target_Program (at_ source : string) (mode : Mode)
  | Target_Journals (at_ : string)
  | Target_Leftovers (dir : path) (journals : string)
  | Target_Generations (at_ : path) (user : InvokingUser)
  | Target_HomeFiles (at_ : path) (user : InvokingUser)
  | Target_Activation (at_ : path) (user : InvokingUser) (verb : option Verb)
      (subject : string) (pins : Pins LockedInput)
  | Target_Retention (at_ : path) (user : InvokingUser) (collect : bool).
#[export] Instance Target_eq_dec : EqDecision Target.
Proof. solve_decision. Defined.

Definition HISTORY : string := " history".
Definition LEFTOVERS : string := " leftovers".
Definition IN_THE_WAY : string := " files in the way".
Definition PROFILE : string := " profile".
Definition OLD_GENERATIONS : string := " old generations".
Definition ACTIVATION : string := " activation".

(** [text]: what is not UTF-8 is replaced. *)
Definition text (at_ : path) : string := from_utf8_lossy (display at_).

Definition suffixed (at_ : path) (suffix : string) : string := text at_ +:+ suffix.

(** [Target::label]. *)
Definition label (t : Target) : string :=
  match t with
  | Target_Precondition at_ | Target_Link at_ | Target_Parent at_ _ _
  | Target_Directory at_ _ _ | Target_File at_ _ _ _ | Target_SeededFile at_ _ _ _ =>
      text at_
  | Target_Group name _ => name
  | Target_GroupMember _ user => user
  | Target_User n _ _ => build_user_name n
  | Target_SystemdUnit name _ _ => name
  | Target_UnitActive name => name +:+ ACTIVATION
  | Target_PathExists name _ _ => name
  | Target_History at_ _ => suffixed at_ HISTORY
  | Target_HomeFiles at_ _ => suffixed at_ IN_THE_WAY
  | Target_Leftovers dir _ => suffixed dir LEFTOVERS
  | Target_Activation at_ _ _ _ _ => suffixed at_ PROFILE
  | Target_Retention at_ _ _ => suffixed at_ OLD_GENERATIONS
  | Target_Repository at_ _ | Target_Generations at_ _ => text at_
  | Target_Program at_ _ _ | Target_Journals at_ => at_
  end.

Definition is_configuration (at_ : path) : bool :=
  existsb (String.eqb (display at_)) [NIX_CONF_DEST; POLICY_FILE; PROFILE_SNIPPET_DEST].

(** [Target::category]. *)
Definition category (t : Target) : Category :=
  match t with
  | Target_Precondition _ | Target_Link _ | Target_Parent _ _ _ | Target_Directory _ _ _ =>
      Category_Filesystem
  | Target_File at_ _ _ _ =>
      if is_configuration at_ then Category_Configuration else Category_Filesystem
  | Target_SeededFile _ _ _ _ => Category_Filesystem
  | Target_Group _ _ | Target_GroupMember _ _ | Target_User _ _ _ => Category_Identity
  | Target_SystemdUnit _ _ _ | Target_UnitActive _ => Category_Services
  | Target_PathExists _ _ _ | Target_Repository _ _ | Target_History _ _
  | Target_Journals _ | Target_Leftovers _ _ | Target_HomeFiles _ _ => Category_Filesystem
  | Target_Program _ _ _ => Category_Services
  | Target_Generations _ _ | Target_Activation _ _ _ _ _ | Target_Retention _ _ _ =>
      Category_Configuration
  end.

(** [Target::writes]. *)
Definition writes (t : Target) : bool :=
  match t with
  | Target_Parent _ _ _ | Target_Directory _ _ _ | Target_File _ _ _ _
  | Target_SeededFile _ _ _ _ | Target_SystemdUnit _ _ _ | Target_Program _ _ _
  | Target_Repository _ _ => true
  | _ => false
  end.

(** ** Modes *)

Lemma testbit_u32 x i : x < 2 ^ 32 → 32 <= i → N.testbit x i = false.
Proof.
  intros Hx Hi. rewrite <- (N.mod_small x (2 ^ 32)) by done. by apply N.mod_pow2_bits_high.
Qed.

Lemma u32_testbit x : (∀ i, 32 <= i → N.testbit x i = false) → x < 2 ^ 32.
Proof.
  intros Hx. destruct (N.eq_dec x 0) as [->|Hne]; [done|].
  apply N.log2_lt_pow2; [lia|]. destruct (N.lt_ge_cases (N.log2 x) 32) as [|Hge]; [done|].
  specialize (Hx _ Hge). by rewrite N.bit_log2 in Hx.
Qed.

Lemma settled_testbit bits found owner i :
  found < 2 ^ 32 → bits < 2 ^ 32 →
  N.testbit (settled (Mode_AtLeast bits) found owner) i =
  N.testbit bits i ||
  N.testbit found i && negb (owned_by_root owner && N.testbit WRITABLE_BY_OTHERS i).
Proof.
  intros Hf Hb. unfold settled, not_u32.
  rewrite N.land_spec, N.lor_spec. destruct (N.lt_ge_cases i 32) as [Hi|Hi].
  - rewrite N.lnot_spec_low by done. destruct (owned_by_root owner).
    + rewrite N.land_spec, N.lnot_spec_low by done.
      by destruct (N.testbit found i), (N.testbit bits i), (N.testbit WRITABLE_BY_OTHERS i).
    + rewrite N.bits_0. by destruct (N.testbit found i), (N.testbit bits i).
  - by rewrite (testbit_u32 found), (testbit_u32 bits).
Qed.

Lemma settled_u32 m found owner :
  found < 2 ^ 32 → mode_bits m < 2 ^ 32 → settled m found owner < 2 ^ 32.
Proof.
  destruct m as [|bits]; [done|]. intros Hf Hb. apply u32_testbit. intros i Hi.
  rewrite settled_testbit by done. by rewrite (testbit_u32 found), (testbit_u32 bits).
Qed.

(** C37. What [settled] answers is a mode that needs no settling, fits in its 32 bits, has
    every bit that was asked for, gives away no bit that was neither found nor asked for,
    and on a path of root's lets others write only where that was asked for. *)
Theorem settled_stays m found owner :
  found < 2 ^ 32 → mode_bits m < 2 ^ 32 →
  let mode := settled m found owner in
  mode < 2 ^ 32 ∧
  settled m mode owner = mode ∧
  N.land mode (mode_bits m) = mode_bits m ∧
  N.land mode (N.lor found (mode_bits m)) = mode ∧
  (owned_by_root owner = true →
   N.land mode WRITABLE_BY_OTHERS = N.land (mode_bits m) WRITABLE_BY_OTHERS).
Proof.
  intros Hf Hb. pose proof (settled_u32 m found owner Hf Hb) as Hw. intros mode.
  split; [done|]. unfold mode in *. clear mode. destruct m as [bits|bits].
  { simpl. split_and!; [done|apply N.land_diag| |done].
    apply N.bits_inj. intros i. rewrite N.land_spec, N.lor_spec.
    by destruct (N.testbit found i), (N.testbit bits i). }
  split_and!; [..|intros Ho]; apply N.bits_inj; intros i; cbn [mode_bits] in *;
    rewrite ?N.land_spec, ?N.lor_spec, !settled_testbit by done; try rewrite Ho;
    by destruct (N.testbit found i), (N.testbit bits i), (owned_by_root owner),
      (N.testbit WRITABLE_BY_OTHERS i).
Qed.

(** A world-writable system file of root's. *)
Lemma settled_stays_witness :
  let mode := settled SYSTEM_FILE 438 ROOT in
  mode < 2 ^ 32 ∧
  settled SYSTEM_FILE mode ROOT = mode ∧
  N.land mode (mode_bits SYSTEM_FILE) = mode_bits SYSTEM_FILE ∧
  N.land mode (N.lor 438 (mode_bits SYSTEM_FILE)) = mode ∧
  (owned_by_root ROOT = true →
   N.land mode WRITABLE_BY_OTHERS = N.land (mode_bits SYSTEM_FILE) WRITABLE_BY_OTHERS).
Proof. by apply (settled_stays SYSTEM_FILE 438 ROOT). Defined.
