(* ===== verification/DeclTree.v ===== *)
(** * The declared tree

    [crates/core/src/declared/tree/mod.rs]: a builder collects targets on nodes, places the
    nodes under one another by their paths, and lists the checks of the tree in the order
    they can run.

    A [Handle] is the index it wraps.  [None] is a panic (an index past the end of a
    vector); where a loop has fuel it is also running out of it, which the theorems of
    [DeclTreeSpec] rule out.  A stack has its top at the head of the list. *)
From S2P Require Import Prelude.
From S2P Require Import Paths.
From S2P Require Import Declared.

Local Open Scope nat_scope.

Abbreviation Handle := nat (only parsing).

Inductive CheckPhase := Phase_Down | Phase_Up.
#[export] Instance CheckPhase_eq_dec : EqDecision CheckPhase.
Proof. solve_decision. Defined.

Record Check := mkCheck {
  ck_target : Target; ck_phase : CheckPhase; ck_after : list nat; ck_within : nat * nat }.

(** [Check::alone] and [waits_on]. *)
Definition check_alone (target : Target) : Check := mkCheck target Phase_Down [] (0, 0).
Definition waits_on (c : Check) : list nat :=
  ck_after c ++ seq (ck_within c).1 ((ck_within c).2 - (ck_within c).1).

(** ** Drafts *)

Record Draft := mkDraft {
  d_down : option Target; d_up : list Target; d_refers : list Handle;
  d_up_refers : list Handle; d_parent : option Handle; d_children : list Handle;
  d_path : option path }.

Definition draft_new (down : option Target) (at_ : option path) : Draft :=
  mkDraft down [] [] [] None [] at_.

Definition set_down (x : option Target) (d : Draft) : Draft :=
  mkDraft x (d_up d) (d_refers d) (d_up_refers d) (d_parent d) (d_children d) (d_path d).
Definition set_up (x : list Target) (d : Draft) : Draft :=
  mkDraft (d_down d) x (d_refers d) (d_up_refers d) (d_parent d) (d_children d) (d_path d).
Definition set_refers (x : list Handle) (d : Draft) : Draft :=
  mkDraft (d_down d) (d_up d) x (d_up_refers d) (d_parent d) (d_children d) (d_path d).
Definition set_up_refers (x : list Handle) (d : Draft) : Draft :=
  mkDraft (d_down d) (d_up d) (d_refers d) x (d_parent d) (d_children d) (d_path d).
Definition set_parent (x : option Handle) (d : Draft) : Draft :=
  mkDraft (d_down d) (d_up d) (d_refers d) (d_up_refers d) x (d_children d) (d_path d).
Definition set_children (x : list Handle) (d : Draft) : Draft :=
  mkDraft (d_down d) (d_up d) (d_refers d) (d_up_refers d) (d_parent d) x (d_path d).

(** [self.drafts[h.0]] changed in place. *)
Definition change_draft (h : Handle) (f : Draft → Draft) (ds : list Draft) :
    option (list Draft) :=
  d ← ds !! h; Some (<[h := f d]> ds).

(** A [for] loop whose body may panic. *)
Fixpoint each {S A} (f : A → S → option S) (l : list A) (s : S) : option S :=
  match l with
  | [] => Some s
  | x :: l => s ← f x s; each f l s
  end.

(** ** The builder *)

Record Builder := mkBuilder {
  drafts : list Draft; placed : gmap path Handle; b_leftovers : option string }.

Definition MACHINE : Handle := 0.
Definition ACCOUNTS : Handle := 1.
Definition ROOT_NODE : Handle := 2.
Definition SLASH : path := [RootDir].

Definition builder_new (leftovers : option string) : Builder :=
  mkBuilder
    [draft_new None None; set_parent (Some MACHINE) (draft_new None None);
     set_parent (Some MACHINE) (draft_new None (Some SLASH))]
    {[SLASH := ROOT_NODE]} leftovers.

(** The methods on [&mut self]. *)
Definition Build (X : Type) : Type := Builder → option (X * Builder).

#[export] Instance build_ret : MRet Build := λ X x b, Some (x, b).
#[export] Instance build_bind : MBind Build :=
  λ X Y f m b, match m b with Some (x, b) => f x b | None => None end.

Definition push_draft (d : Draft) : Build Handle := λ b,
  Some (length (drafts b), mkBuilder (drafts b ++ [d]) (placed b) (b_leftovers b)).

Definition on_draft (h : Handle) (f : Draft → Draft) : Build unit := λ b,
  ds ← change_draft h f (drafts b); Some (tt, mkBuilder ds (placed b) (b_leftovers b)).

Definition place_at (at_ : path) (h : Handle) : Build unit := λ b,
  Some (tt, mkBuilder (drafts b) (<[at_ := h]> (placed b)) (b_leftovers b)).

Definition found_at (at_ : path) : Build (option Handle) := λ b, Some (placed b !! at_, b).

(** [Builder::path], [place], [account], [up], [refers] and [up_refers]. *)
Definition add_path (at_ : path) (down : Target) : Build Handle :=
  found ← found_at at_;
  match found with
  | Some found =>
      _ ← on_draft found (λ d,
        match d_down d with None => set_down (Some down) d | Some _ => d end);
      mret found
  | None =>
      handle ← push_draft (draft_new (Some down) (Some at_));
      _ ← place_at at_ handle;
      mret handle
  end.

Definition add_place (at_ : path) : Build Handle :=
  found ← found_at at_;
  match found with
  | Some found => mret found
  | None =>
      handle ← push_draft (draft_new None (Some at_));
      _ ← place_at at_ handle;
      mret handle
  end.

Definition add_account (parent : option Handle) (down : Target) : Build Handle :=
  push_draft (set_parent (Some (default ACCOUNTS parent)) (draft_new (Some down) None)).

Definition add_up (at_ : Handle) (check : Target) : Build unit :=
  on_draft at_ (λ d, set_up (d_up d ++ [check]) d).
Definition add_refers (from to : Handle) : Build unit :=
  on_draft from (λ d, set_refers (d_refers d ++ [to]) d).
Definition add_up_refers (from to : Handle) : Build unit :=
  on_draft from (λ d, set_up_refers (d_up_refers d ++ [to]) d).

(** ** Linking *)

(** The nearest place above a path. *)
Definition nearest_above (m : gmap path Handle) (at_ : path) : Handle :=
  default ROOT_NODE (find_map (λ a, m !! a) (drop 1 (ancestors at_))).

(** A [BTreeMap]'s entries, in the order of its keys. *)
Definition in_path_order (m : gmap path Handle) : list (path * Handle) :=
  omap (λ p, (p,.) <$> m !! p) (merge_sort path_le ((map_to_list m).*1)).

Definition set_parents (m : gmap path Handle) (ds : list Draft) : option (list Draft) :=
  each (λ '(at_, handle), change_draft handle (set_parent (Some (nearest_above m at_))))
    (filter (λ e, e.2 ≠ ROOT_NODE) (in_path_order m)) ds.

Definition push_child (index : nat) (ds : list Draft) : option (list Draft) :=
  d ← ds !! index;
  match d_parent d with
  | Some parent => change_draft parent (λ d, set_children (d_children d ++ [index]) d) ds
  | None => Some ds
  end.

(** The order of siblings: by path, a node without one first, then by handle. *)
Definition sibling_le (ds : list Draft) (left right : Handle) : Prop :=
  match ds !! left ≫= d_path, ds !! right ≫= d_path with
  | None, None => left ≤ right
  | None, Some _ => True
  | Some _, None => False
  | Some p, Some q => if decide (p = q) then left ≤ right else path_le p q
  end.
#[export] Instance sibling_le_dec ds : RelDecision (sibling_le ds).
Proof.
  intros l r. unfold sibling_le.
  destruct (ds !! l ≫= d_path), (ds !! r ≫= d_path); [|apply _..].
  destruct (decide _); apply _.
Defined.

Definition sort_children (index : nat) (ds : list Draft) : option (list Draft) :=
  if decide (index = MACHINE ∨ index = ROOT_NODE) then Some ds
  else change_draft index (λ d, set_children (merge_sort (sibling_le ds) (d_children d)) d) ds.

(** The nodes from one up to the machine's. *)
Fixpoint line_fuel (n : nat) (ds : list Draft) (node : Handle) : option (list Handle) :=
  match n with
  | 0 => None
  | S n =>
      d ← ds !! node;
      match d_parent d with
      | None => Some [node]
      | Some parent => cons node <$> line_fuel n ds parent
      end
  end.
Definition line (ds : list Draft) (node : Handle) : option (list Handle) :=
  line_fuel (S (length ds)) ds node.

Definition before_in (l : list Handle) (i : nat) : option Handle :=
  match i with 0 => None | S i => l !! i end.

(** [children.remove(second)] and [children.insert(first, moved)]. *)
Definition move_before (first second : nat) (l : list Handle) : list Handle :=
  match l !! second with
  | Some moved =>
      let rest := remove_at second l in take first rest ++ moved :: drop first rest
  | None => l
  end.

(** One turn of the loop of [put_referred_first]. *)
Definition put_first (reference : Handle * Handle) (ds : list Draft) : option (list Draft) :=
  let '(from, to) := reference in
  from_line ← line ds from;
  to_line ← line ds to;
  match list_find (λ ancestor, ancestor ∈ to_line) from_line with
  | None => Some ds
  | Some (at_, ancestor) =>
      let below := position (λ node, node = ancestor) to_line in
      match before_in from_line at_, below ≫= before_in to_line with
      | Some from_child, Some to_child =>
          d ← ds !! ancestor;
          let children := d_children d in
          match position (λ child, child = from_child) children,
                position (λ child, child = to_child) children with
          | Some first, Some second =>
              if decide (first < second)
              then Some (<[ancestor := set_children (move_before first second children) d]> ds)
              else Some ds
          | _, _ => Some ds
          end
      | _, _ => Some ds
      end
  end.

Definition references (ds : list Draft) : list (Handle * Handle) :=
  concat (imap (λ index d, (index,.) <$> (d_refers d ++ d_up_refers d)) ds).

Definition put_referred_first (ds : list Draft) : option (list Draft) :=
  each put_first (references ds) ds.

Definition link (m : gmap path Handle) (ds : list Draft) : option (list Draft) :=
  ds ← set_parents m ds;
  ds ← each push_child (seq 1 (length ds - 1)) ds;
  ds ← each sort_children (seq 0 (length ds)) ds;
  put_referred_first ds.

Definition mark_node (journals : string) (index : nat) (ds : list Draft) :
    option (list Draft) :=
  d ← ds !! index;
  downs ← mapM (λ child, d_down <$> ds !! child) (d_children d);
  match existsb (λ down, match down with Some t => writes t | None => false end) downs,
        d_path d with
  | true, Some dir =>
      Some (<[index := set_up (d_up d ++ [Target_Leftovers dir journals]) d]> ds)
  | _, _ => Some ds
  end.

Definition mark_leftovers (leftovers : option string) (ds : list Draft) : option (list Draft) :=
  match leftovers with
  | None => Some ds
  | Some journals => each (mark_node journals) (seq 0 (length ds)) ds
  end.

(** ** Listing the checks *)

(** The checks of nodes that have one so far. *)
Abbreviation DownAt := (list (option nat)) (only parsing).

Definition resolved (down_at : DownAt) (handles : list Handle) : option (list nat) :=
  omap id <$> mapM (λ target, down_at !! target) handles.

Fixpoint nearest_from (n : nat) (ds : list Draft) (down_at : DownAt) (at_ : option Handle) :
    option (option nat) :=
  match at_ with
  | None => Some None
  | Some parent =>
      match n with
      | 0 => None
      | S n =>
          found ← down_at !! parent;
          match found with
          | Some index => Some (Some index)
          | None => d ← ds !! parent; nearest_from n ds down_at (d_parent d)
          end
      end
  end.

Definition nearest_down (ds : list Draft) (node : Handle) (down_at : DownAt) :
    option (option nat) :=
  d ← ds !! node; nearest_from (length ds) ds down_at (d_parent d).

Record Walk := mkWalk {
  w_drafts : list Draft; w_down_at : DownAt; w_checks : list Check;
  w_stack : list (Handle * option nat) }.

(** A node popped without [opened]: its own check, then its children before its ups. *)
Definition visit_down (node : Handle) (w : Walk) : option Walk :=
  let opened := length (w_checks w) in
  d ← w_drafts w !! node;
  let stack := ((λ child, (child, None)) <$> d_children d) ++ (node, Some opened) :: w_stack w in
  match d_down d with
  | None => Some (mkWalk (w_drafts w) (w_down_at w) (w_checks w) stack)
  | Some target =>
      nearest ← nearest_down (w_drafts w) node (w_down_at w);
      refers ← resolved (w_down_at w) (d_refers d);
      Some (mkWalk (<[node := set_down None d]> (w_drafts w))
        (<[node := Some opened]> (w_down_at w))
        (w_checks w ++ [mkCheck target Phase_Down (option_list nearest ++ refers) (0, 0)])
        stack)
  end.

Definition push_ups (opened : nat) (after : list nat) (ups : list Target)
    (checks : list Check) : list Check :=
  fold_left (λ checks target,
    checks ++ [mkCheck target Phase_Up after (opened, length checks)]) ups checks.

(** A node popped again: all its children are listed. *)
Definition visit_up (node : Handle) (opened : nat) (w : Walk) : option Walk :=
  d ← w_drafts w !! node;
  refers ← resolved (w_down_at w) (d_refers d);
  up_refers ← resolved (w_down_at w) (d_up_refers d);
  Some (mkWalk (<[node := set_up [] d]> (w_drafts w)) (w_down_at w)
    (push_ups opened (refers ++ up_refers) (d_up d) (w_checks w)) (w_stack w)).

Definition visit (entry : Handle * option nat) (w : Walk) : option Walk :=
  match entry with
  | (node, Some opened) => visit_up node opened w
  | (node, None) => visit_down node w
  end.

Fixpoint walk (n : nat) (w : Walk) : option (list Check) :=
  match w_stack w with
  | [] => Some (w_checks w)
  | entry :: stack =>
      match n with
      | 0 => None
      | S n => w ← visit entry (mkWalk (w_drafts w) (w_down_at w) (w_checks w) stack); walk n w
      end
  end.

(** [Builder::finish]: the checks of the tree. *)
Definition finish (b : Builder) : option (list Check) :=
  ds ← link (placed b) (drafts b);
  ds ← mark_leftovers (b_leftovers b) ds;
  walk (2 * length ds) (mkWalk ds (replicate (length ds) None) [] [(MACHINE, None)]).
