(* ===== verification/DeclTreeLink.v ===== *)
(** * Linking the declared tree

    What the methods of a [Builder] keep true ([wf]) and what [link] makes of it: a tree,
    whose nodes hang under the nearest place above them, and no handle out of range.

    [Linked] is what the walk of [finish] needs; sorting siblings and putting the referred
    first only permute children ([similar]), so they keep it. *)
From S2P Require Import Prelude.
From S2P Require Import Paths.
From S2P Require Import Declared.
From S2P Require Import DeclTree.

Local Open Scope nat_scope.

(** ** Loops *)

Lemma each_split {S A} (f : A → S → option S) (l : list A) (P : list A → S → Prop) s :
  P [] s →
  (∀ done x rest s, l = done ++ x :: rest → P done s → ∃ s', f x s = Some s' ∧ P (done ++ [x]) s') →
  ∃ s', each f l s = Some s' ∧ P l s'.
Proof.
  intros H0 Hstep.
  assert (∀ l' done s, l = done ++ l' → P done s → ∃ s', each f l' s = Some s' ∧ P l s') as Hgo.
  { induction l' as [|x l' IH]; intros done s' Hl HP; simpl.
    - rewrite app_nil_r in Hl. subst. eauto.
    - destruct (Hstep done x l' s' Hl HP) as (s1 & Hs1 & HP1). rewrite Hs1. simpl.
      apply (IH (done ++ [x])); [|done]. by rewrite <- (assoc_L (++)). }
  by apply (Hgo l []).
Qed.

Lemma each_spec {S A} (f : A → S → option S) (l : list A) (P : list A → S → Prop) s :
  P [] s →
  (∀ done x s, x ∈ l → P done s → ∃ s', f x s = Some s' ∧ P (done ++ [x]) s') →
  ∃ s', each f l s = Some s' ∧ P l s'.
Proof.
  intros H0 Hstep. apply each_split; [done|]. intros done x rest s' ->. apply Hstep. set_solver.
Qed.

(** A loop that keeps an invariant. *)
Lemma each_keeps {S A} (f : A → S → option S) (l : list A) (P : S → Prop) s :
  P s → (∀ x s, x ∈ l → P s → ∃ s', f x s = Some s' ∧ P s') →
  ∃ s', each f l s = Some s' ∧ P s'.
Proof. intros H0 Hstep. apply (each_spec f l (λ _, P)); eauto. Qed.

(** ** What the builder keeps true *)

Definition parent_at (ds : list Draft) (h : Handle) : option Handle := ds !! h ≫= d_parent.
Definition path_at (ds : list Draft) (h : Handle) : option path := ds !! h ≫= d_path.

(** How deep a node is at most: what makes the tree end. *)
Definition ranked (ds : list Draft) (rank : Handle → nat) : Prop :=
  ∀ h d, ds !! h = Some d →
    match d_path d with
    | Some p => rank h = if decide (h = ROOT_NODE) then 1 else 2 + length p
    | None =>
        match d_parent d with
        | Some q => q < h ∧ rank q < rank h
        | None => h = MACHINE ∧ rank h = 0
        end
    end.

Record wf (b : Builder) : Prop := {
  wf_placed : ∀ p h, placed b !! p = Some h ↔ path_at (drafts b) h = Some p;
  wf_root : ∃ d, drafts b !! ROOT_NODE = Some d ∧ d_path d = Some SLASH ∧
    d_parent d = Some MACHINE;
  wf_machine : ∃ d, drafts b !! MACHINE = Some d ∧ d_path d = None ∧ d_parent d = None;
  wf_ranked : ∃ rank, ranked (drafts b) rank;
  wf_children : ∀ d, d ∈ drafts b → d_children d = [];
  wf_refers : ∀ d t, d ∈ drafts b → t ∈ d_refers d ++ d_up_refers d → t < length (drafts b);
}.

Lemma wf_new l : wf (builder_new l).
Proof.
  split.
  - intros p h. unfold path_at. simpl. rewrite lookup_singleton_Some. split.
    + by intros [<- <-].
    + destruct h as [|[|[|h]]]; simpl; try done. by intros [= <-].
  - by eexists.
  - by eexists.
  - exists (λ h, if decide (h = MACHINE) then 0 else 1).
    intros [|[|[|h]]] d; simpl; try done; intros [= <-]; simpl; unfold MACHINE; auto.
  - intros d. simpl. rewrite !elem_of_cons, elem_of_nil. by intros [->|[->|[->|[]]]].
  - intros d t. simpl. rewrite !(elem_of_cons _ d), elem_of_nil.
    intros [->|[->|[->|[]]]]; simpl; set_solver.
Qed.

(** A draft changed where neither its path nor its place in the tree is. *)
Lemma wf_on_draft b h f b' :
  wf b → on_draft h f b = Some (tt, b') →
  (∀ d, d_path (f d) = d_path d ∧ d_parent (f d) = d_parent d ∧ d_children (f d) = d_children d) →
  (∀ d t, drafts b !! h = Some d → t ∈ d_refers (f d) ++ d_up_refers (f d) →
    t ∈ d_refers d ++ d_up_refers d ∨ t < length (drafts b)) →
  wf b' ∧ length (drafts b') = length (drafts b).
Proof.
  intros [Hp Hr Hm [rank Hk] Hc Hf] Hon Hsame Hrefs. unfold on_draft, change_draft in Hon.
  destruct (drafts b !! h) as [d|] eqn:Hh; [|done]. injection Hon as <-. simpl in *.
  assert (∀ (X : Type) (g : Draft → X) i, (∀ d, g (f d) = g d) →
    g <$> (<[h := f d]> (drafts b) !! i) = g <$> (drafts b !! i)) as Hkeep.
  { intros X g i Hg. destruct (decide (i = h)) as [->|].
    - rewrite list_lookup_insert_eq by (by eapply lookup_lt_Some). rewrite Hh. simpl. by rewrite Hg.
    - by rewrite list_lookup_insert_ne. }
  assert (∀ i d', <[h := f d]> (drafts b) !! i = Some d' →
    ∃ d0, drafts b !! i = Some d0 ∧ d_path d' = d_path d0 ∧ d_parent d' = d_parent d0 ∧
      d_children d' = d_children d0 ∧ (d' = d0 ∨ d' = f d0 ∧ i = h)) as Hback.
  { intros i d' Hi. destruct (decide (i = h)) as [->|].
    - rewrite list_lookup_insert_eq in Hi by (by eapply lookup_lt_Some).
      injection Hi as <-. exists d. destruct (Hsame d) as (?&?&?).
      split_and!; auto.
    - rewrite list_lookup_insert_ne in Hi by done. eauto 7. }
  assert (∀ i d0, drafts b !! i = Some d0 → ∃ d', <[h := f d]> (drafts b) !! i = Some d' ∧
    d_path d' = d_path d0 ∧ d_parent d' = d_parent d0) as Hfwd.
  { intros i d0 Hi. destruct (decide (i = h)) as [->|].
    - rewrite list_lookup_insert_eq by (by eapply lookup_lt_Some).
      assert (d0 = d) as -> by congruence. destruct (Hsame d) as (?&?&?). eauto.
    - rewrite list_lookup_insert_ne by done. eauto. }
  split; [|apply length_insert]. split.
  - intros p i. rewrite Hp. unfold path_at.
    specialize (Hkeep _ d_path i (λ d, proj1 (Hsame d))).
    simpl. destruct (drafts b !! i), (<[h:=f d]> (drafts b) !! i); simpl in *; split; congruence.
  - destruct Hr as (dr & Hi & Hpath & Hpar). destruct (Hfwd _ _ Hi) as (?&?&?&?).
    eexists. split_and!; [done|congruence..].
  - destruct Hm as (dr & Hi & Hpath & Hpar). destruct (Hfwd _ _ Hi) as (?&?&?&?).
    eexists. split_and!; [done|congruence..].
  - exists rank. intros i d' Hi. destruct (Hback _ _ Hi) as (d0 & Hi0 & -> & -> & _).
    by apply Hk.
  - intros d' [i Hi]%list_elem_of_lookup. destruct (Hback _ _ Hi) as (d0 & Hi0 & _ & _ & -> & _).
    eapply Hc, list_elem_of_lookup_2, Hi0.
  - intros d' t [i Hi]%list_elem_of_lookup Ht. simpl. rewrite length_insert.
    destruct (Hback _ _ Hi) as (d0 & Hi0 & _ & _ & _ & [->|[-> ->]]).
    + eapply Hf; [|done]. by eapply list_elem_of_lookup_2.
    + destruct (Hrefs d0 t) as [Ht'|]; [congruence|done| |done].
      eapply Hf; [|done]. by eapply list_elem_of_lookup_2.
Qed.

Definition rank_with (rank : Handle → nat) (h : Handle) (r : nat) (i : Handle) : nat :=
  if decide (i = h) then r else rank i.

(** A new draft at the end: a place where nothing was, or an account under a node there. *)
Lemma wf_push b d h b1 b2 :
  wf b → push_draft d b = Some (h, b1) →
  d_children d = [] → d_refers d = [] → d_up_refers d = [] →
  match d_path d with
  | Some p => placed b !! p = None ∧ b2 = mkBuilder (drafts b1) (<[p := h]> (placed b1)) (b_leftovers b1)
  | None => (∃ q, d_parent d = Some q ∧ q < length (drafts b)) ∧ b2 = b1
  end →
  wf b2 ∧ h = length (drafts b) ∧ length (drafts b2) = S (length (drafts b)).
Proof.
  intros [Hp Hr Hm [rank Hk] Hc Hf] [= <- <-] Hch Hre Hup Hcase. simpl in Hcase.
  assert (∀ i, path_at (drafts b ++ [d]) i =
    if decide (i = length (drafts b)) then d_path d else path_at (drafts b) i) as Hpa.
  { intros i. unfold path_at. case_decide as Hi.
    - subst. by rewrite list_lookup_middle.
    - destruct (decide (i < length (drafts b))); [by rewrite lookup_app_l|].
      rewrite !lookup_ge_None_2; [done|..]; rewrite ?length_app; simpl; lia. }
  assert (drafts b2 = drafts b ++ [d]) as Hd.
  { destruct (d_path d); destruct Hcase as [_ ->]; done. }
  assert (∀ p i, placed b2 !! p = Some i ↔ path_at (drafts b2) i = Some p) as Hp'.
  { intros p i. rewrite Hd, Hpa. destruct (d_path d) as [q|] eqn:Hq; destruct Hcase as [Hno ->].
    - simpl. rewrite lookup_insert_Some, Hp.
      assert (path_at (drafts b) (length (drafts b)) = None) as Hnone.
      { unfold path_at. by rewrite lookup_ge_None_2. }
      case_decide; [subst; rewrite Hnone|].
      + split; [|intros [= ->]; auto]. intros [[-> _]|[_ ?]]; done.
      + split; [intros [[_ <-]|[_ ?]]; done|]. intros Hi. right. split; [|done].
        intros ->. apply Hp in Hi. congruence.
    - simpl. rewrite Hp. case_decide; [|done]. subst. split; [|done].
      unfold path_at. by rewrite lookup_ge_None_2. }
  split; [|rewrite Hd, length_app; simpl; split; [done|lia]]. split.
  - done.
  - rewrite Hd. destruct Hr as (dr & Hi & ?). exists dr. by rewrite lookup_app_l by (by eapply lookup_lt_Some).
  - rewrite Hd. destruct Hm as (dr & Hi & ?). exists dr. by rewrite lookup_app_l by (by eapply lookup_lt_Some).
  - rewrite Hd. exists (rank_with rank (length (drafts b))
      match d_path d with
      | Some p => 2 + length p
      | None => match d_parent d with Some q => S (rank q) | None => 0 end
      end).
    assert (ROOT_NODE < length (drafts b)) as Hroot
      by (destruct Hr as (? & ? & _); by eapply lookup_lt_Some).
    intros i di Hi. unfold rank_with. apply lookup_app_Some in Hi as [Hi|[Hge Hi]].
    + assert (i < length (drafts b)) by (by eapply lookup_lt_Some).
      specialize (Hk i di Hi). rewrite decide_False by lia.
      destruct (d_path di); [done|]. destruct (d_parent di) as [q|]; [|done].
      rewrite decide_False by lia. done.
    + destruct (i - length (drafts b)) eqn:He; [|done]. injection Hi as <-.
      rewrite decide_True by lia. destruct (d_path d); [by rewrite decide_False by lia|].
      destruct Hcase as [(q & -> & Hq) _]. rewrite decide_False by lia. lia.
  - rewrite Hd. intros d'. rewrite elem_of_app, list_elem_of_singleton. intros [?| ->]; auto.
  - rewrite Hd. intros d' t. rewrite elem_of_app, list_elem_of_singleton, length_app.
    intros [Hd'| ->] Ht; [|rewrite Hre, Hup in Ht; by apply elem_of_nil in Ht].
    specialize (Hf _ _ Hd' Ht). simpl. lia.
Qed.

(** The builders the methods make, each given handles of the builder it is called on. *)
Inductive Built : Builder → Prop :=
  | Built_new l : Built (builder_new l)
  | Built_path b at_ down h b' :
      Built b → add_path at_ down b = Some (h, b') → Built b'
  | Built_place b at_ h b' : Built b → add_place at_ b = Some (h, b') → Built b'
  | Built_account b parent down h b' :
      Built b → default ACCOUNTS parent < length (drafts b) →
      add_account parent down b = Some (h, b') → Built b'
  | Built_up b at_ check b' : Built b → add_up at_ check b = Some (tt, b') → Built b'
  | Built_refers b from to b' :
      Built b → to < length (drafts b) → add_refers from to b = Some (tt, b') → Built b'
  | Built_up_refers b from to b' :
      Built b → to < length (drafts b) → add_up_refers from to b = Some (tt, b') → Built b'.

Lemma add_path_wf b at_ down :
  wf b → ∃ h b', add_path at_ down b = Some (h, b') ∧ wf b' ∧ h < length (drafts b') ∧
    length (drafts b) ≤ length (drafts b').
Proof.
  intros Hb. unfold add_path, mbind, build_bind, found_at.
  destruct (placed b !! at_) as [h|] eqn:Hat.
  - apply (wf_placed b Hb) in Hat. unfold path_at in Hat.
    destruct (drafts b !! h) as [d|] eqn:Hh; [|done].
    set (f := λ d, match d_down d with Some _ => d | None => set_down (Some down) d end).
    assert (∃ b', on_draft h f b = Some (tt, b')) as [b' Hon].
    { unfold on_draft, change_draft. rewrite Hh. simpl. eauto. }
    rewrite Hon. exists h, b'. split; [done|].
    destruct (wf_on_draft b h f b' Hb Hon) as [Hw Hlen].
    + intros d'. unfold f. by destruct (d_down d').
    + intros d' t _. unfold f. destruct (d_down d'); auto.
    + rewrite Hlen. split_and!; [done|by eapply lookup_lt_Some|done].
  - destruct (push_draft (draft_new (Some down) (Some at_)) b) as [[h b1]|] eqn:Hpush; [|done].
    simpl. eexists h, _. split; [done|].
    edestruct (wf_push b (draft_new (Some down) (Some at_)) h b1) as (Hw & -> & Hlen);
      [done|done|done..|by split|].
    split; [exact Hw|]. rewrite Hlen. lia.
Qed.

Lemma add_place_wf b at_ :
  wf b → ∃ h b', add_place at_ b = Some (h, b') ∧ wf b' ∧ h < length (drafts b') ∧
    length (drafts b) ≤ length (drafts b').
Proof.
  intros Hb. unfold add_place, mbind, build_bind, found_at.
  destruct (placed b !! at_) as [h|] eqn:Hat.
  - exists h, b. split_and!; [done|done| |done].
    apply (wf_placed b Hb) in Hat. unfold path_at in Hat.
    destruct (drafts b !! h) eqn:Hh; [|done]. by eapply lookup_lt_Some.
  - destruct (push_draft (draft_new None (Some at_)) b) as [[h b1]|] eqn:Hpush; [|done].
    simpl. eexists h, _. split; [done|].
    edestruct (wf_push b (draft_new None (Some at_)) h b1) as (Hw & -> & Hlen);
      [done|done|done..|by split|].
    split; [exact Hw|]. rewrite Hlen. lia.
Qed.

Lemma add_account_wf b parent down :
  wf b → default ACCOUNTS parent < length (drafts b) →
  ∃ h b', add_account parent down b = Some (h, b') ∧ wf b' ∧ h < length (drafts b') ∧
    length (drafts b) ≤ length (drafts b').
Proof.
  intros Hb Hp. unfold add_account.
  set (d := set_parent (Some (default ACCOUNTS parent)) (draft_new (Some down) None)).
  destruct (push_draft d b) as [[h b1]|] eqn:Hpush; [|done].
  exists h, b1. split; [done|].
  destruct (wf_push b d h b1 b1) as (Hw & -> & Hlen); [done|done|done..| |].
  - simpl. split; [|done]. eauto.
  - split; [done|]. lia.
Qed.

Lemma on_draft_wf b h f :
  wf b → h < length (drafts b) →
  (∀ d, d_path (f d) = d_path d ∧ d_parent (f d) = d_parent d ∧ d_children (f d) = d_children d) →
  (∀ d t, t ∈ d_refers (f d) ++ d_up_refers (f d) →
    t ∈ d_refers d ++ d_up_refers d ∨ t < length (drafts b)) →
  ∃ b', on_draft h f b = Some (tt, b') ∧ wf b' ∧ length (drafts b') = length (drafts b).
Proof.
  intros Hb [d Hd]%lookup_lt_is_Some_2 Hsame Hrefs.
  assert (∃ b', on_draft h f b = Some (tt, b')) as [b' Hon].
  { unfold on_draft, change_draft. rewrite Hd. simpl. eauto. }
  exists b'. split; [done|]. eapply wf_on_draft; eauto.
Qed.

Lemma add_up_wf b h t :
  wf b → h < length (drafts b) →
  ∃ b', add_up h t b = Some (tt, b') ∧ wf b' ∧ length (drafts b') = length (drafts b).
Proof. intros. apply on_draft_wf; auto. Qed.

Lemma add_refers_wf b h to :
  wf b → h < length (drafts b) → to < length (drafts b) →
  ∃ b', add_refers h to b = Some (tt, b') ∧ wf b' ∧ length (drafts b') = length (drafts b).
Proof. intros. apply on_draft_wf; [done..|]. intros d t. simpl. set_solver. Qed.

Lemma add_up_refers_wf b h to :
  wf b → h < length (drafts b) → to < length (drafts b) →
  ∃ b', add_up_refers h to b = Some (tt, b') ∧ wf b' ∧ length (drafts b') = length (drafts b).
Proof. intros. apply on_draft_wf; [done..|]. intros d t. simpl. set_solver. Qed.

Lemma on_draft_lt b h f b' : on_draft h f b = Some (tt, b') → h < length (drafts b).
Proof.
  unfold on_draft, change_draft. destruct (drafts b !! h) eqn:Hh; [|done]. intros _.
  by eapply lookup_lt_Some.
Qed.

Lemma Built_wf b : Built b → wf b.
Proof.
  induction 1 as [l|b at_ down h b' _ IH Ho|b at_ h b' _ IH Ho|b parent down h b' _ IH Hp Ho
    |b at_ check b' _ IH Ho|b from to b' _ IH Ht Ho|b from to b' _ IH Ht Ho].
  - apply wf_new.
  - destruct (add_path_wf b at_ down IH) as (?&?&?&?&_). congruence.
  - destruct (add_place_wf b at_ IH) as (?&?&?&?&_). congruence.
  - destruct (add_account_wf b parent down IH Hp) as (?&?&?&?&_). congruence.
  - destruct (add_up_wf b at_ check IH) as (?&?&?&_); [by eapply on_draft_lt|congruence].
  - destruct (add_refers_wf b from to IH) as (?&?&?&_); [by eapply on_draft_lt|done|congruence].
  - destruct (add_up_refers_wf b from to IH) as (?&?&?&_); [by eapply on_draft_lt|done|congruence].
Qed.

Lemma same_is_Some_length {A B} (l : list A) (k : list B) :
  (∀ i, is_Some (l !! i) ↔ is_Some (k !! i)) → length l = length k.
Proof.
  intros Hl. pose proof (Hl (length l)) as H1. pose proof (Hl (length k)) as H2.
  rewrite !lookup_lt_is_Some in H1, H2. lia.
Qed.

(** ** The parents *)

Lemma elem_of_in_path_order m p h : (p, h) ∈ in_path_order m ↔ m !! p = Some h.
Proof.
  unfold in_path_order. rewrite list_elem_of_omap. split.
  - intros (q & _ & Hq). destruct (m !! q) eqn:Hm; [|done]. simpl in Hq. congruence.
  - intros Hm. exists p. rewrite Hm. split; [|done].
    rewrite merge_sort_Permutation. apply list_elem_of_fmap. exists (p, h).
    split; [done|]. by apply elem_of_map_to_list.
Qed.

Lemma change_draft_lookup h f ds ds' i :
  change_draft h f ds = Some ds' →
  ds' !! i = (λ d, if decide (i = h) then f d else d) <$> (ds !! i).
Proof.
  unfold change_draft. destruct (ds !! h) as [d|] eqn:Hh; [|done]. intros [= <-].
  case_decide as Hi; [subst|].
  - rewrite list_lookup_insert_eq by (by eapply lookup_lt_Some). by rewrite Hh.
  - rewrite list_lookup_insert_ne by done. by destruct (ds !! i).
Qed.

Lemma change_draft_length h f ds ds' : change_draft h f ds = Some ds' → length ds' = length ds.
Proof.
  unfold change_draft. destruct (ds !! h); [|done]. intros [= <-]. apply length_insert.
Qed.

Lemma change_draft_total h f ds : h < length ds → ∃ ds', change_draft h f ds = Some ds'.
Proof. unfold change_draft. intros [d ->]%lookup_lt_is_Some_2. simpl. eauto. Qed.

(** The parent [link] gives a node. *)
Definition linked_parent (m : gmap path Handle) (h : Handle) (d : Draft) : option Handle :=
  match d_path d with
  | Some p => if decide (h = ROOT_NODE) then d_parent d else Some (nearest_above m p)
  | None => d_parent d
  end.

Lemma set_parents_spec b :
  wf b → ∃ ds, set_parents (placed b) (drafts b) = Some ds ∧
    ∀ i, ds !! i = (λ d, set_parent (linked_parent (placed b) i d) d) <$> (drafts b !! i).
Proof.
  intros Hb. unfold set_parents.
  set (l := filter _ _).
  assert (∀ p h, (p, h) ∈ l ↔ path_at (drafts b) h = Some p ∧ h ≠ ROOT_NODE) as Hl.
  { intros p h. unfold l. rewrite list_elem_of_filter, elem_of_in_path_order, (wf_placed b Hb).
    simpl. tauto. }
  destruct (each_spec (λ '(at_, handle), change_draft handle
      (set_parent (Some (nearest_above (placed b) at_)))) l
    (λ done ds, ∀ i, ds !! i = (λ d, if decide (i ∈ done.*2)
        then set_parent (linked_parent (placed b) i d) d else d) <$> (drafts b !! i))
    (drafts b)) as (ds & Hds & Hspec).
  - intros i. simpl. by destruct (drafts b !! i).
  - intros done [p h] ds Hin Hdone. apply Hl in Hin as [Hp Hne].
    assert (h < length ds) as Hlt.
    { apply lookup_lt_is_Some. rewrite Hdone. unfold path_at in Hp.
      destruct (drafts b !! h); [by eexists|done]. }
    destruct (change_draft_total h (set_parent (Some (nearest_above (placed b) p))) ds Hlt)
      as [ds' Hds']. exists ds'. split; [done|]. intros i.
    rewrite (change_draft_lookup _ _ _ _ i Hds'), Hdone.
    destruct (drafts b !! i) as [d|] eqn:Hi; [|done]. simpl. f_equal. rewrite fmap_app. simpl.
    destruct (decide (i = h)) as [->|Hih].
    + rewrite (decide_True (P := h ∈ _ ++ _)) by set_solver.
      unfold path_at in Hp. rewrite Hi in Hp. simpl in Hp.
      unfold linked_parent. rewrite Hp, (decide_False (P := h = ROOT_NODE)) by done.
      by destruct (decide (h ∈ _)).
    + destruct (decide (i ∈ done.*2)); [rewrite decide_True by set_solver|
        rewrite decide_False by set_solver]; done.
  - exists ds. split; [done|]. intros i. rewrite Hspec.
    destruct (drafts b !! i) as [d|] eqn:Hi; [|done]. simpl. f_equal.
    case_decide as Hin; [done|]. unfold linked_parent.
    destruct (d_path d) as [p|] eqn:Hp; [|by destruct d].
    case_decide; [by destruct d|]. destruct Hin. apply list_elem_of_fmap. exists (p, i).
    split; [done|]. apply Hl. split; [|done]. unfold path_at. by rewrite Hi.
Qed.

(** ** The children *)

Lemma push_children_spec ds :
  (∀ h p, parent_at ds h = Some p → p < length ds) →
  ∃ ds', each push_child (seq 1 (length ds - 1)) ds = Some ds' ∧
    ∀ i, ds' !! i = (λ d, set_children
      (d_children d ++ filter (λ c, parent_at ds c = Some i) (seq 1 (length ds - 1))) d)
      <$> (ds !! i).
Proof.
  intros Hpar.
  destruct (each_spec push_child (seq 1 (length ds - 1))
    (λ done ds', length ds' = length ds ∧ ∀ i, ds' !! i = (λ d, set_children
      (d_children d ++ filter (λ c, parent_at ds c = Some i) done) d) <$> (ds !! i)) ds)
    as (ds' & Hds' & _ & Hspec); [| |by eauto].
  - split; [done|]. intros i. destruct (ds !! i) as [d|]; [|done]. simpl. f_equal.
    rewrite app_nil_r. by destruct d.
  - intros done x ds1 Hx%elem_of_seq [Hlen Hdone].
    assert (x < length ds1) as [d1 Hd1]%lookup_lt_is_Some_2 by lia.
    unfold push_child. rewrite Hd1. simpl.
    assert (d_parent d1 = parent_at ds x) as Hpx.
    { specialize (Hdone x). rewrite Hd1 in Hdone. unfold parent_at.
      destruct (ds !! x); [|done]. simpl in Hdone. injection Hdone as ->. done. }
    rewrite Hpx. destruct (parent_at ds x) as [p|] eqn:Hp.
    + destruct (change_draft_total p (λ d, set_children (d_children d ++ [x]) d) ds1)
        as [ds2 Hds2]; [rewrite Hlen; by eapply Hpar|].
      exists ds2. split; [done|].
      split; [by rewrite (change_draft_length _ _ _ _ Hds2)|]. intros i.
      rewrite (change_draft_lookup _ _ _ _ i Hds2), Hdone.
      destruct (ds !! i) as [d|]; [|done]. simpl. f_equal.
      rewrite filter_app, filter_cons, filter_nil, Hp. case_decide; subst.
      * rewrite decide_True by done. unfold set_children. simpl. by rewrite (assoc_L (++)).
      * rewrite decide_False by congruence. by rewrite app_nil_r.
    + exists ds1. split; [done|]. split; [done|]. intros i. rewrite Hdone.
      destruct (ds !! i) as [d|]; [|done]. simpl. f_equal.
      by rewrite filter_app, filter_cons, filter_nil, Hp, decide_False, app_nil_r.
Qed.

(** ** A linked tree *)

Record Linked (ds : list Draft) : Prop := {
  lk_rank : ∃ rank : Handle → nat, ∀ h p, parent_at ds h = Some p → rank p < rank h;
  lk_parent : ∀ h p, parent_at ds h = Some p → p < length ds;
  lk_machine : MACHINE < length ds;
  lk_top : ∀ h, h < length ds → parent_at ds h = None ↔ h = MACHINE;
  lk_NoDup : ∀ h d, ds !! h = Some d → NoDup (d_children d);
  lk_children : ∀ h d c, ds !! h = Some d → c ∈ d_children d ↔ parent_at ds c = Some h;
  lk_refers : ∀ d t, d ∈ ds → t ∈ d_refers d ++ d_up_refers d → t < length ds;
}.

(** The same drafts with their children in another order. *)
Definition similar (ds ds' : list Draft) : Prop :=
  length ds' = length ds ∧
  ∀ i d, ds !! i = Some d → ∃ l, ds' !! i = Some (set_children l d) ∧ l ≡ₚ d_children d.

#[export] Instance similar_refl : Reflexive similar.
Proof. intros ds. split; [done|]. intros i d Hd. exists (d_children d). by destruct d. Qed.

#[export] Instance similar_trans : Transitive similar.
Proof.
  intros x y z [Hxy H1] [Hyz H2]. split; [by rewrite Hyz|].
  intros i d (l & Hl & Hp)%H1. destruct (H2 i _ Hl) as (k & Hk & Hkp).
  exists k. split; [done|]. by rewrite Hkp.
Qed.

Lemma similar_back ds ds' i d' :
  similar ds ds' → ds' !! i = Some d' →
  ∃ d, ds !! i = Some d ∧ d' = set_children (d_children d') d ∧ d_children d' ≡ₚ d_children d.
Proof.
  intros [Hlen Hsim] Hi.
  assert (i < length ds) as [d Hd]%lookup_lt_is_Some_2
    by (rewrite <- Hlen; by eapply lookup_lt_Some).
  destruct (Hsim i d Hd) as (l & Hl & Hp). rewrite Hl in Hi. injection Hi as <-. eauto.
Qed.

Lemma similar_parent ds ds' i : similar ds ds' → parent_at ds' i = parent_at ds i.
Proof.
  intros Hs. unfold parent_at. destruct (ds' !! i) as [d'|] eqn:Hi.
  - destruct (similar_back _ _ _ _ Hs Hi) as (d & -> & -> & _). done.
  - destruct Hs as [Hlen _]. apply lookup_ge_None in Hi. rewrite Hlen in Hi.
    by rewrite lookup_ge_None_2.
Qed.

Lemma similar_Linked ds ds' : similar ds ds' → Linked ds → Linked ds'.
Proof.
  intros Hs [[rank Hr] Hp Hm Ht Hn Hc Hf]. pose proof (proj1 Hs) as Hlen. split.
  - exists rank. intros h p. rewrite (similar_parent _ _ _ Hs). apply Hr.
  - intros h p. rewrite (similar_parent _ _ _ Hs), Hlen. apply Hp.
  - by rewrite Hlen.
  - intros h. rewrite (similar_parent _ _ _ Hs), Hlen. apply Ht.
  - intros h d' (d & Hd & _ & ->)%(similar_back _ _ _ _ Hs). by eapply Hn.
  - intros h d' c (d & Hd & _ & ->)%(similar_back _ _ _ _ Hs).
    rewrite (similar_parent _ _ _ Hs). by eapply Hc.
  - intros d' t [i Hi]%list_elem_of_lookup.
    destruct (similar_back _ _ _ _ Hs Hi) as (d & Hd & Hd' & _). rewrite Hlen.
    assert (d_refers d' = d_refers d ∧ d_up_refers d' = d_up_refers d) as [-> ->]
      by (rewrite Hd'; done).
    apply Hf. by eapply list_elem_of_lookup_2.
Qed.

Lemma similar_change i d l ds :
  ds !! i = Some d → l ≡ₚ d_children d → similar ds (<[i := set_children l d]> ds).
Proof.
  intros Hd Hl. split; [apply length_insert|]. intros j dj Hj.
  destruct (decide (j = i)) as [->|].
  - rewrite list_lookup_insert_eq by (by eapply lookup_lt_Some).
    assert (dj = d) as -> by congruence. eauto.
  - rewrite list_lookup_insert_ne by done. exists (d_children dj). by destruct dj.
Qed.

(** ** Lines *)

Lemma line_fuel_total ds n seen h rank :
  (∀ h p, parent_at ds h = Some p → rank p < rank h) →
  (∀ h p, parent_at ds h = Some p → p < length ds) →
  NoDup seen → (∀ x, x ∈ seen → x < length ds ∧ rank h < rank x) →
  h < length ds → length ds < length seen + n →
  ∃ l, line_fuel n ds h = Some l.
Proof.
  intros Hr Hp. revert seen h. induction n as [|n IH]; intros seen h Hnd Hseen Hh Hlen.
  { assert (length seen ≤ length ds); [|lia]. apply NoDup_below; [done|].
    intros x Hx. by apply Hseen. }
  simpl. destruct (lookup_lt_is_Some_2 ds h Hh) as [d Hd]. rewrite Hd. simpl.
  destruct (d_parent d) as [p|] eqn:Hdp; [|eauto].
  assert (parent_at ds h = Some p) as Hpar by (unfold parent_at; by rewrite Hd).
  destruct (IH (h :: seen) p) as [l ->]; [| | | |simpl; eauto].
  - constructor; [|done]. intros Hin. apply Hseen in Hin. lia.
  - intros x [->|Hx]%elem_of_cons; [by auto|]. apply Hr in Hpar.
    destruct (Hseen x Hx). split; [done|lia].
  - by eapply Hp.
  - simpl. lia.
Qed.

Lemma line_fuel_range n ds h l x : line_fuel n ds h = Some l → x ∈ l → x < length ds.
Proof.
  revert h l. induction n as [|n IH]; intros h l; simpl; [done|].
  destruct (ds !! h) as [d|] eqn:Hd; [|done]. simpl. apply lookup_lt_Some in Hd.
  destruct (d_parent d) as [p|].
  - destruct (line_fuel n ds p) as [k|] eqn:Hk; [|done]. intros [= <-].
    intros [->|Hx]%elem_of_cons; eauto.
  - intros [= <-] ->%list_elem_of_singleton. done.
Qed.

Lemma line_total ds h : Linked ds → h < length ds → ∃ l, line ds h = Some l.
Proof.
  intros [[rank Hr] Hp _ _ _ _ _] Hh. unfold line.
  apply (line_fuel_total ds _ [] h rank); [done|done|constructor| |done|simpl; lia].
  by intros x Hx%elem_of_nil.
Qed.

(** ** Putting the referred first *)

Lemma remove_at_middle {A} (l : list A) i x : l !! i = Some x → l ≡ₚ x :: remove_at i l.
Proof.
  intros Hi. unfold remove_at. rewrite Permutation_middle.
  by rewrite take_drop_middle.
Qed.

Lemma move_before_Permutation first second l : move_before first second l ≡ₚ l.
Proof.
  unfold move_before. destruct (l !! second) as [x|] eqn:Hs; [|done].
  rewrite <- Permutation_middle, take_drop. symmetry. by apply remove_at_middle.
Qed.

Lemma put_first_similar ds from to :
  Linked ds → from < length ds → to < length ds →
  ∃ ds', put_first (from, to) ds = Some ds' ∧ similar ds ds'.
Proof.
  intros Hl Hf Ht. unfold put_first.
  destruct (line_total ds from Hl Hf) as [lf Hlf]. rewrite Hlf. simpl.
  destruct (line_total ds to Hl Ht) as [lt Hlt]. rewrite Hlt. simpl.
  destruct (list_find _ lf) as [[at_ ancestor]|] eqn:Hfind; [|by eexists].
  destruct (before_in lf at_), (position (λ node, node = ancestor) lt ≫= before_in lt);
    try by eexists.
  apply list_find_Some in Hfind as (Hat & _ & _).
  assert (ancestor < length ds) as [d Hd]%lookup_lt_is_Some_2.
  { eapply line_fuel_range; [exact Hlf|]. by eapply list_elem_of_lookup_2. }
  rewrite Hd. simpl.
  do 2 (case_match; [|by eexists]).
  case_decide; [|by eexists]. eexists. split; [done|].
  apply similar_change; [done|apply move_before_Permutation].
Qed.

Lemma elem_of_references ds from to :
  (from, to) ∈ references ds ↔ ∃ d, ds !! from = Some d ∧ to ∈ d_refers d ++ d_up_refers d.
Proof.
  unfold references. rewrite elem_of_concat. split.
  - intros (l & Hin & (i & d & -> & Hd)%elem_of_lookup_imap).
    apply list_elem_of_fmap in Hin as (t & [= -> ->] & Ht). eauto.
  - intros (d & Hd & Ht). exists ((from,.) <$> (d_refers d ++ d_up_refers d)). split.
    + apply list_elem_of_fmap. eauto.
    + apply elem_of_lookup_imap. eauto.
Qed.

Lemma put_referred_first_similar ds :
  Linked ds → ∃ ds', put_referred_first ds = Some ds' ∧ similar ds ds'.
Proof.
  intros Hl. unfold put_referred_first.
  apply (each_keeps put_first _ (similar ds)); [done|].
  intros [from to] ds1 (d & Hd & Ht)%elem_of_references Hs.
  pose proof (similar_Linked _ _ Hs Hl) as Hl1. pose proof (proj1 Hs) as Hlen.
  destruct (put_first_similar ds1 from to Hl1) as (ds2 & H2 & Hs2).
  - rewrite Hlen. by eapply lookup_lt_Some.
  - rewrite Hlen. eapply (lk_refers ds Hl); [|exact Ht]. by eapply list_elem_of_lookup_2.
  - exists ds2. split; [done|]. by trans ds1.
Qed.

Lemma sort_children_similar ds :
  ∃ ds', each sort_children (seq 0 (length ds)) ds = Some ds' ∧ similar ds ds'.
Proof.
  apply (each_keeps sort_children _ (similar ds)); [done|].
  intros i ds1 Hi%elem_of_seq Hs. unfold sort_children. case_decide; [by eexists|].
  unfold change_draft.
  assert (i < length ds1) as [d Hd]%lookup_lt_is_Some_2 by (rewrite (proj1 Hs); lia).
  rewrite Hd. simpl. eexists. split; [done|]. trans ds1; [done|].
  apply similar_change; [done|]. apply merge_sort_Permutation.
Qed.

(** ** What [link] makes of a builder *)

Lemma parent_shorter p q : parent p = Some q → length q < length p.
Proof.
  unfold parent. destruct (last p) as [c|] eqn:Hl; [|done].
  assert (length p ≠ 0) by (destruct p; [done|simpl; lia]).
  destruct c; intros [= <-]; rewrite length_take; lia.
Qed.

Lemma ancestors_fuel_shorter n p a : a ∈ ancestors_fuel n p → a = p ∨ length a < length p.
Proof.
  revert p. induction n as [|n IH]; intros p; simpl; [by intros ?%elem_of_nil|].
  intros [->|Ha]%elem_of_cons; [auto|].
  destruct (parent p) as [q|] eqn:Hq; [|by apply elem_of_nil in Ha].
  apply parent_shorter in Hq. destruct (IH _ Ha) as [->|]; lia.
Qed.

Lemma above_shorter p a : a ∈ drop 1 (ancestors p) → length a < length p.
Proof.
  unfold ancestors. cbn [ancestors_fuel]. rewrite skipn_cons, drop_0.
  destruct (parent p) as [q|] eqn:Hq; [|by intros ?%elem_of_nil].
  intros Ha%ancestors_fuel_shorter. apply parent_shorter in Hq.
  destruct Ha as [->|]; lia.
Qed.

Lemma find_map_Some {A B} (f : A → option B) (l : list A) b :
  find_map f l = Some b → ∃ a, a ∈ l ∧ f a = Some b.
Proof.
  induction l as [|a l IH]; simpl; [done|]. destruct (f a) as [b'|] eqn:Ha.
  - intros [= <-]. exists a. split; [left|done].
  - intros (a' & ? & ?)%IH. exists a'. split; [by right|done].
Qed.

(** The nearest place above is the root's or one at a shorter path. *)
Lemma nearest_above_spec m p :
  nearest_above m p = ROOT_NODE ∨
  ∃ a, m !! a = Some (nearest_above m p) ∧ a ∈ drop 1 (ancestors p).
Proof.
  unfold nearest_above. destruct (find_map _ _) as [h|] eqn:Hf; [|by left]. right.
  apply find_map_Some in Hf as (a & ? & ?). simpl. eauto.
Qed.

Definition linked_from (b : Builder) (ds : list Draft) : Prop :=
  length ds = length (drafts b) ∧
  ∀ i d, drafts b !! i = Some d → ∃ d', ds !! i = Some d' ∧
    d_down d' = d_down d ∧ d_up d' = d_up d ∧ d_refers d' = d_refers d ∧
    d_up_refers d' = d_up_refers d ∧ d_path d' = d_path d ∧
    d_parent d' = linked_parent (placed b) i d.

Lemma linked_parent_rank b rank i d q :
  wf b → ranked (drafts b) rank → drafts b !! i = Some d →
  linked_parent (placed b) i d = Some q → rank q < rank i ∧ q < length (drafts b).
Proof.
  intros Hb Hk Hi. pose proof (wf_root b Hb) as (dr & Hroot & Hslash & Hrp).
  pose proof (wf_machine b Hb) as (dm & Hm & Hmp & Hmpar).
  assert (rank MACHINE = 0) as Hm0.
  { specialize (Hk _ _ Hm). rewrite Hmp, Hmpar in Hk. apply Hk. }
  assert (rank ROOT_NODE = 1) as Hr1.
  { specialize (Hk _ _ Hroot). by rewrite Hslash, decide_True in Hk. }
  assert (ROOT_NODE < length (drafts b)) by (by eapply lookup_lt_Some).
  unfold linked_parent. pose proof (Hk _ _ Hi) as Hki.
  destruct (d_path d) as [p|] eqn:Hp.
  - case_decide as Hir.
    + subst. assert (d = dr) as -> by congruence. rewrite Hrp. intros [= <-]. unfold MACHINE, ROOT_NODE in *. lia.
    + intros [= <-].
      destruct (nearest_above_spec (placed b) p) as [->|(a & Ha & Hin)]; [lia|].
      apply (wf_placed b Hb) in Ha. apply above_shorter in Hin. unfold path_at in Ha.
      destruct (drafts b !! nearest_above (placed b) p) as [dq|] eqn:Hq; [|done].
      split; [|by eapply lookup_lt_Some]. specialize (Hk _ _ Hq). simpl in Ha.
      rewrite Ha in Hk. case_decide; lia.
  - intros Hpar. rewrite Hpar in Hki. destruct Hki. split; [done|].
    apply lookup_lt_Some in Hi. lia.
Qed.

Lemma linked_parent_None b i d :
  wf b → drafts b !! i = Some d → linked_parent (placed b) i d = None ↔ i = MACHINE.
Proof.
  intros Hb Hi. destruct (wf_ranked b Hb) as [rank Hk].
  pose proof (wf_root b Hb) as (dr & Hroot & Hslash & Hrp).
  pose proof (wf_machine b Hb) as (dm & Hm & Hmp & Hmpar).
  unfold linked_parent. specialize (Hk _ _ Hi). split.
  - destruct (d_path d) as [p|] eqn:Hp.
    + case_decide; [|done]. subst. assert (d = dr) as -> by congruence. by rewrite Hrp.
    + intros Hn. rewrite Hn in Hk. apply Hk.
  - intros ->. assert (d = dm) as -> by congruence. by rewrite Hmp.
Qed.

Lemma similar_from b ds ds' : similar ds ds' → linked_from b ds → linked_from b ds'.
Proof.
  intros [Hlen Hs] [Hlb Hf]. split; [by rewrite Hlen|].
  intros i d (d1 & Hd1 & ?)%Hf. destruct (Hs i d1 Hd1) as (l & Hl & _). by eexists.
Qed.

Lemma children_linked b ds1 ds2 :
  wf b →
  (∀ i, ds1 !! i = (λ d, set_parent (linked_parent (placed b) i d) d) <$> (drafts b !! i)) →
  (∀ i, ds2 !! i = (λ d, set_children
     (d_children d ++ filter (λ c, parent_at ds1 c = Some i) (seq 1 (length ds1 - 1))) d)
     <$> (ds1 !! i)) →
  Linked ds2 ∧ linked_from b ds2.
Proof.
  intros Hb Hs1 Hs2.
  assert (length ds2 = length (drafts b)) as Hlen.
  { apply same_is_Some_length. intros i. by rewrite Hs2, Hs1, !fmap_is_Some. }
  assert (length ds1 = length (drafts b)) as Hlen1.
  { apply same_is_Some_length. intros i. by rewrite Hs1, fmap_is_Some. }
  assert (∀ i, parent_at ds1 i = drafts b !! i ≫= linked_parent (placed b) i) as Hpar1.
  { intros i. unfold parent_at. rewrite Hs1. by destruct (drafts b !! i). }
  assert (∀ i, parent_at ds2 i = parent_at ds1 i) as Hpar2.
  { intros i. unfold parent_at. rewrite Hs2. by destruct (ds1 !! i). }
  assert (∀ h p, parent_at ds1 h = Some p → ∃ d, drafts b !! h = Some d ∧
    linked_parent (placed b) h d = Some p) as Hback.
  { intros h p. rewrite Hpar1. destruct (drafts b !! h); [|done]. simpl. eauto. }
  destruct (wf_ranked b Hb) as [rank Hk]. split; [split|split].
  - exists rank. intros h p. rewrite Hpar2. intros (d & Hd & Hq)%Hback.
    by eapply linked_parent_rank.
  - intros h p. rewrite Hpar2, Hlen. intros (d & Hd & Hq)%Hback. by eapply linked_parent_rank.
  - rewrite Hlen. destruct (wf_machine b Hb) as (d & Hd & _). by eapply lookup_lt_Some.
  - intros h [d Hd]%lookup_lt_is_Some_2. rewrite Hpar2, Hpar1.
    rewrite Hs2, Hs1 in Hd. destruct (drafts b !! h) as [d0|] eqn:Hd0; [|done]. simpl.
    by apply linked_parent_None.
  - intros h d. rewrite Hs2, Hs1. destruct (drafts b !! h) as [d0|] eqn:Hd0; [|done].
    simpl. intros [= <-]. simpl. rewrite (wf_children b Hb) by (by eapply list_elem_of_lookup_2).
    apply NoDup_filter, NoDup_seq.
  - intros h d c. rewrite Hpar2. rewrite Hs2, Hs1.
    destruct (drafts b !! h) as [d0|] eqn:Hd0; [|done].
    simpl. intros [= <-]. simpl. rewrite (wf_children b Hb) by (by eapply list_elem_of_lookup_2).
    simpl. rewrite list_elem_of_filter, elem_of_seq. split; [tauto|]. intros Hc.
    split; [done|]. apply Hback in Hc as (dc & Hdc & Hpc).
    destruct (decide (c = MACHINE)) as [->|Hne].
    { rewrite (proj2 (linked_parent_None b MACHINE dc Hb Hdc)) in Hpc by done. done. }
    apply lookup_lt_Some in Hdc. unfold MACHINE in Hne. lia.
  - intros d t [i Hi]%list_elem_of_lookup. rewrite Hs2, Hs1 in Hi.
    destruct (drafts b !! i) as [d0|] eqn:Hd0; [|done]. simpl in Hi. injection Hi as <-.
    simpl. rewrite Hlen. intros Ht. eapply (wf_refers b Hb); [|exact Ht].
    by eapply list_elem_of_lookup_2.
  - done.
  - intros i d Hi. rewrite Hs2, Hs1, Hi. by eexists.
Qed.

Lemma link_spec b :
  wf b → ∃ ds, link (placed b) (drafts b) = Some ds ∧ Linked ds ∧ linked_from b ds.
Proof.
  intros Hb. unfold link.
  destruct (set_parents_spec b Hb) as (ds1 & H1 & Hs1). rewrite H1. simpl.
  assert (length ds1 = length (drafts b)) as Hlen1.
  { apply same_is_Some_length. intros i. by rewrite Hs1, fmap_is_Some. }
  assert (∀ i, parent_at ds1 i = drafts b !! i ≫= linked_parent (placed b) i) as Hpar1.
  { intros i. unfold parent_at. rewrite Hs1. by destruct (drafts b !! i). }
  destruct (push_children_spec ds1) as (ds2 & H2 & Hs2).
  { destruct (wf_ranked b Hb) as [rank Hk]. intros h q. rewrite Hpar1, Hlen1.
    destruct (drafts b !! h) as [d|] eqn:Hd; [|done]. simpl. intros Hq.
    by eapply linked_parent_rank. }
  rewrite H2. simpl.
  assert (Linked ds2 ∧ linked_from b ds2) as [Hl2 Hf2]
    by by eapply (children_linked b ds1 ds2).
  destruct (sort_children_similar ds2) as (ds3 & H3 & Hs3). rewrite H3. simpl.
  pose proof (similar_Linked _ _ Hs3 Hl2) as Hl3.
  destruct (put_referred_first_similar ds3 Hl3) as (ds4 & H4 & Hs4). rewrite H4.
  exists ds4. split; [done|]. split; [by eapply similar_Linked|].
  eapply similar_from; [|exact Hf2]. by trans ds3.
Qed.
