(* ===== verification/DeclTreeWalk.v ===== *)
(** * Walking the declared tree

    What [finish] lists: [walk] visits a linked tree in fuel enough for every node twice,
    and the checks it makes are those of the nodes below the machine's, each once, in an
    order in which no check waits on a later one ([laid]). *)
From S2P Require Import Prelude.
From S2P Require Import Paths.
From S2P Require Import Declared.
From S2P Require Import DeclTree.
From S2P Require Import DeclTreeLink.

Local Open Scope nat_scope.

(** ** Trees *)

Inductive rose := Rose (node : Handle) (branches : list rose).

Definition root (t : rose) : Handle := match t with Rose n _ => n end.

Fixpoint nodes (t : rose) : list Handle :=
  match t with Rose n ts => n :: concat (map nodes ts) end.

Fixpoint rose_size (t : rose) : nat :=
  match t with Rose _ ts => S (foldr (λ t n, rose_size t + n) 0 ts) end.

Section rose_ind.
Context (P : rose → Prop) (HP : ∀ n ts, Forall P ts → P (Rose n ts)).
Fixpoint rose_ind' (t : rose) : P t :=
  match t with
  | Rose n ts =>
      HP n ts
        ((fix go (ts : list rose) : Forall P ts :=
            match ts with
            | [] => Forall_nil_2 _
            | t :: ts => Forall_cons_2 P t ts (rose_ind' t) (go ts)
            end) ts)
  end.
End rose_ind.

(** The tree has the drafts' children. *)
Fixpoint spans (ds : list Draft) (t : rose) : Prop :=
  match t with
  | Rose n ts =>
      (∃ d, ds !! n = Some d ∧ d_children d = root <$> ts) ∧
      foldr (λ t P, spans ds t ∧ P) True ts
  end.

Lemma spans_unfold ds n ts :
  spans ds (Rose n ts) ↔
  (∃ d, ds !! n = Some d ∧ d_children d = root <$> ts) ∧ Forall (spans ds) ts.
Proof.
  simpl. apply and_iff_compat_l. induction ts as [|t ts IH]; simpl; [by split|].
  by rewrite Forall_cons, IH.
Qed.

(** [h] is [a] or hangs below it. *)
Definition below (ds : list Draft) (a h : Handle) : Prop :=
  rtc (λ x y, parent_at ds y = Some x) a h.

#[export] Instance below_refl ds : Reflexive (below ds).
Proof. intros h. apply rtc_refl. Qed.
#[export] Instance below_trans ds : Transitive (below ds).
Proof. intros a b c. unfold below. apply transitivity. Qed.

Section linked.
Context (ds : list Draft) (Hlinked : Linked ds).

Lemma child_parent n d c : ds !! n = Some d → c ∈ d_children d → parent_at ds c = Some n.
Proof. intros Hd. by rewrite (lk_children ds Hlinked n d c Hd). Qed.

Lemma below_rank rank a h :
  (∀ h p, parent_at ds h = Some p → rank p < rank h) → below ds a h → a = h ∨ rank a < rank h.
Proof.
  intros Hr. induction 1 as [|x y z Hxy _ IH]; [by left|]. right. apply Hr in Hxy.
  destruct IH as [->|]; lia.
Qed.

Lemma below_antisym a h : below ds a h → below ds h a → a = h.
Proof.
  destruct (lk_rank ds Hlinked) as [rank Hr]. intros H1 H2.
  destruct (below_rank rank a h Hr H1), (below_rank rank h a Hr H2); subst; try done. lia.
Qed.

(** The nodes above one are in a line. *)
Lemma below_chain a b h : below ds a h → below ds b h → below ds a b ∨ below ds b a.
Proof.
  intros Ha Hb. revert b Hb. induction Ha as [h|a x h Hax Hxh IH]; intros b Hb; [by right|].
  destruct (IH b Hb) as [Hxb|Hbx].
  - left. by eapply rtc_l.
  - apply rtc_inv_r in Hbx as [->|(y & Hby & Hyx)].
    + left. by apply rtc_once.
    + right. assert (y = a) as -> by congruence. done.
Qed.

Lemma below_machine h : h < length ds → below ds MACHINE h.
Proof.
  destruct (lk_rank ds Hlinked) as [rank Hr].
  assert (∀ n h, rank h < n → h < length ds → below ds MACHINE h) as Hn; [|eauto].
  intros n. induction n as [|n IH]; intros x Hx Hlt; [lia|].
  destruct (parent_at ds x) as [p|] eqn:Hp.
  - eapply rtc_r; [apply (IH p)|done]; [apply Hr in Hp; lia|by eapply lk_parent].
  - apply (lk_top ds Hlinked x Hlt) in Hp. by subst.
Qed.

(** ** The tree below a node *)

Lemma nodes_below t h : spans ds t → h ∈ nodes t ↔ below ds (root t) h.
Proof.
  revert h. induction t as [n ts IH] using rose_ind'. intros h.
  rewrite spans_unfold. intros [(d & Hd & Hch) Hts]. simpl. rewrite elem_of_cons, elem_of_concat.
  rewrite Forall_forall in IH, Hts. split.
  - intros [->|(l & Hh & (t & -> & Ht)%list_elem_of_fmap)]; [done|].
    apply (IH t Ht) in Hh; [|by apply Hts]. eapply rtc_l; [|done].
    eapply child_parent; [done|]. rewrite Hch. apply list_elem_of_fmap. eauto.
  - intros [->|(c & Hc & Hch')]%rtc_inv; [by left|]. right.
    apply (lk_children ds Hlinked n d c Hd) in Hc. rewrite Hch in Hc.
    apply list_elem_of_fmap in Hc as (t & -> & Ht). exists (nodes t). split.
    + apply IH; [done|by apply Hts|done].
    + apply list_elem_of_fmap. eauto.
Qed.

Lemma siblings_apart n d a b h :
  ds !! n = Some d → a ∈ d_children d → b ∈ d_children d →
  below ds a h → below ds b h → a = b.
Proof.
  intros Hd Ha Hb Hah Hbh.
  pose proof (child_parent n d a Hd Ha) as Hpa. pose proof (child_parent n d b Hd Hb) as Hpb.
  destruct (lk_rank ds Hlinked) as [rank Hr].
  assert (∀ x y, parent_at ds x = Some n → parent_at ds y = Some n → below ds x y → x = y)
    as Hside.
  { intros x y Hx Hy Hxy. apply rtc_inv_r in Hxy as [->|(z & Hxz & Hz)]; [done|].
    assert (z = n) as -> by congruence. apply Hr in Hx.
    destruct (below_rank rank _ _ Hr Hxz); subst; lia. }
  destruct (below_chain a b h Hah Hbh); [by apply Hside|symmetry; by apply Hside].
Qed.

Lemma NoDup_nodes t : spans ds t → NoDup (nodes t).
Proof.
  induction t as [n ts IH] using rose_ind'. rewrite spans_unfold.
  intros [(d & Hd & Hch) Hts]. simpl.
  pose proof (lk_NoDup ds Hlinked n d Hd) as Hnd. rewrite Hch in Hnd.
  assert (∀ t, t ∈ ts → root t ∈ d_children d) as Hin.
  { intros t Ht. rewrite Hch. apply list_elem_of_fmap. eauto. }
  constructor.
  - rewrite elem_of_concat. intros (l & Hn & (t & -> & Ht)%list_elem_of_fmap).
    rewrite Forall_forall in Hts. apply nodes_below in Hn; [|by apply Hts].
    pose proof (child_parent n d _ Hd (Hin t Ht)) as Hp.
    destruct (lk_rank ds Hlinked) as [rank Hr]. apply Hr in Hp.
    destruct (below_rank rank _ _ Hr Hn) as [<-|]; lia.
  - clear Hch. induction ts as [|t ts IHts]; simpl; [constructor|].
    apply Forall_cons in IH as [IHt IH], Hts as [Ht Hts]. apply NoDup_cons in Hnd as [Hnt Hnd].
    apply NoDup_app. split_and!; [auto| |apply IHts; auto].
    + intros h Hh. rewrite elem_of_concat. intros (l & Hhl & (u & -> & Hu)%list_elem_of_fmap).
      rewrite Forall_forall in Hts. apply nodes_below in Hh, Hhl; auto.
      apply Hnt, list_elem_of_fmap. exists u. split; [|done].
      eapply siblings_apart; [done|apply Hin..|done|done]; [left|by right].
    + intros u Hu. apply Hin. by right.
Qed.

Lemma grow k n rank B :
  (∀ h p, parent_at ds h = Some p → rank p < rank h) → (∀ h, h < length ds → rank h ≤ B) →
  n < length ds → B < rank n + k → ∃ t, spans ds t ∧ root t = n.
Proof.
  intros Hr HB. revert n. induction k as [|k IH]; intros n Hn Hk; [specialize (HB n Hn); lia|].
  destruct (lookup_lt_is_Some_2 ds n Hn) as [d Hd].
  assert (∃ ts, Forall (spans ds) ts ∧ d_children d = root <$> ts) as (ts & Hts & Hch).
  { assert (∀ c, c ∈ d_children d → ∃ t, spans ds t ∧ root t = c) as Hc.
    { intros c Hc%(child_parent n d c Hd). apply IH; [|apply Hr in Hc; lia].
      unfold parent_at in Hc. destruct (ds !! c) eqn:Hdc; [|done]. by eapply lookup_lt_Some. }
    clear Hd. induction (d_children d) as [|c l IHl]; [by exists []|].
    destruct (Hc c) as (t & Ht & <-); [left|]. destruct IHl as (ts & Hts & ->).
    { intros c' Hc'. apply Hc. by right. }
    exists (t :: ts). split; [by constructor|done]. }
  exists (Rose n ts). split; [|done]. apply spans_unfold. eauto.
Qed.

Lemma spans_machine : ∃ t, spans ds t ∧ root t = MACHINE.
Proof.
  destruct (lk_rank ds Hlinked) as [rank Hr].
  set (B := max_list (rank <$> seq 0 (length ds))).
  apply (grow (S B) MACHINE rank B); [done| |by apply lk_machine|lia].
  intros h Hh. apply max_list_elem_of_le, list_elem_of_fmap. exists h.
  split; [done|]. apply elem_of_seq. lia.
Qed.

Lemma spans_all t : spans ds t → root t = MACHINE → nodes t ≡ₚ seq 0 (length ds).
Proof.
  intros Ht Hr. apply NoDup_Permutation; [by apply NoDup_nodes|apply NoDup_seq|].
  intros h. rewrite nodes_below, Hr, elem_of_seq by done. split.
  - intros Hb. split; [lia|]. apply rtc_inv_r in Hb as [<-|(y & _ & Hy)]; [by apply lk_machine|].
    unfold parent_at in Hy. destruct (ds !! h) eqn:Hd; [|done]. by eapply lookup_lt_Some.
  - intros [_ Hh]. by apply below_machine.
Qed.

Lemma rose_size_nodes t : rose_size t = length (nodes t).
Proof.
  induction t as [n ts IH] using rose_ind'. simpl. f_equal.
  induction IH as [|t ts Ht _ IH]; [done|]. simpl. by rewrite length_app, Ht, IH.
Qed.

End linked.

(** ** The state of a walk *)

Definition has_down (ds : list Draft) (h : Handle) : Prop :=
  ∃ d t, ds !! h = Some d ∧ d_down d = Some t.

(** The targets of a node. *)
Definition targets_of (ds : list Draft) (h : Handle) : list Target :=
  match ds !! h with Some d => option_list (d_down d) ++ d_up d | None => [] end.

(** The same drafts, with some of their targets taken. *)
Definition shaped (ds dw : list Draft) : Prop :=
  ∀ i, ∃ x y, dw !! i = (λ d, set_down x (set_up y d)) <$> (ds !! i).

(** Every node with a check knows where it is. *)
Record known (ds : list Draft) (own : list Handle) (w : Walk) : Prop := {
  kn_own : length own = length (w_checks w);
  kn_down : length (w_down_at w) = length ds;
  kn_at : ∀ x k, w_down_at w !! x = Some (Some k) →
    ∃ c, w_checks w !! k = Some c ∧ own !! k = Some x ∧ ck_phase c = Phase_Down;
}.

(** What a check at [j], of the node [h], waits on; [own] tells whose each check is. *)
Record sound (ds : list Draft) (base : nat) (own : list Handle) (checks : list Check)
    (j : nat) (h : Handle) (c : Check) : Prop := {
  sd_waits : ∀ k, k ∈ waits_on c → k < j;
  sd_listed : ∃ d, ds !! h = Some d ∧
    match ck_phase c with
    | Phase_Down => d_down d = Some (ck_target c)
    | Phase_Up => ck_target c ∈ d_up d
    end;
  sd_first : ck_phase c = Phase_Down →
    ∀ k x, base ≤ k → own !! k = Some x → below ds h x → j ≤ k;
  sd_nearest : ck_phase c = Phase_Down →
    ∀ a, below ds a h → a ≠ h → has_down ds a →
    ∃ k a' c', k ∈ ck_after c ∧ own !! k = Some a' ∧ checks !! k = Some c' ∧
      ck_phase c' = Phase_Down ∧ below ds a a' ∧ below ds a' h ∧ a' ≠ h;
  sd_within : ck_phase c = Phase_Up →
    (ck_within c).2 = j ∧ base ≤ (ck_within c).1 ∧
    ∀ k x, base ≤ k → own !! k = Some x →
      (below ds h x → (ck_within c).1 ≤ k) ∧
      (below ds h x → x ≠ h → k < j) ∧
      ((ck_within c).1 ≤ k < j → below ds h x);
}.

Lemma sound_extend ds base base' own tail checks checks' j h c :
  base' ≤ base → j < length own →
  (∀ k x, base' ≤ k → (own ++ tail) !! k = Some x → below ds h x → base ≤ k < length own) →
  sound ds base own checks j h c → sound ds base' (own ++ tail) (checks ++ checks') j h c.
Proof.
  intros Hbase Hj Hout [Hw Hl Hf Hn Hi]. split; [done|done|..].
  - intros Hp k x Hk Hx Hb. destruct (Hout k x Hk Hx Hb) as [? Hlt].
    rewrite lookup_app_l in Hx by done. eauto.
  - intros Hp a Ha Hne Hd. destruct (Hn Hp a Ha Hne Hd) as (k & a' & c' & ? & Hk & Hc & ?).
    exists k, a', c'. split; [done|]. rewrite lookup_app_l by (by eapply lookup_lt_Some).
    rewrite lookup_app_l by (by eapply lookup_lt_Some). done.
  - intros Hp. destruct (Hi Hp) as (Hj2 & Hs & Hk'). split; [done|]. split; [lia|].
    intros k x Hk Hx.
    assert (below ds h x → base ≤ k ∧ own !! k = Some x) as Hin.
    { intros Hb. destruct (Hout k x Hk Hx Hb) as [? Hlt]. by rewrite lookup_app_l in Hx by done. }
    split_and!.
    + intros Hb. destruct (Hin Hb) as [Hk1 Hx1]. by apply (Hk' k x Hk1 Hx1).
    + intros Hb. destruct (Hin Hb) as [Hk1 Hx1]. by apply (Hk' k x Hk1 Hx1).
    + intros [Hk1 Hk2]. rewrite lookup_app_l in Hx by lia. apply (Hk' k x); [lia|done|lia].
Qed.

(** What visiting the nodes [l] does to a walk. *)
Record emits (ds : list Draft) (l : list Handle) (w : Walk) (own : list Handle) (w' : Walk)
    (own' : list Handle) : Prop := {
  em_shaped : shaped ds (w_drafts w');
  em_others : ∀ h, h ∉ l → w_drafts w' !! h = w_drafts w !! h;
  em_known : known ds (own ++ own') w';
  em_checks : ∃ new, w_checks w' = w_checks w ++ new ∧
    (ck_target <$> new) ≡ₚ l ≫= targets_of ds;
  em_own : ∀ h, h ∈ own' → h ∈ l;
  em_down : ∀ h, h ∉ l → w_down_at w' !! h = w_down_at w !! h;
  em_has : ∀ h, h ∈ l → has_down ds h → ∃ k, w_down_at w' !! h = Some (Some k);
  em_sound : ∀ j h c, length (w_checks w) ≤ j → (own ++ own') !! j = Some h →
    w_checks w' !! j = Some c →
    sound ds (length (w_checks w)) (own ++ own') (w_checks w') j h c;
}.

Lemma emits_nil ds w own :
  shaped ds (w_drafts w) → known ds own w → emits ds [] w own w [].
Proof.
  intros Hs Hk. split; rewrite ?app_nil_r; try done.
  - by exists []; rewrite app_nil_r.
  - by intros h ?%elem_of_nil.
  - intros j h c Hj Hh. apply lookup_lt_Some in Hh. rewrite (kn_own _ _ _ Hk) in Hh. lia.
Qed.

(** One after the other, where nothing of the one is below the other. *)
Lemma emits_app ds l1 l2 w own w1 own1 w2 own2 :
  known ds own w →
  (∀ h x, h ∈ l1 → below ds h x → x ∈ l1) → (∀ h x, h ∈ l2 → below ds h x → x ∈ l2) →
  (∀ x, x ∈ l1 → x ∈ l2 → False) →
  emits ds l1 w own w1 own1 → emits ds l2 w1 (own ++ own1) w2 own2 →
  emits ds (l1 ++ l2) w own w2 (own1 ++ own2).
Proof.
  intros Hk0 Hc1 Hc2 Hd H1 H2.
  destruct (em_checks _ _ _ _ _ _ H1) as (n1 & Hn1 & Hp1).
  destruct (em_checks _ _ _ _ _ _ H2) as (n2 & Hn2 & Hp2).
  pose proof (kn_own _ _ _ Hk0) as Hl0.
  pose proof (kn_own _ _ _ (em_known _ _ _ _ _ _ H1)) as Hl1.
  split; rewrite ?(assoc_L (++) own own1 own2).
  - apply H2.
  - intros h [Ha Hb]%not_elem_of_app. by rewrite (em_others _ _ _ _ _ _ H2), (em_others _ _ _ _ _ _ H1).
  - apply H2.
  - exists (n1 ++ n2). rewrite Hn2, Hn1, (assoc_L (++)), fmap_app, bind_app, Hp1, Hp2. done.
  - intros h [Ha|Ha]%elem_of_app; apply elem_of_app; [left; by apply H1|right; by apply H2].
  - intros h [Ha Hb]%not_elem_of_app. by rewrite (em_down _ _ _ _ _ _ H2), (em_down _ _ _ _ _ _ H1).
  - intros h [Ha|Ha]%elem_of_app Hhas; [|by apply H2].
    rewrite (em_down _ _ _ _ _ _ H2) by (intros ?; by eapply Hd). by apply H1.
  - intros j h c Hj Hh Hc.
    assert (length (w_checks w) ≤ length (w_checks w1)) as Hle
      by (rewrite Hn1, length_app; lia).
    assert (∀ k x, length (w_checks w) ≤ k → (own ++ own1) !! k = Some x → x ∈ l1) as Hin1.
    { intros k x Hkx Hx. rewrite lookup_app_r in Hx by lia.
      apply (em_own _ _ _ _ _ _ H1). by eapply list_elem_of_lookup_2. }
    assert (∀ k x, length (own ++ own1) ≤ k → ((own ++ own1) ++ own2) !! k = Some x → x ∈ l2)
      as Hin2.
    { intros k x Hkx Hx. rewrite lookup_app_r in Hx by lia.
      apply (em_own _ _ _ _ _ _ H2). by eapply list_elem_of_lookup_2. }
    destruct (decide (j < length (own ++ own1))) as [Hlt|Hge].
    + rewrite lookup_app_l in Hh by done. rewrite Hn2.
      apply (sound_extend ds (length (w_checks w))); [done|done| |].
      * intros k x Hkx Hx Hb. split; [done|].
        destruct (decide (k < length (own ++ own1))); [done|].
        exfalso. apply (Hd x); [|by apply (Hin2 k x); [lia|]].
        eapply Hc1; [|exact Hb]. by apply (Hin1 j h).
      * apply H1; [done|done|]. rewrite Hn2 in Hc. rewrite lookup_app_l in Hc; [done|]. lia.
    + rewrite <- (app_nil_r ((own ++ own1) ++ own2)), <- (app_nil_r (w_checks w2)).
      apply (sound_extend ds (length (w_checks w1))); [done|by eapply lookup_lt_Some| |].
      * rewrite app_nil_r. intros k x Hkx Hx Hb. split; [|by eapply lookup_lt_Some].
        destruct (decide (length (w_checks w1) ≤ k)); [done|]. exfalso.
        rewrite lookup_app_l in Hx by lia. apply (Hd x); [by apply (Hin1 k x)|].
        eapply Hc2; [|exact Hb]. apply (Hin2 j h); [lia|done].
      * apply H2; [lia|done|done].
Qed.

(** ** One visit *)

Lemma shaped_parent ds dw i : shaped ds dw → parent_at dw i = parent_at ds i.
Proof. intros Hs. unfold parent_at. destruct (Hs i) as (x & y & ->). by destruct (ds !! i). Qed.

Lemma shaped_some ds dw i d :
  shaped ds dw → ds !! i = Some d → ∃ x y, dw !! i = Some (set_down x (set_up y d)).
Proof. intros Hs Hi. destruct (Hs i) as (x & y & He). rewrite Hi in He. simpl in He. eauto. Qed.

Lemma shaped_length ds dw : shaped ds dw → length dw = length ds.
Proof.
  intros Hs. apply same_is_Some_length. intros i. destruct (Hs i) as (x & y & ->).
  by rewrite fmap_is_Some.
Qed.

Lemma shaped_change ds dw i d x y :
  shaped ds dw → ds !! i = Some d → shaped ds (<[i := set_down x (set_up y d)]> dw).
Proof.
  intros Hs Hi j. destruct (decide (j = i)) as [->|].
  - exists x, y. destruct (shaped_some _ _ _ _ Hs Hi) as (?&?&Hw).
    rewrite list_lookup_insert_eq by (by eapply lookup_lt_Some). by rewrite Hi.
  - rewrite list_lookup_insert_ne by done. apply Hs.
Qed.

Section visits.
Context (ds : list Draft) (Hlinked : Linked ds).

Lemma resolved_total own w l :
  known ds own w → (∀ t, t ∈ l → t < length ds) →
  ∃ refs, resolved (w_down_at w) l = Some refs ∧ ∀ k, k ∈ refs → k < length (w_checks w).
Proof.
  intros [Ho Hd Ha] Hl. unfold resolved.
  assert (∃ found, mapM (λ target, w_down_at w !! target) l = Some found ∧
    ∀ k, Some k ∈ found → k < length (w_checks w)) as (found & -> & Hf).
  { induction l as [|t l IH]; [exists []; split; [done|by intros ? ?%elem_of_nil]|].
    destruct IH as (found & Hfound & Hf); [intros; apply Hl; by right|].
    assert (t < length (w_down_at w)) as [o Hto]%lookup_lt_is_Some_2
      by (rewrite Hd; apply Hl; left).
    exists (o :: found). simpl. rewrite Hto. simpl. rewrite Hfound. split; [done|].
    intros k [<-|Hk]%elem_of_cons; [|auto].
    destruct (Ha t k Hto) as (c & Hc & _). by eapply lookup_lt_Some. }
  exists (omap id found). split; [done|]. intros k (o & Ho' & Hk)%list_elem_of_omap.
  simpl in Hk. subst. auto.
Qed.

(** The search for the nearest check above. *)
Lemma nearest_from_spec dw da m seen rank p :
  (∀ h p, parent_at ds h = Some p → rank p < rank h) →
  shaped ds dw → length da = length ds →
  NoDup seen → (∀ x, x ∈ seen → x < length ds ∧ rank p < rank x) →
  p < length ds → length ds < length seen + m →
  ∃ r, nearest_from m dw da (Some p) = Some r ∧
    (∀ i, r = Some i → ∃ a, below ds a p ∧ da !! a = Some (Some i)) ∧
    (∀ a k, below ds a p → da !! a = Some (Some k) →
       ∃ i a', r = Some i ∧ da !! a' = Some (Some i) ∧ below ds a a' ∧ below ds a' p).
Proof.
  intros Hr Hs Hda. revert seen p. induction m as [|m IH]; intros seen p Hnd Hseen Hp Hlen.
  { assert (length seen ≤ length ds); [|lia]. apply NoDup_below; [done|].
    intros x Hx. by apply Hseen. }
  assert (p < length da) as [o Ho]%lookup_lt_is_Some_2 by lia.
  cbn [nearest_from]. rewrite Ho. simpl. destruct o as [i|].
  { exists (Some i). split; [done|]. split.
    - intros ? [= <-]. by exists p.
    - intros a k Ha _. exists i, p. by repeat split. }
  destruct (lookup_lt_is_Some_2 ds p Hp) as [d Hd].
  destruct (shaped_some _ _ _ _ Hs Hd) as (x & y & Hw). rewrite Hw. simpl.
  assert (parent_at ds p = d_parent d) as Hpar by (unfold parent_at; by rewrite Hd).
  destruct (d_parent d) as [q|] eqn:Hq.
  - destruct (IH (p :: seen) q) as (r & Hr1 & Hr2 & Hr3).
    + constructor; [|done]. intros Hin. apply Hseen in Hin. lia.
    + intros z [->|Hz]%elem_of_cons; [by auto|]. apply Hr in Hpar.
      destruct (Hseen z Hz). split; [done|lia].
    + by eapply lk_parent.
    + simpl. lia.
    + assert (below ds q p) as Hqp by by apply rtc_once.
      exists r. split; [done|]. split.
      * intros i Hi. destruct (Hr2 i Hi) as (a & Ha & Hai). exists a. split; [|done]. by trans q.
      * intros a k Ha Hak. apply rtc_inv_r in Ha as [->|(z & Haz & Hz)]; [congruence|].
        assert (z = q) as -> by congruence.
        destruct (Hr3 a k Haz Hak) as (i & a' & -> & Hi & Haa & Hab).
        exists i, a'. split_and!; [done..|]. by trans q.
  - exists None. replace (nearest_from m dw da None) with (Some (@None nat)) by by destruct m.
    split; [done|]. split; [done|]. intros a k Ha Hak.
    apply rtc_inv_r in Ha as [->|(z & Haz & Hz)]; congruence.
Qed.

Lemma nearest_down_spec dw da node :
  shaped ds dw → length da = length ds → node < length ds →
  ∃ r, nearest_down dw node da = Some r ∧
    (∀ i, r = Some i → ∃ a, da !! a = Some (Some i)) ∧
    (∀ a k, below ds a node → a ≠ node → da !! a = Some (Some k) →
       ∃ i a', r = Some i ∧ da !! a' = Some (Some i) ∧ below ds a a' ∧ below ds a' node ∧
         a' ≠ node).
Proof.
  intros Hs Hda Hn. destruct (lk_rank ds Hlinked) as [rank Hr].
  destruct (lookup_lt_is_Some_2 ds node Hn) as [d Hd]. unfold nearest_down.
  rewrite (shaped_length _ _ Hs). destruct (shaped_some _ _ _ _ Hs Hd) as (x & y & Hw). rewrite Hw. simpl.
  assert (parent_at ds node = d_parent d) as Hpar by (unfold parent_at; by rewrite Hd).
  destruct (d_parent d) as [p|] eqn:Hp.
  - destruct (nearest_from_spec dw da (length ds) [node] rank p) as (r & Hr1 & Hr2 & Hr3);
      try done.
    + apply NoDup_singleton.
    + intros z ->%list_elem_of_singleton. auto.
    + by eapply lk_parent.
    + simpl. lia.
    + exists r. split; [done|]. split; [naive_solver|]. intros a k Ha Hne Hak.
      apply rtc_inv_r in Ha as [->|(z & Haz & Hz)]; [done|].
      assert (z = p) as -> by congruence.
      destruct (Hr3 a k Haz Hak) as (i & a' & -> & Hi & Haa & Hab).
      exists i, a'. split_and!; [done..|by eapply rtc_r|].
      intros ->. apply Hr in Hpar. destruct (below_rank ds rank _ _ Hr Hab); subst; lia.
  - exists None. replace (nearest_from _ dw da None) with (Some (@None nat))
      by by destruct (length ds).
    split; [done|]. split; [done|]. intros a k Ha Hne Hak.
    apply rtc_inv_r in Ha as [->|(z & Haz & Hz)]; congruence.
Qed.

Lemma push_ups_spec opened after_ ups checks :
  ∃ new, push_ups opened after_ ups checks = checks ++ new ∧
    new = imap (λ i t, mkCheck t Phase_Up after_ (opened, length checks + i)) ups.
Proof.
  eexists. split; [|done]. unfold push_ups. revert checks.
  induction ups as [|t ups IH]; intros checks; simpl; [by rewrite app_nil_r|].
  rewrite IH, <- (assoc_L (++)). simpl. rewrite Nat.add_0_r. do 2 f_equal.
  apply imap_ext. intros i t' _. simpl. rewrite length_app. simpl. do 2 f_equal. lia.
Qed.

(** Every node with a check above [n] has it listed. *)
Definition above_listed (w : Walk) (n : Handle) : Prop :=
  ∀ a, below ds a n → a ≠ n → has_down ds a → ∃ k, w_down_at w !! a = Some (Some k).

Lemma visit_down_spec n d w own stack :
  ds !! n = Some d → shaped ds (w_drafts w) → w_drafts w !! n = Some d → known ds own w →
  above_listed w n →
  ∃ w1 new, visit_down n (mkWalk (w_drafts w) (w_down_at w) (w_checks w) stack) = Some w1 ∧
    w_stack w1 = ((λ child, (child, None)) <$> d_children d) ++
      (n, Some (length (w_checks w))) :: stack ∧
    shaped ds (w_drafts w1) ∧ (∀ h, h ≠ n → w_drafts w1 !! h = w_drafts w !! h) ∧
    (∃ x, w_drafts w1 !! n = Some (set_down x d)) ∧
    w_checks w1 = w_checks w ++ new ∧ ck_target <$> new = option_list (d_down d) ∧
    known ds (own ++ replicate (length new) n) w1 ∧
    (∀ h, h ≠ n → w_down_at w1 !! h = w_down_at w !! h) ∧
    (has_down ds n → ∃ k, w_down_at w1 !! n = Some (Some k)) ∧
    ∀ c, c ∈ new → ck_phase c = Phase_Down ∧ (∀ k, k ∈ waits_on c → k < length (w_checks w)) ∧
      ∀ a, below ds a n → a ≠ n → has_down ds a →
      ∃ k a' c', k ∈ ck_after c ∧ own !! k = Some a' ∧ w_checks w !! k = Some c' ∧
        ck_phase c' = Phase_Down ∧ below ds a a' ∧ below ds a' n ∧ a' ≠ n.
Proof.
  intros Hd Hs Hw Hk Ha. unfold visit_down. cbn [w_drafts w_checks w_down_at w_stack].
  rewrite Hw. simpl. pose proof Hk as [Hown Hlen Hat].
  assert (n < length ds) as Hn by (by eapply lookup_lt_Some).
  destruct (d_down d) as [t|] eqn:Hdown.
  - destruct (nearest_down_spec (w_drafts w) (w_down_at w) n Hs Hlen Hn)
      as (r & Hr1 & Hr2 & Hr3). rewrite Hr1. simpl.
    destruct (resolved_total own w (d_refers d) Hk) as (refs & Hrefs & Hlt).
    { intros x Hx. eapply (lk_refers ds Hlinked d); [by eapply list_elem_of_lookup_2|].
      apply elem_of_app. by left. }
    rewrite Hrefs. simpl. eexists _, [_]. split; [done|]. simpl.
    split_and!; [done| | |eexists; apply list_lookup_insert_eq; by eapply lookup_lt_Some
      |done|done| | | |].
    + replace (set_down None d) with (set_down None (set_up (d_up d) d)) by by destruct d.
      by apply shaped_change.
    + intros h Hh. by rewrite list_lookup_insert_ne.
    + split; simpl.
      * rewrite !length_app. simpl. lia.
      * by rewrite length_insert.
      * intros x k. destruct (decide (x = n)) as [->|Hx].
        -- rewrite list_lookup_insert_eq by lia. intros [= <-].
           rewrite lookup_app_r by lia. rewrite Nat.sub_diag. eexists. split; [done|].
           rewrite lookup_app_r by lia. rewrite Hown, Nat.sub_diag. done.
        -- rewrite list_lookup_insert_ne by done. intros (c & Hc & Ho & Hp)%Hat.
           exists c. rewrite !lookup_app_l by (by eapply lookup_lt_Some). done.
    + intros h Hh. by rewrite list_lookup_insert_ne.
    + intros _. rewrite list_lookup_insert_eq by lia. eauto.
    + intros c ->%list_elem_of_singleton. split; [done|]. split.
      * intros k. unfold waits_on. simpl. rewrite app_nil_r, elem_of_app.
        intros [Hkr|Hkr]; [|by apply Hlt]. destruct r as [i|]; [|by apply elem_of_nil in Hkr].
        apply list_elem_of_singleton in Hkr. subst. destruct (Hr2 i eq_refl) as (x & Hx).
        destruct (Hat _ _ Hx) as (c & Hc & _). by eapply lookup_lt_Some.
      * intros a Hb Hne Hhas. destruct (Ha a Hb Hne Hhas) as [k Hka].
        destruct (Hr3 a k Hb Hne Hka) as (i & a' & -> & Hi & Haa & Han & Hne').
        destruct (Hat _ _ Hi) as (c' & Hc' & Ho' & Hp'). exists i, a', c'.
        split_and!; [|done..]. simpl. left.
  - eexists _, []. split; [done|]. simpl. rewrite !app_nil_r.
    split_and!; [done|done|done| |done|done|done|done| |by intros c ?%elem_of_nil].
    + exists (d_down d). rewrite Hw. by destruct d.
    + intros (d' & t & Hd' & Ht). congruence.
Qed.

Lemma visit_up_spec n d opened w own stack :
  ds !! n = Some d → shaped ds (w_drafts w) → (∃ x, w_drafts w !! n = Some (set_down x d)) →
  known ds own w →
  ∃ w1 after_ new, visit_up n opened (mkWalk (w_drafts w) (w_down_at w) (w_checks w) stack) = Some w1 ∧
    w_stack w1 = stack ∧ shaped ds (w_drafts w1) ∧
    (∀ h, h ≠ n → w_drafts w1 !! h = w_drafts w !! h) ∧
    w_checks w1 = w_checks w ++ new ∧ w_down_at w1 = w_down_at w ∧
    new = imap (λ i t, mkCheck t Phase_Up after_ (opened, length (w_checks w) + i)) (d_up d) ∧
    known ds (own ++ replicate (length new) n) w1 ∧
    (∀ k, k ∈ after_ → k < length (w_checks w)).
Proof.
  intros Hd Hs [x Hw] Hk. unfold visit_up. cbn [w_drafts w_checks w_down_at w_stack].
  rewrite Hw. simpl. pose proof Hk as [Hown Hlen Hat].
  assert (∀ t, t ∈ d_refers d ++ d_up_refers d → t < length ds) as Hrange.
  { intros t. apply (lk_refers ds Hlinked d). by eapply list_elem_of_lookup_2. }
  destruct (resolved_total own w (d_refers d) Hk) as (r1 & Hr1 & Hlt1).
  { intros t Ht. apply Hrange, elem_of_app. by left. }
  destruct (resolved_total own w (d_up_refers d) Hk) as (r2 & Hr2 & Hlt2).
  { intros t Ht. apply Hrange, elem_of_app. by right. }
  rewrite Hr1. simpl. rewrite Hr2. simpl.
  destruct (push_ups_spec opened (r1 ++ r2) (d_up d) (w_checks w)) as (new & Hnew & Himap).
  eexists _, (r1 ++ r2), new. split; [done|]. simpl. rewrite Hnew.
  split_and!; [done| | |done|done|done| |].
  - replace (set_up [] (set_down x d)) with (set_down x (set_up [] d)) by done.
    by apply shaped_change.
  - intros h Hh. by rewrite list_lookup_insert_ne.
  - split; simpl; [|done|].
    + rewrite !length_app, length_replicate. lia.
    + intros y k (c & Hc & Ho & Hp)%Hat. exists c.
      rewrite !lookup_app_l by (by eapply lookup_lt_Some). done.
  - intros k [?|?]%elem_of_app; auto.
Qed.

(** ** A node and what is below it *)

Section node.
Context (n : Handle) (d : Draft) (lf : list Handle) (Hd : ds !! n = Some d)
  (Hlf : ∀ h, h ∈ lf → below ds n h ∧ h ≠ n)
  (w w1 w2 w3 : Walk) (own ownf : list Handle) (downs ups : list Check)
  (Hk : known ds own w)
  (Hdowns : w_checks w1 = w_checks w ++ downs)
  (Hdown_targets : ck_target <$> downs = option_list (d_down d))
  (Hdown_ok : ∀ c, c ∈ downs → ck_phase c = Phase_Down ∧
     (∀ k, k ∈ waits_on c → k < length (w_checks w)) ∧
     ∀ a, below ds a n → a ≠ n → has_down ds a →
     ∃ k a' c', k ∈ ck_after c ∧ own !! k = Some a' ∧ w_checks w !! k = Some c' ∧
       ck_phase c' = Phase_Down ∧ below ds a a' ∧ below ds a' n ∧ a' ≠ n)
  (Hf : emits ds lf w1 (own ++ replicate (length downs) n) w2 ownf)
  (Hups : w_checks w3 = w_checks w2 ++ ups)
  (after_ : list nat) (Hafter : ∀ k, k ∈ after_ → k < length (w_checks w2))
  (Hups_eq : ups = imap (λ i t, mkCheck t Phase_Up after_
     (length (w_checks w), length (w_checks w2) + i)) (d_up d)).

Definition own3 : list Handle := (own ++ replicate (length downs) n) ++ ownf ++ replicate (length ups) n.

Lemma downs_single : downs = [] ∨ ∃ c t, downs = [c] ∧ d_down d = Some t ∧ ck_target c = t.
Proof.
  destruct downs as [|c [|c' l]]; [by left| |];
    destruct (d_down d) as [t|]; simpl in Hdown_targets; try done.
  right. exists c, t. by injection Hdown_targets as ->.
Qed.

Lemma own_below k x : length (w_checks w) ≤ k → own3 !! k = Some x → below ds n x.
Proof.
  unfold own3. intros Hle Hx. rewrite <- (assoc_L (++) own) in Hx.
  rewrite lookup_app_r in Hx by (rewrite (kn_own _ _ _ Hk); lia).
  apply list_elem_of_lookup_2 in Hx.
  apply elem_of_app in Hx as [Hx%elem_of_replicate_inv|Hx]; [by subst|].
  apply elem_of_app in Hx as [Hx|Hx%elem_of_replicate_inv]; [|by subst].
  by apply Hlf, (em_own _ _ _ _ _ _ Hf).
Qed.

Lemma checks2_length : length (w_checks w2) = length ((own ++ replicate (length downs) n) ++ ownf).
Proof. symmetry. apply (kn_own _ _ _ (em_known _ _ _ _ _ _ Hf)). Qed.

Lemma own_forest k x : own3 !! k = Some x → length (w_checks w) ≤ k → x ≠ n → k < length (w_checks w2).
Proof.
  unfold own3. rewrite (assoc_L (++)). intros Hx Hle Hne.
  destruct (decide (k < length (w_checks w2))) as [|Hge]; [done|].
  rewrite lookup_app_r in Hx by (rewrite <- checks2_length; lia).
  apply list_elem_of_lookup_2, elem_of_replicate_inv in Hx. done.
Qed.

Lemma sound_down j h c :
  j < length (w_checks w1) → length (w_checks w) ≤ j → own3 !! j = Some h →
  w_checks w3 !! j = Some c → sound ds (length (w_checks w)) own3 (w_checks w3) j h c.
Proof.
  intros Hj Hle Hh Hc. rewrite Hdowns, length_app in Hj.
  destruct downs_single as [Hnil|(c0 & t & Hs & Ht & Hct)]; [rewrite Hnil in Hj; simpl in Hj; lia|].
  assert (j = length (w_checks w)) as -> by (rewrite Hs in Hj; simpl in Hj; lia).
  destruct (em_checks _ _ _ _ _ _ Hf) as (new & Hnew & _).
  assert (w_checks w3 = w_checks w ++ downs ++ new ++ ups) as Hw3
    by (rewrite Hups, Hnew, Hdowns, <- !(assoc_L (++)); done).
  assert (c = c0) as ->.
  { rewrite Hw3, Hs, lookup_app_r, Nat.sub_diag in Hc by lia. by injection Hc as <-. }
  assert (h = n) as ->.
  { unfold own3 in Hh. rewrite <- !(assoc_L (++)), Hs in Hh.
    rewrite lookup_app_r in Hh by (rewrite (kn_own _ _ _ Hk); lia).
    rewrite (kn_own _ _ _ Hk), Nat.sub_diag in Hh. by injection Hh as <-. }
  destruct (Hdown_ok c0) as (Hp & Hw & Hn); [rewrite Hs; left|].
  split; rewrite ?Hp; try done.
  - eexists. split; [done|]. by rewrite Hct.
  - intros _ a Ha Hne Hhas. destruct (Hn a Ha Hne Hhas) as (k & a' & c' & ? & Ho & Hc' & ?).
    exists k, a', c'. split; [done|]. unfold own3. rewrite <- !(assoc_L (++)), Hw3.
    rewrite !lookup_app_l by (by eapply lookup_lt_Some). done.
Qed.

Lemma sound_forest j h c :
  length (w_checks w1) ≤ j < length (w_checks w2) → own3 !! j = Some h →
  w_checks w3 !! j = Some c → sound ds (length (w_checks w)) own3 (w_checks w3) j h c.
Proof.
  intros [Hle Hj] Hh Hc. unfold own3 in *. rewrite (assoc_L (++)) in Hh |- *.
  rewrite lookup_app_l in Hh by (by rewrite <- checks2_length). rewrite Hups in Hc |- *.
  rewrite lookup_app_l in Hc by done.
  assert (length (own ++ replicate (length downs) n) = length (w_checks w1)) as Hlen1
    by (rewrite Hdowns, !length_app, length_replicate, (kn_own _ _ _ Hk); done).
  apply (sound_extend ds (length (w_checks w1))).
  - rewrite Hdowns, length_app. lia.
  - by rewrite <- checks2_length.
  - intros k x Hkx Hx Hb.
    assert (h ∈ lf) as [Hnh Hhn]%Hlf.
    { apply (em_own _ _ _ _ _ _ Hf). rewrite lookup_app_r in Hh by lia.
      by eapply list_elem_of_lookup_2. }
    assert (x ≠ n) as Hxn by (intros ->; apply Hhn; by apply (below_antisym ds Hlinked)).
    rewrite <- checks2_length. split.
    + destruct (decide (length (w_checks w1) ≤ k)) as [|Hlt]; [done|].
      exfalso. rewrite <- !(assoc_L (++)), (assoc_L (++) own) in Hx.
      rewrite lookup_app_l in Hx by lia.
      rewrite lookup_app_r in Hx by (rewrite (kn_own _ _ _ Hk); lia).
      by apply list_elem_of_lookup_2, elem_of_replicate_inv in Hx.
    + apply (own_forest k x); [|done..]. unfold own3. by rewrite (assoc_L (++)).
  - by apply Hf.
Qed.

Lemma sound_up j h c :
  length (w_checks w2) ≤ j → own3 !! j = Some h →
  w_checks w3 !! j = Some c → sound ds (length (w_checks w)) own3 (w_checks w3) j h c.
Proof.
  intros Hle Hh Hc.
  assert (length (w_checks w) ≤ length (w_checks w2)) as Hwle.
  { destruct (em_checks _ _ _ _ _ _ Hf) as (new & -> & _). rewrite Hdowns, !length_app. lia. }
  assert (h = n) as ->.
  { unfold own3 in Hh. rewrite (assoc_L (++)), lookup_app_r in Hh
      by (rewrite <- checks2_length; lia).
    by apply list_elem_of_lookup_2, elem_of_replicate_inv in Hh. }
  rewrite Hups, lookup_app_r in Hc by lia. rewrite Hups_eq, list_lookup_imap in Hc.
  destruct (d_up d !! (j - length (w_checks w2))) as [t|] eqn:Ht; [|done].
  simpl in Hc. injection Hc as <-.
  replace (length (w_checks w2) + (j - length (w_checks w2))) with j by lia.
  split; simpl; try done.
  - intros k. unfold waits_on. simpl. rewrite elem_of_app, elem_of_seq.
    intros [Hka%Hafter|]; lia.
  - exists d. split; [done|]. by eapply list_elem_of_lookup_2.
  - intros _. split; [done|]. split; [done|]. intros k x Hkx Hx. split_and!.
    + done.
    + intros _ Hne. pose proof (own_forest k x Hx Hkx Hne). lia.
    + intros _. by eapply own_below.
Qed.

Lemma emits_node :
  n ∉ lf → shaped ds (w_drafts w3) → known ds (((own ++ replicate (length downs) n) ++ ownf) ++ replicate (length ups) n) w3 →
  (∀ h, h ≠ n → w_drafts w1 !! h = w_drafts w !! h) →
  (∀ h, h ≠ n → w_drafts w3 !! h = w_drafts w2 !! h) →
  (∀ h, h ≠ n → w_down_at w1 !! h = w_down_at w !! h) → w_down_at w3 = w_down_at w2 →
  (has_down ds n → ∃ k, w_down_at w1 !! n = Some (Some k)) →
  emits ds (n :: lf) w own w3 (replicate (length downs) n ++ ownf ++ replicate (length ups) n).
Proof.
  intros Hnf Hs3 Hk3 Ho1 Ho3 Ha1 Ha3 Hh1.
  assert (own ++ replicate (length downs) n ++ ownf ++ replicate (length ups) n =
    own3) as Heq3 by (unfold own3; by rewrite <- !(assoc_L (++))).
  destruct (em_checks _ _ _ _ _ _ Hf) as (new & Hnew & Hperm).
  split; rewrite ?Heq3.
  - done.
  - intros h. simpl. intros [Hne Hnf']%not_elem_of_cons.
    by rewrite Ho3, (em_others _ _ _ _ _ _ Hf), Ho1.
  - rewrite <- Heq3, !(assoc_L (++)). exact Hk3.
  - exists (downs ++ new ++ ups). split.
    + rewrite Hups, Hnew, Hdowns, <- !(assoc_L (++)). done.
    + rewrite !fmap_app, Hdown_targets, Hperm. simpl. unfold targets_of at 2. rewrite Hd.
      assert (ck_target <$> ups = d_up d) as ->.
      { rewrite Hups_eq. rewrite fmap_imap. simpl. apply list_eq. intros i.
        rewrite list_lookup_imap. by destruct (d_up d !! i). }
      rewrite <- (assoc_L (++)). f_equiv. by rewrite (comm (++)).
  - intros h Hh. simpl. apply elem_of_cons.
    apply elem_of_app in Hh as [Hh%elem_of_replicate_inv|Hh]; [by left|].
    apply elem_of_app in Hh as [Hh|Hh%elem_of_replicate_inv]; [|by left].
    right. by apply (em_own _ _ _ _ _ _ Hf).
  - intros h. simpl. intros [Hne Hnf']%not_elem_of_cons.
    by rewrite Ha3, (em_down _ _ _ _ _ _ Hf), Ha1.
  - intros h. simpl. rewrite Ha3. intros [->|Hh]%elem_of_cons Hhas.
    + rewrite (em_down _ _ _ _ _ _ Hf) by done. by apply Hh1.
    + by apply (em_has _ _ _ _ _ _ Hf).
  - intros j h c Hj Hh Hc.
    destruct (decide (j < length (w_checks w1))); [by eapply sound_down|].
    destruct (decide (j < length (w_checks w2))); [eapply sound_forest|eapply sound_up]; eauto; lia.
Qed.

End node.
Lemma walk_step entry w stack k w' :
  w_stack w = entry :: stack →
  visit entry (mkWalk (w_drafts w) (w_down_at w) (w_checks w) stack) = Some w' →
  walk (S k) w = walk k w'.
Proof. intros Hw Hv. cbn [walk]. by rewrite Hw, Hv. Qed.

(** Walking the tree [t] takes two turns for each of its nodes. *)
Definition walks (t : rose) : Prop :=
  ∀ w own stack,
    shaped ds (w_drafts w) → (∀ h, h ∈ nodes t → w_drafts w !! h = ds !! h) →
    known ds own w → above_listed w (root t) → w_stack w = (root t, None) :: stack →
    ∃ w' own', (∀ k, walk (2 * rose_size t + k) w = walk k w') ∧ w_stack w' = stack ∧
      emits ds (nodes t) w own w' own'.

Lemma forest_closed n d ts h x :
  ds !! n = Some d → (∀ t, t ∈ ts → root t ∈ d_children d) → Forall (spans ds) ts →
  h ∈ concat (map nodes ts) → below ds h x → x ∈ concat (map nodes ts).
Proof.
  intros Hd Hin Hts. rewrite Forall_forall in Hts. rewrite !elem_of_concat.
  intros (l & Hl & (t & -> & Ht)%list_elem_of_fmap) Hb. exists (nodes t). split.
  - apply (nodes_below ds Hlinked); [by apply Hts|].
    apply (nodes_below ds Hlinked) in Hl; [|by apply Hts]. by trans h.
  - apply list_elem_of_fmap. eauto.
Qed.

Lemma above_not_below n t a :
  parent_at ds (root t) = Some n → spans ds t → below ds a n → a ∉ nodes t.
Proof.
  intros Hp Ht Ha Hin. apply (nodes_below ds Hlinked) in Hin; [|done].
  destruct (lk_rank ds Hlinked) as [rank Hr].
  destruct (below_rank ds rank _ _ Hr Ha), (below_rank ds rank _ _ Hr Hin);
    apply Hr in Hp; subst; lia.
Qed.

Lemma forest_walks n d ts : ds !! n = Some d →
  (∀ t, t ∈ ts → root t ∈ d_children d) → NoDup (root <$> ts) → Forall (spans ds) ts →
  Forall walks ts →
  ∀ w own stack,
    shaped ds (w_drafts w) → (∀ h, h ∈ concat (map nodes ts) → w_drafts w !! h = ds !! h) →
    known ds own w →
    (∀ a, below ds a n → has_down ds a → ∃ k, w_down_at w !! a = Some (Some k)) →
    w_stack w = ((λ c, (c, None)) <$> (root <$> ts)) ++ stack →
    ∃ w' own', (∀ k, walk (2 * foldr (λ t n, rose_size t + n) 0 ts + k) w = walk k w') ∧
      w_stack w' = stack ∧ emits ds (concat (map nodes ts)) w own w' own'.
Proof.
  intros Hd. induction ts as [|t ts IH]; intros Hin Hnd Hts Hw w own stack Hs Hfr Hk Hab Hst.
  { exists w, []. split; [done|]. split; [done|]. by apply emits_nil. }
  apply Forall_cons in Hts as [Ht Hts], Hw as [Hwt Hw]. apply NoDup_cons in Hnd as [Hnt Hnd].
  assert (root t ∈ d_children d) as Hrt by (apply Hin; left).
  pose proof (child_parent ds Hlinked n d _ Hd Hrt) as Hpt.
  destruct (Hwt w own (((λ c, (c, None)) <$> (root <$> ts)) ++ stack))
    as (w1 & own1 & Hrun1 & Hst1 & He1); [done| |done| |done|].
  { intros h Hh. apply Hfr. simpl. apply elem_of_app. by left. }
  { intros a Ha Hne Hhas. apply rtc_inv_r in Ha as [->|(z & Haz & Hz)]; [done|].
    assert (z = n) as -> by congruence. auto. }
  assert (∀ x, x ∈ nodes t → x ∈ concat (map nodes ts) → False) as Hapart.
  { intros x Hx. rewrite elem_of_concat. intros (l & Hl & (u & -> & Hu)%list_elem_of_fmap).
    rewrite Forall_forall in Hts. apply (nodes_below ds Hlinked) in Hx, Hl; auto.
    apply Hnt, list_elem_of_fmap. exists u. split; [|done].
    eapply (siblings_apart ds Hlinked); [done| |apply Hin; by right|done|done]. done. }
  assert (∀ t, t ∈ ts → root t ∈ d_children d) as Hin' by (intros u Hu; apply Hin; by right).
  destruct (IH Hin' Hnd Hts Hw w1 (own ++ own1) stack) as (w2 & own2 & Hrun2 & Hst2 & He2).
  - apply He1.
  - intros h Hh. rewrite (em_others _ _ _ _ _ _ He1) by (intros ?; by eapply Hapart).
    apply Hfr. simpl. apply elem_of_app. by right.
  - apply He1.
  - intros a Ha Hhas. rewrite (em_down _ _ _ _ _ _ He1) by (by eapply above_not_below). auto.
  - done.
  - exists w2, (own1 ++ own2). split; [|split; [done|]].
    + intros k. replace (2 * foldr (λ t n, rose_size t + n) 0 (t :: ts) + k) with
        (2 * rose_size t + (2 * foldr (λ t n, rose_size t + n) 0 ts + k)) by (simpl; lia).
      by rewrite Hrun1, Hrun2.
    + simpl. eapply emits_app; [done| | |done|done|done].
      * intros h x Hh Hb. apply (nodes_below ds Hlinked) in Hh; [|done].
        apply (nodes_below ds Hlinked); [done|]. by trans h.
      * intros h x. by eapply forest_closed.
Qed.

Lemma tree_walks t : spans ds t → walks t.
Proof.
  induction t as [n ts IH] using rose_ind'. intros Hsp w own stack Hs Hfr Hk Hab Hst.
  pose proof (NoDup_nodes ds Hlinked _ Hsp) as Hnd. simpl in Hnd.
  apply NoDup_cons in Hnd as [Hnf _].
  pose proof (proj1 (spans_unfold ds n ts) Hsp) as [(d & Hd & Hch) Hts].
  assert (∀ t, t ∈ ts → root t ∈ d_children d) as Hin.
  { intros t Ht. rewrite Hch. apply list_elem_of_fmap. eauto. }
  assert (∀ h, h ∈ concat (map nodes ts) → below ds n h ∧ h ≠ n) as Hlf.
  { intros h Hh. split; [|by intros ->]. apply (nodes_below ds Hlinked _ h Hsp).
    simpl. by right. }
  assert (w_drafts w !! n = Some d) as Hwn by (rewrite Hfr; [done|left]).
  destruct (visit_down_spec n d w own stack Hd Hs Hwn Hk Hab)
    as (w1 & downs & Hv1 & Hst1 & Hs1 & Ho1 & Hx1 & Hc1 & Ht1 & Hk1 & Hd1 & Hh1 & Hok1).
  destruct (forest_walks n d ts Hd Hin) with (w := w1) (own := own ++ replicate (length downs) n)
    (stack := (n, Some (length (w_checks w))) :: stack)
    as (w2 & ownf & Hrun2 & Hst2 & He2); [|done| |done| |done| | |].
  { rewrite <- Hch. by eapply lk_NoDup. }
  { rewrite Forall_forall in IH, Hts |- *. auto. }
  { intros h Hh. rewrite Ho1 by (by apply Hlf). apply Hfr. simpl. by right. }
  { intros a Ha Hhas. destruct (decide (a = n)) as [->|Hne]; [by apply Hh1|].
    rewrite Hd1 by done. by apply Hab. }
  { by rewrite Hst1, Hch. }
  destruct (visit_up_spec n d (length (w_checks w)) w2
    ((own ++ replicate (length downs) n) ++ ownf) stack Hd)
    as (w3 & after_ & ups & Hv3 & Hst3 & Hs3 & Ho3 & Hc3 & Hd3 & Hups & Hk3 & Haf3);
    [apply He2| |apply He2|].
  { rewrite (em_others _ _ _ _ _ _ He2) by done. done. }
  exists w3, (replicate (length downs) n ++ ownf ++ replicate (length ups) n).
  split; [|split; [done|]].
  - intros k. replace (2 * rose_size (Rose n ts) + k) with
      (S (2 * foldr (λ t n, rose_size t + n) 0 ts + S k)) by (simpl; lia).
    rewrite (walk_step (n, None) w stack _ w1 Hst Hv1), Hrun2.
    by rewrite (walk_step (n, Some (length (w_checks w))) w2 stack _ w3 Hst2 Hv3).
  - by eapply emits_node.
Qed.

End visits.
