(* ===== verification/DeclTreeSpec.v ===== *)
(** * What [finish] promises

    The checks of a declared tree, for any builder its methods make: all that was declared
    is listed once ([finish_lists]), no check waits on itself or a later one
    ([finish_ordered]), and what is above a path comes before what is below it, on the way
    down, and after it on the way up ([finish_nests]). *)
From S2P Require Import Prelude.
From S2P Require Import Paths.
From S2P Require Import Declared.
From S2P Require Import DeclTree.
From S2P Require Import DeclTreeLink.
From S2P Require Import DeclTreeWalk.

Local Open Scope nat_scope.

(** ** Leftovers *)

Definition down_writes (ds : list Draft) (h : Handle) : bool :=
  match ds !! h ≫= d_down with Some t => writes t | None => false end.

(** The check for leftovers a node gets. *)
Definition leftover_of (leftovers : option string) (ds : list Draft) (d : Draft) : list Target :=
  match leftovers, d_path d with
  | Some journals, Some dir =>
      if existsb (down_writes ds) (d_children d) then [Target_Leftovers dir journals] else []
  | _, _ => []
  end.

Definition marked (leftovers : option string) (ds ds' : list Draft) : Prop :=
  ∀ i, ds' !! i = (λ d, set_up (d_up d ++ leftover_of leftovers ds d) d) <$> (ds !! i).

Lemma set_up_nil d : set_up (d_up d ++ []) d = d.
Proof. rewrite app_nil_r. by destruct d. Qed.

Lemma mark_downs (ds ds' : list Draft) (l : list nat) :
  (∀ h, (ds' !! h) ≫= d_down = (ds !! h) ≫= d_down) → (∀ c, c ∈ l → is_Some (ds' !! c)) →
  ∃ downs, mapM (λ c, d_down <$> ds' !! c) l = Some downs ∧
    existsb (λ down, match down with Some t => writes t | None => false end) downs =
    existsb (down_writes ds) l.
Proof.
  intros Hd Hin. induction l as [|c l IH]; [by exists []|].
  destruct IH as (downs & Hdowns & Hex); [set_solver|].
  destruct (Hin c) as [d Hc]; [left|]. exists (d_down d :: downs). simpl.
  rewrite Hc. simpl. rewrite Hdowns. split; [done|]. rewrite Hex. f_equal.
  unfold down_writes. rewrite <- Hd, Hc. done.
Qed.

Lemma mark_leftovers_spec leftovers ds :
  Linked ds → ∃ ds', mark_leftovers leftovers ds = Some ds' ∧ marked leftovers ds ds'.
Proof.
  intros Hl. unfold mark_leftovers, marked. destruct leftovers as [journals|].
  2: { exists ds. split; [done|]. intros i. destruct (ds !! i); [|done]. simpl.
       by rewrite set_up_nil. }
  destruct (each_split (mark_node journals) (seq 0 (length ds))
    (λ done ds', ∀ i, ds' !! i = (λ d, set_up (d_up d ++
       (if decide (i ∈ done) then leftover_of (Some journals) ds d else [])) d) <$> (ds !! i)) ds)
    as (ds' & Hds' & Hspec).
  - intros i. destruct (ds !! i); [|done]. simpl. by rewrite set_up_nil.
  - intros done n rest ds1 Hseq Hdone.
    assert ((n ∉ done) ∧ n < length ds) as [Hnew [d Hd]%lookup_lt_is_Some_2].
    { pose proof (NoDup_seq 0 (length ds)) as Hnd. rewrite Hseq in Hnd.
      apply NoDup_app in Hnd as (_ & Hnd & _). split; [set_solver|].
      assert (n ∈ seq 0 (length ds)) as ?%elem_of_seq by (rewrite Hseq; set_solver). lia. }
    pose proof (Hdone n) as Hn1. rewrite Hd in Hn1. simpl in Hn1.
    rewrite decide_False in Hn1 by done. rewrite set_up_nil in Hn1.
    assert (mark_node journals n ds1 =
      Some (<[n := set_up (d_up d ++ leftover_of (Some journals) ds d) d]> ds1)) as Hmark.
    { unfold mark_node. rewrite Hn1. simpl.
      destruct (mark_downs ds ds1 (d_children d)) as (downs & -> & Hex).
      - intros h. rewrite Hdone. by destruct (ds !! h).
      - intros c Hc%(lk_children ds Hl n d c Hd). unfold parent_at in Hc. rewrite Hdone.
        by destruct (ds !! c).
      - simpl. rewrite Hex. unfold leftover_of.
        destruct (existsb (down_writes ds) (d_children d)), (d_path d); try done;
          rewrite set_up_nil, list_insert_id by done; done. }
    eexists. split; [exact Hmark|]. intros i. destruct (decide (i = n)) as [->|Hi].
    + rewrite list_lookup_insert_eq by (by eapply lookup_lt_Some). rewrite Hd. simpl.
      by rewrite decide_True by set_solver.
    + rewrite list_lookup_insert_ne by done. rewrite Hdone. destruct (ds !! i); [|done].
      simpl. do 3 f_equal. destruct (decide (i ∈ done)).
      * by rewrite decide_True by set_solver.
      * by rewrite decide_False by set_solver.
  - exists ds'. split; [done|]. intros i. rewrite Hspec.
    destruct (ds !! i) as [d|] eqn:Hi; [|done]. simpl. rewrite decide_True; [done|].
    apply lookup_lt_Some in Hi. apply elem_of_seq. lia.
Qed.

Lemma marked_same leftovers ds ds' i d :
  marked leftovers ds ds' → ds !! i = Some d → ∃ x, ds' !! i = Some (set_up x d).
Proof. intros Hm Hi. rewrite Hm, Hi. simpl. eauto. Qed.

Lemma marked_Linked leftovers ds ds' : marked leftovers ds ds' → Linked ds → Linked ds'.
Proof.
  intros Hm [[rank Hr] Hp Hmach Ht Hn Hc Hf].
  assert (length ds' = length ds) as Hlen.
  { apply same_is_Some_length. intros i. by rewrite Hm, fmap_is_Some. }
  assert (∀ i, parent_at ds' i = parent_at ds i) as Hpar.
  { intros i. unfold parent_at. rewrite Hm. by destruct (ds !! i). }
  assert (∀ i d', ds' !! i = Some d' → ∃ d, ds !! i = Some d ∧ d_children d' = d_children d ∧
    d_refers d' = d_refers d ∧ d_up_refers d' = d_up_refers d) as Hback.
  { intros i d'. rewrite Hm. destruct (ds !! i) as [d|]; [|done]. intros [= <-]. by exists d. }
  split.
  - exists rank. intros h p. rewrite Hpar. apply Hr.
  - intros h p. rewrite Hpar, Hlen. apply Hp.
  - by rewrite Hlen.
  - intros h. rewrite Hlen, Hpar. apply Ht.
  - intros h d' (d & Hd & -> & _)%Hback. by eapply Hn.
  - intros h d' c (d & Hd & -> & _)%Hback. rewrite Hpar. by apply Hc.
  - intros d' t [i (d & Hd & _ & -> & ->)%Hback]%list_elem_of_lookup. rewrite Hlen.
    apply Hf. by eapply list_elem_of_lookup_2.
Qed.

(** ** The whole of [finish] *)

Record finished (b : Builder) (linked ds : list Draft) (own : list Handle)
    (checks : list Check) : Prop := {
  fi_from : linked_from b linked;
  fi_tree : Linked linked;
  fi_marked : marked (b_leftovers b) linked ds;
  fi_linked : Linked ds;
  fi_own : length own = length checks;
  fi_targets : (ck_target <$> checks) ≡ₚ seq 0 (length ds) ≫= targets_of ds;
  fi_sound : ∀ j h c, own !! j = Some h → checks !! j = Some c → sound ds 0 own checks j h c;
}.

Lemma finish_spec b :
  wf b → ∃ linked ds own checks, finish b = Some checks ∧ finished b linked ds own checks.
Proof.
  intros Hb. unfold finish.
  destruct (link_spec b Hb) as (ds0 & Hlink & Hl0 & Hfrom). rewrite Hlink. simpl.
  destruct (mark_leftovers_spec (b_leftovers b) ds0 Hl0) as (ds & Hmark & Hm).
  rewrite Hmark. cbn [mbind option_bind].
  pose proof (marked_Linked _ _ _ Hm Hl0) as Hl.
  destruct (spans_machine ds Hl) as (t & Ht & Hroot).
  pose proof (spans_all ds Hl t Ht Hroot) as Hall.
  set (w := mkWalk ds (replicate (length ds) None) [] [(MACHINE, None)]).
  destruct (tree_walks ds Hl t Ht w [] []) as (w' & own & Hrun & Hst & He).
  - intros i. simpl. destruct (ds !! i) as [d|]; [|by exists None, []].
    exists (d_down d), (d_up d). by destruct d.
  - done.
  - split; simpl; [done|by rewrite length_replicate|].
    intros x k Hx. apply lookup_replicate in Hx as [? _]. done.
  - intros a Ha Hne. rewrite Hroot in *. apply rtc_inv_r in Ha as [?|(z & _ & Hz)]; [done|].
    assert (parent_at ds MACHINE = None) as Hn by (apply (lk_top ds Hl); [by apply lk_machine|done]).
    congruence.
  - by rewrite Hroot.
  - destruct (em_checks _ _ _ _ _ _ He) as (new & Hnew & Hperm). simpl in Hnew. subst new.
    exists ds0, ds, own, (w_checks w'). split.
    + assert (length (nodes t) = length ds) as Hsize by (rewrite Hall; apply length_seq).
      replace (length ds + (length ds + 0)) with (2 * rose_size t + 0) by (rewrite rose_size_nodes; lia).
      fold w. rewrite Hrun. unfold walk. by rewrite Hst.
    + split; [done..| | |].
      * pose proof (kn_own _ _ _ (em_known _ _ _ _ _ _ He)) as Ho. done.
      * by rewrite Hperm, Hall.
      * intros j h c Hj Hc. apply (em_sound _ _ _ _ _ _ He); [simpl; lia|done..].
Qed.

(** ** All that was declared *)

Definition declared_targets (b : Builder) : list Target :=
  drafts b ≫= (λ d, option_list (d_down d) ++ d_up d).

Definition leftovers_listed (leftovers : option string) (linked : list Draft) : list Target :=
  seq 0 (length linked) ≫=
    (λ i, match linked !! i with Some d => leftover_of leftovers linked d | None => [] end).

Lemma bind_app_Permutation {A B} (f g : A → list B) (l : list A) :
  l ≫= (λ x, f x ++ g x) ≡ₚ (l ≫= f) ++ (l ≫= g).
Proof.
  induction l as [|x l IH]; [done|]. csimpl. rewrite IH.
  rewrite <- !(assoc_L (++)). f_equiv. rewrite !(assoc_L (++)). f_equiv. apply (comm (++)).
Qed.

Lemma bind_seq_lookup {A B} (f : A → list B) (l : list A) :
  seq 0 (length l) ≫= (λ i, match l !! i with Some x => f x | None => [] end) = l ≫= f.
Proof.
  induction l as [|x l IH]; [done|]. csimpl. f_equal. rewrite <- IH, <- fmap_S_seq.
  by rewrite list_fmap_bind.
Qed.

Lemma bind_ext_in {A B} (f g : A → list B) (l : list A) :
  (∀ x, x ∈ l → f x = g x) → l ≫= f = l ≫= g.
Proof.
  induction l as [|x l IH]; intros Hfg; [done|]. csimpl. rewrite (Hfg x) by set_solver.
  rewrite IH by set_solver. done.
Qed.

Lemma finished_targets b linked ds own checks :
  finished b linked ds own checks →
  (ck_target <$> checks) ≡ₚ declared_targets b ++ leftovers_listed (b_leftovers b) linked.
Proof.
  intros [[Hlen Hfrom] _ Hm _ _ -> _].
  assert (length ds = length linked) as Hlen'.
  { apply same_is_Some_length. intros i. by rewrite Hm, fmap_is_Some. }
  unfold declared_targets, leftovers_listed.
  rewrite <- (bind_seq_lookup _ (drafts b)), <- Hlen, Hlen', <- bind_app_Permutation.
  apply reflexive_eq, bind_ext_in. intros i Hi%elem_of_seq.
  assert (i < length (drafts b)) as [d Hd]%lookup_lt_is_Some_2 by lia.
  destruct (Hfrom i d Hd) as (d' & Hd' & Hdown & Hup & _).
  unfold targets_of. rewrite Hm, Hd, Hd'. simpl. by rewrite Hdown, Hup, (assoc_L (++)).
Qed.

(** A node at a path some target is written right below. *)
Definition written_below (b : Builder) (dir : path) : Prop :=
  ∃ i c d t, placed b !! dir = Some i ∧ drafts b !! c = Some d ∧ d_down d = Some t ∧
    writes t = true ∧ linked_parent (placed b) c d = Some i.

Lemma elem_of_leftover b linked i d t :
  wf b → linked_from b linked → Linked linked → linked !! i = Some d →
  t ∈ leftover_of (b_leftovers b) linked d ↔
  ∃ dir j, b_leftovers b = Some j ∧ t = Target_Leftovers dir j ∧ placed b !! dir = Some i ∧
    written_below b dir.
Proof.
  intros Hb [Hlen Hfrom] Hl Hi.
  assert (i < length (drafts b)) as [d0 Hd0]%lookup_lt_is_Some_2
    by (rewrite <- Hlen; by eapply lookup_lt_Some).
  destruct (Hfrom i d0 Hd0) as (d1 & Hd1 & _ & _ & _ & _ & Hp & _).
  assert (d1 = d) as -> by congruence.
  assert (∀ dir, placed b !! dir = Some i ↔ d_path d = Some dir) as Hplaced.
  { intros dir. rewrite (wf_placed b Hb), Hp. unfold path_at. by rewrite Hd0. }
  assert (existsb (down_writes linked) (d_children d) = true ↔
    ∃ c dc tc, drafts b !! c = Some dc ∧ d_down dc = Some tc ∧ writes tc = true ∧
      linked_parent (placed b) c dc = Some i) as Hex.
  { rewrite existsb_exists. split.
    - intros (c & Hc & Hw). apply list_elem_of_In in Hc.
      apply (lk_children linked Hl i d c Hi) in Hc. unfold parent_at in Hc.
      destruct (linked !! c) as [d'|] eqn:Hdc; [|done].
      assert (c < length (drafts b)) as [dc Hdc0]%lookup_lt_is_Some_2
        by (rewrite <- Hlen; by eapply lookup_lt_Some).
      destruct (Hfrom c dc Hdc0) as (d2 & Hd2 & Hdown & _ & _ & _ & _ & Hpar).
      assert (d2 = d') as -> by congruence. unfold down_writes in Hw. rewrite Hdc in Hw.
      simpl in Hw, Hc. destruct (d_down d') as [tc|] eqn:Htc; [|done].
      exists c, dc, tc. split_and!; congruence.
    - intros (c & dc & tc & Hdc & Htc & Hw & Hpar).
      destruct (Hfrom c dc Hdc) as (d2 & Hd2 & Hdown & _ & _ & _ & _ & Hpar2).
      exists c. split.
      + apply list_elem_of_In, (lk_children linked Hl i d c Hi). unfold parent_at.
        rewrite Hd2. simpl. congruence.
      + unfold down_writes. rewrite Hd2. simpl. by rewrite Hdown, Htc. }
  unfold leftover_of. destruct (b_leftovers b) as [j|].
  2: { rewrite elem_of_nil. split; [done|]. by intros (? & ? & ? & _). }
  destruct (d_path d) as [dir|] eqn:Hdir.
  2: { rewrite elem_of_nil. split; [done|]. intros (dir & ? & _ & _ & Hc & _).
       by apply Hplaced in Hc. }
  destruct (existsb (down_writes linked) (d_children d)).
  - rewrite list_elem_of_singleton. split.
    + intros ->. exists dir, j. split_and!; [done..|by apply Hplaced|].
      destruct (proj1 Hex eq_refl) as (c & dc & tc & ?). exists i, c, dc, tc.
      split; [by apply Hplaced|done].
    + intros (dir' & j' & [= ->] & -> & Hc%Hplaced & _). congruence.
  - rewrite elem_of_nil. split; [done|].
    intros (dir' & j' & _ & _ & Hc & i' & c & dc & tc & Hi' & ?).
    assert (i' = i) as -> by congruence. by assert (false = true) by (apply Hex; eauto).
Qed.

(** A directory with a file in it and a check for the way up. *)
Definition sample_dir : path := of_string "/a".
Definition sample_file : path := of_string "/a/b".
Definition sample_0 : Builder := builder_new (Some "/j").
Definition sample_1 : Builder := mkBuilder
  (drafts sample_0 ++
   [draft_new (Some (Target_Directory sample_dir (Mode_Exact 493) None)) (Some sample_dir)])
  (<[sample_dir := 3]> (placed sample_0)) (Some "/j").
Definition sample_2 : Builder := mkBuilder
  (drafts sample_1 ++
   [draft_new (Some (Target_File sample_file (Some "x") (Mode_AtLeast 420) None))
      (Some sample_file)])
  (<[sample_file := 4]> (placed sample_1)) (Some "/j").
Definition sample : Builder := mkBuilder
  (<[3 := set_up [Target_UnitActive "u"]
            (draft_new (Some (Target_Directory sample_dir (Mode_Exact 493) None))
               (Some sample_dir))]> (drafts sample_2))
  (placed sample_2) (Some "/j").

Lemma sample_built : Built sample.
Proof.
  apply (Built_up sample_2 3 (Target_UnitActive "u")); [|reflexivity].
  apply (Built_path sample_1 sample_file
           (Target_File sample_file (Some "x") (Mode_AtLeast 420) None) 4); [|reflexivity].
  apply (Built_path sample_0 sample_dir (Target_Directory sample_dir (Mode_Exact 493) None) 3);
    [|reflexivity].
  apply Built_new.
Qed.

Definition sample_checks : list Check :=
  [mkCheck (Target_Directory sample_dir (Mode_Exact 493) None) Phase_Down [] (0, 0);
   mkCheck (Target_File sample_file (Some "x") (Mode_AtLeast 420) None) Phase_Down [0] (0, 0);
   mkCheck (Target_UnitActive "u") Phase_Up [] (0, 2);
   mkCheck (Target_Leftovers sample_dir "/j") Phase_Up [] (0, 3);
   mkCheck (Target_Leftovers SLASH "/j") Phase_Up [] (0, 4)].

Lemma sample_finish : finish sample = Some sample_checks.
Proof. vm_compute. reflexivity. Qed.

(** C33. [finish] returns, whatever was built: its stack empties, no handle is out of range,
    and its checks are the targets that were declared, each as often as it was, with one
    check for leftovers in each directory something is written right below, if asked for. *)
Theorem finish_lists b :
  Built b →
  ∃ checks extra, finish b = Some checks ∧
    (ck_target <$> checks) ≡ₚ declared_targets b ++ extra ∧ NoDup extra ∧
    ∀ t, t ∈ extra ↔ ∃ dir j, b_leftovers b = Some j ∧ t = Target_Leftovers dir j ∧
      written_below b dir.
Proof.
  intros Hb%Built_wf. destruct (finish_spec b Hb) as (linked & ds & own & checks & Hfin & Hf).
  exists checks, (leftovers_listed (b_leftovers b) linked). split; [done|].
  split; [by eapply finished_targets|].
  pose proof (fi_from _ _ _ _ _ Hf) as Hfrom. pose proof (fi_tree _ _ _ _ _ Hf) as Hl.
  unfold leftovers_listed. split.
  - apply NoDup_bind; [| |apply NoDup_seq].
    + intros x y t _ _ Hx Hy.
      destruct (linked !! x) as [dx|] eqn:Hdx; [|by apply elem_of_nil in Hx].
      destruct (linked !! y) as [dy|] eqn:Hdy; [|by apply elem_of_nil in Hy].
      apply (elem_of_leftover b linked x dx) in Hx as (dir & j & _ & -> & Hpx & _); [|done..].
      apply (elem_of_leftover b linked y dy) in Hy as (dir' & j' & _ & [= <- <-] & Hpy & _); [|done..].
      congruence.
    + intros x _. destruct (linked !! x) as [d|]; [|constructor]. unfold leftover_of.
      repeat case_match; auto using NoDup_singleton; constructor.
  - intros t. rewrite list_elem_of_bind. split.
    + intros (i & Ht & _). destruct (linked !! i) as [d|] eqn:Hi; [|by apply elem_of_nil in Ht].
      apply (elem_of_leftover b linked i d) in Ht as (dir & j & ? & ? & _ & ?); eauto.
    + intros (dir & j & Hj & -> & Hw). pose proof Hw as (i & _ & _ & _ & Hi & _).
      assert (i < length linked) as Hlt.
      { rewrite (proj1 Hfrom). apply (wf_placed b Hb) in Hi. unfold path_at in Hi.
        destruct (drafts b !! i) eqn:Hd; [|done]. by eapply lookup_lt_Some. }
      exists i. split; [|apply elem_of_seq; lia].
      destruct (lookup_lt_is_Some_2 linked i Hlt) as [d Hd]. rewrite Hd.
      apply (elem_of_leftover b linked i d); [done..|]. eauto 7.
Qed.

Lemma finish_lists_witness :
  ∃ checks extra, finish sample = Some checks ∧
    (ck_target <$> checks) ≡ₚ declared_targets sample ++ extra ∧ NoDup extra ∧
    ∀ t, t ∈ extra ↔ ∃ dir j, b_leftovers sample = Some j ∧ t = Target_Leftovers dir j ∧
      written_below sample dir.
Proof. apply (finish_lists sample). apply sample_built. Defined.

(** ** Above and below a path *)

Lemma finished_parent b linked ds own checks h d :
  finished b linked ds own checks → drafts b !! h = Some d →
  parent_at ds h = linked_parent (placed b) h d.
Proof.
  intros [[_ Hfrom] _ Hm _ _ _ _] Hd. destruct (Hfrom h d Hd) as (d' & Hd' & _&_&_&_&_& Hp).
  unfold parent_at. rewrite Hm, Hd'. done.
Qed.

Lemma find_map_first {A B} (f : A → option B) (l : list A) x b :
  x ∈ l → f x = Some b →
  ∃ pre y post, l = pre ++ y :: post ∧ find_map f l = f y ∧ is_Some (f y) ∧ x ∈ y :: post.
Proof.
  intros Hx Hfx. induction l as [|a l IH]; [by apply elem_of_nil in Hx|]. simpl.
  destruct (f a) as [c|] eqn:Ha.
  - exists [], a, l. rewrite Ha. by repeat split.
  - apply elem_of_cons in Hx as [->|Hx]; [congruence|].
    destruct (IH Hx) as (pre & y & post & -> & ? & ? & ?). by exists (a :: pre), y, post.
Qed.

Lemma ancestors_tail p pre x post :
  rooted p → ancestors p = pre ++ x :: post → x :: post = ancestors x.
Proof.
  intros Hp. revert pre. induction p as [|c p IH] using rev_ind; intros pre; [done|].
  destruct (rooted_cases _ Hp) as [Heq|(q & s & Hq & Hr & _)].
  - rewrite Heq. change (ancestors [RootDir]) with [[RootDir]].
    destruct pre as [|y pre]; [by intros [= <- <-]|]. intros [= _ Hpre]. by destruct pre.
  - apply app_inj_tail in Hq as [-> ->]. rewrite ancestors_snoc.
    destruct pre as [|y pre]; simpl.
    + intros [= <- <-]. by rewrite ancestors_snoc.
    + intros [= _ Hpre]. by eapply IH.
Qed.

Lemma elem_of_above p a :
  rooted p → a ∈ drop 1 (ancestors p) ↔ a `prefix_of` p ∧ a ≠ [] ∧ a ≠ p.
Proof.
  intros Hp. pose proof (elem_of_ancestors p a Hp) as Ha.
  assert (ancestors p = p :: drop 1 (ancestors p)) as Hhd.
  { unfold ancestors. done. }
  rewrite Hhd, elem_of_cons in Ha. split.
  - intros Hin. pose proof (above_shorter p a Hin). destruct (proj1 Ha (or_intror Hin)).
    split_and!; [done..|]. intros ->. lia.
  - intros (H1 & H2 & H3). by destruct (proj2 Ha (conj H1 H2)).
Qed.

Lemma finished_below b linked ds own checks p q a h :
  wf b → finished b linked ds own checks → rooted p → rooted q → p `prefix_of` q →
  placed b !! p = Some a → placed b !! q = Some h → below ds a h.
Proof.
  intros Hb Hf Hp Hq Hpq Ha. revert h.
  assert (∀ n q h, length q < n → rooted q → p `prefix_of` q → placed b !! q = Some h →
    below ds a h) as Hgo; [|by intros h; apply (Hgo (S (length q))); auto].
  intros n. induction n as [|n IH]; intros x h Hlen Hx Hpx Hh; [lia|].
  destruct (decide (p = x)) as [->|Hne]; [by replace h with a by congruence|].
  pose proof (proj1 (wf_placed b Hb x h) Hh) as Hxp. unfold path_at in Hxp.
  destruct (drafts b !! h) as [d|] eqn:Hd; [|done]. simpl in Hxp.
  pose proof (finished_parent _ _ _ _ _ _ _ Hf Hd) as Hpar. unfold linked_parent in Hpar.
  rewrite Hxp in Hpar.
  assert (p ≠ []) as Hpne by by destruct p.
  rewrite decide_False in Hpar.
  2: { intros ->. destruct (wf_root b Hb) as (dr & Hdr & Hslash & _).
       assert (x = [RootDir]) as -> by (unfold SLASH in *; congruence).
       destruct Hpx as [k Hk]. destruct p as [|c [|]]; [done| |done].
       injection Hk as <- _. done. }
  assert (p ∈ drop 1 (ancestors x)) as Hin by by apply elem_of_above.
  destruct (find_map_first (λ y, placed b !! y) _ p a Hin Ha)
    as (pre & y & post & Hsplit & Hfind & [g Hg] & Hpy).
  assert (y ∈ drop 1 (ancestors x)) as Hy by (rewrite Hsplit; set_solver).
  pose proof (above_shorter x y Hy) as Hshort.
  apply elem_of_above in Hy as (Hyx & Hyne & _); [|done].
  assert (rooted y) as Hyr by by eapply rooted_prefix.
  assert (y :: post = ancestors y) as Htail.
  { apply (ancestors_tail x (x :: pre)); [done|]. simpl. rewrite <- Hsplit. done. }
  rewrite Htail in Hpy. apply elem_of_ancestors in Hpy as [Hpy _]; [|done].
  assert (nearest_above (placed b) x = g) as Hnear.
  { unfold nearest_above. rewrite Hfind, Hg. done. }
  rewrite Hnear in Hpar. eapply rtc_r; [apply (IH y g); [lia|done..]|done].
Qed.

Lemma finish_waits b checks j c k :
  Built b → finish b = Some checks → checks !! j = Some c → k ∈ waits_on c → k < j.
Proof.
  intros Hb%Built_wf Hfin Hc Hk.
  destruct (finish_spec b Hb) as (linked & ds & own & checks' & Hfin' & Hf).
  assert (checks' = checks) as -> by congruence. pose proof (lookup_lt_Some _ _ _ Hc) as Hj.
  rewrite <- (fi_own _ _ _ _ _ Hf) in Hj. apply lookup_lt_is_Some_2 in Hj as [h Hh].
  by apply (sd_waits _ _ _ _ _ _ _ (fi_sound _ _ _ _ _ Hf j h c Hh Hc)).
Qed.

(** The checks can run in the order they are listed: none waits on itself, on a later
    one or on one that is not there. *)
Lemma finish_ordered b checks j c k :
  Built b → finish b = Some checks → checks !! j = Some c → k ∈ waits_on c →
  k < j < length checks.
Proof. intros. split; [by eapply finish_waits|by eapply lookup_lt_Some]. Qed.

Lemma finish_ordered_witness : 2 < 3 < length sample_checks.
Proof.
  apply (finish_ordered sample sample_checks 3
           (mkCheck (Target_Leftovers sample_dir "/j") Phase_Up [] (0, 3)) 2).
  - apply sample_built.
  - apply sample_finish.
  - reflexivity.
  - apply list_elem_of_In. simpl. auto.
Defined.

(** A check and the node it was declared at. *)
Definition declared_at (b : Builder) (h : Handle) (c : Check) : Prop :=
  ∃ d, drafts b !! h = Some d ∧
    match ck_phase c with
    | Phase_Down => d_down d = Some (ck_target c)
    | Phase_Up => ck_target c ∈ d_up d ∨
        ∃ dir j, d_path d = Some dir ∧ ck_target c = Target_Leftovers dir j
    end.

Lemma finished_declared b linked ds own checks j h c :
  finished b linked ds own checks → own !! j = Some h → checks !! j = Some c →
  declared_at b h c.
Proof.
  intros Hf Hh Hc. destruct (sd_listed _ _ _ _ _ _ _ (fi_sound _ _ _ _ _ Hf j h c Hh Hc))
    as (d & Hd & Hl).
  destruct Hf as [[Hlen Hfrom] _ Hm _ _ _ _]. rewrite Hm in Hd.
  destruct (linked !! h) as [d1|] eqn:Hd1; [|done]. simpl in Hd. injection Hd as <-.
  assert (h < length (drafts b)) as [d0 Hd0]%lookup_lt_is_Some_2
    by (rewrite <- Hlen; by eapply lookup_lt_Some).
  destruct (Hfrom h d0 Hd0) as (d2 & Hd2 & Hdown & Hup & _ & _ & Hp & _).
  assert (d2 = d1) as -> by congruence. exists d0. split; [done|].
  destruct (ck_phase c); simpl in Hl; [congruence|].
  rewrite Hup in Hl. apply elem_of_app in Hl as [Hl|Hl]; [by left|]. right.
  unfold leftover_of in Hl. destruct (b_leftovers b) as [journals|]; [|by apply elem_of_nil in Hl].
  destruct (d_path d1) as [dir|] eqn:Hdir; [|by apply elem_of_nil in Hl].
  exists dir, journals. split; [congruence|].
  destruct (existsb _ _); [by apply list_elem_of_singleton in Hl|by apply elem_of_nil in Hl].
Qed.

(** What is placed above a path is looked at before it and settled after it: each check
    is listed for a node it was declared at, and of two paths placed one above the other, the upper
    one's own check comes before every check of the lower one, whose nearest check above it
    waits for; and each check the upper one declared for the way up comes after all of the
    lower one's and waits for them. *)
Lemma finish_nests b checks :
  Built b → finish b = Some checks →
  ∃ own, length own = length checks ∧
  (∀ i h c, own !! i = Some h → checks !! i = Some c → declared_at b h c) ∧
  ∀ p q a h i j ci cj,
    rooted p → rooted q → p `prefix_of` q → p ≠ q →
    placed b !! p = Some a → placed b !! q = Some h →
    own !! i = Some a → own !! j = Some h → checks !! i = Some ci → checks !! j = Some cj →
    match ck_phase ci with
    | Phase_Down => i < j ∧
        (ck_phase cj = Phase_Down → ∃ k g, k ∈ waits_on cj ∧ i ≤ k ∧ own !! k = Some g ∧
           g ≠ h)
    | Phase_Up => j < i ∧ j ∈ waits_on ci
    end.
Proof.
  intros Hb%Built_wf Hfin.
  destruct (finish_spec b Hb) as (linked & ds & own & checks' & Hfin' & Hf).
  assert (checks' = checks) as -> by congruence. exists own. split; [apply Hf|].
  split; [intros i h c; by apply (finished_declared b linked ds own)|].
  intros p q a h i j ci cj Hp Hq Hpq Hne Ha Hh Hi Hj Hci Hcj.
  pose proof (finished_below b linked ds own checks p q a h Hb Hf Hp Hq Hpq Ha Hh) as Hbelow.
  assert (h ≠ a) as Hah.
  { intros ->. apply (wf_placed b Hb) in Ha, Hh. congruence. }
  pose proof (fi_sound _ _ _ _ _ Hf i a ci Hi Hci) as Hsi.
  pose proof (fi_sound _ _ _ _ _ Hf j h cj Hj Hcj) as Hsj.
  destruct (ck_phase ci) eqn:Hphase.
  - assert (i ≤ j) as Hle by (eapply (sd_first _ _ _ _ _ _ _ Hsi); [done|lia|done|done]).
    assert (i ≠ j) by (intros ->; congruence). split; [lia|]. intros Hdown.
    destruct (sd_listed _ _ _ _ _ _ _ Hsi) as (d & Hd & Hlisted). rewrite Hphase in Hlisted.
    destruct (sd_nearest _ _ _ _ _ _ _ Hsj Hdown a Hbelow) as
      (k & g & c' & Hk & Hg & Hc' & Hp' & Hag & Hgh & Hgne); [done|by exists d; eauto|].
    exists k, g. split_and!; [|eapply (sd_first _ _ _ _ _ _ _ Hsi); [done|lia|done|done]|done..].
    unfold waits_on. apply elem_of_app. by left.
  - destruct (sd_within _ _ _ _ _ _ _ Hsi Hphase) as (Hend & _ & Hin).
    destruct (Hin j h) as (Hstart & Hbefore & _); [lia|done|].
    assert (j < i) as Hji by auto. split; [done|]. unfold waits_on. apply elem_of_app. right.
    apply elem_of_seq. specialize (Hstart Hbelow). lia.
Qed.

Lemma finish_nests_witness :
  ∃ own, length own = length sample_checks ∧
  (∀ i h c, own !! i = Some h → sample_checks !! i = Some c → declared_at sample h c) ∧
  ∀ p q a h i j ci cj,
    rooted p → rooted q → p `prefix_of` q → p ≠ q →
    placed sample !! p = Some a → placed sample !! q = Some h →
    own !! i = Some a → own !! j = Some h →
    sample_checks !! i = Some ci → sample_checks !! j = Some cj →
    match ck_phase ci with
    | Phase_Down => i < j ∧
        (ck_phase cj = Phase_Down → ∃ k g, k ∈ waits_on cj ∧ i ≤ k ∧ own !! k = Some g ∧
           g ≠ h)
    | Phase_Up => j < i ∧ j ∈ waits_on ci
    end.
Proof. apply (finish_nests sample); [apply sample_built|apply sample_finish]. Defined.
