(* ===== verification/Targets.v ===== *)
(** * The tree of an intent

    [tree_for] of [crates/core/src/declared/targets.rs]: which targets a machine and a
    user have, and where each hangs in the tree. *)
From S2P Require Import Prelude.
From S2P Require Import Paths.
From S2P Require Import Effect.
From S2P Require Import Events.
From S2P Require Import Pins.
From S2P Require Import Packages.
From S2P Require Import Policy.
From S2P Require Import Declared.
From S2P Require Import DeclTree.

Local Open Scope N_scope.

Definition STATES : string := ".local/state".
Definition USER_PARENTS : list string := [".local"; STATES; ".local/state/nix"].
Definition USER_PARENT_BITS : N := 448.
Definition REPOSITORY_DIRS : list string := ["objects"; "refs"].
Definition NIXBLD_HOME_MODE : N := 365.

(** A [for] loop that builds. *)
Fixpoint for_each {A} (l : list A) (f : A → Build unit) : Build unit :=
  match l with
  | [] => mret tt
  | x :: l => _ ← f x; for_each l f
  end.

(** [precondition], [parent], [file] and [directory]: a node of the machine's. *)
Definition precondition_node (at_ : string) : Build Handle :=
  add_path (of_string at_) (Target_Precondition (of_string at_)).
Definition parent_node (at_ : string) (bits : N) : Build Handle :=
  add_path (of_string at_) (Target_Parent (of_string at_) (Mode_AtLeast bits) ROOT).
Definition file_node (at_ expected : string) : Build Handle :=
  add_path (of_string at_) (Target_File (of_string at_) (Some expected) SYSTEM_FILE ROOT).
Definition directory_node (at_ : string) (mode : N) (owner : option Owner) : Build Handle :=
  add_path (of_string at_) (Target_Directory (of_string at_) (Mode_Exact mode) owner).

Section TreeFor.
Context `{ManifestJson}.

Definition seed_rendered : string := render_manifest seed.

(** The state file: what was restored, or one seeded when it is missing. *)
Definition state_target (cfg : UserConfig) (owner : option Owner) : Target :=
  let at_ := join_path (mix_state_dir (home (uc_user cfg))) STATE_FILE in
  match uc_restored_state cfg with
  | Some restored => Target_File at_ (Some restored) USER_FILE owner
  | None => Target_SeededFile at_ seed_rendered USER_FILE owner
  end.

(** What waits for the activation: the repository's own targets. *)
Definition deferred_targets (tidy : bool) (user : InvokingUser) (owner : option Owner) :
    list Target :=
  let repository := join_path (mix_state_dir (home user)) GIT_DIR in
  [Target_Repository repository user;
   Target_File (join_path repository REPOSITORY_CONFIG) (Some REPOSITORY_CONFIG_CONTENTS)
     USER_FILE owner] ++
  ((λ name, Target_Parent (join_path repository name) (Mode_AtLeast USER_PARENT_BITS) owner)
     <$> REPOSITORY_DIRS) ++
  (if tidy then [Target_Leftovers repository JOURNAL_DIR] else []) ++
  [Target_History repository user].

(** The loop over [USER_PARENTS]: the handle of the one called [STATES]. *)
Fixpoint user_parents (home : path) (owner : option Owner) (l : list string)
    (states : option Handle) : Build (option Handle) :=
  match l with
  | [] => mret states
  | parent :: l =>
      let at_ := join_path home parent in
      handle ← add_path at_ (Target_Parent at_ (Mode_AtLeast USER_PARENT_BITS) owner);
      user_parents home owner l (if String.eqb parent STATES then Some handle else states)
  end.

Definition user_files (cfg : UserConfig) (owner : option Owner) : list Target :=
  let file name expected :=
    Target_File (join_path (mix_state_dir (home (uc_user cfg))) name) (Some expected)
      USER_FILE owner in
  [file HOME_NIX (uc_home cfg); file FLAKE_NIX (uc_flake cfg); file FLAKE_LOCK (uc_lock cfg);
   file GITIGNORE GITIGNORE_CONTENTS].

(** The path a file target is placed at. *)
Definition file_path (t : Target) : path :=
  match t with
  | Target_File at_ _ _ _ | Target_SeededFile at_ _ _ _ => at_
  | _ => []
  end.

Definition user_tree (intent : Intent) (cfg : UserConfig) (members : Handle) : Build unit :=
  let user := uc_user cfg in
  let home := home user in
  let state_dir := mix_state_dir home in
  let profiles_dir := nix_profiles_dir home in
  let generations := join_path profiles_dir HOME_MANAGER_PROFILE_NAME in
  let owner := Some (uid user, gid user) in
  _ ← add_account (Some members) (Target_GroupMember MIX_USERS_GROUP (user_name user));
  home_node ← add_path home (Target_Precondition home);
  _ ← add_up home_node (Target_HomeFiles home user);
  let profile_link := join_path home NIX_PROFILE_LINK in
  link ← add_path profile_link (Target_Link profile_link);
  states ← user_parents home owner USER_PARENTS None;
  _ ← add_path state_dir
        (Target_Directory state_dir (Mode_Exact MIX_STATE_DIR_MODE) owner);
  _ ← for_each (user_files cfg owner) (λ t, _ ← add_path (file_path t) t; mret tt);
  _ ← add_path (file_path (state_target cfg owner)) (state_target cfg owner);
  _ ← add_path profiles_dir
        (Target_Directory profiles_dir (Mode_Exact NIX_PROFILES_DIR_MODE) owner);
  profile ←
    (if it_tidy intent then add_path generations (Target_Generations generations user)
     else add_place generations);
  _ ← match it_retention intent with
      | Some collect => add_up profile (Target_Retention generations user collect)
      | None => mret tt
      end;
  match states with
  | None => mret tt
  | Some above =>
      _ ← add_up_refers above link;
      let '(verb, subject) :=
        match it_activating intent with
        | Some (verb, subject) => (Some verb, subject)
        | None => (None, "")
        end in
      _ ← add_up above (Target_Activation home user verb subject (uc_pins cfg));
      for_each (deferred_targets (it_tidy intent) user owner) (add_up above)
  end.

(** The units, with what each is written from. *)
Definition UNIT_TARGETS : list (string * UnitSource * string) :=
  [(NIX_DAEMON_SERVICE_UNIT, UnitSource_File NIX_DAEMON_SERVICE_SRC, NIX_DAEMON_SERVICE_DEST);
   (NIX_DAEMON_SOCKET_UNIT, UnitSource_File NIX_DAEMON_SOCKET_SRC, NIX_DAEMON_SOCKET_DEST);
   (MIX_DAEMON_SERVICE_UNIT, UnitSource_Text MIX_DAEMON_SERVICE, MIX_DAEMON_SERVICE_DEST);
   (MIX_DAEMON_SOCKET_UNIT, UnitSource_Text MIX_DAEMON_SOCKET, MIX_DAEMON_SOCKET_DEST)].

Definition unit_node (runtime program : Handle) (entry : string * UnitSource * string) :
    Build unit :=
  let '(name, src, dest) := entry in
  unit ← add_path (of_string dest) (Target_SystemdUnit name src dest);
  match src with
  | UnitSource_File _ => add_refers unit runtime
  | UnitSource_Text _ =>
      if String.eqb name MIX_DAEMON_SERVICE_UNIT then add_refers unit program else mret tt
  end.

(** The build users, [1..=NIXBLD_USER_COUNT]. *)
Definition build_users : list N := N.of_nat <$> seq 1 (N.to_nat NIXBLD_USER_COUNT).

Definition ignore {X} (m : Build X) : Build unit := _ ← m; mret tt.

Definition machine_tree (intent : Intent) : Build Handle :=
  let policy := it_policy intent in
  nixbld ← add_account None (Target_Group NIXBLD_GROUP NIXBLD_GID);
  _ ← for_each build_users (λ n,
        ignore (add_account (Some nixbld) (Target_User n (NIXBLD_UID_BASE + n) NIXBLD_GID)));
  members ← add_account None (Target_Group MIX_USERS_GROUP MIX_USERS_GID);
  _ ← directory_node "/nix" 493 ROOT;
  _ ← directory_node NIX_STORE 1021 (Some (0, NIXBLD_GID));
  _ ← for_each NIX_TREE_PATHS (λ at_, ignore (directory_node at_ NIX_TREE_MODE ROOT));
  _ ← file_node NIX_OWNERSHIP_MARKER "";
  runtime ← add_path (of_string DEFAULT_PROFILE_NIX_ENV)
    (Target_PathExists "default profile" DEFAULT_PROFILE_NIX_ENV (it_runtime intent));
  _ ← for_each ["/var"; "/var/lib"] (λ at_, ignore (precondition_node at_));
  _ ← directory_node NIXBLD_HOME NIXBLD_HOME_MODE ROOT;
  _ ← for_each [MIX_VAR_DIR; MIX_BIN_DIR] (λ at_, ignore (parent_node at_ MIX_VAR_DIR_MODE));
  program ← add_path (of_string MIX_DAEMON_BIN)
    (Target_Program MIX_DAEMON_BIN RUNNING_PROGRAM (Mode_Exact MIX_DAEMON_BIN_MODE));
  _ ← add_path (of_string JOURNAL_DIR) (Target_Journals JOURNAL_DIR);
  _ ← precondition_node "/etc";
  _ ← for_each ["/etc/mix"; "/etc/nix"; "/etc/profile.d"] (λ at_, ignore (parent_node at_ 493));
  _ ← file_node POLICY_FILE (rendered policy);
  _ ← file_node NIX_CONF_DEST (nix_conf policy);
  _ ← file_node PROFILE_SNIPPET_DEST PROFILE_SNIPPET;
  _ ← precondition_node "/etc/systemd";
  unit_dir ← precondition_node SYSTEMD_UNIT_DIR;
  _ ← for_each UNIT_TARGETS (unit_node runtime program);
  _ ← for_each [NIX_DAEMON_SOCKET_UNIT; MIX_DAEMON_SOCKET_UNIT; MIX_DAEMON_SERVICE_UNIT]
        (λ name, add_up unit_dir (Target_UnitActive name));
  mret members.

Definition build_tree (intent : Intent) : Build unit :=
  members ←
    match it_reach intent with
    | Reach_User => add_account None (Target_Group MIX_USERS_GROUP MIX_USERS_GID)
    | Reach_Machine => machine_tree intent
    end;
  match it_user intent with
  | Some cfg => user_tree intent cfg members
  | None => mret tt
  end.

Definition tree_for (intent : Intent) : option (list Check) :=
  let leftovers := if it_tidy intent then Some JOURNAL_DIR else None in
  '(_, b) ← build_tree intent (builder_new leftovers);
  finish b.

End TreeFor.
