(* ===== verification/TargetsSpec.v ===== *)
(** * What a declared tree holds

    A small program logic for builders ([makes]): what is built stays a tree ([Built]) and
    every target on it satisfies a predicate.  With it, [tree_for] lists a tree for every
    intent, and a user's tree holds nothing but what is the user's. *)
From S2P Require Import Prelude.
From S2P Require Import Paths.
From S2P Require Import Effect.
From S2P Require Import Events.
From S2P Require Import Pins.
From S2P Require Import Packages.
From S2P Require Import Policy.
From S2P Require Import Declared.
From S2P Require Import DeclTree.
From S2P Require Import DeclTreeLink.
From S2P Require Import DeclTreeWalk.
From S2P Require Import DeclTreeSpec.
From S2P Require Import Targets.

Local Open Scope nat_scope.

(** ** A logic for builders *)

(** A builder its methods made, all of whose targets satisfy [P]. *)
Record holds (P : Target → Prop) (b : Builder) : Prop := {
  ho_built : Built b;
  ho_targets : ∀ t, t ∈ declared_targets b → P t;
}.

(** From any such builder of [n] nodes or more, [m] answers with [Q] of its answer and of
    the number of nodes there are then. *)
Definition makes {X} (P : Target → Prop) (n : nat) (m : Build X) (Q : X → nat → Prop) : Prop :=
  ∀ b, holds P b → n ≤ length (drafts b) →
  ∃ x b', m b = Some (x, b') ∧ holds P b' ∧ length (drafts b) ≤ length (drafts b') ∧
    b_leftovers b' = b_leftovers b ∧ Q x (length (drafts b')).

Section makes.
Context (P : Target → Prop).

Lemma makes_ret {X} n (x : X) (Q : X → nat → Prop) :
  (∀ n', n ≤ n' → Q x n') → makes P n (mret x) Q.
Proof. intros HQ b Hb Hn. exists x, b. split_and!; auto. Qed.

Lemma makes_bind {X Y} n (m : Build X) (f : X → Build Y) Q R :
  makes P n m Q → (∀ x n', n ≤ n' → Q x n' → makes P n' (f x) R) → makes P n (m ≫= f) R.
Proof.
  intros Hm Hf b Hb Hn. destruct (Hm b Hb Hn) as (x & b1 & Hx & Hb1 & Hn1 & Hl1 & HQ).
  assert (n ≤ length (drafts b1)) as Hn' by lia.
  destruct (Hf x _ Hn' HQ b1 Hb1 (le_n _)) as (y & b2 & Hy & Hb2 & Hn2 & Hl2 & HR).
  exists y, b2. unfold mbind, build_bind. rewrite Hx. split_and!; [done..|lia|congruence|done].
Qed.

Lemma makes_mono {X} n n' (m : Build X) (Q Q' : X → nat → Prop) :
  makes P n m Q → n ≤ n' → (∀ x k, Q x k → Q' x k) → makes P n' m Q'.
Proof.
  intros Hm Hn HQ b Hb Hlen. destruct (Hm b Hb) as (x & b' & ?&?&?&?&?); [lia|].
  exists x, b'. split_and!; auto.
Qed.

Lemma on_draft_targets h f b b' t :
  on_draft h f b = Some (tt, b') → t ∈ declared_targets b' →
  t ∈ declared_targets b ∨ ∃ d, d ∈ drafts b ∧ t ∈ option_list (d_down (f d)) ++ d_up (f d).
Proof.
  unfold on_draft, change_draft. destruct (drafts b !! h) as [d|] eqn:Hd; [|done].
  intros [= <-]. unfold declared_targets. simpl. rewrite !list_elem_of_bind.
  intros (d' & Ht & [i Hi]%list_elem_of_lookup). destruct (decide (i = h)) as [->|Hne].
  - rewrite list_lookup_insert_eq in Hi by (by eapply lookup_lt_Some). injection Hi as <-.
    right. exists d. split; [by eapply list_elem_of_lookup_2|done].
  - rewrite list_lookup_insert_ne in Hi by done. left. exists d'.
    split; [done|by eapply list_elem_of_lookup_2].
Qed.

Lemma declared_push ds d m l t :
  t ∈ declared_targets (mkBuilder (ds ++ [d]) m l) →
  t ∈ declared_targets (mkBuilder ds m l) ∨ t ∈ option_list (d_down d) ++ d_up d.
Proof. unfold declared_targets. simpl. rewrite bind_app, bind_singleton. by rewrite elem_of_app. Qed.

Lemma on_draft_leftovers h f b b' : on_draft h f b = Some (tt, b') → b_leftovers b' = b_leftovers b.
Proof. unfold on_draft. destruct (change_draft h f (drafts b)); [|done]. by intros [= <-]. Qed.

Lemma makes_path n at_ down : P down → makes P n (add_path at_ down) (λ h k, h < k).
Proof.
  intros Hp b [Hb Ht] Hn. pose proof (Built_wf b Hb) as Hw.
  destruct (add_path_wf b at_ down Hw) as (h & b' & Hadd & Hw' & Hh & Hlen).
  exists h, b'. split; [done|]. split; [split|split; [done|split; [|done]]].
  - by eapply Built_path.
  - intros t. revert Hadd. unfold add_path, mbind, build_bind, found_at.
    destruct (placed b !! at_) as [i|].
    + destruct (on_draft i _ b) as [[[] b1]|] eqn:Hon; [|done]. intros [= <- <-] Hin.
      destruct (on_draft_targets _ _ _ _ t Hon Hin) as [|(d & Hd & Htd)]; [auto|].
      destruct (d_down d) eqn:Hdown.
      * apply Ht. apply list_elem_of_bind. exists d. rewrite Hdown in Htd |- *. done.
      * simpl in Htd. apply elem_of_cons in Htd as [->|Hup]; [done|].
        apply Ht, list_elem_of_bind. exists d. by rewrite Hdown.
    + simpl. intros [= <- <-]. intros [Hin|Hin]%declared_push; [by apply Ht|].
      simpl in Hin. by apply list_elem_of_singleton in Hin as ->.
  - revert Hadd. unfold add_path, mbind, build_bind, found_at.
    destruct (placed b !! at_) as [i|]; [|by intros [= <- <-]].
    destruct (on_draft i _ b) as [[[] b1]|] eqn:Hon; [|done]. intros [= <- <-].
    by eapply on_draft_leftovers.
Qed.

Lemma makes_place n at_ : makes P n (add_place at_) (λ h k, h < k).
Proof.
  intros b [Hb Ht] Hn. pose proof (Built_wf b Hb) as Hw.
  destruct (add_place_wf b at_ Hw) as (h & b' & Hadd & Hw' & Hh & Hlen).
  exists h, b'. split; [done|]. split; [split|split; [done|split; [|done]]].
  - by eapply Built_place.
  - intros t. revert Hadd. unfold add_place, mbind, build_bind, found_at.
    destruct (placed b !! at_) as [i|]; [intros [= <- <-]; apply Ht|].
    simpl. intros [= <- <-]. intros [Hin|Hin]%declared_push; [by apply Ht|].
    simpl in Hin. by apply elem_of_nil in Hin.
  - revert Hadd. unfold add_place, mbind, build_bind, found_at.
    by destruct (placed b !! at_) as [i|]; intros [= <- <-].
Qed.

Lemma makes_account n parent down :
  P down → default ACCOUNTS parent < n → makes P n (add_account parent down) (λ h k, h < k).
Proof.
  intros Hp Hpar b [Hb Ht] Hn. pose proof (Built_wf b Hb) as Hw.
  destruct (add_account_wf b parent down Hw) as (h & b' & Hadd & Hw' & Hh & Hlen); [lia|].
  exists h, b'. split; [done|]. split; [split|split; [done|split; [|done]]].
  - eapply Built_account; [done| |done]. lia.
  - intros t. injection Hadd as <- <-. intros [Hin|Hin]%declared_push; [by apply Ht|].
    simpl in Hin. by apply list_elem_of_singleton in Hin as ->.
  - by injection Hadd as <- <-.
Qed.

Lemma makes_up n h t : P t → h < n → makes P n (add_up h t) (λ _ _, True).
Proof.
  intros Hp Hh b [Hb Ht] Hn. pose proof (Built_wf b Hb) as Hw.
  destruct (add_up_wf b h t Hw) as (b' & Hadd & Hw' & Hlen); [lia|].
  exists tt, b'. split; [done|]. split; [split|split; [lia|split; [|done]]].
  - by eapply Built_up.
  - intros t' Hin. destruct (on_draft_targets _ _ _ _ _ Hadd Hin) as [|(d & Hd & Htd)]; [auto|].
    simpl in Htd. rewrite (assoc_L (++)) in Htd. apply elem_of_app in Htd as [Htd|Htd].
    + apply Ht, list_elem_of_bind. exists d. by split.
    + by apply list_elem_of_singleton in Htd as ->.
  - by eapply on_draft_leftovers.
Qed.

Lemma makes_refers n h to :
  h < n → to < n → makes P n (add_refers h to) (λ _ _, True).
Proof.
  intros Hh Hto b [Hb Ht] Hn. pose proof (Built_wf b Hb) as Hw.
  destruct (add_refers_wf b h to Hw) as (b' & Hadd & Hw' & Hlen); [lia..|].
  exists tt, b'. split; [done|]. split; [split|split; [lia|split; [|done]]].
  - eapply Built_refers; [done| |done]. lia.
  - intros t' Hin. destruct (on_draft_targets _ _ _ _ _ Hadd Hin) as [|(d & Hd & Htd)]; [auto|].
    apply Ht, list_elem_of_bind. exists d. by split.
  - by eapply on_draft_leftovers.
Qed.

Lemma makes_up_refers n h to :
  h < n → to < n → makes P n (add_up_refers h to) (λ _ _, True).
Proof.
  intros Hh Hto b [Hb Ht] Hn. pose proof (Built_wf b Hb) as Hw.
  destruct (add_up_refers_wf b h to Hw) as (b' & Hadd & Hw' & Hlen); [lia..|].
  exists tt, b'. split; [done|]. split; [split|split; [lia|split; [|done]]].
  - eapply Built_up_refers; [done| |done]. lia.
  - intros t' Hin. destruct (on_draft_targets _ _ _ _ _ Hadd Hin) as [|(d & Hd & Htd)]; [auto|].
    apply Ht, list_elem_of_bind. exists d. by split.
  - by eapply on_draft_leftovers.
Qed.

Lemma makes_for_each {A} n (l : list A) (f : A → Build unit) :
  (∀ x n', x ∈ l → n ≤ n' → makes P n' (f x) (λ _ _, True)) →
  makes P n (for_each l f) (λ _ _, True).
Proof.
  revert n. induction l as [|x l IH]; intros n Hf; simpl; [by apply makes_ret|].
  apply (makes_bind _ _ _ (λ _ _, True)); [apply Hf; [left|done]|]. intros _ n' Hn _.
  apply IH. intros y k Hy Hk. apply Hf; [by right|lia].
Qed.

Lemma makes_ignore {X} n (m : Build X) Q : makes P n m Q → makes P n (ignore m) (λ _ _, True).
Proof. intros Hm. eapply makes_bind; [done|]. intros. by apply makes_ret. Qed.

End makes.

Section trees.
Context `{ManifestJson}.

(** ** The user's part *)

(** What a user's tree may hold. *)
Definition users (cfg : UserConfig) (t : Target) : Prop :=
  let user := uc_user cfg in
  let owner := Some (uid user, gid user) in
  match t with
  | Target_Group name _ => name = MIX_USERS_GROUP
  | Target_GroupMember group name => group = MIX_USERS_GROUP ∧ name = user_name user
  | Target_Precondition at_ | Target_Link at_ => home user `prefix_of` at_
  | Target_Parent at_ _ o | Target_Directory at_ _ o | Target_File at_ _ _ o
  | Target_SeededFile at_ _ _ o => home user `prefix_of` at_ ∧ o = owner
  | Target_Repository at_ u | Target_History at_ u | Target_Generations at_ u
  | Target_HomeFiles at_ u | Target_Activation at_ u _ _ _ | Target_Retention at_ u _ =>
      home user `prefix_of` at_ ∧ u = user
  | Target_Leftovers dir _ => home user `prefix_of` dir
  | _ => False
  end.

Lemma prefix_join p q s :
  match of_string s with RootDir :: _ | CurDir :: _ => False | _ => True end →
  p `prefix_of` q → p `prefix_of` join_path q s.
Proof.
  intros Hs Hp. unfold join_path, push. destruct (of_string s) as [|[] l]; try done;
    by apply prefix_app_r.
Qed.

Lemma makes_user_parents P n home owner l states :
  (∀ parent, parent ∈ l →
     P (Target_Parent (join_path home parent) (Mode_AtLeast USER_PARENT_BITS) owner)) →
  (∀ h, states = Some h → h < n) →
  makes P n (user_parents home owner l states) (λ r k, ∀ h, r = Some h → h < k).
Proof.
  revert n states. induction l as [|parent l IH]; intros n states Hl Hs; simpl.
  - apply makes_ret. intros n' Hn h Hh. specialize (Hs h Hh). lia.
  - eapply makes_bind; [apply makes_path, Hl; left|]. intros h n' Hn Hh.
    apply IH; [intros; apply Hl; by right|].
    intros h' Hh'. destruct (String.eqb parent STATES); [by injection Hh' as <-|].
    specialize (Hs h' Hh'). lia.
Qed.

Ltac in_home := repeat first [done | apply prefix_join; [exact I|]].

Lemma home_paths (home : path) :
  home `prefix_of` mix_state_dir home ∧ home `prefix_of` nix_profiles_dir home ∧
  home `prefix_of` join_path (mix_state_dir home) GIT_DIR.
Proof. split_and!; in_home. Qed.

Lemma state_target_users cfg owner :
  owner = Some (uid (uc_user cfg), gid (uc_user cfg)) →
  users cfg (state_target cfg owner).
Proof.
  intros ->. unfold state_target. destruct (uc_restored_state cfg); simpl; split; try done; in_home.
Qed.

Lemma user_files_users cfg owner t :
  owner = Some (uid (uc_user cfg), gid (uc_user cfg)) → t ∈ user_files cfg owner → users cfg t.
Proof.
  intros ->. unfold user_files. rewrite !elem_of_cons, elem_of_nil.
  intros [->|[->|[->|[->|[]]]]]; simpl; split; try done; in_home.
Qed.

Lemma deferred_users cfg tidy t :
  t ∈ deferred_targets tidy (uc_user cfg) (Some (uid (uc_user cfg), gid (uc_user cfg))) →
  users cfg t.
Proof.
  unfold deferred_targets, REPOSITORY_DIRS. destruct tidy; simpl;
    rewrite ?elem_of_cons, ?elem_of_nil; intros Ht;
    repeat (destruct Ht as [->|Ht]; [simpl; try (split; [|done]); in_home|]); done.
Qed.

Ltac blia := cbv beta in *; unfold ACCOUNTS in *; simpl; lia.

Lemma makes_user_tree P n intent cfg members :
  (∀ t, users cfg t → P t) → members < n →
  makes P n (user_tree intent cfg members) (λ _ _, True).
Proof.
  intros HP Hm. unfold user_tree. set (user := uc_user cfg).
  destruct (home_paths (home user)) as (Hstate & Hprofiles & Hgit).
  assert (home user `prefix_of` join_path (home user) NIX_PROFILE_LINK) as Hlink by in_home.
  assert (home user `prefix_of` join_path (nix_profiles_dir (home user)) HOME_MANAGER_PROFILE_NAME)
    as Hgen by in_home.
  eapply makes_bind; [apply makes_account; [by apply HP|done]|]. intros _ n1 H1 _.
  eapply makes_bind; [apply makes_path, HP; simpl; done|]. intros home_node n2 H2 Hhome.
  eapply makes_bind; [apply makes_up; [by apply HP|done]|]. intros _ n3 H3 _.
  eapply makes_bind; [apply makes_path, HP; done|]. intros link n4 H4 Hl.
  eapply makes_bind; [apply makes_user_parents; [|done]|].
  { intros parent Hin. apply HP. simpl. split; [|done]. apply prefix_join; [|done].
    revert Hin. unfold USER_PARENTS. rewrite !elem_of_cons, elem_of_nil.
    intros [->|[->|[->|[]]]]; exact I. }
  intros states n5 H5 Hstates.
  eapply makes_bind; [apply makes_path, HP; by split|]. intros _ n6 H6 _.
  eapply makes_bind.
  { apply makes_for_each. intros t n' Ht _. eapply makes_bind; [apply makes_path, HP|].
    - by eapply user_files_users.
    - intros. by apply makes_ret. }
  intros _ n7 H7 _.
  eapply makes_bind; [apply makes_path, HP; by apply state_target_users|]. intros _ n8 H8 _.
  eapply makes_bind; [apply makes_path, HP; by split|]. intros _ n9 H9 _.
  eapply (makes_bind _ _ _ _ (λ h k, h < k)).
  { destruct (it_tidy intent); [apply makes_path, HP; by split|apply makes_place]. }
  intros profile n10 H10 Hprofile.
  eapply (makes_bind _ _ _ _ (λ _ _, True)).
  { destruct (it_retention intent); [|by apply makes_ret].
    apply makes_up; [apply HP; by split|done]. }
  intros _ n11 H11 _. destruct states as [above|]; [|by apply makes_ret].
  specialize (Hstates above eq_refl).
  eapply makes_bind; [apply makes_up_refers; blia|]. intros _ n12 H12 _.
  destruct (match it_activating intent with Some (v, s) => (Some v, s) | None => (None, "") end)
    as [verb subject].
  eapply makes_bind; [apply makes_up; [apply HP; by split|blia]|]. intros _ n13 H13 _.
  apply makes_for_each. intros t n' Ht Hn'. apply makes_up; [|blia].
  apply HP. by eapply deferred_users.
Qed.

(** ** The machine's part *)

Lemma makes_unit_node n runtime program entry :
  runtime < n → program < n →
  makes (λ _, True) n (unit_node runtime program entry) (λ _ _, True).
Proof.
  intros Hr Hp. destruct entry as [[name src] dest]. unfold unit_node.
  eapply makes_bind; [by apply makes_path|]. intros unit n' Hn Hu.
  destruct src; [apply makes_refers; blia|].
  destruct (String.eqb _ _); [apply makes_refers; blia|by apply makes_ret].
Qed.

Lemma makes_machine_tree n intent :
  ACCOUNTS < n → makes (λ _, True) n (machine_tree intent) (λ h k, h < k).
Proof.
  intros Hn. unfold machine_tree.
  eapply makes_bind; [by apply makes_account|]. intros nixbld n1 H1 Hnixbld.
  eapply makes_bind.
  { apply makes_for_each. intros x n' _ Hn'. eapply makes_ignore, makes_account; [done|].
    simpl. blia. }
  intros _ n2 H2 _.
  eapply makes_bind; [apply makes_account; [done|simpl; blia]|]. intros members n3 H3 Hmembers.
  eapply makes_bind; [by apply makes_path|]. intros _ n4 H4 _.
  eapply makes_bind; [by apply makes_path|]. intros _ n5 H5 _.
  eapply makes_bind; [apply makes_for_each; intros; by eapply makes_ignore, makes_path|].
  intros _ n6 H6 _.
  eapply makes_bind; [by apply makes_path|]. intros _ n7 H7 _.
  eapply makes_bind; [by apply makes_path|]. intros runtime n8 H8 Hruntime.
  eapply makes_bind; [apply makes_for_each; intros; by eapply makes_ignore, makes_path|].
  intros _ n9 H9 _.
  eapply makes_bind; [by apply makes_path|]. intros _ n10 H10 _.
  eapply makes_bind; [apply makes_for_each; intros; by eapply makes_ignore, makes_path|].
  intros _ n11 H11 _.
  eapply makes_bind; [by apply makes_path|]. intros program n12 H12 Hprogram.
  do 2 (eapply makes_bind; [by apply makes_path|]; intros ? ? ? _).
  eapply makes_bind; [apply makes_for_each; intros; by eapply makes_ignore, makes_path|].
  intros ? ? ? _.
  do 4 (eapply makes_bind; [by apply makes_path|]; intros ? ? ? _).
  eapply makes_bind; [by apply makes_path|]. intros unit_dir n13 Hn13 Hunit.
  eapply makes_bind.
  { apply makes_for_each. intros. apply makes_unit_node; blia. }
  intros _ n14 Hn14 _.
  eapply makes_bind; [apply makes_for_each; intros; apply makes_up; [done|blia]|].
  intros _ n15 Hn15 _. apply makes_ret. intros. blia.
Qed.

Lemma holds_new P leftovers : holds P (builder_new leftovers).
Proof.
  split; [apply Built_new|]. intros t Ht. unfold declared_targets in Ht. simpl in Ht.
  by apply elem_of_nil in Ht.
Qed.

Lemma makes_build_tree P n intent :
  (it_reach intent = Reach_Machine → ∀ t, P t) →
  (P (Target_Group MIX_USERS_GROUP MIX_USERS_GID)) →
  (∀ cfg t, it_user intent = Some cfg → users cfg t → P t) →
  ACCOUNTS < n → makes P n (build_tree intent) (λ _ _, True).
Proof.
  intros Hmachine Hgroup Huser Hn. unfold build_tree.
  eapply (makes_bind _ _ _ _ (λ h k, h < k)).
  - destruct (it_reach intent) eqn:Hreach; [|by apply makes_account].
    intros b [Hb Ht] Hlen.
    destruct (makes_machine_tree n intent Hn b) as (x & b' & ? & [? _] & ?); [by split|done|].
    exists x, b'. split; [done|]. split; [|done]. split; [done|]. intros. by apply Hmachine.
  - intros members n' Hn' Hmem. destruct (it_user intent) as [cfg|]; [|by apply makes_ret].
    apply makes_user_tree; [|done]. intros t. by apply Huser.
Qed.

End trees.

(** ** Properties *)

Lemma build_tree_leftovers `{ManifestJson} intent :
  ∃ b, build_tree intent (builder_new (if it_tidy intent then Some JOURNAL_DIR else None)) =
    Some (tt, b) ∧ Built b ∧
    b_leftovers b = (if it_tidy intent then Some JOURNAL_DIR else None) ∧
    ∀ P, (it_reach intent = Reach_Machine → ∀ t, P t) → P (Target_Group MIX_USERS_GROUP MIX_USERS_GID) →
      (∀ cfg t, it_user intent = Some cfg → users cfg t → P t) →
      ∀ t, t ∈ declared_targets b → P t.
Proof.
  set (l := if it_tidy intent then _ else _).
  destruct (makes_build_tree (λ _, True) 2 intent) with (b := builder_new l)
    as ([] & b & Hb & [Hbuilt _] & _ & Hl & _); [done..|unfold ACCOUNTS; lia|apply holds_new|simpl; lia|].
  exists b. split_and!; [done..|]. intros P Hm Hg Hu.
  destruct (makes_build_tree P 2 intent Hm Hg Hu) with (b := builder_new l)
    as ([] & b' & Hb' & [_ Ht] & _); [unfold ACCOUNTS; lia|apply holds_new|simpl; lia|].
  assert (b' = b) as -> by (simpl in *; congruence). done.
Qed.

Lemma tree_waits `{ManifestJson} intent :
  ∃ checks, tree_for intent = Some checks ∧
    ∀ j c k, checks !! j = Some c → k ∈ waits_on c → k < j.
Proof.
  destruct (build_tree_leftovers intent) as (b & Hb & Hbuilt & _ & _).
  unfold tree_for. rewrite Hb. simpl.
  destruct (finish_spec b (Built_wf b Hbuilt)) as (linked & ds & own & checks & Hfin & Hf).
  exists checks. split; [done|]. intros j c k Hc Hk.
  assert (j < length own) as [h Hh]%lookup_lt_is_Some_2
    by (rewrite (fi_own _ _ _ _ _ Hf); by eapply lookup_lt_Some).
  by apply (sd_waits _ _ _ _ _ _ _ (fi_sound _ _ _ _ _ Hf j h c Hh Hc)).
Qed.

(** Every intent has a tree: building and listing it never indexes past the end of a
    vector and ends; and none of its checks waits on itself, a later check or one that is
    not there. *)
Lemma tree_for_returns `{ManifestJson} intent :
  ∃ checks, tree_for intent = Some checks ∧
    ∀ j c k, checks !! j = Some c → k ∈ waits_on c → k < j.
Proof. apply tree_waits. Qed.


(** A user of the name alice. *)
Definition alice : UserConfig :=
  mkUserConfig (mkInvokingUser 1000 1000 "alice" (of_string "/home/alice")) EMBEDDED
    "flake" "lock" "home" None.

Definition alice_checks : list Check :=
  match @tree_for bits_json (intent_user alice (mkPolicy None "" "")) with
  | Some checks => checks
  | None => []
  end.

