(* ===== verification/Health.v ===== *)
(** * Inspection and repair

    What the audit finds about a declared target and what repair does about it
    ([crates/core/src/ops/health/mod.rs]): the queries of each target, [classify], [drift]
    and [fix].  [old_generations] is of [crates/core/src/ops/change/mod.rs].

    The facts answer the queries in their order; an index past their end or a fact of
    another kind panics, which is [None].  [similar], which compares two texts line by
    line, is the class [Similar]. *)
From S2P Require Import Prelude.
From S2P Require Import Chars.
From S2P Require Import Numbers.
From S2P Require Import Paths.
From S2P Require Import Effect.
From S2P Require Import Pins.
From S2P Require Import Packages.
From S2P Require Import Declared.

Local Open Scope N_scope.

Definition FILE_MODE : N := 420.

(** ** Findings *)

Inductive Finding :=
  | Finding_Missing
  | Finding_Unreadable (kind : ErrorKind)
  | Finding_NotADirectory
  | Finding_NotALink
  | Finding_NewerState (format : N)
  | Finding_Mode (actual expected : N)
  | Finding_Owner (actual expected : Owner)
  | Finding_ContentDrift
  | Finding_GroupMissing
  | Finding_GroupGid (actual expected : N)
  | Finding_NotAMember (group : string)
  | Finding_NoSuchUser
  | Finding_UserMissing
  | Finding_UserIds (actual expected : N * N)
  | Finding_UnitMissing
  | Finding_UnitDrift
  | Finding_UnitInactive
  | Finding_RuntimeMissing
  | Finding_RepositoryBroken
  | Finding_RepositoryLocked
  | Finding_Interrupted (requests pending : list string)
  | Finding_Leftovers (paths : list string)
  | Finding_GenerationDangling (generation : N)
  | Finding_InTheWay (paths : list string)
  | Finding_ProfileStale
  | Finding_OldGenerations (generations : list N).
#[export] Instance Finding_eq_dec : EqDecision Finding.
Proof. solve_decision. Defined.

(** [Finding::unfixable]. *)
Definition unfixable (f : Finding) : option Unfixable :=
  match f with
  | Finding_NotADirectory => Some Unfixable_NotADirectory
  | Finding_NoSuchUser => Some Unfixable_MissingUser
  | Finding_RuntimeMissing => Some Unfixable_MissingRuntime
  | Finding_InTheWay _ | Finding_NotALink => Some Unfixable_InTheWay
  | Finding_NewerState _ => Some Unfixable_Newer
  | _ => None
  end.

(** ** What is asked about a target *)

Definition foreign_owner (owner : option Owner) : bool :=
  match owner with Some (uid, _) => negb (uid =? 0) | None => false end.

(** [queries.push(Query::TreeOwner(..))] for an owner that is not root. *)
Definition tree_query (at_ : path) (owner : option Owner) : list Query :=
  if foreign_owner owner then [Query_TreeOwner at_] else [].

Definition queries (t : Target) : list Query :=
  match t with
  | Target_Precondition at_ | Target_Parent at_ _ _ | Target_Link at_ => [Query_Path at_]
  | Target_Directory at_ _ owner => Query_Path at_ :: tree_query at_ owner
  | Target_File at_ _ _ owner =>
      Query_Path at_ :: Query_Contents at_ :: tree_query at_ owner
  | Target_SeededFile at_ _ _ owner => Query_Path at_ :: tree_query at_ owner
  | Target_Group name _ => [Query_Group name]
  | Target_GroupMember group user => [Query_Group group; Query_User user]
  | Target_User n _ _ => [Query_User (build_user_name n)]
  | Target_SystemdUnit name src dest =>
      [Query_Contents (of_string dest); Query_Path (of_string dest); Query_Unit name] ++
      match src with
      | UnitSource_File at_ => [Query_Contents (of_string at_)]
      | UnitSource_Text _ => []
      end
  | Target_UnitActive name => [Query_Unit name]
  | Target_PathExists _ at_ _ => [Query_Path (of_string at_)]
  | Target_Repository at_ user =>
      [Query_Path at_; Query_Strangers at_ (uid user, gid user)]
  | Target_History at_ user =>
      [Query_Path (join_path at_ INDEX_LOCK); Query_Path at_; Query_Repository user]
  | Target_Program at_ source _ =>
      [Query_Path (of_string at_); Query_Program (of_string at_) (of_string source)]
  | Target_Journals at_ => [Query_Journals (of_string at_); Query_Path (of_string at_)]
  | Target_Leftovers dir journals => [Query_Journals (of_string journals); Query_Leftovers dir]
  | Target_Generations _ user | Target_Retention _ user _ => [Query_Profile user]
  | Target_Activation _ user _ _ _ =>
      [Query_Contents (join_path (mix_state_dir (home user)) STATE_FILE);
       Query_ActiveList user;
       Query_Path (join_path (repository_dir (home user)) REPOSITORY_BRANCH);
       Query_ActiveLock user]
  | Target_HomeFiles _ user => [Query_Clobbered user]
  end.

(** [path_facts] and [contents]. *)
Definition path_fact (facts : list Fact) (index : nat) : option PathFacts :=
  fact ← facts !! index;
  match fact with Fact_Path facts => Some facts | _ => None end.

Definition contents_fact (facts : list Fact) (index : nat) : option (option bytes) :=
  fact ← facts !! index;
  match fact with Fact_Contents contents => Some contents | _ => None end.

(** [contents(facts, index)] where it is text. *)
Definition text_fact (facts : list Fact) (index : nat) : option (option string) :=
  (λ contents : option bytes, contents ≫= from_utf8) <$> contents_fact facts index.

Definition unit_source (src : UnitSource) (facts : list Fact) : option (option bytes) :=
  match src with
  | UnitSource_File _ => contents_fact facts 3
  | UnitSource_Text text => Some (Some text)
  end.

Definition absent (kind : Kind) : option Finding :=
  match kind with
  | Kind_Missing => Some Finding_Missing
  | Kind_Unreadable kind => Some (Finding_Unreadable kind)
  | _ => None
  end.

(** [Option::or_else]. *)
Definition or_else {A} (x y : option A) : option A :=
  match x with Some x => Some x | None => y end.

Definition owner_drift (actual : Owner) (owner : option Owner) : option Finding :=
  expected ← owner;
  if decide (actual = expected) then None else Some (Finding_Owner actual expected).

Definition mode_drift (found : PathFacts) (mode : Mode) (owner : option Owner) : option Finding :=
  let expected := settled mode (pf_mode found) owner in
  if decide (pf_mode found = expected) then None
  else Some (Finding_Mode (pf_mode found) expected).

Definition shape (found : PathFacts) (mode : Mode) (owner : option Owner) : option Finding :=
  or_else (owner_drift (pf_owner found) owner) (mode_drift found mode owner).

Definition remode (at_ : path) (found : PathFacts) (mode : Mode) (owner : option Owner) :
    list Action :=
  let to := settled mode (pf_mode found) owner in
  if decide (pf_mode found = to) then [] else [Action_SetMode at_ to (pf_mode found)].

Definition reshape (at_ : path) (found : PathFacts) (mode : Mode) (owner : option Owner) :
    list Action :=
  match owner with
  | Some expected =>
      if decide (pf_owner found = expected) then []
      else [Action_SetOwner at_ expected (pf_owner found)]
  | None => []
  end ++ remode at_ found mode owner.

(** ** Leftovers of interrupted writes *)

Definition named_by (name request : string) : bool :=
  contains ("-" +:+ request +:+ "-") name ||
  match strip_suffix ("-" +:+ request) name with Some _ => true | None => false end.

(** Those no request that was abandoned, or is running, still answers for. *)
Definition leftovers (facts : list Fact) (running : option string) :
    option (list (path * FileId)) :=
  fact ← facts !! 0%nat;
  let abandoned := match fact with Fact_Journals abandoned => abandoned | _ => [] end in
  let found := drop 1 facts ≫= (λ fact,
    match fact with Fact_Leftovers found => found | _ => [] end) in
  Some (filter (λ entry : path * FileId,
    let name := from_utf8_lossy (default "" (file_name entry.1)) in
    existsb (λ request, named_by name (ab_request request)) abandoned = false ∧
    match running with Some request => named_by name request | None => false end = false)
    found).

(** ** What is wrong with a target *)

Definition old_generations (profile : ProfileFacts) : list N :=
  filter (λ generation, Some generation ≠ active profile) (generations profile).

(** The arm of [Target::File]. *)
Definition classify_file (facts : list Fact) (expected : option string) (mode : Mode)
    (owner : option Owner) : option (option Finding) :=
  found ← path_fact facts 0;
  match expected with
  | Some expected =>
      match absent (pf_kind found) with
      | Some finding => Some (Some finding)
      | None =>
          current ← contents_fact facts 1;
          Some (match current with
                | Some current =>
                    if String.eqb current expected then shape found mode owner
                    else Some Finding_ContentDrift
                | None =>
                    match pf_kind found with
                    | Kind_Directory => Some (Finding_Unreadable IsADirectory)
                    | Kind_Symlink | Kind_Other => Some Finding_ContentDrift
                    | _ => or_else (shape found mode owner) (Some (Finding_Unreadable Other))
                    end
                end)
      end
  | None =>
      Some (if decide (pf_kind found = Kind_Missing) then None else shape found mode owner)
  end.

(** The arm of [Target::SystemdUnit]. *)
Definition classify_unit (facts : list Fact) (src : UnitSource) : option (option Finding) :=
  installed ← contents_fact facts 0;
  match installed with
  | None =>
      source ← unit_source src facts;
      match source with
      | None => Some (Some Finding_RuntimeMissing)
      | Some _ =>
          found ← path_fact facts 1;
          Some (Some (match pf_kind found with
                      | Kind_Missing => Finding_UnitMissing
                      | Kind_Unreadable kind => Finding_Unreadable kind
                      | _ => Finding_UnitDrift
                      end))
      end
  | Some installed =>
      source ← unit_source src facts;
      if match source with Some source => negb (String.eqb source installed) | None => false end
      then Some (Some Finding_UnitDrift)
      else found ← path_fact facts 1; Some (shape found SYSTEM_FILE ROOT)
  end.

(** The arm of [Target::Journals]. *)
Definition classify_journals (facts : list Fact) : option (option Finding) :=
  fact ← facts !! 0%nat;
  match fact with
  | Fact_Journals [] =>
      found ← path_fact facts 1;
      Some (match pf_kind found with
            | Kind_Missing => None
            | Kind_Directory => shape found (Mode_Exact JOURNAL_DIR_MODE) ROOT
            | Kind_Unreadable kind => Some (Finding_Unreadable kind)
            | _ => Some Finding_NotADirectory
            end)
  | Fact_Journals abandoned =>
      Some (Some (Finding_Interrupted (ab_request <$> abandoned)
                    (dedup (sort_strings (abandoned ≫= ab_pending)))))
  | _ => Some None
  end.

(** The generation of a profile that dangles: the active one, or the first. *)
Definition dangling_generation (profile : ProfileFacts) : option N :=
  let first := head (dangling profile) in
  match active profile with
  | Some active => if decide (active ∈ dangling profile) then Some active else first
  | None => first
  end.

Section Classify.
Context `{ManifestJson} `{JsonValue V}.

(** The arm of [Target::Activation]. *)
Definition classify_activation (facts : list Fact) (pins : Pins LockedInput) :
    option (option Finding) :=
  on_disk ← text_fact facts 0;
  match on_disk with
  | None => Some None
  | Some listed =>
      match validate listed with
      | Err (Invalid_Newer format) => Some (Some (Finding_NewerState format))
      | valid =>
          generation ← text_fact facts 1;
          let current := generation ≫= (λ text, ok (validate text)) in
          other ← match current with
                  | None => Some false
                  | Some _ =>
                      built ← text_fact facts 3;
                      Some (bool_decide (built ≫= read (V := V) ≠ Some pins))
                  end;
          Some (if decide (current ≠ ok valid ∨ other = true) then Some Finding_ProfileStale
                else None)
      end
  end.

Definition classify (t : Target) (facts : list Fact) : option (option Finding) :=
  match t with
  | Target_Link _ =>
      found ← path_fact facts 0;
      Some (match pf_kind found with
            | Kind_Missing | Kind_Symlink => None
            | Kind_Unreadable kind => Some (Finding_Unreadable kind)
            | _ => Some Finding_NotALink
            end)
  | Target_Precondition _ =>
      found ← path_fact facts 0;
      Some (or_else (absent (pf_kind found))
              (if decide (pf_kind found = Kind_Directory) then None
               else Some Finding_NotADirectory))
  | Target_Parent _ mode owner | Target_Directory _ mode owner =>
      found ← path_fact facts 0;
      Some (match absent (pf_kind found) with
            | Some finding => Some finding
            | None => if decide (pf_kind found = Kind_Directory) then shape found mode owner
                      else Some Finding_NotADirectory
            end)
  | Target_File _ expected mode owner => classify_file facts expected mode owner
  | Target_SeededFile _ _ mode owner =>
      found ← path_fact facts 0;
      Some (or_else (absent (pf_kind found)) (shape found mode owner))
  | Target_Group _ gid =>
      fact ← facts !! 0%nat;
      Some (match fact with
            | Fact_Group None => Some Finding_GroupMissing
            | Fact_Group (Some group) =>
                if decide (group_gid group = gid) then None
                else Some (Finding_GroupGid (group_gid group) gid)
            | _ => None
            end)
  | Target_GroupMember group user =>
      fact ← facts !! 0%nat;
      let member := match fact with
                    | Fact_Group (Some found) => bool_decide (user ∈ members found)
                    | _ => false end in
      second ← facts !! 1%nat;
      Some (match member, second with
            | true, _ => None
            | false, Fact_User (Some _) => Some (Finding_NotAMember group)
            | false, _ => Some Finding_NoSuchUser
            end)
  | Target_User _ uid gid =>
      fact ← facts !! 0%nat;
      Some (match fact with
            | Fact_User None => Some Finding_UserMissing
            | Fact_User (Some found) =>
                if decide ((uf_uid found, uf_gid found) = (uid, gid)) then None
                else Some (Finding_UserIds (uf_uid found, uf_gid found) (uid, gid))
            | _ => None
            end)
  | Target_SystemdUnit _ src _ => classify_unit facts src
  | Target_UnitActive _ =>
      fact ← facts !! 0%nat;
      Some (match fact with
            | Fact_Unit unit =>
                if (active_state unit =s "active") || (active_state unit =s "reloading")
                then None else Some Finding_UnitInactive
            | _ => Some Finding_UnitInactive
            end)
  | Target_PathExists _ _ _ =>
      found ← path_fact facts 0;
      Some (if decide (pf_kind found = Kind_Missing) then Some Finding_RuntimeMissing else None)
  | Target_Repository _ user =>
      repository ← path_fact facts 0;
      match absent (pf_kind repository) with
      | Some finding => Some (Some finding)
      | None =>
          if decide (pf_kind repository = Kind_Directory) then
            fact ← facts !! 1%nat;
            Some (match fact with
                  | Fact_Stranger (Some (_, actual)) =>
                      Some (Finding_Owner actual (uid user, gid user))
                  | _ => None
                  end)
          else Some (Some Finding_RepositoryBroken)
      end
  | Target_History _ _ =>
      fact ← facts !! 2%nat;
      match fact with
      | Fact_Repository true _ =>
          found ← path_fact facts 0;
          Some (if decide (pf_kind found = Kind_Missing) then None
                else Some Finding_RepositoryLocked)
      | _ => Some (Some Finding_RepositoryBroken)
      end
  | Target_Program _ _ mode =>
      found ← path_fact facts 0;
      match absent (pf_kind found) with
      | Some finding => Some (Some finding)
      | None =>
          fact ← facts !! 1%nat;
          Some (match fact with
                | Fact_Program program =>
                    if pg_same program then shape found mode ROOT else Some Finding_ContentDrift
                | _ => shape found mode ROOT
                end)
      end
  | Target_Journals _ => classify_journals facts
  | Target_Leftovers _ _ =>
      found ← leftovers facts None;
      let paths := (λ entry, display entry.1) <$> found in
      Some (if decide (paths = []) then None else Some (Finding_Leftovers paths))
  | Target_Generations _ _ =>
      fact ← facts !! 0%nat;
      Some (match fact with
            | Fact_Profile profile => Finding_GenerationDangling <$> dangling_generation profile
            | _ => None
            end)
  | Target_HomeFiles _ _ =>
      fact ← facts !! 0%nat;
      Some (match fact with
            | Fact_Clobbered (p :: paths) =>
                Some (Finding_InTheWay (display <$> p :: paths))
            | _ => None
            end)
  | Target_Activation _ _ _ _ pins => classify_activation facts pins
  | Target_Retention _ _ collect =>
      fact ← facts !! 0%nat;
      Some (match fact with
            | Fact_Profile profile =>
                let old := old_generations profile in
                if decide (old ≠ [] ∨ collect = true) then Some (Finding_OldGenerations old)
                else None
            | _ => None
            end)
  end.

End Classify.

(** ** What differs in a file's text *)

Definition SECRET_SETTINGS : list string := ["access-tokens"].

Record Hunk := mkHunk { found_line : N; hk_found : list string; hk_expected : list string }.
#[export] Instance Hunk_eq_dec : EqDecision Hunk.
Proof. solve_decision. Defined.

Record Drift := mkDrift { dr_path : string; dr_hunks : list Hunk }.
#[export] Instance Drift_eq_dec : EqDecision Drift.
Proof. solve_decision. Defined.

(** [trim_start_matches]. *)
Fixpoint trim_start_matches (fuel : nat) (pre s : string) : string :=
  match fuel with
  | O => s
  | S fuel =>
      match strip_prefix pre s with Some rest => trim_start_matches fuel pre rest | None => s end
  end.

Definition hidden (line : string) : string :=
  match split_once "=" line with
  | Some (key, _) =>
      if bool_decide (trim_start_matches (String.length key) "extra-" (trim key)
                        ∈ SECRET_SETTINGS)
      then trim key +:+ " = <hidden>" else line
  | None => line
  end.

(** What [similar] answers: ranges of the old and of the new lines that are equal or not. *)
Inductive DiffTag := DiffTag_Equal | DiffTag_Delete | DiffTag_Insert | DiffTag_Replace.
#[export] Instance DiffTag_eq_dec : EqDecision DiffTag.
Proof. solve_decision. Defined.

Class Similar := {
  capture_diff_slices : list string → list string → list (DiffTag * (nat * nat) * (nat * nat));
}.

(** Indexing by a range: a panic past the end or backwards. *)
Definition slice {A} (l : list A) (r : nat * nat) : option (list A) :=
  if decide (r.1 ≤ r.2 ∧ r.2 ≤ length l)%nat then Some (take (r.2 - r.1) (drop r.1 l)) else None.

(** One turn of the loop of [hunks]; the hunks are latest first. *)
Definition hunk_step (expected found : list string) (open : bool) (hunks : list Hunk)
    (op : DiffTag * (nat * nat) * (nat * nat)) : option (bool * list Hunk) :=
  let '(tag, old, new) := op in
  if decide (tag = DiffTag_Equal) then Some (false, hunks)
  else
    let hunks := if open then hunks
                 else mkHunk (N.min (N.of_nat (new.1 + 1)) U32_MAX) [] [] :: hunks in
    match hunks with
    | [] => Some (true, [])
    | hunk :: rest =>
        there ← slice found new;
        wanted ← slice expected old;
        Some (true, mkHunk (found_line hunk) (hk_found hunk ++ (hidden <$> there))
                      (hk_expected hunk ++ (hidden <$> wanted)) :: rest)
    end.

Fixpoint hunk_steps (expected found : list string) (open : bool) (hunks : list Hunk)
    (ops : list (DiffTag * (nat * nat) * (nat * nat))) : option (list Hunk) :=
  match ops with
  | [] => Some (reverse hunks)
  | op :: ops =>
      '(open, hunks) ← hunk_step expected found open hunks op;
      hunk_steps expected found open hunks ops
  end.

Definition hunks `{Similar} (expected found : string) : option (list Hunk) :=
  let expected := lines expected in
  let found := lines found in
  hunk_steps expected found false [] (capture_diff_slices expected found).

Definition drift `{Similar} (t : Target) (facts : list Fact) : option (option Drift) :=
  match t with
  | Target_File at_ (Some expected) _ _ =>
      current ← contents_fact facts 1;
      match current with
      | None => Some None
      | Some current =>
          if String.eqb current expected then Some None
          else hs ← hunks expected (from_utf8_lossy current);
               Some (Some (mkDrift (display at_) hs))
      end
  | Target_SystemdUnit _ src dest =>
      installed ← contents_fact facts 0;
      match installed with
      | None => Some None
      | Some installed =>
          source ← unit_source src facts;
          match source with
          | None => Some None
          | Some source =>
              if String.eqb installed source then Some None
              else hs ← hunks (from_utf8_lossy source) (from_utf8_lossy installed);
                   Some (Some (mkDrift dest hs))
          end
      end
  | _ => Some None
  end.

(** ** What repair does about a finding *)

Definition tree_owner_fact (facts : list Fact) (index : nat) : option N :=
  match facts !! index with Some (Fact_TreeOwner owner) => owner | _ => None end.

Definition own_again (at_ : path) (found : PathFacts) (owner : option Owner) (tree : option N) :
    list Action :=
  match owner with
  | None => []
  | Some owner =>
      if decide (pf_owner found = owner) then []
      else match pf_id found with
           | Some expect =>
               if decide (owner.1 ≠ 0 ∧ tree = Some owner.1)
               then [Action_ReclaimTree at_ expect owner (pf_mode found)]
               else [Action_SetOwner at_ owner (pf_owner found)]
           | None => [Action_SetOwner at_ owner (pf_owner found)]
           end
  end.

Definition expect_of (found : PathFacts) : Expect :=
  match pf_id found with Some id => Expect_Present id | None => Expect_Absent end.

Definition aside (at_ : path) (found : PathFacts) : option Action :=
  Action_SetAside at_ <$> pf_id found.

Definition replaced (at_ : path) (found : PathFacts) (user : InvokingUser) : list Action :=
  option_list (aside at_ found) ++ [Action_CreateRepository user].

Definition masked (fact : Fact) : bool :=
  match fact with Fact_Unit unit => starts_with "masked" (file_state unit) | _ => false end.

(** The repair of a directory that is there: its mode with its owner in one when the tree
    is taken back, else the mode first. *)
Definition fix_directory (at_ : path) (found : PathFacts) (mode : Mode) (owner : option Owner)
    (tree : option N) : list Action :=
  match own_again at_ found owner tree with
  | Action_ReclaimTree at_' expect to _ :: rest =>
      Action_ReclaimTree at_' expect to (settled mode (pf_mode found) owner) :: rest
  | actions => remode at_ found mode owner ++ actions
  end.

(** The arm of [Target::File]. *)
Definition fix_file (facts : list Fact) (at_ : path) (expected : option string) (mode : Mode)
    (owner : option Owner) : option (list Action) :=
  found ← path_fact facts 0;
  put ← match expected with
        | None => Some None
        | Some expected =>
            current ← contents_fact facts 1;
            Some (if decide (current = Some expected) then None else Some expected)
        end;
  Some (match put with
        | Some expected =>
            [Action_PutFile at_ expected
               (settled mode (if decide (pf_kind found = Kind_File) then pf_mode found
                              else FILE_MODE) owner) owner (expect_of found)]
        | None => own_again at_ found owner (tree_owner_fact facts 2) ++
                    remode at_ found mode owner
        end).

(** The arm of [Target::SystemdUnit]. *)
Definition fix_unit (facts : list Fact) (finding : Finding) (name : string) (src : UnitSource)
    (dest : string) : option (result Unfixable (list Action)) :=
  fact ← facts !! 2%nat;
  if masked fact then Some (Err Unfixable_Masked)
  else match finding with
       | Finding_Owner _ _ | Finding_Mode _ _ =>
           found ← path_fact facts 1;
           Some (Ok (reshape (of_string dest) found SYSTEM_FILE ROOT))
       | _ =>
           source ← unit_source src facts;
           match source with
           | None => Some (Err Unfixable_MissingRuntime)
           | Some wanted =>
               found ← path_fact facts 1;
               Some (Ok [Action_InstallUnit name wanted (expect_of found); Action_DaemonReload])
           end
       end.

(** The arm of [Target::Program]. *)
Definition fix_program (facts : list Fact) (finding : Finding) (at_ : string) (mode : Mode) :
    option (result Unfixable (list Action)) :=
  found ← path_fact facts 0;
  match finding with
  | Finding_Mode _ _ | Finding_Owner _ _ =>
      Some (Ok (reshape (of_string at_) found mode ROOT))
  | _ =>
      fact ← facts !! 1%nat;
      Some (match fact with
            | Fact_Program (mkProgramFacts _ (Some source)) =>
                Ok [Action_PutFile (of_string at_) source (mode_bits mode) None (expect_of found)]
            | _ => Err Unfixable_MissingRuntime
            end)
  end.

(** The arm of [Target::Generations]. *)
Definition fix_generations (profile : ProfileFacts) (user : InvokingUser) : list Action :=
  match active profile with
  | Some active =>
      if decide (active ∈ dangling profile) then [Action_ActivateProfile user FlakeSource_Git]
      else []
  | None => []
  end ++ (Action_DeleteGeneration user <$> dangling profile).

(** The arm of [Target::Parent]. *)
Definition fix_parent (facts : list Fact) (finding : Finding) (at_ : path) (mode : Mode)
    (owner : option Owner) : option (result Unfixable (list Action)) :=
  match finding with
  | Finding_Owner _ _ | Finding_Mode _ _ =>
      found ← path_fact facts 0; Some (Ok (reshape at_ found mode owner))
  | _ => Some (Ok [Action_CreateDirs at_ (mode_bits mode) owner])
  end.

(** The arm of [Target::History]. *)
Definition fix_history (facts : list Fact) (finding : Finding) (at_ : path) (user : InvokingUser) :
    option (result Unfixable (list Action)) :=
  if decide (finding = Finding_RepositoryLocked) then
    found ← path_fact facts 0;
    Some (Ok (option_list (aside (join_path at_ INDEX_LOCK) found)))
  else found ← path_fact facts 1; Some (Ok (replaced at_ found user)).

(** The arm of [Target::Journals]. *)
Definition fix_journals (facts : list Fact) (finding : Finding) (at_ : string) :
    option (result Unfixable (list Action)) :=
  match finding with
  | Finding_Owner _ _ | Finding_Mode _ _ =>
      found ← path_fact facts 1;
      Some (Ok (reshape (of_string at_) found (Mode_Exact JOURNAL_DIR_MODE) ROOT))
  | _ => Some (Err Unfixable_Unrecovered)
  end.

(** The arms of [Target::Repository] and [Target::Retention]. *)
Definition fix_repository (found : PathFacts) (finding : Finding) (at_ : path)
    (user : InvokingUser) : list Action :=
  match finding with
  | Finding_Owner _ expected =>
      option_list ((λ expect, Action_ReclaimTree at_ expect expected (pf_mode found))
                     <$> pf_id found)
  | _ => replaced at_ found user
  end.

Definition fix_retention (finding : Finding) (user : InvokingUser) (collect : bool) :
    list Action :=
  match finding with
  | Finding_OldGenerations generations =>
      (Action_DeleteGeneration user <$> generations) ++
      (if collect then [Action_CollectGarbage user] else [])
  | _ => []
  end.

(** The arms of [Target::Directory], [Target::SeededFile], [Target::Group] and [Target::User]. *)
Definition fix_place (found : PathFacts) (at_ : path) (mode : Mode) (owner : option Owner)
    (tree : option N) : list Action :=
  match pf_kind found with
  | Kind_Missing | Kind_Unreadable _ => [Action_CreateDirs at_ (mode_bits mode) owner]
  | _ => fix_directory at_ found mode owner tree
  end.

Definition fix_seeded (found : PathFacts) (at_ : path) (seed : string) (mode : Mode)
    (owner : option Owner) (tree : option N) : list Action :=
  match pf_kind found with
  | Kind_Missing | Kind_Unreadable _ =>
      [Action_PutFile at_ seed (settled mode FILE_MODE owner) owner (expect_of found)]
  | _ => own_again at_ found owner tree ++ remode at_ found mode owner
  end.

Definition fix_group (finding : Finding) (name : string) (gid : N) : list Action :=
  match finding with
  | Finding_GroupGid actual _ => [Action_SetGroupGid name gid actual]
  | _ => [Action_AddGroup name gid]
  end.

Definition fix_user (finding : Finding) (request : string) (n uid gid : N) : list Action :=
  match finding with
  | Finding_UserIds actual _ => [Action_SetUserIds (build_user_name n) (uid, gid) actual]
  | _ =>
      [Action_AddUser
         (mkUserSpec (build_user_name n) uid gid (of_string NIXBLD_HOME)
            (of_string NIXBLD_SHELL)
            ("mix build user " +:+ digits n +:+ " for request " +:+ request) [NIXBLD_GROUP])]
  end.

Definition remove_leftovers (found : list (path * FileId)) : list Action :=
  (λ entry, Action_RemoveCreatedTree entry.1 entry.2) <$> found.

(** The arms of [fix], for a finding that can be repaired. *)
Definition fix_arm (t : Target) (finding : Finding) (facts : list Fact) (request : string) :
    option (result Unfixable (list Action)) :=
  match t with
  | Target_Precondition _ => Some (Err Unfixable_Outside)
  | Target_Link _ => Some (Err Unfixable_InTheWay)
  | Target_Parent at_ mode owner => fix_parent facts finding at_ mode owner
  | Target_Directory at_ mode owner =>
      found ← path_fact facts 0;
      Some (Ok (fix_place found at_ mode owner (tree_owner_fact facts 1)))
  | Target_File at_ expected mode owner => Ok <$> fix_file facts at_ expected mode owner
  | Target_SeededFile at_ seed mode owner =>
      found ← path_fact facts 0;
      Some (Ok (fix_seeded found at_ seed mode owner (tree_owner_fact facts 1)))
  | Target_Group name gid => Some (Ok (fix_group finding name gid))
  | Target_GroupMember group user => Some (Ok [Action_AddMember group user])
  | Target_User n uid gid => Some (Ok (fix_user finding request n uid gid))
  | Target_SystemdUnit name src dest => fix_unit facts finding name src dest
  | Target_UnitActive name =>
      fact ← facts !! 0%nat;
      Some (if masked fact then Err Unfixable_Masked
            else Ok [Action_EnableUnit name; Action_StartUnit name])
  | Target_PathExists _ _ _ => Some (Err Unfixable_MissingRuntime)
  | Target_Repository at_ user =>
      found ← path_fact facts 0; Some (Ok (fix_repository found finding at_ user))
  | Target_History at_ user => fix_history facts finding at_ user
  | Target_Program at_ _ mode => fix_program facts finding at_ mode
  | Target_Journals at_ => fix_journals facts finding at_
  | Target_HomeFiles _ _ => Some (Err Unfixable_InTheWay)
  | Target_Leftovers _ _ =>
      found ← leftovers facts (Some request);
      Some (Ok (remove_leftovers found))
  | Target_Activation _ user _ _ _ =>
      found ← path_fact facts 2;
      Some (Ok [Action_ActivateProfile user
                  (if decide (pf_kind found = Kind_File) then FlakeSource_Git
                   else FlakeSource_Path)])
  | Target_Retention _ user collect => Some (Ok (fix_retention finding user collect))
  | Target_Generations _ user =>
      fact ← facts !! 0%nat;
      Some (Ok (match fact with
                | Fact_Profile profile => fix_generations profile user
                | _ => []
                end))
  end.

Definition fix_target (t : Target) (finding : Finding) (facts : list Fact) (request : string) :
    option (result Unfixable (list Action)) :=
  match t with
  | Target_PathExists _ _ (Some runtime) =>
      Some (Ok [Action_InstallRuntime (rt_url runtime) (rt_sha256 runtime) (rt_size runtime)])
  | _ =>
      match unfixable finding with
      | Some reason => Some (Err reason)
      | None => fix_arm t finding facts request
      end
  end.
