(* ===== verification/HealthHeals.v ===== *)
(** * Repair heals

    What repair does about a finding, once done, leaves nothing to find: on a modelled
    world, when the actions [fix] answers succeed, [classify] finds the target as it should
    be. *)
From S2P Require Import Prelude.
From S2P Require Import Chars.
From S2P Require Import Paths.
From S2P Require Import Effect.
From S2P Require Import Journal.
From S2P Require Import Precondition.
From S2P Require Import Accounts.
From S2P Require Import World.
From S2P Require Import Repository.
From S2P Require Import Apply.
From S2P Require Import Observe.
From S2P Require Import WorldAccounts.
From S2P Require Import WorldFiles.
From S2P Require Import WorldNames.
From S2P Require Import WorldFrame.
From S2P Require Import WorldUndo.
From S2P Require Import WorldAfter.
From S2P Require Import Pins.
From S2P Require Import Packages.
From S2P Require Import Declared.
From S2P Require Import Health.

Local Open Scope N_scope.

(** ** Modes that are settled *)

Lemma settled_again m found owner :
  settled m (settled m found owner) owner = settled m found owner.
Proof.
  destruct m as [bits|bits]; [done|]. cbn [settled].
  set (foreign := if owned_by_root owner then _ else _).
  apply N.bits_inj. intros i. rewrite !N.land_spec, !N.lor_spec, !N.land_spec, !N.lor_spec.
  by destruct (N.testbit found i), (N.testbit bits i), (N.testbit (not_u32 foreign) i).
Qed.

Lemma settled_bits m owner : mode_bits m < 2 ^ 32 → settled m (mode_bits m) owner = mode_bits m.
Proof.
  destruct m as [bits|bits]; [done|]. cbn [settled mode_bits]. intros Hb.
  rewrite N.lor_diag. apply N.bits_inj. intros i. rewrite N.land_spec.
  destruct (N.testbit bits i) eqn:Hi; [|done]. simpl.
  assert (i < 32) as Hlt.
  { apply N.nle_gt. intros Hle. by rewrite testbit_u32 in Hi. }
  unfold not_u32. rewrite N.lnot_spec_low by done. destruct (owned_by_root owner); [|by rewrite N.bits_0].
  rewrite N.land_spec. unfold not_u32. rewrite N.lnot_spec_low, Hi by done. by rewrite andb_false_r.
Qed.

(** ** A path as it should be *)

Definition as_wanted (mode : Mode) (owner : option Owner) (e : FileEntry) : Prop :=
  (∀ o, owner = Some o → fe_owner e = o) ∧ fe_mode e = settled mode (fe_mode e) owner.

Lemma shape_None mode owner e :
  shape (path_facts (Some e)) mode owner = None ↔ as_wanted mode owner e.
Proof.
  unfold shape, as_wanted, or_else, owner_drift, mode_drift. simpl. destruct owner as [o|]; simpl.
  - destruct (decide (fe_owner e = o)); simpl; [|split; [done|naive_solver]].
    destruct (decide _); naive_solver.
  - destruct (decide _); naive_solver.
Qed.

Lemma wanted_new mode owner e :
  fe_owner e = default World.ROOT owner → fe_mode e = settled mode (fe_mode e) owner →
  as_wanted mode owner e.
Proof. intros Ho Hm. split; [|done]. intros o ->. by rewrite Ho. Qed.

(** The entry at the path has its content and is as wanted. *)
Definition heals (w : World) (p : path) (c : Content) (mode : Mode) (owner : option Owner) : Prop :=
  ∃ e, files w !! p = Some e ∧ fe_content e = c ∧ as_wanted mode owner e.

Lemma contents_alter w p f x :
  (∀ e, fe_content (f e) = fe_content e) →
  contents_of (set_files (alter f p (files w)) w) x = contents_of w x.
Proof.
  intros Hf. unfold contents_of. simpl. destruct (decide (x = p)) as [->|].
  - rewrite lookup_alter_eq. destruct (files w !! p) as [e|]; [|done]. simpl. by rewrite Hf.
  - by rewrite lookup_alter_ne.
Qed.

(** What changing modes and owners of a path leads to. *)
Record retouched (w w' : World) (p : path) (f : FileEntry → FileEntry) : Prop := {
  rt_ok : world_ok w';
  rt_files : files w' = alter f p (files w);
  rt_frame : framed w w';
}.

Lemma retouched_contents w w' p f x :
  (∀ e, fe_content (f e) = fe_content e) → retouched w w' p f →
  contents_of w' x = contents_of w x.
Proof.
  intros Hf [_ Hfs _]. transitivity (contents_of (set_files (alter f p (files w)) w) x).
  - unfold contents_of. simpl. by rewrite Hfs.
  - by apply contents_alter.
Qed.

Lemma remode_after w p e mode owner w' :
  world_ok w → files w !! p = Some e →
  run_all (remode p (path_facts (Some e)) mode owner) w = (Ok tt, w') →
  retouched w w' p (with_mode (settled mode (fe_mode e) owner)).
Proof.
  intros Hok He. unfold remode. simpl. destruct (decide _) as [Heq|Hne].
  - intros ->%run_all_nil. split; [done| |done].
    rewrite <- Heq. symmetry. apply alter_id. intros x Hx.
    assert (x = e) as -> by congruence. by destruct e.
  - intros [u Hap]%run_all_one. split.
    + by destruct (set_mode_undone _ _ _ _ _ _ Hok Hap).
    + apply set_mode_after in Hap as (e1 & _ & _ & ->); [done|apply Hok].
    + replace w' with (apply (Action_SetMode p (settled mode (fe_mode e) owner) (fe_mode e)) w).2
        by by rewrite Hap. apply apply_framed.
Qed.

Lemma wanted_remode mode owner e e' :
  (∀ o, owner = Some o → fe_owner e' = o) → fe_mode e' = fe_mode e →
  as_wanted mode owner (with_mode (settled mode (fe_mode e) owner) e').
Proof. intros Ho Hm. split; [done|]. simpl. by rewrite settled_again. Qed.

Lemma set_owner_retouched w p e o w' u :
  world_ok w → files w !! p = Some e →
  apply (Action_SetOwner p o (fe_owner e)) w = (Ok u, w') → retouched w w' p (with_owner o).
Proof.
  intros Hok He Hap. split.
  - by destruct (set_owner_undone _ _ _ _ _ _ Hok Hap).
  - apply set_owner_after in Hap as (e1 & _ & _ & ->); [done|apply Hok].
  - replace w' with (apply (Action_SetOwner p o (fe_owner e)) w).2 by by rewrite Hap.
    apply apply_framed.
Qed.

(** What taking a path back leaves of it. *)
Record owned_again (w w' : World) (p : path) (owner : option Owner) (e : FileEntry) : Prop := {
  oa_ok : world_ok w';
  oa_frame : framed w w';
  oa_entry : ∃ e', files w' !! p = Some e' ∧ fe_content e' = fe_content e ∧
    fe_mode e' = fe_mode e ∧ ∀ o, owner = Some o → fe_owner e' = o;
}.

Lemma retouched_owned w w' p o e :
  files w !! p = Some e → retouched w w' p (with_owner o) → owned_again w w' p (Some o) e.
Proof.
  intros He [Hok Hf Hfr]. split; [done..|]. exists (with_owner o e).
  rewrite Hf, lookup_alter_eq, He. split_and!; try done. by intros ? [= <-].
Qed.

Lemma owned_already w p owner e :
  world_ok w → files w !! p = Some e → (∀ o, owner = Some o → fe_owner e = o) →
  owned_again w w p owner e.
Proof. intros. split; [done..|]. by exists e. Qed.

Lemma reclaim_owned w p e expect o u w' :
  world_ok w → files w !! p = Some e →
  apply (Action_ReclaimTree p expect o (fe_mode e)) w = (Ok u, w') →
  owned_again w w' p (Some o) e.
Proof.
  intros Hok He Hap. split.
  - by destruct (reclaim_tree_undone _ _ _ _ _ _ _ Hok Hap).
  - replace w' with (apply (Action_ReclaimTree p expect o (fe_mode e)) w).2 by by rewrite Hap.
    apply apply_framed.
  - destruct (reclaim_after _ _ _ _ _ _ _ Hok Hap) as (e1 & id & He1 & He' & _).
    assert (e1 = e) as -> by congruence. eexists. split; [exact He'|]. split_and!; try done.
    by intros ? [= <-].
Qed.

Lemma own_again_after w p e owner tree w' :
  world_ok w → files w !! p = Some e →
  run_all (own_again p (path_facts (Some e)) owner tree) w = (Ok tt, w') →
  owned_again w w' p owner e.
Proof.
  intros Hok He. unfold own_again. simpl. destruct owner as [o|].
  2:{ intros ->%run_all_nil. by apply owned_already. }
  destruct (decide (fe_owner e = o)) as [Heq|Hne].
  { intros ->%run_all_nil. apply owned_already; [done..|]. by intros ? [= <-]. }
  destruct (decide _) as [_|_]; intros [u Hap]%run_all_one.
  - by eapply reclaim_owned.
  - by eapply retouched_owned, set_owner_retouched.
Qed.

Lemma owned_remode w w1 w2 p e mode owner :
  owned_again w w1 p owner e →
  run_all (remode p (path_facts (Some e)) mode owner) w1 = (Ok tt, w2) →
  heals w2 p (fe_content e) mode owner.
Proof.
  intros [Hok _ (e1 & He1 & Hc & Hm & Ho)] Hrun.
  assert (Heq : remode p (path_facts (Some e)) mode owner = remode p (path_facts (Some e1)) mode owner)
    by (unfold remode; simpl; by rewrite Hm).
  rewrite Heq in Hrun. apply (remode_after _ _ e1) in Hrun as [_ Hf _]; [|done..].
  exists (with_mode (settled mode (fe_mode e1) owner) e1). rewrite Hf, lookup_alter_eq, He1.
  split_and!; [done|by simpl|]. by apply wanted_remode.
Qed.

Lemma own_again_remode w p e mode owner tree w' :
  world_ok w → files w !! p = Some e →
  run_all (own_again p (path_facts (Some e)) owner tree ++
           remode p (path_facts (Some e)) mode owner) w = (Ok tt, w') →
  heals w' p (fe_content e) mode owner.
Proof.
  intros Hok He (w1 & H1 & H2)%run_all_two. eapply owned_remode; [|exact H2].
  by eapply own_again_after.
Qed.

Lemma reshape_after w p e mode owner w' :
  world_ok w → files w !! p = Some e →
  run_all (reshape p (path_facts (Some e)) mode owner) w = (Ok tt, w') →
  heals w' p (fe_content e) mode owner ∧ framed w w' ∧ ∀ x, contents_of w' x = contents_of w x.
Proof.
  intros Hok He (w1 & H1 & H2)%run_all_two.
  assert (H : owned_again w w1 p owner e ∧ ∀ x, contents_of w1 x = contents_of w x) .
  { destruct owner as [o|]; simpl in H1; [destruct (decide _) as [Heq|Hne]|].
    - apply run_all_nil in H1 as ->. split; [|done]. apply owned_already; [done..|]. by intros ? [= <-].
    - apply run_all_one in H1 as [u Hap]. pose proof (set_owner_retouched _ _ _ _ _ _ Hok He Hap) as Hr.
      split; [by apply retouched_owned|]. intros x.
      by apply (retouched_contents w w1 p (with_owner o)).
    - apply run_all_nil in H1 as ->. split; [|done]. by apply owned_already. }
  destruct H as [Ho Hc]. split; [by eapply owned_remode|].
  destruct Ho as [Hok1 Hfr (e1 & He1 & _ & Hm & _)].
  assert (Heq : remode p (path_facts (Some e)) mode owner = remode p (path_facts (Some e1)) mode owner)
    by (unfold remode; simpl; by rewrite Hm).
  rewrite Heq in H2. apply (remode_after _ _ e1) in H2 as Hr; [|done..].
  split; [by etrans; [|apply Hr]|]. intros x. rewrite <- Hc.
  by apply (retouched_contents w1 w' p (with_mode (settled mode (fe_mode e1) owner))).
Qed.

Lemma fix_directory_after w p e mode owner tree w' :
  world_ok w → files w !! p = Some e →
  run_all (fix_directory p (path_facts (Some e)) mode owner tree) w = (Ok tt, w') →
  heals w' p (fe_content e) mode owner.
Proof.
  intros Hok He. unfold fix_directory.
  assert (Hmode : ∀ l, l = own_again p (path_facts (Some e)) owner tree →
    run_all (remode p (path_facts (Some e)) mode owner ++ l) w = (Ok tt, w') →
    (∀ o, owner = Some o → fe_owner e ≠ o → l = [Action_SetOwner p o (fe_owner e)]) →
    heals w' p (fe_content e) mode owner).
  { intros l Hl (w1 & H1 & H2)%run_all_two Hset. apply (remode_after _ _ e) in H1 as [Hok1 Hf1 _]; [|done..].
    set (e1 := with_mode (settled mode (fe_mode e) owner) e) in *.
    assert (He1 : files w1 !! p = Some e1) by by rewrite Hf1, lookup_alter_eq, He.
    unfold own_again in Hl. simpl in Hl. destruct owner as [o|].
    - destruct (decide (fe_owner e = o)) as [Heq|Hne].
      + subst l. apply run_all_nil in H2 as ->. exists e1. split_and!; [done..|].
        by apply wanted_remode; [intros ? [= <-]|].
      + rewrite (Hset o eq_refl Hne) in H2. apply run_all_one in H2 as [u Hap].
        pose proof (set_owner_retouched w1 p e1 o w' u Hok1 He1 Hap) as [_ Hf _].
        exists (with_owner o e1). rewrite Hf, lookup_alter_eq, He1. split_and!; [done..|].
        split; [by intros ? [= <-]|]. unfold e1. simpl. by rewrite settled_again.
    - subst l. apply run_all_nil in H2 as ->. exists e1. split_and!; [done..|].
      by apply wanted_remode. }
  destruct (own_again p (path_facts (Some e)) owner tree) as [|a rest] eqn:Hown.
  { intros Hr. apply (Hmode []); [done..|]. intros o -> Hne. unfold own_again in Hown.
    simpl in Hown. rewrite decide_False in Hown by done. by destruct (decide _). }
  assert (Ha : ∃ o, owner = Some o ∧ rest = [] ∧
    (a = Action_SetOwner p o (fe_owner e) ∨ a = Action_ReclaimTree p (fe_id e) o (fe_mode e))).
  { unfold own_again in Hown. simpl in Hown. destruct owner as [o|]; [|done].
    destruct (decide _); [done|]. destruct (decide _); injection Hown as <- <-; eauto. }
  destruct Ha as (o & -> & -> & [->| ->]); intros Hr.
  - apply (Hmode [Action_SetOwner p o (fe_owner e)]); [done..|]. by intros ? [= <-] _.
  - apply run_all_one in Hr as [u Hap].
    destruct (reclaim_after _ _ _ _ _ _ _ Hok Hap) as (e1 & id & He1 & He' & _).
    assert (e1 = e) as -> by congruence. eexists. split; [exact He'|]. split; [done|].
    split; [by intros ? [= <-]|]. simpl. by rewrite settled_again.
Qed.

(** ** Paths *)

Lemma shape_finding found mode owner f :
  shape found mode owner = Some f →
  (∃ actual expected, f = Finding_Owner actual expected) ∨
  (∃ actual expected, f = Finding_Mode actual expected).
Proof.
  unfold shape, or_else, owner_drift, mode_drift. destruct owner as [o|]; simpl;
    repeat (destruct (decide _); simpl); intros [= <-]; eauto.
Qed.

Lemma new_directory_heals w p mode owner u w' :
  rooted p → mode_bits mode < 2 ^ 32 → files w !! p = None →
  apply (Action_CreateDirs p (mode_bits mode) owner) w = (Ok u, w') →
  heals w' p Content_Directory mode owner.
Proof.
  intros Hp Hb Hn Hap. destruct (create_dirs_after _ _ _ _ _ _ Hp Hn Hap) as [id Hid].
  eexists. split; [exact Hid|]. split; [done|]. apply wanted_new; [done|]. simpl.
  by rewrite settled_bits.
Qed.

Lemma new_file_heals w p contents mode found owner expect u w' :
  apply (Action_PutFile p contents (settled mode found owner) owner expect) w = (Ok u, w') →
  heals w' p (Content_File contents) mode owner.
Proof.
  rewrite apply_put. intros [id Hid]%put_after. eexists. split; [exact Hid|]. split; [done|].
  apply wanted_new; [done|]. simpl. by rewrite settled_again.
Qed.

Section Heals.
Context `{ManifestJson} `{JsonValue V}.

(** What the target's queries find in a world. *)
Definition seen (w : World) (t : Target) : list Fact := Observe.observe w <$> queries t.

#[local] Abbreviation classifyV := (classify (V := V)).

(** The target is as it should be. *)
Definition healthy (w : World) (t : Target) : Prop := classifyV t (seen w t) = Some None.

(** Repair of the target went through. *)
Definition repaired (w : World) (t : Target) (request : string) (w' : World) : Prop :=
  ∃ finding actions,
    classifyV t (seen w t) = Some (Some finding) ∧
    fix_target t finding (seen w t) request = Some (Ok actions) ∧
    run_all actions w = (Ok tt, w').

Lemma heals_place w p mode owner :
  heals w p Content_Directory mode owner →
  healthy w (Target_Parent p mode owner) ∧ healthy w (Target_Directory p mode owner).
Proof.
  intros (e & He & Hc & Hw%shape_None). unfold healthy, seen. simpl. rewrite He.
  assert (Hk : pf_kind (path_facts (Some e)) = Kind_Directory) by (simpl; unfold kind_of; by rewrite Hc).
  set (found := path_facts (Some e)) in *. clearbody found. unfold path_fact. simpl.
  rewrite Hk. simpl. by rewrite Hw.
Qed.

(** The two ways a place is not as it should be and can be repaired. *)
Lemma place_finding w p mode owner f :
  match Health.absent (pf_kind (path_facts (files w !! p))) with
  | Some finding => Some finding
  | None => if decide (pf_kind (path_facts (files w !! p)) = Kind_Directory)
            then shape (path_facts (files w !! p)) mode owner
            else Some Finding_NotADirectory
  end = Some f →
  (files w !! p = None ∧ f = Finding_Missing) ∨
  (∃ e, files w !! p = Some e ∧ fe_content e = Content_Directory ∧
     ((∃ actual expected, f = Finding_Owner actual expected) ∨
      (∃ actual expected, f = Finding_Mode actual expected))) ∨
  unfixable f = Some Unfixable_NotADirectory.
Proof.
  destruct (files w !! p) as [e|]; simpl; [|intros [= <-]; by left].
  unfold kind_of. destruct (fe_content e) eqn:Hc; simpl; intros Hs; right.
  - left. exists e. split_and!; [done..|]. by eapply shape_finding.
  - right. by injection Hs as <-.
Qed.

Lemma parent_heals w p mode owner request w' :
  world_ok w → rooted p → mode_bits mode < 2 ^ 32 →
  repaired w (Target_Parent p mode owner) request w' → healthy w' (Target_Parent p mode owner).
Proof.
  intros Hok Hp Hb (f & actions & Hf & Hfix & Hrun). apply heals_place.
  unfold seen in Hf. simpl in Hf. injection Hf as Hf.
  apply place_finding in Hf as [[Hn ->]|[(e & He & Hc & Hf)|Hu]].
  - cbn in Hfix. injection Hfix as <-. apply run_all_one in Hrun as [u Hap].
    by eapply new_directory_heals.
  - assert (actions = reshape p (path_facts (Some e)) mode owner) as ->.
    { unfold seen in Hfix. simpl in Hfix. rewrite He in Hfix.
      destruct Hf as [(a & x & ->)|(a & x & ->)]; by injection Hfix as <-. }
    rewrite <- Hc. by apply (reshape_after _ _ _ _ _ _ Hok He Hrun).
  - unfold fix_target in Hfix. by rewrite Hu in Hfix.
Qed.

Lemma directory_heals w p mode owner request w' :
  world_ok w → rooted p → mode_bits mode < 2 ^ 32 →
  repaired w (Target_Directory p mode owner) request w' → healthy w' (Target_Directory p mode owner).
Proof.
  intros Hok Hp Hb (f & actions & Hf & Hfix & Hrun). apply heals_place.
  unfold seen in Hf. simpl in Hf. injection Hf as Hf.
  apply place_finding in Hf as [[Hn ->]|[(e & He & Hc & Hf)|Hu]].
  - unfold seen in Hfix. simpl in Hfix. rewrite Hn in Hfix. injection Hfix as <-.
    apply run_all_one in Hrun as [u Hap]. by eapply new_directory_heals.
  - assert (∃ tree, actions = fix_directory p (path_facts (Some e)) mode owner tree) as [tree ->].
    { unfold seen in Hfix. simpl in Hfix. rewrite He in Hfix. unfold fix_target in Hfix.
      assert (unfixable f = None) as Hu by by destruct Hf as [(a & x & ->)|(a & x & ->)].
      rewrite Hu in Hfix. simpl in Hfix. injection Hfix as <-. unfold fix_place. simpl.
      unfold kind_of. rewrite Hc. eauto. }
    rewrite <- Hc. by eapply fix_directory_after.
  - unfold fix_target in Hfix. by rewrite Hu in Hfix.
Qed.

(** ** Files *)

Lemma fix_target_arm t f facts request actions :
  match t with Target_PathExists _ _ (Some _) => False | _ => True end →
  fix_target t f facts request = Some (Ok actions) →
  unfixable f = None ∧ fix_arm t f facts request = Some (Ok actions).
Proof.
  intros Ht. unfold fix_target. destruct t; try (by destruct (unfixable f)).
  by destruct install; [|destruct (unfixable f)].
Qed.

Lemma heals_file w p contents mode owner :
  heals w p (Content_File contents) mode owner → healthy w (Target_File p (Some contents) mode owner).
Proof.
  intros (e & He & Hc & Hw%shape_None). unfold healthy, seen. simpl.
  assert (Hcont : contents_of w p = Some contents) by (unfold contents_of; rewrite He; simpl; by rewrite Hc).
  rewrite Hcont, He. unfold classify_file, path_fact, contents_fact.
  assert (Hk : pf_kind (path_facts (Some e)) = Kind_File) by (simpl; unfold kind_of; by rewrite Hc).
  set (found := path_facts (Some e)) in *. clearbody found. simpl. rewrite Hk. simpl.
  by rewrite String.eqb_refl, Hw.
Qed.

Lemma heals_any w p c mode owner :
  heals w p c mode owner →
  healthy w (Target_File p None mode owner) ∧
  ∀ seed, healthy w (Target_SeededFile p seed mode owner).
Proof.
  intros (e & He & Hc & Hw%shape_None). unfold healthy, seen. simpl. rewrite He.
  assert (Hk : pf_kind (path_facts (Some e)) ≠ Kind_Missing ∧
               Health.absent (pf_kind (path_facts (Some e))) = None)
    by (simpl; unfold kind_of; by destruct (fe_content e)).
  destruct Hk as [Hk Ha].
  unfold classify_file, path_fact. set (found := path_facts (Some e)) in *. clearbody found. simpl.
  split; [by rewrite decide_False, Hw|]. intros _. by rewrite Ha, Hw.
Qed.

Lemma file_heals w p expected mode owner request w' :
  world_ok w →
  repaired w (Target_File p expected mode owner) request w' →
  healthy w' (Target_File p expected mode owner).
Proof.
  intros Hok (f & actions & Hf & [_ Hfix]%fix_target_arm & Hrun); [|done].
  simpl in Hfix. unfold fix_file in Hfix. unfold seen in Hfix, Hf. simpl in Hfix, Hf.
  unfold path_fact, contents_fact in Hfix. simpl in Hfix.
  destruct expected as [x|].
  - apply heals_file. simpl in Hfix. destruct (decide (contents_of w p = Some x)) as [Heq|Hne].
    + simpl in Hfix. injection Hfix as <-. unfold contents_of in Heq.
      destruct (files w !! p) as [e|] eqn:He; [|done]. simpl in Heq.
      destruct (fe_content e) as [|c] eqn:Hc; [done|]. injection Heq as ->.
      rewrite <- Hc. by eapply own_again_remode.
    + simpl in Hfix. injection Hfix as <-. apply run_all_one in Hrun as [u Hap].
      by eapply new_file_heals.
  - simpl in Hfix. injection Hfix as <-. destruct (files w !! p) as [e|] eqn:He; [|done].
    eapply heals_any. by eapply own_again_remode.
Qed.

Lemma seeded_heals w p seed mode owner request w' :
  world_ok w →
  repaired w (Target_SeededFile p seed mode owner) request w' →
  healthy w' (Target_SeededFile p seed mode owner).
Proof.
  intros Hok (f & actions & Hf & [_ Hfix]%fix_target_arm & Hrun); [|done].
  simpl in Hfix. unfold seen in Hfix. unfold path_fact in Hfix. simpl in Hfix.
  injection Hfix as <-. unfold fix_seeded in Hrun.
  destruct (files w !! p) as [e|] eqn:He.
  - assert (Hk : ∀ A (x y : A), match pf_kind (path_facts (Some e)) with
                 | Kind_Missing | Kind_Unreadable _ => x | _ => y end = y)
      by (intros; simpl; unfold kind_of; by destruct (fe_content e)).
    rewrite Hk in Hrun. eapply heals_any. by eapply own_again_remode.
  - simpl in Hrun. apply run_all_one in Hrun as [u Hap]. eapply heals_any.
    by eapply new_file_heals.
Qed.

(** ** Accounts *)

Lemma group_heals w name gid request w' :
  repaired w (Target_Group name gid) request w' → healthy w' (Target_Group name gid).
Proof.
  intros (f & actions & Hf & [_ Hfix]%fix_target_arm & Hrun); [|done].
  unfold seen in Hf. simpl in Hf, Hfix. injection Hf as Hf. injection Hfix as <-.
  assert (Hdone : ∃ g, groups w' !! name = Some g ∧ group_gid g = gid).
  { destruct (groups w !! name) as [g|] eqn:Hg.
    - destruct (decide (group_gid g = gid)); [done|]. injection Hf as <-. simpl in Hrun.
      apply run_all_one in Hrun as [u [[Hd ->]|(_ & -> & _)]%account_after]; [| |done].
      + simpl in Hd. rewrite Hg in Hd. simpl in Hd. by apply bool_decide_eq_true in Hd.
      + simpl. rewrite lookup_alter_eq, Hg. by eexists.
    - injection Hf as <-. simpl in Hrun.
      apply run_all_one in Hrun as [u [[Hd ->]|(_ & -> & _)]%account_after]; [| |done].
      + simpl in Hd. by rewrite Hg in Hd.
      + simpl. rewrite lookup_insert_eq. by eexists. }
  destruct Hdone as (g & Hg & <-). unfold healthy, seen. simpl. rewrite Hg. by rewrite decide_True.
Qed.

Lemma member_heals w group user request w' :
  repaired w (Target_GroupMember group user) request w' → healthy w' (Target_GroupMember group user).
Proof.
  intros (f & actions & Hf & [Hu Hfix]%fix_target_arm & Hrun); [|done].
  simpl in Hfix. injection Hfix as <-.
  apply run_all_one in Hrun as [u Hap].
  assert (Hdone : ∃ g, groups w' !! group = Some g ∧ user ∈ members g).
  { apply account_after in Hap as [[Hd ->]|(_ & -> & undo & Hundo)]; [| |done].
    - simpl in Hd. apply bool_decide_eq_true in Hd. unfold members_of in Hd. simpl in Hd.
      destruct (groups w !! group) as [g|]; [by exists g|by apply elem_of_nil in Hd].
    - simpl in Hundo |- *. destruct (groups w !! group) as [g|] eqn:Hg; [|done].
      rewrite lookup_alter_eq, Hg. eexists. split; [done|]. apply elem_of_with_member. by right. }
  destruct Hdone as (g & Hg & Hin). unfold healthy, seen. simpl. rewrite Hg.
  by rewrite bool_decide_true.
Qed.

Lemma user_heals w n uid gid request w' :
  repaired w (Target_User n uid gid) request w' → healthy w' (Target_User n uid gid).
Proof.
  intros (f & actions & Hf & [_ Hfix]%fix_target_arm & Hrun); [|done].
  unfold seen in Hf. simpl in Hf, Hfix. injection Hf as Hf. injection Hfix as <-.
  assert (Hdone : ∃ found, users w' !! build_user_name n = Some found ∧
    (uf_uid found, uf_gid found) = (uid, gid)).
  { destruct (users w !! build_user_name n) as [found|] eqn:Hfound.
    - destruct (decide _) as [|Hne]; [done|]. injection Hf as <-. simpl in Hrun.
      apply run_all_one in Hrun as [u [[Hd ->]|(_ & -> & _)]%account_after]; [| |done].
      + simpl in Hd. rewrite Hfound in Hd. simpl in Hd. by apply bool_decide_eq_true in Hd.
      + simpl. rewrite lookup_alter_eq, Hfound. by eexists.
    - injection Hf as <-. simpl in Hrun.
      apply run_all_one in Hrun as [u [[Hd ->]|(_ & -> & _)]%account_after]; [| |done].
      + simpl in Hd. by rewrite Hfound in Hd.
      + simpl. rewrite lookup_insert_eq. by eexists. }
  destruct Hdone as (found & Hfound & Heq). unfold healthy, seen. simpl. rewrite Hfound.
  by rewrite decide_True.
Qed.

End Heals.

(** ** Units, programs and profiles *)


Lemma run_framed l w w' : run_all l w = (Ok tt, w') → framed w w'.
Proof.
  intros Hr. apply (run_all_keeps (framed w) l w w'); [|done|done].
  intros a v u v' _ Hv Hap. etrans; [exact Hv|].
  replace v' with (apply a v).2 by by rewrite Hap. apply apply_framed.
Qed.

Section Spec.
Context `{ManifestJson} `{JsonValue V}.

#[local] Abbreviation healthyV := (healthy (V := V)).
#[local] Abbreviation repairedV := (repaired (V := V)).
#[local] Abbreviation classifyV := (classify (V := V)).

(** ** Units *)

#[local] Arguments path_fact : simpl never.
#[local] Arguments contents_fact : simpl never.

Lemma heals_unit w name src dest contents :
  heals w (of_string dest) (Content_File contents) SYSTEM_FILE Declared.ROOT →
  (∀ source, unit_source src (seen w (Target_SystemdUnit name src dest)) = Some (Some source) →
     source = contents) →
  healthyV w (Target_SystemdUnit name src dest).
Proof.
  intros (e & He & Hc & Hw%shape_None) Hsrc. unfold healthyV, HealthHeals.healthy. cbn [Health.classify].
  unfold classify_unit.
  assert (Hs : ∃ source, unit_source src (seen w (Target_SystemdUnit name src dest)) = Some source).
  { unfold seen. destruct src; simpl; by eexists. }
  destruct Hs as [source Hs]. rewrite Hs.
  assert (Hin : contents_fact (seen w (Target_SystemdUnit name src dest)) 0 = Some (Some contents)).
  { unfold seen, contents_fact. simpl. unfold contents_of. rewrite He. simpl. by rewrite Hc. }
  rewrite Hin. simpl. destruct source as [source|].
  - rewrite (Hsrc source) by done. rewrite String.eqb_refl. simpl.
    unfold seen, path_fact. simpl. by rewrite He, Hw.
  - unfold seen, path_fact. simpl. by rewrite He, Hw.
Qed.

(** Where a unit's source is, if it is a file. *)
Definition source_apart (src : UnitSource) (p : path) : Prop :=
  match src with
  | UnitSource_File at_ => ∀ r, of_string at_ ≠ p ++ r
  | UnitSource_Text _ => True
  end.

Lemma unit_source_seen w name src dest source :
  unit_source src (seen w (Target_SystemdUnit name src dest)) = Some source ↔
  source = match src with
           | UnitSource_File at_ => contents_of w (of_string at_)
           | UnitSource_Text text => Some text
           end.
Proof. destruct src; unfold seen, unit_source, contents_fact; simpl; split; congruence. Qed.

Lemma unit_heals w name src dest request w' :
  world_ok w → of_string dest = unit_path name → source_apart src (of_string dest) →
  repairedV w (Target_SystemdUnit name src dest) request w' →
  healthyV w' (Target_SystemdUnit name src dest).
Proof.
  intros Hok Hdest Hapart (f & actions & Hf & [Hu Hfix]%fix_target_arm & Hrun); [|done].
  cbn [fix_arm] in Hfix. unfold fix_unit in Hfix. set (facts := seen _ _) in *.
  destruct (facts !! 2%nat) as [fact|]; [|done]. cbn [mbind option_bind] in Hfix.
  destruct (masked fact); [done|].
  cbn [Health.classify] in Hf. unfold classify_unit in Hf.
  assert (Hpath : path_fact facts 1 = Some (path_facts (files w !! of_string dest)))
    by (unfold facts, seen; by destruct src).
  assert (Hcont : contents_fact facts 0 = Some (contents_of w (of_string dest)))
    by (unfold facts, seen; by destruct src).
  set (srcs := match src with
               | UnitSource_File at_ => contents_of w (of_string at_)
               | UnitSource_Text text => Some text end).
  assert (Hsource : unit_source src facts = Some srcs) by by apply unit_source_seen.
  rewrite Hcont, Hsource in Hf. rewrite Hpath, Hsource in Hfix. simpl in Hf.
  (* either its owner or mode is put right, or it is installed *)
  assert (Hcases : (∃ e c, files w !! of_string dest = Some e ∧ fe_content e = Content_File c ∧
      (∀ s, srcs = Some s → s = c) ∧
      actions = reshape (of_string dest) (path_facts (Some e)) SYSTEM_FILE Declared.ROOT) ∨
    ∃ wanted, srcs = Some wanted ∧
      actions = [Action_InstallUnit name wanted (expect_of (path_facts (files w !! of_string dest)));
                 Action_DaemonReload]).
  { destruct (contents_of w (of_string dest)) as [c|] eqn:Hc.
    - destruct (match srcs with Some s => negb (s =s c) | None => false end) eqn:Hdiff.
      + right. destruct srcs as [s|]; [|done]. simpl in Hf. injection Hf as <-. simpl in Hfix.
        injection Hfix as <-. eauto.
      + left. injection Hf as Hf.
        unfold contents_of in Hc. destruct (files w !! of_string dest) as [e|] eqn:He; [|done].
        simpl in Hc. destruct (fe_content e) as [|c'] eqn:Hce; [done|]. injection Hc as ->.
        exists e, c. split; [done|]. split; [done|]. split.
        * intros s ->. apply negb_false_iff in Hdiff. by apply String.eqb_eq.
        * destruct (shape_finding _ _ _ _ Hf) as [(x & y & ->)|(x & y & ->)]; by injection Hfix as <-.
    - right. destruct srcs as [s|] eqn:Hs; simpl in Hf; [|by injection Hf as <-].
      injection Hf as <-. exists s. split; [done|].
      destruct (files w !! of_string dest) as [e|] eqn:He; simpl in *.
      + destruct (kind_of e); injection Hfix as <-; done.
      + by injection Hfix as <-. }
  destruct Hcases as [(e & c & He & Hc & Hsame & ->)|(wanted & Hwanted & ->)].
  - destruct (reshape_after _ _ _ _ _ _ Hok He Hrun) as (Hheals & _ & Hcs).
    rewrite Hc in Hheals. apply (heals_unit _ _ _ _ c); [done|].
    intros s Hs%unit_source_seen. apply Hsame. unfold srcs. destruct src; [by rewrite <- Hcs|done].
  - apply run_all_cons in Hrun as (u & w1 & Hin & [u' Hre]%run_all_one).
    apply install_unit_after in Hin as [u1 Hput]. apply reload_after in Hre.
    rewrite <- Hdest in Hput.
    apply (heals_unit _ _ _ _ wanted).
    + apply put_after in Hput as [id Hid]. eexists. rewrite Hre. split; [exact Hid|]. split; [done|].
      apply wanted_new; [done|]. simpl. by vm_compute.
    + intros s Hs%unit_source_seen. unfold srcs in Hwanted.
      destruct src as [at_|text]; [|congruence]. simpl in Hapart.
      assert (contents_of w' (of_string at_) = contents_of w (of_string at_)) as Heq; [|congruence].
      unfold contents_of. rewrite Hre.
      rewrite (put_elsewhere _ _ _ _ _ _ _ _ (of_string at_) Hok Hput); [done| |done].
      unfold contents_of in Hwanted. destruct (files w !! of_string at_); [by eexists|done].
Qed.

Lemma active_heals w name request w' :
  repairedV w (Target_UnitActive name) request w' → healthyV w' (Target_UnitActive name).
Proof.
  intros (f & actions & Hf & [Hu Hfix]%fix_target_arm & Hrun); [|done].
  unfold seen in Hfix. simpl in Hfix.
  assert (actions = [Action_EnableUnit name; Action_StartUnit name]) as ->
    by (destruct (starts_with _ _) in Hfix; [done|by injection Hfix as <-]).
  apply run_all_cons in Hrun as (u & w1 & _ & [u' Hst]%run_all_one).
  apply start_unit_after in Hst as [c Hc].
  unfold healthyV, HealthHeals.healthy, seen. simpl. unfold unit_facts. by rewrite Hc.
Qed.

(** ** The runtime and the program *)

Lemma runtime_heals w name runtime request w' :
  repairedV w (Target_PathExists name DEFAULT_PROFILE_NIX_ENV (Some runtime)) request w' →
  healthyV w' (Target_PathExists name DEFAULT_PROFILE_NIX_ENV (Some runtime)).
Proof.
  intros (f & actions & Hf & Hfix & Hrun). cbn in Hfix. injection Hfix as <-.
  apply run_all_one in Hrun as [u [e He]%install_runtime_after].
  unfold healthyV, HealthHeals.healthy, seen. cbn [Health.classify queries fmap list_fmap observe].
  rewrite He. unfold path_fact. simpl. unfold kind_of. by destruct (fe_content e).
Qed.

(** A file with the program's contents is healthy. *)
Lemma heals_program w at_ source mode contents :
  heals w (of_string at_) (Content_File contents) mode Declared.ROOT →
  contents_of w (of_string source) = Some contents →
  healthyV w (Target_Program at_ source mode).
Proof.
  intros (e & He & Hc & Hw%shape_None) Hs. unfold healthyV, HealthHeals.healthy, seen.
  cbn [Health.classify queries fmap list_fmap observe]. rewrite He, Hs.
  assert (Hin : contents_of w (of_string at_) = Some contents)
    by (unfold contents_of; rewrite He; simpl; by rewrite Hc).
  rewrite Hin. unfold path_fact. simpl. unfold kind_of. rewrite Hc. simpl.
  rewrite bool_decide_true by done. simpl in Hw. unfold kind_of in Hw. rewrite Hc in Hw. by rewrite Hw.
Qed.

Lemma program_heals w at_ source mode request w' :
  world_ok w → mode_bits mode < 2 ^ 32 → (∀ r, of_string source ≠ of_string at_ ++ r) →
  repairedV w (Target_Program at_ source mode) request w' →
  healthyV w' (Target_Program at_ source mode).
Proof.
  intros Hok Hb Hapart (f & actions & Hf & [Hu Hfix]%fix_target_arm & Hrun); [|done].
  set (p := of_string at_) in *. set (from := of_string source) in *.
  assert (Hcases :
    (∃ e c, files w !! p = Some e ∧ fe_content e = Content_File c ∧ contents_of w from = Some c ∧
       actions = reshape p (path_facts (Some e)) mode Declared.ROOT) ∨
    ∃ c expect, contents_of w from = Some c ∧ actions = [Action_PutFile p c (mode_bits mode) None expect]).
  { unfold seen in Hf, Hfix. cbn [Health.classify fix_arm queries fmap list_fmap observe] in Hf, Hfix.
    fold p from in Hf, Hfix. unfold fix_program, path_fact in Hfix. unfold path_fact in Hf.
    simpl in Hf, Hfix. destruct (Health.absent _) as [missing|] eqn:Habs.
    - injection Hf as <-. right. destruct (files w !! p) as [e|] eqn:He; simpl in Habs.
      { unfold kind_of in Habs. by destruct (fe_content e). }
      injection Habs as <-. simpl in Hfix.
      rewrite bool_decide_false in Hfix by (intros [Hin _]; apply Hin; unfold contents_of; by rewrite He). destruct (contents_of w from) as [c|]; [|done]. injection Hfix as <-. eauto.
    - destruct (bool_decide _) eqn:Hsame.
      + apply bool_decide_eq_true in Hsame as [Hin Heq].
        unfold contents_of at 1 in Hin. destruct (files w !! p) as [e|] eqn:He; [|done].
        simpl in Hin. destruct (fe_content e) as [|c] eqn:Hc; [done|]. left. exists e, c.
        rewrite <- Heq. split; [done|]. split; [done|].
        split; [unfold contents_of; rewrite He; simpl; by rewrite Hc|].
        injection Hf as Hf. simpl in Hf.
        destruct (shape_finding _ _ _ _ Hf) as [(x & y & ->)|(x & y & ->)]; by injection Hfix as <-.
      + simpl in Hf. injection Hf as <-. right. simpl in Hfix.
        destruct (contents_of w from) as [c|]; [|done]. injection Hfix as <-. eauto. }
  destruct Hcases as [(e & c & He & Hc & Hfrom & ->)|(c & expect & Hfrom & ->)].
  - destruct (reshape_after _ _ _ _ _ _ Hok He Hrun) as (Hheals & _ & Hcs). rewrite Hc in Hheals.
    apply (heals_program _ _ _ _ c); [done|]. by rewrite Hcs.
  - apply run_all_one in Hrun as [u Hput]. rewrite apply_put in Hput.
    apply (heals_program _ _ _ _ c).
    + destruct (put_after _ _ _ _ _ _ _ _ Hput) as [id Hid]. eexists. split; [exact Hid|].
      split; [done|]. apply wanted_new; [done|]. simpl. by rewrite settled_bits.
    + fold from. unfold contents_of in Hfrom |- *.
      rewrite (put_elsewhere _ _ _ _ _ _ _ _ from Hok Hput); [done| |done].
      destruct (files w !! from); [by eexists|done].
Qed.

(** ** Journals and repositories *)

Lemma journals_heals w at_ request w' :
  world_ok w → repairedV w (Target_Journals at_) request w' → healthyV w' (Target_Journals at_).
Proof.
  intros Hok (f & actions & Hf & [_ Hfix]%fix_target_arm & Hrun); [|done].
  pose proof (run_framed _ _ _ Hrun) as Hfr.
  set (p := of_string at_).
  assert (Hcases : observe w (Query_Journals p) = Fact_Journals [] ∧
    ∃ e, files w !! p = Some e ∧ fe_content e = Content_Directory ∧
      actions = reshape p (path_facts (Some e)) (Mode_Exact JOURNAL_DIR_MODE) Declared.ROOT).
  { unfold seen in Hf, Hfix. cbn [Health.classify fix_arm queries fmap list_fmap] in Hf, Hfix.
    fold p in Hf, Hfix. unfold classify_journals in Hf. unfold fix_journals, path_fact in Hfix.
    simpl in Hf, Hfix. simpl (observe _ _). destruct (journals w ++ _) as [|a abandoned].
    - split; [done|]. injection Hf as Hf. destruct (files w !! p) as [e|] eqn:He; [|done].
      simpl in Hf. unfold kind_of in Hf. destruct (fe_content e) eqn:Hc; [|by injection Hf as <-].
      exists e. split; [done|]. split; [done|]. simpl in Hfix.
      destruct (shape_finding _ _ _ _ Hf) as [(x & y & ->)|(x & y & ->)]; by injection Hfix as <-.
    - injection Hf as <-. done. }
  destruct Hcases as (Hj & e & He & Hc & ->).
  destruct (reshape_after _ _ _ _ _ _ Hok He Hrun) as ((e' & He' & Hc' & Hw%shape_None) & _ & _).
  assert (Hj' : observe w' (Query_Journals p) = Fact_Journals []).
  { rewrite <- Hj. simpl. by rewrite (fr_journals _ _ Hfr), (fr_logs _ _ Hfr), (fr_held _ _ Hfr). }
  unfold healthyV, HealthHeals.healthy, seen. cbn [Health.classify queries fmap list_fmap]. fold p.
  rewrite Hj'. unfold classify_journals, path_fact. simpl. rewrite He'.
  assert (Hk : pf_kind (path_facts (Some e')) = Kind_Directory)
    by (simpl; unfold kind_of; by rewrite Hc', Hc).
  set (found := path_facts (Some e')) in *. clearbody found. by rewrite Hk, Hw.
Qed.

Lemma repository_heals w p user request w' :
  world_ok w → dir_at w p →
  repairedV w (Target_Repository p user) request w' → healthyV w' (Target_Repository p user).
Proof.
  intros Hok Hd (f & actions & Hf & [_ Hfix]%fix_target_arm & Hrun); [|done].
  unfold dir_at in Hd. destruct (files w !! p) as [e|] eqn:He; [|done]. simpl in Hd.
  injection Hd as Hc. unfold seen in Hf, Hfix.
  cbn [Health.classify fix_arm queries fmap list_fmap observe] in Hf, Hfix.
  unfold path_fact in Hf, Hfix. simpl in Hf, Hfix. rewrite He in Hf, Hfix. simpl in Hf, Hfix.
  unfold kind_of in Hf. rewrite Hc in Hf. simpl in Hf.
  destruct (find _ _) as [[q0 actual]|] in Hf; [|done]. injection Hf as <-. simpl in Hfix.
  injection Hfix as <-. apply run_all_one in Hrun as [u Hap].
  destruct (reclaim_after _ _ _ _ _ _ _ Hok Hap) as (e1 & id & He1 & He' & Hall).
  assert (e1 = e) as -> by congruence.
  unfold healthyV, HealthHeals.healthy, seen. cbn [Health.classify queries fmap list_fmap observe].
  rewrite He'. unfold path_fact. simpl. unfold kind_of. simpl. rewrite Hc. simpl.
  assert (find (λ found : path * Owner, found.2 ≠ (uid user, gid user))
    (omap (λ q, (λ e, (q, fe_owner e)) <$> files w' !! q) (subtree w' p)) = None) as ->; [|done].
  apply find_None. intros [q o] (x & [_ [r ->]]%elem_of_subtree & (e2 & He2 & [= -> ->])%fmap_Some)%list_elem_of_omap.
  simpl. intros Hne. apply Hne. by eapply Hall.
Qed.

End Spec.
