(* ===== verification/HealthRepair.v ===== *)
(** * Repair heals: leftovers, profiles, and every target

    The targets that are repaired by several actions of one kind, and what holds of every
    one: when what [fix] answers goes through, the target is healthy. *)
From S2P Require Import Prelude.
From S2P Require Import Chars.
From S2P Require Import Paths.
From S2P Require Import Effect.
From S2P Require Import Journal.
From S2P Require Import Precondition.
From S2P Require Import World.
From S2P Require Import Apply.
From S2P Require Import Observe.
From S2P Require Import WorldFiles.
From S2P Require Import WorldNames.
From S2P Require Import WorldFrame.
From S2P Require Import WorldUndo.
From S2P Require Import WorldAfter.
From S2P Require Import Undone.
From S2P Require Import Pins.
From S2P Require Import Packages.
From S2P Require Import Declared.
From S2P Require Import Health.
From S2P Require Import HealthHeals.

Local Open Scope N_scope.

(** ** Leftovers *)

(** A world after removals: fewer files, and nothing else that leftovers depend on. *)
Record shrunk (w w' : World) : Prop := {
  sh_tree : tree_ok w';
  sh_files : ∀ x e, files w' !! x = Some e → files w !! x = Some e;
  sh_pending : pending_of w' = pending_of w;
}.

Lemma removed_after w q s expect u w' :
  tree_ok w → apply (Action_RemoveCreatedTree (q ++ [Normal s]) expect) w = (Ok u, w') →
  shrunk w w' ∧ files w' !! (q ++ [Normal s]) = None.
Proof.
  intros Hok Hap. set (p := q ++ [Normal s]) in *.
  assert (Hdone : files w !! p = None ∧ w' = w ∨ w' = remove_tree p w).
  { rewrite apply_on_files, verdict_removed_tree in Hap by done. unfold removable in Hap.
    destruct (unreached (spot_of w p)) eqn:Hun; simpl in Hap.
    - injection Hap as _ <-. left. split; [|done]. destruct (files w !! p) as [e|] eqn:He; [|done].
      unfold p in Hun. rewrite spot_at in Hun; [|done|by apply (tk_parent _ Hok _ s); eexists].
      fold p in Hun. by rewrite He in Hun.
    - destruct (holding _ _ _); [|done]. right. by injection Hap as _ <-. }
  destruct Hdone as [[Hn ->]| ->]; [done|]. split.
  - split; [|intros x e|done].
    + apply (tree_ok_remove w _ p); [done|by destruct q| |]; unfold content_at.
      * intros r. by rewrite remove_tree_below.
      * intros x Hx. by rewrite remove_tree_elsewhere.
    + destruct (decide (p `prefix_of` x)) as [[r ->]|Hx]; [by rewrite remove_tree_below|].
      rewrite remove_tree_elsewhere; [done|]. intros r ->. apply Hx. by exists r.
  - pose proof (remove_tree_below w p []) as Hb. by rewrite app_nil_r in Hb.
Qed.

Lemma remove_leftovers_after l w w' :
  tree_ok w → (∀ x id, (x, id) ∈ l → ∃ q s, x = q ++ [Normal s]) →
  run_all (remove_leftovers l) w = (Ok tt, w') →
  shrunk w w' ∧ ∀ x id, (x, id) ∈ l → files w' !! x = None.
Proof.
  revert w. induction l as [|[x id] l IH]; intros w Hok Hl.
  { intros ->%run_all_nil. split; [done|]. by intros x id ?%elem_of_nil. }
  cbn [remove_leftovers fmap list_fmap]. intros (u & w1 & Hap & Hrun)%run_all_cons.
  destruct (Hl x id) as (q & s & ->); [by left|]. cbn [fst snd] in Hap.
  apply removed_after in Hap as [[Hok1 Hf1 Hp1] Hgone]; [|done].
  destruct (IH w1) as [[Hok2 Hf2 Hp2] Hall]; [done|intros y i Hy; apply (Hl y i); by right|done|].
  split; [split; [done|auto|congruence]|]. intros y i [[= -> ->]|Hy]%elem_of_cons; [|by eapply Hall].
  destruct (files w' !! _) as [e|] eqn:He; [|done]. apply Hf2 in He. congruence.
Qed.

Lemma elem_of_leftovers w dir x id :
  (x, id) ∈ Observe.leftovers w dir ↔
  ∃ s e, x = dir ++ [Normal s] ∧ is_leftover s = true ∧ (x ∉ pending_in w (acting_for w)) ∧
    files w !! x = Some e ∧ fe_id e = id.
Proof.
  unfold Observe.leftovers. rewrite list_elem_of_omap. split.
  - intros (y & Hy & Hs). destruct (file_name y) as [s|] eqn:Hn; [|done].
    destruct (decide _) as [(Hp & Hl & Hpend)|]; [|done].
    apply fmap_Some in Hs as (e & He & [= -> ->]). exists s, e. split_and!; try done.
    unfold file_name, parent in *. destruct (last y) as [[]|] eqn:Hlast; try done.
    injection Hn as ->. apply last_Some in Hlast as [l ->]. injection Hp as <-.
    rewrite length_app. simpl. rewrite take_app_le, take_ge by lia. done.
  - intros (s & e & -> & Hl & Hpend & He & <-). exists (dir ++ [Normal s]).
    split; [apply elem_of_keys; by eexists|]. rewrite file_name_snoc, parent_snoc.
    rewrite decide_True by done. by rewrite He.
Qed.

Section Repair.
Context `{ManifestJson} `{JsonValue V}.

#[local] Abbreviation healthyV := (healthy (V := V)).
#[local] Abbreviation repairedV := (repaired (V := V)).
#[local] Abbreviation classifyV := (classify (V := V)).

Lemma leftovers_heals w dir at_ request w' :
  world_ok w →
  (∀ x id, (x, id) ∈ Observe.leftovers w dir →
     named_by (from_utf8_lossy (default "" (file_name x))) request = false) →
  repairedV w (Target_Leftovers dir at_) request w' → healthyV w' (Target_Leftovers dir at_).
Proof.
  intros Hok Hnot (f & actions & Hf & [_ Hfix]%fix_target_arm & Hrun); [|done].
  pose proof (run_framed _ _ _ Hrun) as Hfr.
  unfold healthyV, HealthHeals.healthy. cbn [Health.classify fix_arm] in Hfix |- *.
  unfold Health.leftovers, seen in Hfix |- *. cbn [queries fmap list_fmap] in Hfix |- *.
  set (abandoned := match observe w (Query_Journals (of_string at_)) with
                    | Fact_Journals a => a | _ => [] end) in *.
  assert (Habs : match observe w' (Query_Journals (of_string at_)) with
                 | Fact_Journals a => a | _ => [] end = abandoned).
  { unfold abandoned. simpl. by rewrite (fr_journals _ _ Hfr), (fr_logs _ _ Hfr), (fr_held _ _ Hfr). }
  set (keep := λ entry : path * FileId,
    existsb (λ request, named_by (from_utf8_lossy (default "" (file_name entry.1)))
                          (ab_request request)) abandoned = false).
  cbn [lookup list_lookup mbind option_bind] in Hfix |- *.
  fold abandoned in Hfix. rewrite Habs.
  injection Hfix as <-. cbn [drop mbind list_bind] in Hrun |- *. simpl (observe _ _) in Hrun |- *.
  rewrite app_nil_r in Hrun |- *.
  apply remove_leftovers_after in Hrun as [[_ Hsub Hpend] Hgone]; [|apply Hok|].
  2:{ intros x id [_ Hx]%list_elem_of_filter. apply elem_of_leftovers in Hx as (s & e & -> & _). eauto. }
  match goal with |- context [filter ?P (Observe.leftovers w' dir)] =>
    assert (filter P (Observe.leftovers w' dir) = []) as -> end; [|done].
  apply elem_of_nil_inv. intros [x id] [[Hk _] Hx]%list_elem_of_filter.
  assert (Hin : (x, id) ∈ Observe.leftovers w dir).
  { apply elem_of_leftovers in Hx as (s & e & -> & Hl & Hp & He & <-). apply elem_of_leftovers.
    exists s, e. unfold pending_in in Hp. rewrite Hpend, (fr_acting _ _ Hfr) in Hp. eauto 10. }
  assert (Hnone : files w' !! x = None).
  { apply (Hgone x id), list_elem_of_filter. split; [|done]. split; [done|]. by eapply Hnot. }
  apply elem_of_leftovers in Hx as (s & e & -> & _ & _ & He & _). congruence.
Qed.

(** ** Profiles *)

Definition profile_fact (w : World) (user : InvokingUser) : ProfileFacts :=
  profile_facts (profiles w !! uid user).

Lemma dangling_seen w user x :
  x ∈ dangling (profile_fact w user) ↔ x ∈ pr_dangling (profile_of w (uid user)).
Proof.
  unfold profile_fact, profile_of. destruct (profiles w !! uid user); [|done]. simpl.
  unfold sort_numbers. by rewrite merge_sort_Permutation.
Qed.

Lemma generations_seen w user x :
  x ∈ generations (profile_fact w user) ↔ x ∈ pr_generations (profile_of w (uid user)).
Proof.
  unfold profile_fact, profile_of. destruct (profiles w !! uid user); [|done]. simpl.
  unfold sort_numbers. by rewrite merge_sort_Permutation.
Qed.

Lemma active_seen w user : active (profile_fact w user) = pr_active (profile_of w (uid user)).
Proof. unfold profile_fact, profile_of. by destruct (profiles w !! uid user). Qed.

Lemma delete_generations_after user l w w' :
  run_all (Action_DeleteGeneration user <$> l) w = (Ok tt, w') →
  let p := profile_of w (uid user) in
  let p' := profile_of w' (uid user) in
  pr_active p' = pr_active p ∧
  (∀ x, x ∈ pr_generations p' → x ∈ pr_generations p ∧ (x ∉ l)) ∧
  (∀ x, x ∈ pr_dangling p' → x ∈ pr_dangling p ∧ (x ∉ l)).
Proof.
  revert w. induction l as [|g l IH]; intros w.
  { intros ->%run_all_nil. simpl. split; [done|]. split; intros x Hx; (split; [done|apply not_elem_of_nil]). }
  rewrite fmap_cons. intros (u & w1 & (Ha & Hg & Hd)%delete_generation_after & Hrun)%run_all_cons.
  destruct (IH _ Hrun) as (Ha' & Hg' & Hd'). split; [congruence|].
  split; intros x Hx; [apply Hg' in Hx as [[Hx Hne]%Hg Hl]|apply Hd' in Hx as [[Hx Hne]%Hd Hl]];
    (split; [done|]); by apply not_elem_of_cons.
Qed.

Lemma none_dangling w source user :
  pr_dangling (profile_of w (uid user)) = [] → healthyV w (Target_Generations source user).
Proof.
  intros Hp. unfold healthyV, HealthHeals.healthy, seen. simpl. fold (profile_fact w user).
  assert (dangling (profile_fact w user) = []) as Hn.
  { apply elem_of_nil_inv. intros x. rewrite dangling_seen, Hp. apply not_elem_of_nil. }
  unfold dangling_generation. rewrite Hn. simpl. by destruct (active _).
Qed.

Lemma generations_heals w source user request w' :
  repairedV w (Target_Generations source user) request w' →
  healthyV w' (Target_Generations source user).
Proof.
  intros (f & actions & Hf & [_ Hfix]%fix_target_arm & Hrun); [|done].
  unfold seen in Hfix. simpl in Hfix. fold (profile_fact w user) in Hfix. injection Hfix as <-.
  apply none_dangling. unfold fix_generations in Hrun. apply run_all_two in Hrun as (w1 & H1 & H2).
  assert (Hd : pr_dangling (profile_of w1 (uid user)) = pr_dangling (profile_of w (uid user))).
  { destruct (active _) as [g|]; [destruct (decide _)|]; [|by apply run_all_nil in H1 as ->..].
    apply run_all_one in H1 as [u (_ & p & g' & Hp & _ & _ & Hd)%activate_after].
    unfold profile_of at 1. by rewrite Hp. }
  apply delete_generations_after in H2 as (_ & _ & Hall).
  apply elem_of_nil_inv. intros x [Hx Hnot]%Hall. apply Hnot, dangling_seen. by rewrite <- Hd.
Qed.

Lemma retention_heals w source user request w' :
  repairedV w (Target_Retention source user false) request w' →
  healthyV w' (Target_Retention source user false).
Proof.
  intros (f & actions & Hf & [_ Hfix]%fix_target_arm & Hrun); [|done].
  unfold seen in Hf, Hfix. simpl in Hf, Hfix. fold (profile_fact w user) in Hf. injection Hf as Hf.
  destruct (decide _) in Hf; [|done]. injection Hf as <-. injection Hfix as <-.
  cbn [fix_retention] in Hrun. rewrite app_nil_r in Hrun.
  apply delete_generations_after in Hrun as (Ha & Hg & _).
  unfold healthyV, HealthHeals.healthy, seen. simpl. fold (profile_fact w' user).
  assert (old_generations (profile_fact w' user) = []) as ->; [|by rewrite decide_False by naive_solver].
  apply elem_of_nil_inv. intros x [Hne Hx]%list_elem_of_filter.
  apply generations_seen, Hg in Hx as [Hx Hnot]. apply Hnot, list_elem_of_filter.
  split; [|by apply generations_seen]. by rewrite active_seen, <- Ha, <- active_seen.
Qed.

Lemma active_input_after w w' user p g file index input :
  files w' = files w → profiles w' !! uid user = Some p → pr_active p = Some g →
  built p !! g = Some (generation_config w user) →
  position (λ input : string * string, input.1 = file) GENERATION_INPUTS = Some index →
  GENERATION_INPUTS !! index = Some input → input.1 = file →
  active_input w' user file = contents_of w' (join_path (mix_state_dir (home user)) file).
Proof.
  intros Hf Hp Hg Hb Hpos Hin <-. unfold active_input. rewrite Hpos. simpl. rewrite Hp. simpl.
  rewrite Hg. simpl. rewrite Hb. simpl. unfold generation_config.
  rewrite list_lookup_fmap, Hin. simpl. unfold contents_of. by rewrite Hf.
Qed.

(** The pins of the lock file the user has. *)
Definition locked (w : World) (user : InvokingUser) : option (Pins LockedInput) :=
  lock ← contents_of w (join_path (mix_state_dir (home user)) FLAKE_LOCK) ;
  text ← from_utf8 lock;
  read (V := V) text.

Lemma activation_heals w source user a b pins request w' :
  locked w user = Some pins →
  repairedV w (Target_Activation source user a b pins) request w' →
  healthyV w' (Target_Activation source user a b pins).
Proof.
  intros Hlock (f & actions & Hf & [Hu Hfix]%fix_target_arm & Hrun); [|done].
  unfold seen in Hfix. cbn [fix_arm queries fmap list_fmap] in Hfix. unfold path_fact in Hfix.
  simpl in Hfix. injection Hfix as <-.
  apply run_all_one in Hrun as [u (Hfs & p & g & Hp & Hg & Hb & _)%activate_after].
  assert (Hlist : active_list w' user = contents_of w' (join_path (mix_state_dir (home user)) STATE_FILE))
    by (eapply active_input_after; by eauto).
  assert (Hpins : active_lock w' user = contents_of w' (join_path (mix_state_dir (home user)) FLAKE_LOCK))
    by (eapply active_input_after; by eauto).
  assert (Hc : ∀ x, contents_of w' x = contents_of w x) by (intros x; unfold contents_of; by rewrite Hfs).
  unfold healthyV, HealthHeals.healthy, seen in Hf |- *.
  cbn [Health.classify queries fmap list_fmap] in Hf |- *.
  unfold classify_activation, text_fact, contents_fact in Hf |- *.
  simpl in Hf |- *. rewrite Hlist, Hpins, !Hc.
  unfold locked in Hlock. destruct (contents_of w (join_path _ FLAKE_LOCK)) as [lock|]; [|done].
  simpl in Hlock |- *. destruct (from_utf8 lock) as [text|]; [|done]. simpl in Hlock |- *. rewrite Hlock.
  destruct (contents_of w _ ≫= from_utf8) as [listed|]; [|done]. simpl.
  assert (Hv : ∀ format, validate listed ≠ Err (Invalid_Newer format))
    by (intros format Hv; rewrite Hv in Hf; injection Hf as <-; by simpl in Hu).
  destruct (validate listed) as [v|e] eqn:Hval; simpl.
  - rewrite bool_decide_false by tauto. by rewrite decide_False by (intros [?|?]; done).
  - destruct e; try done. by destruct (Hv format).
Qed.

(** ** Every target *)

(** What repair relies on: sound modes and paths; a unit that is declared where units are;
    that a source is not below what is replaced; that a repository is there; that the leftovers are
    of other requests; and that the lock has the pins an activation is for.  The history of a
    repository is its files below git, which the modelled world does not keep. *)
Definition repairable (w : World) (t : Target) (request : string) : Prop :=
  match t with
  | Target_Parent at_ mode _ | Target_Directory at_ mode _ => rooted at_ ∧ mode_bits mode < 2 ^ 32
  | Target_SystemdUnit name src dest =>
      of_string dest = unit_path name ∧ source_apart src (of_string dest)
  | Target_PathExists _ at_ _ => at_ = DEFAULT_PROFILE_NIX_ENV
  | Target_Program at_ source mode =>
      mode_bits mode < 2 ^ 32 ∧ ∀ r, of_string source ≠ of_string at_ ++ r
  | Target_Repository at_ _ => dir_at w at_
  | Target_History _ _ => False
  | Target_Leftovers dir _ =>
      Forall (λ entry : path * FileId,
        named_by (from_utf8_lossy (default "" (file_name entry.1))) request = false)
        (Observe.leftovers w dir)
  | Target_Activation _ user _ _ pins => locked w user = Some pins
  | Target_Retention _ _ collect => collect = false
  | _ => True
  end.

(** What repair answers for a finding it cannot mend is not run. *)
Lemma not_repaired w t request w' :
  match t with
  | Target_Precondition _ | Target_Link _ | Target_PathExists _ _ None | Target_HomeFiles _ _ => True
  | _ => False
  end → ¬ repairedV w t request w'.
Proof.
  intros Ht (f & actions & _ & Hfix & _).
  unfold fix_target in Hfix. destruct t; try done; [..|destruct install; [done|]|];
    destruct (unfixable f) in Hfix; done.
Qed.


End Repair.

