(* ===== verification/HealthTypes.v ===== *)
(** * The facts of a target are the facts its inspection reads

    A query is answered by a fact of its own kind.  From answers of the right kinds, what
    the audit finds, what it shows and what repair does are all defined: no index is past
    the end and no fact is of another kind than expected, so none of the panics of
    [core/src/ops/health/mod.rs] is reached. *)
From S2P Require Import Prelude.
From S2P Require Import Chars.
From S2P Require Import Paths.
From S2P Require Import Effect.
From S2P Require Import World.
From S2P Require Import Observe.
From S2P Require Import Pins.
From S2P Require Import Packages.
From S2P Require Import Declared.
From S2P Require Import Health.

(** ** Kinds of answers *)

(** [fits query fact]: the fact is of the kind that answers the query. *)
Definition fits (query : Query) (fact : Fact) : bool :=
  match query, fact with
  | Query_Path _, Fact_Path _
  | Query_Contents _, Fact_Contents _
  | Query_Group _, Fact_Group _
  | Query_User _, Fact_User _
  | Query_Unit _, Fact_Unit _
  | Query_UnitLinks _, Fact_UnitLinks _
  | Query_Profile _, Fact_Profile _
  | Query_TreeOwner _, Fact_TreeOwner _
  | Query_Repository _, Fact_Repository _ _
  | Query_ActiveList _, Fact_Contents _
  | Query_ActiveLock _, Fact_Contents _
  | Query_Journals _, Fact_Journals _
  | Query_Leftovers _, Fact_Leftovers _
  | Query_Strangers _ _, Fact_Stranger _
  | Query_Clobbered _, Fact_Clobbered _
  | Query_Program _ _, Fact_Program _
  | Query_Linked _, Fact_Linked _
  | Query_Accounts, Fact_Accounts _ => true
  | _, _ => false
  end.

(** The facts answer the queries one for one. *)
Definition answers (queries : list Query) (facts : list Fact) : Prop :=
  Forall2 (λ query fact, fits query fact = true) queries facts.

#[export] Instance answers_dec queries facts : Decision (answers queries facts).
Proof. unfold answers. apply _. Defined.

Lemma observe_fits w query : fits query (observe w query) = true.
Proof. by destruct query. Qed.

Lemma observe_answers w queries : answers queries (observe w <$> queries).
Proof.
  induction queries as [|query queries IH]; constructor; [apply observe_fits|exact IH].
Qed.

(** Takes the answers to queries that are known apart. *)
Ltac take_answers :=
  repeat match goal with
  | H : Forall2 _ (_ :: _) _ |- _ =>
      apply Forall2_cons_inv_l in H as (? & ? & ? & ? & ->)
  | H : Forall2 _ [] _ |- _ => apply Forall2_nil_inv_l in H as ->
  end;
  repeat match goal with
  | H : fits (_ _) ?fact = true |- _ => destruct fact; simpl in H; try discriminate H; clear H
  | H : fits (_ _ _) ?fact = true |- _ => destruct fact; simpl in H; try discriminate H; clear H
  end.

Lemma bind_is_Some {A B} (x : option A) (f : A → option B) :
  is_Some x → (∀ a, is_Some (f a)) → is_Some (x ≫= f).
Proof. intros [a ->] Hf. apply Hf. Qed.

(** A choice of the goal is made, and what is reached computes. *)
Ltac all_defined :=
  repeat first
    [ progress simpl
    | by eexists
    | match goal with |- is_Some (match ?x with _ => _ end) => destruct x end
    | match goal with |- is_Some (if ?x then _ else _) => destruct x end
    | apply bind_is_Some; [auto|intros] ].

(** ** Texts that are compared *)

(** The ranges [similar] answers are ranges of what it was given. *)
Class SimilarOk `{Similar} := {
  diff_within : ∀ old new op, op ∈ capture_diff_slices old new →
    (op.1.2.1 ≤ op.1.2.2 ≤ length old)%nat ∧ (op.2.1 ≤ op.2.2 ≤ length new)%nat;
}.

Lemma slice_is_Some {A} (l : list A) r : (r.1 ≤ r.2 ≤ length l)%nat → is_Some (slice l r).
Proof. intros Hr. unfold slice. rewrite decide_True by lia. by eexists. Qed.

Lemma hunk_steps_is_Some expected found open hs ops :
  (∀ op, op ∈ ops → (op.1.2.1 ≤ op.1.2.2 ≤ length expected)%nat ∧
                    (op.2.1 ≤ op.2.2 ≤ length found)%nat) →
  is_Some (hunk_steps expected found open hs ops).
Proof.
  revert open hs. induction ops as [|[[tag old] new] ops IH]; intros open hs Hops; [by eexists|].
  destruct (Hops (tag, old, new)) as [Hold Hnew]; [by left|]. simpl in Hold, Hnew.
  assert (Hrest : ∀ open hs, is_Some (hunk_steps expected found open hs ops)).
  { intros o h. apply IH. intros op Hop. apply Hops. by right. }
  cbn [hunk_steps]. unfold hunk_step. destruct (decide _); [apply Hrest|].
  destruct (if open then hs else _) as [|h rest]; [apply Hrest|].
  destruct (slice_is_Some found new Hnew) as [there ->].
  destruct (slice_is_Some expected old Hold) as [wanted ->]. simpl. apply Hrest.
Qed.

Lemma hunks_is_Some `{SimilarOk} expected found : is_Some (hunks expected found).
Proof. apply hunk_steps_is_Some. intros op. apply diff_within. Qed.
#[local] Hint Resolve hunks_is_Some : core.

(** ** What is shown of a file's text *)

(** The line sets what is secret. *)
Definition secret_key (key : string) : Prop :=
  trim_start_matches (String.length key) "extra-" (trim key) ∈ SECRET_SETTINGS.

Definition sets_secret (line : string) : Prop :=
  ∃ key value, split_once "=" line = Some (key, value) ∧ secret_key key.

(** A line that sets nothing secret, or a secret's name without its value. *)
Definition harmless (line : string) : Prop :=
  ¬ sets_secret line ∨ ∃ key, secret_key key ∧ line = trim key +:+ " = <hidden>".

Lemma hidden_harmless line : harmless (hidden line).
Proof.
  unfold hidden, harmless. destruct (split_once "=" line) as [[key value]|] eqn:Hs.
  - case_bool_decide as Hk; [right; by exists key|]. left. intros (key' & value' & Hs' & Hsec).
    by assert (key' = key) as -> by congruence.
  - left. intros (key' & value' & Hs' & _). congruence.
Qed.

Definition hunk_harmless (h : Hunk) : Prop :=
  Forall harmless (hk_found h) ∧ Forall harmless (hk_expected h).

Lemma hidden_lines l : Forall harmless (hidden <$> l).
Proof. apply Forall_fmap, Forall_true. apply hidden_harmless. Qed.

Lemma hunk_steps_harmless expected found open hs ops all :
  Forall hunk_harmless hs → hunk_steps expected found open hs ops = Some all →
  Forall hunk_harmless all.
Proof.
  revert open hs. induction ops as [|[[tag old] new] ops IH]; intros open hs Hhs; cbn [hunk_steps].
  { intros [= <-]. by apply Forall_reverse. }
  unfold hunk_step. destruct (decide _); [by apply IH|].
  set (first := mkHunk _ [] []).
  assert (Hall : Forall hunk_harmless (if open then hs else first :: hs))
    by (destruct open; [done|]; by constructor).
  destruct (if open then hs else _) as [|h rest]; [by apply IH|].
  apply Forall_cons in Hall as [[Hf He] Hrest].
  destruct (slice found new) as [there|]; [|done]. destruct (slice expected old) as [wanted|]; [|done].
  apply IH. constructor; [|done]. split; simpl; apply Forall_app; by split; [|apply hidden_lines].
Qed.

Lemma hunks_harmless `{Similar} expected found hs :
  hunks expected found = Some hs → Forall hunk_harmless hs.
Proof. by apply hunk_steps_harmless. Qed.

(** ** What is found, shown and done is defined *)

Section Types.
Context `{ManifestJson} `{JsonValue V}.

Lemma classify_is_Some t facts :
  answers (queries t) facts → is_Some (classify (V := V) t facts).
Proof.
  unfold answers. intros Hf. destruct t; simpl in Hf;
    unfold tree_query in Hf; repeat case_match; simpl in Hf; take_answers;
    unfold classify, classify_file, classify_unit, classify_journals, classify_activation,
      Health.leftovers, unit_source, text_fact, path_fact, contents_fact; all_defined.
Qed.

Lemma fix_is_Some t finding facts request :
  answers (queries t) facts → is_Some (fix_target t finding facts request).
Proof.
  unfold answers. intros Hf. destruct t; simpl in Hf;
    unfold tree_query in Hf; repeat case_match; simpl in Hf; take_answers;
    unfold fix_target, fix_arm, fix_file, fix_unit, fix_program, fix_parent, fix_history,
      fix_journals, Health.leftovers, unit_source, path_fact, contents_fact; all_defined.
Qed.

Lemma drift_is_Some `{SimilarOk} t facts :
  answers (queries t) facts → is_Some (drift t facts).
Proof.
  unfold answers. intros Hf. destruct t; simpl in Hf; try by eexists.
  all: unfold tree_query in Hf; repeat case_match; simpl in Hf; take_answers;
    unfold drift, unit_source, contents_fact; all_defined.
Qed.

(** C24. Inspection is well typed: the modelled world answers a target's queries in kind, and from
    any answers in kind the finding, what is shown of a drift and the repair of any finding are
    all defined, so none of the audit's indexings and none of its expectations of a fact fails. *)
Theorem inspection_typed `{SimilarOk} t :
  (∀ w, answers (queries t) (observe w <$> queries t)) ∧
  ∀ facts, answers (queries t) facts →
    is_Some (classify (V := V) t facts) ∧ is_Some (drift t facts) ∧
    ∀ finding request, is_Some (fix_target t finding facts request).
Proof.
  split; [intros w; apply observe_answers|]. intros facts Hf.
  split; [by apply classify_is_Some|]. split; [by apply drift_is_Some|].
  intros finding request. by apply fix_is_Some.
Qed.

End Types.

(** C25. No secret is shown: every line of the drift that is reported of a target is a line that
    sets no secret, or the name of a secret setting with its value left out. *)
Theorem drift_hides `{Similar} t facts d :
  drift t facts = Some (Some d) → Forall hunk_harmless (dr_hunks d).
Proof.
  unfold drift. destruct t; try done.
  - destruct expected as [x|]; [|done]. destruct (contents_fact facts 1) as [[current|]|]; try done.
    simpl. destruct (current =s x); [done|].
    destruct (hunks _ _) as [hs|] eqn:Hhs; [|done]. intros [= <-]. by eapply hunks_harmless.
  - destruct (contents_fact facts 0) as [[installed|]|]; try done. simpl.
    destruct (unit_source src facts) as [[source|]|]; try done. simpl.
    destruct (installed =s source); [done|].
    destruct (hunks _ _) as [hs|] eqn:Hhs; [|done]. intros [= <-]. by eapply hunks_harmless.
Qed.

(** A difference that replaces everything. *)
Definition whole_diff : Similar :=
  {| capture_diff_slices old new := [(DiffTag_Replace, (0, length old), (0, length new))%nat] |}.

Lemma whole_diff_ok : SimilarOk (H := whole_diff).
Proof. split. intros old new op ->%list_elem_of_singleton. simpl. lia. Defined.

Lemma inspection_typed_witness :
  let t := Target_SystemdUnit "mix.service" (UnitSource_File "/src") "/etc/mix.service" in
  let manifests := Build_ManifestJson (λ _, "") (λ _, Err "not read") in
  let values := Build_JsonValue unit (λ _ _, None) (λ _, None) (λ _, None) (λ _, None) in
  is_Some (drift (H := whole_diff) t (observe default_world <$> queries t)).
Proof.
  intros t manifests values.
  apply (inspection_typed (V := unit) (H1 := whole_diff) (H2 := whole_diff_ok) t).
  apply (inspection_typed (V := unit) (H1 := whole_diff) (H2 := whole_diff_ok) t).
Defined.

(** A file whose token is set differently. *)
Lemma drift_hides_witness :
  let t := Target_File (of_string "/etc/nix/nix.conf") (Some "access-tokens = a") (Mode_Exact 384) None in
  let facts := [Fact_Path (path_facts None); Fact_Contents (Some "access-tokens = b")] in
  ∃ d, drift (H := whole_diff) t facts = Some (Some d) ∧ dr_hunks d ≠ [] ∧
    Forall hunk_harmless (dr_hunks d).
Proof.
  intros t facts. eexists. split; [vm_compute; reflexivity|]. split; [discriminate|].
  apply (drift_hides (H := whole_diff) t facts). vm_compute. reflexivity.
Defined.
