(* ===== verification/Inspection.v ===== *)
(** * The audit

    The checks of a tree are looked at in their order ([Audit] of
    [crates/core/src/ops/health/mod.rs]): a check that waits on one with a finding, or that
    an interrupted request will settle, is not looked at but blamed on the cause.

    [step] panics ([None]) where it indexes past its lists or reads a fact of another kind;
    [audit] threads what observing changes. *)
From S2P Require Import Prelude.
From S2P Require Import Effect.
From S2P Require Import Pins.
From S2P Require Import Packages.
From S2P Require Import Declared.
From S2P Require Import DeclTree.
From S2P Require Import Health.
From S2P Require Import HealthTypes.

Local Open Scope nat_scope.

Record HealthReport := mkHealthReport {
  hr_name : string; hr_category : Category; hr_finding : option Finding;
  hr_drift : option Drift; hr_blocked_by : option string }.

(** [HealthReport::healthy]. *)
Definition reported_healthy (r : HealthReport) : bool :=
  match hr_finding r with None => true | Some _ => false end.

Inductive Audited :=
  | Audited_Observe (queries : list Query)
  | Audited_Reported
  | Audited_Done.

Record Audit := mkAudit {
  au_checks : list Check; au_causes : list (option nat); au_reports : list HealthReport }.

Definition unreadable (failure : Failure) : Finding :=
  Finding_Unreadable
    (match failure with
     | Failure_Io _ kind | Failure_SpawnFailed _ kind => kind
     | _ => Other
     end).

Definition check_label (c : Check) : string := label (ck_target c).

Definition audit_new (checks : list Check) : Audit :=
  mkAudit checks (replicate (length checks) None) [].

Definition planned (a : Audit) : list string := check_label <$> au_checks a.

(** The report is of requests that were interrupted, which will settle the path. *)
Definition settles (label : string) (r : HealthReport) : Prop :=
  match hr_finding r with
  | Some (Finding_Interrupted _ pending) => label ∈ pending
  | _ => False
  end.
#[export] Instance settles_dec label r : Decision (settles label r).
Proof. unfold settles. repeat case_match; apply _. Defined.

Definition settling (a : Audit) (label : string) : option nat := position (settles label) (au_reports a).

(** [waits_on().find_map(|before| causes[before])]. *)
Fixpoint first_cause (causes : list (option nat)) (waits : list nat) : option (option nat) :=
  match waits with
  | [] => Some None
  | before :: waits =>
      cause ← causes !! before;
      match cause with Some cause => Some (Some cause) | None => first_cause causes waits end
  end.

Definition last_report (a : Audit) : option HealthReport := last (au_reports a).

Section Audit.
Context `{ManifestJson} `{JsonValue V} `{Similar}.

(** The check is reported: [causes[at] = Some(at)] where there is a finding. *)
Definition report (a : Audit) (causes : list (option nat)) (c : Check) (finding : option Finding)
    (drift : option Drift) (blocked_by : option string) : Audit :=
  let at_ := length (au_reports a) in
  mkAudit (au_checks a)
    (match finding with Some _ => <[at_ := Some at_]> causes | None => causes end)
    (au_reports a ++ [mkHealthReport (check_label c) (category (ck_target c)) finding drift
                        blocked_by]).

Definition step (facts : option (result Failure (list Fact))) (a : Audit) :
    option (Audited * Audit) :=
  let at_ := length (au_reports a) in
  match au_checks a !! at_ with
  | None => Some (Audited_Done, a)
  | Some c =>
      match facts with
      | Some (Ok facts) =>
          finding ← classify (V := V) (ck_target c) facts;
          shown ← drift (ck_target c) facts;
          Some (Audited_Reported, report a (au_causes a) c finding shown None)
      | Some (Err failure) =>
          Some (Audited_Reported, report a (au_causes a) c (Some (unreadable failure)) None None)
      | None =>
          waited ← first_cause (au_causes a) (waits_on c);
          match or_else waited (settling a (check_label c)) with
          | Some cause =>
              blamed ← au_checks a !! cause;
              Some (Audited_Reported,
                    report a (<[at_ := Some cause]> (au_causes a)) c None None
                      (Some (check_label blamed)))
          | None => Some (Audited_Observe (queries (ck_target c)), a)
          end
      end
  end.

Section Run.
Context {S : Type} (observe : list Query → S → result Failure (list Fact) * S).

Fixpoint audit_loop (fuel : nat) (a : Audit) (facts : option (result Failure (list Fact))) (s : S) :
    option (list HealthReport * S) :=
  match fuel with
  | O => None
  | Datatypes.S fuel =>
      '(audited, a) ← step facts a;
      match audited with
      | Audited_Observe queries =>
          let '(facts, s) := observe queries s in audit_loop fuel a (Some facts) s
      | Audited_Reported => audit_loop fuel a None s
      | Audited_Done => Some (au_reports a, s)
      end
  end.

(** [audit]: a check takes two turns at most, and the end one. *)
Definition audit (checks : list Check) (s : S) : option (list HealthReport * S) :=
  audit_loop (2 * length checks + 1) (audit_new checks) None s.

End Run.
End Audit.
