(* ===== verification/InspectionSpec.v ===== *)
(** * What an audit reports

    One report of each check, in their order: of what was found where it could be looked at,
    and of the cause to blame where not. *)
From S2P Require Import Prelude.
From S2P Require Import Paths.
From S2P Require Import Effect.
From S2P Require Import World.
From S2P Require Import Observe.
From S2P Require Import Pins.
From S2P Require Import Packages.
From S2P Require Import Declared.
From S2P Require Import DeclTree.
From S2P Require Import DeclTreeLink.
From S2P Require Import DeclTreeSpec.

From S2P Require Import Health.
From S2P Require Import HealthTypes.
From S2P Require Import Inspection.

Local Open Scope nat_scope.

(** No check waits on itself or a later one. *)
Definition ordered (checks : list Check) : Prop :=
  ∀ i c j, checks !! i = Some c → j ∈ waits_on c → j < i.

(** There is a finding, or it was not looked at for one. *)
Definition unsound (r : HealthReport) : Prop := is_Some (hr_finding r) ∨ is_Some (hr_blocked_by r).

(** The check waits on one that is unsound, or is for interrupted requests to settle. *)
Definition held_up (reports : list HealthReport) (i : nat) (c : Check) : Prop :=
  (∃ j r, j ∈ waits_on c ∧ reports !! j = Some r ∧ unsound r) ∨
  (∃ j r, j < i ∧ reports !! j = Some r ∧ settles (check_label c) r).

(** The checks of a declared tree are in order. *)
Lemma finish_in_order b checks : DeclTreeLink.Built b → finish b = Some checks → ordered checks.
Proof. intros Hb Hf i c j. by eapply finish_waits. Qed.

Section Spec.
Context `{ManifestJson} `{JsonValue V} `{SimilarOk}.
Context {S : Type} (observe : list Query → S → result Failure (list Fact) * S).
Context (checks : list Check).

#[local] Abbreviation stepV := (step (V := V)).
#[local] Abbreviation audit_loopV := (audit_loop (V := V) observe).

(** The report says what the answer to the check's queries was. *)
Definition looked (c : Check) (r : HealthReport) (answer : result Failure (list Fact)) : Prop :=
  match answer with
  | Ok facts =>
      classify (V := V) (ck_target c) facts = Some (hr_finding r) ∧
      drift (ck_target c) facts = Some (hr_drift r)
  | Err failure => hr_finding r = Some (unreadable failure) ∧ hr_drift r = None
  end.

(** The cause is an earlier check that was looked at and has a finding of its own. *)
Definition blamed (reports : list HealthReport) (i k : nat) : Prop :=
  k < i ∧ ∃ r, reports !! k = Some r ∧ is_Some (hr_finding r).

Record reported (reports : list HealthReport) (i : nat) (c : Check) (r : HealthReport) : Prop := {
  re_name : hr_name r = check_label c;
  re_category : hr_category r = category (ck_target c);
  re_held : is_Some (hr_blocked_by r) ↔ held_up reports i c;
  re_blocked l : hr_blocked_by r = Some l →
    hr_finding r = None ∧ hr_drift r = None ∧
    ∃ k b, blamed reports i k ∧ checks !! k = Some b ∧ l = check_label b;
  re_looked : hr_blocked_by r = None → ∃ s, looked c r (observe (queries (ck_target c)) s).1;
}.

(** One report of each check. *)
Definition reports_of (reports : list HealthReport) : Prop :=
  length reports = length checks ∧
  ∀ i c r, checks !! i = Some c → reports !! i = Some r → reported reports i c r.

(** ** The invariant *)

Record going (a : Audit) : Prop := {
  go_checks : au_checks a = checks;
  go_causes : length (au_causes a) = length checks;
  go_reports : length (au_reports a) ≤ length checks;
  go_reported i c r :
    checks !! i = Some c → au_reports a !! i = Some r → reported (au_reports a) i c r;
  go_cause i r : au_reports a !! i = Some r →
    ∃ cause, au_causes a !! i = Some cause ∧ (is_Some cause ↔ unsound r) ∧
      ∀ k, cause = Some k → blamed (au_reports a) (Datatypes.S i) k;
  go_later i : length (au_reports a) ≤ i < length checks → au_causes a !! i = Some None;
}.

Hypothesis Hordered : ordered checks.

Lemma held_up_app reports more i c :
  checks !! i = Some c → i ≤ length reports →
  held_up (reports ++ more) i c ↔ held_up reports i c.
Proof.
  intros Hc Hi. unfold held_up. split; intros [(j & r & Hj & Hr & Hu)|(j & r & Hj & Hr & Hs)].
  - left. exists j, r. rewrite lookup_app_l in Hr; [done|]. specialize (Hordered _ _ _ Hc Hj). lia.
  - right. exists j, r. rewrite lookup_app_l in Hr by lia. done.
  - left. exists j, r. split; [done|]. by rewrite lookup_app_l by by eapply lookup_lt_Some.
  - right. exists j, r. split; [done|]. by rewrite lookup_app_l by by eapply lookup_lt_Some.
Qed.

Lemma blamed_app reports more i k : blamed reports i k → blamed (reports ++ more) i k.
Proof.
  intros (Hk & r & Hr & Hf). split; [done|]. exists r. split; [|done].
  by apply lookup_app_l_Some.
Qed.

Lemma reported_app reports more i c r :
  checks !! i = Some c → i ≤ length reports → reported reports i c r →
  reported (reports ++ more) i c r.
Proof.
  intros Hc Hi [Hn Hcat Hheld Hb Hl]. split; try done.
  - by rewrite held_up_app.
  - intros l Hbl. destruct (Hb l Hbl) as (? & ? & k & b & ? & ? & ?).
    split; [done|]. split; [done|]. exists k, b. split; [by apply blamed_app|done].
Qed.

(** A report is pushed. *)
Lemma going_push a c r causes cause :
  going a → checks !! length (au_reports a) = Some c →
  reported (au_reports a) (length (au_reports a)) c r →
  length causes = length checks →
  (∀ i, i ≠ length (au_reports a) → causes !! i = au_causes a !! i) →
  causes !! length (au_reports a) = Some cause →
  (is_Some cause ↔ unsound r) →
  (∀ k, cause = Some k → blamed (au_reports a ++ [r]) (Datatypes.S (length (au_reports a))) k) →
  going (mkAudit (au_checks a) causes (au_reports a ++ [r])).
Proof.
  intros [Hch Hca Hlen Hrep Hcause Hlater] Hc Hr Hcl Hsame Hat Hun Hbl.
  pose proof (lookup_lt_Some _ _ _ Hc) as Hlt.
  split; simpl; [done|done| | | |].
  - rewrite length_app. simpl. lia.
  - intros i c' r' Hc' [Hr'|[Hi Hr']]%lookup_app_Some.
    + apply reported_app; [done| |by apply Hrep]. apply lookup_lt_Some in Hr'. lia.
    + apply list_lookup_singleton_Some in Hr' as [Hz <-].
      assert (i = length (au_reports a)) as -> by lia. assert (c' = c) as -> by congruence.
      by apply reported_app.
  - intros i r' [Hr'|[Hi Hr']]%lookup_app_Some.
    + pose proof (lookup_lt_Some _ _ _ Hr') as Hi.
      destruct (Hcause i r' Hr') as (x & Hx & Hxu & Hk). exists x.
      rewrite Hsame by lia. split; [done|]. split; [done|]. intros k Hkx. by apply blamed_app, Hk.
    + apply list_lookup_singleton_Some in Hr' as [Hz <-].
      assert (i = length (au_reports a)) as -> by lia. by exists cause.
  - intros i Hi. rewrite length_app in Hi. simpl in Hi. rewrite Hsame by lia. apply Hlater. lia.
Qed.

(** ** Causes *)

Lemma first_cause_spec a waits :
  going a → (∀ j, j ∈ waits → j < length (au_reports a)) →
  ∃ found, first_cause (au_causes a) waits = Some found ∧
    match found with
    | Some k => (∃ j r, j ∈ waits ∧ au_reports a !! j = Some r ∧ unsound r) ∧
        blamed (au_reports a) (length (au_reports a)) k
    | None => ∀ j r, j ∈ waits → au_reports a !! j = Some r → ¬ unsound r
    end.
Proof.
  intros Hg. induction waits as [|j waits IH]; intros Hw; simpl.
  { exists None. split; [done|]. by intros j r ?%elem_of_nil. }
  assert (Hj : j < length (au_reports a)) by (apply Hw; by left).
  destruct (lookup_lt_is_Some_2 _ _ Hj) as [r Hr].
  destruct (go_cause _ Hg _ _ Hr) as (cause & -> & Hu & Hk). simpl.
  destruct cause as [k|].
  - exists (Some k). split; [done|]. split.
    + exists j, r. split; [by left|]. split; [done|]. by apply Hu.
    + destruct (Hk k eq_refl) as [Hlt Hrest]. split; [lia|done].
  - destruct IH as ([k|] & -> & Hf); [intros i Hi; apply Hw; by right| |].
    + exists (Some k). split; [done|]. destruct Hf as [(i & r' & Hi & Hri & Hur) Hb]. split; [|done].
      exists i, r'. split; [by right|done].
    + exists None. split; [done|]. intros i r' [->|Hi]%elem_of_cons Hri; [|by eapply Hf].
      assert (r' = r) as -> by congruence. rewrite <- Hu. by intros [].
Qed.

Lemma settling_spec a label :
  match settling a label with
  | Some k => ∃ r, au_reports a !! k = Some r ∧ settles label r
  | None => ∀ j r, au_reports a !! j = Some r → ¬ settles label r
  end.
Proof.
  unfold settling. destruct (position _ _) as [k|] eqn:Hp; [by eapply position_Some|].
  intros j r Hr. eapply position_None; [exact Hp|]. by eapply list_elem_of_lookup_2.
Qed.

Lemma settles_finding label r : settles label r → is_Some (hr_finding r).
Proof. unfold settles. by destruct (hr_finding r). Qed.

(** What is to blame for a check that is not looked at. *)
Lemma cause_spec a c :
  going a → checks !! length (au_reports a) = Some c →
  ∃ waited, first_cause (au_causes a) (waits_on c) = Some waited ∧
    match or_else waited (settling a (check_label c)) with
    | Some k => held_up (au_reports a) (length (au_reports a)) c ∧
        blamed (au_reports a) (length (au_reports a)) k
    | None => ¬ held_up (au_reports a) (length (au_reports a)) c
    end.
Proof.
  intros Hg Hc. destruct (first_cause_spec a (waits_on c) Hg) as (waited & Hf & Hw).
  { intros j. by apply Hordered. }
  exists waited. split; [done|]. destruct waited as [k|]; simpl.
  - destruct Hw as [Hw Hb]. split; [by left|done].
  - pose proof (settling_spec a (check_label c)) as Hs. destruct (settling _ _) as [k|].
    + destruct Hs as (r & Hr & Hset). pose proof (lookup_lt_Some _ _ _ Hr) as Hk. split.
      * right. by exists k, r.
      * split; [done|]. exists r. split; [done|]. by eapply settles_finding.
    + intros [(j & r & Hj & Hr & Hu)|(j & r & _ & Hr & Hset)]; [by eapply Hw|by eapply Hs].
Qed.

(** ** A turn of the loop *)

Hypothesis Hanswers : ∀ queries s facts, (observe queries s).1 = Ok facts → answers queries facts.

Lemma blamed_at a r :
  is_Some (hr_finding r) →
  blamed (au_reports a ++ [r]) (Datatypes.S (length (au_reports a))) (length (au_reports a)).
Proof.
  intros Hf. split; [lia|]. exists r. split; [|done].
  by rewrite lookup_app_r, Nat.sub_diag by done.
Qed.

(** A check that is looked at: its report has what was answered. *)
Lemma step_looked a c s :
  going a → checks !! length (au_reports a) = Some c →
  ¬ held_up (au_reports a) (length (au_reports a)) c →
  ∃ a', stepV (Some (observe (queries (ck_target c)) s).1) a = Some (Audited_Reported, a') ∧
    going a' ∧ length (au_reports a') = Datatypes.S (length (au_reports a)).
Proof.
  intros Hg Hc Hfree.
  assert (Hlook : ∃ finding shown,
    stepV (Some (observe (queries (ck_target c)) s).1) a =
      Some (Audited_Reported, report a (au_causes a) c finding shown None) ∧
    looked c (mkHealthReport (check_label c) (category (ck_target c)) finding shown None)
      (observe (queries (ck_target c)) s).1).
  { unfold Inspection.step. rewrite (go_checks _ Hg), Hc. cbv zeta.
    destruct (observe (queries (ck_target c)) s).1 as [facts|failure] eqn:Ho.
    - apply Hanswers in Ho. destruct (classify_is_Some (V := V) _ _ Ho) as [finding Hf].
      destruct (drift_is_Some _ _ Ho) as [shown Hd]. rewrite Hf, Hd. by exists finding, shown.
    - by exists (Some (unreadable failure)), None. }
  destruct Hlook as (finding & shown & -> & Hl). eexists. split; [done|].
  pose proof (lookup_lt_Some _ _ _ Hc) as Hlt. split; [|simpl; rewrite length_app; simpl; lia].
  set (r := mkHealthReport _ _ finding shown None) in *.
  assert (Hr : reported (au_reports a) (length (au_reports a)) c r).
  { split; [done|done| |by intros l|by intros _; exists s]. split; [by intros []|by intros ?]. }
  unfold report. fold r. destruct finding as [f|].
  - apply (going_push _ _ _ _ (Some (length (au_reports a))) Hg Hc Hr).
    + by rewrite length_insert, (go_causes _ Hg).
    + intros i Hi. by rewrite list_lookup_insert_ne.
    + apply list_lookup_insert_eq. by rewrite (go_causes _ Hg).
    + split; [|by eexists]. intros _. left. by eexists.
    + intros k [= <-]. apply blamed_at. by eexists.
  - apply (going_push _ _ _ _ None Hg Hc Hr); [apply Hg|done|by apply Hg| |done].
    split; [by intros []|]. by intros [[]|[]].
Qed.

(** A check that is held up: its report names what is to blame. *)
Lemma step_held a c k waited :
  going a → checks !! length (au_reports a) = Some c →
  first_cause (au_causes a) (waits_on c) = Some waited →
  or_else waited (settling a (check_label c)) = Some k →
  held_up (au_reports a) (length (au_reports a)) c →
  blamed (au_reports a) (length (au_reports a)) k →
  ∃ a', stepV None a = Some (Audited_Reported, a') ∧ going a' ∧
    length (au_reports a') = Datatypes.S (length (au_reports a)).
Proof.
  intros Hg Hc Hw Hk Hheld Hb. pose proof (lookup_lt_Some _ _ _ Hc) as Hlt.
  destruct (lookup_lt_is_Some_2 checks k) as [b Hb']; [destruct Hb; lia|].
  unfold Inspection.step. rewrite (go_checks _ Hg), Hc. cbv zeta. rewrite Hw. simpl. rewrite Hk, Hb'. simpl.
  eexists. split; [done|]. split; [|simpl; rewrite length_app; simpl; lia].
  unfold report.
  eapply (going_push _ _ _ _ (Some k) Hg Hc).
  - split; [done..|split; [done|by eexists]| |done]. intros l [= <-]. simpl. eauto 10.
  - by rewrite length_insert, (go_causes _ Hg).
  - intros i Hi. by rewrite list_lookup_insert_ne.
  - apply list_lookup_insert_eq. by rewrite (go_causes _ Hg).
  - split; [|by eexists]. intros _. right. by eexists.
  - intros k' [= <-]. apply blamed_app. destruct Hb as [? ?]. split; [lia|done].
Qed.

Lemma audit_loop_returns rem a s fuel :
  going a → length checks - length (au_reports a) = rem → 2 * rem + 1 ≤ fuel →
  ∃ reports s', audit_loopV fuel a None s = Some (reports, s') ∧ reports_of reports.
Proof.
  revert a s fuel. induction rem as [|rem IH]; intros a s fuel Hg Hrem Hfuel.
  - destruct fuel as [|fuel]; [lia|]. exists (au_reports a), s. pose proof (go_reports _ Hg).
    split; [|split; [lia|by intros; eapply go_reported]].
    cbn [Inspection.audit_loop]. unfold Inspection.step. by rewrite (go_checks _ Hg), lookup_ge_None_2 by lia.
  - destruct (lookup_lt_is_Some_2 checks (length (au_reports a))) as [c Hc]; [lia|].
    destruct (cause_spec a c Hg Hc) as (waited & Hw & Hcause).
    destruct fuel as [|[|fuel]]; [lia..|]. cbn [Inspection.audit_loop].
    destruct (or_else waited _) as [k|] eqn:Hk.
    + destruct Hcause as [Hheld Hb].
      destruct (step_held a c k waited) as (a' & -> & Hg' & Hlen); [done..|].
      destruct (IH a' s (Datatypes.S fuel)) as (reports & s' & Hrun & Hof); [done|lia..|]. eauto.
    + assert (stepV None a = Some (Audited_Observe (queries (ck_target c)), a)) as ->.
      { unfold Inspection.step. rewrite (go_checks _ Hg), Hc. cbv zeta. rewrite Hw. simpl. by rewrite Hk. }
      simpl. destruct (observe (queries (ck_target c)) s) as [answer s1] eqn:Ho.
      destruct (step_looked a c s) as (a' & Hstep & Hg' & Hlen); [done..|].
      rewrite Ho in Hstep. simpl in Hstep. rewrite Hstep. simpl.
      destruct (IH a' s1 fuel) as (reports & s' & Hrun & Hof); [done|lia..|]. eauto.
Qed.

Lemma going_new : going (audit_new checks).
Proof.
  split; simpl; [done|apply length_replicate|lia|done|done|].
  intros i [_ Hi]. by apply lookup_replicate.
Qed.

(** C22. An audit reports each check once, in the order of the tree, whatever looking finds: a
    check that waits on one that is unsound, or whose artifact an interrupted request will
    settle, and only such a check, is not looked at and is blamed on an earlier check that has
    a finding of its own; every other report says what its target's queries were answered. *)
Theorem audit_reports s :
  ∃ reports s', audit (V := V) observe checks s = Some (reports, s') ∧ reports_of reports.
Proof. apply (audit_loop_returns (length checks)); [apply going_new|simpl; lia|lia]. Qed.

End Spec.

(** A file in a directory, in a world that has neither. *)
Definition sample_audit : list Check :=
  [check_alone (Target_Directory (of_string "/etc/nix") (Mode_Exact 493) None);
   mkCheck (Target_File (of_string "/etc/nix/nix.conf") (Some "x") (Mode_Exact 420) None)
     Phase_Down [0] (0, 0)].

Definition look (queries : list Query) (w : World) : result Failure (list Fact) * World :=
  (Ok (observe w <$> queries), w).

Lemma audit_reports_witness :
  let manifests := Build_ManifestJson (λ _, "") (λ _, Err "not read") in
  let values := Build_JsonValue unit (λ _ _, None) (λ _, None) (λ _, None) (λ _, None) in
  ∃ reports w, audit (V := unit) (H1 := whole_diff) look sample_audit default_world =
      Some (reports, w) ∧
    reports_of (V := unit) (H1 := whole_diff) look sample_audit reports.
Proof.
  intros manifests values.
  apply (audit_reports (V := unit) (H1 := whole_diff) (H2 := whole_diff_ok) look sample_audit).
  - intros i c j Hc Hj. destruct i as [|[|i]]; simplify_eq/=.
    + by apply elem_of_nil in Hj.
    + apply list_elem_of_singleton in Hj as ->. lia.
  - intros queries w facts [= <-]. apply observe_answers.
Defined.
