(* ===== verification/Nix.v ===== *)
(** * Nix expressions and how they are printed

    The expressions [mix] writes ([crates/nixgen/src/ast.rs]) and the writer that prints
    them ([crates/nixgen/src/print.rs]).

    A [Writer] is what a closure of the code appends to the text at a depth; [None] is a
    panic of its assertions.  A closure that calls the methods of an [AttrsWriter], a
    [ListWriter] or a [StrWriter] is the list of those calls.  A [BTreeSet] of identifiers
    and the entries of an [AttrSet] are lists in order.  Text is bytes: every byte the code
    looks for is ASCII, and no byte of a longer char is. *)
From S2P Require Import Prelude.
From S2P Require Import Pins.

Local Open Scope nat_scope.

Definition QUOTE : ascii := "034".
Definition RETURN : ascii := "013".
Definition NUL : ascii := "000".
Definition one (c : ascii) : string := String c "".

(** ** [ast.rs] *)

Definition contains_nul (s : string) : bool := string_any (λ c, Ascii.eqb c NUL) s.

Inductive NulByte := nul_byte.

Record Key := mkKey { key_text : string; bare : bool }.
#[export] Instance Key_eq_dec : EqDecision Key.
Proof. solve_decision. Defined.

(** [Key::new] and [NixStr::new]. *)
Definition key_new (s : string) : result NulByte Key :=
  if contains_nul s then Err nul_byte else Ok (mkKey s (is_identifier s)).

Definition nix_str_new (s : string) : result NulByte string :=
  if contains_nul s then Err nul_byte else Ok s.

(** [impl From<&Ident> for Key]. *)
Definition key_of_ident (ident : string) : Key := mkKey ident true.

(** [is_verbatim]: text that a string is printed with as it is. *)
Definition verbatim_byte (c : ascii) : bool :=
  negb (Ascii.eqb c QUOTE || Ascii.eqb c "\" || Ascii.eqb c RETURN || Ascii.eqb c "$" ||
        Ascii.eqb c NUL).
Definition is_verbatim (s : string) : bool := string_all verbatim_byte s.

(** [is_rel_path_bytes] and [RelPath::new]. *)
Definition rel_path_byte (c : ascii) : bool :=
  is_ascii_lowercase c || is_ascii_digit c || Ascii.eqb c "-" || Ascii.eqb c ".".
Definition is_rel_path (s : string) : bool :=
  match s with
  | "" => false
  | String first _ => negb (Ascii.eqb first ".") && string_all rel_path_byte s
  end.
Definition rel_path_new (s : string) : result string string :=
  if is_rel_path s then Ok s else Err s.

(** The derived order of keys. *)
Definition key_compare (a b : Key) : comparison :=
  match String.compare (key_text a) (key_text b) with
  | Eq => Bool.compare (bare a) (bare b)
  | c => c
  end.
Definition key_lt (a b : Key) : bool :=
  match key_compare a b with Lt => true | _ => false end.

Inductive StrPart (E : Type) := Part_Lit (text : string) | Part_Interp (inner : E).
Arguments Part_Lit {E}. Arguments Part_Interp {E}.

(** [AttrSet] is the list of its entries. *)
Inductive Expr :=
  | Expr_Str (parts : list (StrPart Expr))
  | Expr_Bool (value : bool)
  | Expr_List (items : list Expr)
  | Expr_Attrs (entries : list (Key * Expr))
  | Expr_Var (ident : string)
  | Expr_Select (base : Expr) (first : Key) (rest : list Key)
  | Expr_Apply (function argument : Expr)
  | Expr_Lambda (formals : list string) (ellipsis : bool) (body : Expr)
  | Expr_Path (at_ : string).

(** [AttrSet::insert]: the value that was there, and the entries with the new one. *)
Fixpoint attr_insert {E} (key : Key) (value : E) (entries : list (Key * E)) :
    option E * list (Key * E) :=
  match entries with
  | [] => (None, [(key, value)])
  | (k, v) :: rest =>
      match key_compare k key with
      | Eq => (Some v, (k, value) :: rest)
      | Lt => let '(old, rest) := attr_insert key value rest in (old, (k, v) :: rest)
      | Gt => (None, (key, value) :: (k, v) :: rest)
      end
  end.

(** [AttrSet::from_iter]: a stable sort, and of equal keys the last one's value. *)
Fixpoint sort_entry {E} (entry : Key * E) (entries : list (Key * E)) : list (Key * E) :=
  match entries with
  | [] => [entry]
  | e :: rest =>
      if key_lt e.1 entry.1 then e :: sort_entry entry rest else entry :: e :: rest
  end.
Definition sort_entries {E} (entries : list (Key * E)) : list (Key * E) :=
  foldr sort_entry [] entries.

Fixpoint dedup_entries {E} (kept : Key * E) (entries : list (Key * E)) : list (Key * E) :=
  match entries with
  | [] => [kept]
  | later :: rest =>
      if decide (later.1 = kept.1) then dedup_entries (kept.1, later.2) rest
      else kept :: dedup_entries later rest
  end.
Definition attrs_from {E} (entries : list (Key * E)) : list (Key * E) :=
  match sort_entries entries with
  | [] => []
  | e :: rest => dedup_entries e rest
  end.

(** [Expr::string]. *)
Definition expr_string (s : string) : result NulByte Expr :=
  (λ text, Expr_Str [Part_Lit text]) <$> nix_str_new s.

(** ** [print.rs] *)

Definition Writer : Type := nat → option string.

Definition push_str (s : string) : Writer := λ _, Some s.

(** One after the other. *)
Fixpoint in_turn (ws : list Writer) : Writer :=
  match ws with
  | [] => push_str ""
  | w :: ws => λ depth, x ← w depth; y ← in_turn ws depth; Some (x +:+ y)
  end.

Fixpoint indent (depth : nat) : string :=
  match depth with O => "" | S depth => "  " +:+ indent depth end.

Fixpoint write_escaped (text : string) : string :=
  match text with
  | "" => ""
  | String c rest =>
      (if Ascii.eqb c QUOTE then String "\" (one QUOTE)
       else if Ascii.eqb c "\" then "\\"
       else if Ascii.eqb c RETURN then "\r"
       else if Ascii.eqb c "$" && starts_with "{" rest then "\$"
       else one c) +:+ write_escaped rest
  end.

Definition write_key (key : Key) : string :=
  if bare key then key_text key
  else one QUOTE +:+ write_escaped (key_text key) +:+ one QUOTE.

(** [StrWriter]: the calls of [lit], [verbatim] and [interp]. *)
Inductive StrCall := Call_Lit (text : string) | Call_Verbatim (text : string) | Call_Interp (w : Writer).

(** What a dollar that waits for what follows is printed as. *)
Definition dollar_before (text : string) : string := if starts_with "{" text then "\$" else "$".

Fixpoint str_calls (pending_dollar : bool) (calls : list StrCall) : Writer :=
  match calls with
  | [] => push_str (if pending_dollar then "$" else "")
  | Call_Lit text :: calls =>
      if decide (text = "") then str_calls pending_dollar calls
      else
        in_turn
          [push_str (if pending_dollar then dollar_before text else "");
           match strip_suffix "$" text with
           | Some body => in_turn [push_str (write_escaped body); str_calls true calls]
           | None => in_turn [push_str (write_escaped text); str_calls false calls]
           end]
  | Call_Verbatim text :: calls =>
      if decide (text = "") then str_calls pending_dollar calls
      else
        in_turn
          [push_str (if pending_dollar then dollar_before text else "");
           push_str text; str_calls false calls]
  | Call_Interp w :: calls =>
      in_turn
        [push_str (if pending_dollar then "\$" else ""); push_str "${"; w; push_str "}";
         str_calls false calls]
  end.

Definition write_string (calls : list StrCall) : Writer :=
  in_turn [push_str (one QUOTE); str_calls false calls; push_str (one QUOTE)].

Definition write_text (text : string) : Writer := write_string [Call_Lit text].
Definition write_bool (value : bool) : Writer := push_str (if value then "true" else "false").
Definition write_path (at_ : string) : Writer := push_str ("./" +:+ at_).
Definition write_keys (keys : list Key) : Writer :=
  in_turn ((λ key, push_str ("." +:+ write_key key)) <$> keys).
Definition select_ident (var attr : string) : Writer := push_str (var +:+ "." +:+ attr).
Definition parenthesized (inner : Writer) : Writer := in_turn [push_str "("; inner; push_str ")"].
Definition write_apply (function argument : Writer) : Writer :=
  in_turn [function; push_str " "; argument].

(** The formals, each after a comma but the first: they must increase. *)
Fixpoint write_formals (previous : option string) (formals : list string) : Writer :=
  match formals with
  | [] => push_str ""
  | formal :: formals =>
      match previous with
      | Some previous =>
          if String.ltb previous formal
          then in_turn [push_str (", " +:+ formal); write_formals (Some formal) formals]
          else λ _, None
      | None => in_turn [push_str (" " +:+ formal); write_formals (Some formal) formals]
      end
  end.

Definition write_lambda (formals : list string) (ellipsis : bool) (body : Writer) : Writer :=
  let none := bool_decide (formals = []) in
  in_turn
    [push_str "{"; write_formals None formals;
     push_str (if ellipsis then if none then " ..." else ", ..." else "");
     push_str (if none && negb ellipsis then "}: " else " }: ");
     body].

(** [AttrsWriter::entry]: the keys must increase. *)
Fixpoint write_entries (last : option Key) (entries : list (Key * Writer)) : Writer :=
  match entries with
  | [] => push_str ""
  | (key, value) :: entries =>
      if match last with Some last => key_lt last key | None => true end then
        λ depth,
          in_turn
            [push_str (match last with Some _ => "" | None => "{" +:+ newline end);
             (λ _, in_turn [push_str (indent (S depth)); push_str (write_key key); push_str " = ";
                            value; push_str (";" +:+ newline)] (S depth));
             write_entries (Some key) entries] depth
      else λ _, None
  end.

Definition write_attrs (entries : list (Key * Writer)) : Writer :=
  match entries with
  | [] => push_str "{ }"
  | _ => λ depth, in_turn [write_entries None entries; push_str (indent depth); push_str "}"] depth
  end.

(** [ListWriter::item]. *)
Fixpoint write_items (opened : bool) (items : list Writer) : Writer :=
  match items with
  | [] => push_str ""
  | item :: items =>
      λ depth,
        in_turn
          [push_str (if opened then "" else "[" +:+ newline);
           (λ _, in_turn [push_str (indent (S depth)); item; push_str newline] (S depth));
           write_items true items] depth
  end.

Definition write_list (items : list Writer) : Writer :=
  match items with
  | [] => push_str "[ ]"
  | _ => λ depth, in_turn [write_items false items; push_str (indent depth); push_str "]"] depth
  end.

(** [is_operand]. *)
Definition is_operand (e : Expr) : bool :=
  match e with Expr_Apply _ _ | Expr_Lambda _ _ _ => false | _ => true end.

Definition is_lambda (e : Expr) : bool := match e with Expr_Lambda _ _ _ => true | _ => false end.
Definition is_path (e : Expr) : bool := match e with Expr_Path _ => true | _ => false end.

Definition or_paren (plain : bool) (w : Writer) : Writer := if plain then w else parenthesized w.

Fixpoint write_expr (e : Expr) : Writer :=
  let write_operand e := or_paren (is_operand e) (write_expr e) in
  match e with
  | Expr_Str parts =>
      write_string
        (map (λ part, match part with
                      | Part_Lit text => Call_Lit text
                      | Part_Interp inner => Call_Interp (write_expr inner)
                      end) parts)
  | Expr_Bool value => write_bool value
  | Expr_List items => write_list (map write_operand items)
  | Expr_Attrs entries => write_attrs (map (λ entry, (entry.1, write_expr entry.2)) entries)
  | Expr_Var ident => push_str ident
  | Expr_Select base first rest =>
      in_turn [if is_path base then parenthesized (write_expr base) else write_operand base;
               write_keys (first :: rest)]
  | Expr_Apply function argument =>
      write_apply (or_paren (negb (is_lambda function)) (write_expr function))
        (write_operand argument)
  | Expr_Lambda formals ellipsis body => write_lambda formals ellipsis (write_expr body)
  | Expr_Path at_ => write_path at_
  end.

Definition write_operand (e : Expr) : Writer := or_paren (is_operand e) (write_expr e).

(** [Expr::print]. *)
Definition print (e : Expr) : option string := write_expr e 0.

Example print_dollar_before_interpolation :
  print (Expr_Str [Part_Lit "a$"; Part_Interp (Expr_Path "state")]) =
    Some (one QUOTE +:+ "a\$${./state}" +:+ one QUOTE).
Proof. reflexivity. Qed.

Example print_list_in_attrs :
  print (Expr_Attrs [(mkKey "a" true, Expr_List [Expr_Apply (Expr_Var "f") (Expr_Bool true)])]) =
    Some ("{" +:+ newline +:+ "  a = [" +:+ newline +:+ "    (f true)" +:+ newline +:+ "  ];" +:+
          newline +:+ "}").
Proof. reflexivity. Qed.
