(* ===== verification/NixParse.v ===== *)
(** * Reading Nix expressions

    The parser of [crates/nixgen/src/parse.rs] and [normalize], which joins the pieces of
    text and the selections that print alike.

    A parser takes the input that is left.  An error names the input left where it was
    found, which [parse] turns into an offset.  The functions call each other; [None] is
    only a lack of fuel, one unit per call or turn of a loop. *)
From S2P Require Import Prelude.
From S2P Require Import Pins.
From S2P Require Import Nix.

Local Open Scope nat_scope.

(** ** Normal forms *)

(** [NixStr::new(joined)] never fails on text without a null byte. *)
Fixpoint push_part {E} (out : list (StrPart E)) (text : string) : list (StrPart E) :=
  match out with
  | [] => [Part_Lit text]
  | [Part_Lit previous] => [Part_Lit (previous +:+ text)]
  | part :: out => part :: push_part out text
  end.

Definition normalize_part {E} (normalize : E → E) (out : list (StrPart E)) (part : StrPart E) :
    list (StrPart E) :=
  match part with
  | Part_Lit text => if decide (text = "") then out else push_part out text
  | Part_Interp e => out ++ [Part_Interp (normalize e)]
  end.

Definition normalize_parts {E} (normalize : E → E) (parts : list (StrPart E)) : list (StrPart E) :=
  fold_left (normalize_part normalize) parts [].

(** A selection on a selection is one. *)
Definition select_more (base : Expr) (first : Key) (rest : list Key) : Expr :=
  match base with
  | Expr_Select inner inner_first inner_rest =>
      Expr_Select inner inner_first (inner_rest ++ first :: rest)
  | base => Expr_Select base first rest
  end.

Fixpoint normalize (e : Expr) : Expr :=
  match e with
  | Expr_Str parts => Expr_Str (normalize_parts normalize parts)
  | Expr_List items => Expr_List (map normalize items)
  | Expr_Attrs entries => Expr_Attrs (attrs_from (map (λ entry, (entry.1, normalize entry.2)) entries))
  | Expr_Select base first rest => select_more (normalize base) first rest
  | Expr_Apply function argument => Expr_Apply (normalize function) (normalize argument)
  | Expr_Lambda formals ellipsis body => Expr_Lambda formals ellipsis (normalize body)
  | other => other
  end.

(** ** Parsers *)

Record ParseFail := mkParseFail { left_over : string; message : string }.

Definition P (A : Type) : Type := string → option (result ParseFail (A * string)).

#[export] Instance P_ret : MRet P := λ A x s, Some (Ok (x, s)).
#[export] Instance P_bind : MBind P := λ A B f p s,
  r ← p s;
  match r with Err e => Some (Err e) | Ok (x, s) => f x s end.

Definition remaining : P string := λ s, Some (Ok (s, s)).
Definition goto (s : string) : P unit := λ _, Some (Ok (tt, s)).
Definition parse_error {A} (message : string) : P A := λ s, Some (Err (mkParseFail s message)).
Definition no_fuel {A} : P A := λ _, None.

(** [peek]. *)
Definition peek (s : string) : option ascii := String.get 0 s.

Definition is_space (c : ascii) : bool :=
  Ascii.eqb c " " || Ascii.eqb c "009" || Ascii.eqb c "010" || Ascii.eqb c RETURN.

Fixpoint skip_space (s : string) : string :=
  match s with String c rest => if is_space c then skip_space rest else s | "" => "" end.

(** [skip_trivia]; in a comment until the end of its line, which is a space. *)
Fixpoint trivia (comment : bool) (s : string) : string :=
  match s with
  | "" => ""
  | String c rest =>
      if comment then trivia (negb (Ascii.eqb c "010" || Ascii.eqb c RETURN)) rest
      else if is_space c then trivia false rest
      else if Ascii.eqb c "#" then trivia true rest
      else s
  end.

Definition skip_trivia : P unit := s ← remaining; goto (trivia false s).

Definition expect (token : string) : P unit :=
  _ ← skip_trivia; s ← remaining;
  match strip_prefix token s with Some rest => goto rest | None => parse_error "unexpected token" end.

(** [identifier_end]: the identifier a string starts with, and the rest. *)
Fixpoint split_while (f : ascii → bool) (s : string) : string * string :=
  match s with
  | String c rest =>
      if f c then let '(l, r) := split_while f rest in (String c l, r) else ("", s)
  | "" => ("", "")
  end.

Definition split_identifier (s : string) : string * string :=
  match s with
  | String c rest =>
      if is_ascii_alphabetic c || Ascii.eqb c "_"
      then let '(l, r) := split_while ident_byte rest in (String c l, r)
      else ("", s)
  | "" => ("", "")
  end.

Definition at_lambda (s : string) : bool :=
  match s with
  | String c s =>
      Ascii.eqb c "{" &&
      let p := skip_space s in
      match p with
      | String "}" after =>
          match skip_space after with String ":" _ => true | _ => false end
      | _ =>
          if starts_with "..." p then true
          else
            let '(name, after) := split_identifier p in
            negb (name =s "") &&
            match skip_space after with String (","%char | "}"%char) _ => true | _ => false end
      end
  | "" => false
  end.

Definition at_operand (s : string) : bool :=
  match s with
  | "" => false
  | String "." rest => match peek rest with Some "/"%char => true | _ => false end
  | String b _ =>
      Ascii.eqb b QUOTE || Ascii.eqb b "[" || Ascii.eqb b "{" || Ascii.eqb b "(" ||
      is_ascii_alphabetic b || Ascii.eqb b "_"
  end.

(** A key follows: a dot that starts neither an ellipsis nor a path. *)
Definition at_selection (s : string) : bool :=
  match s with
  | String "." rest => match peek rest with Some ("."%char | "/"%char) => false | _ => true end
  | _ => false
  end.

Definition identifier : P string :=
  _ ← skip_trivia; s ← remaining;
  let '(name, rest) := split_identifier s in
  if decide (name = "") then parse_error "expected an identifier" else _ ← goto rest; mret name.

(** [BTreeSet::insert]: whether it was new, and the set with it. *)
Fixpoint set_insert (name : string) (names : list string) : bool * list string :=
  match names with
  | [] => (true, [name])
  | x :: rest =>
      match String.compare x name with
      | Eq => (false, x :: rest)
      | Lt => let '(new, rest) := set_insert name rest in (new, x :: rest)
      | Gt => (true, name :: x :: rest)
      end
  end.

(** The loop of [lambda]: the formals and whether there is an ellipsis. *)
Fixpoint lambda_formals (n : nat) (formals : list string) : P (list string * bool) :=
  match n with
  | O => no_fuel
  | S n =>
      _ ← skip_trivia; s ← remaining;
      match s with
      | String "}" rest => _ ← goto rest; mret (formals, false)
      | _ =>
          match strip_prefix "..." s with
          | Some rest => _ ← goto rest; _ ← expect "}"; mret (formals, true)
          | None =>
              name ← identifier;
              if negb (is_identifier name) then parse_error "a keyword as a formal" else
              let '(new, formals) := set_insert name formals in
              if negb new then parse_error "duplicate formal function argument" else
              _ ← skip_trivia; s ← remaining;
              _ ← match s with String "," rest => goto rest | _ => mret tt end;
              lambda_formals n formals
          end
      end
  end.

Definition next_char : P ascii :=
  s ← remaining;
  match s with String c rest => _ ← goto rest; mret c | "" => parse_error "unterminated escape" end.

Definition unescape (c : ascii) : ascii :=
  if Ascii.eqb c "n" then "010" else if Ascii.eqb c "r" then RETURN
  else if Ascii.eqb c "t" then "009" else c.

(** [lit], where there is text. *)
Definition lit_part (text : string) (parts : list (StrPart Expr)) : P (list (StrPart Expr)) :=
  if decide (text = "") then mret parts
  else match nix_str_new text with
       | Ok text => mret (parts ++ [Part_Lit text])
       | Err _ => parse_error "a null byte in a string"
       end.

Definition path_byte (b : ascii) : bool :=
  is_ascii_alphanumeric b || Ascii.eqb b "." || Ascii.eqb b "_" || Ascii.eqb b "-" ||
  Ascii.eqb b "+".

Definition rel_path : P Expr :=
  s ← remaining;
  let '(at_, rest) := split_while path_byte s in
  _ ← goto rest;
  match rel_path_new at_ with
  | Ok at_ => mret (Expr_Path at_)
  | Err _ => parse_error "a path mix does not write"
  end.

Definition variable : P Expr :=
  name ← identifier;
  if name =s "true" then mret (Expr_Bool true)
  else if name =s "false" then mret (Expr_Bool false)
  else if is_identifier name then mret (Expr_Var name)
  else parse_error "a keyword where a variable was expected".

Definition selected (base : Expr) (keys : list Key) : Expr :=
  match keys with [] => base | first :: rest => Expr_Select base first rest end.

(** A key that was quoted: [normalize_parts] of its string. *)
Definition quoted_key (parts : list (StrPart Expr)) : P Key :=
  match normalize_parts normalize parts with
  | [] => mret (mkKey "" false)
  | [Part_Lit text] =>
      match key_new text with Ok key => mret key | Err _ => parse_error "a null byte in a key" end
  | _ => parse_error "an interpolated key"
  end.

Definition bare_key : P Key :=
  name ← identifier;
  if negb (is_identifier name) then parse_error "a keyword as a key"
  else match key_new name with Ok key => mret key | Err _ => parse_error "a null byte in a key" end.

(** ** The parser *)

Fixpoint expr (n : nat) : P Expr :=
  match n with
  | O => no_fuel
  | S n => _ ← skip_trivia; s ← remaining; if at_lambda s then lambda n else application n
  end

with lambda (n : nat) : P Expr :=
  match n with
  | O => no_fuel
  | S n =>
      _ ← expect "{";
      '(formals, ellipsis) ← lambda_formals n [];
      _ ← expect ":";
      body ← expr n;
      mret (Expr_Lambda formals ellipsis body)
  end

with application (n : nat) : P Expr :=
  match n with
  | O => no_fuel
  | S n => function ← selection n; arguments n function
  end

(** The loop of [application]. *)
with arguments (n : nat) (function : Expr) : P Expr :=
  match n with
  | O => no_fuel
  | S n =>
      _ ← skip_trivia; s ← remaining;
      if negb (at_operand s) then mret function
      else argument ← selection n; arguments n (Expr_Apply function argument)
  end

with selection (n : nat) : P Expr :=
  match n with
  | O => no_fuel
  | S n => base ← simple n; selectors n base []
  end

(** The loop of [selection]. *)
with selectors (n : nat) (base : Expr) (keys : list Key) : P Expr :=
  match n with
  | O => no_fuel
  | S n =>
      _ ← skip_trivia; s ← remaining;
      if at_selection s then
        _ ← goto (skip 1 s); k ← key n; selectors n base (keys ++ [k])
      else mret (selected base keys)
  end

with simple (n : nat) : P Expr :=
  match n with
  | O => no_fuel
  | S n =>
      _ ← skip_trivia; s ← remaining;
      match s with
      | String c rest =>
          if Ascii.eqb c QUOTE then parts ← quoted n; mret (Expr_Str parts)
          else if Ascii.eqb c "[" then _ ← goto rest; items n []
          else if Ascii.eqb c "{" then _ ← goto rest; entries n []
          else if Ascii.eqb c "(" then _ ← goto rest; e ← expr n; _ ← expect ")"; mret e
          else if starts_with "./" s then _ ← goto (skip 2 s); rel_path
          else variable
      | "" => variable
      end
  end

(** The loop of a list. *)
with items (n : nat) (found : list Expr) : P Expr :=
  match n with
  | O => no_fuel
  | S n =>
      _ ← skip_trivia; s ← remaining;
      match s with
      | String "]" rest => _ ← goto rest; mret (Expr_List found)
      | _ => item ← selection n; items n (found ++ [item])
      end
  end

(** The loop of an attribute set. *)
with entries (n : nat) (found : list (Key * Expr)) : P Expr :=
  match n with
  | O => no_fuel
  | S n =>
      _ ← skip_trivia; s ← remaining;
      match s with
      | String "}" rest => _ ← goto rest; mret (Expr_Attrs found)
      | _ =>
          k ← key n; _ ← expect "="; value ← expr n; _ ← expect ";";
          match attr_insert k value found with
          | (Some _, _) => parse_error "attribute already defined"
          | (None, found) => entries n found
          end
      end
  end

with key (n : nat) : P Key :=
  match n with
  | O => no_fuel
  | S n =>
      _ ← skip_trivia; s ← remaining;
      match s with
      | String c _ => if Ascii.eqb c QUOTE then parts ← quoted n; quoted_key parts else bare_key
      | "" => bare_key
      end
  end

(** [string]. *)
with quoted (n : nat) : P (list (StrPart Expr)) :=
  match n with
  | O => no_fuel
  | S n => _ ← expect (one QUOTE); characters n "" []
  end

(** The loop of [string]. *)
with characters (n : nat) (text : string) (parts : list (StrPart Expr)) : P (list (StrPart Expr)) :=
  match n with
  | O => no_fuel
  | S n =>
      s ← remaining;
      match s with
      | "" => parse_error "unterminated string"
      | String c rest =>
          if Ascii.eqb c QUOTE then _ ← goto rest; lit_part text parts
          else if Ascii.eqb c "\" then
            _ ← goto rest; escaped ← next_char; characters n (text +:+ one (unescape escaped)) parts
          else if Ascii.eqb c "$" then
            match peek rest with
            | Some "{"%char =>
                _ ← goto (skip 1 rest);
                parts ← lit_part text parts; e ← expr n; _ ← expect "}";
                characters n "" (parts ++ [Part_Interp e])
            | Some "$"%char => _ ← goto (skip 1 rest); characters n (text +:+ "$$") parts
            | Some "\"%char =>
                _ ← goto (skip 1 rest); escaped ← next_char;
                characters n (text +:+ "$" +:+ one (unescape escaped)) parts
            | _ => _ ← goto rest; characters n (text +:+ "$") parts
            end
          else if Ascii.eqb c RETURN then
            _ ← goto (match rest with String "010" rest => rest | _ => rest end);
            characters n (text +:+ newline) parts
          else _ ← goto rest; characters n (text +:+ one c) parts
      end
  end.

Record ParseError := mkParseError { offset : nat; reason : string }.

Definition all_input (e : Expr) : P Expr :=
  _ ← skip_trivia; s ← remaining; if decide (s = "") then mret e else parse_error "trailing input".

(** [parse]: with fuel for every call an input of its length can need. *)
Definition parse_with (n : nat) (source : string) : option (result ParseError Expr) :=
  r ← (e ← expr n; all_input e) source;
  Some (match r with
        | Ok (e, _) => Ok e
        | Err (mkParseFail at_rest message) =>
            Err (mkParseError (String.length source - String.length at_rest) message)
        end).

Definition parse_fuel (source : string) : nat := 8 * String.length source + 8.
Definition parse (source : string) : option (result ParseError Expr) :=
  parse_with (parse_fuel source) source.

Example parse_sample :
  parse "{ pkgs, ... }: { a = [ pkgs.git ]; }" =
    Some (Ok (Expr_Lambda ["pkgs"] true
      (Expr_Attrs [(mkKey "a" true, Expr_List [Expr_Select (Expr_Var "pkgs") (mkKey "git" true) []])]))).
Proof. vm_compute. reflexivity. Qed.

Example parse_twice : parse "{ a = true; a = false; }" =
  Some (Err (mkParseError 22 "attribute already defined")).
Proof. vm_compute. reflexivity. Qed.
