(* ===== verification/NixReads.v ===== *)
(** * The parser returns

    Every function of the parser answers on every input, given fuel for each call it can
    make: a call that takes no input is made by another of a higher rank, and every turn of
    a loop takes input. *)
From S2P Require Import Prelude.
From S2P Require Import Pins.
From S2P Require Import Nix.
From S2P Require Import NixParse.

Local Open Scope nat_scope.

#[local] Abbreviation len := String.length.

(** [p] answers on [s], and takes [k] bytes at least when it succeeds. *)
Definition takes {A} (p : P A) (k : nat) (s : string) : Prop :=
  ∃ r, p s = Some r ∧ match r with Ok (_, rest) => len rest + k ≤ len s | Err _ => True end.

Lemma takes_ret {A} (x : A) s : takes (mret x) 0 s.
Proof. exists (Ok (x, s)). split; [done|lia]. Qed.

Lemma takes_error {A} message k s : takes (parse_error (A := A) message) k s.
Proof. by eexists. Qed.

Lemma takes_weaken {A} (p : P A) j k s : takes p j s → k ≤ j → takes p k s.
Proof.
  intros ([[x rest]|e] & Hp & Hr) Hk; [exists (Ok (x, rest))|exists (Err e)]; split; [done|lia|done..].
Qed.

Lemma takes_bind {A B} (p : P A) (f : A → P B) j k s :
  takes p j s → (∀ x rest, len rest + j ≤ len s → takes (f x) (k - j) rest) → takes (p ≫= f) k s.
Proof.
  intros ([[x rest]|e] & Hp & Hr) Hf; unfold takes, mbind, P_bind; rewrite Hp; simpl; [|by eexists].
  destruct (Hf x rest Hr) as ([[y rest']|e] & Hy & Hr'); [|by eexists].
  eexists. split; [exact Hy|]. simpl in *. lia.
Qed.

Lemma takes_remaining {B} (f : string → P B) k s : takes (f s) k s → takes (remaining ≫= f) k s.
Proof. by intros Hf. Qed.

(** What is left may be shorter already. *)
Lemma takes_goto {B} (f : unit → P B) k s rest :
  len rest ≤ len s → takes (f tt) (k - (len s - len rest)) rest → takes (goto rest ≫= f) k s.
Proof.
  intros Hlen (r & Hy & Hr). exists r. split; [exact Hy|]. destruct r as [[y rest']|e]; [lia|done].
Qed.

Lemma takes_goes k s rest : len rest + k ≤ len s → takes (goto rest) k s.
Proof. intros. by exists (Ok (tt, rest)). Qed.

(** ** What is skipped *)

Lemma trivia_shorter c s : len (trivia c s) ≤ len s.
Proof.
  revert c. induction s as [|a s IH]; intros c; simpl; [lia|].
  destruct c; [specialize (IH (negb (Ascii.eqb a "010" || Ascii.eqb a RETURN))); lia|].
  destruct (is_space a); [specialize (IH false); lia|].
  destruct (Ascii.eqb a "#"); [specialize (IH true); lia|simpl; lia].
Qed.

Lemma takes_trivia {B} (f : unit → P B) k s :
  (∀ t, len t ≤ len s → takes (f tt) k t) → takes (skip_trivia ≫= f) k s.
Proof.
  intros Hf. pose proof (trivia_shorter false s) as Ht.
  destruct (Hf _ Ht) as (r & Hy & Hr). exists r. split; [exact Hy|].
  destruct r as [[y rest]|e]; [lia|done].
Qed.

Lemma split_while_spec f s : let '(l, r) := split_while f s in s = l +:+ r.
Proof.
  induction s as [|a s IH]; simpl; [done|]. destruct (f a); [|done].
  destruct (split_while f s) as [l r]. by rewrite app_cons_string, <- IH.
Qed.

Lemma split_identifier_spec s : let '(l, r) := split_identifier s in s = l +:+ r.
Proof.
  destruct s as [|a s]; simpl; [done|]. destruct (_ || _); [|done].
  pose proof (split_while_spec ident_byte s) as Hs. destruct (split_while _ s) as [l r].
  by rewrite app_cons_string, <- Hs.
Qed.

Lemma skip_shorter n s : len (skip n s) = len s - n.
Proof. revert s. induction n as [|n IH]; intros s; destruct s; simpl; auto. Qed.

Lemma starts_with_longer pre s : starts_with pre s = true → len pre ≤ len s.
Proof.
  unfold starts_with. revert s. induction pre as [|a pre IH]; intros [|b s]; simpl; try (by intros; lia || done).
  destruct (Ascii.ascii_dec a b); [|done]. intros H%IH. lia.
Qed.

Lemma strip_prefix_longer pre s rest : strip_prefix pre s = Some rest → len rest + len pre = len s.
Proof.
  unfold strip_prefix. destruct (starts_with pre s) eqn:Hs; [|done]. intros [= <-].
  apply starts_with_longer in Hs. rewrite skip_shorter. lia.
Qed.

Lemma takes_expect token s : takes (expect token) (len token) s.
Proof.
  unfold expect. apply takes_trivia. intros t _. apply takes_remaining.
  destruct (strip_prefix token t) as [rest|] eqn:Hp; [|apply takes_error].
  apply strip_prefix_longer in Hp. apply takes_goes. lia.
Qed.

Lemma takes_identifier s : takes identifier 1 s.
Proof.
  unfold identifier. apply takes_trivia. intros t _. apply takes_remaining.
  pose proof (split_identifier_spec t) as Hs.
  destruct (split_identifier t) as [name rest]. case_decide as Hn; [apply takes_error|].
  apply (f_equal len) in Hs. rewrite length_app_string in Hs. destruct name; [done|]. simpl in Hs.
  apply takes_goto; [lia|]. replace (1 - _) with 0 by lia. apply takes_ret.
Qed.

Lemma takes_variable s : takes variable 1 s.
Proof.
  apply (takes_bind _ _ 1); [apply takes_identifier|]. intros name rest _.
  repeat case_match; first [apply takes_ret|apply takes_error].
Qed.

Lemma takes_bare_key s : takes bare_key 1 s.
Proof.
  apply (takes_bind _ _ 1); [apply takes_identifier|]. intros name rest _.
  repeat case_match; first [apply takes_ret|apply takes_error].
Qed.

Lemma takes_quoted_key parts s : takes (quoted_key parts) 0 s.
Proof. unfold quoted_key. repeat case_match; first [apply takes_ret|apply takes_error]. Qed.

Lemma takes_lit_part text parts s : takes (lit_part text parts) 0 s.
Proof. unfold lit_part. repeat case_match; first [apply takes_ret|apply takes_error]. Qed.

Lemma takes_rel_path s : takes rel_path 0 s.
Proof.
  unfold rel_path. apply takes_remaining. pose proof (split_while_spec path_byte s) as Hs.
  destruct (split_while path_byte s) as [at_ rest]. apply (f_equal len) in Hs.
  rewrite length_app_string in Hs. apply takes_goto; [lia|].
  case_match; first [apply takes_ret|apply takes_error].
Qed.

Lemma takes_next_char s : takes next_char 1 s.
Proof.
  unfold next_char. apply takes_remaining. destruct s as [|c s]; [apply takes_error|].
  apply takes_goto; [simpl; lia|]. replace (1 - _) with 0 by (simpl; lia). apply takes_ret.
Qed.

Lemma takes_comma s : takes (match s with String "," rest => goto rest | _ => mret tt end) 0 s.
Proof.
  assert (H : takes (mret tt) 0 s) by apply takes_ret.
  destruct s as [|a s]; [done|]. repeat (case_match; try done). apply takes_goes. simpl. lia.
Qed.

Lemma takes_lambda_formals n formals s : len s < n → takes (lambda_formals n formals) 0 s.
Proof.
  revert formals s. induction n as [|n IH]; intros formals s Hn; [lia|]. cbn [lambda_formals].
  apply takes_trivia. intros t Ht. apply takes_remaining.
  match goal with |- takes (match _ with "" => ?p | _ => _ end) _ _ => assert (Hrest : takes p 0 t) end.
  { destruct (strip_prefix "..." t) as [rest|] eqn:Hp.
    - apply strip_prefix_longer in Hp. apply takes_goto; [simpl in Hp; lia|].
      apply (takes_bind _ _ 1); [apply takes_expect|]. intros [] r Hr. apply takes_ret.
    - apply (takes_bind _ _ 1); [apply takes_identifier|]. intros name rest Hrest.
      destruct (negb _); [apply takes_error|]. destruct (set_insert name formals) as [new names].
      destruct (negb new); [apply takes_error|]. apply takes_trivia. intros u Hu.
      apply takes_remaining. apply (takes_bind _ _ 0); [apply takes_comma|].
      intros [] v Hv. apply IH. lia. }
  destruct t as [|a t]; [done|]. repeat (case_match; try done).
  apply takes_goto; [simpl; lia|]. apply takes_ret.
Qed.

(** ** The parser *)

(** What [n] units of fuel are enough for. *)
Record fuelled (n : nat) : Prop := {
  fu_expr s : 8 * len s + 5 ≤ n → takes (expr n) 1 s;
  fu_lambda s : 8 * len s + 1 ≤ n → takes (lambda n) 1 s;
  fu_application s : 8 * len s + 4 ≤ n → takes (application n) 1 s;
  fu_arguments f s : 8 * len s + 4 ≤ n → takes (arguments n f) 0 s;
  fu_selection s : 8 * len s + 3 ≤ n → takes (selection n) 1 s;
  fu_selectors base keys s : 8 * len s + 1 ≤ n → takes (selectors n base keys) 0 s;
  fu_simple s : 8 * len s + 2 ≤ n → takes (simple n) 1 s;
  fu_items found s : 8 * len s + 4 ≤ n → takes (items n found) 1 s;
  fu_entries found s : 8 * len s + 3 ≤ n → takes (entries n found) 1 s;
  fu_key s : 8 * len s + 2 ≤ n → takes (key n) 1 s;
  fu_quoted s : 8 * len s + 1 ≤ n → takes (quoted n) 1 s;
  fu_characters text parts s : 8 * len s + 1 ≤ n → takes (characters n text parts) 1 s;
}.

Section Fuel.
Context (n : nat) (Hn : fuelled n).

(** A call that takes a byte at least. *)
#[local] Ltac call := apply (takes_bind _ _ 1); [first [apply Hn; simpl in *; lia|apply takes_expect]|].

Lemma returns_expr s : 8 * len s + 5 ≤ S n → takes (expr (S n)) 1 s.
Proof.
  intros Hs. cbn [expr]. apply takes_trivia. intros t Ht. apply takes_remaining.
  destruct (at_lambda t); apply Hn; lia.
Qed.

Lemma returns_lambda s : 8 * len s + 1 ≤ S n → takes (lambda (S n)) 1 s.
Proof.
  intros Hs. cbn [lambda]. call. intros _ r1 H1.
  apply (takes_bind _ _ 0); [apply takes_lambda_formals; lia|]. intros [formals ellipsis] r2 H2.
  call. intros _ r3 H3. call. intros body r4 H4. apply takes_ret.
Qed.

Lemma returns_application s : 8 * len s + 4 ≤ S n → takes (application (S n)) 1 s.
Proof. intros Hs. cbn [application]. call. intros f r Hr. apply Hn. lia. Qed.

Lemma returns_arguments f s : 8 * len s + 4 ≤ S n → takes (arguments (S n) f) 0 s.
Proof.
  intros Hs. cbn [arguments]. apply takes_trivia. intros t Ht. apply takes_remaining.
  destruct (negb _); [apply takes_ret|]. call. intros a r Hr. apply Hn. lia.
Qed.

Lemma returns_selection s : 8 * len s + 3 ≤ S n → takes (selection (S n)) 1 s.
Proof. intros Hs. cbn [selection]. call. intros b r Hr. apply Hn. lia. Qed.

Lemma returns_selectors base keys s : 8 * len s + 1 ≤ S n → takes (selectors (S n) base keys) 0 s.
Proof.
  intros Hs. cbn [selectors]. apply takes_trivia. intros t Ht. apply takes_remaining.
  destruct (at_selection t) eqn:Hat; [|apply takes_ret].
  destruct t as [|c t]; [done|]. cbn [skip]. apply takes_goto; [simpl; lia|].
  assert (len (skip 0 t) = len t) as Hl by by destruct t. simpl in Ht.
  call. intros k r Hr. apply Hn. lia.
Qed.

Lemma returns_simple s : 8 * len s + 2 ≤ S n → takes (simple (S n)) 1 s.
Proof.
  intros Hs. cbn [simple]. apply takes_trivia. intros t Ht. apply takes_remaining.
  destruct t as [|c t]; [apply takes_variable|]. simpl in Ht.
  destruct (Ascii.eqb c QUOTE); [call; intros parts r Hr; apply takes_ret|].
  assert (Hskip : ∀ (p : P Expr), takes p 1 t → takes (_ ← goto t; p) 1 (String c t)).
  { intros p Hp. apply takes_goto; [simpl; lia|]. apply (takes_weaken _ 1); [done|simpl; lia]. }
  destruct (Ascii.eqb c "["); [apply Hskip, Hn; lia|].
  destruct (Ascii.eqb c "{"); [apply Hskip, Hn; lia|].
  destruct (Ascii.eqb c "(").
  { apply Hskip. call. intros e r Hr. call. intros _ r' Hr'. apply takes_ret. }
  destruct (starts_with "./" (String c t)) eqn:Hd; [|apply takes_variable].
  apply starts_with_longer in Hd. simpl in Hd.
  apply takes_goto; rewrite skip_shorter; [simpl; lia|].
  replace (1 - _) with 0 by (simpl; lia). apply takes_rel_path.
Qed.

Lemma returns_items found s : 8 * len s + 4 ≤ S n → takes (items (S n) found) 1 s.
Proof.
  intros Hs. cbn [items]. apply takes_trivia. intros t Ht. apply takes_remaining.
  match goal with |- takes (match _ with "" => ?p | _ => _ end) _ _ => assert (Hrest : takes p 1 t) end.
  { call. intros item r Hr. apply (takes_weaken _ 1); [apply Hn|]; lia. }
  destruct t as [|a t]; [done|]. repeat (case_match; try done).
  apply takes_goto; [simpl; lia|]. replace (1 - _) with 0 by (simpl; lia). apply takes_ret.
Qed.

Lemma returns_entries found s : 8 * len s + 3 ≤ S n → takes (entries (S n) found) 1 s.
Proof.
  intros Hs. cbn [entries]. apply takes_trivia. intros t Ht. apply takes_remaining.
  match goal with |- takes (match _ with "" => ?p | _ => _ end) _ _ => assert (Hrest : takes p 1 t) end.
  { call. intros k r1 H1. call. intros _ r2 H2. call. intros v r3 H3. call. intros _ r4 H4.
    destruct (attr_insert k v found) as [[old|] more]; [apply takes_error|].
    apply (takes_weaken _ 1); [apply Hn|]; lia. }
  destruct t as [|a t]; [done|]. repeat (case_match; try done).
  apply takes_goto; [simpl; lia|]. replace (1 - _) with 0 by (simpl; lia). apply takes_ret.
Qed.

Lemma returns_key s : 8 * len s + 2 ≤ S n → takes (key (S n)) 1 s.
Proof.
  intros Hs. cbn [key]. apply takes_trivia. intros t Ht. apply takes_remaining.
  destruct t as [|c t]; [apply takes_bare_key|].
  destruct (Ascii.eqb c QUOTE); [|apply takes_bare_key]. call. intros parts r Hr.
  apply takes_quoted_key.
Qed.

Lemma returns_quoted s : 8 * len s + 1 ≤ S n → takes (quoted (S n)) 1 s.
Proof.
  intros Hs. cbn [quoted]. call. intros _ r Hr. apply (takes_weaken _ 1); [apply Hn|]; lia.
Qed.

Lemma returns_characters text parts s :
  8 * len s + 1 ≤ S n → takes (characters (S n) text parts) 1 s.
Proof.
  intros Hs. cbn [characters]. apply takes_remaining.
  destruct s as [|c s]; [apply takes_error|]. simpl in Hs.
  assert (Hskip : ∀ A (p : P A) t, len t ≤ len s → takes p 0 t → takes (_ ← goto t; p) 1 (String c s)).
  { intros A p t Hl Hp. apply takes_goto; [simpl; lia|].
    apply (takes_weaken _ 0); [done|simpl; lia]. }
  assert (Hmore : ∀ text parts t, len t ≤ len s → takes (characters n text parts) 0 t).
  { intros x ps t Hl. apply (takes_weaken _ 1); [apply Hn|]; lia. }
  assert (Hescape : ∀ f t, len t ≤ len s →
    takes (escaped ← next_char; characters n (f escaped) parts) 0 t).
  { intros f t Hl. apply (takes_bind _ _ 1); [apply takes_next_char|]. intros a r Hr.
    apply Hmore. lia. }
  destruct (Ascii.eqb c QUOTE); [apply Hskip; [done|apply takes_lit_part]|].
  destruct (Ascii.eqb c "\"); [apply Hskip; [done|by apply (Hescape (λ a, text +:+ one (unescape a)))]|].
  destruct (Ascii.eqb c "$").
  - pose proof (skip_shorter 1 s) as Hl.
    assert (Hinterp : takes (parts0 ← lit_part text parts; e ← expr n; _ ← expect "}";
      characters n "" (parts0 ++ [Part_Interp e])) 0 (skip 1 s)).
    { apply (takes_bind _ _ 0); [apply takes_lit_part|]. intros ps r1 H1.
      apply (takes_bind _ _ 1); [apply Hn; lia|]. intros e r2 H2.
      apply (takes_bind _ _ 1); [apply takes_expect|]. intros _ r3 H3. apply Hmore. lia. }
    assert (Hplain : takes (_ ← goto s; characters n (text +:+ "$") parts) 1 (String c s))
      by (apply Hskip; [done|by apply Hmore]).
    destruct (peek s) as [a|]; [|done]. repeat (case_match; try done).
    all: apply Hskip; [lia|]; try done; try (apply Hmore; lia).
    apply (Hescape (λ a, text +:+ "$" +:+ one (unescape a))). lia.
  - destruct (Ascii.eqb c RETURN); [|by apply Hskip; [|apply Hmore]].
    apply Hskip; [repeat case_match; simpl; lia|]. apply Hmore. repeat case_match; simpl; lia.
Qed.

End Fuel.

Lemma all_fuelled n : fuelled n.
Proof.
  induction n as [|n IH]; [split; intros; lia|]. split; intros.
  - by apply returns_expr.
  - by apply returns_lambda.
  - by apply returns_application.
  - by apply returns_arguments.
  - by apply returns_selection.
  - by apply returns_selectors.
  - by apply returns_simple.
  - by apply returns_items.
  - by apply returns_entries.
  - by apply returns_key.
  - by apply returns_quoted.
  - by apply returns_characters.
Qed.
