(* ===== verification/NixText.v ===== *)
(** * Reading back a string

    What [StrWriter] writes of literal text, however it was split into calls, is the text
    with its escapes, and the parser reads exactly that text of it. *)
From S2P Require Import Prelude.
From S2P Require Import Pins.
From S2P Require Import Nix.
From S2P Require Import NixParse.
From S2P Require Import NixReads.

Local Open Scope nat_scope.

(** [r] is out of fuel or has the answer. *)
Definition gives {A} (r : option (result ParseFail (A * string))) (x : A) (rest : string) : Prop :=
  r = None ∨ r = Some (Ok (x, rest)).

(** [r] is out of fuel or goes on as [f] does with some fuel. *)
Definition goes_on {A} (r : option A) (f : nat → option A) : Prop := r = None ∨ ∃ m, r = f m.

Lemma gives_bind {A B} (p : P A) (f : A → P B) s x rest y rest' :
  gives (p s) x rest → gives (f x rest) y rest' → gives ((p ≫= f) s) y rest'.
Proof. unfold gives, mbind, P_bind. intros [-> | ->]; simpl; auto. Qed.

Lemma gives_goes_on {A} (r : option (result ParseFail (A * string))) f x rest :
  goes_on r f → (∀ m, gives (f m) x rest) → gives r x rest.
Proof. intros [-> |[m ->]] Hf; [by left|apply Hf]. Qed.

Lemma goes_on_trans {A} (r : option A) f g :
  goes_on r f → (∀ m, goes_on (f m) g) → goes_on r g.
Proof. intros [-> |[m ->]] Hf; [by left|apply Hf]. Qed.

(** ** Text with its escapes *)

(** [interp]: whether an interpolation follows the text. *)
Fixpoint escaped (interp : bool) (text : string) : string :=
  match text with
  | "" => ""
  | String c rest =>
      (if Ascii.eqb c QUOTE then String "\" (one QUOTE)
       else if Ascii.eqb c "\" then "\\"
       else if Ascii.eqb c RETURN then "\r"
       else if Ascii.eqb c "$" && (starts_with "{" rest || (interp && (rest =s ""))) then "\$"
       else one c) +:+ escaped interp rest
  end.

Lemma write_escaped_plain text : write_escaped text = escaped false text.
Proof.
  induction text as [|c text IH]; [done|]. cbn [write_escaped escaped].
  by rewrite IH, orb_false_r.
Qed.

(** What is after the text decides only about a dollar at its end. *)
Definition ends_in_dollar (text : string) : Prop := ∃ body, text = body +:+ "$".

Lemma starts_with_one c a s : starts_with (one c) (String a s) = Ascii.eqb c a.
Proof.
  unfold starts_with, one. simpl. destruct (Ascii.ascii_dec c a) as [->|Hne].
  - rewrite Ascii.eqb_refl. by destruct s.
  - symmetry. by apply Ascii.eqb_neq.
Qed.

Lemma escaped_app interp a b :
  (¬ ends_in_dollar a) ∨ (b ≠ "" ∧ starts_with "{" b = false) →
  escaped interp (a +:+ b) = escaped false a +:+ escaped interp b.
Proof.
  induction a as [|c a IH]; intros Hab; [done|].
  rewrite app_cons_string. cbn [escaped]. rewrite app_assoc_string.
  assert (Ha : escaped interp (a +:+ b) = escaped false a +:+ escaped interp b).
  { apply IH. destruct Hab as [Hab|Hab]; [left|by right]. intros [body ->]. apply Hab.
    by exists (String c body). }
  rewrite Ha. f_equal.
  destruct (Ascii.eqb c QUOTE); [done|]. destruct (Ascii.eqb c "\"); [done|].
  destruct (Ascii.eqb c RETURN); [done|]. destruct (Ascii.eqb c "$") eqn:Hc; [|done].
  apply Ascii.eqb_eq in Hc as ->. destruct a as [|c2 a].
  - rewrite app_empty_string. destruct Hab as [Hab|[Hb Hs]].
    + destruct Hab. by exists "".
    + rewrite Hs. destruct b; [done|]. simpl. by rewrite andb_false_r.
  - rewrite app_cons_string. change "{" with (one "{"). rewrite !starts_with_one. simpl.
    by rewrite andb_false_r.
Qed.

Lemma strip_dollar text :
  match strip_suffix "$" text with
  | Some body => text = body +:+ "$"
  | None => ¬ ends_in_dollar text
  end.
Proof.
  unfold strip_suffix. simpl. case_decide as Hl.
  - destruct (String.eqb _ "$") eqn:Hs.
    + apply String.eqb_eq in Hs. rewrite <- Hs. symmetry. apply prefix_skip.
    + intros [body ->]. rewrite length_app_string in Hs. simpl in Hs.
      replace (String.length body + 1 - 1) with (String.length body) in Hs by lia.
      by rewrite skip_app in Hs.
  - intros [body ->]. rewrite length_app_string in Hl. simpl in Hl. lia.
Qed.

(** ** What the writer makes of pieces of text *)

Lemma in_turn_cons w ws depth t :
  in_turn (w :: ws) depth = Some t ↔
  ∃ x y, w depth = Some x ∧ in_turn ws depth = Some y ∧ t = x +:+ y.
Proof.
  cbn [in_turn]. split.
  - destruct (w depth) as [x|]; [|done]. destruct (in_turn ws depth) as [y|] eqn:Hy; [|done].
    simpl. intros [= <-]. eauto.
  - intros (x & y & -> & -> & ->). done.
Qed.

Lemma in_turn_nil depth t : in_turn [] depth = Some t ↔ t = "".
Proof. split; [by intros [= <-]|by intros ->]. Qed.

Lemma push_str_Some s depth t : push_str s depth = Some t ↔ t = s.
Proof. split; [by intros [= <-]|by intros ->]. Qed.

(** The text that waits when a call is made. *)
Definition waiting (pending_dollar : bool) : string := if pending_dollar then "$" else "".

Definition starts_interp (calls : list StrCall) : bool :=
  match calls with Call_Interp _ :: _ => true | _ => false end.

(** What follows the text: an interpolation's calls without the dollar, or nothing. *)
Definition no_lit (calls : list StrCall) : Prop :=
  match calls with [] => True | Call_Interp _ :: _ => True | _ => False end.

Lemma starts_with_more pre a b :
  a ≠ "" → starts_with (String pre "") (a +:+ b) = starts_with (String pre "") a.
Proof.
  destruct a as [|c a]; [done|]. intros _. rewrite app_cons_string. unfold starts_with. simpl.
  by destruct (Ascii.ascii_dec pre c); destruct a, b.
Qed.

Lemma escaped_dollar interp text :
  text ≠ "" → escaped interp ("$" +:+ text) = dollar_before text +:+ escaped interp text.
Proof.
  intros Hne. rewrite app_cons_string, app_empty_string. cbn [escaped]. simpl (Ascii.eqb "$" _).
  unfold dollar_before. destruct text as [|c text]; [done|]. cbn [andb orb].
  replace (interp && (String c text =s "")) with false by by rewrite andb_false_r.
  rewrite orb_false_r. cbn. by destruct (starts_with _ _).
Qed.

(** The pieces of text as one. *)
Definition joined (lits : list string) : string := foldr String.append "" lits.

Lemma str_calls_none calls pending depth t :
  no_lit calls → str_calls pending calls depth = Some t →
  ∃ t', str_calls false calls depth = Some t' ∧
    t = escaped (starts_interp calls) (waiting pending) +:+ t'.
Proof.
  intros Hc. destruct calls as [|[| |w] calls]; [|done..|].
  - intros [= <-]. exists "". by destruct pending.
  - destruct pending; [|by exists t]. cbn [str_calls].
    intros (x & y & Hx & Hy & ->)%in_turn_cons. apply push_str_Some in Hx as ->.
    exists y. split; [|done]. apply in_turn_cons. exists "", y. done.
Qed.

Lemma waiting_text pending interp text rest :
  text ≠ "" →
  escaped interp (waiting pending +:+ text +:+ rest) =
  (if pending then dollar_before text else "") +:+ escaped interp (text +:+ rest).
Proof.
  intros Hne. destruct pending; [|done]. unfold waiting.
  rewrite escaped_dollar by by destruct text. f_equal. unfold dollar_before.
  by rewrite (starts_with_more "{" text rest Hne).
Qed.

Lemma str_calls_text lits calls pending depth t :
  no_lit calls →
  str_calls pending ((Call_Lit <$> lits) ++ calls) depth = Some t →
  ∃ t', str_calls false calls depth = Some t' ∧
    t = escaped (starts_interp calls) (waiting pending +:+ joined lits) +:+ t'.
Proof.
  intros Hc. revert pending t. induction lits as [|l lits IH]; intros pending t.
  { simpl. rewrite app_nil_string. by apply str_calls_none. }
  cbn [fmap list_fmap app str_calls]. fold (Call_Lit <$> lits). case_decide as Hl.
  { subst l. apply IH. }
  intros (x & y & Hx & Hy & ->)%in_turn_cons. apply push_str_Some in Hx as ->.
  apply in_turn_cons in Hy as (z & e & Hz & He & ->). apply in_turn_nil in He as ->.
  rewrite app_nil_string. pose proof (strip_dollar l) as Hd.
  cbn [joined foldr]. fold (joined lits). rewrite waiting_text by done.
  destruct (strip_suffix "$" l) as [body|].
  - apply in_turn_cons in Hz as (b & r & Hb & Hr & ->). apply push_str_Some in Hb as ->.
    apply in_turn_cons in Hr as (r' & e & Hr & He & ->). apply in_turn_nil in He as ->.
    rewrite app_nil_string. destruct (IH _ _ Hr) as (t' & Ht' & ->).
    exists t'. split; [done|]. rewrite write_escaped_plain, Hd.
    rewrite !app_assoc_string. f_equal. cbn [waiting].
    rewrite (escaped_app _ body); [by rewrite app_assoc_string|]. right. split; [by destruct (joined lits)|].
    by destruct (joined lits).
  - apply in_turn_cons in Hz as (b & r & Hb & Hr & ->). apply push_str_Some in Hb as ->.
    apply in_turn_cons in Hr as (r' & e & Hr & He & ->). apply in_turn_nil in He as ->.
    rewrite app_nil_string. destruct (IH _ _ Hr) as (t' & Ht' & ->).
    exists t'. split; [done|]. rewrite write_escaped_plain.
    rewrite (escaped_app _ l) by (by left). by rewrite !app_assoc_string.
Qed.

(** ** What the parser makes of it *)

Lemma characters_plain n text parts c s :
  verbatim_byte c = true ∨ c = NUL →
  characters (S n) text parts (String c s) = characters n (text +:+ one c) parts s.
Proof.
  intros Hc. assert (Ascii.eqb c QUOTE = false ∧ Ascii.eqb c "\" = false ∧
    Ascii.eqb c "$" = false ∧ Ascii.eqb c RETURN = false) as (H1 & H2 & H3 & H4).
  { unfold verbatim_byte in Hc. destruct Hc as [Hc| ->]; [|done].
    apply negb_true_iff in Hc. rewrite !orb_false_iff in Hc. tauto. }
  cbn [characters]. unfold mbind, P_bind, remaining, goto. simpl. by rewrite H1, H2, H3, H4.
Qed.

Lemma characters_escape n text parts c s :
  characters (S n) text parts (String "\" (String c s)) =
  characters n (text +:+ one (unescape c)) parts s.
Proof. reflexivity. Qed.

Lemma characters_dollars n text parts s :
  characters (S n) text parts (String "$" (String "$" s)) = characters n (text +:+ "$$") parts s.
Proof. cbn [characters]. unfold mbind, P_bind, remaining, goto. simpl. by destruct s. Qed.

Lemma characters_dollar_escape n text parts c s :
  characters (S n) text parts (String "$" (String "\" (String c s))) =
  characters n (text +:+ "$" +:+ one (unescape c)) parts s.
Proof. reflexivity. Qed.

Lemma characters_dollar n text parts a s :
  a ≠ "{"%char → a ≠ "$"%char → a ≠ "\"%char →
  characters (S n) text parts (String "$" (String a s)) =
  characters n (text +:+ "$") parts (String a s).
Proof.
  intros H1 H2 H3. cbn [characters]. unfold mbind, P_bind, remaining, goto, peek. simpl.
  destruct a as [[] [] [] [] [] [] [] []]; done.
Qed.

Lemma goes_on_ret {A} (r : option A) f m : r = f m → goes_on r f.
Proof. intros ->. right. by exists m. Qed.

(** What may follow text: its end, or an interpolation. *)
Definition text_ends (interp : bool) (rest : string) : Prop :=
  ∃ s, rest = if interp then "${" +:+ s else one QUOTE +:+ s.

Lemma verbatim_cases c :
  verbatim_byte c = true ∨ c = NUL ∨ c = QUOTE ∨ c = "\"%char ∨ c = RETURN ∨ c = "$"%char.
Proof.
  unfold verbatim_byte.
  destruct (Ascii.eqb_spec c QUOTE); [auto 8|]. destruct (Ascii.eqb_spec c "\"); [auto 8|].
  destruct (Ascii.eqb_spec c RETURN); [auto 8|]. destruct (Ascii.eqb_spec c "$"); [auto 8|].
  destruct (Ascii.eqb_spec c NUL); auto 8.
Qed.

Lemma escaped_plain interp c text :
  verbatim_byte c = true ∨ c = NUL → escaped interp (String c text) = String c (escaped interp text).
Proof.
  intros Hc. cbn [escaped].
  assert (Ascii.eqb c QUOTE = false ∧ Ascii.eqb c "\" = false ∧ Ascii.eqb c RETURN = false ∧
    Ascii.eqb c "$" = false) as (-> & -> & -> & ->); [|done].
  unfold verbatim_byte in Hc. destruct Hc as [Hc| ->]; [|done].
  apply negb_true_iff in Hc. rewrite !orb_false_iff in Hc. tauto.
Qed.

(** Of a dollar: escaped, or followed by something that is not a brace. *)
Lemma escaped_dollar_cases interp text :
  escaped interp (String "$" text) = "\$" +:+ escaped interp text ∨
  (escaped interp (String "$" text) = String "$" (escaped interp text) ∧
   starts_with "{" text = false ∧ (text = "" → interp = false)).
Proof.
  cbn [escaped]. cbn -[starts_with]. destruct (starts_with "{" text); [by left|].
  destruct (text =s "") eqn:Ht; simpl.
  - destruct interp; [by left|]. right. done.
  - right. rewrite andb_false_r. split; [done|]. split; [done|]. by intros ->.
Qed.

Lemma characters_escaped k interp text n tx parts rest :
  String.length text ≤ k → text_ends interp rest →
  goes_on (characters n tx parts (escaped interp text +:+ rest))
    (λ m, characters m (tx +:+ text) parts rest).
Proof.
  revert text n tx. induction k as [|k IH]; intros text n tx Hk Hrest.
  { destruct text; [|simpl in Hk; lia]. apply (goes_on_ret _ _ n). by rewrite app_nil_string. }
  destruct text as [|c text].
  { apply (goes_on_ret _ _ n). by rewrite app_nil_string. }
  simpl in Hk. destruct n as [|n]; [by left|].
  assert (Hnext : ∀ n c', goes_on (characters n (tx +:+ one c') parts (escaped interp text +:+ rest))
    (λ m, characters m (tx +:+ String c' text) parts rest)).
  { intros n' c'. eapply goes_on_trans; [apply IH; [lia|done]|]. intros m.
    apply (goes_on_ret _ _ m). by rewrite app_assoc_string. }
  destruct (verbatim_cases c) as [Hv|[->|[->|[->|[->| ->]]]]].
  - rewrite escaped_plain, app_cons_string, characters_plain by auto. apply Hnext.
  - rewrite escaped_plain, app_cons_string, characters_plain by auto. apply Hnext.
  - apply (Hnext n QUOTE).
  - apply (Hnext n "\"%char).
  - apply (Hnext n RETURN).
  - destruct (escaped_dollar_cases interp text) as [->|(-> & Hs & He)]; [apply (Hnext n "$"%char)|].
    rewrite app_cons_string.
    destruct text as [|c2 text].
    { destruct Hrest as [s ->]. specialize (He eq_refl) as ->. apply (goes_on_ret _ _ n).
      change (escaped false "" +:+ (one QUOTE +:+ s)) with (String QUOTE s).
      by rewrite characters_dollar. }
    (* the next char may be taken with the dollar *)
    assert (Htwo : ∀ n c', goes_on (characters n (tx +:+ "$" +:+ one c') parts (escaped interp text +:+ rest))
      (λ m, characters m (tx +:+ String "$" (String c' text)) parts rest)).
    { intros n' c'. eapply goes_on_trans; [apply IH; [simpl in Hk; lia|done]|]. intros m.
      apply (goes_on_ret _ _ m). by rewrite app_assoc_string. }
    change "{" with (String "{" "") in Hs. 
    destruct (verbatim_cases c2) as [Hv|[->|[->|[->|[->| ->]]]]].
    + rewrite escaped_plain, app_cons_string by auto.
      assert (c2 ≠ "{"%char ∧ c2 ≠ "$"%char ∧ c2 ≠ "\"%char) as (H1 & H2 & H3).
      { split; [|by split; intros ->]. intros ->. by destruct text. }
      rewrite characters_dollar by done. rewrite <- app_cons_string, <- escaped_plain by auto.
      apply (Hnext n "$"%char).
    + rewrite escaped_plain, app_cons_string, characters_dollar by auto.
      rewrite <- app_cons_string, <- escaped_plain by auto. apply (Hnext n "$"%char).
    + apply (Htwo n QUOTE).
    + apply (Htwo n "\"%char).
    + apply (Htwo n RETURN).
    + destruct (escaped_dollar_cases interp text) as [->|(-> & _)]; [apply (Htwo n "$"%char)|].
      rewrite app_cons_string, characters_dollars. apply (Htwo n "$"%char).
Qed.
