(* ===== verification/NixOrder.v ===== *)
(** * Expressions that are well formed

    What the constructors of [ast.rs] guarantee of an expression, and what follows for the
    sets it has: entries in order stay as they are when they are collected or inserted one
    by one. *)
From S2P Require Import Prelude.
From S2P Require Import Pins.
From S2P Require Import Nix.
From S2P Require Import NixParse.
From S2P Require Import NixReads.
From S2P Require Import NixText.

Local Open Scope nat_scope.

(** ** Well-formed expressions *)

Fixpoint increasing {A} (lt : A → A → bool) (l : list A) : bool :=
  match l with [] => true | x :: l => forallb (lt x) l && increasing lt l end.

Definition key_ok (k : Key) : bool :=
  negb (contains_nul (key_text k)) && Bool.eqb (bare k) (is_identifier (key_text k)).

(** A name that is read back as a boolean is no variable of a well-formed expression. *)
Definition variable_ok (x : string) : bool :=
  is_identifier x && negb (x =s "true") && negb (x =s "false").

Fixpoint well_formed (e : Expr) : bool :=
  match e with
  | Expr_Str parts =>
      forallb (λ part, match part with
                       | Part_Lit text => negb (contains_nul text)
                       | Part_Interp inner => well_formed inner
                       end) parts
  | Expr_Bool _ => true
  | Expr_List items => forallb well_formed items
  | Expr_Attrs entries =>
      increasing key_lt (map fst entries) &&
      forallb (λ entry, key_ok entry.1 && well_formed entry.2) entries
  | Expr_Var x => variable_ok x
  | Expr_Select base first rest => well_formed base && forallb key_ok (first :: rest)
  | Expr_Apply function argument => well_formed function && well_formed argument
  | Expr_Lambda formals _ body =>
      increasing String.ltb formals && forallb is_identifier formals && well_formed body
  | Expr_Path at_ => is_rel_path at_
  end.

(** Induction on expressions with those they hold. *)
Section Ind.
Context (Q : Expr → Prop).
Context (Hstr : ∀ parts, (∀ inner, Part_Interp inner ∈ parts → Q inner) → Q (Expr_Str parts)).
Context (Hbool : ∀ b, Q (Expr_Bool b)).
Context (Hlist : ∀ items, (∀ item, item ∈ items → Q item) → Q (Expr_List items)).
Context (Hattrs : ∀ entries, (∀ k v, (k, v) ∈ entries → Q v) → Q (Expr_Attrs entries)).
Context (Hvar : ∀ x, Q (Expr_Var x)).
Context (Hselect : ∀ base first rest, Q base → Q (Expr_Select base first rest)).
Context (Happly : ∀ f a, Q f → Q a → Q (Expr_Apply f a)).
Context (Hlambda : ∀ fs ell body, Q body → Q (Expr_Lambda fs ell body)).
Context (Hpath : ∀ p, Q (Expr_Path p)).

Fixpoint expr_induction (e : Expr) : Q e.
Proof.
  destruct e as [parts|b|items|entries|x|base first rest|f a|fs ell body|p].
  - apply Hstr. induction parts as [|part parts IH]; intros inner Hin.
    + exfalso. clear expr_induction. by apply elem_of_nil in Hin.
    + destruct part as [text|e].
      * apply IH. clear expr_induction. by apply elem_of_cons in Hin as [?|].
      * apply elem_of_cons in Hin as [Heq|Hin]; [|exact (IH _ Hin)].
        injection Heq as Hv. rewrite Hv. apply (expr_induction e).
  - apply Hbool.
  - apply Hlist. induction items as [|item items IH]; intros e Hin.
    + exfalso. clear expr_induction. by apply elem_of_nil in Hin.
    + apply elem_of_cons in Hin as [Heq|Hin]; [|exact (IH _ Hin)].
      rewrite Heq. apply (expr_induction item).
  - apply Hattrs. induction entries as [|[k v] entries IH]; intros k' v' Hin.
    + exfalso. clear expr_induction. by apply elem_of_nil in Hin.
    + apply elem_of_cons in Hin as [Heq|Hin]; [|exact (IH _ _ Hin)].
      injection Heq as _ Hv. rewrite Hv. apply (expr_induction v).
  - apply Hvar.
  - apply Hselect, expr_induction.
  - apply Happly; apply expr_induction.
  - apply Hlambda, expr_induction.
  - apply Hpath.
Defined.

End Ind.

Lemma forallb_elem {A} (f : A → bool) l : forallb f l = true ↔ ∀ x, x ∈ l → f x = true.
Proof. rewrite forallb_forall. setoid_rewrite list_elem_of_In. done. Qed.

Lemma elem_increasing {A} lt (l : list A) x y k :
  increasing lt (l ++ x :: k) = true → y ∈ l → lt y x = true.
Proof.
  induction l as [|z l IH]; simpl; [by intros _ ?%elem_of_nil|].
  intros [Hz Hl]%andb_true_iff [->|Hy]%elem_of_cons; [|by apply IH].
  rewrite forallb_elem in Hz. apply Hz. apply elem_of_app. right. left.
Qed.

(** ** The order of keys *)

Lemma string_compare_refl s : String.compare s s = Eq.
Proof.
  pose proof (String.compare_antisym s s) as H. by destruct (String.compare s s).
Qed.

Lemma key_compare_antisym a b : key_compare a b = CompOpp (key_compare b a).
Proof.
  unfold key_compare. rewrite String.compare_antisym.
  destruct (String.compare (key_text b) (key_text a)); simpl; [|done..].
  by destruct (bare a), (bare b).
Qed.

Lemma key_lt_flip a b : key_lt a b = true → key_lt b a = false.
Proof. unfold key_lt. rewrite (key_compare_antisym b a). by destruct (key_compare a b). Qed.

Lemma key_lt_ne a b : key_lt a b = true → b ≠ a.
Proof. intros Hlt ->. pose proof (key_lt_flip _ _ Hlt). congruence. Qed.

Section Entries.
Context {E : Type}.
Implicit Types (entries : list (Key * E)).

Lemma sort_entries_id entries :
  increasing key_lt (map fst entries) = true → sort_entries entries = entries.
Proof.
  induction entries as [|e entries IH]; [done|]. cbn [map increasing].
  intros [He Hl]%andb_true_iff. cbn [sort_entries foldr]. fold (sort_entries entries).
  rewrite IH by done. destruct entries as [|e2 entries]; [done|]. simpl in *.
  apply andb_true_iff in He as [He _]. by rewrite (key_lt_flip _ _ He).
Qed.

Lemma dedup_entries_id e entries :
  increasing key_lt (map fst (e :: entries)) = true → dedup_entries e entries = e :: entries.
Proof.
  revert e. induction entries as [|e2 entries IH]; intros e; [done|].
  cbn [map increasing]. intros [He Hl]%andb_true_iff. cbn [dedup_entries].
  simpl in He. apply andb_true_iff in He as [He _].
  rewrite decide_False by by apply key_lt_ne. by rewrite IH.
Qed.

Lemma attrs_from_id entries : increasing key_lt (map fst entries) = true → attrs_from entries = entries.
Proof.
  intros Hl. unfold attrs_from. rewrite sort_entries_id by done.
  destruct entries; [done|]. by apply dedup_entries_id.
Qed.

Lemma attr_insert_last k v entries :
  (∀ x, x ∈ map fst entries → key_lt x k = true) → attr_insert k v entries = (None, entries ++ [(k, v)]).
Proof.
  induction entries as [|[k2 v2] entries IH]; intros Hk; [done|]. cbn [attr_insert].
  assert (key_compare k2 k = Lt) as ->.
  { assert (key_lt k2 k = true) as Hlt by (apply Hk; left). unfold key_lt in Hlt.
    by destruct (key_compare k2 k). }
  rewrite IH; [done|]. intros x Hx. apply Hk. by right.
Qed.

End Entries.

Lemma set_insert_last x names :
  (∀ y, y ∈ names → String.ltb y x = true) → set_insert x names = (true, names ++ [x]).
Proof.
  induction names as [|y names IH]; intros Hx; [done|]. cbn [set_insert].
  assert (String.compare y x = Lt) as ->.
  { assert (String.ltb y x = true) as Hlt by (apply Hx; left). unfold String.ltb in Hlt.
    by destruct (String.compare y x). }
  rewrite IH; [done|]. intros z Hz. apply Hx. by right.
Qed.
