(* ===== verification/NixRound.v ===== *)
(** * Reading back what is printed

    Parsing what a well-formed expression is printed as gives its normal form, at each
    level of the parser and before whatever may follow there. *)
From S2P Require Import Prelude.
From S2P Require Import Pins.
From S2P Require Import Nix.
From S2P Require Import NixParse.
From S2P Require Import NixReads.
From S2P Require Import NixText.
From S2P Require Import NixOrder.

Local Open Scope nat_scope.

(** ** Chars *)

(** What an operand starts with, but a path. *)
Definition opener (c : ascii) : bool :=
  Ascii.eqb c QUOTE || Ascii.eqb c "[" || Ascii.eqb c "{" || Ascii.eqb c "(" ||
  is_ascii_alphabetic c || Ascii.eqb c "_".

Ltac all_chars c := destruct c as [[] [] [] [] [] [] [] []]; vm_compute.

Lemma opener_solid c : opener c = true → is_space c = false ∧ Ascii.eqb c "#" = false ∧
  Ascii.eqb c "." = false ∧ Ascii.eqb c ":" = false ∧ Ascii.eqb c "]" = false ∧
  Ascii.eqb c "}" = false.
Proof. by all_chars c. Qed.

Lemma ident_first_opener c : is_ascii_alphabetic c || Ascii.eqb c "_" = true → opener c = true.
Proof. by all_chars c. Qed.

Lemma trivia_solid c s :
  is_space c = false → Ascii.eqb c "#" = false → trivia false (String c s) = String c s.
Proof. intros H1 H2. simpl. by rewrite H1, H2. Qed.

Lemma trivia_idem c s : trivia false (trivia c s) = trivia c s.
Proof.
  revert c. induction s as [|a s IH]; intros c; [done|]. simpl. destruct c; [apply IH|].
  destruct (is_space a) eqn:H1; [apply IH|]. destruct (Ascii.eqb a "#") eqn:H2; [apply IH|].
  by apply trivia_solid.
Qed.

(** ** What a text starts with and what may follow it *)

(** The text starts as an operand does. *)
Definition begins (t : string) : Prop :=
  ∃ c s, t = String c s ∧ (opener c = true ∨ (c = "."%char ∧ ∃ s', s = String "/" s')).

Lemma begins_app t rest : begins t → begins (t +:+ rest).
Proof.
  intros (c & s & -> & H). exists c, (s +:+ rest). split; [done|].
  destruct H as [H|[-> [s' ->]]]; [by left|right]. split; [done|]. by exists (s' +:+ rest).
Qed.

Lemma begins_solid t : begins t →
  trivia false t = t ∧ skip_space t = t ∧ at_operand t = true ∧ at_selection t = false.
Proof.
  intros (c & s & -> & [H|[-> [s' ->]]]); [|done].
  destruct (opener_solid c H) as (H1 & H2 & H3 & _).
  split; [by apply trivia_solid|]. split; [simpl; by rewrite H1|].
  unfold opener in H. apply Ascii.eqb_neq in H3. split.
  - unfold at_operand. destruct c as [[] [] [] [] [] [] [] []]; try exact H; done.
  - unfold at_selection. destruct c as [[] [] [] [] [] [] [] []]; done.
Qed.

Definition bound (rest : string) : Prop :=
  match rest with "" => True | String c _ => ident_byte c = false end.
Definition path_end (rest : string) : Prop :=
  match rest with "" => True | String c _ => path_byte c = false end.
Definition no_colon (rest : string) : Prop :=
  match skip_space rest with String c _ => c ≠ ":"%char | "" => True end.

(** After an operand: it is not longer, and nothing is selected of it. *)
Definition after_operand (rest : string) : Prop :=
  bound rest ∧ path_end rest ∧ at_selection (trivia false rest) = false.

(** After an expression: it is not applied and is no set of formals either. *)
Definition after_expr (rest : string) : Prop :=
  after_operand rest ∧ at_operand (trivia false rest) = false ∧ no_colon rest.

Lemma after_closing c rest :
  c = ")"%char ∨ c = "}"%char ∨ c = ";"%char → after_expr (String c rest) ∧
  trivia false (String c rest) = String c rest.
Proof. by intros [->|[->| ->]]. Qed.

Lemma after_end : after_expr "".
Proof. done. Qed.

(** ** Words *)

Lemma string_all_cons f c s : string_all f (String c s) = f c && string_all f s.
Proof. unfold string_all. simpl. by rewrite negb_orb, negb_involutive. Qed.

Lemma split_while_all f s rest :
  string_all f s = true → match rest with "" => True | String c _ => f c = false end →
  split_while f (s +:+ rest) = (s, rest).
Proof.
  intros Hs Hrest. induction s as [|c s IH].
  - rewrite app_empty_string. destruct rest as [|c rest]; [done|]. simpl. by rewrite Hrest.
  - rewrite string_all_cons in Hs. apply andb_true_iff in Hs as [Hc Hs].
    rewrite app_cons_string. simpl. by rewrite Hc, IH.
Qed.

Lemma identifier_cases x :
  is_identifier x = true → ∃ c s, x = String c s ∧
    (is_ascii_alphabetic c || Ascii.eqb c "_") = true ∧ string_all ident_byte s = true.
Proof.
  destruct x as [|c s]; [done|]. cbn [is_identifier].
  intros [[Hc Hs]%andb_true_iff _]%andb_true_iff. eauto.
Qed.

Lemma split_identifier_all x rest :
  is_identifier x = true → bound rest → split_identifier (x +:+ rest) = (x, rest).
Proof.
  intros (c & s & -> & Hc & Hs)%identifier_cases Hrest. rewrite app_cons_string. cbn [split_identifier].
  rewrite Hc. by rewrite split_while_all.
Qed.

Lemma identifier_begins x : is_identifier x = true → begins x.
Proof.
  intros (c & s & -> & Hc & _)%identifier_cases. exists c, s. split; [done|]. left.
  by apply ident_first_opener.
Qed.

Lemma identifier_reads x rest :
  is_identifier x = true → bound rest → identifier (x +:+ rest) = Some (Ok (x, rest)).
Proof.
  intros Hx Hrest. unfold identifier, skip_trivia, mbind, P_bind, remaining, goto. simpl.
  destruct (begins_solid _ (begins_app _ rest (identifier_begins x Hx))) as (-> & _).
  rewrite split_identifier_all by done. by destruct x.
Qed.

Lemma variable_reads x rest :
  variable_ok x = true → bound rest → variable (x +:+ rest) = Some (Ok (Expr_Var x, rest)).
Proof.
  unfold variable_ok. intros [[Hx Ht]%andb_true_iff Hf]%andb_true_iff Hrest.
  unfold variable, mbind, P_bind. rewrite identifier_reads by done. simpl.
  apply negb_true_iff in Ht, Hf. by rewrite Ht, Hf, Hx.
Qed.

Lemma bool_reads (b : bool) rest :
  bound rest → variable ((if b then "true" else "false") +:+ rest) = Some (Ok (Expr_Bool b, rest)).
Proof.
  intros Hrest. unfold variable, mbind, P_bind. rewrite identifier_reads by (by destruct b).
  by destruct b.
Qed.

(** ** Expressions by the levels of the parser *)

Definition sel_base (e : Expr) : Expr := match e with Expr_Select base _ _ => base | e => e end.
Definition sel_keys (e : Expr) : list Key :=
  match e with Expr_Select _ first rest => first :: rest | _ => [] end.

Lemma selected_again e : selected (sel_base e) (sel_keys e) = e.
Proof. by destruct e. Qed.

Lemma select_more_parts base first rest :
  sel_base (select_more base first rest) = sel_base base ∧
  sel_keys (select_more base first rest) = sel_keys base ++ first :: rest.
Proof. by destruct base. Qed.

(** The text is read as [e] where a selection is read. *)
Definition selects (t : string) (e : Expr) (tight : Prop) : Prop :=
  ∀ n rest, bound rest → (tight → path_end rest) →
  goes_on (selection n (t +:+ rest)) (λ m, selectors m (sel_base e) (sel_keys e) rest).

(** The text is read as [e] where it may be applied. *)
Definition applies (t : string) (e : Expr) : Prop :=
  ∀ n rest, after_operand rest →
  goes_on (application n (t +:+ rest)) (λ m, arguments m e (trivia false rest)).

(** The text is read as [e]. *)
Definition reads (t : string) (e : Expr) : Prop :=
  ∀ n rest, after_expr rest → gives (expr n (t +:+ rest)) e (trivia false rest).

(** The text is read as [e] by [simple]. *)
Definition simply (t : string) (e : Expr) (tight : Prop) : Prop :=
  ∀ n rest, bound rest → (tight → path_end rest) → gives (simple n (t +:+ rest)) e rest.

Lemma gives_Some {A} (r : option (result ParseFail (A * string))) x rest :
  r = Some (Ok (x, rest)) → gives r x rest.
Proof. by right. Qed.

Lemma gives_none {A} (x : A) rest : gives None x rest.
Proof. by left. Qed.
#[export] Hint Resolve gives_none : core.

Lemma simply_selects t e tight : simply t e tight → sel_keys e = [] → selects t e tight.
Proof.
  intros Hs Hk n rest Hb Ht. destruct n as [|n]; [by left|]. cbn [selection].
  destruct (Hs n rest Hb Ht) as [Hn|Hn]; unfold mbind, P_bind; rewrite Hn; [by left|].
  apply (goes_on_ret _ _ n). rewrite Hk. by destruct e.
Qed.

(** The end of the keys. *)
Lemma selectors_end n base keys rest :
  at_selection (trivia false rest) = false →
  gives (selectors n base keys rest) (selected base keys) (trivia false rest).
Proof.
  intros Ha. destruct n as [|n]; [done|]. cbn [selectors].
  unfold skip_trivia, mbind, P_bind, remaining, goto. simpl. rewrite Ha. by right.
Qed.

Lemma selects_operand t e n rest :
  selects t e (is_path e = true) → after_operand rest →
  gives (selection n (t +:+ rest)) e (trivia false rest).
Proof.
  intros Hs (Hb & Hp & Ha). eapply gives_goes_on; [by apply Hs|]. intros m.
  pose proof (selectors_end m (sel_base e) (sel_keys e) rest Ha) as He.
  by rewrite selected_again in He.
Qed.

Lemma selects_applies t e : selects t e (is_path e = true) → applies t e.
Proof.
  intros Hs n rest Hrest. destruct n as [|n]; [by left|]. cbn [application].
  destruct (selects_operand _ _ n _ Hs Hrest) as [Hn|Hn]; unfold mbind, P_bind; rewrite Hn; [by left|].
  by apply (goes_on_ret _ _ n).
Qed.

(** The end of the arguments. *)
Lemma arguments_end n f rest :
  at_operand (trivia false rest) = false →
  gives (arguments n f (trivia false rest)) f (trivia false rest).
Proof.
  intros Ha. destruct n as [|n]; [done|]. cbn [arguments].
  unfold skip_trivia, mbind, P_bind, remaining, goto. simpl. rewrite trivia_idem, Ha. by right.
Qed.

Lemma applies_reads t e :
  applies t e → begins t → (∀ rest, no_colon rest → at_lambda (t +:+ rest) = false) → reads t e.
Proof.
  intros Ha Hb Hl n rest (Hop & Hend & Hcol). destruct n as [|n]; [done|]. cbn [expr].
  unfold skip_trivia, mbind, P_bind, remaining, goto. simpl.
  destruct (begins_solid _ (begins_app _ rest Hb)) as (-> & _). rewrite Hl by done.
  eapply gives_goes_on; [by apply Ha|]. intros m. by apply arguments_end.
Qed.

Lemma expect_reads token c s :
  is_space c = false → Ascii.eqb c "#" = false →
  starts_with token (String c s) = true →
  expect token (String c s) = Some (Ok (tt, skip (String.length token) (String c s))).
Proof.
  intros H1 H2 Ht. unfold expect, skip_trivia, mbind, P_bind, remaining, goto. simpl.
  rewrite H1, H2. unfold strip_prefix. by rewrite Ht.
Qed.

Lemma expect_close c rest :
  c = ")"%char ∨ c = "}"%char ∨ c = ";"%char →
  expect (one c) (String c rest) = Some (Ok (tt, rest)).
Proof. intros [->|[->| ->]]; by destruct rest. Qed.

(** Between parentheses. *)
Lemma paren_simply t e tight : reads t e → simply ("(" +:+ t +:+ ")") e tight.
Proof.
  intros Hr n rest Hb Ht. destruct n as [|n]; [done|]. rewrite !app_assoc_string.
  cbn [simple]. unfold skip_trivia, mbind, P_bind, remaining, goto. simpl.
  assert (Hclose : after_expr (String ")" rest)) by (apply after_closing; auto).
  rewrite app_empty_string. change (")" +:+ rest) with (String ")" rest).
  destruct (Hr n (String ")" rest) Hclose) as [Hn|Hn]; rewrite Hn; [by left|right]. simpl.
  change (String ")" "") with (one ")"). by rewrite expect_close by auto.
Qed.

Lemma paren_selects t e tight : reads t e → sel_keys e = [] → selects ("(" +:+ t +:+ ")") e tight.
Proof. intros Hr Hk. apply simply_selects; [by apply paren_simply|done]. Qed.

(** ** Strings *)

(** The parts the parser has when its text is [text]. *)
Definition flushed (text : string) (parts : list (StrPart Expr)) : list (StrPart Expr) :=
  if decide (text = "") then parts else parts ++ [Part_Lit text].

Lemma lit_part_flushed text parts s :
  contains_nul text = false → lit_part text parts s = Some (Ok (flushed text parts, s)).
Proof.
  intros Hn. unfold lit_part, flushed, nix_str_new. rewrite Hn. by case_decide.
Qed.

Lemma contains_nul_app a b : contains_nul (a +:+ b) = contains_nul a || contains_nul b.
Proof.
  unfold contains_nul. induction a as [|c a IH]; [done|]. rewrite app_cons_string. simpl.
  by rewrite IH, orb_assoc.
Qed.

Lemma characters_close n text parts rest :
  contains_nul text = false →
  gives (characters n text parts (String QUOTE rest)) (flushed text parts) rest.
Proof.
  intros Hn. destruct n as [|n]; [done|]. cbn [characters].
  unfold mbind, P_bind, remaining, goto. simpl. right. by apply lit_part_flushed.
Qed.

Lemma quoted_goes n s : goes_on (quoted n (String QUOTE s)) (λ m, characters m "" [] s).
Proof.
  destruct n as [|n]; [by left|]. apply (goes_on_ret _ _ n). cbn [quoted].
  unfold mbind at 1, P_bind at 1. rewrite expect_reads by first [done|by rewrite starts_with_one]. by destruct s.
Qed.

(** Text in quotes. *)
Lemma quoted_text n text rest :
  contains_nul text = false →
  gives (quoted n (String QUOTE (escaped false text +:+ String QUOTE rest))) (flushed text []) rest.
Proof.
  intros Hn. eapply gives_goes_on; [apply quoted_goes|]. intros m.
  eapply gives_goes_on.
  - apply (characters_escaped (String.length text) false); [done|by exists rest].
  - intros m'. by apply characters_close.
Qed.

(** ** Keys *)

Lemma quote_opener : opener QUOTE = true.
Proof. done. Qed.

Lemma key_begins k : key_ok k = true → begins (write_key k).
Proof.
  intros [_ Hb]%andb_true_iff. apply Bool.eqb_prop in Hb. unfold write_key.
  destruct (bare k); [by apply identifier_begins|]. eexists _, _. split; [done|by left].
Qed.

Lemma key_reads n k rest : key_ok k = true → bound rest → gives (key n (write_key k +:+ rest)) k rest.
Proof.
  intros Hk Hrest. destruct n as [|n]; [done|]. cbn [key].
  unfold skip_trivia, mbind, P_bind, remaining, goto. simpl.
  destruct (begins_solid _ (begins_app _ rest (key_begins k Hk))) as (-> & _).
  pose proof Hk as [Hn Hb]%andb_true_iff. apply negb_true_iff in Hn. apply Bool.eqb_prop in Hb.
  unfold write_key. destruct k as [text bare]; simpl in *. subst bare.
  destruct (is_identifier text) eqn:Hid.
  - right. assert (Hbare : bare_key (text +:+ rest) = Some (Ok (mkKey text true, rest))).
    { unfold bare_key, mbind, P_bind. rewrite identifier_reads by done. simpl.
      unfold key_new. by rewrite Hid, Hn. }
    destruct (identifier_cases _ Hid) as (c & s & -> & Hc & _). rewrite app_cons_string in Hbare |- *.
    destruct (Ascii.eqb_spec c QUOTE) as [->|]; [done|exact Hbare].
  - rewrite write_escaped_plain, !app_assoc_string.
    change (one QUOTE +:+ escaped false text +:+ one QUOTE +:+ rest)
      with (String QUOTE (escaped false text +:+ String QUOTE rest)).
    cbv iota. change (Ascii.eqb QUOTE QUOTE) with true. cbv iota.
    destruct (quoted_text n text rest Hn) as [Hq|Hq]; rewrite Hq; [by left|right]. simpl.
    unfold flushed. case_decide as Ht; [by subst text|]. unfold quoted_key, normalize_parts. simpl.
    rewrite decide_False by done. unfold key_new. by rewrite Hid, Hn.
Qed.

Lemma selectors_key n base keys k rest :
  key_ok k = true → bound rest →
  goes_on (selectors n base keys (("." +:+ write_key k) +:+ rest))
    (λ m, selectors m base (keys ++ [k]) rest).
Proof.
  intros Hk Hrest. destruct n as [|n]; [by left|]. rewrite app_assoc_string. cbn [selectors].
  unfold skip_trivia, mbind, P_bind, remaining, goto. simpl.
  destruct (begins_app _ rest (key_begins k Hk)) as (c & s & Hs & Hc). rewrite app_empty_string.
  assert (Hat : at_selection (String "." (write_key k +:+ rest)) = true).
  { rewrite Hs. destruct Hc as [Hc|[-> _]].
    - destruct (opener_solid c Hc) as (_ & _ & Hdot & _).
      assert (Ascii.eqb c "/" = false) as Hslash by (revert Hc; all_chars c; done).
      unfold at_selection, peek. simpl. destruct c as [[] [] [] [] [] [] [] []]; done.
    - exfalso. clear -Hk Hs. revert Hs. pose proof (key_begins k Hk) as Hb.
      apply andb_true_iff in Hk as [_ Hb']. apply Bool.eqb_prop in Hb'. unfold write_key.
      destruct (bare k); [|done]. symmetry in Hb'.
      destruct (identifier_cases _ Hb') as (a & w & -> & Ha & _). rewrite app_cons_string.
      intros [= -> _]. done. }
  simpl in Hat. rewrite Hat.
  destruct (key_reads n k rest Hk Hrest) as [Hn|Hn]; rewrite Hn; [by left|].
  by apply (goes_on_ret _ _ n).
Qed.

(** ** Readable expressions *)

(** What is printed of the expression is read back at every level. *)
Record readable (e : Expr) : Prop := {
  rd_begins d t : write_expr e d = Some t → begins t;
  rd_selects d t : is_operand e = true → write_expr e d = Some t →
    selects t (normalize e) (is_path e = true);
  rd_applies d t : is_lambda e = false → write_expr e d = Some t → applies t (normalize e);
  rd_set d t rest : is_lambda e = false → write_expr e d = Some t → no_colon rest →
    at_lambda (t +:+ rest) = false;
  rd_reads d t : write_expr e d = Some t → reads t (normalize e);
}.

Lemma is_path_normalize e : is_path (normalize e) = is_path e.
Proof. destruct e; try done. cbn [normalize]. by destruct (normalize e). Qed.

Lemma readable_applied e :
  is_lambda e = false →
  (∀ d t, write_expr e d = Some t → begins t) →
  (∀ d t, is_operand e = true → write_expr e d = Some t →
     selects t (normalize e) (is_path e = true)) →
  (∀ d t, write_expr e d = Some t → applies t (normalize e)) →
  (∀ d t rest, write_expr e d = Some t → no_colon rest → at_lambda (t +:+ rest) = false) →
  readable e.
Proof.
  intros Hl Hb Hs Ha Hset. split; [exact Hb|exact Hs|intros d t _; apply Ha|intros d t rest _; apply Hset|].
  intros d t Ht. apply applies_reads; [by eapply Ha|by eapply Hb|].
  intros rest Hrest. by eapply Hset.
Qed.

Lemma readable_operand e :
  is_operand e = true →
  (∀ d t, write_expr e d = Some t → begins t) →
  (∀ d t, write_expr e d = Some t → selects t (normalize e) (is_path e = true)) →
  (∀ d t rest, write_expr e d = Some t → no_colon rest → at_lambda (t +:+ rest) = false) →
  readable e.
Proof.
  intros Ho Hb Hs Hset. apply readable_applied; [by destruct e|done|by eauto| |done].
  intros d t Ht. apply selects_applies. rewrite is_path_normalize. by eapply Hs.
Qed.

Lemma at_lambda_other c s : Ascii.eqb c "{" = false → at_lambda (String c s) = false.
Proof. intros Hc. cbn [at_lambda]. by rewrite Hc. Qed.

Lemma readable_simple e :
  is_operand e = true → sel_keys (normalize e) = [] →
  (∀ d t, write_expr e d = Some t →
     begins t ∧ simply t (normalize e) (is_path e = true) ∧
     ∀ rest, no_colon rest → at_lambda (t +:+ rest) = false) →
  readable e.
Proof.
  intros Ho Hk H. apply readable_operand; [done|..].
  - intros d t Ht. by apply (H d t).
  - intros d t Ht. apply simply_selects; [by apply (H d t)|done].
  - intros d t rest Ht. by apply (H d t).
Qed.

(** *** Parentheses *)

Lemma parenthesized_text w d t :
  parenthesized w d = Some t ↔ ∃ t', w d = Some t' ∧ t = "(" +:+ t' +:+ ")".
Proof.
  unfold parenthesized. rewrite in_turn_cons. split.
  - intros (x & y & Hx%push_str_Some & (t' & z & Ht & Hz & ->)%in_turn_cons & ->).
    apply in_turn_cons in Hz as (a & b & Ha%push_str_Some & Hb%in_turn_nil & ->). subst.
    exists t'. done.
  - intros (t' & Ht & ->). exists "(", (t' +:+ ")"). split; [done|]. split; [|done].
    apply in_turn_cons. exists t', ")". by rewrite Ht.
Qed.

Lemma paren_begins t : begins ("(" +:+ t +:+ ")").
Proof. eexists _, _. split; [done|by left]. Qed.

Lemma operand_selects e d t :
  readable e → write_operand e d = Some t →
  begins t ∧ selects t (normalize e) (is_path e = true) ∧
  (is_operand e = false → at_lambda t = false).
Proof.
  intros Hr. unfold write_operand, or_paren. destruct (is_operand e) eqn:Ho.
  - intros Ht. split; [by eapply rd_begins|]. split; [by eapply rd_selects|done].
  - intros (t' & Ht & ->)%parenthesized_text. split; [apply paren_begins|]. split; [|done].
    apply paren_selects; [by eapply rd_reads|]. by destruct e.
Qed.

(** *** Strings with interpolations *)

Definition calls_of (parts : list (StrPart Expr)) : list StrCall :=
  map (λ part, match part with
               | Part_Lit text => Call_Lit text
               | Part_Interp inner => Call_Interp (write_expr inner)
               end) parts.

Lemma parts_split (parts : list (StrPart Expr)) :
  ∃ lits tail, parts = (Part_Lit <$> lits) ++ tail ∧
    (tail = [] ∨ ∃ inner more, tail = Part_Interp inner :: more).
Proof.
  induction parts as [|[text|inner] parts (lits & tail & -> & Ht)].
  - exists [], []. auto.
  - exists (text :: lits), tail. auto.
  - exists [], (Part_Interp inner :: (Part_Lit <$> lits) ++ tail). eauto 10.
Qed.

(** The parts end with an interpolation, if there are any. *)
Definition closed (parts : list (StrPart Expr)) : Prop :=
  parts = [] ∨ ∃ before inner, parts = before ++ [Part_Interp inner].

Lemma push_part_snoc (parts : list (StrPart Expr)) previous text :
  push_part (parts ++ [Part_Lit previous]) text = parts ++ [Part_Lit (previous +:+ text)].
Proof.
  induction parts as [|part parts IH]; [done|]. cbn [app push_part]. rewrite IH.
  destruct part, parts; done.
Qed.

Lemma push_part_closed parts text : closed parts → push_part parts text = parts ++ [Part_Lit text].
Proof.
  intros [->|(before & inner & ->)]; [done|]. induction before as [|part before IH]; [done|].
  cbn [app push_part]. rewrite IH. destruct part, before; done.
Qed.

Lemma normalize_lits lits text parts :
  closed parts →
  fold_left (normalize_part normalize) (Part_Lit <$> lits) (flushed text parts) =
  flushed (text +:+ joined lits) parts.
Proof.
  intros Hc. revert text. induction lits as [|l lits IH]; intros text.
  { cbn. by rewrite app_nil_string. }
  cbn [fmap list_fmap fold_left joined foldr]. fold (joined lits). fold (Part_Lit (E := Expr) <$> lits).
  rewrite <- app_assoc_string, <- IH. f_equal. unfold normalize_part, flushed.
  destruct (decide (l = "")) as [->|Hl].
  { by rewrite app_nil_string. }
  rewrite (decide_False (P := text +:+ l = "")).
  2:{ intros He. apply (f_equal String.length) in He. rewrite length_app_string in He.
      destruct l; [done|]. simpl in He. lia. }
  case_decide as Ht; [subst text; by rewrite push_part_closed|by rewrite push_part_snoc].
Qed.

Lemma contains_nul_joined lits :
  (∀ l, l ∈ lits → contains_nul l = false) → contains_nul (joined lits) = false.
Proof.
  induction lits as [|l lits IH]; intros Hl; [done|]. cbn [joined foldr].
  rewrite contains_nul_app, Hl by left. apply IH. intros x Hx. apply Hl. by right.
Qed.

Lemma calls_of_lits lits tail : calls_of ((Part_Lit <$> lits) ++ tail) = (Call_Lit <$> lits) ++ calls_of tail.
Proof.
  induction lits as [|l lits IH]; [done|].
  change (calls_of ((Part_Lit <$> l :: lits) ++ tail))
    with (Call_Lit l :: calls_of ((Part_Lit <$> lits) ++ tail)). by rewrite IH.
Qed.

(** An interpolation, where the text before it was read. *)
Lemma characters_interp n text parts inner t s x rest :
  contains_nul text = false → reads t inner →
  (∀ m, gives (characters m "" (flushed text parts ++ [Part_Interp inner]) s) x rest) →
  gives (characters n text parts ("${" +:+ t +:+ String "}" s)) x rest.
Proof.
  intros Hnul Hr Hs. destruct n as [|n]; [done|].
  rewrite app_cons_string. cbn [characters]. unfold mbind, P_bind, remaining, goto. simpl.
  rewrite lit_part_flushed by done. rewrite app_empty_string. simpl.
  assert (Hclose : after_expr (String "}" s)) by (apply after_closing; auto).
  destruct (Hr n _ Hclose) as [Hn|Hn]; rewrite Hn; [by left|]. simpl.
  change (String "}" "") with (one "}"). rewrite expect_close by auto. apply Hs.
Qed.

Lemma parts_read k parts n d ps t rest :
  (length parts ≤ k)%nat →
  (∀ inner, Part_Interp inner ∈ parts → readable inner) →
  (∀ l, Part_Lit l ∈ parts → contains_nul l = false) →
  closed ps →
  str_calls false (calls_of parts) d = Some t →
  gives (characters n "" ps (t +:+ String QUOTE rest))
    (fold_left (normalize_part normalize) parts ps) rest.
Proof.
  revert parts n ps t. induction k as [|k IH]; intros parts n ps t Hk Hr Hl Hc Ht.
  { destruct parts; [|simpl in Hk; lia]. injection Ht as <-. rewrite app_empty_string.
    by apply (characters_close n ""). }
  destruct (parts_split parts) as (lits & tail & -> & Htail).
  rewrite calls_of_lits in Ht.
  assert (Hlits : contains_nul (joined lits) = false).
  { apply contains_nul_joined. intros l Hin. apply Hl, elem_of_app. left.
    apply list_elem_of_fmap. eauto. }
  apply str_calls_text in Ht as (t' & Ht' & ->); [|by destruct Htail as [->|(? & ? & ->)]].
  cbn [waiting]. rewrite app_empty_string, app_assoc_string, fold_left_app.
  pose proof (normalize_lits lits "" ps Hc) as Hfold.
  change (flushed "" ps) with ps in Hfold. rewrite Hfold, app_empty_string.
  destruct Htail as [->|(inner & more & ->)].
  - injection Ht' as <-. rewrite app_empty_string. eapply gives_goes_on.
    { apply (characters_escaped (String.length (joined lits)) false); [done|by exists rest]. }
    intros m. by apply characters_close.
  - apply in_turn_cons in Ht' as (x1 & y1 & Hx1%push_str_Some & Hy1 & ->).
    apply in_turn_cons in Hy1 as (x2 & y2 & Hx2%push_str_Some & Hy2 & ->).
    apply in_turn_cons in Hy2 as (te & y3 & Hte & Hy3 & ->).
    apply in_turn_cons in Hy3 as (x4 & y4 & Hx4%push_str_Some & Hy4 & ->).
    apply in_turn_cons in Hy4 as (t2 & y5 & Ht2 & Hy5%in_turn_nil & ->). subst.
    rewrite app_empty_string, !app_assoc_string, app_empty_string.
    eapply gives_goes_on.
    { apply (characters_escaped (String.length (joined lits)) true); [done|]. by eexists. }
    intros m. rewrite app_empty_string. cbn [fold_left normalize_part].
    apply (characters_interp _ _ _ (normalize inner)); [done| |].
    { eapply rd_reads; [|exact Hte]. apply Hr, elem_of_app. right. left. }
    intros m'. eapply IH; [| | | |exact Ht2].
    + rewrite length_app in Hk. simpl in Hk. lia.
    + intros e He. apply Hr, elem_of_app. right. by right.
    + intros l He. apply Hl, elem_of_app. right. by right.
    + right. eauto.
Qed.

(** *** Each constructor *)

Lemma readable_str parts :
  (∀ inner, Part_Interp inner ∈ parts → well_formed inner = true → readable inner) →
  well_formed (Expr_Str parts) = true → readable (Expr_Str parts).
Proof.
  intros IH Hwf. cbn [well_formed] in Hwf. rewrite forallb_elem in Hwf.
  apply readable_simple; [done|done|]. intros d t Ht. cbn [write_expr] in Ht.
  unfold write_string in Ht. fold (calls_of parts) in Ht.
  apply in_turn_cons in Ht as (x1 & y1 & Hx1%push_str_Some & Hy1 & ->).
  apply in_turn_cons in Hy1 as (ts & y2 & Hts & Hy2 & ->).
  apply in_turn_cons in Hy2 as (x3 & y3 & Hx3%push_str_Some & Hy3%in_turn_nil & ->). subst.
  split; [by eexists _, _; split; [|left]|]. split; [|intros rest _; by apply at_lambda_other].
  intros n rest _ _. destruct n as [|n]; [done|]. cbn [simple].
  rewrite !app_assoc_string, app_empty_string.
  change (one QUOTE +:+ ts +:+ one QUOTE +:+ rest) with (String QUOTE (ts +:+ String QUOTE rest)).
  unfold skip_trivia. unfold mbind at 1 2, P_bind at 1 2. unfold remaining, goto.
  change (trivia false (String QUOTE (ts +:+ String QUOTE rest)))
    with (String QUOTE (ts +:+ String QUOTE rest)).
  assert (Hq : gives (quoted n (String QUOTE (ts +:+ String QUOTE rest)))
    (normalize_parts normalize parts) rest).
  { eapply gives_goes_on; [apply quoted_goes|]. intros m.
    apply (parts_read (length parts) parts m d); [done|..|by left|done].
    - intros inner Hin. apply IH; [done|]. exact (Hwf _ Hin).
    - intros l Hin. specialize (Hwf _ Hin). by apply negb_true_iff in Hwf. }
  simpl. destruct Hq as [Hq|Hq]; unfold mbind, P_bind; rewrite Hq; [by left|]. by right.
Qed.

Lemma readable_bool b : readable (Expr_Bool b).
Proof.
  apply readable_simple; [done|done|]. intros d t. cbn [write_expr]. unfold write_bool.
  intros ->%push_str_Some. split; [by destruct b; (eexists _, _; split; [|left])|].
  split; [|intros rest _; destruct b; by apply at_lambda_other].
  intros n rest Hb _. destruct n as [|n]; [done|]. right.
  pose proof (bool_reads b rest Hb) as Hv. cbn [simple]. unfold skip_trivia, mbind, P_bind, remaining, goto.
  destruct b; exact Hv.
Qed.

Lemma variable_simple n x rest e :
  is_identifier x = true → variable (x +:+ rest) = Some (Ok (e, rest)) →
  gives (simple n (x +:+ rest)) e rest.
Proof.
  intros Hx Hv. destruct n as [|n]; [done|]. right. cbn [simple].
  unfold skip_trivia, mbind, P_bind, remaining, goto. simpl.
  destruct (begins_solid _ (begins_app _ rest (identifier_begins x Hx))) as (-> & _).
  destruct (identifier_cases _ Hx) as (c & s & -> & Hc & _). rewrite app_cons_string in Hv |- *.
  destruct c as [[] [] [] [] [] [] [] []]; first [discriminate Hc|exact Hv].
Qed.

Lemma readable_var x : well_formed (Expr_Var x) = true → readable (Expr_Var x).
Proof.
  cbn [well_formed]. intros Hx. pose proof Hx as [[Hid _]%andb_true_iff _]%andb_true_iff.
  apply readable_simple; [done|done|]. intros d t. cbn [write_expr]. intros ->%push_str_Some.
  split; [by apply identifier_begins|]. split.
  - intros n rest Hb _. by apply variable_simple, variable_reads.
  - intros rest _. destruct (identifier_cases _ Hid) as (c & s & -> & Hc & _).
    rewrite app_cons_string. apply at_lambda_other. revert Hc. by all_chars c.
Qed.

Lemma string_all_impl f g s :
  (∀ c, f c = true → g c = true) → string_all f s = true → string_all g s = true.
Proof.
  intros Hfg. induction s as [|c s IH]; [done|]. rewrite !string_all_cons.
  intros [Hc Hs]%andb_true_iff. by rewrite (Hfg _ Hc), IH.
Qed.

Lemma rel_path_byte_path c : rel_path_byte c = true → path_byte c = true.
Proof. by all_chars c. Qed.

Lemma readable_path p : well_formed (Expr_Path p) = true → readable (Expr_Path p).
Proof.
  cbn [well_formed]. intros Hp. apply readable_simple; [done|done|]. intros d t.
  cbn [write_expr]. unfold write_path. intros ->%push_str_Some.
  split; [eexists _, _; split; [done|right]; split; [done|by eexists]|].
  split; [|intros rest _; by apply at_lambda_other].
  intros n rest _ Ht. specialize (Ht eq_refl). destruct n as [|n]; [done|]. right.
  rewrite app_assoc_string. cbn [simple]. unfold skip_trivia, mbind, P_bind, remaining, goto.
  change ("./" +:+ p +:+ rest) with (String "." (String "/" (p +:+ rest))). simpl.
  unfold starts_with. simpl.
  destruct (p +:+ rest) as [|c s] eqn:Hs; simpl; rewrite <- ?Hs.
  { by destruct p. }
  unfold rel_path, mbind, P_bind, remaining, goto. simpl. clear Hs.
  pose proof Hp as Hall. unfold is_rel_path in Hall. destruct p as [|a p]; [done|].
  apply andb_true_iff in Hall as [_ Hall].
  rewrite split_while_all by first [exact (string_all_impl _ _ _ rel_path_byte_path Hall)|done].
  unfold rel_path_new. by rewrite Hp.
Qed.

(** *** Lists *)

Lemma trivia_indent d s : trivia false (indent d +:+ s) = trivia false s.
Proof.
  induction d as [|d IH]; [done|]. cbn [indent]. by rewrite app_assoc_string.
Qed.

Lemma items_trivia n found s : items n found (trivia false s) = items n found s.
Proof.
  destruct n as [|n]; [done|]. cbn [items]. unfold skip_trivia, mbind, P_bind, remaining, goto. simpl.
  by rewrite trivia_idem.
Qed.

Lemma items_item n found s :
  begins s → items (S n) found s = (item ← selection n; items n (found ++ [item])) s.
Proof.
  intros Hs. cbn [items]. unfold skip_trivia, mbind, P_bind, remaining, goto. simpl.
  destruct (begins_solid _ Hs) as (-> & _). destruct Hs as (c & s' & -> & [Hc|[-> _]]); [|done].
  apply opener_solid in Hc as (_ & _ & _ & _ & Hc & _).
  destruct c as [[] [] [] [] [] [] [] []]; first [discriminate Hc|done].
Qed.

Lemma items_close n found d rest :
  gives (items n found (indent d +:+ "]" +:+ rest)) (Expr_List found) rest.
Proof.
  rewrite <- items_trivia, trivia_indent. change (trivia false ("]" +:+ rest)) with ("]" +:+ rest).
  destruct n as [|n]; [done|]. right. cbn [items]. by destruct rest.
Qed.

Lemma write_items_cons opened w ws d t :
  write_items opened (w :: ws) d = Some t →
  ∃ ti t', w (S d) = Some ti ∧ write_items true ws d = Some t' ∧
    t = (if opened then "" else "[" +:+ newline) +:+ indent (S d) +:+ ti +:+ newline +:+ t'.
Proof.
  cbn [write_items]. intros (x1 & y1 & Hx1%push_str_Some & Hy1 & ->)%in_turn_cons.
  apply in_turn_cons in Hy1 as (x2 & y2 & Hx2 & Hy2 & ->).
  apply in_turn_cons in Hy2 as (t' & y3 & Ht' & Hy3%in_turn_nil & ->).
  apply in_turn_cons in Hx2 as (x4 & y4 & Hx4%push_str_Some & Hy4 & ->).
  apply in_turn_cons in Hy4 as (ti & y5 & Hti & Hy5 & ->).
  apply in_turn_cons in Hy5 as (x6 & y6 & Hx6%push_str_Some & Hy6%in_turn_nil & ->). subst.
  exists ti, t'. split; [done|]. split; [done|]. by rewrite !app_assoc_string, app_nil_string, app_empty_string.
Qed.

Lemma newline_after_operand s :
  at_selection (trivia false s) = false → after_operand (newline +:+ s).
Proof. intros Hs. split; [done|]. split; [done|]. exact Hs. Qed.

Lemma items_read es n found d t rest :
  (∀ e, e ∈ es → readable e) →
  write_items true (map write_operand es) d = Some t →
  at_selection (trivia false (t +:+ indent d +:+ "]" +:+ rest)) = false ∧
  gives (items n found (t +:+ indent d +:+ "]" +:+ rest)) (Expr_List (found ++ map normalize es)) rest.
Proof.
  revert n found t. induction es as [|e es IH]; intros n found t Hr Ht.
  { injection Ht as <-. rewrite app_empty_string, app_nil_r. split; [|by apply items_close].
    by rewrite trivia_indent. }
  apply write_items_cons in Ht as (ti & t' & Hti & Ht' & ->).
  rewrite app_empty_string, !app_assoc_string.
  apply operand_selects in Hti as (Hb & Hs & _); [|apply Hr; left].
  assert (Hr' : ∀ e', e' ∈ es → readable e') by (intros e' He'; apply Hr; by right).
  set (s := newline +:+ t' +:+ indent d +:+ "]" +:+ rest).
  pose proof (begins_app _ s Hb) as Hbs. pose proof (begins_solid _ Hbs) as (Hsolid & _ & _ & Hat).
  split; [by rewrite trivia_indent, Hsolid|].
  rewrite <- items_trivia, trivia_indent, Hsolid. destruct n as [|n]; [done|].
  rewrite items_item by done.
  eapply gives_bind.
  { rewrite <- is_path_normalize in Hs. apply (selects_operand _ _ _ _ Hs).
    apply newline_after_operand. by apply (IH n found). }
  destruct (IH n (found ++ [normalize e]) t' Hr' Ht') as [_ Hg]. rewrite <- app_assoc in Hg.
  rewrite <- items_trivia in Hg. rewrite items_trivia. unfold s. rewrite <- items_trivia. exact Hg.
Qed.

Lemma readable_list es :
  (∀ e, e ∈ es → readable e) → readable (Expr_List es).
Proof.
  intros Hr. apply readable_simple; [done|done|]. intros d t. cbn [write_expr].
  fold write_operand. change (λ e, or_paren (is_operand e) (write_expr e)) with write_operand.
  destruct es as [|e es].
  - cbn [map write_list]. intros ->%push_str_Some. split; [by eexists _, _; split; [|left]|].
    split; [|intros rest _; by apply at_lambda_other].
    intros n rest _ _. destruct n as [|n]; [done|].
    change (gives (items n [] (" ]" +:+ rest)) (Expr_List []) rest).
    pose proof (items_close n [] 0 rest) as Hi. rewrite <- items_trivia in Hi |- *. exact Hi.
  - cbn [map write_list]. intros (x1 & y1 & Hx1 & Hy1 & ->)%in_turn_cons.
    apply in_turn_cons in Hy1 as (x2 & y2 & Hx2%push_str_Some & Hy2 & ->).
    apply in_turn_cons in Hy2 as (x3 & y3 & Hx3%push_str_Some & Hy3%in_turn_nil & ->). subst.
    apply write_items_cons in Hx1 as (ti & t' & Hti & Ht' & ->).
    split; [by eexists _, _; split; [|left]|]. split; [|intros rest _; by apply at_lambda_other].
    intros n rest _ _. destruct n as [|n]; [done|]. rewrite !app_assoc_string, app_empty_string.
    change (simple (S n) ("[" +:+ newline +:+ ?s)) with (items n [] (newline +:+ s)).
    rewrite <- items_trivia. change (trivia false (newline +:+ ?x)) with (trivia false x).
    rewrite items_trivia.
    assert (Hw : write_items true (map write_operand (e :: es)) d =
      Some (indent (S d) +:+ ti +:+ newline +:+ t')).
    { cbn [map write_items]. apply in_turn_cons. eexists "", _. split; [done|]. split; [|done].
      apply in_turn_cons. eexists (indent (S d) +:+ ti +:+ newline), t'.
      split; [|split; [|by rewrite !app_assoc_string]].
      - apply in_turn_cons. eexists _, (ti +:+ newline). split; [done|]. split; [|done].
        apply in_turn_cons. exists ti, newline. done.
      - apply in_turn_cons. exists t', "". split; [done|]. by rewrite app_nil_string. }
    destruct (items_read (e :: es) n [] d _ rest Hr Hw) as [_ Hi].
    by rewrite !app_assoc_string in Hi.
Qed.
