(* ===== verification/NixReadBack.v ===== *)
(** * What is printed is read back

    Attribute sets, selections, applications and functions, and with them every well-formed
    expression: it is printed, and parsing the text gives its normal form. *)
From S2P Require Import Prelude.
From S2P Require Import Pins.
From S2P Require Import Nix.
From S2P Require Import NixParse.
From S2P Require Import NixReads.
From S2P Require Import NixText.
From S2P Require Import NixOrder.
From S2P Require Import NixRound.

Local Open Scope nat_scope.

(** ** Attribute sets *)

Lemma entries_trivia n found s : entries n found (trivia false s) = entries n found s.
Proof.
  destruct n as [|n]; [done|]. cbn [entries]. unfold skip_trivia, mbind, P_bind, remaining, goto. simpl.
  by rewrite trivia_idem.
Qed.

Lemma entries_entry n found s :
  begins s →
  entries (S n) found s =
  (k ← key n; _ ← expect "="; value ← expr n; _ ← expect ";";
   match attr_insert k value found with
   | (Some _, _) => parse_error "attribute already defined"
   | (None, found) => entries n found
   end) s.
Proof.
  intros Hs. cbn [entries]. unfold skip_trivia, mbind, P_bind, remaining, goto. simpl.
  destruct (begins_solid _ Hs) as (-> & _). destruct Hs as (c & s' & -> & [Hc|[-> _]]); [|done].
  apply opener_solid in Hc as (_ & _ & _ & _ & _ & Hc).
  destruct c as [[] [] [] [] [] [] [] []]; first [discriminate Hc|done].
Qed.

Lemma entries_close n found d rest :
  gives (entries n found (indent d +:+ "}" +:+ rest)) (Expr_Attrs found) rest.
Proof.
  rewrite <- entries_trivia, trivia_indent. change (trivia false ("}" +:+ rest)) with ("}" +:+ rest).
  destruct n as [|n]; [done|]. right. cbn [entries]. by destruct rest.
Qed.

Lemma write_entries_cons last k w ws d t :
  write_entries last ((k, w) :: ws) d = Some t →
  ∃ tv t', w (S d) = Some tv ∧ write_entries (Some k) ws d = Some t' ∧
    t = (match last with Some _ => "" | None => "{" +:+ newline end) +:+
        indent (S d) +:+ write_key k +:+ " = " +:+ tv +:+ ";" +:+ newline +:+ t'.
Proof.
  cbn [write_entries]. destruct (match last with Some last => key_lt last k | None => true end); [|done].
  intros (x1 & y1 & Hx1%push_str_Some & Hy1 & ->)%in_turn_cons.
  apply in_turn_cons in Hy1 as (x2 & y2 & Hx2 & Hy2 & ->).
  apply in_turn_cons in Hy2 as (t' & y3 & Ht' & Hy3%in_turn_nil & ->).
  apply in_turn_cons in Hx2 as (x4 & y4 & Hx4%push_str_Some & Hy4 & ->).
  apply in_turn_cons in Hy4 as (x5 & y5 & Hx5%push_str_Some & Hy5 & ->).
  apply in_turn_cons in Hy5 as (x6 & y6 & Hx6%push_str_Some & Hy6 & ->).
  apply in_turn_cons in Hy6 as (tv & y7 & Htv & Hy7 & ->).
  apply in_turn_cons in Hy7 as (x8 & y8 & Hx8%push_str_Some & Hy8%in_turn_nil & ->). subst.
  exists tv, t'. split; [done|]. split; [done|].
  by rewrite !app_assoc_string, app_nil_string, app_empty_string.
Qed.

Definition entry_writers (es : list (Key * Expr)) : list (Key * Writer) :=
  map (λ entry, (entry.1, write_expr entry.2)) es.
Definition normal_entries (es : list (Key * Expr)) : list (Key * Expr) :=
  map (λ entry, (entry.1, normalize entry.2)) es.

Lemma normal_entries_keys es : map fst (normal_entries es) = map fst es.
Proof. unfold normal_entries. rewrite map_map. by apply map_ext. Qed.

(** One entry. *)
Lemma entry_reads n found k v d tv s rest x :
  key_ok k = true → readable v → write_expr v d = Some tv →
  attr_insert k (normalize v) found = (None, found ++ [(k, normalize v)]) →
  (∀ m, gives (entries m (found ++ [(k, normalize v)]) s) x rest) →
  gives (entries n found (write_key k +:+ " = " +:+ tv +:+ ";" +:+ s)) x rest.
Proof.
  intros Hk Hr Htv Hins Hs. destruct n as [|n]; [by left|].
  rewrite entries_entry by by apply begins_app, key_begins.
  eapply gives_bind; [by apply key_reads|].
  eapply gives_bind; [right; reflexivity|].
  destruct n as [|n]; [by left|].
  assert (Hclose : after_expr (String ";" s)) by (apply after_closing; auto).
  eapply gives_bind; [exact (rd_reads _ Hr _ _ Htv (S n) _ Hclose)|].
  eapply gives_bind; [right; by apply (expect_close ";"%char); auto|]. rewrite Hins. apply Hs.
Qed.

Lemma entries_read es n found last d t rest :
  (∀ k v, (k, v) ∈ es → key_ok k = true ∧ readable v) →
  increasing key_lt (map fst (found ++ es)) = true →
  write_entries (Some last) (entry_writers es) d = Some t →
  gives (entries n found (t +:+ indent d +:+ "}" +:+ rest))
    (Expr_Attrs (found ++ normal_entries es)) rest.
Proof.
  revert n found last t. induction es as [|[k v] es IH]; intros n found last t Hr Hi Ht.
  { injection Ht as <-. rewrite app_empty_string, app_nil_r. apply entries_close. }
  apply write_entries_cons in Ht as (tv & t' & Htv & Ht' & ->).
  rewrite app_empty_string, !app_assoc_string. destruct (Hr k v) as [Hk Hv]; [left|].
  rewrite <- entries_trivia, trivia_indent, entries_trivia.
  eapply entry_reads; [done|done|done|..].
  - apply attr_insert_last. intros y Hy. rewrite map_app in Hi. by eapply elem_increasing.
  - intros m. rewrite <- entries_trivia.
    change (trivia false (newline +:+ ?x)) with (trivia false x). rewrite entries_trivia.
    assert (Hnext : gives (entries m (found ++ [(k, normalize v)]) (t' +:+ indent d +:+ "}" +:+ rest))
      (Expr_Attrs ((found ++ [(k, normalize v)]) ++ normal_entries es)) rest).
    { eapply IH; [|..|exact Ht'].
      - intros k' v' Hin. apply Hr. by right.
      - rewrite map_app in Hi |- *. rewrite map_app, <- app_assoc. simpl. exact Hi. }
    by rewrite <- app_assoc in Hnext.
Qed.

(** The opening of a set is no opening of formals. *)
Lemma at_lambda_entry d k s :
  key_ok k = true → at_lambda ("{" +:+ newline +:+ indent (S d) +:+ write_key k +:+ " = " +:+ s) = false.
Proof.
  intros Hk. change ("{" +:+ newline +:+ ?x) with (String "{" (newline +:+ x)).
  cbn [at_lambda]. change (Ascii.eqb "{" "{") with true. cbn [andb].
  assert (Hskip : ∀ x, skip_space (newline +:+ x) = skip_space x) by done. rewrite Hskip. clear Hskip.
  assert (Hindent : ∀ d x, skip_space (indent d +:+ x) = skip_space x).
  { clear. intros d x. induction d as [|d IH]; [done|]. cbn [indent]. by rewrite app_assoc_string. }
  rewrite Hindent. clear Hindent.
  pose proof (begins_app _ (" = " +:+ s) (key_begins k Hk)) as Hb.
  destruct (begins_solid _ Hb) as (_ & -> & _).
  apply andb_true_iff in Hk as [_ Hbare]. apply Bool.eqb_prop in Hbare. unfold write_key.
  rewrite Hbare. destruct (is_identifier (key_text k)) eqn:Hid; [|by rewrite !app_assoc_string].
  rewrite split_identifier_all by done.
  destruct (identifier_cases _ Hid) as (c & w & -> & Hc & _). rewrite app_cons_string.
  destruct c as [[] [] [] [] [] [] [] []]; first [discriminate Hc|done].
Qed.

Lemma readable_attrs es :
  (∀ k v, (k, v) ∈ es → well_formed v = true → readable v) →
  well_formed (Expr_Attrs es) = true → readable (Expr_Attrs es).
Proof.
  intros IH Hwf. cbn [well_formed] in Hwf. apply andb_true_iff in Hwf as [Hi Hwf].
  rewrite forallb_elem in Hwf.
  assert (Hr : ∀ k v, (k, v) ∈ es → key_ok k = true ∧ readable v).
  { intros k v Hin. pose proof (Hwf _ Hin) as [Hk Hv]%andb_true_iff. split; [done|]. by eapply IH. }
  assert (Hnorm : normalize (Expr_Attrs es) = Expr_Attrs (normal_entries es)).
  { cbn [normalize]. fold (normal_entries es). rewrite attrs_from_id; [done|].
    by rewrite normal_entries_keys. }
  apply readable_simple; [done|done|]. intros d t. cbn [write_expr]. rewrite Hnorm. clear Hnorm IH.
  fold (entry_writers es). destruct es as [|[k v] es].
  - cbn [entry_writers map write_attrs]. intros ->%push_str_Some.
    split; [by eexists _, _; split; [|left]|]. split.
    + intros n rest _ _. destruct n as [|n]; [done|].
      change (gives (entries n [] (" }" +:+ rest)) (Expr_Attrs []) rest).
      pose proof (entries_close n [] 0 rest) as He. rewrite <- entries_trivia in He |- *. exact He.
    + intros rest Hrest. unfold no_colon in Hrest. cbn [at_lambda]. 
      change (at_lambda ("{ }" +:+ rest)) with
        (match skip_space rest with String ":" _ => true | _ => false end).
      destruct (skip_space rest) as [|c s]; [done|].
      destruct c as [[] [] [] [] [] [] [] []]; done.
  - cbn [entry_writers map write_attrs]. intros (x1 & y1 & Hx1 & Hy1 & ->)%in_turn_cons.
    apply in_turn_cons in Hy1 as (x2 & y2 & Hx2%push_str_Some & Hy2 & ->).
    apply in_turn_cons in Hy2 as (x3 & y3 & Hx3%push_str_Some & Hy3%in_turn_nil & ->). subst.
    apply write_entries_cons in Hx1 as (tv & t' & Htv & Ht' & ->). simpl in Htv, Ht'.
    destruct (Hr k v) as [Hk Hv]; [left|].
    split; [by eexists _, _; split; [|left]|]. rewrite !app_assoc_string. split.
    + intros n rest _ _. destruct n as [|n]; [done|]. rewrite !app_assoc_string, app_empty_string.
      change (simple (S n) ("{" +:+ newline +:+ ?s)) with (entries n [] (newline +:+ s)).
      rewrite <- entries_trivia. change (trivia false (newline +:+ ?x)) with (trivia false x).
      rewrite trivia_indent, entries_trivia.
      apply (entry_reads n [] k v (S d) tv (newline +:+ t' +:+ indent d +:+ "}" +:+ rest)); [done..|].
      intros m. rewrite <- entries_trivia.
      change (trivia false (newline +:+ ?x)) with (trivia false x). rewrite entries_trivia.
      apply (entries_read es m [(k, normalize v)] k d); [|exact Hi|exact Ht'].
      intros k' v' Hin. apply Hr. by right.
    + intros rest _. rewrite !app_assoc_string. by apply at_lambda_entry.
Qed.

(** ** Selections *)

Lemma write_keys_text keys d t :
  write_keys keys d = Some t → t = foldr (λ k s, ("." +:+ write_key k) +:+ s) "" keys.
Proof.
  revert t. induction keys as [|k keys IH]; intros t; [by intros [= <-]|].
  cbn [foldr]. intros (x & y & Hx%push_str_Some & Hy & ->)%in_turn_cons.
  by rewrite <- (IH y), Hx.
Qed.

Lemma keys_bound keys d t rest : write_keys keys d = Some t → bound rest → bound (t +:+ rest).
Proof. intros ->%write_keys_text Hr. by destruct keys. Qed.

Lemma selectors_keys keys n base found d t rest :
  forallb key_ok keys = true → bound rest → write_keys keys d = Some t →
  goes_on (selectors n base found (t +:+ rest)) (λ m, selectors m base (found ++ keys) rest).
Proof.
  intros Hk Hb. revert n found t. induction keys as [|k keys IH]; intros n found t.
  - intros [= <-]. apply (goes_on_ret _ _ n). by rewrite app_nil_r, app_empty_string.
  - intros (x & y & Hx%push_str_Some & Hy & ->)%in_turn_cons. subst x.
    simpl in Hk. apply andb_true_iff in Hk as [Hk1 Hk].
    rewrite app_assoc_string. eapply goes_on_trans.
    + apply selectors_key; [done|]. by eapply keys_bound.
    + intros m. pose proof (IH Hk m (found ++ [k]) y Hy) as Hn. by rewrite <- app_assoc in Hn.
Qed.

Lemma readable_select base first rest :
  readable base → well_formed (Expr_Select base first rest) = true →
  readable (Expr_Select base first rest).
Proof.
  intros Hr Hwf. cbn [well_formed] in Hwf. apply andb_true_iff in Hwf as [_ Hkeys].
  set (w := if is_path base then parenthesized (write_expr base) else write_operand base).
  assert (Hbase : ∀ d t, w d = Some t → begins t ∧ selects t (normalize base) False ∧
    ∀ rest, no_colon rest → at_lambda (t +:+ rest) = false).
  { intros d t. unfold w. destruct (is_path base) eqn:Hp.
    - intros (t' & Ht & ->)%parenthesized_text. split; [apply paren_begins|]. split.
      + apply paren_selects; [by eapply rd_reads|by destruct base].
      + intros s _. by apply at_lambda_other.
    - intros Ht. pose proof (operand_selects _ _ _ Hr Ht) as (Hb & Hs & _). split; [done|]. split.
      + intros n s Hbs _. apply Hs; [done|]. by rewrite Hp.
      + intros s Hs'. unfold write_operand, or_paren in Ht. destruct (is_operand base) eqn:Ho.
        * eapply rd_set; [done| |done|done]. by destruct base.
        * apply parenthesized_text in Ht as (t' & _ & ->). by apply at_lambda_other. }
  assert (Htext : ∀ d t, write_expr (Expr_Select base first rest) d = Some t →
    ∃ tb tk, w d = Some tb ∧ write_keys (first :: rest) d = Some tk ∧ t = tb +:+ tk).
  { intros d t. cbn [write_expr]. fold write_operand.
    intros (tb & y & Htb & Hy & ->)%in_turn_cons.
    apply in_turn_cons in Hy as (tk & y2 & Htk & Hy2%in_turn_nil & ->). subst.
    exists tb, tk. by rewrite app_nil_string. }
  apply readable_operand; [done|..].
  - intros d t (tb & tk & Htb & _ & ->)%Htext. by apply begins_app, (Hbase d).
  - intros d t (tb & tk & Htb & Htk & ->)%Htext n s Hs _.
    apply Hbase in Htb as (_ & Hsel & _). rewrite app_assoc_string. eapply goes_on_trans.
    + apply Hsel; [by eapply keys_bound|done].
    + intros m. cbn [normalize].
      destruct (select_more_parts (normalize base) first rest) as [-> ->].
      by eapply selectors_keys.
  - intros d t s (tb & tk & Htb & Htk & ->)%Htext Hs. rewrite app_assoc_string.
    apply (Hbase d); [done|]. apply write_keys_text in Htk as ->. done.
Qed.

(** ** Applications *)

Lemma arguments_argument n f t e rest :
  begins t → selects t e (is_path e = true) → after_operand rest →
  goes_on (arguments n f (trivia false (" " +:+ t +:+ rest)))
    (λ m, arguments m (Expr_Apply f e) (trivia false rest)).
Proof.
  intros Hb Hs Hrest. pose proof (begins_solid _ (begins_app _ rest Hb)) as (Hsolid & _ & Hat & _).
  change (trivia false (" " +:+ t +:+ rest)) with (trivia false (t +:+ rest)). rewrite Hsolid.
  destruct n as [|n]; [by left|]. cbn [arguments].
  unfold skip_trivia, mbind, P_bind, remaining, goto. simpl. rewrite Hsolid, Hat. simpl.
  destruct (selects_operand _ _ n _ Hs Hrest) as [Hn|Hn]; rewrite Hn; [by left|].
  by apply (goes_on_ret _ _ n).
Qed.

Lemma readable_apply f a : readable f → readable a → readable (Expr_Apply f a).
Proof.
  intros Hf Ha. set (w := or_paren (negb (is_lambda f)) (write_expr f)).
  assert (Hfun : ∀ d t, w d = Some t → begins t ∧ applies t (normalize f) ∧
    ∀ rest, no_colon rest → at_lambda (t +:+ rest) = false).
  { intros d t. unfold w. destruct (is_lambda f) eqn:Hl.
    - intros (t' & Ht & ->)%parenthesized_text. split; [apply paren_begins|]. split.
      + apply selects_applies, paren_selects; [by eapply rd_reads|by destruct f].
      + intros s _. by apply at_lambda_other.
    - intros Ht. split; [exact (rd_begins _ Hf d t Ht)|]. split; [exact (rd_applies _ Hf d t Hl Ht)|].
      intros s. exact (rd_set _ Hf d t s Hl Ht). }
  assert (Htext : ∀ d t, write_expr (Expr_Apply f a) d = Some t →
    ∃ tf ta, w d = Some tf ∧ write_operand a d = Some ta ∧ t = tf +:+ " " +:+ ta).
  { intros d t. cbn [write_expr]. intros (tf & y & Htf & Hy & ->)%in_turn_cons.
    apply in_turn_cons in Hy as (x & y2 & Hx%push_str_Some & Hy2 & ->).
    apply in_turn_cons in Hy2 as (ta & y3 & Hta & Hy3%in_turn_nil & ->). subst.
    exists tf, ta. by rewrite app_nil_string. }
  apply readable_applied; [done|..].
  - intros d t (tf & ta & Htf & _ & ->)%Htext. by apply begins_app, (Hfun d).
  - done.
  - intros d t (tf & ta & Htf & Hta & ->)%Htext n rest Hrest.
    apply Hfun in Htf as (_ & Happ & _). apply operand_selects in Hta as (Hb & Hs & _); [|done].
    rewrite <- is_path_normalize in Hs. rewrite !app_assoc_string. eapply goes_on_trans.
    + apply Happ. split; [done|]. split; [done|].
      destruct (begins_solid _ (begins_app _ rest Hb)) as (H1 & _ & _ & H4).
      change (trivia false (" " +:+ ta +:+ rest)) with (trivia false (ta +:+ rest)). by rewrite H1.
    + intros m. cbn [normalize]. by apply arguments_argument.
  - intros d t s (tf & ta & Htf & Hta & ->)%Htext Hs. rewrite !app_assoc_string.
    apply (Hfun d); [done|]. apply operand_selects in Hta as (Hb & _); [|done].
    unfold no_colon. change (skip_space (" " +:+ ta +:+ s)) with (skip_space (ta +:+ s)).
    destruct (begins_solid _ (begins_app _ s Hb)) as (_ & -> & _).
    destruct Hb as (c & s' & -> & [Hc|[-> _]]); rewrite app_cons_string; [|done].
    apply opener_solid in Hc as (_ & _ & _ & Hc & _). by apply Ascii.eqb_neq.
Qed.

(** ** Functions *)

(** The rest of a turn of the loop of [lambda], after a formal. *)
Definition after_formal (n : nat) (formals : list string) : P (list string * bool) :=
  _ ← skip_trivia; s ← remaining;
  _ ← match s with String "," rest => goto rest | _ => mret tt end;
  lambda_formals n formals.

Lemma trivia_step {A} (f : string → P A) s :
  (_ ← skip_trivia; s ← remaining; f s) s = f (trivia false s) (trivia false s).
Proof. done. Qed.

Lemma lambda_formal n acc x s :
  is_identifier x = true → bound s → (∀ y, y ∈ acc → String.ltb y x = true) →
  lambda_formals (S n) acc (" " +:+ x +:+ s) = after_formal n (acc ++ [x]) s.
Proof.
  intros Hx Hs Hacc. cbn [lambda_formals]. rewrite trivia_step.
  change (trivia false (" " +:+ x +:+ s)) with (trivia false (x +:+ s)).
  pose proof (begins_app _ s (identifier_begins x Hx)) as Hb.
  destruct (begins_solid _ Hb) as (-> & _).
  assert (Hstep : (name ← identifier;
    if negb (is_identifier name) then parse_error "a keyword as a formal" else
    let '(new, formals) := set_insert name acc in
    if negb new then parse_error "duplicate formal function argument" else
    after_formal n formals) (x +:+ s) = after_formal n (acc ++ [x]) s).
  { unfold mbind, P_bind. rewrite identifier_reads by done. simpl.
    by rewrite Hx, (set_insert_last x acc Hacc). }
  rewrite <- Hstep. clear Hstep.
  destruct (identifier_cases _ Hx) as (c & w & -> & Hc & _). rewrite app_cons_string.
  destruct c as [[] [] [] [] [] [] [] []]; first [discriminate Hc|done].
Qed.

Definition formals_end (none ellipsis : bool) : string :=
  (if ellipsis then if none then " ..." else ", ..." else "") +:+
  (if none && negb ellipsis then "}: " else " }: ").

Lemma formals_end_read n acc ellipsis rest :
  gives (after_formal n acc (formals_end false ellipsis +:+ rest)) (acc, ellipsis) (": " +:+ rest).
Proof. destruct n as [|n]; [by left; destruct ellipsis|]. right. by destruct ellipsis, rest. Qed.

Lemma no_formals_read n ellipsis rest :
  gives (lambda_formals n [] (formals_end true ellipsis +:+ rest)) ([], ellipsis) (": " +:+ rest).
Proof. destruct n as [|n]; [done|]. right. by destruct ellipsis, rest. Qed.

Lemma write_formals_cons previous x xs d t :
  write_formals previous (x :: xs) d = Some t →
  ∃ t', write_formals (Some x) xs d = Some t' ∧
    t = (match previous with Some _ => "," | None => "" end) +:+ " " +:+ x +:+ t'.
Proof.
  cbn [write_formals]. destruct previous as [p|].
  - destruct (String.ltb p x); [|done].
    intros (a & y & Ha%push_str_Some & Hy & ->)%in_turn_cons. subst a.
    apply in_turn_cons in Hy as (t' & y2 & Ht' & Hy2%in_turn_nil & ->). subst.
    exists t'. by rewrite app_nil_string, app_assoc_string.
  - intros (a & y & Ha%push_str_Some & Hy & ->)%in_turn_cons. subst a.
    apply in_turn_cons in Hy as (t' & y2 & Ht' & Hy2%in_turn_nil & ->). subst.
    exists t'. by rewrite app_nil_string, app_assoc_string.
Qed.

Lemma formals_bound xs p d t ellipsis rest :
  write_formals (Some p) xs d = Some t → bound (t +:+ formals_end false ellipsis +:+ rest).
Proof.
  destruct xs as [|x xs]; [intros [= <-]; by destruct ellipsis|].
  by intros (t' & _ & ->)%write_formals_cons.
Qed.

Lemma formals_read xs n acc p d t ellipsis rest :
  forallb is_identifier xs = true → increasing String.ltb (acc ++ xs) = true →
  write_formals (Some p) xs d = Some t →
  gives (after_formal n acc (t +:+ formals_end false ellipsis +:+ rest))
    (acc ++ xs, ellipsis) (": " +:+ rest).
Proof.
  revert n acc p t. induction xs as [|x xs IH]; intros n acc p t Hid Hi.
  { intros [= <-]. rewrite app_nil_r, app_empty_string. apply formals_end_read. }
  intros (t' & Ht' & ->)%write_formals_cons. simpl in Hid. apply andb_true_iff in Hid as [Hx Hid].
  rewrite !app_assoc_string. set (s := t' +:+ formals_end false ellipsis +:+ rest).
  assert (Hcomma : after_formal n acc ("," +:+ " " +:+ x +:+ s) = lambda_formals n acc (" " +:+ x +:+ s))
    by done.
  rewrite Hcomma. destruct n as [|n]; [done|].
  rewrite lambda_formal; [|done|by eapply formals_bound|intros y Hy; by eapply elem_increasing].
  assert (Hn : gives (after_formal n (acc ++ [x]) s) ((acc ++ [x]) ++ xs, ellipsis) (": " +:+ rest)).
  { apply (IH n (acc ++ [x]) x t' Hid); [by rewrite <- app_assoc|done]. }
  by rewrite <- app_assoc in Hn.
Qed.

Lemma write_lambda_text formals ellipsis w d t :
  write_lambda formals ellipsis w d = Some t →
  ∃ tf tb, write_formals None formals d = Some tf ∧ w d = Some tb ∧
    t = "{" +:+ tf +:+ formals_end (bool_decide (formals = [])) ellipsis +:+ tb.
Proof.
  unfold write_lambda. intros (x1 & y1 & Hx1%push_str_Some & Hy1 & ->)%in_turn_cons.
  apply in_turn_cons in Hy1 as (tf & y2 & Htf & Hy2 & ->).
  apply in_turn_cons in Hy2 as (x3 & y3 & Hx3%push_str_Some & Hy3 & ->).
  apply in_turn_cons in Hy3 as (x4 & y4 & Hx4%push_str_Some & Hy4 & ->).
  apply in_turn_cons in Hy4 as (tb & y5 & Htb & Hy5%in_turn_nil & ->). subst.
  exists tf, tb. split; [done|]. split; [done|]. unfold formals_end.
  by rewrite app_nil_string, !app_assoc_string.
Qed.

(** A function is seen to be one, and its formals are read. *)
Lemma lambda_opens n formals ellipsis d tf rest :
  increasing String.ltb formals = true → forallb is_identifier formals = true →
  write_formals None formals d = Some tf →
  let s := tf +:+ formals_end (bool_decide (formals = [])) ellipsis +:+ rest in
  at_lambda ("{" +:+ s) = true ∧ gives (lambda_formals n [] s) (formals, ellipsis) (": " +:+ rest).
Proof.
  intros Hi Hid. destruct formals as [|x xs].
  { intros [= <-]. simpl. rewrite app_empty_string. split; [by destruct ellipsis, rest|].
    apply no_formals_read. }
  intros (t' & Ht' & ->)%write_formals_cons. rewrite bool_decide_false by done.
  simpl in Hid. apply andb_true_iff in Hid as [Hx Hid]. intros s. unfold s.
  rewrite app_empty_string, !app_assoc_string. set (s' := t' +:+ formals_end false ellipsis +:+ rest).
  assert (Hb : bound s') by by eapply formals_bound. split.
  - change ("{" +:+ ?x) with (String "{" x). cbn [at_lambda].
    change (Ascii.eqb "{" "{") with true. cbn [andb].
    change (skip_space (" " +:+ x +:+ s')) with (skip_space (x +:+ s')).
    destruct (begins_solid _ (begins_app _ s' (identifier_begins x Hx))) as (_ & -> & _).
    rewrite split_identifier_all by done.
    assert (Hnext : match skip_space s' with
      String (","%char | "}"%char) _ => true | _ => false end = true).
    { unfold s'. destruct xs as [|x2 xs]; [injection Ht' as <-; by destruct ellipsis|].
      by apply write_formals_cons in Ht' as (t2 & _ & ->). }
    destruct (identifier_cases _ Hx) as (c & w & -> & Hc & _). rewrite app_cons_string.
    destruct c as [[] [] [] [] [] [] [] []]; first [discriminate Hc|exact Hnext].
  - destruct n as [|n]; [done|]. rewrite lambda_formal; [|done..|by intros y ?%elem_of_nil].
    exact (formals_read xs n [x] x d t' ellipsis rest Hid Hi Ht').
Qed.

Lemma readable_lambda formals ellipsis body :
  readable body → well_formed (Expr_Lambda formals ellipsis body) = true →
  readable (Expr_Lambda formals ellipsis body).
Proof.
  intros Hr Hwf. cbn [well_formed] in Hwf.
  apply andb_true_iff in Hwf as [[Hi Hid]%andb_true_iff _].
  split; [|done..|].
  { intros d t. cbn [write_expr]. intros (tf & tb & _ & _ & ->)%write_lambda_text.
    by eexists _, _; split; [|left]. }
  intros d t. cbn [write_expr normalize]. intros (tf & tb & Htf & Htb & ->)%write_lambda_text n rest Hrest.
  rewrite !app_assoc_string.
  destruct (lambda_opens 0 formals ellipsis d tf (tb +:+ rest) Hi Hid Htf) as [Hat _].
  cbv zeta in Hat. set (s := tf +:+ _) in *.
  destruct n as [|n]; [done|]. cbn [expr]. rewrite trivia_step.
  change (trivia false ("{" +:+ s)) with ("{" +:+ s). rewrite Hat.
  destruct n as [|n]; [done|]. cbn [lambda].
  eapply gives_bind; [right; apply (expect_reads "{"); [done..|exact (starts_with_one "{" "{" _)]|].
  eapply gives_bind.
  { destruct (lambda_opens n formals ellipsis d tf (tb +:+ rest) Hi Hid Htf) as [_ Hl].
    cbv zeta in Hl. fold s in Hl. simpl. by destruct s. }
  eapply gives_bind; [right; apply (expect_reads ":"); [done..|exact (starts_with_one ":" ":" _)]|].
  destruct n as [|n]; [by left|].
  eapply gives_bind; [exact (rd_reads _ Hr _ _ Htb (S n) _ Hrest)|]. by right.
Qed.

(** ** Every well-formed expression *)

Lemma all_readable e : well_formed e = true → readable e.
Proof.
  induction e using expr_induction; intros Hwf; pose proof Hwf as Hparts; cbn [well_formed] in Hparts.
  - by apply readable_str.
  - apply readable_bool.
  - apply readable_list. rewrite forallb_elem in Hparts. intros e He. apply H; [done|by apply Hparts].
  - apply readable_attrs; [|done]. intros k v Hin. by eapply H.
  - by apply readable_var.
  - apply andb_true_iff in Hparts as [Hb _]. apply readable_select; [by apply IHe|done].
  - apply andb_true_iff in Hparts as [Hf Ha]. apply readable_apply; [by apply IHe1|by apply IHe2].
  - apply andb_true_iff in Hparts as [_ Hb]. apply readable_lambda; [by apply IHe|done].
  - by apply readable_path.
Qed.

(** *** The writer panics on none of them *)

Definition writes (w : Writer) : Prop := ∀ d, is_Some (w d).

Lemma writes_in_turn ws : Forall writes ws → writes (in_turn ws).
Proof.
  induction 1 as [|w ws Hw _ IH]; intros d; [by eexists|]. cbn [in_turn].
  destruct (Hw d) as [x ->], (IH d) as [y ->]. by eexists.
Qed.

Lemma writes_str s : writes (push_str s).
Proof. intros d. by eexists. Qed.
#[local] Hint Resolve writes_str writes_in_turn : core.

Lemma writes_parenthesized plain w : writes w → writes (or_paren plain w).
Proof. intros Hw. destruct plain; [done|]. apply writes_in_turn. auto. Qed.

Definition call_writes (call : StrCall) : Prop :=
  match call with Call_Interp w => writes w | _ => True end.

Lemma writes_calls calls pending : Forall call_writes calls → writes (str_calls pending calls).
Proof.
  intros Hc. revert pending. induction Hc as [|call calls Hcall _ IH]; intros pending; [apply writes_str|].
  destruct call as [text|text|w]; cbn [str_calls].
  - case_decide; [apply IH|]. apply writes_in_turn. repeat constructor; [auto|].
    destruct (strip_suffix "$" text); apply writes_in_turn; auto.
  - case_decide; [apply IH|]. apply writes_in_turn. auto.
  - apply writes_in_turn. repeat constructor; auto.
Qed.

Lemma writes_items opened ws : Forall writes ws → writes (write_items opened ws).
Proof.
  intros Hws. revert opened. induction Hws as [|w ws Hw _ IH]; intros opened d; [by eexists|].
  apply writes_in_turn. repeat constructor; [auto| |auto].
  intros _. apply writes_in_turn. auto.
Qed.

Lemma writes_entries last es :
  Forall (λ e, writes e.2) es → increasing key_lt (map fst es) = true →
  match last, es with Some l, (k, _) :: _ => key_lt l k = true | _, _ => True end →
  writes (write_entries last es).
Proof.
  intros Hes. revert last. induction Hes as [|[k w] es Hw _ IH]; intros last Hi Hlast d; [by eexists|].
  cbn [write_entries]. simpl in Hi. apply andb_true_iff in Hi as [Hk Hi].
  replace (match last with Some last => key_lt last k | None => true end) with true by by destruct last.
  apply writes_in_turn. repeat constructor; [auto| |].
  - intros _. apply writes_in_turn. repeat constructor; auto.
  - apply IH; [done|]. destruct es as [|[k2 w2] es]; [done|]. simpl in Hk.
    by apply andb_true_iff in Hk as [Hk _].
Qed.

Lemma writes_formals previous xs :
  increasing String.ltb xs = true →
  match previous, xs with Some p, x :: _ => String.ltb p x = true | _, _ => True end →
  writes (write_formals previous xs).
Proof.
  revert previous. induction xs as [|x xs IH]; intros previous Hi Hp d; [by eexists|].
  simpl in Hi. apply andb_true_iff in Hi as [Hx Hi].
  assert (Hmore : writes (write_formals (Some x) xs)).
  { apply IH; [done|]. destruct xs; [done|]. simpl in Hx. by apply andb_true_iff in Hx as [Hx _]. }
  cbn [write_formals]. destruct previous as [p|]; [rewrite Hp|]; apply writes_in_turn; auto.
Qed.

Lemma well_formed_writes e : well_formed e = true → writes (write_expr e).
Proof.
  assert (Hoperand : ∀ e, writes (write_expr e) → writes (or_paren (is_operand e) (write_expr e)))
    by (intros; by apply writes_parenthesized).
  induction e using expr_induction; intros Hwf; cbn [well_formed] in Hwf; cbn [write_expr].
  - rewrite forallb_elem in Hwf. apply writes_in_turn. repeat constructor; [auto| |auto].
    apply writes_calls, Forall_forall. intros call (part & <- & Hin)%list_elem_of_In%in_map_iff.
    apply list_elem_of_In in Hin. destruct part as [text|inner]; [done|].
    apply H; [done|]. exact (Hwf _ Hin).
  - apply writes_str.
  - rewrite forallb_elem in Hwf. assert (Hws : Forall writes (map write_operand items)).
    { apply Forall_forall. intros w (e & <- & Hin)%list_elem_of_In%in_map_iff.
      apply list_elem_of_In in Hin. apply Hoperand, H; [done|by apply Hwf]. }
    fold write_operand. change (λ e, or_paren (is_operand e) (write_expr e)) with write_operand.
    unfold write_list. destruct (map write_operand items) eqn:Hm; [apply writes_str|]. rewrite <- Hm in *.
    intros d. apply writes_in_turn. repeat constructor; [|auto..]. by apply writes_items.
  - apply andb_true_iff in Hwf as [Hi Hwf]. rewrite forallb_elem in Hwf.
    fold (entry_writers entries).
    assert (Hws : Forall (λ e, writes e.2) (entry_writers entries)).
    { apply Forall_forall. intros w ([k v] & <- & Hin)%list_elem_of_In%in_map_iff.
      apply list_elem_of_In in Hin. simpl. eapply H; [done|].
      by pose proof (Hwf _ Hin) as [_ ?]%andb_true_iff. }
    unfold write_attrs. destruct (entry_writers entries) eqn:Hm; [apply writes_str|]. rewrite <- Hm in *.
    intros d. apply writes_in_turn. repeat constructor; [|auto..]. apply writes_entries; [done| |done].
    unfold entry_writers. rewrite map_map. exact Hi.
  - apply writes_str.
  - apply andb_true_iff in Hwf as [Hb _]. apply writes_in_turn. repeat constructor.
    + destruct (is_path e); [by apply (writes_parenthesized false), IHe|by apply Hoperand, IHe].
    + apply writes_in_turn, Forall_fmap, Forall_true. intros k. apply writes_str.
  - apply andb_true_iff in Hwf as [Hf Ha]. apply writes_in_turn. repeat constructor; [|auto..].
    by apply writes_parenthesized, IHe1.
  - apply andb_true_iff in Hwf as [[Hi _]%andb_true_iff Hb]. apply writes_in_turn.
    repeat constructor; auto. by apply writes_formals.
  - apply writes_str.
Qed.

(** C26. Every well-formed expression is printed, without any assertion of the writer failing,
    and parsing the text gives back its normal form: the strings with the same pieces of
    text and the same interpolations, whatever escapes they need, and the selections joined. *)
Theorem parse_print e :
  well_formed e = true →
  ∃ text, Nix.print e = Some text ∧ NixParse.parse text = Some (Ok (normalize e)).
Proof.
  intros Hwf. destruct (well_formed_writes e Hwf 0) as [text Ht]. exists text. split; [exact Ht|].
  pose proof (rd_reads _ (all_readable e Hwf) _ _ Ht (parse_fuel text) "" after_end) as Hr.
  rewrite app_nil_string in Hr. unfold parse, parse_with, mbind at 2, P_bind at 1.
  destruct Hr as [Hr|Hr]; [|by rewrite Hr].
  destruct (fu_expr _ (all_fuelled (parse_fuel text)) text) as (r & Hs & _); [unfold parse_fuel; lia|].
  congruence.
Qed.

Lemma parse_print_witness :
  let e := Expr_Lambda ["config"; "pkgs"] true
    (Expr_Apply (Expr_Select (Expr_Path "home.nix") (mkKey "in" false) [mkKey "x" true])
      (Expr_Attrs
        [(mkKey "a b" false, Expr_Str [Part_Lit "$"; Part_Lit "{x}$"; Part_Interp (Expr_Var "y")]);
         (mkKey "list" true, Expr_List [Expr_Bool true; Expr_Apply (Expr_Var "f") (Expr_Str [])])])) in
  well_formed e = true ∧ ∃ text, print e = Some text ∧ parse text = Some (Ok (normalize e)).
Proof. split; [reflexivity|]. apply parse_print. reflexivity. Defined.
