(* ===== verification/NixTyped.v ===== *)
(** * What the parser accepts is well formed

    Every expression the parser builds keeps the invariants of the constructors of
    [ast.rs], so it is printed and read back. *)
From S2P Require Import Prelude.
From S2P Require Import Pins.
From S2P Require Import Nix.
From S2P Require Import NixParse.
From S2P Require Import NixReads.
From S2P Require Import NixText.
From S2P Require Import NixOrder.
From S2P Require Import NixRound.
From S2P Require Import NixReadBack.

Local Open Scope nat_scope.

(** ** Orders *)

Lemma ascii_compare_lt_trans a b c :
  Ascii.compare a b = Lt → Ascii.compare b c = Lt → Ascii.compare a c = Lt.
Proof. unfold Ascii.compare. rewrite !N.compare_lt_iff. lia. Qed.

Lemma ascii_compare_eq a b : Ascii.compare a b = Eq → a = b.
Proof. apply Ascii.compare_eq_iff. Qed.

Lemma string_compare_trans a b c :
  String.compare a b = Lt → String.compare b c = Lt → String.compare a c = Lt.
Proof.
  revert b c. induction a as [|x a IH]; intros [|y b] [|z c]; simpl; try done.
  destruct (Ascii.compare x y) eqn:Hxy; [|intros _|done].
  - apply ascii_compare_eq in Hxy as ->. destruct (Ascii.compare y z); eauto; done.
  - destruct (Ascii.compare y z) eqn:Hyz; [|intros _|done].
    + apply ascii_compare_eq in Hyz as ->. by rewrite Hxy.
    + by rewrite (ascii_compare_lt_trans _ _ _ Hxy Hyz).
Qed.

Lemma key_compare_trans a b c :
  key_compare a b = Lt → key_compare b c = Lt → key_compare a c = Lt.
Proof.
  unfold key_compare. intros Hab Hbc.
  destruct (String.compare (key_text a) (key_text b)) eqn:H1; [| |done].
  - apply String.compare_eq_iff in H1 as ->.
    destruct (String.compare (key_text b) (key_text c)); [|done..].
    by destruct (bare a), (bare b), (bare c).
  - destruct (String.compare (key_text b) (key_text c)) eqn:H2; [| |done].
    + apply String.compare_eq_iff in H2 as <-. by rewrite H1.
    + by rewrite (string_compare_trans _ _ _ H1 H2).
Qed.

Section Insert.
Context {A : Type} (compare : A → A → comparison).
Context (compare_flip : ∀ a b, compare a b = CompOpp (compare b a)).
Context (compare_trans : ∀ a b c, compare a b = Lt → compare b c = Lt → compare a c = Lt).

Let lt a b : bool := match compare a b with Lt => true | _ => false end.

(** Where the first greater element is, a smaller one may be put before it. *)
Lemma increasing_cons x y l : lt x y = true → increasing lt (y :: l) = true → increasing lt (x :: y :: l) = true.
Proof.
  intros Hxy Hl. cbn [increasing] in Hl |- *. rewrite Hl. cbn [forallb]. rewrite Hxy.
  apply andb_true_iff in Hl as [Hy _]. rewrite andb_true_r. simpl. rewrite forallb_elem in Hy |- *.
  intros z Hz. specialize (Hy z Hz). unfold lt in *.
  destruct (compare x y) eqn:H1; [done| |done]. destruct (compare y z) eqn:H2; [done| |done].
  by rewrite (compare_trans _ _ _ H1 H2).
Qed.

End Insert.

Lemma attr_insert_new {E} k (v : E) es es' :
  increasing key_lt (map fst es) = true → attr_insert k v es = (None, es') →
  increasing key_lt (map fst es') = true ∧ ∀ e, e ∈ es' ↔ e = (k, v) ∨ e ∈ es.
Proof.
  revert es'. induction es as [|[k2 v2] es IH]; intros es' Hi.
  { intros [= <-]. split; [done|]. intros e. rewrite list_elem_of_singleton, elem_of_nil. tauto. }
  cbn [attr_insert]. destruct (key_compare k2 k) eqn:Hc; [done| |].
  - destruct (attr_insert k v es) as [o more] eqn:Hmore. intros [= -> <-].
    pose proof Hi as [Hk2 Hl]%andb_true_iff. destruct (IH more Hl eq_refl) as [Him Hin].
    assert (Hin' : ∀ e, e ∈ (k2, v2) :: more ↔ e = (k, v) ∨ e ∈ (k2, v2) :: es).
    { intros e. rewrite !elem_of_cons, Hin. tauto. }
    split; [|exact Hin']. cbn [map increasing]. rewrite Him, andb_true_r.
    rewrite forallb_elem. intros y Hy. apply list_elem_of_In, in_map_iff in Hy as ([k3 v3] & <- & Hy).
    apply list_elem_of_In, Hin in Hy as [[= -> ->]|Hy]; simpl; [unfold key_lt; by rewrite Hc|].
    rewrite forallb_elem in Hk2. apply Hk2, list_elem_of_In, in_map_iff. exists (k3, v3).
    by rewrite <- list_elem_of_In.
  - intros [= <-]. split; [|intros e; by rewrite elem_of_cons].
    assert (Hlt : key_lt k k2 = true).
    { unfold key_lt. rewrite key_compare_antisym, Hc. done. }
    exact (increasing_cons key_compare key_compare_trans k k2 (map fst es) Hlt Hi).
Qed.

Lemma set_insert_new x xs xs' :
  increasing String.ltb xs = true → set_insert x xs = (true, xs') →
  increasing String.ltb xs' = true ∧ ∀ y, y ∈ xs' ↔ y = x ∨ y ∈ xs.
Proof.
  revert xs'. induction xs as [|x2 xs IH]; intros xs' Hi.
  { intros [= <-]. split; [done|]. intros e. rewrite list_elem_of_singleton, elem_of_nil. tauto. }
  cbn [set_insert]. destruct (String.compare x2 x) eqn:Hc; [done| |].
  - destruct (set_insert x xs) as [o more] eqn:Hmore. intros [= -> <-].
    pose proof Hi as [Hx2 Hl]%andb_true_iff. destruct (IH more Hl eq_refl) as [Him Hin].
    split; [|intros e; rewrite !elem_of_cons, Hin; tauto]. cbn [increasing].
    rewrite Him, andb_true_r. rewrite forallb_elem in Hx2 |- *.
    intros y [->|Hy]%Hin; [unfold String.ltb; by rewrite Hc|by apply Hx2].
  - intros [= <-]. split; [|intros e; by rewrite elem_of_cons].
    assert (Hlt : String.ltb x x2 = true).
    { unfold String.ltb. rewrite String.compare_antisym, Hc. done. }
    exact (increasing_cons String.compare string_compare_trans x x2 xs Hlt Hi).
Qed.

(** ** What a parser builds *)

Definition builds {A} (Q : A → Prop) (p : P A) : Prop :=
  ∀ s x rest, p s = Some (Ok (x, rest)) → Q x.

Lemma builds_bind {A B} (R : A → Prop) (Q : B → Prop) (p : P A) (f : A → P B) :
  builds R p → (∀ x, R x → builds Q (f x)) → builds Q (p ≫= f).
Proof.
  intros Hp Hf s y rest. unfold mbind, P_bind. destruct (p s) as [[[x s']|e]|] eqn:Hs; [|done..].
  simpl. intros Hy. eapply Hf; [by eapply Hp|done].
Qed.

Lemma builds_after {A B} (Q : B → Prop) (p : P A) (f : A → P B) :
  (∀ x, builds Q (f x)) → builds Q (p ≫= f).
Proof. intros Hf. apply (builds_bind (λ _, True)); [done|]. intros x _. apply Hf. Qed.

Lemma builds_ret {A} (Q : A → Prop) x : Q x → builds Q (mret x).
Proof. by intros Hx s y rest [= <- _]. Qed.

Lemma builds_error {A} (Q : A → Prop) message : builds Q (parse_error message).
Proof. done. Qed.

Lemma builds_no_fuel {A} (Q : A → Prop) : builds Q no_fuel.
Proof. done. Qed.
#[local] Hint Resolve builds_error builds_no_fuel builds_ret : core.

Definition part_ok (part : StrPart Expr) : bool :=
  match part with Part_Lit text => negb (contains_nul text) | Part_Interp inner => well_formed inner end.

Lemma lit_part_ok text parts :
  forallb part_ok parts = true → builds (λ ps, forallb part_ok ps = true) (lit_part text parts).
Proof.
  intros Hp. unfold lit_part. case_decide; [auto|]. unfold nix_str_new.
  destruct (contains_nul text) eqn:Hn; [done|]. apply builds_ret.
  rewrite forallb_app, Hp. simpl. by rewrite Hn.
Qed.

Lemma key_new_ok text k : key_new text = Ok k → key_ok k = true.
Proof.
  unfold key_new. destruct (contains_nul text) eqn:Hn; [done|]. intros [= <-].
  unfold key_ok. simpl. by rewrite Hn, eqb_reflx.
Qed.

Lemma quoted_key_ok parts : builds (λ k, key_ok k = true) (quoted_key parts).
Proof.
  unfold quoted_key. destruct (normalize_parts normalize parts) as [|[text|inner] [|]]; auto.
  destruct (key_new text) eqn:Hk; [|done]. apply builds_ret. by eapply key_new_ok.
Qed.

Lemma bare_key_ok : builds (λ k, key_ok k = true) bare_key.
Proof.
  unfold bare_key. apply builds_after. intros name. destruct (negb _); [done|].
  destruct (key_new name) eqn:Hk; [|done]. apply builds_ret. by eapply key_new_ok.
Qed.

Lemma variable_makes : builds (λ e, well_formed e = true) variable.
Proof.
  unfold variable. apply builds_after. intros name.
  destruct (name =s "true") eqn:Ht; [by apply builds_ret|].
  destruct (name =s "false") eqn:Hf; [by apply builds_ret|].
  destruct (is_identifier name) eqn:Hid; [|done]. apply builds_ret. cbn [well_formed].
  unfold variable_ok. by rewrite Hid, Ht, Hf.
Qed.

Lemma rel_path_makes : builds (λ e, well_formed e = true) rel_path.
Proof.
  unfold rel_path. apply builds_after. intros s. destruct (split_while path_byte s) as [at_ rest].
  apply builds_after. intros _. unfold rel_path_new. destruct (is_rel_path at_) eqn:Hp; [|done].
  by apply builds_ret.
Qed.

Definition formals_ok (formals : list string) : Prop :=
  increasing String.ltb formals = true ∧ forallb is_identifier formals = true.

Lemma lambda_formals_makes n formals :
  formals_ok formals → builds (λ r, formals_ok r.1) (lambda_formals n formals).
Proof.
  revert formals. induction n as [|n IH]; intros formals Hf; [done|]. cbn [lambda_formals].
  do 2 (apply builds_after; intros ?).
  match goal with |- builds _ (match _ with "" => ?p | _ => _ end) => assert (Hrest : builds (λ r, formals_ok r.1) p) end.
  { destruct (strip_prefix "..." _) as [rest|].
    - do 2 (apply builds_after; intros ?). by apply builds_ret.
    - apply builds_after. intros name. destruct (is_identifier name) eqn:Hid; [simpl|done].
      destruct (set_insert name formals) as [new names] eqn:Hset. destruct new; [simpl|done].
      destruct Hf as [Hi Hall]. apply set_insert_new in Hset as [Hi' Hin]; [|done].
      do 3 (apply builds_after; intros ?). apply IH. split; [done|].
      rewrite forallb_elem in Hall |- *. intros y [->|Hy]%Hin; auto. }
  repeat (case_match; try exact Hrest).
  all: apply builds_after; intros _; by apply builds_ret.
Qed.

Definition entries_ok (es : list (Key * Expr)) : Prop :=
  increasing key_lt (map fst es) = true ∧
  forallb (λ entry, key_ok entry.1 && well_formed entry.2) es = true.

(** What [n] units of fuel make. *)
Record typed (n : nat) : Prop := {
  ty_expr : builds (λ e, well_formed e = true) (expr n);
  ty_lambda : builds (λ e, well_formed e = true) (lambda n);
  ty_application : builds (λ e, well_formed e = true) (application n);
  ty_arguments f : well_formed f = true → builds (λ e, well_formed e = true) (arguments n f);
  ty_selection : builds (λ e, well_formed e = true) (selection n);
  ty_selectors base keys : well_formed base = true → forallb key_ok keys = true →
    builds (λ e, well_formed e = true) (selectors n base keys);
  ty_simple : builds (λ e, well_formed e = true) (simple n);
  ty_items found : forallb well_formed found = true →
    builds (λ e, well_formed e = true) (items n found);
  ty_entries found : entries_ok found → builds (λ e, well_formed e = true) (entries n found);
  ty_key : builds (λ k, key_ok k = true) (key n);
  ty_quoted : builds (λ ps, forallb part_ok ps = true) (quoted n);
  ty_characters text parts : forallb part_ok parts = true →
    builds (λ ps, forallb part_ok ps = true) (characters n text parts);
}.

Section Typed.
Context (n : nat) (Hn : typed n).

#[local] Ltac after := apply builds_after; intros ?.
#[local] Ltac result := eapply builds_bind; [by apply Hn|intros ? ?].

Lemma typed_expr : builds (λ e, well_formed e = true) (expr (S n)).
Proof. cbn [expr]. do 2 after. case_match; apply Hn. Qed.

Lemma typed_lambda : builds (λ e, well_formed e = true) (lambda (S n)).
Proof.
  cbn [lambda]. after. eapply builds_bind; [by apply lambda_formals_makes|].
  intros [formals ellipsis] [Hi Hid]. after. result. apply builds_ret.
  cbn [well_formed]. simpl in *. by rewrite Hi, Hid.
Qed.

Lemma typed_arguments f :
  well_formed f = true → builds (λ e, well_formed e = true) (arguments (S n) f).
Proof.
  intros Hf. cbn [arguments]. do 2 after. destruct (negb _); [by apply builds_ret|]. result.
  apply Hn. cbn [well_formed]. by rewrite Hf.
Qed.

Lemma typed_selectors base keys :
  well_formed base = true → forallb key_ok keys = true →
  builds (λ e, well_formed e = true) (selectors (S n) base keys).
Proof.
  intros Hb Hk. cbn [selectors]. do 2 after. destruct (at_selection _).
  - after. result. apply Hn; [done|]. rewrite forallb_app, Hk. simpl. by rewrite andb_true_r.
  - apply builds_ret. destruct keys; [done|]. cbn [selected well_formed]. by rewrite Hb.
Qed.

Lemma typed_simple : builds (λ e, well_formed e = true) (simple (S n)).
Proof.
  cbn [simple]. do 2 after. case_match; [apply variable_makes|].
  repeat case_match; try apply variable_makes.
  - result. by apply builds_ret.
  - after. by apply Hn.
  - after. by apply Hn.
  - after. result. after. by apply builds_ret.
  - after. apply rel_path_makes.
Qed.

Lemma typed_items found :
  forallb well_formed found = true → builds (λ e, well_formed e = true) (items (S n) found).
Proof.
  intros Hf. cbn [items]. do 2 after.
  match goal with |- builds _ (match _ with "" => ?p | _ => _ end) =>
    assert (Hrest : builds (λ e, well_formed e = true) p) end.
  { result. apply Hn. rewrite forallb_app, Hf. simpl. by rewrite andb_true_r. }
  repeat (case_match; try exact Hrest). after. by apply builds_ret.
Qed.

Lemma typed_entries found :
  entries_ok found → builds (λ e, well_formed e = true) (entries (S n) found).
Proof.
  intros [Hi Hf]. cbn [entries]. do 2 after.
  match goal with |- builds _ (match _ with "" => ?p | _ => _ end) =>
    assert (Hrest : builds (λ e, well_formed e = true) p) end.
  { eapply builds_bind; [apply Hn|]. intros k Hk. after. eapply builds_bind; [apply Hn|].
    intros v Hv. after. destruct (attr_insert k v found) as [[old|] more] eqn:Hins; [done|].
    apply attr_insert_new in Hins as [Hi' Hin]; [|done]. apply Hn. split; [done|].
    rewrite forallb_elem in Hf |- *. intros e [->|He]%Hin; [simpl in *; by rewrite Hk, Hv|by apply Hf]. }
  repeat (case_match; try exact Hrest). after. apply builds_ret. cbn [well_formed]. by rewrite Hi.
Qed.

Lemma typed_key : builds (λ k, key_ok k = true) (key (S n)).
Proof.
  cbn [key]. do 2 after. repeat case_match; try apply bare_key_ok. after. apply quoted_key_ok.
Qed.

Lemma typed_characters text parts :
  forallb part_ok parts = true → builds (λ ps, forallb part_ok ps = true) (characters (S n) text parts).
Proof.
  intros Hp. cbn [characters]. after.
  assert (Hmore : ∀ text, builds (λ ps, forallb part_ok ps = true) (characters n text parts))
    by (intros; by apply Hn).
  assert (Hinterp : builds (λ ps, forallb part_ok ps = true)
    (parts0 ← lit_part text parts; e ← expr n; _ ← expect "}";
     characters n "" (parts0 ++ [Part_Interp e]))).
  { eapply builds_bind; [by apply lit_part_ok|]. intros ps Hps. result. after. apply Hn.
    rewrite forallb_app, Hps. simpl. by rewrite andb_true_r. }
  case_match; [done|].
  repeat (case_match; try (after; apply Hmore)); try (do 2 after; apply Hmore).
  all: after; first [by apply lit_part_ok|exact Hinterp].
Qed.

End Typed.

Lemma all_typed n : typed n.
Proof.
  induction n as [|n IH]; [split; intros; apply builds_no_fuel|]. split; intros.
  - by apply typed_expr.
  - by apply typed_lambda.
  - cbn [application]. eapply builds_bind; [by apply IH|]. intros f Hf. by apply IH.
  - by apply typed_arguments.
  - cbn [selection]. eapply builds_bind; [by apply IH|]. intros b Hb. by apply IH.
  - by apply typed_selectors.
  - by apply typed_simple.
  - by apply typed_items.
  - by apply typed_entries.
  - by apply typed_key.
  - cbn [quoted]. apply builds_after. intros _. by apply IH.
  - by apply typed_characters.
Qed.

(** C27. The parser answers on every text, with an error or with an expression that keeps the
    invariants of the constructors: identifiers that are no keywords, formals and keys in
    increasing order without duplicates, keys that know whether they are identifiers, text
    without null bytes, paths that the writer may write. *)
Theorem parse_typed source :
  ∃ r, NixParse.parse source = Some r ∧ ∀ e, r = Ok e → well_formed e = true.
Proof.
  destruct (fu_expr _ (all_fuelled (parse_fuel source)) source) as (r & Hr & _);
    [unfold parse_fuel; lia|].
  unfold parse, parse_with, mbind at 2, P_bind at 1. rewrite Hr.
  destruct r as [[e rest]|e]; [|by destruct e; eexists].
  pose proof (ty_expr _ (all_typed (parse_fuel source)) _ _ _ Hr) as Hwf.
  unfold all_input, skip_trivia, mbind, option_bind, P_bind, remaining, goto. simpl.
  destruct (decide _); (eexists; split; [done|]); [by intros e' [= <-]|done].
Qed.

Lemma parse_typed_witness :
  ∃ r, parse "{ b = ./home.nix; a = [ pkgs.git true ]; }" = Some r ∧ ∀ e, r = Ok e → well_formed e = true.
Proof. apply parse_typed. Defined.
