(* ===== verification/NixFiles.v ===== *)
(** * The files [mix] writes in Nix

    The home module ([crates/nixgen/src/home.rs]), the flake ([flake.rs], [flake_write.rs])
    with the template its build script splits ([build.rs]), and the expressions that ask
    for facts about packages ([facts.rs]).

    [FACTS] and [CHECK] are the texts of two Nix files beside the code, the same ones
    whatever is asked. *)
From S2P Require Import Prelude.
From S2P Require Import Chars.
From S2P Require Import Paths.
From S2P Require Import Pins.
From S2P Require Import Nix.

Local Open Scope nat_scope.

Definition GENERATED_HEADER : string :=
  "# Code generated by mix. DO NOT EDIT." +:+ newline +:+
  "# Manual changes will be overwritten. Use `mix` commands to manage this configuration." +:+
  newline +:+ newline.

(** [Key::new_static] of a text without a null byte. *)
Definition static_key (s : string) : Key := mkKey s (is_identifier s).

(** [is_file_name_bytes]: a dot is inside the name and after no dot, a dash is not first. *)
Fixpoint file_name_bytes (previous : option ascii) (s : string) : bool :=
  match s with
  | "" => true
  | String b rest =>
      (is_ascii_lowercase b || is_ascii_digit b ||
       (Ascii.eqb b "-" && bool_decide (is_Some previous)) ||
       (Ascii.eqb b "." && negb (rest =s "") &&
        match previous with Some p => negb (Ascii.eqb p ".") | None => false end)) &&
      file_name_bytes (Some b) rest
  end.
Definition is_file_name (s : string) : bool := negb (s =s "") && file_name_bytes None s.

(** [FileName::new]. *)
Definition file_name_new (s : string) : result string string :=
  if is_file_name s then Ok s else Err s.

(** ** [home.rs] *)

Definition HOME_PKGS : string := "pkgs".

Inductive InvalidInput :=
  | Invalid_UserName (name : string)
  | Invalid_HomeDirectory (home : path)
  | Invalid_Package (ident : string).

Definition rejected (e : InvalidInput) : option string :=
  match e with Invalid_Package ident => Some ident | _ => None end.

Definition is_state_version (s : string) : bool :=
  match s with
  | String a (String b (String "." (String c (String d "")))) =>
      is_ascii_digit a && is_ascii_digit b &&
      ((Ascii.eqb c "0" && Ascii.eqb d "5") || (Ascii.eqb c "1" && Ascii.eqb d "1"))
  | _ => false
  end.

Definition blank_char (c : ascii) : bool := Ascii.eqb c " " || Ascii.eqb c "009" || Ascii.eqb c "010".

(** [UserName::new]. *)
Definition user_name_new (name : string) : result InvalidInput string :=
  match nix_str_new name with
  | Ok text => if negb (string_all blank_char name) then Ok text else Err (Invalid_UserName name)
  | Err _ => Err (Invalid_UserName name)
  end.

(** [Path::is_absolute]. *)
Definition is_absolute_path (p : path) : bool := match p with RootDir :: _ => true | _ => false end.

(** [HomeDir::new]. *)
Definition home_dir_new (home : path) : result InvalidInput string :=
  if negb (is_absolute_path home) then Err (Invalid_HomeDirectory home)
  else
    match from_utf8 (display home) with
    | None => Err (Invalid_HomeDirectory home)
    | Some text =>
        match nix_str_new text with Ok text => Ok text | Err _ => Err (Invalid_HomeDirectory home) end
    end.

Record CopyIntoGeneration := mkCopy { copy_source : string; copy_target : string }.

Record HomeModule := mkHomeModule {
  hm_username : string; hm_home_directory : string; hm_state_version : string;
  hm_packages : list string; hm_generation_files : list CopyIntoGeneration }.

Definition CP : string := "cp ".
Definition NEXT_CP : string := newline +:+ "cp ".
Definition INTO_OUT : string := " $out/".

Definition HOME_KEY : Key := static_key "home".
Definition USERNAME_KEY : Key := static_key "username".
Definition HOME_DIRECTORY_KEY : Key := static_key "homeDirectory".
Definition STATE_VERSION_KEY : Key := static_key "stateVersion".
Definition PACKAGES_KEY : Key := static_key "packages".
Definition BUILDER_COMMANDS_KEY : Key := static_key "extraBuilderCommands".

Definition home_module_new (username : string) (home : path) (state_version : string) :
    result InvalidInput HomeModule :=
  name ← user_name_new username;
  dir ← home_dir_new home;
  Ok (mkHomeModule name dir state_version [] []).

(** [Ident::new] of each name, or the first that is none. *)
Fixpoint idents (names : list string) : result InvalidInput (list string) :=
  match names with
  | [] => Ok []
  | name :: names =>
      if is_identifier name then names ← idents names; Ok (name :: names)
      else Err (Invalid_Package name)
  end.

Definition home_packages (m : HomeModule) (names : list string) : result InvalidInput HomeModule :=
  packages ← idents names;
  Ok (mkHomeModule (hm_username m) (hm_home_directory m) (hm_state_version m) packages
        (hm_generation_files m)).

Definition copy_into_generation (m : HomeModule) (copy : CopyIntoGeneration) : HomeModule :=
  mkHomeModule (hm_username m) (hm_home_directory m) (hm_state_version m) (hm_packages m)
    (hm_generation_files m ++ [copy]).

(** The calls that write the builder's commands. *)
Definition copy_calls (m : HomeModule) : list StrCall :=
  concat (imap (λ index copy,
    [Call_Verbatim (if decide (index = 0) then CP else NEXT_CP);
     Call_Interp (write_path (copy_source copy));
     Call_Lit INTO_OUT;
     Call_Verbatim (copy_target copy)]) (hm_generation_files m)).

Definition home_entries (m : HomeModule) : list (Key * Writer) :=
  (if decide (hm_generation_files m = []) then []
   else [(BUILDER_COMMANDS_KEY, write_string (copy_calls m))]) ++
  [(HOME_DIRECTORY_KEY, write_text (hm_home_directory m));
   (PACKAGES_KEY, write_list (select_ident HOME_PKGS <$> hm_packages m));
   (STATE_VERSION_KEY, write_string [Call_Verbatim (hm_state_version m)]);
   (USERNAME_KEY, write_text (hm_username m))].

Definition home_write (m : HomeModule) : Writer :=
  write_lambda [HOME_PKGS] true (write_attrs [(HOME_KEY, write_attrs (home_entries m))]).

(** [HomeModule::render]. *)
Definition home_render (m : HomeModule) : option string :=
  in_turn [push_str GENERATED_HEADER; home_write m; push_str newline] 0.

(** ** [flake.rs] and [flake_write.rs] *)

Inductive System := X86_64Linux | Aarch64Linux | X86_64Darwin | Aarch64Darwin.

Definition system_str (s : System) : string :=
  match s with
  | X86_64Linux => "x86_64-linux" | Aarch64Linux => "aarch64-linux"
  | X86_64Darwin => "x86_64-darwin" | Aarch64Darwin => "aarch64-darwin"
  end.
Definition system_key (s : System) : Key := static_key (system_str s).

Definition HOME_NIX_PATH : string := "home.nix".
Definition INPUTS_KEY : Key := static_key "inputs".
Definition FOLLOWS : Key := static_key "follows".
Definition URL : Key := static_key "url".
Definition GENERATED_BY_MIX : string := "Generated by mix".
Definition GITHUB : string := "github:".

Definition input_key (input : Input) : Key := static_key (in_name input).

(** What an input's attributes are; the table's [follows] names an input. *)
Definition input_entries (revs : Pins string) (input : Input) : list (Key * Writer) :=
  match in_follows input with
  | None => []
  | Some follows =>
      let followed := input_key (default input (List.find (λ other, in_name other =s follows) INPUTS)) in
      [(INPUTS_KEY,
        write_attrs [(followed, write_attrs [(FOLLOWS, write_string [Call_Verbatim follows])])])]
  end ++
  [(URL,
    write_string
      [Call_Verbatim GITHUB; Call_Verbatim (in_owner input); Call_Verbatim "/";
       Call_Verbatim (in_repo input); Call_Verbatim "/";
       Call_Verbatim (pin_of revs (in_pin input))])].

(** [input]. *)
Definition input_of (pin : Pin) : string :=
  match List.find (λ input, bool_decide (in_pin input = pin)) INPUTS with
  | Some input => in_name input
  | None => ""
  end.

Definition write_outputs (username system : Key) : Writer :=
  write_attrs
    [(static_key "homeConfigurations",
      write_attrs
        [(username,
          write_apply
            (in_turn [push_str (input_of Pin_HomeManager);
                      write_keys [static_key "lib"; static_key "homeManagerConfiguration"]])
            (write_attrs
              [(static_key "modules", write_list [write_path HOME_NIX_PATH]);
               (static_key "pkgs",
                in_turn [push_str (input_of Pin_Nixpkgs);
                         write_keys [static_key "legacyPackages"; system]])]))])].

Definition write_flake (username system : Key) (revs : Pins string) : Writer :=
  write_attrs
    [(static_key "description", write_string [Call_Verbatim GENERATED_BY_MIX]);
     (INPUTS_KEY,
      write_attrs ((λ input, (input_key input, write_attrs (input_entries revs input))) <$> INPUTS));
     (static_key "outputs",
      write_lambda (in_name <$> INPUTS) true (write_outputs username system))].

Record FlakeConfig := mkFlakeConfig {
  fc_system : System; fc_username : Key; fc_revs : Pins string }.

Definition flake_config_new (system : System) (username nixpkgs_rev home_manager_rev : string) :
    result NulByte FlakeConfig :=
  key ← key_new username; Ok (mkFlakeConfig system key (mkPins home_manager_rev nixpkgs_rev)).

(** ** [build.rs] *)

Inductive FlakeHole := Hole_Username | Hole_System | Hole_Rev (pin : Pin).

Definition hole_marker (hole : FlakeHole) : string :=
  match hole with
  | Hole_Username => "__mix_hole_username__"
  | Hole_System => "__mix_hole_system__"
  | Hole_Rev Pin_HomeManager => "__mix_hole_rev_HomeManager__"
  | Hole_Rev Pin_Nixpkgs => "__mix_hole_rev_Nixpkgs__"
  end.

Definition holes_wanted : list FlakeHole :=
  [Hole_Username; Hole_System] ++ (Hole_Rev ∘ in_pin <$> INPUTS).

(** The flake with a marker at each hole. *)
Definition marked_flake : option string :=
  in_turn
    [push_str GENERATED_HEADER;
     write_flake (static_key (hole_marker Hole_Username)) (static_key (hole_marker Hole_System))
       (mkPins (hole_marker (Hole_Rev Pin_HomeManager)) (hole_marker (Hole_Rev Pin_Nixpkgs)));
     push_str newline] 0.

(** [str::find]. *)
Fixpoint find_text (needle text : string) : option nat :=
  if starts_with needle text then Some 0
  else match text with "" => None | String _ rest => S <$> find_text needle rest end.

(** The first of the markers in the text: the least place, and of equal places the first. *)
Fixpoint next_hole (text : string) (wanted : list FlakeHole) : option (nat * FlakeHole) :=
  match wanted with
  | [] => None
  | hole :: wanted =>
      match find_text (hole_marker hole) text, next_hole text wanted with
      | Some at_, Some (later, other) =>
          if decide (at_ <= later) then Some (at_, hole) else Some (later, other)
      | Some at_, None => Some (at_, hole)
      | None, found => found
      end
  end.

(** [FLAKE_CHUNKS] and [FLAKE_HOLES]: each chunk but the last is followed by a hole; a
    unit of fuel per hole. *)
Fixpoint split_holes (n : nat) (text : string) : list (string * FlakeHole) * string :=
  match n with
  | O => ([], text)
  | S n =>
      match next_hole text holes_wanted with
      | None => ([], text)
      | Some (at_, hole) =>
          let '(chunks, last) := split_holes n (skip (at_ + String.length (hole_marker hole)) text) in
          ((String.substring 0 at_ text, hole) :: chunks, last)
      end
  end.

Definition flake_template : list (string * FlakeHole) * string :=
  let text := default "" marked_flake in split_holes (String.length text) text.

(** [FlakeConfig::render]. *)
Definition fill_hole (c : FlakeConfig) (hole : FlakeHole) : string :=
  match hole with
  | Hole_Username => write_key (fc_username c)
  | Hole_System => write_key (system_key (fc_system c))
  | Hole_Rev pin => pin_of (fc_revs c) pin
  end.

Definition flake_render (c : FlakeConfig) : string :=
  let '(chunks, last) := flake_template in
  foldr (λ chunk rest, chunk.1 +:+ fill_hole c chunk.2 +:+ rest) last chunks.

(** ** [facts.rs] *)

Section Facts.
Context (FACTS CHECK : string).

(** [Expr::string] of each name. *)
Fixpoint string_exprs (names : list string) : result NulByte (list Expr) :=
  match names with
  | [] => Ok []
  | name :: names => e ← expr_string name; rest ← string_exprs names; Ok (e :: rest)
  end.

Definition names_list (names : list string) : result NulByte (option string) :=
  exprs ← string_exprs names; Ok (print (Expr_List exprs)).

Definition package_facts (names : list string) : result NulByte (option string) :=
  list ← names_list names;
  Ok (text ← list; Some ("pkgs: (" +:+ trim_end FACTS +:+ ") pkgs " +:+ text)).

Definition derivations (names : list string) : result NulByte (option string) :=
  list ← names_list names;
  Ok (text ← list; Some ("pkgs: map (name: pkgs.${name}.drvPath) " +:+ text)).

Definition package_checks (names : list string) : result NulByte (option string) :=
  list ← names_list names;
  Ok (text ← list;
      Some ("pkgs: let names = " +:+ text +:+ "; in { facts = (" +:+ trim_end FACTS +:+
            ") pkgs names; checks = (" +:+ trim_end CHECK +:+ ") pkgs names; }")).

End Facts.
