(* ===== verification/NixFilesSpec.v ===== *)
(** * The files mean what they are written for

    The home module and the flake, which are written call by call and, for the flake, filled
    into a template split when the program is built, are the text of one expression; parsing
    the file gives that expression, whatever the user's name, directories and packages. *)
From S2P Require Import Prelude.
From S2P Require Import Chars.
From S2P Require Import Paths.
From S2P Require Import Pins.
From S2P Require Import Nix.
From S2P Require Import NixParse.
From S2P Require Import NixReads.
From S2P Require Import NixText.
From S2P Require Import NixOrder.
From S2P Require Import NixRound.
From S2P Require Import NixReadBack.
From S2P Require Import NixFiles.

Local Open Scope nat_scope.

(** ** Writers that write the same *)

#[export] Instance writer_equiv : Equiv Writer := λ w w', ∀ d, w d = w' d.
#[export] Instance writer_equivalence : Equivalence (≡@{Writer}).
Proof.
  split; [done|by intros w w' Hw d|]. intros w1 w2 w3 H12 H23 d. by rewrite (H12 d).
Qed.

#[export] Instance in_turn_proper : Proper ((≡) ==> (≡@{Writer})) in_turn.
Proof.
  induction 1 as [|w w' ws ws' Hw _ IH]; intros d; [done|]. cbn [in_turn].
  by rewrite (Hw d), (IH d).
Qed.

(** The same calls, where text that needs no escape may be written as it is. *)
Inductive call_equiv : StrCall → StrCall → Prop :=
  | same_lit text : call_equiv (Call_Lit text) (Call_Lit text)
  | verbatim_lit text : is_verbatim text = true → call_equiv (Call_Verbatim text) (Call_Lit text)
  | same_interp w w' : w ≡ w' → call_equiv (Call_Interp w) (Call_Interp w').

Lemma verbatim_byte_written c text :
  verbatim_byte c = true → write_escaped (String c text) = String c (write_escaped text).
Proof. intros Hc. rewrite !write_escaped_plain. apply escaped_plain. by left. Qed.

Lemma write_escaped_verbatim text : is_verbatim text = true → write_escaped text = text.
Proof.
  induction text as [|c text IH]; [done|]. unfold is_verbatim in *. rewrite string_all_cons.
  intros [Hc Ht]%andb_true_iff. by rewrite verbatim_byte_written, IH.
Qed.

Lemma verbatim_no_dollar text : is_verbatim text = true → strip_suffix "$" text = None.
Proof.
  intros Hv. pose proof (strip_dollar text) as Hd. destruct (strip_suffix "$" text) as [body|]; [|done].
  subst text. exfalso. revert Hv. unfold is_verbatim.
  induction body as [|c body IH]; [done|]. rewrite app_cons_string, string_all_cons.
  intros [_ Hb]%andb_true_iff. by apply IH.
Qed.

Lemma str_calls_equiv calls calls' pending :
  Forall2 call_equiv calls calls' → str_calls pending calls ≡ str_calls pending calls'.
Proof.
  intros Hc. revert pending. induction Hc as [|call call' calls calls' Hcall _ IH]; intros pending; [done|].
  destruct Hcall as [text|text Hv|w w' Hw]; cbn [str_calls].
  - case_decide; [apply IH|]. apply in_turn_proper. repeat constructor.
    destruct (strip_suffix "$" text); apply in_turn_proper; repeat constructor; apply IH.
  - case_decide; [apply IH|]. rewrite (verbatim_no_dollar _ Hv), (write_escaped_verbatim _ Hv).
    intros d. pose proof (IH false d) as Hd. cbn [in_turn]. rewrite Hd.
    destruct (str_calls false calls' d); simpl; by rewrite ?app_nil_string, ?app_empty_string.
  - apply in_turn_proper. repeat constructor; [apply Hw|apply IH].
Qed.

Lemma write_string_equiv calls calls' :
  Forall2 call_equiv calls calls' → write_string calls ≡ write_string calls'.
Proof. intros Hc. apply in_turn_proper. repeat constructor. by apply str_calls_equiv. Qed.

Lemma write_lambda_equiv formals ellipsis w w' :
  w ≡ w' → write_lambda formals ellipsis w ≡ write_lambda formals ellipsis w'.
Proof. intros Hw. apply in_turn_proper. repeat constructor. apply Hw. Qed.

Definition entry_equiv (a b : Key * Writer) : Prop := a.1 = b.1 ∧ a.2 ≡ b.2.

Lemma write_entries_equiv es es' last :
  Forall2 entry_equiv es es' → write_entries last es ≡ write_entries last es'.
Proof.
  intros He. revert last. induction He as [|[k w] [k' w'] es es' [Hk Hw] _ IH]; intros last; [done|].
  simpl in Hk, Hw. subst k'. cbn [write_entries].
  destruct (match last with Some last => key_lt last k | None => true end); [|done]. intros d.
  apply in_turn_proper. repeat constructor; [|apply IH].
  intros _. apply in_turn_proper. repeat constructor. apply Hw.
Qed.

Lemma write_attrs_equiv es es' : Forall2 entry_equiv es es' → write_attrs es ≡ write_attrs es'.
Proof.
  intros He. destruct He as [|e e' es es' Hee He]; [done|]. intros d. cbn [write_attrs].
  apply in_turn_proper. repeat constructor. by apply write_entries_equiv; constructor.
Qed.

Lemma write_items_equiv ws ws' opened : ws ≡ ws' → write_items opened ws ≡ write_items opened ws'.
Proof.
  intros Hw. revert opened. induction Hw as [|w w' ws ws' Hw _ IH]; intros opened; [done|].
  intros d. apply in_turn_proper. repeat constructor; [|apply IH].
  intros _. apply in_turn_proper. repeat constructor. apply Hw.
Qed.

Lemma write_list_equiv ws ws' : ws ≡ ws' → write_list ws ≡ write_list ws'.
Proof.
  intros Hw. destruct Hw as [|w w' ws ws' Hww Hw]; [done|]. intros d. cbn [write_list].
  apply in_turn_proper. repeat constructor. by apply write_items_equiv; constructor.
Qed.

(** ** A file of one expression *)

Lemma header_skipped s : trivia false (GENERATED_HEADER +:+ s) = trivia false s.
Proof. done. Qed.

Lemma expr_trivia n s : expr (S n) (trivia false s) = expr (S n) s.
Proof. cbn [expr]. by rewrite !trivia_step, trivia_idem. Qed.

(** The text of an expression after the header is parsed as the expression. *)
Lemma file_parses e w :
  well_formed e = true → w ≡ write_expr e →
  ∃ text, in_turn [push_str GENERATED_HEADER; w; push_str newline] 0 = Some text ∧
    parse text = Some (Ok (normalize e)).
Proof.
  intros Hwf Hw. destruct (well_formed_writes e Hwf 0) as [t Ht].
  exists (GENERATED_HEADER +:+ t +:+ newline). split.
  { apply in_turn_cons. eexists _, _. split; [done|]. split; [|done].
    apply in_turn_cons. exists t, newline. by rewrite (Hw 0). }
  set (text := GENERATED_HEADER +:+ t +:+ newline). set (n := 8 * String.length text + 7).
  assert (Hn : parse_fuel text = S n) by (unfold parse_fuel, n; lia).
  assert (He : gives (expr (S n) text) (normalize e) (trivia false newline)).
  { rewrite <- expr_trivia. unfold text. rewrite header_skipped, expr_trivia.
    apply (rd_reads _ (all_readable e Hwf) _ _ Ht). done. }
  unfold parse, parse_with. rewrite Hn. unfold mbind at 2, P_bind at 1.
  destruct He as [He|He]; [|by rewrite He].
  destruct (fu_expr _ (all_fuelled (S n)) text) as (r & Hs & _); [unfold n; lia|]. congruence.
Qed.

(** ** The home module *)

(** What a home module says. *)
Definition copy_parts (index : nat) (copy : CopyIntoGeneration) : list (StrPart Expr) :=
  [Part_Lit (if decide (index = 0) then CP else NEXT_CP); Part_Interp (Expr_Path (copy_source copy));
   Part_Lit INTO_OUT; Part_Lit (copy_target copy)].

Definition home_attrs (m : HomeModule) : list (Key * Expr) :=
  (if decide (hm_generation_files m = []) then []
   else [(BUILDER_COMMANDS_KEY, Expr_Str (concat (imap copy_parts (hm_generation_files m))))]) ++
  [(HOME_DIRECTORY_KEY, Expr_Str [Part_Lit (hm_home_directory m)]);
   (PACKAGES_KEY,
    Expr_List ((λ p, Expr_Select (Expr_Var "pkgs") (key_of_ident p) []) <$> hm_packages m));
   (STATE_VERSION_KEY, Expr_Str [Part_Lit (hm_state_version m)]);
   (USERNAME_KEY, Expr_Str [Part_Lit (hm_username m)])].

Definition home_expr (m : HomeModule) : Expr :=
  Expr_Lambda ["pkgs"] true (Expr_Attrs [(HOME_KEY, Expr_Attrs (home_attrs m))]).

Lemma verbatim_all f text :
  (∀ c, f c = true → verbatim_byte c = true) → string_all f text = true → is_verbatim text = true.
Proof. apply string_all_impl. Qed.

Lemma file_name_rel_path b text :
  file_name_bytes b text = true → string_all rel_path_byte text = true.
Proof.
  revert b. induction text as [|c text IH]; intros b; [done|]. rewrite string_all_cons.
  cbn [file_name_bytes]. intros [Hc Ht]%andb_true_iff. rewrite (IH _ Ht), andb_true_r.
  unfold rel_path_byte. destruct (is_ascii_lowercase c); [done|]. destruct (is_ascii_digit c); [done|].
  simpl in *. apply orb_true_iff in Hc as [[-> _]%andb_true_iff|Hc]; [done|].
  apply andb_true_iff in Hc as [[-> _]%andb_true_iff _]. by rewrite orb_true_r.
Qed.

Lemma file_name_path name : is_file_name name = true → is_rel_path name = true.
Proof.
  intros [Hne Hb]%andb_true_iff. pose proof (file_name_rel_path _ _ Hb) as Hall.
  destruct name as [|c name]; [done|]. cbn [is_rel_path]. rewrite Hall, andb_true_r.
  cbn [file_name_bytes] in Hb. apply andb_true_iff in Hb as [Hc _].
  destruct (Ascii.eqb_spec c "."); [subst c; vm_compute in Hc; by destruct name|done].
Qed.

Lemma rel_path_byte_verbatim c : rel_path_byte c = true → verbatim_byte c = true.
Proof. by all_chars c. Qed.

Lemma file_name_verbatim name : is_file_name name = true → is_verbatim name = true.
Proof.
  intros [_ Hb]%andb_true_iff. apply (verbatim_all rel_path_byte); [apply rel_path_byte_verbatim|].
  by eapply file_name_rel_path.
Qed.

Lemma verbatim_nul_free text : is_verbatim text = true → contains_nul text = false.
Proof.
  induction text as [|c text IH]; [done|]. unfold is_verbatim. rewrite string_all_cons.
  intros [Hc Ht]%andb_true_iff. change (String c text) with (one c +:+ text).
  rewrite contains_nul_app, (IH Ht), orb_false_r. revert Hc. by all_chars c.
Qed.

Lemma state_version_verbatim s : is_state_version s = true → is_verbatim s = true.
Proof.
  intros Hs. destruct s as [|a [|b [|dot s]]]; try done.
  assert (dot = "."%char) as ->.
  { destruct dot as [[] [] [] [] [] [] [] []]; try done. }
  destruct s as [|c [|d [|]]]; try done.
  cbn [is_state_version] in Hs. apply andb_true_iff in Hs as [[Ha Hb]%andb_true_iff Hcd].
  unfold is_verbatim. rewrite !string_all_cons.
  assert (Hdigit : ∀ x, is_ascii_digit x = true → verbatim_byte x = true) by (intros x; by all_chars x).
  rewrite !Hdigit by done. simpl.
  apply orb_true_iff in Hcd as [[Hc Hd]%andb_true_iff|[Hc Hd]%andb_true_iff];
    apply Ascii.eqb_eq in Hc, Hd; by subst.
Qed.

(** What the constructors of a home module check. *)
Definition home_ok (m : HomeModule) : Prop :=
  contains_nul (hm_username m) = false ∧ contains_nul (hm_home_directory m) = false ∧
  is_state_version (hm_state_version m) = true ∧
  Forall (λ p, is_identifier p = true) (hm_packages m) ∧
  Forall (λ c, is_file_name (copy_source c) = true ∧ is_file_name (copy_target c) = true)
    (hm_generation_files m).

Lemma idents_spec names l : idents names = Ok l → l = names ∧ Forall (λ p, is_identifier p = true) l.
Proof.
  revert l. induction names as [|n names IH]; intros l; cbn [idents]; [by intros [= <-]|].
  destruct (is_identifier n) eqn:Hn; [|done]. unfold mbind, result_bind.
  destruct (idents names) as [rest|e] eqn:Hr; [|done]. intros [= <-].
  destruct (IH rest eq_refl) as [-> Hall]. auto.
Qed.

Lemma nix_str_new_ok s t : nix_str_new s = Ok t → t = s ∧ contains_nul t = false.
Proof. unfold nix_str_new. destruct (contains_nul s) eqn:Hs; [done|]. by intros [= <-]. Qed.

Lemma home_module_new_spec user home version m :
  home_module_new user home version = Ok m →
  m = mkHomeModule user (display home) version [] [] ∧
  contains_nul user = false ∧ contains_nul (display home) = false.
Proof.
  unfold home_module_new, user_name_new, home_dir_new, mbind, result_bind.
  destruct (nix_str_new user) as [name|] eqn:Hu; [|done]. apply nix_str_new_ok in Hu as [-> Hu].
  destruct (negb (string_all blank_char user)); [|done].
  destruct (negb (is_absolute_path home)); [done|].
  unfold from_utf8. destruct (utf8_from 0 0 0 (display home)); [|done].
  destruct (nix_str_new (display home)) as [dir|] eqn:Hh; [|done].
  apply nix_str_new_ok in Hh as [-> Hh]. by intros [= <-].
Qed.

Section Home.
Context (m : HomeModule) (Hm : home_ok m).

Lemma copy_calls_equiv :
  Forall2 call_equiv (copy_calls m) (calls_of (concat (imap copy_parts (hm_generation_files m)))).
Proof.
  destruct Hm as (_ & _ & _ & _ & Hc). unfold copy_calls.
  assert (H : ∀ (f : nat → nat), Forall2 call_equiv
    (concat (imap (λ i copy, [Call_Verbatim (if decide (f i = 0) then CP else NEXT_CP);
      Call_Interp (write_path (copy_source copy)); Call_Lit INTO_OUT; Call_Verbatim (copy_target copy)])
      (hm_generation_files m)))
    (calls_of (concat (imap (λ i, copy_parts (f i)) (hm_generation_files m))))); [|exact (H id)].
  induction Hc as [|copy copies [Hs Ht] _ IH]; intros f; [constructor|].
  cbn [imap concat]. unfold calls_of. rewrite map_app. apply Forall2_app.
  - unfold copy_parts. cbn [map]. repeat constructor; [by case_decide|]. by apply file_name_verbatim.
  - exact (IH (f ∘ S)).
Qed.

Lemma home_entries_equiv : Forall2 entry_equiv (home_entries m) (entry_writers (home_attrs m)).
Proof.
  unfold home_entries, home_attrs, entry_writers. rewrite map_app. apply Forall2_app.
  - case_decide; repeat constructor. cbn [snd]. apply write_string_equiv, copy_calls_equiv.
  - repeat constructor; cbn [snd].
    + cbn [write_expr]. apply write_list_equiv. rewrite map_map. clear Hm.
      induction (hm_packages m) as [|p l IH]; constructor; [|exact IH].
      intros d. cbn. by rewrite !app_nil_string.
    + apply write_string_equiv. repeat constructor. by apply state_version_verbatim, Hm.
Qed.

Lemma home_write_equiv : home_write m ≡ write_expr (home_expr m).
Proof.
  unfold home_expr. cbn [write_expr map]. fold (entry_writers (home_attrs m)).
  unfold home_write. change HOME_PKGS with "pkgs".
  refine (write_lambda_equiv _ _ _ _ (write_attrs_equiv _ _ _)). constructor; [|constructor].
  split; [done|]. exact (write_attrs_equiv _ _ home_entries_equiv).
Qed.

Lemma home_well_formed : well_formed (home_expr m) = true.
Proof.
  destruct Hm as (Hu & Hh & Hv & Hp & Hc). 
  assert (Hstr : ∀ t, contains_nul t = false → well_formed (Expr_Str [Part_Lit t]) = true).
  { intros t Ht. cbn. by rewrite Ht. }
  assert (Hpkgs : well_formed (Expr_List
    ((λ p, Expr_Select (Expr_Var "pkgs") (key_of_ident p) []) <$> hm_packages m)) = true).
  { cbn [well_formed]. apply forallb_elem. intros e (p & -> & Hin)%list_elem_of_fmap.
    rewrite Forall_forall in Hp. specialize (Hp _ Hin). cbn [well_formed forallb].
    unfold key_ok, key_of_ident. simpl. rewrite Hp.
    destruct (identifier_cases _ Hp) as (c & w & -> & Hc' & Hw).
    rewrite (verbatim_nul_free (String c w)); [done|]. unfold is_verbatim. rewrite string_all_cons.
    apply andb_true_iff. split; [revert Hc'; by all_chars c|].
    apply (string_all_impl ident_byte); [intros x; by all_chars x|done]. }
  assert (Hcopies : well_formed (Expr_Str (concat (imap copy_parts (hm_generation_files m)))) = true).
  { cbn [well_formed]. clear -Hc.
    assert (H : ∀ f : nat → nat, forallb (λ part, match part with
      | Part_Lit text => negb (contains_nul text) | Part_Interp inner => well_formed inner end)
      (concat (imap (λ i, copy_parts (f i)) (hm_generation_files m))) = true); [|exact (H id)].
    induction Hc as [|copy copies [Hs Ht] _ IH]; intros f; [done|].
    cbn [imap concat]. rewrite forallb_app. apply andb_true_iff. split; [|exact (IH (f ∘ S))].
    unfold copy_parts. cbn [forallb well_formed].
    rewrite (file_name_path _ Hs), (verbatim_nul_free (copy_target copy)) by by apply file_name_verbatim.
    by case_decide. }
  pose proof (verbatim_nul_free _ (state_version_verbatim _ Hv)) as Hv'.
  assert (Hattrs : increasing key_lt (map fst (home_attrs m)) = true ∧
    forallb (λ entry, key_ok entry.1 && well_formed entry.2) (home_attrs m) = true).
  { unfold home_attrs. case_decide; (split; [done|]); cbn [app forallb fst snd];
      by rewrite ?Hcopies, !Hstr, Hpkgs. }
  destruct Hattrs as [Hi Hall]. unfold home_expr. cbn [well_formed map forallb fst snd].
  by rewrite Hi, Hall.
Qed.

End Home.

(** C28. A home module that the constructors accept is rendered without a failed assertion, and
    the file says what it was made of and nothing else: parsing it gives the function of the
    packages, the directory, the release and the name, with a command for each file to copy,
    whatever quotes, dollars or braces the name and the directory hold. *)
Theorem home_reads user home version names copies m0 m1 :
  is_state_version version = true →
  Forall (λ c, is_file_name (copy_source c) = true ∧ is_file_name (copy_target c) = true) copies →
  home_module_new user home version = Ok m0 →
  home_packages m0 names = Ok m1 →
  ∃ text, home_render (fold_left copy_into_generation copies m1) = Some text ∧
    parse text = Some (Ok (normalize (home_expr
      (mkHomeModule user (display home) version names copies)))).
Proof.
  intros Hv Hc (-> & Hu & Hh)%home_module_new_spec Hp.
  unfold home_packages, mbind, result_bind in Hp.
  destruct (idents names) as [l|] eqn:Hl; [|done]. injection Hp as <-.
  apply idents_spec in Hl as [-> Hl].
  assert (Hfold : ∀ files, fold_left copy_into_generation copies
    (mkHomeModule user (display home) version names files) =
    mkHomeModule user (display home) version names (files ++ copies)).
  { clear. induction copies as [|c copies IH]; intros files; [by rewrite app_nil_r|].
    cbn [fold_left]. unfold copy_into_generation at 2. simpl. by rewrite IH, <- app_assoc. }
  simpl. rewrite Hfold. set (m := mkHomeModule _ _ _ _ _).
  assert (Hm : home_ok m) by done.
  exact (file_parses _ _ (home_well_formed m Hm) (home_write_equiv m Hm)).
Qed.

Lemma home_reads_witness :
  let user := "${x}" +:+ one QUOTE in
  let copies := [mkCopy "state.json" "mix-state"] in
  ∃ text,
    home_render (fold_left copy_into_generation copies
      (mkHomeModule user "/home" "25.05" ["git"] [])) = Some text ∧
    parse text = Some (Ok (normalize (home_expr
      (mkHomeModule user (display [RootDir; Normal "home"]) "25.05" ["git"] copies)))).
Proof.
  intros user copies.
  apply (home_reads user [RootDir; Normal "home"] "25.05" ["git"] copies
    (mkHomeModule user "/home" "25.05" [] [])); [reflexivity|repeat constructor|reflexivity..].
Defined.

(** ** The flake *)

(** Text in pieces, to compare two ways of joining them. *)
Inductive pieces := Leaf (s : string) | Join (a b : pieces).
Fixpoint text_of (p : pieces) : string :=
  match p with Leaf s => s | Join a b => text_of a +:+ text_of b end.
Fixpoint flat (p : pieces) (rest : string) : string :=
  match p with Leaf s => s +:+ rest | Join a b => flat a (flat b rest) end.

Lemma text_of_flat p rest : text_of p +:+ rest = flat p rest.
Proof.
  revert rest. induction p as [s|a IHa b IHb]; intros rest; [done|]. simpl.
  by rewrite app_assoc_string, IHb, IHa.
Qed.

Lemma pieces_equal p q : flat p "" = flat q "" → text_of p = text_of q.
Proof. rewrite <- !text_of_flat, !app_nil_string. done. Qed.

Ltac reify t :=
  lazymatch t with
  | ?a +:+ ?b => let p := reify a in let q := reify b in constr:(Join p q)
  | _ => constr:(Leaf t)
  end.

(** The template filled is the flake written in full. *)
Lemma template_filled sys key hm np :
  hm ≠ "" → np ≠ "" →
  in_turn [push_str GENERATED_HEADER; write_flake key (system_key sys) (mkPins hm np);
           push_str newline] 0 =
  Some (flake_render (mkFlakeConfig sys key (mkPins hm np))).
Proof.
  intros Hhm Hnp. destruct hm as [|a hm]; [done|]. destruct np as [|b np]; [done|]. clear Hhm Hnp.
  unfold flake_render. let t := eval vm_compute in flake_template in change flake_template with t.
  cbn [foldr fst snd fill_hole fc_username fc_revs fc_system pin_of home_manager nixpkgs].
  change (write_flake key (system_key sys)) with
    (write_flake (mkKey (write_key key) true) (mkKey (write_key (system_key sys)) true)).
  generalize (write_key key) (write_key (system_key sys)). intros k k2.
  match goal with |- ?l = _ => let t := eval cbv -[String.append] in l in change l with t end.
  f_equal.
  match goal with |- ?l = ?r =>
    let p := reify l in let q := reify r in
    change l with (text_of p); change r with (text_of q) end.
  apply pieces_equal. reflexivity.
Qed.

(** What a flake says. *)
Definition plain (s : string) : Expr := Expr_Str [Part_Lit s].

Definition github_parts (owner repo rev : string) : Expr :=
  Expr_Str (Part_Lit <$> [GITHUB; owner; "/"; repo; "/"; rev]).

Definition flake_expr (system : System) (username : Key) (hm np : string) : Expr :=
  Expr_Attrs
    [(static_key "description", plain "Generated by mix");
     (INPUTS_KEY, Expr_Attrs
       [(static_key "home-manager", Expr_Attrs
          [(INPUTS_KEY, Expr_Attrs [(static_key "nixpkgs", Expr_Attrs [(FOLLOWS, plain "nixpkgs")])]);
           (URL, github_parts "nix-community" "home-manager" hm)]);
        (static_key "nixpkgs", Expr_Attrs [(URL, github_parts "NixOS" "nixpkgs" np)])]);
     (static_key "outputs", Expr_Lambda ["home-manager"; "nixpkgs"] true (Expr_Attrs
       [(static_key "homeConfigurations", Expr_Attrs
         [(username,
           Expr_Apply
             (Expr_Select (Expr_Var "home-manager") (static_key "lib")
               [static_key "homeManagerConfiguration"])
             (Expr_Attrs
               [(static_key "modules", Expr_List [Expr_Path "home.nix"]);
                (static_key "pkgs",
                 Expr_Select (Expr_Var "nixpkgs") (static_key "legacyPackages") [system_key system])]))])]))].

Lemma write_flake_equiv system username hm np :
  is_verbatim hm = true → is_verbatim np = true →
  write_flake username (system_key system) (mkPins hm np) ≡
  write_expr (flake_expr system username hm np).
Proof.
  intros Hhm Hnp. unfold write_flake, flake_expr. cbn [write_expr map].
  assert (Hgithub : ∀ owner repo rev, is_verbatim owner = true → is_verbatim repo = true →
    is_verbatim rev = true →
    write_string [Call_Verbatim GITHUB; Call_Verbatim owner; Call_Verbatim "/"; Call_Verbatim repo;
      Call_Verbatim "/"; Call_Verbatim rev] ≡ write_expr (github_parts owner repo rev)).
  { intros owner repo rev Ho Hr Hv. refine (write_string_equiv _ _ _). by repeat constructor. }
  refine (write_attrs_equiv _ _ _). constructor; [done|]. constructor; [|constructor; [done|constructor]].
  split; [done|]. refine (write_attrs_equiv _ _ _).
  constructor; [|constructor; [|constructor]]; (split; [done|]); refine (write_attrs_equiv _ _ _).
  - constructor; [done|]. constructor; [|constructor]. split; [done|]. by apply Hgithub.
  - constructor; [|constructor]. split; [done|]. by apply Hgithub.
Qed.

Lemma rev_verbatim s : is_rev s = true → is_verbatim s = true ∧ s ≠ "".
Proof.
  unfold is_rev. intros [Hl Hs]%andb_true_iff. split.
  - revert Hs. apply string_all_impl. intros c. by all_chars c.
  - intros ->. done.
Qed.

Lemma flake_well_formed system username hm np :
  key_ok username = true → is_verbatim hm = true → is_verbatim np = true →
  well_formed (flake_expr system username hm np) = true.
Proof.
  intros Hk Hhm%verbatim_nul_free Hnp%verbatim_nul_free. unfold flake_expr, plain, github_parts.
  cbn -[key_ok contains_nul]. rewrite Hk, Hhm, Hnp. by destruct system.
Qed.


