(* ===== verification/Installable.v ===== *)
(** * Installables

    How [mix] names a flake and an attribute of it to Nix
    ([crates/nixgen/src/installable.rs]).  A [PathBuf] is the bytes of the path, which is
    what is encoded. *)
From S2P Require Import Prelude.
From S2P Require Import Pins.
From S2P Require Import Nix.

Local Open Scope nat_scope.

Inductive InvalidInstallable :=
  | RelativePath (dir : string)
  | EmptySegment
  | Invalid_Quote (segment : string)
  | Invalid_PublicKey (base64 : string).

(** [PublicKey::new]. *)
Definition base64_byte (b : ascii) : bool :=
  is_ascii_alphanumeric b || Ascii.eqb b "+" || Ascii.eqb b "/" || Ascii.eqb b "=".
Definition public_key_new (base64 : string) : result InvalidInstallable string :=
  if negb (base64 =s "") && string_all base64_byte base64 then Ok base64
  else Err (Invalid_PublicKey base64).

Inductive GitAt := GitAt_Branch (branch : string) | GitAt_Commit (rev : string).

Inductive FlakeRef :=
  | Flake_Path (dir : string)
  | Flake_GitFile (dir : string) (signer : option string) (at_ : option GitAt).

(** [absolute]. *)
Definition absolute_dir (dir : string) : result InvalidInstallable string :=
  if starts_with "/" dir then Ok dir else Err (RelativePath dir).

Definition flake_path (dir : string) : result InvalidInstallable FlakeRef :=
  dir ← absolute_dir dir; Ok (Flake_Path dir).
Definition git_file (dir : string) (signer : option string) : result InvalidInstallable FlakeRef :=
  dir ← absolute_dir dir; Ok (Flake_GitFile dir signer None).
Definition git_at (dir : string) (at_ : GitAt) : result InvalidInstallable FlakeRef :=
  dir ← absolute_dir dir; Ok (Flake_GitFile dir None (Some at_)).

(** ** Percent encoding *)

Definition is_unreserved (b : ascii) : bool :=
  is_ascii_alphanumeric b || Ascii.eqb b "-" || Ascii.eqb b "." || Ascii.eqb b "_" || Ascii.eqb b "~".
Definition is_path_byte (b : ascii) : bool := is_unreserved b || Ascii.eqb b "/".

(** [HEX], by the bits of a nibble, the lowest first. *)
Definition hex_digit (b0 b1 b2 b3 : bool) : ascii :=
  default "0"%char (String.get (N.to_nat (N_of_ascii (Ascii b0 b1 b2 b3 false false false false)))
    "0123456789ABCDEF").

Definition encode_byte (keep : ascii → bool) (b : ascii) : string :=
  if keep b then one b
  else
    let '(Ascii b0 b1 b2 b3 b4 b5 b6 b7) := b in
    String "%" (String (hex_digit b4 b5 b6 b7) (one (hex_digit b0 b1 b2 b3))).

Fixpoint percent_encode (keep : ascii → bool) (s : string) : string :=
  match s with "" => "" | String b rest => encode_byte keep b +:+ percent_encode keep rest end.

(** [write_path]. *)
Definition encoded_path (dir : string) : string := percent_encode is_path_byte dir.

(** [FlakeRef::write]. *)
Definition write_at (at_ : GitAt) : string :=
  match at_ with
  | GitAt_Branch branch => "ref=" +:+ percent_encode is_unreserved branch
  | GitAt_Commit rev => "rev=" +:+ percent_encode is_unreserved rev
  end.

Definition flake_write (f : FlakeRef) : string :=
  match f with
  | Flake_Path dir => "path:" +:+ encoded_path dir
  | Flake_GitFile dir signer at_ =>
      "git+file://" +:+ encoded_path dir +:+
      match at_ with Some at_ => "?" +:+ write_at at_ | None => "" end +:+
      match signer with
      | Some key =>
          match at_ with Some _ => "&" | None => "?" end +:+ "verifyCommit=1&keytype=ssh-ed25519&publicKey=" +:+
          percent_encode is_unreserved key
      | None => ""
      end
  end.

(** ** Attribute paths *)

Definition holds_quote (s : string) : bool := string_any (λ c, Ascii.eqb c QUOTE) s.

Fixpoint segments_new (segments : list string) : result InvalidInstallable (list string) :=
  match segments with
  | [] => Ok []
  | segment :: segments =>
      if segment =s "" then Err EmptySegment
      else if holds_quote segment then Err (Invalid_Quote segment)
      else segments ← segments_new segments; Ok (segment :: segments)
  end.

(** [AttrPath::new]. *)
Definition attr_path_new (segments : list string) : result InvalidInstallable (list string) :=
  segments ← segments_new segments;
  match segments with [] => Err EmptySegment | _ => Ok segments end.

Definition write_segment (segment : string) : string :=
  if is_identifier segment then segment else one QUOTE +:+ segment +:+ one QUOTE.

(** The loop of [AttrPath::write]. *)
Fixpoint fragment (first : bool) (segments : list string) : string :=
  match segments with
  | [] => ""
  | segment :: segments =>
      (if first then "" else ".") +:+ write_segment segment +:+ fragment false segments
  end.

Definition attr_path_write (segments : list string) : string :=
  percent_encode is_unreserved (fragment true segments).

Record Installable := mkInstallable { inst_flake : FlakeRef; inst_attr_path : list string }.

(** [Installable::render]. *)
Definition installable_render (i : Installable) : string :=
  flake_write (inst_flake i) +:+ "#" +:+ attr_path_write (inst_attr_path i).

Example renders_a_signed_git_flake :
  installable_render (mkInstallable (Flake_GitFile "/home/a#b" (Some "ab+") (Some (GitAt_Branch "x/y")))
    ["packages"; "x.y"]) =
  "git+file:///home/a%23b?ref=x%2Fy&verifyCommit=1&keytype=ssh-ed25519&publicKey=ab%2B#packages.%22x.y%22".
Proof. reflexivity. Qed.

(** ** Two installables that render alike are the same *)

(** The rest of a text where what is encoded ends. *)
Definition stops (keep : ascii → bool) (rest : string) : Prop :=
  match rest with "" => True | String c _ => keep c = false ∧ c ≠ "%"%char end.

Lemma hex_digit_inj a0 a1 a2 a3 b0 b1 b2 b3 :
  hex_digit a0 a1 a2 a3 = hex_digit b0 b1 b2 b3 → (a0, a1, a2, a3) = (b0, b1, b2, b3).
Proof. by destruct a0, a1, a2, a3, b0, b1, b2, b3. Qed.

Lemma encode_byte_cons keep c :
  keep "%"%char = false →
  ∃ h t, encode_byte keep c = String h t ∧ (keep h = true ∨ h = "%"%char).
Proof.
  intros Hk. unfold encode_byte. destruct (keep c) eqn:Hc; [by exists c, ""; auto|].
  destruct c. eexists _, _. split; [done|]. by right.
Qed.

Lemma encode_byte_inj keep a b x y :
  keep "%"%char = false → encode_byte keep a +:+ x = encode_byte keep b +:+ y → a = b ∧ x = y.
Proof.
  intros Hk. unfold encode_byte, one. destruct (keep a) eqn:Ha, (keep b) eqn:Hb.
  - rewrite !app_cons_string, !app_empty_string. by intros [= -> ->].
  - destruct b. rewrite !app_cons_string. intros [= -> _]. congruence.
  - destruct a. rewrite !app_cons_string. intros [= <- _]. congruence.
  - destruct a, b. rewrite !app_cons_string, !app_empty_string.
    intros [= H1%hex_digit_inj H2%hex_digit_inj ->]. split; [|done]. congruence.
Qed.

Lemma percent_encode_split keep a b x y :
  keep "%"%char = false → stops keep x → stops keep y →
  percent_encode keep a +:+ x = percent_encode keep b +:+ y → a = b ∧ x = y.
Proof.
  intros Hk Hx Hy. revert b. induction a as [|c a IH]; intros b; cbn [percent_encode].
  - destruct b as [|d b]; cbn [percent_encode]; [done|]. intros He. exfalso.
    destruct (encode_byte_cons keep d Hk) as (h & t & Hd & Hh). rewrite Hd in He.
    rewrite app_empty_string, !app_cons_string in He. subst x. destruct Hx. destruct Hh; congruence.
  - destruct b as [|d b]; cbn [percent_encode].
    + intros He. exfalso. destruct (encode_byte_cons keep c Hk) as (h & t & Hd & Hh). rewrite Hd in He.
      rewrite app_empty_string, !app_cons_string in He. subst y. destruct Hy. destruct Hh; congruence.
    + rewrite !app_assoc_string. intros [-> [-> ->]%IH]%encode_byte_inj; done.
Qed.

Lemma segments_new_spec segments l :
  segments_new segments = Ok l → l = segments ∧ Forall (λ s, s ≠ "" ∧ holds_quote s = false) l.
Proof.
  revert l. induction segments as [|s segments IH]; intros l; cbn [segments_new]; [by intros [= <-]|].
  destruct (s =s "") eqn:Hs; [done|]. destruct (holds_quote s) eqn:Hq; [done|].
  unfold mbind, result_bind. destruct (segments_new segments) as [l'|]; [|done]. intros [= <-].
  destruct (IH l' eq_refl) as [-> Hall]. split; [done|]. constructor; [|done].
  split; [by apply String.eqb_neq|done].
Qed.

(** A text of bytes that satisfy [f] ends where one does not. *)
Lemma run_split f a b x y :
  string_all f a = true → string_all f b = true →
  match x with "" => True | String c _ => f c = false end →
  match y with "" => True | String c _ => f c = false end →
  a +:+ x = b +:+ y → a = b ∧ x = y.
Proof.
  intros Ha Hb Hx Hy. revert b Hb. induction a as [|c a IH]; intros [|d b] Hb.
  - done.
  - rewrite app_empty_string, app_cons_string. intros ->.
    unfold string_all in Hb. simpl in Hb. by rewrite Hx in Hb.
  - rewrite app_empty_string, app_cons_string. intros <-.
    unfold string_all in Ha. simpl in Ha. by rewrite Hy in Ha.
  - rewrite !app_cons_string. intros [= -> He]. unfold string_all in *. simpl in *.
    rewrite negb_orb in Ha, Hb. apply andb_true_iff in Ha as [_ Ha], Hb as [_ Hb].
    destruct (IH Ha b Hb He) as [-> ->]. done.
Qed.

Lemma identifier_bytes s :
  is_identifier s = true → string_all ident_byte s = true ∧
  ∃ c rest, s = String c rest ∧ Ascii.eqb c QUOTE = false.
Proof.
  destruct s as [|c s]; [done|]. cbn [is_identifier].
  intros [[Hc Hs]%andb_true_iff _]%andb_true_iff. split.
  - unfold string_all. simpl. rewrite negb_orb, negb_involutive. apply andb_true_iff. split; [|exact Hs].
    revert Hc. by destruct c as [[] [] [] [] [] [] [] []]; vm_compute.
  - exists c, s. split; [done|]. revert Hc. by destruct c as [[] [] [] [] [] [] [] []]; vm_compute.
Qed.

Definition segment_end (rest : string) : Prop := rest = "" ∨ ∃ s, rest = String "." s.

Lemma write_segment_split a b x y :
  holds_quote a = false → holds_quote b = false → segment_end x → segment_end y →
  write_segment a +:+ x = write_segment b +:+ y → a = b ∧ x = y.
Proof.
  intros Ha Hb Hx Hy. unfold write_segment, one.
  assert (Hend : ∀ r, segment_end r → match r with "" => True | String c _ => ident_byte c = false end).
  { by intros r [->|[s ->]]. }
  assert (Hquoted : ∀ s, holds_quote s = false → string_all (λ c, negb (Ascii.eqb c QUOTE)) s = true).
  { intros s Hs. unfold holds_quote in Hs. unfold string_all. apply negb_true_iff. rewrite <- Hs.
    clear. induction s as [|c s IH]; [done|]. simpl. by rewrite negb_involutive, IH. }
  destruct (is_identifier a) eqn:Hia, (is_identifier b) eqn:Hib.
  - intros He. apply (run_split ident_byte); [by apply identifier_bytes..|by apply Hend|by apply Hend|done].
  - destruct (identifier_bytes a Hia) as (_ & c & rest & -> & Hc). rewrite !app_cons_string.
    intros [= -> _]. done.
  - destruct (identifier_bytes b Hib) as (_ & c & rest & -> & Hc). rewrite !app_cons_string.
    intros [= <- _]. done.
  - rewrite !app_assoc_string, !app_cons_string, !app_empty_string. intros [= He].
    apply (run_split (λ c, negb (Ascii.eqb c QUOTE))) in He as [-> He]; [|by auto..].
    by injection He as ->.
Qed.

Lemma fragment_end segments : segment_end (fragment false segments).
Proof. destruct segments; [by left|right]. by eexists. Qed.

Lemma fragment_inj first a b :
  Forall (λ s, s ≠ "" ∧ holds_quote s = false) a → Forall (λ s, s ≠ "" ∧ holds_quote s = false) b →
  fragment first a = fragment first b → a = b.
Proof.
  intros Ha. revert first b. induction Ha as [|s a [Hs Hq] Ha IH]; intros first b Hb He.
  - destruct Hb as [|t b [Ht Htq] Hb]; [done|]. exfalso. cbn [fragment] in He.
    destruct first; [|done]. rewrite app_empty_string in He. unfold write_segment in He.
    destruct (is_identifier t), t; done.
  - destruct Hb as [|t b [Ht Htq] Hb]; cbn [fragment] in He.
    + exfalso. destruct first; [|done]. rewrite app_empty_string in He. unfold write_segment in He.
      destruct (is_identifier s), s; done.
    + assert (He' : write_segment s +:+ fragment false a = write_segment t +:+ fragment false b).
      { destruct first; [by rewrite !app_empty_string in He|]. by injection He. }
      apply write_segment_split in He' as [-> He']; [|done|done|apply fragment_end|apply fragment_end].
      by rewrite (IH false b Hb He').
Qed.

(** What comes after the path: the options and the attribute path. *)
Definition options (signer : option string) (at_ : option GitAt) : string :=
  match at_ with Some at_ => "?" +:+ write_at at_ | None => "" end +:+
  match signer with
  | Some key =>
      match at_ with Some _ => "&" | None => "?" end +:+
      "verifyCommit=1&keytype=ssh-ed25519&publicKey=" +:+ percent_encode is_unreserved key
  | None => ""
  end.

Lemma options_stop signer at_ x : stops is_path_byte (options signer at_ +:+ "#" +:+ x).
Proof. by destruct at_, signer. Qed.

Lemma hash_inj x y : "#" +:+ x = "#" +:+ y → x = y.
Proof. rewrite !app_cons_string, !app_empty_string. by intros [=]. Qed.

Lemma signer_split sa sb (mark : string) x y :
  (∃ m, mark = String m "" ∧ m ≠ "#"%char) →
  match sa with
  | Some key => mark +:+ "verifyCommit=1&keytype=ssh-ed25519&publicKey=" +:+ percent_encode is_unreserved key
  | None => ""
  end +:+ "#" +:+ x =
  match sb with
  | Some key => mark +:+ "verifyCommit=1&keytype=ssh-ed25519&publicKey=" +:+ percent_encode is_unreserved key
  | None => ""
  end +:+ "#" +:+ y →
  sa = sb ∧ x = y.
Proof.
  intros (m & -> & Hm). destruct sa as [ka|], sb as [kb|].
  - rewrite !app_assoc_string. intros He. injection He as He.
    apply percent_encode_split in He as [-> He]; [|done..]. by apply hash_inj in He as ->.
  - intros He. by injection He.
  - intros He. injection He as He. congruence.
  - rewrite !app_empty_string. by intros ->%hash_inj.
Qed.

Lemma options_split sa aa sb ab x y :
  options sa aa +:+ "#" +:+ x = options sb ab +:+ "#" +:+ y → sa = sb ∧ aa = ab ∧ x = y.
Proof.
  unfold options. destruct aa as [aa|], ab as [ab|]; rewrite !app_assoc_string.
  - intros He. injection He as He.
    assert (Hstop : ∀ s z, stops is_unreserved (match s with
      | Some key => "&" +:+ "verifyCommit=1&keytype=ssh-ed25519&publicKey=" +:+
          percent_encode is_unreserved key
      | None => "" end +:+ "#" +:+ z)) by by intros [].
    destruct aa as [a|a], ab as [b|b]; cbn [write_at] in He; rewrite !app_assoc_string, !app_empty_string in He;
      injection He as He; try done.
    all: apply percent_encode_split in He as [-> He]; [|done|apply Hstop..].
    all: by apply signer_split in He as [-> ->]; [|eexists].
  - intros He. exfalso. destruct sb as [kb|]; [|done]. injection He as He. by destruct aa.
  - intros He. exfalso. destruct sa as [ka|]; [|done]. injection He as He. by destruct ab.
  - rewrite !app_empty_string. intros He. apply signer_split in He as [-> ->]; [done|by eexists].
Qed.

(** C30. Two installables are written alike only when they are the same: no directory, branch,
    key or package name can hold a character that Nix would read as the end of its part, so
    what is asked of Nix is the flake and the attribute that were meant. *)
Theorem render_injective fa sa pa fb sb pb :
  attr_path_new sa = Ok pa → attr_path_new sb = Ok pb →
  installable_render (mkInstallable fa pa) = installable_render (mkInstallable fb pb) →
  fa = fb ∧ pa = pb.
Proof.
  intros Ha Hb. unfold attr_path_new, mbind, result_bind in Ha, Hb.
  destruct (segments_new sa) as [la|] eqn:Hla; [|done].
  destruct (segments_new sb) as [lb|] eqn:Hlb; [|done].
  assert (la = pa) as -> by by destruct la; simplify_eq.
  assert (lb = pb) as -> by by destruct lb; simplify_eq.
  apply segments_new_spec in Hla as [_ Hla], Hlb as [_ Hlb].
  assert (Hattr : attr_path_write pa = attr_path_write pb → pa = pb).
  { intros He. apply (fragment_inj true); [done|done|].
    unfold attr_path_write in He. rewrite <- (app_nil_string (percent_encode _ (fragment _ pa))),
      <- (app_nil_string (percent_encode _ (fragment _ pb))) in He.
    by apply percent_encode_split in He as [He _]. }
  unfold installable_render. cbn [inst_flake inst_attr_path].
  destruct fa as [da|da ka aa], fb as [db|db kb ab]; cbn [flake_write].
  - rewrite !app_assoc_string. intros He. injection He as He.
    apply percent_encode_split in He as [-> He%hash_inj]; [|done..]. auto.
  - intros He. by injection He.
  - intros He. by injection He.
  - fold (options ka aa). fold (options kb ab). rewrite !app_assoc_string.
    intros He. injection He as He.
    apply percent_encode_split in He as [-> He]; [|done|apply options_stop..].
    apply options_split in He as (-> & -> & He). auto.
Qed.

Lemma render_injective_witness :
  let f := Flake_GitFile "/home/a#b" (Some "ab+") (Some (GitAt_Branch "x/y")) in
  f = f ∧ ["packages"; "x.y"] = ["packages"; "x.y"].
Proof.
  intros f. apply (render_injective f ["packages"; "x.y"] _ f ["packages"; "x.y"]); reflexivity.
Defined.
