(* ===== verification/Plans.v ===== *)
(** * The plan of each request

    The steps that each request makes of the tree it declares: those of
    [crates/core/src/ops/health/mod.rs] ([reconcile_steps] and the steps it adds), of
    [ops/bootstrap/mod.rs] and of [ops/change/mod.rs].  [sp_actions] is total, so where the code
    would panic on a fact of another kind the step has no action here; the facts that answer
    its queries never lead there.

    What bootstrap ([crates/core/src/ops/bootstrap/mod.rs]) and a change of the packages,
    the pins or the generations ([ops/change/mod.rs]) plan; [set_aside_units] and the steps
    that remove ([ops/removal.rs], [ops/user_remove/mod.rs], [ops/purge/mod.rs]).

    The list of checks is an option because building a tree could index out of range; it
    never does. *)
From S2P Require Import Prelude.
From S2P Require Import Chars.
From S2P Require Import Numbers.
From S2P Require Import Paths.
From S2P Require Import Effect.
From S2P Require Import Events.
From S2P Require Import Runner.
From S2P Require Import Pins.
From S2P Require Import Packages.
From S2P Require Import Policy.
From S2P Require Import Declared.
From S2P Require Import DeclTree.
From S2P Require Import Targets.
From S2P Require Import Health.
From S2P Require Import Nix.
From S2P Require Import NixFiles.

Local Open Scope N_scope.

(** ** Steps *)


(** No action where the code panics. *)
Definition or_nothing (actions : option (list Action)) : result Failure (list Action) :=
  Ok (default [] actions).

(** ** [ops/health/mod.rs] *)

Section Steps.
Context `{ManifestJson} `{JsonValue V}.

(** [TargetStep]. *)
Definition target_title (t : Target) (verb : Verb) : Verb * string :=
  match t with
  | Target_Activation _ _ (Some verb) subject _ => (verb, subject)
  | Target_Retention _ _ _ => (Verb_Removing, "old generations")
  | _ => (verb, label t)
  end.

Definition target_actions (t : Target) (request : string) (facts : list Fact) :
    result Failure (list Action) :=
  match classify t facts with
  | Some (Some finding) =>
      match fix_target t finding facts request with
      | Some (Ok actions) => Ok actions
      | Some (Err reason) => Err (Failure_Unrepairable (label t) reason)
      | None => Ok []
      end
  | _ => Ok []
  end.

Definition target_step (offset : nat) (request : string) (verb : Verb) (check : Check) : StepSpec :=
  let t := ck_target check in
  mkStepSpec (label t) (target_title t verb) (queries t) (target_actions t request) false
    ((λ index, index + offset)%nat <$> ck_after check)
    ((ck_within check).1 + offset, (ck_within check).2 + offset)%nat.

Definition RESTART_NIX_DAEMON : string := "restart-nix-daemon".
Definition DRAIN_MIX_DAEMON : string := "drain-mix-daemon".
Definition RECORD : string := "record".

(** The order of [(i64, u32)]. *)
Definition later (a b : Z * N) : bool :=
  (b.1 <? a.1)%Z || ((a.1 =? b.1)%Z && (b.2 <? a.2)).

(** [stale_restart] of [ops/bootstrap/mod.rs]. *)
Definition stale_restart (service : UnitFacts) (configured : option (Z * N)) : list Action :=
  match active_since service, configured with
  | Some since, Some configured =>
      if (active_state service =s "active") && later configured since
      then [Action_RestartUnit NIX_DAEMON_SERVICE_UNIT] else []
  | _, _ => []
  end.

(** [RestartIfStale]. *)
Definition restart_actions (facts : list Fact) : option (list Action) :=
  fact ← facts !! 0%nat;
  match fact with
  | Fact_Unit service => (λ found, stale_restart service (pf_changed found)) <$> path_fact facts 1
  | _ => Some []
  end.

Definition restart_step (after : list nat) : StepSpec :=
  mkStepSpec RESTART_NIX_DAEMON (Verb_Restarting, "Nix daemon")
    [Query_Unit NIX_DAEMON_SERVICE_UNIT; Query_Path (of_string NIX_CONF_DEST)]
    (λ facts, or_nothing (restart_actions facts)) false after (0, 0)%nat.

(** [DrainIfStale]. *)
Definition DRAINED_BY : list string :=
  [MIX_DAEMON_BIN; MIX_DAEMON_SERVICE_DEST; MIX_DAEMON_SOCKET_DEST].

(** [Iterator::any] over the paths: those after the first that is stale are not looked at. *)
Fixpoint any_changed (since : Z * N) (facts : list Fact) (indexes : list nat) : option bool :=
  match indexes with
  | [] => Some false
  | index :: indexes =>
      found ← path_fact facts index;
      if match pf_changed found with Some changed => later changed since | None => false end
      then Some true else any_changed since facts indexes
  end.

Definition drain_actions (facts : list Fact) : option (list Action) :=
  fact ← facts !! 0%nat;
  match fact with
  | Fact_Unit service =>
      match active_since service with
      | Some since =>
          if active_state service =s "active" then
            stale ← any_changed since facts (seq 1 (length facts - 1));
            Some (if stale : bool then [Action_DrainService MIX_DAEMON_SERVICE_UNIT] else [])
          else Some []
      | None => Some []
      end
  | _ => Some []
  end.

Definition drain_step (after : list nat) : StepSpec :=
  mkStepSpec DRAIN_MIX_DAEMON (Verb_Restarting, "mix daemon")
    (Query_Unit MIX_DAEMON_SERVICE_UNIT :: (Query_Path ∘ of_string <$> DRAINED_BY))
    (λ facts, or_nothing (drain_actions facts)) false after (0, 0)%nat.

(** [Record]. *)
Definition record_actions (user : InvokingUser) (facts : list Fact) : option (list Action) :=
  fact ← facts !! 0%nat;
  Some (match fact with
        | Fact_Repository true false => [Action_RecordState user]
        | _ => []
        end).

Definition record_step (user : InvokingUser) (after : list nat) : StepSpec :=
  mkStepSpec RECORD (Verb_Recording, "configuration") [Query_Repository user]
    (λ facts, or_nothing (record_actions user facts)) true after (0, 0)%nat.

(** [at]: the step of the first check for such a target. *)
Definition step_at (offset : nat) (checks : list Check) (wanted : Target → bool) : option nat :=
  (λ index, index + offset)%nat <$> position (λ check, wanted (ck_target check) = true) checks.

Definition is_nix_conf (t : Target) : bool :=
  match t with Target_File at_ _ _ _ => bool_decide (at_ = of_string NIX_CONF_DEST) | _ => false end.
Definition is_unit (wanted : string) (t : Target) : bool :=
  match t with Target_SystemdUnit name _ _ => name =s wanted | _ => false end.
Definition is_program (t : Target) : bool := match t with Target_Program _ _ _ => true | _ => false end.
Definition is_activation (t : Target) : bool :=
  match t with Target_Activation _ _ _ _ _ => true | _ => false end.

(** The first history, with its user. *)
Fixpoint history_at (index : nat) (checks : list Check) : option (nat * InvokingUser) :=
  match checks with
  | [] => None
  | check :: checks =>
      match ck_target check with
      | Target_History _ user => Some (index, user)
      | _ => history_at (S index) checks
      end
  end.

(** The steps after those of the checks. *)
Definition follow_ups (offset : nat) (checks : list Check) : list StepSpec :=
  let at_ := step_at offset checks in
  match at_ (is_unit NIX_DAEMON_SERVICE_UNIT) with
  | Some service => [restart_step (option_list (at_ is_nix_conf) ++ [service])]
  | None => []
  end ++
  match at_ (is_unit MIX_DAEMON_SERVICE_UNIT) with
  | Some service => [drain_step (option_list (at_ is_program) ++ [service])]
  | None => []
  end ++
  match history_at offset checks with
  | Some (index, user) => [record_step user (index :: option_list (at_ is_activation))]
  | None => []
  end.

Definition reconcile_steps (before : list StepSpec) (checks : list Check) (request : string)
    (verb : Verb) : list StepSpec :=
  let offset := length before in
  before ++ (target_step offset request verb <$> checks) ++ follow_ups offset checks.

Definition repair_steps (checks : list Check) (request : string) : list StepSpec :=
  reconcile_steps [] checks request Verb_Repairing.

Definition target_steps (checks : list Check) (request : string) : list StepSpec :=
  target_step 0 request Verb_Repairing <$> checks.

End Steps.

(** ** [ops/removal.rs] *)

Definition path_of (fact : Fact) : option PathFacts :=
  match fact with Fact_Path found => Some found | _ => None end.

Definition set_aside (at_ : path) (found : PathFacts) : list Action :=
  match pf_id found with Some expect => [Action_SetAside at_ expect] | None => [] end.

Definition unit_links (fact : Fact) : option (list (path * FileId)) :=
  match fact with Fact_UnitLinks links => Some links | _ => None end.

(** The first loop: each link once. *)
Fixpoint aside_links (moved : list path) (links : list (path * FileId)) :
    list Action * list path :=
  match links with
  | [] => ([], moved)
  | (link, expect) :: links =>
      if decide (link ∈ moved) then aside_links moved links
      else
        let '(actions, moved) := aside_links (moved ++ [link]) links in
        (Action_SetAside link expect :: actions, moved)
  end.

(** The second: each file that was not moved as a link; a path fact is looked at only then. *)
Fixpoint aside_files (moved : list path) (files : list path) (found : list Fact) :
    option (list Action) :=
  match files, found with
  | file :: files, fact :: found =>
      if decide (file ∈ moved) then aside_files moved files found
      else
        facts ← path_of fact;
        let actions := set_aside file facts in
        rest ← aside_files (if decide (actions = []) then moved else moved ++ [file]) files found;
        Some (actions ++ rest)
  | _, _ => Some []
  end.

Definition set_aside_units (links : list Fact) (files : list path) (found : list Fact) :
    option (list Action) :=
  links ← mapM unit_links links;
  let '(actions, moved) := aside_links [] (concat links) in
  rest ← aside_files moved files found;
  let actions := actions ++ rest in
  Some (actions ++ if decide (actions = []) then [] else [Action_DaemonReload]).

Definition set_aside_each (paths : list path) (facts : list Fact) : option (list Action) :=
  @concat _ <$> mapM (λ entry, set_aside entry.1 <$> path_of entry.2) (zip paths facts).

(** [RemoveHome]. *)
Definition traces (user : InvokingUser) : list path := join_path (home user) <$> HOME_TRACES.

Definition remove_home_actions (user : InvokingUser) (facts : list Fact) : option (list Action) :=
  let traces := traces user in
  first ← facts !! 0%nat;
  linked ← match first with Fact_Linked linked => Some linked | _ => None end;
  rest ← set_aside_each traces (drop 1 facts);
  Some (((λ entry : path * FileId, Action_SetAside entry.1 entry.2) <$>
         List.filter (λ entry : path * FileId, negb (existsb (λ trace, under entry.1 trace) traces)) linked)
        ++ rest).

Definition remove_home_step (user : InvokingUser) : StepSpec :=
  mkStepSpec ("remove-home:" +:+ user_name user)
    (Verb_Removing, "mix from " +:+ display (home user))
    (Query_Linked user :: (Query_Path <$> traces user))
    (λ facts, or_nothing (remove_home_actions user facts)) false [] (0, 0)%nat.

(** ** [ops/user_remove/mod.rs] *)

Definition remove_membership_actions (user : InvokingUser) (facts : list Fact) :
    option (list Action) :=
  fact ← facts !! 0%nat;
  Some (match fact with
        | Fact_Group (Some group) =>
            if bool_decide (user_name user ∈ members group)
            then [Action_RemoveMember MIX_USERS_GROUP (user_name user)] else []
        | _ => []
        end).

Definition remove_membership_step (user : InvokingUser) : StepSpec :=
  mkStepSpec ("remove-membership:" +:+ user_name user)
    (Verb_Removing, user_name user +:+ " from " +:+ MIX_USERS_GROUP)
    [Query_Group MIX_USERS_GROUP]
    (λ facts, or_nothing (remove_membership_actions user facts)) false [] (0, 0)%nat.

Definition user_remove_steps (user : InvokingUser) : list StepSpec :=
  [remove_home_step user; remove_membership_step user].

(** ** [ops/bootstrap/mod.rs] *)

Definition unit_of (fact : Fact) : option UnitFacts :=
  match fact with Fact_Unit unit => Some unit | _ => None end.

(** The units that are active, to be stopped. *)
Fixpoint stop_active (units : list string) (facts : list Fact) : option (list Action) :=
  match units, facts with
  | unit :: units, fact :: facts =>
      state ← unit_of fact;
      rest ← stop_active units facts;
      Some ((if active_state state =s "active" then [Action_StopUnit unit] else []) ++ rest)
  | _, _ => Some []
  end.

Definition delete_user (name : string) (user : UserFacts) : Action :=
  Action_DeleteUser name (uf_uid user, uf_gid user) (uf_comment user).

Definition BOOT_UNITS : list string := [NIX_DAEMON_SOCKET_UNIT; NIX_DAEMON_SERVICE_UNIT].
Definition BOOT_UNIT_FILES : list string := [NIX_DAEMON_SERVICE_DEST; NIX_DAEMON_SOCKET_DEST].
Definition SET_ASIDE : list string := [NIX_CONF_DEST; PROFILE_SNIPPET_DEST; POLICY_FILE; "/nix"].
Definition REMOVED_GROUPS : list string := [NIXBLD_GROUP; MIX_USERS_GROUP].

(** [RemoveExistingInstallation]. *)
Definition remove_existing_queries (profiles : option path) : list Query :=
  (Query_Unit <$> BOOT_UNITS) ++ (Query_UnitLinks <$> BOOT_UNITS) ++
  (Query_Path ∘ of_string <$> BOOT_UNIT_FILES) ++
  (Query_User ∘ build_user_name <$> build_users) ++ (Query_Group <$> REMOVED_GROUPS) ++
  (Query_Path ∘ of_string <$> SET_ASIDE) ++ (Query_Path <$> option_list profiles).

(** [Facts::user] and [Facts::group]. *)
Definition user_at (facts : list Fact) (index : nat) : option (option UserFacts) :=
  fact ← facts !! index; match fact with Fact_User user => Some user | _ => None end.
Definition group_at (facts : list Fact) (index : nat) : option (option GroupFacts) :=
  fact ← facts !! index; match fact with Fact_Group group => Some group | _ => None end.
Definition unit_at (facts : list Fact) (index : nat) : option UnitFacts :=
  fact ← facts !! index; unit_of fact.

(** What a loop over items makes of the fact at each. *)
Definition collect {A} (from : nat) (items : list A)
    (f : nat → A → option (list Action)) : option (list Action) :=
  @concat _ <$> mapM (λ entry, f (from + entry.1)%nat entry.2) (zip (seq 0 (length items)) items).

Definition remove_existing_actions (profiles : option path) (facts : list Fact) :
    option (list Action) :=
  let files := (2 * length BOOT_UNITS)%nat in
  let users := (files + length BOOT_UNIT_FILES)%nat in
  let groups := (users + N.to_nat NIXBLD_USER_COUNT)%nat in
  let paths := (groups + 2)%nat in
  stops ← collect 0 BOOT_UNITS (λ index unit,
    state ← unit_at facts index;
    Some (if active_state state =s "active" then [Action_StopUnit unit] else []));
  units ← set_aside_units (take (files - length BOOT_UNITS) (drop (length BOOT_UNITS) facts))
    (of_string <$> BOOT_UNIT_FILES) (take (length BOOT_UNIT_FILES) (drop files facts));
  accounts ← collect users build_users (λ index n,
    user ← user_at facts index;
    Some (match user with Some user => [delete_user (build_user_name n) user] | None => [] end));
  removed ← collect groups REMOVED_GROUPS (λ index name,
    group ← group_at facts index;
    Some (match group with Some group => [Action_DeleteGroup name (group_gid group)] | None => [] end));
  aside ← collect paths SET_ASIDE (λ index at_,
    found ← path_fact facts index; Some (set_aside (of_string at_) found));
  last ← match profiles with
         | Some profiles =>
             set_aside profiles <$> path_fact facts (paths + length SET_ASIDE)
         | None => Some []
         end;
  Some (stops ++ units ++ accounts ++ removed ++ aside ++ last).

Definition remove_existing_step (profiles : option path) : StepSpec :=
  mkStepSpec "remove-existing-installation" (Verb_Removing, "existing installation")
    (remove_existing_queries profiles)
    (λ facts, or_nothing (remove_existing_actions profiles facts)) false [] (0, 0)%nat.

Record BootstrapSettings := mkBootstrapSettings {
  bs_policy : Policy; bs_user : option UserConfig; bs_force : bool; bs_runtime : Runtime;
  bs_request : string }.

Section Requests.
Context `{ManifestJson} `{JsonValue V}.

Definition bootstrap_intent (settings : BootstrapSettings) : Intent :=
  let machine := intent_machine (bs_user settings) (bs_policy settings) in
  mkIntent (it_policy machine) (it_user machine) (it_reach machine) (Some (bs_runtime settings))
    (it_activating machine) (it_retention machine) false.

Definition bootstrap_steps (settings : BootstrapSettings) : option (list StepSpec) :=
  let before :=
    if bs_force settings
    then [remove_existing_step
            ((λ config, nix_profiles_dir (home (uc_user config))) <$> bs_user settings)]
    else [] in
  checks ← tree_for (bootstrap_intent settings);
  Some (reconcile_steps before checks (bs_request settings) Verb_Configuring).

(** ** [ops/change/mod.rs] *)

Definition HOME_MANAGER_STATE_VERSION : string := "24.05".
Definition INPUTS_INTO_GENERATION : list CopyIntoGeneration :=
  (λ input : string * string, mkCopy input.1 input.2) <$> GENERATION_INPUTS.

Record Rendered := mkRendered { rd_state : string; rd_home_nix : string }.

Inductive Unrenderable :=
  | Unrenderable_Package (error : InvalidInput)
  | Unrenderable_State (error : Invalid).

(** The writer's assertions panic with [None]. *)
Definition render_home (user : InvokingUser) (names : list string) :
    result InvalidInput (option string) :=
  m ← home_module_new (user_name user) (home user) HOME_MANAGER_STATE_VERSION;
  m ← home_packages (fold_left copy_into_generation INPUTS_INTO_GENERATION m) names;
  Ok (home_render m).

Definition render_change (user : InvokingUser) (manifest : StateManifest) :
    option (result Unrenderable Rendered) :=
  match render_home user (packages manifest) with
  | Err error => Some (Err (Unrenderable_Package error))
  | Ok home_nix =>
      home_nix ← home_nix;
      let state := render_manifest manifest in
      Some (match validate state with
            | Err error => Err (Unrenderable_State error)
            | Ok _ => Ok (mkRendered state home_nix)
            end)
  end.

(** The intent of a user's request, with what it activates or how it cleans. *)
Definition activating (intent : Intent) (x : option (Verb * string)) : Intent :=
  mkIntent (it_policy intent) (it_user intent) (it_reach intent) (it_runtime intent) x
    (it_retention intent) (it_tidy intent).
Definition retaining (intent : Intent) (all : bool) : Intent :=
  mkIntent (it_policy intent) (it_user intent) (it_reach intent) (it_runtime intent)
    (it_activating intent) (Some all) (it_tidy intent).

Definition configuring (intent : Intent) (request : string) : option (list StepSpec) :=
  checks ← tree_for intent; Some (reconcile_steps [] checks request Verb_Configuring).

(** [steps]. *)
Definition change_steps (cfg : UserConfig) (policy : Policy) (change : Change) (verb : Verb)
    (request : string) : option (result Unrenderable (list StepSpec)) :=
  if decide (changed change = [] ∧ ch_source change = Source_File) then Some (Ok [])
  else
    rendered ← render_change (uc_user cfg) (ch_manifest change);
    match rendered with
    | Err error => Some (Err error)
    | Ok rendered =>
        let intended :=
          mkUserConfig (uc_user cfg) (uc_pins cfg) (uc_flake cfg) (uc_lock cfg)
            (rd_home_nix rendered) (Some (rd_state rendered)) in
        steps ← configuring
          (activating (intent_user intended policy) (Some (verb, subject (changed change))))
          request;
        Some (Ok steps)
    end.

Definition pin_steps (cfg : UserConfig) (policy : Policy) (moved : option string)
    (request : string) : option (list StepSpec) :=
  configuring (activating (intent_user cfg policy) ((λ subject, (Verb_Updating, subject)) <$> moved))
    request.

Definition clean_steps (cfg : UserConfig) (policy : Policy) (all : bool) (request : string) :
    option (list StepSpec) :=
  configuring (retaining (intent_user cfg policy) all) request.

End Requests.

(** ** [ops/purge/mod.rs] *)

Definition LOGIN_DEFS : string := "/etc/login.defs".
Definition MIX_RUN_DIR : string := "/run/mix".

Definition PURGE_UNITS : list string :=
  [MIX_DAEMON_SOCKET_UNIT; MIX_DAEMON_SERVICE_UNIT; NIX_DAEMON_SOCKET_UNIT; NIX_DAEMON_SERVICE_UNIT].
Definition PURGE_UNIT_FILES : list string :=
  [MIX_DAEMON_SOCKET_DEST; MIX_DAEMON_SERVICE_DEST; NIX_DAEMON_SOCKET_DEST; NIX_DAEMON_SERVICE_DEST].

(** [StopServices]. *)
Definition stop_services_step : StepSpec :=
  mkStepSpec "stop-services" (Verb_Removing, "mix and Nix services") (Query_Unit <$> PURGE_UNITS)
    (λ facts, or_nothing (stop_active PURGE_UNITS facts)) false [] (0, 0)%nat.

(** [RemoveUnits]. *)
Definition remove_units_actions (facts : list Fact) : option (list Action) :=
  let units := length PURGE_UNITS in
  stops ← stop_active PURGE_UNITS facts;
  moves ← set_aside_units (take units (drop units facts)) (of_string <$> PURGE_UNIT_FILES)
    (drop (2 * units) facts);
  Some (stops ++ moves).

Definition remove_units_step : StepSpec :=
  mkStepSpec "remove-units" (Verb_Removing, "mix and Nix unit files")
    ((Query_Unit <$> PURGE_UNITS) ++ (Query_UnitLinks <$> PURGE_UNITS) ++
     (Query_Path ∘ of_string <$> PURGE_UNIT_FILES))
    (λ facts, or_nothing (remove_units_actions facts)) false [] (0, 0)%nat.

(** [policy_dir]. *)
Definition policy_dir : string := 
  match reverse (split_on "/" POLICY_FILE) with
  | _ :: dir :: dirs => join "/" (reverse (dir :: dirs))
  | _ => POLICY_FILE
  end.

(** [RemoveMachine]. *)
Definition machine_paths : list path :=
  of_string <$> NIX_ENTRIES ++ [NIX_CONF_DEST; PROFILE_SNIPPET_DEST; policy_dir; MIX_BIN_DIR; MIX_RUN_DIR].

Definition remove_machine_actions (facts : list Fact) : option (list Action) :=
  let entries := length NIX_ENTRIES in
  discards ← mapM (λ entry : path * Fact,
    found ← path_of entry.2;
    Some (match pf_id found with Some expect => [Action_Discard entry.1 expect] | None => [] end))
    (zip machine_paths (take entries facts));
  rest ← set_aside_each (drop entries machine_paths) (drop entries facts);
  Some (concat discards ++ rest).

Definition remove_machine_step : StepSpec :=
  mkStepSpec "remove-machine" (Verb_Removing, "/nix, /etc, /run/mix and /var/lib/mix")
    (Query_Path <$> machine_paths) (λ facts, or_nothing (remove_machine_actions facts)) false []
    (0, 0)%nat.

(** [RemoveAccounts]. *)
Definition remove_accounts_actions (facts : list Fact) : list Action :=
  (zip build_users facts ≫= (λ entry : N * Fact,
    match entry.2 with
    | Fact_User (Some user) => [delete_user (build_user_name entry.1) user]
    | _ => []
    end)) ++
  (zip REMOVED_GROUPS (drop (N.to_nat NIXBLD_USER_COUNT) facts) ≫= (λ entry : string * Fact,
    match entry.2 with
    | Fact_Group (Some group) => [Action_DeleteGroup entry.1 (group_gid group)]
    | _ => []
    end)).

Definition remove_accounts_step : StepSpec :=
  mkStepSpec "remove-accounts" (Verb_Removing, "build users and groups")
    ((Query_User ∘ build_user_name <$> build_users) ++ (Query_Group <$> REMOVED_GROUPS))
    (λ facts, Ok (remove_accounts_actions facts)) false [] (0, 0)%nat.

Definition purge_steps (users : list InvokingUser) : list StepSpec :=
  stop_services_step :: (remove_home_step <$> users) ++
  [remove_units_step; remove_machine_step; remove_accounts_step].

(** [discovery]. *)
Definition discovery : list Query :=
  [Query_Group MIX_USERS_GROUP; Query_Group NIXBLD_GROUP; Query_Accounts;
   Query_Contents (of_string LOGIN_DEFS)].

(** [uid_range]: the first line whose first word is the key and that has a number next. *)
Definition uid_setting (key login_defs : string) : option N :=
  head (omap (λ line,
    match split_whitespace line with
    | word :: value :: _ => if word =s key then parse_uint U32_MAX value else None
    | _ => None
    end) (lines login_defs)).

Definition uid_range (login_defs : string) : N * N :=
  (default 1000 (uid_setting "UID_MIN" login_defs), default 60000 (uid_setting "UID_MAX" login_defs)).

Record Candidates := mkCandidates { ca_members : list InvokingUser; ca_others : list InvokingUser }.

Definition account (name : string) (found : UserFacts) : InvokingUser :=
  mkInvokingUser (uf_uid found) (uf_gid found) name (uf_home found).

Definition usable (name : string) (found : UserFacts) : bool :=
  negb (string_any (λ c, Ascii.eqb c QUOTE) name) && is_absolute_path (uf_home found) &&
  bool_decide (is_Some (from_utf8 (display (uf_home found)))).

(** [Candidates::of]: the members with an account, and who else may have used [mix]. *)
Definition candidate_members (group : option GroupFacts) (accounts : list (string * UserFacts)) :
    list InvokingUser :=
  omap (λ member,
    entry ← List.find (λ entry : string * UserFacts, entry.1 =s member) accounts;
    if usable entry.1 entry.2 then Some (account entry.1 entry.2) else None)
    (match group with Some group => members group | None => [] end).

Definition candidate_others (builders : option GroupFacts) (login_defs : option bytes)
    (found : list InvokingUser) (accounts : list (string * UserFacts)) : list InvokingUser :=
  let '(least, most) := uid_range (from_utf8_lossy (default "" login_defs)) in
  (λ entry : string * UserFacts, account entry.1 entry.2) <$>
  List.filter (λ entry : string * UserFacts,
    (least <=? uf_uid entry.2) && (uf_uid entry.2 <=? most) &&
    negb (bool_decide (Some (uf_gid entry.2) = group_gid <$> builders)) &&
    usable entry.1 entry.2 &&
    negb (existsb (λ member, user_name member =s entry.1) found)) accounts.

Definition candidates_of (facts : list Fact) : option Candidates :=
  match facts with
  | [Fact_Group members; Fact_Group builders; Fact_Accounts accounts; Fact_Contents login_defs] =>
      let found := candidate_members members accounts in
      Some (mkCandidates found (candidate_others builders login_defs found accounts))
  | _ => None
  end.

Definition candidate_queries (c : Candidates) : list Query :=
  (λ other, Query_Path (mix_state_dir (home other))) <$> ca_others c.

Definition holders (c : Candidates) (states : list Fact) : list InvokingUser :=
  ca_members c ++
  ((λ entry : InvokingUser * Fact, entry.1) <$>
   List.filter (λ entry : InvokingUser * Fact,
     match entry.2 with Fact_Path found => bool_decide (is_Some (pf_id found)) | _ => false end)
     (zip (ca_others c) states)).

Example uid_range_first_number :
  uid_range ("UID_MIN x" +:+ newline +:+ "UID_MIN +500" +:+ newline +:+ "UID_MAX") = (500, 60000).
Proof. vm_compute. reflexivity. Qed.
