(* ===== verification/PlanKeys.v ===== *)
(** * The names of a plan's steps

    Every step of a plan is called after its target, and the tree of a request's events
    takes a name once.  The labels of the targets a request declares are apart from each
    other and from the names the runner uses itself, as long as the user's name is none of
    them. *)
From S2P Require Import Prelude.
From S2P Require Import Chars.
From S2P Require Import Paths.
From S2P Require Import Effect.
From S2P Require Import Pins.
From S2P Require Import Packages.
From S2P Require Import Policy.
From S2P Require Import Declared.
From S2P Require Import DeclTree.
From S2P Require Import DeclTreeLink.
From S2P Require Import DeclTreeWalk.
From S2P Require Import DeclTreeSpec.
From S2P Require Import Targets.

Local Open Scope nat_scope.

(** ** Text of a path *)

Definition ascii_char (c : ascii) : bool := bool_decide (byte c < 128)%N.

Lemma ascii_lead c : ascii_char c = true → ∃ lo hi, utf8_lead (byte c) = Some (0, lo, hi).
Proof.
  destruct c as [[] [] [] [] [] [] [] []]; vm_compute; intros Hc; first [discriminate Hc|by eexists _, _].
Qed.

Lemma lead_high c want lo hi : utf8_lead (byte c) = Some (S want, lo, hi) → (128 <= lo)%N.
Proof.
  destruct c as [[] [] [] [] [] [] [] []]; vm_compute; intros [=]; subst; discriminate.
Qed.

Lemma lossy_start c s :
  ascii_char c = true → lossy 0 0 0 "" (String c s) = String c (lossy 0 0 0 "" s).
Proof. intros Hc. cbn [lossy]. by destruct (ascii_lead c Hc) as (lo & hi & ->). Qed.

Lemma lossy_zero lo hi held s : lossy 0 lo hi held s = lossy 0 0 0 "" s.
Proof. by destruct s. Qed.

(** An ASCII char ends whatever char was begun. *)
Lemma lossy_app want lo hi held a c b :
  ascii_char c = true → want = 0 ∨ (128 <= lo)%N →
  lossy want lo hi held (a +:+ String c b) = lossy want lo hi held a +:+ lossy 0 0 0 "" (String c b).
Proof.
  intros Hc. revert want lo hi held. induction a as [|x a IH]; intros want lo hi held Hlo.
  - rewrite app_empty_string. destruct want as [|want].
    + by rewrite lossy_zero.
    + cbn [lossy]. rewrite decide_False.
      2:{ destruct Hlo as [|Hlo]; [done|]. apply bool_decide_eq_true in Hc. lia. }
      by destruct (ascii_lead c Hc) as (l & h & ->).
  - rewrite app_cons_string.
    assert (Hstart :
      match utf8_lead (byte x) with
      | None => REPLACEMENT +:+ lossy 0 0 0 "" (a +:+ String c b)
      | Some (O, _, _) => String x (lossy 0 0 0 "" (a +:+ String c b))
      | Some (want, lo, hi) => lossy want lo hi (String x "") (a +:+ String c b)
      end =
      match utf8_lead (byte x) with
      | None => REPLACEMENT +:+ lossy 0 0 0 "" a
      | Some (O, _, _) => String x (lossy 0 0 0 "" a)
      | Some (want, lo, hi) => lossy want lo hi (String x "") a
      end +:+ lossy 0 0 0 "" (String c b)).
    { destruct (utf8_lead (byte x)) as [[[[|w] l] h]|] eqn:Hx.
      - rewrite IH by by left. by rewrite app_cons_string.
      - apply IH. right. by eapply lead_high.
      - rewrite IH by by left. by rewrite app_assoc_string. }
    cbn [lossy]. destruct want as [|want]; [exact Hstart|].
    case_decide; [|by rewrite Hstart, app_assoc_string].
    destruct want as [|want]; [|apply IH; right; lia].
    rewrite IH by by left. by rewrite app_assoc_string, app_cons_string.
Qed.

Lemma lossy_ascii s : string_all ascii_char s = true → from_utf8_lossy s = s.
Proof.
  unfold from_utf8_lossy. induction s as [|c s IH]; [done|]. unfold string_all. simpl.
  rewrite negb_orb, negb_involutive. intros [Hc Hs]%andb_true_iff.
  change (lossy 0 0 0 "" (String c s) = String c s). by rewrite lossy_start, IH.
Qed.

(** A home: a path from the root that is not the root. *)
Definition home_path (h : path) : Prop := ∃ c r, h = RootDir :: c :: r.
#[export] Instance home_path_dec h : Decision (home_path h).
Proof.
  refine (match h with RootDir :: c :: r => left _ | _ => right _ end);
    first [by intros (?&?&?)|by eexists _, _].
Defined.

Lemma join_cons2 sep x y l : join sep (x :: y :: l) = x +:+ sep +:+ join sep (y :: l).
Proof. done. Qed.

Lemma join_append sep l x k : l ≠ [] → join sep (l ++ x :: k) = join sep l +:+ sep +:+ join sep (x :: k).
Proof.
  induction l as [|y l IH]; [done|]. intros _. destruct l as [|z l]; [done|].
  change ((y :: z :: l) ++ x :: k) with (y :: z :: (l ++ x :: k)).
  rewrite !join_cons2. change (z :: l ++ x :: k) with ((z :: l) ++ x :: k).
  rewrite IH by done. by rewrite !app_assoc_string.
Qed.

Lemma text_below h x k :
  home_path h → string_all ascii_char (join "/" (component_str <$> x :: k)) = true →
  text (h ++ x :: k) = text h +:+ "/" +:+ join "/" (component_str <$> x :: k).
Proof.
  intros (c & r & ->) Hk. unfold text.
  change ((RootDir :: c :: r) ++ x :: k) with (RootDir :: ((c :: r) ++ x :: k)). cbn [display].
  rewrite fmap_app. cbn [fmap list_fmap]. fold (component_str <$> k). fold (component_str <$> r).
  change ((component_str c :: (component_str <$> r)) ++ component_str x :: (component_str <$> k))
    with ((component_str c :: (component_str <$> r)) ++ component_str x :: (component_str <$> k)).
  rewrite join_append by done. rewrite <- app_assoc_string.
  change ("/" +:+ join "/" (component_str x :: (component_str <$> k))) with
    (String "/" (join "/" (component_str <$> x :: k))).
  unfold from_utf8_lossy. rewrite lossy_app by (done || by left). f_equal.
  rewrite lossy_start by done. f_equal. by apply lossy_ascii.
Qed.

Lemma text_home h : home_path h → ∃ s, text h = String "/" s.
Proof.
  intros (c & r & ->). unfold text, from_utf8_lossy. cbn [display].
  rewrite app_cons_string, lossy_start by done. by eexists.
Qed.

(** ** What a build declares *)

(** [m] declares nothing but [ts], each at most once. *)
Definition adds {X} (ts : list Target) (m : Build X) : Prop :=
  ∀ b x b', m b = Some (x, b') → declared_targets b' ⊆+ declared_targets b ++ ts.

Lemma adds_ret {X} (x : X) : adds [] (mret x).
Proof. intros b y b' [= <- <-]. by rewrite app_nil_r. Qed.

Lemma keys_bind {X Y} ts us (m : Build X) (f : X → Build Y) :
  adds ts m → (∀ x, adds us (f x)) → adds (ts ++ us) (m ≫= f).
Proof.
  intros Hm Hf b y b'. unfold mbind, build_bind.
  destruct (m b) as [[x b1]|] eqn:Hx; [|done]. intros Hy.
  specialize (Hm _ _ _ Hx). specialize (Hf _ _ _ _ Hy). etrans; [exact Hf|].
  rewrite app_assoc. by apply submseteq_app.
Qed.

Lemma adds_more {X} ts us (m : Build X) : adds ts m → ts ⊆+ us → adds us m.
Proof. intros Hm Hs b x b' Hx. etrans; [by eapply Hm|]. by apply submseteq_app. Qed.

Lemma adds_then {X Y} ts (m : Build X) (f : X → Build Y) :
  adds [] m → (∀ x, adds ts (f x)) → adds ts (m ≫= f).
Proof. intros Hm Hf. exact (keys_bind [] ts m f Hm Hf). Qed.

Lemma adds_found at_ : adds [] (found_at at_).
Proof. intros b x b' [= <- <-]. by rewrite app_nil_r. Qed.

Lemma adds_push d : adds (option_list (d_down d) ++ d_up d) (push_draft d).
Proof.
  intros b x b' [= <- <-]. unfold declared_targets. simpl.
  by rewrite bind_app, bind_singleton.
Qed.

Lemma adds_place_at at_ h : adds [] (place_at at_ h).
Proof. intros b x b' [= <- <-]. by rewrite app_nil_r. Qed.

Lemma adds_draft ts h f :
  (∀ d, option_list (d_down (f d)) ++ d_up (f d) ⊆+ (option_list (d_down d) ++ d_up d) ++ ts) →
  adds ts (on_draft h f).
Proof.
  intros Hf b x b'. unfold on_draft, change_draft.
  destruct (drafts b !! h) as [d|] eqn:Hd; [|done]. intros [= <- <-].
  unfold declared_targets. simpl.
  rewrite insert_take_drop by by eapply lookup_lt_Some.
  rewrite <- (take_drop_middle (drafts b) h d Hd) at 3.
  rewrite !bind_app. cbn [mbind list_bind]. fold (drop (S h) (drafts b)).
  set (f' := λ d, option_list (d_down d) ++ d_up d).
  set (l := take h (drafts b) ≫= f'). set (k := drop (S h) (drafts b) ≫= f').
  change (l ++ f' (f d) ++ k ⊆+ (l ++ f' d ++ k) ++ ts).
  rewrite <- !app_assoc. apply submseteq_skips_l. rewrite (Permutation_app_comm k ts), app_assoc.
  apply submseteq_skips_r, Hf.
Qed.

Lemma adds_up at_ check : adds [check] (add_up at_ check).
Proof. apply adds_draft. intros d. simpl. by rewrite app_assoc. Qed.

Lemma adds_refers from to : adds [] (add_refers from to).
Proof. apply adds_draft. intros d. simpl. by rewrite app_nil_r. Qed.

Lemma adds_up_refers from to : adds [] (add_up_refers from to).
Proof. apply adds_draft. intros d. simpl. by rewrite app_nil_r. Qed.

Lemma adds_path at_ down : adds [down] (add_path at_ down).
Proof.
  apply adds_then; [apply adds_found|]. intros [found|].
  - refine (keys_bind [down] [] _ _ _ _); [|intros; apply adds_ret].
    apply adds_draft. intros d. destruct (d_down d) eqn:Hd; simpl; rewrite ?Hd; simpl.
    + by apply submseteq_skip, submseteq_inserts_r.
    + by rewrite (Permutation_app_comm (d_up d) [down]).
  - refine (keys_bind [down] [] _ _ _ _).
    + apply (adds_push (draft_new (Some down) (Some at_))).
    + intros h. apply adds_then; [apply adds_place_at|]. intros; apply adds_ret.
Qed.

Lemma adds_place at_ : adds [] (add_place at_).
Proof.
  apply adds_then; [apply adds_found|]. intros [found|]; [apply adds_ret|].
  apply adds_then; [apply (adds_push (draft_new None (Some at_)))|].
  intros h. apply adds_then; [apply adds_place_at|]. intros; apply adds_ret.
Qed.

Lemma adds_account parent down : adds [down] (add_account parent down).
Proof. apply (adds_push (set_parent (Some (default ACCOUNTS parent)) (draft_new (Some down) None))). Qed.

Lemma adds_for_each {A} (ts : A → list Target) (l : list A) (f : A → Build unit) :
  (∀ x, adds (ts x) (f x)) → adds (l ≫= ts) (for_each l f).
Proof.
  intros Hf. induction l as [|x l IH]; [apply adds_ret|]. cbn [mbind list_bind for_each].
  apply keys_bind; [apply Hf|]. intros _. exact IH.
Qed.

Lemma adds_ignore {X} ts (m : Build X) : adds ts m → adds ts (ignore m).
Proof.
  intros Hm. rewrite <- (app_nil_r ts). apply keys_bind; [done|]. intros; apply adds_ret.
Qed.

(** ** What a request declares *)

Section Declared.
Context `{ManifestJson}.

(** A user's targets, in the order of [user_tree]. *)
Definition user_targets (intent : Intent) (cfg : UserConfig) : list Target :=
  let user := uc_user cfg in
  let home := home user in
  let owner := Some (uid user, gid user) in
  let generations := join_path (nix_profiles_dir home) HOME_MANAGER_PROFILE_NAME in
  [Target_GroupMember MIX_USERS_GROUP (user_name user); Target_Precondition home;
   Target_HomeFiles home user; Target_Link (join_path home NIX_PROFILE_LINK)] ++
  ((λ parent, Target_Parent (join_path home parent) (Mode_AtLeast USER_PARENT_BITS) owner)
     <$> USER_PARENTS) ++
  [Target_Directory (mix_state_dir home) (Mode_Exact MIX_STATE_DIR_MODE) owner] ++
  user_files cfg owner ++
  [state_target cfg owner;
   Target_Directory (nix_profiles_dir home) (Mode_Exact NIX_PROFILES_DIR_MODE) owner] ++
  (if it_tidy intent then [Target_Generations generations user] else []) ++
  match it_retention intent with
  | Some collect => [Target_Retention generations user collect]
  | None => []
  end ++
  (let '(verb, subject) :=
     match it_activating intent with
     | Some (verb, subject) => (Some verb, subject)
     | None => (None, "")
     end in
   [Target_Activation home user verb subject (uc_pins cfg)]) ++
  deferred_targets (it_tidy intent) user owner.

Lemma user_parents_adds h owner l states :
  adds ((λ parent, Target_Parent (join_path h parent) (Mode_AtLeast USER_PARENT_BITS) owner) <$> l)
    (user_parents h owner l states).
Proof.
  revert states. induction l as [|p l IH]; intros states; [apply adds_ret|].
  cbn [user_parents fmap list_fmap]. refine (keys_bind [_] _ _ _ _ _); [apply adds_path|].
  intros handle. apply IH.
Qed.

Lemma bind_singletons {A} (l : list A) : (l ≫= λ x, [x]) = l.
Proof. induction l as [|x l IH]; [done|]. cbn [mbind list_bind]. simpl. by f_equal. Qed.

Lemma keys_each (l : list Target) (f : Target → Build unit) :
  (∀ t, adds [t] (f t)) → adds l (for_each l f).
Proof. intros Hf. rewrite <- (bind_singletons l) at 1. by apply adds_for_each. Qed.

Lemma user_tree_adds intent cfg members : adds (user_targets intent cfg) (user_tree intent cfg members).
Proof.
  unfold user_tree, user_targets.
  set (user := uc_user cfg). set (h := home user). set (owner := Some (uid user, gid user)).
  refine (keys_bind [_] _ _ _ _ _); [apply adds_account|intros _].
  refine (keys_bind [_] _ _ _ _ _); [apply adds_path|intros home_node].
  refine (keys_bind [_] _ _ _ _ _); [apply adds_up|intros _].
  refine (keys_bind [_] _ _ _ _ _); [apply adds_path|intros link].
  apply keys_bind; [apply user_parents_adds|intros states].
  apply keys_bind; [apply adds_path|intros _].
  apply keys_bind.
  { apply keys_each. intros t. apply (adds_ignore [t]), adds_path. }
  intros _. refine (keys_bind [_] _ _ _ _ _); [apply adds_path|intros _].
  refine (keys_bind [_] _ _ _ _ _); [apply adds_path|intros _].
  apply keys_bind; [by destruct (it_tidy intent); [apply adds_path|apply adds_place]|intros profile].
  apply keys_bind; [by destruct (it_retention intent); [apply adds_up|apply adds_ret]|intros _].
  destruct states as [above|]; [|eapply adds_more; [apply adds_ret|apply submseteq_nil_l]].
  apply adds_then; [apply adds_up_refers|intros _].
  destruct (match it_activating intent with Some (verb, subject) => (Some verb, subject) | None => (None, "") end)
    as [verb subject].
  apply keys_bind; [apply adds_up|intros _].
  apply keys_each. intros t. apply adds_up.
Qed.

(** The machine's targets, in the order of [machine_tree]. *)
Definition machine_targets (intent : Intent) : list Target :=
  let policy := it_policy intent in
  let directory at_ mode owner := Target_Directory (of_string at_) (Mode_Exact mode) owner in
  let precondition at_ := Target_Precondition (of_string at_) in
  let parent_ at_ bits := Target_Parent (of_string at_) (Mode_AtLeast bits) ROOT in
  let file at_ expected := Target_File (of_string at_) (Some expected) SYSTEM_FILE ROOT in
  [Target_Group NIXBLD_GROUP NIXBLD_GID] ++
  (build_users ≫= λ n, [Target_User n (NIXBLD_UID_BASE + n) NIXBLD_GID]) ++
  [Target_Group MIX_USERS_GROUP MIX_USERS_GID; directory "/nix" 493%N ROOT;
   directory NIX_STORE 1021%N (Some (0%N, NIXBLD_GID))] ++
  (NIX_TREE_PATHS ≫= λ at_, [directory at_ NIX_TREE_MODE ROOT]) ++
  [file NIX_OWNERSHIP_MARKER "";
   Target_PathExists "default profile" DEFAULT_PROFILE_NIX_ENV (it_runtime intent)] ++
  (["/var"; "/var/lib"] ≫= λ at_, [precondition at_]) ++
  [directory NIXBLD_HOME NIXBLD_HOME_MODE ROOT] ++
  ([MIX_VAR_DIR; MIX_BIN_DIR] ≫= λ at_, [parent_ at_ MIX_VAR_DIR_MODE]) ++
  [Target_Program MIX_DAEMON_BIN RUNNING_PROGRAM (Mode_Exact MIX_DAEMON_BIN_MODE);
   Target_Journals JOURNAL_DIR; precondition "/etc"] ++
  (["/etc/mix"; "/etc/nix"; "/etc/profile.d"] ≫= λ at_, [parent_ at_ 493%N]) ++
  [file POLICY_FILE (rendered policy); file NIX_CONF_DEST (nix_conf policy);
   file PROFILE_SNIPPET_DEST PROFILE_SNIPPET; precondition "/etc/systemd";
   precondition SYSTEMD_UNIT_DIR] ++
  (UNIT_TARGETS ≫= λ entry, [Target_SystemdUnit entry.1.1 entry.1.2 entry.2]) ++
  ([NIX_DAEMON_SOCKET_UNIT; MIX_DAEMON_SOCKET_UNIT; MIX_DAEMON_SERVICE_UNIT] ≫= λ name,
     [Target_UnitActive name]).

Lemma unit_node_adds runtime program entry :
  adds [Target_SystemdUnit entry.1.1 entry.1.2 entry.2] (unit_node runtime program entry).
Proof.
  destruct entry as [[name src] dest]. refine (keys_bind [_] [] _ _ _ _); [apply adds_path|].
  intros unit. destruct src; [apply adds_refers|]. destruct (name =? _)%string; [apply adds_refers|apply adds_ret].
Qed.

Lemma machine_tree_adds intent : adds (machine_targets intent) (machine_tree intent).
Proof.
  unfold machine_tree, machine_targets, directory_node, precondition_node, parent_node, file_node.
  refine (keys_bind [_] _ _ _ _ _); [apply adds_account|intros nixbld].
  apply keys_bind; [apply adds_for_each; intros n; apply adds_ignore, adds_account|intros _].
  refine (keys_bind [_] _ _ _ _ _); [apply adds_account|intros members].
  refine (keys_bind [_] _ _ _ _ _); [apply adds_path|intros _].
  refine (keys_bind [_] _ _ _ _ _); [apply adds_path|intros _].
  apply keys_bind; [apply adds_for_each; intros n; apply adds_ignore, adds_path|intros _].
  refine (keys_bind [_] _ _ _ _ _); [apply adds_path|intros _].
  refine (keys_bind [_] _ _ _ _ _); [apply adds_path|intros runtime].
  apply keys_bind; [apply adds_for_each; intros n; apply adds_ignore, adds_path|intros _].
  apply keys_bind; [apply adds_path|intros _].
  apply keys_bind; [apply adds_for_each; intros n; apply adds_ignore, adds_path|intros _].
  refine (keys_bind [_] _ _ _ _ _); [apply adds_path|intros program].
  refine (keys_bind [_] _ _ _ _ _); [apply adds_path|intros _].
  refine (keys_bind [_] _ _ _ _ _); [apply adds_path|intros _].
  apply keys_bind; [apply adds_for_each; intros n; apply adds_ignore, adds_path|intros _].
  refine (keys_bind [_] _ _ _ _ _); [apply adds_path|intros _].
  refine (keys_bind [_] _ _ _ _ _); [apply adds_path|intros _].
  refine (keys_bind [_] _ _ _ _ _); [apply adds_path|intros _].
  refine (keys_bind [_] _ _ _ _ _); [apply adds_path|intros _].
  refine (keys_bind [_] _ _ _ _ _); [apply adds_path|intros unit_dir].
  apply keys_bind; [apply adds_for_each; intros entry; apply unit_node_adds|intros _].
  rewrite <- (app_nil_r (_ ≫= _)). apply keys_bind; [|intros _; apply adds_ret].
  apply adds_for_each. intros name. apply adds_up.
Qed.

(** All that an intent declares. *)
Definition declared (intent : Intent) : list Target :=
  match it_reach intent with
  | Reach_User => [Target_Group MIX_USERS_GROUP MIX_USERS_GID]
  | Reach_Machine => machine_targets intent
  end ++
  match it_user intent with Some cfg => user_targets intent cfg | None => [] end.

Lemma build_tree_adds intent : adds (declared intent) (build_tree intent).
Proof.
  unfold build_tree, declared. apply keys_bind.
  - destruct (it_reach intent); [apply machine_tree_adds|apply adds_account].
  - intros members. destruct (it_user intent); [apply user_tree_adds|apply adds_ret].
Qed.

End Declared.

(** ** Labels *)

Definition rel_text (rel : string) : string := "/" +:+ join "/" (component_str <$> of_string rel).
Definition rel_ok (rel : string) : bool :=
  match of_string rel with Normal _ :: _ => true | _ => false end && string_all ascii_char (rel_text rel).

Lemma text_join h rel :
  home_path h → rel_ok rel = true →
  home_path (join_path h rel) ∧ text (join_path h rel) = text h +:+ rel_text rel.
Proof.
  intros Hh [Hrel Ht]%andb_true_iff. unfold rel_text in *. unfold join_path.
  destruct (of_string rel) as [|[| | |x] k]; try done. cbn [push]. split.
  - destruct Hh as (c & r & ->). by eexists c, _.
  - apply text_below; [done|]. unfold string_all in Ht |- *. cbn [fmap list_fmap] in *.
    rewrite app_cons_string, app_empty_string in Ht. simpl in Ht. exact Ht.
Qed.

(** What follows the home in the labels of a user's targets. *)
Definition user_suffixes (retained : bool) : list string :=
  [""; IN_THE_WAY; "/.nix-profile"; "/.local"; "/.local/state"; "/.local/state/nix";
   "/.local/state/mix"; "/.local/state/mix/home.nix"; "/.local/state/mix/flake.nix";
   "/.local/state/mix/flake.lock"; "/.local/state/mix/.gitignore"; "/.local/state/mix/state";
   "/.local/state/nix/profiles"] ++
  (if retained then ["/.local/state/nix/profiles/home-manager old generations"] else []) ++
  [PROFILE; "/.local/state/mix/.git"; "/.local/state/mix/.git/config";
   "/.local/state/mix/.git/objects"; "/.local/state/mix/.git/refs"; "/.local/state/mix/.git history"].

Section Labels.
Context `{ManifestJson}.

Lemma user_labels intent cfg :
  it_tidy intent = false → home_path (home (uc_user cfg)) →
  label <$> user_targets intent cfg =
    user_name (uc_user cfg) ::
    (String.append (text (home (uc_user cfg))) <$> user_suffixes (bool_decide (is_Some (it_retention intent)))).
Proof.
  intros Htidy Hh. unfold user_targets, user_files, deferred_targets, state_target. rewrite Htidy.
  set (h := home (uc_user cfg)) in *.
  destruct (text_join h MIX_STATE_DIR Hh eq_refl) as [Hstate Tstate]. fold (mix_state_dir h) in *.
  destruct (text_join h NIX_PROFILES_DIR Hh eq_refl) as [Hprof Tprof]. fold (nix_profiles_dir h) in *.
  destruct (text_join _ GIT_DIR Hstate eq_refl) as [Hgit Tgit].
  assert (Tup : ∀ rel, rel_ok rel = true → text (join_path h rel) = text h +:+ rel_text rel)
    by (intros; by apply text_join).
  assert (Tst : ∀ rel, rel_ok rel = true → text (join_path (mix_state_dir h) rel) =
    text h +:+ rel_text MIX_STATE_DIR +:+ rel_text rel).
  { intros rel Hrel. destruct (text_join _ rel Hstate Hrel) as [_ ->].
    by rewrite Tstate, app_assoc_string. }
  assert (Tg : ∀ rel, rel_ok rel = true → text (join_path (join_path (mix_state_dir h) GIT_DIR) rel) =
    text h +:+ rel_text MIX_STATE_DIR +:+ rel_text GIT_DIR +:+ rel_text rel).
  { intros rel Hrel. destruct (text_join _ rel Hgit Hrel) as [_ ->].
    by rewrite Tgit, Tstate, !app_assoc_string. }
  destruct (text_join _ HOME_MANAGER_PROFILE_NAME Hprof eq_refl) as [_ Tgen].
  destruct (it_activating intent) as [[verb subject]|], (it_retention intent) as [all|],
    (uc_restored_state cfg) as [restored|]; rewrite ?bool_decide_true, ?bool_decide_false by (done || by eexists);
    cbn [fmap list_fmap app label user_suffixes USER_PARENTS REPOSITORY_DIRS]; unfold suffixed;
    rewrite !Tup, !Tst, !Tg, Tstate, Tprof, ?Tgen, ?Tprof by done;
    rewrite !app_assoc_string, app_nil_string; reflexivity.
Qed.

End Labels.

(** ** Names apart *)

Definition some_intent : Intent :=
  mkIntent (mkPolicy None "" "") None Reach_Machine None None None false.

(** The labels of the machine's targets, which no intent changes. *)
Definition machine_labels : list string := label <$> machine_targets some_intent.

Lemma machine_labels_all intent : label <$> machine_targets intent = machine_labels.
Proof. vm_compute. reflexivity. Qed.

(** The names of the steps that are for no target, and of the runner's own. *)
Definition own_keys : list string :=
  ["restart-nix-daemon"; "drain-mix-daemon"; "record"; "remove-existing-installation"; "reclaim"].

Definition reach_labels (r : Reach) : list string :=
  match r with Reach_Machine => machine_labels | Reach_User => [MIX_USERS_GROUP] end.

(** A name the runner has no other use for. *)
Definition free_name (key : string) : Prop :=
  key ≠ "" ∧ starts_with "rollback:" key = false ∧ starts_with "action-" key = false.

(** The user of an intent is called like nothing else of it, and has a home of their own. *)
Record apart_user (r : Reach) (user : InvokingUser) : Prop := {
  au_home : home_path (home user);
  au_free : free_name (user_name user);
  au_path : starts_with "/" (user_name user) = false;
  au_name : user_name user ∉ reach_labels r ++ own_keys;
  au_below : r = Reach_Machine → Forall (λ l, starts_with (text (home user)) l = false) machine_labels;
}.

Lemma reach_labels_fine r :
  NoDup (reach_labels r ++ own_keys) ∧ Forall free_name (reach_labels r ++ own_keys).
Proof.
  assert (H : NoDup (machine_labels ++ own_keys) ∧ Forall free_name (machine_labels ++ own_keys)).
  { split; [apply (bool_decide_unpack _); vm_compute; exact I|].
    unfold free_name. apply (bool_decide_unpack _). vm_compute. exact I. }
  destruct r; [exact H|]. split; [apply (bool_decide_unpack _); vm_compute; exact I|].
  unfold free_name. apply (bool_decide_unpack _). vm_compute. exact I.
Qed.

Lemma suffixes_apart b : NoDup (user_suffixes b).
Proof. destruct b; apply (bool_decide_unpack _); vm_compute; exact I. Qed.

Lemma starts_with_self s t : starts_with s (s +:+ t) = true.
Proof. unfold starts_with. apply prefix_app. Qed.
