(* ===== verification/PlansSpec.v ===== *)
(** * What every plan keeps to

    The steps that bootstrap, a change, an update and a cleaning plan ([Plans]) have names of
    their own and wait on earlier steps only, so that the runner's invariant holds at the
    start of each ([plan_starts]); unless the user is called like one of them
    ([record_user_panics]). *)
From S2P Require Import Prelude.
From S2P Require Import Chars.
From S2P Require Import Paths.
From S2P Require Import Effect.
From S2P Require Import Events.
From S2P Require Import EventTree.
From S2P Require Import Validate.
From S2P Require Import TreeValid.
From S2P Require Import Runner.
From S2P Require Import RunnerSafe.
From S2P Require Import RunnerSpec.
From S2P Require Import Pins.
From S2P Require Import Packages.
From S2P Require Import Policy.
From S2P Require Import Declared.
From S2P Require Import DeclTree.
From S2P Require Import DeclTreeLink.
From S2P Require Import DeclTreeWalk.
From S2P Require Import DeclTreeSpec.
From S2P Require Import Targets.
From S2P Require Import TargetsSpec.
From S2P Require Import Health.
From S2P Require Import Plans.
From S2P Require Import PlanKeys.

Local Open Scope nat_scope.

(** ** Labels that are apart *)

Lemma append_inj s : Inj (=) (=) (String.append s).
Proof. intros a b. induction s as [|c s IH]; [done|]. rewrite !app_cons_string. by intros [= ?%IH]. Qed.

Lemma slash_starts s : starts_with "/" (String "/" s) = true.
Proof. exact (starts_with_self "/" s). Qed.

Lemma slash_free s : free_name (String "/" s).
Proof. by split_and!. Qed.

Lemma not_slash key s : starts_with "/" key = false → key ≠ String "/" s.
Proof. intros Hk ->. by rewrite slash_starts in Hk. Qed.

Lemma reach_below r user l s :
  apart_user r user → l ∈ reach_labels r ++ own_keys → l ≠ text (home user) +:+ s.
Proof.
  intros Ha Hl ->. destruct (text_home _ (au_home _ _ Ha)) as [t Ht].
  assert (Hslash : starts_with "/" (text (home user) +:+ s) = true)
    by (rewrite Ht; apply slash_starts).
  apply elem_of_app in Hl as [Hl|Hl].
  - destruct r; simpl in Hl.
    + pose proof (au_below _ _ Ha eq_refl) as Hb. rewrite Forall_forall in Hb.
      specialize (Hb _ Hl). by rewrite starts_with_self in Hb.
    + apply list_elem_of_singleton in Hl. by rewrite Hl in Hslash.
  - revert Hslash. generalize dependent (text (home user) +:+ s). unfold own_keys.
    intros x. rewrite !elem_of_cons, elem_of_nil. intros Hx. by destruct_or!; subst.
Qed.

Lemma submseteq_NoDup {A} (l k : list A) : l ⊆+ k → NoDup k → NoDup l.
Proof. intros [k' ->]%submseteq_Permutation [? _]%NoDup_app. done. Qed.

Section Plans.
Context `{ManifestJson}.

(** The user of an intent, when it has one, is apart from its other names. *)
Definition apart (intent : Intent) : Prop :=
  ∀ cfg, it_user intent = Some cfg → apart_user (it_reach intent) (uc_user cfg).

Lemma declared_labels intent :
  it_tidy intent = false → apart intent →
  label <$> declared intent =
    reach_labels (it_reach intent) ++
    match it_user intent with
    | Some cfg =>
        user_name (uc_user cfg) ::
        (String.append (text (home (uc_user cfg))) <$>
           user_suffixes (bool_decide (is_Some (it_retention intent))))
    | None => []
    end.
Proof.
  intros Ht Ha. unfold declared. rewrite fmap_app. f_equal.
  - destruct (it_reach intent); [apply machine_labels_all|done].
  - destruct (it_user intent) as [cfg|] eqn:Hu; [|done].
    apply user_labels; [done|]. by eapply au_home, Ha.
Qed.

Lemma labels_apart intent :
  it_tidy intent = false → apart intent →
  NoDup ((label <$> declared intent) ++ own_keys) ∧
  Forall free_name (label <$> declared intent).
Proof.
  intros Ht Ha. rewrite declared_labels by done.
  destruct (reach_labels_fine (it_reach intent)) as [Hnd Hfree].
  apply Forall_app in Hfree as [Hfree _].
  destruct (it_user intent) as [cfg|] eqn:Hu; [|by rewrite app_nil_r].
  specialize (Ha cfg Hu). set (user := uc_user cfg) in *.
  destruct (text_home _ (au_home _ _ Ha)) as [t Hslash]. split.
  - rewrite <- app_assoc, (Permutation_app_comm _ own_keys), app_assoc. apply NoDup_app.
    split; [done|]. split.
    + intros l Hl. rewrite elem_of_cons. intros [->|(s & -> & _)%list_elem_of_fmap].
      * by apply (au_name _ _ Ha).
      * by eapply reach_below.
    + apply NoDup_cons. split.
      * intros (s & Heq & _)%list_elem_of_fmap. rewrite Hslash in Heq.
        by apply (not_slash _ _ (au_path _ _ Ha)) in Heq.
      * apply NoDup_fmap_2; [apply append_inj|apply suffixes_apart].
  - apply Forall_app. split; [done|]. constructor; [apply (au_free _ _ Ha)|].
    apply Forall_fmap, Forall_true. intros s. simpl. rewrite Hslash. apply slash_free.
Qed.

(** ** The checks of a plan *)

Lemma tree_labels intent checks :
  it_tidy intent = false → tree_for intent = Some checks →
  label <$> (ck_target <$> checks) ⊆+ label <$> declared intent.
Proof.
  intros Ht Hfor. destruct (build_tree_leftovers intent) as (b & Hb & Hbuilt & Hl & _).
  unfold tree_for in Hfor. rewrite Hb in Hfor. simpl in Hfor.
  destruct (finish_spec b (Built_wf b Hbuilt)) as (linked & ds & own & checks' & Hfin & Hf).
  assert (checks' = checks) as -> by congruence.
  apply fmap_submseteq. rewrite (finished_targets _ _ _ _ _ Hf), Hl, Ht.
  assert (leftovers_listed None linked = []) as ->.
  { unfold leftovers_listed. generalize (seq 0 (length linked)) as l. intros l. induction l as [|i l IH]; [done|].
    cbn [mbind list_bind]. rewrite IH. by destruct (linked !! i). }
  rewrite app_nil_r. pose proof (build_tree_adds intent _ _ _ Hb) as Hadds. by rewrite Ht in Hadds.
Qed.

Lemma tree_ordered intent checks :
  tree_for intent = Some checks →
  ∀ j c k, checks !! j = Some c → k ∈ waits_on c → k < j.
Proof. intros Hfor. destruct (tree_waits intent) as (checks' & Hfor' & Hw). by simplify_eq. Qed.

(** ** Plans *)

Context `{JsonValue V}.

(** A step waits on earlier steps only. *)
Definition step_waits (s : StepSpec) : list nat :=
  sp_after s ++ seq (sp_within s).1 ((sp_within s).2 - (sp_within s).1).
Definition ordered (plan : list StepSpec) : Prop :=
  ∀ j s k, plan !! j = Some s → k ∈ step_waits s → k < j.

(** The names of the follow-up steps and of the first step of a forced bootstrap. *)
Definition planned_keys : list string :=
  [RESTART_NIX_DAEMON; DRAIN_MIX_DAEMON; RECORD; "remove-existing-installation"].

Definition beginning (before : list StepSpec) : Prop :=
  before = [] ∨ ∃ profiles, before = [remove_existing_step profiles].

Lemma follow_up_keys offset checks :
  sp_key <$> follow_ups offset checks ⊆+ [RESTART_NIX_DAEMON; DRAIN_MIX_DAEMON; RECORD].
Proof.
  unfold follow_ups. rewrite !fmap_app.
  change [RESTART_NIX_DAEMON; DRAIN_MIX_DAEMON; RECORD]
    with ([RESTART_NIX_DAEMON] ++ [DRAIN_MIX_DAEMON] ++ [RECORD]).
  repeat apply submseteq_app;
    [destruct (step_at _ _ _)|destruct (step_at _ _ _)|destruct (history_at _ _) as [[? ?]|]];
    first [apply submseteq_nil_l|done].
Qed.

Lemma reconcile_keys before checks request verb :
  beginning before →
  sp_key <$> reconcile_steps before checks request verb ⊆+
    (label <$> (ck_target <$> checks)) ++ planned_keys.
Proof.
  intros Hb. unfold reconcile_steps. rewrite !fmap_app, <- !list_fmap_compose.
  rewrite (Permutation_app_comm (sp_key <$> before)), <- app_assoc.
  apply submseteq_skips_l. 
  change planned_keys with ([RESTART_NIX_DAEMON; DRAIN_MIX_DAEMON; RECORD] ++ ["remove-existing-installation"]).
  apply submseteq_app; [apply follow_up_keys|].
  destruct Hb as [->|[p ->]]; [apply submseteq_nil_l|done].
Qed.

Lemma plan_keys before intent checks request verb :
  it_tidy intent = false → apart intent → tree_for intent = Some checks → beginning before →
  keys_ok (reconcile_steps before checks request verb).
Proof.
  intros Ht Ha Hfor Hb.
  assert (Hsub : sp_key <$> reconcile_steps before checks request verb ⊆+
    (label <$> declared intent) ++ planned_keys).
  { etrans; [by apply reconcile_keys|]. by apply submseteq_skips_r, tree_labels. }
  destruct (labels_apart intent Ht Ha) as [Hnd Hfree].
  change own_keys with (planned_keys ++ ["reclaim"]) in Hnd. rewrite app_assoc in Hnd.
  apply NoDup_app in Hnd as (Hnd & Hre & _). split; [by eapply submseteq_NoDup|].
  apply Forall_forall. intros key Hkey. eapply elem_of_submseteq in Hkey; [|exact Hsub].
  assert (key ≠ "reclaim") by (intros ->; by eapply Hre, list_elem_of_singleton).
  assert (free_name key) as (? & ? & ?); [|by split_and!].
  apply elem_of_app in Hkey as [Hkey|Hkey]; [by eapply Forall_forall in Hfree|].
  clear -Hkey. revert key Hkey. apply Forall_forall. unfold free_name.
  apply (bool_decide_unpack _). vm_compute. exact I.
Qed.

Lemma step_at_bound offset checks wanted index :
  step_at offset checks wanted = Some index → index < offset + length checks.
Proof.
  unfold step_at. destruct (position _ checks) as [i|] eqn:Hi; [|done]. intros [= <-].
  apply position_Some in Hi as (x & Hx & _). apply lookup_lt_Some in Hx. lia.
Qed.

Lemma history_at_bound index checks i user :
  history_at index checks = Some (i, user) → i < index + length checks.
Proof.
  revert index. induction checks as [|c checks IH]; intros index; [done|]. cbn [history_at].
  intros Hh. destruct (ck_target c); try (specialize (IH _ Hh); simpl; lia).
  simplify_eq/=. lia.
Qed.

(** Follow-up steps wait on the checks' steps. *)
Lemma follow_ups_wait offset checks s k :
  s ∈ follow_ups offset checks → k ∈ step_waits s → k < offset + length checks.
Proof.
  unfold follow_ups. rewrite !elem_of_app. intros Hs Hk.
  assert (Hat : ∀ w k, k ∈ option_list (step_at offset checks w) → k < offset + length checks).
  { intros w k'. destruct (step_at offset checks w) eqn:Hw; simpl; [|by intros ?%elem_of_nil].
    intros ->%list_elem_of_singleton. by eapply step_at_bound. }
  destruct_or!; [destruct (step_at _ _ (is_unit NIX_DAEMON_SERVICE_UNIT)) as [i|] eqn:Hi
    |destruct (step_at _ _ (is_unit MIX_DAEMON_SERVICE_UNIT)) as [i|] eqn:Hi
    |destruct (history_at _ _) as [[i user]|] eqn:Hi]; try by apply elem_of_nil in Hs.
  all: apply list_elem_of_singleton in Hs; subst s; unfold step_waits in Hk; simpl in Hk;
    rewrite app_nil_r, ?elem_of_app, ?elem_of_cons in Hk.
  - destruct Hk as [Hk|[->|?%elem_of_nil]]; [by eapply Hat|by eapply step_at_bound|done].
  - destruct Hk as [Hk|[->|?%elem_of_nil]]; [by eapply Hat|by eapply step_at_bound|done].
  - destruct Hk as [->|Hk]; [by eapply history_at_bound|by eapply Hat].
Qed.

Lemma plan_ordered before intent checks request verb :
  tree_for intent = Some checks → beginning before →
  ordered (reconcile_steps before checks request verb).
Proof.
  intros Hfor Hb j s k Hs Hk. unfold reconcile_steps in Hs.
  apply lookup_app_Some in Hs as [Hs|[Hj Hs]].
  { destruct Hb as [->|[p ->]]; [done|]. apply list_lookup_singleton_Some in Hs as [-> <-].
    by apply elem_of_nil in Hk. }
  apply lookup_app_Some in Hs as [Hs|[Hj' Hs]].
  - apply list_lookup_fmap_Some in Hs as (c & -> & Hc).
    assert (∃ k', k' ∈ waits_on c ∧ k = k' + length before) as (k' & Hk' & ->).
    { unfold step_waits in Hk. simpl in Hk. unfold waits_on. apply elem_of_app in Hk as [Hk|Hk].
      - apply list_elem_of_fmap in Hk as (k' & -> & Hk). exists k'. split; [|done].
        apply elem_of_app. by left.
      - apply elem_of_seq in Hk. exists (k - length before). split; [|lia].
        apply elem_of_app. right. apply elem_of_seq. lia. }
    pose proof (tree_ordered _ _ Hfor _ _ _ Hc Hk'). lia.
  - rewrite length_fmap in *. apply list_elem_of_lookup_2 in Hs.
    pose proof (follow_ups_wait _ _ _ _ Hs Hk). lia.
Qed.

Lemma removal_keys users :
  NoDup (user_name <$> users) → NoDup (sp_key <$> (remove_home_step <$> users)).
Proof.
  intros Hnd. rewrite <- list_fmap_compose.
  change (sp_key ∘ remove_home_step) with (String.append "remove-home:" ∘ user_name).
  rewrite list_fmap_compose. apply NoDup_fmap_2; [apply append_inj|done].
Qed.

Lemma purge_keys users : NoDup (user_name <$> users) → keys_ok (purge_steps users).
Proof.
  intros Hnd%removal_keys. unfold keys_ok, purge_steps. rewrite fmap_cons, fmap_app.
  assert (Hhome : ∀ key, key ∈ sp_key <$> (remove_home_step <$> users) → ∃ s, key = "remove-home:" +:+ s).
  { intros key (step & -> & (u & -> & _)%list_elem_of_fmap)%list_elem_of_fmap. by eexists. }
  split.
  - apply NoDup_cons. split.
    + rewrite elem_of_app. intros [(s & Hs)%Hhome|Hs]; [done|].
      revert Hs. apply (bool_decide_unpack _). vm_compute. exact I.
    + apply NoDup_app. split_and!; [done| |apply (bool_decide_unpack _); vm_compute; exact I].
      intros key (s & ->)%Hhome Hs. simpl in Hs. rewrite !elem_of_cons, elem_of_nil in Hs.
      by destruct_or!.
  - apply Forall_cons. split; [done|]. apply Forall_app. split; [|by repeat constructor].
    apply Forall_forall. intros key (s & ->)%Hhome. done.
Qed.

Lemma remove_keys user : keys_ok (user_remove_steps user).
Proof.
  split; [|by repeat constructor]. apply NoDup_cons. split; [|apply NoDup_singleton].
  by intros Heq%list_elem_of_singleton.
Qed.

Lemma unordered plan : Forall (λ s, step_waits s = []) plan → ordered plan.
Proof.
  intros Hall j s k Hs Hk. rewrite Forall_lookup in Hall. rewrite (Hall _ _ Hs) in Hk.
  by apply elem_of_nil in Hk.
Qed.

(** What the requests plan: for whom, with which reach, and the steps. *)
Inductive planned : option InvokingUser → Reach → list StepSpec → Prop :=
  | planned_bootstrap settings plan :
      bootstrap_steps settings = Some plan →
      planned (uc_user <$> bs_user settings) Reach_Machine plan
  | planned_change cfg policy change verb request plan :
      change_steps cfg policy change verb request = Some (Ok plan) →
      planned (Some (uc_user cfg)) Reach_User plan
  | planned_pins cfg policy moved request plan :
      pin_steps cfg policy moved request = Some plan →
      planned (Some (uc_user cfg)) Reach_User plan
  | planned_clean cfg policy all request plan :
      clean_steps cfg policy all request = Some plan →
      planned (Some (uc_user cfg)) Reach_User plan
  | planned_remove user : planned None Reach_User (user_remove_steps user)
  | planned_purge users :
      NoDup (user_name <$> users) → planned None Reach_Machine (purge_steps users).

Definition sound (plan : list StepSpec) : Prop := keys_ok plan ∧ ordered plan.

Lemma reconcile_sound before intent checks request verb :
  it_tidy intent = false → apart intent → tree_for intent = Some checks → beginning before →
  sound (reconcile_steps before checks request verb).
Proof. intros. split; [by eapply plan_keys|by eapply plan_ordered]. Qed.

Lemma configuring_sound intent request plan :
  it_tidy intent = false → apart intent → configuring intent request = Some plan → sound plan.
Proof.
  intros Ht Ha. unfold configuring. destruct (tree_for intent) as [checks|] eqn:Hfor; [|done].
  intros Hp. apply (inj Some) in Hp. subst plan.
  apply (reconcile_sound _ intent); [done..|by left].
Qed.

Lemma bootstrap_sound settings plan :
  apart (bootstrap_intent settings) → bootstrap_steps settings = Some plan → sound plan.
Proof.
  intros Ha. unfold bootstrap_steps.
  destruct (tree_for (bootstrap_intent settings)) as [checks|] eqn:Hfor; [|done].
  intros Hp. apply (inj Some) in Hp. subst plan.
  apply (reconcile_sound _ (bootstrap_intent settings)); [done..|].
  destruct (bs_force settings); [right; by eexists|by left].
Qed.

Lemma unasked_sound : sound [].
Proof. split; [|by intros ? ? ? ?]. split; [apply NoDup_nil_2|by apply Forall_nil]. Qed.

Lemma change_sound cfg policy change verb request plan :
  apart_user Reach_User (uc_user cfg) →
  change_steps cfg policy change verb request = Some (Ok plan) → sound plan.
Proof.
  intros Ha. unfold change_steps. case_decide.
  { intros Hp. apply (inj Some) in Hp. injection Hp as <-. apply unasked_sound. }
  destruct (render_change _ _) as [[rendered|e]|]; [|done..]. cbn [mbind option_bind].
  destruct (configuring _ _) as [plan'|] eqn:Hc; [|done].
  intros Hp. apply (inj Some) in Hp. injection Hp as <-.
  eapply configuring_sound; [|..|exact Hc]; [done|]. by intros cfg' [= <-].
Qed.

Lemma removal_sound user : sound (user_remove_steps user).
Proof. split; [apply remove_keys|]. apply unordered. by repeat constructor. Qed.

Lemma purge_sound users : NoDup (user_name <$> users) → sound (purge_steps users).
Proof.
  intros Hu. split; [by apply purge_keys|]. apply unordered. unfold purge_steps.
  apply Forall_cons. split; [done|]. apply Forall_app. split; [|by repeat constructor].
  by apply Forall_fmap, Forall_true.
Qed.

Lemma plan_sound who r plan :
  planned who r plan → (∀ user, who = Some user → apart_user r user) → sound plan.
Proof.
  intros Hp Ha. destruct Hp as [settings plan Hp|cfg policy change verb request plan Hp
    |cfg policy moved request plan Hp|cfg policy all request plan Hp|user|users Hu].
  - eapply bootstrap_sound; [|exact Hp]. intros cfg Hcfg. apply Ha. cbn in Hcfg. by rewrite Hcfg.
  - eapply change_sound; [|exact Hp]. by apply Ha.
  - eapply configuring_sound; [|..|exact Hp]; [done|]. intros cfg' [= <-]. by apply Ha.
  - eapply configuring_sound; [|..|exact Hp]; [done|]. intros cfg' [= <-]. by apply Ha.
  - apply removal_sound.
  - by apply purge_sound.
Qed.

(** These requests always have a plan. *)
Lemma configuring_returns intent request : ∃ plan, configuring intent request = Some plan.
Proof.
  unfold configuring. destruct (tree_waits intent) as (checks & -> & _). by eexists.
Qed.

Lemma bootstrap_returns settings : ∃ plan, bootstrap_steps settings = Some plan.
Proof.
  unfold bootstrap_steps. destruct (tree_waits (bootstrap_intent settings)) as (checks & -> & _).
  by eexists.
Qed.


End Plans.

(** ** At concrete users *)

Definition no_json : JsonValue unit :=
  Build_JsonValue unit (λ _ _, None) (λ _, None) (λ _, None) (λ _, None).

Definition some_policy : Policy := mkPolicy None "" "".

Lemma alice_apart : apart_user Reach_Machine (uc_user alice).
Proof.
  split; [by eexists _, _|by split_and!|done| |].
  - apply (bool_decide_unpack _). vm_compute. exact I.
  - intros _. apply (bool_decide_unpack _). vm_compute. exact I.
Qed.

Definition alice_settings : BootstrapSettings :=
  mkBootstrapSettings some_policy (Some alice) true (mkRuntime "" "" 0) "r".

(** A user called like the last step of their plans, whose home is of another name. *)
Definition record_user : UserConfig :=
  mkUserConfig (mkInvokingUser 1000 1000 "record" (of_string "/home/alice")) EMBEDDED
    "flake" "lock" "home" None.

Definition steps_of (plan : option (list StepSpec)) : list StepSpec := default [] plan.

Definition repairing : list StepSpec :=
  default [] ((λ checks, @repair_steps bits_json unit no_json checks "r") <$>
    @tree_for bits_json (intent_machine (Some record_user) some_policy)).

Definition unreachable : option Runner.Input := Some (Input_Facts (Err Failure_SystemdUnreachable)).


